(* ===== verification/_CoqProject ===== *)
-Q . S2P
Prelude.v
RustStr.v
Graph.v
Trail.v
TrailBfs.v
TrailNeighborhood.v
TrailPath.v
TrailTarget.v
QueryLanguage.v
QueryRender.v
QueryErrors.v
Admission.v
EngineConfig.v
EngineWorld.v
EngineOwner.v
EngineRequests.v
EngineOwnerBooks.v
EngineFairness.v
RetrievalPlan.v
RetrievalData.v
RetrievalCache.v
RetrievalExecutor.v
RetrievalQuery.v
ServerFrame.v
ServerState.v
ServerDrainProofs.v
Sorting.v
StrOps.v
UnixPath.v
WorkspacePaths.v
TemplateText.v
TemplateBlanks.v
RetrievalRanker.v
RankerProofs.v
Collections.v
Encoding.v
LanguageSupport.v
ResolveText.v
ResolveIndex.v
ResolveSelect.v
SemanticIndex.v
ResolveStore.v
ResolveOverrides.v
ResolveSnapshot.v
ResolveCache.v
ResolvePass.v
ResolveSelectProofs.v
ResolveClaims.v
ResolveRun.v
AffectedWalk.v
AffectedImpacts.v
AffectedMatching.v
AffectedAnalysis.v
AffectedWalkProofs.v
AffectedReportProofs.v
AffectedMatchProofs.v
WorkspaceDiscovery.v
WorkspaceRefresh.v
WorkspacePathsProofs.v
WorkspaceInventoryProofs.v
WorkspaceRefreshProofs.v
WorkspacePolicyProofs.v
RepositoryIdentity.v
RepositoryIdentityProofs.v
Retention.v
RetentionProofs.v
Promotion.v
SidecarStore.v
RetentionInventory.v
SidecarStoreProofs.v
LexicalIndex.v
LexicalIndexProofs.v
EmbeddedVector.v
EmbeddedVectorProofs.v
SidecarClients.v
SidecarClientsProofs.v
RetentionLocks.v
RetrievalPublication.v
RetrievalPublicationProofs.v
PromotionProofs.v
