(* ===== verification/Prelude.v ===== *)
(** * CodeStory: a verification library for the local code map

    CodeStory indexes a repository into a graph of symbols and references that SQLite
    stores, resolves references across files, answers trail and text queries over the
    graph, and retrieves context for agents from three sidecar indexes, one of them fed by
    a native embedding engine that a per-user server shares between processes.  This
    library models the parts whose logic is the program's own and states what makes each
    of them correct.  Paths below are relative to src/crates/.

    ** How the parts interact

    The workspace crate finds the source files and plans a refresh; the indexer blanks
    template files and extracts nodes and edges; the resolution pass gives calls, imports
    and overrides their targets; the store keeps the graph in a staged database that is
    promoted over the live one.  The runtime parses a query, asks the store for trails, the
    affected analysis for dependents, and the retrieval executor for candidates.  The
    executor asks the three sidecars, merges, ranks and caches; the sidecars are built from
    the core database (symbol documents, anchors), published as one generation, pinned by
    queries and pruned by retention.  The semantic sidecar sends texts to the embedding
    server over framed connections; the server admits requests and hands them to the native
    engine, whose single worker owns the model.  Components meet through interfaces:
    [TrailStorage] (rows of the store), [QuerySource] (services of the browser),
    [SidecarSearch] (implemented by [live_sidecars] of SidecarClients) and [Ranker]
    (implemented by RetrievalRanker), [JsonCodec], [UnicodeTables], [Digest], and, for the
    resolver, the free monad [Lookups] between the choice of a target and the candidate
    index.  Interfaces to the system and to other libraries: [FileSystem], [GlobSyntax],
    [DirectoryWalk], [ManifestFormat] (workspace), [Git] (identities), [HashOrder] (the
    order in which a hash map hands out its entries), [PromotionDatabase] (what a database
    file holds), [RetentionIo], [GenerationRemover], [OwnedDeletion], [InventoryIo],
    [RollbackJson], [CandidateIo], [FenceIo] (generations), [FtsEngine], [CaseTables],
    [CoverageJson], [CoreStores] (lexical shard), [EmbeddingServer] (query vectors),
    [ScipJson] and [SupportJson] (serde_json), [Workspace], [Controller] and
    [RouteEndpoints] (affected analysis).

    ** Files

    Shared: Prelude (results, notations, tactics, lemmas on lists and maps), RustStr and StrOps
    (strings as UTF-8 bytes), Sorting (stable sorts and lawful comparisons), Collections
    (maps, sorted vectors, ordered candidate sets), Encoding (little-endian integers, framed
    hash inputs, paged reads of a table), UnixPath (std::path on Unix).

    Graph data and trails.  Graph is codestory-contracts/src/graph.rs and graph/error.rs.
    Trail is codestory-store/src/storage_impl/trail.rs: [get_trail_bfs],
    [get_trail_to_target] and their loops.  TrailBfs, TrailNeighborhood, TrailPath and
    TrailTarget prove that an untruncated trail is exactly the reachable neighbourhood, or
    the nodes and edges of the bounded paths from root to target; that a truncated one is
    closed, bounded and keeps a shortest path; and that every request returns.

    Query language.  QueryLanguage is codestory-runtime/src/query_language.rs,
    codestory-contracts/src/query.rs and the pipeline of codestory-runtime/src/browser.rs.
    QueryRender and QueryErrors prove the round trip with a canonical rendering, that errors
    point into the source, and what running a query returns.

    Affected analysis (codestory-runtime/src/affected.rs).  AffectedWalk is the reverse walk
    over the dependents, AffectedImpacts the impact lists, AffectedMatching the join of
    changed paths with indexed files by path identity (path_identity.rs), AffectedAnalysis
    the classification of the inputs and the report.  AffectedWalkProofs,
    AffectedMatchProofs and AffectedReportProofs prove that the walk finds the best evidence
    at the shortest distance, that the join is the relational one, and that an analysis that
    calls itself complete covers every changed path.

    Workspace (codestory-workspace/src).  WorkspacePaths is the path helpers of lib.rs and
    the path identities of repository_identity.rs, WorkspaceDiscovery the scan for source
    files, WorkspaceRefresh the source-index policy and the refresh plan; RepositoryIdentity
    the identities of remotes, projects and artefact scopes.  WorkspacePathsProofs,
    WorkspaceInventoryProofs, WorkspacePolicyProofs, WorkspaceRefreshProofs and
    RepositoryIdentityProofs prove containment, that an inventory refines a fold over what was observed, that a policy
    leaves every file in one place, what a plan indexes and removes, and that identities are
    lossless.

    Promotion (codestory-store/src/storage_impl/mod.rs).  Promotion is
    [promote_staged_snapshot] and [recover_interrupted_promotion] over a disk on which every
    operation may fail or be the last; PromotionProofs proves that every ending settles on
    the old or the new database.

    Inputs of the sidecars.  SidecarStore is the anchor, exclusion and symbol-document
    tables of the store with the manifests that publish them; SidecarStoreProofs proves that
    a validated publication describes the rows, when a publication that is present is
    current (not after a copy that inserted its rows and did not delete the publication),
    and the round trips.

    Sidecar indexes (codestory-retrieval/src).  LexicalIndex is lexical_index.rs,
    EmbeddedVector embedded_vector.rs with the query side of embeddings.rs in binary32 and
    binary64 arithmetic, SidecarClients scip_index.rs, scip_client.rs, lexical_client.rs and
    the live implementation of [SidecarSearch] in sidecar_search.rs.  LexicalIndexProofs,
    EmbeddedVectorProofs and SidecarClientsProofs prove that a build installs a complete
    shard or leaves the old one, that a built database validates and holds the produced
    points, that searches return the best candidates of their own generation in order, and
    that an emission of the graph serves the old or the new index.

    Generations (codestory-retrieval/src).  Retention is retention.rs; RetentionInventory
    the staleness of generation.rs and the cleanup of inventory.rs; RetrievalPublication the
    publication table and the end of an index run (index.rs); RetentionLocks the lock
    protocol of queries, publication and cleanup as interleaved sessions.  RetentionProofs,
    RetrievalPublicationProofs and the theorems in the other two files prove that retention
    removes nothing protected, that publication replaces two pointers or nothing, that
    staleness is exact, that a pinned generation stays and that the sessions never deadlock.

    Retrieval (codestory-retrieval/src).  RetrievalPlan is mode.rs, query_features.rs and
    planner.rs; RetrievalData candidate.rs, generation.rs and two tables of the store;
    RetrievalCache cache.rs; RetrievalExecutor executor.rs; RetrievalRanker ranker.rs in
    binary32 arithmetic.  RetrievalQuery proves that the planned stages run in order, that
    only complete results are cached and that a query outside full mode fails; RankerProofs
    that the ranking is a sorted rearrangement under a lawful comparison.

    Native engine.  Admission is codestory-llama-sys/src/admission.rs (the lifecycle byte
    of a request and the tracker).  EngineConfig, EngineWorld and EngineOwner are
    codestory-llama-sys/src/lib.rs: configuration and batches; shared state, queues,
    submission and the worker; residency and the owner loop.  EngineRequests,
    EngineOwnerBooks and EngineFairness prove, for every schedule of client actions, that an
    accepted request is answered at most once and never lost, that no wake-up is lost and
    that the scheduler alternates fairly.

    Embedding server (codestory-retrieval/src/per_user_embedding).  ServerFrame is
    exchange.rs and server/frame.rs; ServerState admission.rs and server/state.rs, and the
    interleaving of server/state.rs and server/lifecycle.rs as a step relation.  ServerFrame
    and ServerState also prove that frames survive any cutting of the stream and that
    permits are accounted for; ServerDrainProofs, by induction on reachability, that a
    committed drain is final and that finished handlers leave nothing behind.

    Indexer, templates.  TemplateText is codestory-indexer/src/template_pipeline.rs and
    structural/blanking.rs; TemplateBlanks proves that blanking keeps lengths, positions and
    UTF-8, and which bytes it keeps.

    Indexer, resolution (codestory-indexer/src/resolution and semantic).  LanguageSupport
    is the language tables (codestory-contracts/src/language_support.rs, semantic/mod.rs).
    ResolveText has the functions on names, paths and import candidates; ResolveIndex the
    candidate index and its lookups as a free monad; ResolveCache the seven
    read-write-locked caches; ResolveSelect candidate_selection.rs; SemanticIndex the
    semantic resolvers; ResolveStore the SQL statements as functions on the node and edge
    tables; ResolveOverrides the walk over ancestors; ResolveSnapshot the support of a run,
    its stored snapshot and the state read back from it; ResolvePass the transaction of a
    run (pipeline.rs), with the outcome of every statement, of BEGIN, COMMIT and ROLLBACK.
    - ResolveCache: each lookup of a built index is a scan of the nodes; the caches never
      change an answer, for one thread or a pool of threads.
    - ResolveSelectProofs, ResolveClaims: a call is resolved by the first stage that
      answers, an import by the first of its names; recorded candidates contain the choice;
      common names are resolved only when certain; an import leaves its file; deduplicated
      semantic requests give each row its own candidates.
    - ResolveRun: a run maps one function over the edges and commits all of it or, when a
      statement, a poll or the commit fails, nothing; it changes edges in scope only; a
      second run, with the snapshot of the first, changes nothing; the counters of imports
      add up.
    - ResolveOverrides, SemanticIndex: the walk collects the methods of exactly the strict
      ancestors and ends on cycles; what a semantic search of a call returns.

    ** Bounds and fuel

    Machine integers are Z with their saturation or wrap-around written out.  The
    neighbourhood loop gets two rounds more than the edge limit, the distance loop two more
    than the node limit and the edges of one node together, and [get_trail_returns] proves
    that every request returns.  The ancestor walk gets one step more than there are inheritance
    entries; a type is pushed once per entry, and [override_walk_complete] proves that the
    work list is empty at the end.  The reverse walk of the affected analysis has one layer
    per unit of its depth, which the code clamps to 1..8.  Paged reads of a table get more
    fuel than it has rows, and the theorems that use them say so ([staleness_exact],
    [scan_visits_documents]).  The readers of frames, words, paths and tags get the length
    of their input.  Stage waits and pool admissions are bounded by deadlines
    (RetrievalQuery).  The engine's loops run until a shutdown, so they take a number of
    rounds and say when it ends first; their theorems hold for every number.

    ** Conventions

    A program that shares state with others is cut where other threads can act: schedules
    of client actions (engine), scripts of events (executor), a step relation (drain,
    changes of the sidecar tables), interleavings of lookups (caches), sessions (locks).
    A program that can fail part-way takes a script of outcomes: answers of cancellation
    polls and of SQL statements (resolution), disk operations with failures before or after
    their effect and process death (promotion, shard builds, emissions; not power loss).
    Mutexes are never poisoned.  The tables of the resolver are lists of rows and a statement
    is the function its text describes; [unique_edge_ids] is the primary key of the edges.
    SHA-256 is a parameter; where a theorem needs two inputs to be equal it says so or names
    the collision.  In RetentionLocks the steps between lock operations are the abstract
    effects on the published, kept and stored generations, not their text.

    ** What is not modelled, and why

    - Extraction from syntax trees (codestory-indexer/src/lib.rs, framework_routes.rs):
      driven by tree-sitter grammars and graph rules outside the repository's code.
    - The SQLite engine and its full-text ranking, serde_json, git, directory walking and
      globbing: other libraries, interfaces here.
    - The transport to the embedding server and its health probe, and the evidence about
      the producer of a vector generation: I/O and process facts.
    - The clocks of telemetry.
    - The command line, rendering and the agent packets: glue and tables of phrases.

    ** Plan

    Next are the input fingerprint of a sidecar run (index.rs), the publication of
    structural text units, the grounding views, the interactive scheduler and watchdog of
    the embedding server and its serve operation, the producer evidence of vectors, the row
    codecs of the store, and the structural collectors for CSS, SQL and compose files. *)
From stdpp Require Export base tactics decidable option list numbers strings gmap fin_maps sorting.
From Stdlib Require Export Ascii ZArith Lia.
From Stdlib Require String.
From Stdlib Require Export SpecFloat.

#[export] Set Default Goal Selector "!".
#[export] Set Warnings "-clear-no-such-hyp".

Declare Scope rust_scope.
Delimit Scope rust_scope with rust.
Open Scope Z_scope.
Open Scope list_scope.

(** ** Rust results

    [Result<A, E>]; the [?] operator is the bind of stdpp's monad notation
    ([x ← e; k]), which returns the first error unchanged. *)
Inductive result (E A : Type) : Type :=
| Ok (a : A)
| Err (e : E).
Arguments Ok {E A} a.
Arguments Err {E A} e.

#[export] Instance result_ret {E} : MRet (result E) := fun A a => Ok a.
#[export] Instance result_bind {E} : MBind (result E) := fun A B f r =>
  match r with Ok a => f a | Err e => Err e end.
#[export] Instance result_fmap {E} : FMap (result E) := fun A B f r =>
  match r with Ok a => Ok (f a) | Err e => Err e end.

#[export] Instance result_eq_dec {E A} `{EqDecision E} `{EqDecision A} :
  EqDecision (result E A).
Proof. solve_decision. Defined.

Definition ok_or {E A} (o : option A) (e : E) : result E A :=
  match o with Some a => Ok a | None => Err e end.

Definition is_ok {E A} (r : result E A) : bool :=
  match r with Ok _ => true | Err _ => false end.

Definition result_ok {E A} (r : result E A) : option A :=
  match r with Ok a => Some a | Err _ => None end.

Lemma bind_Ok {E A B} (f : A → result E B) r b :
  (r ≫= f) = Ok b ↔ ∃ a, r = Ok a ∧ f a = Ok b.
Proof.
  destruct r as [a|e]; simpl; split; [eauto| |done|].
  - by intros (? & [= <-] & ?).
  - by intros (? & ? & ?).
Qed.

Lemma bind_Err {E A B} (f : A → result E B) r e :
  (r ≫= f) = Err e ↔ r = Err e ∨ ∃ a, r = Ok a ∧ f a = Err e.
Proof.
  destruct r as [a|e']; simpl; split; [eauto| | |].
  - intros [?|(? & [= <-] & ?)]; done.
  - intros [= ->]; by left.
  - intros [[= ->]|(? & ? & ?)]; done.
Qed.

(** Takes an equation [... = Ok _] between binds apart. *)
Ltac invert_ok :=
  repeat match goal with
  | H : _ ≫= _ = Ok _ |- _ =>
      apply bind_Ok in H; let a := fresh "a" in
      let Ha := fresh "Ha" in destruct H as (a & Ha & H)
  | H : mret _ = Ok _ |- _ => unfold mret, result_ret in H
  | H : Ok _ = Ok _ |- _ => injection H as H
  | H : Err _ = Ok _ |- _ => discriminate H
  | H : Ok _ = Err _ |- _ => discriminate H
  | H : Err _ = Err _ |- _ => injection H as H
  end.

(** A fold with [?] or an early return in its body. *)
Fixpoint try_fold {E S A} (f : S → A → result E S) (s : S) (l : list A) : result E S :=
  match l with
  | [] => Ok s
  | a :: l => s' ← f s a; try_fold f s' l
  end.
Lemma try_fold_app {E S A} (f : S → A → result E S) l1 l2 : ∀ s,
  try_fold f s (l1 ++ l2) = (s' ← try_fold f s l1; try_fold f s' l2).
Proof.
  induction l1 as [|a l1 IH]; intros s; [done|]. cbn. destruct (f s a); [|done]. by cbn; rewrite IH.
Qed.
Lemma try_fold_inv {E S A} (P : S → Prop) (f : S → A → result E S) l :
  (∀ s a s', a ∈ l → P s → f s a = Ok s' → P s') →
  ∀ s s', P s → try_fold f s l = Ok s' → P s'.
Proof.
  induction l as [|a l IH]; intros Hf s s' Hs H; cbn in H; [by injection H as <-|].
  invert_ok. eapply IH; [|eapply (Hf s a); [by left|done..]|done].
  intros s1 b s2 Hb. apply Hf. by right.
Qed.
Lemma try_fold_err {E S A} (P : S → Prop) (Q : E → Prop) (f : S → A → result E S) l :
  (∀ s a s', a ∈ l → P s → f s a = Ok s' → P s') →
  (∀ s a e, a ∈ l → P s → f s a = Err e → Q e) →
  ∀ s e, P s → try_fold f s l = Err e → Q e.
Proof.
  induction l as [|a l IH]; intros Hf He s e Hs H; cbn in H; [done|].
  apply bind_Err in H as [H|(s1 & H1 & H)]; [by apply (He s a); [left|..]|].
  eapply IH; [| |eapply (Hf s a); [by left|done..]|done].
  - intros s2 b s3 Hb. apply Hf. by right.
  - intros s2 b e2 Hb. apply He. by right.
Qed.

(** ** Machine integers

    Unsigned integers are [Z] values between 0 and the type's maximum.  [usize]
    has 64 bits on every platform the program supports. *)
Definition u8_max : Z := 2 ^ 8 - 1.
Definition u32_max : Z := 2 ^ 32 - 1.
Definition u64_max : Z := 2 ^ 64 - 1.
Definition usize_max : Z := u64_max.
Definition i64_min : Z := - 2 ^ 63.

Definition in_range (max n : Z) : Prop := 0 ≤ n ≤ max.

Definition saturating_add (max a b : Z) : Z := Z.min max (a + b).
Definition saturating_sub (a b : Z) : Z := Z.max 0 (a - b).
Definition saturating_mul (max a b : Z) : Z := Z.min max (a * b).
Definition checked_add (max a b : Z) : option Z :=
  if decide (a + b ≤ max) then Some (a + b) else None.
(** [+] and [-] on a machine integer: wrap-around at [max + 1]. *)
Definition wrapping_add (max a b : Z) : Z := (a + b) `mod` (max + 1).
Definition wrapping_sub (max a b : Z) : Z := (a - b) `mod` (max + 1).
Definition usize_from_bool (b : bool) : Z := if b then 1 else 0.

Definition len {A} (l : list A) : Z := Z.of_nat (length l).

Lemma len_nonneg {A} (l : list A) : 0 ≤ len l.
Proof. unfold len. lia. Qed.
Lemma len_nil {A} : len (@nil A) = 0.
Proof. reflexivity. Qed.
Lemma len_cons {A} (x : A) l : len (x :: l) = 1 + len l.
Proof. unfold len. simpl. lia. Qed.
Lemma len_app {A} (l1 l2 : list A) : len (l1 ++ l2) = len l1 + len l2.
Proof. unfold len. rewrite length_app. lia. Qed.

Lemma saturating_add_bounds max a b :
  0 ≤ a → 0 ≤ b → 0 ≤ max → in_range max (saturating_add max a b).
Proof. unfold saturating_add, in_range. lia. Qed.

Lemma saturating_add_mono max a b : a ≤ max → 0 ≤ b → a ≤ saturating_add max a b.
Proof. unfold saturating_add. lia. Qed.

Lemma wrapping_add_small max a b : 0 ≤ a → 0 ≤ b → a + b ≤ max → wrapping_add max a b = a + b.
Proof. intros. unfold wrapping_add. apply Z.mod_small. lia. Qed.

(** Elements of a strictly sorted list are identified by their sort key. *)
Lemma strongly_sorted_key_inj {A} (f : A → Z) l a b :
  StronglySorted (λ a b, f a < f b) l → a ∈ l → b ∈ l → f a = f b → a = b.
Proof.
  induction 1 as [|x l _ IH Hx]; [by intros ?%elem_of_nil|]. rewrite Forall_forall in Hx.
  intros [->|Ha]%elem_of_cons [->|Hb]%elem_of_cons Heq; [done| | |auto].
  - apply Hx in Hb. lia.
  - apply Hx in Ha. lia.
Qed.

(** Sublists and additions of sorted lists. *)
Lemma strongly_sorted_sublist {A} (R : A → A → Prop) l1 l2 :
  l1 `sublist_of` l2 → StronglySorted R l2 → StronglySorted R l1.
Proof.
  induction 1 as [|x l1 l2 Hs IH|x l1 l2 Hs IH]; intros Hl; [done| |];
    apply StronglySorted_inv in Hl as [Hl Hx]; [|by apply IH].
  constructor; [by apply IH|]. rewrite Forall_forall in *. intros y Hy. apply Hx.
  by apply (sublist_subseteq _ _ Hs).
Qed.
Lemma strongly_sorted_snoc {A} (R : relation A) l x :
  StronglySorted R l → Forall (λ y, R y x) l → StronglySorted R (l ++ [x]).
Proof.
  intros Hl Hx. apply StronglySorted_app_2; [|done|repeat constructor].
  rewrite Forall_forall in Hx. intros y z Hy ->%list_elem_of_singleton. auto.
Qed.
Lemma sublist_not_nil {A} (l l' : list A) : sublist l l' → l ≠ [] → l' ≠ [].
Proof. intros Hs Hl ->. by apply sublist_nil_r in Hs. Qed.

(** ** Single-precision floats

    [f32] is the executable IEEE 754 binary32 of the Standard Library's
    specification floats; a decimal literal is the correctly rounded quotient. *)
Definition f32 : Type := spec_float.
Definition f32_prec : Z := 24.
Definition f32_emax : Z := 128.
Definition f32_of_Z (z : Z) : f32 := binary_normalize f32_prec f32_emax z 0 false.
Definition f32_ratio (n d : Z) : f32 :=
  SFdiv f32_prec f32_emax (f32_of_Z n) (f32_of_Z d).
Definition f32_lt (a b : f32) : bool := SFltb a b.
Definition f32_le (a b : f32) : bool := SFleb a b.
Definition f32_eq (a b : f32) : bool := SFeqb a b.
Definition f32_gt (a b : f32) : bool := SFltb b a.
Definition f32_ge (a b : f32) : bool := SFleb b a.

#[export] Instance f32_eq_dec : EqDecision f32.
Proof. solve_decision. Defined.
