(* ===== verification/RustStr.v ===== *)
(** * Strings as UTF-8 bytes

    A Rust [&str] or [String] is the list of its UTF-8 bytes, so that byte
    offsets, [len] and slices are the list operations.  Every character the
    sources compare with is ASCII, and an ASCII byte never occurs inside a longer
    UTF-8 sequence, so scanning bytes agrees with [char_indices].  [trim] removes
    the characters with the Unicode White_Space property, by their encodings. *)
From S2P Require Import Prelude.

Abbreviation str := (list ascii) (only parsing).

Definition lit (s : String.string) : str := String.list_ascii_of_string s.
Definition byte (n : N) : ascii := ascii_of_N n.

Definition str_eqb (a b : str) : bool := bool_decide (a = b).

Lemma str_eqb_eq a b : str_eqb a b = true ↔ a = b.
Proof. apply bool_decide_eq_true. Qed.

Lemma str_eqb_refl a : str_eqb a a = true.
Proof. by apply str_eqb_eq. Qed.

(** ** Searching *)
Fixpoint starts_with (s pat : str) : bool :=
  match pat, s with
  | [], _ => true
  | _, [] => false
  | p :: pat', c :: s' => Ascii.eqb p c && starts_with s' pat'
  end.

Definition ends_with (s pat : str) : bool := starts_with (reverse s) (reverse pat).

Fixpoint contains (s pat : str) : bool :=
  starts_with s pat || match s with [] => false | _ :: s' => contains s' pat end.

(** [str::find] and [str::rfind] of an ASCII character: the byte offset. *)
Fixpoint find_byte (c : ascii) (s : str) : option nat :=
  match s with
  | [] => None
  | x :: s' => if Ascii.eqb x c then Some 0%nat else S <$> find_byte c s'
  end.

Fixpoint rfind_byte (c : ascii) (s : str) : option nat :=
  match s with
  | [] => None
  | x :: s' =>
      match rfind_byte c s' with
      | Some i => Some (S i)
      | None => if Ascii.eqb x c then Some 0%nat else None
      end
  end.

(** [str::replace] of a non-empty pattern, left to right without overlap. *)
Fixpoint replace_skip (pat by_ : str) (skip : nat) (s : str) : str :=
  match s with
  | [] => []
  | c :: s' =>
      match skip with
      | S k => replace_skip pat by_ k s'
      | O => if starts_with s pat
             then by_ ++ replace_skip pat by_ (length pat - 1) s'
             else c :: replace_skip pat by_ 0 s'
      end
  end.
Definition replace (s pat by_ : str) : str := replace_skip pat by_ 0 s.

(** ** ASCII case *)
Definition ascii_lower (c : ascii) : ascii :=
  let n := N_of_ascii c in
  if (65 <=? n)%N && (n <=? 90)%N then ascii_of_N (n + 32) else c.
Definition ascii_upper (c : ascii) : ascii :=
  let n := N_of_ascii c in
  if (97 <=? n)%N && (n <=? 122)%N then ascii_of_N (n - 32) else c.
Definition to_ascii_lowercase (s : str) : str := ascii_lower <$> s.
Definition to_ascii_uppercase (s : str) : str := ascii_upper <$> s.

(** ** Characters *)

(** The characters of a string, each as its UTF-8 bytes. *)
Definition is_continuation (c : ascii) : bool :=
  let n := N_of_ascii c in (128 <=? n)%N && (n <? 192)%N.
Fixpoint chars_from (s : str) : str * list str :=
  match s with
  | [] => ([], [])
  | c :: s =>
      let '(pending, cs) := chars_from s in
      if is_continuation c then (c :: pending, cs) else ([], (c :: pending) :: cs)
  end.
Definition chars (s : str) : list str := (chars_from s).2.

(** ** Trimming *)
Definition utf8_whitespace : list str :=
  ((λ n, [byte n]) <$> [9; 10; 11; 12; 13; 32]%N)
  ++ [[byte 194; byte 133]; [byte 194; byte 160]; [byte 225; byte 154; byte 128]]
  ++ ((λ n, [byte 226; byte 128; byte n]) <$>
      [128; 129; 130; 131; 132; 133; 134; 135; 136; 137; 138; 168; 169; 175]%N)
  ++ [[byte 226; byte 129; byte 159]; [byte 227; byte 128; byte 128]].

Fixpoint strip_one (ws : list str) (s : str) : option str :=
  match ws with
  | [] => None
  | w :: ws' => if starts_with s w then Some (drop (length w) s) else strip_one ws' s
  end.

Fixpoint strip_all (ws : list str) (fuel : nat) (s : str) : str :=
  match fuel with
  | O => s
  | S fuel' =>
      match strip_one ws s with
      | Some s' => strip_all ws fuel' s'
      | None => s
      end
  end.

Definition trim_start (s : str) : str := strip_all utf8_whitespace (length s) s.
Definition trim_end (s : str) : str :=
  reverse (strip_all (reverse <$> utf8_whitespace) (length s) (reverse s)).
Definition trim (s : str) : str := trim_end (trim_start s).

(** Bytes that can begin or end an encoded whitespace character. *)
Definition first_byte_in (ws : list str) (c : ascii) : bool :=
  existsb (λ w, match w with [] => true | x :: _ => Ascii.eqb x c end) ws.
Definition plain_first (c : ascii) : bool := negb (first_byte_in utf8_whitespace c).
Definition plain_last (c : ascii) : bool :=
  negb (first_byte_in (reverse <$> utf8_whitespace) c).

Lemma strip_one_none ws c s : first_byte_in ws c = false → strip_one ws (c :: s) = None.
Proof.
  induction ws as [|w ws IH]; simpl; [done|].
  intros [Hw Hws]%orb_false_iff. destruct w as [|x w]; [done|].
  simpl. rewrite Hw. simpl. by apply IH.
Qed.

Lemma strip_all_id ws n c s : first_byte_in ws c = false → strip_all ws n (c :: s) = c :: s.
Proof. intros H. destruct n; simpl; [done|]. by rewrite strip_one_none. Qed.

Lemma trim_start_plain c s : plain_first c = true → trim_start (c :: s) = c :: s.
Proof. intros H%negb_true_iff. by apply strip_all_id. Qed.

Lemma trim_end_plain s c : plain_last c = true → trim_end (s ++ [c]) = s ++ [c].
Proof.
  intros H%negb_true_iff. unfold trim_end. rewrite reverse_snoc.
  rewrite strip_all_id by done. by rewrite reverse_cons, reverse_involutive.
Qed.

Lemma trim_nil : trim [] = [].
Proof. reflexivity. Qed.

(** A string whose first and last bytes are not whitespace bytes is its own trim. *)
Lemma trim_plain c s d t :
  plain_first c = true → plain_last d = true → c :: s = t ++ [d] → trim (c :: s) = c :: s.
Proof.
  intros Hc Hd Heq. unfold trim. rewrite trim_start_plain by done.
  rewrite Heq. by apply trim_end_plain.
Qed.

(** One leading or trailing space is removed. *)
Lemma strip_one_space s : strip_one utf8_whitespace (byte 32 :: s) = Some s.
Proof. destruct s; vm_compute; reflexivity. Qed.
Lemma strip_one_space_rev s : strip_one (reverse <$> utf8_whitespace) (byte 32 :: s) = Some s.
Proof. destruct s; vm_compute; reflexivity. Qed.

Lemma trim_start_space s : trim_start (byte 32 :: s) = trim_start s.
Proof. unfold trim_start. cbn [length strip_all]. by rewrite strip_one_space. Qed.

Lemma trim_end_space s : trim_end (s ++ [byte 32]) = trim_end s.
Proof.
  unfold trim_end. rewrite reverse_snoc, length_app, Nat.add_1_r.
  cbn [strip_all]. by rewrite strip_one_space_rev.
Qed.

(** ** Decimal numbers *)
Definition digit_char (d : Z) : ascii := ascii_of_N (Z.to_N (48 + d)).
Definition char_digit (c : ascii) : option Z :=
  let n := Z.of_N (N_of_ascii c) in
  if (48 <=? n) && (n <=? 57) then Some (n - 48) else None.

Fixpoint dec_digits (fuel : nat) (n : Z) (acc : str) : str :=
  match fuel with
  | O => acc
  | S fuel' =>
      let acc' := digit_char (n `mod` 10) :: acc in
      if n / 10 =? 0 then acc' else dec_digits fuel' (n / 10) acc'
  end.
(** [format!("{n}")] of an unsigned integer of at most 64 bits: 20 digits suffice. *)
Definition show_uint (n : Z) : str := dec_digits 20 n [].
(** [format!("{n}")] of a signed integer. *)
Definition show_int (n : Z) : str := if n <? 0 then lit "-" ++ show_uint (- n) else show_uint n.

Fixpoint parse_digits (max acc : Z) (s : str) : option Z :=
  match s with
  | [] => Some acc
  | c :: s' =>
      d ← char_digit c;
      if acc * 10 + d <=? max then parse_digits max (acc * 10 + d) s' else None
  end.
(** [str::parse] of an unsigned integer: an optional [+], then decimal digits,
    failing on overflow. *)
Definition parse_uint (max : Z) (s : str) : option Z :=
  match s with
  | [] => None
  | c :: s' =>
      if Ascii.eqb c "+"%char
      then match s' with [] => None | _ => parse_digits max 0 s' end
      else parse_digits max 0 s
  end.
Definition parse_u32 (s : str) : option Z := parse_uint u32_max s.

Definition is_digit (c : ascii) : Prop := ∃ d, 0 ≤ d ≤ 9 ∧ c = digit_char d.

Lemma digit_cases (P : Z → Prop) :
  P 0 → P 1 → P 2 → P 3 → P 4 → P 5 → P 6 → P 7 → P 8 → P 9 → ∀ d, 0 ≤ d ≤ 9 → P d.
Proof.
  intros. assert (d = 0 ∨ d = 1 ∨ d = 2 ∨ d = 3 ∨ d = 4 ∨ d = 5 ∨ d = 6 ∨ d = 7
    ∨ d = 8 ∨ d = 9) as Hd by lia.
  repeat (destruct Hd as [->|Hd]; [done|]). by subst.
Qed.

Lemma char_digit_char d : 0 ≤ d ≤ 9 → char_digit (digit_char d) = Some d.
Proof. revert d. by apply digit_cases. Qed.

(** A boolean test that holds of every digit holds of a digit character. *)
Lemma is_digit_test (f : ascii → bool) c :
  forallb (λ d, f (digit_char d)) [0; 1; 2; 3; 4; 5; 6; 7; 8; 9] = true →
  is_digit c → f c = true.
Proof.
  intros Hf (d & Hd & ->). rewrite forallb_forall in Hf. apply Hf.
  revert d Hd. apply digit_cases; simpl; tauto.
Qed.

Lemma dec_digits_spec fuel : ∀ n acc,
  0 ≤ n < 10 ^ Z.of_nat fuel → (0 < fuel)%nat →
  ∃ ds, dec_digits fuel n acc = ds ++ acc ∧ ds ≠ [] ∧ Forall is_digit ds ∧
    ∀ max rest, n ≤ max → parse_digits max 0 (ds ++ rest) = parse_digits max n rest.
Proof.
  induction fuel as [|fuel IH]; intros n acc Hn Hf; [lia|].
  assert (Hd : 0 ≤ n `mod` 10 ≤ 9) by (pose proof (Z.mod_pos_bound n 10); lia).
  simpl. destruct (n / 10 =? 0) eqn:E.
  - apply Z.eqb_eq in E. exists [digit_char (n `mod` 10)].
    split; [done|]. split; [done|]. split; [apply Forall_singleton; by exists (n `mod` 10)|].
    intros max rest Hmax. simpl. rewrite char_digit_char by done. simpl.
    rewrite Z.mod_small by (pose proof (Z.div_mod n 10); lia).
    by rewrite (proj2 (Z.leb_le _ _)) by lia.
  - apply Z.eqb_neq in E.
    assert (Hlt : 0 ≤ n / 10 < 10 ^ Z.of_nat fuel).
    { split; [apply Z.div_pos; lia|]. apply Z.div_lt_upper_bound; [lia|].
      rewrite Nat2Z.inj_succ, Z.pow_succ_r in Hn; lia. }
    destruct fuel as [|fuel']; [simpl in Hlt; lia|].
    destruct (IH (n / 10) (digit_char (n `mod` 10) :: acc) Hlt ltac:(lia))
      as (ds & Hds & Hne & Hdig & Hp).
    exists (ds ++ [digit_char (n `mod` 10)]). rewrite <- app_assoc. split; [done|].
    split; [by destruct ds|]. split.
    { apply Forall_app. split; [done|]. apply Forall_singleton. by exists (n `mod` 10). }
    intros max rest Hmax. rewrite <- app_assoc.
    pose proof (Z.div_mod n 10 ltac:(lia)). rewrite Hp by lia. simpl.
    rewrite char_digit_char by done. simpl.
    replace (n / 10 * 10 + n `mod` 10) with n by lia.
    by rewrite (proj2 (Z.leb_le _ _)) by lia.
Qed.

(** Printing an unsigned integer and parsing it gives it back. *)
Lemma parse_show_uint max n :
  0 ≤ n ≤ max → n ≤ u64_max → parse_uint max (show_uint n) = Some n.
Proof.
  intros Hn Hmax. unfold show_uint.
  destruct (dec_digits_spec 20 n []) as (ds & -> & Hne & Hdig & Hp);
    [unfold u64_max in *; lia|lia|].
  destruct ds as [|c ds]; [done|].
  assert (Ascii.eqb c "+"%char = false) as Hplus.
  { apply negb_true_iff. apply (is_digit_test (λ c, negb (Ascii.eqb c "+"%char)));
      [reflexivity|]. by apply Forall_cons in Hdig as [? _]. }
  rewrite app_nil_r. unfold parse_uint. rewrite Hplus.
  specialize (Hp max [] ltac:(lia)). by rewrite app_nil_r in Hp.
Qed.

Lemma show_uint_digits n :
  0 ≤ n ≤ u64_max → show_uint n ≠ [] ∧ Forall is_digit (show_uint n).
Proof.
  intros Hn. unfold show_uint.
  destruct (dec_digits_spec 20 n []) as (ds & -> & Hne & Hdig & _);
    [unfold u64_max in *; lia|lia|]. by rewrite app_nil_r.
Qed.

(** ** Joining *)
(** [[String]::join]. *)
Fixpoint join (sep : str) (parts : list str) : str :=
  match parts with
  | [] => []
  | [p] => p
  | p :: ps => p ++ sep ++ join sep ps
  end.

Lemma join_snoc sep l x : join sep (l ++ [x]) = match l with [] => x | _ => join sep l ++ sep ++ x end.
Proof.
  induction l as [|y l IH]; [done|]. destruct l as [|z l]; [done|].
  change (y ++ sep ++ join sep ((z :: l) ++ [x]) = (y ++ sep ++ join sep (z :: l)) ++ sep ++ x).
  rewrite IH, <- !app_assoc. done.
Qed.

Lemma join_snoc2 sep l x y : join sep ((l ++ [x]) ++ [y]) = join sep (l ++ [x]) ++ sep ++ y.
Proof. rewrite (join_snoc sep (l ++ [x])). by destruct l. Qed.
