(* ===== verification/Graph.v ===== *)
(** * Graph contracts (codestory-contracts/src/graph.rs, graph/error.rs)

    Node, edge and occurrence records, the persisted enum discriminants, the
    confidence buckets and the trail configuration shared by the store and the
    runtime. *)
From S2P Require Import Prelude RustStr.

(** [NodeId(i64)] and [EdgeId(i64)]. *)
Abbreviation NodeId := Z (only parsing).
Abbreviation EdgeId := Z (only parsing).

Module NodeKind.
Inductive NodeKind : Set :=
| MODULE | NAMESPACE | PACKAGE | FILE
| STRUCT | CLASS | INTERFACE | ANNOTATION | UNION | ENUM | TYPEDEF
| TYPE_PARAMETER | BUILTIN_TYPE
| FUNCTION | METHOD | MACRO
| GLOBAL_VARIABLE | FIELD | VARIABLE | CONSTANT | ENUM_CONSTANT
| UNKNOWN.
End NodeKind.
Abbreviation NodeKind := NodeKind.NodeKind.
#[export] Instance NodeKind_eq_dec : EqDecision NodeKind.
Proof. solve_decision. Defined.

Module EdgeKind.
Inductive EdgeKind : Set :=
| MEMBER | TYPE_USAGE | USAGE | CALL | INHERITANCE | OVERRIDE
| TYPE_ARGUMENT | TEMPLATE_SPECIALIZATION | INCLUDE | IMPORT
| MACRO_USAGE | ANNOTATION_USAGE | UNKNOWN.
End EdgeKind.
Abbreviation EdgeKind := EdgeKind.EdgeKind.
#[export] Instance EdgeKind_eq_dec : EqDecision EdgeKind.
Proof. solve_decision. Defined.

Module OccurrenceKind.
Inductive OccurrenceKind : Set :=
| DEFINITION | REFERENCE | DECLARATION | MACRO_DEFINITION | MACRO_REFERENCE | UNKNOWN.
End OccurrenceKind.
Abbreviation OccurrenceKind := OccurrenceKind.OccurrenceKind.
#[export] Instance OccurrenceKind_eq_dec : EqDecision OccurrenceKind.
Proof. solve_decision. Defined.

Inductive EnumConversionError : Type :=
| InvalidNodeKind (value : Z)
| InvalidEdgeKind (value : Z)
| InvalidOccurrenceKind (value : Z)
| InvalidFileCoverageReason (value : str).

(** [usize::try_from(value)] fails on a negative value; [get] is bounds-checked. *)
Definition enum_from_i32 {T} (value : Z) (variants : list T) : option T :=
  if decide (0 ≤ value) then variants !! Z.to_nat value else None.

Definition NODE_KIND_BY_DISCRIMINANT : list NodeKind :=
  [NodeKind.MODULE; NodeKind.NAMESPACE; NodeKind.PACKAGE; NodeKind.FILE;
   NodeKind.STRUCT; NodeKind.CLASS; NodeKind.INTERFACE; NodeKind.ANNOTATION;
   NodeKind.UNION; NodeKind.ENUM; NodeKind.TYPEDEF; NodeKind.TYPE_PARAMETER;
   NodeKind.BUILTIN_TYPE; NodeKind.FUNCTION; NodeKind.METHOD; NodeKind.MACRO;
   NodeKind.GLOBAL_VARIABLE; NodeKind.FIELD; NodeKind.VARIABLE; NodeKind.CONSTANT;
   NodeKind.ENUM_CONSTANT; NodeKind.UNKNOWN].

Definition EDGE_KIND_BY_DISCRIMINANT : list EdgeKind :=
  [EdgeKind.MEMBER; EdgeKind.TYPE_USAGE; EdgeKind.USAGE; EdgeKind.CALL;
   EdgeKind.INHERITANCE; EdgeKind.OVERRIDE; EdgeKind.TYPE_ARGUMENT;
   EdgeKind.TEMPLATE_SPECIALIZATION; EdgeKind.INCLUDE; EdgeKind.IMPORT;
   EdgeKind.MACRO_USAGE; EdgeKind.ANNOTATION_USAGE; EdgeKind.UNKNOWN].

Definition OCCURRENCE_KIND_BY_DISCRIMINANT : list OccurrenceKind :=
  [OccurrenceKind.DEFINITION; OccurrenceKind.REFERENCE; OccurrenceKind.DECLARATION;
   OccurrenceKind.MACRO_DEFINITION; OccurrenceKind.MACRO_REFERENCE;
   OccurrenceKind.UNKNOWN].

(** [kind as i32]: a [repr(i32)] enum without explicit values numbers its variants
    in declaration order. *)
Definition node_kind_as_i32 (k : NodeKind) : Z :=
  match k with
  | NodeKind.MODULE => 0 | NodeKind.NAMESPACE => 1 | NodeKind.PACKAGE => 2
  | NodeKind.FILE => 3 | NodeKind.STRUCT => 4 | NodeKind.CLASS => 5
  | NodeKind.INTERFACE => 6 | NodeKind.ANNOTATION => 7 | NodeKind.UNION => 8
  | NodeKind.ENUM => 9 | NodeKind.TYPEDEF => 10 | NodeKind.TYPE_PARAMETER => 11
  | NodeKind.BUILTIN_TYPE => 12 | NodeKind.FUNCTION => 13 | NodeKind.METHOD => 14
  | NodeKind.MACRO => 15 | NodeKind.GLOBAL_VARIABLE => 16 | NodeKind.FIELD => 17
  | NodeKind.VARIABLE => 18 | NodeKind.CONSTANT => 19 | NodeKind.ENUM_CONSTANT => 20
  | NodeKind.UNKNOWN => 21
  end.

Definition edge_kind_as_i32 (k : EdgeKind) : Z :=
  match k with
  | EdgeKind.MEMBER => 0 | EdgeKind.TYPE_USAGE => 1 | EdgeKind.USAGE => 2
  | EdgeKind.CALL => 3 | EdgeKind.INHERITANCE => 4 | EdgeKind.OVERRIDE => 5
  | EdgeKind.TYPE_ARGUMENT => 6 | EdgeKind.TEMPLATE_SPECIALIZATION => 7
  | EdgeKind.INCLUDE => 8 | EdgeKind.IMPORT => 9 | EdgeKind.MACRO_USAGE => 10
  | EdgeKind.ANNOTATION_USAGE => 11 | EdgeKind.UNKNOWN => 12
  end.

Definition occurrence_kind_as_i32 (k : OccurrenceKind) : Z :=
  match k with
  | OccurrenceKind.DEFINITION => 0 | OccurrenceKind.REFERENCE => 1
  | OccurrenceKind.DECLARATION => 2 | OccurrenceKind.MACRO_DEFINITION => 3
  | OccurrenceKind.MACRO_REFERENCE => 4 | OccurrenceKind.UNKNOWN => 5
  end.

Definition node_kind_try_from (value : Z) : result EnumConversionError NodeKind :=
  ok_or (enum_from_i32 value NODE_KIND_BY_DISCRIMINANT) (InvalidNodeKind value).
Definition edge_kind_try_from (value : Z) : result EnumConversionError EdgeKind :=
  ok_or (enum_from_i32 value EDGE_KIND_BY_DISCRIMINANT) (InvalidEdgeKind value).
Definition occurrence_kind_try_from (value : Z) : result EnumConversionError OccurrenceKind :=
  ok_or (enum_from_i32 value OCCURRENCE_KIND_BY_DISCRIMINANT) (InvalidOccurrenceKind value).

(** ** Resolution certainty *)
Inductive ResolutionCertainty : Set := Certain | Probable | Uncertain.
#[export] Instance ResolutionCertainty_eq_dec : EqDecision ResolutionCertainty.
Proof. solve_decision. Defined.

Definition CERTAIN_MIN : f32 := f32_ratio 85 100.
Definition PROBABLE_MIN : f32 := f32_ratio 55 100.

Definition from_confidence (confidence : option f32) : option ResolutionCertainty :=
  match confidence with
  | None => None
  | Some confidence =>
      if f32_ge confidence CERTAIN_MIN then Some Certain
      else if f32_ge confidence PROBABLE_MIN then Some Probable
      else Some Uncertain
  end.

Definition certainty_as_str (c : ResolutionCertainty) : str :=
  match c with
  | Certain => lit "certain" | Probable => lit "probable" | Uncertain => lit "uncertain"
  end.

Definition from_label (value : str) : option ResolutionCertainty :=
  if str_eqb value (lit "certain") then Some Certain
  else if str_eqb value (lit "probable") then Some Probable
  else if str_eqb value (lit "uncertain") then Some Uncertain
  else None.

(** ** Records *)
Record Node : Type := mkNode {
  node_id : NodeId;
  node_kind : NodeKind;
  node_serialized_name : str;
  node_qualified_name : option str;
  node_canonical_id : option str;
  node_file_node_id : option NodeId;
  node_start_line : option Z;
  node_start_col : option Z;
  node_end_line : option Z;
  node_end_col : option Z;
}.
#[export] Instance Node_eq_dec : EqDecision Node.
Proof. solve_decision. Defined.

Record Edge : Type := mkEdge {
  edge_id : EdgeId;
  edge_source : NodeId;
  edge_target : NodeId;
  edge_kind : EdgeKind;
  edge_file_node_id : option NodeId;
  edge_line : option Z;
  edge_resolved_source : option NodeId;
  edge_resolved_target : option NodeId;
  edge_confidence : option f32;
  edge_certainty : option ResolutionCertainty;
  edge_callsite_identity : option str;
  edge_candidate_targets : list NodeId;
}.
#[export] Instance Edge_eq_dec : EqDecision Edge.
Proof. solve_decision. Defined.

Definition effective_source (e : Edge) : NodeId :=
  default (edge_source e) (edge_resolved_source e).
Definition effective_target (e : Edge) : NodeId :=
  default (edge_target e) (edge_resolved_target e).
Definition effective_endpoints (e : Edge) : NodeId * NodeId :=
  (effective_source e, effective_target e).
Definition with_effective_endpoints (e : Edge) : Edge :=
  {| edge_id := edge_id e; edge_source := effective_source e;
     edge_target := effective_target e; edge_kind := edge_kind e;
     edge_file_node_id := edge_file_node_id e; edge_line := edge_line e;
     edge_resolved_source := edge_resolved_source e;
     edge_resolved_target := edge_resolved_target e;
     edge_confidence := edge_confidence e; edge_certainty := edge_certainty e;
     edge_callsite_identity := edge_callsite_identity e;
     edge_candidate_targets := edge_candidate_targets e |}.

Definition default_node : Node :=
  {| node_id := 0; node_kind := NodeKind.UNKNOWN; node_serialized_name := [];
     node_qualified_name := None; node_canonical_id := None; node_file_node_id := None;
     node_start_line := None; node_start_col := None; node_end_line := None;
     node_end_col := None |}.

Definition default_edge : Edge :=
  {| edge_id := 0; edge_source := 0; edge_target := 0; edge_kind := EdgeKind.UNKNOWN;
     edge_file_node_id := None; edge_line := None; edge_resolved_source := None;
     edge_resolved_target := None; edge_confidence := None; edge_certainty := None;
     edge_callsite_identity := None; edge_candidate_targets := [] |}.

Record SourceLocation : Type := mkSourceLocation {
  loc_file_node_id : NodeId;
  loc_start_line : Z;
  loc_start_col : Z;
  loc_end_line : Z;
  loc_end_col : Z;
}.

Record Occurrence : Type := mkOccurrence {
  occ_element_id : Z;
  occ_kind : OccurrenceKind;
  occ_location : SourceLocation;
}.

Record NameHierarchy : Type := mkNameHierarchy {
  name_delimiter : str;
  name_elements : list str;
}.
Definition name_hierarchy_new (delimiter : str) : NameHierarchy :=
  {| name_delimiter := delimiter; name_elements := [] |}.
Definition name_hierarchy_push (h : NameHierarchy) (element : str) : NameHierarchy :=
  {| name_delimiter := name_delimiter h; name_elements := name_elements h ++ [element] |}.
Definition serialize_to_string (h : NameHierarchy) : str :=
  join (name_delimiter h) (name_elements h).

(** ** Access kinds and file coverage *)
Module AccessKind.
Inductive AccessKind : Set := Public | Protected | Private | Default.
End AccessKind.
Abbreviation AccessKind := AccessKind.AccessKind.

Module FileCoverageReason.
Inductive FileCoverageReason : Set :=
| ParserPartial | SourceChanged | Unreadable | Malformed | Binary | Oversized
| DiscoveryIncomplete | CollectorFailure.
End FileCoverageReason.
Abbreviation FileCoverageReason := FileCoverageReason.FileCoverageReason.

Definition coverage_reason_as_str (r : FileCoverageReason) : str :=
  match r with
  | FileCoverageReason.ParserPartial => lit "parser_partial"
  | FileCoverageReason.SourceChanged => lit "source_changed"
  | FileCoverageReason.Unreadable => lit "unreadable"
  | FileCoverageReason.Malformed => lit "malformed"
  | FileCoverageReason.Binary => lit "binary"
  | FileCoverageReason.Oversized => lit "oversized"
  | FileCoverageReason.DiscoveryIncomplete => lit "discovery_incomplete"
  | FileCoverageReason.CollectorFailure => lit "collector_failure"
  end.

Definition coverage_reason_try_from (value : str)
  : result EnumConversionError FileCoverageReason :=
  if str_eqb value (lit "parser_partial") then Ok FileCoverageReason.ParserPartial
  else if str_eqb value (lit "source_changed") then Ok FileCoverageReason.SourceChanged
  else if str_eqb value (lit "unreadable") then Ok FileCoverageReason.Unreadable
  else if str_eqb value (lit "malformed") then Ok FileCoverageReason.Malformed
  else if str_eqb value (lit "binary") then Ok FileCoverageReason.Binary
  else if str_eqb value (lit "oversized") then Ok FileCoverageReason.Oversized
  else if str_eqb value (lit "discovery_incomplete") then Ok FileCoverageReason.DiscoveryIncomplete
  else if str_eqb value (lit "collector_failure") then Ok FileCoverageReason.CollectorFailure
  else Err (InvalidFileCoverageReason value).

(** ** Trail configuration and result *)
Module TrailMode.
Inductive TrailMode : Set := Neighborhood | AllReferenced | AllReferencing | ToTargetSymbol.
End TrailMode.
Abbreviation TrailMode := TrailMode.TrailMode.
#[export] Instance TrailMode_eq_dec : EqDecision TrailMode.
Proof. solve_decision. Defined.

Module TrailDirection.
Inductive TrailDirection : Set := Incoming | Outgoing | Both.
End TrailDirection.
Abbreviation TrailDirection := TrailDirection.TrailDirection.
#[export] Instance TrailDirection_eq_dec : EqDecision TrailDirection.
Proof. solve_decision. Defined.

Module TrailCallerScope.
Inductive TrailCallerScope : Set := ProductionOnly | IncludeTestsAndBenches.
End TrailCallerScope.
Abbreviation TrailCallerScope := TrailCallerScope.TrailCallerScope.
#[export] Instance TrailCallerScope_eq_dec : EqDecision TrailCallerScope.
Proof. solve_decision. Defined.

Record TrailConfig : Type := mkTrailConfig {
  root_id : NodeId;
  mode : TrailMode;
  target_id : option NodeId;
  depth : Z;
  direction : TrailDirection;
  caller_scope : TrailCallerScope;
  edge_filter : list EdgeKind;
  show_utility_calls : bool;
  node_filter : list NodeKind;
  max_nodes : Z;
}.

Definition default_show_utility_calls : bool := false.

Definition default_trail_config : TrailConfig :=
  {| root_id := 0; mode := TrailMode.Neighborhood; target_id := None; depth := 2;
     direction := TrailDirection.Both; caller_scope := TrailCallerScope.ProductionOnly;
     edge_filter := []; show_utility_calls := false; node_filter := [];
     max_nodes := 500 |}.

Record TrailResult : Type := mkTrailResult {
  nodes : list Node;
  edges : list Edge;
  depth_map : gmap NodeId Z;
  truncated : bool;
  omitted_edge_count : Z;
}.

Definition default_trail_result : TrailResult :=
  {| nodes := []; edges := []; depth_map := ∅; truncated := false;
     omitted_edge_count := 0 |}.

(** * Properties *)

Lemma lookup_as_i32 {T} (f : T → Z) (l : list T) v k :
  imap (λ i x, (Z.of_nat i, x)) l = (λ x, (f x, x)) <$> l →
  enum_from_i32 v l = Some k → f k = v.
Proof.
  intros Himap. unfold enum_from_i32. case_decide; [|done]. intros Hl.
  assert (Hi : imap (λ i x, (Z.of_nat i, x)) l !! Z.to_nat v = Some (v, k)).
  { rewrite list_lookup_imap, Hl. simpl. do 2 f_equal. lia. }
  rewrite Himap, list_lookup_fmap, Hl in Hi. by injection Hi.
Qed.

(** Persisted discriminants: reading an integer back gives exactly the variant
    that is written as that integer, for nodes, edges and occurrences alike, and
    every other integer is rejected with the value in the error. *)
Theorem kind_discriminants_roundtrip (v : Z) :
  (∀ k, node_kind_try_from v = Ok k ↔ node_kind_as_i32 k = v) ∧
  (∀ k, edge_kind_try_from v = Ok k ↔ edge_kind_as_i32 k = v) ∧
  (∀ k, occurrence_kind_try_from v = Ok k ↔ occurrence_kind_as_i32 k = v) ∧
  (node_kind_try_from v = Err (InvalidNodeKind v) ↔ ¬ 0 ≤ v < 22) ∧
  (edge_kind_try_from v = Err (InvalidEdgeKind v) ↔ ¬ 0 ≤ v < 13) ∧
  (occurrence_kind_try_from v = Err (InvalidOccurrenceKind v) ↔ ¬ 0 ≤ v < 6).
Proof.
  unfold node_kind_try_from, edge_kind_try_from, occurrence_kind_try_from.
  assert (Hread : ∀ T (f : T → Z) l (e : EnumConversionError) k,
    imap (λ i x, (Z.of_nat i, x)) l = (λ x, (f x, x)) <$> l →
    enum_from_i32 (f k) l = Some k →
    ok_or (enum_from_i32 v l) e = Ok k ↔ f k = v).
  { intros T f l e k Hl Hk. split; [|by intros <-; rewrite Hk].
    destruct (enum_from_i32 v l) eqn:E; [|done]. intros [= <-].
    by apply (lookup_as_i32 f l). }
  assert (Herr : ∀ T (l : list T) (e : EnumConversionError) n,
    len l = n → ok_or (enum_from_i32 v l) e = Err e ↔ ¬ 0 ≤ v < n).
  { intros T l e n Hn. unfold enum_from_i32, len in *. case_decide as Hv.
    - destruct (l !! Z.to_nat v) eqn:E; simpl.
      + apply lookup_lt_Some in E. split; [done|lia].
      + apply lookup_ge_None in E. split; [lia|done].
    - simpl. split; [lia|done]. }
  refine (conj _ (conj _ (conj _ (conj _ (conj _ _))))).
  - intros k. apply Hread; [reflexivity|by destruct k].
  - intros k. apply Hread; [reflexivity|by destruct k].
  - intros k. apply Hread; [reflexivity|by destruct k].
  - by apply Herr.
  - by apply Herr.
  - by apply Herr.
Qed.

(** Labels: the stored certainty and coverage labels parse back to the value
    they were printed from, and only those labels parse. *)
Theorem labels_roundtrip (s : str) :
  (∀ c, from_label s = Some c ↔ s = certainty_as_str c) ∧
  (∀ r, coverage_reason_try_from s = Ok r ↔ s = coverage_reason_as_str r).
Proof.
  split.
  - intros c. split; [|by intros ->; destruct c].
    unfold from_label, str_eqb.
    repeat (case_bool_decide; [intros [= <-]; done|]). done.
  - intros r. split; [|by intros ->; destruct r].
    unfold coverage_reason_try_from, str_eqb.
    repeat (case_bool_decide; [intros [= <-]; done|]). done.
Qed.
