(* ===== verification/Trail.v ===== *)
(** * Graph trails (codestory-store/src/storage_impl/trail.rs)

    The breadth-first neighbourhood trail and the root-to-target trail over the
    persisted graph, with the edge visibility rules of storage_impl/mod.rs. *)
From S2P Require Import Prelude RustStr Graph.

(** ** Storage interface

    What a trail relies on: the rows of the edge query of one node (each row may
    fail to decode when the cursor reaches it) and the node lookup. *)
Inductive StorageError : Type :=
| Sqlite (message : str)
| EnumConversion (e : EnumConversionError)
| Other (message : str).

Record EdgeRow : Type := mkEdgeRow {
  row_edge : Edge;
  row_target_symbol : str;
  row_caller_file_path : option str;
}.

Class TrailStorage (St : Type) := {
  query_edge_rows : St → TrailDirection → NodeId →
                    result StorageError (list (result StorageError EdgeRow));
  get_node : St → NodeId → result StorageError (option Node);
}.

(** The SQL predicate of the query, on the stored columns. *)
Definition where_clause (direction : TrailDirection) (n : NodeId) (e : Edge) : bool :=
  let src := bool_decide (edge_source e = n) in
  let tgt := bool_decide (edge_target e = n) in
  let rsrc := bool_decide (edge_resolved_source e = Some n) in
  let rtgt := bool_decide (edge_resolved_target e = Some n) in
  match direction with
  | TrailDirection.Outgoing => src || rsrc
  | TrailDirection.Incoming => tgt || rtgt
  | TrailDirection.Both => src || tgt || rsrc || rtgt
  end.

(** What the database guarantees when it is healthy: the query lists the stored edges
    its predicate selects, in increasing id order, and a lookup returns the node that
    has the id.  The client theorems name the laws they use. *)
Class TrailStorageLaws (St : Type) `{!TrailStorage St} := {
  edge_table : St → list EdgeRow;
  edge_table_sorted s :
    StronglySorted (λ a b, edge_id (row_edge a) < edge_id (row_edge b)) (edge_table s);
  query_rows s dir n :
    query_edge_rows s dir n =
      Ok (Ok <$> filter (λ r, where_clause dir n (row_edge r) = true) (edge_table s));
  get_node_found s n node : get_node s n = Ok (Some node) → node_id node = n;
}.

(** In-memory tables: the executable instance of the interface. *)
Record Tables : Type := mkTables {
  node_table : gmap NodeId Node;
  edge_rows : list EdgeRow;
}.

#[export] Instance tables_storage : TrailStorage Tables := {
  query_edge_rows t dir n :=
    Ok (Ok <$> filter (λ r, where_clause dir n (row_edge r) = true) (edge_rows t));
  get_node t n := Ok (node_table t !! n);
}.

(** ** Edge visibility *)
Definition is_test_or_bench_path (path : str) : bool :=
  let normalized := to_ascii_lowercase (replace path (lit "\") (lit "/")) in
  starts_with normalized (lit "tests/")
  || starts_with normalized (lit "test/")
  || starts_with normalized (lit "benches/")
  || starts_with normalized (lit "bench/")
  || starts_with normalized (lit "__tests__/")
  || starts_with normalized (lit "__test__/")
  || contains normalized (lit "/tests/")
  || contains normalized (lit "/test/")
  || contains normalized (lit "/__tests__/")
  || contains normalized (lit "/__test__/")
  || contains normalized (lit "/benches/")
  || contains normalized (lit "/bench/")
  || ends_with normalized (lit "_test.rs")
  || contains normalized (lit ".test.")
  || contains normalized (lit ".spec.").

Definition is_caller_scope_allowed (scope : TrailCallerScope) (caller : option str) : bool :=
  match scope with
  | TrailCallerScope.IncludeTestsAndBenches => true
  | TrailCallerScope.ProductionOnly =>
      match caller with
      | Some path => negb (is_test_or_bench_path path)
      | None => true
      end
  end.

Definition is_indexer_helper_call (name : str) : bool :=
  contains name (lit "seed_symbol_table")
  || contains name (lit "flush_projection_batch")
  || contains name (lit "flush_errors").

Definition common_call_names : list str :=
  [lit "add"; lit "all"; lit "any"; lit "append"; lit "clear"; lit "collect";
   lit "contains"; lit "dedup"; lit "extend"; lit "filter"; lit "insert";
   lit "into_iter"; lit "iter"; lit "iter_mut"; lit "len"; lit "map"; lit "pop";
   lit "push"; lit "remove"; lit "retain"; lit "sort"; lit "sort_by";
   lit "sort_by_key"; lit "truncate"].

Definition is_common_unqualified_call_name (name : str) : bool :=
  if contains name (lit "::") || contains name (lit ".") then false
  else existsb (str_eqb name) common_call_names.

Definition should_ignore_call_resolution (target_symbol : str)
    (certainty : option ResolutionCertainty) (confidence : option f32) : bool :=
  if is_indexer_helper_call target_symbol then false
  else
    let certainty := match certainty with
                     | Some c => Some c
                     | None => from_confidence confidence
                     end in
    match certainty with
    | None => false
    | Some Uncertain => true
    | Some c =>
        is_common_unqualified_call_name target_symbol && bool_decide (c ≠ Certain)
    end.

Definition neighbor_for_direction (current : NodeId) (direction : TrailDirection) (e : Edge)
  : option NodeId :=
  let eff_source := effective_source e in
  let eff_target := effective_target e in
  match direction with
  | TrailDirection.Outgoing =>
      if decide (eff_source = current) then Some eff_target
      else if decide (edge_source e = current) then Some (edge_target e)
      else None
  | TrailDirection.Incoming =>
      if decide (eff_target = current) then Some eff_source
      else if decide (edge_target e = current) then Some (edge_source e)
      else None
  | TrailDirection.Both =>
      if decide (eff_source = current) then Some eff_target
      else if decide (eff_target = current) then Some eff_source
      else if decide (edge_source e = current) then Some (edge_target e)
      else if decide (edge_target e = current) then Some (edge_source e)
      else None
  end.

Definition clear_resolved_target (e : Edge) : Edge :=
  {| edge_id := edge_id e; edge_source := edge_source e; edge_target := edge_target e;
     edge_kind := edge_kind e; edge_file_node_id := edge_file_node_id e;
     edge_line := edge_line e; edge_resolved_source := edge_resolved_source e;
     edge_resolved_target := None; edge_confidence := None; edge_certainty := None;
     edge_callsite_identity := edge_callsite_identity e;
     edge_candidate_targets := edge_candidate_targets e |}.

(** ** Edges of one node *)
Record EdgeFetchResult : Type := mkEdgeFetchResult {
  fetched_edges : list Edge;
  fetch_truncated : bool;
}.

Record EdgeQuery : Type := mkEdgeQuery {
  q_edge_filter : list EdgeKind;
  q_caller_scope : TrailCallerScope;
  q_show_utility_calls : bool;
}.

(** One row of the cursor loop: the edge it contributes, if any. *)
Definition visible_edge (q : EdgeQuery) (direction : TrailDirection) (n : NodeId)
    (row : EdgeRow) : option Edge :=
  let edge := row_edge row in
  let edge :=
    if bool_decide (edge_kind edge = EdgeKind.CALL)
       && bool_decide (is_Some (edge_resolved_target edge))
       && should_ignore_call_resolution (row_target_symbol row)
            (edge_certainty edge) (edge_confidence edge)
    then clear_resolved_target edge else edge in
  if bool_decide (edge_kind edge = EdgeKind.CALL)
     && negb (q_show_utility_calls q)
     && is_common_unqualified_call_name (row_target_symbol row)
  then None
  else if negb (is_caller_scope_allowed (q_caller_scope q) (row_caller_file_path row))
  then None
  else if negb (bool_decide (q_edge_filter q = []))
          && negb (bool_decide (edge_kind edge ∈ q_edge_filter q))
  then None
  else
    let matches_node :=
      match direction with
      | TrailDirection.Outgoing => bool_decide (effective_source edge = n)
      | TrailDirection.Incoming => bool_decide (effective_target edge = n)
      | TrailDirection.Both =>
          bool_decide (effective_source edge = n) || bool_decide (effective_target edge = n)
      end in
    if matches_node then Some edge else None.

Fixpoint collect_edges (q : EdgeQuery) (direction : TrailDirection) (n : NodeId)
    (budget : option Z) (rows : list (result StorageError EdgeRow)) (edges : list Edge)
  : result StorageError EdgeFetchResult :=
  match rows with
  | [] => Ok {| fetched_edges := edges; fetch_truncated := false |}
  | Err e :: _ => Err e
  | Ok row :: rest =>
      match visible_edge q direction n row with
      | None => collect_edges q direction n budget rest edges
      | Some edge =>
          let edges := edges ++ [edge] in
          if match budget with Some b => b <=? len edges | None => false end
          then Ok {| fetched_edges := edges; fetch_truncated := true |}
          else collect_edges q direction n budget rest edges
      end
  end.

Section Traversal.
Context {St : Type} `{!TrailStorage St}.

Definition get_edges_for_node_limited (s : St) (n : NodeId)
    (direction : TrailDirection) (q : EdgeQuery) (edge_budget : option Z)
  : result StorageError EdgeFetchResult :=
  if decide (edge_budget = Some 0)
  then Ok {| fetched_edges := []; fetch_truncated := true |}
  else rows ← query_edge_rows s direction n;
       collect_edges q direction n edge_budget rows [].

Definition get_edges_for_node (s : St) (n : NodeId)
    (direction : TrailDirection) (q : EdgeQuery) : result StorageError (list Edge) :=
  fetched_edges <$> get_edges_for_node_limited s n direction q None.

Definition get_edges_for_node_id (s : St) (n : NodeId)
  : result StorageError (list Edge) :=
  get_edges_for_node s n TrailDirection.Both
    {| q_edge_filter := []; q_caller_scope := TrailCallerScope.IncludeTestsAndBenches;
       q_show_utility_calls := true |}.

(** ** Neighbourhood trail *)
Definition DEPTH_MAX : Z := u32_max.

Definition effective_depth (config : TrailConfig) : Z :=
  if decide (depth config = 0) then DEPTH_MAX else depth config.

Definition trail_edge_query (config : TrailConfig) : EdgeQuery :=
  {| q_edge_filter := edge_filter config; q_caller_scope := caller_scope config;
     q_show_utility_calls := show_utility_calls config |}.

Definition trail_direction (config : TrailConfig) : TrailDirection :=
  match mode config with
  | TrailMode.AllReferenced => TrailDirection.Outgoing
  | TrailMode.AllReferencing => TrailDirection.Incoming
  | _ => direction config
  end.

Definition trail_max_edges (config : TrailConfig) : Z :=
  Z.max (saturating_mul usize_max (max_nodes config) 3) 128.

(** Loop state of [get_trail_bfs]: the partial result, the visited set and the queue. *)
Record BfsState : Type := mkBfsState {
  bfs_result : TrailResult;
  bfs_visited : gset NodeId;
  bfs_queue : list (NodeId * Z);
}.

Definition set_truncated (r : TrailResult) : TrailResult :=
  {| nodes := nodes r; edges := edges r; depth_map := depth_map r; truncated := true;
     omitted_edge_count := omitted_edge_count r |}.
Definition push_node (r : TrailResult) (n : Node) : TrailResult :=
  {| nodes := nodes r ++ [n]; edges := edges r; depth_map := depth_map r;
     truncated := truncated r; omitted_edge_count := omitted_edge_count r |}.
Definition push_edge (r : TrailResult) (e : Edge) : TrailResult :=
  {| nodes := nodes r; edges := edges r ++ [e]; depth_map := depth_map r;
     truncated := truncated r; omitted_edge_count := omitted_edge_count r |}.
Definition set_depth (r : TrailResult) (n : NodeId) (d : Z) : TrailResult :=
  {| nodes := nodes r; edges := edges r; depth_map := <[n:=d]> (depth_map r);
     truncated := truncated r; omitted_edge_count := omitted_edge_count r |}.

(** The [for edge in edge_fetch.edges] loop at one node. *)
Fixpoint bfs_edges (direction : TrailDirection) (max_edges : Z) (current : NodeId) (d : Z)
    (fetched : list Edge) (st : BfsState) : BfsState :=
  match fetched with
  | [] => st
  | e :: rest =>
      let r := bfs_result st in
      if max_edges <=? len (edges r)
      then {| bfs_result := set_truncated r; bfs_visited := bfs_visited st;
              bfs_queue := bfs_queue st |}
      else
        let r := push_edge r e in
        match neighbor_for_direction current direction e with
        | None =>
            bfs_edges direction max_edges current d rest
              {| bfs_result := r; bfs_visited := bfs_visited st; bfs_queue := bfs_queue st |}
        | Some neighbor =>
            if decide (neighbor ∈ bfs_visited st)
            then bfs_edges direction max_edges current d rest
                   {| bfs_result := r; bfs_visited := bfs_visited st;
                      bfs_queue := bfs_queue st |}
            else bfs_edges direction max_edges current d rest
                   {| bfs_result := set_depth r neighbor (d + 1);
                      bfs_visited := {[neighbor]} ∪ bfs_visited st;
                      bfs_queue := bfs_queue st ++ [(neighbor, d + 1)] |}
        end
  end.

(** The [while let Some(..) = queue.pop_front()] loop; [None] when the fuel is spent. *)
Fixpoint bfs_loop (fuel : nat) (s : St) (config : TrailConfig) (st : BfsState)
  : option (result StorageError TrailResult) :=
  match fuel with
  | O => None
  | S fuel' =>
      match bfs_queue st with
      | [] => Some (Ok (bfs_result st))
      | (current, d) :: queue =>
          let r := bfs_result st in
          if max_nodes config <=? len (nodes r)
          then Some (Ok (set_truncated r))
          else
            match get_node s current with
            | Err e => Some (Err e)
            | Ok found =>
                let r := match found with Some node => push_node r node | None => r end in
                if d <? effective_depth config then
                  let remaining := saturating_sub (trail_max_edges config) (len (edges r)) in
                  if decide (remaining = 0) then Some (Ok (set_truncated r))
                  else
                    match get_edges_for_node_limited s current (trail_direction config)
                            (trail_edge_query config) (Some remaining) with
                    | Err e => Some (Err e)
                    | Ok fetch =>
                        let r := if fetch_truncated fetch then set_truncated r else r in
                        let st := bfs_edges (trail_direction config) (trail_max_edges config)
                                    current d (fetched_edges fetch)
                                    {| bfs_result := r; bfs_visited := bfs_visited st;
                                       bfs_queue := queue |} in
                        if truncated (bfs_result st) then Some (Ok (bfs_result st))
                        else bfs_loop fuel' s config st
                    end
                else
                  bfs_loop fuel' s config
                    {| bfs_result := r; bfs_visited := bfs_visited st; bfs_queue := queue |}
            end
      end
  end.

(** The node ids kept by the node filter; the endpoints always are. *)
Definition allowed_ids (r : TrailResult) (config : TrailConfig) : gset NodeId :=
  let allowed : gset NodeId :=
    list_to_set (node_id <$> filter (λ n, node_kind n ∈ node_filter config) (nodes r)) in
  let allowed : gset NodeId := {[root_id config]} ∪ allowed in
  match target_id config with
  | Some t => {[t]} ∪ allowed
  | None => allowed
  end.

Definition apply_trail_node_filter (r : TrailResult) (config : TrailConfig) : TrailResult :=
  if decide (node_filter config = []) then r
  else
    let allowed := allowed_ids r config in
    {| nodes := filter (λ n, node_id n ∈ allowed) (nodes r);
       edges := filter (λ e, effective_source e ∈ allowed ∧ effective_target e ∈ allowed)
                  (edges r);
       depth_map := filter (λ p, p.1 ∈ allowed) (depth_map r);
       truncated := truncated r;
       omitted_edge_count := omitted_edge_count r |}.

(** Keep the edges between selected nodes and count the others. *)
Fixpoint retain_selected_edges (selected : gset NodeId) (old_edges : list Edge)
    (r : TrailResult) : TrailResult :=
  match old_edges with
  | [] => r
  | e :: rest =>
      let '(src, dst) := effective_endpoints e in
      if decide (src ∈ selected ∧ dst ∈ selected)
      then retain_selected_edges selected rest (push_edge r e)
      else retain_selected_edges selected rest
             {| nodes := nodes r; edges := edges r; depth_map := depth_map r;
                truncated := truncated r;
                omitted_edge_count := wrapping_add u32_max (omitted_edge_count r) 1 |}
  end.

Definition select_trail_edges (r : TrailResult) : TrailResult :=
  let selected_ids : gset NodeId := list_to_set (node_id <$> nodes r) in
  retain_selected_edges selected_ids (edges r)
    {| nodes := nodes r; edges := []; depth_map := depth_map r; truncated := truncated r;
       omitted_edge_count := omitted_edge_count r |}.

Definition bfs_start (config : TrailConfig) : BfsState :=
  {| bfs_result := set_depth default_trail_result (root_id config) 0;
     bfs_visited := {[root_id config]};
     bfs_queue := [(root_id config, 0)] |}.

Definition bfs_fuel (config : TrailConfig) : nat := Z.to_nat (trail_max_edges config + 2).

Definition get_trail_bfs (s : St) (config : TrailConfig)
  : option (result StorageError TrailResult) :=
  match bfs_loop (bfs_fuel config) s config (bfs_start config) with
  | None => None
  | Some (Err e) => Some (Err e)
  | Some (Ok r) => Some (Ok (select_trail_edges (apply_trail_node_filter r config)))
  end.

(** ** Distances *)
Record BfsTraversalOptions : Type := mkBfsTraversalOptions {
  opt_query : EdgeQuery;
  opt_max_depth : Z;
  opt_max_nodes : Z;
  opt_max_edges_per_node : Z;
}.

(** The edge loop of the two distance traversals: a neighbour that is admitted at
    its depth and has no distance yet gets one and is queued. *)
Fixpoint distance_edges (admits : NodeId → Z → bool) (direction : TrailDirection)
    (current : NodeId) (d : Z) (fetched : list Edge)
    (dist : gmap NodeId Z) (queue : list (NodeId * Z))
  : gmap NodeId Z * list (NodeId * Z) :=
  match fetched with
  | [] => (dist, queue)
  | e :: rest =>
      match neighbor_for_direction current direction e with
      | None => distance_edges admits direction current d rest dist queue
      | Some neighbor =>
          let next_depth := saturating_add u32_max d 1 in
          if negb (admits neighbor next_depth)
          then distance_edges admits direction current d rest dist queue
          else
            match dist !! neighbor with
            | Some _ => distance_edges admits direction current d rest dist queue
            | None =>
                distance_edges admits direction current d rest
                  (<[neighbor := next_depth]> dist) (queue ++ [(neighbor, next_depth)])
            end
      end
  end.

Fixpoint distance_loop (fuel : nat) (admits : NodeId → Z → bool) (s : St)
    (direction : TrailDirection) (options : BfsTraversalOptions)
    (dist : gmap NodeId Z) (queue : list (NodeId * Z)) (trunc : bool)
  : option (result StorageError (gmap NodeId Z * bool)) :=
  match fuel with
  | O => None
  | S fuel' =>
      match queue with
      | [] => Some (Ok (dist, trunc))
      | (current, d) :: queue =>
          if opt_max_nodes options <=? Z.of_nat (size dist) then Some (Ok (dist, true))
          else if opt_max_depth options <=? d
          then distance_loop fuel' admits s direction options dist queue trunc
          else
            match get_edges_for_node_limited s current direction (opt_query options)
                    (Some (opt_max_edges_per_node options)) with
            | Err e => Some (Err e)
            | Ok fetch =>
                let '(dist, queue) :=
                  distance_edges admits direction current d (fetched_edges fetch) dist queue in
                distance_loop fuel' admits s direction options dist queue
                  (trunc || fetch_truncated fetch)
            end
      end
  end.

Definition distance_fuel (options : BfsTraversalOptions) : nat :=
  Z.to_nat (Z.max 1 (opt_max_nodes options) + Z.max 0 (opt_max_edges_per_node options) + 2).

Definition bfs_distances (s : St) (start : NodeId) (direction : TrailDirection)
    (options : BfsTraversalOptions) : option (result StorageError (gmap NodeId Z * bool)) :=
  distance_loop (distance_fuel options) (λ _ _, true) s direction options
    {[start := 0]} [(start, 0)] false.

Definition through_root_reachable (dist_from_root : gmap NodeId Z) (max_depth : Z)
    (neighbor : NodeId) (next_depth : Z) : bool :=
  match dist_from_root !! neighbor with
  | None => false
  | Some dist_root =>
      negb (negb (max_depth =? DEPTH_MAX) && (max_depth <? dist_root + next_depth))
  end.

Definition bfs_distances_to_target_through_root_reachable (s : St) (target : NodeId)
    (dist_from_root : gmap NodeId Z) (options : BfsTraversalOptions)
  : option (result StorageError (gmap NodeId Z * bool)) :=
  distance_loop (distance_fuel options)
    (through_root_reachable dist_from_root (opt_max_depth options))
    s TrailDirection.Incoming options {[target := 0]} [(target, 0)] false.

(** ** Root-to-target trail *)
Definition bfs_cap (config : TrailConfig) : Z :=
  Z.min (Z.max (saturating_mul usize_max (max_nodes config) 4) (max_nodes config)) 100000.

Definition traversal_options (config : TrailConfig) : BfsTraversalOptions :=
  {| opt_query := trail_edge_query config; opt_max_depth := effective_depth config;
     opt_max_nodes := bfs_cap config;
     opt_max_edges_per_node := trail_max_edges config |}.

(** The nodes on some root-to-target walk within the depth limit, and the endpoints. *)
Definition within_depth (max_depth : Z) (dist_to_target : gmap NodeId Z)
    (p : NodeId * Z) : bool :=
  match dist_to_target !! p.1 with
  | Some d_to => (max_depth =? DEPTH_MAX) || (p.2 + d_to <=? max_depth)
  | None => false
  end.

Definition included_nodes (config : TrailConfig) (target : NodeId)
    (dist_from_root dist_to_target : gmap NodeId Z) : gset NodeId :=
  {[target]} ∪ ({[root_id config]} ∪
    dom (filter (λ p, within_depth (effective_depth config) dist_to_target p = true)
           dist_from_root)).

Definition key2_lt (a b : Z * Z) : bool :=
  (a.1 <? b.1) || ((a.1 =? b.1) && (a.2 <? b.2)).

(** The successor of [current] on the path: the least (distance to target, id). *)
Fixpoint best_next_step (max_depth : Z) (dist_from_root dist_to_target : gmap NodeId Z)
    (included : gset NodeId) (current : NodeId) (d_cur : Z) (fetched : list Edge)
    (best : option (Z * NodeId)) : option (Z * NodeId) :=
  match fetched with
  | [] => best
  | e :: rest =>
      let continue_ := best_next_step max_depth dist_from_root dist_to_target included
                         current d_cur rest in
      let '(src, dst) := effective_endpoints e in
      if negb (bool_decide (src = current)) then continue_ best
      else
        match dist_from_root !! dst, dist_to_target !! dst with
        | Some d_next, Some d_to =>
            if negb (d_next =? saturating_add u32_max d_cur 1) then continue_ best
            else if negb (max_depth =? DEPTH_MAX) && (max_depth <? d_cur + 1 + d_to)
            then continue_ best
            else if negb (bool_decide (dst ∈ included)) then continue_ best
            else
              let key := (d_to, dst) in
              if match best with None => true | Some k => key2_lt key k end
              then continue_ (Some key)
              else continue_ best
        | _, _ => continue_ best
        end
  end.

Fixpoint reconstruct_path (fuel : nat) (s : St) (config : TrailConfig) (target : NodeId)
    (dist_from_root dist_to_target : gmap NodeId Z) (included : gset NodeId)
    (current : NodeId) (path : list NodeId) (path_truncated : bool)
  : option (result StorageError (list NodeId * bool)) :=
  match fuel with
  | O => None
  | S fuel' =>
      if decide (current = target) then Some (Ok (path, path_truncated))
      else
        match dist_from_root !! current with
        | None => Some (Ok (path, path_truncated))
        | Some d_cur =>
            match get_edges_for_node_limited s current TrailDirection.Outgoing
                    (trail_edge_query config)
                    (Some (opt_max_edges_per_node (traversal_options config))) with
            | Err e => Some (Err e)
            | Ok fetch =>
                let path_truncated := path_truncated || fetch_truncated fetch in
                match best_next_step (effective_depth config) dist_from_root dist_to_target
                        included current d_cur (fetched_edges fetch) None with
                | None => Some (Ok (path, path_truncated))
                | Some (_, next) =>
                    reconstruct_path fuel' s config target dist_from_root dist_to_target
                      included next (path ++ [next]) path_truncated
                end
            end
        end
  end.

(** [push_unique]: the selection in order and its set. *)
Definition push_unique (sel : list NodeId * gset NodeId) (id : NodeId)
  : list NodeId * gset NodeId :=
  if decide (id ∈ sel.2) then sel else (sel.1 ++ [id], {[id]} ∪ sel.2).

Fixpoint push_others (limit : Z) (others : list NodeId) (sel : list NodeId * gset NodeId)
  : list NodeId * gset NodeId :=
  match others with
  | [] => sel
  | id :: rest =>
      if limit <=? len sel.1 then sel else push_others limit rest (push_unique sel id)
  end.

Definition dist_or_max (dist : gmap NodeId Z) (n : NodeId) : Z := default u32_max (dist !! n).

(** Sort keys: (distance through the node, distance from the root, id), then
    (distance from the root, id), then the edge id. *)
Definition other_le (dist_from_root dist_to_target : gmap NodeId Z) (a b : NodeId) : Prop :=
  let key n := saturating_add u32_max (dist_or_max dist_from_root n)
                 (dist_or_max dist_to_target n) in
  key a < key b ∨ key a = key b ∧
    (dist_or_max dist_from_root a < dist_or_max dist_from_root b ∨
     dist_or_max dist_from_root a = dist_or_max dist_from_root b ∧ a ≤ b).
#[export] Instance other_le_dec dr dt : RelDecision (other_le dr dt).
Proof. intros a b. unfold other_le. apply _. Defined.

Definition selected_le (dist_from_root : gmap NodeId Z) (a b : NodeId) : Prop :=
  dist_or_max dist_from_root a < dist_or_max dist_from_root b ∨
  dist_or_max dist_from_root a = dist_or_max dist_from_root b ∧ a ≤ b.
#[export] Instance selected_le_dec dr : RelDecision (selected_le dr).
Proof. intros a b. unfold selected_le. apply _. Defined.

Definition edge_id_le (a b : Edge) : Prop := edge_id a ≤ edge_id b.
#[export] Instance edge_id_le_dec : RelDecision edge_id_le.
Proof. intros a b. unfold edge_id_le. apply _. Defined.

(** Nodes and depths of the selection, in order. *)
Fixpoint load_selected (s : St) (dist_from_root : gmap NodeId Z) (selected : list NodeId)
    (r : TrailResult) : result StorageError TrailResult :=
  match selected with
  | [] => Ok r
  | id :: rest =>
      match get_node s id with
      | Err e => Err e
      | Ok found =>
          let r := match found with Some node => push_node r node | None => r end in
          load_selected s dist_from_root rest
            (set_depth r id (default 0 (dist_from_root !! id)))
      end
  end.

(** The edges of one selected node that lie on a bounded walk inside the selection. *)
Fixpoint path_edges (max_depth : Z) (dist_to_target : gmap NodeId Z)
    (selected_set : gset NodeId) (id : NodeId) (d_root : Z) (fetched : list Edge)
    (edge_ids : gset EdgeId) (r : TrailResult) : gset EdgeId * TrailResult :=
  match fetched with
  | [] => (edge_ids, r)
  | e :: rest =>
      let '(src, dst) := effective_endpoints e in
      let skip := path_edges max_depth dist_to_target selected_set id d_root rest in
      if negb (bool_decide (src = id)) || negb (bool_decide (dst ∈ selected_set))
      then skip edge_ids r
      else
        match dist_to_target !! dst with
        | None => skip edge_ids r
        | Some d_to =>
            if negb (max_depth =? DEPTH_MAX) && (max_depth <? d_root + 1 + d_to)
            then skip edge_ids r
            else if decide (edge_id e ∈ edge_ids) then skip edge_ids r
            else skip ({[edge_id e]} ∪ edge_ids) (push_edge r e)
        end
  end.

Fixpoint load_path_edges (s : St) (config : TrailConfig)
    (dist_from_root dist_to_target : gmap NodeId Z) (selected_set : gset NodeId)
    (selected : list NodeId) (edge_ids : gset EdgeId) (r : TrailResult)
  : result StorageError TrailResult :=
  match selected with
  | [] => Ok r
  | id :: rest =>
      match dist_from_root !! id with
      | None => load_path_edges s config dist_from_root dist_to_target selected_set rest
                  edge_ids r
      | Some d_root =>
          match get_edges_for_node_limited s id TrailDirection.Outgoing
                  (trail_edge_query config)
                  (Some (opt_max_edges_per_node (traversal_options config))) with
          | Err e => Err e
          | Ok fetch =>
              let r := if fetch_truncated fetch then set_truncated r else r in
              let '(edge_ids, r) :=
                path_edges (effective_depth config) dist_to_target selected_set id d_root
                  (fetched_edges fetch) edge_ids r in
              load_path_edges s config dist_from_root dist_to_target selected_set rest
                edge_ids r
          end
      end
  end.

(** The target is out of reach: only the endpoints that exist. *)
Definition unreachable_target_trail (s : St) (config : TrailConfig) (target : NodeId)
    (truncated_from_root : bool) : result StorageError TrailResult :=
  root ← get_node s (root_id config);
  let r := match root with
           | Some node => set_depth (push_node default_trail_result node) (root_id config) 0
           | None => default_trail_result
           end in
  r ← (if decide (target ≠ root_id config)
       then found ← get_node s target;
            mret (match found with Some node => push_node r node | None => r end)
       else mret r);
  mret (apply_trail_node_filter
    {| nodes := nodes r; edges := edges r; depth_map := depth_map r;
       truncated := truncated_from_root; omitted_edge_count := omitted_edge_count r |} config).

(** Selection of at most [max_nodes] included nodes beside the path, and its edges. *)
Definition select_path_trail (s : St) (config : TrailConfig) (target : NodeId)
    (dist_from_root dist_to_target : gmap NodeId Z) (included : gset NodeId)
    (path_nodes : list NodeId) (already_truncated : bool) : result StorageError TrailResult :=
  let sel := push_unique (foldl push_unique ([], ∅) path_nodes) target in
  let other := merge_sort (other_le dist_from_root dist_to_target) (elements included) in
  let '(selected, _) := push_others (max_nodes config) other sel in
  let trunc := already_truncated
    || (max_nodes config <? Z.of_nat (size included))
    || (len selected <? Z.of_nat (size included)) in
  let selected := merge_sort (selected_le dist_from_root) selected in
  let r := {| nodes := []; edges := []; depth_map := ∅; truncated := trunc;
              omitted_edge_count := 0 |} in
  r ← load_selected s dist_from_root selected r;
  r ← load_path_edges s config dist_from_root dist_to_target (list_to_set selected)
        selected ∅ r;
  let r := {| nodes := nodes r; edges := merge_sort edge_id_le (edges r);
              depth_map := depth_map r; truncated := truncated r;
              omitted_edge_count := omitted_edge_count r |} in
  mret (select_trail_edges (apply_trail_node_filter r config)).

Definition missing_target_error : StorageError :=
  Other (lit "TrailMode::ToTargetSymbol requires TrailConfig.target_id").

Definition get_trail_to_target (s : St) (config : TrailConfig)
  : option (result StorageError TrailResult) :=
  match target_id config with
  | None => Some (Err missing_target_error)
  | Some target =>
      match bfs_distances s (root_id config) TrailDirection.Outgoing
              (traversal_options config) with
      | None => None
      | Some (Err e) => Some (Err e)
      | Some (Ok (dist_from_root, truncated_from_root)) =>
          match dist_from_root !! target with
          | None => Some (unreachable_target_trail s config target truncated_from_root)
          | Some _ =>
              match bfs_distances_to_target_through_root_reachable s target dist_from_root
                      (traversal_options config) with
              | None => None
              | Some (Err e) => Some (Err e)
              | Some (Ok (dist_to_target, truncated_to_target)) =>
                  let included := included_nodes config target dist_from_root dist_to_target in
                  match reconstruct_path (size dist_from_root + 1) s config target
                          dist_from_root dist_to_target included (root_id config)
                          [root_id config] false with
                  | None => None
                  | Some (Err e) => Some (Err e)
                  | Some (Ok (path_nodes, path_truncated)) =>
                      Some (select_path_trail s config target dist_from_root dist_to_target
                        included path_nodes
                        (truncated_from_root || truncated_to_target || path_truncated))
                  end
              end
          end
      end
  end.

Definition get_trail (s : St) (config : TrailConfig)
  : option (result StorageError TrailResult) :=
  match mode config with
  | TrailMode.ToTargetSymbol => get_trail_to_target s config
  | _ => get_trail_bfs s config
  end.

End Traversal.
