(* ===== verification/TrailBfs.v ===== *)
(** * Distances of the trail traversals

    The edge query of one node, the reachability relation it induces and the
    correctness of the breadth-first distance loop of Trail: soundness,
    minimality and completeness when it reports no truncation, and the bound that
    makes its fuel sufficient. *)
From S2P Require Import Prelude RustStr Graph Trail.

Section Fetch.
Context {St : Type} `{!TrailStorage St}.
Implicit Types (s : St) (q : EdgeQuery) (dir : TrailDirection) (n m : NodeId).

(** An edge that the query of node [n] in direction [dir] makes visible. *)
Definition sees s q dir n (e : Edge) : Prop :=
  ∃ rows row, query_edge_rows s dir n = Ok rows ∧ Ok row ∈ rows ∧
              visible_edge q dir n row = Some e.

Definition adjacent s q dir n m : Prop :=
  ∃ e, sees s q dir n e ∧ neighbor_for_direction n dir e = Some m.

Lemma collect_edges_spec q dir n b rows : ∀ acc r,
  collect_edges q dir n b rows acc = Ok r →
  (∀ e, e ∈ fetched_edges r →
        e ∈ acc ∨ ∃ row, Ok row ∈ rows ∧ visible_edge q dir n row = Some e) ∧
  (∀ e, e ∈ acc → e ∈ fetched_edges r) ∧
  (fetch_truncated r = false → ∀ row e, Ok row ∈ rows →
        visible_edge q dir n row = Some e → e ∈ fetched_edges r) ∧
  (∀ b', b = Some b' → len acc < b' → len (fetched_edges r) ≤ b').
Proof.
  induction rows as [|[row|err] rows IH]; intros acc r; simpl; [| |done].
  - intros [= <-]. simpl. repeat split; [eauto|done|set_solver|lia].
  - destruct (visible_edge q dir n row) as [e|] eqn:Hv.
    + destruct (match b with Some b' => b' <=? len (acc ++ [e]) | None => false end) eqn:Hb.
      * intros [= <-]. simpl. repeat split; [|set_solver|done|].
        { intros e'. rewrite elem_of_app, elem_of_cons. set_solver. }
        intros b' -> Hlt. rewrite len_app, len_cons, len_nil. lia.
      * intros Hr. destruct (IH _ _ Hr) as (H1 & H2 & H3 & H4).
        repeat split.
        { intros e' He'. destruct (H1 e' He') as [Hin|(row' & ? & ?)].
          - apply elem_of_app in Hin as [?| ->%list_elem_of_singleton]; [by left|right].
            exists row. split; [by left|done].
          - right. exists row'. split; [by right|done]. }
        { intros e' ?. apply H2. set_solver. }
        { intros Ht row' e' [[= ->]|?]%elem_of_cons Hv'; [|eauto].
          apply H2. set_solver. }
        intros b' -> Hlt. apply (H4 b' eq_refl). by apply Z.leb_gt in Hb.
    + intros Hr. destruct (IH _ _ Hr) as (H1 & H2 & H3 & H4). repeat split; [|done| |done].
      * intros e' [?|(row' & ? & ?)]%H1; [by left|]. right. exists row'. set_solver.
      * intros Ht row' e' [[= ->]|?]%elem_of_cons Hv'; [congruence|eauto].
Qed.

Lemma fetch_sound s q dir n b r e :
  get_edges_for_node_limited s n dir q b = Ok r → e ∈ fetched_edges r → sees s q dir n e.
Proof.
  unfold get_edges_for_node_limited. case_decide; [intros [= <-]; set_solver|].
  intros (rows & Hq & Hr)%bind_Ok He.
  destruct (collect_edges_spec _ _ _ _ _ _ _ Hr) as (H1 & _).
  destruct (H1 e He) as [?|(row & ? & ?)]; [set_solver|]. by exists rows, row.
Qed.

Lemma fetch_complete s q dir n b r e :
  get_edges_for_node_limited s n dir q b = Ok r → fetch_truncated r = false →
  sees s q dir n e → e ∈ fetched_edges r.
Proof.
  unfold get_edges_for_node_limited. case_decide; [by intros [= <-]|].
  intros (rows & Hq & Hr)%bind_Ok Ht (rows' & row & Hq' & Hrow & Hv).
  assert (rows' = rows) as -> by congruence.
  destruct (collect_edges_spec _ _ _ _ _ _ _ Hr) as (_ & _ & H3 & _). eauto.
Qed.

Lemma fetch_bound s q dir n b r :
  get_edges_for_node_limited s n dir q (Some b) = Ok r → 0 ≤ b → len (fetched_edges r) ≤ b.
Proof.
  unfold get_edges_for_node_limited. case_decide; [intros [= <-]; done|].
  intros (rows & Hq & Hr)%bind_Ok Hb.
  destruct (collect_edges_spec _ _ _ _ _ _ _ Hr) as (_ & _ & _ & H4).
  apply H4; [done|]. rewrite len_nil. enough (b ≠ 0) by lia. congruence.
Qed.
End Fetch.

(** ** One expansion *)
Section Expansion.
Context {St : Type} `{!TrailStorage St}.
Context (admits : NodeId → Z → bool) (dir : TrailDirection) (current : NodeId) (d : Z).
Let next := saturating_add u32_max d 1.

Definition offers (fetched : list Edge) (m : NodeId) : Prop :=
  ∃ e, e ∈ fetched ∧ neighbor_for_direction current dir e = Some m ∧ admits m next = true.

Record expansion (fetched : list Edge) (dist dist' : gmap NodeId Z)
    (queue queue' : list (NodeId * Z)) (ms : list NodeId) : Prop := {
  exp_queue : queue' = queue ++ ((λ m, (m, next)) <$> ms);
  exp_old : ∀ m k, dist !! m = Some k → dist' !! m = Some k;
  exp_new : ∀ m k, dist' !! m = Some k →
              dist !! m = Some k ∨ (dist !! m = None ∧ k = next ∧ offers fetched m ∧ m ∈ ms);
  exp_ms : ∀ m, m ∈ ms → dist !! m = None ∧ dist' !! m = Some next;
  exp_all : ∀ m, offers fetched m → is_Some (dist' !! m);
  exp_size : size dist' = (size dist + length ms)%nat;
  exp_len : (length ms ≤ length fetched)%nat;
  exp_nodup : NoDup ms;
}.

Lemma offers_cons e fetched m :
  offers (e :: fetched) m ↔
    (neighbor_for_direction current dir e = Some m ∧ admits m next = true) ∨ offers fetched m.
Proof.
  unfold offers. split.
  - intros (e' & [->|?]%elem_of_cons & ?); [by left|right; by exists e'].
  - intros [?|(e' & ? & ?)]; [exists e|exists e']; (split; [by constructor|done]).
Qed.

Lemma distance_edges_expansion fetched : ∀ dist queue,
  let r := distance_edges admits dir current d fetched dist queue in
  ∃ ms, expansion fetched dist r.1 queue r.2 ms.
Proof.
  induction fetched as [|e fetched IH]; intros dist queue; simpl.
  { exists []. split; simpl; [by rewrite app_nil_r|done|by left|set_solver| |lia|lia|constructor].
    intros m (? & ?%elem_of_nil & _). done. }
  assert (Hskip : ∀ r ms, expansion fetched dist r.1 queue r.2 ms →
    (∀ m, neighbor_for_direction current dir e = Some m → admits m next = true →
          is_Some (dist !! m)) →
    expansion (e :: fetched) dist r.1 queue r.2 ms).
  { intros r ms [H1 H2 H3 H4 H5 H6 H7 H8] He. split; [done|done| |done| |done|simpl; lia|done].
    - intros m k [?|(?&?&?&?)]%H3; [by left|right]. rewrite offers_cons. auto.
    - intros m [[Hn Ha]|?]%offers_cons; [|auto]. destruct (He m Hn Ha) as [k Hk]. eauto. }
  destruct (neighbor_for_direction current dir e) as [nb|] eqn:Hn.
  2: { destruct (IH dist queue) as [ms Hms]. exists ms. by apply Hskip. }
  fold next. destruct (admits nb next) eqn:Ha; simpl.
  2: { destruct (IH dist queue) as [ms Hms]. exists ms. apply Hskip; [done|]. congruence. }
  destruct (dist !! nb) as [k|] eqn:Hd.
  { destruct (IH dist queue) as [ms Hms]. exists ms. apply Hskip; [done|].
    intros m [= <-] _. by rewrite Hd. }
  destruct (IH (<[nb := next]> dist) (queue ++ [(nb, next)])) as (ms & [H1 H2 H3 H4 H5 H6 H7 H8]).
  exists (nb :: ms). split.
  - rewrite H1, <- app_assoc. done.
  - intros m k Hk. apply H2. rewrite lookup_insert_ne by congruence. done.
  - intros m k [Hk|(Hk & -> & Ho & Hin)]%H3.
    + apply lookup_insert_Some in Hk as [[<- <-]|[? ?]]; [right|by left].
      rewrite offers_cons. split; [done|]. split; [done|]. split; [left; done|by left].
    + apply lookup_insert_None in Hk as [? ?]. right. rewrite offers_cons.
      split; [done|]. split; [done|]. split; [by right|by right].
  - intros m [->|Hm]%elem_of_cons.
    + split; [done|]. apply H2. by apply lookup_insert_eq.
    + destruct (H4 m Hm) as [Hno ?]. by apply lookup_insert_None in Hno as [? ?].
  - intros m [[Hm _]|?]%offers_cons; [|auto]. assert (m = nb) as -> by congruence.
    exists next. apply H2.
    by apply lookup_insert_eq.
  - rewrite H6, map_size_insert_None by done. simpl. lia.
  - simpl. lia.
  - constructor; [|done]. intros [Hno _]%H4. by rewrite lookup_insert_eq in Hno.
Qed.
End Expansion.

(** ** The distance loop *)
Section Distances.
Context {St : Type} `{!TrailStorage St}.
Context (s : St) (admits : NodeId → Z → bool) (dir : TrailDirection)
        (opts : BfsTraversalOptions) (start : NodeId).

(** Walks of the traversal: at most [max_depth] steps along visible edges, every node
    after the start admitted at its distance. *)
Inductive walk : Z → NodeId → Prop :=
| walk_start : walk 0 start
| walk_step k n m :
    walk k n → k < opt_max_depth opts → adjacent s (opt_query opts) dir n m →
    admits m (k + 1) = true → walk (k + 1) m.

Lemma walk_bounds k m : walk k m → 0 ≤ k ∧ (k = 0 ∨ k ≤ opt_max_depth opts).
Proof. induction 1; lia. Qed.

(** The length of the shortest walks to [m]. *)
Definition shortest (k : Z) (m : NodeId) : Prop := walk k m ∧ ∀ k', walk k' m → k ≤ k'.

Definition sound (dist : gmap NodeId Z) : Prop := ∀ m k, dist !! m = Some k → walk k m.
Definition complete (dist : gmap NodeId Z) : Prop :=
  ∀ m k, walk k m → ∃ k', dist !! m = Some k' ∧ k' ≤ k.

Lemma distances_exact dist m k :
  sound dist → complete dist → dist !! m = Some k ↔ shortest k m.
Proof.
  intros Hs Hc. split.
  - intros Hm. split; [by apply Hs|]. intros k' (k'' & Hm' & ?)%Hc. congruence.
  - intros [Hw Hmin]. destruct (Hc _ _ Hw) as (k' & Hm & ?).
    pose proof (Hmin k' (Hs _ _ Hm)). rewrite Hm. f_equal. lia.
Qed.

Context (Hdepth : opt_max_depth opts ≤ u32_max).

Record dist_inv (dist : gmap NodeId Z) (queue : list (NodeId * Z)) (trunc : bool) : Prop := {
  inv_start : dist !! start = Some 0;
  inv_sound : sound dist;
  inv_queue : ∀ m k, (m, k) ∈ queue → dist !! m = Some k;
  inv_sorted : StronglySorted (λ a b, a.2 ≤ b.2 ∧ b.2 ≤ a.2 + 1) queue;
  inv_level : ∀ m k n j, dist !! m = Some k → (n, j) ∈ queue → k ≤ j + 1;
  inv_closed : trunc = false → ∀ m k, dist !! m = Some k → k < opt_max_depth opts →
    (m, k) ∈ queue ∨
    ∀ m', adjacent s (opt_query opts) dir m m' → admits m' (k + 1) = true →
          ∃ k', dist !! m' = Some k' ∧ k' ≤ k + 1;
}.

Lemma dist_inv_init : dist_inv {[start := 0]} [(start, 0)] false.
Proof.
  split.
  - by rewrite lookup_singleton_eq.
  - intros m k [<- <-]%lookup_singleton_Some. constructor.
  - intros m k [= -> ->]%list_elem_of_singleton. by rewrite lookup_singleton_eq.
  - repeat constructor.
  - intros m k n j [<- <-]%lookup_singleton_Some [= -> ->]%list_elem_of_singleton. lia.
  - intros _ m k [<- <-]%lookup_singleton_Some _. left. by left.
Qed.

Lemma dist_inv_pop dist cur d queue trunc :
  dist_inv dist ((cur, d) :: queue) trunc → opt_max_depth opts ≤ d →
  dist_inv dist queue trunc.
Proof.
  intros [H1 H2 H3 H4 H5 H6] Hd. split; [done|done| | | |].
  - intros m k ?. apply H3. by right.
  - by inversion H4.
  - intros m k n j ? ?. eapply H5; [done|]. by right.
  - intros Ht m k Hm Hk. destruct (H6 Ht m k Hm Hk) as [[[= -> ->]|?]%elem_of_cons|?];
      [lia|by left|by right].
Qed.

Lemma dist_inv_expand budget dist cur d queue trunc fetch ms dist' queue' :
  dist_inv dist ((cur, d) :: queue) trunc → d < opt_max_depth opts →
  get_edges_for_node_limited s cur dir (opt_query opts) budget = Ok fetch →
  expansion admits dir cur d (fetched_edges fetch) dist dist' queue queue' ms →
  dist_inv dist' queue' (trunc || fetch_truncated fetch).
Proof.
  intros [H1 H2 H3 H4 H5 H6] Hd Hf [E1 E2 E3 E4 E5 E6 E7 E8].
  assert (Hcur : dist !! cur = Some d) by (apply H3; by left).
  assert (Hwd := walk_bounds _ _ (H2 _ _ Hcur)).
  assert (Hnext : saturating_add u32_max d 1 = d + 1) by (unfold saturating_add; lia).
  unfold offers in *. rewrite Hnext in *.
  assert (Hsort : StronglySorted (λ a b : NodeId * Z, a.2 ≤ b.2 ∧ b.2 ≤ a.2 + 1) queue
     ∧ ∀ x, x ∈ queue → d ≤ x.2 ≤ d + 1).
  { inversion H4 as [|? ? ? Hall]. split; [done|]. rewrite Forall_forall in Hall. auto. }
  destruct Hsort as [Hsort Hq].
  split.
  - by apply E2.
  - intros m k [Hm|(_ & -> & (e & He & Hn & Ha) & _)]%E3; [by apply H2|].
    apply (walk_step d cur); [by apply H2|done| |done].
    exists e. split; [|done]. by eapply fetch_sound.
  - intros m k. rewrite E1. intros [Hin|Hin]%elem_of_app.
    + apply E2, H3. by right.
    + apply list_elem_of_fmap in Hin as (m' & [= -> ->] & Hm'). by apply E4.
  - rewrite E1. apply StronglySorted_app_2; [|done|].
    + intros x y Hx (m & -> & _)%list_elem_of_fmap. simpl. specialize (Hq x Hx). lia.
    + clear. induction ms; simpl; constructor; [done|].
      apply Forall_fmap, Forall_true. simpl. lia.
  - intros m k n j Hm. rewrite E1. intros [Hin|Hin]%elem_of_app.
    + specialize (Hq _ Hin). simpl in Hq.
      apply E3 in Hm as [Hm|(_ & -> & _)]; [|lia]. eapply H5; [done|by right].
    + apply list_elem_of_fmap in Hin as (m' & [= -> ->] & Hm').
      apply E3 in Hm as [Hm|(_ & -> & _)]; [|lia].
      specialize (H5 _ _ cur d Hm ltac:(by left)). lia.
  - intros [Ht Htf]%orb_false_iff m k Hm Hk. rewrite E1.
    apply E3 in Hm as [Hm|(_ & -> & _ & Hin)].
    2: { left. apply elem_of_app. right. apply list_elem_of_fmap. by exists m. }
    destruct (H6 Ht m k Hm Hk) as [[[= -> ->]|?]%elem_of_cons|Hcl].
    + right. intros m' (e & Hs & Hn) Ha.
      destruct (E5 m') as [k' Hk'].
      { exists e. split; [|done]. by eapply fetch_complete. }
      exists k'. split; [done|].
      apply E3 in Hk' as [Hk'|(_ & -> & _)]; [|lia].
      eapply H5; [done|by left].
    + left. apply elem_of_app. by left.
    + right. intros m' Hadj Ha. destruct (Hcl m' Hadj Ha) as (k' & ? & ?). eauto.
Qed.

(** Admission at a depth implies admission at every smaller depth. *)
Context (Hmono : ∀ m k k', admits m k = true → 0 ≤ k' ≤ k → admits m k' = true).

Lemma dist_inv_done dist : dist_inv dist [] false → complete dist.
Proof.
  intros [H1 H2 H3 H4 H5 H6] m k Hw.
  induction Hw as [|k n m Hw (k' & Hn & Hk') Hk Hadj Ha]; [by exists 0|].
  destruct (H6 eq_refl n k' Hn ltac:(lia)) as [?%elem_of_nil|Hcl]; [done|].
  pose proof (walk_bounds _ _ (H2 _ _ Hn)).
  destruct (Hcl m Hadj) as (k'' & ? & ?); [eapply Hmono; [done|lia]|].
  exists k''. split; [done|lia].
Qed.

Lemma distance_loop_correct fuel : ∀ dist queue trunc dist' t,
  distance_loop fuel admits s dir opts dist queue trunc = Some (Ok (dist', t)) →
  dist_inv dist queue trunc →
  dist' !! start = Some 0 ∧ sound dist' ∧ (t = false → complete dist').
Proof.
  induction fuel as [|fuel IH]; intros dist queue trunc dist' t; simpl; [done|].
  destruct queue as [|[cur d] queue].
  { intros [= <- <-] Hinv. split; [apply Hinv|]. split; [apply Hinv|].
    intros ->. by apply dist_inv_done. }
  destruct (opt_max_nodes opts <=? Z.of_nat (size dist)).
  { intros [= <- <-] Hinv. split; [apply Hinv|]. by split; [apply Hinv|]. }
  destruct (opt_max_depth opts <=? d) eqn:Hd.
  { intros Hl Hinv. eapply IH; [done|]. eapply dist_inv_pop; [done|by apply Z.leb_le]. }
  destruct (get_edges_for_node_limited _ _ _ _ _) as [fetch|e] eqn:Hf; [|done].
  destruct (distance_edges_expansion admits dir cur d (fetched_edges fetch) dist queue)
    as [ms Hms].
  destruct (distance_edges _ _ _ _ _ _ _) as [dist2 queue2]. simpl in Hms.
  intros Hl Hinv. eapply IH; [done|].
  eapply dist_inv_expand; [done|by apply Z.leb_gt|done|done].
Qed.

(** The potential that pays for the iterations: every expansion inserts as many
    distances as it queues nodes, and the node cap stops the loop. *)
Context (Hedges : 0 ≤ opt_max_edges_per_node opts).

Lemma distance_loop_fuel fuel : ∀ dist queue trunc,
  (Z.of_nat (length queue)
   + (Z.max 1 (opt_max_nodes opts) + opt_max_edges_per_node opts - Z.of_nat (size dist))
   < Z.of_nat fuel) →
  Z.of_nat (size dist) ≤ Z.max 1 (opt_max_nodes opts) + opt_max_edges_per_node opts →
  distance_loop fuel admits s dir opts dist queue trunc ≠ None.
Proof.
  induction fuel as [|fuel IH]; intros dist queue trunc Hf Hs; [lia|]. simpl.
  destruct queue as [|[cur d] queue]; [done|]. simpl in Hf.
  destruct (opt_max_nodes opts <=? Z.of_nat (size dist)) eqn:Hn; [done|].
  destruct (opt_max_depth opts <=? d); [apply IH; lia|].
  destruct (get_edges_for_node_limited _ _ _ _ _) as [fetch|e] eqn:Hg; [|done].
  destruct (distance_edges_expansion admits dir cur d (fetched_edges fetch) dist queue)
    as [ms Hms].
  destruct (distance_edges _ _ _ _ _ _ _) as [dist2 queue2]. simpl in Hms.
  destruct Hms as [E1 _ _ _ _ E6 E7 _].
  apply fetch_bound in Hg; [|done]. unfold len in Hg. apply Z.leb_gt in Hn.
  apply IH; [|lia]. rewrite E1, length_app, length_fmap. lia.
Qed.

Lemma distance_fuel_enough :
  distance_loop (distance_fuel opts) admits s dir opts {[start := 0]} [(start, 0)] false ≠ None.
Proof.
  apply distance_loop_fuel.
  - unfold distance_fuel. rewrite map_size_singleton. simpl. lia.
  - rewrite map_size_singleton. lia.
Qed.
End Distances.
