(* ===== verification/TrailNeighborhood.v ===== *)
(** * The neighbourhood trail

    [get_trail_bfs] explores exactly the nodes within the depth limit, at their
    shortest distances, unless it says that it truncated; its result is closed,
    duplicate-free and bounded. *)
From S2P Require Import Prelude RustStr Graph Trail TrailBfs.

Section Neighborhood.
Context {St : Type} `{!TrailStorage St}.
Context (s : St) (config : TrailConfig).

Definition config_ok : Prop := in_range u32_max (depth config) ∧ in_range usize_max (max_nodes config).
Context (Hconfig : config_ok).

Abbreviation dir := (trail_direction config).
Abbreviation query := (trail_edge_query config).
Abbreviation max_edges := (trail_max_edges config).
Abbreviation max_depth := (effective_depth config).
Abbreviation opts := (traversal_options config).

Lemma effective_depth_bounds : 0 < max_depth ≤ u32_max.
Proof.
  destruct Hconfig as [[? ?] _]. unfold effective_depth, DEPTH_MAX.
  case_decide; unfold u32_max in *; lia.
Qed.

Lemma max_edges_pos : 128 ≤ max_edges.
Proof. unfold trail_max_edges. lia. Qed.

(** The bound check inside the edge loop never fires: the fetch is already limited to
    the remaining budget. *)
Lemma bfs_edges_expand cur d fetched : ∀ r visited queue,
  visited = dom (depth_map r) → d < max_depth →
  len (edges r) + len fetched ≤ max_edges → 0 ≤ d →
  let '(dist, queue') :=
    distance_edges (λ _ _, true) dir cur d fetched (depth_map r) queue in
  bfs_edges dir max_edges cur d fetched (mkBfsState r visited queue) =
    mkBfsState
      {| nodes := nodes r; edges := edges r ++ fetched; depth_map := dist;
         truncated := truncated r; omitted_edge_count := omitted_edge_count r |}
      (dom dist) queue'.
Proof.
  induction fetched as [|e fetched IH]; intros r visited queue -> Hd Hlen Hd0.
  { simpl. rewrite app_nil_r. by destruct r. }
  rewrite len_cons in Hlen. pose proof (len_nonneg fetched).
  pose proof effective_depth_bounds. cbn [bfs_edges distance_edges].
  cbn [bfs_result]. rewrite (proj2 (Z.leb_gt _ _)) by lia.
  assert (Hnext : saturating_add u32_max d 1 = d + 1) by (unfold saturating_add; lia).
  assert (Hlen' : ∀ r', edges r' = edges r ++ [e] → len (edges r') + len fetched ≤ max_edges).
  { intros r' ->. rewrite len_app, len_cons, len_nil. lia. }
  destruct (neighbor_for_direction cur dir e) as [nb|].
  2: { specialize (IH (push_edge r e) (dom (depth_map r)) queue eq_refl Hd
         (Hlen' (push_edge r e) eq_refl) Hd0).
       simpl in *. destruct (distance_edges _ _ _ _ _ _ _). rewrite IH.
       by rewrite <- app_assoc. }
  cbn [negb bfs_visited bfs_queue]. rewrite Hnext.
  destruct (depth_map r !! nb) as [k|] eqn:Hk.
  - rewrite decide_True by (apply elem_of_dom; by exists k).
    specialize (IH (push_edge r e) (dom (depth_map r)) queue eq_refl Hd
         (Hlen' (push_edge r e) eq_refl) Hd0).
    simpl in *. destruct (distance_edges _ _ _ _ _ _ _). rewrite IH.
    by rewrite <- app_assoc.
  - rewrite decide_False by (rewrite elem_of_dom, Hk; by intros []).
    specialize (IH (set_depth (push_edge r e) nb (d + 1)) ({[nb]} ∪ dom (depth_map r))
      (queue ++ [(nb, d + 1)])). cbn in IH.
    specialize (IH ltac:(by rewrite dom_insert_L) Hd (Hlen' (push_edge r e) eq_refl) Hd0).
    cbn. destruct (distance_edges _ _ _ _ _ _ _). rewrite IH. by rewrite <- app_assoc.
Qed.

(** A lookup returns the node that has the id (the law [get_node_found]). *)
Definition node_ids_ok : Prop := ∀ n nd, get_node s n = Ok (Some nd) → node_id nd = n.

(** ** The loop invariant *)
Abbreviation tsound := (sound s (λ _ _, true) dir opts (root_id config)).
Abbreviation tcomplete := (complete s (λ _ _, true) dir opts (root_id config)).

(** Node [m] was expanded: it has a depth and left the queue. *)
Definition expanded (st : BfsState) (m : NodeId) (k : Z) : Prop :=
  depth_map (bfs_result st) !! m = Some k ∧ (m, k) ∉ bfs_queue st.

Record trail_inv (st : BfsState) : Prop := {
  ti_dist : dist_inv s (λ _ _, true) dir opts (root_id config)
              (depth_map (bfs_result st)) (bfs_queue st) false;
  ti_visited : bfs_visited st = dom (depth_map (bfs_result st));
  ti_trunc : truncated (bfs_result st) = false;
  ti_omitted : omitted_edge_count (bfs_result st) = 0;
  ti_nodes : ∀ nd, nd ∈ nodes (bfs_result st) ↔
               ∃ m k, expanded st m k ∧ get_node s m = Ok (Some nd);
  ti_edges : ∀ e, e ∈ edges (bfs_result st) ↔
               ∃ m k, expanded st m k ∧ k < max_depth ∧ sees s query dir m e;
  ti_queue_nodup : NoDup (bfs_queue st).*1;
  ti_nodup : node_ids_ok → NoDup (node_id <$> nodes (bfs_result st));
  ti_len_nodes : len (nodes (bfs_result st)) ≤ max_nodes config;
  ti_len_edges : len (edges (bfs_result st)) ≤ max_edges;
}.

Lemma trail_inv_init : trail_inv (bfs_start config).
Proof.
  destruct Hconfig as [_ [Hn _]]. pose proof max_edges_pos.
  assert (∀ m k, ¬ expanded (bfs_start config) m k).
  { intros m k [Hm Hq]. simpl in *. apply Hq.
    rewrite insert_empty in Hm. apply lookup_singleton_Some in Hm as [<- <-]. by left. }
  split; simpl.
  - rewrite insert_empty. apply dist_inv_init.
  - by rewrite insert_empty, dom_singleton_L.
  - done.
  - done.
  - intros nd. rewrite elem_of_nil. naive_solver.
  - intros e. rewrite elem_of_nil. naive_solver.
  - apply NoDup_singleton.
  - intros _. constructor.
  - by rewrite len_nil.
  - rewrite len_nil. lia.
Qed.

(** The result of popping the queue's head, before its edges are fetched. *)
Definition pop_node (st : BfsState) (found : option Node) (queue : list (NodeId * Z))
  : BfsState :=
  {| bfs_result := match found with Some node => push_node (bfs_result st) node
                                  | None => bfs_result st end;
     bfs_visited := bfs_visited st; bfs_queue := queue |}.

Lemma expanded_pop st cur d queue found m k :
  trail_inv st → bfs_queue st = (cur, d) :: queue →
  expanded (pop_node st found queue) m k ↔ (m = cur ∧ k = d) ∨ expanded st m k.
Proof.
  intros Hinv Hq. destruct (ti_dist _ Hinv) as [_ _ Hqd _ _ _].
  pose proof (ti_queue_nodup _ Hinv) as Hnd. rewrite Hq in Hqd, Hnd.
  apply NoDup_cons in Hnd as [Hnin _].
  assert (Hdm : depth_map (bfs_result (pop_node st found queue)) = depth_map (bfs_result st))
    by (unfold pop_node; destruct found; done).
  unfold expanded. rewrite Hdm, Hq. cbn. split.
  - intros [Hm Hk]. destruct (decide ((m, k) = (cur, d))) as [[= -> ->]|Hne]; [by left|right].
    split; [done|]. rewrite elem_of_cons. naive_solver.
  - intros [[-> ->]|[Hm Hk]].
    + split; [apply Hqd; by left|]. intros Hin. apply Hnin.
      apply list_elem_of_fmap. by exists (cur, d).
    + split; [done|]. rewrite elem_of_cons in Hk. naive_solver.
Qed.

Lemma pop_nodes_iff st cur d queue found :
  trail_inv st → bfs_queue st = (cur, d) :: queue → get_node s cur = Ok found →
  ∀ nd, nd ∈ nodes (bfs_result (pop_node st found queue)) ↔
    ∃ m k, expanded (pop_node st found queue) m k ∧ get_node s m = Ok (Some nd).
Proof.
  intros Hinv Hq Hget nd.
  transitivity (found = Some nd ∨ nd ∈ nodes (bfs_result st)).
  { destruct found as [n|]; simpl; [|naive_solver].
    rewrite elem_of_app, list_elem_of_singleton. naive_solver. }
  rewrite (ti_nodes _ Hinv). split.
  - intros [->|(m & k & Hm & ?)].
    + exists cur, d. rewrite expanded_pop by done. auto.
    + exists m, k. rewrite expanded_pop by done. auto.
  - intros (m & k & Hm & Hnd). rewrite expanded_pop in Hm by done.
    destruct Hm as [[-> ->]|?]; [left; congruence|right; eauto].
Qed.

Lemma pop_node_nodup st cur d queue found :
  trail_inv st → bfs_queue st = (cur, d) :: queue → get_node s cur = Ok found →
  node_ids_ok → NoDup (node_id <$> nodes (bfs_result (pop_node st found queue))).
Proof.
  intros Hinv Hq Hget Hid. pose proof (ti_nodup _ Hinv Hid) as Hnd.
  destruct found as [nd|]; simpl; [|done]. rewrite fmap_app. apply NoDup_app.
  split; [done|]. split; [|apply NoDup_singleton].
  intros n (nd' & -> & Hin)%list_elem_of_fmap Hn%list_elem_of_singleton.
  apply (ti_nodes _ Hinv) in Hin as (m & k & [Hm Hmq] & Hg).
  apply Hid in Hg, Hget. assert (m = cur) as -> by congruence.
  apply Hmq. rewrite Hq. destruct (ti_dist _ Hinv) as [_ _ Hqd _ _ _].
  rewrite (Hqd cur d) in Hm; [injection Hm as <-; by left|rewrite Hq; by left].
Qed.

Lemma pop_node_len st cur d queue found :
  trail_inv st → bfs_queue st = (cur, d) :: queue →
  len (nodes (bfs_result st)) < max_nodes config →
  len (nodes (bfs_result (pop_node st found queue))) ≤ max_nodes config.
Proof.
  intros Hinv Hq Hlt. destruct found; simpl; [|lia]. rewrite len_app, len_cons, len_nil. lia.
Qed.

Lemma pop_depth_map st queue found :
  depth_map (bfs_result (pop_node st found queue)) = depth_map (bfs_result st) ∧
  edges (bfs_result (pop_node st found queue)) = edges (bfs_result st) ∧
  truncated (bfs_result (pop_node st found queue)) = truncated (bfs_result st) ∧
  omitted_edge_count (bfs_result (pop_node st found queue)) = omitted_edge_count (bfs_result st).
Proof. by destruct found. Qed.

Lemma trail_inv_skip st cur d queue found :
  trail_inv st → bfs_queue st = (cur, d) :: queue → get_node s cur = Ok found →
  len (nodes (bfs_result st)) < max_nodes config → max_depth ≤ d →
  trail_inv (pop_node st found queue).
Proof.
  intros Hinv Hq Hget Hlt Hd. destruct (pop_depth_map st queue found) as (Hdm & He & Ht & Ho).
  split.
  - rewrite Hdm. eapply dist_inv_pop with (cur := cur) (d := d); [|exact Hd].
    cbn. rewrite <- Hq. apply Hinv.
  - rewrite Hdm. apply Hinv.
  - rewrite Ht. apply Hinv.
  - rewrite Ho. apply Hinv.
  - eapply pop_nodes_iff; done.
  - intros e. rewrite He, (ti_edges _ Hinv). split.
    + intros (m & k & Hm & ? & ?). exists m, k. rewrite expanded_pop by done. auto.
    + intros (m & k & Hm & ? & ?). rewrite expanded_pop in Hm by done.
      destruct Hm as [[-> ->]|?]; [lia|eauto].
  - pose proof (ti_queue_nodup _ Hinv) as Hnd. rewrite Hq in Hnd. by apply NoDup_cons in Hnd as [_ ?].
  - by eapply pop_node_nodup.
  - by eapply pop_node_len.
  - rewrite He. apply Hinv.
Qed.

Lemma trail_inv_expand st cur d queue found fetch :
  trail_inv st → bfs_queue st = (cur, d) :: queue → get_node s cur = Ok found →
  len (nodes (bfs_result st)) < max_nodes config → d < max_depth →
  get_edges_for_node_limited s cur dir query
    (Some (saturating_sub max_edges (len (edges (bfs_result st))))) = Ok fetch →
  fetch_truncated fetch = false →
  trail_inv (bfs_edges dir max_edges cur d (fetched_edges fetch) (pop_node st found queue)).
Proof.
  intros Hinv Hq Hget Hlt Hd Hf Htr.
  destruct (pop_depth_map st queue found) as (Hdm & He & Ht & Ho).
  pose proof (ti_len_edges _ Hinv) as Hlen. pose proof (ti_dist _ Hinv) as Hdist.
  pose proof (fetch_bound _ _ _ _ _ _ Hf ltac:(unfold saturating_sub; lia)) as Hfl.
  unfold saturating_sub in Hfl. rewrite Z.max_r in Hfl by lia.
  assert (Hd0 : 0 ≤ d).
  { destruct Hdist as [_ Hs Hqd _ _ _]. rewrite Hq in Hqd.
    eapply walk_bounds, Hs, Hqd. by left. }
  pose proof (bfs_edges_expand cur d (fetched_edges fetch)
    (bfs_result (pop_node st found queue)) (bfs_visited st) queue) as Hexp.
  rewrite Hdm, He in Hexp. specialize (Hexp (ti_visited _ Hinv) Hd ltac:(lia) Hd0).
  destruct (distance_edges_expansion (λ _ _, true) dir cur d (fetched_edges fetch)
    (depth_map (bfs_result st)) queue) as [ms Hms].
  destruct (distance_edges _ _ _ _ _ _ _) as [dist queue']. simpl in Hms.
  change (pop_node st found queue) with
    (mkBfsState (bfs_result (pop_node st found queue)) (bfs_visited st) queue).
  rewrite Hexp. clear Hexp.
  assert (Hinv' : dist_inv s (λ _ _, true) dir opts (root_id config) dist queue' false).
  { rewrite <- Htr. change (fetch_truncated fetch) with (false || fetch_truncated fetch).
    eapply dist_inv_expand; [|rewrite <- Hq; exact Hdist|exact Hd|exact Hf|exact Hms].
    apply effective_depth_bounds. }
  assert (Hx : ∀ m k, dist !! m = Some k ∧ (m, k) ∉ queue' ↔ (m = cur ∧ k = d) ∨ expanded st m k).
  { intros m k. rewrite <- (expanded_pop st cur d queue found) by done.
    unfold expanded. rewrite Hdm. cbn. destruct Hms as [E1 E2 E3 E4 _ _ _ _]. rewrite E1. split.
    - intros [[Hm|(_ & -> & _ & Hin)]%E3 Hk]; rewrite elem_of_app in Hk; [naive_solver|].
      exfalso. apply Hk. right. apply list_elem_of_fmap. by exists m.
    - intros [Hm Hk]. split; [by apply E2|]. intros [?|Hin]%elem_of_app; [done|].
      apply list_elem_of_fmap in Hin as (m' & [= -> ->] & [? _]%E4). congruence. }
  split; cbn [bfs_result bfs_visited bfs_queue nodes edges depth_map truncated omitted_edge_count].
  - exact Hinv'.
  - done.
  - rewrite Ht. apply Hinv.
  - rewrite Ho. apply Hinv.
  - intros nd. rewrite (pop_nodes_iff st cur d queue found) by done.
    setoid_rewrite expanded_pop; [|done..]. unfold expanded at 2. cbn. by setoid_rewrite Hx.
  - intros e. rewrite elem_of_app, (ti_edges _ Hinv). unfold expanded at 2. cbn.
    setoid_rewrite Hx. split.
    + intros [(m & k & ? & ? & ?)|Hin]; [eauto 8|]. exists cur, d.
      split; [by left|]. split; [done|]. by eapply fetch_sound.
    + intros (m & k & [[-> ->]|?] & ? & ?); [right|left; eauto].
      by eapply fetch_complete.
  - destruct Hms as [E1 E2 E3 E4 _ _ _ E8]. rewrite E1, fmap_app, <- list_fmap_compose.
    pose proof (ti_queue_nodup _ Hinv) as Hnd. rewrite Hq in Hnd.
    apply NoDup_cons in Hnd as [_ Hnd]. apply NoDup_app. split; [done|].
    rewrite (list_fmap_ext (fst ∘ _) id) by done. rewrite list_fmap_id. split; [|done].
    intros m ((m' & k) & -> & Hin)%list_elem_of_fmap [Hno _]%E4. cbn in Hno.
    destruct Hdist as [_ _ Hqd _ _ _]. rewrite Hq in Hqd.
    rewrite (Hqd m' k) in Hno; [done|by right].
  - by eapply pop_node_nodup.
  - by eapply pop_node_len.
  - rewrite len_app. lia.
Qed.

(** ** What the loop returns *)
Record trail_post (r : TrailResult) : Prop := {
  tp_root : depth_map r !! root_id config = Some 0;
  tp_sound : tsound (depth_map r);
  tp_nodes : ∀ nd, nd ∈ nodes r → ∃ m k, depth_map r !! m = Some k ∧ get_node s m = Ok (Some nd);
  tp_edges : ∀ e, e ∈ edges r →
    ∃ m k, depth_map r !! m = Some k ∧ k < max_depth ∧ sees s query dir m e;
  tp_nodup : node_ids_ok → NoDup (node_id <$> nodes r);
  tp_len_nodes : len (nodes r) ≤ max_nodes config;
  tp_len_edges : len (edges r) ≤ max_edges;
  tp_omitted : omitted_edge_count r = 0;
  tp_complete : truncated r = false →
    tcomplete (depth_map r) ∧
    (∀ m k nd, depth_map r !! m = Some k → get_node s m = Ok (Some nd) → nd ∈ nodes r) ∧
    (∀ m k e, depth_map r !! m = Some k → k < max_depth → sees s query dir m e → e ∈ edges r);
}.

(** Results that only drop completeness. *)
Lemma trail_post_truncated r :
  truncated r = true → depth_map r !! root_id config = Some 0 → tsound (depth_map r) →
  (∀ nd, nd ∈ nodes r → ∃ m k, depth_map r !! m = Some k ∧ get_node s m = Ok (Some nd)) →
  (∀ e, e ∈ edges r → ∃ m k, depth_map r !! m = Some k ∧ k < max_depth ∧ sees s query dir m e) →
  (node_ids_ok → NoDup (node_id <$> nodes r)) →
  len (nodes r) ≤ max_nodes config → len (edges r) ≤ max_edges →
  omitted_edge_count r = 0 → trail_post r.
Proof. intros Ht ? ? ? ? ? ? ? ?. split; [done..|]. by rewrite Ht. Qed.

Lemma trail_post_set_truncated r :
  depth_map r !! root_id config = Some 0 → tsound (depth_map r) →
  (∀ nd, nd ∈ nodes r → ∃ m k, depth_map r !! m = Some k ∧ get_node s m = Ok (Some nd)) →
  (∀ e, e ∈ edges r → ∃ m k, depth_map r !! m = Some k ∧ k < max_depth ∧ sees s query dir m e) →
  (node_ids_ok → NoDup (node_id <$> nodes r)) →
  len (nodes r) ≤ max_nodes config → len (edges r) ≤ max_edges →
  omitted_edge_count r = 0 → trail_post (set_truncated r).
Proof. intros. by apply trail_post_truncated. Qed.

Lemma trail_inv_nodes st : trail_inv st → ∀ nd, nd ∈ nodes (bfs_result st) →
  ∃ m k, depth_map (bfs_result st) !! m = Some k ∧ get_node s m = Ok (Some nd).
Proof. intros Hinv nd (m & k & [? ?] & ?)%(ti_nodes _ Hinv). eauto. Qed.

Lemma trail_inv_edges st : trail_inv st → ∀ e, e ∈ edges (bfs_result st) →
  ∃ m k, depth_map (bfs_result st) !! m = Some k ∧ k < max_depth ∧ sees s query dir m e.
Proof. intros Hinv nd (m & k & [? ?] & ? & ?)%(ti_edges _ Hinv). eauto 6. Qed.

Lemma pop_node_nodes st cur d queue found :
  trail_inv st → bfs_queue st = (cur, d) :: queue → get_node s cur = Ok found →
  ∀ nd, nd ∈ nodes (bfs_result (pop_node st found queue)) →
  ∃ m k, depth_map (bfs_result st) !! m = Some k ∧ get_node s m = Ok (Some nd).
Proof.
  intros Hinv Hq Hget nd Hin.
  apply (pop_nodes_iff _ _ _ _ _ Hinv Hq Hget) in Hin as (m & k & [Hm _] & ?).
  destruct (pop_depth_map st queue found) as (Hdm & _). rewrite Hdm in Hm. eauto.
Qed.

Lemma trail_inv_post st : trail_inv st → bfs_queue st = [] → trail_post (bfs_result st).
Proof.
  intros Hinv Hq. destruct (ti_dist _ Hinv) as [H1 H2 _ _ _ _].
  assert (Hexp : ∀ m k, depth_map (bfs_result st) !! m = Some k → expanded st m k).
  { intros m k Hm. split; [done|]. rewrite Hq. apply not_elem_of_nil. }
  split; [done|done|by apply trail_inv_nodes|by apply trail_inv_edges|apply Hinv..|].
  intros _. split.
  - apply dist_inv_done; [done|]. rewrite <- Hq. apply Hinv.
  - split; [intros m k nd Hm ?; apply (ti_nodes _ Hinv)|intros m k e Hm ? ?; apply (ti_edges _ Hinv)];
      eauto 6.
Qed.

Lemma bfs_edges_measure mx cur d fetched : ∀ st,
  let st' := bfs_edges dir mx cur d fetched st in
  len (bfs_queue st') - len (edges (bfs_result st')) ≤
  len (bfs_queue st) - len (edges (bfs_result st)).
Proof.
  induction fetched as [|e fetched IH]; intros st; cbn [bfs_edges]; [lia|].
  destruct (mx <=? len (edges (bfs_result st))); [simpl; lia|].
  destruct (neighbor_for_direction cur dir e) as [nb|]; [case_decide|].
  all: etransitivity; [apply IH|].
  all: unfold len; simpl; rewrite ?length_app; simpl; lia.
Qed.

(** The fetch was cut at the budget: its edges are kept and the loop stops. *)
Lemma trail_post_cut st cur d queue found fetch :
  trail_inv st → bfs_queue st = (cur, d) :: queue → get_node s cur = Ok found →
  len (nodes (bfs_result st)) < max_nodes config → d < max_depth →
  get_edges_for_node_limited s cur dir query
    (Some (saturating_sub max_edges (len (edges (bfs_result st))))) = Ok fetch →
  trail_post (bfs_result (bfs_edges dir max_edges cur d (fetched_edges fetch)
    (mkBfsState (set_truncated (bfs_result (pop_node st found queue))) (bfs_visited st) queue))).
Proof.
  intros Hinv Hq Hget Hn Hd Hf.
  destruct (pop_depth_map st queue found) as (Hdm & He & Ht & Ho).
  pose proof (pop_node_nodes _ _ _ _ _ Hinv Hq Hget) as Hpn.
  pose proof (pop_node_nodup _ _ _ _ _ Hinv Hq Hget) as Hpd.
  pose proof (pop_node_len _ _ _ _ found Hinv Hq Hn) as Hpl.
  remember (bfs_result (pop_node st found queue)) as r0 eqn:Er0. clear Er0.
  pose proof (ti_len_edges _ Hinv) as Hlen. pose proof (ti_dist _ Hinv) as Hdist.
  pose proof (fetch_bound _ _ _ _ _ _ Hf ltac:(unfold saturating_sub; lia)) as Hfl.
  unfold saturating_sub in Hfl. rewrite Z.max_r in Hfl by lia.
  assert (Hcur : depth_map (bfs_result st) !! cur = Some d).
  { destruct Hdist as [_ _ H3 _ _ _]. apply H3. rewrite Hq. by left. }
  assert (Hd0 : 0 ≤ d) by (destruct Hdist as [_ H2 _ _ _ _]; eapply walk_bounds, H2, Hcur).
  pose proof (bfs_edges_expand cur d (fetched_edges fetch)
    (set_truncated r0) (bfs_visited st) queue) as Hexp.
  cbn [set_truncated depth_map edges] in Hexp. rewrite Hdm, He in Hexp.
  specialize (Hexp (ti_visited _ Hinv) Hd ltac:(lia) Hd0).
  destruct (distance_edges_expansion (λ _ _, true) dir cur d (fetched_edges fetch)
    (depth_map (bfs_result st)) queue) as [ms Hms].
  destruct (distance_edges _ _ _ _ _ _ _) as [dist queue']. simpl in Hms.
  rewrite Hexp. cbn. rewrite Hq in Hdist.
  eapply dist_inv_expand in Hdist as [I1 I2 _ _ _ _]; [|apply effective_depth_bounds|
    exact Hd|exact Hf|exact Hms].
  destruct Hms as [_ Eold _ _ _ _ _ _].
  apply trail_post_truncated; cbn [nodes edges depth_map truncated omitted_edge_count];
    rewrite ?Ho; [done..| | |done|done| |apply Hinv].
  - intros nd Hnd. destruct (Hpn nd Hnd) as (m & k & ? & ?). eauto.
  - intros e [Hin|Hin]%elem_of_app.
    + destruct (trail_inv_edges _ Hinv e Hin) as (m & k & ? & ? & ?). eauto 6.
    + exists cur, d. split; [by apply Eold|]. split; [done|]. by eapply fetch_sound.
  - rewrite len_app. lia.
Qed.

(** Truncation is never cleared by the edge loop. *)
Lemma bfs_edges_truncated mx cur d fetched : ∀ st,
  truncated (bfs_result st) = true →
  truncated (bfs_result (bfs_edges dir mx cur d fetched st)) = true.
Proof.
  induction fetched as [|e fetched IH]; intros st H; cbn [bfs_edges]; [done|].
  repeat case_match; first [done|by apply IH].
Qed.

Lemma bfs_loop_post fuel : ∀ st r,
  bfs_loop fuel s config st = Some (Ok r) → trail_inv st → trail_post r.
Proof.
  induction fuel as [|fuel IH]; intros st r; cbn [bfs_loop]; [done|].
  destruct (bfs_queue st) as [|[cur d] queue] eqn:Hq.
  { intros [= <-] Hinv. by apply trail_inv_post. }
  destruct (max_nodes config <=? len (nodes (bfs_result st))) eqn:Hn.
  { intros [= <-] Hinv. destruct (ti_dist _ Hinv) as [H1 H2 _ _ _ _].
    apply trail_post_set_truncated; [done|done|by apply trail_inv_nodes|
      by apply trail_inv_edges|apply Hinv..]. }
  apply Z.leb_gt in Hn. destruct (get_node s cur) as [found|e] eqn:Hget; [|done].
  change (match found with Some node => push_node (bfs_result st) node | None => bfs_result st end)
    with (bfs_result (pop_node st found queue)).
  destruct (pop_depth_map st queue found) as (Hdm & He & Ht & Ho).
  remember (bfs_result (pop_node st found queue)) as r0 eqn:Er0.
  destruct (d <? max_depth) eqn:Hd; [apply Z.ltb_lt in Hd|apply Z.ltb_ge in Hd].
  2: { intros Hl Hinv. eapply IH; [exact Hl|]. subst r0. by eapply trail_inv_skip. }
  rewrite He. case_decide as Hrem.
  { intros [= <-] Hinv. destruct (ti_dist _ Hinv) as [H1 H2 _ _ _ _].
    apply trail_post_set_truncated; rewrite ?Hdm, ?He, ?Ho; [done|done| |
      by apply trail_inv_edges| | |apply Hinv..]; subst r0; [by eapply pop_node_nodes|by eapply pop_node_nodup|by eapply pop_node_len]. }
  destruct (get_edges_for_node_limited _ _ _ _ _) as [fetch|e] eqn:Hf; [|done].
  destruct (fetch_truncated fetch) eqn:Htr.
  2: { intros Hl Hinv. pose proof (trail_inv_expand _ _ _ _ _ _ Hinv Hq Hget Hn Hd Hf Htr) as Hinv'.
       subst r0. change (mkBfsState _ _ queue) with (pop_node st found queue) in Hl.
       rewrite (ti_trunc _ Hinv') in Hl. by eapply IH. }
  intros Hl Hinv. subst r0. rewrite bfs_edges_truncated in Hl by done.
  injection Hl as <-. by eapply trail_post_cut.
Qed.

Lemma bfs_loop_fuel fuel : ∀ st,
  trail_inv st →
  len (bfs_queue st) + (max_edges - len (edges (bfs_result st))) < Z.of_nat fuel →
  bfs_loop fuel s config st ≠ None.
Proof.
  induction fuel as [|fuel IH]; intros st Hinv Hf; cbn [bfs_loop].
  { pose proof (ti_len_edges _ Hinv). pose proof (len_nonneg (bfs_queue st)). lia. }
  destruct (bfs_queue st) as [|[cur d] queue] eqn:Hq; [done|]. rewrite len_cons in Hf.
  destruct (max_nodes config <=? len (nodes (bfs_result st))) eqn:Hn; [done|].
  apply Z.leb_gt in Hn. destruct (get_node s cur) as [found|e] eqn:Hget; [|done].
  change (match found with Some node => push_node (bfs_result st) node | None => bfs_result st end)
    with (bfs_result (pop_node st found queue)).
  destruct (pop_depth_map st queue found) as (Hdm & He & Ht & Ho).
  destruct (d <? max_depth) eqn:Hd; [apply Z.ltb_lt in Hd|apply Z.ltb_ge in Hd].
  2: { apply IH; [by eapply trail_inv_skip|]. cbn [bfs_queue bfs_result]. rewrite He. lia. }
  rewrite He. case_decide as Hrem; [done|].
  destruct (get_edges_for_node_limited _ _ _ _ _) as [fetch|e] eqn:Hg; [|done].
  case_match eqn:Htr'; [done|]. destruct (fetch_truncated fetch) eqn:Htr.
  - exfalso.
    rewrite bfs_edges_truncated in Htr'; done.
  - change (mkBfsState _ _ queue) with (pop_node st found queue).
    apply IH; [by eapply trail_inv_expand|].
    pose proof (bfs_edges_measure max_edges cur d (fetched_edges fetch) (pop_node st found queue)) as Hm.
    cbn zeta in Hm. cbn [pop_node bfs_queue] in Hm. fold (pop_node st found queue) in Hm.
    change (bfs_result (mkBfsState _ _ _)) with (bfs_result (pop_node st found queue)) in Hm.
    rewrite He in Hm. lia.
Qed.
End Neighborhood.

(** ** Selection of the edges between returned nodes *)
Lemma retain_selected_edges_spec selected old_edges : ∀ r,
  let r' := retain_selected_edges selected old_edges r in
  nodes r' = nodes r ∧ depth_map r' = depth_map r ∧ truncated r' = truncated r ∧
  edges r' = edges r ++
    filter (λ e, effective_source e ∈ selected ∧ effective_target e ∈ selected) old_edges ∧
  (in_range u32_max (omitted_edge_count r) →
   omitted_edge_count r' =
    (omitted_edge_count r + (len old_edges + len (edges r) - len (edges r'))) `mod` (u32_max + 1)).
Proof.
  induction old_edges as [|e old IH]; intros r; cbn [retain_selected_edges].
  { split_and!; [done..|by rewrite app_nil_r|]. intros [? ?].
    rewrite Z.mod_small; unfold len; simpl; lia. }
  destruct (effective_endpoints e) as [src dst] eqn:He.
  assert (src = effective_source e ∧ dst = effective_target e) as [-> ->]
    by (unfold effective_endpoints in He; naive_solver).
  rewrite filter_cons. case_decide as Hin.
  - destruct (IH (push_edge r e)) as (H1 & H2 & H3 & H4 & H5). cbn in *.
    split_and!; [done..| |].
    + rewrite H4, <- app_assoc. done.
    + intros Hr. rewrite H5, len_cons, len_app, len_cons, len_nil by done. f_equal. lia.
  - match goal with |- context [retain_selected_edges selected old ?x] =>
      destruct (IH x) as (H1 & H2 & H3 & H4 & H5) end.
    cbn in *. split_and!; [done..|].
    intros Hr. rewrite H5.
    + unfold wrapping_add. rewrite Zplus_mod_idemp_l, len_cons. f_equal. lia.
    + unfold wrapping_add, u32_max, in_range.
      pose proof (Z.mod_pos_bound (omitted_edge_count r + 1) (2 ^ 32 - 1 + 1)). lia.
Qed.

Lemma apply_trail_node_filter_sub r config :
  nodes (apply_trail_node_filter r config) `sublist_of` nodes r ∧
  edges (apply_trail_node_filter r config) `sublist_of` edges r ∧
  depth_map (apply_trail_node_filter r config) ⊆ depth_map r ∧
  truncated (apply_trail_node_filter r config) = truncated r ∧
  omitted_edge_count (apply_trail_node_filter r config) = omitted_edge_count r.
Proof.
  unfold apply_trail_node_filter. case_decide; [done|]. cbn.
  split_and!; [apply sublist_filter|apply sublist_filter|apply map_filter_subseteq|done|done].
Qed.

Lemma len_sublist {A} (l1 l2 : list A) : l1 `sublist_of` l2 → len l1 ≤ len l2.
Proof. intros ?%sublist_length. unfold len. lia. Qed.

(** * Properties *)
Section Properties.
Context {St : Type} `{!TrailStorage St}.
Implicit Types (s : St) (config : TrailConfig) (r : TrailResult).

(** The walks a neighbourhood trail follows from its root. *)
Definition trail_walk s config : Z → NodeId → Prop :=
  walk s (λ _ _, true) (trail_direction config) (traversal_options config) (root_id config).
Definition trail_shortest s config : Z → NodeId → Prop :=
  shortest s (λ _ _, true) (trail_direction config) (traversal_options config) (root_id config).
Definition trail_sees s config : NodeId → Edge → Prop :=
  sees s (trail_edge_query config) (trail_direction config).

(** The unselected, unfiltered result behind the one returned. *)
Lemma get_trail_bfs_post s config r :
  config_ok config → get_trail_bfs s config = Some (Ok r) →
  ∃ r0, trail_post s config r0 ∧ r = select_trail_edges (apply_trail_node_filter r0 config).
Proof.
  unfold get_trail_bfs. intros Hok.
  destruct (bfs_loop _ _ _ _) as [[r0|]|] eqn:Hl; [|done..]. intros [= <-].
  exists r0. split; [|done]. eapply bfs_loop_post; [done|done|by apply trail_inv_init].
Qed.

Lemma select_trail_edges_spec r :
  let r' := select_trail_edges r in
  let ids := node_id <$> nodes r in
  nodes r' = nodes r ∧ depth_map r' = depth_map r ∧ truncated r' = truncated r ∧
  edges r' = filter (λ e, effective_source e ∈ (list_to_set ids : gset NodeId) ∧
                          effective_target e ∈ (list_to_set ids : gset NodeId)) (edges r) ∧
  (in_range u32_max (omitted_edge_count r) → omitted_edge_count r' =
    (omitted_edge_count r + (len (edges r) - len (edges r'))) `mod` (u32_max + 1)).
Proof.
  cbn zeta. unfold select_trail_edges.
  match goal with |- context [retain_selected_edges ?sel ?old ?x] =>
    destruct (retain_selected_edges_spec sel old x) as (H1 & H2 & H3 & H4 & H5) end.
  cbn in *. split_and!; [done..|]. intros Hr. rewrite H5 by done. f_equal. rewrite len_nil. lia.
Qed.

Lemma get_trail_bfs_total s config :
  config_ok config → get_trail_bfs s config ≠ None.
Proof.
  intros Hok. unfold get_trail_bfs.
  destruct (bfs_loop _ _ _ _) as [[r0|]|] eqn:Hl; [done|done|].
  exfalso. revert Hl. apply bfs_loop_fuel; [done|by apply trail_inv_init|].
  pose proof (max_edges_pos config). unfold bfs_fuel, bfs_start. cbn.
  unfold len. simpl. lia.
Qed.

(** [C2] Distances of the neighbourhood trail: every depth it reports is the length of
    a walk along visible edges within the depth limit, and unless it reports a
    truncation the depth map is exactly the shortest distance of every node within
    the limit and the nodes returned are exactly the stored nodes within it. *)
Theorem neighborhood_trail_exact s config r :
  config_ok config → node_filter config = [] → get_trail_bfs s config = Some (Ok r) →
  (∀ m k, depth_map r !! m = Some k → trail_walk s config k m) ∧
  (truncated r = false →
    (∀ m k, depth_map r !! m = Some k ↔ trail_shortest s config k m) ∧
    (∀ nd, nd ∈ nodes r ↔ ∃ m k, trail_walk s config k m ∧ get_node s m = Ok (Some nd))).
Proof.
  intros Hok Hf Hr. destruct (get_trail_bfs_post _ _ _ Hok Hr) as (r0 & Hp & ->).
  unfold apply_trail_node_filter. rewrite decide_True by done.
  destruct (select_trail_edges_spec r0) as (Hn & Hd & Ht & _). rewrite Hn, Hd, Ht.
  destruct Hp as [_ Hs Hnodes _ _ _ _ _ Hcomp].
  split; [exact Hs|]. intros Htr. destruct (Hcomp Htr) as (Hc & Hall & _).
  split; [intros m k; by apply distances_exact|]. intros nd. split.
  - intros (m & k & ? & ?)%Hnodes. exists m, k. split; [by apply Hs|done].
  - intros (m & k & Hw & ?). destruct (Hc _ _ Hw) as (k' & ? & _). eauto.
Qed.

(** Shape of the neighbourhood trail under any node filter: at most [max_nodes]
    nodes and [max_edges] edges, no node twice, every edge joins two returned nodes
    and was visible from a node within the depth limit, and (up to the counter's
    width) the omitted edges are those the traversal fetched and did not return. *)
Theorem neighborhood_trail_shape s config r :
  config_ok config → node_ids_ok s → get_trail_bfs s config = Some (Ok r) →
  len (nodes r) ≤ max_nodes config ∧ len (edges r) ≤ trail_max_edges config ∧
  NoDup (node_id <$> nodes r) ∧
  (∀ e, e ∈ edges r →
    effective_source e ∈ node_id <$> nodes r ∧ effective_target e ∈ node_id <$> nodes r ∧
    ∃ m k, trail_walk s config k m ∧ k < effective_depth config ∧ trail_sees s config m e) ∧
  0 ≤ omitted_edge_count r ≤ trail_max_edges config.
Proof.
  intros Hok Hid Hr. destruct (get_trail_bfs_post _ _ _ Hok Hr) as (r0 & Hp & ->).
  destruct (apply_trail_node_filter_sub r0 config) as (Fn & Fe & _ & _ & Fo).
  set (r1 := apply_trail_node_filter r0 config) in *.
  destruct (select_trail_edges_spec r1) as (Hn & _ & _ & He & Ho).
  destruct Hp as [_ Hs _ Hedges Hnd Hln Hle Hom _].
  pose proof (len_sublist _ _ Fn). pose proof (len_sublist _ _ Fe).
  assert (Hsub : edges (select_trail_edges r1) `sublist_of` edges r1)
    by (rewrite He; apply sublist_filter).
  pose proof (len_sublist _ _ Hsub). pose proof (len_nonneg (edges (select_trail_edges r1))).
  split; [rewrite Hn; lia|]. split; [lia|]. split.
  { rewrite Hn. eapply sublist_NoDup; [by apply Hnd|]. by apply fmap_sublist. }
  split.
  - intros e Hin. pose proof (sublist_subseteq _ _ Hsub _ Hin) as Hin1.
    rewrite He, list_elem_of_filter, !elem_of_list_to_set in Hin. rewrite Hn.
    destruct Hin as [[? ?] _]. split; [done|]. split; [done|].
    destruct (Hedges e) as (m & k & ? & ? & ?); [by apply (sublist_subseteq _ _ Fe)|].
    exists m, k. split; [by apply Hs|done].
  - rewrite Ho, Fo, Hom by (rewrite Fo, Hom; unfold in_range, u32_max; lia).
    rewrite Z.add_0_l. split; [apply Z.mod_pos_bound; unfold u32_max; lia|].
    transitivity (len (edges r1) - len (edges (select_trail_edges r1))); [|lia].
    apply Z.mod_le; [lia|unfold u32_max; lia].
Qed.

(** Edges of the neighbourhood trail: without a node filter and a truncation it
    returns exactly the visible edges of the nodes strictly within the depth limit
    that join two returned nodes. *)
Theorem neighborhood_trail_edges s config r :
  config_ok config → node_filter config = [] → get_trail_bfs s config = Some (Ok r) →
  truncated r = false →
  ∀ e, e ∈ edges r ↔
    effective_source e ∈ node_id <$> nodes r ∧ effective_target e ∈ node_id <$> nodes r ∧
    ∃ m k, trail_shortest s config k m ∧ k < effective_depth config ∧ trail_sees s config m e.
Proof.
  intros Hok Hf Hr Htr e. destruct (get_trail_bfs_post _ _ _ Hok Hr) as (r0 & Hp & ->).
  revert Htr. unfold apply_trail_node_filter. rewrite decide_True by done.
  destruct (select_trail_edges_spec r0) as (Hn & Hd & Ht & He & _). rewrite Hn, Ht.
  destruct Hp as [_ Hs _ Hedges _ _ _ _ Hcomp].
  intros Htr. destruct (Hcomp Htr) as (Hc & _ & Hall).
  rewrite He, list_elem_of_filter, !elem_of_list_to_set. split.
  - intros [[? ?] (m & k & ? & ? & ?)%Hedges]. split; [done|]. split; [done|].
    exists m, k. unfold trail_shortest. by rewrite <- (distances_exact _ _ _ _ _ (depth_map r0)).
  - intros (? & ? & m & k & Hk & ? & ?). split; [done|].
    unfold trail_shortest in Hk. rewrite <- (distances_exact _ _ _ _ _ (depth_map r0)) in Hk by done. eauto.
Qed.
End Properties.

(** * A concrete graph

    Four nodes on a cycle with a chord: 1 → 2 → 3 → 4 → 1 and 1 → 3. *)
Module Sample.
Definition node (n : NodeId) : Node :=
  {| node_id := n; node_kind := NodeKind.FUNCTION; node_serialized_name := lit "f";
     node_qualified_name := None; node_canonical_id := None; node_file_node_id := None;
     node_start_line := None; node_start_col := None; node_end_line := None;
     node_end_col := None |}.
Definition edge (id : EdgeId) (a b : NodeId) : EdgeRow :=
  mkEdgeRow
    {| edge_id := id; edge_source := a; edge_target := b; edge_kind := EdgeKind.CALL;
       edge_file_node_id := None; edge_line := None; edge_resolved_source := None;
       edge_resolved_target := None; edge_confidence := None; edge_certainty := None;
       edge_callsite_identity := None; edge_candidate_targets := [] |}
    (lit "f") None.
Definition graph : Tables :=
  mkTables (list_to_map ((λ n, (n, node n)) <$> [1; 2; 3; 4]))
    [edge 10 1 2; edge 11 2 3; edge 12 1 3; edge 13 3 4; edge 14 4 1].
Definition config (dir : TrailDirection) (d : Z) : TrailConfig :=
  {| root_id := 1; mode := TrailMode.Neighborhood; target_id := None; depth := d;
     direction := dir; caller_scope := TrailCallerScope.ProductionOnly; edge_filter := [];
     show_utility_calls := false; node_filter := []; max_nodes := 10 |}.

Lemma config_fits dir d : in_range u32_max d → config_ok (config dir d).
Proof. split; [done|]. unfold in_range, usize_max, u64_max. simpl. lia. Qed.

Lemma graph_ids : node_ids_ok graph.
Proof.
  assert (H : map_Forall (λ n nd, node_id nd = n) (node_table graph)).
  { apply (bool_decide_unpack _). by vm_compute. }
  intros n nd [= Hn]. by apply H.
Qed.

Definition result_of (o : option (result StorageError TrailResult)) : TrailResult :=
  match o with Some (Ok r) => r | _ => default_trail_result end.
Definition found : TrailResult := result_of (get_trail_bfs graph (config TrailDirection.Outgoing 2)).
Lemma found_eq : get_trail_bfs graph (config TrailDirection.Outgoing 2) = Some (Ok found).
Proof. by vm_compute. Qed.
End Sample.

Example neighborhood_trail_exact_witness :
  truncated Sample.found = false ∧ depth_map Sample.found !! 4 = Some 2 ∧
  trail_shortest Sample.graph (Sample.config TrailDirection.Outgoing 2) 2 4.
Proof.
  assert (H : config_ok (Sample.config TrailDirection.Outgoing 2)).
  { apply Sample.config_fits. unfold in_range, u32_max. lia. }
  assert (Ht : truncated Sample.found = false) by (by vm_compute).
  assert (Hd : depth_map Sample.found !! 4 = Some 2) by (by vm_compute).
  split; [exact Ht|]. split; [exact Hd|].
  apply (proj1 (proj2 (neighborhood_trail_exact Sample.graph _ _ H eq_refl Sample.found_eq) Ht) 4 2).
  exact Hd.
Defined.

Example neighborhood_trail_shape_witness :
  node_ids_ok Sample.graph ∧ len (nodes Sample.found) = 4 ∧
  NoDup (node_id <$> nodes Sample.found).
Proof.
  assert (H : config_ok (Sample.config TrailDirection.Outgoing 2)).
  { apply Sample.config_fits. unfold in_range, u32_max. lia. }
  split; [exact Sample.graph_ids|]. split; [by vm_compute|].
  apply (neighborhood_trail_shape Sample.graph _ _ H Sample.graph_ids Sample.found_eq).
Defined.

Example neighborhood_trail_edges_witness :
  (edge_id <$> edges Sample.found) = [10; 12; 11; 13] ∧
  ∃ m k, trail_shortest Sample.graph (Sample.config TrailDirection.Outgoing 2) k m ∧
    trail_sees Sample.graph (Sample.config TrailDirection.Outgoing 2) m
      (row_edge (Sample.edge 13 3 4)).
Proof.
  assert (H : config_ok (Sample.config TrailDirection.Outgoing 2)).
  { apply Sample.config_fits. unfold in_range, u32_max. lia. }
  assert (Ht : truncated Sample.found = false) by (by vm_compute).
  split; [by vm_compute|].
  destruct (proj1 (neighborhood_trail_edges Sample.graph _ _ H eq_refl Sample.found_eq Ht
    (row_edge (Sample.edge 13 3 4)))) as (_ & _ & m & k & ? & _ & ?).
  - apply (bool_decide_unpack _). by vm_compute.
  - exists m, k. by split.
Defined.

(** In direction [Both] an edge between two expanded nodes is returned once per
    endpoint: the neighbourhood trail has no edge deduplication. *)
Example neighborhood_trail_repeats_edges :
  (edge_id <$> edges (Sample.result_of
     (get_trail_bfs Sample.graph (Sample.config TrailDirection.Both 1)))) = [10; 12; 14] ∧
  (edge_id <$> edges (Sample.result_of
     (get_trail_bfs Sample.graph (Sample.config TrailDirection.Both 2)))) =
    [10; 12; 14; 10; 11; 11; 12; 13; 13; 14].
Proof. split; by vm_compute. Qed.
