(* ===== verification/TrailPath.v ===== *)
(** * The root-to-target trail

    Paths of visible edges, the two distance maps of [get_trail_to_target], and what
    its selection returns: exactly the nodes and edges on the bounded paths from the
    root to the target when nothing was truncated, and a sorted, duplicate-free,
    closed selection that keeps a shortest path otherwise. *)
From S2P Require Import Prelude RustStr Graph Trail TrailBfs TrailNeighborhood.

(** ** Visibility does not depend on the side an edge is seen from *)

(** The edge a row shows, before it is matched against the node of the query. *)
Definition shown_edge (q : EdgeQuery) (row : EdgeRow) : Edge :=
  let edge := row_edge row in
  if bool_decide (edge_kind edge = EdgeKind.CALL)
     && bool_decide (is_Some (edge_resolved_target edge))
     && should_ignore_call_resolution (row_target_symbol row)
          (edge_certainty edge) (edge_confidence edge)
  then clear_resolved_target edge else edge.

Definition matches_node (direction : TrailDirection) (n : NodeId) (e : Edge) : bool :=
  match direction with
  | TrailDirection.Outgoing => bool_decide (effective_source e = n)
  | TrailDirection.Incoming => bool_decide (effective_target e = n)
  | TrailDirection.Both =>
      bool_decide (effective_source e = n) || bool_decide (effective_target e = n)
  end.

Definition row_hidden (q : EdgeQuery) (row : EdgeRow) : bool :=
  let e := shown_edge q row in
  (bool_decide (edge_kind e = EdgeKind.CALL) && negb (q_show_utility_calls q)
     && is_common_unqualified_call_name (row_target_symbol row))
  || negb (is_caller_scope_allowed (q_caller_scope q) (row_caller_file_path row))
  || (negb (bool_decide (q_edge_filter q = []))
      && negb (bool_decide (edge_kind e ∈ q_edge_filter q))).

Lemma visible_edge_split q dir n row :
  visible_edge q dir n row =
    if row_hidden q row then None
    else if matches_node dir n (shown_edge q row) then Some (shown_edge q row) else None.
Proof.
  unfold visible_edge, row_hidden. fold (shown_edge q row). cbn zeta.
  destruct (bool_decide (edge_kind (shown_edge q row) = EdgeKind.CALL) && _ && _); [done|].
  destruct (negb (is_caller_scope_allowed _ _)); [done|].
  by destruct (negb (bool_decide (q_edge_filter q = [])) && _).
Qed.

Lemma shown_edge_row q row :
  edge_id (shown_edge q row) = edge_id (row_edge row) ∧
  effective_source (shown_edge q row) = effective_source (row_edge row) ∧
  (effective_target (shown_edge q row) = edge_target (row_edge row) ∨
   effective_target (shown_edge q row) = effective_target (row_edge row)).
Proof. unfold shown_edge. destruct (_ && _ && _); cbn; auto. Qed.

Lemma where_clause_source dir e :
  dir ≠ TrailDirection.Incoming → where_clause dir (effective_source e) e = true.
Proof.
  unfold where_clause, effective_source. destruct (edge_resolved_source e) as [n|], dir; simpl;
    intros ?; rewrite ?orb_true_iff, ?bool_decide_eq_true; naive_solver.
Qed.

Lemma where_clause_target q row :
  where_clause TrailDirection.Incoming (effective_target (shown_edge q row)) (row_edge row) = true.
Proof.
  destruct (shown_edge_row q row) as (_ & _ & [->| ->]); simpl;
    rewrite orb_true_iff, !bool_decide_eq_true; [by left|].
  unfold effective_target. destruct (edge_resolved_target _); naive_solver.
Qed.

Section Paths.
Context {St : Type} `{!TrailStorage St} `{!TrailStorageLaws St}.
Implicit Types (s : St) (q : EdgeQuery) (n m : NodeId) (e : Edge).

Lemma sees_row s q dir n e :
  sees s q dir n e ↔
    ∃ row, row ∈ edge_table s ∧ where_clause dir n (row_edge row) = true ∧
      row_hidden q row = false ∧ matches_node dir n (shown_edge q row) = true ∧
      e = shown_edge q row.
Proof.
  unfold sees. setoid_rewrite query_rows. split.
  - intros (rows & row & [= <-] & Hin & Hv).
    apply list_elem_of_fmap in Hin as (row' & [= <-] & [Hw Hin]%list_elem_of_filter).
    rewrite visible_edge_split in Hv. exists row.
    destruct (row_hidden q row); [done|]. destruct (matches_node _ _ _); [|done]. naive_solver.
  - intros (row & Hin & Hw & Hh & Hm & ->). eexists _, row. split; [done|]. split.
    + apply list_elem_of_fmap. exists row. split; [done|]. by apply list_elem_of_filter.
    + rewrite visible_edge_split, Hh, Hm. done.
Qed.

(** An edge is seen going out of its source iff it is seen coming into its target. *)
Lemma sees_out_in s q n e :
  sees s q TrailDirection.Outgoing n e ↔
    effective_source e = n ∧ sees s q TrailDirection.Incoming (effective_target e) e.
Proof.
  rewrite !sees_row. split.
  - intros (row & Hin & Hw & Hh & Hm%bool_decide_eq_true & ->). split; [done|]. exists row.
    split; [done|]. split; [apply where_clause_target|]. split; [done|]. split; [|done].
    by apply bool_decide_eq_true.
  - intros (<- & row & Hin & Hw & Hh & _ & ->). exists row. split; [done|].
    destruct (shown_edge_row q row) as (_ & -> & _).
    split; [by apply where_clause_source|]. split; [done|]. split; [|done].
    apply bool_decide_eq_true. by destruct (shown_edge_row q row) as (_ & -> & _).
Qed.

Lemma adjacent_out s q n m :
  adjacent s q TrailDirection.Outgoing n m ↔
    ∃ e, sees s q TrailDirection.Outgoing n e ∧ effective_target e = m.
Proof.
  unfold adjacent, neighbor_for_direction. split; intros (e & Hs & Hn); exists e.
  - pose proof (proj1 (sees_out_in _ _ _ _) Hs) as [Hsrc _].
    rewrite decide_True in Hn by done. naive_solver.
  - pose proof (proj1 (sees_out_in _ _ _ _) Hs) as [Hsrc _].
    rewrite decide_True by done. naive_solver.
Qed.

Lemma adjacent_in s q n m :
  adjacent s q TrailDirection.Incoming m n ↔ adjacent s q TrailDirection.Outgoing n m.
Proof.
  rewrite adjacent_out. unfold adjacent, neighbor_for_direction. split.
  - intros (e & Hs & Hn). assert (effective_target e = m) as Ht.
    { apply sees_row in Hs as (row & _ & _ & _ & Hm%bool_decide_eq_true & ->). done. }
    rewrite decide_True in Hn by done. injection Hn as <-. exists e. split; [|done].
    apply sees_out_in. by rewrite Ht.
  - intros (e & Hs & <-). apply sees_out_in in Hs as [<- Hs]. exists e. split; [done|].
    by rewrite decide_True.
Qed.

(** Edges of the table are identified by their id. *)
Lemma sees_id s q dir dir' n n' e e' :
  sees s q dir n e → sees s q dir' n' e' → edge_id e = edge_id e' → e = e'.
Proof.
  intros (row & Hin & _ & _ & _ & ->)%sees_row (row' & Hin' & _ & _ & _ & ->)%sees_row Hid.
  assert (Hid' : edge_id (row_edge row) = edge_id (row_edge row')).
  { by rewrite <- (proj1 (shown_edge_row q row)), <- (proj1 (shown_edge_row q row')). }
  assert (row = row') as ->; [|done].
  by eapply strongly_sorted_key_inj; [apply edge_table_sorted|..].
Qed.

(** ** Paths *)
Inductive path s q : NodeId → Z → NodeId → Prop :=
| path_nil n : path s q n 0 n
| path_cons n m k p :
    adjacent s q TrailDirection.Outgoing n m → path s q m k p → path s q n (k + 1) p.

Lemma path_snoc s q n k m p :
  path s q n k m → adjacent s q TrailDirection.Outgoing m p → path s q n (k + 1) p.
Proof.
  induction 1 as [n|n n' k m Hadj Hp IH]; intros Hlast.
  - rewrite Z.add_0_l. apply (path_cons _ _ n p 0); [done|constructor].
  - econstructor; [done|by apply IH].
Qed.

Lemma path_nonneg s q n k m : path s q n k m → 0 ≤ k.
Proof. induction 1; lia. Qed.

Lemma walk_path s opts start k m :
  walk s (λ _ _, true) TrailDirection.Outgoing opts start k m →
  path s (opt_query opts) start k m.
Proof. induction 1; [constructor|by eapply path_snoc]. Qed.

Lemma path_walk s opts start n k m j :
  path s (opt_query opts) n k m → j + k ≤ opt_max_depth opts →
  walk s (λ _ _, true) TrailDirection.Outgoing opts start j n →
  walk s (λ _ _, true) TrailDirection.Outgoing opts start (j + k) m.
Proof.
  intros Hp. revert j. induction Hp as [n|n n' k m Hadj Hp IH]; intros j Hj Hw.
  - by rewrite Z.add_0_r.
  - pose proof (path_nonneg _ _ _ _ _ Hp). replace (j + (k + 1)) with (j + 1 + k) by lia.
    apply IH; [lia|]. eapply walk_step; [done|lia|done|done].
Qed.

Lemma back_walk_path s admits opts target k m :
  walk s admits TrailDirection.Incoming opts target k m →
  path s (opt_query opts) m k target.
Proof. induction 1; [constructor|]. econstructor; [by apply adjacent_in|done]. Qed.
End Paths.

(** ** Size of the distances *)
Section Small.
Context {St : Type} `{!TrailStorage St}.
Context (s : St) (admits : NodeId → Z → bool) (dir : TrailDirection)
        (opts : BfsTraversalOptions) (start : NodeId).

(** A level is populated only after the previous ones and under the node cap. *)
Definition small (dist : gmap NodeId Z) : Prop :=
  ∀ m k, dist !! m = Some k →
    k < Z.of_nat (size dist) ∧ k ≤ Z.max 1 (opt_max_nodes opts).

Lemma distance_loop_small fuel : ∀ dist queue trunc dist' t,
  distance_loop fuel admits s dir opts dist queue trunc = Some (Ok (dist', t)) →
  small dist → (∀ m k, (m, k) ∈ queue → dist !! m = Some k) → small dist'.
Proof.
  induction fuel as [|fuel IH]; intros dist queue trunc dist' t; simpl; [done|].
  destruct queue as [|[cur d] queue]; [by intros [= <- <-]|].
  destruct (opt_max_nodes opts <=? Z.of_nat (size dist)) eqn:Hn; [by intros [= <- <-]|].
  apply Z.leb_gt in Hn. destruct (opt_max_depth opts <=? d).
  { intros Hl Hs Hq. eapply IH; [done|done|]. intros m k ?. apply Hq. by right. }
  destruct (get_edges_for_node_limited _ _ _ _ _) as [fetch|e]; [|done].
  destruct (distance_edges_expansion admits dir cur d (fetched_edges fetch) dist queue)
    as [ms [E1 E2 E3 E4 E5 E6 E7 E8]].
  destruct (distance_edges _ _ _ _ _ _ _) as [dist2 queue2]. cbn [fst snd] in *.
  intros Hl Hs Hq. eapply IH; [done| |].
  - pose proof (Hs cur d (Hq _ _ ltac:(by left))) as Hd.
    intros m k [Hm|(_ & -> & _ & Hin)]%E3; [apply Hs in Hm; lia|].
    assert (1 ≤ length ms)%nat by (destruct ms; [by apply elem_of_nil in Hin|simpl; lia]).
    unfold saturating_add. lia.
  - intros m k. rewrite E1. intros [Hin|Hin]%elem_of_app.
    + apply E2, Hq. by right.
    + apply list_elem_of_fmap in Hin as (m' & [= -> ->] & Hm'). by apply E4.
Qed.

Lemma distance_loop_small_start fuel dist t :
  distance_loop fuel admits s dir opts {[start := 0]} [(start, 0)] false = Some (Ok (dist, t)) →
  small dist.
Proof.
  intros Hl. eapply distance_loop_small; [done| |].
  - intros m k [<- <-]%lookup_singleton_Some. rewrite map_size_singleton. lia.
  - intros m k [= -> ->]%list_elem_of_singleton. by rewrite lookup_singleton_eq.
Qed.
End Small.

Lemma bfs_cap_bounds config : config_ok config → 0 ≤ bfs_cap config ≤ 100000.
Proof. intros [_ [? ?]]. unfold bfs_cap, saturating_mul. lia. Qed.

Lemma through_root_reachable_mono dist max_depth m k k' :
  through_root_reachable dist max_depth m k = true → 0 ≤ k' ≤ k →
  through_root_reachable dist max_depth m k' = true.
Proof.
  unfold through_root_reachable. destruct (dist !! m) as [d|]; [|done].
  destruct (max_depth =? DEPTH_MAX); simpl; [done|].
  rewrite !negb_true_iff, !Z.ltb_ge. lia.
Qed.

(** ** The distances of [get_trail_to_target] *)
Section ToTarget.
Context {St : Type} `{!TrailStorage St} `{!TrailStorageLaws St}.
Context (s : St) (config : TrailConfig) (target : NodeId) (Hok : config_ok config).
Abbreviation opts := (traversal_options config).
Abbreviation query := (trail_edge_query config).
Abbreviation max_depth := (effective_depth config).

Record from_root (dist : gmap NodeId Z) (t : bool) : Prop := {
  fr_root : dist !! root_id config = Some 0;
  fr_path : ∀ m k, dist !! m = Some k → path s query (root_id config) k m ∧ k ≤ max_depth;
  fr_complete : t = false → ∀ m k, path s query (root_id config) k m → k ≤ max_depth →
                  ∃ k', dist !! m = Some k' ∧ k' ≤ k;
  fr_size : ∀ m k, dist !! m = Some k → 0 ≤ k < Z.of_nat (size dist);
  fr_small : ∀ m k, dist !! m = Some k → k ≤ 100000;
}.

Lemma bfs_distances_from_root dist t :
  bfs_distances s (root_id config) TrailDirection.Outgoing opts = Some (Ok (dist, t)) →
  from_root dist t.
Proof.
  intros Hl. pose proof (effective_depth_bounds config Hok) as Hd.
  destruct (distance_loop_correct s _ _ opts (root_id config) ltac:(apply Hd)
    ltac:(done) _ _ _ _ _ _ Hl ltac:(apply dist_inv_init)) as (H1 & H2 & H3).
  pose proof (distance_loop_small_start _ _ _ _ _ _ _ _ Hl) as Hs.
  split; [done| | | |].
  - intros m k Hm%H2. split; [by apply walk_path in Hm|]. apply walk_bounds in Hm. cbn in *. lia.
  - intros Ht m k Hp Hk. apply (H3 Ht). rewrite <- (Z.add_0_l k).
    eapply path_walk; [done|done|constructor].
  - intros m k Hm. pose proof (Hs _ _ Hm). apply H2, walk_bounds in Hm. lia.
  - intros m k [_ Hm]%Hs. pose proof (bfs_cap_bounds config Hok).
    unfold opts in Hm. cbn [traversal_options opt_max_nodes] in Hm. lia.
Qed.

(** Lengths that respect the depth limit; [DEPTH_MAX] means no limit on the sum. *)
Definition depth_allows (k : Z) : Prop := max_depth = DEPTH_MAX ∨ k ≤ max_depth.

Lemma bfs_distances_to_target dr tr dist t :
  from_root dr tr →
  bfs_distances_to_target_through_root_reachable s target dr opts = Some (Ok (dist, t)) →
  dist !! target = Some 0 ∧
  (∀ m k, dist !! m = Some k → path s query m k target ∧ 0 ≤ k ≤ max_depth) ∧
  (tr = false → t = false → ∀ m k a, dr !! m = Some a → path s query m k target →
     k ≤ max_depth → depth_allows (a + k) → ∃ k', dist !! m = Some k' ∧ k' ≤ k).
Proof.
  intros Hr Hl. pose proof (effective_depth_bounds config Hok) as Hd.
  destruct (distance_loop_correct s _ _ opts target ltac:(apply Hd)
    ltac:(intros; by eapply through_root_reachable_mono)
    _ _ _ _ _ _ Hl ltac:(apply dist_inv_init)) as (H1 & H2 & H3).
  split; [done|]. split.
  { intros m k Hm%H2. split; [by apply back_walk_path in Hm|]. apply walk_bounds in Hm.
    cbn in *. lia. }
  intros -> -> m k a Ha Hp Hk Hak. apply (H3 eq_refl). clear H1 H2 H3 Hl. revert Hr a Ha Hak Hk.
  induction Hp as [n|n n' k p Hadj Hp IH]; intros Hr a Ha Hak Hk; [constructor|].
  pose proof (path_nonneg _ _ _ _ _ Hp).
  destruct (fr_path _ _ Hr n a Ha) as [Hpa Haa]. pose proof (fr_small _ _ Hr n a Ha).
  pose proof (fr_size _ _ Hr n a Ha).
  destruct (fr_complete _ _ Hr eq_refl n' (a + 1)) as (a' & Ha' & ?).
  { by eapply path_snoc. }
  { destruct Hak as [->|?]; [unfold DEPTH_MAX, u32_max; lia|lia]. }
  assert (Hadm : through_root_reachable dr max_depth n (k + 1) = true).
  { unfold through_root_reachable. rewrite Ha.
    destruct Hak as [->|?]; [by rewrite Z.eqb_refl|].
    rewrite (proj2 (Z.ltb_ge _ _)) by lia. by rewrite andb_false_r. }
  eapply walk_step; [|cbn; lia|by apply adjacent_in|exact Hadm].
  apply (IH Hr a' Ha'); [|lia]. destruct Hak; [by left|right; lia].
Qed.

(** ** The included nodes *)
Context (dr dt : gmap NodeId Z).
Abbreviation included := (included_nodes config target dr dt).

Lemma included_spec m :
  m ∈ included ↔ m = target ∨ m = root_id config ∨
    ∃ a b, dr !! m = Some a ∧ dt !! m = Some b ∧ depth_allows (a + b).
Proof.
  unfold included_nodes, depth_allows. rewrite !elem_of_union, !elem_of_singleton, elem_of_dom.
  enough (is_Some (filter (λ p, within_depth max_depth dt p = true) dr !! m) ↔
    ∃ a b, dr !! m = Some a ∧ dt !! m = Some b ∧ (max_depth = DEPTH_MAX ∨ a + b ≤ max_depth))
    by naive_solver.
  unfold is_Some. setoid_rewrite map_lookup_filter_Some. unfold within_depth. cbn.
  split.
  - intros (a & Ha & Hw). destruct (dt !! m) as [b|]; [|done].
    rewrite orb_true_iff, Z.eqb_eq, Z.leb_le in Hw. eauto.
  - intros (a & b & Ha & Hb & Hw). exists a. rewrite Hb, orb_true_iff, Z.eqb_eq, Z.leb_le. done.
Qed.

(** The node lies on a path from the root to the target that respects the limit. *)
Definition on_bounded_path (m : NodeId) : Prop :=
  ∃ a b, path s query (root_id config) a m ∧ path s query m b target ∧
    a ≤ max_depth ∧ b ≤ max_depth ∧ depth_allows (a + b).

Record distances : Prop := {
  ds_from : from_root dr false;
  ds_target : is_Some (dr !! target);
  ds_zero : dt !! target = Some 0;
  ds_to : ∀ m k, dt !! m = Some k → path s query m k target ∧ 0 ≤ k ≤ max_depth;
  ds_to_complete : ∀ m k a, dr !! m = Some a → path s query m k target →
    k ≤ max_depth → depth_allows (a + k) → ∃ k', dt !! m = Some k' ∧ k' ≤ k;
}.

Lemma depth_allows_le k k' : depth_allows k → k' ≤ k → depth_allows k'.
Proof. unfold depth_allows. intros [?|?] ?; [by left|right; lia]. Qed.

Lemma bounded_path_distances m :
  distances → on_bounded_path m →
  ∃ a b, dr !! m = Some a ∧ dt !! m = Some b ∧ depth_allows (a + b).
Proof.
  intros [F _ _ _ C] (a & b & Hpa & Hpb & Ha & Hb & Hab).
  destruct (fr_complete _ _ F eq_refl _ _ Hpa Ha) as (a' & Ha' & ?).
  destruct (C m b a' Ha' Hpb Hb) as (b' & Hb' & ?).
  { eapply depth_allows_le; [done|lia]. }
  exists a', b'. split; [done|]. split; [done|]. eapply depth_allows_le; [done|lia].
Qed.

Lemma distances_bounded_path m a b :
  distances → dr !! m = Some a → dt !! m = Some b → depth_allows (a + b) → on_bounded_path m.
Proof.
  intros [F _ _ T _] [? ?]%(fr_path _ _ F) [? ?]%T ?. exists a, b. naive_solver.
Qed.

Lemma included_exact m : distances → m ∈ included ↔ on_bounded_path m.
Proof.
  intros Hd. rewrite included_spec. split.
  - pose proof (effective_depth_bounds config Hok). pose proof Hd as [F [k Ht] _ _ _].
    destruct (fr_path _ _ F _ _ Ht). pose proof (fr_size _ _ F _ _ Ht).
    assert (depth_allows k) by (right; lia).
    intros [->|[->|(a & b & ? & ? & ?)]].
    + exists k, 0. rewrite Z.add_0_r. split; [done|]. split; [constructor|]. split_and!; [lia..|done].
    + exists 0, k. split; [constructor|]. split_and!; [done|lia|lia|done].
    + by eapply distances_bounded_path.
  - intros Hm. right. right. by apply bounded_path_distances.
Qed.
End ToTarget.

(** ** The reconstructed path *)
Section Reconstruct.
Context {St : Type} `{!TrailStorage St}.
Context (s : St) (config : TrailConfig) (target : NodeId).
Context (dr dt : gmap NodeId Z) (incl : gset NodeId).
Abbreviation max_depth := (effective_depth config).

(** The successors of [cur] the reconstruction considers. *)
Definition candidate (cur : NodeId) (d : Z) (e : Edge) (d_to : Z) (next : NodeId) : Prop :=
  effective_endpoints e = (cur, next) ∧ dr !! next = Some (saturating_add u32_max d 1) ∧
  dt !! next = Some d_to ∧ (max_depth = DEPTH_MAX ∨ d + 1 + d_to ≤ max_depth) ∧ next ∈ incl.

Definition key_le (a b : Z * NodeId) : Prop := a.1 < b.1 ∨ a.1 = b.1 ∧ a.2 ≤ b.2.

Lemma best_next_step_spec cur d fetched : ∀ best,
  let r := best_next_step max_depth dr dt incl cur d fetched best in
  (∀ k, r = Some k → best = Some k ∨
     ∃ e, e ∈ fetched ∧ candidate cur d e k.1 k.2) ∧
  (∀ k0, best = Some k0 → ∃ k, r = Some k ∧ key_le k k0) ∧
  (∀ e d_to next, e ∈ fetched → candidate cur d e d_to next →
     ∃ k, r = Some k ∧ key_le k (d_to, next)).
Proof.
  induction fetched as [|e fetched IH]; intros best; cbn [best_next_step]; cbn zeta.
  { split_and!; [by left| |by intros ??? ?%elem_of_nil].
    intros k0 ->. exists k0. split; [done|]. right. lia. }
  assert (Hskip : (∀ d_to next, ¬ candidate cur d e d_to next) →
    let r := best_next_step max_depth dr dt incl cur d fetched best in
    (∀ k, r = Some k → best = Some k ∨
       ∃ e', e' ∈ e :: fetched ∧ candidate cur d e' k.1 k.2) ∧
    (∀ k0, best = Some k0 → ∃ k, r = Some k ∧ key_le k k0) ∧
    (∀ e' d_to next, e' ∈ e :: fetched → candidate cur d e' d_to next →
       ∃ k, r = Some k ∧ key_le k (d_to, next))).
  { intros Hno. destruct (IH best) as (H1 & H2 & H3). cbn zeta. split_and!.
    - intros k [?|(e' & ? & ?)]%H1; [by left|right]. exists e'. split; [by right|done].
    - done.
    - intros e' d_to next [->|?]%elem_of_cons Hc; [by destruct (Hno d_to next)|by eapply H3]. }
  destruct (effective_endpoints e) as [src dst] eqn:Hep.
  destruct (bool_decide (src = cur)) eqn:Hsrc; cbn [negb].
  2: { apply Hskip. unfold candidate. rewrite Hep. apply bool_decide_eq_false in Hsrc. naive_solver. }
  apply bool_decide_eq_true in Hsrc as ->.
  destruct (dr !! dst) as [d_next|] eqn:Hdr.
  2: { apply Hskip. unfold candidate. rewrite Hep. naive_solver. }
  destruct (dt !! dst) as [d_to|] eqn:Hdt.
  2: { apply Hskip. unfold candidate. rewrite Hep. naive_solver. }
  destruct (d_next =? saturating_add u32_max d 1) eqn:Hn; cbn [negb].
  2: { apply Hskip. unfold candidate. rewrite Hep. apply Z.eqb_neq in Hn. naive_solver. }
  destruct (negb (max_depth =? DEPTH_MAX) && (max_depth <? d + 1 + d_to)) eqn:Hlim.
  { apply Hskip. unfold candidate. rewrite Hep.
    rewrite andb_true_iff, negb_true_iff, Z.eqb_neq, Z.ltb_lt in Hlim.
    intros ?? ([= <-] & _ & Hd & [?|?] & _); [naive_solver|]. simplify_eq. lia. }
  destruct (bool_decide (dst ∈ incl)) eqn:Hin; cbn [negb].
  2: { apply Hskip. unfold candidate. rewrite Hep. apply bool_decide_eq_false in Hin. naive_solver. }
  assert (Hc : candidate cur d e d_to dst).
  { apply Z.eqb_eq in Hn. apply bool_decide_eq_true in Hin. split_and!; [done|congruence|done| |done].
    rewrite andb_false_iff, negb_false_iff, Z.eqb_eq, Z.ltb_ge in Hlim. done. }
  assert (Huniq : ∀ a b, candidate cur d e a b → a = d_to ∧ b = dst).
  { intros a b (He & _ & Hd & _). rewrite Hep in He. simplify_eq. naive_solver. }
  destruct (match best with None => true | Some k => key2_lt (d_to, dst) k end) eqn:Hb.
  - destruct (IH (Some (d_to, dst))) as (H1 & H2 & H3). split_and!.
    + intros k [[= <-]|(e' & ? & ?)]%H1; right; [exists e|exists e']; (split; [set_solver|done]).
    + intros k0 ->. destruct (H2 _ eq_refl) as (k & Hk & Hle). exists k. split; [done|].
      unfold key2_lt, key_le in *. cbn in *. lia.
    + intros e' a b [->|?]%elem_of_cons Hc'; [|by eapply H3].
      apply Huniq in Hc' as [-> ->]. by apply H2.
  - destruct best as [k0|]; [|done]. destruct (IH (Some k0)) as (H1 & H2 & H3). split_and!.
    + intros k [?|(e' & ? & ?)]%H1; [by left|right]. exists e'. split; [by right|done].
    + done.
    + intros e' a b [->|?]%elem_of_cons Hc'; [|by eapply H3].
      apply Huniq in Hc' as [-> ->]. destruct (H2 _ eq_refl) as (k & Hk & Hle). exists k.
      split; [done|]. unfold key2_lt, key_le in *. cbn in *. lia.
Qed.

Lemma reconstruct_path_in fuel : ∀ cur p pt p' pt',
  reconstruct_path fuel s config target dr dt incl cur p pt = Some (Ok (p', pt')) →
  ∃ suf, p' = p ++ suf ∧ ∀ m, m ∈ suf → m ∈ incl.
Proof.
  induction fuel as [|fuel IH]; intros cur p pt p' pt'; cbn [reconstruct_path]; [done|].
  assert (Hstop : ∃ suf, p = p ++ suf ∧ ∀ m, m ∈ suf → m ∈ incl).
  { exists []. split; [by rewrite app_nil_r|by intros ? ?%elem_of_nil]. }
  case_decide; [by intros [= <- <-]|]. destruct (dr !! cur) as [d|]; [|by intros [= <- <-]].
  destruct (get_edges_for_node_limited _ _ _ _ _) as [fetch|]; [|done]. cbn zeta.
  destruct (best_next_step_spec cur d (fetched_edges fetch) None) as (Hb & _).
  destruct (best_next_step _ _ _ _ _ _ _ _) as [[d_to next]|]; [|by intros [= <- <-]].
  intros (suf & -> & Hsuf)%IH. exists (next :: suf). split; [by rewrite <- app_assoc|].
  intros m [->|?]%elem_of_cons; [|auto].
  destruct (Hb _ eq_refl) as [?|(e & _ & _ & _ & _ & _ & ?)]; [done|done].
Qed.

Lemma reconstruct_path_fuel n fuel : ∀ cur p pt d,
  (∀ m k, dr !! m = Some k → 0 ≤ k < n ∧ k ≤ 100000) →
  dr !! cur = Some d → n - d < Z.of_nat fuel →
  reconstruct_path fuel s config target dr dt incl cur p pt ≠ None.
Proof.
  induction fuel as [|fuel IH]; intros cur p pt d Hn Hd Hf; cbn [reconstruct_path].
  { apply Hn in Hd. lia. }
  case_decide; [done|]. rewrite Hd.
  destruct (get_edges_for_node_limited _ _ _ _ _) as [fetch|]; [|done]. cbn zeta.
  destruct (best_next_step_spec cur d (fetched_edges fetch) None) as (Hb & _).
  destruct (best_next_step _ _ _ _ _ _ _ _) as [[d_to next]|]; [|done].
  destruct (Hb _ eq_refl) as [?|(e & _ & _ & Hnext & _)]; [done|].
  apply Hn in Hd. eapply IH; [done|exact Hnext|].
  unfold saturating_add, u32_max. lia.
Qed.

Lemma reconstruct_path_truncated fuel : ∀ cur p pt p' pt',
  reconstruct_path fuel s config target dr dt incl cur p pt = Some (Ok (p', pt')) →
  pt' = false → pt = false.
Proof.
  induction fuel as [|fuel IH]; intros cur p pt p' pt'; cbn [reconstruct_path]; [done|].
  case_decide; [by intros [= <- <-]|]. destruct (dr !! cur) as [d|]; [|by intros [= <- <-]].
  destruct (get_edges_for_node_limited _ _ _ _ _) as [fetch|]; [|done]. cbn zeta.
  destruct (best_next_step _ _ _ _ _ _ _ _) as [[d_to next]|].
  - intros Hp Hpt. apply IH in Hp; [|done]. by apply orb_false_iff in Hp as [-> _].
  - intros [= <- <-] Hpt. by apply orb_false_iff in Hpt as [-> _].
Qed.
End Reconstruct.

(** A route is a path with its nodes. *)
Inductive route {St} `{!TrailStorage St} (s : St) (q : EdgeQuery)
  : NodeId → list NodeId → NodeId → Prop :=
| route_nil n : route s q n [] n
| route_cons n m l p :
    adjacent s q TrailDirection.Outgoing n m → route s q m l p → route s q n (m :: l) p.

Section Shortest.
Context {St : Type} `{!TrailStorage St} `{!TrailStorageLaws St}.
Context (s : St) (config : TrailConfig) (target : NodeId) (Hok : config_ok config).
Context (dr dt : gmap NodeId Z) (Hds : distances s config target dr dt).
Abbreviation query := (trail_edge_query config).
Abbreviation included := (included_nodes config target dr dt).

Lemma path_app q n k m j p : path s q n k m → path s q m j p → path s q n (k + j) p.
Proof.
  induction 1 as [n|n m k p' Hadj Hp IH]; intros Hq; [by rewrite Z.add_0_l|].
  replace (k + 1 + j) with (k + j + 1) by lia. econstructor; eauto.
Qed.

(** From a node on a shortest root-to-target path, every successor on one is as far
    from the root and as near to the target as it can be. *)
Lemma shortest_step K cur a b m :
  dr !! target = Some K → dr !! cur = Some a → dt !! cur = Some b → a + b = K →
  adjacent s query TrailDirection.Outgoing cur m →
  (∀ b', dr !! m = Some (a + 1) → dt !! m = Some b' → b - 1 ≤ b') ∧
  (path s query m (b - 1) target →
     dr !! m = Some (a + 1) ∧ dt !! m = Some (b - 1) ∧ m ∈ included).
Proof.
  intros HK Ha Hb Hab Hadj. destruct Hds as [F _ _ T C].
  destruct (fr_path _ _ _ _ F _ _ Ha) as [Hpa Hda].
  destruct (T _ _ Hb) as [Hpb Hdb].
  assert (Hmin : ∀ k, path s query (root_id config) k target → K ≤ k).
  { intros k Hp. destruct (fr_path _ _ _ _ F _ _ HK) as [_ HKd].
    destruct (decide (k ≤ effective_depth config)); [|lia].
    destruct (fr_complete _ _ _ _ F eq_refl _ _ Hp) as (k' & ? & ?); [done|].
    simplify_eq. done. }
  assert (Hto : ∀ b', dt !! m = Some b' → b - 1 ≤ b').
  { intros b' [Hp _]%T. pose proof (Hmin _ (path_app _ _ _ _ _ _ (path_snoc _ _ _ _ _ _ Hpa Hadj) Hp)). lia. }
  split; [auto|]. intros Hp. pose proof (path_nonneg _ _ _ _ _ Hp).
  destruct (fr_path _ _ _ _ F _ _ HK) as [_ HKd].
  destruct (fr_complete _ _ _ _ F eq_refl m (a + 1)) as (a' & Ha' & ?);
    [by eapply path_snoc|lia|].
  destruct (fr_path _ _ _ _ F _ _ Ha') as [Hpa' _].
  pose proof (Hmin _ (path_app _ _ _ _ _ _ Hpa' Hp)).
  assert (a' = a + 1) as -> by lia. split; [done|].
  destruct (C m (b - 1) (a + 1) Ha' Hp) as (b' & Hb' & ?); [lia|right; lia|].
  pose proof (Hto _ Hb'). assert (b' = b - 1) as -> by lia. split; [done|].
  apply included_spec. right. right. exists (a + 1), (b - 1).
  split; [done|]. split; [done|]. right. lia.
Qed.

Lemma reconstruct_path_route K fuel : ∀ cur p p' a b,
  reconstruct_path fuel s config target dr dt included cur p false = Some (Ok (p', false)) →
  dr !! target = Some K → dr !! cur = Some a → dt !! cur = Some b → a + b = K →
  ∃ suf, p' = p ++ suf ∧ route s query cur suf target ∧ len suf = b.
Proof.
  induction fuel as [|fuel IH]; intros cur p p' a b; cbn [reconstruct_path]; [done|].
  intros Hr HK Ha Hb Hab. pose proof Hds as [F _ Hz T _].
  destruct (decide (cur = target)) as [->|Hne].
  { injection Hr as <-. exists []. rewrite app_nil_r. split; [done|].
    split; [constructor|]. rewrite Hz in Hb. by injection Hb as <-. }
  rewrite Ha in Hr.
  destruct (get_edges_for_node_limited _ _ _ _ _) as [fetch|] eqn:Hf; [|done].
  cbn zeta in Hr. destruct (best_next_step_spec config dr dt included cur a (fetched_edges fetch) None)
    as (Hbest & _ & Hmin).
  destruct (T _ _ Hb) as [Hp Hdb]. inversion Hp as [n|n m k n' Hadj Hp']; subst; [done|].
  assert (Hft : fetch_truncated fetch = false).
  { destruct (best_next_step _ _ _ _ _ _ _ _) as [[? ?]|]; [|by injection Hr as _ ->].
    by apply reconstruct_path_truncated in Hr. }
  rewrite Hft in Hr. pose proof (fr_small _ _ _ _ F _ _ Ha).
  assert (Hsat : saturating_add u32_max a 1 = a + 1) by (unfold saturating_add, u32_max; lia).
  destruct (shortest_step _ _ _ _ _ HK Ha Hb eq_refl Hadj) as [_ Hm].
  destruct Hm as (Hm1 & Hm2 & Hm3); [by replace (k + 1 - 1) with k by lia|].
  destruct (proj1 (adjacent_out _ _ _ _) Hadj) as (e & Hsees & Ht).
  destruct (Hmin e k m) as (key & Hkey & Hle).
  { by eapply fetch_complete. }
  { pose proof (proj1 (sees_out_in _ _ _ _) Hsees) as [Hsrc _].
    unfold candidate, effective_endpoints. rewrite Hsat. split_and!; [congruence|done| | |done].
    - by replace (k + 1 - 1) with k in Hm2 by lia.
    - right. destruct (fr_path _ _ _ _ F _ _ HK). lia. }
  rewrite Hkey in Hr. destruct key as [d_to next].
  destruct (Hbest _ Hkey) as [?|(e' & He' & Hc)]; [done|].
  destruct Hc as (Hep & Hdn & Hdt & _ & _). cbn [fst snd] in *. rewrite Hsat in Hdn.
  assert (Hadj' : adjacent s query TrailDirection.Outgoing cur next).
  { apply adjacent_out. exists e'. split; [by eapply fetch_sound|].
    unfold effective_endpoints in Hep. congruence. }
  destruct (shortest_step _ _ _ _ _ HK Ha Hb eq_refl Hadj') as [Hge _].
  pose proof (Hge _ Hdn Hdt). unfold key_le in Hle. cbn in Hle.
  assert (d_to = k) as -> by lia.
  destruct (IH next _ _ (a + 1) k Hr HK Hdn Hdt ltac:(lia)) as (suf & -> & Hroute & <-).
  exists (next :: suf). split; [by rewrite <- app_assoc|]. split; [by econstructor|].
  rewrite len_cons. lia.
Qed.
End Shortest.
