(* ===== verification/TrailTarget.v ===== *)
(** * Selection of the root-to-target trail and its properties

    The second half of [get_trail_to_target]: which nodes are selected, which edges
    are loaded, and the theorems about the result that the store returns. *)
From S2P Require Import Prelude RustStr Graph Trail TrailBfs TrailNeighborhood TrailPath.

(** ** The ordered selection *)
Definition sel_ok (sel : list NodeId * gset NodeId) : Prop :=
  NoDup sel.1 ∧ ∀ m, m ∈ sel.1 ↔ m ∈ sel.2.

Lemma push_unique_spec sel id :
  sel_ok sel → sel_ok (push_unique sel id) ∧
  (∀ m, m ∈ (push_unique sel id).1 ↔ m ∈ sel.1 ∨ m = id) ∧
  len (push_unique sel id).1 ≤ len sel.1 + 1.
Proof.
  intros [Hnd Hin]. unfold push_unique, sel_ok.
  case_decide as Hid; cbn; [split_and!; [done|done|set_solver|lia]|].
  split_and!.
  - apply NoDup_app. split; [done|]. split; [set_solver|apply NoDup_singleton].
  - intros m. rewrite elem_of_app, list_elem_of_singleton, elem_of_union, elem_of_singleton, Hin.
    tauto.
  - intros m. by rewrite elem_of_app, list_elem_of_singleton.
  - rewrite len_app, len_cons, len_nil. lia.
Qed.

Lemma push_all_spec ids : ∀ sel,
  sel_ok sel → sel_ok (foldl push_unique sel ids) ∧
  (∀ m, m ∈ (foldl push_unique sel ids).1 ↔ m ∈ sel.1 ∨ m ∈ ids) ∧
  len (foldl push_unique sel ids).1 ≤ len sel.1 + len ids.
Proof.
  induction ids as [|id ids IH]; intros sel Hs; cbn [foldl].
  { rewrite len_nil. split; [done|]. split; [set_solver|lia]. }
  destruct (push_unique_spec sel id Hs) as (Hs' & Hin & Hl). rewrite len_cons.
  destruct (IH _ Hs') as (? & Hin' & ?). split; [done|]. split; [|lia].
  intros m. rewrite Hin', Hin, elem_of_cons. tauto.
Qed.

Lemma push_others_spec limit others : ∀ sel,
  sel_ok sel → let sel' := push_others limit others sel in
  sel_ok sel' ∧ (∀ m, m ∈ sel.1 → m ∈ sel'.1) ∧
  (∀ m, m ∈ sel'.1 → m ∈ sel.1 ∨ m ∈ others) ∧
  len sel'.1 ≤ Z.max limit (len sel.1) ∧
  ((∀ m, m ∈ others → m ∈ sel'.1) ∨ limit ≤ len sel'.1).
Proof.
  induction others as [|id others IH]; intros sel Hs; cbn [push_others].
  { split_and!; [done|done|by left|lia|left; by intros ? ?%elem_of_nil]. }
  destruct (limit <=? len sel.1) eqn:Hl.
  { apply Z.leb_le in Hl. split_and!; [done|done|by left|lia|by right]. }
  apply Z.leb_gt in Hl. destruct (push_unique_spec sel id Hs) as (Hs' & Hin & Hlen).
  destruct (IH _ Hs') as (H1 & H2 & H3 & H4 & H5). cbn zeta in *. split_and!.
  - done.
  - intros m ?. apply H2, Hin. by left.
  - intros m Hm. apply H3 in Hm as [Hm|?]; [apply Hin in Hm|]; set_solver.
  - lia.
  - destruct H5 as [H5|?]; [left|by right]. intros m [->|?]%elem_of_cons; [|auto].
    apply H2, Hin. by right.
Qed.

Lemma push_others_prefix limit others : ∀ sel,
  sel.1 `prefix_of` (push_others limit others sel).1.
Proof.
  induction others as [|id others IH]; intros sel; cbn [push_others]; [done|].
  destruct (_ <=? _); [done|]. etransitivity; [|apply IH]. unfold push_unique.
  case_decide; [done|]. cbn. by apply prefix_app_r.
Qed.

(** ** Loading the selected nodes *)
Section Load.
Context {St : Type} `{!TrailStorage St}.
Context (s : St) (dr : gmap NodeId Z).

Lemma load_selected_spec selected : ∀ r r',
  load_selected s dr selected r = Ok r' →
  ∃ nds, nodes r' = nodes r ++ nds ∧ edges r' = edges r ∧ truncated r' = truncated r ∧
    omitted_edge_count r' = omitted_edge_count r ∧
    (∀ nd, nd ∈ nds ↔ ∃ m, m ∈ selected ∧ get_node s m = Ok (Some nd)) ∧
    (node_ids_ok s → sublist (node_id <$> nds) selected) ∧ len nds ≤ len selected ∧
    (∀ m k, depth_map r' !! m = Some k ↔
       (m ∈ selected ∧ k = default 0 (dr !! m)) ∨ ((m ∉ selected) ∧ depth_map r !! m = Some k)).
Proof.
  induction selected as [|id selected IH]; intros r r'; cbn [load_selected].
  { intros [= <-]. exists []. rewrite app_nil_r.
    split_and!; [done..|set_solver|intros _; constructor|done|set_solver]. }
  destruct (get_node s id) as [found|] eqn:Hg; [|done].
  intros (nds & Hn & He & Ht & Ho & Hin & Hsub & Hlen & Hd)%IH. cbn in *.
  exists ((match found with Some nd => [nd] | None => [] end) ++ nds). split_and!.
  - rewrite Hn. destruct found; cbn; [by rewrite <- app_assoc|done].
  - rewrite He. by destruct found.
  - rewrite Ht. by destruct found.
  - rewrite Ho. by destruct found.
  - intros nd. rewrite elem_of_app, Hin. setoid_rewrite elem_of_cons. split.
    + intros [Hf|(m & ? & ?)]; [|eauto]. destruct found as [nd'|]; [|by apply elem_of_nil in Hf].
      apply list_elem_of_singleton in Hf as ->. eauto.
    + intros (m & [->|?] & Hm); [|eauto]. left. rewrite Hg in Hm. injection Hm as ->.
      by apply list_elem_of_singleton.
  - intros Hid. specialize (Hsub Hid). destruct found as [nd|]; cbn.
    + apply Hid in Hg as ->. by apply sublist_skip.
    + by apply sublist_cons.
  - rewrite len_app, len_cons. destruct found; rewrite ?len_cons, ?len_nil; unfold len in *; simpl; lia.
  - intros m k. rewrite Hd, elem_of_cons.
    assert (Hdm : depth_map (match found with Some node => push_node r node | None => r end)
      = depth_map r) by (by destruct found). rewrite Hdm.
    destruct (decide (m = id)) as [->|].
    + rewrite lookup_insert_eq. split.
      * intros [[? ?]|[? [= <-]]]; left; auto.
      * intros [[_ ->]|[Hno _]]; [|exfalso; auto].
        destruct (decide (id ∈ selected)); [left|right]; done.
    + rewrite lookup_insert_ne by done. split.
      * intros [[? ?]|[? ?]]; [left; auto|right]. split; [intros [?|?]; done|done].
      * intros [[[?|?] ?]|[Hno ?]]; [done|by left|right]. split; [|done]. intros ?; apply Hno; auto.
Qed.
End Load.

(** ** Loading the edges between the selected nodes *)
Section Edges.
Context {St : Type} `{!TrailStorage St}.
Context (s : St) (config : TrailConfig) (dr dt : gmap NodeId Z) (sel : gset NodeId).
Abbreviation max_depth := (effective_depth config).

(** The edges the loop keeps at node [id]. *)
Definition keeps (id : NodeId) (d_root : Z) (e : Edge) : Prop :=
  effective_source e = id ∧ effective_target e ∈ sel ∧
  ∃ d_to, dt !! effective_target e = Some d_to ∧ depth_allows config (d_root + 1 + d_to).

(** [r'] extends [r] by the edges [es], whose ids are new and extend [ids] to [ids']. *)
Record adds_edges (r r' : TrailResult) (ids ids' : gset EdgeId) (es : list Edge) : Prop := {
  ae_edges : edges r' = edges r ++ es;
  ae_nodes : nodes r' = nodes r;
  ae_depth : depth_map r' = depth_map r;
  ae_omitted : omitted_edge_count r' = omitted_edge_count r;
  ae_nodup : NoDup (edge_id <$> es);
  ae_new : ∀ i, i ∈ edge_id <$> es → i ∉ ids;
  ae_ids : ∀ i, i ∈ ids' ↔ i ∈ ids ∨ i ∈ edge_id <$> es;
}.

Lemma adds_edges_refl r r' ids :
  edges r' = edges r → nodes r' = nodes r → depth_map r' = depth_map r →
  omitted_edge_count r' = omitted_edge_count r → adds_edges r r' ids ids [].
Proof. intros. split; [by rewrite app_nil_r|done..|constructor|set_solver|set_solver]. Qed.

Lemma adds_edges_trans r1 r2 r3 ids1 ids2 ids3 es1 es2 :
  adds_edges r1 r2 ids1 ids2 es1 → adds_edges r2 r3 ids2 ids3 es2 →
  adds_edges r1 r3 ids1 ids3 (es1 ++ es2).
Proof.
  intros [A1 A2 A3 A4 A5 A6 A7] [B1 B2 B3 B4 B5 B6 B7].
  split; [by rewrite B1, A1, app_assoc|congruence..| | |].
  - rewrite fmap_app. apply NoDup_app. split; [done|]. split; [|done].
    intros i Hi1 Hi2%B6. apply Hi2, A7. by right.
  - intros i. rewrite fmap_app, elem_of_app. intros [?|Hi%B6]; [by apply A6|].
    intros ?. apply Hi, A7. by left.
  - intros i. rewrite B7, A7, fmap_app, elem_of_app. tauto.
Qed.

Lemma path_edges_spec id d_root fetched : ∀ ids r,
  let '(ids', r') := path_edges max_depth dt sel id d_root fetched ids r in
  truncated r' = truncated r ∧
  ∃ es, adds_edges r r' ids ids' es ∧
    (∀ e, e ∈ es → e ∈ fetched ∧ keeps id d_root e) ∧
    (∀ e, e ∈ fetched → keeps id d_root e → edge_id e ∈ ids').
Proof.
  induction fetched as [|e fetched IH]; intros ids r; cbn [path_edges].
  { split; [done|]. exists []. split_and!; [by apply adds_edges_refl|set_solver|set_solver]. }
  assert (Hskip : (keeps id d_root e → edge_id e ∈ ids) →
    let '(ids', r') := path_edges max_depth dt sel id d_root fetched ids r in
    truncated r' = truncated r ∧
    ∃ es, adds_edges r r' ids ids' es ∧
      (∀ e', e' ∈ es → e' ∈ e :: fetched ∧ keeps id d_root e') ∧
      (∀ e', e' ∈ e :: fetched → keeps id d_root e' → edge_id e' ∈ ids')).
  { intros He. specialize (IH ids r). destruct (path_edges _ _ _ _ _ _ _ _) as [ids' r'].
    destruct IH as (? & es & Ha & H1 & H2). split; [done|]. exists es. split; [done|]. split.
    - intros e' [? ?]%H1. split; [by right|done].
    - intros e' [->|?]%elem_of_cons Hk; [|auto]. apply (ae_ids _ _ _ _ _ Ha). auto. }
  destruct (effective_endpoints e) as [src dst] eqn:Hep.
  assert (src = effective_source e ∧ dst = effective_target e) as [-> ->]
    by (unfold effective_endpoints in Hep; naive_solver).
  destruct (bool_decide (effective_source e = id)) eqn:Hsrc; cbn [negb orb].
  2: { apply Hskip. apply bool_decide_eq_false in Hsrc. by intros [? _]. }
  destruct (bool_decide (effective_target e ∈ sel)) eqn:Htgt; cbn [negb].
  2: { apply Hskip. apply bool_decide_eq_false in Htgt. by intros (_ & ? & _). }
  destruct (dt !! effective_target e) as [d_to|] eqn:Hd.
  2: { apply Hskip. unfold keeps. rewrite Hd. by intros (_ & _ & ? & ? & _). }
  destruct (negb (max_depth =? DEPTH_MAX) && (max_depth <? d_root + 1 + d_to)) eqn:Hlim.
  { apply Hskip. unfold keeps, depth_allows. rewrite Hd.
    rewrite andb_true_iff, negb_true_iff, Z.eqb_neq, Z.ltb_lt in Hlim.
    intros (_ & _ & ? & [= <-] & ?). lia. }
  destruct (decide (edge_id e ∈ ids)) as [Hid|Hid]; [by apply Hskip|].
  apply bool_decide_eq_true in Hsrc, Htgt.
  specialize (IH ({[edge_id e]} ∪ ids) (push_edge r e)).
  destruct (path_edges _ _ _ _ _ _ _ _) as [ids' r']. destruct IH as (Ht & es & Ha & H1 & H2).
  split; [done|]. exists ([e] ++ es). split.
  { eapply adds_edges_trans; [|exact Ha]. split; [done..|apply NoDup_singleton|set_solver|set_solver]. }
  assert (Hk : keeps id d_root e).
  { split; [done|]. split; [done|]. exists d_to. split; [done|]. unfold depth_allows.
    rewrite andb_false_iff, negb_false_iff, Z.eqb_eq, Z.ltb_ge in Hlim. tauto. }
  split.
  - intros e' [->|?]%elem_of_cons; [split; [by left|done]|].
    destruct (H1 e') as [? ?]; [done|]. split; [by right|done].
  - intros e' [->|?]%elem_of_cons ?; [|auto]. apply (ae_ids _ _ _ _ _ Ha). left. set_solver.
Qed.

(** What [load_path_edges] may add: visible edges out of selected nodes that it keeps. *)
Definition loadable (selected : list NodeId) (e : Edge) : Prop :=
  ∃ id d_root, id ∈ selected ∧ dr !! id = Some d_root ∧
    sees s (trail_edge_query config) TrailDirection.Outgoing id e ∧ keeps id d_root e.

Lemma load_path_edges_spec selected : ∀ ids r r',
  load_path_edges s config dr dt sel selected ids r = Ok r' →
  ∃ ids' es, adds_edges r r' ids ids' es ∧
    (truncated r = true → truncated r' = true) ∧
    (∀ e, e ∈ es → loadable selected e) ∧
    (truncated r' = false → ∀ e, loadable selected e → edge_id e ∈ ids').
Proof.
  induction selected as [|id selected IH]; intros ids r r'; cbn [load_path_edges].
  { intros [= <-]. exists ids, []. split; [by apply adds_edges_refl|]. split; [done|].
    split; [set_solver|]. intros _ e (? & ? & ?%elem_of_nil & _). done. }
  destruct (dr !! id) as [d_root|] eqn:Hd.
  2: { intros (ids' & es & Ha & Ht & H1 & H2)%IH. exists ids', es. split; [done|]. split; [done|].
       split.
       - intros e (n & d & ? & ?)%H1. exists n, d. split; [by right|done].
       - intros Htr e (n & d & [->|?]%elem_of_cons & ? & ?); [congruence|].
         apply (H2 Htr). exists n, d. done. }
  destruct (get_edges_for_node_limited _ _ _ _ _) as [fetch|] eqn:Hf; [|done].
  set (r0 := if fetch_truncated fetch then set_truncated r else r).
  pose proof (path_edges_spec id d_root (fetched_edges fetch) ids r0) as Hp.
  destruct (path_edges _ _ _ _ _ _ _ _) as [ids1 r1]. destruct Hp as (Ht1 & es1 & Ha1 & H1 & H2).
  intros (ids' & es & Ha & Ht & H3 & H4)%IH. exists ids', (es1 ++ es).
  assert (Hr0 : adds_edges r r0 ids ids []).
  { unfold r0. destruct (fetch_truncated fetch); by apply adds_edges_refl. }
  split; [|split; [|split]].
  - eapply adds_edges_trans; [|exact Ha]. exact (adds_edges_trans _ _ _ _ _ _ _ _ Hr0 Ha1).
  - intros Htr. apply Ht. rewrite Ht1. unfold r0. by destruct (fetch_truncated fetch).
  - intros e [[? ?]%H1|(n & d & ? & ?)%H3]%elem_of_app.
    + exists id, d_root. split; [by left|]. split; [done|]. split; [|done]. by eapply fetch_sound.
    + exists n, d. split; [by right|done].
  - intros Htr e (n & d & [->|?]%elem_of_cons & Hdn & Hs & Hk).
    + assert (d = d_root) as -> by congruence. apply (ae_ids _ _ _ _ _ Ha). left.
      apply H2; [|done]. eapply fetch_complete; [done| |done].
      destruct (fetch_truncated fetch) eqn:Hft; [|done].
      rewrite Ht in Htr; [done|]. rewrite Ht1. done.
    + apply (H4 Htr). exists n, d. done.
Qed.
End Edges.

(** ** What the selection returns *)
Definition edge_sorted (l : list Edge) : Prop :=
  StronglySorted (λ a b, edge_id a < edge_id b) l.

#[export] Instance edge_id_le_trans : Transitive edge_id_le.
Proof. intros a b c. unfold edge_id_le. lia. Qed.
#[export] Instance edge_id_le_total : Total edge_id_le.
Proof. intros a b. unfold edge_id_le. lia. Qed.

(** Sorting edges with distinct ids by id. *)
Lemma merge_sort_edges l : NoDup (edge_id <$> l) → edge_sorted (merge_sort edge_id_le l).
Proof.
  intros Hnd. pose proof (StronglySorted_merge_sort edge_id_le l) as Hs.
  rewrite <- (merge_sort_Permutation edge_id_le l) in Hnd.
  unfold edge_sorted. induction Hs as [|e l' Hs IH Hall]; [constructor|].
  cbn in Hnd. apply NoDup_cons in Hnd as [Hno Hnd]. constructor; [by apply IH|].
  rewrite Forall_forall in *. intros e' He'. specialize (Hall e' He'). unfold edge_id_le in Hall.
  enough (edge_id e ≠ edge_id e') by lia. intros Heq. apply Hno. rewrite Heq.
  apply list_elem_of_fmap. by exists e'.
Qed.

Section Selection.
Context {St : Type} `{!TrailStorage St}.
Context (s : St) (config : TrailConfig) (target : NodeId) (dr dt : gmap NodeId Z).
Context (incl : gset NodeId) (p : list NodeId) (trunc : bool).

Record selection (r0 : TrailResult) (selected : list NodeId) : Prop := {
  se_nodup : NoDup selected;
  se_path : ∀ m, m ∈ p → m ∈ selected;
  se_target : target ∈ selected;
  se_from : ∀ m, m ∈ selected → m ∈ p ∨ m = target ∨ m ∈ incl;
  se_nodes : ∀ nd, nd ∈ nodes r0 ↔ ∃ m, m ∈ selected ∧ get_node s m = Ok (Some nd);
  se_node_ids : node_ids_ok s → NoDup (node_id <$> nodes r0);
  se_len : len selected ≤ Z.max (max_nodes config) (len p + 1);
  se_len_nodes : len (nodes r0) ≤ len selected;
  se_sorted : edge_sorted (edges r0);
  se_edges : ∀ e, e ∈ edges r0 → loadable s config dr dt (list_to_set selected) selected e;
  se_all : truncated r0 = false → trunc = false ∧ Z.of_nat (size incl) ≤ len selected ∧
    ∀ e, loadable s config dr dt (list_to_set selected) selected e →
         edge_id e ∈ edge_id <$> edges r0;
}.

Lemma select_path_trail_selection r :
  select_path_trail s config target dr dt incl p trunc = Ok r →
  ∃ r0 selected, selection r0 selected ∧
    r = select_trail_edges (apply_trail_node_filter r0 config).
Proof.
  unfold select_path_trail.
  destruct (push_all_spec p ([], ∅)) as (S1 & I1 & L1); [split; [constructor|set_solver]|].
  destruct (push_unique_spec _ target S1) as (S2 & I2 & L2).
  destruct (push_others_spec (max_nodes config)
    (merge_sort (other_le dr dt) (elements incl)) _ S2) as (S3 & I3 & I4 & L3 & _).
  set (r1 := push_others _ _ _) in *. clearbody r1. destruct r1 as [sel set0]. cbn [fst snd] in *.
  set (selected := merge_sort (selected_le dr) sel).
  assert (Hperm : selected ≡ₚ sel) by apply merge_sort_Permutation.
  assert (Hin : ∀ m, m ∈ selected ↔ m ∈ sel) by (intros m; by rewrite Hperm).
  assert (Hlen : len selected = len sel) by (unfold len; by rewrite Hperm).
  intros (ra & Ha & (rb & Hb & Hr)%bind_Ok)%bind_Ok.
  destruct (load_selected_spec _ _ _ _ _ Ha) as (nds & An & Ae & At & Ao & Ain & Asub & Alen & _).
  destruct (load_path_edges_spec _ _ _ _ _ _ _ _ _ Hb) as (ids & es & He & Bt & B1 & B2).
  cbn in An, Ae, At, Ao. injection Hr as <-. eexists _, selected. split; [|done].
  destruct He as [E1 E2 E3 E4 E5 E6 E7]. rewrite Ae in E1. cbn in E1.
  split; cbn [nodes edges truncated depth_map].
  - rewrite Hperm. apply S3.
  - intros m Hm. apply Hin, I3, I2. left. apply I1. by right.
  - apply Hin, I3, I2. by right.
  - intros m [[[?%elem_of_nil|?]%I1|?]%I2|Hm]%Hin%I4; [done|by left|auto|].
    rewrite (merge_sort_Permutation _ _), elem_of_elements in Hm. auto.
  - by rewrite E2, An.
  - intros Hid. rewrite E2, An. eapply sublist_NoDup; [|by apply Asub]. rewrite Hperm. apply S3.
  - rewrite Hlen. etransitivity; [exact L3|]. apply Z.max_le_compat_l.
    etransitivity; [exact L2|]. apply Zplus_le_compat_r. exact L1.
  - by rewrite E2, An.
  - apply merge_sort_edges. by rewrite E1.
  - intros e. rewrite (merge_sort_Permutation _ _), E1. apply B1.
  - intros Ht. rewrite Ht in Bt, B2.
    assert (Hta : truncated ra = false) by (destruct (truncated ra); [by discriminate Bt|done]).
    rewrite Hta in At. symmetry in At. apply orb_false_iff in At as [At1 At2].
    apply orb_false_iff in At1 as [At1 _]. split; [done|]. apply Z.ltb_ge in At2. split; [lia|].
    intros e Hl. apply (B2 eq_refl), E7 in Hl. destruct Hl as [?%elem_of_empty|Hl]; [done|].
    by rewrite (merge_sort_Permutation _ _), E1.
Qed.
End Selection.

(** ** From the call to its selection *)
Section Outcome.
Context {St : Type} `{!TrailStorage St} `{!TrailStorageLaws St}.
Context (s : St) (config : TrailConfig) (target : NodeId) (Hok : config_ok config).
Abbreviation query := (trail_edge_query config).
Abbreviation bounded := (on_bounded_path s config target).

(** The two distance maps, whatever was truncated. *)
Record distance_maps (dr : gmap NodeId Z) (tr : bool) (dt : gmap NodeId Z) (tt : bool) : Prop := {
  dm_from : from_root s config dr tr;
  dm_target : is_Some (dr !! target);
  dm_zero : dt !! target = Some 0;
  dm_to : ∀ m k, dt !! m = Some k →
            path s query m k target ∧ 0 ≤ k ≤ effective_depth config;
  dm_exact : tr = false → tt = false → distances s config target dr dt;
}.

Lemma distance_maps_of_calls dr tr dt tt :
  bfs_distances s (root_id config) TrailDirection.Outgoing (traversal_options config)
    = Some (Ok (dr, tr)) →
  is_Some (dr !! target) →
  bfs_distances_to_target_through_root_reachable s target dr (traversal_options config)
    = Some (Ok (dt, tt)) →
  distance_maps dr tr dt tt.
Proof.
  intros Hr Ht Hl. pose proof (bfs_distances_from_root s config Hok dr tr Hr) as Hf.
  destruct (bfs_distances_to_target s config target Hok dr tr dt tt Hf Hl) as (H1 & H2 & H3).
  split; [done..|]. intros -> ->. split; [done..|]. by apply H3.
Qed.

Inductive outcome (r : TrailResult) : Prop :=
| unreachable_outcome dr tr :
    from_root s config dr tr → dr !! target = None →
    unreachable_target_trail s config target tr = Ok r → outcome r
| selected_outcome dr tr dt tt p pt r0 selected :
    distance_maps dr tr dt tt →
    (∀ m, m ∈ p → m ∈ included_nodes config target dr dt) → root_id config ∈ p →
    (tr || tt || pt = false → pt = false) →
    selection s config target dr dt (included_nodes config target dr dt) p (tr || tt || pt)
      r0 selected →
    r = select_trail_edges (apply_trail_node_filter r0 config) → outcome r.

Lemma get_trail_to_target_outcome r :
  target_id config = Some target → get_trail_to_target s config = Some (Ok r) → outcome r.
Proof.
  intros Htgt. unfold get_trail_to_target. rewrite Htgt.
  destruct (bfs_distances _ _ _ _) as [[[dr tr]|]|] eqn:Hr; [|done..].
  destruct (dr !! target) as [k|] eqn:Hk.
  2: { intros [= Hu]. eapply unreachable_outcome; [|done|done].
       by apply bfs_distances_from_root. }
  destruct (bfs_distances_to_target_through_root_reachable _ _ _ _) as [[[dt tt]|]|] eqn:Hl;
    [|done..].
  destruct (reconstruct_path _ _ _ _ _ _ _ _ _ _) as [[[p pt]|]|] eqn:Hp; [|done..].
  intros [= Hs]. destruct (select_path_trail_selection _ _ _ _ _ _ _ _ _ Hs) as (r0 & sel & ? & ->).
  apply reconstruct_path_in in Hp as (suf & -> & Hsuf).
  eapply (selected_outcome _ dr tr dt tt); [| | | |done|done].
  - by apply distance_maps_of_calls.
  - intros m [->|?]%elem_of_cons; [|auto]. apply included_spec. auto.
  - by left.
  - intros Hpt. by apply orb_false_iff in Hpt as [_ ?].
Qed.

(** Reachability is closed under bounded suffixes. *)
Lemma from_root_suffix dr m b a :
  from_root s config dr false → path s query m b target →
  dr !! m = Some a → depth_allows config (a + b) → is_Some (dr !! target).
Proof.
  intros F Hp. revert a. induction Hp as [n|n n' k p Hadj Hp IH]; intros a Ha Hab; [by eexists|].
  pose proof (path_nonneg _ _ _ _ _ Hp). destruct (fr_path _ _ _ _ F _ _ Ha) as [Hpa ?].
  pose proof (fr_small _ _ _ _ F _ _ Ha).
  destruct (fr_complete _ _ _ _ F eq_refl n' (a + 1)) as (a' & Ha' & ?).
  - by eapply path_snoc.
  - destruct Hab as [->|?]; [unfold DEPTH_MAX, u32_max; lia|lia].
  - apply (IH a' Ha'). eapply depth_allows_le; [exact Hab|lia].
Qed.

Lemma unreachable_no_path dr :
  from_root s config dr false → dr !! target = None → ∀ m, ¬ bounded m.
Proof.
  intros F Hno m (a & b & Hpa & Hpb & Ha & Hb & Hab).
  destruct (fr_complete _ _ _ _ F eq_refl _ _ Hpa Ha) as (a' & Ha' & ?).
  destruct (from_root_suffix dr m b a') as [? ?]; [done..| |congruence].
  eapply depth_allows_le; [exact Hab|lia].
Qed.

Lemma unreachable_trail r tr :
  unreachable_target_trail s config target tr = Ok r →
  truncated r = tr ∧ edges r = [] ∧ omitted_edge_count r = 0 ∧
  (node_ids_ok s → NoDup (node_id <$> nodes r)) ∧
  (∀ nd, nd ∈ nodes r → ∃ m, (m = root_id config ∨ m = target) ∧ get_node s m = Ok (Some nd)) ∧
  (node_filter config = [] → ∀ nd m, (m = root_id config ∨ m = target) →
     get_node s m = Ok (Some nd) → nd ∈ nodes r).
Proof.
  unfold unreachable_target_trail. intros (root & Hroot & (r2 & Hr2 & Hr)%bind_Ok)%bind_Ok.
  injection Hr as <-.
  match goal with |- context [apply_trail_node_filter ?x config] => set (r3 := x) end.
  assert (H3 : ∃ tn, nodes r3 = match root with Some nd => [nd] | None => [] end ++ tn ∧
    edges r3 = [] ∧ truncated r3 = tr ∧ omitted_edge_count r3 = 0 ∧
    (∀ nd, nd ∈ tn ↔ target ≠ root_id config ∧ get_node s target = Ok (Some nd)) ∧
    (length tn ≤ 1)%nat).
  { revert Hr2. case_decide as Hne.
    - intros (found & Hf & [= <-])%bind_Ok. exists (match found with Some nd => [nd] | None => [] end).
      unfold r3. cbn. rewrite Hf.
      split_and!; try (by destruct root, found);
        [|destruct found; simpl; lia].
      intros nd. destruct found; [rewrite list_elem_of_singleton|rewrite elem_of_nil]; naive_solver.
    - intros [= <-]. exists []. unfold r3. cbn. rewrite app_nil_r.
      split_and!; try (by destruct root); [|simpl; lia].
      intros nd. rewrite elem_of_nil. naive_solver. }
  destruct H3 as (tn & Hn & He & Ht & Ho & Htn & Hlen).
  destruct (apply_trail_node_filter_sub r3 config) as (Fn & Fe & _ & Ft & Fo).
  assert (Hnodes : ∀ nd, nd ∈ nodes r3 ↔
    ∃ m, (m = root_id config ∨ m = target) ∧ get_node s m = Ok (Some nd)).
  { intros nd. rewrite Hn, elem_of_app, Htn.
    assert (nd ∈ (match root with Some nd => [nd] | None => [] end) ↔
      get_node s (root_id config) = Ok (Some nd)) as ->.
    { rewrite Hroot. destruct root; [rewrite list_elem_of_singleton|rewrite elem_of_nil]; naive_solver. }
    destruct (decide (target = root_id config)) as [->|]; naive_solver. }
  split; [by rewrite Ft|]. split; [rewrite He in Fe; by apply sublist_nil_r in Fe|].
  split; [by rewrite Fo|]. split; [|split].
  - intros Hid. eapply sublist_NoDup; [|by apply fmap_sublist].
    rewrite Hn, fmap_app. apply NoDup_app. split; [destruct root; [apply NoDup_singleton|constructor]|].
    split.
    + destruct root as [nd|]; [|by intros ? ?%elem_of_nil]. cbn.
      intros i ->%list_elem_of_singleton (nd' & Heq & [Hne Hg]%Htn)%list_elem_of_fmap.
      apply Hid in Hg, Hroot. congruence.
    + destruct tn as [|nd [|]]; [constructor|apply NoDup_singleton|simpl in Hlen; lia].
  - intros nd Hin. apply Hnodes. by apply (sublist_subseteq _ _ Fn).
  - intros Hf nd m Hm Hg. unfold apply_trail_node_filter. rewrite decide_True by done.
    apply Hnodes. eauto.
Qed.
End Outcome.

(** * Properties *)
Section Properties.
Context {St : Type} `{!TrailStorage St} `{!TrailStorageLaws St}.
Implicit Types (s : St) (config : TrailConfig) (target : NodeId) (r : TrailResult).

Lemma node_ids_of_laws s : node_ids_ok s.
Proof. intros n nd. apply get_node_found. Qed.

(** The edge leaves [src] for [dst] on a path from the root to the target that
    respects the depth limit. *)
Definition on_bounded_edge s config target (e : Edge) : Prop :=
  ∃ a b, path s (trail_edge_query config) (root_id config) a (effective_source e) ∧
    path s (trail_edge_query config) (effective_target e) b target ∧
    a ≤ effective_depth config ∧ b ≤ effective_depth config ∧
    depth_allows config (a + 1 + b).

Lemma loadable_bounded s config target dr tr dt tt sel selected e :
  distance_maps s config target dr tr dt tt →
  loadable s config dr dt sel selected e →
  sees s (trail_edge_query config) TrailDirection.Outgoing (effective_source e) e ∧
  on_bounded_edge s config target e.
Proof.
  intros Hd (id & a & _ & Ha & Hs & <- & _ & b & Hb & Hab). split; [done|].
  destruct (fr_path _ _ _ _ (dm_from _ _ _ _ _ _ _ Hd) _ _ Ha).
  destruct (dm_to _ _ _ _ _ _ _ Hd _ _ Hb) as [? [_ ?]]. by exists a, b.
Qed.

Lemma selected_spec s config target dr tr dt tt p trunc r0 selected :
  distance_maps s config target dr tr dt tt →
  (∀ m, m ∈ p → m ∈ included_nodes config target dr dt) →
  selection s config target dr dt (included_nodes config target dr dt) p trunc r0 selected →
  (∀ m, m ∈ selected → m = root_id config ∨ m = target ∨ on_bounded_path s config target m) ∧
  (truncated r0 = false → ∀ m, m ∈ included_nodes config target dr dt → m ∈ selected).
Proof.
  intros Hd Hp [S1 _ _ S4 _ _ _ _ _ _ S9].
  assert (Hsub : ∀ m, m ∈ selected → m ∈ included_nodes config target dr dt).
  { intros m [?|[->|?]]%S4; [auto| |done]. apply included_spec. auto. }
  split.
  - intros m Hm%Hsub. apply included_spec in Hm as [->|[->|(a & b & Ha & Hb & Hab)]]; [auto..|].
    right. right. destruct (fr_path _ _ _ _ (dm_from _ _ _ _ _ _ _ Hd) _ _ Ha).
    destruct (dm_to _ _ _ _ _ _ _ Hd _ _ Hb) as [? [_ ?]]. by exists a, b.
  - intros (_ & Hsize & _)%S9 m Hm.
    assert (list_to_set selected = included_nodes config target dr dt) as Heq.
    { apply set_subseteq_size_eq; [intros x Hx; apply Hsub; by apply elem_of_list_to_set in Hx|].
      rewrite size_list_to_set by done. unfold len in Hsize. lia. }
    rewrite <- Heq in Hm. by apply elem_of_list_to_set in Hm.
Qed.

(** Shape of the root-to-target trail, truncated or not and under any node filter:
    no node twice, the edges in strictly increasing id order, every node is an endpoint
    or lies on a path from the root to the target that respects the depth limit, and
    every edge joins two returned nodes, is visible from its source and lies on such a
    path. *)
Theorem to_target_trail_shape s config target r :
  config_ok config → target_id config = Some target →
  get_trail_to_target s config = Some (Ok r) →
  NoDup (node_id <$> nodes r) ∧ edge_sorted (edges r) ∧
  (∀ nd, nd ∈ nodes r → ∃ m, get_node s m = Ok (Some nd) ∧
     (m = root_id config ∨ m = target ∨ on_bounded_path s config target m)) ∧
  (∀ e, e ∈ edges r →
     effective_source e ∈ node_id <$> nodes r ∧ effective_target e ∈ node_id <$> nodes r ∧
     sees s (trail_edge_query config) TrailDirection.Outgoing (effective_source e) e ∧
     on_bounded_edge s config target e).
Proof.
  intros Hok Ht Hr. pose proof (node_ids_of_laws s) as Hid.
  destruct (get_trail_to_target_outcome s config target Hok r Ht Hr)
    as [dr tr F Hno Hu|dr tr dt tt p pt r0 sel Hd Hp _ _ Hs ->].
  { apply unreachable_trail in Hu as (_ & He & _ & Hnd & Hn & _). rewrite He.
    split; [auto|]. split; [constructor|]. split; [|by intros e ?%elem_of_nil].
    intros nd (m & [?|?] & ?)%Hn; exists m; auto. }
  pose proof (selected_spec _ _ _ _ _ _ _ _ _ _ _ Hd Hp Hs) as [Hfrom _].
  destruct (apply_trail_node_filter_sub r0 config) as (Fn & Fe & _).
  set (r1 := apply_trail_node_filter r0 config) in *.
  destruct (select_trail_edges_spec r1) as (Hn & _ & _ & He & _). rewrite Hn.
  assert (Hsub : edges (select_trail_edges r1) `sublist_of` edges r0)
    by (rewrite He; etransitivity; [apply sublist_filter|done]).
  split_and!.
  - eapply sublist_NoDup; [by apply (se_node_ids _ _ _ _ _ _ _ _ _ _ Hs)|by apply fmap_sublist].
  - eapply strongly_sorted_sublist; [exact Hsub|]. apply Hs.
  - intros nd Hin%(sublist_subseteq _ _ Fn).
    apply (se_nodes _ _ _ _ _ _ _ _ _ _ Hs) in Hin as (m & Hm%Hfrom & ?). exists m. auto.
  - intros e Hin. pose proof (sublist_subseteq _ _ Hsub e Hin) as Hin0.
    rewrite He, list_elem_of_filter, !elem_of_list_to_set in Hin. destruct Hin as [[? ?] _].
    split; [done|]. split; [done|].
    eapply loadable_bounded; [done|]. by eapply (se_edges _ _ _ _ _ _ _ _ _ _ Hs).
Qed.

(** On complete distances from the root, both ends of a bounded edge have one. *)
Lemma bounded_edge_from_root s config target dr e :
  config_ok config → from_root s config dr false →
  sees s (trail_edge_query config) TrailDirection.Outgoing (effective_source e) e →
  on_bounded_edge s config target e →
  ∃ a c b, dr !! effective_source e = Some a ∧ dr !! effective_target e = Some c ∧ c ≤ a + 1 ∧
    path s (trail_edge_query config) (effective_target e) b target ∧
    b ≤ effective_depth config ∧ depth_allows config (a + 1 + b).
Proof.
  intros Hok F Hs (a & b & Hpa & Hpb & Ha & Hb & Hab).
  destruct (fr_complete _ _ _ _ F eq_refl _ _ Hpa Ha) as (a' & Ha' & ?).
  destruct (fr_path _ _ _ _ F _ _ Ha') as [Hpa' ?]. pose proof (fr_small _ _ _ _ F _ _ Ha').
  pose proof (path_nonneg _ _ _ _ _ Hpb).
  destruct (fr_complete _ _ _ _ F eq_refl (effective_target e) (a' + 1)) as (c & Hc & ?).
  { eapply path_snoc; [done|]. apply adjacent_out. by exists e. }
  { destruct Hab as [->|?]; [unfold DEPTH_MAX, u32_max; lia|lia]. }
  exists a', c, b. split_and!; [done..|]. eapply depth_allows_le; [exact Hab|lia].
Qed.

Lemma bounded_edge_loadable s config target dr dt sel e :
  config_ok config → distances s config target dr dt →
  effective_source e ∈ sel → effective_target e ∈ sel →
  sees s (trail_edge_query config) TrailDirection.Outgoing (effective_source e) e →
  on_bounded_edge s config target e →
  loadable s config dr dt (list_to_set sel) sel e.
Proof.
  intros Hok [F _ _ T C] Hsrc Htgt Hs He.
  destruct (bounded_edge_from_root _ _ _ _ _ Hok F Hs He) as (a & c & b & Ha & Hc & ? & Hpb & ? & Hab).
  destruct (C _ b c Hc Hpb) as (b' & Hb' & ?); [done|by eapply depth_allows_le; [exact Hab|lia]|].
  exists (effective_source e), a. split; [done|]. split; [done|]. split; [done|].
  split; [done|]. split; [by apply elem_of_list_to_set|].
  exists b'. split; [done|]. eapply depth_allows_le; [exact Hab|lia].
Qed.

Lemma selected_edges s config target dr tr dt tt p trunc r0 sel :
  config_ok config → node_ids_ok s → distance_maps s config target dr tr dt tt →
  distances s config target dr dt →
  selection s config target dr dt (included_nodes config target dr dt) p trunc r0 sel →
  truncated r0 = false → ∀ e,
  e ∈ edges (select_trail_edges r0) ↔
    effective_source e ∈ node_id <$> nodes r0 ∧ effective_target e ∈ node_id <$> nodes r0 ∧
    sees s (trail_edge_query config) TrailDirection.Outgoing (effective_source e) e ∧
    on_bounded_edge s config target e.
Proof.
  intros Hok Hid Hm Hd Hs Htr e. destruct (select_trail_edges_spec r0) as (_ & _ & _ & -> & _).
  rewrite list_elem_of_filter, !elem_of_list_to_set. split.
  { intros [[? ?] Hin]. split; [done|]. split; [done|]. eapply loadable_bounded; [done|].
    by eapply (se_edges _ _ _ _ _ _ _ _ _ _ Hs). }
  intros (Hsrc & Htgt & Hsees & He). split; [done|].
  assert (Hsel : ∀ n, n ∈ node_id <$> nodes r0 → n ∈ sel).
  { intros n (nd & -> & Hin)%list_elem_of_fmap.
    apply (se_nodes _ _ _ _ _ _ _ _ _ _ Hs) in Hin as (m & ? & Hg). by rewrite (Hid _ _ Hg). }
  destruct (se_all _ _ _ _ _ _ _ _ _ _ Hs Htr) as (_ & _ & Hall).
  assert (Hin : edge_id e ∈ edge_id <$> edges r0).
  { apply Hall. eapply bounded_edge_loadable; eauto. }
  apply list_elem_of_fmap in Hin as (e' & Heq & Hin').
  destruct (se_edges _ _ _ _ _ _ _ _ _ _ Hs _ Hin') as (n & _ & _ & _ & Hsees' & _).
  by rewrite (sees_id _ _ _ _ _ _ _ _ Hsees Hsees' Heq).
Qed.

(** [C1] The root-to-target trail is exact: without a node filter and a truncation the
    nodes returned are the stored endpoints and the stored nodes on some path from the
    root to the target that respects the depth limit, and the edges are exactly the
    visible edges between them that lie on such a path. *)
Theorem to_target_trail_exact s config target r :
  config_ok config → target_id config = Some target →
  node_filter config = [] → get_trail_to_target s config = Some (Ok r) → truncated r = false →
  (∀ nd, nd ∈ nodes r ↔ ∃ m, get_node s m = Ok (Some nd) ∧
     (m = root_id config ∨ m = target ∨ on_bounded_path s config target m)) ∧
  (∀ e, e ∈ edges r ↔
     effective_source e ∈ node_id <$> nodes r ∧ effective_target e ∈ node_id <$> nodes r ∧
     sees s (trail_edge_query config) TrailDirection.Outgoing (effective_source e) e ∧
     on_bounded_edge s config target e).
Proof.
  intros Hok Ht Hf Hr Htr. pose proof (node_ids_of_laws s) as Hid.
  destruct (get_trail_to_target_outcome s config target Hok r Ht Hr)
    as [dr tr F Hno Hu|dr tr dt tt p pt r0 sel Hd Hp _ _ Hs ->].
  { apply unreachable_trail in Hu as (Ht' & He & _ & _ & Hn & Hn'). rewrite He.
    assert (tr = false) as -> by congruence. split.
    - intros nd. split; [intros (m & [?|?] & ?)%Hn; exists m; auto|].
      intros (m & Hg & [?|[?|Hm]]); [eapply (Hn' Hf); [by left|by subst]|eapply (Hn' Hf); [by right|by subst]|].
      exfalso. by eapply unreachable_no_path.
    - intros e. split; [by intros ?%elem_of_nil|]. intros (_ & _ & Hs & He').
      destruct (bounded_edge_from_root _ _ _ _ _ Hok F Hs He') as (a & c & b & _ & Hc & ? & Hpb & _ & Hab).
      destruct (from_root_suffix s config target dr _ b c F Hpb Hc) as [? ?]; [|congruence].
      eapply depth_allows_le; [exact Hab|lia]. }
  revert Htr. unfold apply_trail_node_filter. rewrite decide_True by done.
  destruct (select_trail_edges_spec r0) as (Hn & _ & Ht' & _). rewrite Hn, Ht'. intros Htr.
  pose proof (selected_spec _ _ _ _ _ _ _ _ _ _ _ Hd Hp Hs) as [Hfrom Hall].
  destruct (se_all _ _ _ _ _ _ _ _ _ _ Hs Htr) as (Hflags & _ & _).
  apply orb_false_iff in Hflags as [[-> ->]%orb_false_iff _].
  pose proof (dm_exact _ _ _ _ _ _ _ Hd eq_refl eq_refl) as Hds. split.
  - intros nd. rewrite (se_nodes _ _ _ _ _ _ _ _ _ _ Hs). split.
    + intros (m & Hm%Hfrom & ?). exists m. auto.
    + intros (m & Hg & Hm). exists m. split; [|done]. apply (Hall Htr).
      destruct Hm as [->|[->|Hm]]; [apply included_spec; auto..|].
      by apply (included_exact s config target Hok dr dt m Hds).
  - by eapply selected_edges.
Qed.

(** A truncated node budget keeps a shortest path: when the two traversals and
    the path reconstruction were not cut, the result contains the stored nodes of a
    route from the root to the target whose length is the distance of the target,
    whatever [max_nodes] is. *)
Theorem to_target_trail_keeps_shortest_path s config target r dr dt p K :
  config_ok config → target_id config = Some target → node_filter config = [] →
  bfs_distances s (root_id config) TrailDirection.Outgoing (traversal_options config)
    = Some (Ok (dr, false)) →
  dr !! target = Some K →
  bfs_distances_to_target_through_root_reachable s target dr (traversal_options config)
    = Some (Ok (dt, false)) →
  reconstruct_path (size dr + 1) s config target dr dt (included_nodes config target dr dt)
    (root_id config) [root_id config] false = Some (Ok (p, false)) →
  get_trail_to_target s config = Some (Ok r) →
  ∃ l, p = root_id config :: l ∧ route s (trail_edge_query config) (root_id config) l target ∧
    len l = K ∧ ∀ m nd, m ∈ p → get_node s m = Ok (Some nd) → nd ∈ nodes r.
Proof.
  intros Hok Ht Hf Hdr HK Hdt Hp Hr.
  pose proof (distance_maps_of_calls s config target Hok _ _ _ _ Hdr ltac:(by eexists) Hdt) as Hm.
  pose proof (dm_exact _ _ _ _ _ _ _ Hm eq_refl eq_refl) as Hds.
  unfold get_trail_to_target in Hr. rewrite Ht, Hdr, HK, Hdt, Hp in Hr. injection Hr as Hr.
  apply select_path_trail_selection in Hr as (r0 & sel & Hs & ->).
  assert (HdK : dt !! root_id config = Some K).
  { destruct (fr_path _ _ _ _ (ds_from _ _ _ _ _ Hds) _ _ HK) as [Hpath Hle].
    destruct (ds_to_complete _ _ _ _ _ Hds _ K 0 (fr_root _ _ _ _ (ds_from _ _ _ _ _ Hds)) Hpath Hle)
      as (k' & Hk' & ?); [right; lia|]. rewrite Hk'. f_equal.
    destruct (ds_to _ _ _ _ _ Hds _ _ Hk') as [Hback ?].
    destruct (fr_complete _ _ _ _ (ds_from _ _ _ _ _ Hds) eq_refl _ _ Hback) as (k2 & ? & ?); [lia|].
    simplify_eq. lia. }
  destruct (reconstruct_path_route s config target dr dt Hds K _ _ _ _ 0 K Hp HK
    (fr_root _ _ _ _ (ds_from _ _ _ _ _ Hds)) HdK) as (l & Heq & Hroute & Hlen); [lia|].
  exists l. split; [done|]. split; [done|]. split; [done|]. intros m nd Hin Hg.
  destruct (select_trail_edges_spec (apply_trail_node_filter r0 config)) as (-> & _).
  unfold apply_trail_node_filter. rewrite decide_True by done.
  apply (se_nodes _ _ _ _ _ _ _ _ _ _ Hs). exists m. split; [|done].
  by apply (se_path _ _ _ _ _ _ _ _ _ _ Hs).
Qed.

(** Every trail returns: with a machine-sized configuration [get_trail] ends with a
    result or an error whatever the mode and the graph are, and the only error it adds
    to those of the storage is the missing target. *)
Theorem get_trail_returns s config :
  config_ok config →
  get_trail s config ≠ None ∧
  (mode config = TrailMode.ToTargetSymbol → target_id config = None →
     get_trail s config = Some (Err missing_target_error)).
Proof.
  intros Hok. split.
  2: { intros Hm Ht. unfold get_trail, get_trail_to_target. by rewrite Hm, Ht. }
  assert (Hto : get_trail_to_target s config ≠ None).
  { unfold get_trail_to_target. destruct (target_id config) as [target|]; [|done].
    pose proof (max_edges_pos config) as Hedges.
    destruct (bfs_distances _ _ _ _) as [[[dr tr]|]|] eqn:Hr; [|done|].
    2: { exfalso. revert Hr. apply distance_fuel_enough. cbn. lia. }
    destruct (dr !! target); [|done].
    destruct (bfs_distances_to_target_through_root_reachable _ _ _ _) as [[[dt tt]|]|] eqn:Hl; [|done|].
    2: { exfalso. revert Hl. apply distance_fuel_enough. cbn. lia. }
    destruct (reconstruct_path _ _ _ _ _ _ _ _ _ _) as [[[p pt]|]|] eqn:Hp; [done|done|].
    exfalso. revert Hp. pose proof (bfs_distances_from_root s config Hok _ _ Hr) as F.
    apply (reconstruct_path_fuel s config target dr dt _ (Z.of_nat (size dr)) _ _ _ _ 0);
      [|apply F|lia].
    intros m k Hk. pose proof (fr_size _ _ _ _ F _ _ Hk). pose proof (fr_small _ _ _ _ F _ _ Hk). lia. }
  unfold get_trail. pose proof (get_trail_bfs_total s config Hok). by destruct (mode config).
Qed.
End Properties.

(** * Sorted tables satisfy the storage laws *)
Record SortedTables : Type := mkSortedTables {
  sorted_tables : Tables;
  sorted_edges : bool_decide (StronglySorted
    (λ a b, edge_id (row_edge a) < edge_id (row_edge b)) (edge_rows sorted_tables)) = true;
  sorted_nodes : bool_decide (map_Forall (λ n nd, node_id nd = n) (node_table sorted_tables)) = true;
}.

#[export] Instance sorted_storage : TrailStorage SortedTables := {
  query_edge_rows t := query_edge_rows (sorted_tables t);
  get_node t := get_node (sorted_tables t);
}.

#[export] Program Instance sorted_laws : TrailStorageLaws SortedTables := {
  edge_table t := edge_rows (sorted_tables t);
}.
Next Obligation. intros s. by apply (bool_decide_eq_true_1 _), (sorted_edges s). Qed.
Next Obligation. done. Qed.
Next Obligation.
  intros s n node [= Hn]. pose proof (bool_decide_eq_true_1 _ (sorted_nodes s)) as H. by apply H.
Qed.

Module TargetSample.
Definition graph : SortedTables := mkSortedTables Sample.graph eq_refl eq_refl.
Definition config (target : NodeId) (max : Z) : TrailConfig :=
  {| root_id := 1; mode := TrailMode.ToTargetSymbol; target_id := Some target; depth := 3;
     direction := TrailDirection.Outgoing; caller_scope := TrailCallerScope.ProductionOnly;
     edge_filter := []; show_utility_calls := false; node_filter := []; max_nodes := max |}.
Lemma target_config_fits target max : in_range usize_max max → config_ok (config target max).
Proof. split; [|done]. unfold in_range, u32_max. simpl. lia. Qed.
Lemma ten_fits : config_ok (config 4 10).
Proof. apply target_config_fits. unfold in_range, usize_max, u64_max. lia. Qed.
Lemma two_fits : config_ok (config 4 2).
Proof. apply target_config_fits. unfold in_range, usize_max, u64_max. lia. Qed.

Definition found : TrailResult := Sample.result_of (get_trail_to_target graph (config 4 10)).
Lemma target_found_eq : get_trail_to_target graph (config 4 10) = Some (Ok found).
Proof. by vm_compute. Qed.

(** With a node budget of two, the shortest path 1 → 3 → 4 is still there. *)
Definition cut : TrailResult := Sample.result_of (get_trail_to_target graph (config 4 2)).
Lemma cut_eq : get_trail_to_target graph (config 4 2) = Some (Ok cut).
Proof. by vm_compute. Qed.
End TargetSample.

Example get_trail_returns_witness :
  config_ok (TargetSample.config 4 10) ∧
  get_trail TargetSample.graph (TargetSample.config 4 10) ≠ None.
Proof.
  split; [exact TargetSample.ten_fits|].
  exact (proj1 (get_trail_returns TargetSample.graph _ TargetSample.ten_fits)).
Defined.

Example to_target_trail_shape_witness :
  (edge_id <$> edges TargetSample.found) = [10; 11; 12; 13] ∧ edge_sorted (edges TargetSample.found).
Proof.
  split; [by vm_compute|].
  apply (to_target_trail_shape TargetSample.graph _ 4 _ TargetSample.ten_fits eq_refl
    TargetSample.target_found_eq).
Defined.

Example to_target_trail_exact_witness :
  (node_id <$> nodes TargetSample.found) = [1; 2; 3; 4] ∧
  on_bounded_edge TargetSample.graph (TargetSample.config 4 10) 4 (row_edge (Sample.edge 11 2 3)).
Proof.
  split; [by vm_compute|].
  refine (proj2 (proj2 (proj2 (proj1 (proj2 (to_target_trail_exact TargetSample.graph _ 4 _
    TargetSample.ten_fits eq_refl eq_refl TargetSample.target_found_eq _) _) _)))).
  - by vm_compute.
  - apply (bool_decide_unpack _). by vm_compute.
Defined.

Example to_target_trail_keeps_shortest_path_witness :
  max_nodes (TargetSample.config 4 2) = 2 ∧ (node_id <$> nodes TargetSample.cut) = [1; 3; 4] ∧
  ∃ l, [1; 3; 4] = 1 :: l ∧ len l = 2.
Proof.
  split; [done|]. split; [by vm_compute|].
  destruct (to_target_trail_keeps_shortest_path TargetSample.graph (TargetSample.config 4 2) 4
    TargetSample.cut (list_to_map [(1, 0); (2, 1); (3, 1); (4, 2)])
    (list_to_map [(4, 0); (3, 1); (1, 2); (2, 2)]) [1; 3; 4] 2) as (l & Hl & _ & Hlen & _).
  - exact TargetSample.two_fits.
  - done.
  - done.
  - by vm_compute.
  - by vm_compute.
  - by vm_compute.
  - by vm_compute.
  - exact TargetSample.cut_eq.
  - exists l. split; [exact Hl|exact Hlen].
Defined.
