(* ===== verification/QueryLanguage.v ===== *)
(** * The graph query language (codestory-runtime/src/query_language.rs)

    The pipeline parser on UTF-8 bytes, with the error messages and byte offsets of
    the source, the query syntax tree (codestory-contracts/src/query.rs) and the
    pipeline of the browser service that runs a tree (codestory-runtime/src/browser.rs).

    The second part: unescaping a query literal. *)
From S2P Require Import Prelude RustStr Graph.

(** ** Syntax tree *)
Record TrailQuery : Type := mkTrailQuery {
  tq_symbol : str;
  tq_depth : option Z;
  tq_direction : option TrailDirection;
}.
Record SymbolQuery : Type := mkSymbolQuery { sym_query : str }.
Record SearchQuery : Type := mkSearchQuery { search_query : str }.
Record FilterQuery : Type := mkFilterQuery {
  fq_kind : option NodeKind;
  fq_file : option str;
  fq_depth : option Z;
}.
Record LimitQuery : Type := mkLimitQuery { lq_count : Z }.

Inductive GraphQueryOperation : Type :=
| QTrail (q : TrailQuery)
| QSymbol (q : SymbolQuery)
| QSearch (q : SearchQuery)
| QFilter (q : FilterQuery)
| QLimit (q : LimitQuery).

Record GraphQueryAst : Type := mkGraphQueryAst { operations : list GraphQueryOperation }.

Record GraphQueryParseError : Type := mkGraphQueryParseError {
  pe_message : str;
  pe_offset : Z;
  pe_source : str;
}.

Definition parse_error (source : str) (offset : Z) (message : str) : GraphQueryParseError :=
  {| pe_message := message; pe_offset := offset; pe_source := source |}.

Definition leading_ws (value : str) : Z := len value - len (trim_start value).

(** ** Scanning *)
Definition backslash : ascii := "\"%char.
Definition squote : ascii := "'"%char.
Definition dquote : ascii := ascii_of_N 34.

(** Where the scanner is with respect to a string literal. *)
Record QuoteState : Type := mkQuoteState { quote : option ascii; escaped : bool }.
Definition unquoted : QuoteState := {| quote := None; escaped := false |}.

(** The [if let Some(active) = quote] branch the three scanners share: the state after
    a character inside a literal, [None] outside of one. *)
Definition in_literal (q : QuoteState) (ch : ascii) : option QuoteState :=
  match quote q with
  | None => None
  | Some active =>
      Some (if escaped q then {| quote := Some active; escaped := false |}
            else if Ascii.eqb ch backslash then {| quote := Some active; escaped := true |}
            else if Ascii.eqb ch active then {| quote := None; escaped := false |}
            else q)
  end.

Definition is_quote (ch : ascii) : bool := Ascii.eqb ch squote || Ascii.eqb ch dquote.

Definition open_literal (q : QuoteState) (ch : ascii) : QuoteState :=
  {| quote := Some ch; escaped := escaped q |}.

Fixpoint split_pipeline_loop (source rest : str) (idx start : Z) (segment : str) (depth : Z)
    (q : QuoteState) (segments : list (str * Z))
  : result GraphQueryParseError (list (str * Z)) :=
  match rest with
  | [] =>
      if bool_decide (is_Some (quote q))
      then Err (parse_error source (len source) (lit "Unterminated string literal"))
      else if 0 <? depth
      then Err (parse_error source (len source) (lit "Unclosed `(`"))
      else Ok (segments ++ [(segment, start)])
  | ch :: rest =>
      match in_literal q ch with
      | Some q' =>
          split_pipeline_loop source rest (idx + 1) start (segment ++ [ch]) depth q' segments
      | None =>
          if is_quote ch
          then split_pipeline_loop source rest (idx + 1) start (segment ++ [ch]) depth
                 (open_literal q ch) segments
          else if Ascii.eqb ch "("%char
          then split_pipeline_loop source rest (idx + 1) start (segment ++ [ch]) (depth + 1)
                 q segments
          else if Ascii.eqb ch ")"%char
          then if depth - 1 <? 0
               then Err (parse_error source idx (lit "Unexpected `)`"))
               else split_pipeline_loop source rest (idx + 1) start (segment ++ [ch])
                      (depth - 1) q segments
          else if Ascii.eqb ch "|"%char && (depth =? 0)
          then split_pipeline_loop source rest (idx + 1) (idx + 1) [] depth q
                 (segments ++ [(segment, start)])
          else split_pipeline_loop source rest (idx + 1) start (segment ++ [ch]) depth q segments
      end
  end.

Definition split_pipeline (source : str) : result GraphQueryParseError (list (str * Z)) :=
  split_pipeline_loop source source 0 0 [] 0 unquoted [].

Fixpoint split_args_loop (rest : str) (idx start : Z) (part : str) (q : QuoteState)
    (args_offset : Z) (args : list (str * Z)) : QuoteState * list (str * Z) :=
  match rest with
  | [] => (q, args ++ [(part, args_offset + start)])
  | ch :: rest =>
      match in_literal q ch with
      | Some q' => split_args_loop rest (idx + 1) start (part ++ [ch]) q' args_offset args
      | None =>
          if is_quote ch
          then split_args_loop rest (idx + 1) start (part ++ [ch]) (open_literal q ch)
                 args_offset args
          else if Ascii.eqb ch ","%char
          then split_args_loop rest (idx + 1) (idx + 1) [] q args_offset
                 (args ++ [(part, args_offset + start)])
          else split_args_loop rest (idx + 1) start (part ++ [ch]) q args_offset args
      end
  end.

Definition split_args (source args_source : str) (args_offset : Z)
  : result GraphQueryParseError (list (str * Z)) :=
  let '(q, args) := split_args_loop args_source 0 0 [] unquoted args_offset [] in
  if bool_decide (is_Some (quote q))
  then Err (parse_error source (args_offset + len args_source)
              (lit "Unterminated string literal"))
  else Ok args.

Fixpoint find_colon (q : QuoteState) (value : str) : option nat :=
  match value with
  | [] => None
  | ch :: rest =>
      match in_literal q ch with
      | Some q' => S <$> find_colon q' rest
      | None =>
          if is_quote ch then S <$> find_colon (open_literal q ch) rest
          else if Ascii.eqb ch ":"%char then Some 0%nat
          else S <$> find_colon q rest
      end
  end.
Definition find_top_level_colon (value : str) : option nat := find_colon unquoted value.

(** ** Values *)
Definition unescape (s : str) : str :=
  replace (replace (replace s [backslash; squote] [squote])
             [backslash; dquote] [dquote])
    [backslash; backslash] [backslash].

Definition parse_value (source raw : str) (offset : Z) : result GraphQueryParseError str :=
  let raw := trim raw in
  match raw, last raw with
  | first :: body, Some final =>
      if 2 <=? len raw then
        if (Ascii.eqb first squote && Ascii.eqb final squote)
           || (Ascii.eqb first dquote && Ascii.eqb final dquote)
        then Ok (unescape (take (length body - 1) body))
        else if is_quote first
        then Err (parse_error source offset (lit "Unterminated string literal"))
        else Ok raw
      else Ok raw
  | _, _ => Ok raw
  end.

(** ** Arguments *)
Record ParsedArg : Type := mkParsedArg {
  arg_key : option str;
  arg_value : str;
  arg_at : Z;
}.

Definition parse_arg (source : str) (part : str) (offset : Z)
  : result GraphQueryParseError (option ParsedArg) :=
  let trimmed := trim part in
  if bool_decide (trimmed = []) then Ok None
  else
    let item_offset := offset + leading_ws part in
    match find_top_level_colon trimmed with
    | Some colon =>
        let key := trim (take colon trimmed) in
        if bool_decide (key = [])
        then Err (parse_error source item_offset (lit "Expected argument name"))
        else
          let after := drop (S colon) trimmed in
          let value := trim after in
          if bool_decide (value = [])
          then Err (parse_error source (item_offset + Z.of_nat colon + 1)
                      (lit "Expected argument value"))
          else
            v ← parse_value source value (item_offset + Z.of_nat colon + 1 + leading_ws after);
            Ok (Some {| arg_key := Some (to_ascii_lowercase key); arg_value := v;
                        arg_at := item_offset |})
    | None =>
        v ← parse_value source trimmed item_offset;
        Ok (Some {| arg_key := None; arg_value := v; arg_at := item_offset |})
    end.

Fixpoint parse_parts (source : str) (parts : list (str * Z))
  : result GraphQueryParseError (list ParsedArg) :=
  match parts with
  | [] => Ok []
  | (part, offset) :: rest =>
      arg ← parse_arg source part offset;
      args ← parse_parts source rest;
      Ok (match arg with Some a => a :: args | None => args end)
  end.

Definition parse_args (source args_source : str) (args_offset : Z)
  : result GraphQueryParseError (list ParsedArg) :=
  parts ← split_args source args_source args_offset;
  parse_parts source parts.

Definition find_arg (args : list ParsedArg) (key : str) : option ParsedArg :=
  List.find (λ a, bool_decide (arg_key a = Some key)) args.
Definition optional_string_arg (args : list ParsedArg) (key : str) : option str :=
  arg_value <$> find_arg args key.
Definition arg_offset (args : list ParsedArg) (key : str) : option Z :=
  arg_at <$> find_arg args key.
Definition positional_arg (args : list ParsedArg) (index : nat) : option str :=
  arg_value <$> (List.filter (λ a, bool_decide (arg_key a = None)) args !! index).

Definition tick : str := lit "`".

Definition required_string_arg (source : str) (args : list ParsedArg) (key : str)
    (positional_index : nat) (fallback_offset : Z) : result GraphQueryParseError str :=
  let found := match optional_string_arg args key with
               | Some v => Some v
               | None => positional_arg args positional_index
               end in
  let found := match found with
               | Some v => if bool_decide (trim v = []) then None else Some v
               | None => None
               end in
  ok_or found (parse_error source fallback_offset
                 (lit "Missing `" ++ key ++ lit "` argument")).

Definition not_an_integer (raw : str) : str :=
  lit "Expected `" ++ raw ++ lit "` to be an integer".

Definition required_u32_arg (source : str) (args : list ParsedArg) (key : str)
    (positional_index : nat) (fallback_offset : Z) : result GraphQueryParseError Z :=
  let found := match optional_string_arg args key with
               | Some v => Some v
               | None => positional_arg args positional_index
               end in
  raw ← ok_or found (parse_error source fallback_offset (lit "Missing numeric argument"));
  ok_or (parse_u32 raw)
    (parse_error source (default fallback_offset (arg_offset args key)) (not_an_integer raw)).

Definition optional_u32_arg (source : str) (args : list ParsedArg) (key : str)
  : result GraphQueryParseError (option Z) :=
  match optional_string_arg args key with
  | None => Ok None
  | Some raw =>
      Some <$> ok_or (parse_u32 raw)
        (parse_error source (default 0 (arg_offset args key)) (not_an_integer raw))
  end.

Definition parse_direction (raw : str) : option TrailDirection :=
  let lowered := to_ascii_lowercase (trim raw) in
  if str_eqb lowered (lit "incoming") || str_eqb lowered (lit "in")
  then Some TrailDirection.Incoming
  else if str_eqb lowered (lit "outgoing") || str_eqb lowered (lit "out")
  then Some TrailDirection.Outgoing
  else if str_eqb lowered (lit "both") then Some TrailDirection.Both
  else None.

Definition optional_direction_arg (source : str) (args : list ParsedArg) (key : str)
  : result GraphQueryParseError (option TrailDirection) :=
  match optional_string_arg args key with
  | None => Ok None
  | Some raw =>
      Some <$> ok_or (parse_direction raw)
        (parse_error source (default 0 (arg_offset args key))
           (lit "Unknown direction `" ++ raw ++ tick))
  end.

Definition node_kind_names : list (str * NodeKind) :=
  [(lit "MODULE", NodeKind.MODULE); (lit "NAMESPACE", NodeKind.NAMESPACE);
   (lit "PACKAGE", NodeKind.PACKAGE); (lit "FILE", NodeKind.FILE);
   (lit "STRUCT", NodeKind.STRUCT); (lit "CLASS", NodeKind.CLASS);
   (lit "INTERFACE", NodeKind.INTERFACE); (lit "ANNOTATION", NodeKind.ANNOTATION);
   (lit "UNION", NodeKind.UNION); (lit "ENUM", NodeKind.ENUM);
   (lit "TYPEDEF", NodeKind.TYPEDEF); (lit "TYPE_PARAMETER", NodeKind.TYPE_PARAMETER);
   (lit "BUILTIN_TYPE", NodeKind.BUILTIN_TYPE); (lit "FUNCTION", NodeKind.FUNCTION);
   (lit "METHOD", NodeKind.METHOD); (lit "MACRO", NodeKind.MACRO);
   (lit "GLOBAL_VARIABLE", NodeKind.GLOBAL_VARIABLE); (lit "FIELD", NodeKind.FIELD);
   (lit "VARIABLE", NodeKind.VARIABLE); (lit "CONSTANT", NodeKind.CONSTANT);
   (lit "ENUM_CONSTANT", NodeKind.ENUM_CONSTANT); (lit "UNKNOWN", NodeKind.UNKNOWN)].

Definition parse_node_kind (raw : str) : option NodeKind :=
  let normalized := to_ascii_uppercase (replace (trim raw) (lit "-") (lit "_")) in
  snd <$> List.find (λ p, str_eqb p.1 normalized) node_kind_names.

Definition optional_kind_arg (source : str) (args : list ParsedArg) (key : str)
  : result GraphQueryParseError (option NodeKind) :=
  match optional_string_arg args key with
  | None => Ok None
  | Some raw =>
      Some <$> ok_or (parse_node_kind raw)
        (parse_error source (default 0 (arg_offset args key))
           (lit "Unknown node kind `" ++ raw ++ tick))
  end.

Fixpoint reject_unknown_args (source : str) (args : list ParsedArg) (allowed : list str)
  : result GraphQueryParseError () :=
  match args with
  | [] => Ok ()
  | arg :: rest =>
      match arg_key arg with
      | None => reject_unknown_args source rest allowed
      | Some key =>
          if bool_decide (key ∈ allowed) then reject_unknown_args source rest allowed
          else Err (parse_error source (arg_at arg) (lit "Unknown `" ++ key ++ lit "` argument"))
      end
  end.

(** ** Operations *)
Definition build_operation (source name : str) (segment_offset args_offset : Z)
    (args : list ParsedArg) : result GraphQueryParseError GraphQueryOperation :=
  if str_eqb name (lit "trail") then
    _ ← reject_unknown_args source args [lit "symbol"; lit "depth"; lit "direction"];
    symbol ← required_string_arg source args (lit "symbol") 0 args_offset;
    depth ← optional_u32_arg source args (lit "depth");
    direction ← optional_direction_arg source args (lit "direction");
    Ok (QTrail {| tq_symbol := symbol; tq_depth := depth; tq_direction := direction |})
  else if str_eqb name (lit "symbol") then
    _ ← reject_unknown_args source args [lit "query"];
    query ← required_string_arg source args (lit "query") 0 args_offset;
    Ok (QSymbol {| sym_query := query |})
  else if str_eqb name (lit "search") then
    _ ← reject_unknown_args source args [lit "query"];
    query ← required_string_arg source args (lit "query") 0 args_offset;
    Ok (QSearch {| search_query := query |})
  else if str_eqb name (lit "filter") then
    _ ← reject_unknown_args source args [lit "kind"; lit "file"; lit "depth"];
    kind ← optional_kind_arg source args (lit "kind");
    depth ← optional_u32_arg source args (lit "depth");
    Ok (QFilter {| fq_kind := kind; fq_file := optional_string_arg args (lit "file");
                   fq_depth := depth |})
  else if str_eqb name (lit "limit") then
    _ ← reject_unknown_args source args [lit "n"];
    count ← required_u32_arg source args (lit "n") 0 args_offset;
    Ok (QLimit {| lq_count := count |})
  else Err (parse_error source segment_offset (lit "Unknown query operation `" ++ name ++ tick)).

Definition parse_operation (source segment : str) (segment_offset : Z)
  : result GraphQueryParseError GraphQueryOperation :=
  open ← ok_or (find_byte "("%char segment)
    (parse_error source (segment_offset + len segment)
       (lit "Expected `(` after operation name"));
  close ← ok_or (rfind_byte ")"%char segment)
    (parse_error source (segment_offset + len segment) (lit "Expected closing `)`"));
  if (Nat.ltb close open) || negb (bool_decide (trim (drop (S close) segment) = []))
  then Err (parse_error source (segment_offset + Z.of_nat close + 1)
              (lit "Unexpected text after operation"))
  else
    let name := to_ascii_lowercase (trim (take open segment)) in
    let args_source := take (close - S open) (drop (S open) segment) in
    let args_offset := segment_offset + Z.of_nat open + 1 in
    args ← parse_args source args_source args_offset;
    build_operation source name segment_offset args_offset args.

Fixpoint parse_segments (source : str) (segments : list (str * Z))
  : result GraphQueryParseError (list GraphQueryOperation) :=
  match segments with
  | [] => Ok []
  | (segment, offset) :: rest =>
      let trimmed := trim segment in
      if bool_decide (trimmed = [])
      then Err (parse_error source offset (lit "Expected query operation after `|`"))
      else
        op ← parse_operation source trimmed (offset + leading_ws segment);
        ops ← parse_segments source rest;
        Ok (op :: ops)
  end.

Definition parse_graph_query (source : str) : result GraphQueryParseError GraphQueryAst :=
  segments ← split_pipeline source;
  ops ← parse_segments source segments;
  if bool_decide (ops = [])
  then Err (parse_error source 0 (lit "Expected at least one query operation"))
  else Ok {| operations := ops |}.

(** ** Running a query (browser.rs) *)
Record BrowserQueryItem : Type := mkBrowserQueryItem {
  item_node_id : str;
  item_display_name : str;
  item_kind : NodeKind;
  item_file_path : option str;
  item_line : option Z;
  item_depth : option Z;
  item_source : str;
}.

Definition query_item_matches_filter (item : BrowserQueryItem) (f : FilterQuery) : bool :=
  match fq_kind f with Some kind => bool_decide (item_kind item = kind) | None => true end
  && match fq_depth f with
     | Some depth => default 0 (item_depth item) <=? depth
     | None => true
     end
  && match fq_file f with
     | Some needle =>
         match item_file_path item with Some path => contains path needle | None => false end
     | None => true
     end.

(** The lookups of the service, each of which may fail. *)
Class QuerySource (Src ApiError : Type) := {
  query_trail_items : Src → TrailQuery → result ApiError (list BrowserQueryItem);
  query_symbol_items : Src → SymbolQuery → result ApiError (list BrowserQueryItem);
  query_search_items : Src → SearchQuery → result ApiError (list BrowserQueryItem);
}.

Section Run.
Context {Src ApiError : Type} `{!QuerySource Src ApiError}.

Definition query_step (s : Src) (op : GraphQueryOperation) (items : list BrowserQueryItem)
  : result ApiError (list BrowserQueryItem) :=
  match op with
  | QTrail q => query_trail_items s q
  | QSymbol q => query_symbol_items s q
  | QSearch q => query_search_items s q
  | QFilter f => Ok (List.filter (λ item, query_item_matches_filter item f) items)
  | QLimit l => Ok (take (Z.to_nat (lq_count l)) items)
  end.

Fixpoint query_ops (s : Src) (ops : list GraphQueryOperation) (items : list BrowserQueryItem)
  : result ApiError (list BrowserQueryItem) :=
  match ops with
  | [] => Ok items
  | op :: rest => items ← query_step s op items; query_ops s rest items
  end.

Definition query_once (s : Src) (ast : GraphQueryAst) : result ApiError (list BrowserQueryItem) :=
  query_ops s (operations ast) [].
End Run.

(** * Unescaping a query literal

    The parser unescapes with three whole-string replacements, one per escape.  They
    compute the single left-to-right pass a reader expects: every escape pair becomes
    its second character and any other backslash stays. *)
(** The reference: one pass over the characters. *)
Definition escapable (c : ascii) : bool := is_quote c || Ascii.eqb c backslash.
Fixpoint unescape_once (s : str) : str :=
  match s with
  | c :: ((d :: rest) as tail) =>
      if Ascii.eqb c backslash && escapable d then d :: unescape_once rest
      else c :: unescape_once tail
  | _ => s
  end.

(** ** Replacing a pair of bytes *)
Section Pair.
Context (a b : ascii) (by_ : str).

Lemma replace_pair s : replace (a :: b :: s) [a; b] by_ = by_ ++ replace s [a; b] by_.
Proof. unfold replace. cbn. rewrite !Ascii.eqb_refl. by destruct s. Qed.

Lemma replace_other c s :
  starts_with (c :: s) [a; b] = false → replace (c :: s) [a; b] by_ = c :: replace s [a; b] by_.
Proof. unfold replace. cbn [replace_skip]. by intros ->. Qed.

Lemma second_differs c d s : d ≠ b → starts_with (c :: d :: s) [a; b] = false.
Proof.
  intros Hd. change (Ascii.eqb a c && (Ascii.eqb b d && starts_with s []) = false).
  rewrite (proj2 (Ascii.eqb_neq b d)) by done. apply andb_false_r.
Qed.

Lemma replace_first c s : c ≠ a → replace (c :: s) [a; b] by_ = c :: replace s [a; b] by_.
Proof.
  intros Hc. apply replace_other. change (Ascii.eqb a c && starts_with s [b] = false).
  by rewrite (proj2 (Ascii.eqb_neq a c)).
Qed.
End Pair.

Abbreviation bs := (repeat backslash).

(** Replacing an escaped quote acts on the last backslash of a run. *)
Lemma replace_run_quote q n c t :
  q ≠ backslash → c ≠ backslash →
  replace (bs n ++ c :: t) [backslash; q] [q] =
    bs (if Ascii.eqb c q then pred n else n) ++ c :: replace t [backslash; q] [q].
Proof.
  intros Hq Hc. induction n as [|n IH]; cbn [repeat app].
  { rewrite replace_first by done. by destruct (Ascii.eqb c q). }
  destruct n as [|n].
  - cbn [repeat app]. destruct (Ascii.eqb_spec c q) as [->|Hcq].
    + by rewrite replace_pair.
    + by rewrite replace_other, replace_first by (done || by apply second_differs).
  - rewrite replace_other.
    + rewrite IH. by destruct (Ascii.eqb c q).
    + by apply second_differs.
Qed.

Lemma replace_run_quote_end q n :
  q ≠ backslash → replace (bs n) [backslash; q] [q] = bs n.
Proof.
  intros Hq. induction n as [|n IH]; [done|]. cbn [repeat].
  rewrite replace_other; [by rewrite IH|]. destruct n as [|n]; [done|].
  by apply second_differs.
Qed.

(** Half of a run of backslashes, rounded up. *)
Lemma replace_run_backslash n : ∀ c t,
  c ≠ backslash →
  replace (bs n ++ c :: t) [backslash; backslash] [backslash] =
    bs (Nat.div2 (S n)) ++ c :: replace t [backslash; backslash] [backslash].
Proof.
  induction n as [n IH] using lt_wf_ind. intros c t Hc. destruct n as [|[|n]].
  - by apply replace_first.
  - cbn [repeat app Nat.div2]. by rewrite replace_other, replace_first by (done || by apply second_differs).
  - cbn [repeat app]. rewrite replace_pair, IH by (done || lia). done.
Qed.

Lemma replace_run_backslash_end n :
  replace (bs n) [backslash; backslash] [backslash] = bs (Nat.div2 (S n)).
Proof.
  induction n as [n IH] using lt_wf_ind. destruct n as [|[|n]]; [done|done|].
  cbn [repeat]. rewrite replace_pair, IH by lia. done.
Qed.

Lemma unescape_once_backslash d t :
  unescape_once (backslash :: d :: t) =
    if escapable d then d :: unescape_once t else backslash :: unescape_once (d :: t).
Proof. reflexivity. Qed.

Lemma unescape_once_first c t : c ≠ backslash → unescape_once (c :: t) = c :: unescape_once t.
Proof.
  intros Hc. apply Ascii.eqb_neq in Hc. destruct t as [|d t]; [done|].
  change (unescape_once (c :: d :: t)) with
    (if Ascii.eqb c backslash && escapable d then d :: unescape_once t
     else c :: unescape_once (d :: t)). by rewrite Hc.
Qed.

Lemma unescape_once_run n : ∀ c t,
  c ≠ backslash →
  unescape_once (bs n ++ c :: t) =
    bs (if is_quote c then Nat.div2 n else Nat.div2 (S n)) ++ c :: unescape_once t.
Proof.
  induction n as [n IH] using lt_wf_ind. intros c t Hc.
  assert (Hc' : Ascii.eqb c backslash = false) by (by apply Ascii.eqb_neq).
  destruct n as [|[|n]]; cbn [repeat app].
  - rewrite unescape_once_first by done. by destruct (is_quote c).
  - rewrite unescape_once_backslash. unfold escapable. rewrite Hc', orb_false_r.
    destruct (is_quote c); [done|]. by rewrite unescape_once_first.
  - rewrite unescape_once_backslash, IH by (done || lia). by destruct (is_quote c).
Qed.

Lemma unescape_once_end n : unescape_once (bs n) = bs (Nat.div2 (S n)).
Proof.
  induction n as [n IH] using lt_wf_ind. destruct n as [|[|n]]; [done|done|].
  cbn [repeat]. rewrite unescape_once_backslash, IH by lia. done.
Qed.

Lemma split_run s : ∃ n, s = bs n ∨ ∃ c t, s = bs n ++ c :: t ∧ c ≠ backslash.
Proof.
  induction s as [|x s [n IH]]; [by exists 0%nat; left|].
  destruct (decide (x = backslash)) as [->|Hx]; [|exists 0%nat; right; by exists x, s].
  exists (S n). destruct IH as [->|(c & t & -> & Hc)]; [by left|right; by exists c, t].
Qed.

Lemma unescape_spec n : ∀ s, (length s ≤ n)%nat → unescape s = unescape_once s.
Proof.
  assert (Hs : squote ≠ backslash) by done. assert (Hd : dquote ≠ backslash) by done.
  induction n as [|n IH]; intros s Hlen; [by destruct s; [|simpl in Hlen; lia]|].
  destruct (split_run s) as [k [->|(c & t & -> & Hc)]].
  - unfold unescape. rewrite !replace_run_quote_end by done.
    by rewrite replace_run_backslash_end, unescape_once_end.
  - unfold unescape. rewrite !replace_run_quote, replace_run_backslash, unescape_once_run by done.
    fold (unescape t). rewrite length_app in Hlen. simpl in Hlen. rewrite IH by lia.
    f_equal. f_equal. unfold is_quote.
    destruct (Ascii.eqb_spec c squote) as [Hc1|], (Ascii.eqb_spec c dquote) as [Hc2|];
      [by rewrite Hc1 in Hc2|by destruct k..|done].
Qed.

(** The three replacement passes of the parser are the single left-to-right
    unescaping pass, on every string. *)
Theorem unescape_is_single_pass s : unescape s = unescape_once s.
Proof. by apply (unescape_spec (length s)). Qed.
