(* ===== verification/QueryRender.v ===== *)
(** * Rendering and parsing a query

    A canonical rendering of a query tree, and the round trip: the parser reads the
    rendering of every well-formed tree back as that tree. *)
From S2P Require Import Prelude RustStr Graph QueryLanguage.

(** ** Rendering *)
Definition escape_char (c : ascii) : str :=
  if Ascii.eqb c backslash || Ascii.eqb c dquote then [backslash; c] else [c].
Definition escape (s : str) : str := flat_map escape_char s.
Definition render_string (s : str) : str := [dquote] ++ escape s ++ [dquote].

Definition render_direction (d : TrailDirection) : str :=
  match d with
  | TrailDirection.Incoming => lit "incoming"
  | TrailDirection.Outgoing => lit "outgoing"
  | TrailDirection.Both => lit "both"
  end.

Definition render_kind (k : NodeKind) : str :=
  default [] (fst <$> List.find (λ p, bool_decide (p.2 = k)) node_kind_names).

Definition render_arg (key value : str) : str := key ++ lit ": " ++ value.

Definition operation_name (op : GraphQueryOperation) : str :=
  match op with
  | QTrail _ => lit "trail" | QSymbol _ => lit "symbol" | QSearch _ => lit "search"
  | QFilter _ => lit "filter" | QLimit _ => lit "limit"
  end.

(** The arguments of an operation: name and rendered value. *)
Definition operation_args (op : GraphQueryOperation) : list (str * str) :=
  let opt {A} (key : str) (f : A → str) (o : option A) :=
    match o with Some a => [(key, f a)] | None => [] end in
  match op with
  | QTrail q =>
      [(lit "symbol", render_string (tq_symbol q))] ++ opt (lit "depth") show_uint (tq_depth q)
      ++ opt (lit "direction") render_direction (tq_direction q)
  | QSymbol q => [(lit "query", render_string (sym_query q))]
  | QSearch q => [(lit "query", render_string (search_query q))]
  | QFilter q =>
      opt (lit "kind") render_kind (fq_kind q) ++ opt (lit "file") render_string (fq_file q)
      ++ opt (lit "depth") show_uint (fq_depth q)
  | QLimit q => [(lit "n", show_uint (lq_count q))]
  end.

Definition render_operation (op : GraphQueryOperation) : str :=
  operation_name op ++ lit "(" ++
  join (lit ", ") ((λ a, render_arg a.1 a.2) <$> operation_args op) ++ lit ")".

Definition render_query (ast : GraphQueryAst) : str :=
  join (lit " | ") (render_operation <$> operations ast).

(** ** Well-formed trees *)
Definition operation_ok (op : GraphQueryOperation) : Prop :=
  match op with
  | QTrail q => trim (tq_symbol q) ≠ [] ∧ (∀ d, tq_depth q = Some d → in_range u32_max d)
  | QSymbol q => trim (sym_query q) ≠ []
  | QSearch q => trim (search_query q) ≠ []
  | QFilter q => ∀ d, fq_depth q = Some d → in_range u32_max d
  | QLimit q => in_range u32_max (lq_count q)
  end.
Definition query_ok (ast : GraphQueryAst) : Prop :=
  operations ast ≠ [] ∧ Forall operation_ok (operations ast).

(** ** Literals *)
Definition in_dquote : QuoteState := {| quote := Some dquote; escaped := false |}.

(** The state after a stretch of text that stays inside literals. *)
Fixpoint run_literal (q : QuoteState) (s : str) : option QuoteState :=
  match s with
  | [] => Some q
  | c :: s => match in_literal q c with Some q' => run_literal q' s | None => None end
  end.

Lemma run_literal_app q s t :
  run_literal q (s ++ t) = q' ← run_literal q s; run_literal q' t.
Proof.
  revert q. induction s as [|c s IH]; intros q; [done|]. cbn.
  destruct (in_literal q c); [apply IH|done].
Qed.

Lemma run_escape s : run_literal in_dquote (escape s) = Some in_dquote.
Proof.
  induction s as [|c s IH]; [done|]. cbn [escape flat_map]. rewrite run_literal_app.
  enough (run_literal in_dquote (escape_char c) = Some in_dquote) as -> by done.
  unfold escape_char. destruct (Ascii.eqb_spec c backslash) as [->|Hb]; [done|].
  destruct (Ascii.eqb_spec c dquote) as [->|Hd]; [done|]. cbn [orb run_literal].
  unfold in_literal, in_dquote. cbn [quote escaped].
  by rewrite (proj2 (Ascii.eqb_neq c backslash) Hb), (proj2 (Ascii.eqb_neq c dquote) Hd).
Qed.

Lemma run_string_body s : run_literal in_dquote (escape s ++ [dquote]) = Some unquoted.
Proof. by rewrite run_literal_app, run_escape. Qed.

Lemma unescape_escape s : unescape (escape s) = s.
Proof.
  rewrite (unescape_spec (length (escape s))) by done.
  induction s as [|c s IH]; [done|]. cbn [escape flat_map]. unfold escape_char.
  destruct (Ascii.eqb_spec c backslash) as [->|Hb]; cbn [orb app].
  { rewrite unescape_once_backslash. cbn. by f_equal. }
  destruct (Ascii.eqb_spec c dquote) as [->|Hd]; cbn [app].
  - rewrite unescape_once_backslash. cbn. by f_equal.
  - rewrite unescape_once_first by done. by f_equal.
Qed.

(** ** What the scanners pass over *)
Definition passes_pipeline (w : str) : Prop := ∀ source rest idx start seg depth segs,
  split_pipeline_loop source (w ++ rest) idx start seg depth unquoted segs =
  split_pipeline_loop source rest (idx + len w) start (seg ++ w) depth unquoted segs.
Definition passes_args (w : str) : Prop := ∀ rest idx start part off args,
  split_args_loop (w ++ rest) idx start part unquoted off args =
  split_args_loop rest (idx + len w) start (part ++ w) unquoted off args.

Lemma pipeline_literal w q' : ∀ q source rest idx start seg depth segs,
  run_literal q w = Some q' →
  split_pipeline_loop source (w ++ rest) idx start seg depth q segs =
  split_pipeline_loop source rest (idx + len w) start (seg ++ w) depth q' segs.
Proof.
  induction w as [|c w IH]; intros q source rest idx start seg depth segs; cbn [run_literal].
  { intros [= ->]. by rewrite app_nil_r, len_nil, Z.add_0_r. }
  destruct (in_literal q c) as [q2|] eqn:Hq; [|done]. intros Hw.
  cbn [app split_pipeline_loop]. rewrite Hq, (IH _ _ _ _ _ _ _ _ Hw), len_cons, <- app_assoc.
  f_equal. lia.
Qed.

Lemma args_literal w q' : ∀ q rest idx start part off args,
  run_literal q w = Some q' →
  split_args_loop (w ++ rest) idx start part q off args =
  split_args_loop rest (idx + len w) start (part ++ w) q' off args.
Proof.
  induction w as [|c w IH]; intros q rest idx start part off args; cbn [run_literal].
  { intros [= ->]. by rewrite app_nil_r, len_nil, Z.add_0_r. }
  destruct (in_literal q c) as [q2|] eqn:Hq; [|done]. intros Hw.
  cbn [app split_args_loop]. rewrite Hq, (IH _ _ _ _ _ _ _ Hw), len_cons, <- app_assoc.
  f_equal. lia.
Qed.

Lemma passes_pipeline_app v w : passes_pipeline v → passes_pipeline w → passes_pipeline (v ++ w).
Proof.
  intros Hv Hw source rest idx start seg depth segs.
  rewrite <- app_assoc, Hv, Hw, len_app, <- app_assoc. f_equal. lia.
Qed.
Lemma passes_args_app v w : passes_args v → passes_args w → passes_args (v ++ w).
Proof.
  intros Hv Hw rest idx start part off args.
  rewrite <- app_assoc, Hv, Hw, len_app, <- app_assoc. f_equal. lia.
Qed.

(** Characters without a meaning to any scanner. *)
Definition word_char (c : ascii) : bool :=
  negb (is_quote c || Ascii.eqb c "("%char || Ascii.eqb c ")"%char || Ascii.eqb c "|"%char
        || Ascii.eqb c ","%char).

Lemma word_char_tests c : word_char c = true →
  is_quote c = false ∧ Ascii.eqb c "("%char = false ∧ Ascii.eqb c ")"%char = false ∧
  Ascii.eqb c "|"%char = false ∧ Ascii.eqb c ","%char = false.
Proof.
  unfold word_char. rewrite negb_true_iff, !orb_false_iff. tauto.
Qed.

Definition pipe_char (c : ascii) : bool :=
  negb (is_quote c || Ascii.eqb c "("%char || Ascii.eqb c ")"%char || Ascii.eqb c "|"%char).

Lemma pipe_chars_pass w : forallb pipe_char w = true → passes_pipeline w.
Proof.
  induction w as [|c w IH]; intros Hw source rest idx start seg depth segs.
  { by rewrite app_nil_r, len_nil, Z.add_0_r. }
  cbn in Hw. unfold pipe_char in Hw at 1.
  rewrite andb_true_iff, negb_true_iff, !orb_false_iff in Hw.
  destruct Hw as [[[[H1 H2] H3] H4] Hw].
  cbn [app split_pipeline_loop in_literal unquoted quote].
  rewrite H1, H2, H3, H4. cbn [andb]. rewrite (IH Hw), len_cons, <- app_assoc. f_equal. lia.
Qed.

Lemma words_pass_pipeline w : forallb word_char w = true → passes_pipeline w.
Proof.
  intros Hw. apply pipe_chars_pass. rewrite forallb_forall in *. intros c Hc%Hw.
  apply word_char_tests in Hc as (H1 & H2 & H3 & H4 & _).
  unfold pipe_char. by rewrite H1, H2, H3, H4.
Qed.
Lemma words_pass_args w : forallb word_char w = true → passes_args w.
Proof.
  induction w as [|c w IH]; intros Hw rest idx start part off args.
  { by rewrite app_nil_r, len_nil, Z.add_0_r. }
  cbn in Hw. apply andb_true_iff in Hw as [(H1 & H2 & H3 & H4 & H5)%word_char_tests Hw].
  cbn [app split_args_loop in_literal unquoted quote].
  rewrite H1, H5. rewrite (IH Hw), len_cons, <- app_assoc. f_equal. lia.
Qed.

(** ** Rendered values *)
Record renders (w : str) (v : str) : Prop := {
  rn_pipeline : passes_pipeline w;
  rn_args : passes_args w;
  rn_nonempty : w ≠ [];
  rn_first : ∀ c t, w = c :: t → plain_first c = true;
  rn_last : ∀ c t, w = t ++ [c] → plain_last c = true;
  rn_value : ∀ source offset, parse_value source w offset = Ok v;
}.

Lemma renders_trim w v : renders w v → trim w = w.
Proof.
  intros [_ _ Hne Hf Hl _]. destruct w as [|c w]; [done|].
  destruct (exists_last Hne) as (t & d & Heq).
  eapply trim_plain; [by eapply Hf|by eapply Hl|exact Heq].
Qed.

Lemma render_string_renders s : renders (render_string s) s.
Proof.
  split.
  - intros source rest idx start seg depth segs. unfold render_string.
    cbn [app split_pipeline_loop in_literal unquoted quote]. rewrite <- app_assoc.
    change (is_quote dquote) with true. cbn iota.
    rewrite (app_assoc (escape s)), (pipeline_literal _ _ _ _ _ _ _ _ _ _ (run_string_body s)).
    rewrite <- !app_assoc, len_cons. f_equal. lia.
  - intros rest idx start part off args. unfold render_string.
    cbn [app split_args_loop in_literal unquoted quote]. rewrite <- app_assoc.
    change (is_quote dquote) with true. cbn iota.
    rewrite (app_assoc (escape s)), (args_literal _ _ _ _ _ _ _ _ _ (run_string_body s)).
    rewrite <- !app_assoc, len_cons. f_equal. lia.
  - done.
  - by intros c t [= <- _].
  - intros c t. unfold render_string. rewrite app_assoc. by intros [_ [= <-]]%app_inj_2.
  - intros source offset. unfold parse_value.
    assert (Ht : trim (render_string s) = render_string s).
    { apply (trim_plain dquote (escape s ++ [dquote]) dquote (dquote :: escape s)); done. }
    rewrite Ht. unfold render_string. cbn [app].
    rewrite last_cons, last_snoc. rewrite len_cons, len_app, len_cons, len_nil.
    rewrite (proj2 (Z.leb_le _ _)) by (pose proof (len_nonneg (escape s)); lia).
    change (Ascii.eqb dquote squote) with false. rewrite Ascii.eqb_refl. cbn [andb orb].
    rewrite length_app. cbn [length]. rewrite Nat.add_sub, take_app_length.
    by rewrite unescape_escape.
Qed.

(** A word of at least one character whose ends are no quotes is read as it is. *)
Lemma word_renders w :
  w ≠ [] → forallb (λ c, word_char c && plain_first c && plain_last c) w = true → renders w w.
Proof.
  intros Hne Hw. rewrite forallb_forall in Hw.
  assert (Hin : ∀ c, c ∈ w → word_char c = true ∧ plain_first c = true ∧ plain_last c = true).
  { intros c Hc%list_elem_of_In. specialize (Hw c Hc). rewrite !andb_true_iff in Hw. tauto. }
  assert (Hword : forallb word_char w = true).
  { apply forallb_forall. intros c Hc%list_elem_of_In. by apply Hin. }
  assert (Hfl : (∀ c t, w = c :: t → plain_first c = true) ∧
                (∀ c t, w = t ++ [c] → plain_last c = true)).
  { split; intros c t ->; apply Hin; set_solver. }
  destruct Hfl as [Hf Hl]. split; [by apply words_pass_pipeline|by apply words_pass_args|done..|].
  intros source offset. unfold parse_value. destruct w as [|c w]; [done|].
  destruct (exists_last Hne) as (t & d & Heq).
  rewrite (trim_plain c w d t) by (eauto; by eapply Hl).
  assert (last (c :: w) = Some d) as -> by (by rewrite Heq, last_snoc).
  destruct (Hin c) as (Hc & _); [by left|]. apply word_char_tests in Hc as (Hq & _).
  unfold is_quote in *. apply orb_false_iff in Hq as [Hq1 Hq2]. rewrite Hq1, Hq2. cbn [andb orb].
  by destruct (2 <=? _).
Qed.

Lemma show_uint_renders n : 0 ≤ n ≤ u64_max → renders (show_uint n) (show_uint n).
Proof.
  intros Hn. destruct (show_uint_digits n Hn) as [Hne Hdig]. apply word_renders; [done|].
  apply forallb_forall. intros c Hc%list_elem_of_In. rewrite Forall_forall in Hdig.
  apply (is_digit_test (λ c, word_char c && plain_first c && plain_last c)); [by vm_compute|auto].
Qed.
Lemma render_direction_renders d : renders (render_direction d) (render_direction d).
Proof. destruct d; apply word_renders; (done || by vm_compute). Qed.
Lemma render_kind_renders k : renders (render_kind k) (render_kind k).
Proof. destruct k; apply word_renders; (discriminate || by vm_compute). Qed.

Lemma parse_render_direction d : parse_direction (render_direction d) = Some d.
Proof. by destruct d; vm_compute. Qed.
Lemma parse_render_kind k : parse_node_kind (render_kind k) = Some k.
Proof. by destruct k; vm_compute. Qed.

(** ** Padding *)
Definition space : ascii := byte 32.
Definition pad (w : str) : Prop := w = [] ∨ w = [space].

(** Text that begins and ends with characters no trim removes. *)
Definition trimmed (w : str) : Prop :=
  w ≠ [] ∧ (∀ c t, w = c :: t → plain_first c = true) ∧
  (∀ c t, w = t ++ [c] → plain_last c = true).

Lemma trimmed_word w :
  w ≠ [] → forallb (λ c, plain_first c && plain_last c) w = true → trimmed w.
Proof.
  intros Hne Hw. rewrite forallb_forall in Hw. split; [done|].
  split; intros c t ->; (assert (Hc : plain_first c && plain_last c = true)
    by (apply Hw, list_elem_of_In; set_solver)); apply andb_true_iff in Hc; tauto.
Qed.

Lemma trim_end_trimmed w : trimmed w → trim_end w = w.
Proof.
  intros (Hne & _ & Hl). destruct (exists_last Hne) as (t & d & ->).
  apply trim_end_plain. by eapply Hl.
Qed.

Lemma trim_padded pre w post : pad pre → pad post → trimmed w → trim (pre ++ w ++ post) = w.
Proof.
  intros Hpre Hpost Hw. pose proof Hw as (Hne & Hf & _). unfold trim.
  assert (trim_start (pre ++ w ++ post) = w ++ post) as ->.
  { destruct w as [|c w]; [done|].
    destruct Hpre as [->| ->]; cbn [app]; [|unfold space; rewrite trim_start_space];
      (apply trim_start_plain; by eapply Hf). }
  destruct Hpost as [->| ->]; [rewrite app_nil_r|unfold space; rewrite trim_end_space];
    by apply trim_end_trimmed.
Qed.

Lemma renders_trimmed w v : renders w v → trimmed w.
Proof. intros [_ _ ? ? ? _]. done. Qed.

Lemma trimmed_between v m w : trimmed v → trimmed w → trimmed (v ++ m ++ w).
Proof.
  intros (Hv & Hvf & _) (Hw & _ & Hwl). split; [by destruct v|]. split.
  - intros c t Heq. destruct v as [|x v]; [done|]. injection Heq as <- _. by eapply Hvf.
  - intros c t Heq. destruct (exists_last Hw) as (w' & d & ->).
    rewrite !app_assoc in Heq. apply app_inj_2 in Heq as [_ [= <-]]; [|done]. by eapply Hwl.
Qed.

(** ** Arguments *)
Definition key_char (c : ascii) : bool :=
  word_char c && plain_first c && plain_last c && negb (Ascii.eqb c ":"%char).
Definition key_ok (k : str) : Prop :=
  k ≠ [] ∧ forallb key_char k = true ∧ to_ascii_lowercase k = k.

Lemma key_chars k : key_ok k → ∀ c, c ∈ k → word_char c = true ∧ plain_first c = true ∧
  plain_last c = true ∧ Ascii.eqb c ":"%char = false.
Proof.
  intros (_ & Hk & _) c Hc%list_elem_of_In. rewrite forallb_forall in Hk. specialize (Hk c Hc).
  unfold key_char in Hk. rewrite !andb_true_iff, negb_true_iff in Hk. tauto.
Qed.

Lemma key_trimmed k : key_ok k → trimmed k.
Proof.
  intros Hk. split; [apply Hk|].
  split; intros c t ->; edestruct (key_chars _ Hk c) as (_ & ? & ? & _); [set_solver|done|set_solver|done].
Qed.

Lemma key_words k : key_ok k → forallb word_char k = true.
Proof.
  intros Hk. apply forallb_forall. intros c Hc%list_elem_of_In. by apply (key_chars k Hk).
Qed.

Lemma find_colon_key k rest : key_ok k → find_top_level_colon (k ++ ":"%char :: rest) = Some (length k).
Proof.
  intros Hk. pose proof (key_chars k Hk) as Hc. clear Hk. unfold find_top_level_colon.
  induction k as [|c k IH]; [done|]. cbn [app find_colon in_literal unquoted quote].
  destruct (Hc c) as (Hw & _ & _ & Hcol); [by left|]. apply word_char_tests in Hw as (Hq & _).
  rewrite Hq, Hcol. unfold unquoted in *. rewrite IH; [done|]. intros c' ?. apply Hc. by right.
Qed.

Lemma render_arg_trimmed k w v : key_ok k → renders w v → trimmed (render_arg k w).
Proof. intros Hk Hw. apply trimmed_between; [by apply key_trimmed|by eapply renders_trimmed]. Qed.

Lemma parse_arg_render source pre k w v offset :
  pad pre → key_ok k → renders w v →
  ∃ at_, parse_arg source (pre ++ render_arg k w) offset =
    Ok (Some {| arg_key := Some k; arg_value := v; arg_at := at_ |}).
Proof.
  intros Hpre Hk Hw. pose proof (render_arg_trimmed _ _ _ Hk Hw) as Ht. unfold parse_arg.
  pose proof (trim_padded pre _ [] Hpre (or_introl eq_refl) Ht) as Htrim.
  rewrite app_nil_r in Htrim. rewrite Htrim.
  rewrite bool_decide_eq_false_2 by apply Ht.
  assert (Hfind : find_top_level_colon (render_arg k w) = Some (length k)).
  { unfold render_arg. by apply (find_colon_key k (space :: w)). }
  rewrite Hfind.
  assert (take (length k) (render_arg k w) = k) as ->.
  { unfold render_arg. by rewrite take_app_length. }
  assert (drop (S (length k)) (render_arg k w) = space :: w) as ->.
  { unfold render_arg. change (lit ": " ++ w) with ([":"%char] ++ space :: w).
    rewrite app_assoc. apply drop_app_length'. rewrite length_app. simpl. lia. }
  assert (trim k = k) as ->.
  { pose proof (trim_padded [] k [] (or_introl eq_refl) (or_introl eq_refl) (key_trimmed _ Hk)) as H.
    by rewrite app_nil_r in H. }
  rewrite bool_decide_eq_false_2 by apply Hk.
  assert (trim (space :: w) = w) as ->.
  { pose proof (trim_padded [space] w [] (or_intror eq_refl) (or_introl eq_refl)
      (renders_trimmed _ _ Hw)) as H. by rewrite app_nil_r in H. }
  rewrite bool_decide_eq_false_2 by apply Hw.
  rewrite (rn_value _ _ Hw). cbn. destruct Hk as (_ & _ & ->). eauto.
Qed.

(** The named arguments an argument list must read back as. *)
Definition kv (args : list ParsedArg) : list (option str * str) :=
  (λ a, (arg_key a, arg_value a)) <$> args.

Definition rendered_args (l : list (str * str)) (vs : list (option str * str)) : Prop :=
  Forall2 (λ a kv, key_ok a.1 ∧ kv.1 = Some a.1 ∧ renders a.2 kv.2) l vs.

Lemma parse_parts_render source l : ∀ vs parts,
  rendered_args l vs →
  Forall2 (λ a p, ∃ pre, pad pre ∧ p.1 = pre ++ render_arg a.1 a.2) l parts →
  ∃ args, parse_parts source parts = Ok args ∧ kv args = vs.
Proof.
  induction l as [|[k w] l IH]; intros vs parts Hl Hp; inversion Hp as [|? [p off] ? ? Hpre Hrest];
    inversion Hl as [|? [ko v] ? ? [Hk [Hko Hw]] Hvs]; subst; [by exists []|].
  cbn [fst snd] in Hpre, Hk, Hko, Hw. destruct Hpre as (pre & Hpre & Hp1). subst p ko. cbn [parse_parts fst snd].
  destruct (parse_arg_render source pre k w v off Hpre Hk Hw) as [at_ ->]. cbn.
  destruct (IH _ _ Hvs Hrest) as (args & -> & <-). cbn. eauto.
Qed.

Lemma render_arg_passes k w v :
  key_ok k → renders w v → passes_args (render_arg k w) ∧ passes_pipeline (render_arg k w).
Proof.
  intros Hk Hw. pose proof (key_words k Hk). split.
  - apply passes_args_app; [by apply words_pass_args|].
    apply passes_args_app; [by apply words_pass_args|apply Hw].
  - apply passes_pipeline_app; [by apply words_pass_pipeline|].
    apply passes_pipeline_app; [by apply words_pass_pipeline|apply Hw].
Qed.

Definition arg_text (a : str * str) : str := render_arg a.1 a.2.

Lemma split_args_render l : ∀ vs pre idx start off acc,
  rendered_args l vs → l ≠ [] → pad pre →
  ∃ parts, split_args_loop (join (lit ", ") (arg_text <$> l)) idx start pre unquoted off acc =
    (unquoted, acc ++ parts) ∧
    Forall2 (λ a p, ∃ pre, pad pre ∧ p.1 = pre ++ render_arg a.1 a.2) l parts.
Proof.
  induction l as [|[k w] l IH]; intros vs pre idx start off acc Hl Hne Hpre; [done|].
  inversion Hl as [|? [ko v] ? ? [Hk [_ Hw]] Hvs]; subst. cbn in Hk, Hw.
  destruct (render_arg_passes k w v Hk Hw) as [Hpass _]. destruct l as [|a l].
  - change (join (lit ", ") (arg_text <$> [(k, w)])) with (render_arg k w).
    rewrite <- (app_nil_r (render_arg k w)), Hpass. cbn [split_args_loop]. eexists. split; [done|]. constructor; [|constructor].
    by exists pre.
  - change (join (lit ", ") (arg_text <$> (k, w) :: a :: l)) with
      (render_arg k w ++ [","%char; space] ++ join (lit ", ") (arg_text <$> a :: l)).
    rewrite Hpass.
    change (split_args_loop ([","%char; space] ++ ?x) ?i ?s ?p unquoted off acc) with
      (split_args_loop x (i + 1 + 1) (i + 1) [space] unquoted off (acc ++ [(p, off + s)])).
    edestruct (IH l' [space]) as (parts & -> & Hparts); [done|done|by right|].
    rewrite <- app_assoc. eexists. split; [done|]. constructor; [|done].
    exists pre. done.
Qed.

Lemma parse_args_render source l vs offset :
  rendered_args l vs →
  ∃ args, parse_args source (join (lit ", ") (arg_text <$> l)) offset = Ok args ∧ kv args = vs.
Proof.
  intros Hl. unfold parse_args, split_args. destruct l as [|a l].
  { inversion Hl; subst. by exists []. }
  destruct (split_args_render (a :: l) vs [] 0 0 offset []) as (parts & -> & Hp);
    [done|done|by left|]. cbn [app]. rewrite bool_decide_eq_false_2 by (by intros []).
  cbn. by eapply parse_parts_render.
Qed.

Lemma args_pass_pipeline l vs : rendered_args l vs → passes_pipeline (join (lit ", ") (arg_text <$> l)).
Proof.
  revert vs. assert (Hsep : passes_pipeline (lit ", ")) by (by apply pipe_chars_pass).
  induction l as [|[k w] l IH]; intros vs Hl; inversion Hl as [|? [ko v] ? ? [Hk [_ Hw]] Hvs]; subst.
  { by apply words_pass_pipeline. }
  cbn in Hk, Hw. destruct (render_arg_passes k w v Hk Hw) as [_ Hpass]. destruct l as [|a l].
  { exact Hpass. }
  change (join (lit ", ") (arg_text <$> (k, w) :: a :: l)) with
    (render_arg k w ++ lit ", " ++ join (lit ", ") (arg_text <$> a :: l)).
  apply passes_pipeline_app; [done|]. apply passes_pipeline_app; [done|by eapply IH].
Qed.

(** ** Operations *)
Definition find_kv (kvs : list (option str * str)) (key : str) : option str :=
  snd <$> List.find (λ p, bool_decide (p.1 = Some key)) kvs.

Lemma optional_string_arg_kv args key : optional_string_arg args key = find_kv (kv args) key.
Proof.
  unfold optional_string_arg, find_arg, find_kv, kv.
  induction args as [|a args IH]; [done|]. cbn. by case_bool_decide.
Qed.

Lemma reject_unknown_args_kv source args allowed :
  Forall (λ p, match p.1 with Some k => k ∈ allowed | None => True end) (kv args) →
  reject_unknown_args source args allowed = Ok ().
Proof.
  unfold kv. induction args as [|a args IH]; [done|]. cbn. intros [Ha Hargs]%Forall_cons.
  cbn in Ha. destruct (arg_key a) as [k|]; [|auto]. rewrite bool_decide_eq_true_2 by done. auto.
Qed.

(** The values an operation's rendered arguments read back as. *)
Definition operation_values (op : GraphQueryOperation) : list (option str * str) :=
  let opt {A} (key : str) (f : A → str) (o : option A) :=
    match o with Some a => [(Some key, f a)] | None => [] end in
  match op with
  | QTrail q =>
      [(Some (lit "symbol"), tq_symbol q)] ++ opt (lit "depth") show_uint (tq_depth q)
      ++ opt (lit "direction") render_direction (tq_direction q)
  | QSymbol q => [(Some (lit "query"), sym_query q)]
  | QSearch q => [(Some (lit "query"), search_query q)]
  | QFilter q =>
      opt (lit "kind") render_kind (fq_kind q) ++ opt (lit "file") id (fq_file q)
      ++ opt (lit "depth") show_uint (fq_depth q)
  | QLimit q => [(Some (lit "n"), show_uint (lq_count q))]
  end.

Lemma key_ok_test k :
  bool_decide (k ≠ []) && forallb key_char k && bool_decide (to_ascii_lowercase k = k) = true →
  key_ok k.
Proof. rewrite !andb_true_iff, !bool_decide_eq_true. by intros [[? ?] ?]. Qed.

Lemma u32_u64 n : in_range u32_max n → 0 ≤ n ≤ u64_max.
Proof. unfold in_range, u32_max, u64_max. lia. Qed.

Ltac arg_renders :=
  split; [by apply key_ok_test; vm_compute|split; [reflexivity|]];
  first [apply render_string_renders|apply render_direction_renders|apply render_kind_renders
        |apply show_uint_renders, u32_u64; eauto].

Ltac args_render :=
  repeat first [apply List.Forall2_nil | apply List.Forall2_cons; [cbn [fst snd]; arg_renders|]].

Lemma operation_args_render op :
  operation_ok op → rendered_args (operation_args op) (operation_values op).
Proof.
  unfold rendered_args. destruct op as [[s d dir]|[q]|[q]|[k f d]|[n]]; cbn; intros Hok.
  - destruct Hok as [_ Hd]. destruct d, dir; args_render.
  - args_render.
  - args_render.
  - destruct k, f, d; args_render.
  - args_render.
Qed.

Section Values.
Context (source : str) (args : list ParsedArg).

Lemma required_string_arg_value key v index fallback :
  find_kv (kv args) key = Some v → trim v ≠ [] →
  required_string_arg source args key index fallback = Ok v.
Proof.
  intros Hf Hv. unfold required_string_arg. rewrite optional_string_arg_kv, Hf.
  by rewrite bool_decide_eq_false_2.
Qed.

Lemma required_u32_arg_value key n index fallback :
  find_kv (kv args) key = Some (show_uint n) → in_range u32_max n →
  required_u32_arg source args key index fallback = Ok n.
Proof.
  intros Hf Hn. unfold required_u32_arg. rewrite optional_string_arg_kv, Hf. cbn [ok_or mbind result_bind].
  unfold parse_u32. by rewrite parse_show_uint by (apply Hn || (apply u32_u64 in Hn; lia)).
Qed.

Lemma optional_u32_arg_value key o :
  find_kv (kv args) key = show_uint <$> o → (∀ n, o = Some n → in_range u32_max n) →
  optional_u32_arg source args key = Ok o.
Proof.
  intros Hf Hn. unfold optional_u32_arg. rewrite optional_string_arg_kv, Hf.
  destruct o as [n|]; [|done]. cbn [fmap option_fmap option_map].
  specialize (Hn n eq_refl). unfold parse_u32.
  by rewrite parse_show_uint by (apply Hn || (apply u32_u64 in Hn; lia)).
Qed.

Lemma optional_direction_arg_value key o :
  find_kv (kv args) key = render_direction <$> o →
  optional_direction_arg source args key = Ok o.
Proof.
  intros Hf. unfold optional_direction_arg. rewrite optional_string_arg_kv, Hf.
  destruct o as [d|]; [|done]. cbn [fmap option_fmap option_map].
  by rewrite parse_render_direction.
Qed.

Lemma optional_kind_arg_value key o :
  find_kv (kv args) key = render_kind <$> o →
  optional_kind_arg source args key = Ok o.
Proof.
  intros Hf. unfold optional_kind_arg. rewrite optional_string_arg_kv, Hf.
  destruct o as [k|]; [|done]. cbn [fmap option_fmap option_map].
  by rewrite parse_render_kind.
Qed.
End Values.

Lemma operation_values_known op :
  let allowed := match op with
    | QTrail _ => [lit "symbol"; lit "depth"; lit "direction"]
    | QSymbol _ | QSearch _ => [lit "query"]
    | QFilter _ => [lit "kind"; lit "file"; lit "depth"]
    | QLimit _ => [lit "n"]
    end in
  Forall (λ p, match p.1 with Some k => k ∈ allowed | None => True end) (operation_values op).
Proof.
  destruct op as [[s d dir]|[q]|[q]|[k f d]|[n]]; cbn -[lit].
  - destruct d, dir; repeat constructor; cbn -[lit]; set_solver.
  - repeat constructor.
  - repeat constructor.
  - destruct k, f, d; repeat constructor; cbn -[lit]; set_solver.
  - repeat constructor.
Qed.

Lemma build_operation_render op source so ao args :
  operation_ok op → kv args = operation_values op →
  build_operation source (operation_name op) so ao args = Ok op.
Proof.
  intros Hok Hkv. pose proof (operation_values_known op) as Hknown. rewrite <- Hkv in Hknown.
  apply (reject_unknown_args_kv source) in Hknown. unfold build_operation.
  destruct op as [[s d dir]|[q]|[q]|[k f d]|[n]]; cbn [operation_name];
    repeat match goal with |- context [str_eqb ?a ?b] =>
      let r := eval vm_compute in (str_eqb a b) in change (str_eqb a b) with r; cbn iota end;
    rewrite Hknown; cbn [mbind result_bind].
  - destruct Hok as [Hs Hd]. cbn in Hs, Hd.
    rewrite (required_string_arg_value _ _ _ s) by (done || by rewrite Hkv).
    cbn [mbind result_bind]. rewrite (optional_u32_arg_value _ _ _ d); [|by rewrite Hkv; destruct d, dir|done].
    cbn [mbind result_bind].
    rewrite (optional_direction_arg_value _ _ _ dir); [done|by rewrite Hkv; destruct d, dir].
  - by rewrite (required_string_arg_value _ _ _ q) by (done || by rewrite Hkv).
  - by rewrite (required_string_arg_value _ _ _ q) by (done || by rewrite Hkv).
  - rewrite (optional_kind_arg_value _ _ _ k) by (rewrite Hkv; by destruct k, f, d).
    cbn [mbind result_bind].
    rewrite (optional_u32_arg_value _ _ _ d); [|by rewrite Hkv; destruct k, f, d|done].
    cbn [mbind result_bind]. rewrite optional_string_arg_kv, Hkv. by destruct k, f, d.
  - by rewrite (required_u32_arg_value _ _ _ n) by (done || by rewrite Hkv).
Qed.

(** ** Segments *)
Lemma find_byte_word c w rest :
  forallb (λ x, negb (Ascii.eqb x c)) w = true → find_byte c (w ++ c :: rest) = Some (length w).
Proof.
  induction w as [|x w IH]; cbn.
  - by rewrite Ascii.eqb_refl.
  - intros [Hx%negb_true_iff Hw]%andb_true_iff. by rewrite Hx, IH.
Qed.

Lemma rfind_byte_last c w : rfind_byte c (w ++ [c]) = Some (length w).
Proof.
  induction w as [|x w IH]; cbn; [by rewrite Ascii.eqb_refl|]. by rewrite IH.
Qed.

Lemma parse_operation_render op source offset :
  operation_ok op → parse_operation source (render_operation op) offset = Ok op.
Proof.
  intros Hok. pose proof (operation_args_render op Hok) as Hargs. unfold parse_operation.
  set (text := join (lit ", ") (arg_text <$> operation_args op)).
  assert (Hname : forallb (λ x, negb (Ascii.eqb x "("%char)) (operation_name op) = true)
    by (by destruct op).
  assert (Hr : render_operation op = operation_name op ++ "("%char :: text ++ [")"%char])
    by done. rewrite Hr.
  rewrite find_byte_word by done. cbn [ok_or mbind result_bind].
  assert (rfind_byte ")"%char (operation_name op ++ "("%char :: text ++ [")"%char]) =
    Some (length (operation_name op) + 1 + length text)%nat) as ->.
  { change ("("%char :: text ++ [")"%char]) with (["("%char] ++ text ++ [")"%char]).
    rewrite !app_assoc, rfind_byte_last, !length_app. done. }
  cbn [ok_or mbind result_bind]. rewrite (proj2 (Nat.ltb_ge _ _)) by lia.
  assert (drop (S (length (operation_name op) + 1 + length text))
    (operation_name op ++ "("%char :: text ++ [")"%char]) = []) as ->.
  { apply drop_ge. rewrite !length_app. cbn [length]. rewrite length_app. simpl. lia. }
  change (trim []) with (@nil ascii). rewrite bool_decide_eq_true_2 by done. cbn [negb orb].
  rewrite take_app_length.
  assert (to_ascii_lowercase (trim (operation_name op)) = operation_name op) as ->
    by (by destruct op).
  assert (drop (S (length (operation_name op)))
    (operation_name op ++ "("%char :: text ++ [")"%char]) = text ++ [")"%char]) as ->.
  { change ("("%char :: text ++ [")"%char]) with (["("%char] ++ text ++ [")"%char]).
    rewrite app_assoc. apply drop_app_length'. rewrite length_app. simpl. lia. }
  replace (length (operation_name op) + 1 + length text - S (length (operation_name op)))%nat
    with (length text) by lia. rewrite take_app_length.
  destruct (parse_args_render source _ _ (offset + Z.of_nat (length (operation_name op)) + 1) Hargs)
    as (args & Hp & Hkv). fold text in Hp. rewrite Hp. cbn [mbind result_bind].
  by apply build_operation_render.
Qed.

Lemma render_operation_trimmed op : trimmed (render_operation op).
Proof.
  assert (H : trimmed (operation_name op))
    by (destruct op; apply trimmed_word; (discriminate || by vm_compute)).
  unfold render_operation. rewrite (app_assoc (lit "(")). apply trimmed_between; [done|].
  split; [done|]. split; intros c t Heq.
  - by injection Heq as <- _.
  - apply (f_equal last) in Heq. rewrite last_snoc in Heq. by injection Heq as <-.
Qed.

(** One operation is copied by the pipeline scanner at depth zero. *)
Lemma render_operation_passes op source rest idx start seg segs :
  operation_ok op →
  split_pipeline_loop source (render_operation op ++ rest) idx start seg 0 unquoted segs =
  split_pipeline_loop source rest (idx + len (render_operation op)) start
    (seg ++ render_operation op) 0 unquoted segs.
Proof.
  intros Hok. pose proof (args_pass_pipeline _ _ (operation_args_render op Hok)) as Hargs.
  assert (Hname : passes_pipeline (operation_name op)) by (destruct op; by apply pipe_chars_pass).
  unfold render_operation. fold arg_text.
  change ((λ a : str * str, render_arg a.1 a.2) <$> operation_args op)
    with (arg_text <$> operation_args op).
  set (text := join (lit ", ") (arg_text <$> operation_args op)) in *.
  rewrite <- !app_assoc, Hname.
  change (lit "(" ++ ?x) with ("("%char :: x). change (lit ")" ++ rest) with (")"%char :: rest).
  cbn [split_pipeline_loop]. change (in_literal unquoted "("%char) with (@None QuoteState).
  change (is_quote "("%char) with false. change (Ascii.eqb "(" "(")%char with true. cbn iota.
  rewrite Hargs. cbn [split_pipeline_loop].
  change (in_literal unquoted ")"%char) with (@None QuoteState).
  change (is_quote ")"%char) with false. change (Ascii.eqb ")" "(")%char with false.
  change (Ascii.eqb ")" ")")%char with true. cbn iota.
  change (0 + 1 - 1 <? 0) with false. change (0 + 1 - 1) with 0. cbn iota.
  rewrite !len_app, len_cons, len_app. change (len (lit ")")) with 1.
  rewrite <- !app_assoc. f_equal. lia.
Qed.

Lemma split_pipeline_render ops : ∀ source pre idx start segs,
  Forall operation_ok ops → ops ≠ [] → pad pre →
  ∃ segs', split_pipeline_loop source (join (lit " | ") (render_operation <$> ops)) idx start
      pre 0 unquoted segs = Ok (segs ++ segs') ∧
    Forall2 (λ op p, trim p.1 = render_operation op) ops segs'.
Proof.
  induction ops as [|op ops IH]; intros source pre idx start segs Hok Hne Hpre; [done|].
  apply Forall_cons in Hok as [Hop Hok]. pose proof (render_operation_trimmed op) as Htrim.
  destruct ops as [|op2 ops].
  - change (join (lit " | ") (render_operation <$> [op])) with (render_operation op).
    rewrite <- (app_nil_r (render_operation op)), render_operation_passes by done.
    cbn [split_pipeline_loop]. rewrite bool_decide_eq_false_2 by (by intros []).
    change (0 <? 0) with false. cbn iota. eexists. split; [done|].
    constructor; [|constructor]. cbn [fst].
    rewrite <- (app_nil_r (pre ++ _)), <- app_assoc. apply trim_padded; [done|by left|done].
  - change (join (lit " | ") (render_operation <$> op :: op2 :: ops)) with
      (render_operation op ++ [space; "|"%char; space] ++
       join (lit " | ") (render_operation <$> op2 :: ops)).
    rewrite render_operation_passes by done.
    change (split_pipeline_loop source ([space; "|"%char; space] ++ ?x) ?i start ?p 0 unquoted segs)
      with (split_pipeline_loop source x (i + 1 + 1 + 1) (i + 1 + 1) [space] 0 unquoted
              (segs ++ [(p ++ [space], start)])).
    edestruct (IH source [space]) as (segs' & -> & Hsegs); [done|done|by right|].
    rewrite <- app_assoc. eexists. split; [done|]. constructor; [|done]. cbn [fst].
    rewrite <- app_assoc. apply trim_padded; [done|by right|done].
Qed.

Lemma parse_segments_render source ops : ∀ segs,
  Forall operation_ok ops → Forall2 (λ op p, trim p.1 = render_operation op) ops segs →
  parse_segments source segs = Ok ops.
Proof.
  induction ops as [|op ops IH]; intros segs Hok Hsegs;
    inversion Hsegs as [|? [seg off] ? ? Hseg Hrest]; subst; [done|].
  apply Forall_cons in Hok as [Hop Hok]. cbn [fst] in Hseg. cbn [parse_segments]. rewrite Hseg.
  rewrite bool_decide_eq_false_2 by apply render_operation_trimmed.
  rewrite parse_operation_render by done. cbn [mbind result_bind]. by rewrite IH.
Qed.

(** [C31] Round trip of the query language: the parser reads the canonical rendering of
    every well-formed query back as that query, whatever its strings contain. *)
Theorem parse_render_query ast :
  query_ok ast → parse_graph_query (render_query ast) = Ok ast.
Proof.
  intros [Hne Hok]. unfold parse_graph_query, split_pipeline, render_query.
  destruct (split_pipeline_render (operations ast)
    (join (lit " | ") (render_operation <$> operations ast)) [] 0 0 []) as (segs & -> & Hsegs);
    [done|done|by left|]. cbn [mbind result_bind app].
  rewrite (parse_segments_render _ (operations ast)) by done. cbn [mbind result_bind].
  rewrite bool_decide_eq_false_2 by done. by destruct ast.
Qed.

Module QuerySample.
(** A symbol with a quote of each kind, a backslash and the separators of the language. *)
Definition ast : GraphQueryAst := mkGraphQueryAst
  [QTrail (mkTrailQuery [squote; dquote; backslash; "|"%char; ","%char] (Some 3)
     (Some TrailDirection.Outgoing));
   QFilter (mkFilterQuery (Some NodeKind.ENUM_CONSTANT) (Some (lit "src/a:b.rs")) None);
   QLimit (mkLimitQuery 4294967295)].
End QuerySample.

Example parse_render_query_witness :
  query_ok QuerySample.ast ∧
  parse_graph_query (render_query QuerySample.ast) = Ok QuerySample.ast.
Proof.
  assert (H : query_ok QuerySample.ast).
  { split; [discriminate|]. repeat apply Forall_cons_2; [|done| |constructor].
    - split; [discriminate|]. intros d [= <-]. unfold in_range, u32_max. lia.
    - unfold operation_ok, in_range, u32_max. simpl. lia. }
  split; [exact H|]. exact (parse_render_query QuerySample.ast H).
Defined.
