(* ===== verification/QueryErrors.v ===== *)
(** * Errors, segments and execution of a query

    Every parse error quotes the source and points into it; the pipeline splitter
    loses nothing; and running a query filters and truncates the items of its last
    producing operation. *)
From S2P Require Import Prelude RustStr Graph QueryLanguage.

(** ** Lengths *)
Lemma strip_one_len ws s t : strip_one ws s = Some t → (length t ≤ length s)%nat.
Proof.
  induction ws as [|w ws IH]; cbn [strip_one]; [done|].
  destruct (starts_with s w); [|done]. intros [= <-]. rewrite length_drop. lia.
Qed.
Lemma strip_all_len ws fuel : ∀ s, (length (strip_all ws fuel s) ≤ length s)%nat.
Proof.
  induction fuel as [|fuel IH]; intros s; cbn [strip_all]; [done|].
  destruct (strip_one ws s) as [t|] eqn:Ht; [|done].
  apply strip_one_len in Ht. specialize (IH t). lia.
Qed.
Lemma trim_start_len s : len (trim_start s) ≤ len s.
Proof. unfold len, trim_start. pose proof (strip_all_len utf8_whitespace (length s) s). lia. Qed.
Lemma trim_end_len s : len (trim_end s) ≤ len s.
Proof.
  unfold len, trim_end. rewrite length_reverse.
  pose proof (strip_all_len (reverse <$> utf8_whitespace) (length s) (reverse s)) as H.
  rewrite length_reverse in H. lia.
Qed.
Lemma leading_ws_trim s : 0 ≤ leading_ws s ∧ leading_ws s + len (trim s) ≤ len s.
Proof.
  unfold leading_ws, trim. pose proof (trim_start_len s). pose proof (trim_end_len (trim_start s)). lia.
Qed.

Lemma find_colon_lt q s n : find_colon q s = Some n → (n < length s)%nat.
Proof.
  revert q n. induction s as [|c s IH]; intros q n; cbn [find_colon length]; [done|].
  assert (Hrec : ∀ q', S <$> find_colon q' s = Some n → (n < S (length s))%nat).
  { intros q' (k & Hk & ->)%fmap_Some. apply IH in Hk. lia. }
  destruct (in_literal q c); [apply Hrec|]. destruct (is_quote c); [apply Hrec|].
  destruct (Ascii.eqb c ":"); [intros [= <-]; lia|apply Hrec].
Qed.
Lemma find_byte_lt c s n : find_byte c s = Some n → (n < length s)%nat.
Proof.
  revert n. induction s as [|x s IH]; intros n; cbn [find_byte length]; [done|].
  destruct (Ascii.eqb x c); [intros [= <-]; lia|]. intros (k & Hk & ->)%fmap_Some. apply IH in Hk. lia.
Qed.
Lemma rfind_byte_lt c s n : rfind_byte c s = Some n → (n < length s)%nat.
Proof.
  revert n. induction s as [|x s IH]; intros n; cbn [rfind_byte length]; [done|].
  destruct (rfind_byte c s) as [i|]; [intros [= <-]; specialize (IH i eq_refl); lia|].
  destruct (Ascii.eqb x c); [intros [= <-]; lia|done].
Qed.

(** ** Results whose errors point into the source *)
Section Offsets.
Context (source : str).

Definition points_in (e : GraphQueryParseError) : Prop :=
  pe_source e = source ∧ 0 ≤ pe_offset e ≤ len source.
Definition yields {A} (r : result GraphQueryParseError A) (P : A → Prop) : Prop :=
  match r with Ok a => P a | Err e => points_in e end.

Lemma yields_bind {A B} (f : A → result GraphQueryParseError B) r (P : A → Prop) Q :
  yields r P → (∀ a, P a → yields (f a) Q) → yields (r ≫= f) Q.
Proof. destruct r; cbn; auto. Qed.
Lemma yields_fmap {A B} (f : A → B) r (P : B → Prop) :
  yields r (λ a, P (f a)) → yields (f <$> r) P.
Proof. by destruct r. Qed.
Lemma yields_mono {A} r (P Q : A → Prop) : yields r P → (∀ a, P a → Q a) → yields r Q.
Proof. destruct r; cbn; auto. Qed.
Lemma yields_ok_or {A} (o : option A) offset message :
  0 ≤ offset ≤ len source → yields (ok_or o (parse_error source offset message)) (λ _, True).
Proof. by destruct o; cbn. Qed.

(** A piece of text that lies at its offset in the source. *)
Definition inside (p : str * Z) : Prop := 0 ≤ p.2 ∧ p.2 + len p.1 ≤ len source.

Lemma split_pipeline_inside rest : ∀ idx start seg depth q segs,
  idx + len rest = len source → start + len seg = idx → 0 ≤ start → Forall inside segs →
  yields (split_pipeline_loop source rest idx start seg depth q segs) (Forall inside).
Proof.
  induction rest as [|c rest IH]; intros idx start seg depth q segs; cbn [split_pipeline_loop];
    rewrite ?len_nil, ?len_cons; intros Hidx Hstart H0 Hsegs; pose proof (len_nonneg source).
  { destruct (bool_decide _); [cbn; split; [done|cbn; lia]|].
    destruct (0 <? depth); [cbn; split; [done|cbn; lia]|].
    cbn. apply Forall_app. split; [done|]. apply Forall_singleton. unfold inside. cbn. lia. }
  pose proof (len_nonneg rest). pose proof (len_nonneg seg).
  assert (Hnext : ∀ depth q, yields (split_pipeline_loop source rest (idx + 1) start (seg ++ [c])
    depth q segs) (Forall inside)).
  { intros. apply IH; [lia| |done|done]. rewrite len_app, len_cons, len_nil. lia. }
  destruct (in_literal q c); [apply Hnext|]. destruct (is_quote c); [apply Hnext|].
  destruct (Ascii.eqb c "("); [apply Hnext|]. destruct (Ascii.eqb c ")").
  { destruct (depth - 1 <? 0); [|apply Hnext]. cbn. split; [done|cbn; lia]. }
  destruct (Ascii.eqb c "|" && (depth =? 0)); [|apply Hnext].
  apply IH; [lia|rewrite len_nil; lia|lia|]. apply Forall_app. split; [done|].
  apply Forall_singleton. unfold inside. cbn. lia.
Qed.

Lemma split_args_inside rest base : ∀ idx start part q args,
  0 ≤ base → base + idx + len rest ≤ len source → start + len part = idx → 0 ≤ start →
  Forall inside args →
  Forall inside (split_args_loop rest idx start part q base args).2.
Proof.
  induction rest as [|c rest IH]; intros idx start part q args Hb; cbn [split_args_loop];
    rewrite ?len_nil, ?len_cons; intros Hidx Hstart H0 Hargs.
  { cbn. apply Forall_app. split; [done|]. apply Forall_singleton. unfold inside. cbn. lia. }
  pose proof (len_nonneg rest). pose proof (len_nonneg part).
  assert (Hnext : ∀ q, Forall inside
    (split_args_loop rest (idx + 1) start (part ++ [c]) q base args).2).
  { intros. apply IH; [done|lia| |done|done]. rewrite len_app, len_cons, len_nil. lia. }
  destruct (in_literal q c); [apply Hnext|]. destruct (is_quote c); [apply Hnext|].
  destruct (Ascii.eqb c ","); [|apply Hnext].
  apply IH; [done|lia|rewrite len_nil; lia|lia|]. apply Forall_app. split; [done|].
  apply Forall_singleton. unfold inside. cbn. lia.
Qed.

Definition arg_inside (a : ParsedArg) : Prop := 0 ≤ arg_at a ≤ len source.

Lemma parse_value_points raw offset :
  0 ≤ offset ≤ len source → yields (parse_value source raw offset) (λ _, True).
Proof. intros Ho. unfold parse_value. repeat case_match; done. Qed.

Lemma parse_arg_points part offset :
  inside (part, offset) →
  yields (parse_arg source part offset) (λ o, ∀ a, o = Some a → arg_inside a).
Proof.
  intros [H0 H1]. cbn in H0, H1. unfold parse_arg. destruct (leading_ws_trim part) as [L1 L2].
  pose proof (len_nonneg (trim part)).
  case_bool_decide; [by intros a|]. destruct (find_top_level_colon (trim part)) as [colon|] eqn:Hc.
  - apply find_colon_lt in Hc. unfold len in L2 at 1.
    case_bool_decide; [split; [done|cbn; lia]|].
    pose proof (leading_ws_trim (drop (S colon) (trim part))) as [L3 L4].
    pose proof (len_nonneg (trim (drop (S colon) (trim part)))) as Hn.
    unfold len in L4 at 2. rewrite length_drop in L4. unfold len in H1, L2.
    unfold arg_inside. case_bool_decide; [split; [done|cbn; unfold len in *; lia]|].
    eapply yields_bind; [apply parse_value_points; unfold len in *; lia|].
    intros v _ a [= <-]. cbn. unfold len in *. lia.
  - eapply yields_bind; [apply parse_value_points; lia|]. intros v _ a [= <-].
    unfold arg_inside. cbn. lia.
Qed.

Lemma parse_parts_points parts :
  Forall inside parts → yields (parse_parts source parts) (Forall arg_inside).
Proof.
  induction 1 as [|[part offset] parts Hp _ IH]; [constructor|]. cbn [parse_parts].
  eapply yields_bind; [by apply parse_arg_points|]. intros o Ho.
  eapply yields_bind; [exact IH|]. intros args Hargs. cbn. destruct o; [|done]. constructor; auto.
Qed.

Lemma parse_args_points args_source offset :
  inside (args_source, offset) → yields (parse_args source args_source offset) (Forall arg_inside).
Proof.
  intros [H0 H1]. cbn in H0, H1. unfold parse_args, split_args.
  pose proof (split_args_inside args_source offset 0 0 [] unquoted [] H0 ltac:(lia)
    eq_refl ltac:(lia) ltac:(constructor)) as Hargs.
  destruct (split_args_loop _ _ _ _ _ _ _) as [q args]. cbn [snd] in Hargs.
  eapply (yields_bind _ _ (Forall inside)); [|apply parse_parts_points].
  pose proof (len_nonneg args_source). case_bool_decide; [|done]. split; [done|cbn; lia].
Qed.

Section Args.
Context (args : list ParsedArg) (Hargs : Forall arg_inside args).

Lemma arg_offset_inside key offset : arg_offset args key = Some offset → 0 ≤ offset ≤ len source.
Proof.
  unfold arg_offset, find_arg. intros (a & Ha & ->)%fmap_Some.
  apply find_some in Ha as [Hin%list_elem_of_In _]. rewrite Forall_forall in Hargs.
  by apply Hargs.
Qed.
Lemma default_offset_inside key fallback :
  0 ≤ fallback ≤ len source → 0 ≤ default fallback (arg_offset args key) ≤ len source.
Proof.
  intros Hf. destruct (arg_offset args key) as [o|] eqn:Ho; [|done]. by eapply arg_offset_inside.
Qed.

Lemma reject_unknown_args_points allowed :
  yields (reject_unknown_args source args allowed) (λ _, True).
Proof.
  induction Hargs as [|a args' Ha Htl IH]; [done|]. cbn [reject_unknown_args].
  destruct (arg_key a); [|by apply IH]. case_bool_decide; [by apply IH|]. by split.
Qed.

Lemma optional_u32_arg_points key : yields (optional_u32_arg source args key) (λ _, True).
Proof.
  pose proof (len_nonneg source). unfold optional_u32_arg. destruct (optional_string_arg _ _); [|done].
  apply yields_fmap, yields_ok_or, default_offset_inside. lia.
Qed.
Lemma optional_direction_arg_points key :
  yields (optional_direction_arg source args key) (λ _, True).
Proof.
  pose proof (len_nonneg source). unfold optional_direction_arg.
  destruct (optional_string_arg _ _); [|done].
  apply yields_fmap, yields_ok_or, default_offset_inside. lia.
Qed.
Lemma optional_kind_arg_points key : yields (optional_kind_arg source args key) (λ _, True).
Proof.
  pose proof (len_nonneg source). unfold optional_kind_arg.
  destruct (optional_string_arg _ _); [|done].
  apply yields_fmap, yields_ok_or, default_offset_inside. lia.
Qed.
Lemma required_string_arg_points key index fallback :
  0 ≤ fallback ≤ len source →
  yields (required_string_arg source args key index fallback) (λ _, True).
Proof. intros Hf. by apply yields_ok_or. Qed.
Lemma required_u32_arg_points key index fallback :
  0 ≤ fallback ≤ len source → yields (required_u32_arg source args key index fallback) (λ _, True).
Proof.
  intros Hf. eapply yields_bind; [by apply yields_ok_or|]. intros raw _.
  apply yields_ok_or. by apply default_offset_inside.
Qed.

Lemma build_operation_points name so ao :
  0 ≤ so ≤ len source → 0 ≤ ao ≤ len source →
  yields (build_operation source name so ao args) (λ _, True).
Proof.
  intros Hso Hao. unfold build_operation.
  repeat case_match; try done;
    repeat (eapply yields_bind; [first [apply reject_unknown_args_points
      |apply optional_u32_arg_points|apply optional_direction_arg_points
      |apply optional_kind_arg_points|by apply required_string_arg_points
      |by apply required_u32_arg_points]|intros ? _]); done.
Qed.
End Args.

Lemma parse_operation_points segment offset :
  inside (segment, offset) → yields (parse_operation source segment offset) (λ _, True).
Proof.
  intros [H0 H1]. cbn in H0, H1. pose proof (len_nonneg segment). unfold parse_operation.
  destruct (find_byte _ _) as [open|] eqn:Hopen; [|split; [done|cbn; lia]]. cbn [ok_or mbind result_bind].
  destruct (rfind_byte _ _) as [close|] eqn:Hclose; [|split; [done|cbn; lia]].
  cbn [ok_or mbind result_bind]. apply find_byte_lt in Hopen. apply rfind_byte_lt in Hclose.
  unfold len in H1 at 1.
  destruct (_ || _) eqn:Hbad; [split; [done|cbn; lia]|].
  apply orb_false_iff in Hbad as [Hlt%Nat.ltb_ge _].
  eapply yields_bind; [apply parse_args_points|].
  - split; cbn; [lia|]. unfold len at 1. rewrite length_take, length_drop. lia.
  - intros args Hargs. apply build_operation_points; [done|lia|lia].
Qed.

Lemma parse_segments_points segs :
  Forall inside segs → yields (parse_segments source segs) (λ _, True).
Proof.
  induction 1 as [|[seg offset] segs Hs _ IH]; [done|]. cbn [parse_segments].
  destruct Hs as [H0 H1]. cbn in H0, H1. destruct (leading_ws_trim seg) as [L1 L2].
  pose proof (len_nonneg seg). pose proof (len_nonneg (trim seg)).
  case_bool_decide; [split; [done|cbn; lia]|].
  eapply yields_bind; [apply parse_operation_points; split; cbn; lia|]. intros op _.
  eapply yields_bind; [exact IH|done].
Qed.
End Offsets.

(** Every parse error names the source and an offset inside it. *)
Theorem parse_error_points_into_source source e :
  parse_graph_query source = Err e → pe_source e = source ∧ 0 ≤ pe_offset e ≤ len source.
Proof.
  enough (yields source (parse_graph_query source) (λ _, True)) as H by (intros He; by rewrite He in H).
  unfold parse_graph_query, split_pipeline. eapply yields_bind.
  - apply split_pipeline_inside; [lia|done|lia|constructor].
  - intros segs Hsegs. eapply yields_bind; [by apply parse_segments_points|]. intros ops _.
    pose proof (len_nonneg source). case_bool_decide; [split; [done|cbn; lia]|done].
Qed.

Example parse_error_points_into_source_witness :
  parse_graph_query (lit "trail(symbol: 'Foo', deth: 2)") =
    Err {| pe_message := lit "Unknown `deth` argument"; pe_offset := 21;
           pe_source := lit "trail(symbol: 'Foo', deth: 2)" |} ∧ 0 ≤ 21 ≤ 29.
Proof.
  assert (H : parse_graph_query (lit "trail(symbol: 'Foo', deth: 2)") =
    Err {| pe_message := lit "Unknown `deth` argument"; pe_offset := 21;
           pe_source := lit "trail(symbol: 'Foo', deth: 2)" |}) by (by vm_compute).
  split; [exact H|]. exact (proj2 (parse_error_points_into_source _ _ H)).
Defined.

(** ** Nothing is lost by splitting *)
(** The segment is the slice of the source at its offset. *)
Definition slice_of (source : str) (p : str * Z) : Prop :=
  0 ≤ p.2 ∧ take (length p.1) (drop (Z.to_nat p.2) source) = p.1.

Lemma split_pipeline_slices source rest : ∀ idx start seg depth q segs r before,
  split_pipeline_loop source rest idx start seg depth q segs = Ok r →
  source = before ++ seg ++ rest → len before = start → start + len seg = idx →
  join (lit "|") (segs.*1 ++ [seg]) ++ rest = source → Forall (slice_of source) segs →
  join (lit "|") r.*1 = source ∧ Forall (slice_of source) r.
Proof.
  induction rest as [|c rest IH]; intros idx start seg depth q segs r before;
    cbn [split_pipeline_loop].
  { destruct (bool_decide _); [done|]. destruct (0 <? depth); [done|].
    intros [= <-] Hsrc Hb Hidx Hj Hs. rewrite fmap_app. cbn. rewrite app_nil_r in Hj, Hsrc.
    split; [done|]. apply Forall_app. split; [done|]. apply Forall_singleton.
    split; cbn; [pose proof (len_nonneg before); lia|].
    rewrite Hsrc. unfold len in Hb. rewrite drop_app_length' by lia. by rewrite take_ge. }
  assert (Hnext : ∀ depth q,
    split_pipeline_loop source rest (idx + 1) start (seg ++ [c]) depth q segs = Ok r →
    source = before ++ seg ++ c :: rest → len before = start → start + len seg = idx →
    join (lit "|") (segs.*1 ++ [seg]) ++ c :: rest = source → Forall (slice_of source) segs →
    join (lit "|") r.*1 = source ∧ Forall (slice_of source) r).
  { intros depth' q' Hr Hsrc Hb Hidx Hj Hs. eapply (IH _ _ _ _ _ _ _ before Hr); [| |  | |done].
    - by rewrite <- app_assoc.
    - done.
    - rewrite len_app, len_cons, len_nil. lia.
    - rewrite <- Hj. rewrite !join_snoc. destruct (segs.*1); by rewrite <- !app_assoc. }
  destruct (in_literal q c); [apply Hnext|]. destruct (is_quote c); [apply Hnext|].
  destruct (Ascii.eqb c "("); [apply Hnext|]. destruct (Ascii.eqb c ")").
  { destruct (depth - 1 <? 0); [done|apply Hnext]. }
  destruct (Ascii.eqb_spec c "|") as [->|_]; [|apply Hnext].
  destruct (depth =? 0); [|apply Hnext]. cbn [andb].
  intros Hr Hsrc Hb Hidx Hj Hs.
  eapply (IH _ _ _ _ _ _ _ (before ++ seg ++ ["|"%char]) Hr).
  - by rewrite <- !app_assoc.
  - rewrite !len_app, len_cons, len_nil. lia.
  - rewrite len_nil. lia.
  - rewrite fmap_app. cbn [fmap list_fmap fst]. rewrite join_snoc2, <- Hj.
    rewrite <- !app_assoc. by rewrite app_nil_l.
  - apply Forall_app. split; [done|]. apply Forall_singleton. split; cbn.
    + pose proof (len_nonneg before). lia.
    + rewrite Hsrc. unfold len in Hb. rewrite drop_app_length' by lia. by rewrite take_app_length.
Qed.

(** Splitting a pipeline is lossless: the segments joined by bars are the source,
    and each one is the slice of the source at its reported offset. *)
Theorem split_pipeline_lossless source segs :
  split_pipeline source = Ok segs →
  join (lit "|") segs.*1 = source ∧ Forall (slice_of source) segs.
Proof.
  intros Hs. apply (split_pipeline_slices source source 0 0 [] 0 unquoted [] segs []); done.
Qed.

Example split_pipeline_lossless_witness :
  split_pipeline (lit "symbol('a|b') | limit(1)") =
    Ok [(lit "symbol('a|b') ", 0); (lit " limit(1)", 15)] ∧
  join (lit "|") [lit "symbol('a|b') "; lit " limit(1)"] = lit "symbol('a|b') | limit(1)".
Proof.
  assert (H : split_pipeline (lit "symbol('a|b') | limit(1)") =
    Ok [(lit "symbol('a|b') ", 0); (lit " limit(1)", 15)]) by (by vm_compute).
  split; [exact H|]. exact (proj1 (split_pipeline_lossless _ _ H)).
Defined.

(** ** Running a query *)
Section RunProperties.
Context {Src ApiError : Type} `{!QuerySource Src ApiError}.
Implicit Types (s : Src) (items : list BrowserQueryItem) (op : GraphQueryOperation).

Definition is_producer op : Prop :=
  match op with QTrail _ | QSymbol _ | QSearch _ => True | _ => False end.
Definition is_modifier op : Prop := ¬ is_producer op.

(** What a filter or a limit guarantees of the items after it. *)
Definition meets op items : Prop :=
  match op with
  | QFilter f => Forall (λ i, query_item_matches_filter i f = true) items
  | QLimit l => len items ≤ Z.max 0 (lq_count l)
  | _ => True
  end.

Lemma list_filter_sublist {A} (f : A → bool) l : List.filter f l `sublist_of` l.
Proof.
  induction l as [|x l IH]; cbn; [constructor|]. destruct (f x); by constructor.
Qed.

Lemma meets_sublist op l1 l2 : l1 `sublist_of` l2 → meets op l2 → meets op l1.
Proof.
  intros Hs. destruct op; cbn; try done.
  - rewrite !Forall_forall. intros Hf i Hi. apply Hf. by apply (sublist_subseteq _ _ Hs).
  - apply sublist_length in Hs. unfold len. lia.
Qed.

Lemma modifier_step s op items :
  is_modifier op → ∃ items', query_step s op items = Ok items' ∧
    items' `sublist_of` items ∧ meets op items'.
Proof.
  intros Hm. destruct op as [q|q|q|f|l]; try (exfalso; by apply Hm); cbn.
  - eexists. split; [done|]. split; [apply list_filter_sublist|].
    apply Forall_forall. intros i Hi%list_elem_of_In. by apply filter_In in Hi as [_ ?].
  - eexists. split; [done|]. split; [apply sublist_take|].
    unfold len. rewrite length_take. lia.
Qed.

Lemma query_ops_app s ops1 ops2 items :
  query_ops s (ops1 ++ ops2) items = items' ← query_ops s ops1 items; query_ops s ops2 items'.
Proof.
  revert items. induction ops1 as [|op ops1 IH]; intros items; [done|]. cbn.
  destruct (query_step s op items); [apply IH|done].
Qed.

Lemma modifiers_run s ops items :
  Forall is_modifier ops → ∃ items', query_ops s ops items = Ok items' ∧
    items' `sublist_of` items ∧ Forall (λ op, meets op items') ops.
Proof.
  intros Hm. revert items. induction Hm as [|op ops Hop _ IH]; intros items; [by exists items|].
  destruct (modifier_step s op items Hop) as (i1 & Hi1 & Hs1 & Hm1).
  destruct (IH i1) as (i2 & Hi2 & Hs2 & Hm2). exists i2. cbn. rewrite Hi1. split; [done|].
  split; [by etransitivity|]. constructor; [|done]. by eapply meets_sublist.
Qed.

(** A query returns what its last producing operation found, in the same order,
    restricted to the items every later filter accepts and to at most as many as every
    later limit allows; and it fails only when a producing operation fails. *)
Theorem query_once_result s pre op mods items :
  is_producer op → Forall is_modifier mods → query_ops s pre [] = Ok items →
  match query_step s op items with
  | Err e => query_once s {| operations := pre ++ op :: mods |} = Err e
  | Ok produced => ∃ r, query_once s {| operations := pre ++ op :: mods |} = Ok r ∧
      r `sublist_of` produced ∧ Forall (λ m, meets m r) mods
  end.
Proof.
  intros _ Hm Hpre. unfold query_once. cbn [operations]. rewrite query_ops_app, Hpre. cbn.
  destruct (query_step s op items) as [produced|e]; [|done]. by apply modifiers_run.
Qed.
End RunProperties.

(** A source with two fixed search hits. *)
Module RunSample.
Definition item (kind : NodeKind) (depth : option Z) : BrowserQueryItem :=
  mkBrowserQueryItem (lit "1") (lit "f") kind (Some (lit "src/lib.rs")) None depth (lit "search").
#[export] Instance source : QuerySource () str := {
  query_trail_items _ _ := Err (lit "no graph");
  query_symbol_items _ _ := Err (lit "no symbol");
  query_search_items _ _ := Ok [item NodeKind.FUNCTION None; item NodeKind.FILE None;
                                item NodeKind.FUNCTION (Some 4)];
}.
Definition hits := QSearch (mkSearchQuery (lit "f")).
Definition functions := QFilter (mkFilterQuery (Some NodeKind.FUNCTION) None None).
End RunSample.
Import RunSample.

Example query_once_result_witness :
  ∃ r, query_once (Src := ()) (ApiError := str) tt
      {| operations := [RunSample.hits; RunSample.functions; QLimit (mkLimitQuery 1)] |} = Ok r ∧
    len r ≤ 1.
Proof.
  destruct (query_once_result (Src := ()) (ApiError := str) tt [] RunSample.hits
    [RunSample.functions; QLimit (mkLimitQuery 1)] []) as (r & Hr & _ & Hm).
  - exact I.
  - constructor; [intros []|]. constructor; [intros []|constructor].
  - reflexivity.
  - exists r. split; [exact Hr|]. inversion Hm as [|? ? _ Hl]. inversion Hl as [|? ? Hlen]. exact Hlen.
Defined.
