(* ===== verification/Admission.v ===== *)
(** * Embedding admission (codestory-llama-sys/src/admission.rs)

    The lifecycle of one embedding request, an atomic byte shared by the client's
    handle and the engine's worker, and the tracker of the engine: the active
    requests, the leases and the counters behind its mutex.

    Each tracker operation runs under the mutex and is a function on its state.  The
    lifecycle operations are single compare-exchanges, except [cancel], whose retry
    loop is modelled with the writes of other threads between its attempts. *)
From S2P Require Import Prelude RustStr.

(** ** Labels *)
Module EmbeddingRequestClass.
Inductive EmbeddingRequestClass : Set := Query | Bulk.
End EmbeddingRequestClass.
Abbreviation EmbeddingRequestClass := EmbeddingRequestClass.EmbeddingRequestClass.
#[export] Instance EmbeddingRequestClass_eq_dec : EqDecision EmbeddingRequestClass.
Proof. solve_decision. Defined.

Definition request_class_as_str (c : EmbeddingRequestClass) : str :=
  match c with
  | EmbeddingRequestClass.Query => lit "query"
  | EmbeddingRequestClass.Bulk => lit "bulk"
  end.

Inductive EmbeddingOwnerState : Set := Unloaded | Waking | Ready | Sleeping | Draining.
#[export] Instance EmbeddingOwnerState_eq_dec : EqDecision EmbeddingOwnerState.
Proof. solve_decision. Defined.
Definition owner_state_as_str (s : EmbeddingOwnerState) : str :=
  match s with
  | Unloaded => lit "unloaded" | Waking => lit "waking" | Ready => lit "ready"
  | Sleeping => lit "sleeping" | Draining => lit "draining"
  end.

Inductive EmbeddingCapacityReason : Set :=
| QueueFull | DeadlineElapsed | OwnerDraining | OwnerUnresponsive.
#[export] Instance EmbeddingCapacityReason_eq_dec : EqDecision EmbeddingCapacityReason.
Proof. solve_decision. Defined.
Definition capacity_reason_as_str (r : EmbeddingCapacityReason) : str :=
  match r with
  | QueueFull => lit "queue_full" | DeadlineElapsed => lit "deadline_elapsed"
  | OwnerDraining => lit "owner_draining" | OwnerUnresponsive => lit "owner_unresponsive"
  end.

Definition EMBEDDING_QUERY_QUEUE_CAPACITY : Z := 64.
Definition EMBEDDING_BULK_QUEUE_CAPACITY : Z := 64.

(** ** Request lifecycle *)
Module RequestLifecycle.
Inductive RequestLifecycle : Set := Queued | Active | Committed | Cancelled.
End RequestLifecycle.
Abbreviation RequestLifecycle := RequestLifecycle.RequestLifecycle.
#[export] Instance RequestLifecycle_eq_dec : EqDecision RequestLifecycle.
Proof. solve_decision. Defined.

(** A context: its identity and the address of the cells its clones share. *)
Record EmbeddingRequestContext : Type := mkEmbeddingRequestContext {
  request_id : str;
  scope_id : str;
  retry_after_ms : Z;
  cell : nat;
}.
#[export] Instance EmbeddingRequestContext_eq_dec : EqDecision EmbeddingRequestContext.
Proof. solve_decision. Defined.

(** The shared cells: [Arc<AtomicU8>] and [Arc<AtomicU64>]. *)
Record RequestCell : Type := mkRequestCell {
  lifecycle : RequestLifecycle;
  completed_tokens : Z;
}.
Definition new_cell : RequestCell :=
  {| lifecycle := RequestLifecycle.Queued; completed_tokens := 0 |}.
Definition set_lifecycle (l : RequestLifecycle) (c : RequestCell) : RequestCell :=
  {| lifecycle := l; completed_tokens := completed_tokens c |}.

(** [compare_exchange]: the new cell and whether the exchange happened. *)
Definition compare_exchange (expected new : RequestLifecycle) (c : RequestCell)
  : RequestCell * bool :=
  if decide (lifecycle c = expected) then (set_lifecycle new c, true) else (c, false).

Definition activate : RequestCell → RequestCell * bool :=
  compare_exchange RequestLifecycle.Queued RequestLifecycle.Active.
Definition commit : RequestCell → RequestCell * bool :=
  compare_exchange RequestLifecycle.Active RequestLifecycle.Committed.
Definition is_cancelled (c : RequestCell) : bool :=
  bool_decide (lifecycle c = RequestLifecycle.Cancelled).
Definition record_completed_tokens (n : Z) (c : RequestCell) : RequestCell :=
  {| lifecycle := lifecycle c; completed_tokens := n |}.
Definition context_phase (c : RequestCell) : str :=
  match lifecycle c with
  | RequestLifecycle.Queued => lit "queued"
  | RequestLifecycle.Active => lit "native_execution"
  | RequestLifecycle.Committed => lit "committed"
  | RequestLifecycle.Cancelled => lit "cancelled"
  end.

Definition terminal (l : RequestLifecycle) : bool :=
  match l with
  | RequestLifecycle.Committed | RequestLifecycle.Cancelled => true
  | _ => false
  end.

(** What happens at one attempt of the [cancel] loop before its exchange: the write of
    another thread, and whether the weak exchange fails spuriously. *)
Record Interference : Type := mkInterference {
  other_write : RequestCell → RequestCell;
  spurious : bool;
}.

(** The loop of [cancel]: one entry of the schedule per attempt, [None] when the
    schedule ends before the loop does. *)
Fixpoint cancel_loop (schedule : list Interference) (current : RequestLifecycle)
    (c : RequestCell) : option (RequestCell * bool) :=
  if terminal current then Some (c, false)
  else
    match schedule with
    | [] => None
    | i :: schedule =>
        let c := other_write i c in
        if negb (spurious i) && bool_decide (lifecycle c = current)
        then Some (set_lifecycle RequestLifecycle.Cancelled c, true)
        else cancel_loop schedule (lifecycle c) c
    end.
Definition cancel_with (schedule : list Interference) (c : RequestCell)
  : option (RequestCell * bool) := cancel_loop schedule (lifecycle c) c.

(** [cancel] without interference, as one step. *)
Definition cancel (c : RequestCell) : RequestCell * bool :=
  if terminal (lifecycle c) then (c, false)
  else (set_lifecycle RequestLifecycle.Cancelled c, true).

(** ** The tracker *)
Record ActiveRequest : Type := mkActiveRequest {
  active_context : EmbeddingRequestContext;
  active_class : EmbeddingRequestClass;
  active_phase : str;
}.

Record AdmissionState : Type := mkAdmissionState {
  owner_state : EmbeddingOwnerState;
  active : list ActiveRequest;
  lease_count : Z;
  event_sequence : Z;
  progress_sequence : Z;
  query_progress_sequence : Z;
  bulk_progress_sequence : Z;
  completed_request_count : Z;
  cancelled_request_count : Z;
  failed_request_count : Z;
}.

Definition default_admission : AdmissionState :=
  {| owner_state := Waking; active := []; lease_count := 0; event_sequence := 0;
     progress_sequence := 0; query_progress_sequence := 0; bulk_progress_sequence := 0;
     completed_request_count := 0; cancelled_request_count := 0; failed_request_count := 0 |}.

Definition bump (n : Z) : Z := saturating_add u64_max n 1.

(** [state.event_sequence = state.event_sequence.saturating_add(1)]. *)
Definition record_event (s : AdmissionState) : AdmissionState :=
  {| owner_state := owner_state s; active := active s; lease_count := lease_count s;
     event_sequence := bump (event_sequence s); progress_sequence := progress_sequence s;
     query_progress_sequence := query_progress_sequence s;
     bulk_progress_sequence := bulk_progress_sequence s;
     completed_request_count := completed_request_count s;
     cancelled_request_count := cancelled_request_count s;
     failed_request_count := failed_request_count s |}.

Definition record_progress (s : AdmissionState) (c : EmbeddingRequestClass) : AdmissionState :=
  {| owner_state := owner_state s; active := active s; lease_count := lease_count s;
     event_sequence := event_sequence s; progress_sequence := bump (progress_sequence s);
     query_progress_sequence :=
       match c with
       | EmbeddingRequestClass.Query => bump (query_progress_sequence s)
       | EmbeddingRequestClass.Bulk => query_progress_sequence s
       end;
     bulk_progress_sequence :=
       match c with
       | EmbeddingRequestClass.Query => bulk_progress_sequence s
       | EmbeddingRequestClass.Bulk => bump (bulk_progress_sequence s)
       end;
     completed_request_count := completed_request_count s;
     cancelled_request_count := cancelled_request_count s;
     failed_request_count := failed_request_count s |}.

Definition with_owner_state (o : EmbeddingOwnerState) (s : AdmissionState) : AdmissionState :=
  {| owner_state := o; active := active s; lease_count := lease_count s;
     event_sequence := event_sequence s; progress_sequence := progress_sequence s;
     query_progress_sequence := query_progress_sequence s;
     bulk_progress_sequence := bulk_progress_sequence s;
     completed_request_count := completed_request_count s;
     cancelled_request_count := cancelled_request_count s;
     failed_request_count := failed_request_count s |}.
Definition with_active (l : list ActiveRequest) (s : AdmissionState) : AdmissionState :=
  {| owner_state := owner_state s; active := l; lease_count := lease_count s;
     event_sequence := event_sequence s; progress_sequence := progress_sequence s;
     query_progress_sequence := query_progress_sequence s;
     bulk_progress_sequence := bulk_progress_sequence s;
     completed_request_count := completed_request_count s;
     cancelled_request_count := cancelled_request_count s;
     failed_request_count := failed_request_count s |}.
Definition with_lease_count (n : Z) (s : AdmissionState) : AdmissionState :=
  {| owner_state := owner_state s; active := active s; lease_count := n;
     event_sequence := event_sequence s; progress_sequence := progress_sequence s;
     query_progress_sequence := query_progress_sequence s;
     bulk_progress_sequence := bulk_progress_sequence s;
     completed_request_count := completed_request_count s;
     cancelled_request_count := cancelled_request_count s;
     failed_request_count := failed_request_count s |}.
Definition with_counts (completed cancelled failed : Z) (s : AdmissionState) : AdmissionState :=
  {| owner_state := owner_state s; active := active s; lease_count := lease_count s;
     event_sequence := event_sequence s; progress_sequence := progress_sequence s;
     query_progress_sequence := query_progress_sequence s;
     bulk_progress_sequence := bulk_progress_sequence s;
     completed_request_count := completed; cancelled_request_count := cancelled;
     failed_request_count := failed |}.

Definition set_owner_state (s : AdmissionState) (o : EmbeddingOwnerState) : AdmissionState :=
  record_event (with_owner_state o s).

Definition count_cancelled (s : AdmissionState) : AdmissionState :=
  record_event (with_counts (completed_request_count s) (bump (cancelled_request_count s))
                  (failed_request_count s) s).

(** [begin]: the lifecycle step first, then the tracker. *)
Definition begin (s : AdmissionState) (c : RequestCell) (ctx : EmbeddingRequestContext)
    (class : EmbeddingRequestClass) : AdmissionState * RequestCell * bool :=
  let '(c, activated) := activate c in
  if negb activated then (count_cancelled s, c, false)
  else
    let entry := {| active_context := ctx; active_class := class;
                    active_phase := lit "native_execution" |} in
    let s := with_active (active s ++ [entry]) s in
    (record_progress (record_event s) class, c, true).

Definition progress (s : AdmissionState) (class : EmbeddingRequestClass) : AdmissionState :=
  record_progress (record_event s) class.

(** [rposition] and [remove] of the entry with the request id. *)
Fixpoint remove_last (id : str) (l : list ActiveRequest) : option (list ActiveRequest) :=
  match l with
  | [] => None
  | a :: l =>
      match remove_last id l with
      | Some l' => Some (a :: l')
      | None => if str_eqb (request_id (active_context a)) id then Some l else None
      end
  end.

Definition finish (s : AdmissionState) (ctx : EmbeddingRequestContext)
    (class : EmbeddingRequestClass) (succeeded cancelled : bool) : AdmissionState * Z :=
  let s := match remove_last (request_id ctx) (active s) with
           | Some l => with_active l s
           | None => s
           end in
  let s :=
    if cancelled
    then with_counts (completed_request_count s) (bump (cancelled_request_count s))
           (failed_request_count s) s
    else if succeeded
    then with_counts (bump (completed_request_count s)) (cancelled_request_count s)
           (failed_request_count s) s
    else with_counts (completed_request_count s) (cancelled_request_count s)
           (bump (failed_request_count s)) s in
  let s := record_progress (record_event s) class in
  (s, completed_request_count s).

Definition lease_acquired (s : AdmissionState) : AdmissionState :=
  record_event (with_lease_count (saturating_add usize_max (lease_count s) 1) s).
Definition lease_released (s : AdmissionState) : AdmissionState :=
  record_event (with_lease_count (saturating_sub (lease_count s) 1) s).

(** ** What clients see *)
Record EmbeddingCapacityPressure : Type := mkEmbeddingCapacityPressure {
  cp_reason : EmbeddingCapacityReason;
  cp_request_class : EmbeddingRequestClass;
  cp_capacity : Z;
  cp_depth : Z;
  cp_retry_after_ms : Z;
  cp_retry_condition : str;
  cp_owner_state : EmbeddingOwnerState;
  cp_active_scope_id : option str;
  cp_active_request_id : option str;
  cp_active_request_class : option EmbeddingRequestClass;
}.

Record EmbeddingActiveRequestSnapshot : Type := mkEmbeddingActiveRequestSnapshot {
  ars_request_id : str;
  ars_scope_id : str;
  ars_request_class : EmbeddingRequestClass;
  ars_phase : str;
}.

Record EmbeddingAdmissionSnapshot : Type := mkEmbeddingAdmissionSnapshot {
  as_owner_state : EmbeddingOwnerState;
  as_query_capacity : Z;
  as_query_depth : Z;
  as_bulk_capacity : Z;
  as_bulk_depth : Z;
  as_active_request_count : Z;
  as_lease_count : Z;
  as_active_request : option EmbeddingActiveRequestSnapshot;
  as_event_sequence : Z;
  as_progress_sequence : Z;
  as_query_progress_sequence : Z;
  as_bulk_progress_sequence : Z;
  as_completed_request_count : Z;
  as_cancelled_request_count : Z;
  as_failed_request_count : Z;
}.

Definition pressure (s : AdmissionState) (reason : EmbeddingCapacityReason)
    (class : EmbeddingRequestClass) (query_depth bulk_depth retry_after : Z)
    (retry_condition : str) : EmbeddingCapacityPressure :=
  let current := last (active s) in
  let '(capacity, depth) :=
    match class with
    | EmbeddingRequestClass.Query => (EMBEDDING_QUERY_QUEUE_CAPACITY, query_depth)
    | EmbeddingRequestClass.Bulk => (EMBEDDING_BULK_QUEUE_CAPACITY, bulk_depth)
    end in
  {| cp_reason := reason; cp_request_class := class; cp_capacity := capacity;
     cp_depth := depth; cp_retry_after_ms := retry_after;
     cp_retry_condition := retry_condition; cp_owner_state := owner_state s;
     cp_active_scope_id := (λ a, scope_id (active_context a)) <$> current;
     cp_active_request_id := (λ a, request_id (active_context a)) <$> current;
     cp_active_request_class := active_class <$> current |}.

Definition snapshot (s : AdmissionState) (query_depth bulk_depth : Z)
  : EmbeddingAdmissionSnapshot :=
  {| as_owner_state := owner_state s;
     as_query_capacity := EMBEDDING_QUERY_QUEUE_CAPACITY; as_query_depth := query_depth;
     as_bulk_capacity := EMBEDDING_BULK_QUEUE_CAPACITY; as_bulk_depth := bulk_depth;
     as_active_request_count := len (active s); as_lease_count := lease_count s;
     as_active_request :=
       (λ a, {| ars_request_id := request_id (active_context a);
                ars_scope_id := scope_id (active_context a);
                ars_request_class := active_class a; ars_phase := active_phase a |})
       <$> last (active s);
     as_event_sequence := event_sequence s; as_progress_sequence := progress_sequence s;
     as_query_progress_sequence := query_progress_sequence s;
     as_bulk_progress_sequence := bulk_progress_sequence s;
     as_completed_request_count := completed_request_count s;
     as_cancelled_request_count := cancelled_request_count s;
     as_failed_request_count := failed_request_count s |}.

(** * Properties *)

(** ** One winner *)
Inductive LifecycleOp : Set := OpActivate | OpCommit | OpCancel | OpRecordTokens (n : Z).

Definition run_op (op : LifecycleOp) (c : RequestCell) : RequestCell * bool :=
  match op with
  | OpActivate => activate c
  | OpCommit => commit c
  | OpCancel => cancel c
  | OpRecordTokens n => (record_completed_tokens n c, false)
  end.

(** The operations that took effect, in order. *)
Fixpoint effects (ops : list LifecycleOp) (c : RequestCell) : list LifecycleOp :=
  match ops with
  | [] => []
  | op :: ops =>
      let '(c, ok) := run_op op c in
      if ok then op :: effects ops c else effects ops c
  end.
Fixpoint run_ops (ops : list LifecycleOp) (c : RequestCell) : RequestCell :=
  match ops with
  | [] => c
  | op :: ops => run_ops ops (run_op op c).1
  end.

Lemma activate_queued n :
  activate (mkRequestCell RequestLifecycle.Queued n) = (mkRequestCell RequestLifecycle.Active n, true).
Proof. reflexivity. Qed.
Lemma commit_active n :
  commit (mkRequestCell RequestLifecycle.Active n) = (mkRequestCell RequestLifecycle.Committed n, true).
Proof. reflexivity. Qed.
Lemma activate_other c : lifecycle c ≠ RequestLifecycle.Queued → activate c = (c, false).
Proof. intros Hc. unfold activate, compare_exchange. by rewrite decide_False. Qed.
Lemma commit_other c : lifecycle c ≠ RequestLifecycle.Active → commit c = (c, false).
Proof. intros Hc. unfold commit, compare_exchange. by rewrite decide_False. Qed.

Lemma effects_terminal ops c : terminal (lifecycle c) = true →
  effects ops c = [] ∧ lifecycle (run_ops ops c) = lifecycle c.
Proof.
  revert c. induction ops as [|op ops IH]; intros [l n] Hc; [done|]. cbn in Hc.
  destruct op; cbn; unfold activate, commit, compare_exchange, cancel; cbn;
    destruct l; try done; cbn; by apply IH.
Qed.

(** [C37] Cancellation and commit have one winner: whatever operations the client and
    the worker issue and in whatever order, those that take effect on a queued request
    are a prefix of activate-commit, possibly ended by a single cancel instead, and the
    final phase is the one of the last effective operation. *)
Theorem lifecycle_one_winner ops c :
  lifecycle c = RequestLifecycle.Queued →
  (effects ops c, lifecycle (run_ops ops c)) ∈
    [([], RequestLifecycle.Queued);
     ([OpActivate], RequestLifecycle.Active);
     ([OpActivate; OpCommit], RequestLifecycle.Committed);
     ([OpCancel], RequestLifecycle.Cancelled);
     ([OpActivate; OpCancel], RequestLifecycle.Cancelled)].
Proof.
  assert (Hactive : ∀ ops c, lifecycle c = RequestLifecycle.Active →
    (effects ops c, lifecycle (run_ops ops c)) ∈
      [([], RequestLifecycle.Active); ([OpCommit], RequestLifecycle.Committed);
       ([OpCancel], RequestLifecycle.Cancelled)]).
  { clear. intros ops. induction ops as [|op ops IH]; intros [l n] Hc; cbn in Hc; subst l; [by left|].
    destruct op; cbn; rewrite ?commit_active; cbn; [by apply IH| | |by apply IH].
    - destruct (effects_terminal ops (mkRequestCell RequestLifecycle.Committed n)) as [-> ->]; [done|].
      right. by left.
    - unfold set_lifecycle. cbn.
      destruct (effects_terminal ops (mkRequestCell RequestLifecycle.Cancelled n)) as [-> ->]; [done|].
      right. right. by left. }
  revert c. induction ops as [|op ops IH]; intros [l n] Hc; cbn in Hc; subst l; [by left|].
  destruct op; cbn; rewrite ?activate_queued; cbn; [|by apply IH| |by apply IH].
  - specialize (Hactive ops (mkRequestCell RequestLifecycle.Active n) eq_refl).
    rewrite !elem_of_cons, elem_of_nil in Hactive.
    destruct Hactive as [[= -> ->]|[[= -> ->]|[[= -> ->]|[]]]];
      rewrite !elem_of_cons; auto 10.
  - unfold set_lifecycle. cbn.
    destruct (effects_terminal ops (mkRequestCell RequestLifecycle.Cancelled n)) as [-> ->]; [done|].
    rewrite !elem_of_cons. auto.
Qed.

Example lifecycle_one_winner_witness :
  effects [OpActivate; OpCancel; OpCommit; OpCancel] new_cell = [OpActivate; OpCancel] ∧
  (effects [OpActivate; OpCancel; OpCommit; OpCancel] new_cell,
   lifecycle (run_ops [OpActivate; OpCancel; OpCommit; OpCancel] new_cell)) ∈
    [([], RequestLifecycle.Queued);
     ([OpActivate], RequestLifecycle.Active);
     ([OpActivate; OpCommit], RequestLifecycle.Committed);
     ([OpCancel], RequestLifecycle.Cancelled);
     ([OpActivate; OpCancel], RequestLifecycle.Cancelled)].
Proof. split; [reflexivity|]. exact (lifecycle_one_winner _ new_cell eq_refl). Defined.

(** ** The cancel loop *)

(** The phases only move forward. *)
Definition phase_rank (l : RequestLifecycle) : nat :=
  match l with
  | RequestLifecycle.Queued => 0
  | RequestLifecycle.Active => 1
  | _ => 2
  end.

(** Writes the other threads can make: any operation of the lifecycle. *)
Definition lifecycle_write (f : RequestCell → RequestCell) : Prop :=
  ∃ op, ∀ c, f c = (run_op op c).1.

Lemma run_op_forward op c : (phase_rank (lifecycle c) ≤ phase_rank (lifecycle (run_op op c).1))%nat ∧
  (lifecycle (run_op op c).1 = lifecycle c ∨
   (phase_rank (lifecycle c) < phase_rank (lifecycle (run_op op c).1))%nat).
Proof.
  destruct c as [[] n], op; cbn; rewrite ?activate_queued, ?commit_active,
    ?activate_other, ?commit_other by done; cbn; auto with lia.
Qed.

Definition genuine (i : Interference) : bool := negb (spurious i).
Definition after_writes (schedule : list Interference) (c : RequestCell) : RequestCell :=
  foldl (λ c i, other_write i c) c schedule.

Lemma cancel_loop_linear schedule : ∀ c,
  Forall (λ i, lifecycle_write (other_write i)) schedule →
  (2 - phase_rank (lifecycle c) ≤ length (List.filter genuine schedule))%nat →
  ∃ n, cancel_loop schedule (lifecycle c) c = Some (cancel (after_writes (take n schedule) c)).
Proof.
  induction schedule as [|i schedule IH]; intros c Hw Hn.
  { exists 0%nat. cbn in *. unfold cancel. destruct c as [[] n]; cbn in *; [lia|lia|done|done]. }
  apply Forall_cons in Hw as [[op Hop] Hw]. cbn [cancel_loop].
  destruct (terminal (lifecycle c)) eqn:Ht.
  { exists 0%nat. cbn. unfold cancel. by rewrite Ht. }
  pose proof (run_op_forward op c) as [Hle Hstep]. rewrite <- Hop in Hle, Hstep.
  destruct (genuine i) eqn:Hg; [destruct (bool_decide (lifecycle (other_write i c) = lifecycle c)) eqn:Hb|].
  - unfold genuine in Hg. rewrite Hg. cbn [andb]. exists 1%nat. cbn.
    apply bool_decide_eq_true in Hb. unfold after_writes. cbn. unfold cancel.
    rewrite take_0. cbn. by rewrite Hb, Ht.
  - rewrite andb_false_r. apply bool_decide_eq_false in Hb.
    destruct Hstep as [?|Hlt]; [done|]. cbn in Hn. rewrite Hg in Hn. cbn in Hn.
    destruct (IH (other_write i c) Hw) as [n Hn']; [lia|]. by exists (S n).
  - unfold genuine in Hg. rewrite Hg. cbn [andb]. cbn in Hn. unfold genuine in Hn at 1.
    rewrite Hg in Hn. destruct (IH (other_write i c) Hw) as [n Hn']; [lia|]. by exists (S n).
Qed.

(** The cancel loop is lock-free and linearizable: against any writes of the other
    threads it ends after at most two genuine attempts, and its result is the one of
    an atomic cancel at one point between those writes. *)
Theorem cancel_loop_linearizable schedule c :
  Forall (λ i, lifecycle_write (other_write i)) schedule →
  (2 ≤ length (List.filter genuine schedule))%nat →
  ∃ n, cancel_with schedule c = Some (cancel (after_writes (take n schedule) c)).
Proof. intros Hw Hn. apply cancel_loop_linear; [done|]. lia. Qed.

Example cancel_loop_linearizable_witness :
  let schedule := [mkInterference (λ c, (activate c).1) false;
                   mkInterference (record_completed_tokens 7) true;
                   mkInterference (λ c, (commit c).1) false] in
  cancel_with schedule new_cell = Some (mkRequestCell RequestLifecycle.Committed 7, false) ∧
  ∃ n, cancel_with schedule new_cell = Some (cancel (after_writes (take n schedule) new_cell)).
Proof.
  cbn zeta. split; [reflexivity|]. apply cancel_loop_linearizable.
  - constructor; [by exists OpActivate|]. constructor; [by exists (OpRecordTokens 7)|].
    constructor; [by exists OpCommit|constructor].
  - cbn. lia.
Defined.

(** ** Accounting *)
Definition active_entry (ctx : EmbeddingRequestContext) (class : EmbeddingRequestClass)
  : ActiveRequest :=
  {| active_context := ctx; active_class := class; active_phase := lit "native_execution" |}.

Lemma begin_queued s n ctx class :
  begin s (mkRequestCell RequestLifecycle.Queued n) ctx class =
    (progress (with_active (active s ++ [active_entry ctx class]) s) class,
     mkRequestCell RequestLifecycle.Active n, true).
Proof. reflexivity. Qed.
Lemma begin_refused s c ctx class :
  lifecycle c ≠ RequestLifecycle.Queued →
  begin s c ctx class = (count_cancelled s, c, false).
Proof. intros Hc. unfold begin. by rewrite activate_other. Qed.

(** The operations of the tracker, with the lifecycle outcome [begin] observed. *)
Inductive TrackerOp : Type :=
| TSetOwner (o : EmbeddingOwnerState)
| TBegin (activated : bool) (ctx : EmbeddingRequestContext) (class : EmbeddingRequestClass)
| TProgress (class : EmbeddingRequestClass)
| TFinish (ctx : EmbeddingRequestContext) (class : EmbeddingRequestClass) (succeeded cancelled : bool)
| TCancelled
| TLeaseAcquired
| TLeaseReleased.

Definition tracker_step (s : AdmissionState) (op : TrackerOp) : AdmissionState :=
  match op with
  | TSetOwner o => set_owner_state s o
  | TBegin activated ctx class =>
      (begin s (mkRequestCell (if activated then RequestLifecycle.Queued
                               else RequestLifecycle.Cancelled) 0) ctx class).1.1
  | TProgress class => progress s class
  | TFinish ctx class succeeded cancelled => (finish s ctx class succeeded cancelled).1
  | TCancelled => count_cancelled s
  | TLeaseAcquired => lease_acquired s
  | TLeaseReleased => lease_released s
  end.

Definition settles (op : TrackerOp) : bool :=
  match op with TFinish _ _ _ _ | TCancelled | TBegin false _ _ => true | _ => false end.
Definition progresses (op : TrackerOp) : bool :=
  match op with TBegin true _ _ | TProgress _ | TFinish _ _ _ _ => true | _ => false end.
Definition count (f : TrackerOp → bool) (ops : list TrackerOp) : Z := len (List.filter f ops).

Lemma count_cons f op ops : count f (op :: ops) = (if f op then 1 else 0) + count f ops.
Proof. unfold count. cbn. destruct (f op); [by rewrite len_cons|lia]. Qed.

Definition settled (s : AdmissionState) : Z :=
  completed_request_count s + cancelled_request_count s + failed_request_count s.

(** Counters below the width limit. *)
Record small_counters (n : Z) (s : AdmissionState) : Prop := {
  sc_event : 0 ≤ event_sequence s ≤ n;
  sc_progress : 0 ≤ progress_sequence s ≤ n;
  sc_query : 0 ≤ query_progress_sequence s ≤ n;
  sc_bulk : 0 ≤ bulk_progress_sequence s ≤ n;
  sc_completed : 0 ≤ completed_request_count s ≤ n;
  sc_cancelled : 0 ≤ cancelled_request_count s ≤ n;
  sc_failed : 0 ≤ failed_request_count s ≤ n;
}.

Lemma bump_small n : n < u64_max → bump n = n + 1.
Proof. unfold bump, saturating_add. lia. Qed.

Lemma tracker_step_counts n s op :
  small_counters n s → n < u64_max →
  small_counters (n + 1) (tracker_step s op) ∧
  event_sequence (tracker_step s op) = event_sequence s + 1 ∧
  settled (tracker_step s op) = settled s + (if settles op then 1 else 0) ∧
  progress_sequence (tracker_step s op) = progress_sequence s + (if progresses op then 1 else 0) ∧
  query_progress_sequence (tracker_step s op) + bulk_progress_sequence (tracker_step s op)
    = query_progress_sequence s + bulk_progress_sequence s + (if progresses op then 1 else 0).
Proof.
  intros [? ? ? ? ? ? ?] Hn. unfold settled.
  assert (Hb : ∀ m, 0 ≤ m ≤ n → bump m = m + 1) by (intros; apply bump_small; lia).
  destruct op as [o|[] ctx []|[]|ctx [] [] []| | |]; cbn [tracker_step];
    rewrite ?begin_queued, ?begin_refused by done; cbn; try (destruct (remove_last _ _); cbn);
    rewrite ?Hb by lia; (split; [split; cbn; rewrite ?Hb by lia; lia|]);
    cbn; rewrite ?Hb by lia; lia.
Qed.

(** Accounting of the tracker: over any history shorter than the counters' width,
    the event counter counts every operation, every settled request (finished, pruned
    or refused because it was cancelled) is in exactly one of the completed, cancelled
    and failed counters, and the progress counter is the sum of its two classes. *)
Theorem tracker_accounting ops :
  len ops ≤ u64_max →
  let s := foldl tracker_step default_admission ops in
  event_sequence s = len ops ∧ settled s = count settles ops ∧
  progress_sequence s = count progresses ops ∧
  query_progress_sequence s + bulk_progress_sequence s = count progresses ops.
Proof.
  assert (Hgen : ∀ ops n s, small_counters n s → n + len ops ≤ u64_max →
    let s' := foldl tracker_step s ops in
    event_sequence s' = event_sequence s + len ops ∧ settled s' = settled s + count settles ops ∧
    progress_sequence s' = progress_sequence s + count progresses ops ∧
    query_progress_sequence s' + bulk_progress_sequence s'
      = query_progress_sequence s + bulk_progress_sequence s + count progresses ops).
  { clear. induction ops as [|op ops IH]; intros n s Hs Hn; cbn [foldl].
    { unfold count. cbn. rewrite !Z.add_0_r. done. }
    rewrite len_cons in *. pose proof (len_nonneg ops). rewrite !count_cons.
    destruct (tracker_step_counts n s op Hs) as (Hs' & H1 & H2 & H3 & H4); [lia|].
    destruct (IH (n + 1) _ Hs') as (I1 & I2 & I3 & I4); [lia|]. lia. }
  intros Hn. destruct (Hgen ops 0 default_admission) as (H1 & H2 & H3 & H4); [|done|].
  { by split; cbn. }
  cbn in H1, H2, H3, H4. split; [exact H1|]. done.
Qed.

Example tracker_accounting_witness :
  let ctx := mkEmbeddingRequestContext (lit "r") (lit "s") 25 0 in
  let ops := [TSetOwner Ready; TBegin true ctx EmbeddingRequestClass.Query;
              TProgress EmbeddingRequestClass.Query; TCancelled;
              TFinish ctx EmbeddingRequestClass.Query true false] in
  len ops ≤ u64_max ∧ settled (foldl tracker_step default_admission ops) = 2.
Proof.
  cbn zeta. assert (H : len [TSetOwner Ready;
    TBegin true (mkEmbeddingRequestContext (lit "r") (lit "s") 25 0) EmbeddingRequestClass.Query;
    TProgress EmbeddingRequestClass.Query; TCancelled;
    TFinish (mkEmbeddingRequestContext (lit "r") (lit "s") 25 0) EmbeddingRequestClass.Query true false]
    ≤ u64_max) by (unfold len, u64_max; simpl; lia).
  split; [exact H|]. exact (proj1 (proj2 (tracker_accounting _ H))).
Defined.
