(* ===== verification/EngineConfig.v ===== *)
(** * The native engine boundary (codestory-llama-sys/src/lib.rs): configuration

    Errors, the request configuration and its validation against the compiled
    contract, backend names and device selection, and the split of tokenized inputs
    into batches.  The build-time contract, the device list and the tokenizer come from
    outside the repository and are parameters. *)
From S2P Require Import Prelude RustStr Graph Admission.

(** ** Errors *)
Inductive EngineError : Type :=
| ModelNotEmbedded
| ModelCache (message : str)
| ModelRequestMismatch (requested compiled : str)
| InvalidConfiguration (reason : str)
| BackendNotCompiled (requested compiled : str)
| BackendUnavailable (requested : str)
| SoftwareAdapter (adapters : str)
| AcceleratorExecutionUnverified (detail : str)
| Llama (message : str)
| EmptyInput
| InputTooLong (actual maximum : Z)
| WorkerUnavailable (message : str)
| DimensionMismatch (expected actual : Z)
| AdmissionFull (p : EmbeddingCapacityPressure)
| RequestCancelled.

Definition reason_code (e : EngineError) : str :=
  match e with
  | ModelNotEmbedded => lit "native_model_not_embedded"
  | ModelCache _ => lit "native_model_cache_error"
  | ModelRequestMismatch _ _ => lit "native_model_request_mismatch"
  | InvalidConfiguration _ => lit "native_engine_config_invalid"
  | BackendNotCompiled _ _ => lit "native_backend_not_compiled"
  | BackendUnavailable _ => lit "native_backend_unavailable"
  | SoftwareAdapter _ => lit "native_software_adapter_rejected"
  | AcceleratorExecutionUnverified _ => lit "native_accelerator_execution_unverified"
  | Llama _ => lit "native_engine_initialization_failed"
  | EmptyInput => lit "native_embedding_input_empty"
  | InputTooLong _ _ => lit "native_embedding_input_too_long"
  | WorkerUnavailable _ => lit "native_engine_worker_unavailable"
  | DimensionMismatch _ _ => lit "native_embedding_dimension_mismatch"
  | AdmissionFull _ => lit "embedding_admission_full"
  | RequestCancelled => lit "embedding_request_cancelled"
  end.

Definition capacity_pressure (e : EngineError) : option EmbeddingCapacityPressure :=
  match e with AdmissionFull p => Some p | _ => None end.

(** ** Configuration *)
Module NativeDeviceClass.
Inductive NativeDeviceClass : Set := Cpu | Accelerator | Unknown.
End NativeDeviceClass.
Abbreviation NativeDeviceClass := NativeDeviceClass.NativeDeviceClass.
#[export] Instance NativeDeviceClass_eq_dec : EqDecision NativeDeviceClass.
Proof. solve_decision. Defined.

Inductive NativeEmbeddingPooling : Set := Mean | Cls | Last | Rank.
#[export] Instance NativeEmbeddingPooling_eq_dec : EqDecision NativeEmbeddingPooling.
Proof. solve_decision. Defined.

Record NativeBackendRequest : Type := mkNativeBackendRequest {
  br_backend : str;
  br_device_class : NativeDeviceClass;
  br_reject_software_adapters : bool;
}.

Record NativeEmbeddingRequest : Type := mkNativeEmbeddingRequest {
  er_model_id : str;
  er_model_sha256 : str;
  er_dimension : Z;
  er_pooling : NativeEmbeddingPooling;
  er_context_tokens : Z;
  er_max_input_tokens : Z;
  er_batch_tokens : Z;
  er_max_batch_sequences : Z;
  er_smoke_input : str;
}.

Record EmbeddingEngineConfig : Type := mkEmbeddingEngineConfig {
  cfg_backend : NativeBackendRequest;
  cfg_embedding : NativeEmbeddingRequest;
}.

(** The constants the build writes: model identity and compiled backends. *)
Record CompiledContract : Type := mkCompiledContract {
  MODEL_FILE_NAME : str;
  MODEL_SHA256 : str;
  EMBEDDING_DIMENSION : Z;
  NATIVE_ENGINE_COMPILED_BACKENDS : list str;
}.

(** [COMPILED_MODEL_COMPATIBILITY.accepts]. *)
Definition compiled_pooling : NativeEmbeddingPooling := Cls.
Definition accepts (k : CompiledContract) (model_id model_sha256 : str) (dimension : Z)
    (pooling : NativeEmbeddingPooling) : bool :=
  str_eqb (MODEL_FILE_NAME k) model_id && str_eqb (MODEL_SHA256 k) model_sha256
  && (EMBEDDING_DIMENSION k =? dimension) && bool_decide (compiled_pooling = pooling).

Definition normalize_backend_name (value : str) : str :=
  let lowered := to_ascii_lowercase (trim value) in
  if str_eqb lowered (lit "mtl") then lit "metal"
  else if starts_with lowered (lit "vulkan") then lit "vulkan"
  else lowered.

Definition backend_matches_requested (actual requested : str) : bool :=
  let actual := to_ascii_lowercase (trim actual) in
  if str_eqb requested (lit "metal")
  then str_eqb actual (lit "metal") || str_eqb actual (lit "mtl")
  else if str_eqb requested (lit "vulkan")
  then str_eqb actual (lit "vulkan") || starts_with actual (lit "vulkan")
  else str_eqb actual requested.

Definition i32_max : Z := 2 ^ 31 - 1.

Definition validate_engine_config (k : CompiledContract) (config : EmbeddingEngineConfig)
  : result EngineError () :=
  let e := cfg_embedding config in
  let b := cfg_backend config in
  if negb (str_eqb (er_model_id e) (MODEL_FILE_NAME k))
     || negb (str_eqb (er_model_sha256 e) (MODEL_SHA256 k))
  then Err (ModelRequestMismatch (er_model_id e ++ lit "@" ++ er_model_sha256 e)
              (MODEL_FILE_NAME k ++ lit "@" ++ MODEL_SHA256 k))
  else if negb (accepts k (er_model_id e) (er_model_sha256 e) (er_dimension e) (er_pooling e))
  then Err (InvalidConfiguration (lit "compiled_model_compatibility_mismatch"))
  else if er_context_tokens e =? 0
  then Err (InvalidConfiguration (lit "context_tokens_zero"))
  else if er_max_input_tokens e =? 0
  then Err (InvalidConfiguration (lit "max_input_tokens_zero"))
  else if er_batch_tokens e =? 0
  then Err (InvalidConfiguration (lit "batch_tokens_zero"))
  else if (er_max_batch_sequences e =? 0) || (i32_max <? er_max_batch_sequences e)
  then Err (InvalidConfiguration (lit "max_batch_sequences_out_of_range"))
  else if er_batch_tokens e <? er_max_input_tokens e
  then Err (InvalidConfiguration (lit "max_input_tokens_exceed_batch_tokens"))
  else if er_context_tokens e <? er_batch_tokens e
  then Err (InvalidConfiguration (lit "batch_tokens_exceed_context_tokens"))
  else if bool_decide (trim (er_smoke_input e) = [])
  then Err (InvalidConfiguration (lit "smoke_input_empty"))
  else
    let requested := normalize_backend_name (br_backend b) in
    let class_matches_backend :=
      match br_device_class b with
      | NativeDeviceClass.Cpu => str_eqb requested (lit "cpu")
      | NativeDeviceClass.Accelerator => negb (str_eqb requested (lit "cpu"))
      | NativeDeviceClass.Unknown => false
      end in
    if negb class_matches_backend
    then Err (InvalidConfiguration (lit "backend_device_class_mismatch"))
    else if negb (existsb (λ backend, str_eqb backend requested)
                    (NATIVE_ENGINE_COMPILED_BACKENDS k))
    then Err (BackendNotCompiled requested
                (join (lit ",") (NATIVE_ENGINE_COMPILED_BACKENDS k)))
    else Ok ().

(** ** Devices

    The fields of the native library's device records that the code reads. *)
Inductive LlamaBackendDeviceType : Set :=
| DeviceCpu | DeviceAccelerator | DeviceGpu | DeviceIntegratedGpu | DeviceUnknown.

Record LlamaBackendDevice : Type := mkLlamaBackendDevice {
  device_index : Z;
  device_name : str;
  device_description : str;
  device_backend : str;
  device_type : LlamaBackendDeviceType;
}.

Definition device_class (d : LlamaBackendDevice) : NativeDeviceClass :=
  match device_type d with
  | DeviceCpu => NativeDeviceClass.Cpu
  | DeviceAccelerator | DeviceGpu | DeviceIntegratedGpu => NativeDeviceClass.Accelerator
  | DeviceUnknown => NativeDeviceClass.Unknown
  end.

Definition software_markers : list str :=
  [lit "llvmpipe"; lit "lavapipe"; lit "swiftshader"; lit "warp";
   lit "software rasterizer"; lit "microsoft basic render driver"].

Definition is_software_adapter (d : LlamaBackendDevice) : bool :=
  let value := to_ascii_lowercase
    (device_backend d ++ lit " " ++ device_name d ++ lit " " ++ device_description d) in
  existsb (contains value) software_markers.

Definition matching_devices (devices : list LlamaBackendDevice) (request : NativeBackendRequest)
  : list LlamaBackendDevice :=
  List.filter (λ d, backend_matches_requested (device_backend d)
                      (normalize_backend_name (br_backend request))
                    && bool_decide (device_class d = br_device_class request)) devices.

Definition select_device (devices : list LlamaBackendDevice) (request : NativeBackendRequest)
  : result EngineError LlamaBackendDevice :=
  let requested := normalize_backend_name (br_backend request) in
  let matching := matching_devices devices request in
  match List.find (λ d, negb (br_reject_software_adapters request)
                        || negb (is_software_adapter d)) matching with
  | Some d => Ok d
  | None =>
      if br_reject_software_adapters request && negb (bool_decide (matching = []))
      then Err (SoftwareAdapter (join (lit ", ")
             ((λ d, device_name d ++ lit " (" ++ device_description d ++ lit ")") <$> matching)))
      else Err (BackendUnavailable requested)
  end.

Record RuntimeBackendCapability : Type := mkRuntimeBackendCapability {
  cap_backend : str;
  cap_adapter_name : str;
  cap_adapter_description : str;
  cap_device_class : NativeDeviceClass;
  cap_software_adapter : bool;
}.
Definition runtime_backend_capabilities (devices : list LlamaBackendDevice)
  : list RuntimeBackendCapability :=
  (λ d, {| cap_backend := normalize_backend_name (device_backend d);
           cap_adapter_name := device_name d; cap_adapter_description := device_description d;
           cap_device_class := device_class d;
           cap_software_adapter := is_software_adapter d |}) <$> devices.

(** ** Tokens and batches *)
Abbreviation LlamaToken := Z (only parsing).

Definition tokenize (str_to_token : str → result str (list LlamaToken)) (input : str)
    (max_input_tokens : Z) : result EngineError (list LlamaToken) :=
  match str_to_token input with
  | Err message => Err (Llama message)
  | Ok tokens =>
      if max_input_tokens <? len tokens
      then Err (InputTooLong (len tokens) max_input_tokens)
      else Ok tokens
  end.

(** [map(tokenize).collect::<Result<Vec<_>, _>>()]. *)
Fixpoint tokenize_all (str_to_token : str → result str (list LlamaToken)) (inputs : list str)
    (max_input_tokens : Z) : result EngineError (list (list LlamaToken)) :=
  match inputs with
  | [] => Ok []
  | input :: rest =>
      tokens ← tokenize str_to_token input max_input_tokens;
      others ← tokenize_all str_to_token rest max_input_tokens;
      Ok (tokens :: others)
  end.

(** The loop of [batch_end] on the sequences from [end_] on. *)
Fixpoint batch_end_loop (rest : list (list LlamaToken)) (offset end_ tokens : Z)
    (max_batch_sequences batch_tokens : Z) : Z :=
  match rest with
  | [] => end_
  | sequence :: rest =>
      if end_ - offset <? max_batch_sequences then
        let next := len sequence in
        if (offset <? end_) && (batch_tokens <? tokens + next) then end_
        else batch_end_loop rest offset (end_ + 1) (tokens + next)
               max_batch_sequences batch_tokens
      else end_
  end.

Definition batch_end (tokenized : list (list LlamaToken)) (offset : Z)
    (max_batch_sequences batch_tokens : Z) : Z :=
  batch_end_loop (drop (Z.to_nat offset) tokenized) offset offset 0
    max_batch_sequences batch_tokens.

(** [tokenized[offset..end]]. *)
Definition batch_slice (tokenized : list (list LlamaToken)) (offset end_ : Z)
  : list (list LlamaToken) :=
  take (Z.to_nat (end_ - offset)) (drop (Z.to_nat offset) tokenized).

Definition total_tokens (sequences : list (list LlamaToken)) : Z :=
  foldr (λ s n, len s + n) 0 sequences.

(** The batches the embedding loop encodes, in order ([offset = end] until the end). *)
Fixpoint batches (fuel : nat) (tokenized : list (list LlamaToken)) (offset : Z)
    (max_batch_sequences batch_tokens : Z) : list (list (list LlamaToken)) :=
  match fuel with
  | O => []
  | S fuel =>
      if offset <? len tokenized then
        let end_ := batch_end tokenized offset max_batch_sequences batch_tokens in
        batch_slice tokenized offset end_
          :: batches fuel tokenized end_ max_batch_sequences batch_tokens
      else []
  end.

(** * Properties *)

(** ** Batches *)
Lemma total_tokens_app a b : total_tokens (a ++ b) = total_tokens a + total_tokens b.
Proof. induction a as [|x a IH]; cbn; [done|]. unfold total_tokens in *. cbn. lia. Qed.
Lemma total_tokens_nonneg a : 0 ≤ total_tokens a.
Proof. induction a as [|x a IH]; cbn; [done|]. pose proof (len_nonneg x). unfold total_tokens in *. lia. Qed.

(** What one batch of the remaining sequences looks like: [n] of them. *)
Record batch_fits (rest : list (list LlamaToken)) (max_seq batch_tokens n : Z) : Prop := {
  bf_some : 1 ≤ n ≤ len rest;
  bf_sequences : n ≤ max_seq;
  bf_tokens : n = 1 ∨ total_tokens (take (Z.to_nat n) rest) ≤ batch_tokens;
  bf_maximal : n = len rest ∨ n = max_seq ∨
    batch_tokens < total_tokens (take (S (Z.to_nat n)) rest);
}.

Lemma batch_end_loop_spec rest offset max_seq batch_tokens : ∀ done_,
  0 ≤ len done_ ≤ max_seq →
  (done_ = [] ∨ len done_ = 1 ∨ total_tokens done_ ≤ batch_tokens) →
  let end_ := batch_end_loop rest offset (offset + len done_) (total_tokens done_)
                max_seq batch_tokens in
  ∃ n, end_ = offset + n ∧ len done_ ≤ n ≤ len (done_ ++ rest) ∧ n ≤ max_seq ∧
    (0 < max_seq → rest ≠ [] → 1 ≤ n) ∧
    (n ≤ 1 ∨ total_tokens (take (Z.to_nat n) (done_ ++ rest)) ≤ batch_tokens) ∧
    (n = len (done_ ++ rest) ∨ n = max_seq ∨
     batch_tokens < total_tokens (take (S (Z.to_nat n)) (done_ ++ rest))).
Proof.
  induction rest as [|x rest IH]; intros done_ Hlen Htok; cbn [batch_end_loop].
  { exists (len done_). rewrite app_nil_r. split; [done|]. split; [lia|]. split; [lia|].
    split; [done|]. split; [|by left].
    unfold len in *. rewrite Nat2Z.id, take_ge by lia.
    destruct Htok as [->|[?|?]]; [left; simpl; lia|left; lia|by right]. }
  assert (Htake : take (Z.to_nat (len done_)) (done_ ++ x :: rest) = done_)
    by (unfold len; by rewrite Nat2Z.id, take_app_length).
  assert (Htake1 : take (S (Z.to_nat (len done_))) (done_ ++ x :: rest) = done_ ++ [x]).
  { unfold len. rewrite Nat2Z.id, take_app_ge by lia.
    by replace (S (length done_) - length done_)%nat with 1%nat by lia. }
  replace (offset + len done_ - offset) with (len done_) by lia.
  destruct (len done_ <? max_seq) eqn:Hmax.
  2: { apply Z.ltb_ge in Hmax. exists (len done_). split; [done|]. rewrite len_app.
       pose proof (len_nonneg (x :: rest)). split; [lia|]. split; [lia|]. split; [lia|].
       rewrite Htake. split; [|right; left; lia].
       destruct Htok as [->|[?|?]]; [left; unfold len; simpl; lia|left; lia|by right]. }
  apply Z.ltb_lt in Hmax.
  destruct ((offset <? offset + len done_) && (batch_tokens <? total_tokens done_ + len x)) eqn:Hfull.
  - apply andb_true_iff in Hfull as [Hd%Z.ltb_lt Hb%Z.ltb_lt].
    exists (len done_). split; [done|]. rewrite len_app. pose proof (len_nonneg (x :: rest)).
    split; [lia|]. split; [lia|]. split; [lia|]. rewrite Htake, Htake1, total_tokens_app.
    split; [destruct Htok as [->|[?|?]]; [left; unfold len; simpl; lia|left; lia|by right]|].
    right. right. cbn. lia.
  - assert (Hd : len (done_ ++ [x]) = len done_ + 1) by (rewrite len_app, len_cons, len_nil; lia).
    destruct (IH (done_ ++ [x])) as (n & Hn & H1 & H2 & H3 & H4 & H5); [lia| |].
    { right. rewrite Hd, total_tokens_app. cbn. apply andb_false_iff in Hfull as [Hz|Hz].
      - apply Z.ltb_ge in Hz. left. lia.
      - apply Z.ltb_ge in Hz. right. lia. }
    rewrite Hd, total_tokens_app in Hn. cbn in Hn. rewrite Z.add_0_r in Hn.
    rewrite <- app_assoc in H1, H4, H5. cbn in H1, H4, H5. exists n.
    split; [by rewrite <- Hn; f_equal; lia|]. split; [intros; lia|]. split; [done|].
    split; [intros; lia|]. done.
Qed.

Lemma batch_end_fits tokenized offset max_seq batch_tokens :
  0 ≤ offset < len tokenized → 0 < max_seq →
  batch_fits (drop (Z.to_nat offset) tokenized) max_seq batch_tokens
    (batch_end tokenized offset max_seq batch_tokens - offset).
Proof.
  intros Ho Hm. unfold batch_end.
  destruct (batch_end_loop_spec (drop (Z.to_nat offset) tokenized) offset max_seq batch_tokens [])
    as (n & Hn & H1 & H2 & H3 & H4 & H5); [unfold len; simpl; lia|by left|].
  cbn in Hn, H1, H4, H5. rewrite Z.add_0_r in Hn. rewrite Hn.
  replace (offset + n - offset) with n by lia.
  assert (Hne : drop (Z.to_nat offset) tokenized ≠ []).
  { intros Heq%(f_equal length). rewrite length_drop in Heq. unfold len in Ho. simpl in Heq. lia. }
  specialize (H3 Hm Hne). split; [lia|done| |done].
  destruct H4 as [?|?]; [left; lia|by right].
Qed.

Lemma batches_spec fuel tokenized max_seq batch_tokens : ∀ offset,
  0 ≤ offset ≤ len tokenized → 0 < max_seq → len tokenized - offset ≤ Z.of_nat fuel →
  concat (batches fuel tokenized offset max_seq batch_tokens) = drop (Z.to_nat offset) tokenized ∧
  Forall (λ b, b ≠ [] ∧ len b ≤ max_seq ∧ (len b = 1 ∨ total_tokens b ≤ batch_tokens))
    (batches fuel tokenized offset max_seq batch_tokens).
Proof.
  induction fuel as [|fuel IH]; intros offset Ho Hm Hf; cbn [batches].
  { split; [|constructor]. rewrite drop_ge; [done|]. unfold len in *. lia. }
  destruct (offset <? len tokenized) eqn:Hlt; [apply Z.ltb_lt in Hlt|apply Z.ltb_ge in Hlt].
  2: { split; [|constructor]. rewrite drop_ge; [done|]. unfold len in *. lia. }
  destruct (batch_end_fits tokenized offset max_seq batch_tokens) as [B1 B2 B3 _]; [lia|done|].
  set (end_ := batch_end tokenized offset max_seq batch_tokens) in *.
  assert (Hrest : len (drop (Z.to_nat offset) tokenized) = len tokenized - offset).
  { unfold len in *. rewrite length_drop. lia. }
  destruct (IH end_) as [Hc Ha]; [lia|done|lia|].
  assert (Hslice : len (batch_slice tokenized offset end_) = end_ - offset).
  { unfold batch_slice. unfold len in *. rewrite length_take. lia. }
  split.
  - cbn [concat]. rewrite Hc. unfold batch_slice.
    rewrite <- (take_drop (Z.to_nat (end_ - offset)) (drop (Z.to_nat offset) tokenized)) at 2.
    f_equal. rewrite drop_drop. f_equal. lia.
  - constructor; [|done]. rewrite Hslice. split; [|split; [done|]].
    + intros Heq. rewrite Heq, len_nil in Hslice. lia.
    + destruct B3 as [?|?]; [by left|by right].
Qed.

Lemma tokenize_all_spec f inputs max tokenized :
  tokenize_all f inputs max = Ok tokenized →
  length tokenized = length inputs ∧ Forall (λ s, len s ≤ max) tokenized ∧
  Forall2 (λ input s, f input = Ok s) inputs tokenized.
Proof.
  revert tokenized. induction inputs as [|input inputs IH]; intros tokenized; cbn.
  { intros [= <-]. done. }
  intros H. invert_ok. unfold tokenize in Ha. destruct (f input) as [s|] eqn:Hf; [|done].
  destruct (max <? len s) eqn:Hm; [done|]. injection Ha as <-. apply Z.ltb_ge in Hm. subst.
  destruct (IH _ Ha0) as (H1 & H2 & H3). cbn. split; [lia|]. split; by constructor.
Qed.

(** What validation establishes about the numbers of a configuration. *)
Record limits_ok (e : NativeEmbeddingRequest) : Prop := {
  lo_input : er_max_input_tokens e ≤ er_batch_tokens e;
  lo_batch : er_batch_tokens e ≤ er_context_tokens e;
  lo_sequences : 1 ≤ er_max_batch_sequences e ≤ i32_max;
}.

(** The fields are unsigned machine integers. *)
Definition request_in_range (e : NativeEmbeddingRequest) : Prop :=
  in_range u32_max (er_context_tokens e) ∧ in_range usize_max (er_max_input_tokens e) ∧
  in_range u32_max (er_batch_tokens e) ∧ in_range u32_max (er_max_batch_sequences e).

Lemma validate_limits k config :
  request_in_range (cfg_embedding config) → validate_engine_config k config = Ok () →
  limits_ok (cfg_embedding config).
Proof.
  intros (R1 & R2 & R3 & R4). unfold in_range in *. unfold validate_engine_config.
  set (e := cfg_embedding config) in *.
  destruct (_ || _) in |- *; [done|]. destruct (negb (accepts _ _ _ _ _)); [done|].
  destruct (er_context_tokens e =? 0); [done|]. destruct (er_max_input_tokens e =? 0); [done|].
  destruct (er_batch_tokens e =? 0); [done|].
  destruct ((er_max_batch_sequences e =? 0) || _) eqn:H1; [done|].
  apply orb_false_iff in H1 as [H1%Z.eqb_neq H2%Z.ltb_ge].
  destruct (er_batch_tokens e <? er_max_input_tokens e) eqn:H3; [done|]. apply Z.ltb_ge in H3.
  destruct (er_context_tokens e <? er_batch_tokens e) eqn:H4; [done|]. apply Z.ltb_ge in H4.
  intros _. split; lia.
Qed.

(** Every batch the engine encodes fits: under a validated configuration the
    batches of a request are its tokenized inputs in order, none is empty, and each
    has at most the configured number of sequences and at most as many tokens as the
    batch and the context allow. *)
Theorem batches_fit k config str_to_token inputs tokenized :
  let e := cfg_embedding config in
  request_in_range e → validate_engine_config k config = Ok () →
  tokenize_all str_to_token inputs (er_max_input_tokens e) = Ok tokenized →
  let bs := batches (length tokenized) tokenized 0 (er_max_batch_sequences e)
              (er_batch_tokens e) in
  concat bs = tokenized ∧
  Forall (λ b, b ≠ [] ∧ len b ≤ er_max_batch_sequences e ∧
               total_tokens b ≤ er_batch_tokens e ∧ total_tokens b ≤ er_context_tokens e) bs.
Proof.
  cbn zeta. intros Hr Hv Ht. destruct (validate_limits _ _ Hr Hv) as [L1 L2 L3].
  destruct (tokenize_all_spec _ _ _ _ Ht) as (_ & Hs & _).
  destruct (batches_spec (length tokenized) tokenized
    (er_max_batch_sequences (cfg_embedding config)) (er_batch_tokens (cfg_embedding config)) 0)
    as [Hc Ha]; [unfold len; lia|lia|unfold len; lia|].
  change (drop (Z.to_nat 0) tokenized) with tokenized in Hc. split; [done|]. revert Hc Ha.
  generalize (batches (length tokenized) tokenized 0 (er_max_batch_sequences (cfg_embedding config))
    (er_batch_tokens (cfg_embedding config))) as bs. intros bs Hc Ha.
  rewrite Forall_forall in *. intros b Hb. destruct (Ha b Hb) as (H1 & H2 & H3).
  assert (Htot : total_tokens b ≤ er_batch_tokens (cfg_embedding config)).
  { destruct H3 as [H3|?]; [|done]. destruct b as [|s [|]]; [done| |unfold len in H3; simpl in H3; lia].
    cbn. assert (len s ≤ er_max_input_tokens (cfg_embedding config)); [|lia].
    apply (proj1 (Forall_forall _ _) Hs). rewrite <- Hc.
    apply list_elem_of_In, in_concat. exists [s].
    split; [by apply list_elem_of_In|by left]. }
  split; [done|]. split; [done|]. split; [done|lia].
Qed.

Module BatchSample.
Definition contract : CompiledContract :=
  {| MODEL_FILE_NAME := lit "bge.gguf"; MODEL_SHA256 := lit "ab"; EMBEDDING_DIMENSION := 2;
     NATIVE_ENGINE_COMPILED_BACKENDS := [lit "cpu"; lit "vulkan"] |}.
Definition embedding : NativeEmbeddingRequest :=
  {| er_model_id := lit "bge.gguf"; er_model_sha256 := lit "ab"; er_dimension := 2;
     er_pooling := Cls; er_context_tokens := 8; er_max_input_tokens := 4;
     er_batch_tokens := 6; er_max_batch_sequences := 2; er_smoke_input := lit "x" |}.
Definition config : EmbeddingEngineConfig :=
  {| cfg_backend := {| br_backend := lit "Vulkan0"; br_device_class := NativeDeviceClass.Accelerator;
                       br_reject_software_adapters := true |};
     cfg_embedding := embedding |}.
(** One token per character. *)
Definition str_to_token (s : str) : result str (list LlamaToken) :=
  Ok (map (λ c, Z.of_nat (nat_of_ascii c)) s).
Definition inputs : list str := [lit "abc"; lit "abcd"; lit "a"; lit "b"; lit "c"].
Definition tokenized : list (list LlamaToken) :=
  map (map (λ c, Z.of_nat (nat_of_ascii c))) inputs.
End BatchSample.

Example batches_fit_witness :
  let e := cfg_embedding BatchSample.config in
  let bs := batches 5 BatchSample.tokenized 0 2 6 in
  (length <$> bs) = [1; 2; 2]%nat ∧ concat bs = BatchSample.tokenized.
Proof.
  cbn zeta. split; [reflexivity|].
  refine (proj1 (batches_fit BatchSample.contract BatchSample.config BatchSample.str_to_token
    BatchSample.inputs BatchSample.tokenized _ eq_refl eq_refl)).
  cbv [request_in_range in_range u32_max usize_max u64_max]. cbn. lia.
Defined.

(** ** Device selection *)
(** Device selection: the device returned is the first in list order whose backend
    and class are the requested ones and that is no software adapter when those are
    rejected; the software error is returned exactly when only software adapters
    match, and the unavailable error exactly when nothing matches. *)
Theorem select_device_spec devices request :
  let ok d := negb (br_reject_software_adapters request) || negb (is_software_adapter d) in
  match select_device devices request with
  | Ok d => ∃ before after, matching_devices devices request = before ++ d :: after ∧
              ok d = true ∧ Forall (λ x, ok x = false) before
  | Err (SoftwareAdapter _) =>
      br_reject_software_adapters request = true ∧ matching_devices devices request ≠ [] ∧
      Forall (λ d, is_software_adapter d = true) (matching_devices devices request)
  | Err (BackendUnavailable requested) =>
      requested = normalize_backend_name (br_backend request) ∧
      matching_devices devices request = []
  | Err _ => False
  end.
Proof.
  cbn zeta. unfold select_device. set (ms := matching_devices devices request).
  set (f := λ d, negb (br_reject_software_adapters request) || negb (is_software_adapter d)).
  assert (Hfind : match List.find f ms with
    | Some d => ∃ b a, ms = b ++ d :: a ∧ f d = true ∧ Forall (λ x, f x = false) b
    | None => Forall (λ x, f x = false) ms end).
  { clearbody ms f. induction ms as [|d ms IH]; cbn; [constructor|].
    destruct (f d) eqn:Hd; [by exists [], ms|].
    destruct (List.find f ms); [|by constructor].
    destruct IH as (b & a' & -> & ? & ?). exists (d :: b), a'. split_and!; [done..|by constructor]. }
  destruct (List.find f ms) as [d|] eqn:Hd; [done|].
  assert (Hnone : ms ≠ [] → br_reject_software_adapters request = true ∧
    Forall (λ d, is_software_adapter d = true) ms).
  { intros Hne. destruct ms as [|d ms']; [done|].
    assert (br_reject_software_adapters request = true) as Hrej.
    { apply Forall_cons in Hfind as [Hx _]. unfold f in Hx. apply orb_false_iff in Hx as [Hx _].
      by apply negb_false_iff. }
    split; [done|]. eapply Forall_impl; [exact Hfind|]. intros x Hx. unfold f in Hx. cbn in Hx.
    apply orb_false_iff in Hx as [_ Hx]. by apply negb_false_iff. }
  case_bool_decide as Hms; cbn [negb]; rewrite ?andb_false_r, ?andb_true_r; [done|].
  destruct (Hnone Hms) as [Hrej Hall]. by rewrite Hrej.
Qed.
