(* ===== verification/EngineWorld.v ===== *)
(** * The native engine (codestory-llama-sys/src/lib.rs): shared state, queues, clients

    The state the engine's worker thread shares with its clients, the operations on the
    two cancellable request queues, and submission.  Programs are functions of a state
    monad on [World].

    Concurrency: the worker's program is cut at every access to shared state by a
    [yield], which runs the client actions that the schedule puts there; theorems
    quantify over schedules.  Under a queue's lock only lifecycle writes of other
    threads can happen ([yield_locked]).  A client action runs as a unit, except a
    submission, whose pruning loop reads the requests' lifecycles one at a time and
    carries its own schedule of cancellations.

    The second part: the native engine (codestory-llama-sys/src/lib.rs): the worker's request handling. *)
From S2P Require Import Prelude RustStr Graph Admission EngineConfig.

(** ** Data *)
Module RequestPriority.
Inductive RequestPriority : Set := Query | Bulk.
End RequestPriority.
Abbreviation RequestPriority := RequestPriority.RequestPriority.
#[export] Instance RequestPriority_eq_dec : EqDecision RequestPriority.
Proof. solve_decision. Defined.

Definition request_class (p : RequestPriority) : EmbeddingRequestClass :=
  match p with
  | RequestPriority.Query => EmbeddingRequestClass.Query
  | RequestPriority.Bulk => EmbeddingRequestClass.Bulk
  end.

(** A request; [rq_response] names its response channel. *)
Record EmbeddingRequest : Type := mkEmbeddingRequest {
  rq_context : EmbeddingRequestContext;
  rq_inputs : list str;
  rq_response : nat;
}.

Record EmbeddingRequestCompletion : Type := mkEmbeddingRequestCompletion {
  vectors : list (list f32);
  completion_sequence : Z;
}.
Abbreviation Response := (result EngineError EmbeddingRequestCompletion) (only parsing).

(** The queue; [signal] is whether its one-slot signal channel holds a message. *)
Record CancellableRequestQueue : Type := mkCancellableRequestQueue {
  capacity : Z;
  requests : list EmbeddingRequest;
  signal : bool;
}.
Definition new_queue (capacity : Z) : CancellableRequestQueue :=
  {| capacity := capacity; requests := []; signal := false |}.

Module EngineResidency.
Inductive EngineResidency : Set := Resident | Sleeping.
End EngineResidency.
Abbreviation EngineResidency := EngineResidency.EngineResidency.
Definition residency_as_str (r : EngineResidency) : str :=
  match r with
  | EngineResidency.Resident => lit "resident"
  | EngineResidency.Sleeping => lit "sleeping"
  end.

Record EngineLifecycleSnapshot : Type := mkEngineLifecycleSnapshot {
  residency : EngineResidency;
  load_generation : Z;
  model_load_count : Z;
  worker_alive : bool;
  load_error : option EngineError;
}.

(** Control messages; a reply channel is a name and whether its receiver still exists
    when the reply is sent. *)
Record ReplyChannel : Type := mkReplyChannel { reply_to : nat; receiver_alive : bool }.
Inductive Control : Type :=
| Shutdown
| EnsureResident (response : ReplyChannel)
| AcquireLease (response : ReplyChannel)
| ReleaseLease.

(** ** Client actions *)
Inductive ClientAction : Type :=
| ClientSubmit (ctx : EmbeddingRequestContext) (inputs : list str) (priority : RequestPriority)
    (cancels : list (list nat))
| ClientCancel (cell : nat)
| ClientSend (control : Control)
| ClientLeaseTaken
| ClientLeaseDropped
| ClientDrain
| ClientTick (elapsed : nat).

Record World : Type := mkWorld {
  cells : gmap nat RequestCell;
  tracker : AdmissionState;
  query_queue : CancellableRequestQueue;
  bulk_queue : CancellableRequestQueue;
  control : list Control;
  published : option EngineLifecycleSnapshot;
  replies : list (nat * result EngineError EngineLifecycleSnapshot);
  sent : list (nat * Response);
  issued : list EmbeddingRequest;
  next_channel : nat;
  now : Z;
  schedule : list (list ClientAction);
  holds : list nat;
}.

Definition initial_world (schedule : list (list ClientAction)) (holds : list nat) : World :=
  {| cells := ∅; tracker := default_admission;
     query_queue := new_queue EMBEDDING_QUERY_QUEUE_CAPACITY;
     bulk_queue := new_queue EMBEDDING_BULK_QUEUE_CAPACITY; control := []; published := None;
     replies := []; sent := []; issued := []; next_channel := 0; now := 0;
     schedule := schedule; holds := holds |}.

(** Field updates. *)
Definition with_cells (v : gmap nat RequestCell) (w : World) : World :=
  mkWorld v (tracker w) (query_queue w) (bulk_queue w) (control w) (published w) (replies w)
    (sent w) (issued w) (next_channel w) (now w) (schedule w) (holds w).
Definition with_tracker (v : AdmissionState) (w : World) : World :=
  mkWorld (cells w) v (query_queue w) (bulk_queue w) (control w) (published w) (replies w)
    (sent w) (issued w) (next_channel w) (now w) (schedule w) (holds w).
Definition with_queue (p : RequestPriority) (v : CancellableRequestQueue) (w : World) : World :=
  mkWorld (cells w) (tracker w)
    (match p with RequestPriority.Query => v | RequestPriority.Bulk => query_queue w end)
    (match p with RequestPriority.Query => bulk_queue w | RequestPriority.Bulk => v end)
    (control w) (published w) (replies w)
    (sent w) (issued w) (next_channel w) (now w) (schedule w) (holds w).
Definition with_control (v : list Control) (w : World) : World :=
  mkWorld (cells w) (tracker w) (query_queue w) (bulk_queue w) v (published w) (replies w)
    (sent w) (issued w) (next_channel w) (now w) (schedule w) (holds w).
Definition with_published (v : option EngineLifecycleSnapshot) (w : World) : World :=
  mkWorld (cells w) (tracker w) (query_queue w) (bulk_queue w) (control w) v (replies w)
    (sent w) (issued w) (next_channel w) (now w) (schedule w) (holds w).
Definition with_replies (v : list (nat * result EngineError EngineLifecycleSnapshot)) (w : World)
  : World :=
  mkWorld (cells w) (tracker w) (query_queue w) (bulk_queue w) (control w) (published w) v
    (sent w) (issued w) (next_channel w) (now w) (schedule w) (holds w).
Definition with_sent (v : list (nat * Response)) (w : World) : World :=
  mkWorld (cells w) (tracker w) (query_queue w) (bulk_queue w) (control w) (published w)
    (replies w) v (issued w) (next_channel w) (now w) (schedule w) (holds w).
Definition with_issued (v : list EmbeddingRequest) (w : World) : World :=
  mkWorld (cells w) (tracker w) (query_queue w) (bulk_queue w) (control w) (published w)
    (replies w) (sent w) v (next_channel w) (now w) (schedule w) (holds w).
Definition with_next_channel (v : nat) (w : World) : World :=
  mkWorld (cells w) (tracker w) (query_queue w) (bulk_queue w) (control w) (published w)
    (replies w) (sent w) (issued w) v (now w) (schedule w) (holds w).
Definition with_now (v : Z) (w : World) : World :=
  mkWorld (cells w) (tracker w) (query_queue w) (bulk_queue w) (control w) (published w)
    (replies w) (sent w) (issued w) (next_channel w) v (schedule w) (holds w).
Definition with_schedule (v : list (list ClientAction)) (w : World) : World :=
  mkWorld (cells w) (tracker w) (query_queue w) (bulk_queue w) (control w) (published w)
    (replies w) (sent w) (issued w) (next_channel w) (now w) v (holds w).
Definition with_holds (v : list nat) (w : World) : World :=
  mkWorld (cells w) (tracker w) (query_queue w) (bulk_queue w) (control w) (published w)
    (replies w) (sent w) (issued w) (next_channel w) (now w) (schedule w) v.

Definition queue_of (p : RequestPriority) (w : World) : CancellableRequestQueue :=
  match p with RequestPriority.Query => query_queue w | RequestPriority.Bulk => bulk_queue w end.
Definition cell_at (w : World) (n : nat) : RequestCell := default new_cell (cells w !! n).
Definition context_cell (w : World) (ctx : EmbeddingRequestContext) : RequestCell :=
  cell_at w (cell ctx).

(** ** The monad *)
Definition M (A : Type) : Type := World → A * World.
#[export] Instance M_ret : MRet M := fun A a w => (a, w).
#[export] Instance M_bind : MBind M := fun A B f m w => let '(a, w) := m w in f a w.

Definition gets {A} (f : World → A) : M A := λ w, (f w, w).
Definition modify (f : World → World) : M () := λ w, ((), f w).
(** A state update that also returns a value. *)
Definition update {A} (f : World → A * World) : M A := f.

(** ** Atomic operations of the shared objects *)
Definition set_cell (n : nat) (c : RequestCell) (w : World) : World :=
  with_cells (<[n := c]> (cells w)) w.
Definition update_cell (n : nat) (f : RequestCell → RequestCell * bool) : M bool :=
  λ w, let '(c, ok) := f (cell_at w n) in (ok, set_cell n c w).
Definition ctx_is_cancelled (ctx : EmbeddingRequestContext) : M bool :=
  gets (λ w, is_cancelled (context_cell w ctx)).
Definition send (channel : nat) (r : Response) : M () :=
  modify (λ w, with_sent (sent w ++ [(channel, r)]) w).
Definition tracker_op (f : AdmissionState → AdmissionState) : M () :=
  modify (λ w, with_tracker (f (tracker w)) w).

(** ** Cancellations by other threads under a lock *)
Definition cancel_cell (n : nat) (w : World) : World :=
  set_cell n (cancel (cell_at w n)).1 w.
Definition apply_cancel (a : ClientAction) (w : World) : World :=
  match a with ClientCancel n => cancel_cell n w | _ => w end.
Definition next_actions (w : World) : list ClientAction :=
  match schedule w with [] => [] | actions :: _ => actions end.
Definition yield_locked : M () := modify (λ w,
  foldl (λ w a, apply_cancel a w) (with_schedule (tail (schedule w)) w) (next_actions w)).

(** ** The queues *)
Fixpoint prune_loop (rs retained : list EmbeddingRequest) : M (list EmbeddingRequest) :=
  match rs with
  | [] => mret retained
  | request :: rs =>
      yield_locked;;
      cancelled ← ctx_is_cancelled (rq_context request);
      if (cancelled : bool) then
        tracker_op count_cancelled;;
        send (rq_response request) (Err RequestCancelled);;
        prune_loop rs retained
      else prune_loop rs (retained ++ [request])
  end.

Definition set_requests (p : RequestPriority) (rs : list EmbeddingRequest) : M () :=
  modify (λ w, let q := queue_of p w in
    with_queue p {| capacity := capacity q; requests := rs; signal := signal q |} w).
Definition prune_cancelled (p : RequestPriority) : M () :=
  rs ← gets (λ w, requests (queue_of p w));
  retained ← prune_loop rs [];
  set_requests p retained.

(** [let _ = self.signal_sender.try_send(())]. *)
Definition raise_signal (p : RequestPriority) : M () :=
  modify (λ w, let q := queue_of p w in
    with_queue p {| capacity := capacity q; requests := requests q; signal := true |} w).

(** [true] when the request is accepted. *)
Definition try_push (p : RequestPriority) (request : EmbeddingRequest) : M bool :=
  prune_cancelled p;;
  q ← gets (queue_of p);
  if capacity q <=? len (requests q) then mret false
  else
    set_requests p (requests q ++ [request]);;
    raise_signal p;;
    mret true.

Definition try_pop (p : RequestPriority) : M (option EmbeddingRequest) :=
  prune_cancelled p;;
  q ← gets (queue_of p);
  match requests q with
  | [] => mret None
  | request :: rest =>
      set_requests p rest;;
      (if bool_decide (rest = []) then mret () else raise_signal p);;
      mret (Some request)
  end.

Definition depth (p : RequestPriority) (w : World) : Z :=
  len (List.filter (λ r, negb (is_cancelled (context_cell w (rq_context r))))
         (requests (queue_of p w))).

(** ** Submission *)
Definition fresh_channel : M nat :=
  update (λ w, (next_channel w, with_next_channel (S (next_channel w)) w)).
(** The caller gets the handle of the request's response channel. *)
Definition issue (request : EmbeddingRequest) : M () :=
  modify (λ w, with_issued (issued w ++ [request]) w).

Definition retry_condition_text : str :=
  lit "a queued request completes, is cancelled, or the server instance changes".

Definition submit (ctx : EmbeddingRequestContext) (inputs : list str) (priority : RequestPriority)
  : M (result EngineError nat) :=
  response ← fresh_channel;
  let request := {| rq_context := ctx; rq_inputs := inputs; rq_response := response |} in
  if bool_decide (inputs = []) then
    send response (Ok {| vectors := []; completion_sequence := 0 |});;
    issue request;;
    mret (Ok response)
  else
    accepted ← try_push priority request;
    if (accepted : bool) then issue request;; mret (Ok response)
    else
      p ← gets (λ w, pressure (tracker w) QueueFull (request_class priority)
            (depth RequestPriority.Query w) (depth RequestPriority.Bulk w)
            (retry_after_ms ctx) retry_condition_text);
      mret (Err (AdmissionFull p)).

Definition submit_query_prepared (ctx : EmbeddingRequestContext) (input : str)
  : M (result EngineError nat) := submit ctx [input] RequestPriority.Query.
Definition submit_documents_prepared (ctx : EmbeddingRequestContext) (inputs : list str)
  : M (result EngineError nat) := submit ctx inputs RequestPriority.Bulk.

Definition admission_snapshot (w : World) : EmbeddingAdmissionSnapshot :=
  snapshot (tracker w) (depth RequestPriority.Query w) (depth RequestPriority.Bulk w).
Definition begin_draining_if_idle : M bool :=
  s ← gets admission_snapshot;
  if negb (as_query_depth s =? 0) || negb (as_bulk_depth s =? 0)
     || negb (as_active_request_count s =? 0) || negb (as_lease_count s =? 0)
  then mret false
  else tracker_op (λ t, set_owner_state t Draining);; mret true.

(** ** Running client actions *)
Definition run_action (a : ClientAction) (w : World) : World :=
  match a with
  | ClientSubmit ctx inputs priority cancels =>
      with_schedule (schedule w)
        (submit ctx inputs priority (with_schedule (map ClientCancel <$> cancels) w)).2
  | ClientCancel n => cancel_cell n w
  | ClientSend c => with_control (control w ++ [c]) w
  | ClientLeaseTaken => with_tracker (lease_acquired (tracker w)) w
  | ClientLeaseDropped =>
      with_control (control w ++ [ReleaseLease]) (with_tracker (lease_released (tracker w)) w)
  | ClientDrain => (begin_draining_if_idle w).2
  | ClientTick d => with_now (now w + Z.of_nat d) w
  end.
Definition run_actions (l : list ClientAction) (w : World) : World :=
  foldl (λ w a, run_action a w) w l.

(** A point of the worker's program where other threads run. *)
Definition yield : M () := modify (λ w,
  run_actions (next_actions w) (with_schedule (tail (schedule w)) w)).

(** * The native engine (codestory-llama-sys/src/lib.rs): the worker's request handling

    Embedding one request in batches on the native model, taking one query between two
    batches of a bulk request, and the handler that settles a request; the scheduler
    of the two queues.  The native model comes from outside the repository and is a
    parameter: what it answers for each call. *)
(** The calls into the native library, on the sequences of one batch. *)
Record NativeModel : Type := mkNativeModel {
  str_to_token : str → result str (list LlamaToken);
  add_sequence : list (list LlamaToken) → list LlamaToken → result str ();
  encode : list (list LlamaToken) → result str ();
  embeddings_seq_ith : list (list LlamaToken) → Z → result str (list f32);
}.

(** [.map_err(llama_error)]. *)
Definition llama_error {A} (r : result str A) : result EngineError A :=
  match r with Ok a => Ok a | Err message => Err (Llama message) end.

Section Model.
Context (model : NativeModel) (config : NativeEmbeddingRequest).

(** ** One batch *)
Fixpoint add_sequences (sequences batch : list (list LlamaToken))
  : result EngineError (list (list LlamaToken)) :=
  match sequences with
  | [] => Ok batch
  | tokens :: sequences =>
      _ ← llama_error (add_sequence model batch tokens);
      add_sequences sequences (batch ++ [tokens])
  end.

(** The vectors of the sequences from [id] on. *)
Fixpoint read_vectors (n : nat) (batch : list (list LlamaToken)) (id : Z)
    (output : list (list f32)) (expected_dimension : Z)
  : result EngineError (list (list f32)) :=
  match n with
  | O => Ok output
  | S n =>
      vector ← llama_error (embeddings_seq_ith model batch id);
      if len vector =? expected_dimension
      then read_vectors n batch (id + 1) (output ++ [vector]) expected_dimension
      else Err (DimensionMismatch expected_dimension (len vector))
  end.

Definition embed_token_batch (sequences : list (list LlamaToken)) (output : list (list f32))
    (expected_dimension : Z) : result EngineError (list (list f32)) :=
  batch ← add_sequences sequences [];
  _ ← llama_error (encode model batch);
  read_vectors (length sequences) batch 0 output expected_dimension.

(** ** One request *)
Definition ensure_embedding_request_live (ctx : EmbeddingRequestContext)
  : M (result EngineError ()) :=
  yield;;
  cancelled ← ctx_is_cancelled ctx;
  mret (if (cancelled : bool) then Err RequestCancelled else Ok ()).

Definition take_query_between_bulk_batches : M (option EmbeddingRequest) :=
  yield;; try_pop RequestPriority.Query.

(** What runs between two batches of a request. *)
Definition between_batches (handle_query : EmbeddingRequest → M ())
    (priority : RequestPriority) (more : bool) (ctx : EmbeddingRequestContext)
  : M (result EngineError ()) :=
  if bool_decide (priority = RequestPriority.Bulk) && more then
    query ← take_query_between_bulk_batches;
    (match query with Some q => handle_query q | None => mret () end);;
    ensure_embedding_request_live ctx
  else mret (Ok ()).

(** The batch loop; [length tokenized] rounds are enough (see [embed_loop_fuel]). *)
Fixpoint embed_loop (handle_query : EmbeddingRequest → M ()) (fuel : nat)
    (tokenized : list (list LlamaToken)) (priority : RequestPriority)
    (ctx : EmbeddingRequestContext) (offset : Z) (output : list (list f32))
  : M (result EngineError (list (list f32))) :=
  match fuel with
  | O => mret (Ok output)
  | S fuel =>
      if offset <? len tokenized then
        live ← ensure_embedding_request_live ctx;
        match live with
        | Err e => mret (Err e)
        | Ok _ =>
            let end_ := batch_end tokenized offset (er_max_batch_sequences config)
                          (er_batch_tokens config) in
            match embed_token_batch (batch_slice tokenized offset end_) output
                    (er_dimension config) with
            | Err e => mret (Err e)
            | Ok output =>
                yield;;
                tracker_op (λ t, progress t (request_class priority));;
                between ← between_batches handle_query priority (end_ <? len tokenized) ctx;
                match between with
                | Err e => mret (Err e)
                | Ok _ => embed_loop handle_query fuel tokenized priority ctx end_ output
                end
            end
        end
      else mret (Ok output)
  end.

Definition ctx_record_completed_tokens (ctx : EmbeddingRequestContext) (n : Z) : M () :=
  modify (λ w, set_cell (cell ctx) (record_completed_tokens n (context_cell w ctx)) w).

Definition embed_inputs (handle_query : EmbeddingRequest → M ()) (inputs : list str)
    (priority : RequestPriority) (ctx : EmbeddingRequestContext)
  : M (result EngineError (list (list f32))) :=
  if bool_decide (inputs = []) then mret (Ok [])
  else if existsb (λ input, bool_decide (trim input = [])) inputs then mret (Err EmptyInput)
  else
    match tokenize_all (str_to_token model) inputs (er_max_input_tokens config) with
    | Err e => mret (Err e)
    | Ok tokenized =>
        result ← embed_loop handle_query (length tokenized) tokenized priority ctx 0 [];
        match result with
        | Err e => mret (Err e)
        | Ok output =>
            yield;;
            ctx_record_completed_tokens ctx (total_tokens tokenized);;
            mret (Ok output)
        end
    end.

(** ** Settling a request *)

(** [admission.begin(&request.context, request_class)]. *)
Definition begin_request (ctx : EmbeddingRequestContext) (class : EmbeddingRequestClass)
  : M bool :=
  update (λ w, let '(t, c, ok) := begin (tracker w) (context_cell w ctx) ctx class in
               (ok, set_cell (cell ctx) c (with_tracker t w))).
Definition finish_request (ctx : EmbeddingRequestContext) (class : EmbeddingRequestClass)
    (succeeded cancelled : bool) : M Z :=
  update (λ w, let '(t, n) := finish (tracker w) ctx class succeeded cancelled in
               (n, with_tracker t w)).

(** How many rounds the qualification hold lasts for this request. *)
Definition next_hold : M nat :=
  update (λ w, (match holds w with [] => 0%nat | n :: _ => n end,
                with_holds (tail (holds w)) w)).

(** The hold loop: [true] when the request was cancelled while held. *)
Fixpoint hold_loop (rounds : nat) (ctx : EmbeddingRequestContext) : M bool :=
  match rounds with
  | O => mret false
  | S rounds =>
      yield;;
      cancelled ← ctx_is_cancelled ctx;
      if (cancelled : bool) then mret true else hold_loop rounds ctx
  end.

Definition handle_request_with (handle_query : EmbeddingRequest → M ())
    (request : EmbeddingRequest) (priority : RequestPriority) : M () :=
  let ctx := rq_context request in
  let class := request_class priority in
  yield;;
  started ← begin_request ctx class;
  if negb started then send (rq_response request) (Err RequestCancelled)
  else
    rounds ← next_hold;
    held ← hold_loop rounds ctx;
    if (held : bool) then
      _ ← finish_request ctx class false true;
      yield;;
      send (rq_response request) (Err RequestCancelled)
    else
      embedded ← embed_inputs handle_query (rq_inputs request) priority ctx;
      yield;;
      cancelled ← ctx_is_cancelled ctx;
      yield;;
      committed ← (if (cancelled : bool) then mret false else update_cell (cell ctx) commit);
      let result := if (committed : bool) then embedded else Err RequestCancelled in
      yield;;
      sequence ← finish_request ctx class (is_ok result) cancelled;
      yield;;
      send (rq_response request)
        ((λ vs, {| vectors := vs; completion_sequence := sequence |}) <$> result).

(** A query never takes another request between its batches. *)
Definition handle_query (request : EmbeddingRequest) : M () :=
  handle_request_with (λ _, mret ()) request RequestPriority.Query.
Definition handle_request (request : EmbeddingRequest) (priority : RequestPriority) : M () :=
  handle_request_with handle_query request priority.

End Model.

(** ** The scheduler *)
Record FairRequestScheduler : Type := mkFairRequestScheduler {
  next_when_both_ready : RequestPriority;
}.
Definition default_scheduler : FairRequestScheduler :=
  {| next_when_both_ready := RequestPriority.Query |}.
Definition other (p : RequestPriority) : RequestPriority :=
  match p with
  | RequestPriority.Query => RequestPriority.Bulk
  | RequestPriority.Bulk => RequestPriority.Query
  end.
Definition record_served (p : RequestPriority) : FairRequestScheduler :=
  {| next_when_both_ready := other p |}.

(** [FairRequestScheduler::try_pop]. *)
Definition scheduler_try_pop (s : FairRequestScheduler)
  : M (option (EmbeddingRequest * RequestPriority) * FairRequestScheduler) :=
  let first := next_when_both_ready s in
  yield;;
  r1 ← try_pop first;
  match r1 with
  | Some request => mret (Some (request, first), record_served first)
  | None =>
      yield;;
      r2 ← try_pop (other first);
      match r2 with
      | Some request => mret (Some (request, other first), record_served (other first))
      | None => mret (None, s)
      end
  end.
