(* ===== verification/EngineOwner.v ===== *)
(** * The native engine (codestory-llama-sys/src/lib.rs): residency and the owner loop

    The residency tracker, the loop that serves one resident generation of the model,
    the wait for a wake-up while the model is unloaded, and the owner loop around
    them.  Loading a generation calls the native library: its outcomes are a list of
    the environment, one per load.  The loops run until a shutdown, so they are
    functions of a number of rounds and report [None] when it ends first. *)
From S2P Require Import Prelude RustStr Graph Admission EngineConfig EngineWorld.

(** ** Residency *)
Record ResidencyTracker : Type := mkResidencyTracker {
  idle_timeout : Z;
  last_activity : Z;
  leases : Z;
}.
Definition new_residency (idle_timeout now : Z) : ResidencyTracker :=
  {| idle_timeout := idle_timeout; last_activity := now; leases := 0 |}.
Definition complete_activity (now : Z) (t : ResidencyTracker) : ResidencyTracker :=
  {| idle_timeout := idle_timeout t; last_activity := now; leases := leases t |}.
Definition acquire_lease (t : ResidencyTracker) : ResidencyTracker :=
  {| idle_timeout := idle_timeout t; last_activity := last_activity t; leases := leases t + 1 |}.
Definition release_lease (now : Z) (t : ResidencyTracker) : ResidencyTracker :=
  {| idle_timeout := idle_timeout t; last_activity := now;
     leases := saturating_sub (leases t) 1 |}.
Definition remaining (now : Z) (t : ResidencyTracker) : Z :=
  if 0 <? leases t then idle_timeout t
  else saturating_sub (idle_timeout t) (saturating_sub now (last_activity t)).
Definition should_sleep (now : Z) (t : ResidencyTracker) : bool :=
  (leases t =? 0) && (idle_timeout t <=? saturating_sub now (last_activity t)).

Definition ENGINE_IDLE_TIMEOUT : Z := 60000.

(** ** Results of a generation *)
Inductive WakeReason : Type :=
| WakeStartup
| WakeQuery (request : EmbeddingRequest)
| WakeBulk (request : EmbeddingRequest)
| WakeEnsureResident (response : ReplyChannel)
| WakeAcquireLease (response : ReplyChannel).

Inductive ResidentRunResult : Type :=
| RunSleeping (snapshot : EngineLifecycleSnapshot)
| RunShutdown (snapshot : EngineLifecycleSnapshot)
| RunLoadFailed (wake : WakeReason) (error : EngineError).

(** A reply on a control channel; the result of [send]. *)
Definition reply (c : ReplyChannel) (r : result EngineError EngineLifecycleSnapshot) : M bool :=
  update (λ w, if receiver_alive c
               then (true, with_replies (replies w ++ [(reply_to c, r)]) w) else (false, w)).
(** The channel of [initialize]. *)
Definition startup_channel : ReplyChannel := {| reply_to := 0; receiver_alive := true |}.

Definition grant_residency_lease (c : ReplyChannel) (snapshot : EngineLifecycleSnapshot)
    (t : ResidencyTracker) : M ResidencyTracker :=
  delivered ← reply c (Ok snapshot);
  mret (if (delivered : bool) then acquire_lease t else t).

Definition handle_resident_control (c : Control) (snapshot : EngineLifecycleSnapshot)
    (t : ResidencyTracker) : M (option ResidentRunResult * ResidencyTracker) :=
  time ← gets now;
  match c with
  | Shutdown => mret (Some (RunShutdown snapshot), t)
  | EnsureResident response =>
      _ ← reply response (Ok snapshot);
      mret (None, complete_activity time t)
  | AcquireLease response =>
      t ← grant_residency_lease response snapshot t;
      mret (None, t)
  | ReleaseLease => mret (None, release_lease time t)
  end.

(** [control.try_recv()] on a channel whose senders exist. *)
Definition recv_control : M (option Control) :=
  yield;;
  update (λ w, match control w with
               | [] => (None, w)
               | c :: rest => (Some c, with_control rest w)
               end).

(** ** Blocking selects *)
Inductive Selected : Type :=
| SelControl (c : Control)
| SelSignal (p : RequestPriority)
| SelIdle
| SelNothing.

(** Takes the message of a signal channel. *)
Definition lower_signal (p : RequestPriority) (w : World) : World :=
  let q := queue_of p w in
  with_queue p {| capacity := capacity q; requests := requests q; signal := false |} w.

(** [select_biased!] over the control channel and the two signals: the first ready one. *)
Definition select_ready (w : World) : Selected * World :=
  match control w with
  | c :: rest => (SelControl c, with_control rest w)
  | [] =>
      if signal (query_queue w)
      then (SelSignal RequestPriority.Query, lower_signal RequestPriority.Query w)
      else if signal (bulk_queue w)
      then (SelSignal RequestPriority.Bulk, lower_signal RequestPriority.Bulk w)
      else (SelNothing, w)
  end.
(** One attempt of the resident select, whose last choice is the idle timer. *)
Definition select_resident (deadline : Z) : M Selected :=
  yield;;
  selected ← update select_ready;
  time ← gets now;
  mret (match selected with
        | SelNothing => if deadline <=? time then SelIdle else SelNothing
        | s => s
        end).

Section Owner.
Context (model : NativeModel) (config : NativeEmbeddingRequest).
(** The outcome of loading each generation. *)
Context (load : Z → result EngineError ()).

(** ** One resident generation *)
Definition publish_lifecycle (s : EngineLifecycleSnapshot) : M () :=
  modify (with_published (Some s)).

(** The [handle] closure of [run_resident_generation]: the request, then the live
    snapshot with the observations of the encodes. *)
Definition resident_handle (snapshot : EngineLifecycleSnapshot)
    (request : EmbeddingRequest) (priority : RequestPriority) : M () :=
  handle_request model config request priority;;
  yield;;
  publish_lifecycle snapshot.

(** The point of the serving loop: its head, or blocked in the select until a deadline. *)
Inductive ServePoint : Type :=
| Serving
| Waiting (deadline : Z).

Record ServeState : Type := mkServeState {
  residency_tracker : ResidencyTracker;
  scheduler : FairRequestScheduler;
  point : ServePoint;
}.

Definition serve_control (c : Control) (snapshot : EngineLifecycleSnapshot) (s : ServeState)
  : M (option ResidentRunResult * ServeState) :=
  handled ← handle_resident_control c snapshot (residency_tracker s);
  mret (handled.1, {| residency_tracker := handled.2; scheduler := scheduler s;
                      point := Serving |}).

(** From the head of the loop to its next head or to the select. *)
Definition serve_head (snapshot : EngineLifecycleSnapshot) (s : ServeState)
  : M (option ResidentRunResult * ServeState) :=
  c ← recv_control;
  match c with
  | Some c => serve_control c snapshot s
  | None =>
      popped ← scheduler_try_pop (scheduler s);
      match popped with
      | (Some (request, priority), scheduler') =>
          resident_handle snapshot request priority;;
          time ← gets now;
          mret (None, {| residency_tracker := complete_activity time (residency_tracker s);
                         scheduler := scheduler'; point := Serving |})
      | (None, scheduler') =>
          time ← gets now;
          mret (None, {| residency_tracker := residency_tracker s; scheduler := scheduler';
                         point := Waiting (time + remaining time (residency_tracker s)) |})
      end
  end.

(** One attempt of the select; the loop stays in it while nothing is ready. *)
Definition serve_select (snapshot : EngineLifecycleSnapshot) (deadline : Z) (s : ServeState)
  : M (option ResidentRunResult * ServeState) :=
  let head := {| residency_tracker := residency_tracker s; scheduler := scheduler s;
                 point := Serving |} in
  selected ← select_resident deadline;
  match selected with
  | SelControl c => serve_control c snapshot s
  | SelSignal _ => mret (None, head)
  | SelNothing => mret (None, s)
  | SelIdle =>
      yield;;
      time ← gets now;
      mret (if should_sleep time (residency_tracker s) then Some (RunSleeping snapshot) else None,
            head)
  end.

Definition serve_round (snapshot : EngineLifecycleSnapshot) (s : ServeState)
  : M (option ResidentRunResult * ServeState) :=
  match point s with
  | Serving => serve_head snapshot s
  | Waiting deadline => serve_select snapshot deadline s
  end.

Fixpoint serve_loop (fuel : nat) (snapshot : EngineLifecycleSnapshot)
    (state : ServeState) : M (option ResidentRunResult * ServeState) :=
  match fuel with
  | O => mret (None, state)
  | S fuel =>
      round ← serve_round snapshot state;
      match round with
      | (Some result, state) => mret (Some result, state)
      | (None, state) => serve_loop fuel snapshot state
      end
  end.

(** What the wake reason asks for, once the model is resident. *)
Definition serve_wake (wake : WakeReason) (snapshot : EngineLifecycleSnapshot)
    (t : ResidencyTracker) : M ServeState :=
  let state t s := {| residency_tracker := t; scheduler := s; point := Serving |} in
  match wake with
  | WakeStartup =>
      _ ← reply startup_channel (Ok snapshot);
      mret (state t default_scheduler)
  | WakeQuery request =>
      resident_handle snapshot request RequestPriority.Query;;
      time ← gets now;
      mret (state (complete_activity time t) (record_served RequestPriority.Query))
  | WakeBulk request =>
      resident_handle snapshot request RequestPriority.Bulk;;
      time ← gets now;
      mret (state (complete_activity time t) (record_served RequestPriority.Bulk))
  | WakeEnsureResident response =>
      time ← gets now;
      _ ← reply response (Ok snapshot);
      mret (state (complete_activity time t) default_scheduler)
  | WakeAcquireLease response =>
      t ← grant_residency_lease response snapshot t;
      mret (state t default_scheduler)
  end.

Definition serve_resident_generation (fuel : nat) (wake : WakeReason)
    (snapshot : EngineLifecycleSnapshot) (idle_timeout : Z) : M (option ResidentRunResult) :=
  time ← gets now;
  let t := new_residency idle_timeout time in
  c ← recv_control;
  first ← (match c with
           | Some c => handle_resident_control c snapshot t
           | None => mret (None, t)
           end);
  match first with
  | (Some result, _) => mret (Some result)
  | (None, t) =>
      state ← serve_wake wake snapshot t;
      served ← serve_loop fuel snapshot state;
      mret served.1
  end.

(** [run_resident_generation]: loading, then serving.  A failed load keeps the wake. *)
Definition resident_snapshot (generation : Z) : EngineLifecycleSnapshot :=
  {| residency := EngineResidency.Resident; load_generation := generation;
     model_load_count := generation; worker_alive := true; load_error := None |}.

Definition run_resident_generation (fuel : nat) (wake : WakeReason) (generation attempt : Z)
  : M (option ResidentRunResult) :=
  tracker_op (λ t, set_owner_state t Waking);;
  yield;;
  match load attempt with
  | Err error => mret (Some (RunLoadFailed wake error))
  | Ok _ =>
      let snapshot := resident_snapshot generation in
      tracker_op (λ t, set_owner_state t Ready);;
      yield;;
      publish_lifecycle snapshot;;
      serve_resident_generation fuel wake snapshot ENGINE_IDLE_TIMEOUT
  end.

(** ** While the model is unloaded *)
(** [true] when the owner stops. *)
Definition fail_wake (wake : WakeReason) (error : EngineError) : M bool :=
  match wake with
  | WakeStartup => _ ← reply startup_channel (Err error); mret true
  | WakeQuery request | WakeBulk request =>
      send (rq_response request) (Err error);; mret false
  | WakeEnsureResident response | WakeAcquireLease response =>
      _ ← reply response (Err error); mret false
  end.

Inductive Woken : Type :=
| WokenStop
| WokenBy (wake : WakeReason).

Definition wake_request (p : RequestPriority) (request : EmbeddingRequest) : WakeReason :=
  match p with
  | RequestPriority.Query => WakeQuery request
  | RequestPriority.Bulk => WakeBulk request
  end.

(** What a signal of a queue leads to: [None] waits on. *)
Definition wake_from_queue (p : RequestPriority) : M (option Woken) :=
  yield;;
  popped ← try_pop p;
  match popped with
  | None => mret None
  | Some request =>
      yield;;
      cancelled ← ctx_is_cancelled (rq_context request);
      if (cancelled : bool) then
        tracker_op count_cancelled;;
        yield;;
        send (rq_response request) (Err RequestCancelled);;
        mret None
      else mret (Some (WokenBy (wake_request p request)))
  end.

(** One attempt of the select of [wait_for_wake]. *)
Definition wait_round : M (option Woken) :=
  yield;;
  selected ← update select_ready;
  match selected with
  | SelControl Shutdown => mret (Some WokenStop)
  | SelControl (EnsureResident response) => mret (Some (WokenBy (WakeEnsureResident response)))
  | SelControl (AcquireLease response) => mret (Some (WokenBy (WakeAcquireLease response)))
  | SelControl ReleaseLease => mret None
  | SelSignal p => wake_from_queue p
  | SelIdle | SelNothing => mret None
  end.

Fixpoint wait_for_wake (fuel : nat) : M (option Woken) :=
  match fuel with
  | O => mret None
  | S fuel =>
      woken ← wait_round;
      match woken with
      | Some woken => mret (Some woken)
      | None => wait_for_wake fuel
      end
  end.

(** ** The owner *)
Definition sleeping_snapshot (e : option EngineError) (s : EngineLifecycleSnapshot)
  : EngineLifecycleSnapshot :=
  {| residency := EngineResidency.Sleeping; load_generation := load_generation s;
     model_load_count := model_load_count s; worker_alive := worker_alive s;
     load_error := match e with Some e => Some e | None => load_error s end |}.
Definition stopped_snapshot (s : EngineLifecycleSnapshot) : EngineLifecycleSnapshot :=
  {| residency := residency s; load_generation := load_generation s;
     model_load_count := model_load_count s; worker_alive := false;
     load_error := load_error s |}.

Record OwnerState : Type := mkOwnerState {
  wake : WakeReason;
  owner_generation : Z;
  last_snapshot : option EngineLifecycleSnapshot;
}.
Definition initial_owner : OwnerState :=
  {| wake := WakeStartup; owner_generation := 0; last_snapshot := None |}.

(** What follows a generation: stop, or the state to wait for the next wake in. *)
Definition settle_generation (result : ResidentRunResult) (s : OwnerState)
  : M (bool * OwnerState) :=
  match result with
  | RunSleeping snapshot =>
      let snapshot := sleeping_snapshot None snapshot in
      yield;;
      tracker_op (λ t, set_owner_state t Sleeping);;
      yield;;
      publish_lifecycle snapshot;;
      mret (false, {| wake := wake s; owner_generation := load_generation snapshot;
                      last_snapshot := Some snapshot |})
  | RunShutdown snapshot =>
      yield;;
      tracker_op (λ t, set_owner_state t Draining);;
      yield;;
      publish_lifecycle (stopped_snapshot snapshot);;
      mret (true, s)
  | RunLoadFailed w error =>
      match last_snapshot s with
      | Some snapshot =>
          let snapshot := sleeping_snapshot (Some error) snapshot in
          yield;;
          tracker_op (λ t, set_owner_state t Sleeping);;
          yield;;
          publish_lifecycle snapshot;;
          stop ← fail_wake w error;
          mret (stop, {| wake := wake s; owner_generation := owner_generation s;
                         last_snapshot := Some snapshot |})
      | None =>
          yield;;
          stop ← fail_wake w error;
          mret (stop, s)
      end
  end.

(** The owner loop: [true] when it returned, [false] when the rounds ended first.
    [rounds] bounds the generations, [fuel] the rounds inside each loop, and the
    loads are numbered from [attempt]. *)
Fixpoint run_engine_owner (rounds fuel : nat) (attempt : Z) (s : OwnerState) : M bool :=
  match rounds with
  | O => mret false
  | S rounds =>
      result ← run_resident_generation fuel (wake s) (owner_generation s + 1) attempt;
      match result with
      | None => mret false
      | Some result =>
          settled ← settle_generation result s;
          match settled with
          | (true, _) => mret true
          | (false, s) =>
              woken ← wait_for_wake fuel;
              match woken with
              | None => mret false
              | Some WokenStop =>
                  (match last_snapshot s with
                   | Some snapshot => publish_lifecycle (stopped_snapshot snapshot)
                   | None => mret ()
                   end);;
                  mret true
              | Some (WokenBy next_wake) =>
                  run_engine_owner rounds fuel (attempt + 1)
                    {| wake := next_wake; owner_generation := owner_generation s;
                       last_snapshot := last_snapshot s |}
              end
          end
      end
  end.

End Owner.
