(* ===== verification/EngineRequests.v ===== *)
(** * The native engine: a program logic and the books of the requests

    Partial-correctness triples for the engine's monad and the invariant that every
    operation keeps: each accepted request is answered once or still waits, the queues
    are first in first out and bounded, and every answer with vectors belongs to a
    committed request.

    The second part: the native engine: embedding a request and settling it. *)
From S2P Require Import Prelude RustStr Graph Admission EngineConfig EngineWorld.

(** ** Triples *)
Definition hoare {A} (P : World → Prop) (m : M A) (Q : A → World → Prop) : Prop :=
  ∀ w, P w → Q (m w).1 (m w).2.

Lemma hoare_bind {A B} (P : World → Prop) (m : M A) (f : A → M B) Q R :
  hoare P m Q → (∀ a, hoare (Q a) (f a) R) → hoare P (m ≫= f) R.
Proof.
  intros Hm Hf w Hw. specialize (Hm w Hw). unfold mbind, M_bind.
  destruct (m w) as [a w']. by apply Hf.
Qed.
Lemma hoare_ret {A} (P : World → Prop) (a : A) Q : (∀ w, P w → Q a w) → hoare P (mret a) Q.
Proof. intros H w Hw. by apply H. Qed.
Lemma hoare_weaken {A} (P P' : World → Prop) (m : M A) Q Q' :
  hoare P' m Q' → (∀ w, P w → P' w) → (∀ a w, Q' a w → Q a w) → hoare P m Q.
Proof. intros Hm HP HQ w Hw. by apply HQ, Hm, HP. Qed.
Lemma hoare_pre {A} (P P' : World → Prop) (m : M A) Q :
  hoare P' m Q → (∀ w, P w → P' w) → hoare P m Q.
Proof. intros Hm HP w Hw. by apply Hm, HP. Qed.
Lemma hoare_pure {A} (P : World → Prop) (φ : Prop) (m : M A) Q :
  (φ → hoare P m Q) → hoare (λ w, φ ∧ P w) m Q.
Proof. intros H w [Hφ Hw]. by apply H. Qed.
Lemma hoare_gets {A} (P : World → Prop) (f : World → A) :
  hoare P (gets f) (λ a w, a = f w ∧ P w).
Proof. intros w Hw. done. Qed.
Lemma hoare_modify (P : World → Prop) (f : World → World) Q :
  (∀ w, P w → Q (f w)) → hoare P (modify f) (λ _, Q).
Proof. intros H w Hw. by apply H. Qed.
Lemma hoare_update {A} (P : World → Prop) (f : World → A * World) Q :
  (∀ w, P w → Q (f w).1 (f w).2) → hoare P (update f) Q.
Proof. intros H w Hw. by apply H. Qed.

Lemma hoare_and {A} (P1 P2 : World → Prop) (m : M A) Q1 Q2 :
  hoare P1 m Q1 → hoare P2 m Q2 → hoare (λ w, P1 w ∧ P2 w) m (λ a w, Q1 a w ∧ Q2 a w).
Proof. intros H1 H2 w [Hw1 Hw2]. split; [by apply H1|by apply H2]. Qed.

(** Steps into the first program of a sequence. *)
Ltac hbind := eapply hoare_bind; [|intros ?].

(** ** What an answer must satisfy *)
Section Books.
Context (model : NativeModel) (config : NativeEmbeddingRequest).

(** The vector is the one the model reports for this input's tokens, in a batch it
    encoded, and has the configured dimension. *)
Definition embedding_of (input : str) (vector : list f32) : Prop :=
  ∃ tokens batch i,
    str_to_token model input = Ok tokens ∧ len tokens ≤ er_max_input_tokens config ∧
    batch !! i = Some tokens ∧ encode model batch = Ok () ∧
    embeddings_seq_ith model batch (Z.of_nat i) = Ok vector ∧
    len vector = er_dimension config.

Definition committed_in (w : World) (n : nat) : Prop :=
  lifecycle (cell_at w n) = RequestLifecycle.Committed.

Definition answer_ok (w : World) (r : EmbeddingRequest) (c : EmbeddingRequestCompletion) : Prop :=
  (rq_inputs r = [] → vectors c = []) ∧
  (rq_inputs r ≠ [] → committed_in w (cell (rq_context r)) ∧
     Forall2 embedding_of (rq_inputs r) (vectors c)).

(** The completion numbers of the answers, in the order of the answers. *)
Definition ok_sequence (a : nat * Response) : option Z :=
  match a.2 with
  | Ok c => if completion_sequence c =? 0 then None else Some (completion_sequence c)
  | Err _ => None
  end.
Definition ok_sequences (l : list (nat * Response)) : list Z := omap ok_sequence l.
(** 1, 2, ..., saturating. *)
Definition numbered (n : nat) : list Z :=
  (λ k, Z.min u64_max (Z.of_nat k + 1)) <$> seq 0 n.

(** The books: [pend] are the accepted requests without an answer, [next] the
    completion numbers given but not sent yet, [cm] cells known to be committed. *)
Record books (pend : list EmbeddingRequest) (next : list Z) (cm : list nat) (w : World) : Prop := {
  bk_channels : rq_response <$> issued w ≡ₚ (sent w).*1 ++ (rq_response <$> pend);
  bk_members : Forall (λ r, r ∈ issued w ∧ rq_inputs r ≠ []) pend;
  bk_sorted : StronglySorted lt (rq_response <$> issued w);
  bk_fresh : Forall (λ r, rq_response r < next_channel w)%nat (issued w);
  bk_answers : ∀ ch c, (ch, Ok c) ∈ sent w →
    ∃ r, r ∈ issued w ∧ rq_response r = ch ∧ answer_ok w r c;
  bk_numbers : ∃ n, ok_sequences (sent w) ++ next = numbered n ∧
    completed_request_count (tracker w) = Z.min u64_max (Z.of_nat n);
  bk_committed : Forall (committed_in w) cm;
}.

Lemma books_perm pend pend' next cm w :
  pend ≡ₚ pend' → books pend next cm w → books pend' next cm w.
Proof.
  intros Hp [H1 H2 H3 H4 H5 H6 H7]. split; [by rewrite <- Hp|by rewrite <- Hp|done..].
Qed.

(** Changes outside the books. *)
Record outside (w w' : World) : Prop := {
  os_issued : issued w' = issued w;
  os_sent : sent w' = sent w;
  os_next : next_channel w' = next_channel w;
  os_completed : completed_request_count (tracker w') = completed_request_count (tracker w);
  os_committed : ∀ n, committed_in w n → committed_in w' n;
}.

Lemma books_outside pend next cm w w' :
  outside w w' → books pend next cm w → books pend next cm w'.
Proof.
  intros [O1 O2 O3 O4 O5] [H1 H2 H3 H4 H5 H6 H7].
  split; rewrite ?O1, ?O2, ?O3, ?O4; [done..| |done|].
  - intros ch c Hin. destruct (H5 ch c Hin) as (r & Hr & Hch & [Ha1 Ha2]).
    exists r. split; [done|]. split; [done|]. split; [done|].
    intros Hne. destruct (Ha2 Hne). auto.
  - eapply Forall_impl; [exact H7|auto].
Qed.

(** ** Cells *)
Lemma cell_at_set n c w m : cell_at (set_cell n c w) m = if decide (n = m) then c else cell_at w m.
Proof.
  unfold cell_at, set_cell. cbn [cells with_cells].
  destruct (decide (n = m)) as [->|]; [by rewrite lookup_insert_eq|by rewrite lookup_insert_ne].
Qed.
Lemma committed_in_set n c w m :
  (committed_in w n → lifecycle c = RequestLifecycle.Committed) →
  committed_in w m → committed_in (set_cell n c w) m.
Proof. unfold committed_in. rewrite cell_at_set. destruct (decide (n = m)) as [->|]; auto. Qed.

Lemma outside_refl w : outside w w.
Proof. by split. Qed.
Lemma outside_trans w1 w2 w3 : outside w1 w2 → outside w2 w3 → outside w1 w3.
Proof. intros [A1 A2 A3 A4 A5] [B1 B2 B3 B4 B5]. split; [congruence..|auto]. Qed.
Lemma outside_set_cell n c w :
  (committed_in w n → lifecycle c = RequestLifecycle.Committed) → outside w (set_cell n c w).
Proof. intros Hc. split; [done..|]. intros m. by apply committed_in_set. Qed.

Lemma outside_cancel n w : outside w (cancel_cell n w).
Proof. apply outside_set_cell. unfold committed_in, cancel. intros H. rewrite H. exact H. Qed.
Lemma outside_tracker t w :
  completed_request_count t = completed_request_count (tracker w) → outside w (with_tracker t w).
Proof. by split. Qed.

(** ** The queues *)
Definition queue_ok (p : RequestPriority) (w : World) : Prop :=
  capacity (queue_of p w) = 64 ∧ len (requests (queue_of p w)) ≤ 64 ∧
  StronglySorted lt (rq_response <$> requests (queue_of p w)).

Definition queued (w : World) : list EmbeddingRequest :=
  requests (query_queue w) ++ requests (bulk_queue w).

Definition engine_inv (held : list EmbeddingRequest) (next : list Z) (cm : list nat) (w : World)
  : Prop :=
  books (held ++ queued w) next cm w ∧ queue_ok RequestPriority.Query w ∧
  queue_ok RequestPriority.Bulk w.

Lemma queued_perm p w : queued w ≡ₚ requests (queue_of p w) ++ requests (queue_of (other p) w).
Proof. destruct p; cbn; [done|]. unfold queued. apply Permutation_app_comm. Qed.

(** The state of both queues, which locked code leaves alone. *)
Definition queues (w : World) : CancellableRequestQueue * CancellableRequestQueue :=
  (query_queue w, bulk_queue w).

Lemma queues_of p w w' : queues w = queues w' → queue_of p w = queue_of p w'.
Proof. unfold queues. intros [= H1 H2]. by destruct p. Qed.

Lemma engine_inv_outside held next cm w w' :
  outside w w' → queues w' = queues w → engine_inv held next cm w → engine_inv held next cm w'.
Proof.
  intros Ho Hq (Hb & H1 & H2). unfold engine_inv, queued, queue_ok.
  rewrite (queues_of RequestPriority.Query _ _ Hq), (queues_of RequestPriority.Bulk _ _ Hq).
  unfold queues in Hq. injection Hq as -> ->. split; [|done]. by eapply books_outside.
Qed.

(** ** Locked code *)
Lemma queues_cancels l w : queues (foldl (λ w a, apply_cancel a w) w l) = queues w.
Proof. revert w. induction l as [|[] l IH]; intros w; cbn; [done|..]; by rewrite IH. Qed.
Lemma outside_cancels l w : outside w (foldl (λ w a, apply_cancel a w) w l).
Proof.
  revert w. induction l as [|a l IH]; intros w; cbn; [apply outside_refl|].
  eapply outside_trans; [|apply IH]. destruct a; try apply outside_refl. apply outside_cancel.
Qed.

Lemma hoare_yield_locked pend next cm qs :
  hoare (λ w, books pend next cm w ∧ queues w = qs) yield_locked
    (λ _ w, books pend next cm w ∧ queues w = qs).
Proof.
  apply hoare_modify. intros w [Hb Hq]. rewrite queues_cancels. split; [|done].
  eapply books_outside; [|exact Hb]. eapply outside_trans; [|apply outside_cancels]. by split.
Qed.

Lemma ok_sequences_err l ch e : ok_sequences (l ++ [(ch, Err e)]) = ok_sequences l.
Proof. unfold ok_sequences. rewrite omap_app. cbn. by rewrite app_nil_r. Qed.

(** An error answer to a request that waits. *)
Lemma books_send_error pend next cm w r e :
  books (r :: pend) next cm w →
  books pend next cm (with_sent (sent w ++ [(rq_response r, Err e)]) w).
Proof.
  intros [H1 H2 H3 H4 H5 H6 H7]. split; cbn; [| |done|done| | |done].
  - rewrite H1, fmap_app. cbn. by rewrite <- app_assoc.
  - by apply Forall_cons in H2 as [_ H2].
  - intros ch c [Hin|Hin]%elem_of_app; [by apply H5|].
    apply list_elem_of_singleton in Hin. discriminate Hin.
  - by rewrite ok_sequences_err.
Qed.

Lemma hoare_prune_loop rest next cm qs rs : ∀ retained,
  hoare (λ w, books (retained ++ rs ++ rest) next cm w ∧ queues w = qs)
    (prune_loop rs retained)
    (λ kept w, books (kept ++ rest) next cm w ∧ queues w = qs ∧
               sublist kept (retained ++ rs)).
Proof.
  induction rs as [|r rs IH]; intros retained; cbn [prune_loop].
  { apply hoare_ret. intros w [Hb Hq]. rewrite app_nil_r. done. }
  hbind; [apply hoare_yield_locked|].
  hbind; [apply hoare_gets|]. destruct a0.
  - hbind.
    { apply (hoare_modify _ _ (λ w, books (r :: retained ++ rs ++ rest) next cm w ∧ queues w = qs)).
      intros w (_ & Hb & Hq). split; [|done].
      eapply books_outside; [by apply outside_tracker|].
      eapply books_perm; [|exact Hb]. by rewrite Permutation_middle. }
    hbind.
    { apply (hoare_modify _ _ (λ w, books (retained ++ rs ++ rest) next cm w ∧ queues w = qs)).
      intros w (Hb & Hq). split; [|done]. by apply books_send_error. }
    eapply hoare_weaken; [apply IH|done|]. intros kept w (? & ? & Hs). split; [done|].
    split; [done|]. etransitivity; [exact Hs|]. apply sublist_app; [done|by constructor].
  - eapply hoare_weaken; [apply IH| |].
    + intros w (_ & Hb & Hq). split; [|done]. by rewrite <- app_assoc.
    + intros kept w (? & ? & Hs). by rewrite <- app_assoc in Hs.
Qed.

Lemma queue_ok_sublist p w rs sg :
  sublist rs (requests (queue_of p w)) → queue_ok p w →
  queue_ok p (with_queue p {| capacity := capacity (queue_of p w); requests := rs; signal := sg |} w).
Proof.
  intros Hs (H1 & H2 & H3). unfold queue_ok. destruct p; cbn in *.
  all: split; [done|]; split; [apply sublist_length in Hs; unfold len in *; lia|].
  all: eapply strongly_sorted_sublist; [|exact H3]; by apply fmap_sublist.
Qed.

(** The waiting requests seen from one queue. *)
Definition engine_inv' (p : RequestPriority) (held : list EmbeddingRequest) (next : list Z)
    (cm : list nat) (w : World) : Prop :=
  books (requests (queue_of p w) ++ held ++ requests (queue_of (other p) w)) next cm w ∧
  queue_ok p w ∧ queue_ok (other p) w.

Lemma engine_inv_from p held next cm w :
  engine_inv held next cm w ↔ engine_inv' p held next cm w.
Proof.
  unfold engine_inv, engine_inv'.
  assert (Hp : held ++ queued w ≡ₚ
    requests (queue_of p w) ++ held ++ requests (queue_of (other p) w)).
  { rewrite (queued_perm p w), !app_assoc. apply Permutation_app_tail, Permutation_app_comm. }
  split; intros (Hb & H1 & H2); (split; [by eapply books_perm|]); destruct p; cbn in *; done.
Qed.

Lemma queue_of_with p q w : queue_of p (with_queue p q w) = q.
Proof. by destruct p. Qed.
Lemma queue_of_with_other p q w : queue_of (other p) (with_queue p q w) = queue_of (other p) w.
Proof. by destruct p. Qed.
Lemma outside_queue p q w : outside w (with_queue p q w).
Proof. by split. Qed.
Lemma queue_ok_other p q w : queue_ok (other p) w → queue_ok (other p) (with_queue p q w).
Proof. unfold queue_ok. by rewrite queue_of_with_other. Qed.

(** Replacing the requests of one queue. *)
Lemma engine_inv_replace p held held' next cm w rs sg :
  sublist rs (requests (queue_of p w)) →
  books (rs ++ held' ++ requests (queue_of (other p) w)) next cm w →
  engine_inv held next cm w →
  engine_inv held' next cm
    (with_queue p {| capacity := capacity (queue_of p w); requests := rs; signal := sg |} w).
Proof.
  intros Hs Hb (_ & H1 & H2)%(engine_inv_from p). apply (engine_inv_from p). unfold engine_inv'.
  rewrite queue_of_with, queue_of_with_other. cbn [requests].
  split; [eapply books_outside; [apply outside_queue|done]|].
  split; [by apply queue_ok_sublist|by apply queue_ok_other].
Qed.

Lemma engine_inv_signal p held next cm w sg :
  engine_inv held next cm w →
  engine_inv held next cm (with_queue p {| capacity := capacity (queue_of p w);
    requests := requests (queue_of p w); signal := sg |} w).
Proof.
  intros Hi. eapply engine_inv_replace; [done| |exact Hi]. by apply (engine_inv_from p) in Hi as [? _].
Qed.

Lemma hoare_raise_signal p held next cm :
  hoare (engine_inv held next cm) (raise_signal p) (λ _, engine_inv held next cm).
Proof. apply hoare_modify. intros w. apply engine_inv_signal. Qed.

Lemma hoare_prune_cancelled p held next cm :
  hoare (engine_inv held next cm) (prune_cancelled p) (λ _, engine_inv held next cm).
Proof.
  intros w Hi. pose proof Hi as (Hb & H1 & H2)%(engine_inv_from p).
  unfold prune_cancelled. unfold mbind, M_bind, gets, set_requests, modify.
  pose proof (hoare_prune_loop (held ++ requests (queue_of (other p) w)) next cm (queues w)
    (requests (queue_of p w)) [] w) as Hl.
  cbn [app] in Hl. specialize (Hl (conj Hb eq_refl)).
  destruct (prune_loop _ _ w) as [kept w']. cbn [fst snd] in *. destruct Hl as (Hb' & Hq & Hs).
  pose proof (queues_of p _ _ Hq) as Hqp. pose proof (queues_of (other p) _ _ Hq) as Hqo.
  apply (engine_inv_from p). unfold engine_inv'. rewrite queue_of_with, queue_of_with_other.
  cbn [requests]. rewrite Hqo.
  split; [eapply books_outside; [apply outside_queue|done]|].
  split; [apply queue_ok_sublist; [by rewrite Hqp|]|apply queue_ok_other];
    unfold queue_ok; by rewrite ?Hqp, ?Hqo.
Qed.

(** A popped request moves to the caller. *)
Definition held_with (o : option EmbeddingRequest) (held : list EmbeddingRequest)
  : list EmbeddingRequest :=
  match o with Some r => r :: held | None => held end.

Lemma hoare_try_pop p held next cm :
  hoare (engine_inv held next cm) (try_pop p) (λ o, engine_inv (held_with o held) next cm).
Proof.
  unfold try_pop. hbind; [apply hoare_prune_cancelled|].
  hbind; [apply hoare_gets|]. destruct (requests a0) as [|r rest] eqn:Hr.
  { apply hoare_ret. by intros w [_ Hi]. }
  hbind.
  { apply (hoare_modify _ _ (engine_inv (r :: held) next cm)).
    intros w [-> Hi]. cbn zeta. eapply engine_inv_replace; [| |exact Hi].
    - rewrite Hr. by constructor.
    - apply (engine_inv_from p) in Hi as [Hb _]. rewrite Hr in Hb.
      eapply books_perm; [|exact Hb]. cbn. by rewrite <- Permutation_middle. }
  eapply (hoare_bind _ _ _ (λ _, engine_inv (r :: held) next cm)).
  - case_bool_decide; [by apply hoare_ret|apply hoare_raise_signal].
  - intros []. by apply hoare_ret.
Qed.

(** The names given out, which the queues do not touch. *)
Definition ids (w : World) : list EmbeddingRequest * nat := (issued w, next_channel w).

Lemma ids_cancels l w : ids (foldl (λ w a, apply_cancel a w) w l) = ids w.
Proof. revert w. induction l as [|[] l IH]; intros w; cbn; [done|..]; by rewrite IH. Qed.

Lemma hoare_ids_prune_loop x rs : ∀ retained,
  hoare (λ w, ids w = x) (prune_loop rs retained) (λ _ w, ids w = x).
Proof.
  induction rs as [|r rs IH]; intros retained; cbn [prune_loop]; [by apply hoare_ret|].
  hbind.
  { apply (hoare_modify _ _ (λ w, ids w = x)). intros w <-. by rewrite ids_cancels. }
  hbind; [apply hoare_gets|]. destruct a0; (eapply hoare_pre; [|by intros w [_ Hw]; exact Hw]).
  - hbind; [by apply (hoare_modify _ _ (λ w, ids w = x))|].
    hbind; [by apply (hoare_modify _ _ (λ w, ids w = x))|]. apply IH.
  - apply IH.
Qed.
Lemma hoare_ids_try_push x p request :
  hoare (λ w, ids w = x) (try_push p request) (λ _ w, ids w = x).
Proof.
  unfold try_push, prune_cancelled. hbind.
  { hbind; [apply hoare_gets|]. hbind.
    - eapply hoare_pre; [apply (hoare_ids_prune_loop x)|by intros w [_ Hw]].
    - by apply (hoare_modify _ _ (λ w, ids w = x)). }
  hbind; [apply hoare_gets|].
  eapply hoare_pre; [|intros w [_ Hw]; exact Hw].
  destruct (_ <=? _); [by apply hoare_ret|].
  hbind; [by apply (hoare_modify _ _ (λ w, ids w = x))|].
  hbind; [by apply (hoare_modify _ _ (λ w, ids w = x))|]. by apply hoare_ret.
Qed.

(** A request is in the queue and its handle is not given out yet. *)
Definition pushed (p : RequestPriority) (request : EmbeddingRequest)
    (held : list EmbeddingRequest) (next : list Z) (cm : list nat) (w : World) : Prop :=
  ∃ rs, requests (queue_of p w) = rs ++ [request] ∧
    books (rs ++ held ++ requests (queue_of (other p) w)) next cm w ∧
    capacity (queue_of p w) = 64 ∧ len (rs ++ [request]) ≤ 64 ∧
    StronglySorted lt (rq_response <$> rs) ∧ queue_ok (other p) w.

Lemma hoare_try_push p request held next cm :
  hoare (engine_inv held next cm) (try_push p request)
    (λ accepted, if (accepted : bool) then pushed p request held next cm
                 else engine_inv held next cm).
Proof.
  unfold try_push. hbind; [apply hoare_prune_cancelled|]. hbind; [apply hoare_gets|].
  destruct (_ <=? _) eqn:Hfull; [apply hoare_ret; by intros w [_ Hi]|].
  apply Z.leb_gt in Hfull.
  hbind.
  { apply (hoare_modify _ _ (pushed p request held next cm)). intros w [-> Hi]. cbn zeta.
    apply (engine_inv_from p) in Hi as (Hb & (Hc & Hl & Hs) & Ho).
    exists (requests (queue_of p w)). rewrite queue_of_with, queue_of_with_other. cbn.
    split; [done|]. split; [eapply books_outside; [apply outside_queue|done]|].
    split; [done|]. rewrite len_app, len_cons. split; [unfold len in *; simpl; lia|].
    split; [done|by apply queue_ok_other]. }
  hbind; [|by apply (hoare_ret (pushed p request held next cm))].
  apply hoare_modify. intros w (rs & H1 & H2 & H3 & H4 & H5 & H6). exists rs.
  rewrite queue_of_with, queue_of_with_other. cbn.
  split; [done|]. split; [eapply books_outside; [apply outside_queue|done]|].
  split; [done|]. split; [done|]. split; [done|by apply queue_ok_other].
Qed.

(** Giving out a fresh handle. *)
Lemma books_issue pend next cm w r :
  books pend next cm w → Forall (λ x, rq_response x < rq_response r)%nat (issued w) →
  (rq_response r < next_channel w)%nat → rq_inputs r ≠ [] →
  books (r :: pend) next cm (with_issued (issued w ++ [r]) w).
Proof.
  intros [H1 H2 H3 H4 H5 H6 H7] Hf Hn Hi. split; cbn; [| | | | |done|done].
  - rewrite fmap_app, H1. cbn. rewrite <- app_assoc. apply Permutation_app_head.
    by rewrite Permutation_app_comm.
  - constructor.
    + split; [apply elem_of_app; right; by left|done].
    + eapply Forall_impl; [exact H2|]. intros x [??]. split; [by apply elem_of_app; left|done].
  - rewrite fmap_app. apply strongly_sorted_snoc; [done|]. by apply Forall_fmap.
  - apply Forall_app. split; [done|]. by constructor.
  - intros ch c Hin. destruct (H5 ch c Hin) as (x & Hx & Hch & [Ha Hb]). exists x.
    split; [by apply elem_of_app; left|]. split; [done|]. split; [done|].
    intros Hne. by destruct (Hb Hne).
Qed.

Lemma engine_inv_issue p r held next cm w :
  pushed p r held next cm w → Forall (λ x, rq_response x < rq_response r)%nat (issued w) →
  (rq_response r < next_channel w)%nat → rq_inputs r ≠ [] →
  engine_inv held next cm (with_issued (issued w ++ [r]) w).
Proof.
  intros (rs & H1 & H2 & H3 & H4 & H5 & H6) Hf Hn Hi. apply (engine_inv_from p).
  unfold engine_inv'.
  assert (Hq : ∀ p', queue_of p' (with_issued (issued w ++ [r]) w) = queue_of p' w) by by intros [].
  unfold queue_ok. rewrite !Hq. split; [|split; [|done]].
  - rewrite H1. eapply books_perm; [|by apply books_issue].
    rewrite <- app_assoc. cbn. by rewrite <- Permutation_middle.
  - rewrite H1. split; [done|]. split; [done|]. rewrite fmap_app. cbn.
    apply strongly_sorted_snoc; [done|]. apply Forall_fmap, Forall_forall. intros x Hx. cbn.
    destruct H2 as [_ Hm _ _ _ _ _]. rewrite Forall_forall in Hm, Hf.
    apply Hf. apply Hm. apply elem_of_app. by left.
Qed.

Lemma books_immediate pend next cm w r :
  books pend next cm w → Forall (λ x, rq_response x < rq_response r)%nat (issued w) →
  (rq_response r < next_channel w)%nat → rq_inputs r = [] →
  books pend next cm
    (with_issued (issued w ++ [r]) (with_sent (sent w ++
       [(rq_response r, Ok {| vectors := []; completion_sequence := 0 |})]) w)).
Proof.
  intros [H1 H2 H3 H4 H5 H6 H7] Hf Hn Hi. split; cbn; [| | | | | |done].
  - rewrite !fmap_app, H1. cbn. rewrite <- !app_assoc. apply Permutation_app_head.
    apply Permutation_app_comm.
  - eapply Forall_impl; [exact H2|]. intros x [??]. split; [by apply elem_of_app; left|done].
  - rewrite fmap_app. apply strongly_sorted_snoc; [done|]. by apply Forall_fmap.
  - apply Forall_app. split; [done|]. by constructor.
  - intros ch c [Hin|Hin]%elem_of_app.
    + destruct (H5 ch c Hin) as (x & Hx & Hch & [Ha Hb]). exists x.
      split; [by apply elem_of_app; left|]. split; [done|]. split; [done|].
      intros Hne. by destruct (Hb Hne).
    + apply list_elem_of_singleton in Hin. injection Hin as -> ->.
      exists r. split; [apply elem_of_app; right; by left|]. done.
  - unfold ok_sequences. rewrite omap_app. cbn. by rewrite app_nil_r.
Qed.

(** ** Submission *)
Lemma submit_inv held next cm ctx inputs p w :
  engine_inv held next cm w → engine_inv held next cm (submit ctx inputs p w).2.
Proof.
  intros Hi. unfold submit. unfold fresh_channel, update. unfold mbind at 1, M_bind at 1.
  set (r := {| rq_context := ctx; rq_inputs := inputs; rq_response := next_channel w |}).
  set (w1 := with_next_channel (S (next_channel w)) w).
  assert (Hi1 : engine_inv held next cm w1 ∧
    Forall (λ x, rq_response x < next_channel w)%nat (issued w1)).
  { destruct Hi as ([H1 H2 H3 H4 H5 H6 H7] & Hq1 & Hq2). split; [|done].
    split; [|done]. split; cbn; [done|done|done| |done|done|done].
    eapply Forall_impl; [exact H4|]. intros x. cbn. lia. }
  destruct Hi1 as [Hi1 Hf].
  case_bool_decide as Hin.
  - cbn [snd]. unfold send, issue, modify. unfold mbind, M_bind. cbn [snd fst].
    unfold mret, M_ret. cbn [snd].
    apply (engine_inv_from p) in Hi1 as (Hb & Hq1 & Hq2). apply (engine_inv_from p).
    split; [|done].
    apply (books_immediate _ _ _ w1 r); [|done|cbn; lia|done].
    unfold w1 in Hb. by destruct p.
  - pose proof (hoare_and _ _ _ _ _ (hoare_try_push p r held next cm)
      (hoare_ids_try_push (ids w1) p r) w1 (conj Hi1 eq_refl)) as [Hpost Hids].
    unfold mbind at 1, M_bind at 1. destruct (try_push p r w1) as [acc w2]. cbn [fst snd] in *.
    destruct acc.
    + unfold mbind, M_bind, issue, modify, mret, M_ret. cbn [snd].
      apply (engine_inv_issue p); [done| | |done]; unfold ids in Hids;
        injection Hids as Hids1 Hids2; rewrite ?Hids1, ?Hids2; cbn; [done|lia].
    + unfold mbind, M_bind, gets, mret, M_ret. cbn [snd]. exact Hpost.
Qed.

(** ** Client actions *)
Lemma run_action_inv held next cm a w :
  engine_inv held next cm w → engine_inv held next cm (run_action a w).
Proof.
  intros Hi. destruct a as [ctx inputs p cancels|n|c| | | |d]; cbn [run_action].
  - set (w1 := with_schedule (map ClientCancel <$> cancels) w).
    apply (engine_inv_outside _ _ _ (submit ctx inputs p w1).2); [by split|done|].
    apply submit_inv. by apply (engine_inv_outside _ _ _ w).
  - apply (engine_inv_outside _ _ _ w); [apply outside_cancel|done|exact Hi].
  - by apply (engine_inv_outside _ _ _ w).
  - by apply (engine_inv_outside _ _ _ w).
  - by apply (engine_inv_outside _ _ _ w).
  - unfold begin_draining_if_idle, gets. unfold mbind, M_bind.
    destruct (_ || _); [exact Hi|]. cbn. by apply (engine_inv_outside _ _ _ w).
  - by apply (engine_inv_outside _ _ _ w).
Qed.

Lemma hoare_yield held next cm :
  hoare (engine_inv held next cm) yield (λ _, engine_inv held next cm).
Proof.
  apply hoare_modify. intros w Hi. generalize (next_actions w) as l.
  assert (Hi' : engine_inv held next cm (with_schedule (tail (schedule w)) w))
    by (by apply (engine_inv_outside _ _ _ w)).
  revert Hi'. generalize (with_schedule (tail (schedule w)) w) as w'. clear.
  intros w Hi l. unfold run_actions. revert w Hi.
  induction l as [|a l IH]; intros w Hi; cbn; [done|]. by apply IH, run_action_inv.
Qed.

End Books.

(** * The native engine: embedding a request and settling it

    The vectors of an embedded request are the model's, in input order; handling a
    request keeps the books and answers it. *)
Section Requests.
Context (model : NativeModel) (config : NativeEmbeddingRequest).
Context (Hseq : 0 < er_max_batch_sequences config).

Abbreviation engine_inv := (engine_inv model config).
Abbreviation books := (books model config).
Abbreviation embedding_of := (embedding_of model config).

(** ** Batches *)
Definition vector_of (tokens : list LlamaToken) (vector : list f32) : Prop :=
  ∃ batch i, batch !! i = Some tokens ∧ encode model batch = Ok () ∧
    embeddings_seq_ith model batch (Z.of_nat i) = Ok vector ∧ len vector = er_dimension config.

Lemma add_sequences_ok sequences : ∀ batch b,
  add_sequences model sequences batch = Ok b → b = batch ++ sequences.
Proof.
  induction sequences as [|s sequences IH]; intros batch b H; cbn in H.
  { injection H as <-. by rewrite app_nil_r. }
  apply bind_Ok in H as (? & _ & H). apply IH in H as ->. by rewrite <- app_assoc.
Qed.

Lemma read_vectors_ok batch sequences : ∀ done_ output out,
  batch = done_ ++ sequences → encode model batch = Ok () →
  read_vectors model (length sequences) batch (len done_) output (er_dimension config) = Ok out →
  ∃ vs, out = output ++ vs ∧ Forall2 vector_of sequences vs.
Proof.
  induction sequences as [|s sequences IH]; intros done_ output out Hb He H; cbn in H.
  { injection H as <-. exists []. rewrite app_nil_r. done. }
  apply bind_Ok in H as (v & Hv & H).
  destruct (len v =? er_dimension config) eqn:Hd; [|done]. apply Z.eqb_eq in Hd.
  destruct (IH (done_ ++ [s]) (output ++ [v]) out) as (vs & -> & Hvs).
  - by rewrite <- app_assoc.
  - done.
  - by rewrite len_app.
  - exists (v :: vs). split; [by rewrite <- app_assoc|]. constructor; [|done].
    exists batch, (length done_). split; [by rewrite Hb, list_lookup_middle|].
    split; [done|]. split; [|done].
    unfold llama_error in Hv. unfold len in Hv. destruct (embeddings_seq_ith _ _ _); congruence.
Qed.

Lemma embed_token_batch_ok sequences output out :
  embed_token_batch model sequences output (er_dimension config) = Ok out →
  ∃ vs, out = output ++ vs ∧ Forall2 vector_of sequences vs.
Proof.
  unfold embed_token_batch. intros H. apply bind_Ok in H as (b & Hb & H).
  apply bind_Ok in H as (u & He & H). apply add_sequences_ok in Hb as ->. cbn in *.
  apply (read_vectors_ok sequences sequences []); [done| |done].
  unfold llama_error in He. destruct (encode model sequences) as [[]|]; congruence.
Qed.

(** One step of the batch loop. *)
Lemma batch_slice_vectors tokenized offset output out :
  let end_ := batch_end tokenized offset (er_max_batch_sequences config) (er_batch_tokens config) in
  0 ≤ offset < len tokenized → Forall2 vector_of (take (Z.to_nat offset) tokenized) output →
  embed_token_batch model (batch_slice tokenized offset end_) output (er_dimension config) = Ok out →
  offset < end_ ≤ len tokenized ∧ Forall2 vector_of (take (Z.to_nat end_) tokenized) out.
Proof.
  cbn zeta. intros Ho Hout H.
  destruct (batch_end_fits tokenized offset (er_max_batch_sequences config)
    (er_batch_tokens config)) as [B1 _ _ _]; [done|done|].
  set (end_ := batch_end _ _ _ _) in *.
  assert (Hl : len (drop (Z.to_nat offset) tokenized) = len tokenized - offset).
  { unfold len in *. rewrite length_drop. lia. }
  split; [lia|]. apply embed_token_batch_ok in H as (vs & -> & Hvs).
  unfold batch_slice in Hvs.
  replace (Z.to_nat end_) with (Z.to_nat offset + Z.to_nat (end_ - offset))%nat by lia.
  rewrite <- take_take_drop. by apply Forall2_app.
Qed.

(** More rounds than inputs change nothing. *)
Lemma embed_loop_fuel handle_query fuel extra tokenized priority ctx : ∀ offset output w,
  0 ≤ offset ≤ len tokenized → len tokenized - offset ≤ Z.of_nat fuel →
  embed_loop model config handle_query (fuel + extra) tokenized priority ctx offset output w =
  embed_loop model config handle_query fuel tokenized priority ctx offset output w.
Proof.
  induction fuel as [|fuel IH]; intros offset output w Ho Hf; cbn [embed_loop Nat.add].
  { destruct extra; [done|]. cbn [embed_loop].
    destruct (offset <? len tokenized) eqn:Hlt; [apply Z.ltb_lt in Hlt; lia|done]. }
  destruct (offset <? len tokenized) eqn:Hlt; [apply Z.ltb_lt in Hlt|done].
  destruct (batch_end_fits tokenized offset (er_max_batch_sequences config)
    (er_batch_tokens config)) as [B1 _ _ _]; [lia|done|].
  assert (Hl : len (drop (Z.to_nat offset) tokenized) = len tokenized - offset).
  { unfold len in *. rewrite length_drop. lia. }
  unfold mbind, M_bind. destruct (ensure_embedding_request_live ctx w) as [[u|e] w1]; [|done].
  destruct (embed_token_batch _ _ _ _) as [out|e]; [|done].
  destruct (yield w1) as [u2 w2]. destruct (tracker_op _ w2) as [u3 w3].
  destruct (between_batches _ _ _ _ w3) as [[u4|e] w4]; [|done]. apply IH; lia.
Qed.

(** ** The loop *)
Section Handler.
Context (handle_query : EmbeddingRequest → M ()) (priority : RequestPriority).
Context (Hhandle : priority = RequestPriority.Bulk → ∀ q held cm,
  hoare (engine_inv (q :: held) [] cm) (handle_query q) (λ _, engine_inv held [] cm)).

Lemma hoare_tracker_op held next cm f :
  (∀ t, completed_request_count (f t) = completed_request_count t) →
  hoare (engine_inv held next cm) (tracker_op f) (λ _, engine_inv held next cm).
Proof.
  intros Hf. apply hoare_modify. intros w Hi.
  apply (engine_inv_outside _ _ _ _ _ w); [apply outside_tracker; apply Hf|done|done].
Qed.

Lemma hoare_live ctx held next cm :
  hoare (engine_inv held next cm) (ensure_embedding_request_live ctx)
    (λ _, engine_inv held next cm).
Proof.
  unfold ensure_embedding_request_live. hbind; [apply hoare_yield|].
  hbind; [apply hoare_gets|]. apply hoare_ret. by intros w [_ Hi].
Qed.

Lemma hoare_between_batches more ctx held cm :
  hoare (engine_inv held [] cm) (between_batches handle_query priority more ctx)
    (λ _, engine_inv held [] cm).
Proof.
  unfold between_batches. destruct (bool_decide _ && _) eqn:Hp; [|by apply hoare_ret].
  apply andb_true_iff in Hp as [Hp%bool_decide_eq_true _].
  unfold take_query_between_bulk_batches.
  hbind; [hbind; [apply hoare_yield|apply hoare_try_pop]|].
  eapply (hoare_bind _ _ _ (λ _, engine_inv held [] cm)); [|intros _; apply hoare_live].
  destruct a as [q|]; [by apply Hhandle|by apply hoare_ret].
Qed.

Lemma hoare_embed_loop fuel tokenized ctx held cm : ∀ offset output,
  0 ≤ offset ≤ len tokenized → len tokenized - offset ≤ Z.of_nat fuel →
  Forall2 vector_of (take (Z.to_nat offset) tokenized) output →
  hoare (engine_inv held [] cm)
    (embed_loop model config handle_query fuel tokenized priority ctx offset output)
    (λ r w, (∀ out, r = Ok out → Forall2 vector_of tokenized out) ∧ engine_inv held [] cm w).
Proof.
  assert (Hdone : ∀ offset output, len tokenized ≤ offset →
    Forall2 vector_of (take (Z.to_nat offset) tokenized) output →
    hoare (engine_inv held [] cm) (mret (Ok (E:=EngineError) output))
    (λ r w, (∀ out, r = Ok out → Forall2 vector_of tokenized out) ∧ engine_inv held [] cm w)).
  { intros offset output Ho Hout. apply hoare_ret. intros w Hi. split; [|done].
    intros out [= <-]. rewrite take_ge in Hout; [done|]. unfold len in Ho. lia. }
  assert (Herr : ∀ e, hoare (engine_inv held [] cm) (mret (Err (E:=EngineError) e))
    (λ r w, (∀ out, r = Ok out → Forall2 vector_of tokenized out) ∧ engine_inv held [] cm w)).
  { intros e. by apply hoare_ret. }
  induction fuel as [|fuel IH]; intros offset output Ho Hf Hout; cbn [embed_loop].
  { apply (Hdone offset); [lia|done]. }
  destruct (offset <? len tokenized) eqn:Hlt; [apply Z.ltb_lt in Hlt|apply Z.ltb_ge in Hlt].
  2: { by apply (Hdone offset). }
  hbind; [apply hoare_live|]. destruct a as [_|e]; [|apply Herr].
  destruct (embed_token_batch _ _ _ _) as [out|e] eqn:Hb; [|apply Herr].
  apply batch_slice_vectors in Hb as [He Hout']; [|lia|done].
  hbind; [apply hoare_yield|]. hbind; [by apply hoare_tracker_op|].
  hbind; [apply hoare_between_batches|]. destruct a1 as [_|e]; [|apply Herr].
  apply IH; [lia|lia|done].
Qed.

Lemma tokenize_all_embeds inputs tokenized out :
  tokenize_all (str_to_token model) inputs (er_max_input_tokens config) = Ok tokenized →
  Forall2 vector_of tokenized out → Forall2 embedding_of inputs out.
Proof.
  intros (_ & Hm & Ht)%tokenize_all_spec Hv. revert out Hv Hm.
  induction Ht as [|input tokens inputs tokenized Ht _ IH]; intros out Hv Hm.
  { by inversion Hv. }
  inversion Hv as [|? v ? vs Hv1 Hv2]; subst. apply Forall_cons in Hm as [Hm1 Hm2].
  constructor; [|by apply IH]. destruct Hv1 as (batch & i & H1 & H2 & H3 & H4).
  exists tokens, batch, i. done.
Qed.

Lemma hoare_embed_inputs inputs ctx held cm :
  inputs ≠ [] →
  hoare (engine_inv held [] cm) (embed_inputs model config handle_query inputs priority ctx)
    (λ r w, (∀ out, r = Ok out → Forall2 embedding_of inputs out) ∧ engine_inv held [] cm w).
Proof.
  intros Hne. unfold embed_inputs. rewrite bool_decide_eq_false_2 by done.
  destruct (existsb _ inputs); [by apply hoare_ret|].
  destruct (tokenize_all _ _ _) as [tokenized|e] eqn:Ht; [|by apply hoare_ret].
  hbind.
  { apply (hoare_embed_loop _ tokenized ctx held cm 0 []); [unfold len; lia|unfold len; lia|done]. }
  destruct a as [out|e]; [|by apply hoare_ret; intros w [_ Hi]].
  apply hoare_pure. intros Hout. specialize (Hout out eq_refl).
  hbind; [apply hoare_yield|].
  eapply (hoare_bind _ _ _ (λ _, engine_inv held [] cm)).
  - apply hoare_modify. intros w Hi.
    apply (engine_inv_outside _ _ _ _ _ w); [|done|done]. apply outside_set_cell. done.
  - intros _. apply hoare_ret. intros w Hi. split; [|done]. intros out' [= <-].
    by eapply tokenize_all_embeds.
Qed.

(** ** Settling *)
Lemma hoare_begin r held cm class :
  hoare (engine_inv held [] cm) (begin_request r class) (λ _, engine_inv held [] cm).
Proof.
  apply hoare_update. intros w Hi.
  destruct (decide (lifecycle (context_cell w r) = RequestLifecycle.Queued)) as [Hq|Hq].
  - destruct (context_cell w r) as [l n] eqn:Hc. cbn in Hq. subst l. rewrite begin_queued.
    cbn [fst snd]. apply (engine_inv_outside _ _ _ _ _ w); [|done|done].
    apply (outside_trans _ (with_tracker (progress (with_active (active (tracker w) ++
      [active_entry r class]) (tracker w)) class) w)).
    + by apply outside_tracker.
    + apply outside_set_cell. unfold committed_in, cell_at. cbn.
      unfold context_cell, cell_at in Hc. by rewrite Hc.
  - rewrite begin_refused by done. cbn [fst snd].
    apply (engine_inv_outside _ _ _ _ _ w); [|done|done].
    eapply outside_trans; [by apply (outside_tracker (count_cancelled (tracker w)))|].
    by apply outside_set_cell.
Qed.

Lemma hoare_hold_loop rounds ctx held cm :
  hoare (engine_inv held [] cm) (hold_loop rounds ctx) (λ _, engine_inv held [] cm).
Proof.
  induction rounds as [|rounds IH]; cbn [hold_loop]; [by apply hoare_ret|].
  hbind; [apply hoare_yield|]. hbind; [apply hoare_gets|].
  eapply hoare_pre; [|intros w [_ Hi]; exact Hi]. destruct a0; [by apply hoare_ret|apply IH].
Qed.

Lemma finish_completed t ctx class succeeded cancelled :
  completed_request_count (finish t ctx class succeeded cancelled).1 =
    (if succeeded && negb cancelled then bump (completed_request_count t)
     else completed_request_count t) ∧
  (finish t ctx class succeeded cancelled).2 =
    completed_request_count (finish t ctx class succeeded cancelled).1.
Proof.
  unfold finish. destruct (remove_last _ _), cancelled, succeeded; split; reflexivity.
Qed.

Lemma hoare_finish_failed ctx class succeeded cancelled held cm :
  succeeded && negb cancelled = false →
  hoare (engine_inv held [] cm) (finish_request ctx class succeeded cancelled)
    (λ _, engine_inv held [] cm).
Proof.
  intros Hs. apply hoare_update. intros w Hi.
  destruct (finish_completed (tracker w) ctx class succeeded cancelled) as [H _].
  rewrite Hs in H. destruct (finish _ _ _ _ _) as [t n]. cbn in *.
  by apply (engine_inv_outside _ _ _ _ _ w); [apply outside_tracker|..].
Qed.

Lemma numbered_S n : numbered (S n) = numbered n ++ [Z.min u64_max (Z.of_nat n + 1)].
Proof. unfold numbered. by rewrite seq_S, fmap_app. Qed.

Lemma hoare_finish_ok ctx class held cm :
  hoare (engine_inv held [] cm) (finish_request ctx class true false)
    (λ n, engine_inv held [n] cm).
Proof.
  apply hoare_update. intros w ([H1 H2 H3 H4 H5 (k & H6 & H6') H7] & Hq).
  destruct (finish_completed (tracker w) ctx class true false) as [H Hn].
  destruct (finish _ _ _ _ _) as [t n]. cbn in *. subst n. split; [|exact Hq].
  split; cbn; [done..| |done]. exists (S k).
  assert (Hk : completed_request_count t = Z.min u64_max (Z.of_nat k + 1)).
  { rewrite H, H6'. unfold bump, saturating_add. lia. }
  rewrite numbered_S, <- H6, app_nil_r, Hk. split; [done|lia].
Qed.

Lemma hoare_send_error r e held cm :
  hoare (engine_inv (r :: held) [] cm) (send (rq_response r) (Err e))
    (λ _, engine_inv held [] cm).
Proof.
  apply hoare_modify. intros w [Hb Hq]. split; [|exact Hq].
  apply (books_send_error _ _ _ _ _ _ _ e Hb).
Qed.

Lemma hoare_send_ok r vs n held cm :
  Forall2 embedding_of (rq_inputs r) vs →
  hoare (engine_inv (r :: held) [n] (cell (rq_context r) :: cm))
    (send (rq_response r) (Ok {| vectors := vs; completion_sequence := n |}))
    (λ _, engine_inv held [] cm).
Proof.
  intros Hvs. apply hoare_modify. intros w ([H1 H2 H3 H4 H5 (k & H6 & H6') H7] & Hq).
  split; [|exact Hq]. cbn [app] in H1, H2. apply Forall_cons in H2 as [[Hr Hne] H2].
  apply Forall_cons in H7 as [Hcm H7].
  split; cbn; [|exact H2|done|done| | |done].
  - rewrite H1, fmap_app. cbn. by rewrite <- app_assoc.
  - intros ch c [Hin|Hin]%elem_of_app; [by apply H5|].
    apply list_elem_of_singleton in Hin. injection Hin as -> ->. exists r.
    split; [done|]. split; [done|]. by split.
  - exists k. split; [|done]. unfold ok_sequences in *. rewrite omap_app, app_nil_r, <- H6.
    f_equal. cbn. unfold ok_sequence. cbn.
    destruct (n =? 0) eqn:Hn; [|done]. apply Z.eqb_eq in Hn. subst n. exfalso.
    assert (Hz : 0 ∈ numbered k) by (rewrite <- H6; apply elem_of_app; right; by left).
    unfold numbered in Hz. apply list_elem_of_fmap in Hz as (x & Hx & _).
    unfold u64_max in Hx. lia.
Qed.

Lemma hoare_commit ctx held cm :
  hoare (engine_inv held [] cm) (update_cell (cell ctx) commit)
    (λ b, engine_inv held [] (if (b : bool) then cell ctx :: cm else cm)).
Proof.
  intros w Hi. unfold update_cell.
  destruct (decide (lifecycle (cell_at w (cell ctx)) = RequestLifecycle.Active)) as [Ha|Ha].
  - destruct (cell_at w (cell ctx)) as [l n] eqn:Hc. cbn in Ha. subst l.
    rewrite commit_active. cbn [fst snd].
    assert (Ho : outside w (set_cell (cell ctx) (mkRequestCell RequestLifecycle.Committed n) w))
      by (by apply outside_set_cell).
    pose proof (engine_inv_outside _ _ _ _ _ _ _ Ho eq_refl Hi) as [[]]. split; [|done].
    split; try done. constructor; [|done].
    unfold committed_in. rewrite cell_at_set. by destruct (decide _).
  - rewrite commit_other by done. cbn [fst snd].
    apply (engine_inv_outside _ _ _ _ _ w); [|done|done]. by apply outside_set_cell.
Qed.

(** Handling a request answers it. *)
Lemma hoare_handle_with request held cm :
  hoare (engine_inv (request :: held) [] cm)
    (handle_request_with model config handle_query request priority)
    (λ _, engine_inv held [] cm).
Proof.
  intros w0 Hw0.
  assert (Hne : rq_inputs request ≠ []).
  { destruct Hw0 as [[_ H2 _ _ _ _ _] _]. by apply Forall_cons in H2 as [[_ ?] _]. }
  revert w0 Hw0.
  change (hoare (engine_inv (request :: held) [] cm)
    (handle_request_with model config handle_query request priority)
    (λ _, engine_inv held [] cm)).
  unfold handle_request_with.
  hbind; [apply hoare_yield|]. hbind; [apply hoare_begin|].
  destruct a0; cbn [negb]; [|apply hoare_send_error].
  eapply (hoare_bind _ _ _ (λ _, engine_inv (request :: held) [] cm)).
  { apply hoare_update. intros w Hi. by apply (engine_inv_outside _ _ _ _ _ w). }
  intros rounds. hbind; [apply hoare_hold_loop|]. destruct a0.
  { hbind; [by apply hoare_finish_failed|]. hbind; [apply hoare_yield|]. apply hoare_send_error. }
  hbind; [by apply hoare_embed_inputs|]. rename a0 into embedded.
  apply hoare_pure. intros Hembedded.
  hbind; [apply hoare_yield|]. hbind; [apply hoare_gets|]. rename a1 into cancelled.
  eapply hoare_pre; [|intros w [_ Hi]; exact Hi].
  hbind; [apply hoare_yield|].
  eapply (hoare_bind _ _ _ (λ b w, (b = true → cancelled = false) ∧
    engine_inv (request :: held) [] (if (b : bool) then cell (rq_context request) :: cm else cm) w)).
  { destruct cancelled; [by apply hoare_ret|].
    eapply hoare_weaken; [apply hoare_commit|done|done]. }
  intros committed. apply hoare_pure. intros Hcancelled.
  hbind; [apply hoare_yield|].
  destruct committed; [|hbind; [by apply hoare_finish_failed|];
    hbind; [apply hoare_yield|]; apply hoare_send_error].
  rewrite Hcancelled by done. destruct embedded as [vs|e].
  - cbn [is_ok]. hbind; [apply hoare_finish_ok|]. hbind; [apply hoare_yield|].
    apply hoare_send_ok. by apply Hembedded.
  - cbn [is_ok]. hbind; [by apply hoare_finish_failed|]. hbind; [apply hoare_yield|].
    eapply hoare_weaken; [apply (hoare_send_error request e held (cell (rq_context request) :: cm))|done|].
    intros _ w [[] Hq]. split; [|done]. split; try done. by match goal with H : Forall (committed_in _) _ |- _ => apply Forall_cons in H as [_ ?] end.
Qed.

End Handler.

Lemma hoare_handle_query q held cm :
  hoare (engine_inv (q :: held) [] cm) (handle_query model config q)
    (λ _, engine_inv held [] cm).
Proof. by apply hoare_handle_with. Qed.

Lemma hoare_handle_request request priority held cm :
  hoare (engine_inv (request :: held) [] cm) (handle_request model config request priority)
    (λ _, engine_inv held [] cm).
Proof. apply hoare_handle_with. intros _. apply hoare_handle_query. Qed.

End Requests.
