(* ===== verification/EngineOwnerBooks.v ===== *)
(** * The native engine: what the owner loop guarantees

    The books of the requests hold through every generation, wake and failed load, so
    for any schedule of client actions each accepted request is answered at most once
    and none is lost while the owner runs. *)
From S2P Require Import Prelude RustStr Graph Admission EngineConfig EngineWorld.
From S2P Require Import EngineOwner EngineRequests.

Section OwnerBooks.
Context (model : NativeModel) (config : NativeEmbeddingRequest).
Context (Hseq : 0 < er_max_batch_sequences config).
Context (load : Z → result EngineError ()).

Abbreviation inv held := (engine_inv model config held [] []).

(** Operations that touch neither queues nor books. *)
Lemma hoare_outside {A} held (m : M A) :
  (∀ w, outside w (m w).2 ∧ queues (m w).2 = queues w) →
  hoare (inv held) m (λ _, inv held).
Proof. intros H w Hi. destruct (H w). by apply (engine_inv_outside _ _ _ _ _ w). Qed.

Lemma hoare_reply held c r : hoare (inv held) (reply c r) (λ _, inv held).
Proof. apply hoare_outside. intros w. unfold reply, update. by destruct (receiver_alive c). Qed.
Lemma hoare_publish held s : hoare (inv held) (publish_lifecycle s) (λ _, inv held).
Proof. apply hoare_outside. intros w. done. Qed.
Lemma hoare_now held : hoare (inv held) (gets now) (λ _, inv held).
Proof. apply hoare_outside. intros w. done. Qed.
Lemma hoare_owner_state held o :
  hoare (inv held) (tracker_op (λ t, set_owner_state t o)) (λ _, inv held).
Proof. by apply hoare_tracker_op. Qed.

(** A lowered signal. *)
Lemma inv_lower p held w : inv held w → inv held (lower_signal p w).
Proof. apply engine_inv_signal. Qed.
Lemma hoare_select held : hoare (inv held) (update select_ready) (λ _, inv held).
Proof.
  apply hoare_update. intros w Hi. unfold select_ready.
  destruct (control w) as [|c rest].
  - destruct (signal (query_queue w)); [by apply inv_lower|].
    destruct (signal (bulk_queue w)); [by apply inv_lower|exact Hi].
  - by apply (engine_inv_outside _ _ _ _ _ w).
Qed.
Lemma hoare_recv_control held : hoare (inv held) recv_control (λ _, inv held).
Proof.
  unfold recv_control. hbind; [apply hoare_yield|]. apply hoare_outside. intros w.
  unfold update. by destruct (control w).
Qed.

Lemma hoare_grant held c s t : hoare (inv held) (grant_residency_lease c s t) (λ _, inv held).
Proof. unfold grant_residency_lease. hbind; [apply hoare_reply|]. by apply hoare_ret. Qed.

Lemma hoare_control held c s t :
  hoare (inv held) (handle_resident_control c s t) (λ _, inv held).
Proof.
  unfold handle_resident_control. hbind; [apply hoare_now|]. destruct c.
  - by apply hoare_ret.
  - hbind; [apply hoare_reply|]. by apply hoare_ret.
  - hbind; [apply hoare_grant|]. by apply hoare_ret.
  - by apply hoare_ret.
Qed.

Lemma hoare_resident_handle r p held s :
  hoare (inv (r :: held)) (resident_handle model config s r p) (λ _, inv held).
Proof.
  unfold resident_handle. hbind; [by apply hoare_handle_request|].
  hbind; [apply hoare_yield|]. apply hoare_publish.
Qed.

Lemma hoare_scheduler held s :
  hoare (inv held) (scheduler_try_pop s)
    (λ a, inv (held_with (fst <$> a.1) held)).
Proof.
  unfold scheduler_try_pop. hbind; [apply hoare_yield|]. hbind; [apply hoare_try_pop|].
  destruct a0 as [r|]; [by apply hoare_ret|].
  hbind; [apply hoare_yield|]. hbind; [apply hoare_try_pop|].
  destruct a1 as [r|]; by apply hoare_ret.
Qed.

(** ** The serving loop *)
Lemma hoare_serve_control c snapshot s :
  hoare (inv []) (serve_control c snapshot s) (λ _, inv []).
Proof. unfold serve_control. hbind; [apply hoare_control|]. by apply hoare_ret. Qed.

Lemma hoare_serve_head snapshot s :
  hoare (inv []) (serve_head model config snapshot s) (λ _, inv []).
Proof.
  unfold serve_head. hbind; [apply hoare_recv_control|].
  destruct a as [c|]; [apply hoare_serve_control|].
  hbind; [apply hoare_scheduler|]. destruct a as [[[r p]|] s']; cbn [fst fmap option_fmap option_map held_with].
  - hbind; [apply hoare_resident_handle|]. hbind; [apply hoare_now|]. by apply hoare_ret.
  - hbind; [apply hoare_now|]. by apply hoare_ret.
Qed.

Lemma hoare_serve_select snapshot deadline s :
  hoare (inv []) (serve_select snapshot deadline s) (λ _, inv []).
Proof.
  unfold serve_select. eapply (hoare_bind _ _ _ (λ _, inv [])).
  { unfold select_resident. hbind; [apply hoare_yield|]. hbind; [apply hoare_select|].
    hbind; [apply hoare_now|]. by apply hoare_ret. }
  intros []; [apply hoare_serve_control|by apply hoare_ret| |by apply hoare_ret].
  hbind; [apply hoare_yield|]. hbind; [apply hoare_now|]. by apply hoare_ret.
Qed.

Lemma hoare_serve_loop fuel snapshot : ∀ s,
  hoare (inv []) (serve_loop model config fuel snapshot s) (λ _, inv []).
Proof.
  induction fuel as [|fuel IH]; intros s; cbn [serve_loop]; [by apply hoare_ret|].
  eapply (hoare_bind _ _ _ (λ _, inv [])).
  { unfold serve_round. destruct (point s); [apply hoare_serve_head|apply hoare_serve_select]. }
  intros [[r|] s']; [by apply hoare_ret|apply IH].
Qed.

(** The request a wake reason carries. *)
Definition wake_held (wake : WakeReason) : list EmbeddingRequest :=
  match wake with WakeQuery r | WakeBulk r => [r] | _ => [] end.

Lemma hoare_serve_wake wake snapshot t :
  hoare (inv (wake_held wake)) (serve_wake model config wake snapshot t) (λ _, inv []).
Proof.
  unfold serve_wake. destruct wake; cbn [wake_held].
  - hbind; [apply hoare_reply|]. by apply hoare_ret.
  - hbind; [apply hoare_resident_handle|]. hbind; [apply hoare_now|]. by apply hoare_ret.
  - hbind; [apply hoare_resident_handle|]. hbind; [apply hoare_now|]. by apply hoare_ret.
  - hbind; [apply hoare_now|]. hbind; [apply hoare_reply|]. by apply hoare_ret.
  - hbind; [apply hoare_grant|]. by apply hoare_ret.
Qed.

(** What a generation leaves: a shutdown may drop the request it was woken for. *)
Definition after_generation (result : option ResidentRunResult) (w : World) : Prop :=
  match result with
  | Some (RunShutdown _) => ∃ held, (length held ≤ 1)%nat ∧ inv held w
  | Some (RunLoadFailed wake _) => inv (wake_held wake) w
  | _ => inv [] w
  end.

(** A control message never ends in a failed load, and serving never does. *)
Definition no_failure (result : option ResidentRunResult) : Prop :=
  ∀ wake e, result ≠ Some (RunLoadFailed wake e).

Lemma serve_control_no_failure c snapshot s w :
  no_failure (serve_control c snapshot s w).1.1.
Proof.
  intros wake e. unfold serve_control, handle_resident_control, gets.
  unfold mbind, M_bind, mret, M_ret. destruct c; cbn; [done| | |done].
  - unfold reply, update. by destruct (receiver_alive response).
  - unfold grant_residency_lease, reply, update, mbind, M_bind, mret, M_ret.
    by destruct (receiver_alive response).
Qed.

Lemma serve_loop_no_failure fuel snapshot : ∀ s w,
  no_failure (serve_loop model config fuel snapshot s w).1.1.
Proof.
  induction fuel as [|fuel IH]; intros s w; cbn [serve_loop]; [done|].
  assert (Hr : no_failure (serve_round model config snapshot s w).1.1).
  { unfold serve_round, serve_head, serve_select. destruct (point s) as [|d].
    - unfold mbind, M_bind, gets, mret, M_ret. destruct (recv_control w) as [[c|] w1].
      { apply serve_control_no_failure. }
      destruct (scheduler_try_pop _ _) as [[[[r p]|] s'] w2]; [|done].
      by destruct (resident_handle _ _ _ _ _ _).
    - unfold mbind, M_bind, mret, M_ret. destruct (select_resident d w) as [[] w1];
        [apply serve_control_no_failure|done| |done].
      destruct (yield w1) as [u w2]. unfold gets. cbn. by destruct (should_sleep _ _). }
  unfold mbind, M_bind. destruct (serve_round _ _ _ _ w) as [[[r|] s'] w']; [exact Hr|apply IH].
Qed.

Lemma wake_held_length wake : (length (wake_held wake) ≤ 1)%nat.
Proof. destruct wake; cbn; lia. Qed.

Lemma control_result c snapshot t w r :
  (handle_resident_control c snapshot t w).1.1 = Some r → r = RunShutdown snapshot.
Proof.
  unfold handle_resident_control, gets, mbind, M_bind, mret, M_ret. destruct c; cbn.
  - by intros [= <-].
  - unfold reply, update. by destruct (receiver_alive response).
  - unfold grant_residency_lease, reply, update, mbind, M_bind, mret, M_ret.
    by destruct (receiver_alive response).
  - done.
Qed.

Lemma hoare_serve_generation fuel wake snapshot timeout :
  hoare (inv (wake_held wake))
    (serve_resident_generation model config fuel wake snapshot timeout) after_generation.
Proof.
  unfold serve_resident_generation. hbind; [apply hoare_now|].
  hbind; [apply hoare_recv_control|].
  eapply (hoare_bind _ _ _ (λ first w,
    (∀ r, first.1 = Some r → r = RunShutdown snapshot) ∧ inv (wake_held wake) w)).
  { destruct a0 as [c|]; [|by apply hoare_ret]. intros w Hi. split; [|by apply hoare_control].
    intros r. apply control_result. }
  intros [[r|] t]; cbn [fst].
  - apply hoare_pure. intros Hr. rewrite (Hr r eq_refl). apply hoare_ret. intros w Hi.
    exists (wake_held wake). split; [apply wake_held_length|done].
  - apply hoare_pure. intros _. hbind; [apply hoare_serve_wake|].
    intros w Hi. pose proof (serve_loop_no_failure fuel snapshot a1 w) as Hn.
    pose proof (hoare_serve_loop fuel snapshot a1 w Hi) as Hw. unfold mbind, M_bind.
    destruct (serve_loop _ _ _ _ _ _) as [[[[s|s|wk e]|] s'] w']; cbn in *.
    + done.
    + exists []. split; [cbn; lia|done].
    + by destruct (Hn wk e).
    + done.
Qed.

Lemma hoare_generation fuel wake generation attempt :
  hoare (inv (wake_held wake))
    (run_resident_generation model config load fuel wake generation attempt) after_generation.
Proof.
  unfold run_resident_generation. hbind; [apply hoare_owner_state|].
  hbind; [apply hoare_yield|]. destruct (load attempt) as [[]|e]; [|by apply hoare_ret].
  hbind; [apply hoare_owner_state|]. hbind; [apply hoare_yield|].
  hbind; [apply hoare_publish|]. apply hoare_serve_generation.
Qed.

(** ** Waiting and failing *)
Lemma hoare_fail_wake wake e : hoare (inv (wake_held wake)) (fail_wake wake e) (λ _, inv []).
Proof.
  unfold fail_wake. destruct wake; cbn [wake_held];
    (hbind; [apply hoare_reply || apply hoare_send_error|]; by apply hoare_ret).
Qed.

Definition woken_held (o : option Woken) : list EmbeddingRequest :=
  match o with Some (WokenBy wake) => wake_held wake | _ => [] end.

Lemma hoare_wake_from_queue p :
  hoare (inv []) (wake_from_queue p) (λ o, inv (woken_held o)).
Proof.
  unfold wake_from_queue. hbind; [apply hoare_yield|]. hbind; [apply hoare_try_pop|].
  destruct a0 as [r|]; [|by apply hoare_ret]. cbn [held_with].
  hbind; [apply hoare_yield|]. hbind; [apply hoare_gets|].
  eapply hoare_pre; [|intros w [_ Hi]; exact Hi]. destruct a1.
  - hbind; [by apply hoare_tracker_op|]. hbind; [apply hoare_yield|].
    hbind; [apply hoare_send_error|]. by apply hoare_ret.
  - apply hoare_ret. by destruct p.
Qed.

Lemma hoare_wait_for_wake fuel : hoare (inv []) (wait_for_wake fuel) (λ o, inv (woken_held o)).
Proof.
  induction fuel as [|fuel IH]; cbn [wait_for_wake]; [by apply hoare_ret|].
  eapply (hoare_bind _ _ _ (λ o, inv (woken_held o))).
  - unfold wait_round. hbind; [apply hoare_yield|]. hbind; [apply hoare_select|].
    destruct a0 as [[]| | |]; try (by apply hoare_ret). apply hoare_wake_from_queue.
  - intros [wk|]; [by apply hoare_ret|exact IH].
Qed.

Lemma hoare_settle result s :
  hoare (after_generation (Some result)) (settle_generation result s)
    (λ a w, ∃ held, (length held ≤ 1)%nat ∧ (a.1 = false → held = []) ∧ inv held w).
Proof.
  intros w Hw. destruct result as [snapshot|snapshot|wake e]; cbn [settle_generation after_generation] in *.
  - exists []. split; [cbn; lia|]. split; [done|]. revert w Hw.
    change (hoare (inv []) (settle_generation (RunSleeping snapshot) s) (λ _, inv [])).
    unfold settle_generation. hbind; [apply hoare_yield|]. hbind; [apply hoare_owner_state|].
    hbind; [apply hoare_yield|]. hbind; [apply hoare_publish|]. by apply hoare_ret.
  - destruct Hw as (held & Hl & Hw). exists held. split; [done|]. split; [done|]. revert w Hw.
    change (hoare (inv held) (settle_generation (RunShutdown snapshot) s) (λ _, inv held)).
    unfold settle_generation. hbind; [apply hoare_yield|]. hbind; [apply hoare_owner_state|].
    hbind; [apply hoare_yield|]. hbind; [apply hoare_publish|]. by apply hoare_ret.
  - exists []. split; [cbn; lia|]. split; [done|]. revert w Hw.
    change (hoare (inv (wake_held wake)) (settle_generation (RunLoadFailed wake e) s) (λ _, inv [])).
    unfold settle_generation. destruct (last_snapshot s).
    + hbind; [apply hoare_yield|]. hbind; [apply hoare_owner_state|].
      hbind; [apply hoare_yield|]. hbind; [apply hoare_publish|].
      hbind; [apply hoare_fail_wake|]. by apply hoare_ret.
    + hbind; [apply hoare_yield|]. hbind; [apply hoare_fail_wake|]. by apply hoare_ret.
Qed.

(** ** The owner *)

(** At most one request is in the worker's hands. *)
Definition owner_post (w : World) : Prop := ∃ held, (length held ≤ 1)%nat ∧ inv held w.

Lemma owner_post_inv w : inv [] w → owner_post w.
Proof. intros Hi. exists []. split; [cbn; lia|done]. Qed.

Lemma hoare_owner rounds fuel : ∀ attempt s,
  hoare (inv (wake_held (wake s)))
    (run_engine_owner model config load rounds fuel attempt s) (λ _, owner_post).
Proof.
  induction rounds as [|rounds IH]; intros attempt s; cbn [run_engine_owner].
  { apply hoare_ret. intros w Hi. exists (wake_held (wake s)).
    split; [apply wake_held_length|done]. }
  hbind; [apply hoare_generation|]. destruct a as [result|].
  2: { apply hoare_ret. intros w Hi. by apply owner_post_inv. }
  hbind; [apply hoare_settle|]. destruct a as [[] s']; cbn [fst].
  { apply hoare_ret. intros w (held & Hl & _ & Hi). by exists held. }
  eapply (hoare_pre _ (inv [])).
  2: { intros w (held & _ & Hh & Hi). by rewrite (Hh eq_refl) in Hi. }
  hbind; [apply hoare_wait_for_wake|]. destruct a as [[|next_wake]|]; cbn [woken_held].
  - eapply (hoare_bind _ _ _ (λ _, inv [])).
    + destruct (last_snapshot s'); [apply hoare_publish|by apply hoare_ret].
    + intros _. apply hoare_ret. intros w Hi. by apply owner_post_inv.
  - apply (IH (attempt + 1) {| wake := next_wake; owner_generation := owner_generation s';
                               last_snapshot := last_snapshot s' |}).
  - apply hoare_ret. intros w Hi. by apply owner_post_inv.
Qed.

Lemma initial_inv schedule holds : inv [] (initial_world schedule holds).
Proof.
  split; [|split; split; try done; cbn; (split; [unfold len; cbn; lia|constructor])].
  split; cbn; [done|constructor|constructor|constructor| |by exists 0%nat|constructor].
  by intros ch c Hin%elem_of_nil.
Qed.

(** The state after any run of the owner from startup. *)
Definition owner_run (schedule : list (list ClientAction)) (holds : list nat)
    (rounds fuel : nat) : World :=
  (run_engine_owner model config load rounds fuel 1 initial_owner
     (initial_world schedule holds)).2.

Lemma owner_run_post schedule holds rounds fuel : owner_post (owner_run schedule holds rounds fuel).
Proof. apply (hoare_owner rounds fuel 1 initial_owner). apply initial_inv. Qed.

End OwnerBooks.

(** * Properties *)

(** A configuration that lets batches make progress. *)
Definition can_batch (config : NativeEmbeddingRequest) : Prop := 0 < er_max_batch_sequences config.

(** A run: a query and a bulk request while the first generation serves, a second query
    between the bulk request's batches, a cancelled request, and a shutdown. *)
Module EngineSample.
Definition tokens_of (s : str) : result str (list LlamaToken) :=
  Ok (map (λ c, Z.of_nat (nat_of_ascii c)) s).
Definition vector (tokens : list LlamaToken) : list f32 := [f32_of_Z (foldr Z.add 0 tokens)].
Definition model : NativeModel :=
  {| str_to_token := tokens_of;
     add_sequence := λ _ _, Ok ();
     encode := λ _, Ok ();
     embeddings_seq_ith := λ batch i,
       match batch !! Z.to_nat i with
       | Some tokens => Ok (vector tokens)
       | None => Err (lit "sequence")
       end |}.
Definition config : NativeEmbeddingRequest :=
  {| er_model_id := lit "bge.gguf"; er_model_sha256 := lit "ab"; er_dimension := 1;
     er_pooling := Cls; er_context_tokens := 8; er_max_input_tokens := 4;
     er_batch_tokens := 6; er_max_batch_sequences := 2; er_smoke_input := lit "x" |}.
Definition load (attempt : Z) : result EngineError () :=
  if attempt =? 2 then Err (Llama (lit "no device")) else Ok ().
Definition ctx (n : nat) : EmbeddingRequestContext :=
  mkEmbeddingRequestContext [ascii_of_nat (48 + n)] (lit "scope") 25 n.
Definition schedule : list (list ClientAction) :=
  [[]; [ClientSubmit (ctx 1) [lit "ab"] RequestPriority.Query [];
        ClientSubmit (ctx 2) [lit "abc"; lit "de"; lit "f"; lit "gh"] RequestPriority.Bulk [];
        ClientSubmit (ctx 3) [lit "x"] RequestPriority.Bulk [[3%nat]];
        ClientSubmit (ctx 4) [] RequestPriority.Bulk []]]
  ++ replicate 20 [] ++ [[ClientSubmit (ctx 5) [lit "q"] RequestPriority.Query []]]
  ++ replicate 60 [] ++ [[ClientSend Shutdown]].
Definition run : World := owner_run model config load schedule [0%nat; 2%nat] 3 40.
Definition outcome (r : Response) : option Z :=
  match r with Ok c => Some (completion_sequence c) | Err _ => None end.

Lemma config_ok : can_batch config.
Proof. reflexivity. Defined.
End EngineSample.

(** [C17] No request is lost or answered twice: after any run of the engine's owner, against any
    schedule of client actions, the response channels handed out are distinct and are
    exactly those answered so far, those waiting in the two queues and at most one in
    the worker's hands. *)
Theorem engine_answers_once model config load schedule holds rounds fuel :
  can_batch config →
  let w := owner_run model config load schedule holds rounds fuel in
  NoDup (rq_response <$> issued w) ∧
  ∃ held, (length held ≤ 1)%nat ∧
    rq_response <$> issued w ≡ₚ (sent w).*1 ++ (rq_response <$> (held ++ queued w)).
Proof.
  intros Hc w. destruct (owner_run_post model config Hc load schedule holds rounds fuel)
    as (held & Hl & Hb & _). fold w in Hb. split; [|by exists held; destruct Hb].
  destruct Hb as [_ _ Hs _ _ _ _]. revert Hs. generalize (rq_response <$> issued w). clear.
  induction 1 as [|x l _ IH Hx]; constructor; [|done].
  intros Hin. rewrite Forall_forall in Hx. specialize (Hx x Hin). lia.
Qed.

Example engine_answers_once_witness :
  (sent EngineSample.run).*1 = [3; 0; 2; 4; 1]%nat ∧
  NoDup (rq_response <$> issued EngineSample.run).
Proof.
  split; [vm_compute; reflexivity|].
  exact (proj1 (engine_answers_once EngineSample.model EngineSample.config EngineSample.load
    EngineSample.schedule [0; 2]%nat 3 40 EngineSample.config_ok)).
Defined.

(** Every answer with vectors is earned: the request it answers was committed before its
    client could cancel it, and its vectors are, input by input and in input order,
    vectors of the configured dimension that the model reported for that input's
    tokens in a batch it encoded. *)
Theorem engine_answers_are_embeddings model config load schedule holds rounds fuel ch c :
  can_batch config →
  let w := owner_run model config load schedule holds rounds fuel in
  (ch, Ok c) ∈ sent w →
  ∃ r, r ∈ issued w ∧ rq_response r = ch ∧
    (rq_inputs r = [] → vectors c = []) ∧
    (rq_inputs r ≠ [] → lifecycle (context_cell w (rq_context r)) = RequestLifecycle.Committed ∧
       Forall2 (embedding_of model config) (rq_inputs r) (vectors c)).
Proof.
  intros Hc w Hin. destruct (owner_run_post model config Hc load schedule holds rounds fuel)
    as (held & Hl & Hb & _). fold w in Hb. destruct Hb as [_ _ _ _ Ha _ _].
  exact (Ha ch c Hin).
Qed.

Example engine_answers_are_embeddings_witness :
  ∃ r, r ∈ issued EngineSample.run ∧ rq_response r = 4%nat ∧
    (rq_inputs r = [] → [EngineSample.vector [113]] = []) ∧
    (rq_inputs r ≠ [] →
       lifecycle (context_cell EngineSample.run (rq_context r)) = RequestLifecycle.Committed ∧
       Forall2 (embedding_of EngineSample.model EngineSample.config) (rq_inputs r)
         [EngineSample.vector [113]]).
Proof.
  apply (engine_answers_are_embeddings EngineSample.model EngineSample.config EngineSample.load
    EngineSample.schedule [0; 2]%nat 3 40 4
    {| vectors := [EngineSample.vector [113]]; completion_sequence := 2 |} EngineSample.config_ok).
  apply (list_elem_of_lookup_2 _ 3). vm_compute. reflexivity.
Defined.

(** The queues are bounded and first in first out: after any run each queue holds at most 64
    requests, in the order of their submission, and each of them has inputs and was
    accepted. *)
Theorem engine_queues_bounded_fifo model config load schedule holds rounds fuel p :
  can_batch config →
  let w := owner_run model config load schedule holds rounds fuel in
  len (requests (queue_of p w)) ≤ 64 ∧
  StronglySorted lt (rq_response <$> requests (queue_of p w)) ∧
  Forall (λ r, r ∈ issued w ∧ rq_inputs r ≠ []) (requests (queue_of p w)).
Proof.
  intros Hc w. destruct (owner_run_post model config Hc load schedule holds rounds fuel)
    as (held & Hl & Hb & Hq1 & Hq2). fold w in Hb, Hq1, Hq2. destruct Hb as [_ Hm _ _ _ _ _].
  unfold queued in Hm. rewrite !Forall_app in Hm. destruct Hm as (_ & Hm1 & Hm2).
  destruct p; [destruct Hq1 as (_ & ? & ?)|destruct Hq2 as (_ & ? & ?)]; done.
Qed.

Example engine_queues_bounded_fifo_witness :
  len (requests (queue_of RequestPriority.Bulk EngineSample.run)) ≤ 64.
Proof.
  exact (proj1 (engine_queues_bounded_fifo EngineSample.model EngineSample.config
    EngineSample.load EngineSample.schedule [0; 2]%nat 3 40 RequestPriority.Bulk
    EngineSample.config_ok)).
Defined.

(** Completion numbers: the successful answers to requests with inputs carry the numbers 1, 2,
    3, ... in the order in which they are sent, and the tracker's completed counter is
    the last of them. *)
Theorem engine_completions_numbered model config load schedule holds rounds fuel :
  can_batch config →
  let w := owner_run model config load schedule holds rounds fuel in
  ∃ n, ok_sequences (sent w) = (λ k, Z.min u64_max (Z.of_nat k + 1)) <$> seq 0 n ∧
    completed_request_count (tracker w) = Z.min u64_max (Z.of_nat n).
Proof.
  intros Hc w. destruct (owner_run_post model config Hc load schedule holds rounds fuel)
    as (held & Hl & Hb & _). fold w in Hb. destruct Hb as [_ _ _ _ _ (n & Hn & Hc') _].
  exists n. by rewrite app_nil_r in Hn.
Qed.

Example engine_completions_numbered_witness :
  ok_sequences (sent EngineSample.run) = [1; 2; 3] ∧
  ∃ n, ok_sequences (sent EngineSample.run)
         = (λ k, Z.min u64_max (Z.of_nat k + 1)) <$> seq 0 n ∧
       completed_request_count (tracker EngineSample.run) = Z.min u64_max (Z.of_nat n).
Proof.
  split; [vm_compute; reflexivity|].
  exact (engine_completions_numbered EngineSample.model EngineSample.config EngineSample.load
    EngineSample.schedule [0; 2]%nat 3 40 EngineSample.config_ok).
Defined.
