(* ===== verification/EngineFairness.v ===== *)
(** * The native engine: wake-ups, fairness and residency

    No wake-up is lost: where the worker waits, a non-empty queue has its signal
    pending.  The scheduler serves the class whose turn it is, handling restores the
    list of active requests, and the residency timer agrees with its deadline.

    Then: the native engine: the contracts of its loops; properties. *)
From S2P Require Import Prelude RustStr Graph Admission EngineConfig EngineWorld EngineOwner EngineRequests.

(** ** Signals *)
Definition signal_ok (p : RequestPriority) (w : World) : Prop :=
  requests (queue_of p w) ≠ [] → signal (queue_of p w) = true.
Definition signalled (w : World) : Prop := ∀ p, signal_ok p w.

Lemma signal_ok_queues p w w' : queues w' = queues w → signal_ok p w → signal_ok p w'.
Proof. intros Hq. unfold signal_ok. by rewrite (queues_of p _ _ Hq). Qed.

Lemma other_or p p' : p' = p ∨ p' = other p.
Proof. destruct p, p'; auto. Qed.
Lemma other_other p : other (other p) = p.
Proof. by destruct p. Qed.

(** Locked code leaves the queues alone, whatever it finds. *)
Lemma prune_loop_queues rs : ∀ retained w,
  queues (prune_loop rs retained w).2 = queues w ∧
  sublist (prune_loop rs retained w).1 (retained ++ rs).
Proof.
  induction rs as [|r rs IH]; intros retained w; cbn [prune_loop].
  { by rewrite app_nil_r. }
  unfold mbind, M_bind, ctx_is_cancelled, gets, tracker_op, send. cbn [yield_locked modify].
  unfold yield_locked, modify.
  set (w1 := foldl _ _ _). assert (Hw1 : queues w1 = queues w) by (unfold w1; by rewrite queues_cancels).
  destruct (is_cancelled _).
  - edestruct (IH retained) as [-> Hs]. split; [exact Hw1|].
    etransitivity; [exact Hs|]. apply sublist_app; [done|by constructor].
  - destruct (IH (retained ++ [r]) w1) as [-> Hs]. split; [exact Hw1|].
    by rewrite <- app_assoc in Hs.
Qed.

Definition empty_or_same (p : RequestPriority) (w w' : World) : Prop :=
  signal (queue_of p w') = signal (queue_of p w) ∧
  sublist (requests (queue_of p w')) (requests (queue_of p w)) ∧
  queue_of (other p) w' = queue_of (other p) w.

Lemma prune_cancelled_queue p w : empty_or_same p w (prune_cancelled p w).2.
Proof.
  unfold prune_cancelled, mbind, M_bind, gets, set_requests, modify.
  destruct (prune_loop_queues (requests (queue_of p w)) [] w) as [Hq Hs].
  destruct (prune_loop _ _ w) as [kept w']. cbn in *. unfold empty_or_same.
  rewrite queue_of_with, queue_of_with_other, (queues_of p _ _ Hq), (queues_of (other p) _ _ Hq).
  done.
Qed.

(** A pop leaves its queue signalled, whatever the signal was, and the other alone. *)
Lemma try_pop_signal p w :
  signal_ok p (try_pop p w).2 ∧ queue_of (other p) (try_pop p w).2 = queue_of (other p) w ∧
  ((try_pop p w).1 = None → requests (queue_of p (try_pop p w).2) = []).
Proof.
  unfold try_pop, mbind, M_bind, gets, mret, M_ret. unfold signal_ok.
  destruct (prune_cancelled_queue p w) as (_ & _ & Ho).
  destruct (prune_cancelled p w) as [u w1]. cbn [snd fst] in *.
  destruct (requests (queue_of p w1)) as [|r rest] eqn:Hr; cbn [snd fst]; [rewrite ?Hr; by split_and!|].
  unfold set_requests, modify. case_bool_decide as Hrest; cbn [snd fst].
  - rewrite queue_of_with, queue_of_with_other. split; [by rewrite Hrest|]. by split.
  - unfold raise_signal, modify. cbn [snd]. rewrite !queue_of_with, !queue_of_with_other.
    cbn. done.
Qed.

Lemma try_push_signal p request p' w :
  signal_ok p' w → signal_ok p' (try_push p request w).2.
Proof.
  intros Hs. unfold try_push, mbind, M_bind, gets, mret, M_ret.
  destruct (prune_cancelled_queue p w) as (H1 & H2 & H3).
  destruct (prune_cancelled p w) as [u w1]. cbn [snd fst] in *.
  assert (Hs1 : signal_ok p' w1).
  { unfold signal_ok in *. destruct (other_or p p') as [->| ->]; [|by rewrite H3].
    intros Hne. rewrite H1. apply Hs. by eapply sublist_not_nil. }
  destruct (_ <=? _); [exact Hs1|]. unfold set_requests, raise_signal, modify. cbn [snd].
  unfold signal_ok in *. destruct (other_or p p') as [->| ->].
  - by rewrite !queue_of_with.
  - by rewrite !queue_of_with_other.
Qed.

Lemma submit_signal p ctx inputs priority w :
  signal_ok p w → signal_ok p (submit ctx inputs priority w).2.
Proof.
  intros Hs. unfold submit, fresh_channel, update. unfold mbind at 1, M_bind at 1.
  set (w1 := with_next_channel _ w). assert (Hs1 : signal_ok p w1) by by apply (signal_ok_queues p w).
  case_bool_decide; [by apply (signal_ok_queues p w1)|].
  unfold mbind at 1, M_bind at 1.
  pose proof (try_push_signal priority {| rq_context := ctx; rq_inputs := inputs;
    rq_response := next_channel w |} p w1 Hs1) as Hp.
  destruct (try_push _ _ w1) as [acc w2]. cbn [snd] in Hp.
  destruct acc; by apply (signal_ok_queues p w2).
Qed.

Lemma run_action_signal p a w : signal_ok p w → signal_ok p (run_action a w).
Proof.
  intros Hs. destruct a as [ctx inputs priority cancels|n|c| | | |d]; cbn [run_action];
    try (by apply (signal_ok_queues p w)).
  - set (w1 := with_schedule (map ClientCancel <$> cancels) w).
    apply (signal_ok_queues p (submit ctx inputs priority w1).2); [done|].
    apply submit_signal. by apply (signal_ok_queues p w).
  - unfold begin_draining_if_idle, gets. unfold mbind, M_bind.
    by destruct (_ || _).
Qed.

Lemma hoare_signal_yield p : hoare (signal_ok p) yield (λ _, signal_ok p).
Proof.
  apply hoare_modify. intros w Hs. generalize (next_actions w) as l.
  assert (Hs' : signal_ok p (with_schedule (tail (schedule w)) w)) by done.
  revert Hs'. generalize (with_schedule (tail (schedule w)) w) as w'. clear.
  intros w Hs l. unfold run_actions. revert w Hs.
  induction l as [|a l IH]; intros w Hs; cbn; [done|]. by apply IH, run_action_signal.
Qed.

(** Operations on other state. *)
Lemma hoare_signal_same {A} p (m : M A) :
  (∀ w, queues (m w).2 = queues w) → hoare (signal_ok p) m (λ _, signal_ok p).
Proof. intros H w Hs. by apply (signal_ok_queues p w). Qed.

Lemma hoare_signal_pop p p' : hoare (signal_ok p) (try_pop p') (λ _, signal_ok p).
Proof.
  intros w Hs. destruct (try_pop_signal p' w) as (H1 & H2 & _).
  destruct (other_or p' p) as [->| ->]; [done|]. unfold signal_ok. by rewrite H2.
Qed.

(** ** Programs that keep a predicate

    [keeps I m]: the program keeps [I]; the database walks through a program. *)
Definition keeps {A} (I : World → Prop) (m : M A) : Prop := hoare I m (λ _, I).

Lemma keeps_bind {A B} I (m : M A) (f : A → M B) :
  keeps I m → (∀ a, keeps I (f a)) → keeps I (m ≫= f).
Proof. intros Hm Hf. unfold keeps. by eapply hoare_bind. Qed.
Lemma keeps_ret {A} I (a : A) : keeps I (mret a).
Proof. by apply hoare_ret. Qed.

Create HintDb engine_keeps.
#[export] Hint Resolve keeps_bind keeps_ret : engine_keeps.
#[export] Hint Extern 3 (keeps _ (match ?x with _ => _ end)) => destruct x : engine_keeps.
#[export] Hint Extern 0 (∀ _, keeps _ _) => intros ? : engine_keeps.

Section Keeps.
Context (model : NativeModel) (config : NativeEmbeddingRequest) (p : RequestPriority).
Abbreviation S := (signal_ok p).

Lemma keeps_yield : keeps S yield.
Proof. apply hoare_signal_yield. Qed.
Lemma keeps_pop p' : keeps S (try_pop p').
Proof. apply hoare_signal_pop. Qed.
Lemma keeps_gets {A} (f : World → A) : keeps S (gets f).
Proof. by apply hoare_signal_same. Qed.
Lemma keeps_send ch r : keeps S (send ch r).
Proof. by apply hoare_signal_same. Qed.
Lemma keeps_tracker f : keeps S (tracker_op f).
Proof. by apply hoare_signal_same. Qed.
Lemma keeps_cell n f : keeps S (update_cell n f).
Proof. apply hoare_signal_same. intros w. unfold update_cell. by destruct (f _). Qed.
Lemma keeps_begin ctx class : keeps S (begin_request ctx class).
Proof.
  apply hoare_signal_same. intros w. unfold begin_request, update.
  by destruct (begin _ _ _ _) as [[??]?].
Qed.
Lemma keeps_finish ctx class b1 b2 : keeps S (finish_request ctx class b1 b2).
Proof.
  apply hoare_signal_same. intros w. unfold finish_request, update. by destruct (finish _ _ _ _ _).
Qed.
Lemma keeps_next_hold : keeps S next_hold.
Proof. by apply hoare_signal_same. Qed.
Lemma keeps_publish s : keeps S (publish_lifecycle s).
Proof. by apply hoare_signal_same. Qed.
Lemma keeps_reply c r : keeps S (reply c r).
Proof. apply hoare_signal_same. intros w. unfold reply, update. by destruct (receiver_alive c). Qed.
Lemma keeps_record ctx n : keeps S (ctx_record_completed_tokens ctx n).
Proof. by apply hoare_signal_same. Qed.
Lemma keeps_is_cancelled ctx : keeps S (ctx_is_cancelled ctx).
Proof. apply keeps_gets. Qed.

#[local] Hint Resolve keeps_yield keeps_pop keeps_gets keeps_send keeps_tracker keeps_cell
  keeps_begin keeps_finish keeps_next_hold keeps_publish keeps_reply keeps_record
  keeps_is_cancelled : engine_keeps.

Lemma keeps_hold_loop rounds ctx : keeps S (hold_loop rounds ctx).
Proof. induction rounds; cbn [hold_loop]; auto 20 with engine_keeps. Qed.

Lemma keeps_live ctx : keeps S (ensure_embedding_request_live ctx).
Proof. unfold ensure_embedding_request_live. auto 20 with engine_keeps. Qed.
#[local] Hint Resolve keeps_hold_loop keeps_live : engine_keeps.

Section Handler.
Context (handle_query : EmbeddingRequest → M ()) (Hq : ∀ q, keeps S (handle_query q)).

Lemma keeps_between priority more ctx : keeps S (between_batches handle_query priority more ctx).
Proof.
  unfold between_batches, take_query_between_bulk_batches. auto 20 with engine_keeps.
Qed.
#[local] Hint Resolve keeps_between : engine_keeps.

Lemma keeps_embed_loop fuel tokenized priority ctx : ∀ offset output,
  keeps S (embed_loop model config handle_query fuel tokenized priority ctx offset output).
Proof. induction fuel; intros offset output; cbn [embed_loop]; auto 30 with engine_keeps. Qed.
#[local] Hint Resolve keeps_embed_loop : engine_keeps.

Lemma keeps_embed_inputs inputs priority ctx :
  keeps S (embed_inputs model config handle_query inputs priority ctx).
Proof. unfold embed_inputs. auto 20 with engine_keeps. Qed.
#[local] Hint Resolve keeps_embed_inputs : engine_keeps.

Lemma keeps_handle_with r priority : keeps S (handle_request_with model config handle_query r priority).
Proof. unfold handle_request_with. auto 30 with engine_keeps. Qed.
End Handler.

Lemma keeps_handle_request r priority : keeps S (handle_request model config r priority).
Proof.
  apply keeps_handle_with. intros q. apply keeps_handle_with. auto with engine_keeps.
Qed.
#[local] Hint Resolve keeps_handle_request : engine_keeps.

Lemma keeps_resident_handle s r priority : keeps S (resident_handle model config s r priority).
Proof. unfold resident_handle. auto with engine_keeps. Qed.

Lemma keeps_grant c s t : keeps S (grant_residency_lease c s t).
Proof. unfold grant_residency_lease. auto with engine_keeps. Qed.
#[local] Hint Resolve keeps_grant : engine_keeps.
Lemma keeps_control c s t : keeps S (handle_resident_control c s t).
Proof. unfold handle_resident_control. auto with engine_keeps. Qed.
End Keeps.

(** ** The loops *)
Section Loops.
Context (model : NativeModel) (config : NativeEmbeddingRequest).

Lemma scheduler_signalled s w :
  (scheduler_try_pop s w).1.1 = None → signalled (scheduler_try_pop s w).2.
Proof.
  unfold scheduler_try_pop, mbind, M_bind, mret, M_ret. destruct (yield w) as [u w1].
  destruct (try_pop_signal (next_when_both_ready s) w1) as (H1 & _ & _).
  destruct (try_pop _ w1) as [[r|] w2]; [done|]. cbn [snd fst] in *.
  pose proof (keeps_yield (next_when_both_ready s) w2 H1) as H2.
  destruct (yield w2) as [u' w3]. cbn [snd] in H2.
  destruct (try_pop_signal (other (next_when_both_ready s)) w3) as (H3 & H4 & _).
  destruct (try_pop _ w3) as [[r|] w4]; [done|]. cbn [snd fst] in *. intros _ p.
  destruct (other_or (next_when_both_ready s) p) as [->| ->]; [|done].
  unfold signal_ok in *. rewrite other_other in H4. by rewrite H4.
Qed.

(** A waiting or sleeping worker leaves no queue unsignalled. *)
Definition rests (r : option ResidentRunResult) (s : ServeState) : Prop :=
  match r with
  | None => point s ≠ Serving
  | Some (RunSleeping _) => True
  | Some _ => False
  end.

Lemma serve_control_busy c snapshot s w :
  ¬ rests (serve_control c snapshot s w).1.1 (serve_control c snapshot s w).1.2.
Proof.
  unfold serve_control, handle_resident_control, gets, mbind, M_bind, mret, M_ret.
  destruct c; cbn; [tauto| | |tauto].
  - unfold reply, update. destruct (receiver_alive response); cbn; tauto.
  - unfold grant_residency_lease, reply, update, mbind, M_bind, mret, M_ret.
    destruct (receiver_alive response); cbn; tauto.
Qed.

Lemma serve_head_rests snapshot s w :
  let '((r, s'), w') := serve_head model config snapshot s w in rests r s' → signalled w'.
Proof.
  unfold serve_head. unfold mbind at 1, M_bind at 1. destruct (recv_control w) as [[c|] w1].
  { pose proof (serve_control_busy c snapshot s w1) as Hc.
    by destruct (serve_control c snapshot s w1) as [[??]?]. }
  unfold mbind at 1, M_bind at 1. pose proof (scheduler_signalled (scheduler s) w1) as Hs.
  destruct (scheduler_try_pop (scheduler s) w1) as [[[[q p]|] s'] w2].
  - unfold mbind, M_bind, gets, mret, M_ret. destruct (resident_handle _ _ _ _ _ _) as [u w3].
    by intros [].
  - cbn. intros _. by apply Hs.
Qed.

Lemma select_ready_signalled p w :
  signal_ok p w → (∀ p', (select_ready w).1 ≠ SelSignal p') → signal_ok p (select_ready w).2.
Proof.
  unfold select_ready. intros Hs Hn. destruct (control w); [|by apply (signal_ok_queues p w)].
  destruct (signal (query_queue w)); [by destruct (Hn RequestPriority.Query)|].
  destruct (signal (bulk_queue w)); [by destruct (Hn RequestPriority.Bulk)|done].
Qed.

Lemma serve_select_rests snapshot d s w : signalled w →
  let '((r, s'), w') := serve_select snapshot d s w in rests r s' → signalled w'.
Proof.
  intros Hs. unfold serve_select, select_resident, update, gets, mbind, M_bind, mret, M_ret.
  assert (Hs1 : signalled (yield w).2) by (intros p; by apply keeps_yield).
  destruct (yield w) as [u w1]. cbn [snd] in Hs1.
  assert (Hs2 : (∀ p', (select_ready w1).1 ≠ SelSignal p') → signalled (select_ready w1).2).
  { intros Hn p. by apply select_ready_signalled. }
  destruct (select_ready w1) as [sel w2]. cbn [snd fst] in Hs2.
  destruct sel as [c|p| |].
  - pose proof (serve_control_busy c snapshot s w2) as Hc.
    by destruct (serve_control c snapshot s w2) as [[??]?].
  - cbn. intros []. done.
  - assert (Hs3 : signalled (yield w2).2) by (intros p; by apply keeps_yield, Hs2).
    by destruct (yield w2) as [u' w3].
  - destruct (d <=? now w2); [|by intros _; apply Hs2].
    assert (Hs3 : signalled (yield w2).2) by (intros p; by apply keeps_yield, Hs2).
    by destruct (yield w2) as [u' w3].
Qed.

Lemma serve_loop_rests fuel snapshot : ∀ s w,
  (point s ≠ Serving → signalled w) →
  let '((r, s'), w') := serve_loop model config fuel snapshot s w in rests r s' → signalled w'.
Proof.
  induction fuel as [|fuel IH]; intros s w Hs; cbn [serve_loop]; [exact Hs|].
  unfold mbind, M_bind.
  assert (Hr : let '((r, s'), w') := serve_round model config snapshot s w in rests r s' → signalled w').
  { unfold serve_round. destruct (point s) as [|d]; [apply serve_head_rests|].
    by apply serve_select_rests, Hs. }
  destruct (serve_round model config snapshot s w) as [[[r|] s'] w']; [exact Hr|].
  apply IH. exact Hr.
Qed.

(** A select that finds nothing has nothing to serve. *)
Lemma blocked_is_idle w : signalled w → (select_ready w).1 = SelNothing → queued w = [].
Proof.
  intros Hs. unfold select_ready. destruct (control w); [|done].
  destruct (signal (query_queue w)) eqn:H1; [done|].
  destruct (signal (bulk_queue w)) eqn:H2; [done|]. intros _. unfold queued.
  pose proof (Hs RequestPriority.Query) as Hq. pose proof (Hs RequestPriority.Bulk) as Hb.
  unfold signal_ok in Hq, Hb. cbn in Hq, Hb.
  destruct (requests (query_queue w)); [|rewrite Hq in H1 by done; done].
  destruct (requests (bulk_queue w)); [done|rewrite Hb in H2 by done; done].
Qed.

Lemma wait_round_signalled w : signalled w → signalled (wait_round w).2.
Proof.
  intros Hs. unfold wait_round, update. unfold mbind at 1, M_bind at 1.
  assert (Hs1 : signalled (yield w).2) by (intros p; by apply keeps_yield).
  destruct (yield w) as [u w1]. cbn [snd] in Hs1. unfold mbind, M_bind.
  assert (Hs2 : (∀ p', (select_ready w1).1 ≠ SelSignal p') → signalled (select_ready w1).2).
  { intros Hn p. by apply select_ready_signalled. }
  assert (Hs3 : ∀ p', (select_ready w1).1 = SelSignal p' →
    signal_ok (other p') (select_ready w1).2).
  { intros p'. unfold select_ready. destruct (control w1); [|done].
    destruct (signal (query_queue w1)); [intros [= <-]; apply (Hs1 RequestPriority.Bulk)|].
    destruct (signal (bulk_queue w1)); [intros [= <-]; apply (Hs1 RequestPriority.Query)|done]. }
  destruct (select_ready w1) as [sel w2]. cbn [snd fst] in *.
  destruct sel as [[]|p| |]; try (by apply Hs2).
  specialize (Hs3 p eq_refl). clear Hs2.
  unfold wake_from_queue. unfold mbind at 1, M_bind at 1.
  pose proof (keeps_yield (other p) w2 Hs3) as H3. destruct (yield w2) as [u' w3]. cbn [snd] in H3.
  unfold mbind at 1, M_bind at 1. destruct (try_pop_signal p w3) as (H4 & H5 & _).
  assert (Hs4 : signalled (try_pop p w3).2).
  { intros p'. destruct (other_or p p') as [->| ->]; [done|]. unfold signal_ok. by rewrite H5. }
  destruct (try_pop p w3) as [[r|] w4]; [|exact Hs4]. cbn [snd] in Hs4. clear -Hs4.
  intros p'. eapply (keeps_bind (signal_ok p')); [apply keeps_yield| |apply Hs4]. intros _.
  eapply keeps_bind; [apply keeps_is_cancelled|]. intros [].
  - eapply keeps_bind; [apply keeps_tracker|]. intros _.
    eapply keeps_bind; [apply keeps_yield|]. intros _.
    eapply keeps_bind; [apply keeps_send|]. intros _. apply keeps_ret.
  - apply keeps_ret.
Qed.

Lemma wait_for_wake_signalled fuel : ∀ w, signalled w → signalled (wait_for_wake fuel w).2.
Proof.
  induction fuel as [|fuel IH]; intros w Hs; cbn [wait_for_wake]; [done|].
  unfold mbind, M_bind. pose proof (wait_round_signalled w Hs) as Hr.
  destruct (wait_round w) as [[wk|] w']; [exact Hr|by apply IH].
Qed.
End Loops.

(** * The native engine: the contracts of its loops

    No lost wake-up, the turn of the scheduler, the list of active requests and the
    residency timer. *)
(** ** Cancelled cells stay cancelled *)
Definition cancelled_in (w : World) (n : nat) : Prop := is_cancelled (cell_at w n) = true.

Lemma cancelled_set n c w m :
  (cancelled_in w n → is_cancelled c = true) → cancelled_in w m → cancelled_in (set_cell n c w) m.
Proof. unfold cancelled_in. rewrite cell_at_set. destruct (decide (n = m)) as [->|]; auto. Qed.
Lemma cancel_cancelled n w m : cancelled_in w m → cancelled_in (cancel_cell n w) m.
Proof.
  apply cancelled_set. unfold cancelled_in, cancel, is_cancelled.
  rewrite !bool_decide_eq_true. intros H. by rewrite H.
Qed.
Lemma cancels_cancelled l w m :
  cancelled_in w m → cancelled_in (foldl (λ w a, apply_cancel a w) w l) m.
Proof.
  revert w. induction l as [|a l IH]; intros w H; cbn; [done|]. apply IH.
  destruct a; try done. by apply cancel_cancelled.
Qed.
Lemma yield_locked_cancelled n : keeps (λ w, cancelled_in w n) yield_locked.
Proof. apply hoare_modify. intros w H. by apply cancels_cancelled. Qed.

(** Requests not cancelled when the pruning ends are kept. *)
Lemma prune_loop_keeps rs : ∀ retained w,
  (∀ n, cancelled_in w n → cancelled_in (prune_loop rs retained w).2 n) ∧
  Forall (λ r, cancelled_in (prune_loop rs retained w).2 (cell (rq_context r)) ∨
               r ∈ (prune_loop rs retained w).1) rs ∧
  retained ⊆ (prune_loop rs retained w).1.
Proof.
  induction rs as [|r rs IH]; intros retained w; cbn [prune_loop]; [done|].
  unfold mbind, M_bind, ctx_is_cancelled, gets.
  pose proof (λ n, yield_locked_cancelled n w) as Hy. destruct (yield_locked w) as [u w1].
  cbn [snd] in Hy.
  destruct (is_cancelled (context_cell w1 (rq_context r))) eqn:Hc.
  - unfold tracker_op, send, modify. destruct (IH retained
      (with_sent (sent (with_tracker (count_cancelled (tracker w1)) w1) ++
        [(rq_response r, Err RequestCancelled)])
        (with_tracker (count_cancelled (tracker w1)) w1))) as (H1 & H2 & H3).
    split; [intros n Hn; by apply H1, Hy|]. split; [|exact H3]. constructor; [|exact H2].
    left. apply H1. exact Hc.
  - destruct (IH (retained ++ [r]) w1) as (H1 & H2 & H3).
    split; [intros n Hn; by apply H1, Hy|]. split; [|set_solver]. constructor; [|exact H2].
    right. apply H3. set_solver.
Qed.

(** A queue that holds a request nobody cancels yields a request. *)
Lemma try_pop_live p w r :
  r ∈ requests (queue_of p w) → ¬ cancelled_in (try_pop p w).2 (cell (rq_context r)) →
  is_Some (try_pop p w).1.
Proof.
  intros Hr Hn. unfold try_pop, prune_cancelled, set_requests, raise_signal, gets, modify in *.
  unfold mbind, M_bind, mret, M_ret in *.
  destruct (prune_loop_keeps (requests (queue_of p w)) [] w) as (_ & H2 & _).
  rewrite Forall_forall in H2. specialize (H2 r Hr).
  destruct (prune_loop (requests (queue_of p w)) [] w) as [kept w1]. cbn [snd fst] in *.
  rewrite queue_of_with in *. cbn [requests] in *. destruct kept as [|x rest]; [|by case_bool_decide; eexists].
  destruct H2 as [H2|H2]; [|by apply elem_of_nil in H2]. exfalso. apply Hn. exact H2.
Qed.

(** A queued request leaves its queue by a pop or because it was cancelled. *)
Definition stays (p : RequestPriority) (r : EmbeddingRequest) (w : World) : Prop :=
  r ∈ requests (queue_of p w) ∨ cancelled_in w (cell (rq_context r)).

Lemma cancelled_cells w w' n : cells w' = cells w → cancelled_in w n → cancelled_in w' n.
Proof. unfold cancelled_in, cell_at. by intros ->. Qed.

Lemma prune_cancelled_stays p p' r : keeps (stays p' r) (prune_cancelled p).
Proof.
  intros w H. unfold prune_cancelled, set_requests, gets, modify, mbind, M_bind.
  destruct (prune_loop_keeps (requests (queue_of p w)) [] w) as (H1 & H2 & _).
  destruct (prune_loop_queues (requests (queue_of p w)) [] w) as [Hq _].
  destruct (prune_loop (requests (queue_of p w)) [] w) as [kept w1]. cbn [snd fst] in *.
  unfold stays in *. destruct H as [H|H]; [|right; by apply H1].
  destruct (other_or p p') as [->| ->].
  - rewrite queue_of_with. rewrite Forall_forall in H2. cbn.
    destruct (H2 r H) as [?|?]; [right|left]; done.
  - rewrite queue_of_with_other, (queues_of (other p) _ _ Hq). by left.
Qed.

Lemma try_push_stays p request p' r : keeps (stays p' r) (try_push p request).
Proof.
  unfold keeps, try_push. hbind; [apply prune_cancelled_stays|]. hbind; [apply hoare_gets|].
  intros w [-> Hs]. destruct (_ <=? _); [exact Hs|].
  unfold set_requests, raise_signal, modify, mbind, M_bind, mret, M_ret. cbn [snd].
  unfold stays in *. destruct Hs as [Hs|Hs]; [|by right]. left.
  destruct (other_or p p') as [->| ->].
  - rewrite !queue_of_with. cbn. apply elem_of_app. by left.
  - by rewrite !queue_of_with_other.
Qed.

Lemma run_action_stays p r a w : stays p r w → stays p r (run_action a w).
Proof.
  intros Hs. destruct a as [ctx inputs priority cancels|n|c| | | |d]; cbn [run_action];
    try (by destruct p).
  - set (w1 := with_schedule (map ClientCancel <$> cancels) w).
    assert (Hs1 : stays p r (submit ctx inputs priority w1).2); [|by destruct p].
    unfold submit, fresh_channel, update. unfold mbind at 1, M_bind at 1.
    set (w2 := with_next_channel _ w1). assert (Hs2 : stays p r w2) by by destruct p.
    case_bool_decide; [by destruct p|]. unfold mbind at 1, M_bind at 1.
    pose proof (try_push_stays priority {| rq_context := ctx; rq_inputs := inputs;
      rq_response := next_channel w1 |} p r w2 Hs2) as Hp.
    destruct (try_push _ _ w2) as [acc w3]. cbn [snd] in Hp. by destruct acc, p.
  - destruct Hs as [Hs|Hs]; [left; by destruct p|right; by apply cancel_cancelled].
  - unfold begin_draining_if_idle, gets. unfold mbind, M_bind. destruct (_ || _); by destruct p.
Qed.

Lemma yield_stays p r : keeps (stays p r) yield.
Proof.
  apply hoare_modify. intros w Hs. generalize (next_actions w) as l.
  assert (Hs' : stays p r (with_schedule (tail (schedule w)) w)) by by destruct p.
  revert Hs'. generalize (with_schedule (tail (schedule w)) w) as w'. clear.
  intros w Hs l. unfold run_actions. revert w Hs.
  induction l as [|a l IH]; intros w Hs; cbn; [done|]. by apply IH, run_action_stays.
Qed.

Lemma try_pop_cancelled p n : keeps (λ w, cancelled_in w n) (try_pop p).
Proof.
  intros w H. unfold try_pop, prune_cancelled, set_requests, raise_signal, gets, modify.
  unfold mbind, M_bind, mret, M_ret.
  destruct (prune_loop_keeps (requests (queue_of p w)) [] w) as (H1 & _ & _).
  destruct (prune_loop (requests (queue_of p w)) [] w) as [kept w1]. cbn [snd fst] in *.
  rewrite queue_of_with. cbn. destruct kept as [|x rest]; [by apply H1|].
  case_bool_decide; by apply H1.
Qed.

Lemma run_action_cancelled n a w : cancelled_in w n → cancelled_in (run_action a w) n.
Proof.
  intros H. destruct a as [ctx inputs priority cancels|m|c| | | |d]; cbn [run_action]; try done.
  - unfold submit, fresh_channel, update, try_push, prune_cancelled, set_requests, raise_signal,
      gets, modify, mbind, M_bind, mret, M_ret.
    case_bool_decide; [done|].
    destruct (prune_loop_keeps (requests (queue_of priority w)) []
      (with_next_channel (S (next_channel w)) (with_schedule (map ClientCancel <$> cancels) w)))
      as (H1 & _ & _).
    assert (Hq : queue_of priority (with_next_channel (S (next_channel w))
      (with_schedule (map ClientCancel <$> cancels) w)) = queue_of priority w) by by destruct priority.
    cbn [fst snd next_channel with_schedule]. rewrite Hq.
    destruct (prune_loop _ [] _) as [kept w1]. cbn [snd fst] in *.
    specialize (H1 n H). by destruct (_ <=? _).
  - by apply cancel_cancelled.
  - unfold begin_draining_if_idle, gets. unfold mbind, M_bind. by destruct (_ || _).
Qed.
Lemma yield_cancelled n : keeps (λ w, cancelled_in w n) yield.
Proof.
  apply hoare_modify. intros w Hs. generalize (next_actions w) as l.
  assert (Hs' : cancelled_in (with_schedule (tail (schedule w)) w) n) by done.
  revert Hs'. generalize (with_schedule (tail (schedule w)) w) as w'. clear.
  intros w Hs l. unfold run_actions. revert w Hs.
  induction l as [|a l IH]; intros w Hs; cbn; [done|]. by apply IH, run_action_cancelled.
Qed.

(** * Properties *)

(** Fairness: when a request waits in the queue of the class whose turn it is and nobody
    cancels it, the scheduler serves that class, whatever the clients do meanwhile; and
    after every request served the turn is the other class's, so with both queues busy
    the classes alternate. *)
Theorem scheduler_serves_turn s w r :
  r ∈ requests (queue_of (next_when_both_ready s) w) →
  ¬ cancelled_in (scheduler_try_pop s w).2 (cell (rq_context r)) →
  ∃ served, (scheduler_try_pop s w).1 =
    (Some (served, next_when_both_ready s),
     {| next_when_both_ready := other (next_when_both_ready s) |}).
Proof.
  intros Hr. unfold scheduler_try_pop, mbind, M_bind, mret, M_ret.
  set (first := next_when_both_ready s) in *.
  assert (Hs1 : stays first r (yield w).2) by (apply yield_stays; by left).
  destruct (yield w) as [u w1]. cbn [snd] in Hs1.
  pose proof (try_pop_cancelled first (cell (rq_context r)) w1) as Hc.
  pose proof (try_pop_live first w1 r) as Hl.
  destruct (try_pop first w1) as [[x|] w2]; cbn [snd fst] in *; [by eexists|].
  intros Hn. exfalso.
  assert (Hcan : cancelled_in w2 (cell (rq_context r))).
  { destruct Hs1 as [Hs1|Hs1]; [|by apply Hc].
    destruct (decide (is_cancelled (cell_at w2 (cell (rq_context r))) = true)) as [?|Hd]; [done|].
    by destruct (Hl Hs1 Hd). }
  apply Hn. pose proof (yield_cancelled _ w2 Hcan) as Hy. destruct (yield w2) as [u' w3].
  cbn [snd] in Hy. pose proof (try_pop_cancelled (other first) _ w3 Hy) as Hp.
  by destruct (try_pop (other first) w3) as [[?|] w4].
Qed.

Module FairSample.
Definition ctx (n : nat) : EmbeddingRequestContext :=
  mkEmbeddingRequestContext (lit "r") (lit "s") 25 n.
Definition request (n : nat) : EmbeddingRequest :=
  {| rq_context := ctx n; rq_inputs := [lit "a"]; rq_response := n |}.
(** Both queues are busy and the schedule cancels the bulk request between. *)
Definition world : World :=
  with_queue RequestPriority.Query (mkCancellableRequestQueue 64 [request 1; request 2] true)
    (with_queue RequestPriority.Bulk (mkCancellableRequestQueue 64 [request 3] true)
       (initial_world [[ClientCancel 1]; [ClientCancel 3]] [])).
End FairSample.

Example scheduler_serves_turn_witness :
  ∃ served, (scheduler_try_pop default_scheduler FairSample.world).1 =
    (Some (served, RequestPriority.Query), {| next_when_both_ready := RequestPriority.Bulk |}).
Proof.
  apply (scheduler_serves_turn default_scheduler FairSample.world (FairSample.request 2)).
  - right. left.
  - vm_compute. discriminate.
Defined.

(** ** Wake-ups *)

(** No wake-up is lost while the model is resident: when the serving loop waits in its
    select or goes to sleep, after any number of rounds and whatever the clients did,
    each non-empty queue has its signal pending, so a select that finds nothing ready
    leaves no request behind. *)
Theorem resident_wakeups model config fuel snapshot s w r s' w' :
  point s = Serving →
  serve_loop model config fuel snapshot s w = ((r, s'), w') →
  match r with
  | None => point s' ≠ Serving
  | Some (RunSleeping _) => True
  | Some _ => False
  end →
  signalled w' ∧ ((select_ready w').1 = SelNothing → queued w' = []).
Proof.
  intros Hs Hl Hr. pose proof (serve_loop_rests model config fuel snapshot s w) as Hk.
  rewrite Hl in Hk. assert (Hs' : signalled w') by (apply Hk; [by rewrite Hs|exact Hr]).
  split; [done|by apply blocked_is_idle].
Qed.

Lemma settle_sleeping_keeps p snapshot s : keeps (signal_ok p) (settle_generation (RunSleeping snapshot) s).
Proof.
  unfold settle_generation. eapply keeps_bind; [apply keeps_yield|]. intros _.
  eapply keeps_bind; [apply keeps_tracker|]. intros _.
  eapply keeps_bind; [apply keeps_yield|]. intros _.
  eapply keeps_bind; [apply keeps_publish|]. intros _. apply keeps_ret.
Qed.

(** No wake-up is lost while the model sleeps: after a generation that went to sleep, the
    wait for the next wake keeps every non-empty queue signalled at each of its rounds,
    so a wait that finds nothing ready leaves no request behind. *)
Theorem sleeping_wakeups model config serve_fuel fuel snapshot s w rest owner snapshot' :
  point s = Serving →
  serve_loop model config serve_fuel snapshot s w = ((Some (RunSleeping snapshot'), rest), owner) →
  ∀ state,
  let w' := (wait_for_wake fuel (settle_generation (RunSleeping snapshot') state owner).2).2 in
  signalled w' ∧ ((select_ready w').1 = SelNothing → queued w' = []).
Proof.
  intros Hp Hl state w'.
  pose proof (serve_loop_rests model config serve_fuel snapshot s w) as Hr. rewrite Hl in Hr.
  assert (Hs : signalled w').
  { apply wait_for_wake_signalled. intros p. apply settle_sleeping_keeps. apply Hr; [|done].
    by rewrite Hp. }
  split; [done|by apply blocked_is_idle].
Qed.

Module WakeSample.
Definition model : NativeModel :=
  {| str_to_token := λ s, Ok (map (λ c, Z.of_nat (nat_of_ascii c)) s);
     add_sequence := λ _ _, Ok (); encode := λ _, Ok ();
     embeddings_seq_ith := λ _ _, Ok [f32_of_Z 1] |}.
Definition config : NativeEmbeddingRequest :=
  {| er_model_id := lit "bge.gguf"; er_model_sha256 := lit "ab"; er_dimension := 1;
     er_pooling := Cls; er_context_tokens := 8; er_max_input_tokens := 4;
     er_batch_tokens := 6; er_max_batch_sequences := 2; er_smoke_input := lit "x" |}.
Definition start : ServeState :=
  {| residency_tracker := new_residency 60 0; scheduler := default_scheduler;
     point := Serving |}.
(** The idle timeout passes; a query arrives just before the worker falls asleep. *)
Definition world : World :=
  initial_world [[]; []; []; [ClientTick 60];
    [ClientSubmit (FairSample.ctx 1) [lit "a"] RequestPriority.Query []]] [].
Definition asleep := serve_loop model config 3 (resident_snapshot 1) start world.
End WakeSample.

Example resident_wakeups_witness :
  len (queued WakeSample.asleep.2) = 1 ∧ signalled WakeSample.asleep.2 ∧
  ((select_ready WakeSample.asleep.2).1 = SelNothing → queued WakeSample.asleep.2 = []).
Proof.
  split; [vm_compute; reflexivity|].
  refine (resident_wakeups WakeSample.model WakeSample.config 3 (resident_snapshot 1)
    WakeSample.start WakeSample.world (Some (RunSleeping (resident_snapshot 1)))
    WakeSample.asleep.1.2 WakeSample.asleep.2 eq_refl _ I).
  vm_compute. reflexivity.
Defined.

Example sleeping_wakeups_witness :
  let state := initial_owner in
  let w' := (wait_for_wake 1 (settle_generation (RunSleeping (resident_snapshot 1)) state
               WakeSample.asleep.2).2).2 in
  len (queued WakeSample.asleep.2) = 1 ∧ signalled w' ∧
  ((select_ready w').1 = SelNothing → queued w' = []).
Proof.
  cbn zeta. split; [vm_compute; reflexivity|].
  refine (sleeping_wakeups WakeSample.model WakeSample.config 3 1 (resident_snapshot 1)
    WakeSample.start WakeSample.world WakeSample.asleep.1.2 WakeSample.asleep.2
    (resident_snapshot 1) eq_refl _ initial_owner).
  vm_compute. reflexivity.
Defined.

(** ** The list of active requests *)
Definition active_is (l : list ActiveRequest) (w : World) : Prop := active (tracker w) = l.

Section Active.
Context (model : NativeModel) (config : NativeEmbeddingRequest).

Lemma keeps_active_same {A} l (m : M A) :
  (∀ w, active (tracker (m w).2) = active (tracker w)) → keeps (active_is l) m.
Proof. intros H w Hw. unfold active_is in *. by rewrite H. Qed.

Lemma cancels_active ac w :
  tracker (foldl (λ w a, apply_cancel a w) w ac) = tracker w.
Proof. revert w. induction ac as [|[] ac IH]; intros w; cbn; [done|..]; by rewrite IH. Qed.

Lemma prune_loop_active rs : ∀ retained w,
  active (tracker (prune_loop rs retained w).2) = active (tracker w).
Proof.
  induction rs as [|r rs IH]; intros retained w; cbn [prune_loop]; [done|].
  unfold mbind, M_bind, ctx_is_cancelled, gets, tracker_op, send, yield_locked, modify.
  set (w1 := foldl _ _ _). assert (Hw1 : tracker w1 = tracker w) by (unfold w1; by rewrite cancels_active).
  destruct (is_cancelled _); rewrite IH; cbn; by rewrite Hw1.
Qed.

Lemma active_pop l p : keeps (active_is l) (try_pop p).
Proof.
  apply keeps_active_same. intros w.
  unfold try_pop, prune_cancelled, set_requests, raise_signal, gets, modify, mbind, M_bind, mret, M_ret.
  pose proof (prune_loop_active (requests (queue_of p w)) [] w) as H.
  destruct (prune_loop _ [] w) as [kept w1]. cbn [snd] in H. rewrite queue_of_with. cbn.
  destruct kept; [done|]. by case_bool_decide.
Qed.

Lemma run_action_active a w : active (tracker (run_action a w)) = active (tracker w).
Proof.
  destruct a as [ctx inputs p cancels|n|c| | | |d]; cbn [run_action]; try done.
  - unfold submit, fresh_channel, update, try_push, prune_cancelled, set_requests, raise_signal,
      gets, modify, mbind, M_bind, mret, M_ret.
    case_bool_decide; [done|].
    set (w1 := with_next_channel _ _).
    pose proof (prune_loop_active (requests (queue_of p w1)) [] w1) as Ha.
    destruct (prune_loop _ [] w1) as [kept w2]. cbn [snd] in Ha. by destruct (_ <=? _).
  - unfold begin_draining_if_idle, gets. unfold mbind, M_bind. by destruct (_ || _).
Qed.
Lemma active_yield l : keeps (active_is l) yield.
Proof.
  apply keeps_active_same. intros w. unfold yield, modify. cbn [snd].
  generalize (next_actions w) as ac.
  change (active (tracker w)) with (active (tracker (with_schedule (tail (schedule w)) w))).
  generalize (with_schedule (tail (schedule w)) w). clear. intros w ac. unfold run_actions.
  revert w. induction ac as [|a ac IH]; intros w; cbn; [done|]. by rewrite IH, run_action_active.
Qed.
Lemma active_gets {A} l (f : World → A) : keeps (active_is l) (gets f).
Proof. by apply keeps_active_same. Qed.
Lemma active_live l ctx : keeps (active_is l) (ensure_embedding_request_live ctx).
Proof.
  unfold ensure_embedding_request_live, ctx_is_cancelled.
  auto using active_yield, active_gets with engine_keeps.
Qed.
Lemma active_progress l c : keeps (active_is l) (tracker_op (λ t, progress t c)).
Proof. apply keeps_active_same. intros w. by destruct c. Qed.
Lemma active_hold l rounds ctx : keeps (active_is l) (hold_loop rounds ctx).
Proof.
  induction rounds; cbn [hold_loop]; unfold ctx_is_cancelled;
    auto 20 using active_yield, active_gets with engine_keeps.
Qed.
Lemma active_cell l n f : keeps (active_is l) (update_cell n f).
Proof. apply keeps_active_same. intros w. unfold update_cell. by destruct (f _). Qed.
Lemma active_send l ch r : keeps (active_is l) (send ch r).
Proof. by apply keeps_active_same. Qed.

Lemma active_record l ctx n : keeps (active_is l) (ctx_record_completed_tokens ctx n).
Proof. by apply keeps_active_same. Qed.
#[local] Hint Resolve active_yield active_gets active_live active_progress active_hold active_cell
  active_send active_record active_pop : engine_keeps.

Section Handler.
Context (handle_query : EmbeddingRequest → M ()).
Context (Hq : ∀ q l, keeps (active_is l) (handle_query q)).
Lemma active_between l priority more ctx :
  keeps (active_is l) (between_batches handle_query priority more ctx).
Proof. unfold between_batches, take_query_between_bulk_batches. auto 20 with engine_keeps. Qed.
#[local] Hint Resolve active_between : engine_keeps.
Lemma active_embed_loop l fuel tokenized priority ctx : ∀ offset output,
  keeps (active_is l) (embed_loop model config handle_query fuel tokenized priority ctx offset output).
Proof. induction fuel; intros offset output; cbn [embed_loop]; auto 30 with engine_keeps. Qed.
#[local] Hint Resolve active_embed_loop : engine_keeps.
Lemma active_embed_inputs l inputs priority ctx :
  keeps (active_is l) (embed_inputs model config handle_query inputs priority ctx).
Proof. unfold embed_inputs. auto 20 with engine_keeps. Qed.
#[local] Hint Resolve active_embed_inputs : engine_keeps.

Lemma remove_last_snoc l ctx class :
  remove_last (request_id ctx) (l ++ [active_entry ctx class]) = Some l.
Proof.
  induction l as [|a l IH]; cbn; [by rewrite (proj2 (str_eqb_eq _ _) eq_refl)|].
  by rewrite IH.
Qed.

Lemma active_finish l ctx class b1 b2 :
  hoare (active_is (l ++ [active_entry ctx class])) (finish_request ctx class b1 b2)
    (λ _, active_is l).
Proof.
  apply hoare_update. intros w Hw. unfold active_is in Hw. unfold finish. rewrite Hw.
  rewrite remove_last_snoc. unfold active_is. by destruct b2, b1.
Qed.

Lemma active_begin l ctx class :
  hoare (active_is l) (begin_request ctx class)
    (λ ok, active_is (if (ok : bool) then l ++ [active_entry ctx class] else l)).
Proof.
  apply hoare_update. intros w Hw. unfold active_is in *.
  destruct (decide (lifecycle (context_cell w ctx) = RequestLifecycle.Queued)) as [Hc|Hc].
  - destruct (context_cell w ctx) as [ph n]. cbn in Hc. subst ph. rewrite begin_queued.
    cbn. by rewrite Hw.
  - rewrite begin_refused by done. cbn. exact Hw.
Qed.

Lemma active_handle_with l r priority :
  keeps (active_is l) (handle_request_with model config handle_query r priority).
Proof.
  unfold keeps, handle_request_with. hbind; [apply active_yield|].
  hbind; [apply active_begin|]. destruct a0; cbn [negb]; [|apply active_send].
  set (l' := l ++ [active_entry (rq_context r) (request_class priority)]).
  eapply (hoare_bind _ _ _ (λ _, active_is l')); [by apply hoare_update|]. intros rounds.
  eapply (hoare_bind _ _ _ (λ _, active_is l')); [apply active_hold|]. intros [].
  { hbind; [apply active_finish|]. hbind; [apply active_yield|]. apply active_send. }
  eapply (hoare_bind _ _ _ (λ _, active_is l')); [apply active_embed_inputs|]. intros embedded.
  eapply (hoare_bind _ _ _ (λ _, active_is l')); [apply active_yield|]. intros _.
  eapply (hoare_bind _ _ _ (λ _, active_is l')); [apply active_gets|]. intros cancelled.
  eapply (hoare_bind _ _ _ (λ _, active_is l')); [apply active_yield|]. intros _.
  eapply (hoare_bind _ _ _ (λ _, active_is l')).
  { destruct cancelled; [apply keeps_ret|apply active_cell]. }
  intros committed. eapply (hoare_bind _ _ _ (λ _, active_is l')); [apply active_yield|]. intros _.
  hbind; [apply active_finish|]. hbind; [apply active_yield|]. apply active_send.
Qed.
End Handler.
End Active.

(** Handling balances the tracker: whatever happens to a request (embedded, refused, failed,
    cancelled at any point, with queries handled in between), the list of active
    requests is afterwards what it was before. *)
Theorem handle_request_restores_active model config r priority w :
  active (tracker (handle_request model config r priority w).2) = active (tracker w).
Proof.
  pose proof (active_handle_with model config (handle_query model config)
    (λ q l, active_handle_with model config (λ _, mret ()) (λ _ _, keeps_ret _ _) l q
       RequestPriority.Query) (active (tracker w)) r priority) as H.
  by apply H.
Qed.

(** ** Residency *)

(** What happens to a residency tracker, with the time of each event. *)
Inductive ResidencyEvent : Set :=
| EvActivity (now : Z)
| EvLease
| EvRelease (now : Z).
Definition residency_step (t : ResidencyTracker) (e : ResidencyEvent) : ResidencyTracker :=
  match e with
  | EvActivity n => complete_activity n t
  | EvLease => acquire_lease t
  | EvRelease n => release_lease n t
  end.
Definition granted (l : list ResidencyEvent) : Z :=
  len (List.filter (λ e, match e with EvLease => true | _ => false end) l).
Definition released (l : list ResidencyEvent) : Z :=
  len (List.filter (λ e, match e with EvRelease _ => true | _ => false end) l).

Lemma residency_leases events t :
  0 ≤ leases t →
  leases t + granted events - released events ≤ leases (foldl residency_step t events) ∧
  0 ≤ leases (foldl residency_step t events) ∧
  idle_timeout (foldl residency_step t events) = idle_timeout t.
Proof.
  revert t. induction events as [|e events IH]; intros t Ht; cbn [foldl]; [done || (unfold granted, released, len; simpl; lia)|].
  destruct (IH (residency_step t e)) as (H1 & H2 & H3).
  { destruct e; cbn; unfold saturating_sub; lia. }
  split_and!; [|done|by rewrite H3; destruct e].
  unfold granted, released, len in *. destruct e; cbn in *; unfold saturating_sub in *; lia.
Qed.

(** Leases pin the model: after any events, while more leases were granted than released
    the tracker never sleeps; and without leases its timer is exact, that is, the model
    sleeps at a time iff nothing remains of the idle timeout, which is at the deadline
    the wait was given and not before it. *)
Theorem residency_contract events idle start now :
  0 ≤ idle →
  let t := foldl residency_step (new_residency idle start) events in
  (released events < granted events → should_sleep now t = false) ∧
  (leases t = 0 → last_activity t ≤ now →
     (should_sleep now t = true ↔ remaining now t = 0) ∧
     ∀ later, now ≤ later →
       (should_sleep later t = true ↔ now + remaining now t ≤ later)).
Proof.
  intros Hi t. destruct (residency_leases events (new_residency idle start)) as (H1 & H2 & H3);
    [cbn; lia|]. fold t in H1, H2, H3. cbn in H1, H3. unfold should_sleep, remaining. split.
  - intros Hg. destruct (leases t =? 0) eqn:Hl; [|done]. apply Z.eqb_eq in Hl. lia.
  - intros Hl Hn. rewrite Hl, H3. cbn. unfold saturating_sub.
    split; [rewrite Z.leb_le; lia|]. intros later Hlater. rewrite Z.leb_le. lia.
Qed.

Example residency_contract_witness :
  let events := [EvLease; EvActivity 5; EvRelease 10] in
  let t := foldl residency_step (new_residency 60 0) events in
  (released events < granted events → should_sleep 12 t = false) ∧
  (leases t = 0 → last_activity t ≤ 12 →
     (should_sleep 12 t = true ↔ remaining 12 t = 0) ∧
     ∀ later, 12 ≤ later → (should_sleep later t = true ↔ 12 + remaining 12 t ≤ later)).
Proof. exact (residency_contract [EvLease; EvActivity 5; EvRelease 10] 60 0 12 ltac:(lia)). Defined.
