(* ===== verification/RetrievalPlan.v ===== *)
(** * Retrieval: mode, query shape and plan (codestory-retrieval/src)

    The mandatory-sidecar mode derived from the health of the three sidecars
    (mode.rs), the shape of a query (query_features.rs) and the staged plan of a query
    (planner.rs).  Letter classes outside ASCII come from the Unicode tables of the
    standard library, an interface. *)
From S2P Require Import Prelude RustStr.

(** ** Characters *)

Class UnicodeTables : Type := {
  unicode_alphanumeric : str → bool;
  unicode_uppercase : str → bool;
  unicode_lowercase : str → bool;
}.

Definition ascii_in (lo hi : N) (c : ascii) : bool :=
  (lo <=? N_of_ascii c)%N && (N_of_ascii c <=? hi)%N.
Definition is_ascii_uppercase : ascii → bool := ascii_in 65 90.
Definition is_ascii_lowercase : ascii → bool := ascii_in 97 122.
Definition is_ascii_alphabetic (c : ascii) : bool := is_ascii_uppercase c || is_ascii_lowercase c.
Definition is_ascii_digit : ascii → bool := ascii_in 48 57.

(** A word boundary: strings between Unicode whitespace ([split_whitespace]). *)
Definition at_whitespace (s : str) : bool := bool_decide (is_Some (strip_one utf8_whitespace s)).
Fixpoint take_word (s : str) : str * str :=
  match s with
  | [] => ([], [])
  | c :: s' =>
      if at_whitespace s then ([], s) else let '(w, rest) := take_word s' in (c :: w, rest)
  end.
Fixpoint words (fuel : nat) (s : str) : list str :=
  match fuel with
  | O => []
  | S fuel =>
      match trim_start s with
      | [] => []
      | s' => let '(w, rest) := take_word s' in w :: words fuel rest
      end
  end.
Definition split_whitespace (s : str) : list str := words (length s) s.

Section Unicode.
Context `{UnicodeTables}.
Definition char_test (in_ascii : ascii → bool) (beyond : str → bool) (ch : str) : bool :=
  match ch with [c] => in_ascii c | _ => beyond ch end.
Definition is_alphanumeric : str → bool :=
  char_test (λ c, is_ascii_alphabetic c || is_ascii_digit c) unicode_alphanumeric.
Definition is_uppercase : str → bool := char_test is_ascii_uppercase unicode_uppercase.
Definition is_lowercase : str → bool := char_test is_ascii_lowercase unicode_lowercase.
End Unicode.

(** ** Mode *)
Module ComponentStatus.
Inductive ComponentStatus : Set := Healthy | Degraded | Unavailable.
End ComponentStatus.
Abbreviation ComponentStatus := ComponentStatus.ComponentStatus.
#[export] Instance ComponentStatus_eq_dec : EqDecision ComponentStatus.
Proof. solve_decision. Defined.

Record SidecarCapabilities : Type := mkSidecarCapabilities {
  cap_lexical : bool;
  cap_semantic : bool;
  cap_graph : bool;
}.

Record ComponentHealth : Type := mkComponentHealth {
  health_name : str;
  status : ComponentStatus;
  latency_ms : option Z;
  detail : str;
  degraded_reason : option str;
  capabilities : SidecarCapabilities;
}.

Module RetrievalDegradedMode.
Inductive RetrievalDegradedMode : Set := Full | NoScip | NoSemantic | LexicalOnly | Unavailable.
End RetrievalDegradedMode.
Abbreviation RetrievalDegradedMode := RetrievalDegradedMode.RetrievalDegradedMode.
#[export] Instance RetrievalDegradedMode_eq_dec : EqDecision RetrievalDegradedMode.
Proof. solve_decision. Defined.

Definition mode_as_str (m : RetrievalDegradedMode) : str :=
  match m with
  | RetrievalDegradedMode.Full => lit "full"
  | RetrievalDegradedMode.NoScip => lit "no_scip"
  | RetrievalDegradedMode.NoSemantic => lit "no_semantic"
  | RetrievalDegradedMode.LexicalOnly => lit "lexical_only"
  | RetrievalDegradedMode.Unavailable => lit "unavailable"
  end.
Definition is_full (m : RetrievalDegradedMode) : bool :=
  match m with RetrievalDegradedMode.Full => true | _ => false end.
Definition promotion_eligible : RetrievalDegradedMode → bool := is_full.
Definition runs_scip_stages : RetrievalDegradedMode → bool := is_full.
Definition runs_semantic_stage : RetrievalDegradedMode → bool := is_full.
Definition runs_lexical_stage : RetrievalDegradedMode → bool := is_full.

Definition mandatory_failure_reason (component : ComponentHealth) (name : str) : option str :=
  let state := if bool_decide (status component = ComponentStatus.Unavailable)
               then lit "unavailable" else lit "degraded" in
  match degraded_reason component with
  | Some reason => Some reason
  | None => Some (lit "mandatory_" ++ name ++ lit "_" ++ state)
  end.

Definition healthy (c : ComponentHealth) : bool :=
  bool_decide (status c = ComponentStatus.Healthy).

Definition derive_degraded_mode (lexical semantic scip : ComponentHealth)
  : RetrievalDegradedMode * option str :=
  if negb (healthy lexical) || negb (cap_lexical (capabilities lexical))
  then (RetrievalDegradedMode.Unavailable, mandatory_failure_reason lexical (lit "lexical"))
  else if negb (healthy semantic) || negb (cap_semantic (capabilities semantic))
  then (if cap_graph (capabilities scip) then RetrievalDegradedMode.NoSemantic
        else RetrievalDegradedMode.LexicalOnly,
        mandatory_failure_reason semantic (lit "semantic"))
  else if negb (healthy scip) || negb (cap_graph (capabilities scip))
  then (RetrievalDegradedMode.NoScip, degraded_reason scip)
  else (RetrievalDegradedMode.Full, None).

(** ** Query features *)
Inductive QueryShape : Set := SymbolLike | PathLike | NaturalLanguage | Mixed.
#[export] Instance QueryShape_eq_dec : EqDecision QueryShape.
Proof. solve_decision. Defined.

Record QueryFeatures : Type := mkQueryFeatures {
  raw_query : str;
  shape : QueryShape;
  token_count : Z;
  has_path_separators : bool;
  has_camel_case_token : bool;
  has_snake_case_token : bool;
  looks_like_qualified_symbol : bool;
}.

Definition question_words : list str :=
  [lit "how"; lit "what"; lit "where"; lit "why"; lit "when"; lit "explain"; lit "find"].

Definition query_shape (path_like symbol_like nl_like : bool) : QueryShape :=
  if path_like then (if symbol_like && nl_like then Mixed else PathLike)
  else if symbol_like && negb nl_like then SymbolLike
  else if nl_like && negb symbol_like then NaturalLanguage
  else if nl_like then Mixed
  else if symbol_like then SymbolLike
  else NaturalLanguage.

Definition classify_query `{UnicodeTables} (query : str) : QueryFeatures :=
  let trimmed := trim query in
  let tokens := split_whitespace trimmed in
  let token_count := Z.max (len tokens) 1 in
  let has_path_separators := contains trimmed (lit "/") || contains trimmed (lit "\") in
  let has_camel_case_token :=
    existsb (λ token, existsb is_uppercase (chars token) && existsb is_lowercase (chars token))
      tokens in
  let has_snake_case_token :=
    existsb (λ token, contains token (lit "_")
                      && forallb is_ascii_lowercase (List.filter is_ascii_alphabetic token))
      tokens in
  let looks_like_qualified_symbol :=
    existsb (λ token, contains token (lit ".") || contains token (lit "::")) tokens in
  let path_like := has_path_separators
    || ((token_count =? 1)
        && (ends_with trimmed (lit ".rs") || ends_with trimmed (lit ".ts")
            || ends_with trimmed (lit ".tsx"))) in
  let symbol_like := looks_like_qualified_symbol || has_camel_case_token || has_snake_case_token
    || ((token_count =? 1)
        && forallb (λ ch, is_alphanumeric ch || str_eqb ch (lit "_")) (chars trimmed)) in
  let nl_like := (3 <=? token_count)
    || existsb (λ word, existsb (str_eqb (to_ascii_lowercase word)) question_words) tokens in
  {| raw_query := trimmed; shape := query_shape path_like symbol_like nl_like;
     token_count := token_count; has_path_separators := has_path_separators;
     has_camel_case_token := has_camel_case_token;
     has_snake_case_token := has_snake_case_token;
     looks_like_qualified_symbol := looks_like_qualified_symbol |}.

(** ** Plan *)
Inductive RetrievalStageKind : Set :=
| Stage0ScipAnchor | Stage1Lexical | Stage1bSemantic | Stage2ScipExpand | Stage3RepoTextFallback.
#[export] Instance RetrievalStageKind_eq_dec : EqDecision RetrievalStageKind.
Proof. solve_decision. Defined.

Definition stage_label (k : RetrievalStageKind) : str :=
  match k with
  | Stage0ScipAnchor => lit "stage0_scip_anchor"
  | Stage1Lexical => lit "stage1_lexical"
  | Stage1bSemantic => lit "stage1b_semantic"
  | Stage2ScipExpand => lit "stage2_scip_expand"
  | Stage3RepoTextFallback => lit "stage3_repo_text_fallback"
  end.
Definition provenance_label (k : RetrievalStageKind) : option str :=
  match k with
  | Stage0ScipAnchor => Some (lit "exact")
  | Stage1Lexical => Some (lit "lexical_source")
  | Stage1bSemantic => Some (lit "dense_anchor")
  | Stage2ScipExpand => Some (lit "graph_neighbor")
  | Stage3RepoTextFallback => None
  end.
Definition sidecar_latency_ms (k : RetrievalStageKind) (elapsed_ms : Z) : option Z :=
  match k with
  | Stage3RepoTextFallback => None
  | _ => if elapsed_ms <=? u32_max then Some elapsed_ms else None
  end.

Record PlannedStage : Type := mkPlannedStage {
  kind : RetrievalStageKind;
  budget_ms : Z;
  top_k : Z;
}.
Record RetrievalPlan : Type := mkRetrievalPlan {
  stages : list PlannedStage;
  total_budget_ms : Z;
  stop_marginal_gain_threshold : f32;
  stop_after_low_gain_streak : Z;
}.

Definition DEFAULT_TOTAL_BUDGET_MS : Z := 1000.
Definition MARGINAL_GAIN_THRESHOLD : f32 := f32_ratio 5 100.
Definition LOW_GAIN_STREAK : Z := 2.

Definition top_k_for_shape (s : QueryShape) : Z :=
  match s with SymbolLike => 12 | PathLike => 8 | NaturalLanguage => 48 | Mixed => 24 end.
Definition stage0_budget_ms (s : QueryShape) : Z :=
  match s with SymbolLike | PathLike => 40 | _ => 30 end.
Definition stage1_budget_ms (s : QueryShape) : Z :=
  match s with NaturalLanguage | Mixed => 500 | _ => 80 end.
Definition stage1b_budget_ms (s : QueryShape) : Z :=
  Z.max (match s with NaturalLanguage | Mixed => 250 | SymbolLike => 120 | PathLike => 0 end) 80.
Definition stage2_budget_ms (s : QueryShape) : Z :=
  match s with SymbolLike | Mixed => 180 | PathLike => 120 | NaturalLanguage => 90 end.

Definition budget_sum (l : list PlannedStage) : Z := foldr (λ s n, budget_ms s + n) 0 l.

Definition plan_query (features : QueryFeatures) (mode : RetrievalDegradedMode) : RetrievalPlan :=
  if negb (bool_decide (mode = RetrievalDegradedMode.Full))
  then {| stages := []; total_budget_ms := 0;
          stop_marginal_gain_threshold := MARGINAL_GAIN_THRESHOLD;
          stop_after_low_gain_streak := LOW_GAIN_STREAK |}
  else
    let s := shape features in
    let k := top_k_for_shape s in
    let anchor :=
      if runs_scip_stages mode && match s with SymbolLike | PathLike => true | _ => false end
      then [{| kind := Stage0ScipAnchor; budget_ms := stage0_budget_ms s; top_k := Z.min k 8 |}]
      else [] in
    let lexical :=
      if runs_lexical_stage mode
      then [{| kind := Stage1Lexical; budget_ms := stage1_budget_ms s; top_k := k |}]
      else [] in
    let semantic_stage :=
      if runs_semantic_stage mode && negb (bool_decide (s = PathLike))
      then [{| kind := Stage1bSemantic; budget_ms := stage1b_budget_ms s;
               top_k := match s with
                        | NaturalLanguage | Mixed => Z.min (saturating_mul usize_max k 2) 40
                        | _ => k
                        end |}]
      else [] in
    let scip_expand_stage :=
      if runs_scip_stages mode
      then [{| kind := Stage2ScipExpand; budget_ms := stage2_budget_ms s;
               top_k := match s with NaturalLanguage => Z.min k 20 | _ => Z.min k 16 end |}]
      else [] in
    let tail_stages :=
      match s with
      | NaturalLanguage | Mixed => semantic_stage ++ scip_expand_stage
      | _ => scip_expand_stage ++ semantic_stage
      end in
    let stages := anchor ++ lexical ++ tail_stages in
    {| stages := stages; total_budget_ms := Z.min (budget_sum stages) DEFAULT_TOTAL_BUDGET_MS;
       stop_marginal_gain_threshold := MARGINAL_GAIN_THRESHOLD;
       stop_after_low_gain_streak := LOW_GAIN_STREAK |}.

(** * Properties *)

(** A sidecar that can serve its lane. *)
Definition serves (c : ComponentHealth) (capability : SidecarCapabilities → bool) : Prop :=
  status c = ComponentStatus.Healthy ∧ capability (capabilities c) = true.

Lemma healthy_serves c capability :
  negb (healthy c) || negb (capability (capabilities c)) = false ↔ serves c capability.
Proof.
  unfold healthy, serves. rewrite orb_false_iff, !negb_false_iff, bool_decide_eq_true. done.
Qed.

(** Retrieval fails closed: a plan has stages exactly when all three mandatory sidecars are
    healthy and capable, and then it is the whole staged plan of the query's shape:
    lexical search always, an anchor first for symbol and path queries, no semantic
    stage for paths, semantic before graph expansion for broad queries and after it
    otherwise, within the total budget; a mode that is not full says why, except for a
    graph sidecar that gave no reason. *)
Theorem plan_fails_closed lexical semantic scip features :
  let '(mode, reason) := derive_degraded_mode lexical semantic scip in
  let plan := plan_query features mode in
  (stages plan ≠ [] ↔ serves lexical cap_lexical ∧ serves semantic cap_semantic ∧
                      serves scip cap_graph) ∧
  (stages plan ≠ [] → kind <$> stages plan = match shape features with
     | SymbolLike => [Stage0ScipAnchor; Stage1Lexical; Stage2ScipExpand; Stage1bSemantic]
     | PathLike => [Stage0ScipAnchor; Stage1Lexical; Stage2ScipExpand]
     | NaturalLanguage | Mixed => [Stage1Lexical; Stage1bSemantic; Stage2ScipExpand]
     end ∧ total_budget_ms plan = budget_sum (stages plan) ∧ total_budget_ms plan ≤ 1000) ∧
  (stages plan = [] → is_Some reason ∨ mode = RetrievalDegradedMode.NoScip).
Proof.
  unfold derive_degraded_mode.
  destruct (negb (healthy lexical) || _) eqn:H1.
  { assert (¬ serves lexical cap_lexical) by (rewrite <- healthy_serves; congruence).
    unfold mandatory_failure_reason. cbn. split; [naive_solver|]. split; [done|]. intros _. left.
    destruct (degraded_reason lexical); eauto. }
  apply healthy_serves in H1. destruct (negb (healthy semantic) || _) eqn:H2.
  { assert (¬ serves semantic cap_semantic) by (rewrite <- healthy_serves; congruence).
    assert (is_Some (mandatory_failure_reason semantic (lit "semantic"))).
    { unfold mandatory_failure_reason. destruct (degraded_reason semantic); eauto. }
    destruct (cap_graph (capabilities scip)); cbn; naive_solver. }
  apply healthy_serves in H2. destruct (negb (healthy scip) || _) eqn:H3.
  { assert (¬ serves scip cap_graph) by (rewrite <- healthy_serves; congruence). cbn. naive_solver. }
  apply healthy_serves in H3. unfold plan_query. destruct (shape features); cbn;
    (split; [naive_solver|]); (split; [|done]); intros _; (split; [done|]); cbv; done.
Qed.
