(* ===== verification/RetrievalData.v ===== *)
(** * Retrieval data

    File roles and their path heuristic (codestory-store storage_impl/mod.rs),
    retrieval candidates (codestory-retrieval/src/candidate.rs) and the index manifest
    with its generation contract (storage_impl/retrieval_manifest.rs, generation.rs). *)
From S2P Require Import Prelude RustStr.

(** ** File roles *)
Module FileRole.
Inductive FileRole : Set :=
| Source | Entrypoint | Test | Docs | Benchmark | Generated | Vendor.
End FileRole.
Abbreviation FileRole := FileRole.FileRole.
#[export] Instance FileRole_eq_dec : EqDecision FileRole.
Proof. solve_decision. Defined.

Definition file_role_as_str (r : FileRole) : str :=
  match r with
  | FileRole.Source => lit "source" | FileRole.Entrypoint => lit "entrypoint"
  | FileRole.Test => lit "test" | FileRole.Docs => lit "docs"
  | FileRole.Benchmark => lit "benchmark" | FileRole.Generated => lit "generated"
  | FileRole.Vendor => lit "vendor"
  end.

Definition from_db_value (value : str) : FileRole :=
  let v := to_ascii_lowercase (trim value) in
  if str_eqb v (lit "entrypoint") then FileRole.Entrypoint
  else if str_eqb v (lit "test") then FileRole.Test
  else if str_eqb v (lit "docs") then FileRole.Docs
  else if str_eqb v (lit "benchmark") then FileRole.Benchmark
  else if str_eqb v (lit "generated") then FileRole.Generated
  else if str_eqb v (lit "vendor") then FileRole.Vendor
  else FileRole.Source.

(** [str::rfind] of a string: the offset of its last occurrence. *)
Fixpoint rfind (s pat : str) : option nat :=
  match s with
  | [] => if starts_with [] pat then Some 0%nat else None
  | _ :: s' =>
      match rfind s' pat with
      | Some i => Some (S i)
      | None => if starts_with s pat then Some 0%nat else None
      end
  end.

(** The part after the last slash, and the two parts around the first one. *)
Definition after_last_slash (s : str) : str :=
  match rfind_byte "/"%char s with Some i => drop (S i) s | None => s end.
Definition split_once_slash (s : str) : option (str * str) :=
  (λ i, (take i s, drop (S i) s)) <$> find_byte "/"%char s.

Definition repo_markers : list str :=
  [lit "/source/repos/"; lit "source/repos/"; lit "/repos/"; lit "repos/"].

(** The repository-relative part after the last checkout marker. *)
Definition best_repo_relative (normalized : str) : option (nat * str) :=
  foldl (λ best marker,
    match rfind normalized marker with
    | None => best
    | Some index =>
        match split_once_slash (drop (index + length marker) normalized) with
        | None => best
        | Some (_, repo_relative) =>
            match best with
            | Some (best_index, _) =>
                if (best_index <? index)%nat then Some (index, repo_relative) else best
            | None => Some (index, repo_relative)
            end
        end
    end) None repo_markers.

Definition any_in (s : str) (pats : list str) : bool := existsb (contains s) pats.
Definition any_suffix (s : str) (pats : list str) : bool := existsb (ends_with s) pats.
Definition one_of (s : str) (names : list str) : bool := existsb (str_eqb s) names.

Definition classify_path (path : str) : FileRole :=
  let normalized := to_ascii_lowercase (replace path (lit "\") (lit "/")) in
  let normalized := match best_repo_relative normalized with
                    | Some (_, repo_relative) => repo_relative
                    | None => normalized
                    end in
  let marked := lit "/" ++ normalized in
  let file_name := after_last_slash normalized in
  if any_in marked [lit "/node_modules/"; lit "/vendor/"; lit "/third_party/";
                    lit "/third-party/"; lit "/external/"]
  then FileRole.Vendor
  else if any_in marked [lit "/target/"; lit "/dist/"; lit "/build/"; lit "/generated/";
                         lit "/schema/typescript/"; lit ".generated."]
          || ends_with file_name (lit ".g.cs") || contains file_name (lit "payload-types")
  then FileRole.Generated
  else if any_in marked [lit "/tests/"; lit "/test/"; lit "/spec/"; lit "/fixtures/";
                         lit "/__tests__/"; lit "-test-client/"; lit "_test_client/"]
          || any_in file_name [lit ".test."; lit ".spec."]
          || any_suffix file_name [lit "_test.rs"; lit "_tests.rs"; lit "_test.py";
               lit "_tests.py"; lit "_test.ts"; lit "_tests.ts"; lit "_test.tsx";
               lit "_tests.tsx"]
  then FileRole.Test
  else if any_in marked [lit "/docs/"; lit "/doc/"]
          || one_of file_name [lit "readme.md"; lit "changelog.md"]
  then FileRole.Docs
  else if any_in marked [lit "/benchmarks/"; lit "/benchmark/"; lit "/benches/"; lit "/bench/"]
  then FileRole.Benchmark
  else if one_of file_name [lit "main.rs"; lit "lib.rs"; lit "mod.rs"; lit "main.ts";
            lit "main.tsx"; lit "main.js"; lit "main.jsx"; lit "index.ts"; lit "index.tsx";
            lit "index.js"; lit "index.jsx"]
  then FileRole.Entrypoint
  else FileRole.Source.

(** ** Candidates *)
Record RankFeatures : Type := mkRankFeatures {
  rf_lexical : f32;
  rf_semantic : f32;
  rf_scip_distance : f32;
  rf_file_role_prior : f32;
  rf_definition_quality : f32;
  rf_token_overlap : f32;
}.

Module CandidateSource.
Inductive CandidateSource : Set := Lexical | Semantic | Scip | Legacy.
End CandidateSource.
Abbreviation CandidateSource := CandidateSource.CandidateSource.
#[export] Instance CandidateSource_eq_dec : EqDecision CandidateSource.
Proof. solve_decision. Defined.

Record CandidateHit : Type := mkCandidateHit {
  node_id : option str;
  file_path : str;
  symbol_name : option str;
  start_line : option Z;
  score : f32;
  source : CandidateSource;
  provenance : list str;
  file_role : option FileRole;
  scip_hop_distance : option Z;
  rank_features : option RankFeatures;
}.

Definition is_phantom_sidecar_hit (hit : CandidateHit) : bool :=
  starts_with (file_path hit) (lit "lexical:") || starts_with (file_path hit) (lit "semantic:")
  || starts_with (file_path hit) (lit "scip:").
Definition phantom_sidecar_candidates_only (candidates : list CandidateHit) : bool :=
  negb (bool_decide (len candidates = 0)) && forallb is_phantom_sidecar_hit candidates.

Definition lexical_stub (file_path : str) (score : f32) : CandidateHit :=
  {| node_id := None; file_path := file_path; symbol_name := None; start_line := None;
     score := score; source := CandidateSource.Lexical; provenance := [lit "lexical_source"];
     file_role := None; scip_hop_distance := None; rank_features := None |}.
Definition with_source (file_path : str) (symbol_name : option str) (score : f32)
    (source : CandidateSource) : CandidateHit :=
  {| node_id := None; file_path := file_path; symbol_name := symbol_name; start_line := None;
     score := score; source := source; provenance := []; file_role := None;
     scip_hop_distance := None; rank_features := None |}.

Definition with_provenance (p : list str) (hit : CandidateHit) : CandidateHit :=
  {| node_id := node_id hit; file_path := file_path hit; symbol_name := symbol_name hit;
     start_line := start_line hit; score := score hit; source := source hit; provenance := p;
     file_role := file_role hit; scip_hop_distance := scip_hop_distance hit;
     rank_features := rank_features hit |}.
Definition with_file_role (r : option FileRole) (hit : CandidateHit) : CandidateHit :=
  {| node_id := node_id hit; file_path := file_path hit; symbol_name := symbol_name hit;
     start_line := start_line hit; score := score hit; source := source hit;
     provenance := provenance hit; file_role := r; scip_hop_distance := scip_hop_distance hit;
     rank_features := rank_features hit |}.

(** The list of labels after [add_provenance]. *)
Definition push_label (labels : list str) (label : str) : list str :=
  if existsb (str_eqb label) labels then labels else labels ++ [label].
Definition add_provenance (label : str) (hit : CandidateHit) : CandidateHit :=
  with_provenance (push_label (provenance hit) label) hit.

(** ** The index manifest *)
Record RetrievalIndexManifest : Type := mkRetrievalIndexManifest {
  project_id : str;
  lexical_version : str;
  semantic_generation : str;
  scip_revision : option str;
  built_at_epoch_ms : Z;
  disk_bytes : option Z;
  degraded_modes_json : str;
  embedding_backend : option str;
  embedding_dim : option Z;
  sidecar_schema_version : option Z;
  sidecar_input_hash : option str;
  sidecar_generation : option str;
  projection_count : option Z;
  symbol_doc_count : option Z;
  dense_projection_count : option Z;
  semantic_policy_version : option str;
  graph_artifact_hash : option str;
  dense_reason_counts_json : option str;
  precise_semantic_import_status : option str;
  precise_semantic_import_reason : option str;
  precise_semantic_import_revision : option str;
  precise_semantic_import_producer : option str;
}.

Definition SIDECAR_SCHEMA_VERSION : Z := 6.
Definition SEMANTIC_POLICY_VERSION : str := lit "graph_first_v2".
Definition LEXICAL_INDEX_VERSION : str := lit "sqlite-fts5-v1".

(** [chars().take(16).collect()]. *)
Definition hash_suffix (sidecar_input_hash : str) : str :=
  concat (take 16 (chars sidecar_input_hash)).
Definition sidecar_generation_id (project_id sidecar_input_hash : str) : str :=
  project_id ++ lit "-" ++ hash_suffix sidecar_input_hash.
Definition sidecar_vector_generation (project_id sidecar_input_hash : str) : str :=
  lit "codestory_" ++ project_id ++ lit "_" ++ hash_suffix sidecar_input_hash.

Definition option_test {A} (f : A → bool) (o : option A) : bool :=
  match o with Some a => f a | None => false end.

Definition manifest_has_current_sidecar_contract (project : str) (m : RetrievalIndexManifest)
  : bool :=
  match sidecar_input_hash m with
  | None => false
  | Some hash =>
      negb (bool_decide (trim hash = []))
      && str_eqb (lexical_version m) LEXICAL_INDEX_VERSION
      && bool_decide (sidecar_schema_version m = Some SIDECAR_SCHEMA_VERSION)
      && bool_decide (sidecar_generation m = Some (sidecar_generation_id project hash))
      && str_eqb (semantic_generation m) (sidecar_vector_generation project hash)
      && option_test (λ n, 0 <=? n) (projection_count m)
      && option_test (λ n, 0 <=? n) (symbol_doc_count m)
      && option_test (λ n, 0 <=? n) (dense_projection_count m)
      && bool_decide (dense_projection_count m = projection_count m)
      && bool_decide (semantic_policy_version m = Some SEMANTIC_POLICY_VERSION)
      && option_test (λ h, negb (bool_decide (trim h = []))) (graph_artifact_hash m)
      && bool_decide (is_Some (dense_reason_counts_json m))
  end.
