(* ===== verification/RetrievalCache.v ===== *)
(** * The query result cache (codestory-retrieval/src/cache.rs)

    A map from keys tied to a published manifest to results, with the order of the
    keys for eviction and the publication its entries belong to.  The map is a hash map
    the code never iterates, so a finite map models it. *)
From S2P Require Import Prelude RustStr RetrievalData.

(** ** Keys *)
Record RetrievalCacheKey : Type := mkRetrievalCacheKey {
  ck_core_generation_id : option str;
  ck_core_run_id : option str;
  ck_project_id : str;
  ck_lexical_version : str;
  ck_semantic_generation : str;
  ck_scip_revision : option str;
  ck_sidecar_generation : option str;
  ck_sidecar_input_hash : option str;
  ck_sidecar_schema_version : option Z;
  ck_projection_count : option Z;
  ck_query_fingerprint : str;
}.
#[export] Instance RetrievalCacheKey_eq_dec : EqDecision RetrievalCacheKey.
Proof. solve_decision. Defined.
#[export] Instance RetrievalCacheKey_countable : Countable RetrievalCacheKey.
Proof.
  apply (inj_countable'
    (λ k, (ck_core_generation_id k, ck_core_run_id k, ck_project_id k, ck_lexical_version k,
           ck_semantic_generation k, ck_scip_revision k, ck_sidecar_generation k,
           ck_sidecar_input_hash k, ck_sidecar_schema_version k, ck_projection_count k,
           ck_query_fingerprint k))
    (λ '(a, b, c, d, e, f, g, h, i, j, k), mkRetrievalCacheKey a b c d e f g h i j k)).
  by intros [].
Defined.

Definition from_manifest (m : RetrievalIndexManifest) (query_fingerprint : str)
  : RetrievalCacheKey :=
  {| ck_core_generation_id := None; ck_core_run_id := None; ck_project_id := project_id m;
     ck_lexical_version := lexical_version m; ck_semantic_generation := semantic_generation m;
     ck_scip_revision := scip_revision m; ck_sidecar_generation := sidecar_generation m;
     ck_sidecar_input_hash := sidecar_input_hash m;
     ck_sidecar_schema_version := sidecar_schema_version m;
     ck_projection_count := projection_count m; ck_query_fingerprint := query_fingerprint |}.

Record RetrievalPublicationIdentity : Type := mkRetrievalPublicationIdentity {
  core_generation_id : str;
  core_run_id : str;
  id_sidecar_generation : str;
  id_sidecar_input_hash : str;
  id_semantic_generation : str;
}.

(** ** The cache *)
Record RetrievalCache : Type := mkRetrievalCache {
  entries : gmap RetrievalCacheKey (list CandidateHit);
  order : list RetrievalCacheKey;
  capacity : Z;
  publication_identity : option (str * str);
}.

Definition DEFAULT_RETRIEVAL_CACHE_CAPACITY : Z := 128.
Definition with_capacity (capacity : Z) : RetrievalCache :=
  {| entries := ∅; order := []; capacity := Z.max capacity 1; publication_identity := None |}.
Definition new_cache : RetrievalCache := with_capacity DEFAULT_RETRIEVAL_CACHE_CAPACITY.

Definition clear (c : RetrievalCache) : RetrievalCache :=
  {| entries := ∅; order := []; capacity := capacity c; publication_identity := None |}.
Definition with_identity (p : option (str * str)) (c : RetrievalCache) : RetrievalCache :=
  {| entries := entries c; order := order c; capacity := capacity c; publication_identity := p |}.

Definition scope_to_publication (i : RetrievalPublicationIdentity) (c : RetrievalCache)
  : RetrievalCache :=
  let publication := (core_generation_id i, core_run_id i) in
  if negb (bool_decide (publication_identity c = Some publication))
  then with_identity (Some publication) (clear c)
  else c.

Definition key_for_manifest (c : RetrievalCache) (m : RetrievalIndexManifest)
    (query_fingerprint : str) : RetrievalCacheKey :=
  let key := from_manifest m query_fingerprint in
  match publication_identity c with
  | Some (generation_id, run_id) =>
      {| ck_core_generation_id := Some generation_id; ck_core_run_id := Some run_id;
         ck_project_id := ck_project_id key; ck_lexical_version := ck_lexical_version key;
         ck_semantic_generation := ck_semantic_generation key;
         ck_scip_revision := ck_scip_revision key;
         ck_sidecar_generation := ck_sidecar_generation key;
         ck_sidecar_input_hash := ck_sidecar_input_hash key;
         ck_sidecar_schema_version := ck_sidecar_schema_version key;
         ck_projection_count := ck_projection_count key;
         ck_query_fingerprint := ck_query_fingerprint key |}
  | None => key
  end.

Definition get (c : RetrievalCache) (key : RetrievalCacheKey) : option (list CandidateHit) :=
  entries c !! key.

Definition retain_not (key : RetrievalCacheKey) (l : list RetrievalCacheKey)
  : list RetrievalCacheKey := List.filter (λ existing, negb (bool_decide (existing = key))) l.

(** The loop [while self.entries.len() > self.capacity]: it ends at the latest when no
    key is left to evict. *)
Fixpoint evict (order : list RetrievalCacheKey)
    (entries : gmap RetrievalCacheKey (list CandidateHit)) (capacity : Z)
  : list RetrievalCacheKey * gmap RetrievalCacheKey (list CandidateHit) :=
  if capacity <? Z.of_nat (size entries) then
    match order with
    | [] => (order, entries)
    | evicted :: order => evict order (delete evicted entries) capacity
    end
  else (order, entries).

Definition insert_hits (key : RetrievalCacheKey) (hits : list CandidateHit) (c : RetrievalCache)
  : RetrievalCache :=
  let order := if bool_decide (is_Some (entries c !! key)) then retain_not key (order c)
               else order c in
  let '(order, entries) := evict (order ++ [key]) (<[key := hits]> (entries c)) (capacity c) in
  {| entries := entries; order := order; capacity := capacity c;
     publication_identity := publication_identity c |}.

Definition remove (key : RetrievalCacheKey) (c : RetrievalCache) : RetrievalCache :=
  {| entries := delete key (entries c); order := retain_not key (order c);
     capacity := capacity c; publication_identity := publication_identity c |}.

(** [==] of the hits: structural equality, with the one of [f32], which is not
    reflexive on NaN. *)
Definition f32_option_eq (a b : option RankFeatures) : bool :=
  match a, b with
  | None, None => true
  | Some a, Some b =>
      f32_eq (rf_lexical a) (rf_lexical b) && f32_eq (rf_semantic a) (rf_semantic b)
      && f32_eq (rf_scip_distance a) (rf_scip_distance b)
      && f32_eq (rf_file_role_prior a) (rf_file_role_prior b)
      && f32_eq (rf_definition_quality a) (rf_definition_quality b)
      && f32_eq (rf_token_overlap a) (rf_token_overlap b)
  | _, _ => false
  end.
Definition hit_eq (a b : CandidateHit) : bool :=
  bool_decide (node_id a = node_id b) && str_eqb (file_path a) (file_path b)
  && bool_decide (symbol_name a = symbol_name b) && bool_decide (start_line a = start_line b)
  && f32_eq (score a) (score b) && bool_decide (source a = source b)
  && bool_decide (provenance a = provenance b) && bool_decide (file_role a = file_role b)
  && bool_decide (scip_hop_distance a = scip_hop_distance b)
  && f32_option_eq (rank_features a) (rank_features b).
Fixpoint hits_eq (a b : list CandidateHit) : bool :=
  match a, b with
  | [], [] => true
  | x :: a, y :: b => hit_eq x y && hits_eq a b
  | _, _ => false
  end.

(** One key of the other cache's order. *)
Definition merge_key (baseline : RetrievalCache) (other_entries : gmap RetrievalCacheKey (list CandidateHit))
    (c : RetrievalCache) (key : RetrievalCacheKey) : RetrievalCache :=
  match other_entries !! key with
  | None => c
  | Some hits =>
      if option_test (λ known, hits_eq known hits) (entries baseline !! key) then c
      else insert_hits key hits c
  end.

Definition merge_delta_from (baseline other self : RetrievalCache) : RetrievalCache :=
  let same a b := bool_decide (publication_identity a = publication_identity b) in
  if negb (same self baseline) && negb (same self other) then self
  else
    let self :=
      if same self baseline && negb (same other baseline)
      then with_identity (publication_identity other) (clear self) else self in
    if negb (same self other) then self
    else foldl (merge_key baseline (entries other)) self (order other).

(** * Properties *)

(** ** The reference: an ordered list of at most [capacity] entries *)
Abbreviation hits_list := (list (RetrievalCacheKey * list CandidateHit)) (only parsing).

Definition without (key : RetrievalCacheKey) (l : hits_list) : hits_list :=
  List.filter (λ e, negb (bool_decide (e.1 = key))) l.
(** The newest [capacity] entries. *)
Definition newest (capacity : Z) (l : hits_list) : hits_list :=
  drop (length l - Z.to_nat capacity) l.

Definition represents (c : RetrievalCache) (l : hits_list) : Prop :=
  order c = l.*1 ∧ entries c = list_to_map l ∧ NoDup (l.*1) ∧ 1 ≤ capacity c ∧
  len l ≤ capacity c.

Lemma retain_not_fst key l : retain_not key (l.*1) = (without key l).*1.
Proof.
  unfold retain_not, without. induction l as [|[k v] l IH]; cbn; [done|].
  destruct (bool_decide (k = key)); cbn; by rewrite IH.
Qed.
Lemma without_cons key k v l :
  without key ((k, v) :: l) = if bool_decide (k = key) then without key l
                              else (k, v) :: without key l.
Proof. unfold without. cbn. by destruct (bool_decide (k = key)). Qed.
Lemma without_fresh key l : key ∉ l.*1 → without key l = l.
Proof.
  induction l as [|[k v] l IH]; [done|]. intros [Hk Hl]%not_elem_of_cons. cbn in Hk, Hl.
  rewrite without_cons, bool_decide_eq_false_2 by congruence. by rewrite IH.
Qed.
Lemma without_not_in key l : key ∉ (without key l).*1.
Proof.
  induction l as [|[k v] l IH]; [apply not_elem_of_nil|]. rewrite without_cons.
  destruct (bool_decide (k = key)) eqn:Hk; [done|]. apply bool_decide_eq_false in Hk.
  rewrite fmap_cons. apply not_elem_of_cons. by split.
Qed.
Lemma without_nodup key l : NoDup (l.*1) → NoDup ((without key l).*1).
Proof.
  rewrite <- retain_not_fst. unfold retain_not. generalize (l.*1). clear. intros l.
  induction l as [|k l IH]; cbn; [done|]. intros [Hk Hl]%NoDup_cons.
  destruct (bool_decide (k = key)); cbn; [by apply IH|]. constructor; [|by apply IH].
  intros Hin. apply Hk. apply list_elem_of_In in Hin. apply filter_In in Hin as [Hin _].
  by apply list_elem_of_In.
Qed.
Lemma without_length key l : (length (without key l) ≤ length l)%nat.
Proof. unfold without. induction l as [|e l IH]; cbn; [done|]. destruct (negb _); cbn; lia. Qed.

Lemma list_to_map_without key l :
  NoDup (l.*1) → list_to_map (without key l) = delete key (list_to_map l : gmap _ _).
Proof.
  induction l as [|[k v] l IH]; [intros; cbn; by rewrite delete_empty|].
  intros [Hk Hl]%NoDup_cons. cbn in Hk, Hl. rewrite without_cons.
  destruct (bool_decide (k = key)) eqn:Hd; rewrite ?list_to_map_cons.
  - apply bool_decide_eq_true in Hd as <-. rewrite delete_insert_eq, IH by done.
    rewrite delete_id; [done|]. by apply not_elem_of_list_to_map_1.
  - apply bool_decide_eq_false in Hd. rewrite IH by done. by rewrite delete_insert_ne.
Qed.

Lemma list_to_map_snoc_new (l : hits_list) key hits :
  key ∉ l.*1 → list_to_map (l ++ [(key, hits)]) = <[key := hits]> (list_to_map l : gmap _ _).
Proof.
  intros Hk. induction l as [|[k v] l IH]; cbn; [done|]. cbn in Hk.
  apply not_elem_of_cons in Hk as [Hne Hk]. rewrite IH by done.
  by rewrite insert_insert_ne by congruence.
Qed.

Lemma size_list_to_map (l : hits_list) :
  NoDup (l.*1) → size (list_to_map l : gmap RetrievalCacheKey (list CandidateHit)) = length l.
Proof.
  induction l as [|[k v] l IH]; cbn; [by rewrite map_size_empty|].
  intros [Hk Hl]%NoDup_cons. rewrite map_size_insert_None, IH by
    (done || by apply not_elem_of_list_to_map_1). done.
Qed.

Lemma represents_some c l key :
  represents c l → is_Some (entries c !! key) ↔ key ∈ l.*1.
Proof.
  intros (_ & He & Hn & _). rewrite He. split.
  - intros [v Hv%elem_of_list_to_map_2]. apply list_elem_of_fmap. by exists (key, v).
  - intros ([k v] & -> & Hin)%list_elem_of_fmap. exists v. by apply elem_of_list_to_map_1.
Qed.

Lemma evict_newest capacity l :
  0 ≤ capacity → NoDup (l.*1) →
  evict (l.*1) (list_to_map l) capacity =
    ((newest capacity l).*1, list_to_map (newest capacity l)).
Proof.
  intros Hc. induction l as [|[k v] l IH]; intros Hn; cbn [evict fmap list_fmap].
  { cbn. unfold newest. cbn. by destruct (_ <? _). }
  assert (Hsize : Z.of_nat (size (list_to_map ((k, v) :: l) : gmap RetrievalCacheKey (list CandidateHit)))
    = 1 + len l) by (rewrite size_list_to_map by done; unfold len; cbn; lia).
  cbn [fst] in *. rewrite Hsize. unfold newest. cbn [length].
  destruct (capacity <? 1 + len l) eqn:Hlt.
  - apply Z.ltb_lt in Hlt. apply NoDup_cons in Hn as [Hk Hl].
    cbn [list_to_map foldr uncurry curry]. cbn.
    rewrite delete_insert_id by (by apply not_elem_of_list_to_map_1).
    rewrite IH by done. unfold newest.
    replace (S (length l) - Z.to_nat capacity)%nat with (S (length l - Z.to_nat capacity))
      by (unfold len in Hlt; lia). done.
  - apply Z.ltb_ge in Hlt.
    replace (S (length l) - Z.to_nat capacity)%nat with 0%nat by (unfold len in Hlt; lia). done.
Qed.

Lemma represents_insert c l key hits :
  represents c l →
  represents (insert_hits key hits c) (newest (capacity c) (without key l ++ [(key, hits)])).
Proof.
  intros Hr. pose proof (represents_some c l key Hr) as Hs.
  destruct Hr as (Ho & He & Hn & Hc & Hl).
  set (l' := without key l ++ [(key, hits)]).
  assert (Hn' : NoDup (l'.*1)).
  { unfold l'. rewrite fmap_app. cbn. apply NoDup_app. split; [by apply without_nodup|].
    split; [|apply NoDup_singleton]. intros k Hk ->%list_elem_of_singleton.
    by apply (without_not_in key l). }
  assert (Horder : (if bool_decide (is_Some (entries c !! key)) then retain_not key (order c)
                    else order c) ++ [key] = l'.*1).
  { unfold l'. rewrite fmap_app. cbn. f_equal. rewrite Ho. case_bool_decide as Hd.
    - by rewrite retain_not_fst.
    - rewrite without_fresh; [done|]. by rewrite <- Hs. }
  assert (Hmap : <[key := hits]> (entries c) = list_to_map l').
  { unfold l'. rewrite list_to_map_snoc_new by apply without_not_in.
    rewrite list_to_map_without by done. by rewrite insert_delete_eq, He. }
  unfold insert_hits. rewrite Horder, Hmap, evict_newest by (done || lia).
  split; [done|]. split; [done|]. cbn.
  assert (Hdrop : (newest (capacity c) l').*1 = drop (length l' - Z.to_nat (capacity c)) (l'.*1))
    by (unfold newest; by rewrite fmap_drop).
  split; [rewrite Hdrop; eapply sublist_NoDup; [exact Hn'|apply sublist_drop]|]. split; [done|].
  unfold newest, len. rewrite length_drop. lia.
Qed.

Lemma represents_remove c l key :
  represents c l → represents (remove key c) (without key l).
Proof.
  intros (Ho & He & Hn & Hc & Hl). split; [cbn; by rewrite Ho, retain_not_fst|].
  split; [cbn; by rewrite He, list_to_map_without|]. split; [by apply without_nodup|].
  split; [done|]. pose proof (without_length key l). unfold len in *. cbn. lia.
Qed.

Lemma represents_clear c l : represents c l → represents (clear c) [].
Proof. intros (_ & _ & _ & Hc & _). split_and!; try done; [constructor|cbn; unfold len; cbn; lia]. Qed.

(** ** Histories *)
Inductive CacheOp : Type :=
| OScope (i : RetrievalPublicationIdentity)
| OInsert (m : RetrievalIndexManifest) (query_fingerprint : str) (hits : list CandidateHit)
| ORemove (m : RetrievalIndexManifest) (query_fingerprint : str)
| OClear.

Definition cache_step (c : RetrievalCache) (op : CacheOp) : RetrievalCache :=
  match op with
  | OScope i => scope_to_publication i c
  | OInsert m f hits => insert_hits (key_for_manifest c m f) hits c
  | ORemove m f => remove (key_for_manifest c m f) c
  | OClear => clear c
  end.
(** The same history on the reference, whose keys come from the same publication. *)
Definition reference_step (capacity : Z) (s : option (str * str) * hits_list) (op : CacheOp)
  : option (str * str) * hits_list :=
  let key m f := key_for_manifest (with_identity s.1 new_cache) m f in
  match op with
  | OScope i =>
      let publication := Some (core_generation_id i, core_run_id i) in
      (publication, if bool_decide (s.1 = publication) then s.2 else [])
  | OInsert m f hits => (s.1, newest capacity (without (key m f) s.2 ++ [(key m f, hits)]))
  | ORemove m f => (s.1, without (key m f) s.2)
  | OClear => (None, [])
  end.

Lemma reference_key c m f :
  key_for_manifest (with_identity (publication_identity c) new_cache) m f = key_for_manifest c m f.
Proof. reflexivity. Qed.

Lemma cache_step_capacity c op : capacity (cache_step c op) = capacity c.
Proof.
  destruct op; cbn; [unfold scope_to_publication; by destruct (negb _)| |done|done].
  unfold insert_hits. by destruct (evict _ _ _).
Qed.

Lemma cache_step_refines c s op :
  represents c s.2 → publication_identity c = s.1 →
  represents (cache_step c op) (reference_step (capacity c) s op).2 ∧
  publication_identity (cache_step c op) = (reference_step (capacity c) s op).1.
Proof.
  intros Hr Hp. destruct op as [i|m f hits|m f|]; cbn [cache_step reference_step fst snd].
  - unfold scope_to_publication. rewrite Hp. destruct (bool_decide _) eqn:Hd; cbn.
    + apply bool_decide_eq_true in Hd. split; [done|]. by rewrite Hp.
    + split; [|done]. destruct (represents_clear _ _ Hr) as (H1 & H2 & H3 & H4 & H5). done.
  - rewrite <- Hp, reference_key. split; [by apply represents_insert|].
    unfold insert_hits. by destruct (evict _ _ _).
  - rewrite <- Hp, reference_key. split; [by apply represents_remove|done].
  - split; [by eapply represents_clear|done].
Qed.

(** The cache is a first-in first-out map: after any history of scoping, inserting, removing
    and clearing, its lookups, its order and its publication are those of an ordered
    list that keeps the newest [capacity] entries, with a key inserted again becoming
    the newest; it never holds more than its capacity. *)
Theorem cache_refines_fifo n ops :
  let c := foldl cache_step (with_capacity n) ops in
  let s := foldl (reference_step (Z.max n 1)) (None, []) ops in
  publication_identity c = s.1 ∧ order c = s.2.*1 ∧
  (∀ key, get c key = (list_to_map s.2 : gmap RetrievalCacheKey (list CandidateHit)) !! key) ∧
  Z.of_nat (size (entries c)) ≤ Z.max n 1.
Proof.
  assert (Hgen : ∀ ops c s, represents c s.2 → publication_identity c = s.1 →
    let c' := foldl cache_step c ops in let s' := foldl (reference_step (capacity c)) s ops in
    represents c' s'.2 ∧ publication_identity c' = s'.1 ∧ capacity c' = capacity c).
  { clear. induction ops as [|op ops IH]; intros c s Hr Hp; [done|]. cbn [foldl].
    destruct (cache_step_refines c s op Hr Hp) as [Hr' Hp'].
    destruct (IH _ _ Hr' Hp') as (H1 & H2 & H3). rewrite cache_step_capacity in H1, H2, H3. done. }
  intros c s. destruct (Hgen ops (with_capacity n) (None, [])) as ((H1 & H2 & H3 & H4 & H5) & H6 & H7).
  - split_and!; try done; [constructor|cbn; lia|unfold len; cbn; lia].
  - done.
  - fold c in H1, H2, H4, H5, H6, H7. cbn [capacity with_capacity] in *. fold s in H1, H2, H3, H5, H6.
    split; [done|]. split; [done|]. split; [intros key; unfold get; by rewrite H2|].
    rewrite H2, size_list_to_map by done. unfold len in H5. lia.
Qed.

(** ** Staleness *)

(** The parts of a manifest and a query a key is made of. *)
Lemma key_for_manifest_inj c1 c2 m1 m2 f1 f2 :
  publication_identity c1 = publication_identity c2 →
  key_for_manifest c1 m1 f1 = key_for_manifest c2 m2 f2 → from_manifest m1 f1 = from_manifest m2 f2.
Proof.
  unfold key_for_manifest. intros ->. destruct (publication_identity c2) as [[g r]|]; [|done].
  cbn. intros H. unfold from_manifest. injection H. intros. congruence.
Qed.

Lemma evict_lookup order capacity : ∀ entries key hits,
  (evict order entries capacity).2 !! key = Some hits → entries !! key = Some hits.
Proof.
  induction order as [|k order IH]; intros entries key hits; cbn [evict];
    destruct (capacity <? _); cbn [snd]; try done.
  intros H%IH. by apply lookup_delete_Some in H as [_ H].
Qed.

(** The insertion a cached entry comes from: it was made under the cache's publication. *)
Definition inserted_by (ops : list CacheOp) (start c : RetrievalCache) (key : RetrievalCacheKey)
    (hits : list CandidateHit) : Prop :=
  ∃ pre post m f, ops = pre ++ OInsert m f hits :: post ∧
    key = key_for_manifest (foldl cache_step start pre) m f ∧
    publication_identity (foldl cache_step start pre) = publication_identity c.

Lemma insert_hits_identity key hits c :
  publication_identity (insert_hits key hits c) = publication_identity c.
Proof. unfold insert_hits. by destruct (evict _ _ _). Qed.

Lemma inserted_by_snoc ops start op key hits :
  let c := foldl cache_step start ops in
  inserted_by ops start c key hits →
  publication_identity (cache_step c op) = publication_identity c →
  inserted_by (ops ++ [op]) start (cache_step c op) key hits.
Proof.
  intros c (pre & post & m & f & -> & Hk & Hp) Hid. exists pre, (post ++ [op]), m, f.
  split; [by rewrite <- app_assoc|]. split; [done|]. by rewrite Hid.
Qed.

Lemma cache_entries_inserted n ops key hits :
  let c := foldl cache_step (with_capacity n) ops in
  get c key = Some hits → inserted_by ops (with_capacity n) c key hits.
Proof.
  revert key hits. induction ops as [|op ops IH] using rev_ind; intros key hits c Hg; [done|].
  subst c. rewrite foldl_snoc in Hg |- *. set (c := foldl cache_step (with_capacity n) ops) in *.
  destruct op as [i|m f h|m f|]; cbn [cache_step] in *; [| | |done].
  - pose proof (inserted_by_snoc ops (with_capacity n) (OScope i) key hits) as Hsnoc.
    cbn [cache_step] in Hsnoc. fold c in Hsnoc.
    unfold scope_to_publication in *. destruct (negb _); [done|]. by apply Hsnoc; [apply IH|].
  - destruct (decide (key = key_for_manifest c m f)) as [->|Hne].
    + exists ops, [], m, f. rewrite insert_hits_identity. fold c. split; [|done].
      assert (Hh : <[key_for_manifest c m f := h]> (entries c) !! key_for_manifest c m f = Some hits).
      { unfold get, insert_hits in Hg. destruct (evict _ _ _) as [o e] eqn:He.
        cbn in Hg. eapply evict_lookup. rewrite He. exact Hg. }
      rewrite lookup_insert_eq in Hh. by injection Hh as ->.
    + assert (Hg' : get c key = Some hits).
      { unfold get, insert_hits in Hg. destruct (evict _ _ _) as [o e] eqn:He. cbn in Hg.
        assert (Hl : (evict ((if bool_decide (is_Some (entries c !! key_for_manifest c m f))
          then retain_not (key_for_manifest c m f) (order c) else order c)
          ++ [key_for_manifest c m f]) (<[key_for_manifest c m f := h]> (entries c))
          (capacity c)).2 !! key = Some hits) by (by rewrite He).
        apply evict_lookup in Hl. by rewrite lookup_insert_ne in Hl by congruence. }
      apply (inserted_by_snoc ops (with_capacity n) (OInsert m f h)); [by apply IH|].
      apply insert_hits_identity.
  - assert (Hg' : get c key = Some hits).
    { unfold get, remove in Hg. cbn in Hg. by apply lookup_delete_Some in Hg as [_ Hg]. }
    by apply (inserted_by_snoc ops (with_capacity n) (ORemove m f)); [apply IH|].
Qed.

(** No stale evidence: whatever hits a lookup returns for a manifest and a query, they were
    inserted while the cache was scoped to the same publication, for the same query and
    for a manifest with the same project, versions, generations, input hash and counts. *)
Theorem cache_never_stale n ops m fingerprint hits :
  let c := foldl cache_step (with_capacity n) ops in
  get c (key_for_manifest c m fingerprint) = Some hits →
  ∃ pre post m' fingerprint', ops = pre ++ OInsert m' fingerprint' hits :: post ∧
    publication_identity (foldl cache_step (with_capacity n) pre) = publication_identity c ∧
    from_manifest m' fingerprint' = from_manifest m fingerprint.
Proof.
  intros c Hg. apply cache_entries_inserted in Hg as (pre & post & m' & f' & Ho & Hk & Hp).
  exists pre, post, m', f'. split; [done|]. split; [done|].
  symmetry. by eapply key_for_manifest_inj; [symmetry; exact Hp|].
Qed.

Module CacheSample.
Definition manifest (hash : str) : RetrievalIndexManifest :=
  {| project_id := lit "p"; lexical_version := LEXICAL_INDEX_VERSION;
     semantic_generation := sidecar_vector_generation (lit "p") hash; scip_revision := None;
     built_at_epoch_ms := 0; disk_bytes := None; degraded_modes_json := lit "[]";
     embedding_backend := None; embedding_dim := None;
     sidecar_schema_version := Some SIDECAR_SCHEMA_VERSION; sidecar_input_hash := Some hash;
     sidecar_generation := Some (sidecar_generation_id (lit "p") hash);
     projection_count := Some 3; symbol_doc_count := Some 3; dense_projection_count := Some 3;
     semantic_policy_version := Some SEMANTIC_POLICY_VERSION;
     graph_artifact_hash := Some (lit "g"); dense_reason_counts_json := Some (lit "{}");
     precise_semantic_import_status := None; precise_semantic_import_reason := None;
     precise_semantic_import_revision := None; precise_semantic_import_producer := None |}.
Definition identity (g : str) : RetrievalPublicationIdentity :=
  {| core_generation_id := g; core_run_id := lit "run"; id_sidecar_generation := lit "p-ab";
     id_sidecar_input_hash := lit "ab"; id_semantic_generation := lit "codestory_p_ab" |}.
Definition hits : list CandidateHit := [lexical_stub (lit "src/lib.rs") (f32_of_Z 1)].
Definition history : list CacheOp :=
  [OScope (identity (lit "g1")); OInsert (manifest (lit "ab")) (lit "q1") [];
   OScope (identity (lit "g2")); OInsert (manifest (lit "ab")) (lit "q1") hits;
   OInsert (manifest (lit "ab")) (lit "q2") []; OInsert (manifest (lit "cd")) (lit "q1") []].
Definition final : RetrievalCache := foldl cache_step (with_capacity 3) history.
End CacheSample.

Example cache_never_stale_witness :
  ∃ pre post m' f', CacheSample.history = pre ++ OInsert m' f' CacheSample.hits :: post ∧
    publication_identity (foldl cache_step (with_capacity 3) pre) =
      publication_identity CacheSample.final ∧
    from_manifest m' f' = from_manifest (CacheSample.manifest (lit "ab")) (lit "q1").
Proof.
  apply (cache_never_stale 3 CacheSample.history (CacheSample.manifest (lit "ab")) (lit "q1")
    CacheSample.hits).
  vm_compute. reflexivity.
Defined.
