(* ===== verification/RetrievalExecutor.v ===== *)
(** * The query executor (codestory-retrieval/src/executor.rs)

    One query against the sidecars: the mode check, the cache, the staged plan with its
    budgets and stop rules, the merge of the candidates, and the decision to cache.

    Time, cancellation and the worker pool belong to the environment: the program is a
    function of a state monad whose state has the clock (nanoseconds), the request's
    cancellation flag and a script of events.  Every read of the clock or the flag and
    every wait consumes one event, which advances the clock, may raise the flag, and
    says whether the pool is full and whether the stage's job has finished; when the
    script ends nothing happens any more, the pool has room and jobs are finished.  The
    sidecars and the ranker are interfaces. *)
From S2P Require Import Prelude RustStr RetrievalPlan RetrievalData RetrievalCache.

(** ** The environment *)
Inductive JobOutcome : Set := JobRan | JobContextCancelled | JobPanicked.
Record JobDone : Set := mkJobDone {
  outcome : JobOutcome;
  finished_at : Z;
  job_queue_wait_ms : Z;
  job_execution_ms : Z;
}.
Record Event : Set := mkEvent {
  advance : nat;
  raises_cancel : bool;
  pool_full : bool;
  started_after_ms : option Z;
  finished : option JobDone;
}.
Record Env : Type := mkEnv {
  clock : Z;
  cancelled : bool;
  script : list Event;
}.
Definition quiet_event (e : Env) : Event :=
  {| advance := 0; raises_cancel := false; pool_full := false; started_after_ms := Some 0;
     finished := Some {| outcome := JobRan; finished_at := clock e;
                         job_queue_wait_ms := 0; job_execution_ms := 0 |} |}.

Definition X (A : Type) : Type := Env → A * Env.
#[export] Instance X_ret : MRet X := fun A a e => (a, e).
#[export] Instance X_bind : MBind X := fun A B f m e => let '(a, e) := m e in f a e.

(** The next event happens. *)
Definition tick : X Event := λ e,
  let event := match script e with [] => quiet_event e | event :: _ => event end in
  (event, {| clock := clock e + Z.of_nat (advance event);
             cancelled := cancelled e || raises_cancel event; script := tail (script e) |}).
Definition reads {A} (f : Env → A) : X A := λ e, (f e, e).
(** [Instant::now()] and [cancelled.load()]. *)
Definition instant_now : X Z := tick;; reads clock.
Definition load_cancelled : X bool := tick;; reads cancelled.
Definition script_length : X nat := reads (λ e, length (script e)).

Definition ms (n : Z) : Z := n * 1000000.
(** [saturating_duration_since(..).as_millis() as u64]. *)
Definition millis_since (later earlier : Z) : Z := saturating_sub later earlier / 1000000.

(** ** Interfaces *)
Class SidecarSearch : Type := {
  has_layout : bool;
  probe_sidecar_health : RetrievalIndexManifest → ComponentHealth * ComponentHealth * ComponentHealth;
  lexical_search : str → Z → result str (list CandidateHit);
  semantic_search : str → Z → result str (list CandidateHit);
  scip_anchor : str → Z → result str (list CandidateHit);
  scip_expand : list CandidateHit → Z → result str (list CandidateHit);
}.
Class Ranker : Type := {
  rank_candidates : QueryFeatures → list CandidateHit → list CandidateHit;
}.
(** SHA-256 as hexadecimal digits. *)
Class Digest : Type := { sha256_hex : str → str }.
Definition query_fingerprint `{Digest} (query : str) : str := take 16 (sha256_hex query).

(** ** Traces and results *)
Inductive StageCompletionStatus : Set :=
| Completed | PendingAfterDeadline | CancelledBeforeStart | CompletedLate | Skipped.
#[export] Instance StageCompletionStatus_eq_dec : EqDecision StageCompletionStatus.
Proof. solve_decision. Defined.

Record StageTrace : Type := mkStageTrace {
  st_stage : RetrievalStageKind;
  st_budget_ms : Z;
  st_elapsed_ms : Z;
  st_admission_wait_ms : Z;
  st_queue_wait_ms : option Z;
  st_execution_ms : option Z;
  st_candidates_added : Z;
  st_marginal_gain : f32;
  st_cancel_reason : option str;
  st_cache_hit : bool;
  st_degraded : bool;
  st_stub_reason : option str;
  st_completion_status : StageCompletionStatus;
}.
Record QueryTrace : Type := mkQueryTrace {
  retrieval_mode : str;
  qt_degraded_reason : option str;
  qt_total_budget_ms : Z;
  elapsed_ms : Z;
  cancel_reason : option str;
  cache_hit : bool;
  qt_stages : list StageTrace;
}.
Record QueryResult : Type := mkQueryResult {
  qr_publication_identity : option RetrievalPublicationIdentity;
  query : str;
  features : QueryFeatures;
  hits : list CandidateHit;
  trace : QueryTrace;
}.
Inductive StageRun : Type :=
| StageCompleted (hits : list CandidateHit) (admission_wait_ms : Z)
    (queue_wait_ms execution_ms : option Z)
| StageCancelled (reason : str) (admission_wait_ms : Z) (queue_wait_ms execution_ms : option Z)
    (completion_status : StageCompletionStatus).

Definition stage_trace (stage : PlannedStage) (elapsed_ms candidates_added : Z)
    (marginal_gain : f32) (cancel_reason : option str) (degraded : bool)
    (stub_reason : option str) (admission_wait_ms : Z) (queue_wait_ms execution_ms : option Z)
    (completion_status : StageCompletionStatus) : StageTrace :=
  {| st_stage := kind stage; st_budget_ms := budget_ms stage; st_elapsed_ms := elapsed_ms;
     st_admission_wait_ms := admission_wait_ms; st_queue_wait_ms := queue_wait_ms;
     st_execution_ms := execution_ms; st_candidates_added := candidates_added;
     st_marginal_gain := marginal_gain; st_cancel_reason := cancel_reason; st_cache_hit := false;
     st_degraded := degraded; st_stub_reason := stub_reason;
     st_completion_status := completion_status |}.
Definition f32_zero : f32 := f32_of_Z 0.
Definition skipped_trace (stage : PlannedStage) (reason : str) : StageTrace :=
  stage_trace stage 0 0 f32_zero (Some reason) false None 0 None None Skipped.

(** ** Candidates *)
Definition f32_is_nan (a : f32) : bool := match a with S754_nan => true | _ => false end.
(** [f32::max]. *)
Definition f32_max (a b : f32) : f32 :=
  if f32_is_nan a then b else if f32_is_nan b then a else if f32_lt a b then b else a.
Definition f32_add : f32 → f32 → f32 := SFadd f32_prec f32_emax.
Definition f32_sub : f32 → f32 → f32 := SFsub f32_prec f32_emax.
Definition f32_div : f32 → f32 → f32 := SFdiv f32_prec f32_emax.

Definition candidate_mass (candidates : list CandidateHit) : f32 :=
  foldl (λ sum hit, f32_add sum (f32_max (score hit) (f32_ratio 1 100))) f32_zero candidates.

Definition option_or {A} (a b : option A) : option A := match a with Some _ => a | None => b end.
Definition absorb (existing hit : CandidateHit) : CandidateHit :=
  {| node_id := option_or (node_id existing) (node_id hit); file_path := file_path existing;
     symbol_name := symbol_name existing;
     start_line := option_or (start_line existing) (start_line hit);
     score := f32_max (score existing) (score hit); source := source existing;
     provenance := foldl push_label (provenance existing) (provenance hit);
     file_role := option_or (file_role existing) (file_role hit);
     scip_hop_distance := option_or (scip_hop_distance existing) (scip_hop_distance hit);
     rank_features := rank_features existing |}.
Definition same_key (a b : CandidateHit) : bool :=
  str_eqb (file_path a) (file_path b) && bool_decide (symbol_name a = symbol_name b).

(** The list with the first duplicate updated, [None] when there is no duplicate. *)
Fixpoint absorb_first (acc : list CandidateHit) (hit : CandidateHit)
  : option (list CandidateHit) :=
  match acc with
  | [] => None
  | existing :: acc =>
      if same_key existing hit then Some (absorb existing hit :: acc)
      else (λ acc', existing :: acc') <$> absorb_first acc hit
  end.
Fixpoint merge_candidates (acc incoming : list CandidateHit) (added : Z)
  : list CandidateHit * Z :=
  match incoming with
  | [] => (acc, added)
  | hit :: incoming =>
      match absorb_first acc hit with
      | Some acc' => merge_candidates acc' incoming added
      | None => merge_candidates (acc ++ [hit]) incoming (added + 1)
      end
  end.

Definition annotate_stage_provenance (stage : PlannedStage) (stage_hits : list CandidateHit)
  : list CandidateHit :=
  match provenance_label (kind stage) with
  | Some label => add_provenance label <$> stage_hits
  | None => stage_hits
  end.
Definition stage_stub_metadata (stage_hits : list CandidateHit) : option str * bool :=
  if bool_decide (len stage_hits = 0) then (None, false)
  else if phantom_sidecar_candidates_only stage_hits
  then (Some (lit "phantom_stub_hits"), true)
  else (None, false).

(** ** Budgets *)
Definition is_broad_query (s : QueryShape) : bool :=
  match s with NaturalLanguage | Mixed => true | _ => false end.
Definition with_budget (b : Z) (s : PlannedStage) : PlannedStage :=
  {| kind := kind s; budget_ms := b; top_k := top_k s |}.

(** The loop over the stages; [stages_left] is the length of the tail. *)
Fixpoint scale_loop (stages : list PlannedStage) (total_budget_ms planned_total remaining : Z)
  : list PlannedStage :=
  match stages with
  | [] => []
  | [stage] => [with_budget (Z.max remaining 1) stage]
  | stage :: rest =>
      let scaled := saturating_mul u64_max (budget_ms stage) total_budget_ms / planned_total in
      let budget := Z.min (Z.max scaled 1) (saturating_sub remaining (len rest)) in
      with_budget budget stage
        :: scale_loop rest total_budget_ms planned_total (saturating_sub remaining budget)
  end.
Definition scale_stage_budgets (stages : list PlannedStage) (total_budget_ms : Z)
  : list PlannedStage :=
  let planned_total := budget_sum stages in
  if bool_decide (stages = []) || (planned_total =? 0) then stages
  else scale_loop stages total_budget_ms planned_total (Z.max total_budget_ms (len stages)).

Definition MAX_RETRIEVAL_BUDGET_MS : Z := 120000.
Definition STAGE_WAIT_POLL : Z := ms 5.

(** ** Skipping *)
Fixpoint split_chars (sep : str → bool) (cs : list str) (word : str) : list str :=
  match cs with
  | [] => [word]
  | ch :: cs => if sep ch then word :: split_chars sep cs [] else split_chars sep cs (word ++ ch)
  end.
Definition after_last (s pat : str) : str :=
  match rfind s pat with Some i => drop (i + length pat) s | None => s end.

Section Executor.
Context `{UnicodeTables, SidecarSearch, Ranker, Digest}.

Definition candidate_is_exact_symbol_anchor (query : str) (candidate : CandidateHit) : bool :=
  match source candidate with
  | CandidateSource.Semantic | CandidateSource.Legacy => false
  | _ =>
      match symbol_name candidate with
      | None => false
      | Some symbol =>
          let query_lower := to_ascii_lowercase (trim query) in
          if bool_decide (query_lower = []) then false
          else
            let symbol_lower := to_ascii_lowercase (trim symbol) in
            if str_eqb symbol_lower query_lower then true
            else
              let symbol_tail := after_last (after_last symbol_lower (lit "::")) (lit ".") in
              existsb (λ token, (2 <=? len token) && str_eqb (to_ascii_lowercase token) symbol_tail)
                (split_chars (λ ch, negb (is_alphanumeric ch) && negb (str_eqb ch (lit "_")))
                   (chars query) [])
      end
  end.

Definition should_skip_after_exact_symbol_anchor (stage : PlannedStage) (features : QueryFeatures)
    (candidates : list CandidateHit) : bool :=
  match shape features with
  | SymbolLike =>
      match kind stage with
      | Stage1bSemantic | Stage2ScipExpand =>
          existsb (candidate_is_exact_symbol_anchor (raw_query features)) candidates
      | _ => false
      end
  | _ => false
  end.
Definition should_skip_zero_dense_stage (stage : PlannedStage)
    (manifest : option RetrievalIndexManifest) : bool :=
  match kind stage with
  | Stage1bSemantic =>
      default 0 (manifest ≫= λ m, option_or (dense_projection_count m) (projection_count m)) <=? 0
  | _ => false
  end.

(** ** One stage *)
Definition run_stage (stage : PlannedStage) (features : QueryFeatures)
    (anchors : list CandidateHit) : result str (list CandidateHit) :=
  match kind stage with
  | Stage0ScipAnchor => scip_anchor (raw_query features) (top_k stage)
  | Stage1Lexical => lexical_search (raw_query features) (top_k stage)
  | Stage1bSemantic => semantic_search (raw_query features) (top_k stage)
  | Stage2ScipExpand => scip_expand anchors (top_k stage)
  | Stage3RepoTextFallback =>
      Err (lit "repo-text diagnostic stage is unsupported in mandatory sidecar retrieval")
  end.
(** What the worker sends back: the stage's result unless its context was cancelled or
    it panicked. *)
Definition job_result (o : JobOutcome) (stage : PlannedStage) (features : QueryFeatures)
    (anchors : list CandidateHit) : result str (list CandidateHit) :=
  match o with
  | JobRan => run_stage stage features anchors
  | JobContextCancelled => Err (lit "retrieval stage cancelled or deadline exceeded")
  | JobPanicked => Err (lit "retrieval stage worker panicked")
  end.

Definition cancellation_reason : X str :=
  c ← load_cancelled;
  mret (if (c : bool) then lit "cancelled" else lit "stage_deadline").

(** [acquire]: [None] when cancelled or past the deadline while the pool is full. *)
Fixpoint acquire_loop (fuel : nat) (started deadline : Z) : X (option Z) :=
  match fuel with
  | O => mret None
  | S fuel =>
      c ← load_cancelled;
      if (c : bool) then mret None
      else
        time ← instant_now;
        if deadline <=? time then mret None
        else
          event ← tick;
          if pool_full event then acquire_loop fuel started deadline
          else
            time ← instant_now;
            mret (Some (millis_since time started))
  end.
(** Each round consumes an event while the script lasts, and then the pool has room. *)
Definition acquire (deadline : Z) : X (option Z) :=
  started ← instant_now;
  n ← script_length;
  acquire_loop (S n) started deadline.

(** The job's completion as the waiting thread takes it. *)
Definition take_completion (done_ : JobDone) (admission_wait_ms stage_deadline : Z)
    (stage : PlannedStage) (features : QueryFeatures) (anchors : list CandidateHit)
  : X (result str StageRun) :=
  late ← (if stage_deadline <=? finished_at done_ then mret true else load_cancelled);
  if (late : bool) then
    reason ← cancellation_reason;
    mret (Ok (StageCancelled reason admission_wait_ms (Some (job_queue_wait_ms done_))
                (Some (job_execution_ms done_)) CompletedLate))
  else
    mret ((λ hs, StageCompleted hs admission_wait_ms (Some (job_queue_wait_ms done_))
                   (Some (job_execution_ms done_)))
          <$> job_result (outcome done_) stage features anchors).

Definition cancelled_stage_run (reason : str) (admission_wait_ms : Z) : X StageRun :=
  event ← tick;
  mret (StageCancelled reason admission_wait_ms (started_after_ms event) None
          (match started_after_ms event with
           | Some _ => PendingAfterDeadline
           | None => CancelledBeforeStart
           end)).

(** The polling loop of [run_stage_bounded]. *)
Fixpoint wait_loop (fuel : nat) (admission_wait_ms stage_deadline : Z) (stage : PlannedStage)
    (features : QueryFeatures) (anchors : list CandidateHit) : X (result str StageRun) :=
  match fuel with
  | O => mret (Err (lit "sidecar stage worker disconnected"))
  | S fuel =>
      c ← load_cancelled;
      over ← (if (c : bool) then mret true
              else time ← instant_now; mret (stage_deadline <=? time));
      if (over : bool) then
        reason ← cancellation_reason;
        run ← cancelled_stage_run reason admission_wait_ms;
        mret (Ok run)
      else
        event ← tick;
        match finished event with
        | Some done_ => take_completion done_ admission_wait_ms stage_deadline stage features anchors
        | None => wait_loop fuel admission_wait_ms stage_deadline stage features anchors
        end
  end.

Definition run_stage_bounded (stage : PlannedStage) (features : QueryFeatures)
    (anchors : list CandidateHit) (request_deadline : Z) : X (result str StageRun) :=
  time ← instant_now;
  let stage_deadline := Z.min request_deadline (time + ms (Z.max (budget_ms stage) 1)) in
  admission_started ← instant_now;
  permit ← acquire stage_deadline;
  match permit with
  | None =>
      reason ← cancellation_reason;
      time ← instant_now;
      mret (Ok (StageCancelled reason (millis_since time admission_started) None None
                  CancelledBeforeStart))
  | Some admission_wait_ms =>
      n ← script_length;
      wait_loop (S n) admission_wait_ms stage_deadline stage features anchors
  end.

(** ** The sequence of stages *)
Record SeqState : Type := mkSeqState {
  candidates : list CandidateHit;
  stage_traces : list StageTrace;
  low_gain_streak : Z;
  seq_cancel : option str;
}.
Definition push_trace (t : StageTrace) (s : SeqState) : SeqState :=
  {| candidates := candidates s; stage_traces := stage_traces s ++ [t];
     low_gain_streak := low_gain_streak s; seq_cancel := seq_cancel s |}.
Definition note_cancel (reason : str) (s : SeqState) : SeqState :=
  {| candidates := candidates s; stage_traces := stage_traces s;
     low_gain_streak := low_gain_streak s;
     seq_cancel := option_or (seq_cancel s) (Some reason) |}.

Definition effective_budget (stage : PlannedStage) (later : list PlannedStage)
    (remaining_budget_ms : Z) : Z :=
  Z.min (Z.max (budget_ms stage) (saturating_sub remaining_budget_ms (budget_sum later)))
    remaining_budget_ms.

Definition marginal_gain_of (before after : f32) : f32 :=
  if f32_le before f32_zero then after
  else f32_max (f32_div (f32_sub after before) before) f32_zero.

(** The stop rule after a completed stage: the new streak and whether to stop. *)
Definition low_gain_rule (plan : RetrievalPlan) (gain : f32) (s : SeqState) : SeqState * bool :=
  if f32_lt gain (stop_marginal_gain_threshold plan) && negb (bool_decide (len (candidates s) = 0))
  then
    let streak := low_gain_streak s + 1 in
    ({| candidates := candidates s; stage_traces := stage_traces s; low_gain_streak := streak;
        seq_cancel := seq_cancel s |}, stop_after_low_gain_streak plan <=? streak)
  else
    ({| candidates := candidates s; stage_traces := stage_traces s; low_gain_streak := 0;
        seq_cancel := seq_cancel s |}, false).

(** A stage that runs: the new state and whether the sequence stops after it. *)
Definition execute_stage (plan : RetrievalPlan) (features : QueryFeatures)
    (stage : PlannedStage) (later : list PlannedStage) (deadline : Z) (s : SeqState)
  : X (result str (SeqState * bool)) :=
  time ← instant_now;
  let remaining_budget_ms := Z.max (millis_since deadline time) 1 in
  let stage := with_budget (effective_budget stage later remaining_budget_ms) stage in
  stage_started ← instant_now;
  let before_score := candidate_mass (candidates s) in
  run ← run_stage_bounded stage features (candidates s) deadline;
  match run with
  | Err e => mret (Err e)
  | Ok (StageCancelled reason admission_wait_ms queue_wait_ms execution_ms completion_status) =>
      time ← instant_now;
      mret (Ok (note_cancel reason (push_trace
        (stage_trace stage (millis_since time stage_started) 0 f32_zero (Some reason) false None
           admission_wait_ms queue_wait_ms execution_ms completion_status) s), false))
  | Ok (StageCompleted stage_hits admission_wait_ms queue_wait_ms execution_ms) =>
      let stage_hits := annotate_stage_provenance stage stage_hits in
      let '(stub_reason, stage_degraded) := stage_stub_metadata stage_hits in
      let '(merged, added) := merge_candidates (candidates s) stage_hits 0 in
      let gain := marginal_gain_of before_score (candidate_mass merged) in
      time ← instant_now;
      let s := push_trace
        (stage_trace stage (millis_since time stage_started) added gain None stage_degraded
           stub_reason admission_wait_ms queue_wait_ms execution_ms Completed)
        {| candidates := merged; stage_traces := stage_traces s;
           low_gain_streak := low_gain_streak s; seq_cancel := seq_cancel s |} in
      mret (Ok (low_gain_rule plan gain s))
  end.

Definition reason_or (s : SeqState) (reason : str) : option str :=
  option_or (seq_cancel s) (Some reason).

Fixpoint run_stage_sequence (plan : RetrievalPlan) (features : QueryFeatures)
    (manifest : option RetrievalIndexManifest) (stages : list PlannedStage) (deadline : Z)
    (s : SeqState) : X (result str (SeqState * option str)) :=
  match stages with
  | [] => mret (Ok (s, seq_cancel s))
  | stage :: later =>
      c ← load_cancelled;
      if (c : bool) then mret (Ok (s, Some (lit "cancelled")))
      else
        time ← instant_now;
        if deadline <=? time then mret (Ok (s, reason_or s (lit "deadline")))
        else if should_skip_after_exact_symbol_anchor stage features (candidates s)
        then run_stage_sequence plan features manifest later deadline
               (push_trace (skipped_trace stage (lit "exact_symbol_anchor")) s)
        else if should_skip_zero_dense_stage stage manifest
        then run_stage_sequence plan features manifest later deadline
               (push_trace (skipped_trace stage (lit "zero_dense_anchors")) s)
        else
          ran ← execute_stage plan features stage later deadline s;
          match ran with
          | Err e => mret (Err e)
          | Ok (s, true) => mret (Ok (s, reason_or s (lit "marginal_gain")))
          | Ok (s, false) => run_stage_sequence plan features manifest later deadline s
          end
  end.

(** ** The query *)
Definition lookup_file_role (file_roles : gmap str FileRole) (path : str) : option FileRole :=
  option_or (file_roles !! path) (file_roles !! replace path (lit "\") (lit "/")).
Definition enrich_candidates_with_file_roles (file_roles : gmap str FileRole)
    (l : list CandidateHit) : list CandidateHit :=
  (λ c, match file_role c with
        | Some _ => c
        | None => with_file_role
            (Some (default (classify_path (file_path c)) (lookup_file_role file_roles (file_path c)))) c
        end) <$> l.

Definition resolve_mode (mode_override : option RetrievalDegradedMode)
    (manifest : option RetrievalIndexManifest) : RetrievalDegradedMode * option str :=
  match mode_override with
  | Some mode => (mode, None)
  | None =>
      match manifest with
      | None => (RetrievalDegradedMode.LexicalOnly, Some (lit "manifest_missing"))
      | Some m =>
          if has_layout then
            let '(lexical, semantic, scip) := probe_sidecar_health m in
            derive_degraded_mode lexical semantic scip
          else (RetrievalDegradedMode.Unavailable, Some (lit "sidecar_layout_missing"))
      end
  end.

Record QueryExecutor : Type := mkQueryExecutor {
  cache : RetrievalCache;
  manifest : option RetrievalIndexManifest;
  file_roles : gmap str FileRole;
  mode_override : option RetrievalDegradedMode;
}.

Definition not_full_message (mode : RetrievalDegradedMode) (reason : option str) : str :=
  lit "retrieval sidecar is mandatory; project is not in full mode (mode=" ++ mode_as_str mode
  ++ lit ", reason=" ++ default (lit "unknown") reason ++ lit ")".

(** The plan with the request's budget applied. *)
Definition budgeted_plan (features : QueryFeatures) (mode : RetrievalDegradedMode)
    (budget : option Z) : RetrievalPlan :=
  let plan := plan_query features mode in
  let stages' := match budget with
                 | Some b => if is_broad_query (shape features) && (b <? budget_sum (stages plan))
                             then scale_stage_budgets (stages plan) b else stages plan
                 | None => stages plan
                 end in
  let total := match budget with
               | Some b => Z.min b MAX_RETRIEVAL_BUDGET_MS
               | None => total_budget_ms plan
               end in
  {| stages := stages'; total_budget_ms := Z.min total MAX_RETRIEVAL_BUDGET_MS;
     stop_marginal_gain_threshold := stop_marginal_gain_threshold plan;
     stop_after_low_gain_streak := stop_after_low_gain_streak plan |}.

(** [cond && next]: the second read happens only when the first is true. *)
Definition and_then (a : X bool) (b : X bool) : X bool :=
  x ← a; if (x : bool) then b else mret false.
Definition not_cancelled : X bool := c ← load_cancelled; mret (negb c).
Definition before_deadline (deadline : Z) : X bool := time ← instant_now; mret (time <? deadline).

(** The cache hit of a query, unless the request is cancelled. *)
Definition try_cache (ex : QueryExecutor) (features : QueryFeatures)
    (mode : RetrievalDegradedMode) (request_started : Z) : X (option QueryResult) :=
  live ← not_cancelled;
  match (if (live : bool) then manifest ex else None) with
  | None => mret None
  | Some m =>
      match get (cache ex) (key_for_manifest (cache ex) m (query_fingerprint (raw_query features))) with
      | None => mret None
      | Some cached =>
          c ← load_cancelled;
          time ← instant_now;
          let elapsed := millis_since time request_started in
          mret (Some
            (if (c : bool)
             then {| qr_publication_identity := None; query := raw_query features; features := features; hits := [];
                     trace := {| retrieval_mode := mode_as_str mode; qt_degraded_reason := None;
                                 qt_total_budget_ms := 0; elapsed_ms := elapsed;
                                 cancel_reason := Some (lit "cancelled"); cache_hit := false;
                                 qt_stages := [] |} |}
             else {| qr_publication_identity := None; query := raw_query features; features := features; hits := cached;
                     trace := {| retrieval_mode := mode_as_str mode; qt_degraded_reason := None;
                                 qt_total_budget_ms := 0; elapsed_ms := elapsed;
                                 cancel_reason := None; cache_hit := true; qt_stages := [] |} |}))
      end
  end.

(** The final cancellation check, then the cache write with its own checks. *)
Definition final_reason (deadline : Z) (reason : option str) : X (option str) :=
  c ← load_cancelled;
  if (c : bool) then mret (Some (lit "cancelled"))
  else
    time ← instant_now;
    mret (if (deadline <=? time) && bool_decide (reason = None)
          then Some (lit "deadline") else reason).

Definition cache_result (ex : QueryExecutor) (features : QueryFeatures) (deadline : Z)
    (hits : list CandidateHit) (reason : option str) : X (option str * RetrievalCache) :=
  writable ← (if bool_decide (reason = None)
              then and_then not_cancelled (before_deadline deadline) else mret false);
  match (if (writable : bool) then manifest ex else None) with
  | None => mret (reason, cache ex)
  | Some m =>
      let key := key_for_manifest (cache ex) m (query_fingerprint (raw_query features)) in
      c ← load_cancelled;
      if (c : bool) then mret (reason, cache ex)
      else
        let written := insert_hits key hits (cache ex) in
        still ← and_then not_cancelled (before_deadline deadline);
        if (still : bool) then mret (reason, written)
        else
          why ← cancellation_reason;
          mret (Some why, remove key written)
  end.

Definition execute (ex : QueryExecutor) (query_text : str) (budget : option Z)
  : X (result str QueryResult * RetrievalCache) :=
  request_started ← instant_now;
  let features := classify_query query_text in
  let '(mode, degraded) := resolve_mode (mode_override ex) (manifest ex) in
  if negb (bool_decide (mode = RetrievalDegradedMode.Full))
  then mret (Err (not_full_message mode degraded), cache ex)
  else
    cached ← try_cache ex features mode request_started;
    match cached with
    | Some r => mret (Ok r, cache ex)
    | None =>
        let plan := budgeted_plan features mode budget in
        started ← instant_now;
        let deadline := started + ms (total_budget_ms plan) in
        sequence ← run_stage_sequence plan features (manifest ex) (stages plan) deadline
          {| candidates := []; stage_traces := []; low_gain_streak := 0; seq_cancel := None |};
        match sequence with
        | Err e => mret (Err e, cache ex)
        | Ok (s, reason) =>
            let hits := rank_candidates features
              (enrich_candidates_with_file_roles (file_roles ex) (candidates s)) in
            reason ← final_reason deadline reason;
            cached ← cache_result ex features deadline hits reason;
            time ← instant_now;
            mret (Ok {| qr_publication_identity := None; query := raw_query features; features := features; hits := hits;
                        trace := {| retrieval_mode := mode_as_str mode;
                                    qt_degraded_reason := degraded;
                                    qt_total_budget_ms := total_budget_ms plan;
                                    elapsed_ms := millis_since time request_started;
                                    cancel_reason := cached.1; cache_hit := false;
                                    qt_stages := stage_traces s |} |}, cached.2)
        end
    end.

End Executor.
