(* ===== verification/RetrievalQuery.v ===== *)
(** * What a retrieval query promises

    Budgets add up, merging keeps every key once and every label, a query without a
    cancel reason completed its whole plan, only such results are cached, and waiting
    for a stage ends. *)
From S2P Require Import Prelude RustStr RetrievalPlan RetrievalData RetrievalCache.
From S2P Require Import RetrievalExecutor.

(** ** Budgets *)
Lemma budget_sum_cons s l : budget_sum (s :: l) = budget_ms s + budget_sum l.
Proof. reflexivity. Qed.

Lemma scale_loop_spec total planned stages : ∀ remaining,
  stages ≠ [] → 0 < planned → len stages ≤ remaining →
  let l := scale_loop stages total planned remaining in
  kind <$> l = kind <$> stages ∧ top_k <$> l = top_k <$> stages ∧
  Forall (λ s, 1 ≤ budget_ms s) l ∧ budget_sum l = remaining.
Proof.
  induction stages as [|stage rest IH]; intros remaining Hne Hp Hl; [done|].
  rewrite len_cons in Hl. destruct rest as [|next rest].
  { cbn [scale_loop]. rewrite budget_sum_cons. change (budget_sum []) with 0.
    change (len []) with 0 in Hl. cbn [budget_ms with_budget].
    split; [done|]. split; [done|]. split; [|lia].
    constructor; [cbn [budget_ms with_budget]; lia|constructor]. }
  change (scale_loop (stage :: next :: rest) total planned remaining) with
    (let scaled := saturating_mul u64_max (budget_ms stage) total / planned in
     let budget := Z.min (Z.max scaled 1) (saturating_sub remaining (len (next :: rest))) in
     with_budget budget stage
       :: scale_loop (next :: rest) total planned (saturating_sub remaining budget)).
  cbn zeta. set (budget := Z.min _ _). pose proof (len_nonneg rest). pose proof (len_nonneg (next :: rest)).
  assert (Hb : 1 ≤ budget ≤ remaining - len (next :: rest)).
  { unfold budget, saturating_sub. lia. }
  clearbody budget.
  assert (Hs : saturating_sub remaining budget = remaining - budget) by (unfold saturating_sub; lia).
  rewrite Hs. destruct (IH (remaining - budget)) as (H1 & H2 & H3 & H4); [done|done|lia|].
  cbn zeta in *. rewrite !fmap_cons, budget_sum_cons, H1, H2, H4. cbn.
  split; [done|]. split; [done|]. split; [constructor; [cbn; lia|done]|lia].
Qed.

(** Scaling the stage budgets of a broad query to the request's budget: the stages and their
    order stay, every stage gets at least a millisecond, and together they get exactly
    the budget, or one millisecond each when the budget is smaller than that. *)
Theorem scaled_budgets_exact stages total :
  stages ≠ [] → 0 < budget_sum stages →
  let l := scale_stage_budgets stages total in
  kind <$> l = kind <$> stages ∧ top_k <$> l = top_k <$> stages ∧
  Forall (λ s, 1 ≤ budget_ms s) l ∧ budget_sum l = Z.max total (len stages).
Proof.
  intros Hne Hp. unfold scale_stage_budgets.
  rewrite bool_decide_eq_false_2 by done. cbn [orb].
  destruct (budget_sum stages =? 0) eqn:Hz; [apply Z.eqb_eq in Hz; lia|].
  apply scale_loop_spec; [done|done|lia].
Qed.

Module BudgetSample.
Definition features : QueryFeatures :=
  {| raw_query := lit "how are rows merged"; shape := NaturalLanguage; token_count := 4;
     has_path_separators := false; has_camel_case_token := false;
     has_snake_case_token := false; looks_like_qualified_symbol := false |}.
Definition planned : list PlannedStage := stages (plan_query features RetrievalDegradedMode.Full).
End BudgetSample.

Example scaled_budgets_exact_witness :
  budget_ms <$> scale_stage_budgets BudgetSample.planned 100 = [59; 29; 12] ∧
  budget_sum (scale_stage_budgets BudgetSample.planned 100) = 100.
Proof.
  split; [vm_compute; reflexivity|].
  assert (H1 : BudgetSample.planned ≠ []) by (vm_compute; discriminate).
  assert (H2 : 0 < budget_sum BudgetSample.planned) by (vm_compute; reflexivity).
  exact (proj2 (proj2 (proj2 (scaled_budgets_exact BudgetSample.planned 100 H1 H2)))).
Defined.

(** ** Merging *)
Definition hit_key (c : CandidateHit) : str * option str := (file_path c, symbol_name c).

Lemma same_key_eq a b : same_key a b = true ↔ hit_key a = hit_key b.
Proof.
  unfold same_key, hit_key. rewrite andb_true_iff, str_eqb_eq, bool_decide_eq_true.
  split; [by intros [-> ->]|by intros [= -> ->]].
Qed.

Lemma push_label_sub labels label : labels ⊆ push_label labels label.
Proof. unfold push_label. destruct (existsb _ _); [done|]. set_solver. Qed.
Lemma push_label_in labels label : label ∈ push_label labels label.
Proof.
  unfold push_label. destruct (existsb (str_eqb label) labels) eqn:He; [|set_solver].
  apply existsb_exists in He as (x & Hx & ->%str_eqb_eq). by apply list_elem_of_In.
Qed.
Lemma push_labels_sub more : ∀ labels,
  labels ⊆ foldl push_label labels more ∧ more ⊆ foldl push_label labels more.
Proof.
  induction more as [|l more IH]; intros labels; cbn [foldl]; [split; [done|set_solver]|].
  destruct (IH (push_label labels l)) as [H1 H2]. pose proof (push_label_sub labels l).
  pose proof (push_label_in labels l). set_solver.
Qed.

(** [b] is [a] after absorbing duplicates. *)
Definition grown (a b : CandidateHit) : Prop :=
  hit_key b = hit_key a ∧ source b = source a ∧ provenance a ⊆ provenance b.
Lemma grown_refl a : grown a a.
Proof. by split_and!. Qed.
Lemma grown_trans a b c : grown a b → grown b c → grown a c.
Proof. intros (H1 & H2 & H3) (H4 & H5 & H6). split_and!; [congruence..|set_solver]. Qed.
Lemma grown_list_refl l : Forall2 grown l l.
Proof. induction l; constructor; [apply grown_refl|done]. Qed.
Lemma grown_list_trans l1 l2 l3 : Forall2 grown l1 l2 → Forall2 grown l2 l3 → Forall2 grown l1 l3.
Proof.
  intros H. revert l3. induction H as [|a b l1 l2 Hab _ IH]; intros l3 H3; inversion H3; subst;
    constructor; [by eapply grown_trans|auto].
Qed.

Lemma absorb_grown a hit : grown a (absorb a hit).
Proof. split_and!; [done|done|]. cbn. apply push_labels_sub. Qed.

Lemma absorb_first_spec acc hit :
  match absorb_first acc hit with
  | None => hit_key hit ∉ hit_key <$> acc
  | Some acc' => Forall2 grown acc acc' ∧
      ∃ c, c ∈ acc' ∧ hit_key c = hit_key hit ∧ provenance hit ⊆ provenance c
  end.
Proof.
  induction acc as [|x acc IH]; cbn [absorb_first]; [apply not_elem_of_nil|].
  destruct (same_key x hit) eqn:Hk.
  - apply same_key_eq in Hk. split; [constructor; [apply absorb_grown|apply grown_list_refl]|].
    exists (absorb x hit). split; [by left|]. split; [done|]. cbn. apply push_labels_sub.
  - assert (Hne : hit_key hit ≠ hit_key x).
    { intros He. rewrite (proj2 (same_key_eq x hit)) in Hk by done. done. }
    destruct (absorb_first acc hit) as [acc'|]; cbn [fmap option_fmap option_map].
    + destruct IH as (H1 & c & Hc & H2 & H3). split; [constructor; [apply grown_refl|done]|].
      exists c. split; [by right|done].
    + rewrite fmap_cons. by apply not_elem_of_cons.
Qed.

Lemma grown_keys l1 l2 : Forall2 grown l1 l2 → hit_key <$> l2 = hit_key <$> l1.
Proof. induction 1 as [|a b l1 l2 (H & _) _ IH]; cbn; [done|]. by rewrite H, IH. Qed.
Lemma grown_elem l1 l2 c : Forall2 grown l1 l2 → c ∈ l1 → ∃ c', c' ∈ l2 ∧ grown c c'.
Proof.
  induction 1 as [|a b l1 l2 Hab _ IH]; [by intros ?%elem_of_nil|].
  intros [->|Hin]%elem_of_cons; [exists b; split; [by left|done]|].
  destruct (IH Hin) as (c' & ? & ?). exists c'. split; [by right|done].
Qed.
Lemma grown_elem_back l1 l2 c : Forall2 grown l1 l2 → c ∈ l2 → ∃ c', c' ∈ l1 ∧ grown c' c.
Proof.
  induction 1 as [|a b l1 l2 Hab _ IH]; [by intros ?%elem_of_nil|].
  intros [->|Hin]%elem_of_cons; [exists a; split; [by left|done]|].
  destruct (IH Hin) as (c' & ? & ?). exists c'. split; [by right|done].
Qed.

(** What merging does: the accumulated candidates grow in place, the new ones follow. *)
Record merged (acc incoming result : list CandidateHit) (count : Z) : Prop := {
  mg_split : ∃ kept fresh, result = kept ++ fresh ∧ Forall2 grown acc kept ∧ count = len fresh ∧
    Forall (λ c, ∃ hit, hit ∈ incoming ∧ grown hit c) fresh;
  mg_nodup : NoDup (hit_key <$> acc) → NoDup (hit_key <$> result);
  mg_incoming : Forall (λ hit, ∃ c, c ∈ result ∧ hit_key c = hit_key hit ∧
                                    provenance hit ⊆ provenance c) incoming;
}.

Lemma forall2_grown_split l1 l2 r :
  Forall2 grown (l1 ++ l2) r → ∃ r1 r2, r = r1 ++ r2 ∧ Forall2 grown l1 r1 ∧ Forall2 grown l2 r2.
Proof. intros (r1 & r2 & ? & ? & ->)%Forall2_app_inv_l. by exists r1, r2. Qed.

Lemma merge_candidates_merged incoming : ∀ acc added,
  merged acc incoming (merge_candidates acc incoming added).1
    ((merge_candidates acc incoming added).2 - added).
Proof.
  induction incoming as [|hit incoming IH]; intros acc added; cbn [merge_candidates].
  { cbn. split; [|done|constructor]. exists acc, []. rewrite app_nil_r. unfold len. cbn.
    split; [done|]. split; [apply grown_list_refl|]. split; [lia|constructor]. }
  pose proof (absorb_first_spec acc hit) as Ha. destruct (absorb_first acc hit) as [acc'|].
  - destruct Ha as (Hg & c & Hc & Hk & Hp). destruct (IH acc' added) as [(kept & fresh & He & H1 & H2 & H3) H4 H5].
    split.
    + exists kept, fresh. split; [done|]. split; [by eapply grown_list_trans|]. split; [done|].
      eapply Forall_impl; [exact H3|]. intros x (h & Hh & ?). exists h. split; [by right|done].
    + intros Hn. apply H4. by rewrite (grown_keys _ _ Hg).
    + constructor; [|exact H5]. destruct (grown_elem _ _ _ H1 Hc) as (c' & Hc' & Hk' & _ & Hp').
      exists c'. split; [rewrite He; apply elem_of_app; by left|]. split; [congruence|set_solver].
  - destruct (IH (acc ++ [hit]) (added + 1)) as [(kept & fresh & He & H1 & H2 & H3) H4 H5].
    apply forall2_grown_split in H1 as (k1 & k2 & -> & G1 & G2).
    apply Forall2_cons_inv_l in G2 as (h' & k3 & Gh & G3 & ->). inversion G3; subst k3. clear G3.
    split.
    + exists k1, (h' :: fresh). split; [by rewrite He, <- app_assoc|]. split; [done|].
      split; [rewrite len_cons; lia|]. constructor; [exists hit; split; [by left|done]|].
      eapply Forall_impl; [exact H3|]. intros x (h & Hh & ?). exists h. split; [by right|done].
    + intros Hn. apply H4. rewrite fmap_app. apply NoDup_app. split; [done|].
      split; [|apply NoDup_singleton]. intros k Hk1 ->%list_elem_of_singleton. done.
    + constructor; [|exact H5]. exists h'. destruct Gh as (Hk & _ & Hp).
      split; [rewrite He; apply elem_of_app; left; apply elem_of_app; right; by left|]. done.
Qed.

(** Merging the hits of a stage: keys (path and symbol) stay unique, the candidates already
    there keep their place, source and labels, each new one comes from the stage, every
    incoming hit is represented with all its labels, and the count is the number of new
    candidates. *)
Theorem merge_candidates_spec acc incoming :
  NoDup (hit_key <$> acc) →
  let '(result, added) := merge_candidates acc incoming 0 in
  NoDup (hit_key <$> result) ∧
  (∃ kept fresh, result = kept ++ fresh ∧ added = len fresh ∧
     Forall2 (λ a b, hit_key b = hit_key a ∧ source b = source a ∧ provenance a ⊆ provenance b)
       acc kept ∧
     Forall (λ c, ∃ hit, hit ∈ incoming ∧ hit_key c = hit_key hit) fresh) ∧
  Forall (λ hit, ∃ c, c ∈ result ∧ hit_key c = hit_key hit ∧ provenance hit ⊆ provenance c)
    incoming.
Proof.
  intros Hn. destruct (merge_candidates_merged incoming acc 0) as [(kept & fresh & He & H1 & H2 & H3) H4 H5].
  destruct (merge_candidates acc incoming 0) as [result added]. cbn [fst snd] in *.
  split; [by apply H4|]. split; [|done]. exists kept, fresh. split; [done|]. split; [lia|].
  split; [exact H1|]. eapply Forall_impl; [exact H3|]. intros c (hit & Hh & Hk & _). by exists hit.
Qed.

Module MergeSample.
Definition hit (path : str) (symbol : option str) (labels : list str) : CandidateHit :=
  with_provenance labels (with_source path symbol (f32_of_Z 1) CandidateSource.Lexical).
Definition acc : list CandidateHit :=
  [hit (lit "a.rs") None [lit "exact"]; hit (lit "b.rs") (Some (lit "f")) []].
Definition incoming : list CandidateHit :=
  [hit (lit "b.rs") (Some (lit "f")) [lit "dense_anchor"]; hit (lit "b.rs") None [];
   hit (lit "b.rs") None [lit "lexical_source"]].
End MergeSample.

Example merge_candidates_spec_witness :
  let '(result, added) := merge_candidates MergeSample.acc MergeSample.incoming 0 in
  added = 1 ∧ NoDup (hit_key <$> result).
Proof.
  assert (Hn : NoDup (hit_key <$> MergeSample.acc)).
  { apply NoDup_cons. split; [|apply NoDup_singleton].
    intros Hin%list_elem_of_singleton. discriminate Hin. }
  exact (conj eq_refl (proj1 (merge_candidates_spec MergeSample.acc MergeSample.incoming Hn))).
Defined.

(** ** The sequence of stages *)
Section Sequence.
Context {UT : UnicodeTables} {SS : SidecarSearch} {RK : Ranker} {DG : Digest}.

(** A candidate a stage in time contributed, by its label. *)
Definition from_stage (t : StageTrace) (c : CandidateHit) : Prop :=
  st_completion_status t = Completed ∧
  ∃ label, provenance_label (st_stage t) = Some label ∧ label ∈ provenance c.
Definition settled_stage (t : StageTrace) : Prop :=
  st_completion_status t = Completed ∨ st_completion_status t = Skipped.

(** What a run of stages does to the state. *)
Record stages_run (stages : list PlannedStage) (s s' : SeqState) (reason : option str)
    (new : list StageTrace) : Prop := {
  sr_traces : stage_traces s' = stage_traces s ++ new;
  sr_prefix : (st_stage <$> new) `prefix_of` (kind <$> stages);
  sr_complete : reason = None → seq_cancel s = None ∧ st_stage <$> new = kind <$> stages ∧
                Forall settled_stage new;
  sr_nodup : NoDup (hit_key <$> candidates s) → NoDup (hit_key <$> candidates s');
  sr_candidates : ∀ c, c ∈ candidates s' →
    (∃ c0, c0 ∈ candidates s ∧ grown c0 c) ∨ ∃ t, t ∈ new ∧ from_stage t c;
}.

Lemma stages_run_stop stages s reason : stages_run stages s s (Some reason) [].
Proof.
  split; [by rewrite app_nil_r|apply prefix_nil|done|done|].
  intros c Hc. left. exists c. split; [done|apply grown_refl].
Qed.

Lemma stages_run_cons stage later s s1 s' t reason new :
  stage_traces s1 = stage_traces s ++ [t] → st_stage t = kind stage →
  (seq_cancel s1 = None → seq_cancel s = None ∧ settled_stage t) →
  (NoDup (hit_key <$> candidates s) → NoDup (hit_key <$> candidates s1)) →
  (∀ c, c ∈ candidates s1 → (∃ c0, c0 ∈ candidates s ∧ grown c0 c) ∨ from_stage t c) →
  stages_run later s1 s' reason new → stages_run (stage :: later) s s' reason (t :: new).
Proof.
  intros Ht Hk Hc Hn Hcand [H1 H2 H3 H4 H5]. split.
  - by rewrite H1, Ht, <- app_assoc.
  - rewrite !fmap_cons, Hk. by apply prefix_cons.
  - intros Hr. destruct (H3 Hr) as (I1 & I2 & I3). destruct (Hc I1) as [J1 J2].
    split; [done|]. rewrite !fmap_cons, Hk, I2. split; [done|by constructor].
  - intros Hs. by apply H4, Hn.
  - intros c Hin. destruct (H5 c Hin) as [(c1 & Hc1 & Hg)|(t' & Ht' & Hf)].
    + destruct (Hcand c1 Hc1) as [(c0 & Hc0 & Hg0)|(Hd & label & Hl & Hp)].
      * left. exists c0. split; [done|by eapply grown_trans].
      * right. exists t. split; [by left|]. split; [done|]. exists label. split; [done|].
        destruct Hg as (_ & _ & Hg). by apply Hg.
    + right. exists t'. split; [by right|done].
Qed.

Lemma annotate_label stage label stage_hits :
  provenance_label (kind stage) = Some label →
  Forall (λ h, label ∈ provenance h) (annotate_stage_provenance stage stage_hits).
Proof.
  intros Hl. unfold annotate_stage_provenance. rewrite Hl. apply Forall_fmap, Forall_forall.
  intros h _. cbn. apply push_label_in.
Qed.

(** The state after a stage that ran. *)
Record stage_ran (stage : PlannedStage) (s s' : SeqState) (t : StageTrace) : Prop := {
  ran_trace : stage_traces s' = stage_traces s ++ [t];
  ran_kind : st_stage t = kind stage;
  ran_cancel : seq_cancel s' = None → seq_cancel s = None ∧ settled_stage t;
  ran_nodup : NoDup (hit_key <$> candidates s) → NoDup (hit_key <$> candidates s');
  ran_candidates : ∀ c, c ∈ candidates s' →
    (∃ c0, c0 ∈ candidates s ∧ grown c0 c) ∨ from_stage t c;
}.

Lemma low_gain_rule_same plan gain s :
  candidates (low_gain_rule plan gain s).1 = candidates s ∧
  stage_traces (low_gain_rule plan gain s).1 = stage_traces s ∧
  seq_cancel (low_gain_rule plan gain s).1 = seq_cancel s.
Proof. unfold low_gain_rule. by destruct (_ && _). Qed.

Lemma execute_stage_ran plan features stage later deadline s e s' stop e' :
  is_Some (provenance_label (kind stage)) →
  execute_stage plan features stage later deadline s e = (Ok (s', stop), e') →
  ∃ t, stage_ran stage s s' t.
Proof.
  intros [label Hlabel]. unfold execute_stage, mbind, X_bind, mret, X_ret.
  destruct (instant_now e) as [t1 e1]. destruct (instant_now e1) as [t2 e2].
  set (stage' := with_budget _ stage). assert (Hk : kind stage' = kind stage) by done.
  clearbody stage'. destruct (run_stage_bounded stage' features (candidates s) deadline e2)
    as [[[stage_hits w q x|reason w q x st]|err] e3]; [| |done].
  - destruct (stage_stub_metadata _) as [stub degraded].
    set (incoming := annotate_stage_provenance stage' stage_hits).
    pose proof (merge_candidates_merged incoming (candidates s) 0) as [(kept & fresh & He & M1 & _ & M3) M4 _].
    destruct (merge_candidates (candidates s) incoming 0) as [result added]. cbn [fst snd] in *.
    destruct (instant_now e3) as [t4 e4].
    match goal with |- context[low_gain_rule plan ?g ?s0] =>
      pose proof (low_gain_rule_same plan g s0) as (L1 & L2 & L3);
      destruct (low_gain_rule plan g s0) as [s1 stop1] end.
    intros [= -> -> ->]. cbn in L1, L2, L3. eexists. split; [exact L2|done| | |].
    + rewrite L3. intros Hc. split; [done|by left].
    + rewrite L1. exact M4.
    + rewrite L1. intros c Hc. rewrite He in Hc. apply elem_of_app in Hc as [Hc|Hc].
      * left. by apply (grown_elem_back _ _ _ M1).
      * right. split; [done|]. exists label. cbn. rewrite Hk. split; [done|].
        rewrite Forall_forall in M3. destruct (M3 c Hc) as (h & Hh & _ & _ & Hp). apply Hp.
        assert (Hl : Forall (λ h, label ∈ provenance h) incoming)
          by (apply annotate_label; by rewrite Hk).
        rewrite Forall_forall in Hl. by apply Hl.
  - destruct (instant_now e3) as [t4 e4]. intros [= <- <- <-]. eexists.
    split; [done|done| |done|].
    + cbn. by destruct (seq_cancel s).
    + intros c Hc. left. exists c. split; [exact Hc|apply grown_refl].
Qed.

Lemma skipped_ran stage s reason :
  stage_ran stage s (push_trace (skipped_trace stage reason) s) (skipped_trace stage reason).
Proof.
  split; [done|done| |done|].
  - intros Hs. split; [done|by right].
  - intros c Hc. left. exists c. split; [exact Hc|apply grown_refl].
Qed.

Lemma run_stage_sequence_run plan features manifest stages deadline : ∀ s e s' reason e',
  Forall (λ stage, is_Some (provenance_label (kind stage))) stages →
  run_stage_sequence plan features manifest stages deadline s e = (Ok (s', reason), e') →
  ∃ new, stages_run stages s s' reason new.
Proof.
  induction stages as [|stage later IH]; intros s e s' reason e' Hl; cbn [run_stage_sequence].
  { intros [= <- <- <-]. exists []. split; [by rewrite app_nil_r|done|done|done|].
    intros c Hc. left. exists c. split; [done|apply grown_refl]. }
  apply Forall_cons in Hl as [Hl Hls]. unfold mbind, X_bind, mret, X_ret.
  destruct (load_cancelled e) as [[] e1].
  { intros [= <- <- <-]. exists []. apply stages_run_stop. }
  destruct (instant_now e1) as [t2 e2]. destruct (deadline <=? t2).
  { intros [= <- <- <-]. exists []. unfold reason_or, option_or.
    destruct (seq_cancel s); apply stages_run_stop. }
  assert (Hskip : ∀ why, run_stage_sequence plan features manifest later deadline
      (push_trace (skipped_trace stage why) s) e2 = (Ok (s', reason), e') →
    ∃ new, stages_run (stage :: later) s s' reason new).
  { intros why Hrun. destruct (IH _ _ _ _ _ Hls Hrun) as [new Hnew].
    destruct (skipped_ran stage s why) as [R1 R2 R3 R4 R5]. eexists.
    exact (stages_run_cons _ _ _ _ _ _ _ _ R1 R2 R3 R4 R5 Hnew). }
  destruct (should_skip_after_exact_symbol_anchor _ _ _); [apply Hskip|].
  destruct (should_skip_zero_dense_stage _ _); [apply Hskip|].
  destruct (execute_stage plan features stage later deadline s e2) as [[[s1 stop]|err] e3] eqn:Hex; [|done].
  destruct (execute_stage_ran _ _ _ _ _ _ _ _ _ _ Hl Hex) as [t [R1 R2 R3 R4 R5]]. destruct stop.
  - intros [= <- <- <-]. exists [t].
    assert (Hwhy : ∀ why, ∃ r, reason_or s1 why = Some r)
      by (intros why; unfold reason_or; destruct (seq_cancel s1); by eexists).
    match goal with |- context[reason_or s1 ?w] => destruct (Hwhy w) as [r ->] end.
    exact (stages_run_cons _ _ _ _ _ _ _ _ R1 R2 R3 R4 R5 (stages_run_stop _ _ _)).
  - intros Hrun. destruct (IH _ _ _ _ _ Hls Hrun) as [new Hnew]. eexists.
    exact (stages_run_cons _ _ _ _ _ _ _ _ R1 R2 R3 R4 R5 Hnew).
Qed.

Lemma plan_labels features mode budget :
  Forall (λ stage, is_Some (provenance_label (kind stage))) (stages (budgeted_plan features mode budget)).
Proof.
  assert (Hplan : Forall (λ k, is_Some (provenance_label k)) (kind <$> stages (plan_query features mode))).
  { unfold plan_query. destruct mode, (shape features); vm_compute;
      repeat (apply List.Forall_cons; [by eexists|]); apply List.Forall_nil. }
  assert (Hk : ∀ l l', kind <$> l' = kind <$> l →
    Forall (λ k, is_Some (provenance_label k)) (kind <$> l) →
    Forall (λ stage, is_Some (provenance_label (kind stage))) l').
  { intros l l' Hkk Hf. rewrite <- Hkk in Hf. rewrite Forall_fmap in Hf. exact Hf. }
  unfold budgeted_plan. cbn [stages]. destruct budget as [b|]; [|by eapply Hk].
  destruct (_ && _); [|by eapply Hk]. eapply Hk; [|exact Hplan].
  unfold scale_stage_budgets. destruct (_ || _) eqn:Hz; [done|].
  apply orb_false_iff in Hz as [Hz1%bool_decide_eq_false Hz2%Z.eqb_neq].
  assert (0 < budget_sum (stages (plan_query features mode))).
  { clear -Hz1 Hz2. revert Hz1 Hz2. unfold plan_query.
    destruct mode, (shape features); vm_compute; done. }
  apply scale_loop_spec; [done|done|lia].
Qed.

(** ** Caching *)
Definition query_key (ex : QueryExecutor) (features : QueryFeatures) (m : RetrievalIndexManifest)
  : RetrievalCacheKey := key_for_manifest (cache ex) m (query_fingerprint (raw_query features)).

Lemma get_removed key c : get (remove key c) key = None.
Proof. unfold get, remove. cbn. apply lookup_delete_eq. Qed.

(** The cache of the executor keeps its order and its entries in step. *)
Definition cache_ok (c : RetrievalCache) : Prop := ∃ l, represents c l.

Lemma get_inserted key hits c : cache_ok c → get (insert_hits key hits c) key = Some hits.
Proof.
  intros [l Hr]. pose proof (represents_insert c l key hits Hr) as (_ & He & _).
  unfold get. rewrite He. destruct Hr as (_ & _ & _ & Hc & _).
  assert (Hin : ∃ l1, newest (capacity c) (without key l ++ [(key, hits)]) = l1 ++ [(key, hits)] ∧
    key ∉ l1.*1).
  { unfold newest. rewrite length_app. cbn. set (n := (_ - _)%nat).
    assert (Hn : (n ≤ length (without key l))%nat) by (unfold n; lia).
    rewrite drop_app_le by done. eexists. split; [done|].
    intros Hk. apply (without_not_in key l). rewrite fmap_drop in Hk.
    eapply sublist_subseteq; [apply sublist_drop|exact Hk]. }
  destruct Hin as (l1 & -> & Hk). rewrite list_to_map_snoc_new by done. by rewrite lookup_insert_eq.
Qed.

Definition completed_query (plan : RetrievalPlan) (r : QueryResult) : Prop :=
  cancel_reason (trace r) = None ∧ st_stage <$> qt_stages (trace r) = kind <$> stages plan ∧
  Forall settled_stage (qt_stages (trace r)).

Lemma cache_result_outcome ex features deadline hits reason e why c e' :
  cache_ok (cache ex) →
  cache_result ex features deadline hits reason e = ((why, c), e') →
  (c = cache ex ∧ why = reason) ∨
  (∃ m, manifest ex = Some m ∧ reason = None ∧
     ((why = None ∧ get c (query_key ex features m) = Some hits) ∨
      (is_Some why ∧ get c (query_key ex features m) = None))).
Proof.
  intros Hc. unfold cache_result. case_bool_decide as Hr; [|by intros [= <- <- <-]; left].
  unfold and_then, mbind, X_bind, mret, X_ret. destruct (not_cancelled e) as [[] e1].
  2: { intros [= <- <- <-]. by left. }
  destruct (before_deadline deadline e1) as [[] e2]; [|by intros [= <- <- <-]; left].
  destruct (manifest ex) as [m|] eqn:Hm; [|by intros [= <- <- <-]; left].
  destruct (load_cancelled e2) as [[] e3]; [by intros [= <- <- <-]; left|].
  assert (Hundo : ∀ e0, (let '(a, e4) := cancellation_reason e0 in
      (Some a, remove (query_key ex features m) (insert_hits (query_key ex features m) hits (cache ex)), e4))
      = (why, c, e') →
    (c = cache ex ∧ why = reason) ∨ (∃ m', Some m = Some m' ∧ reason = None ∧
     ((why = None ∧ get c (query_key ex features m') = Some hits) ∨
      (is_Some why ∧ get c (query_key ex features m') = None)))).
  { intros e0. destruct (cancellation_reason e0) as [w e4]. intros [= <- <- <-]. right. exists m.
    split; [done|]. split; [done|]. right. split; [by eexists|apply get_removed]. }
  destruct (not_cancelled e3) as [[] e5]; [|apply Hundo].
  destruct (before_deadline deadline e5) as [[] e6]; [|apply Hundo].
  intros [= <- <- <-]. right. exists m. split; [done|]. split; [done|]. left.
  split; [done|]. by apply get_inserted.
Qed.

(** ** Waiting *)
Definition shrinks (e e' : Env) : Prop := (length (script e') ≤ length (script e) - 1)%nat.

Lemma tick_shrinks e : shrinks e (tick e).2.
Proof. unfold shrinks, tick. destruct (script e); cbn; lia. Qed.
Lemma instant_now_shrinks e : shrinks e (instant_now e).2.
Proof. exact (tick_shrinks e). Qed.
Lemma load_cancelled_shrinks e : shrinks e (load_cancelled e).2.
Proof. exact (tick_shrinks e). Qed.
Lemma tick_quiet e : script e = [] →
  finished (tick e).1 = Some {| outcome := JobRan; finished_at := clock e;
                                job_queue_wait_ms := 0; job_execution_ms := 0 |} ∧
  pool_full (tick e).1 = false.
Proof. intros Hs. unfold tick. by rewrite Hs. Qed.

(** More rounds than events change nothing: the wait always ends with an answer. *)
Lemma wait_loop_fuel extra stage features anchors w deadline : ∀ fuel e,
  (length (script e) < fuel)%nat →
  wait_loop (fuel + extra) w deadline stage features anchors e =
  wait_loop fuel w deadline stage features anchors e.
Proof.
  induction fuel as [|fuel IH]; intros e Hf; [lia|]. cbn [wait_loop Nat.add].
  unfold mbind, X_bind, mret, X_ret.
  pose proof (load_cancelled_shrinks e) as H1. destruct (load_cancelled e) as [[] e1]; [done|].
  pose proof (instant_now_shrinks e1) as H2. destruct (instant_now e1) as [t e2].
  destruct (deadline <=? t); [done|].
  pose proof (tick_shrinks e2) as H3. pose proof (tick_quiet e2) as H4.
  destruct (tick e2) as [ev e3]. cbn [snd fst] in *. unfold shrinks in *.
  destruct (finished ev) eqn:Hev; [done|]. apply IH.
  destruct (script e2) as [|x l] eqn:Hs; [by destruct (H4 eq_refl) as [? _]|]. cbn in *. lia.
Qed.
Lemma acquire_loop_fuel extra started deadline : ∀ fuel e,
  (length (script e) < fuel)%nat →
  acquire_loop (fuel + extra) started deadline e = acquire_loop fuel started deadline e.
Proof.
  induction fuel as [|fuel IH]; intros e Hf; [lia|]. cbn [acquire_loop Nat.add].
  unfold mbind, X_bind, mret, X_ret.
  pose proof (load_cancelled_shrinks e) as H1. destruct (load_cancelled e) as [[] e1]; [done|].
  pose proof (instant_now_shrinks e1) as H2. destruct (instant_now e1) as [t e2].
  destruct (deadline <=? t); [done|].
  pose proof (tick_shrinks e2) as H3. pose proof (tick_quiet e2) as H4.
  destruct (tick e2) as [ev e3]. cbn [snd fst] in *. unfold shrinks in *.
  destruct (pool_full ev) eqn:Hev; [|done]. apply IH.
  destruct (script e2) as [|x l] eqn:Hs; [by destruct (H4 eq_refl) as [_ ?]|]. cbn in *. lia.
Qed.

End Sequence.

(** ** A project with three sidecars *)
Module ExecutorSample.
#[export] Instance ascii_tables : UnicodeTables :=
  {| unicode_alphanumeric := λ _, false; unicode_uppercase := λ _, false;
     unicode_lowercase := λ _, false |}.
Definition component (name : str) : ComponentHealth :=
  {| health_name := name; status := ComponentStatus.Healthy; latency_ms := None;
     detail := []; degraded_reason := None;
     capabilities := {| cap_lexical := true; cap_semantic := true; cap_graph := true |} |}.
Definition hit (path : str) (symbol : str) (n : Z) (from : CandidateSource) : CandidateHit :=
  with_source path (Some symbol) (f32_of_Z n) from.
#[export] Instance sidecars : SidecarSearch :=
  {| has_layout := true;
     probe_sidecar_health := λ _,
       (component (lit "lexical"), component (lit "semantic"), component (lit "scip"));
     lexical_search := λ _ _,
       Ok [hit (lit "src/a.rs") (lit "open") 3 CandidateSource.Lexical;
           hit (lit "src/b.rs") (lit "close") 2 CandidateSource.Lexical];
     semantic_search := λ _ _, Ok [hit (lit "src/a.rs") (lit "open") 5 CandidateSource.Semantic];
     scip_anchor := λ _ _, Ok [];
     scip_expand := λ _ _, Ok [hit (lit "src/c.rs") (lit "read") 1 CandidateSource.Scip] |}.
#[export] Instance unranked : Ranker := {| rank_candidates := λ _ l, l |}.
#[export] Instance identity_digest : Digest := {| sha256_hex := λ s, s |}.

Definition text : str := lit "how is a file opened and read".
Definition asked : QueryFeatures := classify_query text.
Definition executor : QueryExecutor :=
  {| cache := new_cache; manifest := Some (CacheSample.manifest (lit "ab")); file_roles := ∅;
     mode_override := None |}.
(** The pool is full once, and the clock moves by a few microseconds. *)
Definition slow (full : bool) : Event :=
  {| advance := 1500; raises_cancel := false; pool_full := full; started_after_ms := Some 0;
     finished := None |}.
Definition env : Env :=
  {| clock := 0; cancelled := false;
     script := [slow false; slow false; slow false; slow true; slow true; slow true;
                slow true; slow true; slow true; slow false] |}.
Definition start : SeqState :=
  {| candidates := []; stage_traces := []; low_gain_streak := 0; seq_cancel := None |}.
Definition deadline : Z := ms 1000.
Definition sequence : result str (SeqState * option str) * Env :=
  run_stage_sequence (budgeted_plan asked RetrievalDegradedMode.Full (Some 300)) asked
    (manifest executor) (stages (budgeted_plan asked RetrievalDegradedMode.Full (Some 300)))
    deadline start env.
Definition final : SeqState :=
  match sequence.1 with Ok (s, _) => s | Err _ => start end.
Definition key (m : RetrievalIndexManifest) : RetrievalCacheKey := query_key executor asked m.
Definition asking : X (result str QueryResult * RetrievalCache) := execute executor text (Some 300).
Definition answered : result str QueryResult * RetrievalCache := (asking env).1.
Definition ended : Env := (asking env).2.
Definition answer : QueryResult :=
  match answered.1 with
  | Ok r => r
  | Err _ => {| qr_publication_identity := None; query := []; features := asked; hits := [];
                trace := {| retrieval_mode := []; qt_degraded_reason := None;
                            qt_total_budget_ms := 0; elapsed_ms := 0; cancel_reason := None;
                            cache_hit := true; qt_stages := [] |} |}
  end.
End ExecutorSample.

(** Stages in time only: in a run of planned stages that reports no reason to stop, every
    stage completed before its deadline or was deliberately skipped; in any run the
    traces follow the plan from its start, candidates keep unique keys, and each of them
    was there before or carries the label of a stage that completed in time. *)
Theorem stage_sequence_sound {UT : UnicodeTables} {SS : SidecarSearch} plan features manifest
    budget mode deadline s e s' reason e' :
  run_stage_sequence plan features manifest (stages (budgeted_plan features mode budget))
    deadline s e = (Ok (s', reason), e') →
  ∃ new, stage_traces s' = stage_traces s ++ new ∧
    (st_stage <$> new) `prefix_of` (kind <$> stages (budgeted_plan features mode budget)) ∧
    (reason = None →
       st_stage <$> new = kind <$> stages (budgeted_plan features mode budget) ∧
       Forall (λ t, st_completion_status t = Completed ∨ st_completion_status t = Skipped) new) ∧
    (NoDup (hit_key <$> candidates s) → NoDup (hit_key <$> candidates s')) ∧
    (∀ c, c ∈ candidates s' →
       (∃ c0, c0 ∈ candidates s ∧ hit_key c = hit_key c0) ∨
       ∃ t label, t ∈ new ∧ st_completion_status t = Completed ∧
         provenance_label (st_stage t) = Some label ∧ label ∈ provenance c).
Proof.
  intros Hrun. destruct (run_stage_sequence_run _ _ _ _ _ _ _ _ _ _ (plan_labels features mode budget) Hrun)
    as [new [H1 H2 H3 H4 H5]]. exists new. split; [done|]. split; [done|].
  split; [intros Hr; by destruct (H3 Hr) as (_ & ? & ?)|]. split; [done|].
  intros c Hc. destruct (H5 c Hc) as [(c0 & ? & ? & _)|(t & Ht & Hd & label & Hl & Hp)].
  - left. by exists c0.
  - right. by exists t, label.
Qed.

Example stage_sequence_sound_witness :
  ∃ new, stage_traces ExecutorSample.final = new ∧
    st_stage <$> new = [Stage1Lexical; Stage1bSemantic; Stage2ScipExpand] ∧
    NoDup (hit_key <$> candidates ExecutorSample.final).
Proof.
  assert (Hrun : ExecutorSample.sequence =
    (Ok (ExecutorSample.final, None), ExecutorSample.sequence.2)) by (vm_compute; reflexivity).
  destruct (stage_sequence_sound _ _ _ _ _ _ _ _ _ _ _ Hrun) as (new & H1 & _ & H3 & H4 & _).
  exists new. split; [exact H1|]. split.
  - refine (eq_trans (proj1 (H3 eq_refl)) _). vm_compute. reflexivity.
  - apply H4. constructor.
Defined.

(** [C33] A query fails closed and caches only complete results: without full mode it is an error
    whatever is cached; a cache hit is the entry of the query's key; otherwise the cache
    is unchanged, or the query was complete (no cancel reason, every planned stage
    completed or skipped) and its hits are now the entry of its key, or the write was
    undone and the key is absent. *)
Theorem execute_contract {UT : UnicodeTables} {SS : SidecarSearch} {RK : Ranker} {DG : Digest}
    ex text budget e result c e' :
  (∃ l, represents (cache ex) l) →
  execute ex text budget e = ((result, c), e') →
  let features := classify_query text in
  let mode := (resolve_mode (mode_override ex) (manifest ex)).1 in
  let key m := key_for_manifest (cache ex) m (query_fingerprint (raw_query features)) in
  match result with
  | Err _ => c = cache ex
  | Ok r =>
      mode = RetrievalDegradedMode.Full ∧
      if cache_hit (trace r) then
        c = cache ex ∧ cancel_reason (trace r) = None ∧
        ∃ m, manifest ex = Some m ∧ get (cache ex) (key m) = Some (hits r)
      else
        c = cache ex ∨
        ∃ m, manifest ex = Some m ∧
          ((get c (key m) = Some (hits r) ∧
            completed_query (budgeted_plan features mode budget) r) ∨
           (get c (key m) = None ∧ is_Some (cancel_reason (trace r))))
  end.
Proof.
  intros Hc. unfold execute. unfold mbind at 1, X_bind at 1. destruct (instant_now e) as [t0 e0].
  destruct (resolve_mode (mode_override ex) (manifest ex)) as [mode degraded]. cbn [fst].
  case_bool_decide as Hmode; cbn [negb]; [subst mode|by intros [= <- <- <-]].
  set (features := classify_query text). unfold mbind, X_bind.
  destruct (try_cache ex features RetrievalDegradedMode.Full t0 e0) as [[r|] e1] eqn:Ht.
  { intros [= <- <- <-]. split; [done|]. revert Ht. unfold try_cache, mbind, X_bind, mret, X_ret.
    destruct (not_cancelled e0) as [[] e2]; [|done]. destruct (manifest ex) as [m|]; [|done].
    destruct (get _ _) as [cached|] eqn:Hg; [|done]. destruct (load_cancelled e2) as [[] e3];
      destruct (instant_now e3) as [t4 e4]; intros [= <- <-]; cbn; [by left|].
    split; [done|]. split; [done|]. by exists m. }
  clear Ht. set (plan := budgeted_plan features RetrievalDegradedMode.Full budget).
  destruct (instant_now e1) as [started e2].
  destruct (run_stage_sequence _ _ _ _ _ _ e2) as [[[s reason]|err] e3] eqn:Hrun;
    [|by intros [= <- <- <-]].
  apply run_stage_sequence_run in Hrun as [new Hnew]; [|apply plan_labels].
  set (hs := rank_candidates _ _).
  destruct (final_reason _ reason e3) as [reason' e4] eqn:Hfinal.
  assert (Hnone : reason' = None → reason = None).
  { intros ->. revert Hfinal. unfold final_reason, mbind, X_bind, mret, X_ret.
    destruct (load_cancelled e3) as [[] e5]; [done|]. destruct (instant_now e5) as [t6 e6].
    destruct (_ && _); [done|]. by intros [= -> _]. }
  destruct (cache_result _ _ _ _ _ e4) as [[why c'] e5] eqn:Hcr.
  destruct (instant_now e5) as [t6 e6]. intros [= <- <- <-]. split; [done|]. cbn.
  apply cache_result_outcome in Hcr as [[-> _]|(m & Hm & Hr & Hw)]; [by left| |exact Hc].
  right. exists m. split; [done|]. destruct Hw as [[-> Hg]|[Hw Hg]]; [left|right; done].
  split; [exact Hg|]. destruct Hnew as [H1 _ H3 _ _]. destruct (H3 (Hnone Hr)) as (_ & H4 & H5).
  split; [done|]. cbn in H1 |- *. by rewrite H1.
Qed.

Example execute_contract_witness :
  ∃ m, manifest ExecutorSample.executor = Some m ∧
    get ExecutorSample.answered.2 (ExecutorSample.key m) = Some (hits ExecutorSample.answer) ∧
    completed_query (budgeted_plan ExecutorSample.asked RetrievalDegradedMode.Full (Some 300))
      ExecutorSample.answer.
Proof.
  assert (Hok : is_ok ExecutorSample.answered.1 = true) by (vm_compute; reflexivity).
  assert (Hrun : ExecutorSample.asking ExecutorSample.env =
    ((Ok ExecutorSample.answer, ExecutorSample.answered.2), ExecutorSample.ended)).
  { unfold ExecutorSample.answer, ExecutorSample.ended. revert Hok. unfold ExecutorSample.answered.
    destruct (ExecutorSample.asking ExecutorSample.env) as [[[r|err] c] e']; [done|discriminate]. }
  assert (Hc : cache_ok (cache ExecutorSample.executor)).
  { exists []. split; [reflexivity|]. split; [reflexivity|]. split; [constructor|].
    split; vm_compute; discriminate. }
  destruct (execute_contract (UT := ExecutorSample.ascii_tables) (SS := ExecutorSample.sidecars)
    (RK := ExecutorSample.unranked) (DG := ExecutorSample.identity_digest) ExecutorSample.executor
    ExecutorSample.text (Some 300) ExecutorSample.env (Ok ExecutorSample.answer)
    ExecutorSample.answered.2 ExecutorSample.ended Hc Hrun) as [_ H]. revert H.
  assert (Hmiss : cache_hit (trace ExecutorSample.answer) = false) by (vm_compute; reflexivity).
  rewrite Hmiss. intros [H|(m & Hm & [[Hg Hd]|[_ [why Hw]]])].
  - exfalso. apply (f_equal (λ c, length (order c))) in H. revert H. vm_compute. discriminate.
  - exists m. split; [exact Hm|]. split; [exact Hg|exact Hd].
  - exfalso. revert Hw. vm_compute. discriminate.
Defined.
