(* ===== verification/ServerFrame.v ===== *)
(** * Wire frames of the per-user embedding server

    codestory-retrieval/src/per_user_embedding/exchange.rs ([write_frame], [read_frame],
    [encode_vectors], [decode_vectors]) and server/frame.rs (the incremental reader of a
    lease connection).  A frame is two big-endian lengths, a JSON control part and a
    payload.  Bytes are lists of [ascii]; the JSON codec is an interface; a vector
    element is the 32-bit pattern of its float, which is what [to_le_bytes] writes.

    The second part: frames survive the wire. *)
From S2P Require Import Prelude RustStr.

(** ** Integers on the wire *)
Definition byte_of (z : Z) : ascii := ascii_of_N (Z.to_N (z `mod` 256)).
Definition of_byte (c : ascii) : Z := Z.of_N (N_of_ascii c).
Definition to_be_bytes (n : Z) : str :=
  [byte_of (n / 2 ^ 24); byte_of (n / 2 ^ 16); byte_of (n / 2 ^ 8); byte_of n].
Definition from_be_bytes (b : str) : Z := foldl (λ acc c, acc * 256 + of_byte c) 0 b.
Definition to_le_bytes (n : Z) : str := reverse (to_be_bytes n).
Definition from_le_bytes (b : str) : Z := from_be_bytes (reverse b).

Lemma of_byte_range c : 0 ≤ of_byte c < 256.
Proof. unfold of_byte. pose proof (N_ascii_bounded c). lia. Qed.
Lemma of_byte_of z : of_byte (byte_of z) = z `mod` 256.
Proof.
  unfold of_byte, byte_of. pose proof (Z.mod_pos_bound z 256 eq_refl).
  rewrite N_ascii_embedding by lia. lia.
Qed.
Lemma from_to_be_bytes n : in_range u32_max n → from_be_bytes (to_be_bytes n) = n.
Proof.
  unfold in_range, u32_max, from_be_bytes, to_be_bytes. intros Hn. cbn [foldl].
  rewrite !of_byte_of. pose proof (Z.div_mod n 256 ltac:(lia)).
  pose proof (Z.div_mod (n / 2 ^ 8) 256 ltac:(lia)).
  pose proof (Z.div_mod (n / 2 ^ 16) 256 ltac:(lia)).
  rewrite !Z.div_div in * by lia. change (2 ^ 8 * 256) with (2 ^ 16) in *.
  change (2 ^ 16 * 256) with (2 ^ 24) in *. change 256 with (2 ^ 8) in *.
  rewrite (Z.mod_small (n / 2 ^ 24)); [lia|].
  split; [apply Z.div_pos; lia|]. apply Z.div_lt_upper_bound; lia.
Qed.
Lemma from_to_le_bytes n : in_range u32_max n → from_le_bytes (to_le_bytes n) = n.
Proof.
  intros Hn. unfold from_le_bytes, to_le_bytes. rewrite reverse_involutive.
  by apply from_to_be_bytes.
Qed.

(** ** Frames *)
Definition MAX_METADATA_BYTES : Z := 16 * 1024 * 1024.
Definition MAX_PAYLOAD_BYTES : Z := 16 * 1024 * 1024.

Inductive FrameError : Set :=
| FrameTooLarge | FrameLengthOverflow | FrameTruncated | FrameJson | FrameRead.
#[export] Instance FrameError_eq_dec : EqDecision FrameError.
Proof. solve_decision. Defined.

(** serde_json for the control type [T]. *)
Class JsonCodec (T : Type) := {
  to_vec : T → result FrameError str;
  from_slice : str → result FrameError T;
}.
Class JsonCodecLaws (T : Type) `{JsonCodec T} := {
  from_to_vec t b : to_vec t = Ok b → from_slice b = Ok t;
  to_vec_not_nil t b : to_vec t = Ok b → b ≠ [];
}.

Definition ztake (n : Z) (s : str) : str := take (Z.to_nat n) s.
Definition zdrop (n : Z) (s : str) : str := drop (Z.to_nat n) s.

(** [read_exact] on the bytes that are still to come. *)
Definition read_exact (n : Z) (s : str) : result FrameError (str * str) :=
  if len s <? n then Err FrameTruncated else Ok (ztake n s, zdrop n s).

Definition lengths_refused (control_len payload_len : Z) : bool :=
  (control_len =? 0) || (MAX_METADATA_BYTES <? control_len) || (MAX_PAYLOAD_BYTES <? payload_len).

Section Frames.
Context {T : Type} `{JsonCodec T}.

(** The bytes [write_frame] sends. *)
Definition write_frame (control : T) (payload : str) : result FrameError str :=
  control ← to_vec control;
  if (MAX_METADATA_BYTES <? len control) || (MAX_PAYLOAD_BYTES <? len payload)
  then Err FrameTooLarge
  else Ok (to_be_bytes (len control) ++ to_be_bytes (len payload) ++ control ++ payload).

Definition read_frame (s : str) : result FrameError (T * str * str) :=
  '(control_len, s) ← read_exact 4 s;
  '(payload_len, s) ← read_exact 4 s;
  let control_len := from_be_bytes control_len in
  let payload_len := from_be_bytes payload_len in
  if lengths_refused control_len payload_len then Err FrameTooLarge
  else
    '(control, s) ← read_exact control_len s;
    '(payload, s) ← read_exact payload_len s;
    control ← from_slice control;
    mret (control, payload, s).

(** ** The incremental reader *)

(** What one [stream.read] into the 8 KiB chunk gives; [ReadBytes []] is end of stream. *)
Inductive StreamRead : Type :=
| ReadBytes (chunk : str)
| ReadTimedOut
| ReadDisconnected
| ReadFailed.
Definition CHUNK : Z := 8 * 1024.

Inductive ProtocolFramePoll : Type :=
| Pending
| Closed
| Ready (control : T) (payload : str).

Definition decode_ready (bytes : str) : result FrameError (option (T * str) * str) :=
  if len bytes <? 8 then Ok (None, bytes)
  else
    let control_len := from_be_bytes (ztake 4 bytes) in
    let payload_len := from_be_bytes (ztake 4 (zdrop 4 bytes)) in
    if lengths_refused control_len payload_len then Err FrameTooLarge
    else
      frame_len ← ok_or (checked_add usize_max 8 control_len
                           ≫= λ length, checked_add usize_max length payload_len)
                    FrameLengthOverflow;
      if len bytes <? frame_len then Ok (None, bytes)
      else
        control ← from_slice (ztake control_len (zdrop 8 bytes));
        mret (Some (control, ztake payload_len (zdrop (8 + control_len) bytes)),
              zdrop frame_len bytes).

Definition after_read (bytes : str) : result FrameError (ProtocolFramePoll * str) :=
  '(frame, bytes) ← decode_ready bytes;
  mret (match frame with Some (control, payload) => Ready control payload | None => Pending end,
        bytes).

(** One [poll]: the outcome, the buffer and the reads that remain; a stream without
    further reads is at its end. *)
Definition poll (bytes : str) (reads : list StreamRead)
  : result FrameError (ProtocolFramePoll * str * list StreamRead) :=
  '(frame, bytes) ← decode_ready bytes;
  match frame with
  | Some (control, payload) => mret (Ready control payload, bytes, reads)
  | None =>
      match match reads with [] => ReadBytes [] | r :: _ => r end with
      | ReadBytes [] =>
          if bool_decide (bytes = []) then mret (Closed, bytes, tail reads) else Err FrameTruncated
      | ReadBytes chunk =>
          '(outcome, bytes) ← after_read (bytes ++ chunk);
          mret (outcome, bytes, tail reads)
      | ReadTimedOut => mret (Pending, bytes, tail reads)
      | ReadDisconnected => mret (Closed, bytes, tail reads)
      | ReadFailed => Err FrameRead
      end
  end.

(** The polling loop of a connection: the frames it gets and how it ends. *)
Inductive ReadingEnd : Set := ReadingClosed | ReadingFailed (e : FrameError).
Fixpoint poll_all (fuel : nat) (bytes : str) (reads : list StreamRead)
  : option (list (T * str) * ReadingEnd) :=
  match fuel with
  | O => None
  | S fuel =>
      match poll bytes reads with
      | Err e => Some ([], ReadingFailed e)
      | Ok (Closed, _, _) => Some ([], ReadingClosed)
      | Ok (Pending, bytes, reads) => poll_all fuel bytes reads
      | Ok (Ready control payload, bytes, reads) =>
          '(frames, ending) ← poll_all fuel bytes reads;
          Some ((control, payload) :: frames, ending)
      end
  end.

(** [read_frame] until the end of the stream. *)
Fixpoint read_all (fuel : nat) (s : str) : option (list (T * str) * ReadingEnd) :=
  match fuel with
  | O => None
  | S fuel =>
      if bool_decide (s = []) then Some ([], ReadingClosed)
      else
        match read_frame s with
        | Err e => Some ([], ReadingFailed e)
        | Ok (control, payload, s) =>
            '(frames, ending) ← read_all fuel s;
            Some ((control, payload) :: frames, ending)
        end
  end.
End Frames.
Arguments ProtocolFramePoll : clear implicits.

(** ** Vectors *)
Definition RETRIEVAL_EMBEDDING_DIM : Z := 768.
Definition MAX_DOCUMENT_COUNT : Z := 2048.
Inductive VectorError : Set :=
| VectorShapeInvalid | VectorPayloadOverflow | VectorPayloadTooLarge
| VectorDimensionMismatch | VectorPayloadLengthMismatch.

Definition checked_mul (max a b : Z) : option Z :=
  if decide (a * b ≤ max) then Some (a * b) else None.

Definition encode_vectors (vectors : list (list Z)) : result VectorError str :=
  if (MAX_DOCUMENT_COUNT <? len vectors)
     || existsb (λ v, negb (len v =? RETRIEVAL_EMBEDDING_DIM)) vectors
  then Err VectorShapeInvalid
  else
    bytes ← ok_or (checked_mul usize_max (len vectors) RETRIEVAL_EMBEDDING_DIM
                     ≫= λ values, checked_mul usize_max values 4) VectorPayloadOverflow;
    if MAX_PAYLOAD_BYTES <? bytes then Err VectorPayloadTooLarge
    else mret (concat ((λ vector, concat (to_le_bytes <$> vector)) <$> vectors)).

(** [chunks_exact]: the whole chunks, a shorter rest is dropped. *)
Fixpoint chunks_exact (fuel : nat) (size : Z) (s : str) : list str :=
  match fuel with
  | O => []
  | S fuel => if len s <? size then [] else ztake size s :: chunks_exact fuel size (zdrop size s)
  end.

Definition decode_vectors (rows columns : Z) (payload : str) : result VectorError (list (list Z)) :=
  if negb (columns =? RETRIEVAL_EMBEDDING_DIM) then Err VectorDimensionMismatch
  else
    expected ← ok_or (checked_mul usize_max rows columns
                        ≫= λ values, checked_mul usize_max values 4) VectorPayloadOverflow;
    if negb (len payload =? expected) then Err VectorPayloadLengthMismatch
    else mret ((λ row, from_le_bytes <$> chunks_exact (length row) 4 row)
               <$> chunks_exact (length payload) (columns * 4) payload).

(** * Frames survive the wire

    The incremental reader sees exactly the frames a blocking reader sees, whatever the
    sizes of the reads; written frames and vectors are read back; the reader's buffer is
    bounded. *)
Lemma ztake_zdrop n s : ztake n s ++ zdrop n s = s.
Proof. apply take_drop. Qed.
Lemma len_ztake n s : 0 ≤ n ≤ len s → len (ztake n s) = n.
Proof. unfold len, ztake. intros. rewrite length_take. lia. Qed.
Lemma len_zdrop n s : 0 ≤ n ≤ len s → len (zdrop n s) = len s - n.
Proof. unfold len, zdrop. intros. rewrite length_drop. lia. Qed.
Lemma ztake_app n s t : 0 ≤ n ≤ len s → ztake n (s ++ t) = ztake n s.
Proof. unfold len, ztake. intros. by rewrite take_app_le by lia. Qed.
Lemma zdrop_app n s t : 0 ≤ n ≤ len s → zdrop n (s ++ t) = zdrop n s ++ t.
Proof. unfold len, zdrop. intros. by rewrite drop_app_le by lia. Qed.
Lemma zdrop_zdrop n m s : 0 ≤ n → 0 ≤ m → zdrop n (zdrop m s) = zdrop (m + n) s.
Proof. unfold zdrop. intros. rewrite drop_drop. f_equal. lia. Qed.
Lemma ztake_exact s t : ztake (len s) (s ++ t) = s.
Proof. unfold ztake, len. rewrite Nat2Z.id. apply take_app_length. Qed.
Lemma zdrop_exact s t : zdrop (len s) (s ++ t) = t.
Proof. unfold zdrop, len. rewrite Nat2Z.id. apply drop_app_length. Qed.
Lemma zdrop_len s : zdrop (len s) s = [].
Proof. unfold zdrop, len. rewrite Nat2Z.id. apply drop_all. Qed.

Lemma from_be_bytes_bound b : 0 ≤ from_be_bytes b < 256 ^ len b.
Proof.
  unfold from_be_bytes. induction b as [|c b IH] using rev_ind.
  - by vm_compute.
  - rewrite foldl_snoc, len_app. change (len [c]) with 1. pose proof (of_byte_range c).
    rewrite Z.pow_add_r by (try apply len_nonneg; lia). change (256 ^ 1) with 256. lia.
Qed.

Lemma read_exact_ok n s : 0 ≤ n ≤ len s → read_exact n s = Ok (ztake n s, zdrop n s).
Proof. intros. unfold read_exact. destruct (Z.ltb_spec (len s) n); [lia|done]. Qed.
Lemma read_exact_short n s : len s < n → read_exact n s = Err FrameTruncated.
Proof. intros. unfold read_exact. destruct (Z.ltb_spec (len s) n); [done|lia]. Qed.

(** Lengths the readers accept. *)
Lemma lengths_accepted c p :
  lengths_refused c p = false → 0 ≤ c → 0 ≤ p →
  1 ≤ c ≤ MAX_METADATA_BYTES ∧ 0 ≤ p ≤ MAX_PAYLOAD_BYTES.
Proof. unfold lengths_refused. intros. lia. Qed.

Section Frames.
Context {T : Type} `{CD : JsonCodec T}.
Implicit Types (s b x : str) (reads : list StreamRead).

Definition control_len s : Z := from_be_bytes (ztake 4 s).
Definition payload_len s : Z := from_be_bytes (ztake 4 (zdrop 4 s)).
Definition frame_len s : Z := 8 + control_len s + payload_len s.

Lemma control_len_nonneg s : 0 ≤ control_len s.
Proof. apply from_be_bytes_bound. Qed.
Lemma payload_len_nonneg s : 0 ≤ payload_len s.
Proof. apply from_be_bytes_bound. Qed.
#[local] Hint Resolve control_len_nonneg payload_len_nonneg len_nonneg : core.

Lemma control_len_app b x : 8 ≤ len b → control_len (b ++ x) = control_len b.
Proof. intros. unfold control_len. by rewrite ztake_app by lia. Qed.
Lemma payload_len_app b x : 8 ≤ len b → payload_len (b ++ x) = payload_len b.
Proof.
  intros. unfold payload_len. rewrite zdrop_app by lia. rewrite ztake_app; [done|].
  rewrite len_zdrop; lia.
Qed.

(** Both readers as one case analysis on the bytes. *)
Lemma decode_ready_cases b :
  decode_ready b =
    if len b <? 8 then Ok (None, b)
    else if lengths_refused (control_len b) (payload_len b) then Err FrameTooLarge
    else if len b <? frame_len b then Ok (None, b)
    else match from_slice (ztake (control_len b) (zdrop 8 b)) with
         | Err e => Err e
         | Ok control =>
             Ok (Some (control, ztake (payload_len b) (zdrop (8 + control_len b) b)),
                 zdrop (frame_len b) b)
         end.
Proof.
  unfold decode_ready. fold (control_len b). fold (payload_len b).
  destruct (len b <? 8); [done|]. destruct (lengths_refused _ _) eqn:Hr; [done|].
  apply lengths_accepted in Hr as [Hc Hp]; [|auto..].
  unfold MAX_METADATA_BYTES, MAX_PAYLOAD_BYTES in *.
  assert (Hf : (checked_add usize_max 8 (control_len b)
                  ≫= λ length, checked_add usize_max length (payload_len b)) = Some (frame_len b)).
  { unfold checked_add, usize_max, u64_max. rewrite decide_True by lia. cbn [mbind option_bind].
    by rewrite decide_True by lia. }
  rewrite Hf. cbn [ok_or mbind result_bind]. destruct (len b <? frame_len b); [done|].
  by destruct (from_slice _).
Qed.

Lemma read_frame_cases s :
  read_frame s =
    if len s <? 8 then Err FrameTruncated
    else if lengths_refused (control_len s) (payload_len s) then Err FrameTooLarge
    else if len s <? frame_len s then Err FrameTruncated
    else match from_slice (ztake (control_len s) (zdrop 8 s)) with
         | Err e => Err e
         | Ok control =>
             Ok (control, ztake (payload_len s) (zdrop (8 + control_len s) s),
                 zdrop (frame_len s) s)
         end.
Proof.
  unfold read_frame. destruct (Z.ltb_spec (len s) 8) as [H8|H8].
  { unfold read_exact. destruct (Z.ltb_spec (len s) 4); [done|]. cbn [mbind result_bind].
    rewrite len_zdrop by lia. destruct (Z.ltb_spec (len s - 4) 4); [done|lia]. }
  rewrite read_exact_ok by lia. cbn [mbind result_bind]. rewrite read_exact_ok by (rewrite len_zdrop; lia).
  cbn [mbind result_bind]. fold (control_len s). fold (payload_len s).
  destruct (lengths_refused _ _) eqn:Hr; [done|].
  apply lengths_accepted in Hr as [Hc Hp]; [|auto..]. rewrite zdrop_zdrop by lia.
  change (4 + 4) with 8. unfold frame_len in *.
  destruct (Z.ltb_spec (len s) (8 + control_len s + payload_len s)) as [Hl|Hl].
  - destruct (Z.lt_ge_cases (len s - 8) (control_len s)).
    { rewrite read_exact_short; [done|]. rewrite len_zdrop; lia. }
    rewrite read_exact_ok by (rewrite len_zdrop; lia). cbn [mbind result_bind].
    rewrite zdrop_zdrop by lia. rewrite read_exact_short; [done|].
    rewrite len_zdrop; lia.
  - rewrite read_exact_ok by (rewrite len_zdrop; lia). cbn [mbind result_bind].
    rewrite zdrop_zdrop by lia. rewrite read_exact_ok by (rewrite len_zdrop; lia).
    cbn [mbind result_bind]. rewrite zdrop_zdrop by lia.
    by destruct (from_slice _).
Qed.

(** A complete frame, or a refusal, does not depend on the bytes behind it. *)
Lemma decode_ready_read_frame b x :
  match decode_ready b with
  | Err e => read_frame (b ++ x) = Err e
  | Ok (Some (control, payload), rest) =>
      read_frame (b ++ x) = Ok (control, payload, rest ++ x) ∧ len rest < len b
  | Ok (None, rest) =>
      rest = b ∧ read_frame b = Err FrameTruncated ∧
      len b < 8 + MAX_METADATA_BYTES + MAX_PAYLOAD_BYTES
  end.
Proof.
  rewrite decode_ready_cases. pose proof (len_nonneg x). destruct (Z.ltb_spec (len b) 8) as [H8|H8].
  { split; [done|]. rewrite read_frame_cases. destruct (Z.ltb_spec (len b) 8); [|lia].
    unfold MAX_METADATA_BYTES, MAX_PAYLOAD_BYTES. split; [done|lia]. }
  pose proof (control_len_nonneg b). pose proof (payload_len_nonneg b).
  destruct (lengths_refused _ _) eqn:Hr.
  { rewrite read_frame_cases, control_len_app, payload_len_app, Hr, len_app by done.
    destruct (Z.ltb_spec (len b + len x) 8); [lia|done]. }
  pose proof (lengths_accepted _ _ Hr ltac:(auto) ltac:(auto)) as [Hc Hp].
  destruct (Z.ltb_spec (len b) (frame_len b)) as [Hl|Hl].
  { split; [done|]. rewrite read_frame_cases, Hr. destruct (Z.ltb_spec (len b) 8); [lia|].
    destruct (Z.ltb_spec (len b) (frame_len b)); [|lia]. split; [done|].
    unfold frame_len in *. lia. }
  assert (Hf : frame_len (b ++ x) = frame_len b).
  { unfold frame_len. by rewrite control_len_app, payload_len_app. }
  assert (Hread : read_frame (b ++ x) =
    match from_slice (ztake (control_len b) (zdrop 8 b)) with
    | Err e => Err e
    | Ok control => Ok (control, ztake (payload_len b) (zdrop (8 + control_len b) b),
                        zdrop (frame_len b) b ++ x)
    end).
  { rewrite read_frame_cases, Hf, control_len_app, payload_len_app, Hr, len_app by done.
    destruct (Z.ltb_spec (len b + len x) 8); [lia|].
    destruct (Z.ltb_spec (len b + len x) (frame_len b)); [lia|]. unfold frame_len in *.
    rewrite (zdrop_app 8), (zdrop_app (8 + control_len b)), (zdrop_app (_ + _ + _)) by lia.
    rewrite (ztake_app (control_len b)) by (rewrite len_zdrop; lia).
    by rewrite (ztake_app (payload_len b)) by (rewrite len_zdrop; lia). }
  destruct (from_slice _) as [control|e]; [|done]. split; [done|].
  unfold frame_len in *. rewrite len_zdrop; lia.
Qed.

(** ** Any split of the stream *)
Definition content (r : StreamRead) : str :=
  match r with ReadBytes chunk => chunk | _ => [] end.
(** A read in the middle of the stream: some bytes of at most a chunk, or a timeout. *)
Definition midstream (r : StreamRead) : Prop :=
  match r with
  | ReadBytes chunk => chunk ≠ [] ∧ len chunk ≤ CHUNK
  | ReadTimedOut => True
  | _ => False
  end.

Lemma read_all_more fuel : ∀ s r, read_all fuel s = Some r → ∀ fuel', (fuel ≤ fuel')%nat →
  read_all fuel' s = Some r.
Proof.
  induction fuel as [|fuel IH]; intros s r Hr fuel' Hle; [done|].
  destruct fuel' as [|fuel']; [lia|]. cbn [read_all] in *.
  case_bool_decide; [done|]. destruct (read_frame s) as [[[control payload] s']|e]; [|done].
  destruct (read_all fuel s') as [[frames ending]|] eqn:Hs; [|done].
  by rewrite (IH _ _ Hs) by lia.
Qed.

Lemma read_all_total fuel : ∀ s, (length s < fuel)%nat → is_Some (read_all fuel s).
Proof.
  induction fuel as [|fuel IH]; intros s Hs; [lia|]. cbn [read_all].
  case_bool_decide as Hnil; [done|].
  destruct (read_frame s) as [[[control payload] s']|e] eqn:Hr; [|done].
  assert (Hlt : (length s' < length s)%nat).
  { revert Hr. rewrite read_frame_cases. destruct (Z.ltb_spec (len s) 8); [done|].
    destruct (lengths_refused _ _) eqn:Href; [done|].
    apply lengths_accepted in Href as [Hc Hp]; [|auto..].
    destruct (Z.ltb_spec (len s) (frame_len s)); [done|].
    destruct (from_slice _); [|done]. intros [= _ _ <-].
    unfold zdrop. rewrite length_drop. unfold len, frame_len in *. lia. }
  destruct (IH s' ltac:(lia)) as [[frames ending] ->]. done.
Qed.

Lemma poll_all_read_all fuel : ∀ b reads fuel',
  Forall midstream reads →
  (length reads + length b + length (concat (content <$> reads)) < fuel)%nat →
  (length (b ++ concat (content <$> reads)) < fuel')%nat →
  poll_all fuel b reads = read_all fuel' (b ++ concat (content <$> reads)).
Proof.
  induction fuel as [|fuel IH]; intros b reads fuel' Hmid Hfuel Hfuel'; [lia|].
  destruct fuel' as [|fuel']; [lia|].
  set (rest := concat (content <$> reads)) in *.
  cbn [poll_all]. unfold poll.
  pose proof (decode_ready_read_frame b rest) as Hd.
  destruct (decode_ready b) as [[[[control payload]|] b']|e] eqn:Hdec; cbn [mbind result_bind].
  - destruct Hd as [Hread Hlt]. cbn [mret result_ret read_all].
    rewrite bool_decide_false; [|intros [-> Hr]%app_eq_nil; unfold len in Hlt; simpl in Hlt; lia].
    rewrite Hread. rewrite (IH b' reads fuel'); [done|done| |].
    + unfold len in Hlt. fold rest. lia.
    + rewrite length_app in *. unfold len in Hlt. fold rest. lia.
  - destruct Hd as (-> & Htrunc & _). destruct reads as [|r reads].
    + subst rest. cbn [fmap list_fmap concat]. rewrite app_nil_r. cbn [read_all].
      case_bool_decide; [done|]. by rewrite Htrunc.
    + apply Forall_cons in Hmid as [Hr Hmid]. destruct r as [[|c chunk]| | |]; cbn in Hr; try done.
      * by destruct Hr as [? _].
      * cbn [tail]. unfold after_read.
        set (later := concat (content <$> reads)) in *.
        assert (Hrest : rest = (c :: chunk) ++ later) by done.
        pose proof (decode_ready_read_frame (b ++ c :: chunk) later) as Hd.
        rewrite Hrest in *. rewrite app_assoc in Hfuel' |- *.
        rewrite ?length_app in Hfuel. rewrite ?length_app in Hfuel'.
        cbn [length] in Hfuel, Hfuel'.
        destruct (decode_ready (b ++ c :: chunk)) as [[[[control payload]|] b']|e];
          cbn [mbind result_bind mret result_ret].
        -- destruct Hd as [Hread Hlt]. cbn [read_all].
           rewrite bool_decide_false; [|by intros [[_ ?]%app_eq_nil _]%app_eq_nil].
           rewrite Hread. unfold len in Hlt. rewrite length_app in Hlt. cbn [length] in Hlt.
           rewrite (IH b' reads fuel'); [done|done| |]; fold later; rewrite ?length_app; lia.
        -- destruct Hd as (-> & _ & _). apply IH; [done| |]; fold later; rewrite ?length_app;
             cbn [length]; lia.
        -- cbn [read_all]. rewrite bool_decide_false; [|by intros [[_ ?]%app_eq_nil _]%app_eq_nil].
           by rewrite Hd.
      * cbn [tail mret result_ret]. subst rest.
        change (concat (content <$> ReadTimedOut :: reads)) with (concat (content <$> reads)) in *.
        apply IH; [exact Hmid| |exact Hfuel']. cbn [length] in Hfuel. lia.
  - cbn [read_all].
    rewrite bool_decide_false; [by rewrite Hd|].
    intros [-> _]%app_eq_nil. done.
Qed.

(** Written frames are read back, in order and to the end of the stream. *)
Lemma read_all_written `{!JsonCodecLaws T} frames : ∀ parts fuel,
  Forall2 (λ frame part, write_frame frame.1 frame.2 = Ok part) frames parts →
  (length (concat parts) < fuel)%nat →
  read_all fuel (concat parts) = Some (frames, ReadingClosed).
Proof.
  induction frames as [|[control payload] frames IH]; intros parts fuel Hw Hfuel.
  { inversion Hw; subst. destruct fuel; [simpl in Hfuel; lia|]. done. }
  apply Forall2_cons_inv_l in Hw as (part & parts' & Hp & Hw & ->). cbn [fst snd] in Hp.
  destruct fuel as [|fuel]; [lia|]. cbn [concat] in *. rewrite length_app in Hfuel.
  unfold write_frame in Hp. apply bind_Ok in Hp as (json & Hjson & Hp).
  pose proof (to_vec_not_nil _ _ Hjson) as Hnil.
  destruct (_ || _) eqn:Hbig in Hp; [done|].
  assert (part = to_be_bytes (len json) ++ to_be_bytes (len payload) ++ json ++ payload)
    as -> by congruence. clear Hp.
  assert (Hlen : 1 ≤ len json).
  { destruct json; [done|]. rewrite len_cons. pose proof (len_nonneg json). lia. }
  unfold MAX_METADATA_BYTES, MAX_PAYLOAD_BYTES in Hbig.
  pose proof (len_nonneg payload) as Hpay.
  set (tailing := concat parts') in *.
  set (head := to_be_bytes (len json) ++ to_be_bytes (len payload)).
  assert (Hs : (to_be_bytes (len json) ++ to_be_bytes (len payload) ++ json ++ payload) ++ tailing
               = head ++ json ++ payload ++ tailing) by (unfold head; by rewrite <-!app_assoc).
  rewrite Hs. assert (Hhead : len head = 8) by done.
  assert (Hc : control_len (head ++ json ++ payload ++ tailing) = len json).
  { unfold control_len, head. rewrite <-app_assoc. change 4 with (len (to_be_bytes (len json))) at 1.
    rewrite ztake_exact. apply from_to_be_bytes. unfold in_range, u32_max. lia. }
  assert (Hpl : payload_len (head ++ json ++ payload ++ tailing) = len payload).
  { unfold payload_len, head. rewrite <-app_assoc. change 4 with (len (to_be_bytes (len json))) at 2.
    rewrite zdrop_exact. change 4 with (len (to_be_bytes (len payload))) at 1.
    rewrite ztake_exact. apply from_to_be_bytes. unfold in_range, u32_max. lia. }
  assert (Hread : read_frame (head ++ json ++ payload ++ tailing) = Ok (control, payload, tailing)).
  { rewrite read_frame_cases. unfold frame_len. rewrite Hc, Hpl, !len_app, Hhead.
    pose proof (len_nonneg tailing).
    destruct (Z.ltb_spec (8 + (len json + (len payload + len tailing))) 8); [lia|].
    destruct (lengths_refused _ _) eqn:Href.
    { unfold lengths_refused, MAX_METADATA_BYTES, MAX_PAYLOAD_BYTES in Href. lia. }
    destruct (Z.ltb_spec (8 + (len json + (len payload + len tailing)))
                (8 + len json + len payload)); [lia|].
    rewrite <-Hhead at 1. rewrite zdrop_exact, ztake_exact, (from_to_vec _ _ Hjson).
    rewrite <-Hhead, <-len_app, app_assoc, zdrop_exact, ztake_exact.
    rewrite <-len_app, app_assoc, zdrop_exact. done. }
  cbn [read_all]. rewrite bool_decide_false; [|intros Hn; apply (f_equal len) in Hn;
    rewrite len_app, Hhead in Hn; pose proof (len_nonneg (json ++ payload ++ tailing));
    change (len []) with 0 in Hn; lia].
  rewrite Hread. subst tailing. rewrite (IH parts' fuel Hw); [done|].
  rewrite !length_app in Hfuel. cbn [length to_be_bytes] in Hfuel. lia.
Qed.

(** The buffer between two polls. *)
Definition BUFFER_BOUND : Z := 8 + MAX_METADATA_BYTES + MAX_PAYLOAD_BYTES + CHUNK.
Lemma poll_bounded b reads outcome b' reads' :
  len b ≤ BUFFER_BOUND →
  Forall (λ r, len (content r) ≤ CHUNK) reads →
  poll b reads = Ok (outcome, b', reads') →
  len b' ≤ BUFFER_BOUND ∧ Forall (λ r, len (content r) ≤ CHUNK) reads'.
Proof.
  intros Hb Hreads. unfold poll. pose proof (decode_ready_read_frame b []) as Hd.
  assert (Ht : Forall (λ r, len (content r) ≤ CHUNK) (tail reads)).
  { destruct reads; [done|]. by apply Forall_cons in Hreads as [_ ?]. }
  destruct (decode_ready b) as [[[[control payload]|] b0]|e]; cbn [mbind result_bind].
  - intros [= <- <- <-]. destruct Hd as [_ Hlt]. split; [lia|done].
  - destruct Hd as (-> & _ & Hsmall).
    destruct reads as [|[[|c chunk]| | |] reads]; cbn [tail] in *.
    + case_bool_decide; [|done]. intros [= <- <- <-]. done.
    + case_bool_decide; [|done]. intros [= <- <- <-]. done.
    + apply Forall_cons in Hreads as [Hc _]. cbn [content] in Hc. unfold after_read.
      pose proof (decode_ready_read_frame (b ++ c :: chunk) []) as Hd.
      destruct (decode_ready (b ++ c :: chunk)) as [[[[control payload]|] b1]|e];
        cbn [mbind result_bind mret result_ret]; [| |done]; intros [= <- <- <-].
      * destruct Hd as [_ Hlt]. rewrite len_app in Hlt. unfold BUFFER_BOUND. split; [lia|done].
      * destruct Hd as (-> & _ & _). rewrite len_app. unfold BUFFER_BOUND. split; [lia|done].
    + intros [= <- <- <-]. done.
    + intros [= <- <- <-]. done.
    + done.
  - done.
Qed.
End Frames.

(** Buffers the reader can have while it polls a stream. *)
Inductive reader_state {T} `{JsonCodec T} (stream : list StreamRead)
  : str → list StreamRead → Prop :=
| reader_start : reader_state stream [] stream
| reader_poll b reads outcome b' reads' :
    reader_state stream b reads → poll b reads = Ok (outcome, b', reads') →
    reader_state stream b' reads'.

(** The incremental reader agrees with the blocking one: however a stream is cut into
    reads and interleaved with timeouts, polling it gives exactly the frames and the ending
    that [read_frame] gives on the whole stream, and both terminate. *)
Theorem incremental_reader_agrees {T} `{CD : JsonCodec T} (reads : list StreamRead) fuel fuel' :
  Forall midstream reads →
  let stream := concat (content <$> reads) in
  (length reads + length stream < fuel)%nat → (length stream < fuel')%nat →
  poll_all fuel [] reads = read_all fuel' stream ∧ is_Some (read_all fuel' stream).
Proof.
  intros Hmid stream Hfuel Hfuel'. split.
  - apply (poll_all_read_all fuel [] reads fuel'); [done| |done].
    fold stream. cbn [length]. lia.
  - by apply read_all_total.
Qed.

(** Frames survive the wire: frames that [write_frame] accepts, sent back to back and
    delivered in any pieces, are polled in order and the stream then ends cleanly. *)
Theorem frames_roundtrip {T} `{CD : JsonCodec T, !JsonCodecLaws T} frames parts reads fuel :
  Forall2 (λ frame part, write_frame frame.1 frame.2 = Ok part) frames parts →
  Forall midstream reads → concat (content <$> reads) = concat parts →
  (length reads + length (concat parts) < fuel)%nat →
  poll_all fuel [] reads = Some (frames, ReadingClosed).
Proof.
  intros Hw Hmid Hs Hfuel.
  rewrite (poll_all_read_all fuel [] reads (S (length (concat parts))) Hmid);
    rewrite ?Hs; cbn [length app]; [|lia..].
  apply (read_all_written frames parts); [done|lia].
Qed.

(** The buffer of the reader is bounded on every stream, whatever its bytes claim. *)
Theorem frame_reader_bounded {T} `{CD : JsonCodec T} (stream : list StreamRead) b reads :
  Forall (λ r, len (content r) ≤ CHUNK) stream → reader_state stream b reads →
  len b ≤ BUFFER_BOUND.
Proof.
  intros Hstream Hb.
  enough (len b ≤ BUFFER_BOUND ∧ Forall (λ r, len (content r) ≤ CHUNK) reads) by tauto.
  induction Hb as [|b reads outcome b' reads' _ [IH1 IH2] Hp]; [by split; [vm_compute|]|].
  by eapply poll_bounded.
Qed.

(** ** Vectors *)
Lemma len_to_le_bytes n : len (to_le_bytes n) = 4.
Proof. done. Qed.

Lemma chunks_exact_concat size ls : 0 < size → Forall (λ l, len l = size) ls →
  ∀ fuel, (length ls ≤ fuel)%nat → chunks_exact fuel size (concat ls) = ls.
Proof.
  intros Hsize. induction 1 as [|l ls Hl Hls IH]; intros fuel Hfuel; destruct fuel as [|fuel];
    simpl in Hfuel; try lia; cbn [chunks_exact concat]; [done| |].
  - change (len []) with 0. destruct (Z.ltb_spec 0 size); [done|lia].
  - rewrite len_app, Hl. pose proof (len_nonneg (concat ls)).
    destruct (Z.ltb_spec (size + len (concat ls)) size); [lia|].
    assert (ztake size (l ++ concat ls) = l ∧ zdrop size (l ++ concat ls) = concat ls) as [-> ->]
      by (by rewrite <-Hl, ztake_exact, zdrop_exact).
    by rewrite IH by lia.
Qed.

Lemma len_concat size (ls : list str) : Forall (λ l, len l = size) ls →
  len (concat ls) = size * len ls.
Proof.
  induction 1 as [|l ls Hl _ IH]; cbn [concat]; [change (len []) with 0; lia|].
  rewrite len_app, len_cons, IH, Hl. lia.
Qed.

Lemma len_concat_bytes v : len (concat (to_le_bytes <$> v)) = 4 * len v.
Proof.
  rewrite (len_concat 4).
  - by unfold len; rewrite length_fmap.
  - rewrite Forall_fmap. apply Forall_true. intros n. apply len_to_le_bytes.
Qed.

(** Vectors survive the wire: what the server encodes, the client decodes to the same
    vectors, bit for bit, and the payload has the announced size. *)
Theorem vectors_roundtrip vectors payload :
  encode_vectors vectors = Ok payload → Forall (Forall (in_range u32_max)) vectors →
  decode_vectors (len vectors) RETRIEVAL_EMBEDDING_DIM payload = Ok vectors ∧
  len payload = len vectors * RETRIEVAL_EMBEDDING_DIM * 4 ∧ len payload ≤ MAX_PAYLOAD_BYTES.
Proof.
  unfold encode_vectors. destruct (_ || _) eqn:Hshape; [done|]. intros He Hbits.
  apply orb_false_iff in Hshape as [Hcount Hdim].
  assert (Hlen : Forall (λ v, len v = RETRIEVAL_EMBEDDING_DIM) vectors).
  { apply List.Forall_forall. intros v Hv. apply Bool.not_true_iff_false in Hdim.
    destruct (Z.eqb_spec (len v) RETRIEVAL_EMBEDDING_DIM) as [|Hn]; [done|]. destruct Hdim.
    apply existsb_exists. exists v. split; [done|]. by apply negb_true_iff, Z.eqb_neq. }
  set (DIM := RETRIEVAL_EMBEDDING_DIM) in *. assert (HDIM : DIM = 768) by done.
  unfold MAX_DOCUMENT_COUNT in Hcount. pose proof (len_nonneg vectors).
  assert (Hmul : (checked_mul usize_max (len vectors) DIM
                    ≫= λ values, checked_mul usize_max values 4) = Some (len vectors * DIM * 4)).
  { unfold checked_mul, usize_max, u64_max. rewrite decide_True by lia. cbn [mbind option_bind].
    by rewrite decide_True by lia. }
  rewrite Hmul in He. cbn [ok_or mbind result_bind] in He.
  destruct (Z.ltb_spec MAX_PAYLOAD_BYTES (len vectors * DIM * 4)) as [|Hmax]; [done|].
  assert (payload = concat ((λ v, concat (to_le_bytes <$> v)) <$> vectors)) as -> by (by injection He).
  clear He. set (rows := (λ v, concat (to_le_bytes <$> v)) <$> vectors) in *.
  assert (Hrows : Forall (λ row, len row = DIM * 4) rows).
  { unfold rows. rewrite Forall_fmap. eapply Forall_impl; [exact Hlen|]. intros v Hv. cbn.
    rewrite len_concat_bytes, Hv. lia. }
  assert (Hpayload : len (concat rows) = len vectors * DIM * 4).
  { rewrite (len_concat (DIM * 4)) by done. unfold rows, len at 1. rewrite length_fmap.
    fold (len vectors). lia. }
  split; [|split; [done|by rewrite Hpayload]].
  unfold decode_vectors. fold DIM. rewrite Z.eqb_refl. cbn [negb]. rewrite Hmul.
  cbn [ok_or mbind result_bind]. rewrite Hpayload, Z.eqb_refl. cbn [negb]. f_equal.
  rewrite (chunks_exact_concat (DIM * 4)); [|lia|done|].
  2: { assert (len rows ≤ len (concat rows)); [|unfold len in *; lia].
       rewrite (len_concat (DIM * 4)) by done. pose proof (len_nonneg rows). lia. }
  unfold rows. rewrite <-list_fmap_compose. rewrite <-(list_fmap_id vectors) at 2.
  apply list_fmap_ext. intros i v Hv. cbn.
  pose proof (Forall_lookup_1 _ _ _ _ Hbits Hv) as Hv'. cbn in Hv'.
  rewrite (chunks_exact_concat 4); [|lia| |].
  - rewrite <-list_fmap_compose. rewrite <-(list_fmap_id v) at 2. apply list_fmap_ext.
    intros j n Hn. cbn. apply from_to_le_bytes. exact (Forall_lookup_1 _ _ _ _ Hv' Hn).
  - rewrite Forall_fmap. apply Forall_true. intros n. apply len_to_le_bytes.
  - rewrite length_fmap. pose proof (len_concat_bytes v). unfold len in *. lia.
Qed.

(** ** Samples *)
Module FrameSample.
(** A codec: a control part is its own nonempty encoding. *)
#[local] Instance plain_codec : JsonCodec str :=
  {| to_vec t := match t with [] => Err FrameJson | _ => Ok t end; from_slice b := Ok b |}.
Lemma plain_codec_laws : JsonCodecLaws str.
Proof. split; intros [|c t] b; cbn; congruence. Qed.

Definition frames : list (str * str) := [(lit "hello", lit "payload"); (lit "bye", [])].
Definition written (frame : str * str) : str :=
  match write_frame frame.1 frame.2 with Ok part => part | Err _ => [] end.
Definition parts : list str := written <$> frames.
(** The first frame comes in two pieces, around a timeout. *)
Definition reads : list StreamRead :=
  [ReadBytes (take 3 (concat parts)); ReadTimedOut; ReadBytes (drop 3 (concat parts))].
Definition decoded : option (list (str * str) * ReadingEnd) := poll_all 64 [] reads.
Definition blocking : option (list (str * str) * ReadingEnd) :=
  read_all 64 (concat (content <$> reads)).
Definition codec : JsonCodec str := plain_codec.

Definition vector : list Z := replicate 768 1065353216.
Definition vector_payload : str :=
  match encode_vectors [vector] with Ok payload => payload | Err _ => [] end.
End FrameSample.

Lemma incremental_reader_agrees_witness :
  FrameSample.decoded = FrameSample.blocking ∧ is_Some FrameSample.blocking.
Proof.
  apply (incremental_reader_agrees (CD := FrameSample.codec) FrameSample.reads 64 64).
  - by repeat (apply List.Forall_cons; [vm_compute; try done; auto|]).
  - vm_compute. lia.
  - vm_compute. lia.
Defined.

Lemma frames_roundtrip_witness :
  FrameSample.decoded = Some (FrameSample.frames, ReadingClosed).
Proof.
  apply (frames_roundtrip (CD := FrameSample.codec) (JsonCodecLaws0 := FrameSample.plain_codec_laws)
    FrameSample.frames FrameSample.parts FrameSample.reads 64).
  - constructor; [reflexivity|]. constructor; [reflexivity|]. constructor.
  - by repeat (apply List.Forall_cons; [vm_compute; try done; auto|]).
  - reflexivity.
  - vm_compute. lia.
Defined.

Lemma vectors_roundtrip_witness :
  decode_vectors 1 RETRIEVAL_EMBEDDING_DIM FrameSample.vector_payload = Ok [FrameSample.vector].
Proof.
  apply (vectors_roundtrip [FrameSample.vector] FrameSample.vector_payload).
  - vm_compute. reflexivity.
  - apply List.Forall_cons; [|constructor]. apply Forall_replicate.
    unfold in_range, u32_max. lia.
Defined.
