(* ===== verification/ServerState.v ===== *)
(** * State of the per-user embedding server

    codestory-retrieval/src/per_user_embedding/admission.rs (the front door: permits of
    the two request classes) and server/state.rs (active requests, cancellations, drain
    flags, connection counts).  Each operation is the function of the state that runs
    under its lock; the reads of the clock are arguments.  [Arc]s are ids into stores: a
    permit is an entry of [permits], a request's context the address of its cell.  Locks
    are never poisoned here.

    Then: the server's front door and cancellation; draining the per-user embedding server. *)
From S2P Require Import Prelude RustStr Admission.

(** ** The front door *)
Record ServerRequestAdmissionDepths : Type := mkDepths { depth_query : Z; depth_bulk : Z }.
#[export] Instance depths_eq_dec : EqDecision ServerRequestAdmissionDepths.
Proof. solve_decision. Defined.
Definition no_depths : ServerRequestAdmissionDepths := {| depth_query := 0; depth_bulk := 0 |}.

Definition class_depth (d : ServerRequestAdmissionDepths) (c : EmbeddingRequestClass) : Z :=
  match c with
  | EmbeddingRequestClass.Query => depth_query d
  | EmbeddingRequestClass.Bulk => depth_bulk d
  end.
Definition class_capacity (c : EmbeddingRequestClass) : Z :=
  match c with
  | EmbeddingRequestClass.Query => EMBEDDING_QUERY_QUEUE_CAPACITY
  | EmbeddingRequestClass.Bulk => EMBEDDING_BULK_QUEUE_CAPACITY
  end.
Definition increment (c : EmbeddingRequestClass) (d : ServerRequestAdmissionDepths)
  : ServerRequestAdmissionDepths :=
  match c with
  | EmbeddingRequestClass.Query =>
      {| depth_query := wrapping_add usize_max (depth_query d) 1; depth_bulk := depth_bulk d |}
  | EmbeddingRequestClass.Bulk =>
      {| depth_query := depth_query d; depth_bulk := wrapping_add usize_max (depth_bulk d) 1 |}
  end.
Definition decrement (c : EmbeddingRequestClass) (d : ServerRequestAdmissionDepths)
  : ServerRequestAdmissionDepths :=
  match c with
  | EmbeddingRequestClass.Query =>
      {| depth_query := saturating_sub (depth_query d) 1; depth_bulk := depth_bulk d |}
  | EmbeddingRequestClass.Bulk =>
      {| depth_query := depth_query d; depth_bulk := saturating_sub (depth_bulk d) 1 |}
  end.

(** The shared part of a permit's clones. *)
Record Permit : Type := mkPermit { permit_class : EmbeddingRequestClass; released : bool }.
Record ServerRequestAdmission : Type := mkServerRequestAdmission {
  depths : ServerRequestAdmissionDepths;
  permits : gmap nat Permit;
  next_permit : nat;
}.
Definition default_front : ServerRequestAdmission :=
  {| depths := no_depths; permits := ∅; next_permit := 0 |}.

Definition try_acquire (class : EmbeddingRequestClass) (active_execution : bool)
    (a : ServerRequestAdmission)
  : result ServerRequestAdmissionDepths nat * ServerRequestAdmission :=
  let in_flight_capacity :=
    saturating_add usize_max (class_capacity class) (usize_from_bool active_execution) in
  if in_flight_capacity <=? class_depth (depths a) class then (Err (depths a), a)
  else
    (Ok (next_permit a),
     {| depths := increment class (depths a);
        permits := <[next_permit a := {| permit_class := class; released := false |}]> (permits a);
        next_permit := S (next_permit a) |}).

(** [release] of a permit, which is also the drop of any of its clones. *)
Definition permit_release (id : nat) (a : ServerRequestAdmission) : ServerRequestAdmission :=
  match permits a !! id with
  | Some {| permit_class := class; released := false |} =>
      {| depths := decrement class (depths a);
         permits := <[id := {| permit_class := class; released := true |}]> (permits a);
         next_permit := next_permit a |}
  | _ => a
  end.

(** ** Requests *)
Record ActiveServerRequest : Type := mkActiveServerRequest {
  sr_request_id : str;
  sr_scope_id : str;
  sr_class : EmbeddingRequestClass;
  sr_phase : str;
  sr_started_ns : Z;
}.
Record ServerCancellationAuth : Type := mkServerCancellationAuth {
  auth_token : str;
  auth_client_pid : Z;
  auth_client_process_start_id : str;
}.
#[export] Instance auth_eq_dec : EqDecision ServerCancellationAuth.
Proof. solve_decision. Defined.
Record ServerCancellation : Type := mkServerCancellation {
  can_cell : nat;
  can_permit : nat;
  can_auth : option ServerCancellationAuth;
}.
Record ServerRequestRegistration : Type := mkServerRequestRegistration {
  reg_connection_id : str;
  reg_request_id : str;
  reg_scope_id : str;
  reg_class : EmbeddingRequestClass;
  reg_phase : str;
  reg_cell : nat;
  reg_permit : nat;
  reg_auth : option ServerCancellationAuth;
}.
Record EmbeddingServerFailureSnapshot : Type := mkFailureSnapshot {
  fail_code : str;
  fail_retry_class : str;
  fail_retry_after_ms : Z;
  fail_retry_condition : str;
}.

Definition request_key (connection_id request_id : str) : str :=
  connection_id ++ lit ":" ++ request_id.

(** The engine slot: the engine's admission snapshot once it is initialized. *)
Record ServerState : Type := mkServerState {
  engine : option EmbeddingAdmissionSnapshot;
  engine_locked : bool;
  connections : Z;
  pre_request_connections : Z;
  front : ServerRequestAdmission;
  active_requests : gmap str ActiveServerRequest;
  cancellations : gmap str ServerCancellation;
  cells : gmap nat RequestCell;
  draining : bool;
  stopped : bool;
  last_work_ended_ns : Z;
  events : Z;
  last_failure : option EmbeddingServerFailureSnapshot;
}.

Definition with_front (f : ServerRequestAdmission) (s : ServerState) : ServerState :=
  {| engine := engine s; engine_locked := engine_locked s; connections := connections s;
     pre_request_connections := pre_request_connections s; front := f;
     active_requests := active_requests s; cancellations := cancellations s; cells := cells s;
     draining := draining s; stopped := stopped s; last_work_ended_ns := last_work_ended_ns s;
     events := events s; last_failure := last_failure s |}.
Definition with_tables (a : gmap str ActiveServerRequest) (c : gmap str ServerCancellation)
    (s : ServerState) : ServerState :=
  {| engine := engine s; engine_locked := engine_locked s; connections := connections s;
     pre_request_connections := pre_request_connections s; front := front s;
     active_requests := a; cancellations := c; cells := cells s;
     draining := draining s; stopped := stopped s; last_work_ended_ns := last_work_ended_ns s;
     events := events s; last_failure := last_failure s |}.
Definition with_cell_store (m : gmap nat RequestCell) (s : ServerState) : ServerState :=
  {| engine := engine s; engine_locked := engine_locked s; connections := connections s;
     pre_request_connections := pre_request_connections s; front := front s;
     active_requests := active_requests s; cancellations := cancellations s; cells := m;
     draining := draining s; stopped := stopped s; last_work_ended_ns := last_work_ended_ns s;
     events := events s; last_failure := last_failure s |}.
Definition with_draining (b : bool) (s : ServerState) : ServerState :=
  {| engine := engine s; engine_locked := engine_locked s; connections := connections s;
     pre_request_connections := pre_request_connections s; front := front s;
     active_requests := active_requests s; cancellations := cancellations s; cells := cells s;
     draining := b; stopped := stopped s; last_work_ended_ns := last_work_ended_ns s;
     events := events s; last_failure := last_failure s |}.
Definition with_engine (e : option EmbeddingAdmissionSnapshot) (s : ServerState) : ServerState :=
  {| engine := e; engine_locked := engine_locked s; connections := connections s;
     pre_request_connections := pre_request_connections s; front := front s;
     active_requests := active_requests s; cancellations := cancellations s; cells := cells s;
     draining := draining s; stopped := stopped s; last_work_ended_ns := last_work_ended_ns s;
     events := events s; last_failure := last_failure s |}.
Definition with_connections (n pre : Z) (s : ServerState) : ServerState :=
  {| engine := engine s; engine_locked := engine_locked s; connections := n;
     pre_request_connections := pre; front := front s;
     active_requests := active_requests s; cancellations := cancellations s; cells := cells s;
     draining := draining s; stopped := stopped s; last_work_ended_ns := last_work_ended_ns s;
     events := events s; last_failure := last_failure s |}.

Definition restart_idle_window (now : Z) (s : ServerState) : ServerState :=
  {| engine := engine s; engine_locked := engine_locked s; connections := connections s;
     pre_request_connections := pre_request_connections s; front := front s;
     active_requests := active_requests s; cancellations := cancellations s; cells := cells s;
     draining := draining s; stopped := stopped s; last_work_ended_ns := now;
     events := events s; last_failure := last_failure s |}.
Definition bump_event (s : ServerState) : ServerState :=
  {| engine := engine s; engine_locked := engine_locked s; connections := connections s;
     pre_request_connections := pre_request_connections s; front := front s;
     active_requests := active_requests s; cancellations := cancellations s; cells := cells s;
     draining := draining s; stopped := stopped s; last_work_ended_ns := last_work_ended_ns s;
     events := wrapping_add u64_max (events s) 1; last_failure := last_failure s |}.
Definition record_failure (f : EmbeddingServerFailureSnapshot) (s : ServerState) : ServerState :=
  bump_event
    {| engine := engine s; engine_locked := engine_locked s; connections := connections s;
       pre_request_connections := pre_request_connections s; front := front s;
       active_requests := active_requests s; cancellations := cancellations s; cells := cells s;
       draining := draining s; stopped := stopped s; last_work_ended_ns := last_work_ended_ns s;
       events := events s; last_failure := Some f |}.

(** ** The engine slot *)
Inductive ServerError : Type :=
| ServerDraining
| DuplicateRequestId
| EngineInitialization (message : str).

(** [try_lock] fails while another thread holds the slot for a cold load. *)
Definition try_initialized_engine (s : ServerState) : option EmbeddingAdmissionSnapshot :=
  if engine_locked s then None else engine s.

Definition server_engine (initialize : result str EmbeddingAdmissionSnapshot) (s : ServerState)
  : result ServerError EmbeddingAdmissionSnapshot * ServerState :=
  if draining s then (Err ServerDraining, s)
  else
    match engine s with
    | Some e => (Ok e, s)
    | None =>
        match initialize with
        | Err message => (Err (EngineInitialization message), s)
        | Ok e => (Ok e, bump_event (with_engine (Some e) s))
        end
    end.
Definition shutdown_engine (s : ServerState) : ServerState := with_engine None s.

(** ** Admission errors *)
Record EmbeddingCapacityPressureWire : Type := mkPressureWire {
  wire_reason : str;
  wire_queue_class : str;
  wire_capacity : Z;
  wire_depth : Z;
  wire_retry_after_ms : Z;
  wire_retry_condition : str;
  wire_owner_state : str;
  wire_active_scope_id : option str;
  wire_active_request_id : option str;
  wire_active_request_class : option str;
}.
Record EmbeddingProtocolError : Type := mkProtocolError {
  err_code : str;
  err_message : str;
  err_retry_class : str;
  err_retry_after_ms : Z;
  err_retry_condition : str;
  err_capacity : option EmbeddingCapacityPressureWire;
}.

(** The order of a [BTreeMap<String, _>]: the bytes of the keys. *)
Fixpoint str_leb (a b : str) : bool :=
  match a, b with
  | [], _ => true
  | _, [] => false
  | x :: a, y :: b =>
      (N_of_ascii x <? N_of_ascii y)%N || ((N_of_ascii x =? N_of_ascii y)%N && str_leb a b)
  end.
Definition key_le {A} (a b : str * A) : Prop := str_leb a.1 b.1 = true.
#[export] Instance key_le_dec {A} : RelDecision (@key_le A).
Proof. intros a b. unfold key_le. apply _. Defined.
Definition btree_values {A} (m : gmap str A) : list A := snd <$> merge_sort key_le (map_to_list m).

Definition reported_owner_state (s : ServerState) : EmbeddingOwnerState :=
  match try_initialized_engine s with Some e => as_owner_state e | None => Waking end.

Definition pressure_wire (reason queue_class : str) (capacity depth retry_after : Z)
    (retry_condition : str) (s : ServerState) : EmbeddingCapacityPressureWire :=
  let first := head (btree_values (active_requests s)) in
  {| wire_reason := reason; wire_queue_class := queue_class; wire_capacity := capacity;
     wire_depth := depth; wire_retry_after_ms := retry_after;
     wire_retry_condition := retry_condition;
     wire_owner_state := owner_state_as_str (reported_owner_state s);
     wire_active_scope_id := sr_scope_id <$> first;
     wire_active_request_id := sr_request_id <$> first;
     wire_active_request_class := (λ r, request_class_as_str (sr_class r)) <$> first |}.

(** Whether the engine executes a request of the class: one more may be in flight. *)
Definition active_execution (class : EmbeddingRequestClass) (s : ServerState) : bool :=
  match try_initialized_engine s ≫= as_active_request with
  | Some a => bool_decide (ars_request_class a = class)
  | None => false
  end.

Definition try_admit_request (class : EmbeddingRequestClass) (retry_after : Z) (s : ServerState)
  : result EmbeddingProtocolError nat * ServerState :=
  let active_execution := active_execution class s in
  match try_acquire class active_execution (front s) with
  | (Ok permit, front') => (Ok permit, with_front front' s)
  | (Err depths, _) =>
      let pressure := pressure_wire (capacity_reason_as_str QueueFull) (request_class_as_str class)
        (class_capacity class)
        (saturating_sub (class_depth depths class) (usize_from_bool active_execution))
        retry_after (lit "an admitted request completes or is cancelled") s in
      (Err {| err_code := lit "embedding_capacity";
              err_message := request_class_as_str class ++ lit " request admission is full";
              err_retry_class := lit "after_capacity_change"; err_retry_after_ms := retry_after;
              err_retry_condition := wire_retry_condition pressure;
              err_capacity := Some pressure |}, s)
  end.

Definition connection_capacity_error (reason : str) (capacity depth retry_after : Z)
    (s : ServerState) : EmbeddingProtocolError :=
  let pressure := pressure_wire reason (lit "connection") capacity depth retry_after
    (lit "an authenticated connection handler completes") s in
  {| err_code := lit "embedding_capacity"; err_message := lit "embedding connection admission is full";
     err_retry_class := lit "after_capacity_change";
     err_retry_after_ms := wire_retry_after_ms pressure;
     err_retry_condition := wire_retry_condition pressure; err_capacity := Some pressure |}.

(** ** Connections *)
Definition SERVER_CONTROL_CONNECTION_RESERVE : Z := 8.
Definition SERVER_REJECTION_CONNECTION_RESERVE : Z := 8.
Definition SERVER_CONNECTION_HANDLER_CAPACITY : Z :=
  EMBEDDING_QUERY_QUEUE_CAPACITY + EMBEDDING_BULK_QUEUE_CAPACITY
  + SERVER_CONTROL_CONNECTION_RESERVE.
Definition SERVER_TOTAL_CONNECTION_HANDLER_CAPACITY : Z :=
  SERVER_CONNECTION_HANDLER_CAPACITY + SERVER_REJECTION_CONNECTION_RESERVE.

(** [true] when a guard was handed out. *)
Definition try_begin_connection (s : ServerState) : bool * ServerState :=
  if connections s <? SERVER_CONNECTION_HANDLER_CAPACITY
  then (true, bump_event (with_connections (connections s + 1) (pre_request_connections s) s))
  else (false, s).
Definition try_begin_rejection_connection (s : ServerState) : bool * ServerState :=
  if connections s <? SERVER_TOTAL_CONNECTION_HANDLER_CAPACITY
  then (true, bump_event (with_connections (connections s + 1) (pre_request_connections s) s))
  else (false, s).
Definition drop_connection (s : ServerState) : ServerState :=
  bump_event (with_connections (wrapping_sub usize_max (connections s) 1)
                (pre_request_connections s) s).
Definition try_begin_pre_request (s : ServerState) : bool * ServerState :=
  if pre_request_connections s <? SERVER_CONTROL_CONNECTION_RESERVE
  then (true, with_connections (connections s) (pre_request_connections s + 1) s)
  else (false, s).
Definition drop_pre_request (s : ServerState) : ServerState :=
  with_connections (connections s) (wrapping_sub usize_max (pre_request_connections s) 1) s.

(** ** Requests in flight *)

(** The part of [begin_request] under the table locks. *)
Definition insert_request (r : ServerRequestRegistration) (now : Z) (s : ServerState)
  : ServerState :=
  let key := request_key (reg_connection_id r) (reg_request_id r) in
  bump_event (with_tables
    (<[key := {| sr_request_id := reg_request_id r; sr_scope_id := reg_scope_id r;
                 sr_class := reg_class r; sr_phase := reg_phase r; sr_started_ns := now |}]>
       (active_requests s))
    (<[key := {| can_cell := reg_cell r; can_permit := reg_permit r; can_auth := reg_auth r |}]>
       (cancellations s)) s).

(** [Ok key] is the guard; on an error the registration's permit is dropped. *)
Definition begin_request (r : ServerRequestRegistration) (now : Z) (s : ServerState)
  : result ServerError str * ServerState :=
  let key := request_key (reg_connection_id r) (reg_request_id r) in
  if draining s then (Err ServerDraining, with_front (permit_release (reg_permit r) (front s)) s)
  else
    match active_requests s !! key with
    | Some _ => (Err DuplicateRequestId, with_front (permit_release (reg_permit r) (front s)) s)
    | None => (Ok key, insert_request r now s)
    end.

(** Whether an entry answers to the request id and the credentials. *)
Definition cancellable (target token : str) (client_pid : Z) (start_id : str)
    (entry : str * ServerCancellation) : bool :=
  ends_with entry.1 (lit ":" ++ target)
  && match can_auth entry.2 with
     | Some auth => str_eqb (auth_token auth) token && (auth_client_pid auth =? client_pid)
                    && str_eqb (auth_client_process_start_id auth) start_id
     | None => false
     end.

Definition cell_of (s : ServerState) (address : nat) : RequestCell :=
  default new_cell (cells s !! address).

Definition server_cancel (target token : str) (client_pid : Z) (start_id : str) (s : ServerState)
  : bool * ServerState :=
  match List.filter (cancellable target token client_pid start_id) (map_to_list (cancellations s)) with
  | [(_, found)] =>
      let '(c, cancelled) := cancel (cell_of s (can_cell found)) in
      let s := with_cell_store (<[can_cell found := c]> (cells s)) s in
      (cancelled, if cancelled then with_front (permit_release (can_permit found) (front s)) s else s)
  | _ => (false, s)
  end.

Definition update_request_phase (key phase : str) (s : ServerState) : ServerState :=
  match active_requests s !! key with
  | Some r =>
      if str_eqb (sr_phase r) phase then s
      else bump_event (with_tables
        (<[key := {| sr_request_id := sr_request_id r; sr_scope_id := sr_scope_id r;
                     sr_class := sr_class r; sr_phase := phase;
                     sr_started_ns := sr_started_ns r |}]> (active_requests s)) (cancellations s) s)
  | None => s
  end.

(** [finish_request], with the drop of the cancellation's permit. *)
Definition remove_active (key : str) (s : ServerState) : ServerState :=
  with_tables (delete key (active_requests s)) (cancellations s) s.
Definition remove_cancellation (key : str) (s : ServerState) : ServerState :=
  let s' := with_tables (active_requests s) (delete key (cancellations s)) s in
  match cancellations s !! key with
  | Some c => with_front (permit_release (can_permit c) (front s)) s'
  | None => s'
  end.
Definition finish_request (key : str) (now : Z) (s : ServerState) : ServerState :=
  bump_event (restart_idle_window now (remove_cancellation key (remove_active key s))).
(** The drop of the request's guard: [finish_request], then its own permit. *)
Definition drop_request_guard (key : str) (permit : nat) (now : Z) (s : ServerState) : ServerState :=
  let s := finish_request key now s in
  with_front (permit_release permit (front s)) s.

(** ** Idleness *)
Definition engine_idle (e : EmbeddingAdmissionSnapshot) : bool :=
  (as_query_depth e =? 0) && (as_bulk_depth e =? 0) && (as_active_request_count e =? 0)
  && (as_lease_count e =? 0).
Definition true_idle (s : ServerState) : bool :=
  if negb (bool_decide (active_requests s = ∅)) then false
  else if negb (bool_decide (depths (front s) = no_depths)) then false
  else match engine s with Some e => engine_idle e | None => true end.

(** [begin_draining_if_idle] without other threads; [engine_drains] is what the engine's
    own [begin_draining_if_idle] answers. *)
Definition server_begin_draining_if_idle (engine_drains : EmbeddingAdmissionSnapshot → bool)
    (s : ServerState) : bool * ServerState :=
  if draining s then (true_idle s, s)
  else
    let s' := with_draining true s in
    if negb (true_idle s') then (false, with_draining false s')
    else
      match engine s' with
      | Some e => if engine_drains e then (true, bump_event s') else (false, with_draining false s')
      | None => (true, bump_event s')
      end.

(** * The server's front door and cancellation

    The depth of a class is the number of its permits that are not released, whatever
    the order of acquisitions, releases and drops; a cancellation reaches exactly the
    request it is authorised for. *)
(** ** Permits *)
Definition live_permit (c : EmbeddingRequestClass) (p : Permit) : Prop :=
  permit_class p = c ∧ released p = false.
#[export] Instance live_permit_dec c p : Decision (live_permit c p).
Proof. unfold live_permit. apply _. Defined.

Definition live (c : EmbeddingRequestClass) (m : gmap nat Permit) : Z :=
  Z.of_nat (size (filter (λ e, live_permit c e.2) m)).

Lemma live_insert c m id p : m !! id = None →
  live c (<[id := p]> m) = live c m + (if decide (live_permit c p) then 1 else 0).
Proof.
  intros Hid. unfold live. destruct (decide (live_permit c p)) as [Hp|Hp].
  - rewrite map_filter_insert_True by done. rewrite map_size_insert_None; [lia|].
    by apply map_lookup_filter_None_2; left.
  - rewrite map_filter_insert_False by done. rewrite delete_id by done. lia.
Qed.

Lemma live_release c m id p : m !! id = Some p → live c m =
  live c (<[id := {| permit_class := permit_class p; released := true |}]> m)
  + (if decide (live_permit c p) then 1 else 0).
Proof.
  intros Hid. rewrite <-(insert_delete_id m id p Hid) at 1.
  rewrite <-(insert_delete_eq m id). rewrite !live_insert by apply lookup_delete_eq.
  destruct (decide (live_permit c {| permit_class := permit_class p; released := true |}))
    as [[_ ?]|_]; [done|]. lia.
Qed.

(** The front door's invariant. *)
Record front_ok (a : ServerRequestAdmission) : Prop := {
  front_depth c : class_depth (depths a) c = live c (permits a);
  front_bound c : live c (permits a) ≤ class_capacity c + 1;
  front_fresh id : is_Some (permits a !! id) → (id < next_permit a)%nat;
}.

Lemma class_capacity_64 c : class_capacity c = 64.
Proof. by destruct c. Qed.
Lemma live_nonneg c m : 0 ≤ live c m.
Proof. unfold live. lia. Qed.

Lemma class_depth_increment c c' d :
  0 ≤ class_depth d c ≤ 65 →
  class_depth (increment c d) c' = class_depth d c' + (if decide (c = c') then 1 else 0).
Proof.
  intros Hd. unfold class_depth, increment in *.
  destruct c, c'; cbn [depth_query depth_bulk]; rewrite ?decide_True by done;
    rewrite ?decide_False by done; try lia;
    apply wrapping_add_small; unfold usize_max, u64_max; lia.
Qed.
Lemma class_depth_decrement c c' d :
  1 ≤ class_depth d c →
  class_depth (decrement c d) c' = class_depth d c' - (if decide (c = c') then 1 else 0).
Proof.
  intros Hd. unfold class_depth, decrement, saturating_sub in *.
  destruct c, c'; cbn [depth_query depth_bulk]; rewrite ?decide_True by done;
    rewrite ?decide_False by done; lia.
Qed.

Lemma try_acquire_ok class active a r a' :
  front_ok a → try_acquire class active a = (r, a') →
  front_ok a' ∧
  match r with
  | Ok id => class_depth (depths a) class < class_capacity class + usize_from_bool active ∧
             permits a !! id = None ∧
             permits a' = <[id := {| permit_class := class; released := false |}]> (permits a)
  | Err d => a' = a ∧ d = depths a ∧
             class_capacity class + usize_from_bool active ≤ class_depth (depths a) class
  end.
Proof.
  intros [Hd Hb Hf]. unfold try_acquire, saturating_add. rewrite class_capacity_64.
  rewrite Z.min_r by (unfold usize_max, u64_max; destruct active; cbn; lia).
  destruct (Z.leb_spec (64 + usize_from_bool active) (class_depth (depths a) class)) as [Hl|Hl].
  { intros [= <- <-]. by split. }
  intros [= <- <-].
  assert (Hnew : permits a !! next_permit a = None).
  { apply eq_None_not_Some. intros Hs. apply Hf in Hs. lia. }
  pose proof (live_nonneg class (permits a)) as Hn. pose proof (Hd class) as Hdc.
  assert (Hle : usize_from_bool active ≤ 1) by (destruct active; cbn; lia).
  split; [|done]. split; cbn.
  - intros c. rewrite live_insert by done. rewrite class_depth_increment by lia. rewrite Hd.
    destruct (decide (class = c)) as [<-|Hc]; [by rewrite decide_True|].
    rewrite decide_False; [done|]. by intros [? _].
  - intros c. rewrite live_insert by done. rewrite class_capacity_64.
    destruct (decide (live_permit c _)) as [[Hc _]|_].
    + cbn in Hc. subst c. lia.
    + specialize (Hb c). rewrite class_capacity_64 in Hb. lia.
  - intros id. rewrite lookup_insert_is_Some. intros [<-|[_ Hs]]; [lia|]. apply Hf in Hs. lia.
Qed.

Lemma permit_release_ok id a : front_ok a → front_ok (permit_release id a).
Proof.
  intros [Hd Hb Hf]. unfold permit_release.
  destruct (permits a !! id) as [[class [|]]|] eqn:Hid; [done| |done].
  pose proof (live_release class _ _ _ Hid) as Hcl. cbn in Hcl.
  rewrite decide_True in Hcl by done.
  set (m := <[id := {| permit_class := class; released := true |}]> (permits a)) in *.
  split; cbn.
  - intros c. rewrite class_depth_decrement.
    + rewrite Hd, (live_release c _ _ _ Hid). cbn [permit_class]. fold m.
      destruct (decide (class = c)) as [<-|Hc]; [rewrite decide_True by done; lia|].
      rewrite decide_False; [lia|]. by intros [? _].
    + rewrite Hd, Hcl. pose proof (live_nonneg class m). lia.
  - intros c. specialize (Hb c). rewrite (live_release c _ _ _ Hid) in Hb.
    cbn [permit_class] in Hb. fold m in Hb. destruct (decide _); lia.
  - intros id'. unfold m. rewrite lookup_insert_is_Some. intros [<-|[_ Hs]]; auto.
Qed.

(** The permits a release leaves alone, and the one it releases. *)
Lemma permit_release_lookup id a id' :
  permits (permit_release id a) !! id' =
    (if decide (id = id') then (λ p, {| permit_class := permit_class p; released := true |})
                                 <$> permits a !! id'
     else permits a !! id').
Proof.
  unfold permit_release. destruct (decide (id = id')) as [<-|Hne].
  - destruct (permits a !! id) as [[class [|]]|] eqn:Hid; cbn; rewrite ?Hid; [done| |done].
    by rewrite lookup_insert_eq.
  - destruct (permits a !! id) as [[class [|]]|]; cbn; [done| |done]. by rewrite lookup_insert_ne.
Qed.

Inductive FrontOp : Set :=
| FAcquire (class : EmbeddingRequestClass) (active_execution : bool)
| FRelease (permit : nat).
Definition front_step (a : ServerRequestAdmission) (op : FrontOp) : ServerRequestAdmission :=
  match op with
  | FAcquire class active => (try_acquire class active a).2
  | FRelease id => permit_release id a
  end.

Lemma default_front_ok : front_ok default_front.
Proof. split; cbn; [by intros []|intros []; by vm_compute|by intros id [? ?]]. Qed.
Lemma front_step_ok a op : front_ok a → front_ok (front_step a op).
Proof.
  intros Ha. destruct op as [class active|id]; cbn; [|by apply permit_release_ok].
  destruct (try_acquire class active a) as [r a'] eqn:Ht.
  by apply (try_acquire_ok _ _ _ _ _ Ha) in Ht as [? _].
Qed.
Lemma front_history_ok ops : front_ok (foldl front_step default_front ops).
Proof.
  induction ops as [|op ops IH] using rev_ind; [apply default_front_ok|].
  rewrite foldl_snoc. by apply front_step_ok.
Qed.

(** The front door counts exactly: after any acquisitions and releases (repeated ones
    included) the depth of a class is the number of its unreleased permits and exceeds
    the capacity by at most the one request in execution; a permit is refused exactly at
    the limit, and releasing it again changes nothing. *)
Theorem front_door_accounting ops class active :
  let a := foldl front_step default_front ops in
  class_depth (depths a) class = live class (permits a) ∧
  live class (permits a) ≤ class_capacity class + 1 ∧
  (is_ok (try_acquire class active a).1 = true ↔
     live class (permits a) < class_capacity class + usize_from_bool active) ∧
  (∀ id, permit_release id (permit_release id a) = permit_release id a).
Proof.
  intros a. pose proof (front_history_ok ops) as Ha. fold a in Ha.
  destruct Ha as [Hd Hb Hf] eqn:HHa. split; [apply Hd|]. split; [apply Hb|]. split.
  - destruct (try_acquire class active a) as [[id|d] a'] eqn:Ht;
      apply (try_acquire_ok _ _ _ _ _ Ha) in Ht as [_ Ht]; rewrite <-(Hd class); cbn.
    + by destruct Ht as [? _].
    + destruct Ht as (_ & _ & Ht). split; [done|lia].
  - intros id. unfold permit_release.
    destruct (permits a !! id) as [[c [|]]|] eqn:Hid; cbn; rewrite ?Hid; [done| |done].
    by rewrite lookup_insert_eq.
Qed.

(** ** Cancellation *)

(** The requests a cancellation is authorised for. *)
Definition authorised (target token : str) (client_pid : Z) (start_id : str) (s : ServerState)
    (key : str) (c : ServerCancellation) : Prop :=
  cancellations s !! key = Some c ∧ ends_with key (lit ":" ++ target) = true ∧
  can_auth c = Some {| auth_token := token; auth_client_pid := client_pid;
                       auth_client_process_start_id := start_id |}.

Lemma cancellable_spec target token client_pid start_id key c :
  cancellable target token client_pid start_id (key, c) = true ↔
  ends_with key (lit ":" ++ target) = true ∧
  can_auth c = Some {| auth_token := token; auth_client_pid := client_pid;
                       auth_client_process_start_id := start_id |}.
Proof.
  unfold cancellable. cbn [fst snd]. rewrite andb_true_iff. apply and_iff_compat_l.
  destruct (can_auth c) as [[t p i]|]; cbn; [|done].
  rewrite !andb_true_iff, !str_eqb_eq, Z.eqb_eq. split; [by intros [[-> ->] ->]|by intros [= -> -> ->]].
Qed.

Lemma authorised_elem target token client_pid start_id s key c :
  authorised target token client_pid start_id s key c ↔
  (key, c) ∈ List.filter (cancellable target token client_pid start_id)
               (map_to_list (cancellations s)).
Proof.
  rewrite list_elem_of_In, List.filter_In, <-list_elem_of_In, elem_of_map_to_list.
  by rewrite cancellable_spec.
Qed.

(** A cancellation reaches only the request it is authorised for: it succeeds exactly
    when one registered request ends in the target id and carries the caller's token and
    process identity, and that request is not settled; then its cell alone is cancelled
    and its permit alone released.  Otherwise no cell and no permit changes. *)
Theorem server_cancel_spec target token client_pid start_id s ok s' :
  server_cancel target token client_pid start_id s = (ok, s') →
  (ok = true ↔ ∃ key c, authorised target token client_pid start_id s key c ∧
     terminal (lifecycle (cell_of s (can_cell c))) = false ∧
     ∀ key' c', authorised target token client_pid start_id s key' c' → key' = key) ∧
  (ok = false → front s' = front s ∧ ∀ n, cell_of s' n = cell_of s n) ∧
  (ok = true → ∃ key c, authorised target token client_pid start_id s key c ∧
     lifecycle (cell_of s' (can_cell c)) = RequestLifecycle.Cancelled ∧
     (∀ n, n ≠ can_cell c → cell_of s' n = cell_of s n) ∧
     front s' = permit_release (can_permit c) (front s)) ∧
  active_requests s' = active_requests s ∧ cancellations s' = cancellations s.
Proof.
  unfold server_cancel. pose proof (authorised_elem target token client_pid start_id s) as Hauth.
  assert (Hnd : NoDup (List.filter (cancellable target token client_pid start_id)
                        (map_to_list (cancellations s))).*1).
  { eapply sublist_NoDup; [apply (NoDup_fst_map_to_list (cancellations s))|].
    clear. induction (map_to_list (cancellations s)) as [|e l IH]; [constructor|].
    cbn [List.filter]. destruct (cancellable _ _ _ _ e); by constructor. }
  destruct (List.filter _ _) as [|[key c] [|[key2 c2] l]] eqn:Hl.
  - intros [= <- <-]. split; [|split; [done|split; done]]. split; [done|].
    intros (key & c & Ha & _). by apply Hauth in Ha as ?%elem_of_nil.
  - assert (Hone : authorised target token client_pid start_id s key c)
      by (apply Hauth; by left).
    assert (Huniq : ∀ key' c', authorised target token client_pid start_id s key' c' →
                      key' = key ∧ c' = c).
    { intros key' c' [= <- <-]%Hauth%list_elem_of_singleton. done. }
    unfold cancel. destruct (terminal (lifecycle (cell_of s (can_cell c)))) eqn:Ht.
    + intros [= <- <-]. split; [|split; [|split; done]].
      * split; [done|]. intros (key' & c' & Ha & Hn & _). apply Huniq in Ha as [_ ->]. congruence.
      * intros _. split; [done|]. intros n. unfold cell_of. cbn.
        destruct (decide (can_cell c = n)) as [<-|Hn]; [by rewrite lookup_insert_eq|].
        by rewrite lookup_insert_ne.
    + intros [= <- <-]. split; [|split; [done|split; [|done]]].
      * split; [|done]. intros _. exists key, c. split; [done|]. split; [done|].
        intros key' c' Ha. by apply Huniq in Ha as [-> _].
      * intros _. exists key, c. split; [done|]. unfold cell_of. cbn.
        rewrite lookup_insert_eq. split; [done|]. split; [|done].
        intros n Hn. by rewrite lookup_insert_ne.
  - intros [= <- <-]. split; [|split; [done|split; done]]. split; [done|].
    intros (key0 & c0 & _ & _ & Hsame). cbn in Hnd. apply NoDup_cons in Hnd as [Hnd _].
    destruct Hnd. rewrite (Hsame key c); [|apply Hauth; by left].
    rewrite (Hsame key2 c2); [|apply Hauth; right; by left]. by left.
Qed.

Module CancelSample.
Definition auth : ServerCancellationAuth :=
  {| auth_token := lit "token"; auth_client_pid := 7; auth_client_process_start_id := lit "p" |}.
Definition entry : ServerCancellation :=
  {| can_cell := 3; can_permit := 0; can_auth := Some auth |}.
Definition st : ServerState :=
  {| engine := None; engine_locked := false; connections := 1; pre_request_connections := 0;
     front := (try_acquire EmbeddingRequestClass.Query false default_front).2;
     active_requests := ∅; cancellations := {[lit "c:r" := entry]};
     cells := {[3%nat := new_cell]}; draining := false; stopped := false;
     last_work_ended_ns := 0; events := 1; last_failure := None |}.
Definition outcome : bool * ServerState := server_cancel (lit "r") (lit "token") 7 (lit "p") st.
End CancelSample.

Lemma server_cancel_spec_witness :
  CancelSample.outcome.1 = true ∧
  front CancelSample.outcome.2 = permit_release 0 (front CancelSample.st).
Proof.
  assert (Hl : List.filter (cancellable (lit "r") (lit "token") 7 (lit "p"))
                 (map_to_list (cancellations CancelSample.st)) = [(lit "c:r", CancelSample.entry)]).
  { unfold CancelSample.st. cbn [cancellations]. rewrite map_to_list_singleton. reflexivity. }
  assert (Ho : CancelSample.outcome = (true, CancelSample.outcome.2)).
  { unfold CancelSample.outcome, server_cancel. rewrite Hl. reflexivity. }
  destruct (server_cancel_spec (lit "r") (lit "token") 7 (lit "p") CancelSample.st true
    CancelSample.outcome.2 Ho) as (_ & _ & Hok & _).
  destruct (Hok eq_refl) as (key & c & Ha & _ & _ & Hf).
  split; [by rewrite Ho|]. rewrite Hf. destruct Ha as [Hc _]. unfold CancelSample.st in Hc.
  cbn [cancellations] in Hc. apply lookup_singleton_Some in Hc as [_ <-]. reflexivity.
Defined.

(** * Draining the per-user embedding server

    server/state.rs ([begin_draining_if_idle], [begin_request], the guards) and
    server/lifecycle.rs (the accept loop), interleaved.  Every step is one critical
    section or one atomic operation of one thread; [begin_request] and
    [begin_draining_if_idle] are split where other threads can run between their
    reads, with the admission gate held in between.  Each handler thread has its own
    connection id, so its request keys are its own.  The gate is free where [gate] is
    [GateFree] and [observing] is [None]: an attempt that finds the flag set holds the
    gate too, but only reads.  The relation follows the server
    until its accept loop leaves; the cleanup after the loop is not part of it. *)
(** ** Threads *)
Inductive Handler : Type :=
| Connected
| Permitted (permit : nat)
| Checked (permit : nat)
| Running (key : str) (permit : nat) (lease : bool)
| Finishing (key : str) (permit : nat) (lease : bool)
| Leased.

(** How far a drain attempt has read, while it holds the gate. *)
Inductive DrainStage : Set := DrainBegun | NoActive | NoPermits | EngineIdle.
#[export] Instance DrainStage_eq_dec : EqDecision DrainStage.
Proof. solve_decision. Defined.
Inductive Gate : Set := GateFree | GateBegin (t : nat) | GateDrain (stage : DrainStage).

Record Server : Type := mkServer {
  state : ServerState;
  gate : Gate;
  threads : gmap nat Handler;
  accepting : bool;
  drained : bool;  (* a drain attempt has returned [true]: history, not read by the code *)
  observing : option DrainStage;  (* an attempt that found the flag set already *)
}.

Definition thread_permit (h : Handler) : option nat :=
  match h with
  | Permitted p | Checked p | Running _ p _ | Finishing _ p _ => Some p
  | _ => None
  end.
Definition thread_lease (h : Handler) : bool :=
  match h with Running _ _ l | Finishing _ _ l => l | Leased => true | _ => false end.

Definition set_thread (t : nat) (h : Handler) (s : ServerState) (w : Server) : Server :=
  {| state := s; gate := gate w; threads := <[t := h]> (threads w); accepting := accepting w;
     drained := drained w; observing := observing w |}.
Definition end_thread (t : nat) (s : ServerState) (w : Server) : Server :=
  {| state := s; gate := gate w; threads := delete t (threads w); accepting := accepting w;
     drained := drained w; observing := observing w |}.
Definition set_gate (g : Gate) (w : Server) : Server :=
  {| state := state w; gate := g; threads := threads w; accepting := accepting w;
     drained := drained w; observing := observing w |}.
Definition set_state (s : ServerState) (w : Server) : Server :=
  {| state := s; gate := gate w; threads := threads w; accepting := accepting w;
     drained := drained w; observing := observing w |}.

Definition set_observing (o : option DrainStage) (answered : bool) (w : Server) : Server :=
  {| state := state w; gate := gate w; threads := threads w; accepting := accepting w;
     drained := answered; observing := o |}.

Definition set_lease_count (n : Z) (e : EmbeddingAdmissionSnapshot) : EmbeddingAdmissionSnapshot :=
  {| as_owner_state := as_owner_state e; as_query_capacity := as_query_capacity e;
     as_query_depth := as_query_depth e; as_bulk_capacity := as_bulk_capacity e;
     as_bulk_depth := as_bulk_depth e; as_active_request_count := as_active_request_count e;
     as_lease_count := n; as_active_request := as_active_request e;
     as_event_sequence := as_event_sequence e; as_progress_sequence := as_progress_sequence e;
     as_query_progress_sequence := as_query_progress_sequence e;
     as_bulk_progress_sequence := as_bulk_progress_sequence e;
     as_completed_request_count := as_completed_request_count e;
     as_cancelled_request_count := as_cancelled_request_count e;
     as_failed_request_count := as_failed_request_count e |}.
Definition add_leases (n : Z) (s : ServerState) : ServerState :=
  with_engine ((λ e, set_lease_count (as_lease_count e + n) e) <$> engine s) s.

(** The condition a stage checks next; at [EngineIdle] the engine itself decides. *)
Definition stage_test (stage : DrainStage) (s : ServerState) : bool :=
  match stage with
  | DrainBegun => bool_decide (active_requests s = ∅)
  | NoActive => bool_decide (depths (front s) = no_depths)
  | NoPermits => match engine s with Some e => engine_idle e | None => true end
  | EngineIdle => true
  end.
Definition next_stage (stage : DrainStage) : option DrainStage :=
  match stage with
  | DrainBegun => Some NoActive
  | NoActive => Some NoPermits
  | NoPermits => Some EngineIdle
  | EngineIdle => None
  end.

Section Steps.
(** The connection id of each handler thread. *)
Variable connection : nat → str.

Inductive server_step (w : Server) : Server → Prop :=
(* the accept loop hands a connection to a new thread *)
| step_accept t :
    threads w !! t = None → accepting w = true →
    server_step w (set_thread t Connected (state w) w)
| step_close t :
    threads w !! t = Some Connected → server_step w (end_thread t (state w) w)
(* [try_admit_request] *)
| step_admit t class retry permit s :
    threads w !! t = Some Connected →
    try_admit_request class retry (state w) = (Ok permit, s) →
    server_step w (set_thread t (Permitted permit) s w)
| step_refuse t class retry e s :
    threads w !! t = Some Connected → try_admit_request class retry (state w) = (Err e, s) →
    server_step w (end_thread t s w)
(* the deadline has passed when the permit arrives *)
| step_admit_late t permit :
    threads w !! t = Some (Permitted permit) →
    server_step w
      (end_thread t (with_front (permit_release permit (front (state w))) (state w)) w)
(* [begin_request]: the check of the drain flag under the gate, then the insertion *)
| step_begin_check t permit :
    threads w !! t = Some (Permitted permit) → gate w = GateFree → draining (state w) = false →
    observing w = None →
    server_step w (set_gate (GateBegin t) (set_thread t (Checked permit) (state w) w))
| step_begin_draining t permit :
    threads w !! t = Some (Permitted permit) → gate w = GateFree → draining (state w) = true →
    observing w = None →
    server_step w
      (end_thread t (with_front (permit_release permit (front (state w))) (state w)) w)
| step_begin_insert t permit r now :
    threads w !! t = Some (Checked permit) → gate w = GateBegin t →
    reg_connection_id r = connection t → reg_permit r = permit →
    active_requests (state w) !! request_key (reg_connection_id r) (reg_request_id r) = None →
    server_step w (set_gate GateFree
      (set_thread t (Running (request_key (reg_connection_id r) (reg_request_id r)) permit false)
         (insert_request r now (state w)) w))
| step_begin_duplicate t permit r :
    threads w !! t = Some (Checked permit) → gate w = GateBegin t →
    reg_connection_id r = connection t → reg_permit r = permit →
    is_Some (active_requests (state w) !! request_key (reg_connection_id r) (reg_request_id r)) →
    server_step w (set_gate GateFree
      (end_thread t (with_front (permit_release permit (front (state w))) (state w)) w))
(* [engine], the cold load included, and whatever the engine does by itself *)
| step_engine_load e :
    gate w = GateFree → draining (state w) = false → engine (state w) = None →
    as_lease_count e = 0 → observing w = None →
    server_step w (set_state (bump_event (with_engine (Some e) (state w))) w)
| step_engine_work e e' :
    engine (state w) = Some e → as_lease_count e' = as_lease_count e →
    server_step w (set_state (with_engine (Some e') (state w)) w)
(* residency leases *)
| step_lease t key permit :
    threads w !! t = Some (Running key permit false) → is_Some (engine (state w)) →
    server_step w (set_thread t (Running key permit true) (add_leases 1 (state w)) w)
| step_lease_drop t key permit now :
    threads w !! t = Some (Running key permit true) →
    server_step w (set_thread t (Running key permit false)
      (bump_event (add_leases (-1) (restart_idle_window now (state w)))) w)
| step_lease_release t now :
    threads w !! t = Some Leased →
    server_step w (end_thread t
      (bump_event (add_leases (-1) (restart_idle_window now (state w)))) w)
| step_phase t key permit lease phase :
    threads w !! t = Some (Running key permit lease) →
    server_step w (set_state (update_request_phase key phase (state w)) w)
(* the drop of the request's guard, its two tables apart *)
| step_finish_active t key permit lease :
    threads w !! t = Some (Running key permit lease) →
    server_step w (set_thread t (Finishing key permit lease) (remove_active key (state w)) w)
| step_finish_leased t key permit now :
    threads w !! t = Some (Finishing key permit true) →
    server_step w (set_thread t Leased
      (let s := bump_event (restart_idle_window now (remove_cancellation key (state w))) in
       with_front (permit_release permit (front s)) s) w)
| step_finish t key permit now :
    threads w !! t = Some (Finishing key permit false) →
    server_step w (end_thread t
      (let s := bump_event (restart_idle_window now (remove_cancellation key (state w))) in
       with_front (permit_release permit (front s)) s) w)
(* a [Cancel] of another connection *)
| step_cancel target token pid start :
    server_step w (set_state (server_cancel target token pid start (state w)).2 w)
(* [begin_draining_if_idle] *)
| step_drain_begin :
    gate w = GateFree → draining (state w) = false → observing w = None →
    server_step w (set_gate (GateDrain DrainBegun) (set_state (with_draining true (state w)) w))
| step_drain_next stage stage' :
    gate w = GateDrain stage → stage_test stage (state w) = true →
    next_stage stage = Some stage' → server_step w (set_gate (GateDrain stage') w)
| step_drain_rollback stage :
    gate w = GateDrain stage → stage_test stage (state w) = false ∨ stage = EngineIdle →
    server_step w (set_gate GateFree (set_state (with_draining false (state w)) w))
| step_drain_commit :
    gate w = GateDrain EngineIdle →
    server_step w {| state := bump_event (state w); gate := GateFree; threads := threads w;
                     accepting := accepting w; drained := true; observing := observing w |}
(* [begin_draining_if_idle] where the flag is set already: it answers [true_idle] *)
| step_observe_begin :
    gate w = GateFree → draining (state w) = true → observing w = None →
    server_step w (set_observing (Some DrainBegun) (drained w) w)
| step_observe_next stage stage' :
    observing w = Some stage → stage_test stage (state w) = true →
    next_stage stage = Some stage' →
    server_step w (set_observing (Some stage') (drained w) w)
| step_observe_busy stage :
    observing w = Some stage → stage_test stage (state w) = false →
    server_step w (set_observing None (drained w) w)
| step_observe_idle :
    observing w = Some EngineIdle → server_step w (set_observing None true w)
(* the accept loop reads the drain flag, without the gate, and leaves *)
| step_accept_exit :
    accepting w = true → draining (state w) = true →
    server_step w {| state := state w; gate := gate w; threads := threads w;
                     accepting := false; drained := drained w; observing := observing w |}
(* the watchdog's fail stop *)
| step_fail_stop failure :
    let s := with_draining true (record_failure failure (state w)) in
    server_step w (set_state
      {| engine := engine s; engine_locked := engine_locked s; connections := connections s;
         pre_request_connections := pre_request_connections s; front := front s;
         active_requests := active_requests s; cancellations := cancellations s;
         cells := cells s; draining := draining s; stopped := true;
         last_work_ended_ns := last_work_ended_ns s; events := events s;
         last_failure := last_failure s |} w).

Definition initial_state (now : Z) : ServerState :=
  {| engine := None; engine_locked := false; connections := 0; pre_request_connections := 0;
     front := default_front; active_requests := ∅; cancellations := ∅; cells := ∅;
     draining := false; stopped := false; last_work_ended_ns := now; events := 1;
     last_failure := None |}.
Definition initial_server (now : Z) : Server :=
  {| state := initial_state now; gate := GateFree; threads := ∅; accepting := true;
     drained := false; observing := None |}.

Inductive server_reachable (now : Z) : Server → Prop :=
| reach_start : server_reachable now (initial_server now)
| reach_step w w' :
    server_reachable now w → accepting w = true → server_step w w' → server_reachable now w'.
End Steps.
