(* ===== verification/ServerDrainProofs.v ===== *)
(** * Draining is safe, and its window

    The invariant of the interleaved server; a committed drain leaves nothing running;
    finished handlers leave nothing behind; and the window in which a failed drain
    attempt stops a busy server.

    The second part: what a reachable server satisfies. *)
From S2P Require Import Prelude RustStr Admission ServerState.

Definition leases (m : gmap nat Handler) : Z :=
  Z.of_nat (size (filter (λ e, thread_lease e.2 = true) m)).

Lemma leases_insert m t h : m !! t = None →
  leases (<[t := h]> m) = leases m + usize_from_bool (thread_lease h).
Proof.
  intros Ht. unfold leases. destruct (thread_lease h) eqn:Hh; cbn.
  - rewrite map_filter_insert_True by done. rewrite map_size_insert_None; [lia|].
    by apply map_lookup_filter_None_2; left.
  - rewrite map_filter_insert_False by (cbn; congruence). rewrite delete_id by done. lia.
Qed.
Lemma leases_delete m t h : m !! t = Some h →
  leases (delete t m) = leases m - usize_from_bool (thread_lease h).
Proof.
  intros Ht. rewrite <-(insert_delete_id m t h Ht) at 2.
  rewrite leases_insert by apply lookup_delete_eq. lia.
Qed.
Lemma leases_update m t h h' : m !! t = Some h →
  leases (<[t := h']> m) =
    leases m - usize_from_bool (thread_lease h) + usize_from_bool (thread_lease h').
Proof.
  intros Ht. rewrite <-insert_delete_eq. rewrite leases_insert by apply lookup_delete_eq.
  by rewrite (leases_delete _ _ _ Ht).
Qed.
Lemma leases_zero m t h : leases m = 0 → m !! t = Some h → thread_lease h = false.
Proof.
  intros Hm Ht. apply not_true_is_false. intros Hh.
  pose proof (leases_delete _ _ _ Ht) as Hd. rewrite Hh, Hm in Hd. unfold leases in Hd. cbn in Hd. lia.
Qed.

(** What a cancellation can change. *)
Lemma server_cancel_frame target token pid start s :
  let s' := (server_cancel target token pid start s).2 in
  engine s' = engine s ∧ active_requests s' = active_requests s ∧
  cancellations s' = cancellations s ∧ draining s' = draining s ∧
  (front s' = front s ∨ ∃ id, front s' = permit_release id (front s)).
Proof.
  unfold server_cancel. destruct (List.filter _ _) as [|[key c] [|? ?]]; cbn; [by auto 10| |by auto 10].
  destruct (cancel _) as [x []]; cbn; [|by auto 10]. eauto 10.
Qed.

(** Permits after a release. *)
Lemma unreleased_after id a id' p :
  permits (permit_release id a) !! id' = Some p → released p = false →
  id ≠ id' ∧ permits a !! id' = Some p.
Proof.
  rewrite permit_release_lookup. destruct (decide (id = id')) as [<-|]; [|done].
  destruct (permits a !! id); cbn; [|done]. by intros [= <-].
Qed.

Section Invariant.
Context (connection : nat → str).
Context (own_keys : ∀ t t' r r', t ≠ t' →
  request_key (connection t) r ≠ request_key (connection t') r').

Definition holds_key (h : Handler) (key : str) (permit : nat) : Prop :=
  ∃ lease, h = Running key permit lease ∨ h = Finishing key permit lease.

Record server_ok (w : Server) : Prop := {
  ok_front : front_ok (front (state w));
  ok_keys t h key permit : threads w !! t = Some h → holds_key h key permit →
    ∃ r, key = request_key (connection t) r;
  ok_active key : is_Some (active_requests (state w) !! key) ↔
    ∃ t permit lease, threads w !! t = Some (Running key permit lease);
  ok_cancellations key c : cancellations (state w) !! key = Some c →
    ∃ t h, threads w !! t = Some h ∧ holds_key h key (can_permit c);
  ok_permits id p : permits (front (state w)) !! id = Some p → released p = false →
    ∃ t h, threads w !! t = Some h ∧ thread_permit h = Some id;
  ok_leases : match engine (state w) with
              | None => leases (threads w) = 0
              | Some e => as_lease_count e = leases (threads w)
              end;
  ok_checked t permit : threads w !! t = Some (Checked permit) → gate w = GateBegin t;
  ok_gate t : gate w = GateBegin t → ∃ permit, threads w !! t = Some (Checked permit);
  ok_drain stage : gate w = GateDrain stage → stage ≠ DrainBegun →
    active_requests (state w) = ∅ ∧ (stage = EngineIdle → leases (threads w) = 0);
  ok_drained : drained w = true →
    draining (state w) = true ∧ active_requests (state w) = ∅ ∧ leases (threads w) = 0 ∧
    gate w = GateFree;
  ok_observing stage : observing w = Some stage →
    draining (state w) = true ∧ gate w = GateFree ∧
    (stage ≠ DrainBegun →
       active_requests (state w) = ∅ ∧ (stage = EngineIdle → leases (threads w) = 0));
}.

(** An attempt is in progress, or one has answered idle. *)
Definition attempted (w : Server) : Prop :=
  drained w = true ∨ (∃ stage, gate w = GateDrain stage) ∨ is_Some (observing w).

(** While a request is inserted, or before anything has begun, there is none. *)
Lemma not_attempted w :
  server_ok w → (∃ t, gate w = GateBegin t) ∨
    gate w = GateFree ∧ draining (state w) = false → ¬ attempted w.
Proof.
  intros Hw Hg [Hd|[[stage Hs]|[stage Hs]]].
  - destruct (ok_drained _ Hw Hd) as (? & _ & _ & ?). destruct Hg as [[? ?]|[? ?]]; congruence.
  - destruct Hg as [[? ?]|[? ?]]; congruence.
  - destruct (ok_observing _ Hw _ Hs) as (? & ? & _). destruct Hg as [[? ?]|[? ?]]; congruence.
Qed.

(** Case analysis on the lookups of an updated map. *)
Ltac lookups :=
  repeat match goal with
  | H : <[_ := _]> _ !! _ = Some _ |- _ => apply lookup_insert_Some in H as [[? ?]|[? H]]; subst
  | H : delete _ _ !! _ = Some _ |- _ => apply lookup_delete_Some in H as [? H]
  | H : Some _ = Some _ |- _ => injection H as H; subst
  end.

(** Steps that only touch the state: tables, engine leases and gate as before. *)
Lemma server_ok_state w s :
  server_ok w → front_ok (front s) →
  (∀ key, is_Some (active_requests s !! key) ↔ is_Some (active_requests (state w) !! key)) →
  cancellations s = cancellations (state w) →
  (∀ id p, permits (front s) !! id = Some p → released p = false →
     permits (front (state w)) !! id = Some p) →
  (as_lease_count <$> engine s = as_lease_count <$> engine (state w)
   ∨ engine (state w) = None ∧ as_lease_count <$> engine s = Some 0) →
  (draining (state w) = true → draining s = true) →
  server_ok (set_state s w).
Proof.
  intros [] Hf Ha Hc Hp He Hd.
  assert (Hempty : active_requests (state w) = ∅ → active_requests s = ∅).
  { intros Hn. apply map_empty. intros key. apply eq_None_not_Some. rewrite Ha, Hn, lookup_empty.
    by intros [? ?]. }
  split; cbn; [done|done| | | | |done|done| | |].
  - intros key. by rewrite Ha.
  - intros key c. rewrite Hc. eauto.
  - intros id p Hl Hr. eauto.
  - destruct He as [He|[Hn He]]; destruct (engine s) as [e|], (engine (state w)) as [e'|];
      cbn in He; try done; injection He as He; congruence.
  - intros stage Hs Hne. destruct (ok_drain0 stage Hs Hne). auto.
  - intros Hdr. destruct (ok_drained0 Hdr) as (? & ? & ? & ?). auto.
  - intros stage Hs. destruct (ok_observing0 stage Hs) as (? & ? & Hread).
    split; [auto|]. split; [done|]. intros Hne. destruct (Hread Hne). auto.
Qed.

Lemma release_permits_sub id a id' p :
  permits (permit_release id a) !! id' = Some p → released p = false → permits a !! id' = Some p.
Proof. intros H1 H2. by destruct (unreleased_after _ _ _ _ H1 H2). Qed.

Lemma server_ok_cancel w target token pid start :
  server_ok w → server_ok (set_state (server_cancel target token pid start (state w)).2 w).
Proof.
  intros Hw. pose proof (server_cancel_frame target token pid start (state w)) as
    (He & Ha & Hc & Hd & Hf). pose proof (ok_front _ Hw) as Hfront.
  apply server_ok_state; [done| |by rewrite Ha|done| |by left; rewrite He|by rewrite Hd].
  - destruct Hf as [->|[id ->]]; [done|]. by apply permit_release_ok.
  - intros id p. destruct Hf as [->|[id' ->]]; [done|]. apply release_permits_sub.
Qed.

Lemma server_ok_phase w t key permit lease phase :
  server_ok w → threads w !! t = Some (Running key permit lease) →
  server_ok (set_state (update_request_phase key phase (state w)) w).
Proof.
  intros Hw Ht. unfold update_request_phase.
  destruct (active_requests (state w) !! key) as [r|] eqn:Hk.
  2: { apply server_ok_state; try done; [by apply Hw|by left]. }
  destruct (str_eqb _ _).
  { apply server_ok_state; try done; [by apply Hw|by left]. }
  apply server_ok_state; cbn; try done; [by apply Hw| |by left].
  intros key'. destruct (decide (key = key')) as [<-|Hne].
  - rewrite lookup_insert_eq, Hk. split; eauto.
  - by rewrite lookup_insert_ne.
Qed.

Lemma key_owner w t t' h h' key permit permit' :
  server_ok w → threads w !! t = Some h → threads w !! t' = Some h' →
  holds_key h key permit → holds_key h' key permit' → t = t'.
Proof.
  intros Hw Ht Ht' Hh Hh'. destruct (decide (t = t')) as [|Hne]; [done|].
  destruct (ok_keys _ Hw _ _ _ _ Ht Hh) as [r Hr].
  destruct (ok_keys _ Hw _ _ _ _ Ht' Hh') as [r' Hr']. subst.
  destruct (own_keys _ _ r r' Hne). done.
Qed.

(** One thread moves from [old] to [new]; every other thread stays. *)
Record move_ok (w : Server) (t : nat) (old new : option Handler) (s : ServerState) (g : Gate)
    (m : gmap nat Handler) : Prop := {
  mv_old : threads w !! t = old;
  mv_map : m = partial_alter (λ _, new) t (threads w);
  mv_front : front_ok (front s);
  mv_keys h key permit : new = Some h → holds_key h key permit →
    ∃ r, key = request_key (connection t) r;
  mv_active key : is_Some (active_requests s !! key) ↔
    (∃ permit lease, new = Some (Running key permit lease)) ∨
    is_Some (active_requests (state w) !! key) ∧
      ¬ ∃ permit lease, old = Some (Running key permit lease);
  mv_cancellations key c : cancellations s !! key = Some c →
    (∃ h, new = Some h ∧ holds_key h key (can_permit c)) ∨
    cancellations (state w) !! key = Some c ∧
      (new = old ∨ ∀ h permit, old = Some h → ¬ holds_key h key permit);
  mv_permits id p : permits (front s) !! id = Some p → released p = false →
    (∃ h, new = Some h ∧ thread_permit h = Some id) ∨
    permits (front (state w)) !! id = Some p ∧ ∀ h, old = Some h → thread_permit h ≠ Some id;
  mv_leases : match engine s with
              | None => leases m = 0
              | Some e => as_lease_count e = leases m
              end;
  mv_checked permit : new = Some (Checked permit) → g = GateBegin t;
  mv_others t' : t' ≠ t → gate w = GateBegin t' ↔ g = GateBegin t';
  mv_gate : g = GateBegin t → ∃ permit, new = Some (Checked permit);
  mv_stage stage : g = GateDrain stage → gate w = GateDrain stage;
  mv_kept : attempted w → (draining (state w) = true → draining s = true) ∧ g = gate w;
  mv_quiet : active_requests (state w) = ∅ → attempted w →
    active_requests s = ∅ ∧ leases m ≤ leases (threads w);
}.

Lemma server_ok_move w t old new s g m :
  server_ok w → move_ok w t old new s g m →
  server_ok {| state := s; gate := g; threads := m; accepting := accepting w;
               drained := drained w; observing := observing w |}.
Proof.
  intros Hw [Hold -> Hfront Hkeys Hact Hcan Hper Hlease Hchk Hoth Hg Hstage Hkept Hquiet].
  assert (Hother : ∀ t', t' ≠ t → partial_alter (λ _, new) t (threads w) !! t' = threads w !! t')
    by (intros; by apply lookup_partial_alter_ne).
  assert (Hself : partial_alter (λ _, new) t (threads w) !! t = new)
    by (rewrite lookup_partial_alter_eq; done).
  split; cbn.
  - done.
  - intros t' h key permit. destruct (decide (t' = t)) as [->|Hne].
    + rewrite Hself. eauto.
    + rewrite Hother by done. by apply Hw.
  - intros key. rewrite Hact. split.
    + intros [(permit & lease & ->)|[Ha Hno]]; [by exists t, permit, lease; rewrite Hself|].
      apply (ok_active _ Hw) in Ha as (t' & permit & lease & Ht').
      destruct (decide (t' = t)) as [->|Hne].
      * destruct Hno. exists permit, lease. congruence.
      * exists t', permit, lease. by rewrite Hother.
    + intros (t' & permit & lease & Ht'). destruct (decide (t' = t)) as [->|Hne].
      * left. exists permit, lease. congruence.
      * right. rewrite Hother in Ht' by done. split; [apply (ok_active _ Hw); eauto|].
        intros (permit' & lease' & ->). destruct Hne.
        eapply key_owner; [done|exact Ht'|exact Hold| |]; eexists; by left.
  - intros key c [(h & -> & Hh)|[Hc Hno]]%Hcan; [by exists t, h|].
    destruct (ok_cancellations _ Hw _ _ Hc) as (t' & h & Ht' & Hh). exists t', h. split; [|done].
    destruct (decide (t' = t)) as [->|Hne]; [|by rewrite Hother].
    rewrite Hself. destruct Hno as [->|Hno]; [congruence|]. rewrite Hold in Ht'.
    by destruct (Hno _ _ Ht' Hh).
  - intros id p Hp Hr. destruct (Hper _ _ Hp Hr) as [(h & -> & Hh)|[Hp' Hno]]; [by exists t, h|].
    destruct (ok_permits _ Hw _ _ Hp' Hr) as (t' & h & Ht' & Hh). exists t', h. split; [|done].
    destruct (decide (t' = t)) as [->|Hne]; [|by rewrite Hother].
    rewrite Hold in Ht'. by destruct (Hno _ Ht').
  - done.
  - intros t' permit. destruct (decide (t' = t)) as [->|Hne].
    + rewrite Hself. apply Hchk.
    + rewrite Hother by done. intros Hc%Hw. by apply (Hoth _ Hne).
  - intros t' Ht'. destruct (decide (t' = t)) as [->|Hne].
    + rewrite Hself. auto.
    + rewrite Hother by done. apply (ok_gate _ Hw). by apply (Hoth _ Hne).
  - intros stage Hs Hne. pose proof (Hstage _ Hs) as Hs'.
    destruct (ok_drain _ Hw _ Hs' Hne) as [Ha Hl].
    destruct (Hquiet Ha) as [? ?]; [right; eauto|]. split; [done|]. intros Hst. specialize (Hl Hst).
    unfold leases in *. lia.
  - intros Hd. destruct (ok_drained _ Hw Hd) as (Hdr & Ha & Hl & Hgf).
    assert (Hat : attempted w) by by left.
    destruct (Hkept Hat) as [? ->]. destruct (Hquiet Ha Hat) as [? ?].
    repeat split; [auto|done| |done]. unfold leases in *. lia.
  - intros stage Hs. destruct (ok_observing _ Hw _ Hs) as (Hdr & Hgf & Hread).
    assert (Hat : attempted w) by (right; right; eauto).
    destruct (Hkept Hat) as [? ->]. split; [auto|]. split; [done|]. intros Hne.
    destruct (Hread Hne) as [Ha Hl]. destruct (Hquiet Ha Hat) as [? ?]. split; [done|].
    intros Hst. specialize (Hl Hst). unfold leases in *. lia.
Qed.

(** Threads between the table operations hold no key. *)
Definition keyless (h : option Handler) : Prop :=
  match h with Some (Running _ _ _) | Some (Finishing _ _ _) => False | _ => True end.
Lemma keyless_holds h key permit : keyless (Some h) → ¬ holds_key h key permit.
Proof. intros Hk [lease [->| ->]]; done. Qed.
Lemma keyless_running o key permit lease : keyless o → o ≠ Some (Running key permit lease).
Proof. by intros Hk ->. Qed.

(** A move that leaves the tables alone, between keyless states. *)
Lemma keyless_move w t old new s g m :
  server_ok w → threads w !! t = old → m = partial_alter (λ _, new) t (threads w) →
  keyless old → keyless new →
  front_ok (front s) → active_requests s = active_requests (state w) →
  cancellations s = cancellations (state w) →
  (∀ id p, permits (front s) !! id = Some p → released p = false →
    (∃ h, new = Some h ∧ thread_permit h = Some id) ∨
    permits (front (state w)) !! id = Some p ∧ ∀ h, old = Some h → thread_permit h ≠ Some id) →
  match engine s with None => leases m = 0 | Some e => as_lease_count e = leases m end →
  leases m ≤ leases (threads w) →
  (∀ permit, new = Some (Checked permit) → g = GateBegin t) →
  (∀ t', t' ≠ t → gate w = GateBegin t' ↔ g = GateBegin t') →
  (g = GateBegin t → ∃ permit, new = Some (Checked permit)) →
  (∀ stage, g = GateDrain stage → gate w = GateDrain stage) →
  draining s = draining (state w) →
  (attempted w → g = gate w) →
  move_ok w t old new s g m.
Proof.
  intros Hw Hold Hm Hko Hkn Hf Ha Hc Hp Hl Hle Hchk Hoth Hg Hst Hd Hq.
  split; try done.
  - intros h key permit -> Hh. by destruct (keyless_holds _ _ _ Hkn Hh).
  - intros key. rewrite Ha. split.
    + intros Hs. right. split; [done|]. intros (permit & lease & He).
      by destruct (keyless_running _ _ _ _ Hko He).
    + intros [(permit & lease & He)|[? _]]; [|done].
      by destruct (keyless_running _ _ _ _ Hkn He).
  - intros key c. rewrite Hc. intros Hk. right. split; [done|]. right. intros h permit -> Hh.
    by destruct (keyless_holds _ _ _ Hko Hh).
  - intros Hat. split; [by rewrite Hd|auto].
  - intros Hn _. by rewrite Ha.
Qed.

Lemma lease_sum_insert w t h : server_ok w → threads w !! t = Some h →
  ∀ h', thread_lease h' = thread_lease h → leases (<[t := h']> (threads w)) = leases (threads w).
Proof. intros Hw Ht h' Hh'. rewrite (leases_update _ _ _ _ Ht), Hh'. lia. Qed.

Lemma step_accept_ok w t :
  server_ok w → threads w !! t = None → server_ok (set_thread t Connected (state w) w).
Proof.
  intros Hw Ht.
  assert (Hg : gate w ≠ GateBegin t).
  { intros Hg. apply (ok_gate _ Hw) in Hg as [permit Hp]. congruence. }
  assert (Hl : leases (<[t := Connected]> (threads w)) = leases (threads w))
    by (rewrite leases_insert by done; cbn; lia).
  apply (server_ok_move w t None (Some Connected)); [done|].
  apply keyless_move; try done.
  - apply Hw.
  - intros id p Hp Hr. by right.
  - rewrite Hl. apply Hw.
  - lia.
Qed.

(** The end of a thread that holds no key, with its permit released. *)
Lemma end_keyless_ok w t h s :
  server_ok w → threads w !! t = Some h → keyless (Some h) →
  (∀ permit, h ≠ Checked permit) → h ≠ Leased →
  s = match thread_permit h with
      | Some permit => with_front (permit_release permit (front (state w))) (state w)
      | None => state w
      end →
  server_ok (end_thread t s w).
Proof.
  intros Hw Ht Hk Hchk Hleased ->.
  assert (Hlease : thread_lease h = false) by (by destruct h).
  assert (Hg : gate w ≠ GateBegin t).
  { intros Hg. apply (ok_gate _ Hw) in Hg as [permit Hp]. rewrite Ht in Hp. injection Hp as Hp.
    by destruct (Hchk permit). }
  assert (Hl : leases (delete t (threads w)) = leases (threads w)).
  { rewrite (leases_delete _ _ _ Ht), Hlease. cbn. lia. }
  pose proof (ok_leases _ Hw) as Hle. pose proof (ok_front _ Hw) as Hf.
  apply (server_ok_move w t (Some h) None); [done|].
  apply keyless_move; try done; rewrite ?Hl;
    [..|destruct (thread_permit h); exact Hle|lia|by destruct (thread_permit h)].
  - destruct (thread_permit h); [by apply permit_release_ok|done].
  - by destruct (thread_permit h).
  - by destruct (thread_permit h).
  - intros id p Hp Hr. right. destruct (thread_permit h) as [permit|] eqn:Hperm; cbn in Hp.
    + destruct (unreleased_after _ _ _ _ Hp Hr) as [Hne Hp']. split; [done|].
      intros ? [= <-]. rewrite Hperm. congruence.
    + split; [done|]. intros ? [= <-]. by rewrite Hperm.
Qed.

Lemma try_admit_cases class retry s r s' :
  front_ok (front s) → try_admit_request class retry s = (r, s') →
  match r with
  | Ok permit => ∃ f, s' = with_front f s ∧ front_ok f ∧ permits (front s) !! permit = None ∧
      permits f = <[permit := {| permit_class := class; released := false |}]> (permits (front s))
  | Err _ => s' = s
  end.
Proof.
  intros Hf. unfold try_admit_request.
  destruct (try_acquire class (active_execution class s) (front s)) as [[permit|d] f] eqn:Ht;
    apply (try_acquire_ok _ _ _ _ _ Hf) in Ht as [Hf' Ht]; intros [= <- <-]; [|done].
  destruct Ht as (_ & ? & ?). by exists f.
Qed.

Lemma step_admit_ok w t class retry permit s :
  server_ok w → threads w !! t = Some Connected →
  try_admit_request class retry (state w) = (Ok permit, s) →
  server_ok (set_thread t (Permitted permit) s w).
Proof.
  intros Hw Ht Hadm. pose proof (ok_leases _ Hw) as Hle.
  apply try_admit_cases in Hadm as (f & -> & Hf & Hnew & Hp); [|apply Hw].
  assert (Hg : gate w ≠ GateBegin t).
  { intros Hg. apply (ok_gate _ Hw) in Hg as [? ?]. congruence. }
  pose proof (lease_sum_insert _ _ _ Hw Ht (Permitted permit) eq_refl) as Hl.
  apply (server_ok_move w t (Some Connected) (Some (Permitted permit))); [done|].
  apply keyless_move; try done; cbn [front with_front engine].
  - intros id p. rewrite Hp. intros [[<- <-]|[Hne Hl']]%lookup_insert_Some Hr.
    + left. by exists (Permitted permit).
    + right. split; [done|]. by intros ? [= <-].
  - by rewrite Hl.
  - lia.
Qed.

Lemma step_check_ok w t permit :
  server_ok w → threads w !! t = Some (Permitted permit) → gate w = GateFree →
  draining (state w) = false →
  server_ok (set_gate (GateBegin t) (set_thread t (Checked permit) (state w) w)).
Proof.
  intros Hw Ht Hg Hd. pose proof (ok_leases _ Hw) as Hle.
  pose proof (lease_sum_insert _ _ _ Hw Ht (Checked permit) eq_refl) as Hl.
  unfold set_gate, set_thread; cbn [state threads accepting drained observing].
  apply (server_ok_move w t (Some (Permitted permit)) (Some (Checked permit))); [done|].
  apply keyless_move; try done.
  - apply Hw.
  - intros id p Hp Hr. destruct (decide (id = permit)) as [->|Hne].
    + left. by exists (Checked permit).
    + right. split; [done|]. intros ? [= <-]. cbn. congruence.
  - by rewrite Hl.
  - lia.
  - intros t' Hne. rewrite Hg. split; [done|]. congruence.
  - by exists permit.
  - intros Hat. destruct (not_attempted w Hw); [by right|done].
Qed.

(** The insertion of a request. *)
Lemma step_insert_ok w t permit r now :
  server_ok w → threads w !! t = Some (Checked permit) → gate w = GateBegin t →
  reg_connection_id r = connection t → reg_permit r = permit →
  active_requests (state w) !! request_key (reg_connection_id r) (reg_request_id r) = None →
  server_ok (set_gate GateFree
    (set_thread t (Running (request_key (reg_connection_id r) (reg_request_id r)) permit false)
       (insert_request r now (state w)) w)).
Proof.
  intros Hw Ht Hg Hconn Hperm Hnew. pose proof (ok_leases _ Hw) as Hle.
  set (key := request_key (reg_connection_id r) (reg_request_id r)) in *.
  pose proof (lease_sum_insert _ _ _ Hw Ht (Running key permit false) eq_refl) as Hl.
  unfold set_gate, set_thread; cbn [state threads accepting drained observing].
  apply (server_ok_move w t (Some (Checked permit)) (Some (Running key permit false))); [done|].
  unfold insert_request. fold key.
  split; try done; cbn [active_requests cancellations front engine draining bump_event with_tables].
  - apply Hw.
  - intros h key' permit' [= <-] [lease [[= <- <- <-]|?]]; [|done].
    exists (reg_request_id r). unfold key. by rewrite Hconn.
  - intros key'. rewrite lookup_insert_is_Some. split.
    + intros [<-|[Hne Hs]]; [left; eauto|]. right. split; [done|]. by intros (? & ? & [=]).
    + intros [(? & ? & [= -> _ _])|[Hs _]]; [by left|]. destruct (decide (key = key')); [by left|by right].
  - intros key' c [[<- <-]|[Hne Hc]]%lookup_insert_Some.
    + left. eexists. split; [done|]. exists false. left. cbn. by rewrite Hperm.
    + right. split; [done|]. right. intros ? ? [= <-] [? [?|?]]; done.
  - intros id p Hp Hr. destruct (decide (id = permit)) as [->|Hne].
    + left. by eexists.
    + right. split; [done|]. intros ? [= <-]. cbn. congruence.
  - by rewrite Hl.
  - intros t' Hne. rewrite Hg. split; [|done]. congruence.
  - intros Hat. destruct (not_attempted w Hw); [left; eauto|done].
  - intros _ Hat. destruct (not_attempted w Hw); [left; eauto|done].
Qed.

(** A running or finishing thread changes its lease. *)
Lemma step_lease_ok w t h h' (n : Z) s :
  server_ok w → threads w !! t = Some h →
  (∃ key permit lease lease', h = Running key permit lease ∧ h' = Running key permit lease') →
  usize_from_bool (thread_lease h') = usize_from_bool (thread_lease h) + n →
  (n ≤ 0 ∨ is_Some (engine (state w))) →
  front s = front (state w) → active_requests s = active_requests (state w) →
  cancellations s = cancellations (state w) → draining s = draining (state w) →
  as_lease_count <$> engine s = (λ e, as_lease_count e + n) <$> engine (state w) →
  server_ok (set_thread t h' s w).
Proof.
  intros Hw Ht (key & permit & lease & lease' & -> & ->) Hn Hsome Hf Ha Hc Hd He.
  pose proof (ok_leases _ Hw) as Hle.
  pose proof (leases_update _ _ _ (Running key permit lease') Ht) as Hl.
  assert (Hrun : active_requests (state w) ≠ ∅).
  { intros Hn'. destruct (proj2 (ok_active _ Hw key)) as [x Hx]; [eauto|].
    by rewrite Hn', lookup_empty in Hx. }
  apply (server_ok_move w t (Some (Running key permit lease)) (Some (Running key permit lease')));
    [done|].
  split; try done.
  - rewrite Hf. apply Hw.
  - intros h key' permit' [= <-] Hh. apply (ok_keys _ Hw _ _ _ permit' Ht).
    destruct Hh as [? [[= <- <- <-]|?]]; [|done]. exists lease. by left.
  - intros key'. rewrite Ha. split.
    + intros Hs. destruct (decide (key = key')) as [<-|Hne]; [left; eauto|]. right. split; [done|].
      intros (? & ? & [=]). done.
    + intros [(? & ? & [= <- <- <-])|[Hs _]]; [|done]. apply (ok_active _ Hw). eauto.
  - intros key' c. rewrite Hc. intros Hk.
    destruct (ok_cancellations _ Hw _ _ Hk) as (t' & h & Ht' & Hh).
    destruct (decide (t' = t)) as [->|Hne].
    + left. exists (Running key permit lease'). split; [done|]. rewrite Ht in Ht'.
      injection Ht' as <-. destruct Hh as [? [[= <- <- <-]|?]]; [|done]. exists lease'. by left.
    + right. split; [done|]. right. intros ? permit' [= <-] Hh'. destruct Hne.
      by eapply key_owner.
  - intros id p. rewrite Hf. intros Hp Hr. destruct (decide (id = permit)) as [->|Hne].
    + left. by eexists.
    + right. split; [done|]. intros ? [= <-]. cbn. congruence.
  - rewrite Hl. destruct (engine s) as [e|], (engine (state w)) as [e'|]; try done.
    + injection He as He. cbn in *. lia.
    + cbn in *. destruct Hsome as [Hn0|[? ?]]; [|done].
      assert (lease = false) as -> by (by apply (leases_zero _ _ _ Hle Ht)).
      destruct lease'; cbn in *; lia.
  - intros Hg. destruct (ok_gate _ Hw _ Hg). congruence.
  - intros _. by rewrite Hd.
Qed.

(** The end of a request in its two tables. *)
Lemma step_finish_active_ok w t key permit lease :
  server_ok w → threads w !! t = Some (Running key permit lease) →
  server_ok (set_thread t (Finishing key permit lease) (remove_active key (state w)) w).
Proof.
  intros Hw Ht. pose proof (ok_leases _ Hw) as Hle.
  pose proof (lease_sum_insert _ _ _ Hw Ht (Finishing key permit lease) eq_refl) as Hl.
  assert (Hrun : active_requests (state w) ≠ ∅).
  { intros Hn'. destruct (proj2 (ok_active _ Hw key)) as [x Hx]; [eauto|].
    by rewrite Hn', lookup_empty in Hx. }
  apply (server_ok_move w t (Some (Running key permit lease)) (Some (Finishing key permit lease)));
    [done|].
  split; try done; cbn [active_requests cancellations front engine draining remove_active with_tables].
  - apply Hw.
  - intros h key' permit' [= <-] Hh. apply (ok_keys _ Hw _ _ _ permit' Ht).
    destruct Hh as [? [?|[= <- <- <-]]]; [done|]. exists lease. by left.
  - intros key'. rewrite lookup_delete_is_Some. split.
    + intros [Hne Hs]. right. split; [done|]. by intros (? & ? & [=]).
    + intros [(? & ? & [=])|[Hs Hno]]. split; [|done]. intros <-. destruct Hno; eauto.
  - intros key' c Hk. destruct (ok_cancellations _ Hw _ _ Hk) as (t' & h & Ht' & Hh).
    destruct (decide (t' = t)) as [->|Hne].
    + left. eexists. split; [done|]. rewrite Ht in Ht'. injection Ht' as <-.
      destruct Hh as [? [[= <- <- <-]|?]]; [|done]. exists lease. by right.
    + right. split; [done|]. right. intros ? permit' [= <-] Hh'. destruct Hne.
      by eapply key_owner.
  - intros id p Hp Hr. destruct (decide (id = permit)) as [->|Hne].
    + left. by eexists.
    + right. split; [done|]. intros ? [= <-]. cbn. congruence.
  - by rewrite Hl.
  - intros Hg. destruct (ok_gate _ Hw _ Hg). congruence.
Qed.

Lemma remove_cancellation_cases key s :
  active_requests (remove_cancellation key s) = active_requests s ∧
  cancellations (remove_cancellation key s) = delete key (cancellations s) ∧
  engine (remove_cancellation key s) = engine s ∧
  draining (remove_cancellation key s) = draining s ∧
  (front (remove_cancellation key s) = front s ∨
   ∃ id, front (remove_cancellation key s) = permit_release id (front s)).
Proof.
  unfold remove_cancellation. destruct (cancellations s !! key) as [c|]; cbn; [|by auto 10].
  eauto 10.
Qed.

Lemma step_finish_ok w t key permit (lease : bool) now s :
  server_ok w → threads w !! t = Some (Finishing key permit lease) →
  s = (let s := bump_event (restart_idle_window now (remove_cancellation key (state w))) in
       with_front (permit_release permit (front s)) s) →
  server_ok (if lease then set_thread t Leased s w else end_thread t s w).
Proof.
  intros Hw Ht ->. pose proof (ok_leases _ Hw) as Hle. pose proof (ok_front _ Hw) as Hf.
  destruct (remove_cancellation_cases key (state w)) as (Ha & Hc & He & Hd & Hfront).
  set (new := if lease then Some Leased else None).
  set (m := partial_alter (λ _, new) t (threads w)).
  assert (Hl : leases m = leases (threads w)).
  { unfold m, new. destruct lease.
    - change (leases (<[t := Leased]> (threads w)) = leases (threads w)).
      by rewrite (lease_sum_insert _ _ _ Hw Ht).
    - change (leases (delete t (threads w)) = leases (threads w)).
      rewrite (leases_delete _ _ _ Ht). cbn. lia. }
  assert (Hgate : gate w ≠ GateBegin t).
  { intros Hg. destruct (ok_gate _ Hw _ Hg). congruence. }
  cbn zeta. cbn [front bump_event restart_idle_window].
  set (f := front (remove_cancellation key (state w))) in *. clearbody f.
  assert (Hmove : move_ok w t (Some (Finishing key permit lease)) new
    (with_front (permit_release permit f)
       (bump_event (restart_idle_window now (remove_cancellation key (state w))))) (gate w) m).
  { assert (Hnk : keyless new) by (by unfold new; destruct lease).
    split; try done;
      cbn [active_requests cancellations front engine draining with_front bump_event
           restart_idle_window].
    - apply permit_release_ok. destruct Hfront as [->|[id ->]]; [done|].
      by apply permit_release_ok.
    - intros h key' permit' -> Hh. by destruct (keyless_holds _ _ _ Hnk Hh).
    - intros key'. rewrite Ha. split.
      + intros Hs. right. split; [done|]. by intros (? & ? & [=]).
      + intros [(? & ? & Hn)|[? _]]; [|done]. by destruct (keyless_running _ _ _ _ Hnk Hn).
    - intros key' c. rewrite Hc. intros [Hne Hk]%lookup_delete_Some. right. split; [done|].
      right. intros ? permit' [= <-] [? [?|?]]; congruence.
    - intros id p Hp Hr. apply unreleased_after in Hp as [Hne Hp]; [|done].
      right. split.
      + destruct Hfront as [Hf'|[id' Hf']]; rewrite Hf' in Hp; [done|].
        by apply release_permits_sub in Hp.
      + intros ? [= <-]. cbn. congruence.
    - rewrite He. by rewrite Hl.
    - intros permit' Hn. unfold new in Hn. by destruct lease.
    - intros _. by rewrite Hd.
    - intros Hn _. rewrite Ha. split; [done|lia]. }
  pose proof (server_ok_move _ _ _ _ _ _ _ Hw Hmove) as Hok. unfold m, new in Hok.
  by destruct lease.
Qed.

(** ** The gate and the drain attempt *)

(** Steps that move the gate or the drain flag and keep the tables and the threads. *)
Lemma server_ok_gate w s g dr acc o :
  server_ok w → front s = front (state w) → active_requests s = active_requests (state w) →
  cancellations s = cancellations (state w) →
  as_lease_count <$> engine s = as_lease_count <$> engine (state w) →
  (∀ t, g = GateBegin t ↔ gate w = GateBegin t) →
  (∀ stage, g = GateDrain stage → stage ≠ DrainBegun →
     active_requests (state w) = ∅ ∧ (stage = EngineIdle → leases (threads w) = 0)) →
  (dr = true → draining s = true ∧ active_requests (state w) = ∅ ∧ leases (threads w) = 0 ∧
     g = GateFree) →
  (∀ stage, o = Some stage → draining s = true ∧ g = GateFree ∧
     (stage ≠ DrainBegun →
        active_requests (state w) = ∅ ∧ (stage = EngineIdle → leases (threads w) = 0))) →
  server_ok {| state := s; gate := g; threads := threads w; accepting := acc; drained := dr;
               observing := o |}.
Proof.
  intros [] Hf Ha Hc He Hg Hs Hdr Ho. split; cbn; rewrite ?Hf, ?Ha, ?Hc; try done.
  - destruct (engine s), (engine (state w)); cbn in He; try done. by injection He as ->.
  - intros t permit Ht. apply Hg. eauto.
  - intros t Ht. apply Hg in Ht. eauto.
Qed.

Lemma step_drain_begin_ok w :
  server_ok w → gate w = GateFree → draining (state w) = false → observing w = None →
  server_ok (set_gate (GateDrain DrainBegun) (set_state (with_draining true (state w)) w)).
Proof.
  intros Hw Hg Hd Ho. apply (server_ok_gate w); try done.
  - intros ?. by rewrite Hg.
  - by intros ? [= <-].
  - intros Hdr. destruct (ok_drained _ Hw Hdr). cbn in *. congruence.
  - intros stage. cbn. by rewrite Ho.
Qed.

Lemma idle_no_leases e : engine_idle e = true → as_lease_count e = 0.
Proof. unfold engine_idle. rewrite !andb_true_iff, !Z.eqb_eq. tauto. Qed.

(** A check of [true_idle] that holds. *)
Lemma stage_passed w stage stage' :
  server_ok w → stage_test stage (state w) = true → next_stage stage = Some stage' →
  (stage ≠ DrainBegun →
     active_requests (state w) = ∅ ∧ (stage = EngineIdle → leases (threads w) = 0)) →
  active_requests (state w) = ∅ ∧ (stage' = EngineIdle → leases (threads w) = 0).
Proof.
  intros Hw Ht Hn Hread. destruct stage; try done; injection Hn as <-; cbn in Ht.
  - split; [by apply bool_decide_eq_true in Ht|done].
  - destruct Hread as [? _]; [done|]. by split.
  - destruct Hread as [? _]; [done|]. split; [done|]. intros _.
    pose proof (ok_leases _ Hw) as Hl. destruct (engine (state w)) as [e|]; [|done].
    rewrite <-Hl. by apply idle_no_leases.
Qed.

Lemma drain_not_answered w stage : server_ok w → gate w = GateDrain stage → drained w ≠ true.
Proof. intros Hw Hg Hdr. destruct (ok_drained _ Hw Hdr) as (_ & _ & _ & ?). congruence. Qed.
Lemma drain_not_observing w stage stage' :
  server_ok w → gate w = GateDrain stage → observing w ≠ Some stage'.
Proof. intros Hw Hg Ho. destruct (ok_observing _ Hw _ Ho) as (_ & ? & _). congruence. Qed.

Lemma step_drain_next_ok w stage stage' :
  server_ok w → gate w = GateDrain stage → stage_test stage (state w) = true →
  next_stage stage = Some stage' → server_ok (set_gate (GateDrain stage') w).
Proof.
  intros Hw Hg Ht Hn. apply (server_ok_gate w); try done.
  - intros ?. by rewrite Hg.
  - intros st [= <-] _. apply (stage_passed w stage); try done. by apply (ok_drain _ Hw).
  - intros Hdr. by destruct (drain_not_answered _ _ Hw Hg).
  - intros st Ho. by destruct (drain_not_observing _ _ st Hw Hg).
Qed.

Lemma step_drain_commit_ok w :
  server_ok w → gate w = GateDrain EngineIdle → draining (state w) = true →
  server_ok {| state := bump_event (state w); gate := GateFree; threads := threads w;
               accepting := accepting w; drained := true; observing := observing w |}.
Proof.
  intros Hw Hg Hd. destruct (ok_drain _ Hw _ Hg) as [Ha Hl]; [done|].
  apply (server_ok_gate w); try done.
  - intros ?. by rewrite Hg.
  - intros _. split; [done|]. by split; [|split; [apply Hl|]].
  - intros st Ho. by destruct (drain_not_observing _ _ st Hw Hg).
Qed.

Lemma step_rollback_ok w stage :
  server_ok w → gate w = GateDrain stage →
  server_ok (set_gate GateFree (set_state (with_draining false (state w)) w)).
Proof.
  intros Hw Hg. apply (server_ok_gate w); try done.
  - intros ?. by rewrite Hg.
  - intros Hdr. by destruct (drain_not_answered _ _ Hw Hg).
  - intros st Ho. by destruct (drain_not_observing _ _ st Hw Hg).
Qed.

(** The reading attempt begins, passes a check, or answers. *)
Lemma step_observe_ok w o :
  server_ok w → draining (state w) = true → gate w = GateFree →
  (∀ stage, o = Some stage → stage ≠ DrainBegun →
     active_requests (state w) = ∅ ∧ (stage = EngineIdle → leases (threads w) = 0)) →
  server_ok (set_observing o (drained w) w).
Proof.
  intros Hw Hd Hg Ho. apply (server_ok_gate w); try done; [apply Hw|apply Hw|].
  intros stage Hs. split; [done|]. split; [done|]. by apply Ho.
Qed.
Lemma step_observe_next_ok w stage stage' :
  server_ok w → observing w = Some stage → stage_test stage (state w) = true →
  next_stage stage = Some stage' → server_ok (set_observing (Some stage') (drained w) w).
Proof.
  intros Hw Hs Ht Hn. destruct (ok_observing _ Hw _ Hs) as (Hd & Hg & Hread).
  apply step_observe_ok; try done. intros st [= <-] _. by apply (stage_passed w stage).
Qed.
Lemma step_observe_idle_ok w :
  server_ok w → observing w = Some EngineIdle → server_ok (set_observing None true w).
Proof.
  intros Hw Hs. destruct (ok_observing _ Hw _ Hs) as (Hd & Hg & Hread).
  destruct Hread as [Ha Hl]; [done|]. specialize (Hl eq_refl).
  by apply (server_ok_gate w).
Qed.

(** While an attempt holds the gate the flag is set. *)
Definition flag_ok (w : Server) : Prop := ∀ stage, gate w = GateDrain stage → draining (state w) = true.
End Invariant.

(** * What a reachable server satisfies

    The invariant of [ServerDrainProofs] along every interleaving, and its consequences:
    a committed drain is final and leaves nothing running; finished handlers leave
    nothing behind; and the window in which a failed drain attempt stops a busy
    server. *)
Section Reachable.
Context (connection : nat → str).
Context (own_keys : ∀ t t' r r', t ≠ t' →
  request_key (connection t) r ≠ request_key (connection t') r').

Lemma initial_server_ok now : server_ok connection (initial_server now).
Proof.
  split; cbn; try done.
  - apply default_front_ok.
  - intros key. split; [by intros [? ?]|by intros (? & ? & ? & ?)].
Qed.

Lemma step_duplicate_ok w t permit :
  server_ok connection w → threads w !! t = Some (Checked permit) → gate w = GateBegin t →
  server_ok connection (set_gate GateFree
    (end_thread t (with_front (permit_release permit (front (state w))) (state w)) w)).
Proof.
  intros Hw Ht Hg. pose proof (ok_leases _ _ Hw) as Hle. pose proof (ok_front _ _ Hw) as Hf.
  assert (Hl : leases (delete t (threads w)) = leases (threads w))
    by (rewrite (leases_delete _ _ _ Ht); cbn; lia).
  unfold set_gate, end_thread; cbn [state threads accepting drained observing].
  apply (server_ok_move _ own_keys w t (Some (Checked permit)) None); [done|].
  apply keyless_move; try done; rewrite ?Hl; cbn [front with_front engine]; try done.
  - by apply permit_release_ok.
  - intros id p Hp Hr. apply unreleased_after in Hp as [Hne Hp]; [|done].
    right. split; [done|]. intros ? [= <-]. cbn. congruence.
  - intros t' Hne. rewrite Hg. split; [|done]. congruence.
  - intros Hat. destruct (not_attempted _ w Hw); [left; eauto|done].
Qed.

(** The last lease of a thread goes away. *)
Lemma step_release_ok w t now :
  server_ok connection w → threads w !! t = Some Leased →
  server_ok connection (end_thread t (bump_event (add_leases (-1) (restart_idle_window now (state w)))) w).
Proof.
  intros Hw Ht. pose proof (ok_leases _ _ Hw) as Hle.
  assert (Hl : leases (delete t (threads w)) = leases (threads w) - 1)
    by (rewrite (leases_delete _ _ _ Ht); cbn; lia).
  assert (Hg : gate w ≠ GateBegin t).
  { intros Hg. apply (ok_gate _ _ Hw) in Hg as [? ?]. congruence. }
  apply (server_ok_move _ own_keys w t (Some Leased) None); [done|].
  apply keyless_move; try done; rewrite ?Hl.
  - apply Hw.
  - intros id p Hp _. right. split; [done|]. by intros ? [= <-].
  - cbn. destruct (engine (state w)) as [e|]; cbn in *; [lia|].
    by pose proof (leases_zero _ _ _ Hle Ht).
  - lia.
Qed.

Lemma step_engine_ok w e :
  server_ok connection w →
  as_lease_count e = match engine (state w) with Some e' => as_lease_count e' | None => 0 end →
  server_ok connection (set_state (with_engine (Some e) (state w)) w).
Proof.
  intros Hw He. apply server_ok_state; try done; [by apply Hw|]. cbn.
  destruct (engine (state w)); cbn; [left; by rewrite He|right; by rewrite He].
Qed.
Lemma bump_event_ok w : server_ok connection w → server_ok connection (set_state (bump_event (state w)) w).
Proof. intros Hw. apply server_ok_state; try done; [by apply Hw|by left]. Qed.

(** While an attempt holds the gate the flag is set: steps that keep both, or set it. *)
Lemma flag_keep w w' :
  flag_ok w → (∀ stage, gate w' = GateDrain stage → gate w = GateDrain stage) →
  (draining (state w) = true → draining (state w') = true) → flag_ok w'.
Proof. intros Hw Hg Hd stage Hs. eauto. Qed.

Lemma try_admit_draining class retry s :
  draining (try_admit_request class retry s).2 = draining s.
Proof. unfold try_admit_request. by destruct (try_acquire _ _ _) as [[] ?]. Qed.
Lemma update_phase_draining key phase s :
  draining (update_request_phase key phase s) = draining s.
Proof.
  unfold update_request_phase. destruct (active_requests s !! key); [|done].
  by destruct (str_eqb _ _).
Qed.

Lemma server_step_flag w w' : flag_ok w → server_step connection w w' → flag_ok w'.
Proof.
  intros Hw Hstep. destruct Hstep; try exact Hw; try (by intros stage' [=]);
    try (apply (flag_keep w); [done|done|cbn; try done]).
  - by rewrite <-(try_admit_draining class retry), H0.
  - by rewrite <-(try_admit_draining class retry), H0.
  - by rewrite update_phase_draining.
  - by rewrite (proj1 (proj2 (proj2 (proj2 (remove_cancellation_cases key (state w)))))).
  - by rewrite (proj1 (proj2 (proj2 (proj2 (remove_cancellation_cases key (state w)))))).
  - by rewrite (proj1 (proj2 (proj2 (proj2 (server_cancel_frame target token pid start (state w)))))).
  - intros st _. by eapply Hw.
Qed.

Lemma server_step_ok w w' :
  server_ok connection w → flag_ok w → server_step connection w w' → server_ok connection w'.
Proof.
  intros Hw Hflag Hstep. destruct Hstep.
  - by apply step_accept_ok.
  - by apply (end_keyless_ok _ own_keys _ _ Connected).
  - by eapply step_admit_ok.
  - assert (s = state w) as ->
      by (exact (try_admit_cases class retry (state w) _ _ (ok_front _ _ Hw) H0)).
    by apply (end_keyless_ok _ own_keys _ _ Connected).
  - by apply (end_keyless_ok _ own_keys _ _ (Permitted permit)).
  - by apply step_check_ok.
  - by apply (end_keyless_ok _ own_keys _ _ (Permitted permit)).
  - by apply step_insert_ok.
  - by apply step_duplicate_ok.
  - apply (step_engine_ok w e) in Hw; [|by rewrite H1]. by apply bump_event_ok in Hw.
  - apply step_engine_ok; [done|]. by rewrite H.
  - apply (step_lease_ok _ own_keys w t (Running key permit false) _ 1);
      solve [done|eauto 10|cbn; by destruct (engine (state w))].
  - apply (step_lease_ok _ own_keys w t (Running key permit true) _ (-1));
      solve [done|eauto 10|left; lia|cbn; by destruct (engine (state w))].
  - by apply step_release_ok.
  - by eapply server_ok_phase.
  - by apply step_finish_active_ok.
  - by apply (step_finish_ok _ own_keys w t key permit true now).
  - by apply (step_finish_ok _ own_keys w t key permit false now).
  - by apply server_ok_cancel.
  - by apply step_drain_begin_ok.
  - by eapply step_drain_next_ok.
  - by eapply step_rollback_ok.
  - apply step_drain_commit_ok; try done. by eapply Hflag.
  - apply step_observe_ok; try done. by intros ? [= <-].
  - by eapply step_observe_next_ok.
  - destruct (ok_observing _ _ Hw _ H) as (? & ? & _). by apply step_observe_ok.
  - by apply step_observe_idle_ok.
  - apply (server_ok_gate _ w); try done; [apply Hw|apply Hw|].
    intros stage Hs. by destruct (ok_observing _ _ Hw _ Hs) as (? & ? & ?).
  - apply server_ok_state; try done; [by apply Hw|by left].
Qed.

Lemma reachable_ok now w :
  server_reachable connection now w → server_ok connection w ∧ flag_ok w.
Proof.
  induction 1 as [|w w' _ [IH1 IH2] _ Hs].
  - split; [apply initial_server_ok|done].
  - split; [by apply (server_step_ok w)|by apply (server_step_flag w)].
Qed.

(** Nothing undoes a committed drain. *)
Lemma drained_step w w' :
  server_step connection w w' → drained w = true → drained w' = true.
Proof. by destruct 1. Qed.

(** [C39] A drain that has answered "idle" is final: from then on, in every interleaving,
    the drain flag stays set, no request is registered, no residency lease is held, no
    thread waits to insert a request, and no attempt that could clear the flag is in
    progress.  The answer may be that of an attempt that found the flag already set. *)
Theorem drain_commit_final now w w' :
  server_reachable connection now w → drained w = true →
  rtc (λ a b, accepting a = true ∧ server_step connection a b) w w' →
  drained w' = true ∧ draining (state w') = true ∧ active_requests (state w') = ∅ ∧
  (∀ t h, threads w' !! t = Some h → thread_lease h = false ∧ (∀ p, h ≠ Checked p) ∧
     ∀ key p lease, h ≠ Running key p lease) ∧
  match engine (state w') with Some e => as_lease_count e = 0 | None => True end ∧
  gate w' = GateFree.
Proof.
  intros Hr Hd Hsteps.
  assert (server_reachable connection now w' ∧ drained w' = true) as [Hr' Hd'].
  { revert Hr Hd. induction Hsteps as [w|w w1 w' [Ha Hs] _ IH]; [done|]. intros Hr Hd.
    apply IH; [by eapply reach_step|by eapply drained_step]. }
  destruct (reachable_ok _ _ Hr') as [Hok _].
  destruct (ok_drained _ _ Hok Hd') as (Hdr & Hact & Hl & Hg).
  split_and!; try done.
  - intros t h Ht. split; [by eapply leases_zero|]. split.
    + intros p ->. pose proof (ok_checked _ _ Hok _ _ Ht). congruence.
    + intros key p lease ->. assert (is_Some (active_requests (state w') !! key)) as [? Hk]
        by (apply (ok_active _ _ Hok); eauto).
      by rewrite Hact, lookup_empty in Hk.
  - pose proof (ok_leases _ _ Hok) as He. destruct (engine (state w')); [congruence|done].
Qed.

(** Handlers leave nothing behind: in every reachable state with no handler thread the
    request and cancellation tables are empty, both admission depths are zero, the engine
    holds no lease and the gate is not held by a request. *)
Theorem server_leaves_nothing now w :
  server_reachable connection now w → threads w = ∅ →
  active_requests (state w) = ∅ ∧ cancellations (state w) = ∅ ∧
  depths (front (state w)) = no_depths ∧
  match engine (state w) with Some e => as_lease_count e = 0 | None => True end ∧
  (∀ t, gate w ≠ GateBegin t).
Proof.
  intros Hr Hn. destruct (reachable_ok _ _ Hr) as [Hok _].
  assert (Hno : ∀ t h, threads w !! t ≠ Some h) by (intros t h; by rewrite Hn, lookup_empty).
  split_and!.
  - apply map_empty. intros key. apply eq_None_not_Some. rewrite (ok_active _ _ Hok).
    intros (t & ? & ? & Ht). by destruct (Hno _ _ Ht).
  - apply map_empty. intros key. destruct (cancellations (state w) !! key) eqn:Hk; [|done].
    destruct (ok_cancellations _ _ Hok _ _ Hk) as (t & h & Ht & _). by destruct (Hno _ _ Ht).
  - pose proof (ok_front _ _ Hok) as [Hd _ _].
    assert (Hlive : ∀ c, live c (permits (front (state w))) = 0).
    { intros c. unfold live. rewrite (proj2 (map_size_empty_iff _)); [done|].
      apply map_empty_filter. intros id p Hp [_ Hrel].
      destruct (ok_permits _ _ Hok _ _ Hp Hrel) as (t & h & Ht & _). by destruct (Hno _ _ Ht). }
    pose proof (Hd EmbeddingRequestClass.Query) as Hq.
    pose proof (Hd EmbeddingRequestClass.Bulk) as Hb. rewrite Hlive in Hq, Hb.
    destruct (depths (front (state w))) as [q b]; cbn in Hq, Hb. by subst.
  - pose proof (ok_leases _ _ Hok) as He. destruct (engine (state w)); [|done].
    rewrite He, Hn. reflexivity.
  - intros t Hg. destruct (ok_gate _ _ Hok _ Hg) as [? Ht]. by destruct (Hno _ _ Ht).
Qed.
End Reachable.

(** ** The window *)
Module DrainSample.
Section Sample.
Context (connection : nat → str) (now : Z).
Definition registration : ServerRequestRegistration :=
  {| reg_connection_id := connection 0%nat; reg_request_id := lit "r"; reg_scope_id := lit "s";
     reg_class := EmbeddingRequestClass.Query; reg_phase := lit "queued"; reg_cell := 0;
     reg_permit := 0; reg_auth := None |}.
Definition key : str := request_key (connection 0%nat) (lit "r").
Definition accepted : Server := set_thread 0 Connected (initial_state now) (initial_server now).
Definition permitted_state : ServerState :=
  (try_admit_request EmbeddingRequestClass.Query 100 (initial_state now)).2.
Definition permitted : Server := set_thread 0 (Permitted 0) permitted_state accepted.
Definition checked : Server :=
  set_gate (GateBegin 0) (set_thread 0 (Checked 0) permitted_state permitted).
Definition running_state : ServerState := insert_request registration now permitted_state.
Definition running : Server :=
  set_gate GateFree (set_thread 0 (Running key 0 false) running_state checked).
Definition attempted : Server :=
  set_gate (GateDrain DrainBegun) (set_state (with_draining true running_state) running).
Definition departed : Server :=
  {| state := state attempted; gate := gate attempted; threads := threads attempted;
     accepting := false; drained := false; observing := None |}.

Lemma accepted_reachable : server_reachable connection now accepted.
Proof. eapply reach_step; [apply reach_start|done|by apply step_accept]. Qed.
Lemma running_reachable : server_reachable connection now running.
Proof.
  eapply reach_step with checked; [|done|].
  - eapply reach_step with permitted; [|done|].
    + eapply reach_step; [apply accepted_reachable|done|].
      by eapply (step_admit _ _ 0%nat EmbeddingRequestClass.Query 100).
    + by apply (step_begin_check _ permitted 0%nat 0%nat).
  - by apply (step_begin_insert _ checked 0%nat 0%nat registration now).
Qed.
Lemma departed_reachable : server_reachable connection now departed.
Proof.
  eapply reach_step with attempted; [|done|by apply (step_accept_exit _ attempted)].
  eapply reach_step; [apply running_reachable|done|]. by apply (step_drain_begin _ running).
Qed.

Definition finishing : Server :=
  set_thread 0 (Finishing key 0 false) (remove_active key running_state) running.
Definition finished : Server := end_thread 0
  (let s := bump_event (restart_idle_window now
              (remove_cancellation key (remove_active key running_state))) in
   with_front (permit_release 0 (front s)) s) finishing.
Lemma finished_reachable : server_reachable connection now finished.
Proof.
  eapply reach_step with finishing; [|done|by apply (step_finish _ finishing 0%nat key 0%nat)].
  eapply reach_step; [apply running_reachable|done|].
  by apply (step_finish_active _ running 0%nat key 0%nat false).
Qed.

Definition idle (stage : DrainStage) : Server :=
  set_gate (GateDrain stage)
    (set_state (with_draining true (initial_state now)) (initial_server now)).
Definition committed : Server :=
  {| state := bump_event (state (idle EngineIdle)); gate := GateFree; threads := ∅;
     accepting := true; drained := true; observing := None |}.
Lemma committed_reachable : server_reachable connection now committed.
Proof.
  eapply reach_step with (idle EngineIdle); [|done|by apply (step_drain_commit _ (idle EngineIdle))].
  eapply reach_step with (idle NoPermits);
    [|done|by apply (step_drain_next _ (idle NoPermits) NoPermits)].
  eapply reach_step with (idle NoActive);
    [|done|by apply (step_drain_next _ (idle NoActive) NoActive)].
  eapply reach_step with (idle DrainBegun);
    [|done|by apply (step_drain_next _ (idle DrainBegun) DrainBegun)].
  eapply reach_step; [apply reach_start|done|]. by apply step_drain_begin.
Qed.

(** An attempt that finds the flag set, by a fail stop or an earlier drain, reads an idle
    server and says so. *)
Lemma observed_idle w :
  server_reachable connection now w → accepting w = true → gate w = GateFree →
  draining (state w) = true → observing w = None → active_requests (state w) = ∅ →
  depths (front (state w)) = no_depths → engine (state w) = None →
  server_reachable connection now (set_observing None true w).
Proof.
  intros Hr Ha Hg Hd Ho Hact Hdep He.
  set (at_stage := λ stage, set_observing (Some stage) (drained w) w).
  assert (Hnext : ∀ stage stage', server_reachable connection now (at_stage stage) →
    next_stage stage = Some stage' → server_reachable connection now (at_stage stage')).
  { intros stage stage' Hst Hn. eapply reach_step; [exact Hst|done|].
    apply (step_observe_next connection (at_stage stage) stage stage'); [done| |done].
    destruct stage; cbn; [by rewrite Hact|by rewrite Hdep|by rewrite He|done]. }
  eapply reach_step with (at_stage EngineIdle);
    [|done|by apply (step_observe_idle connection (at_stage EngineIdle))].
  apply (Hnext NoPermits), eq_refl. apply (Hnext NoActive), eq_refl.
  apply (Hnext DrainBegun), eq_refl. eapply reach_step; [exact Hr|done|].
  by apply step_observe_begin.
Qed.
End Sample.

(** Unary connection ids. *)
Definition unary (t : nat) : str := replicate t "1"%char.
Lemma unary_own_keys t t' r r' :
  t ≠ t' → request_key (unary t) r ≠ request_key (unary t') r'.
Proof.
  revert t'. induction t as [|t IH]; intros [|t'] Hne; try done.
  intros [= He]. apply (IH t'); [congruence|done].
Qed.
End DrainSample.

Lemma drain_commit_final_witness :
  let w := DrainSample.committed 0 in
  drained w = true ∧ draining (state w) = true ∧ gate w = GateFree.
Proof.
  destruct (drain_commit_final DrainSample.unary DrainSample.unary_own_keys 0
    (DrainSample.committed 0) (DrainSample.committed 0)
    (DrainSample.committed_reachable DrainSample.unary 0) eq_refl (rtc_refl _ _))
    as (H1 & H2 & _ & _ & _ & H3).
  exact (conj H1 (conj H2 H3)).
Defined.

Lemma server_leaves_nothing_witness :
  let w := DrainSample.finished DrainSample.unary 0 in
  active_requests (state w) = ∅ ∧ depths (front (state w)) = no_depths.
Proof.
  assert (Hn : threads (DrainSample.finished DrainSample.unary 0) = ∅) by reflexivity.
  destruct (server_leaves_nothing DrainSample.unary DrainSample.unary_own_keys 0
    (DrainSample.finished DrainSample.unary 0)
    (DrainSample.finished_reachable DrainSample.unary 0) Hn) as (H1 & _ & H2 & _).
  exact (conj H1 H2).
Defined.

(** The accept loop can leave a busy server: while a drain attempt that will answer
    "not idle" holds the gate, the loop reads the flag the attempt has already set and
    exits, although a request runs, no drain has been committed and nothing has failed.
    (The flag is rolled back too late.) *)
Theorem drain_window_stops_busy_server connection now :
  ∃ w, server_reachable connection now w ∧ accepting w = false ∧ drained w = false ∧
    stopped (state w) = false ∧ last_failure (state w) = None ∧
    (∃ key, threads w !! 0%nat = Some (Running key 0 false) ∧
       is_Some (active_requests (state w) !! key)) ∧
    gate w = GateDrain DrainBegun ∧ stage_test DrainBegun (state w) = false.
Proof.
  exists (DrainSample.departed connection now). split; [apply DrainSample.departed_reachable|].
  assert (Hk : is_Some (active_requests (state (DrainSample.departed connection now)) !!
                          DrainSample.key connection))
    by (cbn; eexists; apply lookup_insert_eq).
  split_and!; try done; [by eexists|]. cbn. apply bool_decide_eq_false. intros He.
  apply (f_equal (lookup (DrainSample.key connection))) in He.
  by rewrite lookup_insert_eq, lookup_empty in He.
Qed.
