(* ===== verification/Sorting.v ===== *)
(** * Stable sorting and comparison functions

    The standard library's stable sorts ([sort_by], [sort_by_key]) as insertion sort, and
    comparison functions as Rust composes them ([then_with], [Ord] on options and strings,
    [partial_cmp] on floats): a class of lawful comparisons, closed under composition, on
    the elements for which a predicate holds. *)
From S2P Require Import Prelude RustStr.

(** ** Stable insertion sort *)
Section SortBy.
Context {A : Type} (le : A → A → bool).
Fixpoint insert_by (x : A) (l : list A) : list A :=
  match l with
  | [] => [x]
  | y :: l' => if le x y then x :: l else y :: insert_by x l'
  end.
Definition sort_by (l : list A) : list A := foldr insert_by [] l.

Lemma insert_by_perm x l : insert_by x l ≡ₚ x :: l.
Proof.
  induction l as [|y l IH]; cbn; [done|]. destruct (le x y); [done|].
  rewrite IH. constructor.
Qed.
Lemma sort_by_perm l : sort_by l ≡ₚ l.
Proof. induction l as [|x l IH]; cbn; [done|]. by rewrite insert_by_perm, IH. Qed.

Definition sorted_by (l : list A) : Prop := StronglySorted (λ a b, le a b = true) l.

Section Sorted.
Context (P : A → Prop)
  (le_total : ∀ a b, P a → P b → le a b = false → le b a = true)
  (le_trans : ∀ a b c, P a → P b → P c → le a b = true → le b c = true → le a c = true).

Lemma insert_by_sorted x l : P x → Forall P l → sorted_by l → sorted_by (insert_by x l).
Proof.
  intros Hx. induction l as [|y l IH]; intros Hl Hs; cbn; [by apply SSorted_cons|].
  apply Forall_cons in Hl as [Hy Hl]. inversion Hs as [|?? Hs' Hall]; subst.
  destruct (le x y) eqn:Hxy.
  - constructor; [done|]. constructor; [done|]. rewrite Forall_forall in Hall, Hl |- *.
    intros z Hz. by apply (le_trans x y z); [| |apply Hl| |apply Hall].
  - constructor; [by apply IH|]. rewrite insert_by_perm. constructor; [by apply le_total|done].
Qed.
Lemma sort_by_sorted l : Forall P l → sorted_by (sort_by l).
Proof.
  induction 1 as [|x l Hx Hl IH]; cbn; [constructor|]. apply insert_by_sorted; [done| |done].
  by rewrite sort_by_perm.
Qed.
End Sorted.

Lemma sort_by_id l : sorted_by l → sort_by l = l.
Proof.
  induction 1 as [|x l Hl IH Hall]; cbn; [done|]. unfold sort_by in IH. rewrite IH.
  destruct l as [|y l]; cbn; [done|]. apply Forall_cons in Hall as [Hy _]. by rewrite Hy.
Qed.

(** Filtering commutes with sorting. *)
Lemma filter_insert_by (Q : A → bool) x l :
  (∀ a b c, le a b = true → le b c = true → le a c = true) → sorted_by l →
  List.filter Q (insert_by x l) =
    if Q x then insert_by x (List.filter Q l) else List.filter Q l.
Proof.
  intros Htrans. induction 1 as [|y l Hl IH Hall]; cbn [insert_by List.filter]; [done|].
  destruct (le x y) eqn:Hxy.
  - cbn [List.filter]. destruct (Q x); [|done]. destruct (Q y) eqn:Hy.
    { cbn [insert_by]. by rewrite Hxy. }
    clear IH Hy. induction l as [|z l IHl]; cbn [List.filter]; [done|].
    apply Forall_cons in Hall as [Hz Hall]. inversion Hl; subst.
    destruct (Q z); [|by apply IHl]. cbn [insert_by]. by rewrite (Htrans x y z).
  - cbn [List.filter]. rewrite IH. destruct (Q y), (Q x); cbn [insert_by]; by rewrite ?Hxy.
Qed.
Lemma filter_sort_by (Q : A → bool) l :
  (∀ a b, le a b = false → le b a = true) →
  (∀ a b c, le a b = true → le b c = true → le a c = true) →
  List.filter Q (sort_by l) = sort_by (List.filter Q l).
Proof.
  intros Htotal Htrans. induction l as [|x l IH]; cbn; [done|].
  rewrite filter_insert_by; [|done|].
  - unfold sort_by in IH. rewrite IH. by destruct (Q x).
  - apply (sort_by_sorted (λ _, True)); [by eauto|by eauto|by apply Forall_true].
Qed.
End SortBy.

(** [sort_by_key] on a key that is a number. *)
Definition key_leb {A} (key : A → nat) (a b : A) : bool := (key a <=? key b)%nat.
Definition sort_by_key {A} (key : A → nat) : list A → list A := sort_by (key_leb key).
Lemma key_leb_total {A} (key : A → nat) a b : key_leb key a b = false → key_leb key b a = true.
Proof. unfold key_leb. rewrite Nat.leb_gt, Nat.leb_le. lia. Qed.
Lemma key_leb_trans {A} (key : A → nat) a b c :
  key_leb key a b = true → key_leb key b c = true → key_leb key a c = true.
Proof. unfold key_leb. rewrite !Nat.leb_le. lia. Qed.
Lemma sort_by_key_perm {A} (key : A → nat) l : sort_by_key key l ≡ₚ l.
Proof. apply sort_by_perm. Qed.
Lemma sort_by_key_sorted {A} (key : A → nat) l :
  StronglySorted (λ a b, (key a ≤ key b)%nat) (sort_by_key key l).
Proof.
  assert (sorted_by (key_leb key) (sort_by_key key l)) as H.
  { apply (sort_by_sorted _ (λ _, True)); [| |by apply Forall_true].
    - intros a b _ _. apply key_leb_total.
    - intros a b c _ _ _. apply key_leb_trans. }
  induction H as [|x l' Hl IH Hall]; constructor; [done|].
  eapply Forall_impl; [exact Hall|]. intros y. apply Nat.leb_le.
Qed.
Lemma sort_by_key_id {A} (key : A → nat) l :
  StronglySorted (λ a b, (key a ≤ key b)%nat) l → sort_by_key key l = l.
Proof.
  intros H. apply sort_by_id. induction H as [|x l Hl IH Hall]; constructor; [done|].
  eapply Forall_impl; [exact Hall|]. intros y. apply Nat.leb_le.
Qed.
Lemma filter_sort_by_key {A} (key : A → nat) (Q : A → bool) l :
  List.filter Q (sort_by_key key l) = sort_by_key key (List.filter Q l).
Proof. apply filter_sort_by; [apply key_leb_total|apply key_leb_trans]. Qed.

(** ** Comparisons *)
Class CmpLaws {A} (P : A → Prop) (cmp : A → A → comparison) : Prop := {
  cmp_opp a b : P a → P b → cmp b a = CompOpp (cmp a b);
  cmp_trans a b c x : P a → P b → P c → cmp a b = x → cmp b c = x → cmp a c = x;
  cmp_eq_l a b c : P a → P b → P c → cmp a b = Eq → cmp a c = cmp b c;
}.
Lemma cmp_eq_r {A} (P : A → Prop) cmp `{!CmpLaws P cmp} a b c :
  P a → P b → P c → cmp b c = Eq → cmp a b = cmp a c.
Proof.
  intros Ha Hb Hc H. rewrite (cmp_opp b a), (cmp_opp c a) by done. f_equal.
  apply (cmp_eq_l b c a); done.
Qed.

(** [a <= b] of a comparison, and the sort it gives. *)
Definition cmp_leb {A} (cmp : A → A → comparison) (a b : A) : bool :=
  match cmp a b with Gt => false | _ => true end.
Lemma cmp_leb_total {A} (P : A → Prop) cmp `{!CmpLaws P cmp} a b :
  P a → P b → cmp_leb cmp a b = false → cmp_leb cmp b a = true.
Proof.
  intros Ha Hb. unfold cmp_leb. rewrite (cmp_opp a b) by done. by destruct (cmp a b).
Qed.
Lemma cmp_leb_trans {A} (P : A → Prop) cmp `{!CmpLaws P cmp} a b c :
  P a → P b → P c → cmp_leb cmp a b = true → cmp_leb cmp b c = true → cmp_leb cmp a c = true.
Proof.
  intros Ha Hb Hc. unfold cmp_leb.
  destruct (cmp a b) eqn:Hab; [|destruct (cmp b c) eqn:Hbc|done].
  - by rewrite (cmp_eq_l a b c).
  - by rewrite <-(cmp_eq_r P cmp a b c), Hab.
  - by rewrite (cmp_trans a b c Lt).
  - done.
Qed.
Lemma cmp_sorted {A} (P : A → Prop) cmp `{!CmpLaws P cmp} l :
  Forall P l → sorted_by (cmp_leb cmp) (sort_by (cmp_leb cmp) l).
Proof.
  intros Hl. apply (sort_by_sorted _ P); [| |done].
  - intros a b. by apply (cmp_leb_total P cmp).
  - intros a b c. by apply (cmp_leb_trans P cmp).
Qed.

Definition then_with {A} (first second : A → A → comparison) (a b : A) : comparison :=
  match first a b with Eq => second a b | c => c end.
Definition cmp_on {A B} (f : A → B) (cmp : B → B → comparison) (a b : A) : comparison :=
  cmp (f a) (f b).
Definition cmp_flip {A} (cmp : A → A → comparison) (a b : A) : comparison := cmp b a.
Definition option_cmp {A} (cmp : A → A → comparison) (a b : option A) : comparison :=
  match a, b with
  | None, None => Eq
  | None, Some _ => Lt
  | Some _, None => Gt
  | Some a, Some b => cmp a b
  end.
Fixpoint list_cmp {A} (cmp : A → A → comparison) (a b : list A) : comparison :=
  match a, b with
  | [], [] => Eq
  | [], _ => Lt
  | _, [] => Gt
  | x :: a, y :: b => match cmp x y with Eq => list_cmp cmp a b | c => c end
  end.
Definition ascii_cmp (a b : ascii) : comparison := N.compare (N_of_ascii a) (N_of_ascii b).
(** [Ord] of [str]. *)
Definition str_cmp : str → str → comparison := list_cmp ascii_cmp.

(** Comparisons that tell different values apart. *)
Lemma list_cmp_eq {A} (cmp : A → A → comparison) :
  (∀ a b, cmp a b = Eq → a = b) → ∀ a b, list_cmp cmp a b = Eq → a = b.
Proof.
  intros Hcmp. induction a as [|x a IH]; intros [|y b]; cbn; try done.
  destruct (cmp x y) eqn:Hxy; try done. intros H. by rewrite (Hcmp x y Hxy), (IH b H).
Qed.
Lemma ascii_cmp_eq a b : ascii_cmp a b = Eq → a = b.
Proof.
  intros H%N.compare_eq. by rewrite <-(ascii_N_embedding a), H, ascii_N_embedding.
Qed.
Lemma str_cmp_eq a b : str_cmp a b = Eq → a = b.
Proof. apply list_cmp_eq, ascii_cmp_eq. Qed.
Lemma then_with_eq {A} (f g : A → A → comparison) a b :
  then_with f g a b = Eq → f a b = Eq ∧ g a b = Eq.
Proof. unfold then_with. by destruct (f a b). Qed.

#[export] Instance then_with_laws {A} (P : A → Prop) first second :
  CmpLaws P first → CmpLaws P second → CmpLaws P (then_with first second).
Proof.
  intros H1 H2. split; unfold then_with.
  - intros a b Ha Hb. rewrite (cmp_opp a b) by done. destruct (first a b); cbn; try done.
    by apply cmp_opp.
  - intros a b c x Ha Hb Hc.
    destruct (first a b) eqn:Hab; destruct (first b c) eqn:Hbc; intros <-; try done;
      try (rewrite (cmp_eq_l (cmp := first) a b c), Hbc by done); try done;
      try (rewrite <-(cmp_eq_r P first a b c), Hab by done); try done;
      try (by rewrite (cmp_trans (cmp := first) a b c _ Ha Hb Hc Hab Hbc)).
    intros H. by apply (cmp_trans (cmp := second) a b c).
  - intros a b c Ha Hb Hc. destruct (first a b) eqn:Hab; try done. intros H.
    rewrite (cmp_eq_l (cmp := first) a b c) by done. destruct (first b c); try done.
    by apply cmp_eq_l.
Qed.
Lemma cmp_on_laws {A B} (P : B → Prop) (f : A → B) cmp :
  CmpLaws P cmp → CmpLaws (λ a, P (f a)) (cmp_on f cmp).
Proof.
  intros H. split; unfold cmp_on.
  - intros a b. apply cmp_opp.
  - intros a b c x. apply cmp_trans.
  - intros a b c. apply cmp_eq_l.
Qed.
Lemma on_laws {A B} (f : A → B) cmp :
  CmpLaws (λ _, True) cmp → CmpLaws (λ _ : A, True) (cmp_on f cmp).
Proof. apply (cmp_on_laws (λ _, True)). Qed.
Lemma cmp_flip_laws {A} (P : A → Prop) cmp :
  CmpLaws P cmp → CmpLaws P (cmp_flip cmp).
Proof.
  intros H. split; unfold cmp_flip.
  - intros a b Ha Hb. by apply cmp_opp.
  - intros a b c x Ha Hb Hc H1 H2. by apply (cmp_trans c b a).
  - intros a b c Ha Hb Hc H1. symmetry. apply (cmp_eq_r P cmp c b a); try done.
Qed.
Lemma cmp_laws_weaken {A} (P Q : A → Prop) cmp :
  (∀ a, Q a → P a) → CmpLaws P cmp → CmpLaws Q cmp.
Proof.
  intros HPQ H. split.
  - intros a b Ha Hb. apply cmp_opp; auto.
  - intros a b c x Ha Hb Hc. apply cmp_trans; auto.
  - intros a b c Ha Hb Hc. apply cmp_eq_l; auto.
Qed.

Lemma option_cmp_laws {A} (cmp : A → A → comparison) :
  CmpLaws (λ _, True) cmp → CmpLaws (λ _, True) (option_cmp cmp).
Proof.
  intros H. split.
  - intros [a|] [b|] _ _; cbn; try done. by apply cmp_opp.
  - intros [a|] [b|] [c|] x _ _ _; cbn; intros H1 H2; subst; try done. by apply (cmp_trans a b c).
  - intros [a|] [b|] [c|] _ _ _; cbn; try done. by apply cmp_eq_l.
Qed.
Lemma list_cmp_laws {A} (cmp : A → A → comparison) :
  CmpLaws (λ _, True) cmp → CmpLaws (λ _, True) (list_cmp cmp).
Proof.
  intros H. split.
  - intros a. induction a as [|x a IH]; intros [|y b] _ _; cbn; try done.
    rewrite (cmp_opp x y) by done. destruct (cmp x y); cbn; try done. by apply IH.
  - intros a. induction a as [|x a IH]; intros [|y b] [|z c] o _ _ _; cbn; try congruence.
    destruct (cmp x y) eqn:Hxy; destruct (cmp y z) eqn:Hyz; intros <-; try done;
      try (rewrite (cmp_eq_l (cmp := cmp) x y z), Hyz by done); try done;
      try (rewrite <-(cmp_eq_r (λ _, True) cmp x y z), Hxy by done); try done;
      try (by rewrite (cmp_trans x y z _ I I I Hxy Hyz)).
    intros Hc. by apply (IH b c).
  - intros a. induction a as [|x a IH]; intros [|y b] [|z c] _ _ _; cbn; try done.
    destruct (cmp x y) eqn:Hxy; try done. intros Hc.
    rewrite (cmp_eq_l x y z) by done. destruct (cmp y z); try done. by apply IH.
Qed.
#[export] Instance Z_cmp_laws : CmpLaws (λ _, True) Z.compare.
Proof.
  split.
  - intros a b _ _. apply Z.compare_antisym.
  - intros a b c x _ _ _. destruct (Z.compare_spec a b), (Z.compare_spec b c); intros <- ?;
      try done; subst; destruct (Z.compare_spec a c) || destruct (Z.compare_spec c c); try done; lia.
  - intros a b c _ _ _ ->%Z.compare_eq. done.
Qed.
#[export] Instance ascii_cmp_laws : CmpLaws (λ _, True) ascii_cmp.
Proof.
  split; unfold ascii_cmp.
  - intros a b _ _. apply N.compare_antisym.
  - intros a b c x _ _ _. rewrite <-!N2Z.inj_compare. by apply (cmp_trans (cmp := Z.compare)).
  - intros a b c _ _ _ ->%N.compare_eq. done.
Qed.
#[export] Instance str_cmp_laws : CmpLaws (λ _, True) str_cmp.
Proof. apply list_cmp_laws, _. Qed.

(** ** Floats *)

(** The order of the floats that are numbers is the lexicographic one of these keys. *)
Definition f32_key (a : f32) : Z * Z * Z :=
  match a with
  | S754_nan => (3, 0, 0)
  | S754_infinity true => (-2, 0, 0)
  | S754_finite true m e => (-1, -e, Z.neg m)
  | S754_zero _ => (0, 0, 0)
  | S754_finite false m e => (1, e, Z.pos m)
  | S754_infinity false => (2, 0, 0)
  end.
Definition key_cmp : Z * Z * Z → Z * Z * Z → comparison :=
  then_with (cmp_on (λ k, k.1.1) Z.compare)
    (then_with (cmp_on (λ k, k.1.2) Z.compare) (cmp_on (λ k, k.2) Z.compare)).
Definition f32_partial_cmp : f32 → f32 → option comparison := SFcompare.
Definition f32_number (a : f32) : Prop := a ≠ S754_nan.

Lemma f32_partial_cmp_key a b :
  f32_number a → f32_number b → f32_partial_cmp a b = Some (key_cmp (f32_key a) (f32_key b)).
Proof.
  intros Ha Hb. unfold f32_partial_cmp, key_cmp, then_with, cmp_on, f32_number in *.
  destruct a as [[]|[]| |[] m e], b as [[]|[]| |[] m' e']; try done; cbn [SFcompare f32_key fst snd];
    try reflexivity.
  rewrite Z.compare_refl, Z.compare_opp, (Z.compare_antisym e e'). by destruct (e ?= e').
Qed.

(** [a.partial_cmp(&b).unwrap_or(Equal)]. *)
Definition f32_cmp (a b : f32) : comparison := default Eq (f32_partial_cmp a b).
Lemma f32_cmp_key a b :
  f32_number a → f32_number b → f32_cmp a b = cmp_on f32_key key_cmp a b.
Proof. intros Ha Hb. unfold f32_cmp. by rewrite f32_partial_cmp_key. Qed.

#[export] Instance key_cmp_laws : CmpLaws (λ _, True) key_cmp.
Proof.
  repeat apply then_with_laws; apply (cmp_on_laws (λ _, True)), Z_cmp_laws.
Qed.
(** On the floats that are not NaN the comparison is lawful; with a NaN it is not, since a
    NaN would equal everything. *)
#[export] Instance f32_cmp_laws : CmpLaws f32_number f32_cmp.
Proof.
  pose proof (cmp_on_laws (λ _, True) f32_key key_cmp _) as H. split.
  - intros a b Ha Hb. rewrite !f32_cmp_key by done. by apply (cmp_opp (CmpLaws := H)).
  - intros a b c x Ha Hb Hc. rewrite !f32_cmp_key by done. by apply (cmp_trans (CmpLaws := H)).
  - intros a b c Ha Hb Hc. rewrite !f32_cmp_key by done. by apply (cmp_eq_l (CmpLaws := H)).
Qed.
