(* ===== verification/StrOps.v ===== *)
(** * More of [str]

    The splitting, stripping and trimming operations of Rust strings that the language
    tables, the resolver and the ranker use, on the UTF-8 bytes.  Separators and stripped
    characters are ASCII except where a string is the pattern. *)
From S2P Require Import Prelude RustStr RetrievalData.

(** [str::find] of a string. *)
Fixpoint find_str (s pat : str) : option nat :=
  if starts_with s pat then Some 0%nat
  else match s with [] => None | _ :: s' => S <$> find_str s' pat end.

(** [str::split] of one character, and of any character that passes a test. *)
Fixpoint split_when (sep : ascii → bool) (s word : str) : list str :=
  match s with
  | [] => [word]
  | x :: s => if sep x then word :: split_when sep s [] else split_when sep s (word ++ [x])
  end.
Definition split_on (c : ascii) (s : str) : list str := split_when (λ x, Ascii.eqb x c) s [].
(** [str::rsplit]: the same pieces from the end. *)
Definition rsplit_when (sep : ascii → bool) (s : str) : list str := reverse (split_when sep s []).
Definition rsplit_on (c : ascii) (s : str) : list str := reverse (split_on c s).
(** A separator test from its characters. *)
Definition any_char (cs : list ascii) (x : ascii) : bool := existsb (Ascii.eqb x) cs.

(** [str::split_once] and [str::rsplit_once] of a string. *)
Definition split_once (s pat : str) : option (str * str) :=
  (λ i, (take i s, drop (i + length pat) s)) <$> find_str s pat.
Definition rsplit_once (s pat : str) : option (str * str) :=
  (λ i, (take i s, drop (i + length pat) s)) <$> rfind s pat.

(** [str::strip_prefix] and [str::strip_suffix]. *)
Definition strip_prefix (s pat : str) : option str :=
  if starts_with s pat then Some (drop (length pat) s) else None.
Definition strip_suffix (s pat : str) : option str :=
  if ends_with s pat then Some (take (length s - length pat) s) else None.

(** [trim_start_matches], [trim_end_matches] and [trim_matches] of a character test. *)
Fixpoint drop_while (f : ascii → bool) (s : str) : str :=
  match s with
  | [] => []
  | x :: s' => if f x then drop_while f s' else s
  end.
Definition trim_start_matches (f : ascii → bool) (s : str) : str := drop_while f s.
Definition trim_end_matches (f : ascii → bool) (s : str) : str := reverse (drop_while f (reverse s)).
Definition trim_matches (f : ascii → bool) (s : str) : str :=
  trim_end_matches f (trim_start_matches f s).
(** [trim_end_matches] of a non-empty string. *)
Fixpoint trim_end_str_loop (fuel : nat) (s pat : str) : str :=
  match fuel with
  | O => s
  | S fuel => match strip_suffix s pat with Some s' => trim_end_str_loop fuel s' pat | None => s end
  end.
Definition trim_end_str (s pat : str) : str := trim_end_str_loop (length s) s pat.
(** [trim_start_matches] of a non-empty string. *)
Fixpoint trim_start_str_loop (fuel : nat) (s pat : str) : str :=
  match fuel with
  | O => s
  | S fuel => match strip_prefix s pat with Some s' => trim_start_str_loop fuel s' pat | None => s end
  end.
Definition trim_start_str (s pat : str) : str := trim_start_str_loop (length s) s pat.

Definition eq_ignore_ascii_case (a b : str) : bool :=
  str_eqb (to_ascii_lowercase a) (to_ascii_lowercase b).

(** [Iterator::find_map] on a list. *)
Fixpoint find_map {A B} (f : A → option B) (l : list A) : option B :=
  match l with
  | [] => None
  | x :: l => match f x with Some y => Some y | None => find_map f l end
  end.
Definition option_or {A} (a b : option A) : option A := match a with Some x => Some x | None => b end.

Definition dot : ascii := "."%char.
Definition is_dot (x : ascii) : bool := Ascii.eqb x dot.
Definition slash : ascii := "/"%char.
Definition is_slash (x : ascii) : bool := Ascii.eqb x slash.
Definition quote_char : ascii := "034"%char.
Definition unix_path (path : str) : str := replace path (lit "\") (lit "/").

(** ** Paths ([std::path] on Unix) *)
(** The last component, when it is a name. *)
Fixpoint last_component (reversed : list str) : option str :=
  match reversed with
  | [] => None
  | p :: rest =>
      if str_eqb p [] || str_eqb p (lit ".") then last_component rest
      else if str_eqb p (lit "..") then None
      else Some p
  end.
Definition file_name (path : str) : option str := last_component (reverse (split_on slash path)).
(** The stem and the extension of a file name. *)
Definition split_extension (name : str) : str * option str :=
  match rfind_byte "."%char name with
  | Some (S i) => (take (S i) name, Some (drop (S (S i)) name))
  | _ => (name, None)
  end.
Definition file_stem (path : str) : option str := fst <$> (split_extension <$> file_name path).
Definition file_extension (path : str) : option str :=
  name ← file_name path; snd (split_extension name).

(** ** Lemmas *)
Lemma find_map_Some {A B} (f : A → option B) l y :
  find_map f l = Some y → ∃ x, x ∈ l ∧ f x = Some y.
Proof.
  induction l as [|x l IH]; cbn; [done|]. destruct (f x) as [z|] eqn:Hx.
  - intros [= ->]. exists x. split; [by left|done].
  - intros (a & Ha & Hf)%IH. exists a. split; [by right|done].
Qed.
Lemma find_map_None {A B} (f : A → option B) l :
  find_map f l = None ↔ Forall (λ x, f x = None) l.
Proof.
  induction l as [|x l IH]; cbn; [done|]. rewrite Forall_cons.
  destruct (f x) eqn:Hx; [by split; [|intros []]|]. rewrite IH. by split; [|intros []].
Qed.
Lemma find_map_app {A B} (f : A → option B) l1 l2 :
  find_map f (l1 ++ l2) = option_or (find_map f l1) (find_map f l2).
Proof. induction l1 as [|x l1 IH]; [done|]. cbn. by destruct (f x). Qed.
Lemma find_map_ext {A B} (f g : A → option B) l :
  (∀ x, x ∈ l → f x = g x) → find_map f l = find_map g l.
Proof.
  induction l as [|x l IH]; intros H; [done|]. cbn. rewrite (H x) by (by left).
  destruct (g x); [done|]. apply IH. intros y Hy. apply H. by right.
Qed.
