(* ===== verification/UnixPath.v ===== *)
(** * Paths

    [std::path] on Unix, on path strings in UTF-8: components, joining, parents and
    prefixes.  Lemmas relate the strings that a path is built up from to its components. *)
From S2P Require Import Prelude RustStr RetrievalData Sorting StrOps.

(** ** Components *)
Module Component.
Inductive Component : Type := RootDir | CurDir | ParentDir | Normal (name : str).
End Component.
Abbreviation Component := Component.Component.
#[export] Instance Component_eq_dec : EqDecision Component.
Proof. solve_decision. Defined.

Definition is_absolute (path : str) : bool := starts_with path (lit "/").
Definition is_skipped (segment : str) : bool := one_of segment [[]; lit "."].
Definition starts_with_cur_dir (path : str) : bool :=
  match split_on slash path with segment :: _ => str_eqb segment (lit ".") | [] => false end.
(** [Path::components]: equal paths have equal components. *)
Definition components (path : str) : list Component :=
  (if is_absolute path then [Component.RootDir]
   else if starts_with_cur_dir path then [Component.CurDir] else [])
  ++ ((λ s, if str_eqb s (lit "..") then Component.ParentDir else Component.Normal s)
        <$> List.filter (λ s, negb (is_skipped s)) (split_on slash path)).

(** [Path::join] *)
Definition path_join (base path : str) : str :=
  if is_absolute path then path
  else match last base with
       | None => path
       | Some c => if is_slash c then base ++ path else base ++ lit "/" ++ path
       end.

Fixpoint skip_segments (segments : list str) : list str :=
  match segments with
  | s :: segments' => if is_skipped s then skip_segments segments' else segments
  | [] => []
  end.
Definition trim_segments_end (segments : list str) : list str :=
  reverse (skip_segments (reverse segments)).
(** The text after [n] names. *)
Fixpoint drop_names (n : nat) (segments : list str) : list str :=
  match n with O => segments | S n => drop_names n (tail (skip_segments segments)) end.

(** [path.strip_prefix(root)]: the text after the components of [root]; with an empty root
    the text of all components of the path. *)
Definition path_strip_prefix (path root : str) : option str :=
  let rest segments := join (lit "/") (trim_segments_end segments) in
  if bool_decide (components root `prefix_of` components path) then
    match components root with
    | [] =>
        if is_absolute path then Some (lit "/" ++ rest (tail (split_on slash path)))
        else if starts_with_cur_dir path
        then Some (join (lit "/") (lit "." :: trim_segments_end (tail (split_on slash path))))
        else Some (rest (split_on slash path))
    | _ :: _ =>
        let names := List.filter (λ c, match c with
                                       | Component.ParentDir | Component.Normal _ => true
                                       | _ => false end) (components root) in
        Some (rest (skip_segments (drop_names (length names) (split_on slash path))))
    end
  else None.

(** [Path::starts_with] compares components. *)
Definition path_starts_with (path root : str) : bool :=
  bool_decide (components root `prefix_of` components path).

(** [Path::parent]: the text before the last component, nothing for a root and for the
    empty path. *)
Definition parent_segments (prefix : list str) (segments : list str) : str :=
  join (lit "/") (prefix ++ trim_segments_end (removelast segments)).
Definition path_parent (path : str) : option str :=
  let segments := split_on slash path in
  if is_absolute path then
    match trim_segments_end (tail segments) with
    | [] => None
    | body => Some (lit "/" ++ parent_segments [] body)
    end
  else if starts_with_cur_dir path then
    match trim_segments_end (tail segments) with
    | [] => Some []
    | body => Some (parent_segments [lit "."] body)
    end
  else
    match trim_segments_end segments with
    | [] => None
    | body => Some (parent_segments [] body)
    end.

(** [Path::ancestors]: the path and its parents. *)
Fixpoint ancestors_loop (fuel : nat) (path : str) : list str :=
  path :: match fuel with
          | O => []
          | S fuel => match path_parent path with
                      | Some parent => ancestors_loop fuel parent
                      | None => []
                      end
          end.
Definition path_ancestors (path : str) : list str := ancestors_loop (length path) path.

(** [Ord] of paths: their components in order. *)
Definition component_rank (c : Component) : Z :=
  match c with
  | Component.RootDir => 0 | Component.CurDir => 1 | Component.ParentDir => 2
  | Component.Normal _ => 3
  end.
Definition component_name (c : Component) : str :=
  match c with Component.Normal name => name | _ => [] end.
Definition component_cmp : Component → Component → comparison :=
  then_with (cmp_on component_rank Z.compare) (cmp_on component_name str_cmp).
Definition path_cmp : str → str → comparison := cmp_on components (list_cmp component_cmp).
#[export] Instance path_cmp_laws : CmpLaws (λ _, True) path_cmp.
Proof.
  apply on_laws, list_cmp_laws, then_with_laws; apply on_laws, _.
Qed.

(** The text of a component, and a path from its components. *)
Definition component_text (c : Component) : str :=
  match c with
  | Component.RootDir => lit "/" | Component.CurDir => lit "." | Component.ParentDir => lit ".."
  | Component.Normal name => name
  end.
Definition path_push (path : str) (c : Component) : str := path_join path (component_text c).

(** ** Paths built from components *)
Definition proper_name (s : str) : Prop := s ≠ [] ∧ s ≠ lit "." ∧ s ≠ lit ".." ∧ slash ∉ s.
(** A component that can follow others. *)
Definition plain (c : Component) : Prop :=
  match c with
  | Component.ParentDir => True | Component.Normal name => proper_name name | _ => False
  end.
(** The path with these components behind a root or none. *)
Definition render (rooted : bool) (body : list Component) : str :=
  (if rooted then lit "/" else []) ++ join (lit "/") (component_text <$> body).

Lemma split_when_word sep s : ∀ word,
  Forall (λ x, sep x = false) s → split_when sep s word = [word ++ s].
Proof.
  induction s as [|x s IH]; intros word H; [by rewrite app_nil_r|].
  apply Forall_cons in H as [Hx H]. cbn. by rewrite Hx, IH, <- app_assoc.
Qed.
Lemma split_when_app sep s x t : ∀ word,
  Forall (λ y, sep y = false) s → sep x = true →
  split_when sep (s ++ x :: t) word = (word ++ s) :: split_when sep t [].
Proof.
  induction s as [|y s IH]; intros word H Hx; cbn; [by rewrite Hx, app_nil_r|].
  apply Forall_cons in H as [Hy H]. by rewrite Hy, IH, <- app_assoc.
Qed.
Lemma no_slash s : slash ∉ s → Forall (λ x, Ascii.eqb x slash = false) s.
Proof. intros H. apply Forall_forall. intros x Hx. apply Ascii.eqb_neq. by intros ->. Qed.
Lemma split_join l :
  l ≠ [] → Forall (λ s, slash ∉ s) l → split_on slash (join (lit "/") l) = l.
Proof.
  unfold split_on. induction l as [|s l IH]; [done|]. intros _ [Hs Hl]%Forall_cons.
  destruct l as [|t l].
  - cbn. by rewrite split_when_word by by apply no_slash.
  - change (join (lit "/") (s :: t :: l)) with (s ++ slash :: join (lit "/") (t :: l)).
    rewrite split_when_app by (by apply no_slash || done). cbn [app]. f_equal. by apply IH.
Qed.

Lemma plain_text c : plain c → component_text c ≠ [] ∧ slash ∉ component_text c
  ∧ component_text c ≠ lit ".".
Proof.
  destruct c; cbn; [done|done|intros _|by intros (? & ? & ? & ?)].
  split_and!; [done| |done]. rewrite !not_elem_of_cons. split_and!; [done|done|]. by intros ?%elem_of_nil.
Qed.
Lemma plain_texts body :
  Forall plain body → Forall (λ s, slash ∉ s) (component_text <$> body).
Proof. intros H. apply Forall_fmap. eapply Forall_impl; [exact H|]. intros c Hc. by apply plain_text. Qed.
Lemma text_not_absolute s : slash ∉ s → is_absolute s = false.
Proof.
  intros H. destruct s as [|x s]; [done|]. apply not_elem_of_cons in H as [H _].
  change (Ascii.eqb slash x && starts_with s [] = false).
  destruct (Ascii.eqb_spec slash x) as [<-|]; [by destruct H|done].
Qed.

Lemma render_snoc rooted body c :
  render rooted (body ++ [c]) =
  match body with
  | [] => (if rooted then lit "/" else []) ++ component_text c
  | _ => render rooted body ++ lit "/" ++ component_text c
  end.
Proof.
  unfold render. rewrite fmap_app. cbn [fmap list_fmap]. rewrite join_snoc.
  destruct body; [done|]. cbn [fmap list_fmap]. by rewrite <- app_assoc.
Qed.
Lemma render_nonempty rooted body : Forall plain body → body ≠ [] →
  ∃ s, slash ∉ s ∧ s ≠ [] ∧ ∃ t, render rooted body = t ++ s.
Proof.
  intros H Hb. destruct body as [|c body _] using rev_ind; [done|].
  apply Forall_app in H as [_ Hc]. apply Forall_cons in Hc as [Hc _]. exists (component_text c).
  pose proof (plain_text c Hc) as (? & ? & _). split_and!; [done..|].
  rewrite render_snoc. destruct body; eexists; [done|]. by rewrite app_assoc.
Qed.

(** Pushing a component onto a path that ends in a name adds a slash. *)
Lemma push_render rooted body c : Forall plain body → plain c →
  path_push (render rooted body) c = render rooted (body ++ [c]).
Proof.
  intros Hb Hc. pose proof (plain_text c Hc) as (Hne & Hs & _).
  unfold path_push, path_join. rewrite (text_not_absolute _ Hs).
  rewrite render_snoc. destruct body as [|d body].
  - by destruct rooted.
  - destruct (render_nonempty rooted (d :: body) Hb) as (s & Hss & Hsn & t & Ht); [done|].
    destruct s as [|x s _] using rev_ind; [done|].
    rewrite Ht, app_assoc, last_snoc. destruct (Ascii.eqb_spec x slash) as [->|Hx].
    { destruct Hss. apply elem_of_app. right. by left. }
    unfold is_slash. rewrite (proj2 (Ascii.eqb_neq _ _) Hx), <- app_assoc. done.
Qed.
Lemma push_root path : path_push path Component.RootDir = render true [].
Proof. done. Qed.

Lemma is_skipped_plain c : plain c → is_skipped (component_text c) = false.
Proof.
  intros (H1 & _ & H2)%plain_text. unfold is_skipped, one_of, existsb, str_eqb.
  by rewrite !bool_decide_eq_false_2 by done.
Qed.
Definition component_of_segment (s : str) : Component :=
  if str_eqb s (lit "..") then Component.ParentDir else Component.Normal s.
Lemma component_of_text c : plain c → component_of_segment (component_text c) = c.
Proof.
  unfold component_of_segment, str_eqb. destruct c; intros H; try done. cbn [component_text].
  destruct H as (_ & _ & H & _). by rewrite bool_decide_eq_false_2 by done.
Qed.

(** The segments of a rendered path. *)
Lemma split_render rooted body : Forall plain body →
  split_on slash (render rooted body) =
  (if rooted then [[]] else []) ++ match body with [] => [[]] | _ => component_text <$> body end.
Proof.
  intros H. unfold render. pose proof (plain_texts body H) as Ht. destruct body as [|c body].
  - by destruct rooted.
  - destruct rooted.
    + change (split_on slash ([] ++ slash :: join (lit "/") (component_text <$> c :: body))
              = [] :: (component_text <$> c :: body)).
      unfold split_on. rewrite split_when_app by (constructor || done). cbn [app]. f_equal. by apply split_join.
    + by apply split_join.
Qed.
Lemma starts_with_nil s : starts_with s [] = true.
Proof. by destruct s. Qed.
Lemma render_absolute rooted body : Forall plain body → is_absolute (render rooted body) = rooted.
Proof.
  destruct rooted; [intros _; apply starts_with_nil|]. intros H. destruct body as [|c body]; [done|].
  apply Forall_cons in H as [(Hne & Hs & _)%plain_text _].
  unfold render, is_absolute. cbn [app fmap list_fmap].
  destruct (component_text c) as [|x s] eqn:Hc; [done|].
  assert (∃ t, join (lit "/") ((x :: s) :: (component_text <$> body)) = x :: t) as [t ->].
  { destruct (component_text <$> body); by eexists. }
  apply not_elem_of_cons in Hs as [Hs _]. change (Ascii.eqb slash x && starts_with t [] = false).
  by rewrite (proj2 (Ascii.eqb_neq _ _) Hs).
Qed.
Lemma render_cur_dir body : Forall plain body → starts_with_cur_dir (render false body) = false.
Proof.
  intros H. unfold starts_with_cur_dir. rewrite split_render by done. cbn [app].
  destruct body as [|c body]; [done|]. apply Forall_cons in H as [(_ & _ & H)%plain_text _].
  cbn. unfold str_eqb. by rewrite bool_decide_eq_false_2.
Qed.
Lemma components_render rooted body : Forall plain body →
  components (render rooted body) = (if rooted then [Component.RootDir] else []) ++ body.
Proof.
  intros H. unfold components. rewrite render_absolute by done.
  assert ((if rooted then [Component.RootDir]
           else if starts_with_cur_dir (render rooted body) then [Component.CurDir] else [])
          = if rooted then [Component.RootDir] else []) as ->.
  { destruct rooted; [done|]. by rewrite render_cur_dir. }
  f_equal. rewrite split_render by done.
  assert (component_of_segment <$> List.filter (λ s, negb (is_skipped s)) (component_text <$> body) = body) as Hb.
  { clear rooted. induction H as [|c body Hc _ IH]; [done|]. cbn [fmap list_fmap List.filter].
    rewrite is_skipped_plain by done. cbn [negb fmap list_fmap].
    by rewrite component_of_text, IH. }
  destruct rooted, body; try done; exact Hb.
Qed.

Lemma trim_segments_plain body : Forall plain body →
  trim_segments_end (component_text <$> body) = component_text <$> body.
Proof.
  intros H. unfold trim_segments_end. destruct body as [|c body _] using rev_ind; [done|].
  apply Forall_app in H as [_ Hc]. apply Forall_cons in Hc as [Hc _].
  rewrite fmap_app. cbn [fmap list_fmap]. rewrite reverse_snoc. cbn [skip_segments].
  rewrite is_skipped_plain by done. by rewrite reverse_cons, reverse_involutive.
Qed.
(** Popping a path takes its last component; a root and the empty path keep theirs. *)
Lemma parent_render rooted body : Forall plain body →
  path_parent (render rooted body) =
  match body with [] => None | _ => Some (render rooted (removelast body)) end.
Proof.
  intros H. unfold path_parent. rewrite render_absolute, split_render by done.
  assert (parent_segments [] (component_text <$> body)
          = join (lit "/") (component_text <$> removelast body)) as Hp.
  { unfold parent_segments. cbn [app]. f_equal. destruct body as [|c body _] using rev_ind; [done|].
    apply Forall_app in H as [H _].
    rewrite fmap_app. cbn [fmap list_fmap]. by rewrite !removelast_last, trim_segments_plain. }
  destruct rooted; cbn [app tail].
  - destruct body as [|c body]; [done|]. rewrite trim_segments_plain by done.
    cbn [fmap list_fmap] in *. by rewrite Hp.
  - rewrite render_cur_dir by done. destruct body as [|c body]; [done|].
    rewrite trim_segments_plain by done. cbn [fmap list_fmap] in *. by rewrite Hp.
Qed.

(** Every path is a root or none and plain components, and perhaps a leading dot. *)
Lemma split_when_parts sep s : ∀ word,
  Forall (λ x, sep x = false) word →
  Forall (λ t, Forall (λ x, sep x = false) t) (split_when sep s word).
Proof.
  induction s as [|x s IH]; intros word H; cbn; [by apply Forall_singleton|].
  destruct (sep x) eqn:Hx; [constructor; [done|]; by apply IH|].
  apply IH. apply Forall_app. split; [done|]. by apply Forall_singleton.
Qed.
Lemma components_body path : ∃ body,
  components path = (if is_absolute path then [Component.RootDir]
                     else if starts_with_cur_dir path then [Component.CurDir] else []) ++ body
  ∧ Forall plain body.
Proof.
  eexists. split; [reflexivity|]. apply Forall_fmap, Forall_forall. intros s Hs.
  apply list_elem_of_In, filter_In in Hs as [Hs Hn]. apply list_elem_of_In in Hs.
  pose proof (split_when_parts (λ x, Ascii.eqb x slash) path [] (Forall_nil_2 _)) as Hp.
  rewrite Forall_forall in Hp. specialize (Hp s Hs). unfold compose.
  apply negb_true_iff in Hn. unfold is_skipped, one_of, existsb, str_eqb in *.
  case_bool_decide as H1; [done|]. case_bool_decide as H2; [done|]. case_bool_decide as H3; [done|].
  split_and!; [done..|]. intros Hsl. rewrite Forall_forall in Hp. by specialize (Hp _ Hsl).
Qed.
