(* ===== verification/WorkspacePaths.v ===== *)
(** * The file system and the names of workspace paths

    codestory-workspace/src/repository_identity.rs (path identities) and the path helpers of
    codestory-workspace/src/lib.rs: lexical normal forms, keys that spellings of one path
    share, containment in a root.  What the operating system answers is the class
    [FileSystem]; one operation sees one state of it. *)
From S2P Require Import Prelude RustStr RetrievalData StrOps UnixPath Sorting.

(** ** The file system *)
Record IoError : Type := mkIoError { io_kind : str; io_message : str }.
Definition is_not_found (e : IoError) : bool := str_eqb (io_kind e) (lit "NotFound").

(** [fs::Metadata]: [md_modified] is the time since the epoch in nanoseconds, before it
    negative. *)
Record FsMetadata : Type := mkMetadata {
  md_is_file : bool;
  md_is_dir : bool;
  md_len : Z;
  md_modified : result IoError Z;
  md_device : Z;
  md_inode : Z;
}.
(** What one handle of a file shows: the metadata, the bytes to the end, the metadata again. *)
Record FileObservation : Type := mkFileObservation {
  fo_before : FsMetadata;
  fo_bytes : str;
  fo_after : FsMetadata;
}.
Class FileSystem : Type := {
  fs_metadata : str → result IoError FsMetadata;
  fs_canonicalize : str → result IoError str;
  fs_observe_file : str → result IoError FileObservation;
  fs_read_to_string : str → result IoError str;
  sha256_hex : str → str;
}.

(** ** Lexical normal forms *)
(** [normalize_lexical_path]: [PathBuf::pop] also takes a [..] away. *)
Definition lexical_step (normalized : str) (c : Component) : str :=
  match c with
  | Component.CurDir => normalized
  | Component.ParentDir =>
      match path_parent normalized with
      | Some parent => parent
      | None => path_push normalized c
      end
  | Component.RootDir | Component.Normal _ => path_push normalized c
  end.
Definition normalize_lexical_path (path : str) : str := foldl lexical_step [] (components path).

(** [normalize_missing_unix_path] *)
Definition missing_step (normalized : str) (c : Component) : str :=
  match c with
  | Component.CurDir => normalized
  | Component.ParentDir =>
      if match file_name normalized with
         | Some name => negb (str_eqb name (lit ".."))
         | None => false
         end
      then default normalized (path_parent normalized)
      else if negb (is_absolute normalized) then path_push normalized c else normalized
  | Component.RootDir | Component.Normal _ => path_push normalized c
  end.
Definition normalize_missing_unix_path (path : str) : str := foldl missing_step [] (components path).

(** ** Identities *)
(** Equal path buffers have equal components. *)
Inductive WorkspacePathIdentity : Type :=
| ExistingUnix (device inode : Z)
| MissingUnix (path : list Component).
#[export] Instance WorkspacePathIdentity_eq_dec : EqDecision WorkspacePathIdentity.
Proof. solve_decision. Defined.
Inductive WorkspacePathLexicalIdentity : Type := UnixLexical (path : list Component).
#[export] Instance WorkspacePathLexicalIdentity_eq_dec : EqDecision WorkspacePathLexicalIdentity.
Proof. solve_decision. Defined.

Definition is_within (candidate root : WorkspacePathLexicalIdentity) : bool :=
  match candidate, root with
  | UnixLexical candidate, UnixLexical root =>
      bool_decide (candidate = root) || bool_decide (root `prefix_of` candidate)
  end.

Definition workspace_path_lexical_identity (path : str)
  : result IoError WorkspacePathLexicalIdentity :=
  Ok (UnixLexical (components (normalize_missing_unix_path path))).

Definition existing_workspace_path_identity (metadata : FsMetadata) : WorkspacePathIdentity :=
  ExistingUnix (md_device metadata) (md_inode metadata).
Definition missing_workspace_path_identity (path : str) : WorkspacePathIdentity :=
  MissingUnix (components (normalize_missing_unix_path path)).

Module Resolution.
Inductive ProjectRelativePathResolution : Type :=
| Existing (absolute relative : str)
| Missing (absolute relative : str)
| NotFile (absolute relative : str)
| OutOfProject.
End Resolution.
Abbreviation ProjectRelativePathResolution := Resolution.ProjectRelativePathResolution.

Section Paths.
Context `{FileSystem}.

Definition workspace_path_identity (path : str) : result IoError WorkspacePathIdentity :=
  match fs_metadata path with
  | Ok metadata => Ok (existing_workspace_path_identity metadata)
  | Err error => if is_not_found error then Ok (missing_workspace_path_identity path) else Err error
  end.
Definition same_workspace_path (a b : str) : bool :=
  match workspace_path_identity a, workspace_path_identity b with
  | Ok a, Ok b => bool_decide (a = b)
  | _, _ => false
  end.

(** ** Keys and containment *)
(** On Unix a path is its own key. *)
Definition normalize_path_key (path : str) : str := path.
Definition normalized_compare_key (root path : str) : str :=
  let absolute := if is_absolute path then normalize_lexical_path path
                  else normalize_lexical_path (path_join root path) in
  let stable := default absolute (result_ok (fs_canonicalize absolute)) in
  normalize_path_key stable.

Definition workspace_relative_path (workspace_root path : str) : option str :=
  let root := normalize_lexical_path workspace_root in
  let candidate := normalize_lexical_path path in
  match path_strip_prefix candidate root with
  | Some relative => Some relative
  | None =>
      if negb (is_absolute candidate) then Some candidate
      else
        matching_root ← List.find (same_workspace_path root) (path_ancestors candidate);
        path_strip_prefix candidate matching_root
  end.

Definition MAIN_SEPARATOR_STR : str := lit "/".
Definition normalize_exclude_match_key (path : str) : str :=
  trim_end_matches is_slash (trim_start_str (normalize_path_key path) (lit "//?/")).
(** The path below the root by its spelling, by its canonical form, by its key. *)
Definition canonical_relative (path root : str) : option str :=
  match fs_canonicalize path, fs_canonicalize root with
  | Ok canonical_path, Ok canonical_root => path_strip_prefix canonical_path canonical_root
  | _, _ => None
  end.
Definition key_relative (path root : str) : option str :=
  let path_key := normalize_exclude_match_key path in
  let root_key := normalize_exclude_match_key root in
  if str_eqb path_key root_key then Some []
  else
    let root_prefix := trim_end_matches is_slash root_key ++ lit "/" in
    (λ relative, replace relative (lit "/") MAIN_SEPARATOR_STR) <$> strip_prefix path_key root_prefix.
Definition relative_path_for_matching (path root : str) : option str :=
  option_or (path_strip_prefix path root)
    (option_or (canonical_relative path root) (key_relative path root)).

Definition discovery_root (path : str) : str :=
  default (normalize_lexical_path path) (result_ok (fs_canonicalize path)).

(** The canonical form of the longest ancestor that has one, with the rest behind it. *)
Fixpoint missing_tail_loop (fuel : nat) (path existing : str) (missing : list str) : str :=
  match fs_canonicalize existing with
  | Ok canonical => normalize_lexical_path (foldl path_join canonical (reverse missing))
  | Err _ =>
      match fuel, file_name existing, path_parent existing with
      | S fuel, Some name, Some parent => missing_tail_loop fuel path parent (missing ++ [name])
      | _, _, _ => normalize_lexical_path path
      end
  end.
Definition canonicalize_with_missing_tail (path : str) : str :=
  missing_tail_loop (length path) path path [].

(** ** Exact paths of a project *)

Definition resolved_project_root (root : str) : str := default root (result_ok (fs_canonicalize root)).
(** The nearest ancestor that exists decides whether a missing path is in the project. *)
Fixpoint missing_ancestor_loop (fuel : nat) (resolved_root : str) (ancestor : option str)
  : result IoError bool :=
  match ancestor, fuel with
  | Some path, S fuel =>
      match fs_canonicalize path with
      | Ok resolved => Ok (bool_decide (is_Some (workspace_relative_path resolved_root resolved)))
      | Err error =>
          if is_not_found error then missing_ancestor_loop fuel resolved_root (path_parent path)
          else Err error
      end
  | _, _ => Ok true
  end.
Definition resolve_project_relative_path (workspace_root requested : str)
  : result IoError ProjectRelativePathResolution :=
  match requested with
  | [] => Ok Resolution.OutOfProject
  | _ =>
      let root := normalize_lexical_path workspace_root in
      let candidate := normalize_lexical_path
        (if is_absolute requested then requested else path_join root requested) in
      match workspace_relative_path root candidate with
      | None => Ok Resolution.OutOfProject
      | Some [] => Ok (Resolution.NotFile candidate [])
      | Some relative =>
          match fs_metadata candidate with
          | Ok metadata =>
              resolved ← fs_canonicalize candidate;
              Ok (match workspace_relative_path (resolved_project_root root) resolved with
                  | None => Resolution.OutOfProject
                  | Some _ => if md_is_file metadata then Resolution.Existing candidate relative
                              else Resolution.NotFile candidate relative
                  end)
          | Err error =>
              if is_not_found error then
                inside ← missing_ancestor_loop (S (length candidate)) (resolved_project_root root)
                           (path_parent candidate);
                Ok (if inside : bool then Resolution.Missing candidate relative else Resolution.OutOfProject)
              else Err error
          end
      end
  end.
End Paths.

(** * Workspace manifests

    codestory-workspace/src/lib.rs: settings, source groups and members, and how a
    repository root is opened.  The JSON of the manifests, the identifiers of generated
    groups and the file system are interfaces. *)
(** ** Settings *)
Module Language.
Inductive Language : Set :=
| Cxx | Java | Python | Rust | JavaScript | TypeScript | Go | Ruby | Php | CSharp | Kotlin
| Swift | Dart | Lua | Sql | Html | Css | Bash | Shell | PowerShell | Markdown | Yaml | Toml
| Json | Svelte | Vue | Astro.
End Language.
Abbreviation Language := Language.Language.
#[export] Instance Language_eq_dec : EqDecision Language.
Proof. solve_decision. Defined.

Module LanguageStandard.
Inductive LanguageStandard : Set :=
| Default | Cxx11 | Cxx14 | Cxx17 | Cxx20 | Java8 | Java11 | Java17.
End LanguageStandard.
Abbreviation LanguageStandard := LanguageStandard.LanguageStandard.

Module LanguageSpecific.
Inductive LanguageSpecificSettings : Type :=
| Cxx (cdb_path : option str) (header_paths : list str) (precompiled_header : option str)
| Java (classpath : list str) (maven_path gradle_path : option str)
| Python (python_path virtual_env : option str)
| Other.
End LanguageSpecific.
Abbreviation LanguageSpecificSettings := LanguageSpecific.LanguageSpecificSettings.

Record SourceGroupSettings : Type := mkSourceGroup {
  group_id : str;
  group_language : Language;
  group_standard : LanguageStandard;
  source_paths : list str;
  exclude_patterns : list str;
  include_paths : list str;
  defines : list (str * str);
  language_specific : LanguageSpecificSettings;
}.
Record WorkspaceSettings : Type := mkSettings {
  settings_name : str;
  settings_version : Z;
  source_groups : list SourceGroupSettings;
}.
Record WorkspaceManifest : Type := mkManifest {
  settings : WorkspaceSettings;
  manifest_path : str;
  is_synthetic_default : bool;
  trusted_source_paths : bool;
  members : list str;
  discovery_excluded_files : list str;
  discovery_excluded_directory_roots : list str;
}.

(** ** Construction *)
Definition from_parts (settings : WorkspaceSettings) (manifest_path : str) : WorkspaceManifest :=
  mkManifest settings manifest_path false true [] [] [].
Definition new_manifest (name manifest_path : str) : WorkspaceManifest :=
  mkManifest (mkSettings name 1 []) manifest_path false false [] [] [].
Definition exclude_discovery_files (m : WorkspaceManifest) (paths : list str) : WorkspaceManifest :=
  mkManifest (settings m) (manifest_path m) (is_synthetic_default m) (trusted_source_paths m)
    (members m) (discovery_excluded_files m ++ paths) (discovery_excluded_directory_roots m).
Definition exclude_discovery_directory_roots (m : WorkspaceManifest) (roots : list str)
  : WorkspaceManifest :=
  mkManifest (settings m) (manifest_path m) (is_synthetic_default m) (trusted_source_paths m)
    (members m) (discovery_excluded_files m) (discovery_excluded_directory_roots m ++ roots).

Definition root_dir (m : WorkspaceManifest) : str := default (lit ".") (path_parent (manifest_path m)).
Definition should_filter_source_group_language (m : WorkspaceManifest) : bool :=
  negb (is_synthetic_default m).

(** [Path::with_extension] *)
Definition with_extension (path extension : str) : str :=
  match file_stem path with
  | None => path
  | Some stem =>
      join (lit "/") (removelast (trim_segments_end (split_on slash path)) ++ [stem])
      ++ match extension with [] => [] | _ => lit "." ++ extension end
  end.
Definition storage_owned_sibling_path (storage_path suffix : str) : str :=
  let parent := default (lit ".") (path_parent storage_path) in
  let stem := default (lit "codestory") (file_stem storage_path) in
  path_join parent (stem ++ lit "." ++ suffix).
Definition legacy_search_directory_for_storage (storage_path : str) : str :=
  storage_owned_sibling_path storage_path (lit "search").
Definition search_generation_directory_for_storage (storage_path : str) : str :=
  storage_owned_sibling_path storage_path (lit "search-generations").

(** ** Opening a root *)
Class ManifestFormat : Type := {
  parse_settings : str → result str WorkspaceSettings;
  parse_members : str → result str (list str);
  new_v4 : nat → str;
}.
Definition default_exclude_patterns : list str :=
  [lit "**/node_modules/**"; lit "**/target/**"; lit "**/.git/**"; lit "**/dist/**";
   lit "**/build/**"].
Definition generated_group (id : str) (source_path : str) : SourceGroupSettings :=
  mkSourceGroup id Language.Rust LanguageStandard.Default [source_path] default_exclude_patterns
    [] [] LanguageSpecific.Other.

Section Opening.
Context `{FileSystem} `{ManifestFormat}.

Definition path_exists (path : str) : bool := is_ok (fs_metadata path).
Definition read_text (path : str) : result str str :=
  match fs_read_to_string path with Ok content => Ok content | Err error => Err (io_message error) end.

Definition load (path : str) : result str WorkspaceManifest :=
  content ← read_text path;
  settings ← parse_settings content;
  Ok (mkManifest settings path false false [] [] []).

Definition load_workspace_members (root_path manifest_path : str) : result str WorkspaceManifest :=
  content ← read_text manifest_path;
  members ← parse_members content;
  let manifest := new_manifest (default (lit "Workspace") (file_name root_path)) manifest_path in
  let groups := imap (λ i member, generated_group (new_v4 i) member) members in
  Ok (mkManifest
        (mkSettings (settings_name (settings manifest)) (settings_version (settings manifest)) groups)
        manifest_path true false members [] []).

Definition open (root_path : str) : result str WorkspaceManifest :=
  let workspace_file := path_join root_path (lit "codestory_workspace.json") in
  if path_exists workspace_file then load_workspace_members root_path workspace_file
  else
    let project_file := path_join root_path (lit "codestory_project.json") in
    if path_exists project_file then load project_file
    else
      let manifest := new_manifest (default (lit "Project") (file_name root_path)) project_file in
      Ok (mkManifest
            (mkSettings (settings_name (settings manifest)) (settings_version (settings manifest))
               [generated_group (new_v4 0) root_path])
            project_file true true [] [] []).

Definition open_with_storage_owned_exclusions (root_path storage_path : str)
  : result str WorkspaceManifest :=
  manifest ← open root_path;
  let manifest := exclude_discovery_files manifest
    [storage_path; with_extension storage_path (lit "db-wal"); with_extension storage_path (lit "db-shm")] in
  Ok (exclude_discovery_directory_roots manifest
        [legacy_search_directory_for_storage storage_path;
         search_generation_directory_for_storage storage_path]).

(** ** Source paths *)
Definition workspace_root (m : WorkspaceManifest) : str :=
  default (normalize_lexical_path (root_dir m)) (result_ok (fs_canonicalize (root_dir m))).

Definition resolve_manifest_source_path (m : WorkspaceManifest) (source_path : str)
  : result str str :=
  let root := root_dir m in
  if trusted_source_paths m then
    Ok (normalize_lexical_path (if is_absolute source_path then source_path
                                else path_join root source_path))
  else if is_absolute source_path then
    Err (lit "repo-local manifest source path `" ++ source_path
         ++ lit "` must be relative to `" ++ root ++ lit "`")
  else
    let full_path := normalize_lexical_path (path_join root source_path) in
    let canonical_root := workspace_root m in
    let canonical_source := canonicalize_with_missing_tail full_path in
    match relative_path_for_matching canonical_source canonical_root with
    | None =>
        Err (lit "repo-local manifest source path `" ++ source_path
             ++ lit "` resolves outside manifest root `" ++ root ++ lit "`")
    | Some _ => Ok full_path
    end.
End Opening.
