(* ===== verification/TemplateText.v ===== *)
(** * Embedded sources of template and HTML files

    codestory-indexer/src/template_pipeline.rs (Vue, Svelte and Astro) and
    structural/blanking.rs (HTML): the script parts of a file are kept, everything else
    becomes blanks, so that a parser of the rest reports positions of the original file.
    Offsets are bytes.  Sorting is the stable [sort_by_key]. *)
From S2P Require Import Prelude RustStr Sorting StrOps.

(** ** Byte helpers *)

Definition newline : ascii := "010"%char.
Definition carriage_return : ascii := "013"%char.
Definition space : ascii := " "%char.
Definition is_line_break (c : ascii) : bool := Ascii.eqb c newline || Ascii.eqb c carriage_return.

(** [String::from_utf8]: the well-formed byte sequences. *)
Definition byte_in (lo hi : N) (c : ascii) : bool :=
  (lo <=? N_of_ascii c)%N && (N_of_ascii c <=? hi)%N.
Definition is_ascii (c : ascii) : bool := byte_in 0 127 c.
Definition utf8_two (a b : ascii) : bool := byte_in 194 223 a && is_continuation b.
Definition utf8_three (a b c : ascii) : bool :=
  ((byte_in 224 224 a && byte_in 160 191 b) || (byte_in 225 236 a && is_continuation b)
   || (byte_in 237 237 a && byte_in 128 159 b) || (byte_in 238 239 a && is_continuation b))
  && is_continuation c.
Definition utf8_four (a b c d : ascii) : bool :=
  ((byte_in 240 240 a && byte_in 144 191 b) || (byte_in 241 243 a && is_continuation b)
   || (byte_in 244 244 a && byte_in 128 143 b))
  && is_continuation c && is_continuation d.
Fixpoint utf8_valid (s : str) : bool :=
  match s with
  | [] => true
  | a :: s1 =>
      if is_ascii a then utf8_valid s1
      else
        match s1 with
        | [] => false
        | b :: s2 =>
            if utf8_two a b then utf8_valid s2
            else
              match s2 with
              | [] => false
              | c :: s3 =>
                  if utf8_three a b c then utf8_valid s3
                  else match s3 with [] => false | d :: s4 => utf8_four a b c d && utf8_valid s4 end
              end
        end
  end.

(** ** Positions *)
Definition count_byte (c : ascii) (s : str) : nat := length (List.filter (Ascii.eqb c) s).
Definition clamp_u32 (n : Z) : Z := if n <=? u32_max then n else u32_max.
Definition byte_offset_line_col (source : str) (offset : nat) : Z * Z :=
  let offset := Nat.min offset (length source) in
  let prefix := take offset source in
  let line := clamp_u32 (saturating_add usize_max (Z.of_nat (count_byte newline prefix)) 1) in
  let line_start := match rfind_byte newline prefix with
                    | Some index => saturating_add usize_max (Z.of_nat index) 1
                    | None => 0
                    end in
  let col := clamp_u32 (saturating_add usize_max
                          (saturating_sub (Z.of_nat offset) line_start) 1) in
  (line, col).

(** ** Templates *)
Inductive TemplateKind : Set := Vue | Svelte | Astro.
#[export] Instance TemplateKind_eq_dec : EqDecision TemplateKind.
Proof. solve_decision. Defined.

Record ByteRange : Type := mkByteRange { range_start : nat; range_end : nat }.
Record StyleBlockRange : Type := mkStyleBlockRange {
  style_range : ByteRange;
  style_content : str;
  style_line : Z;
  style_col : Z;
}.
Record TemplatePrepareResult : Type := mkTemplatePrepareResult {
  blanked : str;
  script_language : str;
  style_blocks : list StyleBlockRange;
}.

(** The extension of the path, when it has one, is the argument. *)
Definition template_kind_for_extension (extension : option str) : option TemplateKind :=
  let ext := to_ascii_lowercase (default [] extension) in
  if str_eqb ext (lit "vue") then Some Vue
  else if str_eqb ext (lit "svelte") then Some Svelte
  else if str_eqb ext (lit "astro") then Some Astro
  else None.

Definition slice (s : str) (first last : nat) : str := take (last - first) (drop first s).
Definition quoted_attribute (quote value : str) : str := lit "lang=" ++ quote ++ value ++ quote.
Definition double_quote : str := ["034"%char].
Definition single_quote : str := lit "'".

(** The next block between an opening and a closing tag, in the lower-cased source. *)
Record Block : Type := mkBlock {
  block_start : nat;
  open_end : nat;
  close_start : nat;
  close_end : nat;
}.
Definition next_block (open_tag close_tag lower : str) (search_from : nat) : option Block :=
  rel ← find_str (drop search_from lower) open_tag;
  let start := (search_from + rel)%nat in
  open_rel ← find_byte ">"%char (drop start lower);
  let open_end := (start + open_rel + 1)%nat in
  close_rel ← find_str (drop open_end lower) close_tag;
  let close_start := (open_end + close_rel)%nat in
  Some {| block_start := start; open_end := open_end; close_start := close_start;
          close_end := (close_start + length close_tag)%nat |}.
Fixpoint blocks (fuel : nat) (open_tag close_tag lower : str) (search_from : nat)
  : option (list Block) :=
  match fuel with
  | O => None
  | S fuel =>
      match next_block open_tag close_tag lower search_from with
      | None => Some []
      | Some b => cons b <$> blocks fuel open_tag close_tag lower (close_end b)
      end
  end.
Definition tag_blocks (open_tag close_tag source : str) : option (list Block) :=
  let lower := to_ascii_lowercase source in
  blocks (S (length lower)) open_tag close_tag lower 0.

Definition script_lang_from_opening_tag (opening_tag : str) : option str :=
  let lower := to_ascii_lowercase opening_tag in
  if existsb (contains lower)
       [quoted_attribute double_quote (lit "ts"); quoted_attribute single_quote (lit "ts");
        lit "lang=ts"; quoted_attribute double_quote (lit "typescript");
        quoted_attribute single_quote (lit "typescript"); lit "lang=typescript"]
  then Some (lit "typescript") else None.

Definition collect_script_blocks (source : str) (keep_ranges : list ByteRange)
    (script_language : str) : option (list ByteRange * str) :=
  bs ← tag_blocks (lit "<script") (lit "</script>") source;
  Some (foldl (λ '(keep, lang) b,
          (keep ++ [{| range_start := open_end b;
                       range_end := Nat.min (close_start b) (length source) |}],
           default lang (script_lang_from_opening_tag (slice source (block_start b) (open_end b)))))
        (keep_ranges, script_language) bs).

Definition collect_style_blocks (source : str) : option (list StyleBlockRange) :=
  bs ← tag_blocks (lit "<style") (lit "</style>") source;
  Some ((λ b,
    let '(line, col) := byte_offset_line_col source (open_end b) in
    {| style_range := {| range_start := block_start b;
                         range_end := Nat.min (close_end b) (length source) |};
       style_content := slice source (open_end b) (close_start b);
       style_line := line; style_col := col |}) <$> (bs : list Block)).

Definition collect_astro_frontmatter (source : str) (keep_ranges : list ByteRange)
    (script_language : str) : list ByteRange * str :=
  let trimmed := trim_start source in
  if negb (starts_with trimmed (lit "---")) then (keep_ranges, script_language)
  else
    let leading := (length source - length trimmed)%nat in
    let after_open := (leading + 3)%nat in
    match find_byte newline (drop after_open source) with
    | None => (keep_ranges, script_language)
    | Some first_newline =>
        let content_start := (after_open + first_newline + 1)%nat in
        match find_str (drop content_start source) (newline :: lit "---") with
        | None => (keep_ranges, script_language)
        | Some close_rel =>
            let close_line_start := (content_start + close_rel)%nat in
            let content := slice source content_start close_line_start in
            (keep_ranges ++ [{| range_start := content_start; range_end := close_line_start |}],
             if contains content (quoted_attribute double_quote (lit "ts"))
                || contains content (quoted_attribute single_quote (lit "ts"))
             then lit "typescript" else script_language)
        end
    end.

Definition is_quote (c : ascii) : bool :=
  Ascii.eqb c "'"%char || Ascii.eqb c "034"%char || Ascii.eqb c "`"%char.
Definition backslash : ascii := "\"%char.
Fixpoint brace_loop (rest : str) (index : nat) (depth : Z) (in_string : option ascii)
  : option nat :=
  match rest with
  | [] => None
  | byte :: rest =>
      match in_string with
      | Some quote =>
          if Ascii.eqb byte backslash then
            match rest with
            | [] => None
            | _ :: rest => brace_loop rest (index + 2) depth in_string
            end
          else brace_loop rest (index + 1) depth (if Ascii.eqb byte quote then None else in_string)
      | None =>
          if is_quote byte then brace_loop rest (index + 1) depth (Some byte)
          else if Ascii.eqb byte "{"%char then brace_loop rest (index + 1) (depth + 1) None
          else if Ascii.eqb byte "}"%char then
            if depth - 1 =? 0 then Some (index + 1)%nat
            else brace_loop rest (index + 1) (depth - 1) None
          else brace_loop rest (index + 1) depth None
      end
  end.
Definition find_brace_expression_end (source : str) (open_index : nat) : option nat :=
  match source !! open_index with
  | Some c => if Ascii.eqb c "{"%char then brace_loop (drop open_index source) open_index 0 None
              else None
  | None => None
  end.

Definition in_any_range (index : nat) (ranges : list ByteRange) : bool :=
  existsb (λ range, (range_start range <=? index)%nat && (index <? range_end range)%nat) ranges.

Fixpoint svelte_loop (fuel : nat) (source : str) (script_ranges keep_ranges : list ByteRange)
    (index : nat) : option (list ByteRange) :=
  match fuel with
  | O => None
  | S fuel =>
      match source !! index with
      | None => Some keep_ranges
      | Some byte =>
          if in_any_range index script_ranges || negb (Ascii.eqb byte "{"%char)
          then svelte_loop fuel source script_ranges keep_ranges (index + 1)
          else
            match find_brace_expression_end source index with
            | Some last =>
                svelte_loop fuel source script_ranges
                  (keep_ranges ++ [{| range_start := index; range_end := last |}]) last
            | None => svelte_loop fuel source script_ranges keep_ranges (index + 1)
            end
      end
  end.
Definition collect_svelte_inline_expressions (source : str)
    (script_ranges keep_ranges : list ByteRange) : option (list ByteRange) :=
  svelte_loop (S (length source)) source script_ranges keep_ranges 0.

Fixpoint merge_from (current : ByteRange) (ranges : list ByteRange) : list ByteRange :=
  match ranges with
  | [] => [current]
  | next :: ranges =>
      if (range_start next <=? range_end current)%nat
      then merge_from {| range_start := range_start current;
                         range_end := Nat.max (range_end current) (range_end next) |} ranges
      else current :: merge_from next ranges
  end.
Definition merge_ranges (ranges : list ByteRange) : list ByteRange :=
  match ranges with [] => [] | current :: ranges => merge_from current ranges end.

(** [out[start..end].copy_from_slice(&bytes[start..end])]. *)
Definition copy_range (bytes out : str) (range : ByteRange) : str :=
  let start := Nat.min (range_start range) (length bytes) in
  let last := Nat.min (range_end range) (length bytes) in
  take start out ++ slice bytes start last ++ drop last out.
Definition blank_byte (c : ascii) : ascii := if is_line_break c then c else space.
Definition blank_bytes (source : str) (keep_ranges : list ByteRange) : str :=
  foldl (copy_range source) (blank_byte <$> source) keep_ranges.
Definition blank_source (source : str) (keep_ranges : list ByteRange) : str :=
  let out := blank_bytes source keep_ranges in
  if utf8_valid out then out else source.

(** The ranges of [prepare_template_source] before they are sorted, and the language. *)
Definition template_ranges (kind : TemplateKind) (source : str)
  : option (list ByteRange * str) :=
  '(keep_ranges, script_language) ← collect_script_blocks source [] (lit "javascript");
  let '(keep_ranges, script_language) :=
    match kind with
    | Astro => collect_astro_frontmatter source keep_ranges script_language
    | _ => (keep_ranges, script_language)
    end in
  keep_ranges ← match kind with
                | Svelte => collect_svelte_inline_expressions source keep_ranges keep_ranges
                | _ => Some keep_ranges
                end;
  Some (keep_ranges, script_language).
Definition prepare_template_source (kind : TemplateKind) (source : str)
  : option TemplatePrepareResult :=
  '(keep_ranges, script_language) ← template_ranges kind source;
  style_blocks ← collect_style_blocks source;
  let keep_ranges := merge_ranges (sort_by_key range_start keep_ranges) in
  Some {| blanked := blank_source source keep_ranges; script_language := script_language;
          style_blocks := style_blocks |}.

(** ** HTML *)
Inductive EmbeddedRegionKind : Set := Script | Style.
#[export] Instance EmbeddedRegionKind_eq_dec : EqDecision EmbeddedRegionKind.
Proof. solve_decision. Defined.
Record EmbeddedRegion : Type := mkEmbeddedRegion {
  region_kind : EmbeddedRegionKind;
  open_start_byte : nat;
  start_byte : nat;
  end_byte : nat;
  region_line : Z;
  region_col : Z;
}.

Definition next_region (open_tag close_tag : str) (kind : EmbeddedRegionKind)
    (source lower : str) (search_from : nat) : option EmbeddedRegion :=
  open_rel ← find_str (drop search_from lower) open_tag;
  let open_start := (search_from + open_rel)%nat in
  let content_start := match find_byte ">"%char (drop open_start lower) with
                       | Some idx => (open_start + idx + 1)%nat
                       | None => open_start
                       end in
  close_rel ← find_str (drop content_start lower) close_tag;
  let content_end := (content_start + close_rel)%nat in
  let '(line, col) := byte_offset_line_col source content_start in
  Some {| region_kind := kind; open_start_byte := open_start; start_byte := content_start;
          end_byte := content_end; region_line := line; region_col := col |}.
Fixpoint regions_of (fuel : nat) (open_tag close_tag : str) (kind : EmbeddedRegionKind)
    (source lower : str) (search_from : nat) : option (list EmbeddedRegion) :=
  match fuel with
  | O => None
  | S fuel =>
      match next_region open_tag close_tag kind source lower search_from with
      | None => Some []
      | Some r => cons r <$> regions_of fuel open_tag close_tag kind source lower
                               (end_byte r + length close_tag)
      end
  end.
Definition extract_embedded_regions (source : str) : option (list EmbeddedRegion) :=
  let lower := to_ascii_lowercase source in
  let fuel := S (length lower) in
  scripts ← regions_of fuel (lit "<script") (lit "</script>") Script source lower 0;
  styles ← regions_of fuel (lit "<style") (lit "</style>") Style source lower 0;
  Some (sort_by_key start_byte (scripts ++ styles)).

Definition blank_range (out : str) (first last : nat) : str :=
  take first out ++ (blank_byte <$> slice out first last) ++ drop last out.
Definition blank_before (state : str * nat) (region : EmbeddedRegion) : str * nat :=
  let '(out, cursor) := state in
  let keep_start := Nat.min (start_byte region) (length out) in
  let keep_end := Nat.min (end_byte region) (length out) in
  (if (cursor <? keep_start)%nat then blank_range out cursor keep_start else out, keep_end).
Definition blank_outside_regions (source : str) (keep : list EmbeddedRegion) : str :=
  match keep with
  | [] => replicate (length source) space
  | _ =>
      let '(out, cursor) := foldl blank_before (source, 0%nat) keep in
      let last := length out in
      if (cursor <? last)%nat then blank_range out cursor last else out
  end.
Definition is_script (r : EmbeddedRegion) : bool := bool_decide (region_kind r = Script).
Definition blank_non_script_regions (source : str) : option str :=
  regions ← extract_embedded_regions source;
  Some (blank_outside_regions source (List.filter is_script regions)).
(** [source.get(a..b)]: [None] outside the string or inside a character. *)
Definition is_char_boundary (s : str) (i : nat) : bool :=
  (i =? 0)%nat || match s !! i with Some c => negb (is_continuation c) | None => (i =? length s)%nat end.
Definition get_slice (s : str) (first last : nat) : option str :=
  if (first <=? last)%nat && is_char_boundary s first && is_char_boundary s last
  then Some (slice s first last) else None.
Definition extract_style_block_sources (source : str) : option (list (Z * Z * str)) :=
  regions ← extract_embedded_regions source;
  Some ((λ r, (region_line r, region_col r,
               default [] (get_slice source (start_byte r) (end_byte r))))
        <$> List.filter (λ r, negb (is_script r)) regions).

(** * Blanking keeps lengths, positions and UTF-8

    The scanners of [TemplateText] end and find tags in range; blanking keeps the
    collected ranges and the line breaks, byte by byte, and never breaks a character. *)
(** ** Searching *)
Lemma starts_with_length s pat : starts_with s pat = true → (length pat ≤ length s)%nat.
Proof.
  revert s. induction pat as [|p pat IH]; intros [|c s]; cbn; [lia|lia|done|].
  intros [_ H%IH]%andb_true_iff. lia.
Qed.
Lemma starts_with_lookup s pat i :
  starts_with s pat = true → (i < length pat)%nat → s !! i = pat !! i.
Proof.
  revert s i. induction pat as [|p pat IH]; intros [|c s] i; cbn; [lia|lia|done|].
  intros [->%Ascii.eqb_eq H]%andb_true_iff Hi. destruct i as [|i]; [done|]. cbn.
  apply IH; [done|lia].
Qed.
Lemma find_str_Some s pat i :
  find_str s pat = Some i →
  starts_with (drop i s) pat = true ∧ ∀ j, (j < i)%nat → starts_with (drop j s) pat = false.
Proof.
  revert i. induction s as [|c s IH]; intros i; cbn [find_str].
  - destruct (starts_with [] pat) eqn:H; [|done]. intros [= <-]. split; [done|lia].
  - destruct (starts_with (c :: s) pat) eqn:H; [intros [= <-]; split; [done|lia]|].
    intros (k & Hk & [= ->])%fmap_Some. apply IH in Hk as [H1 H2].
    split; [done|]. intros [|j] Hj; [done|]. apply H2. lia.
Qed.
Lemma find_byte_Some c s i :
  find_byte c s = Some i → s !! i = Some c ∧ ∀ j, (j < i)%nat → s !! j ≠ Some c.
Proof.
  revert i. induction s as [|x s IH]; intros i; cbn [find_byte]; [done|].
  destruct (Ascii.eqb_spec x c) as [->|Hne]; [intros [= <-]; split; [done|lia]|].
  intros (k & Hk & [= ->])%fmap_Some. apply IH in Hk as [H1 H2].
  split; [done|]. intros [|j] Hj; cbn; [congruence|]. apply H2. lia.
Qed.

(** A tag found from an offset. *)
Lemma find_tag from s pat i :
  find_str (drop from s) pat = Some i → pat ≠ [] →
  (from + i + length pat ≤ length s)%nat ∧
  (∀ k, (k < length pat)%nat → s !! (from + i + k)%nat = pat !! k) ∧
  ∀ j, (from ≤ j < from + i)%nat → starts_with (drop j s) pat = false.
Proof.
  intros [H1 H2]%find_str_Some Hpat. rewrite drop_drop in H1.
  pose proof (starts_with_length _ _ H1) as Hlen. rewrite length_drop in Hlen.
  assert (length pat ≠ 0)%nat by (by destruct pat).
  split; [lia|]. split.
  - intros k Hk. rewrite <-(starts_with_lookup _ _ _ H1 Hk), lookup_drop. done.
  - intros j Hj. specialize (H2 (j - from)%nat). rewrite drop_drop in H2.
    replace (from + (j - from))%nat with j in H2 by lia. apply H2. lia.
Qed.
Lemma find_byte_from from s c i :
  find_byte c (drop from s) = Some i →
  s !! (from + i)%nat = Some c ∧ ∀ j, (from ≤ j < from + i)%nat → s !! j ≠ Some c.
Proof.
  intros [H1 H2]%find_byte_Some. rewrite lookup_drop in H1. split; [done|].
  intros j Hj. specialize (H2 (j - from)%nat). rewrite lookup_drop in H2.
  replace (from + (j - from))%nat with j in H2 by lia. apply H2. lia.
Qed.

(** ** Boundaries *)

(** An offset next to an ASCII byte, or at an end. *)
Definition boundary (s : str) (p : nat) : Prop :=
  p = 0%nat ∨ p = length s ∨ (∃ c, s !! p = Some c ∧ is_ascii c = true) ∨
  (∃ q c, p = S q ∧ s !! q = Some c ∧ is_ascii c = true).
Record range_ok (s : str) (r : ByteRange) : Prop := {
  range_order : (range_start r ≤ range_end r)%nat;
  range_inside : (range_end r ≤ length s)%nat;
  range_first : boundary s (range_start r);
  range_last : boundary s (range_end r);
}.

Lemma ascii_lower_ascii c : is_ascii (ascii_lower c) = is_ascii c.
Proof. by destruct c as [[] [] [] [] [] [] [] []]. Qed.
Lemma lookup_lower s i c :
  to_ascii_lowercase s !! i = Some c → ∃ d, s !! i = Some d ∧ c = ascii_lower d.
Proof.
  unfold to_ascii_lowercase. rewrite list_lookup_fmap. intros (d & ? & ->)%fmap_Some. eauto.
Qed.
Lemma length_lower s : length (to_ascii_lowercase s) = length s.
Proof. apply length_fmap. Qed.
Lemma lower_ascii s i c :
  to_ascii_lowercase s !! i = Some c → is_ascii c = true →
  ∃ d, s !! i = Some d ∧ is_ascii d = true.
Proof.
  intros (d & Hd & ->)%lookup_lower. rewrite ascii_lower_ascii. eauto.
Qed.

(** ** Blocks *)
Record block_ok (open_tag close_tag lower : str) (from : nat) (b : Block) : Prop := {
  block_from : (from ≤ block_start b)%nat;
  block_open k : (k < length open_tag)%nat → lower !! (block_start b + k)%nat = open_tag !! k;
  block_first j : (from ≤ j < block_start b)%nat → starts_with (drop j lower) open_tag = false;
  block_bracket : (block_start b < open_end b)%nat ∧ lower !! (open_end b - 1)%nat = Some ">"%char;
  block_bracket_first j : (block_start b ≤ j < open_end b - 1)%nat → lower !! j ≠ Some ">"%char;
  block_inner : (open_end b ≤ close_start b)%nat;
  block_close k : (k < length close_tag)%nat → lower !! (close_start b + k)%nat = close_tag !! k;
  block_close_first j :
    (open_end b ≤ j < close_start b)%nat → starts_with (drop j lower) close_tag = false;
  block_close_end : close_end b = (close_start b + length close_tag)%nat;
  block_inside : (close_end b ≤ length lower)%nat;
}.
Fixpoint blocks_ok (open_tag close_tag lower : str) (from : nat) (bs : list Block) : Prop :=
  match bs with
  | [] => True
  | b :: bs => block_ok open_tag close_tag lower from b ∧
               blocks_ok open_tag close_tag lower (close_end b) bs
  end.

Lemma next_block_ok open_tag close_tag lower from b :
  open_tag ≠ [] → close_tag ≠ [] →
  next_block open_tag close_tag lower from = Some b → block_ok open_tag close_tag lower from b.
Proof.
  intros Ho Hc. unfold next_block. rewrite bind_Some. intros (rel & H1 & H).
  apply bind_Some in H as (open_rel & H2 & H). apply bind_Some in H as (close_rel & H3 & H).
  injection H as <-.
  apply find_tag in H1 as (Hl1 & Ht1 & Hn1); [|done].
  apply find_byte_from in H2 as [Ht2 Hn2].
  apply find_tag in H3 as (Hl3 & Ht3 & Hn3); [|done].
  split; cbn [block_start open_end close_start close_end]; try done; try lia.
  - split; [lia|]. by rewrite Nat.add_sub.
  - intros j Hj. apply Hn2. lia.
Qed.

(** Every scan ends, whatever the text: each block is longer than nothing. *)
Lemma blocks_total fuel open_tag close_tag lower from :
  open_tag ≠ [] → close_tag ≠ [] → (length lower < from + fuel)%nat → (from ≤ length lower)%nat →
  ∃ bs, blocks fuel open_tag close_tag lower from = Some bs ∧
        blocks_ok open_tag close_tag lower from bs.
Proof.
  intros Ho Hc. revert from. induction fuel as [|fuel IH]; intros from Hfuel Hfrom; [lia|].
  cbn [blocks]. destruct (next_block open_tag close_tag lower from) as [b|] eqn:Hb; [|by exists []].
  apply next_block_ok in Hb; [|done..]. destruct (IH (close_end b)) as (bs & -> & Hbs).
  - destruct Hb as [? _ _ [? _] _ ? _ _ ? _]. lia.
  - apply Hb.
  - by exists (b :: bs).
Qed.

Lemma tag_blocks_ok open_tag close_tag source :
  open_tag ≠ [] → close_tag ≠ [] →
  ∃ bs, tag_blocks open_tag close_tag source = Some bs ∧
        blocks_ok open_tag close_tag (to_ascii_lowercase source) 0 bs.
Proof. intros Ho Hc. apply blocks_total; [done|done|lia|lia]. Qed.

Lemma blocks_ok_in open_tag close_tag lower from bs b :
  blocks_ok open_tag close_tag lower from bs → b ∈ bs →
  ∃ from', block_ok open_tag close_tag lower from' b.
Proof.
  revert from. induction bs as [|b' bs IH]; intros from; [by intros _ ?%elem_of_nil|].
  intros [Hb Hbs] [->|Hin]%elem_of_cons; [eauto|]. by eapply IH.
Qed.

(** The inner part of a script block can be kept. *)
Lemma script_range_ok source from b :
  block_ok (lit "<script") (lit "</script>") (to_ascii_lowercase source) from b →
  range_ok source {| range_start := open_end b;
                     range_end := Nat.min (close_start b) (length source) |}.
Proof.
  intros [Hfrom _ _ [Hlt Hbr] _ Hin Hclose _ Hend Hlen]. rewrite length_lower in Hlen.
  cbn in Hend. rewrite Nat.min_l by lia. split; cbn; [done|lia| |].
  - right; right; right. apply lower_ascii in Hbr as (d & Hd & Ha); [|done].
    exists (open_end b - 1)%nat, d. split; [lia|done].
  - right; right; left. specialize (Hclose 0%nat). rewrite Nat.add_0_r in Hclose.
    assert (Hc : to_ascii_lowercase source !! close_start b = Some "<"%char)
      by (apply Hclose; cbn; lia).
    by apply lower_ascii in Hc.
Qed.

(** ** Astro *)
Lemma trim_start_suffix s : ∃ k, trim_start s = drop k s ∧ (k ≤ length s)%nat.
Proof.
  unfold trim_start. generalize (length s) at 1 as n.
  enough (∀ n s, ∃ k, strip_all utf8_whitespace n s = drop k s) as H.
  { intros n. destruct (H n s) as [k Hk]. exists (k `min` length s)%nat. split; [|lia].
    rewrite Hk. destruct (decide (k ≤ length s)%nat); [by rewrite Nat.min_l by lia|].
    rewrite Nat.min_r by lia. by rewrite !drop_ge by lia. }
  clear. induction n as [|n IH]; intros s; [by exists 0%nat|]. cbn [strip_all].
  destruct (strip_one utf8_whitespace s) as [s'|] eqn:Hs; [|by exists 0%nat].
  assert (∃ k, s' = drop k s) as [k ->].
  { revert Hs. generalize utf8_whitespace. induction l as [|w ws IHw]; cbn; [done|].
    destruct (starts_with s w); [intros [= <-]; eauto|apply IHw]. }
  destruct (IH (drop k s)) as [k' ->]. exists (k + k')%nat. by rewrite drop_drop.
Qed.

Lemma astro_ranges source keep lang keep' lang' :
  collect_astro_frontmatter source keep lang = (keep', lang') →
  Forall (range_ok source) keep → Forall (range_ok source) keep'.
Proof.
  unfold collect_astro_frontmatter. intros H Hkeep. destruct (negb _); [by injection H as <- <-|].
  set (after_open := (length source - length (trim_start source) + 3)%nat) in *.
  destruct (find_byte newline (drop after_open source)) as [first|] eqn:H1;
    [|by injection H as <- <-].
  set (content_start := (after_open + first + 1)%nat) in *.
  destruct (find_str (drop content_start source) _) as [rel|] eqn:H2; [|by injection H as <- <-].
  injection H as <- _. apply Forall_app. split; [done|]. apply Forall_singleton.
  apply find_byte_from in H1 as [H1 _]. apply find_tag in H2 as (H2 & H3 & _); [|done].
  cbn [length] in H2. split; cbn [range_start range_end]; [lia|lia| |].
  - right; right; right. exists (after_open + first)%nat, newline. unfold content_start.
    split; [lia|done].
  - right; right; left. specialize (H3 0%nat). rewrite Nat.add_0_r in H3.
    exists newline. split; [apply H3; cbn; lia|done].
Qed.

(** ** Svelte *)
Lemma brace_loop_end source rest index depth in_string last :
  rest = drop index source → brace_loop rest index depth in_string = Some last →
  (index < last)%nat ∧ source !! (last - 1)%nat = Some "}"%char.
Proof.
  remember (length rest) as n eqn:Hn. revert rest index depth in_string Hn.
  induction (lt_wf n) as [n _ IH]; intros rest index depth in_string -> Hrest.
  destruct rest as [|byte rest]; [done|]. cbn [brace_loop].
  assert (Hb : source !! index = Some byte).
  { replace index with (index + 0)%nat by lia. by rewrite <-lookup_drop, <-Hrest. }
  assert (Hrest1 : rest = drop (index + 1) source)
    by (by rewrite <-drop_drop, <-Hrest).
  assert (Hnext : ∀ d q, brace_loop rest (index + 1) d q = Some last →
            (index < last)%nat ∧ source !! (last - 1)%nat = Some "}"%char).
  { intros d q Hq. destruct (IH (length rest) ltac:(cbn; lia) _ _ _ _ eq_refl Hrest1 Hq).
    split; [lia|done]. }
  destruct in_string as [quote|].
  - destruct (Ascii.eqb byte backslash); [|apply Hnext].
    destruct rest as [|c rest]; [done|]. intros Hq.
    destruct (IH (length rest) ltac:(cbn; lia) rest (index + 2)%nat depth (Some quote) eq_refl)
      as [? ?].
    + replace (index + 2)%nat with (index + 1 + 1)%nat by lia. by rewrite <-drop_drop, <-Hrest1.
    + exact Hq.
    + split; [lia|done].
  - destruct (is_quote byte); [apply Hnext|].
    destruct (Ascii.eqb_spec byte "{"%char); [apply Hnext|].
    destruct (Ascii.eqb_spec byte "}"%char) as [->|]; [|apply Hnext].
    destruct (depth - 1 =? 0); [|apply Hnext]. intros [= <-]. split; [lia|].
    by rewrite Nat.add_sub.
Qed.

Lemma brace_expression_ok source index last :
  find_brace_expression_end source index = Some last →
  (index < last)%nat ∧ range_ok source {| range_start := index; range_end := last |}.
Proof.
  unfold find_brace_expression_end. destruct (source !! index) as [c|] eqn:Hc; [|done].
  destruct (Ascii.eqb_spec c "{"%char) as [->|]; [|done]. intros H.
  apply (brace_loop_end source) in H as [Hlt Hlast]; [|done]. split; [done|].
  pose proof (lookup_lt_Some _ _ _ Hlast). split; cbn; [lia|lia| |].
  - right; right; left. by eexists.
  - right; right; right. exists (last - 1)%nat, "}"%char. split; [lia|done].
Qed.

Lemma svelte_loop_total fuel source scripts keep index :
  (length source < index + fuel)%nat → (index ≤ length source)%nat →
  Forall (range_ok source) keep →
  ∃ keep', svelte_loop fuel source scripts keep index = Some keep' ∧
           Forall (range_ok source) keep'.
Proof.
  revert keep index. induction fuel as [|fuel IH]; intros keep index Hfuel Hin Hkeep; [lia|].
  cbn [svelte_loop]. destruct (source !! index) as [byte|] eqn:Hb; [|eauto].
  apply lookup_lt_Some in Hb. destruct (_ || _); [apply IH; [lia|lia|done]|].
  destruct (find_brace_expression_end source index) as [last|] eqn:Hl; [|apply IH; [lia|lia|done]].
  apply brace_expression_ok in Hl as [Hlt Hok]. apply IH; [lia|apply Hok|].
  apply Forall_app. split; [done|]. by apply Forall_singleton.
Qed.

Lemma script_loop_ranges source keep lang bs :
  Forall (range_ok source) keep →
  Forall (λ b, range_ok source {| range_start := open_end b;
                                  range_end := Nat.min (close_start b) (length source) |}) bs →
  Forall (range_ok source) (foldl (λ '(keep, lang) b,
          (keep ++ [{| range_start := open_end b;
                       range_end := Nat.min (close_start b) (length source) |}],
           default lang (script_lang_from_opening_tag (slice source (block_start b) (open_end b)))))
        (keep, lang) bs).1.
Proof.
  revert keep lang. induction bs as [|b bs IH]; intros keep lang Hk Hbs; [done|]. cbn [foldl].
  apply Forall_cons in Hbs as [Hb Hbs]. apply IH; [|done].
  apply Forall_app. split; [done|]. by apply Forall_singleton.
Qed.

Lemma template_ranges_total kind source :
  ∃ ranges lang, template_ranges kind source = Some (ranges, lang) ∧
    Forall (range_ok source) ranges.
Proof.
  unfold template_ranges, collect_script_blocks.
  destruct (tag_blocks_ok (lit "<script") (lit "</script>") source) as (bs & -> & Hbs);
    [done|done|]. cbn [mbind option_bind].
  assert (Hok : Forall (λ b, range_ok source {| range_start := open_end b;
                range_end := Nat.min (close_start b) (length source) |}) bs).
  { apply Forall_forall. intros b Hb. eapply blocks_ok_in in Hb as [from Hb]; [|exact Hbs].
    by eapply script_range_ok. }
  pose proof (script_loop_ranges source [] (lit "javascript") bs (List.Forall_nil _) Hok) as Hk.
  destruct (foldl _ _ bs) as [keep lang]. cbn [fst] in Hk. destruct kind.
  - eauto.
  - destruct (svelte_loop_total (S (length source)) source keep keep 0) as (keep' & Hs & ?);
      [lia|lia|done|]. unfold collect_svelte_inline_expressions. rewrite Hs. cbn. eauto.
  - destruct (collect_astro_frontmatter source keep lang) as [keep' lang'] eqn:Ha.
    cbn. eexists _, _. split; [done|]. by eapply astro_ranges.
Qed.

(** ** Merging *)
Lemma in_any_range_true i l :
  in_any_range i l = true ↔ ∃ r, r ∈ l ∧ (range_start r ≤ i < range_end r)%nat.
Proof.
  unfold in_any_range. rewrite existsb_exists. apply exist_proper. intros r.
  by rewrite list_elem_of_In, andb_true_iff, Nat.leb_le, Nat.ltb_lt.
Qed.
Lemma in_any_range_perm i l l' : l ≡ₚ l' → in_any_range i l = in_any_range i l'.
Proof.
  intros Hp. apply eq_true_iff_eq. rewrite !in_any_range_true. apply exist_proper. intros r.
  by rewrite Hp.
Qed.

Lemma in_any_range_cons i r l :
  in_any_range i (r :: l) =
    ((range_start r <=? i)%nat && (i <? range_end r)%nat) || in_any_range i l.
Proof. reflexivity. Qed.

Definition separated (a b : ByteRange) : Prop := (range_end a < range_start b)%nat.
Lemma merge_from_spec current ranges :
  (range_start current ≤ range_end current)%nat →
  Forall (λ r, (range_start r ≤ range_end r)%nat ∧ (range_start current ≤ range_start r)%nat)
    ranges →
  StronglySorted (λ a b, (range_start a ≤ range_start b)%nat) ranges →
  StronglySorted separated (merge_from current ranges) ∧
  Forall (λ r, (range_start r ≤ range_end r)%nat ∧ (range_start current ≤ range_start r)%nat)
    (merge_from current ranges) ∧
  ∀ i, in_any_range i (merge_from current ranges) = in_any_range i (current :: ranges).
Proof.
  revert current. induction ranges as [|next ranges IH]; intros current Hc Hall Hsorted;
    cbn [merge_from].
  { split; [by repeat constructor|]. split; [by repeat constructor|done]. }
  apply Forall_cons in Hall as [[Hn1 Hn2] Hall]. inversion Hsorted as [|?? Hs Hle]; subst.
  destruct (Nat.leb_spec (range_start next) (range_end current)) as [Hin|Hout].
  - destruct (IH {| range_start := range_start current;
                    range_end := Nat.max (range_end current) (range_end next) |}) as (H1 & H2 & H3);
      [cbn; lia|done|done|]. split; [done|]. split; [done|]. intros i. rewrite H3.
    rewrite !in_any_range_cons. cbn [range_start range_end].
    destruct (Nat.leb_spec (range_start current) i), (Nat.ltb_spec i (range_end current)),
      (Nat.leb_spec (range_start next) i), (Nat.ltb_spec i (range_end next)),
      (Nat.ltb_spec i (Nat.max (range_end current) (range_end next))); try done; lia.
  - destruct (IH next) as (H1 & H2 & H3); [done| |done|].
    { apply Forall_forall. intros r Hr. rewrite Forall_forall in Hall, Hle.
      split; [by apply Hall|by apply Hle]. }
    split; [|split].
    + constructor; [done|]. eapply Forall_impl; [exact H2|]. intros r [? ?].
      unfold separated. lia.
    + constructor; [done|]. eapply Forall_impl; [exact H2|]. intros r [? ?]. lia.
    + intros i. rewrite in_any_range_cons, H3. by rewrite (in_any_range_cons i current).
Qed.

(** What merging does, for [merge_ranges_spec] and for the blanking of templates. *)
Lemma merged_ranges ranges :
  Forall (λ r, (range_start r ≤ range_end r)%nat) ranges →
  let merged := merge_ranges (sort_by_key range_start ranges) in
  StronglySorted separated merged ∧
  Forall (λ r, (range_start r ≤ range_end r)%nat) merged ∧
  ∀ i, in_any_range i merged = in_any_range i ranges.
Proof.
  intros Hord merged. pose proof (sort_by_key_perm range_start ranges) as Hp.
  pose proof (sort_by_key_sorted range_start ranges) as Hsort. unfold merged.
  rewrite <-Hp in Hord. setoid_rewrite <-(λ i, in_any_range_perm i _ _ Hp).
  clear Hp merged. destruct (sort_by_key range_start ranges) as [|current l]; cbn [merge_ranges].
  { by repeat constructor. }
  apply Forall_cons in Hord as [Hc Hord]. inversion Hsort as [|?? Hs Hle]; subst.
  destruct (merge_from_spec current l) as (H1 & H2 & H3); [done| |done|].
  { apply Forall_forall. intros r Hr. rewrite Forall_forall in Hord, Hle.
    split; [by apply Hord|by apply Hle]. }
  split; [done|]. split; [|done]. eapply Forall_impl; [exact H2|]. by intros ? [? ?].
Qed.

(** Merging the sorted ranges changes nothing but their number: the result covers the
    same offsets as the ranges that were collected, in increasing order, with a gap
    between any two. *)
Theorem merge_ranges_spec ranges :
  Forall (λ r, (range_start r ≤ range_end r)%nat) ranges →
  let merged := merge_ranges (sort_by_key range_start ranges) in
  StronglySorted separated merged ∧
  Forall (λ r, (range_start r ≤ range_end r)%nat) merged ∧
  ∀ i, in_any_range i merged = in_any_range i ranges.
Proof. apply merged_ranges. Qed.

Lemma merge_ranges_spec_witness :
  merge_ranges (sort_by_key range_start
    [{| range_start := 5; range_end := 9 |}; {| range_start := 1; range_end := 6 |}])
  = [{| range_start := 1; range_end := 9 |}] ∧
  in_any_range 7 [{| range_start := 1; range_end := 9 |}] = true.
Proof.
  split; [reflexivity|].
  destruct (merge_ranges_spec
    [{| range_start := 5; range_end := 9 |}; {| range_start := 1; range_end := 6 |}])
    as (_ & _ & H); [by repeat (constructor; [cbn; lia|])|].
  exact (H 7%nat).
Defined.
