(* ===== verification/TemplateBlanks.v ===== *)
(** * What blanking keeps

    Byte by byte: the line breaks and the kept ranges; hence the positions.  A source of
    well-formed UTF-8 stays well-formed, so the fallback of [blank_source] is never
    taken.

    The second part: embedded regions of HTML. *)
From S2P Require Import Prelude RustStr TemplateText StrOps Sorting.

(** ** Bytes *)
Definition keep_byte (kept : nat → bool) (i : nat) (c : ascii) : ascii :=
  if is_line_break c || kept i then c else space.

Lemma length_slice s first last :
  (first ≤ last)%nat → (last ≤ length s)%nat → length (slice s first last) = (last - first)%nat.
Proof. intros. unfold slice. rewrite length_take, length_drop. lia. Qed.
Lemma lookup_slice s first last i :
  slice s first last !! i = if decide (i < last - first)%nat then s !! (first + i)%nat else None.
Proof.
  unfold slice. destruct (decide _).
  - by rewrite lookup_take_lt, lookup_drop.
  - rewrite lookup_take_ge; [done|lia].
Qed.

Lemma copy_range_lookup bytes out r :
  length out = length bytes → (range_start r ≤ range_end r)%nat →
  length (copy_range bytes out r) = length bytes ∧
  ∀ i, copy_range bytes out r !! i =
       if (range_start r <=? i)%nat && (i <? range_end r)%nat then bytes !! i else out !! i.
Proof.
  intros Hlen Hr. unfold copy_range.
  set (a := Nat.min (range_start r) (length bytes)).
  set (b := Nat.min (range_end r) (length bytes)).
  assert (Hs : length (slice bytes a b) = (b - a)%nat) by (apply length_slice; lia).
  split; [rewrite !length_app, Hs, length_take, length_drop; lia|].
  intros i. destruct (decide (i < a)%nat) as [Hia|Hia].
  { rewrite lookup_app_l by (rewrite length_take; lia). rewrite lookup_take_lt by done.
    destruct (Nat.leb_spec (range_start r) i); [lia|done]. }
  rewrite lookup_app_r by (rewrite length_take; lia). rewrite length_take, Nat.min_l by lia.
  destruct (decide (i < b)%nat) as [Hib|Hib].
  - rewrite lookup_app_l by (rewrite Hs; lia). rewrite lookup_slice, decide_True by lia.
    replace (a + (i - a))%nat with i by lia.
    destruct (Nat.leb_spec (range_start r) i), (Nat.ltb_spec i (range_end r)); [done|lia..].
  - rewrite lookup_app_r by (rewrite Hs; lia). rewrite Hs, lookup_drop.
    replace (b + (i - a - (b - a)))%nat with i by lia.
    destruct (decide (length bytes ≤ i)%nat) as [Hge|Hlt].
    + rewrite !lookup_ge_None_2 by lia. by destruct (_ && _).
    + destruct (Nat.leb_spec (range_start r) i), (Nat.ltb_spec i (range_end r)); [lia|done..].
Qed.

Lemma blank_bytes_lookup source ranges :
  Forall (λ r, (range_start r ≤ range_end r)%nat) ranges →
  length (blank_bytes source ranges) = length source ∧
  ∀ i, blank_bytes source ranges !! i =
       keep_byte (λ i, in_any_range i ranges) i <$> source !! i.
Proof.
  unfold blank_bytes. induction ranges as [|r ranges IH] using rev_ind; intros Hall.
  { cbn. rewrite length_fmap. split; [done|]. intros i. rewrite list_lookup_fmap.
    unfold keep_byte, blank_byte. cbn. destruct (source !! i); cbn; [|done].
    by rewrite orb_false_r. }
  apply Forall_app in Hall as [Hall [Hr _]%Forall_cons]. destruct (IH Hall) as [Hlen Hl].
  rewrite foldl_snoc. destruct (copy_range_lookup source _ _ Hlen Hr) as [Hlen' Hl'].
  split; [done|]. intros i. rewrite Hl', Hl. unfold keep_byte.
  assert (Hin : in_any_range i (ranges ++ [r]) = in_any_range i ranges ||
            ((range_start r <=? i)%nat && (i <? range_end r)%nat)).
  { unfold in_any_range. rewrite existsb_app. cbn [existsb]. by rewrite orb_false_r. }
  rewrite Hin. destruct (_ && _).
  - destruct (source !! i); cbn; [|done]. by rewrite !orb_true_r.
  - by rewrite orb_false_r.
Qed.

(** ** UTF-8 *)
Lemma is_continuation_byte_in c : is_continuation c = byte_in 128 191 c.
Proof.
  unfold is_continuation, byte_in. f_equal. apply eq_true_iff_eq. rewrite N.leb_le, N.ltb_lt. lia.
Qed.
Lemma byte_in_continuation lo hi c :
  (128 <=? lo)%N = true → (hi <=? 191)%N = true → byte_in lo hi c = true → is_continuation c = true.
Proof.
  rewrite is_continuation_byte_in. unfold byte_in. rewrite !andb_true_iff, !N.leb_le. lia.
Qed.
Lemma ascii_not_continuation c : is_ascii c = true → is_continuation c = false.
Proof.
  rewrite is_continuation_byte_in. unfold is_ascii, byte_in. intros H.
  apply not_true_is_false. revert H. rewrite !andb_true_iff, !N.leb_le. lia.
Qed.

(** The characters of a well-formed string. *)
Inductive utf8_char : str → Prop :=
| char_one a : is_ascii a = true → utf8_char [a]
| char_two a b : is_ascii a = false → utf8_two a b = true → utf8_char [a; b]
| char_three a b c :
    is_ascii a = false → utf8_two a b = false → utf8_three a b c = true → utf8_char [a; b; c]
| char_four a b c d :
    is_ascii a = false → utf8_two a b = false → utf8_three a b c = false →
    utf8_four a b c d = true → utf8_char [a; b; c; d].

Lemma utf8_valid_cons ch s : utf8_char ch → utf8_valid (ch ++ s) = utf8_valid s.
Proof.
  destruct 1 as [a H|a b H1 H2|a b c H1 H2 H3|a b c d H1 H2 H3 H4]; cbn [app utf8_valid].
  - by rewrite H.
  - by rewrite H1, H2.
  - by rewrite H1, H2, H3.
  - by rewrite H1, H2, H3, H4.
Qed.
Lemma utf8_valid_split s :
  utf8_valid s = true → s = [] ∨ ∃ ch s', s = ch ++ s' ∧ utf8_char ch ∧ utf8_valid s' = true.
Proof.
  destruct s as [|a s1]; [by left|]. cbn [utf8_valid]. intros H. right.
  destruct (is_ascii a) eqn:Ha; [exists [a], s1; by split; [|split; [constructor|]]|].
  destruct s1 as [|b s2]; [done|].
  destruct (utf8_two a b) eqn:Hb; [exists [a; b], s2; by split; [|split; [constructor|]]|].
  destruct s2 as [|c s3]; [done|].
  destruct (utf8_three a b c) eqn:Hc; [exists [a; b; c], s3; by split; [|split; [constructor|]]|].
  destruct s3 as [|d s4]; [done|]. apply andb_true_iff in H as [Hd H].
  exists [a; b; c; d], s4. by split; [|split; [constructor|]].
Qed.

Ltac continues H :=
  first [exact H | eapply byte_in_continuation; [| |exact H]; reflexivity].

(** Inside a character every byte but the first continues it. *)
Lemma utf8_char_shape ch : utf8_char ch →
  ∃ a rest, ch = a :: rest ∧ is_continuation a = false ∧
    Forall (λ c, is_continuation c = true) rest ∧ (is_ascii a = true → rest = []).
Proof.
  assert (Hlead : ∀ a, is_continuation a = true → is_ascii a = false →
            (∀ b, utf8_two a b = false) ∧ (∀ b c, utf8_three a b c = false) ∧
            ∀ b c d, utf8_four a b c d = false).
  { intros a. rewrite is_continuation_byte_in. unfold byte_in. rewrite andb_true_iff, !N.leb_le.
    intros Ha _. assert (Hout : ∀ lo hi, (191 <? lo)%N = true → byte_in lo hi a = false).
    { intros lo hi Hlo%N.ltb_lt. unfold byte_in. apply andb_false_iff. left.
      apply N.leb_gt. lia. }
    unfold utf8_two, utf8_three, utf8_four. split; [|split]; intros; rewrite ?Hout by done; done. }
  assert (Hfirst : ∀ a, is_ascii a = false →
            (∃ b, utf8_two a b = true) ∨ (∃ b c, utf8_three a b c = true) ∨
            (∃ b c d, utf8_four a b c d = true) → is_continuation a = false).
  { intros a Ha H. destruct (is_continuation a) eqn:Hc; [|done].
    destruct (Hlead a Hc Ha) as (H2 & H3 & H4).
    destruct H as [[b Hb]|[(b & c & Hb)|(b & c & d & Hb)]]; congruence. }
  destruct 1 as [a H|a b H1 H2|a b c H1 H2 H3|a b c d H1 H2 H3 H4]; eexists _, _;
    (split; [done|]); (split; [|split; [|congruence || done]]).
  - by apply ascii_not_continuation.
  - constructor.
  - apply Hfirst; eauto.
  - apply andb_true_iff in H2 as [_ H2]. by constructor.
  - apply Hfirst; eauto.
  - apply andb_true_iff in H3 as [H3 Hc]. constructor; [|by constructor].
    rewrite !orb_true_iff, !andb_true_iff in H3.
    by destruct H3 as [[[[_ Hx]|[_ Hx]]|[_ Hx]]|[_ Hx]]; continues Hx.
  - apply Hfirst; eauto 10.
  - apply andb_true_iff in H4 as [H4 Hd]. apply andb_true_iff in H4 as [H4 Hc].
    constructor; [|by constructor; [|constructor]].
    rewrite !orb_true_iff, !andb_true_iff in H4.
    by destruct H4 as [[[_ Hx]|[_ Hx]]|[_ Hx]]; continues Hx.
Qed.

(** Blanking whole characters keeps a string well-formed. *)
Definition uniform (kept : nat → bool) (s : str) : Prop :=
  ∀ i c, s !! S i = Some c → is_continuation c = true → kept (S i) = kept i.
Lemma blank_not_break c : is_ascii c = false → is_line_break c = false.
Proof. by destruct c as [[] [] [] [] [] [] [] []]. Qed.
Lemma keep_imap_app kept ch s :
  imap (keep_byte kept) (ch ++ s) =
  imap (keep_byte kept) ch ++ imap (keep_byte (λ i, kept (length ch + i)%nat)) s.
Proof. rewrite imap_app. f_equal. Qed.

Lemma spaces_valid n s : utf8_valid (replicate n space ++ s) = utf8_valid s.
Proof. induction n as [|n IH]; [done|]. cbn. exact IH. Qed.

Lemma keep_char kept ch :
  utf8_char ch → (∀ i, (S i < length ch)%nat → kept (S i) = kept i) →
  imap (keep_byte kept) ch = ch ∨ imap (keep_byte kept) ch = replicate (length ch) space.
Proof.
  intros Hch Hu. destruct (is_ascii (default space (head ch))) eqn:Ha.
  - destruct Hch as [a H|a b H1|a b c H1|a b c d H1]; cbn in Ha; try congruence.
    cbn. unfold keep_byte. destruct (_ || _); auto.
  - assert (Hno : Forall (λ c, is_line_break c = false) ch).
    { destruct (utf8_char_shape ch Hch) as (a & rest & -> & _ & Hrest & _). cbn in Ha.
      constructor; [by apply blank_not_break|]. eapply Forall_impl; [exact Hrest|].
      intros c Hc. apply blank_not_break. destruct (is_ascii c) eqn:Hc'; [|done].
      apply ascii_not_continuation in Hc'. congruence. }
    assert (Hk : ∀ i, (i < length ch)%nat → kept i = kept 0%nat).
    { induction i as [|i IH]; intros Hi; [done|]. rewrite Hu by done. apply IH. lia. }
    assert (Hval : ∀ i, imap (keep_byte kept) ch !! i =
              (λ c, if kept 0%nat then c else space) <$> ch !! i).
    { intros i. rewrite list_lookup_imap. destruct (ch !! i) as [c|] eqn:Hc; cbn; [|done].
      unfold keep_byte. rewrite (Hk i) by (by eapply lookup_lt_Some).
      rewrite Forall_lookup in Hno. by rewrite (Hno i c Hc). }
    destruct (kept 0%nat).
    + left. apply list_eq. intros i. rewrite Hval. by destruct (ch !! i).
    + right. apply list_eq. intros i. rewrite Hval.
      destruct (decide (i < length ch)%nat) as [Hi|Hi].
      * rewrite lookup_replicate_2 by done. by destruct (lookup_lt_is_Some_2 _ _ Hi) as [? ->].
      * rewrite lookup_ge_None_2 by lia. symmetry. apply lookup_replicate_None. lia.
Qed.

Lemma keep_valid s : ∀ kept,
  utf8_valid s = true → uniform kept s → utf8_valid (imap (keep_byte kept) s) = true.
Proof.
  remember (length s) as n eqn:Hn. revert s Hn.
  induction (lt_wf n) as [n _ IH]. intros s -> kept Hv Hu.
  destruct (utf8_valid_split s Hv) as [->|(ch & s' & -> & Hch & Hv')]; [done|].
  rewrite keep_imap_app. destruct (utf8_char_shape ch Hch) as (a & rest & Hshape & _ & Hrest & _).
  assert (Hs' : utf8_valid (imap (keep_byte (λ i, kept (length ch + i)%nat)) s') = true).
  { apply (IH (length s')); [rewrite length_app, Hshape; cbn; lia|done|done|].
    intros i c Hc Hcont. rewrite Nat.add_succ_r. apply (Hu _ c); [|done].
    rewrite <-Nat.add_succ_r, lookup_app_r by lia. by rewrite Nat.add_comm, Nat.add_sub. }
  destruct (keep_char kept ch Hch) as [-> | ->].
  - intros i Hi. assert (∃ c, ch !! S i = Some c) as [c Hc] by (by apply lookup_lt_is_Some).
    apply (Hu _ c); [by apply lookup_app_l_Some|]. rewrite Hshape in Hc. cbn in Hc.
    rewrite Forall_lookup in Hrest. by eapply Hrest.
  - by rewrite utf8_valid_cons.
  - by rewrite spaces_valid.
Qed.

Lemma ascii_then_lead s : ∀ i a c,
  utf8_valid s = true → s !! i = Some a → is_ascii a = true → s !! S i = Some c →
  is_continuation c = false.
Proof.
  remember (length s) as n eqn:Hn. revert s Hn.
  induction (lt_wf n) as [n _ IH]. intros s -> i a c Hv Hi Ha Hc.
  destruct (utf8_valid_split s Hv) as [->|(ch & s' & -> & Hch & Hv')]; [done|].
  destruct (utf8_char_shape ch Hch) as (x & rest & -> & Hx & Hrest & Hone).
  assert (Hlead : ∀ y, s' !! 0%nat = Some y → is_continuation y = false).
  { intros y Hy. destruct (utf8_valid_split s' Hv') as [->|(ch' & s'' & -> & Hch' & _)]; [done|].
    destruct (utf8_char_shape ch' Hch') as (z & rest' & -> & Hz & _). by injection Hy as <-. }
  destruct (decide (i < length (x :: rest))%nat) as [Hin|Hout].
  - destruct i as [|i].
    + injection Hi as ->. rewrite (Hone Ha) in Hc. by apply Hlead.
    + rewrite lookup_app_l in Hi by done. cbn in Hi. rewrite Forall_lookup in Hrest.
      apply Hrest in Hi. apply ascii_not_continuation in Ha. congruence.
  - rewrite lookup_app_r in Hi by lia. rewrite lookup_app_r in Hc by lia.
    rewrite Nat.sub_succ_l in Hc by lia.
    apply (IH (length s') ltac:(rewrite length_app; cbn; lia) s' eq_refl _ a c Hv' Hi Ha Hc).
Qed.

Lemma boundary_not_inside s i c :
  utf8_valid s = true → boundary s (S i) → s !! S i = Some c → is_continuation c = false.
Proof.
  intros Hv [?|[Hl|[(d & Hd & Ha)|(q & d & [= <-] & Hd & Ha)]]] Hc.
  - done.
  - apply lookup_lt_Some in Hc. lia.
  - assert (d = c) as -> by congruence. by apply ascii_not_continuation.
  - exact (ascii_then_lead s _ d c Hv Hd Ha Hc).
Qed.

Lemma ranges_uniform s ranges :
  utf8_valid s = true → Forall (range_ok s) ranges → uniform (λ i, in_any_range i ranges) s.
Proof.
  intros Hv Hall i c Hc Hcont. apply eq_true_iff_eq. rewrite !in_any_range_true.
  apply exist_proper. intros r. rewrite Forall_forall in Hall.
  enough (r ∈ ranges → range_start r ≠ S i ∧ range_end r ≠ S i) as Hne.
  { split; intros [Hr Hi]; (split; [done|]); destruct (Hne Hr); lia. }
  intros Hr.
  destruct (Hall r Hr) as [_ _ Hfirst Hlast].
  split; intros He; [rewrite He in Hfirst|rewrite He in Hlast];
    rewrite (boundary_not_inside s i c) in Hcont; done.
Qed.

(** ** Positions *)
Definition same_breaks (a b : str) : Prop :=
  Forall2 (λ x y, Ascii.eqb newline x = Ascii.eqb newline y) a b.
Lemma same_breaks_count a b : same_breaks a b → count_byte newline a = count_byte newline b.
Proof.
  unfold count_byte. induction 1 as [|x y a b Hxy _ IH]; cbn [List.filter]; [done|].
  rewrite Hxy. destruct (Ascii.eqb newline y); cbn; by rewrite IH.
Qed.
Lemma same_breaks_rfind a b : same_breaks a b → rfind_byte newline a = rfind_byte newline b.
Proof.
  induction 1 as [|x y a b Hxy _ IH]; cbn [rfind_byte]; [done|].
  by rewrite IH, (Ascii.eqb_sym x newline), (Ascii.eqb_sym y newline), Hxy.
Qed.
Lemma same_breaks_position a b offset :
  same_breaks a b → byte_offset_line_col a offset = byte_offset_line_col b offset.
Proof.
  intros H. unfold byte_offset_line_col. rewrite (Forall2_length _ _ _ H).
  set (n := Nat.min offset (length b)).
  assert (Ht : same_breaks (take n a) (take n b)) by (by apply Forall2_take).
  by rewrite (same_breaks_count _ _ Ht), (same_breaks_rfind _ _ Ht).
Qed.
Lemma keep_byte_break kept i c : Ascii.eqb newline (keep_byte kept i c) = Ascii.eqb newline c.
Proof.
  unfold keep_byte. destruct (is_line_break c || kept i) eqn:H; [done|].
  apply orb_false_iff in H as [H _]. unfold is_line_break in H. apply orb_false_iff in H as [H _].
  rewrite (Ascii.eqb_sym newline c), H. done.
Qed.
Lemma keep_breaks s kept out :
  length out = length s → (∀ i, out !! i = keep_byte kept i <$> s !! i) → same_breaks out s.
Proof.
  intros Hlen Hl. apply Forall2_same_length_lookup_2; [done|]. intros i x y Hx Hy.
  rewrite Hl, Hy in Hx. injection Hx as <-. apply keep_byte_break.
Qed.

(** Preparing a Vue, Svelte or Astro file always returns, and for well-formed UTF-8 the
    blanked source has every byte of the collected ranges and every line break at its old
    place and spaces elsewhere; it is well-formed itself, and every offset has the line and
    column it has in the original. *)
Theorem template_blanking kind source :
  utf8_valid source = true →
  ∃ ranges lang r,
    template_ranges kind source = Some (ranges, lang) ∧
    prepare_template_source kind source = Some r ∧ script_language r = lang ∧
    utf8_valid (blanked r) = true ∧ length (blanked r) = length source ∧
    (∀ i, blanked r !! i = keep_byte (λ i, in_any_range i ranges) i <$> source !! i) ∧
    ∀ offset, byte_offset_line_col (blanked r) offset = byte_offset_line_col source offset.
Proof.
  intros Hv. destruct (template_ranges_total kind source) as (ranges & lang & Hr & Hok).
  exists ranges, lang. unfold prepare_template_source, collect_style_blocks. rewrite Hr.
  destruct (tag_blocks_ok (lit "<style") (lit "</style>") source) as (bs & Hbs & _); [done..|].
  cbn [mbind option_bind]. rewrite Hbs. cbn [mbind option_bind].
  eexists. split; [done|]. split; [done|]. split; [done|]. cbn [blanked].
  destruct (merged_ranges ranges) as (_ & Hord & Hin).
  { eapply Forall_impl; [exact Hok|]. by intros r []. }
  set (merged := merge_ranges _) in *. unfold blank_source.
  destruct (blank_bytes_lookup source merged Hord) as [Hlen Hl].
  assert (Hl' : ∀ i, blank_bytes source merged !! i =
            keep_byte (λ i, in_any_range i ranges) i <$> source !! i).
  { intros i. rewrite Hl. unfold keep_byte. by rewrite Hin. }
  assert (Hvalid : utf8_valid (blank_bytes source merged) = true).
  { assert (blank_bytes source merged = imap (keep_byte (λ i, in_any_range i ranges)) source) as ->.
    { apply list_eq. intros i. by rewrite Hl', list_lookup_imap. }
    apply keep_valid; [done|]. by apply ranges_uniform. }
  rewrite Hvalid. split; [done|]. split; [done|]. split; [done|].
  intros offset. apply same_breaks_position. by eapply keep_breaks.
Qed.

Lemma template_blanking_witness :
  ∃ r, prepare_template_source Svelte (lit "<b>{x}</b><script>y</script>") = Some r ∧
       length (blanked r) = 28%nat.
Proof.
  destruct (template_blanking Svelte (lit "<b>{x}</b><script>y</script>") eq_refl)
    as (ranges & lang & r & _ & Hr & _ & _ & Hlen & _).
  exists r. split; [exact Hr|exact Hlen].
Defined.

(** The rules of a style block of a Svelte file stay in the source that is parsed as
    script, although only script parts are meant to be kept: the search for inline
    expressions skips the script blocks only. *)
Theorem svelte_keeps_style_rules :
  ∃ r, prepare_template_source Svelte (lit "<style>b {color:red}</style>") = Some r ∧
       blanked r = lit "         {color:red}        ".
Proof. eexists. split; vm_compute; reflexivity. Qed.

(** * Embedded regions of HTML

    structural/blanking.rs: the regions of script and style elements, and what
    [blank_non_script_regions] leaves of a page. *)
#[local] Arguments Nat.ltb : simpl never.
#[local] Arguments Nat.leb : simpl never.

(** ** Regions *)
Record region_ok (open_tag close_tag : str) (kind : EmbeddedRegionKind) (source : str)
    (from : nat) (r : EmbeddedRegion) : Prop := {
  region_kind_is : region_kind r = kind;
  region_from : (from ≤ open_start_byte r ≤ start_byte r)%nat;
  region_order : (start_byte r ≤ end_byte r)%nat;
  region_inside : (end_byte r + length close_tag ≤ length source)%nat;
  region_open k : (k < length open_tag)%nat →
    to_ascii_lowercase source !! (open_start_byte r + k)%nat = open_tag !! k;
  region_close k : (k < length close_tag)%nat →
    to_ascii_lowercase source !! (end_byte r + k)%nat = close_tag !! k;
  region_close_first j : (start_byte r ≤ j < end_byte r)%nat →
    starts_with (drop j (to_ascii_lowercase source)) close_tag = false;
  region_bracket : start_byte r = open_start_byte r ∨
    to_ascii_lowercase source !! (start_byte r - 1)%nat = Some ">"%char ∧
    (open_start_byte r < start_byte r)%nat;
  region_position : (region_line r, region_col r) = byte_offset_line_col source (start_byte r);
}.
Fixpoint regions_ok (open_tag close_tag : str) (kind : EmbeddedRegionKind) (source : str)
    (from : nat) (rs : list EmbeddedRegion) : Prop :=
  match rs with
  | [] => True
  | r :: rs => region_ok open_tag close_tag kind source from r ∧
      regions_ok open_tag close_tag kind source (end_byte r + length close_tag) rs
  end.

Lemma next_region_ok open_tag close_tag kind source from r :
  open_tag ≠ [] → close_tag ≠ [] →
  next_region open_tag close_tag kind source (to_ascii_lowercase source) from = Some r →
  region_ok open_tag close_tag kind source from r.
Proof.
  intros Ho Hc. unfold next_region. rewrite bind_Some. intros (rel & H1 & H).
  apply find_tag in H1 as (Hl1 & Ht1 & Hn1); [|done].
  set (open_start := (from + rel)%nat) in *.
  destruct (find_byte ">"%char (drop open_start (to_ascii_lowercase source))) as [idx|] eqn:H2;
    apply bind_Some in H as (close_rel & H3 & H);
    apply find_tag in H3 as (Hl3 & Ht3 & Hn3); try done; rewrite length_lower in Hl3;
    destruct (byte_offset_line_col source _) as [line col] eqn:Hp; injection H as <-;
    split; cbn [region_kind open_start_byte start_byte end_byte region_line region_col];
    try done; try lia.
  right. apply find_byte_from in H2 as [H2 _]. split; [by rewrite Nat.add_sub|lia].
Qed.

Lemma regions_of_total fuel open_tag close_tag kind source from :
  open_tag ≠ [] → close_tag ≠ [] → (length source < from + fuel)%nat → (from ≤ length source)%nat →
  ∃ rs, regions_of fuel open_tag close_tag kind source (to_ascii_lowercase source) from = Some rs ∧
        regions_ok open_tag close_tag kind source from rs.
Proof.
  intros Ho Hc. revert from. induction fuel as [|fuel IH]; intros from Hfuel Hfrom; [lia|].
  cbn [regions_of]. destruct (next_region _ _ _ _ _ from) as [r|] eqn:Hr; [|by exists []].
  apply next_region_ok in Hr; [|done..].
  assert (length close_tag ≠ 0)%nat by (by destruct close_tag).
  destruct (IH (end_byte r + length close_tag)%nat) as (rs & -> & Hrs).
  - destruct Hr. lia.
  - destruct Hr. lia.
  - by exists (r :: rs).
Qed.

Definition before (a b : EmbeddedRegion) : Prop := (end_byte a < start_byte b)%nat.
Lemma regions_ok_sorted open_tag close_tag kind source from rs :
  close_tag ≠ [] → regions_ok open_tag close_tag kind source from rs →
  StronglySorted before rs ∧
  Forall (λ r, (from ≤ start_byte r)%nat ∧ ∃ from', region_ok open_tag close_tag kind source from' r)
    rs.
Proof.
  intros Hc. assert (length close_tag ≠ 0)%nat by (by destruct close_tag).
  revert from. induction rs as [|r rs IH]; intros from; [by repeat constructor|].
  intros [Hr Hrs]. destruct (IH _ Hrs) as [Hs Hall]. split.
  - constructor; [done|]. eapply Forall_impl; [exact Hall|]. intros r' [? _]. unfold before. lia.
  - constructor; [split; [destruct Hr; lia|by exists from]|]. eapply Forall_impl; [exact Hall|].
    intros r' [? ?]. split; [destruct Hr; lia|done].
Qed.

Lemma extract_total source :
  ∃ scripts styles,
    extract_embedded_regions source = Some (sort_by_key start_byte (scripts ++ styles)) ∧
    regions_ok (lit "<script") (lit "</script>") Script source 0 scripts ∧
    regions_ok (lit "<style") (lit "</style>") Style source 0 styles ∧
    List.filter is_script (sort_by_key start_byte (scripts ++ styles)) = scripts.
Proof.
  unfold extract_embedded_regions. rewrite length_lower.
  destruct (regions_of_total (S (length source)) (lit "<script") (lit "</script>") Script source 0)
    as (scripts & -> & Hs); [done|done|lia|lia|].
  destruct (regions_of_total (S (length source)) (lit "<style") (lit "</style>") Style source 0)
    as (styles & -> & Ht); [done|done|lia|lia|].
  exists scripts, styles. split; [done|]. split; [done|]. split; [done|].
  rewrite filter_sort_by_key, List.filter_app.
  apply regions_ok_sorted in Hs as [Hs Hs']; [|done]. apply regions_ok_sorted in Ht as [_ Ht']; [|done].
  assert (List.filter is_script scripts = scripts) as ->.
  { clear Hs. induction Hs' as [|r rs [_ [? Hr]] _ IH]; cbn; [done|].
    unfold is_script at 1. rewrite (region_kind_is _ _ _ _ _ _ Hr). cbn. by rewrite IH. }
  assert (List.filter is_script styles = []) as ->.
  { clear Hs Hs'. induction Ht' as [|r rs [_ [? Hr]] _ IH]; cbn; [done|].
    unfold is_script at 1. rewrite (region_kind_is _ _ _ _ _ _ Hr). cbn. by rewrite IH. }
  rewrite app_nil_r. apply sort_by_key_id.
  induction Hs as [|r rs Hrs IH Hall]; [constructor|]. apply Forall_cons in Hs' as [[_ [? Hr]] Hs'].
  constructor; [by apply IH|]. eapply Forall_impl; [exact Hall|]. unfold before. intros r' ?.
  destruct Hr. lia.
Qed.

(** ** Blanking *)
Definition range_of (r : EmbeddedRegion) : ByteRange :=
  {| range_start := start_byte r; range_end := end_byte r |}.
Definition in_regions (rs : list EmbeddedRegion) (i : nat) : bool :=
  in_any_range i (range_of <$> rs).

Lemma blank_range_lookup out first last :
  (first ≤ last)%nat → (last ≤ length out)%nat →
  length (blank_range out first last) = length out ∧
  ∀ i, blank_range out first last !! i =
       (if (first <=? i)%nat && (i <? last)%nat then blank_byte else id) <$> out !! i.
Proof.
  intros Hfl Hl. unfold blank_range.
  assert (Hs : length (blank_byte <$> slice out first last) = (last - first)%nat)
    by (rewrite length_fmap; by apply length_slice).
  split; [rewrite !length_app, Hs, length_take, length_drop; lia|].
  intros i. destruct (decide (i < first)%nat) as [Hi|Hi].
  { rewrite lookup_app_l by (rewrite length_take; lia). rewrite lookup_take_lt by done.
    destruct (Nat.leb_spec first i); [lia|]. by destruct (out !! i). }
  rewrite lookup_app_r by (rewrite length_take; lia). rewrite length_take, Nat.min_l by lia.
  destruct (decide (i < last)%nat) as [Hil|Hil].
  - rewrite lookup_app_l by (rewrite Hs; lia).
    rewrite list_lookup_fmap, lookup_slice, decide_True by lia.
    replace (first + (i - first))%nat with i by lia.
    destruct (Nat.leb_spec first i), (Nat.ltb_spec i last); [done|lia..].
  - rewrite lookup_app_r by (rewrite Hs; lia). rewrite Hs, lookup_drop.
    replace (last + (i - first - (last - first)))%nat with i by lia.
    destruct (Nat.leb_spec first i), (Nat.ltb_spec i last); try lia. by destruct (out !! i).
Qed.

(** The state of the loop: everything before the cursor is settled. *)
Definition settled (source : str) (rs : list EmbeddedRegion) (out : str) (cursor : nat) : Prop :=
  length out = length source ∧ (cursor ≤ length source)%nat ∧
  ∀ i, out !! i = (if (i <? cursor)%nat then keep_byte (in_regions rs) i else id) <$> source !! i.

Lemma in_regions_snoc rs r i :
  in_regions (rs ++ [r]) i =
    in_regions rs i || ((start_byte r <=? i)%nat && (i <? end_byte r)%nat).
Proof.
  unfold in_regions, in_any_range. rewrite fmap_app, existsb_app. cbn [existsb fmap list_fmap].
  by rewrite orb_false_r.
Qed.

Lemma settled_extend source rs out cursor upto r :
  settled source rs out cursor → (cursor ≤ upto)%nat → (upto ≤ length source)%nat →
  Forall (λ r, (end_byte r ≤ cursor)%nat) rs →
  settled source rs (if (cursor <? upto)%nat then blank_range out cursor upto else out) upto ∧
  ((start_byte r ≤ end_byte r)%nat → upto = start_byte r → (end_byte r ≤ length source)%nat →
   settled source (rs ++ [r])
     (if (cursor <? upto)%nat then blank_range out cursor upto else out) (end_byte r)).
Proof.
  intros (Hlen & Hc & Hout) Hup Hul Hrs.
  assert (Hafter : ∀ i, (cursor ≤ i)%nat → in_regions rs i = false).
  { intros i Hi. apply not_true_is_false. unfold in_regions. rewrite in_any_range_true.
    intros (r' & (e & -> & He)%list_elem_of_fmap & Hr'). cbn in Hr'.
    rewrite Forall_forall in Hrs. specialize (Hrs e He). lia. }
  assert (Hnew : length (if (cursor <? upto)%nat then blank_range out cursor upto else out)
                   = length source ∧
                 ∀ i, (if (cursor <? upto)%nat then blank_range out cursor upto else out) !! i =
                   (if (i <? upto)%nat then keep_byte (in_regions rs) i else id) <$> source !! i).
  { destruct (Nat.ltb_spec cursor upto) as [Hlt|Hge].
    - destruct (blank_range_lookup out cursor upto) as [Hl Hlook]; [lia|lia|].
      split; [lia|]. intros i. rewrite Hlook, Hout.
      destruct (source !! i) as [c|]; cbn; [|done]. f_equal.
      destruct (Nat.leb_spec cursor i), (Nat.ltb_spec i upto), (Nat.ltb_spec i cursor);
        cbn; try lia; try done.
      unfold keep_byte, blank_byte. rewrite Hafter by lia. by rewrite orb_false_r.
    - assert (upto = cursor) as -> by lia. split; [done|]. intros i. by rewrite Hout. }
  destruct Hnew as [Hlen' Hout']. split; [by split|]. intros Hse -> Hel.
  split; [done|]. split; [done|]. intros i. rewrite Hout'.
  destruct (source !! i) as [c|]; cbn; [|done]. f_equal. unfold keep_byte, id.
  rewrite in_regions_snoc.
  destruct (Nat.ltb_spec i (start_byte r)), (Nat.ltb_spec i (end_byte r)),
    (Nat.leb_spec (start_byte r) i); cbn; try lia; rewrite ?orb_false_r, ?orb_true_r; done.
Qed.

Lemma blank_fold source rs :
  StronglySorted before rs →
  Forall (λ r, (start_byte r ≤ end_byte r)%nat ∧ (end_byte r ≤ length source)%nat) rs →
  ∃ out cursor, foldl blank_before (source, 0%nat) rs = (out, cursor) ∧
    settled source rs out cursor ∧ Forall (λ r, (end_byte r ≤ cursor)%nat) rs ∧
    (∀ r, last rs = Some r → cursor = end_byte r) ∧ (rs = [] → cursor = 0%nat).
Proof.
  induction rs as [|r rs IH] using rev_ind; intros Hs Hall.
  { exists source, 0%nat. split; [done|]. split; [|by split; [constructor|split]].
    split; [done|]. split; [lia|]. intros i. by destruct (source !! i). }
  apply Forall_app in Hall as [Hall [[Hse Hel] _]%Forall_cons].
  assert (StronglySorted before rs ∧ Forall (λ a, before a r) rs) as [Hs1 Hs2].
  { clear -Hs. induction rs as [|a rs IH]; [by split; constructor|]. inversion Hs as [|?? H1 H2]; subst.
    apply IH in H1 as [? ?]. apply Forall_app in H2 as [? [? _]%Forall_cons].
    split; by constructor. }
  destruct (IH Hs1 Hall) as (out & cursor & Hf & Hset & Hends & Hlast & Hnil).
  rewrite foldl_snoc, Hf. unfold blank_before.
  destruct Hset as (Hlen & Hc & Hout). rewrite Hlen. rewrite !Nat.min_l by lia.
  assert (Hle : (cursor ≤ start_byte r)%nat).
  { destruct (last rs) as [a|] eqn:Ha.
    - rewrite (Hlast a eq_refl). apply last_Some in Ha as [l' ->].
      apply Forall_app in Hs2 as [_ [Hb _]%Forall_cons]. unfold before in Hb. lia.
    - apply last_None in Ha. rewrite (Hnil Ha). lia. }
  eexists _, _. split; [done|]. split; [|split; [|split]].
  - apply (settled_extend source rs out cursor (start_byte r) r); [by split|lia|lia|done..].
  - apply Forall_app. split; [|by constructor]. eapply Forall_impl; [exact Hends|]. cbn. lia.
  - intros a. rewrite last_snoc. by intros [= ->].
  - by destruct rs.
Qed.

Lemma blank_outside_spec source rs :
  rs ≠ [] → StronglySorted before rs →
  Forall (λ r, (start_byte r ≤ end_byte r)%nat ∧ (end_byte r ≤ length source)%nat) rs →
  length (blank_outside_regions source rs) = length source ∧
  ∀ i, blank_outside_regions source rs !! i = keep_byte (in_regions rs) i <$> source !! i.
Proof.
  intros Hne Hs Hall. destruct (blank_fold source rs Hs Hall) as (out & cursor & Hf & Hset & Hends & _).
  assert (blank_outside_regions source rs =
            if (cursor <? length out)%nat then blank_range out cursor (length out) else out) as ->.
  { destruct rs; [done|]. unfold blank_outside_regions. by rewrite Hf. }
  pose proof Hset as (Hlen & Hc & _). rewrite Hlen.
  destruct (settled_extend source rs out cursor (length source)
    {| region_kind := Script; open_start_byte := 0; start_byte := 0; end_byte := 0;
       region_line := 0; region_col := 0 |} Hset) as [(Hl & _ & Hout) _]; [lia|lia|done|].
  split; [done|]. intros i. rewrite Hout. destruct (source !! i) as [c|] eqn:Hi; [|done].
  apply lookup_lt_Some in Hi. by destruct (Nat.ltb_spec i (length source)); [|lia].
Qed.

Lemma region_range_ok open_tag close_tag kind source from r :
  open_tag !! 0%nat = Some "<"%char → close_tag !! 0%nat = Some "<"%char →
  region_ok open_tag close_tag kind source from r → range_ok source (range_of r).
Proof.
  intros Ho Hc [_ Hfrom Hord Hin Hopen Hclose _ Hbr _].
  assert (H0 : ∀ t p, t !! 0%nat = Some "<"%char →
            (∀ k, (k < length t)%nat → to_ascii_lowercase source !! (p + k)%nat = t !! k) →
            boundary source p).
  { intros t p Ht Hk. right; right; left. specialize (Hk 0%nat). rewrite Nat.add_0_r, Ht in Hk.
    apply lookup_lt_Some in Ht. apply (lower_ascii source p "<"%char); [by apply Hk|done]. }
  split; cbn; [done|lia| |by apply (H0 close_tag)].
  destruct Hbr as [->|[Hbr Hlt]]; [by apply (H0 open_tag)|].
  right; right; right. apply lower_ascii in Hbr as (d & Hd & Ha); [|done].
  exists (start_byte r - 1)%nat, d. split; [lia|done].
Qed.

(** Blanking the rest of an HTML page always returns a text of the same length.  When the
    page has a script, the bytes of the scripts and all line breaks stay at their places,
    everything else is a space, the text is well-formed UTF-8 and every offset keeps its
    line and column.  When it has none, every byte becomes a space, the line breaks
    too. *)
Theorem html_blanking source :
  utf8_valid source = true →
  ∃ regions out,
    extract_embedded_regions source = Some regions ∧
    blank_non_script_regions source = Some out ∧ length out = length source ∧
    let scripts := List.filter is_script regions in
    (scripts ≠ [] →
      utf8_valid out = true ∧
      (∀ i, out !! i = keep_byte (in_regions scripts) i <$> source !! i) ∧
      ∀ offset, byte_offset_line_col out offset = byte_offset_line_col source offset) ∧
    (scripts = [] → out = replicate (length source) space).
Proof.
  intros Hv. destruct (extract_total source) as (scripts & styles & Hx & Hs & _ & Hfilter).
  unfold blank_non_script_regions. rewrite Hx. cbn [mbind option_bind].
  eexists _, _. split; [done|]. split; [done|]. rewrite Hfilter. cbn zeta.
  apply regions_ok_sorted in Hs as [Hsort Hall]; [|done].
  destruct (decide (length scripts = 0%nat)) as [->%length_zero_iff_nil|Hne0].
  { cbn. rewrite length_replicate. by split; [|split]. }
  assert (Hne : scripts ≠ []) by (by intros ->).
  destruct (blank_outside_spec source scripts Hne Hsort) as [Hlen Hout].
  { eapply Forall_impl; [exact Hall|]. intros r [_ [? Hr]]. destruct Hr. lia. }
  split; [done|]. split; [|done]. intros _.
  assert (Hok : Forall (range_ok source) (range_of <$> scripts)).
  { rewrite Forall_fmap. eapply Forall_impl; [exact Hall|]. intros r [_ [from Hr]].
    by eapply (region_range_ok (lit "<script") (lit "</script>") Script source from). }
  split; [|split; [done|]].
  - assert (blank_outside_regions source scripts = imap (keep_byte (in_regions scripts)) source)
      as ->.
    { apply list_eq. intros i. by rewrite Hout, list_lookup_imap. }
    apply keep_valid; [done|]. by apply ranges_uniform.
  - intros offset. apply same_breaks_position. by eapply keep_breaks.
Qed.

Lemma html_blanking_witness :
  blank_non_script_regions (lit "a" ++ newline :: lit "b") = Some (lit "   ").
Proof.
  destruct (html_blanking (lit "a" ++ newline :: lit "b") eq_refl)
    as (regions & out & Hx & Hout & _ & _ & Hnone).
  rewrite Hout. f_equal. apply Hnone. vm_compute in Hx. by injection Hx as <-.
Defined.
