(* ===== verification/RetrievalRanker.v ===== *)
(** * The ranker

    codestory-retrieval/src/ranker.rs: the fused score of a candidate, the anchors and
    caps, and the final order, in binary32 arithmetic.  It implements the [Ranker]
    interface of the executor. *)
From S2P Require Import Prelude RustStr StrOps Sorting RetrievalPlan RetrievalData RetrievalExecutor.

Definition f32_mul : f32 → f32 → f32 := SFmul f32_prec f32_emax.
(** [f32::min]. *)
Definition f32_min (a b : f32) : f32 :=
  if f32_is_nan a then b else if f32_is_nan b then a else if f32_lt b a then b else a.
Definition f32_one : f32 := f32_of_Z 1.

Definition with_score (s : f32) (hit : CandidateHit) : CandidateHit :=
  {| node_id := node_id hit; file_path := file_path hit; symbol_name := symbol_name hit;
     start_line := start_line hit; score := s; source := source hit;
     provenance := provenance hit; file_role := file_role hit;
     scip_hop_distance := scip_hop_distance hit; rank_features := rank_features hit |}.
Definition with_rank_features (f : option RankFeatures) (hit : CandidateHit) : CandidateHit :=
  {| node_id := node_id hit; file_path := file_path hit; symbol_name := symbol_name hit;
     start_line := start_line hit; score := score hit; source := source hit;
     provenance := provenance hit; file_role := file_role hit;
     scip_hop_distance := scip_hop_distance hit; rank_features := f |}.

(** ** Weights *)
Record RankWeights : Type := mkRankWeights {
  w_lexical : f32;
  w_semantic : f32;
  w_scip_distance : f32;
  w_file_role_prior : f32;
  w_definition_quality : f32;
  w_token_overlap : f32;
}.
Definition percent_weights (a b c d e f : Z) : RankWeights :=
  {| w_lexical := f32_ratio a 100; w_semantic := f32_ratio b 100;
     w_scip_distance := f32_ratio c 100; w_file_role_prior := f32_ratio d 100;
     w_definition_quality := f32_ratio e 100; w_token_overlap := f32_ratio f 100 |}.
Definition weights_for_shape (shape : QueryShape) : RankWeights :=
  match shape with
  | SymbolLike => percent_weights 25 15 30 10 15 5
  | PathLike => percent_weights 45 5 15 20 10 5
  | NaturalLanguage => percent_weights 15 40 10 10 10 15
  | Mixed => percent_weights 25 25 20 10 10 10
  end.
Definition min_rank_score (shape : QueryShape) : f32 :=
  match shape with
  | NaturalLanguage => f32_ratio 4 100
  | Mixed => f32_ratio 6 100
  | SymbolLike | PathLike => f32_ratio 8 100
  end.
Definition STRUCTURAL_BASELINE_MULTIPLIER : f32 := f32_ratio 1 2.
Definition STRUCTURAL_DYNAMIC_TOKEN_THRESHOLD : f32 := f32_ratio 35 100.
Definition STRUCTURAL_DYNAMIC_SEMANTIC_THRESHOLD : f32 := f32_ratio 55 100.
Definition STRUCTURAL_DYNAMIC_BOOST : f32 := f32_ratio 135 100.

(** ** Tests on a candidate *)
Definition candidate_has_provenance (candidate : CandidateHit) (label : str) : bool :=
  existsb (str_eqb label) (provenance candidate).
Definition candidate_has_graph_provenance (candidate : CandidateHit) : bool :=
  bool_decide (source candidate = CandidateSource.Scip)
  || candidate_has_provenance candidate (lit "graph_neighbor")
  || candidate_has_provenance candidate (lit "exact").
Definition effective_file_role (candidate : CandidateHit) : FileRole :=
  default (classify_path (file_path candidate)) (file_role candidate).
Definition is_primary (candidate : CandidateHit) : bool :=
  match effective_file_role candidate with
  | FileRole.Source | FileRole.Entrypoint => true
  | _ => false
  end.
Definition looks_like_repo_relative_path (file_path : str) : bool :=
  let trimmed := trim file_path in
  negb (bool_decide (trimmed = [])) && negb (contains trimmed (lit ":"))
  && (contains trimmed (lit "/") || contains trimmed (lit "\") || contains trimmed (lit ".")).
Definition is_structural_candidate_path (path : str) : bool :=
  match file_extension path with
  | Some ext => one_of (to_ascii_lowercase ext) [lit "html"; lit "htm"; lit "css"; lit "sql"]
  | None => false
  end.
Definition symbol_name_looks_test_like (symbol_name : option str) : bool :=
  match symbol_name with
  | None => false
  | Some symbol_name =>
      let symbol := to_ascii_lowercase symbol_name in
      let local_name := after_last symbol (lit "::") in
      starts_with symbol (lit "tests::") || contains symbol (lit "::tests::")
      || starts_with local_name (lit "test_") || ends_with local_name (lit "_test")
      || ends_with local_name (lit "_tests") || contains local_name (lit "_test_")
      || contains local_name (lit "_tests_")
  end.

(** ** Query terms *)
Definition NON_PRIMARY_ROLE_TERMS : list str :=
  [lit "test"; lit "tests"; lit "spec"; lit "specs"; lit "fixture"; lit "fixtures"; lit "doc";
   lit "docs"; lit "documentation"; lit "readme"; lit "benchmark"; lit "benchmarks";
   lit "bench"; lit "generated"; lit "vendor"].
Definition STRUCTURAL_ROLE_TERMS : list str :=
  [lit "css"; lit "html"; lit "layout"; lit "style"; lit "styles"; lit "stylesheet"; lit "sql"].
Definition CODE_INTENT : list str :=
  [lit "function"; lit "func"; lit "method"; lit "class"; lit "struct"; lit "trait";
   lit "interface"; lit "enum"; lit "impl"; lit "def"; lit "fn"; lit "type"; lit "module";
   lit "namespace"].
Definition mentions (terms query_tokens : list str) : bool :=
  existsb (λ token, one_of token terms) query_tokens.
Definition query_mentions_non_primary_role : list str → bool := mentions NON_PRIMARY_ROLE_TERMS.
Definition query_mentions_structural_role : list str → bool := mentions STRUCTURAL_ROLE_TERMS.
Definition query_has_code_intent : list str → bool := mentions CODE_INTENT.
Definition prefers_primary_code_evidence (shape : QueryShape) (query_tokens : list str) : bool :=
  match shape with NaturalLanguage | Mixed => true | _ => false end
  && negb (query_mentions_non_primary_role query_tokens)
  && negb (query_mentions_structural_role query_tokens).

Definition lower_symbol (candidate : CandidateHit) : str :=
  to_ascii_lowercase (default [] (symbol_name candidate)).
Definition token_hits (token path_lower symbol_lower : str) : bool :=
  contains path_lower token || contains symbol_lower token.
Definition token_overlap_score (query_tokens : list str) (path_lower symbol_lower : str) : f32 :=
  if bool_decide (query_tokens = []) then f32_zero
  else
    let hits := len (List.filter (λ token, (2 <=? len token)
                       && token_hits token path_lower symbol_lower) query_tokens) in
    f32_div (f32_of_Z hits) (f32_of_Z (len query_tokens)).
Definition strong_query_token_hits (candidate : CandidateHit) (query_tokens : list str) : Z :=
  let path_lower := to_ascii_lowercase (file_path candidate) in
  len (List.filter (λ token, (4 <=? len token)
         && token_hits token path_lower (lower_symbol candidate)) query_tokens).

(** ** Scores *)
Definition file_role_prior (r : FileRole) : f32 :=
  match r with
  | FileRole.Entrypoint => f32_ratio 95 100 | FileRole.Source => f32_ratio 72 100
  | FileRole.Test => f32_ratio 35 100 | FileRole.Docs => f32_ratio 30 100
  | FileRole.Benchmark => f32_ratio 28 100 | FileRole.Generated => f32_ratio 22 100
  | FileRole.Vendor => f32_ratio 18 100
  end.
Definition primary_code_role_multiplier (r : FileRole) (prefer_primary_code : bool) : f32 :=
  if negb prefer_primary_code then f32_one
  else
    match r with
    | FileRole.Entrypoint => f32_ratio 108 100 | FileRole.Source => f32_ratio 102 100
    | FileRole.Test => f32_ratio 58 100 | FileRole.Docs => f32_ratio 68 100
    | FileRole.Benchmark => f32_ratio 55 100 | FileRole.Generated => f32_ratio 42 100
    | FileRole.Vendor => f32_ratio 35 100
    end.
Definition primary_source_path_bonus (file_path : str) (query_tokens : list str) : f32 :=
  let path_lower := to_ascii_lowercase (replace file_path (lit "\") (lit "/")) in
  let bonus := f32_zero in
  let bonus := if contains path_lower (lit "/src/") || starts_with path_lower (lit "src/")
               then f32_add bonus (f32_ratio 4 100) else bonus in
  if existsb (λ token, (4 <=? len token) && contains path_lower token) query_tokens
  then f32_add bonus (f32_ratio 3 100) else bonus.

Definition build_rank_features (candidate : CandidateHit) (query_tokens : list str)
  : RankFeatures :=
  let path_lower := to_ascii_lowercase (file_path candidate) in
  let has_lexical := bool_decide (source candidate = CandidateSource.Lexical)
                     || candidate_has_provenance candidate (lit "lexical_source") in
  let has_semantic := bool_decide (source candidate = CandidateSource.Semantic)
                      || candidate_has_provenance candidate (lit "dense_anchor")
                      || candidate_has_provenance candidate (lit "component_report") in
  let has_graph := candidate_has_graph_provenance candidate in
  {| rf_lexical :=
       if bool_decide (source candidate = CandidateSource.Legacy)
       then f32_mul (score candidate) (f32_ratio 1 2)
       else if has_lexical then f32_max (score candidate) (f32_ratio 35 100)
       else f32_mul (score candidate) (f32_ratio 6 10);
     rf_semantic :=
       if has_semantic then f32_max (score candidate) (f32_ratio 4 10)
       else f32_mul (score candidate) (f32_ratio 25 100);
     rf_scip_distance :=
       if has_graph
       then f32_div f32_one (f32_add f32_one (f32_of_Z (default 0 (scip_hop_distance candidate))))
       else f32_ratio 2 10;
     rf_file_role_prior := file_role_prior (effective_file_role candidate);
     rf_definition_quality :=
       match symbol_name candidate with Some _ => f32_ratio 85 100 | None => f32_ratio 45 100 end;
     rf_token_overlap := token_overlap_score query_tokens path_lower (lower_symbol candidate) |}.
Definition export_rank_features (candidate : CandidateHit) (f : RankFeatures) : RankFeatures :=
  if candidate_has_graph_provenance candidate then f
  else {| rf_lexical := rf_lexical f; rf_semantic := rf_semantic f; rf_scip_distance := f32_zero;
          rf_file_role_prior := rf_file_role_prior f;
          rf_definition_quality := rf_definition_quality f;
          rf_token_overlap := rf_token_overlap f |}.
Definition score_features (f : RankFeatures) (w : RankWeights) : f32 :=
  f32_add (f32_add (f32_add (f32_add (f32_add
    (f32_mul (w_lexical w) (rf_lexical f)) (f32_mul (w_semantic w) (rf_semantic f)))
    (f32_mul (w_scip_distance w) (rf_scip_distance f)))
    (f32_mul (w_file_role_prior w) (rf_file_role_prior f)))
    (f32_mul (w_definition_quality w) (rf_definition_quality f)))
    (f32_mul (w_token_overlap w) (rf_token_overlap f)).
Definition structural_fusion_multiplier (candidate : CandidateHit) (f : RankFeatures) : f32 :=
  if negb (is_structural_candidate_path (file_path candidate)) then f32_one
  else
    let multiplier := STRUCTURAL_BASELINE_MULTIPLIER in
    let multiplier :=
      if f32_ge (rf_token_overlap f) STRUCTURAL_DYNAMIC_TOKEN_THRESHOLD
         || f32_ge (rf_semantic f) STRUCTURAL_DYNAMIC_SEMANTIC_THRESHOLD
      then f32_mul multiplier STRUCTURAL_DYNAMIC_BOOST else multiplier in
    f32_min multiplier f32_one.

(** The body of the loop over the candidates. *)
Definition score_candidate (features : QueryFeatures) (query_tokens : list str)
    (prefer_primary_code : bool) (candidate : CandidateHit) : CandidateHit :=
  let query_lower := to_ascii_lowercase (raw_query features) in
  let file_role := effective_file_role candidate in
  let candidate := with_file_role (Some file_role) candidate in
  let rank_features := build_rank_features candidate query_tokens in
  let fused := score_features rank_features (weights_for_shape (shape features)) in
  let fused := f32_mul fused (structural_fusion_multiplier candidate rank_features) in
  let fused := f32_mul fused (primary_code_role_multiplier file_role prefer_primary_code) in
  let s := fused in
  let s := if looks_like_repo_relative_path (file_path candidate)
           then f32_add s (f32_ratio 8 100) else s in
  let s := match shape features with
           | PathLike => if contains query_lower (to_ascii_lowercase (file_path candidate))
                         then f32_add s (f32_ratio 25 100) else s
           | _ => s
           end in
  let s := match shape features with
           | NaturalLanguage | Mixed =>
               let strong_token_hits := strong_query_token_hits candidate query_tokens in
               let s := f32_add s (f32_mul (f32_of_Z strong_token_hits) (f32_ratio 6 100)) in
               if bool_decide (source candidate = CandidateSource.Lexical)
                  && (3 <=? strong_token_hits)
               then f32_add s (f32_ratio 8 100) else s
           | _ => s
           end in
  let s := if prefer_primary_code && is_primary candidate
           then f32_add s (primary_source_path_bonus (file_path candidate) query_tokens) else s in
  let s := if prefer_primary_code && symbol_name_looks_test_like (symbol_name candidate)
           then f32_mul s (f32_ratio 55 100) else s in
  with_rank_features (Some (export_rank_features candidate rank_features)) (with_score s candidate).

(** ** Anchors and caps *)

(** [Iterator::max_by] of [partial_cmp(..).unwrap_or(Equal)] on a projection: the last of
    the largest. *)
Definition max_by {A} (f : A → f32) (l : list A) : option A :=
  match l with
  | [] => None
  | x :: l => Some (foldl (λ best y, match f32_cmp (f best) (f y) with Gt => best | _ => y end) x l)
  end.
Definition top_score (candidates : list CandidateHit) : option f32 :=
  max_by id (score <$> candidates).
(** [(score - 0.001).max(0.0)]. *)
Definition demoted (s : f32) : f32 := f32_max (f32_sub s (f32_ratio 1 1000)) f32_zero.
Definition demote_if (test : CandidateHit → bool) (top : f32) (candidate : CandidateHit)
  : CandidateHit :=
  if test candidate && f32_ge (score candidate) top then with_score (demoted top) candidate
  else candidate.

Definition exact_path_match (file_path : str) (query_tokens : list str) : bool :=
  match file_stem file_path with
  | Some stem => existsb (str_eqb (to_ascii_lowercase stem)) query_tokens
  | None => false
  end.
Definition is_exact_code_evidence (candidate : CandidateHit) (query_tokens : list str) : bool :=
  match source candidate with
  | CandidateSource.Semantic | CandidateSource.Legacy => false
  | _ =>
      match symbol_name candidate with
      | None => exact_path_match (file_path candidate) query_tokens
      | Some symbol =>
          let symbol_tail :=
            to_ascii_lowercase (after_last (after_last symbol (lit "::")) (lit ".")) in
          existsb (str_eqb symbol_tail) query_tokens
          || exact_path_match (file_path candidate) query_tokens
      end
  end.
Definition apply_exact_code_evidence_anchor (features : QueryFeatures) (query_tokens : list str)
    (candidates : list CandidateHit) : list CandidateHit :=
  match shape features with
  | NaturalLanguage => candidates
  | _ =>
      match top_score (List.filter (λ c, is_exact_code_evidence c query_tokens) candidates) with
      | None => candidates
      | Some top =>
          demote_if (λ c, bool_decide (source c = CandidateSource.Semantic)
                          && negb (is_exact_code_evidence c query_tokens)) top <$> candidates
      end
  end.
Definition apply_structural_code_intent_cap (candidates : list CandidateHit)
  : list CandidateHit :=
  match top_score (List.filter (λ c, negb (is_structural_candidate_path (file_path c))) candidates)
  with
  | None => candidates
  | Some top =>
      (λ c, if is_structural_candidate_path (file_path c) && f32_gt (score c) top
            then with_score top c else c) <$> candidates
  end.
Definition cap_non_primary_below_best_primary (candidates : list CandidateHit)
  : list CandidateHit :=
  match top_score (List.filter is_primary candidates) with
  | None => candidates
  | Some best_primary => demote_if (λ c, negb (is_primary c)) best_primary <$> candidates
  end.
(** The best lexical source with at least three strong hits: its hits and its score. *)
Definition lexical_anchor (candidates : list CandidateHit) (query_tokens : list str)
  : option (Z * f32) :=
  max_by snd
    ((λ c, (strong_query_token_hits c query_tokens, score c)) <$>
     List.filter (λ c, bool_decide (source c = CandidateSource.Lexical) && is_primary c
                       && (3 <=? strong_query_token_hits c query_tokens)) candidates).
Definition cap_dense_below_strong_lexical_source (candidates : list CandidateHit)
    (query_tokens : list str) : list CandidateHit :=
  match lexical_anchor candidates query_tokens with
  | None => candidates
  | Some (anchor_hits, anchor_score) =>
      demote_if (λ c, bool_decide (source c = CandidateSource.Semantic)
                      && (strong_query_token_hits c query_tokens <? anchor_hits))
        anchor_score <$> candidates
  end.

(** ** The order *)
Definition file_role_sort_rank (candidate : CandidateHit) : Z :=
  match effective_file_role candidate with
  | FileRole.Entrypoint => 0 | FileRole.Source => 1 | FileRole.Test => 2 | FileRole.Docs => 3
  | FileRole.Benchmark => 4 | FileRole.Generated => 5 | FileRole.Vendor => 6
  end.
Definition source_sort_rank (candidate : CandidateHit) : Z :=
  match source candidate with
  | CandidateSource.Lexical => 0 | CandidateSource.Scip => 1
  | CandidateSource.Semantic => 2 | CandidateSource.Legacy => 3
  end.
Definition rank_order : CandidateHit → CandidateHit → comparison :=
  then_with (cmp_flip (cmp_on score f32_cmp))
    (then_with (cmp_on file_role_sort_rank Z.compare)
      (then_with (cmp_on source_sort_rank Z.compare)
        (then_with (cmp_on file_path str_cmp)
          (cmp_on symbol_name (option_cmp str_cmp))))).

Section Rank.
Context `{UnicodeTables}.

Definition tokenize (query : str) : list str :=
  to_ascii_lowercase <$>
    List.filter (λ token, 2 <=? len token)
      (split_chars (λ ch, negb (is_alphanumeric ch)) (chars query) []).

(** The candidates with their scores, before anything is dropped or capped. *)
Definition scored (features : QueryFeatures) (candidates : list CandidateHit)
  : list CandidateHit :=
  let query_tokens := tokenize (raw_query features) in
  apply_exact_code_evidence_anchor features query_tokens
    (score_candidate features query_tokens
       (prefers_primary_code_evidence (shape features) query_tokens)
     <$> List.filter (λ c, negb (is_phantom_sidecar_hit c)) candidates).
(** The candidates that reach the minimal score. *)
Definition retained (features : QueryFeatures) (candidates : list CandidateHit)
  : list CandidateHit :=
  List.filter (λ c, f32_ge (score c) (min_rank_score (shape features)))
    (scored features candidates).
Definition capped (features : QueryFeatures) (candidates : list CandidateHit)
  : list CandidateHit :=
  let query_tokens := tokenize (raw_query features) in
  let candidates :=
    if query_has_code_intent query_tokens && negb (query_mentions_structural_role query_tokens)
    then apply_structural_code_intent_cap candidates else candidates in
  if prefers_primary_code_evidence (shape features) query_tokens
  then cap_dense_below_strong_lexical_source (cap_non_primary_below_best_primary candidates)
         query_tokens
  else candidates.
Definition rank_candidates (features : QueryFeatures) (candidates : list CandidateHit)
  : list CandidateHit :=
  sort_by (cmp_leb rank_order) (capped features (retained features candidates)).
End Rank.
