(* ===== verification/RankerProofs.v ===== *)
(** * What the ranker guarantees

    Scores that are not numbers never reach the sort, so the comparison is lawful there;
    the ranking is a sorted rearrangement of the hits that reach the minimal score, with
    only scores, roles and features changed; the caps, and the order in which they are
    applied. *)
From S2P Require Import Prelude RustStr StrOps Sorting RetrievalPlan RetrievalData RetrievalExecutor.
From S2P Require Import RetrievalCache RetrievalQuery RetrievalRanker.

(** ** Identities *)

(** A hit without what the ranker writes. *)
Definition identity (c : CandidateHit) : CandidateHit :=
  with_score f32_zero (with_rank_features None (with_file_role None c)).

Lemma identity_score s c : identity (with_score s c) = identity c.
Proof. done. Qed.
Lemma identity_phantom a b :
  identity a = identity b → is_phantom_sidecar_hit a = is_phantom_sidecar_hit b.
Proof.
  intros H. unfold is_phantom_sidecar_hit.
  assert (file_path a = file_path b) as -> by (exact (f_equal file_path H)). done.
Qed.

(** Maps that only change scores. *)
Definition rescored (a b : CandidateHit) : Prop := ∃ s, b = with_score s a.
Lemma rescored_refl a : rescored a a.
Proof. exists (score a). by destruct a. Qed.
Lemma rescored_trans a b c : rescored a b → rescored b c → rescored a c.
Proof. intros [s ->] [s' ->]. by exists s'. Qed.
Lemma rescored_identity a b : rescored a b → identity b = identity a.
Proof. by intros [s ->]. Qed.
Lemma rescored_role a b : rescored a b → file_role b = file_role a.
Proof. by intros [s ->]. Qed.

Lemma demote_if_rescored test top c : rescored c (demote_if test top c).
Proof. unfold demote_if. destruct (_ && _); [by eexists|apply rescored_refl]. Qed.
Lemma fmap_rescored (f : CandidateHit → CandidateHit) l :
  (∀ c, rescored c (f c)) → Forall2 rescored l (f <$> l).
Proof. intros Hf. induction l; constructor; auto. Qed.
Lemma rescored_list_refl l : Forall2 rescored l l.
Proof. induction l; constructor; [apply rescored_refl|done]. Qed.
Lemma rescored_list_trans l1 l2 l3 :
  Forall2 rescored l1 l2 → Forall2 rescored l2 l3 → Forall2 rescored l1 l3.
Proof.
  intros H. revert l3. induction H as [|a b l1 l2 Hab _ IH]; intros l3 H; inversion H; subst;
    constructor; [by eapply rescored_trans|auto].
Qed.

Lemma anchor_rescored features tokens l :
  Forall2 rescored l (apply_exact_code_evidence_anchor features tokens l).
Proof.
  unfold apply_exact_code_evidence_anchor.
  destruct (shape features); try apply rescored_list_refl;
    (destruct (top_score _); [|apply rescored_list_refl]; apply fmap_rescored; intros c;
     apply demote_if_rescored).
Qed.
Lemma structural_rescored l : Forall2 rescored l (apply_structural_code_intent_cap l).
Proof.
  unfold apply_structural_code_intent_cap. destruct (top_score _); [|apply rescored_list_refl].
  apply fmap_rescored. intros c. destruct (_ && _); [by eexists|apply rescored_refl].
Qed.
Lemma non_primary_rescored l : Forall2 rescored l (cap_non_primary_below_best_primary l).
Proof.
  unfold cap_non_primary_below_best_primary. destruct (top_score _); [|apply rescored_list_refl].
  apply fmap_rescored. intros c. apply demote_if_rescored.
Qed.
Lemma dense_rescored l tokens : Forall2 rescored l (cap_dense_below_strong_lexical_source l tokens).
Proof.
  unfold cap_dense_below_strong_lexical_source.
  destruct (lexical_anchor l tokens) as [[hits top]|]; [|apply rescored_list_refl].
  apply fmap_rescored. intros c. apply demote_if_rescored.
Qed.

(** ** Numbers *)
Definition number_score (c : CandidateHit) : Prop := f32_number (score c).

Lemma f32_ge_number a b : f32_ge a b = true → f32_number a.
Proof. unfold f32_ge, SFleb. by destruct a, b. Qed.
Lemma f32_max_zero a : f32_number (f32_max a f32_zero).
Proof.
  assert (f32_number f32_zero) by (by vm_compute).
  unfold f32_max. destruct (f32_is_nan a) eqn:Ha; [done|].
  destruct (f32_is_nan f32_zero); [by destruct a|].
  destruct (f32_lt a f32_zero); [done|]. by destruct a.
Qed.
Lemma demoted_number top : f32_number (demoted top).
Proof. apply f32_max_zero. Qed.
Lemma demote_if_number test top c : number_score c → number_score (demote_if test top c).
Proof. unfold demote_if. destruct (_ && _); [|done]. intros _. apply demoted_number. Qed.

(** The largest element. *)
Lemma max_by_elem {A} (f : A → f32) l m : max_by f l = Some m → m ∈ l.
Proof.
  destruct l as [|x l]; [done|]. intros [= <-]. revert x.
  induction l as [|y l IH]; intros x; cbn [foldl]; [by left|].
  destruct (f32_cmp (f x) (f y)); [right; apply IH..|].
  specialize (IH x). rewrite elem_of_cons in IH |- *. destruct IH; [by left|]. right. by right.
Qed.
Lemma max_by_largest {A} (f : A → f32) l m y :
  Forall (λ a, f32_number (f a)) l → max_by f l = Some m → y ∈ l → f32_cmp (f y) (f m) ≠ Gt.
Proof.
  destruct l as [|x l]; [done|]. intros Hnum [= <-].
  assert (H : ∀ x, f32_number (f x) → Forall (λ a, f32_number (f a)) l →
    let m := foldl (λ best y, match f32_cmp (f best) (f y) with Gt => best | _ => y end) x l in
    f32_number (f m) ∧ ∀ y, y ∈ x :: l → cmp_leb f32_cmp (f y) (f m) = true).
  { clear. induction l as [|z l IH]; intros x Hx Hl; cbn [foldl].
    - split; [done|]. intros y ->%list_elem_of_singleton.
      unfold cmp_leb. destruct (f32_cmp (f x) (f x)) eqn:Hc; try done.
      pose proof (cmp_opp (cmp := f32_cmp) (f x) (f x) Hx Hx) as Ho. rewrite Hc in Ho. done.
    - apply Forall_cons in Hl as [Hz Hl].
      assert (Hstep : ∀ w, f32_number (f w) → (w = x ∨ w = z) →
        cmp_leb f32_cmp (f x) (f w) = true → cmp_leb f32_cmp (f z) (f w) = true →
        let m := foldl (λ best y, match f32_cmp (f best) (f y) with Gt => best | _ => y end) w l in
        f32_number (f m) ∧ ∀ y, y ∈ x :: z :: l → cmp_leb f32_cmp (f y) (f m) = true).
      { intros w Hw _ Hxw Hzw. destruct (IH w Hw Hl) as [Hm Hall]. split; [done|].
        pose proof (Hall w ltac:(by left)) as Hwm. intros y.
        rewrite !elem_of_cons. intros [->|[->|Hy]]; [| |apply Hall; by right].
        - by apply (cmp_leb_trans f32_number f32_cmp (f x) (f w)).
        - by apply (cmp_leb_trans f32_number f32_cmp (f z) (f w)). }
      assert (Hxx : ∀ w, f32_number (f w) → cmp_leb f32_cmp (f w) (f w) = true).
      { intros w Hw. unfold cmp_leb. destruct (f32_cmp (f w) (f w)) eqn:Hc; try done.
        pose proof (cmp_opp (cmp := f32_cmp) (f w) (f w) Hw Hw) as Ho. rewrite Hc in Ho. done. }
      destruct (f32_cmp (f x) (f z)) eqn:Hc.
      + apply Hstep; [done|by right|unfold cmp_leb; by rewrite Hc|by apply Hxx].
      + apply Hstep; [done|by right|unfold cmp_leb; by rewrite Hc|by apply Hxx].
      + apply Hstep; [done|by left|by apply Hxx|].
        apply (cmp_leb_total f32_number f32_cmp); [done|done|]. unfold cmp_leb. by rewrite Hc. }
  apply Forall_cons in Hnum as [Hx Hl]. destruct (H x Hx Hl) as [_ Hall]. intros Hy Hgt.
  specialize (Hall y Hy). unfold cmp_leb in Hall. by rewrite Hgt in Hall.
Qed.
Lemma top_score_number l top : Forall number_score l → top_score l = Some top → f32_number top.
Proof.
  intros Hl Ht. apply max_by_elem in Ht. apply list_elem_of_fmap in Ht as (c & -> & Hc).
  rewrite Forall_forall in Hl. by apply Hl.
Qed.
Lemma Forall_filter_list {A} (P : A → Prop) (Q : A → bool) l :
  Forall P l → Forall P (List.filter Q l).
Proof.
  induction 1 as [|x l Hx _ IH]; cbn; [constructor|]. destruct (Q x); [by constructor|done].
Qed.

Lemma structural_numbers l :
  Forall number_score l → Forall number_score (apply_structural_code_intent_cap l).
Proof.
  intros Hl. unfold apply_structural_code_intent_cap.
  destruct (top_score _) as [top|] eqn:Ht; [|done].
  apply top_score_number in Ht; [|by apply Forall_filter_list].
  rewrite Forall_fmap. eapply Forall_impl; [exact Hl|]. intros c Hc. cbn.
  destruct (_ && _); [exact Ht|done].
Qed.
Lemma non_primary_numbers l :
  Forall number_score l → Forall number_score (cap_non_primary_below_best_primary l).
Proof.
  intros Hl. unfold cap_non_primary_below_best_primary. destruct (top_score _); [|done].
  rewrite Forall_fmap. eapply Forall_impl; [exact Hl|]. intros c. apply demote_if_number.
Qed.
Lemma dense_numbers l tokens :
  Forall number_score l → Forall number_score (cap_dense_below_strong_lexical_source l tokens).
Proof.
  intros Hl. unfold cap_dense_below_strong_lexical_source.
  destruct (lexical_anchor l tokens) as [[hits top]|]; [|done].
  rewrite Forall_fmap. eapply Forall_impl; [exact Hl|]. intros c. apply demote_if_number.
Qed.

(** ** The order *)
#[export] Instance rank_order_laws : CmpLaws number_score rank_order.
Proof.
  unfold rank_order. apply then_with_laws.
  { apply cmp_flip_laws, (cmp_on_laws f32_number score), _. }
  assert (Hweak : ∀ cmp, CmpLaws (λ _ : CandidateHit, True) cmp → CmpLaws number_score cmp).
  { intros cmp. by apply cmp_laws_weaken. }
  apply Hweak. repeat apply then_with_laws.
  - apply (cmp_on_laws (λ _, True)), _.
  - apply (cmp_on_laws (λ _, True)), _.
  - apply (cmp_on_laws (λ _, True)), _.
  - apply (cmp_on_laws (λ _, True)), option_cmp_laws, _.
Qed.

(** ** The ranking *)
Section Rank.
Context {UT : UnicodeTables}.

(** A scored candidate is the candidate it came from, with its role filled in. *)
Definition scores_hit (c s : CandidateHit) : Prop :=
  identity s = identity c ∧ file_role s = Some (effective_file_role c).
Lemma score_candidate_hit features tokens prefer c :
  scores_hit c (score_candidate features tokens prefer c).
Proof. split; reflexivity. Qed.
Lemma scored_hits features l :
  Forall2 scores_hit (List.filter (λ c, negb (is_phantom_sidecar_hit c)) l) (scored features l).
Proof.
  unfold scored. set (real := List.filter _ l). set (tokens := tokenize _).
  pose proof (anchor_rescored features tokens
    (score_candidate features tokens (prefers_primary_code_evidence (shape features) tokens)
     <$> real)) as H.
  remember (apply_exact_code_evidence_anchor _ _ _) as out eqn:Hout. clear Hout. revert out H.
  induction real as [|c real IH]; intros out H; inversion H as [|? s ? out' Hs Hout]; subst;
    constructor; [|by apply IH].
  destruct (score_candidate_hit features tokens
    (prefers_primary_code_evidence (shape features) tokens) c) as [H1 H2].
  split; [by rewrite (rescored_identity _ _ Hs)|by rewrite (rescored_role _ _ Hs)].
Qed.

Lemma retained_numbers features l : Forall number_score (retained features l).
Proof.
  apply Forall_forall. intros c. unfold retained.
  rewrite list_elem_of_In, List.filter_In. intros [_ H]. by apply f32_ge_number in H.
Qed.
Lemma capped_numbers features l :
  Forall number_score l → Forall number_score (capped features l).
Proof.
  intros Hl. unfold capped. set (tokens := tokenize _).
  assert (Forall number_score
    (if query_has_code_intent tokens && negb (query_mentions_structural_role tokens)
     then apply_structural_code_intent_cap l else l)).
  { destruct (_ && _); [by apply structural_numbers|done]. }
  destruct (prefers_primary_code_evidence _ _); [|done].
  by apply dense_numbers, non_primary_numbers.
Qed.
Lemma capped_rescored features l : Forall2 rescored l (capped features l).
Proof.
  unfold capped. set (tokens := tokenize _).
  assert (Hs : Forall2 rescored l
    (if query_has_code_intent tokens && negb (query_mentions_structural_role tokens)
     then apply_structural_code_intent_cap l else l)).
  { destruct (_ && _); [apply structural_rescored|apply rescored_list_refl]. }
  destruct (prefers_primary_code_evidence _ _); [|done].
  eapply rescored_list_trans; [exact Hs|]. eapply rescored_list_trans;
    [apply non_primary_rescored|apply dense_rescored].
Qed.
Lemma rescored_identities l l' : Forall2 rescored l l' → identity <$> l' = identity <$> l.
Proof.
  induction 1 as [|a b l l' Hab _ IH]; [done|]. cbn. by rewrite IH, (rescored_identity _ _ Hab).
Qed.
Lemma rescored_roles l l' :
  Forall2 rescored l l' → Forall (λ c, is_Some (file_role c)) l →
  Forall (λ c, is_Some (file_role c)) l'.
Proof.
  induction 1 as [|a b l l' Hab _ IH]; [done|]. intros [Ha Hl]%Forall_cons.
  constructor; [by rewrite (rescored_role _ _ Hab)|auto].
Qed.

(** What [rank_candidates_contract] and the executor's interface share. *)
Lemma ranking_order features l :
  sorted_by (cmp_leb rank_order) (rank_candidates features l) ∧
  Forall number_score (rank_candidates features l).
Proof.
  pose proof (capped_numbers features _ (retained_numbers features l)) as Hnum. split.
  - exact (cmp_sorted number_score rank_order _ Hnum).
  - unfold rank_candidates. by rewrite sort_by_perm.
Qed.
Lemma ranking_hits features l :
  identity <$> rank_candidates features l ≡ₚ identity <$> retained features l.
Proof.
  unfold rank_candidates. rewrite sort_by_perm.
  by rewrite (rescored_identities _ _ (capped_rescored features (retained features l))).
Qed.
Lemma ranking_roles features l :
  Forall (λ c, is_Some (file_role c)) (rank_candidates features l).
Proof.
  unfold rank_candidates. rewrite sort_by_perm.
  apply (rescored_roles _ _ (capped_rescored features _)), Forall_filter_list.
  pose proof (scored_hits features l) as H. induction H as [|c s ? ? [_ Hs] _ IH];
    constructor; [by rewrite Hs|done].
Qed.

(** [C34] The ranking is a sorted rearrangement of the hits that reach the minimal score: the
    result is ordered by score, role, source, path and symbol under a comparison that is
    lawful on it, since no score in it is NaN; phantom hits are gone, every other hit is
    scored once, the result has exactly the hits whose score reaches the minimum of the
    query's shape, each with a role, and nothing but scores, roles and features differs
    from the input. *)
Theorem rank_candidates_contract features l :
  let ranked := rank_candidates features l in
  sorted_by (cmp_leb rank_order) ranked ∧ Forall number_score ranked ∧
  CmpLaws number_score rank_order ∧
  Forall2 scores_hit (List.filter (λ c, negb (is_phantom_sidecar_hit c)) l) (scored features l) ∧
  identity <$> ranked ≡ₚ identity <$>
    List.filter (λ c, f32_ge (score c) (min_rank_score (shape features))) (scored features l) ∧
  Forall (λ c, is_Some (file_role c)) ranked.
Proof.
  intros ranked. destruct (ranking_order features l) as [Hs Hn]. split_and!; [done..|apply _| | |].
  - apply scored_hits.
  - apply ranking_hits.
  - apply ranking_roles.
Qed.
End Rank.

(** ** The interface of the executor *)

(** What the executor's answers rely on. *)
Class RankerLaws (RK : Ranker) : Prop := {
  ranked_order features l :
    sorted_by (cmp_leb rank_order) (RetrievalExecutor.rank_candidates features l);
  ranked_hits features l c : c ∈ RetrievalExecutor.rank_candidates features l →
    is_phantom_sidecar_hit c = false ∧ number_score c ∧ is_Some (file_role c) ∧
    ∃ c0, c0 ∈ l ∧ identity c = identity c0;
}.
#[export] Instance ranker {UT : UnicodeTables} : Ranker :=
  {| RetrievalExecutor.rank_candidates := rank_candidates |}.
#[export] Instance ranker_laws {UT : UnicodeTables} : RankerLaws ranker.
Proof.
  split; cbn.
  - intros features l. apply ranking_order.
  - intros features l c Hc. destruct (ranking_order features l) as [_ Hnum].
    pose proof (scored_hits features l) as Hscored. pose proof (ranking_hits features l) as Hperm.
    pose proof (ranking_roles features l) as Hrole. rewrite Forall_forall in Hnum, Hrole.
    assert (Hi : identity c ∈ identity <$> rank_candidates features l)
      by (by apply list_elem_of_fmap_2).
    rewrite Hperm in Hi. unfold retained in Hi. apply list_elem_of_fmap in Hi as (s & Hs & Hin).
    rewrite list_elem_of_In, List.filter_In, <-list_elem_of_In in Hin. destruct Hin as [Hin _].
    apply list_elem_of_lookup in Hin as [i Hi].
    destruct (Forall2_lookup_r _ _ _ _ _ Hscored Hi) as (c0 & Hc0 & [Hid _]).
    apply list_elem_of_lookup_2 in Hc0. rewrite list_elem_of_In, List.filter_In in Hc0.
    rewrite <-list_elem_of_In in Hc0. destruct Hc0 as [Hc0 Hreal%negb_true_iff].
    assert (Hsame : identity c = identity c0) by (by rewrite Hs).
    split; [by rewrite (identity_phantom _ _ Hsame)|]. split; [by apply Hnum|].
    split; [by apply Hrole|]. by exists c0.
Qed.

(** Answers are ranked: whatever lawful ranker the executor has, the hits of an answer
    that does not come from the cache are sorted, none of them is a phantom, each has a
    file role and a score that is a number. *)
Theorem answers_are_ranked {UT : UnicodeTables} {SS : SidecarSearch} {RK : Ranker}
    {LAWS : RankerLaws RK} {DG : Digest} ex text budget e r c e' :
  execute ex text budget e = ((Ok r, c), e') → cache_hit (trace r) = false →
  sorted_by (cmp_leb rank_order) (hits r) ∧
  Forall (λ hit, is_phantom_sidecar_hit hit = false ∧ number_score hit ∧
                 is_Some (file_role hit)) (hits r).
Proof.
  unfold execute. unfold mbind at 1, X_bind at 1. destruct (instant_now e) as [t0 e0].
  destruct (resolve_mode _ _) as [mode degraded]. destruct (negb _); [done|].
  unfold mbind, X_bind.
  destruct (try_cache ex (classify_query text) mode t0 e0) as [[r0|] e1] eqn:Ht.
  { intros [= <- <- <-]. revert Ht. unfold try_cache, mbind, X_bind, mret, X_ret.
    destruct (not_cancelled e0) as [[] e2]; [|done]. destruct (manifest ex) as [m|]; [|done].
    destruct (get _ _) as [cached|]; [|done]. destruct (load_cancelled e2) as [[] e3];
      destruct (instant_now e3) as [t4 e4]; intros [= <- <-]; [|done]. intros _.
    split; constructor. }
  destruct (instant_now e1) as [started e2].
  destruct (run_stage_sequence _ _ _ _ _ _ e2) as [[[s reason]|err] e3]; [|done].
  destruct (final_reason _ reason e3) as [reason' e4].
  destruct (cache_result _ _ _ _ _ e4) as [[why c'] e5].
  destruct (instant_now e5) as [t6 e6]. intros [= <- <- <-] _. cbn [hits]. split.
  - apply ranked_order.
  - apply Forall_forall. intros hit Hhit. by apply ranked_hits in Hhit as (? & ? & ? & _).
Qed.

(** ** The caps *)
Lemma top_score_largest l top c :
  Forall number_score l → top_score l = Some top → c ∈ l → f32_cmp (score c) top ≠ Gt.
Proof.
  intros Hl Ht Hc. apply (max_by_largest id (score <$> l) top (score c)); [|done|].
  - by rewrite Forall_fmap.
  - apply list_elem_of_fmap. by exists c.
Qed.
Lemma top_score_elem l top : top_score l = Some top → ∃ c, c ∈ l ∧ score c = top.
Proof.
  intros Ht. apply max_by_elem in Ht. apply list_elem_of_fmap in Ht as (c & -> & Hc). by exists c.
Qed.
Lemma f32_lt_cmp a b : f32_lt a b = true → f32_cmp a b = Lt.
Proof.
  unfold f32_lt, SFltb, f32_cmp, f32_partial_cmp. by destruct (SFcompare a b) as [[]|].
Qed.
Lemma f32_ge_cmp a b : f32_number a → f32_number b → f32_ge a b = false → f32_cmp a b = Lt.
Proof.
  intros Ha Hb. pose proof (f32_partial_cmp_key a b Ha Hb) as H1.
  pose proof (f32_partial_cmp_key b a Hb Ha) as H2.
  unfold f32_ge, SFleb, f32_cmp, f32_partial_cmp in *. rewrite H1, H2. cbn.
  rewrite (cmp_opp (cmp := key_cmp) (f32_key a) (f32_key b)) by done.
  by destruct (key_cmp (f32_key a) (f32_key b)).
Qed.

Lemma f32_cmp_refl a : f32_number a → f32_cmp a a = Eq.
Proof.
  intros Ha. pose proof (cmp_opp (cmp := f32_cmp) a a Ha Ha) as Ho.
  by destruct (f32_cmp a a).
Qed.

(** After the cap nothing is above the best primary hit, and non-primary hits are below. *)
Lemma capped_by_primary best l c :
  Forall number_score l → top_score (List.filter is_primary l) = Some best →
  f32_lt (demoted best) best = true →
  c ∈ cap_non_primary_below_best_primary l →
  f32_cmp (score c) best ≠ Gt ∧ (is_primary c = false → f32_cmp (score c) best = Lt).
Proof.
  intros Hnum Hbest Hlow. unfold cap_non_primary_below_best_primary. rewrite Hbest.
  pose proof (top_score_number _ _ (Forall_filter_list _ is_primary _ Hnum) Hbest) as Hb.
  intros (c0 & -> & Hc0)%list_elem_of_fmap. unfold demote_if.
  pose proof (proj1 (Forall_forall _ _) Hnum c0 Hc0) as Hn0.
  destruct (is_primary c0) eqn:Hp; cbn [negb andb].
  - split; [|congruence]. apply (top_score_largest (List.filter is_primary l)); [|done|].
    + by apply Forall_filter_list.
    + by rewrite list_elem_of_In, List.filter_In, <-list_elem_of_In.
  - destruct (f32_ge (score c0) best) eqn:Hge.
    + cbn [score with_score]. apply f32_lt_cmp in Hlow. by rewrite Hlow.
    + apply (f32_ge_cmp _ _ Hn0 Hb) in Hge. by rewrite Hge.
Qed.
(** The best primary hit is left as it is. *)
Lemma best_primary_stays best l :
  top_score (List.filter is_primary l) = Some best →
  ∃ c, c ∈ cap_non_primary_below_best_primary l ∧ score c = best.
Proof.
  intros Hbest. pose proof (top_score_elem _ _ Hbest) as (c & Hc & Hs). exists c. split; [|done].
  rewrite list_elem_of_In, List.filter_In, <-list_elem_of_In in Hc. destruct Hc as [Hc Hp].
  unfold cap_non_primary_below_best_primary. rewrite Hbest. apply list_elem_of_fmap. exists c.
  split; [|done]. unfold demote_if. by rewrite Hp.
Qed.
(** The head of a ranking is not below any of its hits. *)
Lemma sorted_head l c rest x :
  Forall number_score l → sort_by (cmp_leb rank_order) l = c :: rest → x ∈ l →
  f32_cmp (score c) (score x) ≠ Lt.
Proof.
  intros Hnum Hsort Hx. pose proof (sort_by_perm (cmp_leb rank_order) l) as Hperm.
  pose proof (cmp_sorted number_score rank_order _ Hnum) as Hsorted. rewrite Hsort in *.
  rewrite <-Hperm in Hnum, Hx. rewrite Forall_forall in Hnum.
  pose proof (Hnum c ltac:(by left)) as Hc. apply elem_of_cons in Hx as [->|Hx].
  - by rewrite f32_cmp_refl.
  - inversion Hsorted as [|?? _ Hhead]; subst. rewrite Forall_forall in Hhead.
    specialize (Hhead x Hx). intros Hlt. revert Hhead.
    unfold cmp_leb, rank_order, then_with, cmp_flip, cmp_on.
    rewrite (cmp_opp (cmp := f32_cmp) (score c) (score x) Hc (Hnum x ltac:(by right))), Hlt.
    done.
Qed.

(** With no strong lexical anchor, primary code leads the ranking of a query that prefers
    it: if any retained hit is a source or entry point and the demotion step lowers the
    best of their scores, the first hit is one of them and has the best primary score. *)
Theorem primary_code_leads {UT : UnicodeTables} features l best :
  let tokens := tokenize (raw_query features) in
  let capped_code :=
    if query_has_code_intent tokens && negb (query_mentions_structural_role tokens)
    then apply_structural_code_intent_cap (retained features l) else retained features l in
  prefers_primary_code_evidence (shape features) tokens = true →
  lexical_anchor (cap_non_primary_below_best_primary capped_code) tokens = None →
  top_score (List.filter is_primary capped_code) = Some best →
  f32_lt (demoted best) best = true →
  ∃ c rest, rank_candidates features l = c :: rest ∧ is_primary c = true ∧
    f32_cmp (score c) best = Eq.
Proof.
  intros tokens pre Hprefer Hanchor Hbest Hlow.
  assert (Hnum : Forall number_score pre).
  { unfold pre. destruct (_ && _); [apply structural_numbers|]; apply retained_numbers. }
  assert (Hcap : capped features (retained features l) = cap_non_primary_below_best_primary pre).
  { unfold capped. fold tokens. rewrite Hprefer. fold pre.
    unfold cap_dense_below_strong_lexical_source. by rewrite Hanchor. }
  pose proof (non_primary_numbers _ Hnum) as Hnum'.
  destruct (best_primary_stays _ _ Hbest) as (cb & Hcb & Hs). unfold rank_candidates.
  rewrite Hcap. pose proof (sort_by_perm (cmp_leb rank_order)
    (cap_non_primary_below_best_primary pre)) as Hperm.
  destruct (sort_by _ _) as [|c rest] eqn:Hsort.
  { rewrite <-Hperm in Hcb. by apply elem_of_nil in Hcb. }
  pose proof (sorted_head _ _ _ _ Hnum' Hsort Hcb) as Hge. rewrite Hs in Hge.
  destruct (capped_by_primary best pre c Hnum Hbest Hlow) as [Hle Hprim].
  { rewrite <-Hperm. by left. }
  exists c, rest. split; [done|]. split.
  - destruct (is_primary c) eqn:Hp; [done|]. by rewrite (Hprim eq_refl) in Hge.
  - by destruct (f32_cmp (score c) best).
Qed.

(** ** Samples *)
Module RankerSample.
Import ExecutorSample.
Definition dto : CandidateHit :=
  with_provenance [lit "lexical_source"]
    (with_source (lit "src/api/dto.rs") (Some (lit "Dto")) (f32_ratio 99 100) CandidateSource.Semantic).
Definition output_rs : CandidateHit :=
  with_source (lit "src/output.rs") (Some (lit "search_packet_evidence")) (f32_ratio 1 100)
    CandidateSource.Lexical.
Definition output_md : CandidateHit :=
  with_provenance [lit "dense_anchor"]
    (with_source (lit "docs/packet/search/output.md") (Some (lit "evidence_flow")) (f32_ratio 99 100)
       CandidateSource.Lexical).
Definition asked : QueryFeatures := classify_query (lit "explain packet search output evidence flow").
Definition plain : QueryFeatures := classify_query (lit "how is a file opened and read").
Definition plain_hits : list CandidateHit :=
  [with_source (lit "docs/opened.md") (Some (lit "open")) (f32_ratio 9 10) CandidateSource.Lexical;
   with_source (lit "src/a.rs") (Some (lit "open")) (f32_ratio 1 2) CandidateSource.Lexical].
Definition plain_best : f32 :=
  default f32_zero (top_score (List.filter is_primary (retained plain plain_hits))).
Definition outcome : (result str QueryResult * RetrievalCache) * Env :=
  @execute ascii_tables sidecars ranker identity_digest executor text (Some 300) env.
Definition ranked_answer : result str QueryResult * RetrievalCache := outcome.1.
Definition hits_of (answer : result str QueryResult * RetrievalCache) : list CandidateHit :=
  match answer.1 with Ok r => hits r | Err _ => [] end.
End RankerSample.

Lemma primary_code_leads_witness :
  ∃ c rest, @rank_candidates ExecutorSample.ascii_tables RankerSample.plain RankerSample.plain_hits
    = c :: rest ∧ is_primary c = true.
Proof.
  destruct (@primary_code_leads ExecutorSample.ascii_tables RankerSample.plain
    RankerSample.plain_hits RankerSample.plain_best) as (c & rest & H & Hp & _);
    [vm_compute; reflexivity..|]. exists c, rest. by split.
Defined.

Lemma answers_are_ranked_witness :
  ∃ r, RankerSample.ranked_answer.1 = Ok r ∧ length (hits r) = 3%nat ∧
       sorted_by (cmp_leb rank_order) (hits r).
Proof.
  destruct (RankerSample.ranked_answer.1) as [r|err] eqn:Hr.
  2: { exfalso. revert Hr. vm_compute. discriminate. }
  exists r. split; [done|]. split.
  - assert (Hl : length (RankerSample.hits_of RankerSample.ranked_answer) = 3%nat)
      by (vm_compute; reflexivity).
    revert Hl. unfold RankerSample.hits_of. by rewrite Hr.
  - destruct (@answers_are_ranked ExecutorSample.ascii_tables ExecutorSample.sidecars _
      (@ranker_laws ExecutorSample.ascii_tables) ExecutorSample.identity_digest ExecutorSample.executor ExecutorSample.text (Some 300)
      ExecutorSample.env r RankerSample.ranked_answer.2
      RankerSample.outcome.2) as [H _].
    + change (RankerSample.outcome = (Ok r, RankerSample.ranked_answer.2, RankerSample.outcome.2)).
      revert Hr. unfold RankerSample.ranked_answer.
      destruct RankerSample.outcome as [[? ?] ?]. cbn. by intros ->.
    + assert (Hc : match RankerSample.ranked_answer.1 with
                   | Ok r => cache_hit (trace r) | Err _ => true end = false)
        by (vm_compute; reflexivity).
      by rewrite Hr in Hc.
    + exact H.
Defined.

(** A document can lead a query that prefers primary code: the dense cap runs after the
    cap on non-primary hits and lowers the very primary hit that cap was measured against,
    so the document ends above every source file; with the two caps in the other order
    the source file leads. *)
Theorem ranker_cap_order :
  let features := RankerSample.asked in
  let l := [RankerSample.dto; RankerSample.output_rs; RankerSample.output_md] in
  let tokens := @tokenize ExecutorSample.ascii_tables (raw_query features) in
  let kept := @retained ExecutorSample.ascii_tables features l in
  prefers_primary_code_evidence (shape features) tokens = true ∧
  (is_primary <$> @rank_candidates ExecutorSample.ascii_tables features l) = [false; true; true] ∧
  (is_primary <$> sort_by (cmp_leb rank_order)
     (cap_non_primary_below_best_primary (cap_dense_below_strong_lexical_source kept tokens)))
  = [true; true; false].
Proof. split_and!; vm_compute; reflexivity. Qed.
