(* ===== verification/Collections.v ===== *)
(** * Hash maps, sorted vectors and ordered sets

    A [HashMap] that is only looked up and updated by key is an association list in
    insertion order; [Vec::dedup] and [sort_unstable] of integers; the ordered candidate
    sets of the resolver. *)
From S2P Require Import Prelude Sorting.

(** ** Hash maps *)
Section HashMap.
Context {K V : Type} `{EqDecision K}.

Fixpoint hm_get (m : list (K * V)) (k : K) : option V :=
  match m with
  | [] => None
  | (k', v) :: m => if decide (k' = k) then Some v else hm_get m k
  end.
(** [insert]: the old value is replaced. *)
Fixpoint hm_insert (m : list (K * V)) (k : K) (v : V) : list (K * V) :=
  match m with
  | [] => [(k, v)]
  | (k', v') :: m => if decide (k' = k) then (k, v) :: m else (k', v') :: hm_insert m k v
  end.
(** [entry(k).or_insert(v)]: an old value stays. *)
Definition hm_or_insert (m : list (K * V)) (k : K) (v : V) : list (K * V) :=
  match hm_get m k with Some _ => m | None => hm_insert m k v end.

Lemma hm_get_insert m k v k' :
  hm_get (hm_insert m k v) k' = if decide (k = k') then Some v else hm_get m k'.
Proof.
  induction m as [|[a b] m IH]; cbn [hm_insert hm_get]; [done|].
  destruct (decide (a = k)) as [->|Ha]; cbn [hm_get].
  - by destruct (decide (k = k')).
  - rewrite IH. destruct (decide (a = k')) as [->|]; [|done]. by rewrite decide_False by done.
Qed.
Lemma hm_get_or_insert m k v k' :
  hm_get (hm_or_insert m k v) k' =
  match hm_get m k' with Some v' => Some v' | None => if decide (k = k') then Some v else None end.
Proof.
  unfold hm_or_insert. destruct (hm_get m k) as [v0|] eqn:Hk.
  - destruct (hm_get m k') eqn:Hk'; [done|]. destruct (decide (k = k')) as [->|]; [congruence|done].
  - rewrite hm_get_insert. destruct (decide (k = k')) as [->|].
    + by rewrite Hk.
    + by destruct (hm_get m k').
Qed.
End HashMap.

(** ** Maps collected by a key *)
Section Collected.
Context {K A : Type} `{EqDecision K} (key : A → K).
Definition collected (l : list A) : list (K * A) := foldl (λ m a, hm_insert m (key a) a) [] l.
Lemma hm_insert_keys {V} (m : list (K * V)) k v :
  (hm_insert m k v).*1 = if decide (k ∈ m.*1) then m.*1 else m.*1 ++ [k].
Proof.
  induction m as [|[k' v'] m IH]; cbn; [by rewrite decide_False by apply not_elem_of_nil|].
  destruct (decide (k' = k)) as [->|Hne]; cbn.
  - by rewrite decide_True by left.
  - rewrite IH. destruct (decide (k ∈ m.*1)) as [Hin|Hin].
    + by rewrite decide_True by by right.
    + rewrite decide_False; [done|]. by intros [?|?]%elem_of_cons.
Qed.
Lemma hm_get_elem {V} (m : list (K * V)) k v : NoDup m.*1 → (k, v) ∈ m ↔ hm_get m k = Some v.
Proof.
  induction m as [|[k' v'] m IH]; cbn; intros Hnd.
  - split; [by intros ?%elem_of_nil|done].
  - apply NoDup_cons in Hnd as [Hk Hnd]. rewrite elem_of_cons.
    destruct (decide (k' = k)) as [->|Hne].
    + split; [|intros [= ->]; by left]. intros [[= ->]|Hin]; [done|].
      destruct Hk. apply list_elem_of_fmap. by exists (k, v).
    + rewrite IH by done. split; [|by right]. by intros [[= ? ?]|].
Qed.
Lemma collected_nodup l : NoDup (collected l).*1.
Proof.
  unfold collected. assert (NoDup (@nil (K * A)).*1) as H by constructor. revert H.
  generalize (@nil (K * A)). induction l as [|a l IH]; intros m Hm; [done|]. cbn. apply IH.
  rewrite hm_insert_keys. case_decide as Hin; [done|]. apply NoDup_app.
  split_and!; [done| |apply NoDup_singleton]. intros k Hk. by intros ->%list_elem_of_singleton.
Qed.
Lemma collected_get l : ∀ k,
  hm_get (collected l) k = last (List.filter (λ a, bool_decide (key a = k)) l).
Proof.
  intros k. unfold collected. induction l as [|a l IH] using rev_ind; [done|].
  rewrite foldl_app, List.filter_app. cbn [foldl List.filter]. rewrite hm_get_insert.
  destruct (decide (key a = k)) as [->|Hne].
  - rewrite bool_decide_eq_true_2 by done. by rewrite last_snoc.
  - rewrite bool_decide_eq_false_2, app_nil_r by done. exact IH.
Qed.
Lemma collected_some l k a : hm_get (collected l) k = Some a → a ∈ l ∧ key a = k.
Proof.
  rewrite collected_get. intros Ha%last_Some_elem_of. apply list_elem_of_In, filter_In in Ha as [Ha Hk].
  apply list_elem_of_In in Ha. split; [done|]. by apply bool_decide_eq_true in Hk.
Qed.
Lemma collected_unique l a : NoDup (key <$> l) → a ∈ l → hm_get (collected l) (key a) = Some a.
Proof.
  intros Hnd Ha. rewrite collected_get.
  destruct (last (List.filter (λ b, bool_decide (key b = key a)) l)) as [b|] eqn:Hl.
  - apply last_Some_elem_of, list_elem_of_In, filter_In in Hl as [Hb Hk]. apply list_elem_of_In in Hb.
    apply bool_decide_eq_true in Hk. f_equal.
    apply list_elem_of_lookup in Ha as [i Hi], Hb as [j Hj].
    assert (j = i) as ->; [|congruence].
    apply (NoDup_lookup (key <$> l) j i (key a)); [done| |by rewrite list_lookup_fmap, Hi].
    rewrite list_lookup_fmap, Hj. cbn. by rewrite Hk.
  - apply last_None in Hl. assert (a ∈ List.filter (λ b, bool_decide (key b = key a)) l) as Hin.
    { apply list_elem_of_In, filter_In. rewrite bool_decide_eq_true_2 by done. split; [by apply list_elem_of_In|done]. }
    rewrite Hl in Hin. by apply elem_of_nil in Hin.
Qed.
End Collected.

(** [entry(k).or_default().push(v)] of a map to vectors. *)
Definition hm_push {K V} `{EqDecision K} (m : list (K * list V)) (k : K) (v : V)
  : list (K * list V) :=
  hm_insert m k (default [] (hm_get m k) ++ [v]).
(** A map built from the pairs a loop pushes. *)
Definition hm_group {K V} `{EqDecision K} (pairs : list (K * V)) : list (K * list V) :=
  foldl (λ m kv, hm_push m kv.1 kv.2) [] pairs.
Definition values_of {K V} `{EqDecision K} (pairs : list (K * V)) (k : K) : list V :=
  snd <$> List.filter (λ kv, bool_decide (kv.1 = k)) pairs.

Lemma hm_get_push {K V} `{EqDecision K} (m : list (K * list V)) k v k' :
  hm_get (hm_push m k v) k' =
  if decide (k = k') then Some (default [] (hm_get m k') ++ [v]) else hm_get m k'.
Proof. unfold hm_push. rewrite hm_get_insert. by destruct (decide (k = k')) as [->|]. Qed.
(** A key of the map has exactly the values pushed under it, in order. *)
Lemma hm_get_group {K V} `{EqDecision K} (pairs : list (K * V)) k :
  hm_get (hm_group pairs) k =
  match values_of pairs k with [] => None | vs => Some vs end.
Proof.
  unfold hm_group. induction pairs as [|[a v] pairs IH] using rev_ind; [done|].
  rewrite foldl_app. cbn [foldl fst snd]. rewrite hm_get_push, IH.
  unfold values_of. rewrite List.filter_app, fmap_app. cbn [List.filter fst snd].
  destruct (decide (a = k)) as [->|Hne].
  - rewrite bool_decide_true by done. cbn [fmap list_fmap snd].
    by destruct (snd <$> _) as [|w ws].
  - rewrite bool_decide_false by done. by rewrite app_nil_r.
Qed.

Lemma values_of_elem {K V} `{EqDecision K} (pairs : list (K * V)) k v :
  v ∈ values_of pairs k ↔ (k, v) ∈ pairs.
Proof.
  unfold values_of. rewrite list_elem_of_fmap. split.
  - intros ([k' v'] & -> & Hin). rewrite list_elem_of_In, List.filter_In, <-list_elem_of_In in Hin.
    destruct Hin as [Hin Hk%bool_decide_eq_true]. cbn in *. by subst.
  - intros Hin. exists (k, v). split; [done|].
    rewrite list_elem_of_In, List.filter_In, <-list_elem_of_In. split; [done|]. by apply bool_decide_eq_true.
Qed.

Lemma imap_pair_elem {A} (l : list A) i x : (i, x) ∈ imap pair l ↔ l !! i = Some x.
Proof.
  rewrite list_elem_of_lookup. setoid_rewrite list_lookup_imap. split.
  - intros (j & Hj). destruct (l !! j) eqn:Hl; [|done]. injection Hj as <- <-. done.
  - intros Hl. exists i. by rewrite Hl.
Qed.

(** [iter], [into_iter] and [into_values] of a hash map hand out the entries in some order. *)
Class HashOrder : Type := {
  hash_order : ∀ {A : Type}, list A → list A;
  hash_order_perm : ∀ {A : Type} (l : list A), hash_order l ≡ₚ l;
}.
Lemma elem_of_hash_order `{HashOrder} {A} (l : list A) x : x ∈ hash_order l ↔ x ∈ l.
Proof. by rewrite hash_order_perm. Qed.

Lemma hm_group_keys {K V} `{EqDecision K} (pairs : list (K * V)) : NoDup (hm_group pairs).*1.
Proof.
  unfold hm_group. induction pairs as [|[k v] pairs IH] using rev_ind; [constructor|].
  rewrite foldl_app. cbn. unfold hm_push. rewrite hm_insert_keys. case_decide as Hk; [done|].
  apply NoDup_app. split_and!; [done| |apply NoDup_singleton]. intros k' Hk'. by intros ->%list_elem_of_singleton.
Qed.
(** An entry of a grouped map holds a pushed pair. *)
Lemma hm_group_entry {K V} `{EqDecision K} (pairs : list (K * V)) k v :
  (∃ vs, (k, vs) ∈ hm_group pairs ∧ v ∈ vs) ↔ (k, v) ∈ pairs.
Proof.
  rewrite <-values_of_elem. setoid_rewrite (hm_get_elem _ _ _ (hm_group_keys pairs)). rewrite hm_get_group.
  destruct (values_of pairs k) as [|w ws] eqn:Hv.
  - split; [by intros (? & ? & _)|by intros ?%elem_of_nil].
  - split; [by intros (? & [= <-] & ?)|by eexists].
Qed.
Lemma hm_get_group_elem {K V} `{EqDecision K} (pairs : list (K * V)) k v :
  v ∈ default [] (hm_get (hm_group pairs) k) ↔ (k, v) ∈ pairs.
Proof.
  rewrite hm_get_group, <-values_of_elem. by destruct (values_of pairs k).
Qed.

(** ** Sorted vectors *)
Fixpoint dedup {A} `{EqDecision A} (l : list A) : list A :=
  match l with
  | x :: (y :: _) as rest => if decide (x = y) then dedup rest else x :: dedup rest
  | _ => l
  end.
Definition sort_z : list Z → list Z := sort_by Z.leb.
Definition sort_nat : list nat → list nat := sort_by Nat.leb.

Lemma dedup_cons {A} `{EqDecision A} (a b : A) l :
  dedup (a :: b :: l) = if decide (a = b) then dedup (b :: l) else a :: dedup (b :: l).
Proof. done. Qed.
Lemma dedup_elem {A} `{EqDecision A} (l : list A) x : x ∈ dedup l ↔ x ∈ l.
Proof.
  induction l as [|a [|b l] IH]; [done..|]. rewrite dedup_cons.
  destruct (decide (a = b)) as [->|].
  - rewrite IH, !elem_of_cons. tauto.
  - by rewrite elem_of_cons, IH, (elem_of_cons (b :: l)).
Qed.
Lemma dedup_sorted (l : list Z) : StronglySorted Z.le l → StronglySorted Z.lt (dedup l).
Proof.
  induction 1 as [|a l Hl IH Ha]; [constructor|].
  destruct l as [|b l]; [by repeat constructor|]. rewrite dedup_cons.
  destruct (decide (a = b)) as [->|Hab]; [done|]. constructor; [done|].
  apply Forall_forall. intros x Hx. rewrite dedup_elem in Hx. apply Forall_cons in Ha as [Hab' Ha].
  inversion Hl as [|?? _ Hb]; subst. rewrite Forall_forall in Hb.
  apply elem_of_cons in Hx as [->|Hx]; [lia|]. specialize (Hb x Hx). lia.
Qed.
Lemma sort_z_sorted l : StronglySorted Z.le (sort_z l).
Proof.
  assert (H : sorted_by Z.leb (sort_z l)).
  { apply (sort_by_sorted _ (λ _, True)); [..|by apply Forall_true].
    - intros a b _ _ H%Z.leb_gt. apply Z.leb_le. lia.
    - intros a b c _ _ _ H1%Z.leb_le H2%Z.leb_le. apply Z.leb_le. lia. }
  unfold sorted_by in H. induction H as [|a l' _ IH Ha]; constructor; [done|].
  eapply Forall_impl; [exact Ha|]. by intros b ?%Z.leb_le.
Qed.
Lemma sort_z_perm l : sort_z l ≡ₚ l.
Proof. apply sort_by_perm. Qed.

(** The only value of a vector, by sorting it and removing duplicates. *)
Definition only_value (ids : list Z) : option Z :=
  match dedup (sort_z ids) with [x] => Some x | _ => None end.
Lemma only_value_spec ids x : only_value ids = Some x ↔ x ∈ ids ∧ ∀ y, y ∈ ids → y = x.
Proof.
  assert (Hin : ∀ y, y ∈ dedup (sort_z ids) ↔ y ∈ ids).
  { intros y. by rewrite dedup_elem, sort_z_perm. }
  pose proof (dedup_sorted _ (sort_z_sorted ids)) as Hsort. unfold only_value.
  destruct (dedup (sort_z ids)) as [|a [|b l]].
  - split; [done|]. intros [Hx _]. apply Hin in Hx. by apply elem_of_nil in Hx.
  - split.
    + intros [= ->]. split; [apply Hin; by left|]. intros y Hy%Hin. by apply list_elem_of_singleton.
    + intros [_ H]. f_equal. apply H, Hin. by left.
  - split; [done|]. intros [_ H]. exfalso.
    assert (a = x) as -> by (apply H, Hin; by left).
    assert (b = x) as -> by (apply H, Hin; right; by left).
    inversion Hsort as [|?? _ Hlt]; subst. apply Forall_cons in Hlt as [Hlt _]. lia.
Qed.

(** ** Ordered sets *)
Record OrderedCandidateIds : Type := mkOrderedCandidateIds {
  ordered : list Z;
  seen : gset Z;
}.
Definition no_candidates : OrderedCandidateIds := {| ordered := []; seen := ∅ |}.
Definition oc_push (c : OrderedCandidateIds) (candidate : Z) : OrderedCandidateIds :=
  if decide (candidate ∈ seen c) then c
  else {| ordered := ordered c ++ [candidate]; seen := {[candidate]} ∪ seen c |}.
(** [extend_stage]; [usize::MAX] as limit is never reached. *)
Fixpoint oc_extend_loop (c : OrderedCandidateIds) (stage : list Z) (limit : nat)
  : OrderedCandidateIds :=
  match stage with
  | [] => c
  | candidate :: stage =>
      let c := oc_push c candidate in
      if (limit <=? length (ordered c))%nat then c else oc_extend_loop c stage limit
  end.
Definition oc_extend_stage (c : OrderedCandidateIds) (stage : list Z) (limit : option nat)
  : OrderedCandidateIds :=
  match limit with
  | None => foldl oc_push c stage
  | Some limit => if (limit <=? length (ordered c))%nat then c else oc_extend_loop c stage limit
  end.

(** The vector lists the set, without duplicates. *)
Definition oc_ok (c : OrderedCandidateIds) : Prop :=
  NoDup (ordered c) ∧ ∀ x, x ∈ ordered c ↔ x ∈ seen c.
Lemma no_candidates_ok : oc_ok no_candidates.
Proof. split; [constructor|]. intros x. cbn. set_solver. Qed.
Lemma oc_push_ok c x : oc_ok c → oc_ok (oc_push c x).
Proof.
  intros [Hnd Hin]. unfold oc_push. destruct (decide (x ∈ seen c)) as [|Hx]; [done|]. split; cbn.
  - apply NoDup_app. split; [done|]. split; [|apply NoDup_singleton].
    intros y Hy ->%list_elem_of_singleton. by apply Hx, Hin.
  - intros y. rewrite elem_of_app, list_elem_of_singleton, Hin. set_solver.
Qed.
Lemma oc_push_elem c x y : oc_ok c → y ∈ ordered (oc_push c x) ↔ y = x ∨ y ∈ ordered c.
Proof.
  intros [Hnd Hin]. unfold oc_push. destruct (decide (x ∈ seen c)) as [Hx|Hx].
  - apply Hin in Hx. split; [by right|]. by intros [->|].
  - cbn. rewrite elem_of_app, list_elem_of_singleton. tauto.
Qed.
Lemma oc_pushes_ok c l : oc_ok c → oc_ok (foldl oc_push c l).
Proof. revert c. induction l as [|x l IH]; intros c Hc; [done|]. cbn. by apply IH, oc_push_ok. Qed.
Lemma oc_pushes_elem c l y : oc_ok c → y ∈ ordered (foldl oc_push c l) ↔ y ∈ l ∨ y ∈ ordered c.
Proof.
  revert c. induction l as [|x l IH]; intros c Hc; cbn [foldl].
  - rewrite elem_of_nil. tauto.
  - rewrite IH by (by apply oc_push_ok). rewrite (oc_push_elem _ _ _ Hc), elem_of_cons. tauto.
Qed.
(** A push adds at most one element at the end. *)
Lemma oc_push_prefix c x : ordered c `prefix_of` ordered (oc_push c x).
Proof. unfold oc_push. destruct (decide _); [done|]. by exists [x]. Qed.

Create HintDb resolver.
#[export] Hint Resolve no_candidates_ok oc_push_ok oc_pushes_ok : resolver.

(** ** Maps and sets in the order of their keys *)
(** [BTreeMap] and [BTreeSet] as lists in strictly increasing order of a comparison. *)
Section BTree.
Context {K V : Type} (cmp : K → K → comparison).

(** [*map.entry(k).or_insert(v0)] followed by an update in place. *)
Fixpoint bt_entry (v0 : V) (f : V → V) (m : list (K * V)) (k : K) : list (K * V) :=
  match m with
  | [] => [(k, f v0)]
  | (k', v) :: m' =>
      match cmp k k' with
      | Eq => (k', f v) :: m'
      | Lt => (k, f v0) :: m
      | Gt => (k', v) :: bt_entry v0 f m' k
      end
  end.
Fixpoint bs_insert (s : list K) (k : K) : list K :=
  match s with
  | [] => [k]
  | k' :: s' => match cmp k k' with Eq => s | Lt => k :: s | Gt => k' :: bs_insert s' k end
  end.
Definition increasing (l : list K) : Prop := StronglySorted (λ a b, cmp a b = Lt) l.

Context `{!CmpLaws (λ _, True) cmp} (cmp_eq : ∀ a b, cmp a b = Eq → a = b).

Lemma cmp_Lt_Gt a b : cmp a b = Gt → cmp b a = Lt.
Proof. intros H. by rewrite (cmp_opp (P := λ _, True) a b), H. Qed.
Lemma cmp_refl_Eq a : cmp a a = Eq.
Proof.
  pose proof (cmp_opp (P := λ _, True) (cmp := cmp) a a I I) as H. by destruct (cmp a a).
Qed.
Lemma increasing_nodup l : increasing l → NoDup l.
Proof.
  induction 1 as [|a l _ IH Ha]; constructor; [|done]. intros Hin. rewrite Forall_forall in Ha.
  specialize (Ha a Hin). by rewrite cmp_refl_Eq in Ha.
Qed.

Lemma bs_insert_elem s k x : x ∈ bs_insert s k ↔ x = k ∨ x ∈ s.
Proof.
  induction s as [|k' s IH]; cbn; [by rewrite list_elem_of_singleton, elem_of_nil; naive_solver|].
  destruct (cmp k k') eqn:E.
  - apply cmp_eq in E as ->. rewrite elem_of_cons. naive_solver.
  - by rewrite elem_of_cons.
  - rewrite !elem_of_cons, IH. naive_solver.
Qed.
Lemma bs_insert_increasing s k : increasing s → increasing (bs_insert s k).
Proof.
  induction 1 as [|k' s Hs IH Hk]; cbn; [repeat constructor|].
  destruct (cmp k k') eqn:E; [by constructor|constructor; [by constructor|constructor; [done|]]|constructor; [done|]].
  - eapply Forall_impl; [exact Hk|]. intros x Hx. by apply (cmp_trans (P := λ _, True) (cmp := cmp) k k' x).
  - apply Forall_forall. intros x [-> | Hx]%bs_insert_elem; [by apply cmp_Lt_Gt|].
    rewrite Forall_forall in Hk. by apply Hk.
Qed.

Lemma hm_get_absent `{EqDecision K} (m : list (K * V)) k : k ∉ m.*1 → hm_get m k = None.
Proof.
  induction m as [|[a v] m IH]; cbn; [done|]. rewrite elem_of_cons. intros Hk.
  rewrite decide_False by naive_solver. apply IH. naive_solver.
Qed.
Lemma bt_entry_keys v0 f m k : (bt_entry v0 f m k).*1 = bs_insert m.*1 k.
Proof.
  induction m as [|[k' v] m IH]; cbn; [done|]. destruct (cmp k k'); cbn; by rewrite ?IH.
Qed.
Lemma bt_entry_get `{EqDecision K} v0 f m k k' : increasing m.*1 →
  hm_get (bt_entry v0 f m k) k' = if decide (k' = k) then Some (f (default v0 (hm_get m k))) else hm_get m k'.
Proof.
  induction m as [|[a v] m IH]; cbn; intros Hs.
  - destruct (decide (k = k')), (decide (k' = k)); naive_solver.
  - apply StronglySorted_inv in Hs as [Hs Ha]. destruct (cmp k a) eqn:E; cbn.
    + apply cmp_eq in E as ->. rewrite (decide_True (P := a = a)) by done. cbn.
      destruct (decide (a = k')), (decide (k' = a)); naive_solver.
    + rewrite (decide_False (P := a = k)) by (intros ->; by rewrite cmp_refl_Eq in E).
      rewrite (hm_get_absent m k); [destruct (decide (k = k')), (decide (k' = k)); naive_solver|].
      intros Hin. rewrite Forall_forall in Ha. specialize (Ha k Hin).
      apply (cmp_trans (P := λ _, True) k a k Lt I I I E) in Ha. by rewrite cmp_refl_Eq in Ha.
    + rewrite (decide_False (P := a = k)) by (intros ->; by rewrite cmp_refl_Eq in E).
      rewrite IH by done. destruct (decide (a = k')) as [-> |]; [|done].
      rewrite decide_False; [done|]. intros ->. by rewrite cmp_refl_Eq in E.
Qed.
End BTree.
