(* ===== verification/Encoding.v ===== *)
(** * What the hashes read, and reading a table in pages

    Little-endian integers, parts that carry their length and parts that end in a zero byte,
    as the fingerprints of the store and of the sidecars feed them to SHA-256: a hasher is the
    bytes it was given.  The paged loops over a table of the store, with the law of the paged
    query and what such a loop computes. *)
From S2P Require Import Prelude RustStr.

(** ** Bytes *)
Fixpoint le_bytes (n : nat) (z : Z) : str :=
  match n with
  | O => []
  | Datatypes.S n => byte (Z.to_N (z mod 256)) :: le_bytes n (z / 256)
  end.
(** A part with its length in front: [hash_part], [hash_dense_anchor_part]. *)
Definition frame (part : str) : str := le_bytes 8 (len part) ++ part.
Definition update_frames (hasher : str) (parts : list str) : str :=
  foldl (λ h part, h ++ frame part) hasher parts.
(** A part with a zero byte behind. *)
Definition nul : ascii := byte 0.
Definition update_terminated (hasher : str) (parts : list str) : str :=
  foldl (λ h part, h ++ part ++ [nul]) hasher parts.

Definition fits (part : str) : Prop := len part ≤ usize_max.

Lemma byte_inj a b : 0 ≤ a < 256 → 0 ≤ b < 256 → byte (Z.to_N a) = byte (Z.to_N b) → a = b.
Proof.
  intros Ha Hb E. apply (f_equal N_of_ascii) in E. unfold byte in E.
  rewrite !N_ascii_embedding in E by lia. lia.
Qed.
Lemma le_bytes_length n z : length (le_bytes n z) = n.
Proof. revert z. induction n as [|n IH]; intros z; cbn; [done|]. by rewrite IH. Qed.
Lemma le_bytes_inj n a b : 0 ≤ a < 256 ^ Z.of_nat n → 0 ≤ b < 256 ^ Z.of_nat n →
  le_bytes n a = le_bytes n b → a = b.
Proof.
  revert a b. induction n as [|n IH]; intros a b Ha Hb E; [lia|].
  rewrite Nat2Z.inj_succ, Z.pow_succ_r in Ha, Hb by lia. cbn [le_bytes] in E. injection E as E1 E2.
  apply byte_inj in E1; [|apply Z.mod_pos_bound; lia..].
  apply IH in E2; [|split; [apply Z.div_pos; lia|apply Z.div_lt_upper_bound; lia]..].
  rewrite (Z.div_mod a 256), (Z.div_mod b 256) by lia. congruence.
Qed.

Lemma app_split {A} (a b c d : list A) : length a = length c → a ++ b = c ++ d → a = c ∧ b = d.
Proof. intros Hl. by apply app_inj_1. Qed.
Lemma frame_inj p q s t : fits p → fits q → frame p ++ s = frame q ++ t → p = q ∧ s = t.
Proof.
  unfold frame, fits. rewrite <- !app_assoc. intros Hp Hq E.
  apply app_split in E as [E1 E2]; [|by rewrite !le_bytes_length].
  pose proof (len_nonneg p). pose proof (len_nonneg q). unfold usize_max, u64_max in *.
  apply le_bytes_inj in E1; [|cbn; lia..]. apply app_split in E2; [done|]. unfold len in E1. lia.
Qed.
Lemma update_frames_concat hasher parts : update_frames hasher parts = hasher ++ concat (frame <$> parts).
Proof.
  revert hasher. induction parts as [|p parts IH]; intros hasher; cbn; [by rewrite app_nil_r|].
  unfold update_frames in *. cbn. by rewrite IH, <- !app_assoc.
Qed.
Lemma update_frames_app hasher p q : update_frames (update_frames hasher p) q = update_frames hasher (p ++ q).
Proof. unfold update_frames. by rewrite foldl_app. Qed.
(** Framed parts are read back from their concatenation, whatever follows a given number of them. *)
Lemma frames_inj ps qs : Forall fits ps → Forall fits qs →
  concat (frame <$> ps) = concat (frame <$> qs) → ps = qs.
Proof.
  intros Hp. revert qs. induction Hp as [|p ps Hp Hps IH]; intros [|q qs] Hq E; [done|done|done|].
  apply Forall_cons in Hq as [Hq Hqs]. cbn in E. apply frame_inj in E as [-> E]; [|done..].
  f_equal. by apply IH.
Qed.
Lemma frames_prefix_inj ps qs s t : Forall fits ps → Forall fits qs → length ps = length qs →
  concat (frame <$> ps) ++ s = concat (frame <$> qs) ++ t → ps = qs ∧ s = t.
Proof.
  intros Hp. revert qs. induction Hp as [|p ps Hp Hps IH]; intros [|q qs] Hq Hl E; [done|done|done|].
  apply Forall_cons in Hq as [Hq Hqs]. cbn in E. rewrite <- !app_assoc in E.
  apply frame_inj in E as [-> E]; [|done..]. cbn in Hl. injection Hl as Hl.
  destruct (IH _ Hqs Hl E) as [-> ->]. done.
Qed.

Lemma terminated_inj p q s t : nul ∉ p → nul ∉ q → p ++ nul :: s = q ++ nul :: t → p = q ∧ s = t.
Proof.
  revert q. induction p as [|c p IH]; intros [|d q] Hp Hq E; cbn in E.
  - by injection E as ->.
  - injection E as <- _. exfalso. apply Hq. by left.
  - injection E as -> _. exfalso. apply Hp. by left.
  - injection E as -> E. apply not_elem_of_cons in Hp as [_ Hp], Hq as [_ Hq].
    by destruct (IH q Hp Hq E) as [-> ->].
Qed.
Lemma update_terminated_concat hasher parts :
  update_terminated hasher parts = hasher ++ concat ((λ p, p ++ [nul]) <$> parts).
Proof.
  revert hasher. induction parts as [|p parts IH]; intros hasher; cbn; [by rewrite app_nil_r|].
  unfold update_terminated in *. cbn. by rewrite IH, <- !app_assoc.
Qed.
Lemma terminated_prefix_inj ps qs s t : Forall (λ p, nul ∉ p) ps → Forall (λ p, nul ∉ p) qs →
  length ps = length qs →
  concat ((λ p, p ++ [nul]) <$> ps) ++ s = concat ((λ p, p ++ [nul]) <$> qs) ++ t → ps = qs ∧ s = t.
Proof.
  intros Hp. revert qs. induction Hp as [|p ps Hp Hps IH]; intros [|q qs] Hq Hl E; [done|done|done|].
  apply Forall_cons in Hq as [Hq Hqs]. cbn in E. rewrite <- !app_assoc in E. cbn in E.
  apply terminated_inj in E as [-> E]; [|done..]. cbn in Hl. injection Hl as Hl.
  destruct (IH _ Hqs Hl E) as [-> ->]. done.
Qed.
(** Lists of tuples of one width are told apart by their concatenation. *)
Lemma concat_width_inj {A B} (f : A → list B) (w : nat) (l k : list A) :
  (0 < w)%nat → (∀ a, length (f a) = w) → concat (f <$> l) = concat (f <$> k) → f <$> l = f <$> k.
Proof.
  intros Hw Hf. revert k. induction l as [|a l IH]; intros [|b k] E; cbn in E |- *; [done|..].
  - apply (f_equal length) in E. rewrite length_app, Hf in E. cbn in E. lia.
  - apply (f_equal length) in E. rewrite length_app, Hf in E. cbn in E. lia.
  - apply app_split in E as [E1 E2]; [|by rewrite !Hf]. rewrite E1. f_equal. by apply IH.
Qed.

(** ** Pages *)
Section Paging.
Context {E A : Type} (key : A → Z).

Definition after_key (after : option Z) (a : A) : bool :=
  match after with Some n => n <? key a | None => true end.
(** What a paged query over a table in order of its key answers. *)
Definition pages_of (batch : option Z → nat → result E (list A)) (table : list A) : Prop :=
  StronglySorted (λ a b, key a < key b) table ∧
  ∀ after limit, (0 < limit)%nat → batch after limit = Ok (take limit (List.filter (after_key after) table)).

(** The loop over the pages, each after the last key of the one before; [None] when the fuel
    is out. *)
Fixpoint read_pages {St : Type} (fuel : nat) (batch : option Z → nat → result E (list A)) (size : nat)
    (visit : St → list A → result E St) (after : option Z) (s : St) : option (result E St) :=
  match fuel with
  | O => None
  | Datatypes.S fuel =>
      match batch after size with
      | Err error => Some (Err error)
      | Ok page =>
          match last page with
          | None => Some (Ok s)
          | Some final =>
              match visit s page with
              | Err error => Some (Err error)
              | Ok s => read_pages fuel batch size visit (Some (key final)) s
              end
          end
      end
  end.

Lemma filter_after (l k : list A) n :
  Forall (λ a, key a ≤ n) l → Forall (λ a, n < key a) k → List.filter (after_key (Some n)) (l ++ k) = k.
Proof.
  intros Hl Hk. induction Hl as [|a l Ha Hl IH]; cbn.
  - induction Hk as [|a k Ha Hk IH]; cbn; [done|]. by rewrite (proj2 (Z.ltb_lt _ _) Ha), IH.
  - by rewrite (proj2 (Z.ltb_ge _ _)) by done.
Qed.
Lemma filter_none (l : list A) : List.filter (after_key None) l = l.
Proof. induction l as [|a l IH]; cbn; [done|]. by rewrite IH. Qed.

Section Loop.
Context {St : Type} (visit : St → list A → result E St) (valid : St → Prop).
Hypothesis visit_nil : ∀ s, valid s → visit s [] = Ok s.
Hypothesis visit_valid : ∀ s l s', valid s → visit s l = Ok s' → valid s'.
Hypothesis visit_app : ∀ s l k, visit s (l ++ k) = (s' ← visit s l; visit s' k).

(** The loop visits the rest of the table, whatever the size of the pages. *)
Lemma read_rest batch table size l k after s fuel :
  pages_of batch table → (0 < size)%nat → table = l ++ k → (length k < fuel)%nat →
  (after = None ∧ l = [] ∨ ∃ l' a, l = l' ++ [a] ∧ after = Some (key a)) → valid s →
  read_pages fuel batch size visit after s = Some (visit s k).
Proof.
  intros Hp Hsize. revert l k after s. induction fuel as [|fuel IH]; intros l k after s Ht Hf Ha Hs0; [lia|].
  pose proof Hp as [Hs Hb]. cbn [read_pages]. rewrite Hb by done.
  assert (List.filter (after_key after) table = k) as ->.
  { destruct Ha as [[-> ->] | (l' & a & -> & ->)]; rewrite Ht; [apply filter_none|].
    rewrite Ht in Hs. apply filter_after; apply Forall_forall; intros x Hx.
    - apply StronglySorted_app_1_l in Hs. apply elem_of_app in Hx as [Hx | ->%list_elem_of_singleton]; [|lia].
      apply (StronglySorted_app_1_elem_of _ _ _ x a) in Hs; [cbn in Hs; lia|done|by left].
    - apply (StronglySorted_app_1_elem_of _ _ _ a x) in Hs; [done|apply elem_of_app; right; by left|done]. }
  destruct (last (take size k)) as [final|] eqn:El.
  - apply last_Some in El as [page El].
    assert (visit s k = (s' ← visit s (take size k); visit s' (drop size k))) as ->
      by (rewrite <- visit_app; by rewrite take_drop).
    destruct (visit s (take size k)) as [s'|error] eqn:Hv; [|done]. cbn.
    apply (IH (l ++ take size k) (drop size k)).
    + by rewrite <- app_assoc, take_drop.
    + assert (0 < length k)%nat by (destruct k; [by rewrite take_nil in El; destruct page|cbn; lia]).
      rewrite length_drop. lia.
    + right. exists (l ++ page), final. by rewrite <- app_assoc, <- El.
    + by eapply visit_valid.
  - destruct k as [|x k]; [by rewrite visit_nil by done|]. apply last_None in El. by destruct size; [lia|].
Qed.
Lemma read_all batch table size s fuel : pages_of batch table → (0 < size)%nat → (length table < fuel)%nat → valid s →
  read_pages fuel batch size visit None s = Some (visit s table).
Proof. intros Hp Hsize Hf Hs. apply (read_rest batch table size [] table); [done..|by left|done]. Qed.
End Loop.
End Paging.

(** ** A number as a text of binary digits *)
Fixpoint digits (p : positive) : str :=
  match p with xH => [] | xO p => "0"%char :: digits p | xI p => "1"%char :: digits p end.
Fixpoint undigits (s : str) : positive :=
  match s with [] => xH | c :: s => if Ascii.eqb c "0"%char then xO (undigits s) else xI (undigits s) end.
Lemma undigits_digits p : undigits (digits p) = p.
Proof. induction p as [p IH|p IH|]; cbn; by rewrite ?IH. Qed.
