(* ===== verification/LanguageSupport.v ===== *)
(** * Language profiles and structural paths

    codestory-contracts/src/language_support.rs: which extension belongs to which language,
    which paths are structural sources, and which of those are left out.  The claim-tier
    and proof-contract tables of the file are documentation strings and are not modelled.

    The second part: languages of a file for the resolver. *)
From S2P Require Import Prelude RustStr RetrievalData StrOps TemplateText.

(** ** Profiles *)
Inductive LanguageSupportMode : Set := ParserBackedGraph | StructuralCollector.
#[export] Instance LanguageSupportMode_eq_dec : EqDecision LanguageSupportMode.
Proof. solve_decision. Defined.
Inductive LanguageEvidenceTier : Set := GraphFidelity | StructuralOnly.
Record LanguageSupportProfile : Type := mkLanguageSupportProfile {
  language_name : str;
  extensions : list str;
  support_mode : LanguageSupportMode;
  evidence_tier : LanguageEvidenceTier;
  claim_label : str;
}.
Definition PARSER_BACKED_GRAPH : str := lit "parser-backed graph, fidelity-gated".
Definition STRUCTURAL_COLLECTOR : str := lit "structural collector only".
Definition parser_profile (language_name : str) (extensions : list str) : LanguageSupportProfile :=
  {| language_name := language_name; extensions := extensions;
     support_mode := ParserBackedGraph; evidence_tier := GraphFidelity;
     claim_label := PARSER_BACKED_GRAPH |}.
Definition structural_profile (language_name : str) (extensions : list str)
  : LanguageSupportProfile :=
  {| language_name := language_name; extensions := extensions;
     support_mode := StructuralCollector; evidence_tier := StructuralOnly;
     claim_label := STRUCTURAL_COLLECTOR |}.

Definition LANGUAGE_SUPPORT_PROFILES : list LanguageSupportProfile := [
  parser_profile (lit "python") [lit "py"; lit "pyi"];
  parser_profile (lit "java") [lit "java"];
  parser_profile (lit "rust") [lit "rs"];
  parser_profile (lit "javascript") [lit "js"; lit "jsx"; lit "mjs"; lit "cjs"];
  parser_profile (lit "typescript") [lit "ts"; lit "tsx"; lit "mts"; lit "cts"];
  parser_profile (lit "cpp") [lit "cpp"; lit "cc"; lit "cxx"; lit "hpp"; lit "hh"; lit "hxx"];
  parser_profile (lit "c") [lit "c"; lit "h"];
  parser_profile (lit "go") [lit "go"];
  parser_profile (lit "ruby") [lit "rb"];
  parser_profile (lit "php") [lit "php"];
  parser_profile (lit "csharp") [lit "cs"];
  parser_profile (lit "kotlin") [lit "kt"; lit "kts"];
  parser_profile (lit "swift") [lit "swift"];
  parser_profile (lit "dart") [lit "dart"];
  parser_profile (lit "bash") [lit "sh"; lit "bash"];
  structural_profile (lit "html") [lit "html"; lit "htm"];
  structural_profile (lit "css") [lit "css"];
  structural_profile (lit "sql") [lit "sql"];
  structural_profile (lit "markdown") [lit "md"; lit "markdown"; lit "mdx"];
  structural_profile (lit "yaml") [lit "yml"; lit "yaml"];
  structural_profile (lit "toml") [lit "toml"];
  structural_profile (lit "json") [lit "json"];
  structural_profile (lit "shell") [lit "zsh"; lit "ksh"; lit "command"];
  structural_profile (lit "powershell") [lit "ps1"; lit "psm1"];
  structural_profile (lit "docker_compose") [];
  structural_profile (lit "cargo_manifest") []].

Definition normalize_extension (ext : str) : str :=
  to_ascii_lowercase (trim_start_matches is_dot (trim ext)).
Definition language_support_profile_for_ext (ext : str) : option LanguageSupportProfile :=
  let ext := trim_start_matches is_dot (trim ext) in
  List.find (λ profile, existsb (λ candidate, eq_ignore_ascii_case candidate ext)
                          (extensions profile)) LANGUAGE_SUPPORT_PROFILES.
Definition language_support_profile_for_language_name (name : str)
  : option LanguageSupportProfile :=
  let name := trim name in
  List.find (λ profile, eq_ignore_ascii_case (language_name profile) name)
    LANGUAGE_SUPPORT_PROFILES.
Definition language_support_profile_for_path (path : option str)
  : option LanguageSupportProfile :=
  path ← path;
  ext ← head (rsplit_on dot path);
  language_support_profile_for_ext (trim_start_matches is_dot ext).
Definition language_name_for_path (path : option str) : option str :=
  language_name <$> language_support_profile_for_path path.
Definition language_name_in_mode (mode : LanguageSupportMode) (path : option str) : option str :=
  profile ← language_support_profile_for_path path;
  if decide (support_mode profile = mode) then Some (language_name profile) else None.
Definition parser_backed_language_name_for_path : option str → option str :=
  language_name_in_mode ParserBackedGraph.
Definition structural_language_name_for_path : option str → option str :=
  language_name_in_mode StructuralCollector.
Definition is_structural_language_name (name : str) : bool :=
  match language_support_profile_for_language_name name with
  | Some profile => bool_decide (support_mode profile = StructuralCollector)
  | None => false
  end.
(** All extensions that have a profile. *)
Definition supported_extensions : list str := LANGUAGE_SUPPORT_PROFILES ≫= extensions.

(** ** Structural paths *)
Inductive NativePathCase : Set := Sensitive | Insensitive.

Definition is_github_actions_workflow_path (path : str) : bool :=
  match rsplit_on slash (to_ascii_lowercase (unix_path path)) with
  | file_name :: parent :: grandparent :: _ =>
      negb (str_eqb file_name [])
      && (ends_with file_name (lit ".yml") || ends_with file_name (lit ".yaml"))
      && str_eqb parent (lit "workflows") && str_eqb grandparent (lit ".github")
  | _ => false
  end.
Definition is_docker_compose_file_path (path : str) : bool :=
  if is_github_actions_workflow_path path then false
  else
    match rsplit_on slash (to_ascii_lowercase (unix_path path)) with
    | [] => false
    | file_name :: parts =>
        if str_eqb file_name [] then false
        else
          match rsplit_once file_name (lit ".") with
          | None => false
          | Some (stem, ext) =>
              one_of ext [lit "yml"; lit "yaml"]
              && (starts_with stem (lit "compose") || starts_with stem (lit "docker-compose")
                  || (ends_with stem (lit "-compose")
                      && existsb (λ part, str_eqb part (lit "docker")) parts))
          end
    end.
Definition is_cargo_manifest_file_path_with_case (path : str) (path_case : NativePathCase)
  : bool :=
  match head (rsplit_on slash (unix_path path)) with
  | None => false
  | Some file_name =>
      match path_case with
      | Sensitive => str_eqb file_name (lit "Cargo.toml")
      | Insensitive => eq_ignore_ascii_case file_name (lit "Cargo.toml")
      end
  end.
(** The platform decides the case rule. *)
Definition is_structural_source_path (current : NativePathCase) (path : str) : bool :=
  bool_decide (is_Some (structural_language_name_for_path (Some path)))
  || is_github_actions_workflow_path path || is_docker_compose_file_path path
  || is_cargo_manifest_file_path_with_case path current.

Definition generated_components : list str :=
  [lit ".git"; lit "node_modules"; lit "vendor"; lit "vendors"; lit "third_party";
   lit "third-party"; lit "generated"; lit "dist"; lit "build"; lit "target"; lit "coverage";
   lit ".next"; lit ".cache"].
Definition secret_components : list str :=
  [lit "secret"; lit "secrets"; lit ".secrets"; lit "credentials"].
Definition secret_files : list str :=
  [lit "credentials.json"; lit "secrets.json"; lit "secrets.yaml"; lit "secrets.yml";
   lit "id_rsa"; lit "id_ed25519"].
Definition lock_files : list str :=
  [lit "cargo.lock"; lit "package-lock.json"; lit "npm-shrinkwrap.json"; lit "yarn.lock";
   lit "pnpm-lock.yaml"; lit "bun.lock"; lit "bun.lockb"; lit "poetry.lock"; lit "pipfile.lock";
   lit "composer.lock"; lit "gemfile.lock"].
(** Absolute paths: a leading slash or a drive letter. *)
Definition is_absolute_path (normalized : str) : bool :=
  starts_with normalized (lit "/")
  || (bool_decide (normalized !! 1%nat = Some ":"%char) && bool_decide (normalized !! 2%nat = Some slash)).
Definition structural_source_path_exclusion (path : str) : option str :=
  let normalized := trim (unix_path path) in
  if str_eqb normalized [] || is_absolute_path normalized then None
  else
    let normalized :=
      to_ascii_lowercase (default normalized (strip_prefix normalized (lit "./"))) in
    let components :=
      List.filter (λ c, negb (str_eqb c []) && negb (str_eqb c (lit "."))) (split_on slash normalized) in
    if one_of (lit "..") components then None
    else
      let file_name := default [] (last components) in
      if existsb (λ c, one_of c generated_components) components
      then Some (lit "generated_or_vendor")
      else if existsb (λ c, one_of c secret_components) components
              || starts_with file_name (lit ".env") || one_of file_name secret_files
              || ends_with file_name (lit ".pem") || ends_with file_name (lit ".key")
      then Some (lit "secret_bearing")
      else if one_of file_name lock_files || ends_with file_name (lit ".lock")
              || ends_with file_name (lit "-lock.json")
      then Some (lit "lockfile")
      else if contains file_name (lit ".min.") || ends_with file_name (lit ".min")
              || starts_with file_name (lit "generated-")
              || starts_with file_name (lit "generated_")
              || contains file_name (lit ".generated.") || contains file_name (lit "_generated.")
              || ends_with file_name (lit ".map")
      then Some (lit "generated_or_high_noise")
      else None.

(** * Languages of a file for the resolver

    codestory-indexer/src/semantic/mod.rs ([detect_language], [detect_resolver_language],
    language families) and template_pipeline.rs ([template_surface_language]). *)
Definition template_surface_language (path : str) : option str :=
  (λ kind, match kind with
           | Vue => lit "vue" | Svelte => lit "svelte" | Astro => lit "astro"
           end) <$> template_kind_for_extension (file_extension path).
Definition detect_language (path : option str) : option str :=
  path ← path;
  option_or (template_surface_language path) (language_name_for_path (Some path)).
Definition detect_resolver_language (path : option str) : option str :=
  path ← path;
  option_or (parser_backed_language_name_for_path (Some path)) (template_surface_language path).
Definition language_family_bucket (language : str) : str :=
  if RetrievalData.one_of language [lit "c"; lit "cpp"] then lit "native"
  else if RetrievalData.one_of language
            [lit "javascript"; lit "typescript"; lit "vue"; lit "svelte"; lit "astro"]
  then lit "webscript"
  else if RetrievalData.one_of language
            [lit "python"; lit "rust"; lit "java"; lit "go"; lit "ruby"; lit "php"; lit "csharp";
             lit "kotlin"; lit "swift"; lit "dart"; lit "bash"]
  then language
  else if is_structural_language_name language then lit "structural"
  else language.
Definition compatible_language_families (caller candidate : option str) : bool :=
  match caller, candidate with
  | Some lhs, Some rhs => str_eqb lhs rhs
  | _, _ => true
  end.
