(* ===== verification/ResolveText.v ===== *)
(** * Names and paths of the resolver

    The pure string functions of codestory-indexer/src/resolution/mod.rs,
    query_helpers.rs, pipeline.rs and candidate_selection.rs: tails and owners of names,
    module and path normalisation, the path candidates of an import, call markers. *)
From S2P Require Import Prelude RustStr Graph RetrievalData RetrievalPlan StrOps.

Definition is_quote_mark (x : ascii) : bool := any_char [quote_char; "'"%char; "`"%char] x.

(** ** Names *)
Definition tail_component (serialized_name : str) : option str :=
  let start :=
    match rfind_byte dot serialized_name, rfind serialized_name (lit "::") with
    | Some d, Some c => Some (if (c <? d)%nat then (d + 1)%nat else (c + 2)%nat)
    | Some d, None => Some (d + 1)%nat
    | None, Some c => Some (c + 2)%nat
    | None, None => None
    end in
  start ← start;
  let tail := drop start serialized_name in
  if str_eqb tail [] then None else Some tail.
Definition module_prefix (qualified : str) : option (str * str) :=
  match rfind qualified (lit "::") with
  | Some i => Some (take i qualified, lit "::")
  | None => (λ i, (take i qualified, lit ".")) <$> rfind_byte dot qualified
  end.
Definition split_owner_member_name (name : str) : option (str * str) :=
  om ← option_or (rsplit_once name (lit "::")) (rsplit_once name (lit "."));
  if str_eqb om.1 [] || str_eqb om.2 [] then None else Some om.
Definition owner_name_from_member_name (name : str) : option str :=
  match rfind name (lit "::"), rfind_byte dot name with
  | Some c, Some d => Some (take (if (d <? c + 1)%nat then c else d) name)
  | Some c, None => Some (take c name)
  | None, Some d => Some (take d name)
  | None, None => None
  end.
Definition short_member_name (name : str) : str :=
  let colon := match rfind name (lit "::") with Some i => (i + 2)%nat | None => 0%nat end in
  let d := match rfind_byte dot name with Some i => (i + 1)%nat | None => 0%nat end in
  drop (Nat.max colon d) name.

Definition first_non_empty (parts : list str) : option str :=
  List.find (λ part, negb (str_eqb part [])) parts.
Definition is_word_char (x : ascii) : bool :=
  is_ascii_alphabetic x || is_ascii_digit x || Ascii.eqb x "_"%char.
Definition owner_alias_token (owner : str) : str :=
  trim_matches (λ x, negb (is_word_char x))
    (default owner (first_non_empty
       (rsplit_when (any_char [":"%char; dot; "<"%char; " "%char; "&"%char]) owner))).
Definition owner_token_manifest_alias (shorter longer : str) : bool :=
  match strip_prefix longer shorter with
  | Some suffix => str_eqb suffix (lit "Manifest")
  | None => false
  end.
Definition owner_token_store_alias (left right : str) : bool :=
  let left := to_ascii_lowercase left in
  let right := to_ascii_lowercase right in
  (str_eqb left (lit "store") && str_eqb right (lit "storage"))
  || (str_eqb left (lit "storage") && str_eqb right (lit "store")).
Definition owner_alias_compatible (requested_owner candidate_owner : str) : bool :=
  if str_eqb requested_owner candidate_owner then false
  else
    let requested := owner_alias_token requested_owner in
    let candidate := owner_alias_token candidate_owner in
    if str_eqb requested [] || str_eqb candidate [] then false
    else if str_eqb requested candidate then true
    else owner_token_manifest_alias requested candidate
         || owner_token_manifest_alias candidate requested
         || owner_token_store_alias requested candidate.

(** ** Names of an import *)
Definition push_unique (values : list str) (value : str) : list str :=
  let value := trim value in
  if str_eqb value [] || one_of value values then values else values ++ [value].
Definition push_as (values : list str) (part : str) : list str :=
  match split_once part (lit " as ") with
  | Some (lhs, rhs) => push_unique (push_unique values (trim lhs)) (trim rhs)
  | None => push_unique values part
  end.
(** The names between the first brace and the last. *)
Definition brace_body (raw : str) : option str :=
  match find_byte "{"%char raw, rfind_byte "}"%char raw with
  | Some first, Some last =>
      if (first <? last)%nat then Some (take (last - (first + 1)) (drop (first + 1) raw)) else None
  | _, _ => None
  end.
Definition import_name_candidates (target_name : str) (legacy_mode : bool) : list str :=
  let raw := trim target_name in
  let candidates := push_unique [] raw in
  if legacy_mode then candidates
  else
    let candidates :=
      match split_once raw (lit " as ") with
      | Some (lhs, rhs) => push_unique (push_unique candidates (trim lhs)) (trim rhs)
      | None => candidates
      end in
    let candidates :=
      if ends_with raw (lit ".*") then push_unique candidates (trim_end_str raw (lit ".*"))
      else candidates in
    let candidates :=
      foldl (λ candidates delimiter,
          match rsplit_once raw delimiter with
          | Some (_, tail) => push_unique candidates (trim tail)
          | None => candidates
          end) candidates [lit "::"; lit "."; lit "/"] in
    match brace_body raw with
    | None => candidates
    | Some body =>
        foldl (λ candidates part,
            let part := trim part in
            if str_eqb part [] then candidates else push_as candidates part)
          candidates (split_on ","%char body)
    end.
Definition import_alias_mismatch (source_name target_name : str) : bool :=
  let source := trim source_name in
  let target := trim target_name in
  if str_eqb source [] || str_eqb target [] then false
  else
    let segment := default target (snd <$> rsplit_once target (lit "::")) in
    let target_tail := trim (default segment (snd <$> rsplit_once segment (lit "."))) in
    negb (str_eqb source target) && negb (str_eqb source target_tail)
    && (contains target (lit "::") || contains target (lit ".")).

(** ** Paths *)
Definition normalize_import_module_name (module_name : str) : option str :=
  let unquoted := trim_matches is_quote_mark (trim module_name) in
  if str_eqb unquoted [] then None else Some (to_ascii_lowercase (unix_path unquoted)).

(** One segment of a path, on the segments so far; [rooted] is a drive letter or a
    leading slash. *)
Definition push_segment (rooted : bool) (parts : list str) (segment : str) : list str :=
  if str_eqb segment [] || str_eqb segment (lit ".") then parts
  else if str_eqb segment (lit "..") then
    match last parts with
    | Some part =>
        if str_eqb part (lit "..") then if rooted then parts else parts ++ [segment]
        else removelast parts
    | None => if rooted then parts else parts ++ [segment]
    end
  else parts ++ [segment].
Definition normalize_resolution_path (path : str) : option str :=
  let value := trim path in
  if str_eqb value [] then None
  else
    let value := default value (strip_prefix value (lit "\\?\")) in
    let normalized := unix_path value in
    let absolute := starts_with normalized (lit "/") in
    let drive := bool_decide (normalized !! 1%nat = Some ":"%char) in
    let prefix := if drive then take 2 normalized else [] in
    let normalized :=
      if drive then trim_start_matches is_slash (drop 2 normalized)
      else if absolute then trim_start_matches is_slash normalized
      else normalized in
    let parts := foldl (push_segment (drive || absolute)) [] (split_on slash normalized) in
    let out := (if drive then prefix ++ lit "/" else if absolute then lit "/" else [])
               ++ join (lit "/") parts in
    let out := to_ascii_lowercase (trim_end_matches is_slash out) in
    if str_eqb out [] then None else Some out.
(** The directory of a normalised path. *)
Definition parent_of (path : str) : option str := fst <$> rsplit_once path (lit "/").
Definition path_has_extension (path : str) : bool :=
  match segment ← head (rsplit_on slash path); rsplit_once segment (lit ".") with
  | Some (stem, extension) => negb (str_eqb stem []) && negb (str_eqb extension [])
  | None => false
  end.

Definition is_relative_module (module_name : str) : bool :=
  starts_with module_name (lit "./") || starts_with module_name (lit "../").
Definition script_extensions : list str :=
  [lit ".js"; lit ".jsx"; lit ".ts"; lit ".tsx"; lit ".mjs"; lit ".cjs"; lit ".mts"; lit ".cts"].
Definition script_index_files : list str :=
  [lit "index.js"; lit "index.jsx"; lit "index.ts"; lit "index.tsx"; lit "index.mjs";
   lit "index.cjs"].
Definition push_all (candidates values : list str) : list str := foldl push_unique candidates values.
(** The candidates of a normalised caller and module. *)
Definition relative_candidates (caller_path module_name : str) : list str :=
  match parent ← parent_of caller_path; normalize_resolution_path (parent ++ lit "/" ++ module_name) with
  | None => []
  | Some base =>
      let candidates := push_unique [] base in
      if path_has_extension base then candidates
      else push_all (push_all candidates ((λ e, base ++ e) <$> script_extensions))
             ((λ f, base ++ lit "/" ++ f) <$> script_index_files)
  end.
Definition relative_import_path_candidates (caller_file_path module_name : str) : list str :=
  match normalize_import_module_name module_name with
  | None => []
  | Some module_name =>
      if is_relative_module module_name then
        match normalize_resolution_path caller_file_path with
        | None => []
        | Some caller_path => relative_candidates caller_path module_name
        end
      else []
  end.

(** [None] in the middle keeps the candidates found so far. *)
Definition typescript_relative_import_path_candidates (caller_file_path module_name : str)
  : list str :=
  let candidates := relative_import_path_candidates caller_file_path module_name in
  match module_name ← normalize_import_module_name module_name;
        '(specifier_stem, specifier_extension) ← rsplit_once module_name (lit ".");
        source_extensions ←
          (if str_eqb specifier_extension (lit "js") then Some [lit "ts"; lit "tsx"]
           else if str_eqb specifier_extension (lit "jsx") then Some [lit "tsx"]
           else if str_eqb specifier_extension (lit "mjs") then Some [lit "mts"]
           else if str_eqb specifier_extension (lit "cjs") then Some [lit "cts"]
           else None);
        caller_path ← normalize_resolution_path caller_file_path;
        parent ← parent_of caller_path;
        Some (specifier_stem, source_extensions, parent)
  with
  | None => candidates
  | Some (specifier_stem, source_extensions, parent) =>
      foldl (λ candidates source_extension,
          match normalize_resolution_path
                  (parent ++ lit "/" ++ specifier_stem ++ lit "." ++ source_extension) with
          | Some candidate => push_unique candidates candidate
          | None => candidates
          end) candidates source_extensions
  end.
Definition ruby_require_relative_path_candidates (caller_file_path module_name : str)
  : list str :=
  match module_name ← normalize_import_module_name module_name;
        let module_name :=
          if is_relative_module module_name then module_name else lit "./" ++ module_name in
        caller_path ← normalize_resolution_path caller_file_path;
        parent ← parent_of caller_path;
        normalize_resolution_path (parent ++ lit "/" ++ module_name)
  with
  | None => []
  | Some base =>
      let candidates := push_unique [] base in
      if path_has_extension base then candidates else push_unique candidates (base ++ lit ".rb")
  end.
Definition push_python_module_file_candidates (candidates : list str) (base : str) : list str :=
  let base := trim_matches is_slash base in
  if str_eqb base [] then candidates
  else if path_has_extension base then push_unique candidates base
  else push_unique (push_unique candidates (base ++ lit ".py")) (base ++ lit "/__init__.py").
Definition leading_dots (s : str) : nat := length s - length (drop_while is_dot s).
Definition python_import_path_candidates (caller_file_path module_name : str) : list str :=
  match normalize_import_module_name module_name with
  | None => []
  | Some module_name =>
      let parent := caller_path ← normalize_resolution_path caller_file_path; parent_of caller_path in
      if starts_with module_name (lit ".") then
        match parent with
        | None => []
        | Some parent =>
            let leading_dots := leading_dots module_name in
            let rest := trim_matches is_dot (drop leading_dots module_name) in
            let relative :=
              if (leading_dots =? 1)%nat then lit "./"
              else mjoin (replicate (leading_dots - 1) (lit "../")) in
            let relative := relative ++ replace rest (lit ".") (lit "/") in
            match normalize_resolution_path (parent ++ lit "/" ++ relative) with
            | Some base => push_python_module_file_candidates [] base
            | None => []
            end
        end
      else
        let module_path := replace module_name (lit ".") (lit "/") in
        if contains module_path (lit "/") then push_python_module_file_candidates [] module_path
        else
          match parent with
          | Some parent => push_python_module_file_candidates [] (parent ++ lit "/" ++ module_path)
          | None => []
          end
  end.

(** The segments of a path, and their last [n]. *)
Definition segments_of (path : str) : list str :=
  List.filter (λ segment, negb (str_eqb segment [])) (split_on slash path).
Definition last_n {A} (n : nat) (l : list A) : list A := drop (length l - n) l.
Definition go_import_path_match_score (path module_name : str) : option nat :=
  module_name ← normalize_import_module_name module_name;
  let import_segments := segments_of module_name in
  if decide (import_segments = []) then None
  else
    normalized_path ← normalize_resolution_path path;
    package_dir ← parent_of normalized_path;
    let path_segments := segments_of package_dir in
    let max_len := Nat.min (length import_segments) (length path_segments) in
    let min_len := if (1 <? length import_segments)%nat then 2%nat else 1%nat in
    List.find (λ n, bool_decide (last_n n import_segments = last_n n path_segments))
      (reverse (seq min_len (max_len + 1 - min_len))).
Definition swift_sources_root_and_module (path : str) : option (str * str) :=
  '(root, rest) ←
    (match strip_prefix path (lit "sources/") with
     | Some rest => Some ([], rest)
     | None => split_once path (lit "/sources/")
     end);
  module ← head (split_on slash rest);
  let module := trim module in
  if str_eqb module [] then None else Some (root, module).
Definition swift_imported_module_path_matches (path caller_file_path module_name : str) : bool :=
  match normalized_path ← normalize_resolution_path path;
        caller_path ← normalize_resolution_path caller_file_path;
        if str_eqb normalized_path caller_path then None
        else
          target ← swift_sources_root_and_module normalized_path;
          caller ← swift_sources_root_and_module caller_path;
          Some (str_eqb target.1 caller.1 && str_eqb target.2 module_name)
  with
  | Some matches => matches
  | None => false
  end.

(** ** Names of a call *)
Definition is_owner_qualified_call_name (name : str) : bool :=
  contains name (lit "::") || contains name (lit ".").
Definition is_relative_import_module_name (name : str) : bool :=
  match normalize_import_module_name name with
  | Some module => is_relative_module module
  | None => false
  end.
Definition is_import_binding_name (name : str) : bool :=
  match normalize_import_module_name name with
  | Some module =>
      negb (str_eqb module []) && negb (starts_with module (lit "./"))
      && negb (starts_with module (lit "../")) && negb (starts_with module (lit "/"))
      && negb (contains module (lit "/"))
  | None => false
  end.
Definition common_unqualified_call_names : list str :=
  [lit "add"; lit "any"; lit "clear"; lit "clone"; lit "commit"; lit "collect"; lit "copied";
   lit "dedup"; lit "default"; lit "execute"; lit "extend"; lit "from"; lit "is_empty";
   lit "insert"; lit "iter"; lit "len"; lit "map"; lit "map_err"; lit "once"; lit "ok";
   lit "pop"; lit "push"; lit "remove"; lit "sort"; lit "sort_by"; lit "sort_by_key";
   lit "truncate"].
Definition is_common_unqualified_call_name (name : str) : bool :=
  if contains name (lit "::") || contains name (lit ".") then false
  else one_of (to_ascii_lowercase name) common_unqualified_call_names.
Definition should_keep_common_call_resolution (target_name : str) (confidence : f32)
    (callsite_identity : option str) : bool :=
  if negb (is_common_unqualified_call_name target_name) then true
  else bool_decide (from_confidence (Some confidence) = Some Certain)
       && bool_decide (is_Some callsite_identity).

(** ** Markers of a call site *)
Definition callsite_parts (callsite_identity : option str) : list str :=
  match callsite_identity with Some identity => split_on "|"%char identity | None => [] end.
(** The placeholder calls of a language: a call edge whose call site has the marker. *)
Definition is_placeholder (marker : str) (edge_kind : EdgeKind) (callsite_identity : option str)
  : bool :=
  bool_decide (edge_kind = EdgeKind.CALL)
  && existsb (λ part, str_eqb part marker) (callsite_parts callsite_identity).
Definition PYTHON_ATTRIBUTE_CALLSITE_MARKER : str := lit "syntax:python-attribute-call".
Definition CPP_MEMBER_CALLSITE_MARKER : str := lit "syntax:cpp-member-call".
Definition GO_SELECTOR_CALLSITE_MARKER : str := lit "syntax:go-selector-call".
Definition JAVA_MEMBER_CALLSITE_MARKER : str := lit "syntax:java-member-call".
Definition CSHARP_MEMBER_CALLSITE_MARKER : str := lit "syntax:csharp-member-call".
Definition RUBY_MEMBER_CALLSITE_MARKER : str := lit "syntax:ruby-member-call".
Definition PHP_MEMBER_CALLSITE_MARKER : str := lit "syntax:php-member-call".
Definition JS_MEMBER_CALLSITE_MARKER : str := lit "syntax:js-member-call".
Definition TS_MEMBER_CALLSITE_MARKER : str := lit "syntax:ts-member-call".
Definition KOTLIN_MEMBER_CALLSITE_MARKER : str := lit "syntax:kotlin-member-call".
Definition DART_MEMBER_CALLSITE_MARKER : str := lit "syntax:dart-member-call".
Definition SWIFT_MEMBER_CALLSITE_MARKER : str := lit "syntax:swift-member-call".
Definition RECEIVER_OWNER_CALLSITE_PREFIX : str := lit "receiver-owner:".
Definition RECEIVER_MODULE_CALLSITE_PREFIX : str := lit "receiver-module:".
Definition is_python_dotted_call_placeholder := is_placeholder PYTHON_ATTRIBUTE_CALLSITE_MARKER.
Definition is_cpp_member_call_placeholder := is_placeholder CPP_MEMBER_CALLSITE_MARKER.
Definition is_js_member_call_placeholder := is_placeholder JS_MEMBER_CALLSITE_MARKER.
Definition is_ts_member_call_placeholder := is_placeholder TS_MEMBER_CALLSITE_MARKER.
Definition is_kotlin_member_call_placeholder := is_placeholder KOTLIN_MEMBER_CALLSITE_MARKER.
Definition is_dart_member_call_placeholder := is_placeholder DART_MEMBER_CALLSITE_MARKER.
Definition is_swift_member_call_placeholder := is_placeholder SWIFT_MEMBER_CALLSITE_MARKER.
Definition is_go_selector_call_placeholder := is_placeholder GO_SELECTOR_CALLSITE_MARKER.
Definition is_java_member_call_placeholder := is_placeholder JAVA_MEMBER_CALLSITE_MARKER.
Definition is_csharp_member_call_placeholder := is_placeholder CSHARP_MEMBER_CALLSITE_MARKER.
Definition is_ruby_member_call_placeholder := is_placeholder RUBY_MEMBER_CALLSITE_MARKER.
Definition is_php_member_call_placeholder := is_placeholder PHP_MEMBER_CALLSITE_MARKER.
(** The tests in the order of the callers. *)
Definition member_call_placeholder (edge_kind : EdgeKind) (callsite_identity : option str) : bool :=
  existsb (λ test : EdgeKind → option str → bool, test edge_kind callsite_identity)
    [is_python_dotted_call_placeholder; is_cpp_member_call_placeholder;
     is_js_member_call_placeholder; is_ts_member_call_placeholder;
     is_kotlin_member_call_placeholder; is_dart_member_call_placeholder;
     is_swift_member_call_placeholder; is_go_selector_call_placeholder;
     is_java_member_call_placeholder; is_csharp_member_call_placeholder;
     is_ruby_member_call_placeholder; is_php_member_call_placeholder].
Definition prefixed_part (prefix : str) (callsite_identity : option str) : option str :=
  find_map (λ part,
    rest ← strip_prefix part prefix; if str_eqb rest [] then None else Some rest)
    (callsite_parts callsite_identity).
Definition receiver_owner_from_callsite : option str → option str :=
  prefixed_part RECEIVER_OWNER_CALLSITE_PREFIX.
Definition receiver_module_from_callsite : option str → option str :=
  prefixed_part RECEIVER_MODULE_CALLSITE_PREFIX.
Definition is_imported_receiver_call_placeholder (edge_kind : EdgeKind)
    (callsite_identity : option str) : bool :=
  bool_decide (edge_kind = EdgeKind.CALL)
  && bool_decide (is_Some (receiver_owner_from_callsite callsite_identity))
  && bool_decide (is_Some (receiver_module_from_callsite callsite_identity)).
