(* ===== verification/ResolveIndex.v ===== *)
(** * The candidate index of the resolver

    codestory-indexer/src/resolution/mod.rs: [CandidateIndex], its construction from nodes
    or from a snapshot, and its lookups.  Seven lookups are memoised behind read-write
    locks; a computation over them is a tree of [Lookups] that is run with the caches, or
    directly against the index, or by several threads at once (ResolveCache).
    [self.nodes[i]] is an option here; the offsets of an index are in range. *)
From S2P Require Import Prelude RustStr Sorting StrOps Collections ResolveText LanguageSupport.

Record CandidateNode : Type := mkCandidateNode {
  cn_id : Z;
  cn_file_node_id : option Z;
  cn_file_path : option str;
  cn_normalized_file_path : option str;
  cn_serialized_name : str;
  cn_serialized_name_ascii_lower : str;
  cn_qualified_name : option str;
}.
Record CandidateNodeSnapshot : Type := mkCandidateNodeSnapshot {
  sn_id : Z;
  sn_file_node_id : option Z;
  sn_file_path : option str;
  sn_serialized_name : str;
  sn_qualified_name : option str;
}.

Record CandidateIndex : Type := mkCandidateIndex {
  nodes : list CandidateNode;
  relative_import_nodes : list CandidateNode;
  import_binding_node_ids : gset Z;
  node_offset_by_id : list (Z * nat);
  exact_map : list (str * list nat);
  suffix_map_ascii_lower : list (str * list nat);
  file_path_map : list (str * list nat);
  relative_file_path_map : list (str * list nat);
}.

(** ** Construction *)
Definition tail_key (node : CandidateNode) : option str :=
  to_ascii_lowercase <$> tail_component (cn_serialized_name node).
Definition offsets {A} (l : list A) : list (nat * A) := imap pair l.
Definition keyed (key : CandidateNode → option str) (l : list CandidateNode) : list (str * nat) :=
  omap (λ on, (λ k, (k, on.1)) <$> key on.2) (offsets l).
Definition from_primary_relative_and_import_bindings (ns relative : list CandidateNode)
    (bindings : gset Z) : CandidateIndex :=
  let relative := match relative with [] => ns | _ => relative end in
  {| nodes := ns; relative_import_nodes := relative; import_binding_node_ids := bindings;
     node_offset_by_id := foldl (λ m on, hm_insert m (cn_id on.2) on.1) [] (offsets ns);
     exact_map := hm_group (keyed (λ n, Some (cn_serialized_name n)) ns);
     suffix_map_ascii_lower := hm_group (keyed tail_key ns);
     file_path_map := hm_group (keyed cn_normalized_file_path ns);
     relative_file_path_map := hm_group (keyed cn_normalized_file_path relative) |}.
Definition from_primary_and_relative_nodes (ns relative : list CandidateNode) : CandidateIndex :=
  from_primary_relative_and_import_bindings ns relative ∅.
Definition default_candidate_index : CandidateIndex := from_primary_and_relative_nodes [] [].

Definition candidate_node (id : Z) (file_node_id : option Z) (file_path : option str)
    (serialized_name : str) (qualified_name : option str) : CandidateNode :=
  {| cn_id := id; cn_file_node_id := file_node_id; cn_file_path := file_path;
     cn_normalized_file_path := path ← file_path; normalize_resolution_path path;
     cn_serialized_name := serialized_name;
     cn_serialized_name_ascii_lower := to_ascii_lowercase serialized_name;
     cn_qualified_name := qualified_name |}.
Definition candidate_nodes_from_snapshots (l : list CandidateNodeSnapshot) : list CandidateNode :=
  (λ n, candidate_node (sn_id n) (sn_file_node_id n) (sn_file_path n) (sn_serialized_name n)
          (sn_qualified_name n)) <$> l.
Definition snapshot_node (n : CandidateNode) : CandidateNodeSnapshot :=
  {| sn_id := cn_id n; sn_file_node_id := cn_file_node_id n; sn_file_path := cn_file_path n;
     sn_serialized_name := cn_serialized_name n; sn_qualified_name := cn_qualified_name n |}.
Definition snapshot_nodes (index : CandidateIndex) : list CandidateNodeSnapshot :=
  snapshot_node <$> nodes index.
Definition snapshot_relative_import_nodes (index : CandidateIndex) : list CandidateNodeSnapshot :=
  snapshot_node <$> relative_import_nodes index.
(** The set as a sorted vector. *)
Definition import_binding_node_id_list (index : CandidateIndex) : list Z :=
  sort_z (elements (import_binding_node_ids index)).
Definition from_snapshot_nodes_with_import_bindings (l : list CandidateNodeSnapshot)
    (bindings : list Z) : CandidateIndex :=
  from_primary_relative_and_import_bindings (candidate_nodes_from_snapshots l) []
    (list_to_set bindings).
Definition from_snapshot_nodes_with_relative (l relative : list CandidateNodeSnapshot)
  : CandidateIndex :=
  from_primary_and_relative_nodes (candidate_nodes_from_snapshots l)
    (candidate_nodes_from_snapshots relative).

(** ** The bodies of the memoised lookups *)
Definition node_id_at (index : CandidateIndex) (offset : nat) : option Z :=
  cn_id <$> nodes index !! offset.
Definition first_in_file (index : CandidateIndex) (candidates : option (list nat)) (file_id : Z)
  : option Z :=
  candidates ← candidates;
  find_map (λ i,
      node ← nodes index !! i;
      if decide (cn_file_node_id node = Some file_id) then Some (cn_id node) else None)
    candidates.
Definition first_in_module (index : CandidateIndex) (candidates : option (list nat)) (prefix : str)
  : option Z :=
  candidates ← candidates;
  find_map (λ i,
      node ← nodes index !! i;
      qualified ← cn_qualified_name node;
      if starts_with qualified prefix then Some (cn_id node) else None)
    candidates.
Definition name_matches (node : CandidateNode) (name name_ascii_lower : str) : bool :=
  let tail_is (tail : option str) : bool :=
    bool_decide (to_ascii_lowercase <$> tail = Some name_ascii_lower) in
  str_eqb (cn_serialized_name node) name
  || str_eqb (cn_serialized_name_ascii_lower node) name_ascii_lower
  || tail_is (tail_component (cn_serialized_name node))
  || tail_is (qualified ← cn_qualified_name node; tail_component qualified).
Definition first_matching_name_in_offsets (index : CandidateIndex) (l : list nat)
    (name name_ascii_lower : str) : option Z :=
  find_map (λ i,
      node ← relative_import_nodes index !! i;
      if name_matches node name name_ascii_lower then Some (cn_id node) else None) l.
Definition owner_member_candidate_offsets (index : CandidateIndex) (owner_name method_name : str)
  : list nat :=
  let owner_dot_name := owner_name ++ lit "." ++ method_name in
  let owner_colon_name := owner_name ++ lit "::" ++ method_name in
  let exact name := default [] (hm_get (exact_map index) name) in
  let suffix name := default [] (hm_get (suffix_map_ascii_lower index) (to_ascii_lowercase name)) in
  dedup (sort_nat (exact method_name ++ exact owner_dot_name ++ exact owner_colon_name
                   ++ suffix method_name ++ suffix owner_dot_name ++ suffix owner_colon_name)).
(** The loop over the offsets: [None] outside is the ambiguous case. *)
Fixpoint owner_alias_loop (index : CandidateIndex) (requested_owner requested_member : str)
    (l : list nat) (selected : option Z) : option (option Z) :=
  match l with
  | [] => Some selected
  | offset :: l =>
      let skip := owner_alias_loop index requested_owner requested_member l selected in
      match node ← nodes index !! offset;
            om ← split_owner_member_name (cn_serialized_name node); Some (node, om) with
      | None => skip
      | Some (node, (candidate_owner, candidate_member)) =>
          if negb (str_eqb candidate_member requested_member) then skip
          else if negb (owner_alias_compatible requested_owner candidate_owner) then skip
          else
            match selected with
            | Some id =>
                if decide (id = cn_id node)
                then owner_alias_loop index requested_owner requested_member l (Some (cn_id node))
                else None
            | None => owner_alias_loop index requested_owner requested_member l (Some (cn_id node))
            end
      end
  end.

Inductive CacheKey : Type :=
| SameFileKey (file_id : Z) (name name_ascii_lower : str)
| SameModuleKey (qualified_prefix name name_ascii_lower : str)
| GlobalUniqueKey (name name_ascii_lower : str)
| GlobalUniqueExactKey (name name_ascii_lower : str)
| GlobalOwnerAliasKey (name name_ascii_lower : str)
| FuzzyKey (name name_ascii_lower : str)
| RelativeImportKey (caller_path module_name imported_name imported_name_ascii_lower : str).
#[export] Instance CacheKey_eq_dec : EqDecision CacheKey.
Proof. solve_decision. Defined.

(** The closure of the lookup with a key. *)
Definition lookup_answer (index : CandidateIndex) (key : CacheKey) : option Z :=
  match key with
  | SameFileKey file_id name lower =>
      option_or (first_in_file index (hm_get (exact_map index) name) file_id)
        (first_in_file index (hm_get (suffix_map_ascii_lower index) lower) file_id)
  | SameModuleKey prefix name lower =>
      option_or (first_in_module index (hm_get (exact_map index) name) prefix)
        (first_in_module index (hm_get (suffix_map_ascii_lower index) lower) prefix)
  | GlobalUniqueKey name lower =>
      match hm_get (exact_map index) name with
      | Some exact => match exact with [i] => node_id_at index i | _ => None end
      | None =>
          match hm_get (suffix_map_ascii_lower index) lower with
          | Some [i] => node_id_at index i
          | _ => None
          end
      end
  | GlobalUniqueExactKey name _ =>
      match hm_get (exact_map index) name with
      | Some [i] => node_id_at index i
      | _ => None
      end
  | GlobalOwnerAliasKey name _ =>
      '(requested_owner, requested_member) ← split_owner_member_name name;
      selected ← owner_alias_loop index requested_owner requested_member
        (owner_member_candidate_offsets index requested_owner requested_member) None;
      selected
  | FuzzyKey name lower =>
      match hm_get (exact_map index) name with
      | Some (i :: _) => node_id_at index i
      | _ =>
          match hm_get (suffix_map_ascii_lower index) lower with
          | Some (i :: _) => node_id_at index i
          | _ =>
              cn_id <$> List.find (λ n, contains (cn_serialized_name_ascii_lower n) lower)
                          (nodes index)
          end
      end
  | RelativeImportKey caller_path module_name name lower =>
      find_map (λ candidate_path,
          l ← hm_get (relative_file_path_map index) candidate_path;
          first_matching_name_in_offsets index l name lower)
        (relative_candidates caller_path module_name)
  end.

(** ** Computations over the lookups *)
Inductive Lookups (A : Type) : Type :=
| Done (a : A)
| Lookup (key : CacheKey) (k : option Z → Lookups A).
Arguments Done {A} a.
Arguments Lookup {A} key k.
#[export] Instance lookups_ret : MRet Lookups := λ A a, Done a.
#[export] Instance lookups_bind : MBind Lookups := λ A B f,
  fix go m := match m with Done a => f a | Lookup key k => Lookup key (λ r, go (k r)) end.
Definition cached_lookup (key : CacheKey) : Lookups (option Z) := Lookup key Done.
Fixpoint run_direct {A} (index : CandidateIndex) (m : Lookups A) : A :=
  match m with
  | Done a => a
  | Lookup key k => run_direct index (k (lookup_answer index key))
  end.

Definition find_same_file_readonly (file_id : option Z) (name name_ascii_lower : str)
  : Lookups (option Z) :=
  match file_id with
  | None => mret None
  | Some file_id => cached_lookup (SameFileKey file_id name name_ascii_lower)
  end.
Definition find_same_module_readonly (module_prefix delimiter name name_ascii_lower : str)
  : Lookups (option Z) :=
  cached_lookup (SameModuleKey (module_prefix ++ delimiter) name name_ascii_lower).
Definition find_global_unique_readonly (name name_ascii_lower : str) : Lookups (option Z) :=
  cached_lookup (GlobalUniqueKey name name_ascii_lower).
Definition find_global_unique_exact_readonly (name name_ascii_lower : str) : Lookups (option Z) :=
  cached_lookup (GlobalUniqueExactKey name name_ascii_lower).
Definition find_global_unique_owner_alias_readonly (name name_ascii_lower : str)
  : Lookups (option Z) :=
  cached_lookup (GlobalOwnerAliasKey name name_ascii_lower).
Definition find_fuzzy_readonly (name name_ascii_lower : str) : Lookups (option Z) :=
  cached_lookup (FuzzyKey name name_ascii_lower).
Definition find_relative_import_readonly (caller_file_path : option str)
    (module_name imported_name imported_name_ascii_lower : str) : Lookups (option Z) :=
  match caller_file_path with
  | None => mret None
  | Some caller_file_path =>
      match relative_import_path_candidates caller_file_path module_name with
      | [] => mret None
      | _ =>
          match caller ← normalize_resolution_path caller_file_path;
                module ← normalize_import_module_name module_name; Some (caller, module) with
          | None => mret None
          | Some (caller, module) =>
              cached_lookup (RelativeImportKey caller module imported_name imported_name_ascii_lower)
          end
      end
  end.

(** ** Members of an imported owner *)
Definition names_of (node : CandidateNode) : list str :=
  cn_serialized_name node :: match cn_qualified_name node with Some q => [q] | None => [] end.
Definition owner_member_candidate_matches (node : CandidateNode) (owner_name method_name : str)
  : bool :=
  existsb (λ name,
      match split_owner_member_name name with
      | Some (owner, member) =>
          str_eqb member method_name
          && str_eqb (default owner (first_non_empty (rsplit_when (any_char [dot; ":"%char]) owner)))
               owner_name
      | None => false
      end) (names_of node).
Definition member_candidate_matches (node : CandidateNode) (method_name : str) : bool :=
  existsb (λ name,
      match split_owner_member_name name with
      | Some (_, member) => str_eqb member method_name
      | None => false
      end || str_eqb name method_name) (names_of node).
(** The nodes at the offsets of some exact and some suffix names. *)
Definition nodes_at (index : CandidateIndex) (exact suffix : list str) : list CandidateNode :=
  omap (λ i, nodes index !! i)
    (dedup (sort_nat
       (mjoin ((λ name, default [] (hm_get (exact_map index) name)) <$> exact)
        ++ mjoin ((λ name, default [] (hm_get (suffix_map_ascii_lower index) (to_ascii_lowercase name)))
                  <$> suffix)))).
Definition in_paths (path_candidates : list str) (node : CandidateNode) : bool :=
  match cn_normalized_file_path node with
  | Some path =>
      existsb (λ candidate, str_eqb path candidate || ends_with path (lit "/" ++ candidate))
        path_candidates
  | None => false
  end.
Definition owner_dot (owner_name method_name : str) : str := owner_name ++ lit "." ++ method_name.

Definition find_path_imported_owner_member_exact_readonly (index : CandidateIndex)
    (path_candidates : list str) (owner_name method_name : str) : option Z :=
  let owner_qualified_name := owner_dot owner_name method_name in
  only_value (cn_id <$> List.filter (in_paths path_candidates)
    (List.filter (λ node, owner_member_candidate_matches node owner_name method_name)
       (nodes_at index [owner_qualified_name] [method_name; owner_qualified_name]))).
Definition find_unique_imported_member_by_path (index : CandidateIndex)
    (path_candidates : list str) (method_name : str) : option Z :=
  only_value (cn_id <$> List.filter (in_paths path_candidates)
    (List.filter (λ node, member_candidate_matches node method_name)
       (omap (λ i, nodes index !! i)
          (default [] (hm_get (suffix_map_ascii_lower index) (to_ascii_lowercase method_name)))))).
Definition find_path_imported_owner_member_readonly (index : CandidateIndex)
    (path_candidates : list str) (owner_name method_name : str) : option Z :=
  option_or (find_path_imported_owner_member_exact_readonly index path_candidates owner_name method_name)
    (find_unique_imported_member_by_path index path_candidates method_name).
(** No candidate path, no answer. *)
Definition in_non_empty (find : list str → option Z) (path_candidates : list str) : option Z :=
  match path_candidates with [] => None | _ => find path_candidates end.

Definition find_python_imported_owner_member_readonly (index : CandidateIndex)
    (caller_file_path : option str) (module_name owner_name method_name : str) : option Z :=
  caller ← caller_file_path;
  in_non_empty (λ paths, find_path_imported_owner_member_readonly index paths owner_name method_name)
    (python_import_path_candidates caller module_name).
Definition find_typescript_imported_owner_member_readonly (index : CandidateIndex)
    (caller_file_path : option str) (module_name owner_name method_name : str) : option Z :=
  caller ← caller_file_path;
  in_non_empty (λ paths, find_path_imported_owner_member_readonly index paths owner_name method_name)
    (typescript_relative_import_path_candidates caller module_name).
Definition find_ruby_imported_owner_member_readonly (index : CandidateIndex)
    (caller_file_path : option str) (module_name owner_name method_name : str) : option Z :=
  caller ← caller_file_path;
  in_non_empty (λ paths, find_path_imported_owner_member_exact_readonly index paths owner_name method_name)
    (ruby_require_relative_path_candidates caller module_name).
Definition find_dart_imported_owner_member_readonly (index : CandidateIndex)
    (caller_file_path : option str) (module_name owner_name method_name : str) : option Z :=
  caller ← caller_file_path;
  in_non_empty (λ paths, find_path_imported_owner_member_readonly index paths owner_name method_name)
    (relative_import_path_candidates caller module_name).
Definition find_qualified_imported_owner_member_readonly (index : CandidateIndex)
    (module_name owner_name method_name : str) : option Z :=
  let imported_owner := trim module_name in
  if str_eqb imported_owner [] || contains imported_owner (lit "*")
     || contains imported_owner (lit "|")
  then None
  else
    let imported_member := owner_dot imported_owner method_name in
    let owner_qualified_name := owner_dot owner_name method_name in
    only_value (cn_id <$>
      List.filter (λ node, bool_decide (cn_qualified_name node = Some imported_member))
        (List.filter (λ node, owner_member_candidate_matches node owner_name method_name)
           (nodes_at index [owner_qualified_name; imported_member]
              [method_name; owner_qualified_name; imported_member]))).
Definition find_swift_imported_owner_member_readonly (index : CandidateIndex)
    (caller_file_path : option str) (module_name owner_name method_name : str) : option Z :=
  caller ← caller_file_path;
  module_name ← normalize_import_module_name module_name;
  let owner_qualified_name := owner_dot owner_name method_name in
  only_value (cn_id <$>
    List.filter (λ node,
        match cn_normalized_file_path node with
        | Some path => swift_imported_module_path_matches path caller module_name
        | None => false
        end)
      (List.filter (λ node, owner_member_candidate_matches node owner_name method_name)
         (nodes_at index [owner_qualified_name] [method_name; owner_qualified_name]))).
Definition max_score (l : list (Z * nat)) : option nat :=
  match l with [] => None | (_, s) :: l => Some (foldl Nat.max s (snd <$> l)) end.
Definition find_go_imported_owner_member_readonly (index : CandidateIndex)
    (module_name owner_name method_name : str) : option Z :=
  let owner_qualified_name := owner_dot owner_name method_name in
  let matches :=
    omap (λ node,
        path ← cn_normalized_file_path node;
        score ← go_import_path_match_score path module_name;
        Some (cn_id node, score))
      (List.filter (λ node, owner_member_candidate_matches node owner_name method_name)
         (nodes_at index [owner_qualified_name] [method_name; owner_qualified_name])) in
  best ← max_score matches;
  only_value (omap (λ m, if decide (m.2 = best) then Some m.1 else None) matches).

Definition semantic_language_bucket : option str → option str := detect_resolver_language.
Definition find_imported_owner_member_readonly (index : CandidateIndex)
    (caller_file_path : option str) (module_name owner_name method_name : str) : option Z :=
  match semantic_language_bucket caller_file_path with
  | None => None
  | Some language =>
      let among names := RetrievalData.one_of language names in
      if among [lit "python"] then
        find_python_imported_owner_member_readonly index caller_file_path module_name owner_name method_name
      else if among [lit "go"] then
        find_go_imported_owner_member_readonly index module_name owner_name method_name
      else if among [lit "javascript"; lit "typescript"] then
        find_typescript_imported_owner_member_readonly index caller_file_path module_name owner_name method_name
      else if among [lit "csharp"; lit "java"; lit "kotlin"; lit "php"] then
        find_qualified_imported_owner_member_readonly index module_name owner_name method_name
      else if among [lit "swift"] then
        find_swift_imported_owner_member_readonly index caller_file_path module_name owner_name method_name
      else if among [lit "ruby"] then
        find_ruby_imported_owner_member_readonly index caller_file_path module_name owner_name method_name
      else if among [lit "dart"] then
        find_dart_imported_owner_member_readonly index caller_file_path module_name owner_name method_name
      else None
  end.

(** ** Unmemoised lookups *)
Definition is_import_binding_node (index : CandidateIndex) (id : Z) : bool :=
  bool_decide (id ∈ import_binding_node_ids index).
Definition is_same_file_candidate (index : CandidateIndex) (candidate_id : Z)
    (caller_file_id : option Z) : bool :=
  match caller_file_id with
  | None => false
  | Some _ =>
      match offset ← hm_get (node_offset_by_id index) candidate_id; nodes index !! offset with
      | Some node => bool_decide (cn_file_node_id node = caller_file_id)
      | None => false
      end
  end.
(** The suffix loop stops at the limit; the set of ids seen is that of the output. *)
Fixpoint top_suffix_loop (index : CandidateIndex) (l : list nat) (out : OrderedCandidateIds)
    (limit : nat) : OrderedCandidateIds :=
  match l with
  | [] => out
  | i :: l =>
      let out := match node_id_at index i with Some id => oc_push out id | None => out end in
      if (limit <=? length (ordered out))%nat then out else top_suffix_loop index l out limit
  end.
Definition top_matches_readonly (index : CandidateIndex) (name name_ascii_lower : str) (limit : nat)
  : list Z :=
  let out :=
    match hm_get (exact_map index) name with
    | Some exact => foldl oc_push no_candidates (omap (node_id_at index) (take limit exact))
    | None => no_candidates
    end in
  ordered
    (if (length (ordered out) <? limit)%nat then
       match hm_get (suffix_map_ascii_lower index) name_ascii_lower with
       | Some suffix => top_suffix_loop index suffix out limit
       | None => out
       end
     else out).
