(* ===== verification/ResolveSelect.v ===== *)
(** * Choosing the target of an edge

    codestory-indexer/src/resolution/candidate_selection.rs and the policy, candidate and
    update types of resolution/mod.rs: what an unresolved call or import edge resolves to,
    with which confidence and strategy, and which candidates are recorded. *)
From S2P Require Import Prelude RustStr Graph StrOps Collections ResolveText ResolveIndex.

(** ** Flags, policy and results *)
Record ResolutionFlags : Type := mkResolutionFlags {
  legacy_mode : bool;
  enable_semantic : bool;
  store_candidates : bool;
  parallel_compute : bool;
}.
Record ResolutionPolicy : Type := mkResolutionPolicy {
  call_same_file : f32;
  call_same_module : f32;
  call_global_unique : f32;
  import_same_file : f32;
  import_same_module : f32;
  import_global_unique : f32;
  import_fuzzy : f32;
  min_call_confidence : f32;
}.
Definition for_flags (flags : ResolutionFlags) : ResolutionPolicy :=
  if legacy_mode flags then
    {| call_same_file := f32_ratio 95 100; call_same_module := f32_ratio 80 100;
       call_global_unique := f32_ratio 60 100; import_same_file := f32_ratio 90 100;
       import_same_module := f32_ratio 70 100; import_global_unique := f32_ratio 50 100;
       import_fuzzy := f32_ratio 30 100; min_call_confidence := f32_ratio 40 100 |}
  else
    {| call_same_file := f32_ratio 95 100; call_same_module := f32_ratio 80 100;
       call_global_unique := f32_ratio 62 100; import_same_file := f32_ratio 90 100;
       import_same_module := f32_ratio 75 100; import_global_unique := f32_ratio 55 100;
       import_fuzzy := f32_ratio 35 100; min_call_confidence := PROBABLE_MIN |}.
(** The registry of the pass is its [enable_semantic] flag. *)
Record ResolutionPass : Type := mkResolutionPass {
  flags : ResolutionFlags;
  policy : ResolutionPolicy;
}.
Definition new_pass (flags : ResolutionFlags) : ResolutionPass :=
  {| flags := flags; policy := for_flags flags |}.

Inductive ResolutionStrategy : Set :=
| CallSameFile | CallSameModule | CallGlobalUnique | CallSemanticFallback
| ImportSameFile | ImportSameModule | ImportGlobalUnique | ImportFuzzy | ImportSemanticFallback.
#[export] Instance ResolutionStrategy_eq_dec : EqDecision ResolutionStrategy.
Proof. solve_decision. Defined.

Record SemanticResolutionCandidate : Type := mkSemanticResolutionCandidate {
  target_node_id : Z;
  confidence : f32;
}.
Record UnresolvedEdgeRow : Type := mkUnresolvedEdgeRow {
  row_edge_id : Z;
  row_file_id : option Z;
  row_caller_qualified : option str;
  row_source_name : str;
  row_target_name : str;
  row_target_node_id : Z;
  row_caller_file_path : option str;
  row_callsite_identity : option str;
}.
Record ResolvedEdgeUpdate : Type := mkResolvedEdgeUpdate {
  up_edge_id : Z;
  up_resolved_target : option Z;
  up_confidence : option f32;
  up_certainty : option str;
  up_candidate_payload : option str;
  up_touch_metadata : bool;
}.
Record ComputedResolution : Type := mkComputedResolution {
  update : ResolvedEdgeUpdate;
  strategy : option ResolutionStrategy;
}.

(** ** Updates *)
Definition candidate_json (candidates : list Z) : option str :=
  match candidates with
  | [] => None
  | _ => Some (lit "[" ++ join (lit ",") (show_int <$> candidates) ++ lit "]")
  end.
Definition build_resolved_edge_update (edge_id : Z) (selected : option (Z * f32))
    (candidates : list Z) : ResolvedEdgeUpdate :=
  let payload := candidate_json candidates in
  match selected with
  | Some (target_id, confidence) =>
      {| up_edge_id := edge_id; up_resolved_target := Some target_id;
         up_confidence := Some confidence;
         up_certainty := certainty_as_str <$> from_confidence (Some confidence);
         up_candidate_payload := payload; up_touch_metadata := true |}
  | None =>
      {| up_edge_id := edge_id; up_resolved_target := None; up_confidence := None;
         up_certainty := None; up_candidate_payload := payload; up_touch_metadata := false |}
  end.

(** ** The best candidate when it is the only best *)
Record UnambiguousBestCandidate : Type := mkUnambiguousBestCandidate {
  best : option (Z * f32);
  tied_best : bool;
}.
Definition no_best : UnambiguousBestCandidate := {| best := None; tied_best := false |}.
Definition consider (u : UnambiguousBestCandidate) (candidate_id : Z) (confidence : f32)
  : UnambiguousBestCandidate :=
  match best u with
  | Some (selected_id, selected_confidence) =>
      if f32_gt confidence selected_confidence
      then {| best := Some (candidate_id, confidence); tied_best := false |}
      else if f32_eq confidence selected_confidence && negb (candidate_id =? selected_id)
      then {| best := best u; tied_best := true |}
      else u
  | None => {| best := Some (candidate_id, confidence); tied_best := false |}
  end.
Definition selected_best (u : UnambiguousBestCandidate) : option (Z * f32) :=
  if tied_best u then None else best u.
Definition consider_selected (selected : option (Z * f32)) (candidate_id : Z) (confidence : f32)
  : option (Z * f32) :=
  match selected with
  | Some (_, existing) =>
      if f32_gt confidence existing then Some (candidate_id, confidence) else selected
  | None => Some (candidate_id, confidence)
  end.

(** A name and its lower-case form. *)
Definition PreparedName : Type := str * str.
Definition prepare_name (value : str) : PreparedName := (value, to_ascii_lowercase value).
Fixpoint pool_ids (ids : list Z) (out : OrderedCandidateIds) (limit : nat)
  : OrderedCandidateIds * bool :=
  match ids with
  | [] => (out, false)
  | id :: ids =>
      let out := oc_push out id in
      if (limit <=? length (ordered out))%nat then (out, true) else pool_ids ids out limit
  end.
Fixpoint pool_names (index : CandidateIndex) (names : list PreparedName)
    (out : OrderedCandidateIds) (limit : nat) : OrderedCandidateIds :=
  match names with
  | [] => out
  | name :: names =>
      let '(out, stop) := pool_ids (top_matches_readonly index name.1 name.2 3) out limit in
      if stop then out else pool_names index names out limit
  end.
Definition collect_candidate_pool_from_index (index : CandidateIndex) (names : list PreparedName)
    (out : OrderedCandidateIds) (limit : nat) : OrderedCandidateIds :=
  if (limit <=? length (ordered out))%nat then out else pool_names index names out limit.

(** ** Calls *)

(** What is selected so far, and the candidates recorded so far. *)
Record Choice : Type := mkChoice {
  selected : option (Z * f32 * ResolutionStrategy);
  candidate_ids : OrderedCandidateIds;
}.
Definition record_candidate (pass : ResolutionPass) (ids : OrderedCandidateIds) (candidate : Z)
  : OrderedCandidateIds :=
  if store_candidates (flags pass) then oc_push ids candidate else ids.
Definition choose (pass : ResolutionPass) (c : Choice) (candidate : Z) (confidence : f32)
    (s : ResolutionStrategy) : Choice :=
  {| selected := Some (candidate, confidence, s);
     candidate_ids := record_candidate pass (candidate_ids c) candidate |}.
Definition is_open (c : Choice) : bool := match selected c with None => true | Some _ => false end.
(** A lookup stage that runs when nothing is selected and a test holds. *)
Definition lookup_stage (pass : ResolutionPass) (test : bool) (lookup : Lookups (option Z))
    (confidence : f32) (s : ResolutionStrategy) (c : Choice) : Lookups Choice :=
  if is_open c && test then
    found ← lookup;
    mret (match found with Some candidate => choose pass c candidate confidence s | None => c end)
  else mret c.
Definition same_module_stage (pass : ResolutionPass) (row : UnresolvedEdgeRow)
    (name : PreparedName) (common : bool) (c : Choice) : Lookups Choice :=
  match row_caller_qualified row ≫= module_prefix with
  | Some prefix =>
      if is_open c && (negb common || store_candidates (flags pass)) then
        found ← find_same_module_readonly prefix.1 prefix.2 name.1 name.2;
        mret (match found with
              | Some candidate =>
                  let ids := record_candidate pass (candidate_ids c) candidate in
                  if common then {| selected := selected c; candidate_ids := ids |}
                  else {| selected := Some (candidate, call_same_module (policy pass), CallSameModule);
                          candidate_ids := ids |}
              | None => c
              end)
      else mret c
  | None => mret c
  end.
Definition finish (edge_id : Z) (c : Choice) : ComputedResolution :=
  {| update := build_resolved_edge_update edge_id (fst <$> selected c) (ordered (candidate_ids c));
     strategy := snd <$> selected c |}.
Definition unresolved (edge_id : Z) (ids : OrderedCandidateIds) : ComputedResolution :=
  finish edge_id {| selected := None; candidate_ids := ids |}.

Definition call_name (row : UnresolvedEdgeRow) : PreparedName :=
  prepare_name
    (match receiver_owner_from_callsite (row_callsite_identity row) with
     | Some owner => owner ++ lit "." ++ row_target_name row
     | None => row_target_name row
     end).
(** The loop over the semantic candidates. *)
Definition semantic_calls (pass : ResolutionPass) (row : UnresolvedEdgeRow)
    (l : list SemanticResolutionCandidate) : OrderedCandidateIds * UnambiguousBestCandidate :=
  let name := call_name row in
  foldl (λ '(ids, best) candidate,
      (record_candidate pass ids (target_node_id candidate),
       if negb (is_common_unqualified_call_name name.1)
          || should_keep_common_call_resolution name.1 (confidence candidate) (row_callsite_identity row)
       then consider best (target_node_id candidate) (confidence candidate) else best))
    (no_candidates, no_best) l.
(** The member of an imported owner; [None] is a call that stays unresolved. *)
Definition imported_owner_stage (pass : ResolutionPass) (index : CandidateIndex)
    (row : UnresolvedEdgeRow) (ids : OrderedCandidateIds) : option Choice :=
  let c := {| selected := None; candidate_ids := ids |} in
  match receiver_owner_from_callsite (row_callsite_identity row),
        receiver_module_from_callsite (row_callsite_identity row) with
  | Some owner_name, Some module_name =>
      candidate ← find_imported_owner_member_readonly index (row_caller_file_path row) module_name
                    owner_name (row_target_name row);
      Some (choose pass c candidate (call_same_file (policy pass)) CallGlobalUnique)
  | _, _ => Some c
  end.
(** Everything after the receiver check: the global stages, the recorded pool, the semantic
    candidates and the rule for common names. *)
Definition global_stages (pass : ResolutionPass) (index : CandidateIndex) (row : UnresolvedEdgeRow)
    (best : UnambiguousBestCandidate) (c : Choice) : Lookups ComputedResolution :=
  let name := call_name row in
  let common := is_common_unqualified_call_name name.1 in
  let owner_qualified := is_owner_qualified_call_name name.1 in
  c ← lookup_stage pass (negb common) (find_global_unique_exact_readonly name.1 name.2)
        (if owner_qualified then call_same_file (policy pass) else call_global_unique (policy pass))
        CallGlobalUnique c;
  c ← lookup_stage pass owner_qualified (find_global_unique_owner_alias_readonly name.1 name.2)
        (call_same_file (policy pass)) CallGlobalUnique c;
  let c :=
    if store_candidates (flags pass) && is_open c
    then {| selected := selected c;
            candidate_ids := collect_candidate_pool_from_index index [name] (candidate_ids c) 6 |}
    else c in
  let c :=
    if is_open c && negb owner_qualified then
      match selected_best best with
      | Some (candidate, confidence) =>
          {| selected := Some (candidate, confidence, CallSemanticFallback);
             candidate_ids := candidate_ids c |}
      | None => c
      end
    else c in
  let c :=
    match selected c with
    | Some (_, confidence, _) =>
        if should_keep_common_call_resolution name.1 confidence (row_callsite_identity row) then c
        else {| selected := None; candidate_ids := candidate_ids c |}
    | None => c
    end in
  mret (finish (row_edge_id row) c).
Definition compute_call_resolution (pass : ResolutionPass) (index : CandidateIndex)
    (row : UnresolvedEdgeRow) (semantic_candidates : list SemanticResolutionCandidate)
  : Lookups ComputedResolution :=
  let receiver_owner := receiver_owner_from_callsite (row_callsite_identity row) in
  let receiver_module := receiver_module_from_callsite (row_callsite_identity row) in
  if member_call_placeholder EdgeKind.CALL (row_callsite_identity row)
     && bool_decide (receiver_owner = None)
  then mret (unresolved (row_edge_id row) no_candidates)
  else
    let name := call_name row in
    let common := is_common_unqualified_call_name name.1 in
    let '(ids, best) := semantic_calls pass row semantic_candidates in
    match imported_owner_stage pass index row ids with
    | None => mret (unresolved (row_edge_id row) ids)
    | Some c =>
        let c :=
          if is_open c && negb common && is_import_binding_node index (row_target_node_id row)
          then choose pass c (row_target_node_id row) (call_same_file (policy pass)) CallSameFile
          else c in
        c ← lookup_stage pass (negb common)
              (find_same_file_readonly (row_file_id row) name.1 name.2)
              (call_same_file (policy pass)) CallSameFile c;
        c ← same_module_stage pass row name common c;
        if is_open c && bool_decide (is_Some receiver_owner) && bool_decide (receiver_module = None)
        then mret (unresolved (row_edge_id row) (candidate_ids c))
        else global_stages pass index row best c
    end.

(** ** Imports *)

(** What the loop over the names of an import has found: the chosen candidate of each stage
    and the candidates each stage met. *)
Record ImportStages : Type := mkImportStages {
  same_file_selected : option Z;
  same_module_selected : option Z;
  global_selected : option Z;
  fuzzy_selected : option Z;
  same_file_met : OrderedCandidateIds;
  same_module_met : OrderedCandidateIds;
  global_met : OrderedCandidateIds;
  fuzzy_met : OrderedCandidateIds;
}.
Definition no_stages : ImportStages :=
  {| same_file_selected := None; same_module_selected := None; global_selected := None;
     fuzzy_selected := None; same_file_met := no_candidates; same_module_met := no_candidates;
     global_met := no_candidates; fuzzy_met := no_candidates |}.
(** A candidate is chosen when it is not in the file of the import. *)
Definition other_file (index : CandidateIndex) (row : UnresolvedEdgeRow) (candidate : Z)
  : option Z :=
  if is_same_file_candidate index candidate (row_file_id row) then None else Some candidate.
Definition meet (index : CandidateIndex) (row : UnresolvedEdgeRow) (found chosen : option Z)
    (met : OrderedCandidateIds) : option Z * OrderedCandidateIds :=
  match found with
  | Some candidate => (other_file index row candidate, oc_push met candidate)
  | None => (chosen, met)
  end.
Definition is_none {A} (o : option A) : bool := match o with None => true | Some _ => false end.
(** [if cond && let Some(x) = lookup]. *)
Definition lookup_if (cond : bool) (lookup : Lookups (option Z)) : Lookups (option Z) :=
  if cond then lookup else mret None.
Fixpoint import_loop (pass : ResolutionPass) (index : CandidateIndex) (row : UnresolvedEdgeRow)
    (names : list PreparedName) (s : ImportStages) : Lookups ImportStages :=
  match names with
  | [] => mret s
  | name :: names =>
      in_file ← lookup_if (legacy_mode (flags pass) && is_none (same_file_selected s))
                  (find_same_file_readonly (row_file_id row) name.1 name.2);
      match in_file with
      | Some candidate =>
          mret {| same_file_selected := Some candidate;
                  same_module_selected := same_module_selected s;
                  global_selected := global_selected s; fuzzy_selected := fuzzy_selected s;
                  same_file_met := oc_push (same_file_met s) candidate;
                  same_module_met := same_module_met s; global_met := global_met s;
                  fuzzy_met := fuzzy_met s |}
      | None =>
          found ← (match row_caller_qualified row ≫= module_prefix with
                   | Some prefix =>
                       lookup_if (is_none (same_module_selected s))
                         (find_same_module_readonly prefix.1 prefix.2 name.1 name.2)
                   | None => mret None
                   end);
          let '(in_module, module_met) :=
            meet index row found (same_module_selected s) (same_module_met s) in
          found ← lookup_if (is_none (global_selected s))
                    (find_global_unique_readonly name.1 name.2);
          let '(global, global_met) := meet index row found (global_selected s) (global_met s) in
          found ← lookup_if (negb (legacy_mode (flags pass)) && is_none (fuzzy_selected s))
                    (find_fuzzy_readonly name.1 name.2);
          let '(fuzzy, fuzzy_met) := meet index row found (fuzzy_selected s) (fuzzy_met s) in
          let s := {| same_file_selected := same_file_selected s; same_module_selected := in_module;
                      global_selected := global; fuzzy_selected := fuzzy;
                      same_file_met := same_file_met s; same_module_met := module_met;
                      global_met := global_met; fuzzy_met := fuzzy_met |} in
          if is_none in_module && is_none global && is_none fuzzy
          then import_loop pass index row names s else mret s
      end
  end.
(** The recorded candidates after the loop. *)
Definition record_stages (pass : ResolutionPass) (s : ImportStages) (ids : OrderedCandidateIds)
  : OrderedCandidateIds :=
  if legacy_mode (flags pass) && negb (is_none (same_file_selected s)) then
    if store_candidates (flags pass) then oc_extend_stage ids (ordered (same_file_met s)) None
    else ids
  else if store_candidates (flags pass) then
    let ids := oc_extend_stage ids (ordered (same_module_met s)) None in
    if is_none (same_module_selected s) then
      let ids := oc_extend_stage ids (ordered (global_met s)) None in
      if is_none (global_selected s) && negb (legacy_mode (flags pass))
      then oc_extend_stage ids (ordered (fuzzy_met s)) None else ids
    else ids
  else ids.
Definition select_import (pass : ResolutionPass) (relative : option Z) (s : ImportStages)
  : option (Z * f32 * ResolutionStrategy) :=
  match relative with
  | Some candidate => Some (candidate, CERTAIN_MIN, ImportSameModule)
  | None =>
      match same_file_selected s with
      | Some candidate => Some (candidate, import_same_file (policy pass), ImportSameFile)
      | None =>
          match same_module_selected s with
          | Some candidate => Some (candidate, import_same_module (policy pass), ImportSameModule)
          | None =>
              match global_selected s with
              | Some candidate =>
                  Some (candidate, import_global_unique (policy pass), ImportGlobalUnique)
              | None =>
                  (λ candidate, (candidate, import_fuzzy (policy pass), ImportFuzzy))
                    <$> fuzzy_selected s
              end
          end
      end
  end.
Definition is_import_same_file (choice : option (Z * f32 * ResolutionStrategy)) : bool :=
  match choice with Some (_, _, ImportSameFile) => true | _ => false end.
Definition compute_import_resolution (pass : ResolutionPass) (index : CandidateIndex)
    (row : UnresolvedEdgeRow) (semantic_candidates : list SemanticResolutionCandidate)
  : Lookups ComputedResolution :=
  let has_alias := import_alias_mismatch (row_source_name row) (row_target_name row) in
  let has_relative_import_binding :=
    is_import_binding_name (row_source_name row)
    && is_relative_import_module_name (row_target_name row) in
  let names := prepare_name <$> import_name_candidates (row_target_name row) (legacy_mode (flags pass)) in
  let '(ids, semantic_fallback) :=
    foldl (λ '(ids, fallback) candidate,
        (record_candidate pass ids (target_node_id candidate),
         consider_selected fallback (target_node_id candidate) (confidence candidate)))
      (no_candidates, None) semantic_candidates in
  let alias_name := prepare_name (row_source_name row) in
  relative ← lookup_if has_relative_import_binding
               (find_relative_import_readonly (row_caller_file_path row) (row_target_name row)
                  alias_name.1 alias_name.2);
  let ids := match relative with Some candidate => record_candidate pass ids candidate | None => ids end in
  s ← import_loop pass index row names no_stages;
  let ids := record_stages pass s ids in
  let ids := if store_candidates (flags pass)
             then collect_candidate_pool_from_index index names ids 8 else ids in
  let choice := select_import pass relative s in
  let choice :=
    if (has_alias || has_relative_import_binding) && is_none relative
       && negb (is_import_same_file choice)
    then None else choice in
  let choice :=
    if is_none choice && negb (has_alias || has_relative_import_binding)
    then (λ cc : Z * f32, (cc, ImportSemanticFallback)) <$> semantic_fallback else choice in
  mret (finish (row_edge_id row) {| selected := choice; candidate_ids := ids |}).
