(* ===== verification/SemanticIndex.v ===== *)
(** * Semantic candidates

    codestory-indexer/src/semantic/: the index of candidate nodes by exact name, qualified
    name and tail, the name search with its language filter, and the resolver of each
    language.  Resolvers never fail, so their [Result] is the value. *)
From S2P Require Import Prelude RustStr Graph StrOps Collections LanguageSupport.
From S2P Require Import ResolveText ResolveSelect.

Record SemanticCandidateNode : Type := mkSemanticCandidateNode {
  se_id : Z;
  se_kind : Z;
  se_serialized_name : str;
  se_serialized_name_ascii_lower : str;
  se_qualified_name : option str;
  se_qualified_name_ascii_lower : option str;
  se_file_node_id : option Z;
  se_language_family : option str;
}.
Record SemanticCandidateNodeSnapshot : Type := mkSemanticCandidateNodeSnapshot {
  ss_id : Z;
  ss_kind : Z;
  ss_serialized_name : str;
  ss_qualified_name : option str;
  ss_file_node_id : option Z;
  ss_language_family : option str;
}.
Record SemanticCandidateIndex : Type := mkSemanticCandidateIndex {
  se_nodes : list SemanticCandidateNode;
  nodes_by_kind : list (Z * list nat);
  serialized_exact : list (str * list nat);
  qualified_exact : list (str * list nat);
  tail_ascii_lower : list (str * list nat);
}.
Record SemanticResolutionRequest : Type := mkSemanticResolutionRequest {
  rq_edge_kind : EdgeKind;
  rq_file_id : option Z;
  rq_file_path : option str;
  rq_caller_qualified : option str;
  rq_target_name : str;
}.

(** ** Construction *)
Definition semantic_node (id kind : Z) (serialized_name : str) (qualified_name : option str)
    (file_node_id : option Z) (language_family : option str) : SemanticCandidateNode :=
  {| se_id := id; se_kind := kind; se_serialized_name := serialized_name;
     se_serialized_name_ascii_lower := to_ascii_lowercase serialized_name;
     se_qualified_name := qualified_name;
     se_qualified_name_ascii_lower := to_ascii_lowercase <$> qualified_name;
     se_file_node_id := file_node_id; se_language_family := language_family |}.
Definition tail_variants (node : SemanticCandidateNode) : list str :=
  let tail (name : str) : list str :=
    match tail_component name with Some tail => [to_ascii_lowercase tail] | None => [] end in
  tail (se_serialized_name node)
  ++ match se_qualified_name node with Some q => tail q | None => [] end.
Definition semantic_keyed {K} (keys : SemanticCandidateNode → list K)
    (l : list SemanticCandidateNode) : list (K * nat) :=
  imap pair l ≫= λ on, (λ k, (k, on.1)) <$> keys on.2.
Definition from_nodes (l : list SemanticCandidateNode) : SemanticCandidateIndex :=
  {| se_nodes := l;
     nodes_by_kind := hm_group (semantic_keyed (λ n, [se_kind n]) l);
     serialized_exact := hm_group (semantic_keyed (λ n, [se_serialized_name n]) l);
     qualified_exact :=
       hm_group (semantic_keyed (λ n, match se_qualified_name n with Some q => [q] | None => [] end) l);
     tail_ascii_lower := hm_group (semantic_keyed tail_variants l) |}.
Definition empty_semantic_index : SemanticCandidateIndex := from_nodes [].
Definition semantic_snapshot_nodes (index : SemanticCandidateIndex)
  : list SemanticCandidateNodeSnapshot :=
  (λ n, {| ss_id := se_id n; ss_kind := se_kind n; ss_serialized_name := se_serialized_name n;
           ss_qualified_name := se_qualified_name n; ss_file_node_id := se_file_node_id n;
           ss_language_family := se_language_family n |}) <$> se_nodes index.
Definition semantic_from_snapshot_nodes (l : list SemanticCandidateNodeSnapshot)
  : SemanticCandidateIndex :=
  from_nodes ((λ n, semantic_node (ss_id n) (ss_kind n) (ss_serialized_name n) (ss_qualified_name n)
                      (ss_file_node_id n) (ss_language_family n)) <$> l).

(** ** Search by name *)

(** The nodes found so far and the ids seen. *)
Record Found : Type := mkFound {
  found_nodes : list SemanticCandidateNode;
  found_ids : gset Z;
}.
Definition push_offset (index : SemanticCandidateIndex) (kinds : list Z) (family : option str)
    (limit : nat) (out : Found) (offset : nat) : Found :=
  if (limit <=? length (found_nodes out))%nat then out
  else
    match se_nodes index !! offset with
    | None => out
    | Some node =>
        if negb (existsb (Z.eqb (se_kind node)) kinds)
           || negb (compatible_language_families family (se_language_family node))
           || bool_decide (se_id node ∈ found_ids out)
        then out
        else {| found_nodes := found_nodes out ++ [node];
                found_ids := {[se_id node]} ∪ found_ids out |}
    end.
Definition contains_name (node : SemanticCandidateNode) (name_ascii_lower : str) : bool :=
  contains (se_serialized_name_ascii_lower node) name_ascii_lower
  || match se_qualified_name_ascii_lower node with
     | Some q => contains q name_ascii_lower
     | None => false
     end.
Fixpoint fuzzy_offsets (index : SemanticCandidateIndex) (family : option str)
    (name_ascii_lower : str) (limit : nat) (l : list nat) (out : Found) : Found :=
  match l with
  | [] => out
  | offset :: l =>
      let skip := fuzzy_offsets index family name_ascii_lower limit l out in
      match se_nodes index !! offset with
      | None => skip
      | Some node =>
          if bool_decide (se_id node ∈ found_ids out)
             || negb (compatible_language_families family (se_language_family node))
          then skip
          else if contains_name node name_ascii_lower then
            let out := {| found_nodes := found_nodes out ++ [node];
                          found_ids := {[se_id node]} ∪ found_ids out |} in
            if (limit <=? length (found_nodes out))%nat then out
            else fuzzy_offsets index family name_ascii_lower limit l out
          else skip
      end
  end.
Fixpoint fuzzy_kinds (index : SemanticCandidateIndex) (family : option str)
    (name_ascii_lower : str) (limit : nat) (kinds : list Z) (out : Found) : Found :=
  match kinds with
  | [] => out
  | kind :: kinds =>
      match hm_get (nodes_by_kind index) kind with
      | None => fuzzy_kinds index family name_ascii_lower limit kinds out
      | Some l =>
          let out := fuzzy_offsets index family name_ascii_lower limit l out in
          if (limit <=? length (found_nodes out))%nat then out
          else fuzzy_kinds index family name_ascii_lower limit kinds out
      end
  end.
Definition nodes_for_name (index : SemanticCandidateIndex) (kinds : list Z)
    (name name_ascii_lower : str) (caller_language : option str) (allow_fuzzy : bool) (limit : nat)
  : list SemanticCandidateNode :=
  let family := language_family_bucket <$> caller_language in
  let push_all out l := foldl (push_offset index kinds family limit) out (default [] l) in
  let out := {| found_nodes := []; found_ids := ∅ |} in
  let out := push_all out (hm_get (serialized_exact index) name) in
  let out := push_all out (hm_get (qualified_exact index) name) in
  let out := push_all out (hm_get (tail_ascii_lower index) name_ascii_lower) in
  found_nodes
    (if allow_fuzzy && bool_decide (length (found_nodes out) = 0%nat)
     then fuzzy_kinds index family name_ascii_lower limit kinds out else out).

Definition to_candidates (ids : list Z) (confidence : f32) : list SemanticResolutionCandidate :=
  (λ id, {| target_node_id := id; confidence := confidence |}) <$> ids.
Definition resolve_import_candidates (index : SemanticCandidateIndex) (kinds : list Z)
    (symbol : str) (file_id : option Z) (caller_language : option str) (confidence : f32)
  : list SemanticResolutionCandidate :=
  to_candidates
    (se_id <$> List.filter (λ node,
         is_none file_id || is_none (se_file_node_id node)
         || negb (bool_decide (se_file_node_id node = file_id)))
       (nodes_for_name index kinds symbol (to_ascii_lowercase symbol) caller_language true 4))
    confidence.
Definition resolve_call_candidates (index : SemanticCandidateIndex) (kinds : list Z)
    (call_name : str) (file_id : option Z) (caller_language : option str)
    (same_file_confidence global_confidence : f32) : list SemanticResolutionCandidate :=
  let nodes :=
    nodes_for_name index kinds call_name (to_ascii_lowercase call_name) caller_language false 3 in
  let out :=
    match file_id with
    | Some _ =>
        to_candidates
          (se_id <$> List.filter (λ node, bool_decide (se_file_node_id node = file_id)) nodes)
          same_file_confidence
    | None => []
    end in
  match out with
  | [] => to_candidates (se_id <$> nodes) global_confidence
  | _ => out
  end.

(** ** Names of a request *)
Definition non_empty_trimmed (value : str) : option str :=
  let trimmed := trim value in if str_eqb trimmed [] then None else Some trimmed.
Definition request_target (request : SemanticResolutionRequest) : option str :=
  non_empty_trimmed (rq_target_name request).
Definition request_language (request : SemanticResolutionRequest) : option str :=
  detect_resolver_language (rq_file_path request).
Definition alias_target (target : str) : str :=
  trim (match split_once target (lit " as ") with Some (_, rhs) => trim rhs | None => target end).
Definition tail_segment (value : str) (separators : list ascii) : option str :=
  non_empty_trimmed (default value (head (rsplit_when (any_char separators) value))).
Definition namespace_tail (value separator : str) : option str :=
  non_empty_trimmed (default value (snd <$> rsplit_once value separator)).
Definition call_target_name (target : str) : option str :=
  non_empty_trimmed
    (default target
       (option_or (snd <$> rsplit_once target (lit "::")) (snd <$> rsplit_once target (lit ".")))).
Definition backslash_char : ascii := "\"%char.

(** Symbols of an import. *)
Definition normalize_include_symbol (extensions : list str) (target : str) : str :=
  let trimmed := trim_matches (Ascii.eqb ">"%char) (trim_matches (Ascii.eqb "<"%char)
                   (trim_matches (Ascii.eqb quote_char) (trim target))) in
  let base := trim (default trimmed (head (rsplit_on slash trimmed))) in
  default base (find_map (strip_suffix base) extensions).
Definition c_include_symbol : str → str := normalize_include_symbol [lit ".h"].
Definition cpp_include_symbol : str → str :=
  normalize_include_symbol [lit ".hpp"; lit ".hxx"; lit ".hh"; lit ".h"].
Definition strip_known_script_extension (symbol : str) : str :=
  default symbol (find_map (strip_suffix symbol)
    [lit ".d.ts"; lit ".tsx"; lit ".cts"; lit ".mts"; lit ".jsx"; lit ".cjs"; lit ".mjs"; lit ".js";
     lit ".ts"]).
Definition normalize_import_symbol (target : str) : str :=
  default [] (strip_known_script_extension <$>
    tail_segment (trim_matches is_quote_mark (alias_target target))
      [slash; backslash_char; ":"%char]).
Definition strip_known_extension (symbol : str) : str :=
  default symbol (find_map (λ extension, s ← strip_suffix symbol extension; strip_suffix s (lit "."))
                    supported_extensions).
Definition normalized_import_symbol (target : str) : option str :=
  let unquoted := trim (trim_matches is_quote_mark (alias_target target)) in
  if existsb (any_char [slash; backslash_char]) unquoted
  then strip_known_extension <$> tail_segment unquoted [slash; backslash_char]
  else strip_known_extension <$> tail_segment (strip_known_extension unquoted) [dot; ":"%char].

(** ** The resolvers *)

(** What distinguishes the resolver of a language: the symbol of an import, the kinds and
    confidence of imports, the kinds and confidences of calls. *)
Record SemanticResolver : Type := mkSemanticResolver {
  import_symbol : str → option str;
  import_kinds : list NodeKind;
  import_confidence : f32;
  call_allowed : str → bool;
  call_kinds : list NodeKind;
  call_same_file_confidence : f32;
  call_global_confidence : f32;
}.
Definition non_empty (symbol : str) : option str := if str_eqb symbol [] then None else Some symbol.
Definition percent (n : Z) : f32 := f32_ratio n 100.
Import NodeKind.
Definition resolver_with (symbol : str → option str) (kinds : list NodeKind) (import same global : Z)
  : SemanticResolver :=
  {| import_symbol := symbol; import_kinds := kinds; import_confidence := percent import;
     call_allowed := λ _, true; call_kinds := [METHOD; FUNCTION];
     call_same_file_confidence := percent same; call_global_confidence := percent global |}.
Definition CSemanticResolver : SemanticResolver :=
  {| import_symbol := λ t, non_empty (c_include_symbol t);
     import_kinds := [MODULE; STRUCT; UNION; ENUM; TYPEDEF; FUNCTION];
     import_confidence := percent 54; call_allowed := λ _, true;
     call_kinds := [FUNCTION; METHOD]; call_same_file_confidence := percent 82;
     call_global_confidence := percent 66 |}.
Definition CppSemanticResolver : SemanticResolver :=
  resolver_with (λ t, non_empty (cpp_include_symbol t))
    [MODULE; NAMESPACE; CLASS; STRUCT; ENUM; TYPEDEF; FUNCTION; METHOD] 58 82 70.
Definition JavaScriptSemanticResolver : SemanticResolver :=
  resolver_with (λ t, non_empty (normalize_import_symbol t))
    [MODULE; NAMESPACE; PACKAGE; CLASS; FUNCTION] 57 82 69.
(** A dotted target of a Python call is left to the parser. *)
Definition PythonSemanticResolver : SemanticResolver :=
  {| import_symbol := λ t, tail_segment (alias_target t) [dot; slash; ":"%char];
     import_kinds := [MODULE; PACKAGE; CLASS; FUNCTION; METHOD];
     import_confidence := percent 59; call_allowed := λ t, negb (contains t (lit "."));
     call_kinds := [METHOD; FUNCTION]; call_same_file_confidence := percent 82;
     call_global_confidence := percent 72 |}.
Definition RustSemanticResolver : SemanticResolver :=
  resolver_with
    (λ t, (λ symbol, trim (trim_end_str symbol (lit " (import)")))
            <$> namespace_tail (alias_target t) (lit "::"))
    [MODULE; NAMESPACE; STRUCT; ENUM; INTERFACE; TYPEDEF; FUNCTION; METHOD] 61 82 73.
Definition TypeScriptSemanticResolver : SemanticResolver :=
  resolver_with (λ t, tail_segment (alias_target t) [slash; dot; ":"%char])
    [MODULE; NAMESPACE; PACKAGE; CLASS; INTERFACE; ENUM; TYPEDEF] 58 88 70.
Definition JavaSemanticResolver : SemanticResolver :=
  resolver_with (λ t, tail_segment t [dot])
    [PACKAGE; MODULE; NAMESPACE; CLASS; INTERFACE; ANNOTATION; ENUM] 60 89 72.
Definition GoSemanticResolver : SemanticResolver :=
  resolver_with
    (λ t, option_or (tail_segment (trim_matches (Ascii.eqb quote_char) t) [slash; dot])
            (tail_segment t [slash; dot]))
    [MODULE; PACKAGE; FUNCTION; METHOD; STRUCT] 58 80 70.
Definition RubySemanticResolver : SemanticResolver :=
  resolver_with
    (λ t, option_or (tail_segment (trim_matches (Ascii.eqb quote_char) t) [slash; ":"%char])
            (tail_segment t [slash; ":"%char; dot]))
    [MODULE; CLASS; METHOD; FUNCTION] 58 80 70.
Definition PhpSemanticResolver : SemanticResolver :=
  resolver_with
    (λ t, option_or (namespace_tail t (lit "\")) (tail_segment t [backslash_char; slash]))
    [NAMESPACE; MODULE; CLASS; INTERFACE; FUNCTION; METHOD] 58 80 70.
Definition CSharpSemanticResolver : SemanticResolver :=
  resolver_with (λ t, namespace_tail t (lit "."))
    [NAMESPACE; MODULE; CLASS; INTERFACE; STRUCT; METHOD; FUNCTION] 58 80 70.
Definition GenericSemanticResolver : SemanticResolver :=
  {| import_symbol := normalized_import_symbol;
     import_kinds := [MODULE; NAMESPACE; PACKAGE; CLASS; INTERFACE; ENUM; TYPEDEF; FUNCTION];
     import_confidence := PROBABLE_MIN; call_allowed := λ _, true; call_kinds := [METHOD; FUNCTION];
     call_same_file_confidence := percent 80; call_global_confidence := percent 68 |}.

Definition resolve_with (resolver : SemanticResolver) (index : SemanticCandidateIndex)
    (request : SemanticResolutionRequest) : list SemanticResolutionCandidate :=
  match request_target request with
  | None => []
  | Some target =>
      match rq_edge_kind request with
      | EdgeKind.IMPORT =>
          match import_symbol resolver target with
          | None => []
          | Some symbol =>
              resolve_import_candidates index (node_kind_as_i32 <$> import_kinds resolver) symbol
                (rq_file_id request) (request_language request) (import_confidence resolver)
          end
      | EdgeKind.CALL =>
          if negb (call_allowed resolver target) then []
          else
            match call_target_name target with
            | None => []
            | Some name =>
                resolve_call_candidates index (node_kind_as_i32 <$> call_kinds resolver) name
                  (rq_file_id request) (request_language request)
                  (call_same_file_confidence resolver) (call_global_confidence resolver)
            end
      | _ => []
      end
  end.
Definition semantic_resolver_for_path (path : option str) : option SemanticResolver :=
  language ← detect_resolver_language path;
  let among names := RetrievalData.one_of language names in
  if among [lit "c"] then Some CSemanticResolver
  else if among [lit "cpp"] then Some CppSemanticResolver
  else if among [lit "javascript"; lit "vue"; lit "svelte"; lit "astro"]
  then Some JavaScriptSemanticResolver
  else if among [lit "python"] then Some PythonSemanticResolver
  else if among [lit "rust"] then Some RustSemanticResolver
  else if among [lit "typescript"] then Some TypeScriptSemanticResolver
  else if among [lit "java"] then Some JavaSemanticResolver
  else if among [lit "go"] then Some GoSemanticResolver
  else if among [lit "ruby"] then Some RubySemanticResolver
  else if among [lit "php"] then Some PhpSemanticResolver
  else if among [lit "csharp"] then Some CSharpSemanticResolver
  else if among [lit "kotlin"; lit "swift"; lit "dart"; lit "bash"] then Some GenericSemanticResolver
  else None.
(** The registry; a disabled one has no candidates. *)
Definition registry_resolve (enabled : bool) (index : SemanticCandidateIndex)
    (request : SemanticResolutionRequest) : list SemanticResolutionCandidate :=
  if negb enabled then []
  else
    match semantic_resolver_for_path (rq_file_path request) with
    | None => []
    | Some resolver => resolve_with resolver index request
    end.

(** * What a semantic search finds

    The nodes a name search returns are distinct, few, of the requested kinds and families
    and have the name; the candidates of a call are of its file or, when none of the nodes
    found is, all of them. *)

(** ** Offsets *)
Lemma semantic_keyed_elem {K} (keys : SemanticCandidateNode → list K) l k i :
  (k, i) ∈ semantic_keyed keys l → ∃ n, l !! i = Some n ∧ k ∈ keys n.
Proof.
  unfold semantic_keyed. intros ([j n] & Hk & Hin)%list_elem_of_bind.
  apply list_elem_of_fmap in Hk as (k' & [= -> ->] & Hk).
  apply list_elem_of_lookup in Hin as [x Hx]. rewrite list_lookup_imap in Hx.
  destruct (l !! x) as [n'|] eqn:Hn; [|done]. cbn in Hx. injection Hx as -> ->. by exists n.
Qed.
Lemma bucket_nodes {K} `{EqDecision K} (keys : SemanticCandidateNode → list K) l k i :
  i ∈ default [] (hm_get (hm_group (semantic_keyed keys l)) k) → ∃ n, l !! i = Some n ∧ k ∈ keys n.
Proof.
  rewrite hm_get_group. intros Hi. apply semantic_keyed_elem, values_of_elem.
  by destruct (values_of (semantic_keyed keys l) k).
Qed.

Section Search.
Context (l : list SemanticCandidateNode) (kinds : list Z) (family : option str) (limit : nat).
Context (good : SemanticCandidateNode → Prop).
Let index := from_nodes l.

Definition suits (n : SemanticCandidateNode) : Prop :=
  n ∈ l ∧ se_kind n ∈ kinds ∧ compatible_language_families family (se_language_family n) = true ∧ good n.
Definition found_ok (out : Found) : Prop :=
  NoDup (se_id <$> found_nodes out) ∧ (∀ id, id ∈ se_id <$> found_nodes out ↔ id ∈ found_ids out) ∧
  Forall suits (found_nodes out) ∧ (length (found_nodes out) <= limit)%nat.
Definition found_add (out : Found) (n : SemanticCandidateNode) : Found :=
  {| found_nodes := found_nodes out ++ [n]; found_ids := {[se_id n]} ∪ found_ids out |}.
Lemma found_add_ok out n :
  found_ok out → suits n → se_id n ∉ found_ids out → (length (found_nodes out) < limit)%nat →
  found_ok (found_add out n).
Proof.
  intros (Hnd & Hids & Hall & Hlen) Hn Hid Hlt. unfold found_add. split; cbn.
  - rewrite fmap_app. apply NoDup_app. split; [done|]. split; [|apply NoDup_singleton].
    intros x Hx ->%list_elem_of_singleton. by apply Hid, Hids.
  - split; [|split].
    + intros id. rewrite fmap_app, elem_of_app. cbn. rewrite list_elem_of_singleton, Hids. set_solver.
    + apply Forall_app. split; [done|]. by constructor.
    + rewrite length_app. cbn. lia.
Qed.
Lemma kinds_elem k : existsb (Z.eqb k) kinds = true ↔ k ∈ kinds.
Proof.
  rewrite existsb_exists. split.
  - intros (x & Hx & ->%Z.eqb_eq). by apply list_elem_of_In.
  - intros Hk. exists k. split; [by apply list_elem_of_In|apply Z.eqb_refl].
Qed.
Lemma push_offset_ok out i :
  (∀ n, l !! i = Some n → good n) → found_ok out → found_ok (push_offset index kinds family limit out i).
Proof.
  intros Hgood Hok. unfold push_offset. destruct (limit <=? _)%nat eqn:Hlen; [done|].
  apply Nat.leb_gt in Hlen. change (se_nodes index) with l. destruct (l !! i) as [n|] eqn:Hn; [|done].
  destruct (_ || _) eqn:Hc; [done|]. apply orb_false_iff in Hc as [Hc Hid%bool_decide_eq_false].
  apply orb_false_iff in Hc as [Hk%negb_false_iff Hf%negb_false_iff].
  apply found_add_ok; [done| |done|done]. split; [by apply list_elem_of_lookup_2 in Hn|].
  split; [by apply kinds_elem|]. split; [done|]. by apply Hgood.
Qed.
Lemma push_all_ok offs out :
  (∀ i n, i ∈ offs → l !! i = Some n → good n) → found_ok out →
  found_ok (foldl (push_offset index kinds family limit) out offs).
Proof.
  revert out. induction offs as [|i offs IH]; intros out Hgood Hok; [done|]. cbn.
  apply IH; [intros j n Hj; apply Hgood; by right|]. apply push_offset_ok; [|done].
  intros n. apply Hgood. by left.
Qed.
(** The fuzzy loops. *)
Lemma fuzzy_offsets_ok lower offs out :
  (∀ i, i ∈ offs → ∃ n, l !! i = Some n ∧ se_kind n ∈ kinds) →
  (∀ n, contains_name n lower = true → good n) →
  found_ok out → (length (found_nodes out) < limit)%nat →
  let out' := fuzzy_offsets index family lower limit offs out in found_ok out'.
Proof.
  intros Hoffs Hgood. cbv zeta. revert out. induction offs as [|i offs IH]; intros out Hok Hlen; [done|].
  cbn [fuzzy_offsets]. change (se_nodes index) with l.
  assert (Hrest : ∀ i, i ∈ offs → ∃ n, l !! i = Some n ∧ se_kind n ∈ kinds) by (intros; apply Hoffs; by right).
  specialize (IH Hrest).
  destruct (Hoffs i) as (n & Hn & Hk); [by left|]. rewrite Hn.
  destruct (_ || _) eqn:Hc; [by apply IH|].
  apply orb_false_iff in Hc as [Hid%bool_decide_eq_false Hf%negb_false_iff].
  destruct (contains_name n lower) eqn:Hname; [|by apply IH].
  assert (Hadd : found_ok (found_add out n)).
  { apply found_add_ok; [done| |done|done]. split; [by apply list_elem_of_lookup_2 in Hn|]. auto. }
  fold (found_add out n). destruct (limit <=? _)%nat eqn:Hl; [done|]. apply IH; [done|].
  by apply Nat.leb_gt in Hl.
Qed.
Lemma fuzzy_kinds_ok lower ks out :
  (∀ k, k ∈ ks → k ∈ kinds) → (∀ n, contains_name n lower = true → good n) →
  found_ok out → (length (found_nodes out) < limit)%nat →
  found_ok (fuzzy_kinds index family lower limit ks out).
Proof.
  intros Hks Hgood. revert out. induction ks as [|k ks IH]; intros out Hok Hlen; [done|]. cbn [fuzzy_kinds].
  assert (Hks' : ∀ k, k ∈ ks → k ∈ kinds) by (intros; apply Hks; by right). specialize (IH Hks').
  destruct (hm_get (nodes_by_kind index) k) as [offs|] eqn:Hget; [|by apply IH].
  assert (Hout : found_ok (fuzzy_offsets index family lower limit offs out)).
  { apply fuzzy_offsets_ok; [|done..]. intros i Hi.
    destruct (bucket_nodes (λ n, [se_kind n]) l k i) as (n & Hn & ->%list_elem_of_singleton).
    { unfold index in Hget. cbn in Hget. by rewrite Hget. }
    exists n. split; [done|]. apply Hks. by left. }
  destruct (limit <=? _)%nat eqn:Hl; [done|]. apply IH; [done|]. by apply Nat.leb_gt in Hl.
Qed.
End Search.

(** A node has a name: exactly, qualified, as its tail, or, in a fuzzy search, inside. *)
Definition has_name (allow_fuzzy : bool) (name lower : str) (n : SemanticCandidateNode) : Prop :=
  se_serialized_name n = name ∨ se_qualified_name n = Some name ∨ lower ∈ tail_variants n ∨
  (allow_fuzzy = true ∧ contains_name n lower = true).
Lemma search_ok l kinds name lower language allow_fuzzy limit :
  (0 < limit)%nat →
  let found := nodes_for_name (from_nodes l) kinds name lower language allow_fuzzy limit in
  NoDup (se_id <$> found) ∧ (length found <= limit)%nat ∧
  Forall (suits l kinds (language_family_bucket <$> language) (has_name allow_fuzzy name lower)) found.
Proof.
  intros Hlimit. cbv zeta. unfold nodes_for_name. cbv zeta. set (family := language_family_bucket <$> language).
  set (good := has_name allow_fuzzy name lower).
  set (out0 := {| found_nodes := []; found_ids := ∅ |}).
  assert (H0 : found_ok l kinds family limit good out0).
  { split; cbn; [constructor|]. split; [set_solver|]. split; [constructor|lia]. }
  set (out1 := foldl _ out0 _). assert (H1 : found_ok l kinds family limit good out1).
  { apply push_all_ok; [|done]. intros i n Hi Hn. left.
    apply (bucket_nodes (λ n, [se_serialized_name n])) in Hi as (n' & Hn' & Hk%list_elem_of_singleton). congruence. }
  set (out2 := foldl _ out1 _). assert (H2 : found_ok l kinds family limit good out2).
  { apply push_all_ok; [|done]. intros i n Hi Hn. right. left.
    apply (bucket_nodes (λ n, match se_qualified_name n with Some q => [q] | None => [] end))
      in Hi as (n' & Hn' & Hk). assert (n' = n) as -> by congruence.
    destruct (se_qualified_name n); [by apply list_elem_of_singleton in Hk as ->|by apply elem_of_nil in Hk]. }
  set (out3 := foldl _ out2 _). assert (H3 : found_ok l kinds family limit good out3).
  { apply push_all_ok; [|done]. intros i n Hi Hn. right. right. left.
    apply (bucket_nodes tail_variants) in Hi as (n' & Hn' & Hk). congruence. }
  assert (H : found_ok l kinds family limit good
    (if allow_fuzzy && bool_decide (length (found_nodes out3) = 0%nat)
     then fuzzy_kinds (from_nodes l) family lower limit kinds out3 else out3)).
  { destruct (allow_fuzzy) eqn:Hf, (bool_decide_reflect (length (found_nodes out3) = 0%nat)); cbn [andb]; try done.
    apply fuzzy_kinds_ok; [done| |done|lia]. intros n Hn. right. right. right. by split. }
  destruct H as (Hnd & _ & Hall & Hlen). done.
Qed.

Lemma filter_fmap_NoDup {A B} (f : A → B) (p : A → bool) (l : list A) :
  NoDup (f <$> l) → NoDup (f <$> List.filter p l).
Proof.
  induction l as [|x l IH]; [done|]. cbn. intros [Hx Hnd]%NoDup_cons. destruct (p x); [|by apply IH].
  cbn. apply NoDup_cons. split; [|by apply IH]. intros (y & Hy & Hin)%list_elem_of_fmap. apply Hx.
  apply list_elem_of_fmap. exists y. split; [done|]. apply list_elem_of_In.
  by apply list_elem_of_In, List.filter_In in Hin as [? _].
Qed.

(** Call candidates: the semantic candidates of a call are at most three nodes of the
    index with distinct ids, of a callable kind of the request, of a language family
    compatible with the caller's, and with the called name as exact name, qualified name or
    tail.  Either all have the same-file confidence and are in the caller's file, or all
    have the global one and no node that was found is in that file. *)
Theorem call_candidates_sound l kinds name file_id language same_file global :
  let found := nodes_for_name (from_nodes l) kinds name (to_ascii_lowercase name) language false 3 in
  let candidates := resolve_call_candidates (from_nodes l) kinds name file_id language same_file global in
  NoDup (target_node_id <$> candidates) ∧ (length candidates <= 3)%nat ∧
  ((∀ c, c ∈ candidates → confidence c = same_file ∧ ∃ n, se_id n = target_node_id c ∧
       is_Some file_id ∧ se_file_node_id n = file_id ∧
       suits l kinds (language_family_bucket <$> language) (has_name false name (to_ascii_lowercase name)) n) ∨
   (∀ c, c ∈ candidates → confidence c = global ∧ ∃ n, se_id n = target_node_id c ∧
       (is_Some file_id → ∀ m, m ∈ found → se_file_node_id m ≠ file_id) ∧
       suits l kinds (language_family_bucket <$> language) (has_name false name (to_ascii_lowercase name)) n)).
Proof.
  intros found candidates. assert (Hlt : (0 < 3)%nat) by lia.
  destruct (search_ok l kinds name (to_ascii_lowercase name) language false 3 Hlt) as (Hnd & Hlen & Hall).
  fold found in Hnd, Hlen, Hall. rewrite Forall_forall in Hall.
  assert (Hids : ∀ ids conf, target_node_id <$> to_candidates ids conf = ids).
  { intros ids conf. unfold to_candidates. rewrite <-list_fmap_compose. apply list_fmap_id. }
  set (local := List.filter (λ node, bool_decide (se_file_node_id node = file_id)) found).
  assert (Hlocal : (∀ n, n ∈ local ↔ n ∈ found ∧ se_file_node_id n = file_id) ∧
    NoDup (se_id <$> local) ∧ (length local <= length found)%nat).
  { split; [|split].
    - intros n. unfold local. rewrite list_elem_of_In, List.filter_In, <-list_elem_of_In.
      by rewrite bool_decide_eq_true.
    - by apply filter_fmap_NoDup.
    - apply List.filter_length_le. }
  destruct Hlocal as (Hin & Hlnd & Hllen).
  assert (Hglobal : (is_Some file_id → local = []) →
    NoDup (target_node_id <$> to_candidates (se_id <$> found) global) ∧
    (length (to_candidates (se_id <$> found) global) <= 3)%nat ∧
    (∀ c, c ∈ to_candidates (se_id <$> found) global → confidence c = global ∧ ∃ n, se_id n = target_node_id c ∧
       (is_Some file_id → ∀ m, m ∈ found → se_file_node_id m ≠ file_id) ∧
       suits l kinds (language_family_bucket <$> language) (has_name false name (to_ascii_lowercase name)) n)).
  { intros Hempty. rewrite Hids. split; [done|]. split; [unfold to_candidates; by rewrite !length_fmap|].
    unfold to_candidates. intros c (id & -> & Hid)%list_elem_of_fmap. split; [done|].
    apply list_elem_of_fmap in Hid as (n & -> & Hn). exists n. split; [done|]. split; [|by apply Hall].
    intros Hf m Hm Hfile. assert (Hml : m ∈ local) by (by apply Hin). rewrite (Hempty Hf) in Hml.
    by apply elem_of_nil in Hml. }
  unfold candidates, resolve_call_candidates. fold found.
  destruct file_id as [file|]; [|destruct Hglobal as (?&?&?); [by intros [] |by eauto]]. fold local.
  assert (Hcases : local = [] ∨ match to_candidates (se_id <$> local) same_file with
    | [] => to_candidates (se_id <$> found) global
    | _ => to_candidates (se_id <$> local) same_file
    end = to_candidates (se_id <$> local) same_file) by (destruct local; [by left|by right]).
  destruct Hcases as [Hl| ->].
  { rewrite Hl. cbn. destruct Hglobal as (?&?&?); eauto. }
  rewrite Hids. split; [done|]. split; [unfold to_candidates; rewrite !length_fmap; lia|]. left.
  unfold to_candidates. intros c (id & -> & Hid)%list_elem_of_fmap. split; [done|].
  apply list_elem_of_fmap in Hid as (m & -> & Hm). apply Hin in Hm as [Hm Hf]. exists m.
  split; [done|]. split; [by eexists|]. split; [done|]. by apply Hall.
Qed.

(** ** A same-file call that is missed

    Only the first three nodes found are searched for one of the caller's file: a fourth
    node is never the same-file candidate, though the caller's file is known. *)
Definition go_node (id file : Z) : SemanticCandidateNode :=
  semantic_node id (node_kind_as_i32 NodeKind.FUNCTION) (lit "run") None (Some file) (Some (lit "go")).
Lemma fourth_same_file_missed :
  let candidates :=
    resolve_call_candidates (from_nodes [go_node 1 11; go_node 2 12; go_node 3 13; go_node 4 14])
      [node_kind_as_i32 NodeKind.FUNCTION] (lit "run") (Some 14) (Some (lit "go"))
      (f32_ratio 80 100) (f32_ratio 70 100) in
  target_node_id <$> candidates = [1; 2; 3].
Proof. by vm_compute. Qed.
