(* ===== verification/ResolveStore.v ===== *)
(** * The tables of the resolver and its SQL statements

    codestory-indexer/src/resolution/sql.rs, the statements of resolution/mod.rs and
    pipeline.rs: the node and edge tables as lists of rows, each statement as the function
    on rows that its text says.  [LIKE] ignores ASCII case and has [%] and [_]; [lower] is
    ASCII; a comparison with NULL does not hold; ORDER BY is a stable sort. *)
From S2P Require Import Prelude RustStr Graph Sorting StrOps Collections LanguageSupport ResolveText.
From S2P Require Import ResolveIndex ResolveSelect SemanticIndex.

Record NodeRow : Type := mkNodeRow {
  n_id : Z;
  n_kind : Z;
  n_serialized_name : str;
  n_qualified_name : option str;
  n_canonical_id : option str;
  n_file_node_id : option Z;
  n_start_line : option Z;
}.
Record EdgeRow : Type := mkEdgeRow {
  e_id : Z;
  e_kind : Z;
  e_source_node_id : Z;
  e_target_node_id : Z;
  e_file_node_id : option Z;
  e_resolved_source_node_id : option Z;
  e_resolved_target_node_id : option Z;
  e_confidence : option f32;
  e_certainty : option str;
  e_candidate_target_node_ids : option str;
  e_callsite_identity : option str;
}.
Record Db : Type := mkDb {
  node_table : list NodeRow;
  edge_table : list EdgeRow;
}.
Definition with_edges (edges : list EdgeRow) (db : Db) : Db :=
  {| node_table := node_table db; edge_table := edges |}.
(** The row of a primary key. *)
Definition node_by_id (db : Db) (id : Z) : option NodeRow :=
  List.find (λ n, n_id n =? id) (node_table db).

(** Updates of a row. *)
Definition set_source (source : option Z) (e : EdgeRow) : EdgeRow :=
  {| e_id := e_id e; e_kind := e_kind e; e_source_node_id := e_source_node_id e;
     e_target_node_id := e_target_node_id e; e_file_node_id := e_file_node_id e;
     e_resolved_source_node_id := source;
     e_resolved_target_node_id := e_resolved_target_node_id e; e_confidence := e_confidence e;
     e_certainty := e_certainty e; e_candidate_target_node_ids := e_candidate_target_node_ids e;
     e_callsite_identity := e_callsite_identity e |}.
Definition set_resolution (target : option Z) (confidence : option f32) (certainty : option str)
    (e : EdgeRow) : EdgeRow :=
  {| e_id := e_id e; e_kind := e_kind e; e_source_node_id := e_source_node_id e;
     e_target_node_id := e_target_node_id e; e_file_node_id := e_file_node_id e;
     e_resolved_source_node_id := e_resolved_source_node_id e;
     e_resolved_target_node_id := target; e_confidence := confidence; e_certainty := certainty;
     e_candidate_target_node_ids := e_candidate_target_node_ids e;
     e_callsite_identity := e_callsite_identity e |}.
Definition set_candidates (candidates : option str) (e : EdgeRow) : EdgeRow :=
  {| e_id := e_id e; e_kind := e_kind e; e_source_node_id := e_source_node_id e;
     e_target_node_id := e_target_node_id e; e_file_node_id := e_file_node_id e;
     e_resolved_source_node_id := e_resolved_source_node_id e;
     e_resolved_target_node_id := e_resolved_target_node_id e; e_confidence := e_confidence e;
     e_certainty := e_certainty e; e_candidate_target_node_ids := candidates;
     e_callsite_identity := e_callsite_identity e |}.

(** ** LIKE *)
Fixpoint like_chars (pat : str) (cs : list str) : bool :=
  match pat with
  | [] => match cs with [] => true | _ => false end
  | p :: pat =>
      if Ascii.eqb p "%"%char then
        (fix skip (cs : list str) : bool :=
           like_chars pat cs || match cs with [] => false | _ :: cs => skip cs end) cs
      else
        match cs with
        | [] => false
        | c :: cs =>
            (Ascii.eqb p "_"%char || str_eqb (to_ascii_lowercase [p]) (to_ascii_lowercase c))
            && like_chars pat cs
        end
  end.
Definition like (s pat : str) : bool := like_chars pat (chars s).
Definition endpoint_patterns : list str :=
  [lit "tauri:command:%"; lit "openapi:endpoint:%"; lit "route_endpoint:%";
   lit "payload:collection:%"].
(** Nodes that other passes link: their canonical id matches a pattern. *)
Definition is_endpoint (n : NodeRow) : bool :=
  match n_canonical_id n with
  | Some id => existsb (like id) endpoint_patterns
  | None => false
  end.

(** ** Scope *)
Inductive ScopeCallerContext : Type :=
| Unscoped
| ScopedCallers (caller_ids : list Z)
| EmptyScope.
Definition sorted_scope_file_ids (scope : option (gset Z)) : option (list Z) :=
  (λ s, sort_z (elements s)) <$> scope.
Definition prepare_scope (db : Db) (scope : option (gset Z)) : ScopeCallerContext :=
  match sorted_scope_file_ids scope with
  | None => Unscoped
  | Some [] => EmptyScope
  | Some ids =>
      ScopedCallers (n_id <$> List.filter (λ n,
        match n_file_node_id n with Some f => existsb (Z.eqb f) ids | None => false end)
        (node_table db))
  end.
Definition is_empty_scope (scope : ScopeCallerContext) : bool :=
  match scope with EmptyScope => true | _ => false end.
(** The restriction of a statement to the scoped callers. *)
Definition in_scope (scope : ScopeCallerContext) (source : Z) : bool :=
  match scope with ScopedCallers ids => existsb (Z.eqb source) ids | _ => true end.

Definition CALL : Z := edge_kind_as_i32 EdgeKind.CALL.
Definition IMPORT : Z := edge_kind_as_i32 EdgeKind.IMPORT.
Definition OVERRIDE : Z := edge_kind_as_i32 EdgeKind.OVERRIDE.
Definition is_kind (kind : Z) (e : EdgeRow) : bool := e_kind e =? kind.

(** ** Counting *)

(** [append_resolution_worklist_metadata_filter]: calls with metadata are not worked on. *)
Definition worklist_metadata_filter (kind : Z) (e : EdgeRow) : bool :=
  negb (kind =? CALL) || (is_none (e_confidence e) && is_none (e_certainty e)).
Definition count_unresolved_on_conn (db : Db) (kind : Z) (scope : ScopeCallerContext) : Z :=
  if is_empty_scope scope then 0
  else len (List.filter (λ e, is_kind kind e && in_scope scope (e_source_node_id e)
                          && is_none (e_resolved_target_node_id e) && worklist_metadata_filter kind e)
              (edge_table db)).

(** ** Preparing and cleaning *)
Definition prepare_row (kind : Z) (scope : ScopeCallerContext) (e : EdgeRow) : EdgeRow :=
  if is_kind kind e && is_none (e_resolved_source_node_id e) && in_scope scope (e_source_node_id e)
  then set_source (Some (e_source_node_id e)) e else e.
Definition target_is_endpoint (db : Db) (e : EdgeRow) : bool :=
  existsb (λ n, (n_id n =? e_target_node_id e) && is_endpoint n) (node_table db).
Definition target_is_common (db : Db) (e : EdgeRow) : bool :=
  existsb (λ n, (n_id n =? e_target_node_id e)
             && RetrievalData.one_of (to_ascii_lowercase (n_serialized_name n)) common_unqualified_call_names)
    (node_table db).
Definition clean_low_confidence (db : Db) (policy : ResolutionPolicy) (scope : ScopeCallerContext)
    (e : EdgeRow) : EdgeRow :=
  if is_kind CALL e
     && match e_confidence e with Some c => f32_lt c (min_call_confidence policy) | None => false end
     && negb (target_is_endpoint db e) && in_scope scope (e_source_node_id e)
  then set_resolution None None None e else e.
Definition clean_common_name (db : Db) (flags : ResolutionFlags) (scope : ScopeCallerContext)
    (e : EdgeRow) : EdgeRow :=
  if is_kind CALL e && negb (is_none (e_resolved_target_node_id e)) && target_is_common db e
     && (legacy_mode flags
         || match e_certainty e with Some c => negb (str_eqb c (certainty_as_str Certain)) | None => true end)
     && in_scope scope (e_source_node_id e)
  then set_resolution None None None e else e.
Definition cleanup_stale_call_resolutions (db : Db) (flags : ResolutionFlags)
    (policy : ResolutionPolicy) (scope : ScopeCallerContext) : Db :=
  if is_empty_scope scope then db
  else with_edges (clean_common_name db flags scope <$>
                     (clean_low_confidence db policy scope <$> edge_table db)) db.

(** ** The worklist *)
Definition edge_to_row (db : Db) (e : EdgeRow) : option UnresolvedEdgeRow :=
  caller ← node_by_id db (e_source_node_id e);
  target ← node_by_id db (e_target_node_id e);
  let file_id := option_or (n_file_node_id caller) (e_file_node_id e) in
  Some {| row_edge_id := e_id e; row_file_id := file_id;
          row_caller_qualified := n_qualified_name caller;
          row_source_name := n_serialized_name caller;
          row_target_name := n_serialized_name target; row_target_node_id := e_target_node_id e;
          row_caller_file_path := (file ← file_id; n_serialized_name <$> node_by_id db file);
          row_callsite_identity := e_callsite_identity e |}.
Definition in_worklist (db : Db) (kind : Z) (scope : ScopeCallerContext) (e : EdgeRow) : bool :=
  is_kind kind e && is_none (e_resolved_target_node_id e)
  && negb (match node_by_id db (e_target_node_id e) with Some n => is_endpoint n | None => false end)
  && worklist_metadata_filter kind e && in_scope scope (e_source_node_id e).
Definition edge_id_leb (a b : UnresolvedEdgeRow) : bool := row_edge_id a <=? row_edge_id b.
Definition unresolved_edges (db : Db) (kind : Z) (scope : ScopeCallerContext)
  : list UnresolvedEdgeRow :=
  if is_empty_scope scope then []
  else sort_by edge_id_leb
         (omap (edge_to_row db) (List.filter (in_worklist db kind scope) (edge_table db))).

(** ** Applying updates *)
Definition apply_staged (staged : ResolvedEdgeUpdate) (e : EdgeRow) : EdgeRow :=
  let e := if up_touch_metadata staged
           then set_resolution (up_resolved_target staged) (up_confidence staged)
                  (up_certainty staged) e
           else e in
  set_candidates (option_or (up_candidate_payload staged) (e_candidate_target_node_ids e)) e.
Definition apply_row (updates : list ResolvedEdgeUpdate) (e : EdgeRow) : EdgeRow :=
  match List.find (λ u, up_edge_id u =? e_id e) updates with
  | None => e
  | Some staged => apply_staged staged e
  end.
Definition apply_resolution_updates (updates : list ResolvedEdgeUpdate) (db : Db) : Db :=
  match updates with
  | [] => db
  | _ => with_edges (apply_row updates <$> edge_table db) db
  end.

(** ** Loading *)
Definition load_order (a b : NodeRow) : bool :=
  let line n := default i64_min (n_start_line n) in
  (line a <? line b) || ((line a =? line b) && (n_id a <=? n_id b)).
Definition rows_of_kinds (db : Db) (kinds : list Z) : list NodeRow :=
  sort_by load_order (List.filter (λ n, existsb (Z.eqb (n_kind n)) kinds) (node_table db)).
Definition file_path_of (db : Db) (n : NodeRow) : option str :=
  file ← n_file_node_id n; n_serialized_name <$> node_by_id db file.
Definition load_nodes (db : Db) (kinds : list Z) : list CandidateNode :=
  (λ n, candidate_node (n_id n) (n_file_node_id n) (file_path_of db n) (n_serialized_name n)
          (n_qualified_name n)) <$> rows_of_kinds db kinds.
Definition load_import_binding_node_ids (db : Db) : gset Z :=
  list_to_set (e_source_node_id <$> List.filter (is_kind IMPORT) (edge_table db)).
Definition load_with_import_bindings (db : Db) (kinds : list Z) : CandidateIndex :=
  from_primary_relative_and_import_bindings (load_nodes db kinds) []
    (load_import_binding_node_ids db).
Definition load_with_relative_import_kinds (db : Db) (kinds relative_import_kinds : list Z)
  : CandidateIndex :=
  from_primary_and_relative_nodes (load_nodes db kinds)
    (match relative_import_kinds with [] => [] | _ => load_nodes db relative_import_kinds end).
(** [SemanticCandidateIndex::load]; no kinds means all. *)
Definition load_semantic (db : Db) (kinds : list Z) : SemanticCandidateIndex :=
  let rows := match kinds with
              | [] => sort_by load_order (node_table db)
              | _ => rows_of_kinds db kinds
              end in
  from_nodes ((λ n, semantic_node (n_id n) (n_kind n) (n_serialized_name n) (n_qualified_name n)
                      (n_file_node_id n) (language_family_bucket <$> detect_language (file_path_of db n)))
              <$> rows).
Definition call_candidate_kinds : list Z :=
  node_kind_as_i32 <$> [NodeKind.FUNCTION; NodeKind.METHOD; NodeKind.MACRO].
Definition import_candidate_kinds : list Z :=
  node_kind_as_i32 <$> [NodeKind.MODULE; NodeKind.NAMESPACE; NodeKind.PACKAGE].
Definition semantic_candidate_kinds (edge_kind : EdgeKind) : list Z :=
  node_kind_as_i32 <$>
  match edge_kind with
  | EdgeKind.CALL => [NodeKind.FUNCTION; NodeKind.METHOD]
  | EdgeKind.IMPORT =>
      [NodeKind.MODULE; NodeKind.NAMESPACE; NodeKind.PACKAGE; NodeKind.CLASS; NodeKind.STRUCT;
       NodeKind.INTERFACE; NodeKind.ANNOTATION; NodeKind.UNION; NodeKind.ENUM; NodeKind.TYPEDEF;
       NodeKind.FUNCTION; NodeKind.METHOD]
  | _ => []
  end.
