(* ===== verification/ResolveOverrides.v ===== *)
(** * Overridden methods

    codestory-indexer/src/resolution/pipeline.rs ([collect_override_candidates],
    [resolve_overrides_on_conn]) and the [OverrideSupport] of resolution/mod.rs.  The rows
    of a query without ORDER BY come in table order.

    The second part: the walk over the ancestors. *)
From S2P Require Import Prelude RustStr Graph Sorting StrOps Collections ResolveText ResolveSelect ResolveStore.

(** ** Support *)
Record OverrideMemberSnapshot : Type := mkOverrideMemberSnapshot {
  om_owner_id : Z;
  om_owner_name : str;
  om_method_id : Z;
  om_method_name : str;
}.
Record OverrideSupport : Type := mkOverrideSupport {
  owner_by_method : list (Z * list Z);
  methods_by_owner_and_name : list (Z * str * list Z);
  owner_name_by_id : list (Z * str);
  methods_by_owner_name_and_name : list (str * str * list Z);
  inheritance_by_type : list (Z * list Z);
  inheritance_by_owner_name : list (str * list str);
}.
Definition from_snapshot (override_members : list OverrideMemberSnapshot)
    (override_inheritance : list (Z * Z)) (override_inheritance_by_name : list (str * str))
    (node_names : list (Z * str)) : OverrideSupport :=
  {| owner_by_method := hm_group ((λ m, (om_method_id m, om_owner_id m)) <$> override_members);
     methods_by_owner_and_name :=
       hm_group ((λ m, (om_owner_id m, om_method_name m, om_method_id m)) <$> override_members);
     owner_name_by_id :=
       foldl (λ names n, hm_or_insert names n.1 n.2)
         (foldl (λ names m, hm_or_insert names (om_owner_id m) (om_owner_name m)) [] override_members)
         node_names;
     methods_by_owner_name_and_name :=
       hm_group ((λ m, (om_owner_name m, om_method_name m, om_method_id m)) <$> override_members);
     inheritance_by_type := hm_group override_inheritance;
     inheritance_by_owner_name := hm_group override_inheritance_by_name |}.

Definition MEMBER : Z := edge_kind_as_i32 EdgeKind.MEMBER.
Definition INHERITANCE : Z := edge_kind_as_i32 EdgeKind.INHERITANCE.
Definition METHOD_KIND : Z := node_kind_as_i32 NodeKind.METHOD.
Definition load_override_member_rows (db : Db) : list OverrideMemberSnapshot :=
  omap (λ e,
      owner ← node_by_id db (e_source_node_id e);
      method ← node_by_id db (e_target_node_id e);
      if is_kind MEMBER e && (n_kind method =? METHOD_KIND)
      then Some {| om_owner_id := e_source_node_id e; om_owner_name := n_serialized_name owner;
                   om_method_id := e_target_node_id e;
                   om_method_name := short_member_name (n_serialized_name method) |}
      else None) (edge_table db).
(** The resolved parent, or the one the source names. *)
Definition inherited (e : EdgeRow) : Z := default (e_target_node_id e) (e_resolved_target_node_id e).
Definition load_override_inheritance_rows (db : Db) : list (Z * Z) :=
  (λ e, (e_source_node_id e, inherited e)) <$> List.filter (is_kind INHERITANCE) (edge_table db).
Definition load_override_inheritance_by_name_rows (db : Db) : list (str * str) :=
  omap (λ e,
      source ← node_by_id db (e_source_node_id e);
      target ← node_by_id db (inherited e);
      Some (n_serialized_name source, n_serialized_name target))
    (List.filter (is_kind INHERITANCE) (edge_table db)).
Definition load_node_name_rows (db : Db) : list (Z * str) :=
  (λ n, (n_id n, n_serialized_name n)) <$> node_table db.
Definition load_override_support (db : Db) : OverrideSupport :=
  from_snapshot (load_override_member_rows db) (load_override_inheritance_rows db)
    (load_override_inheritance_by_name_rows db) (load_node_name_rows db).

(** ** The walk over the ancestors *)
Section Walk.
Context {N : Type} `{EqDecision N}.

(** [None] is a walk that runs out of fuel. *)
Fixpoint walk (parents : list (N * list N)) (methods : N → list Z) (start : N) (fuel : nat)
    (pending visited : list N) (candidates : OrderedCandidateIds) : option OrderedCandidateIds :=
  match pending with
  | [] => Some candidates
  | current :: pending =>
      match fuel with
      | O => None
      | S fuel =>
          if decide (current ∈ visited) then walk parents methods start fuel pending visited candidates
          else
            let candidates :=
              if decide (current = start) then candidates
              else oc_extend_stage candidates (methods current) None in
            walk parents methods start fuel (pending ++ default [] (hm_get parents current))
              (current :: visited) candidates
      end
  end.
Definition walk_fuel (parents : list (N * list N)) : nat := S (length (mjoin (snd <$> parents))).
Definition ancestors_candidates (parents : list (N * list N)) (methods : N → list Z) (start : N)
  : list Z :=
  match walk parents methods start (walk_fuel parents) [start] [] no_candidates with
  | Some candidates => ordered candidates
  | None => []
  end.
End Walk.

Definition methods_of_owner (s : OverrideSupport) (method_name : str) (owner : Z) : list Z :=
  default [] (hm_get (methods_by_owner_and_name s) (owner, method_name))
  ++ match hm_get (owner_name_by_id s) owner with
     | Some owner_name => default [] (hm_get (methods_by_owner_name_and_name s) (owner_name, method_name))
     | None => []
     end.
Definition collect_override_candidates (s : OverrideSupport) (owner_id : Z) (method_name : str)
  : list Z :=
  ancestors_candidates (inheritance_by_type s) (methods_of_owner s method_name) owner_id.
Definition collect_override_candidates_by_owner_name (s : OverrideSupport)
    (owner_name method_name : str) : list Z :=
  ancestors_candidates (inheritance_by_owner_name s)
    (λ owner, default [] (hm_get (methods_by_owner_name_and_name s) (owner, method_name))) owner_name.

(** ** One override edge *)

(** The ids have a single name between them. *)
Definition same_name (s : OverrideSupport) (ids : list Z) : bool :=
  match omap (hm_get (owner_name_by_id s)) ids with
  | [] => false
  | name :: names => forallb (str_eqb name) names
  end.
(** Several candidates with one name: the smallest id. *)
Definition one_per_name (s : OverrideSupport) (ids sorted : list Z) : list Z :=
  match ids with
  | _ :: _ :: _ => if same_name s ids then take 1 sorted else ids
  | _ => ids
  end.
Definition override_update (flags : ResolutionFlags) (edge_id : Z) (candidates : list Z)
  : ResolvedEdgeUpdate * bool :=
  let selected := match candidates with [c] => Some (c, f32_of_Z 1) | _ => None end in
  (build_resolved_edge_update edge_id selected (if store_candidates flags then candidates else []),
   negb (is_none selected)).
Definition owner_of_method (s : OverrideSupport) (source_id : Z) : option Z :=
  owner_ids ← hm_get (owner_by_method s) source_id;
  match dedup (sort_z owner_ids) with
  | [owner] => Some owner
  | owner :: _ as ids => if same_name s ids then Some owner else None
  | [] => None
  end.
Definition resolve_override (flags : ResolutionFlags) (s : OverrideSupport)
    (edge_id source_id : Z) (source_name : str) : ResolvedEdgeUpdate * bool :=
  let method_name := short_member_name source_name in
  match owner_name_from_member_name source_name with
  | Some owner_name =>
      let ids := dedup (sort_z (collect_override_candidates_by_owner_name s owner_name method_name)) in
      override_update flags edge_id (one_per_name s ids ids)
  | None =>
      match owner_of_method s source_id with
      | None => (build_resolved_edge_update edge_id None [], false)
      | Some owner_id =>
          if owner_id =? 0 then (build_resolved_edge_update edge_id None [], false)
          else
            let ids := collect_override_candidates s owner_id method_name in
            override_update flags edge_id (one_per_name s ids (sort_z ids))
      end
  end.

(** ** The statements of the phase *)
Definition reset_override (scope : ScopeCallerContext) (e : EdgeRow) : EdgeRow :=
  if is_kind OVERRIDE e && in_scope scope (e_source_node_id e)
  then set_candidates None (set_resolution None None None (set_source (Some (e_source_node_id e)) e))
  else e.
Definition override_row (db : Db) (scope : ScopeCallerContext) (e : EdgeRow) : option (Z * Z * str) :=
  source ← node_by_id db (e_source_node_id e);
  if is_kind OVERRIDE e && is_none (e_resolved_target_node_id e) && in_scope scope (e_source_node_id e)
  then Some (e_id e, e_source_node_id e, n_serialized_name source) else None.
Definition row_id_leb (a b : Z * Z * str) : bool := a.1.1 <=? b.1.1.
Definition unresolved_override_edges (db : Db) (scope : ScopeCallerContext) : list (Z * Z * str) :=
  sort_by row_id_leb (omap (override_row db scope) (edge_table db)).

(** * The walk over the ancestors

    The walk ends within its fuel and collects the methods of every strict ancestor, and of
    nothing else, also when the inheritance has cycles. *)
Section WalkProofs.
Context {N : Type} `{EqDecision N} (parents : list (N * list N)) (methods : N → list Z) (start : N).

Definition parents_of (n : N) : list N := default [] (hm_get parents n).
Definition inherits (n p : N) : Prop := p ∈ parents_of n.

(** What is left to visit: the pending nodes and the parents of the unvisited ones. *)
Fixpoint edges_left (visited : list N) (m : list (N * list N)) : nat :=
  match m with
  | [] => 0
  | (k, ps) :: m => (if decide (k ∈ visited) then 0 else length ps) + edges_left visited m
  end.
Lemma edges_left_mono n visited m : (edges_left (n :: visited) m <= edges_left visited m)%nat.
Proof.
  induction m as [|[k ps] m IH]; [done|]. cbn [edges_left].
  destruct (decide (k ∈ visited)).
  - rewrite decide_True by (by right). lia.
  - destruct (decide (k ∈ n :: visited)); lia.
Qed.
Lemma edges_left_visit n visited m :
  n ∉ visited →
  (length (default [] (hm_get m n)) + edges_left (n :: visited) m <= edges_left visited m)%nat.
Proof.
  intros Hn. induction m as [|[k ps] m IH]; [done|]. cbn [edges_left hm_get].
  destruct (decide (k = n)) as [->|Hk].
  - rewrite decide_True by (by left). rewrite decide_False by done. simpl.
    pose proof (edges_left_mono n visited m). lia.
  - destruct (decide (k ∈ visited)).
    + rewrite decide_True by (by right). lia.
    + rewrite decide_False by (by intros [->|]%elem_of_cons). lia.
Qed.
Lemma edges_left_all m : edges_left [] m = length (mjoin (snd <$> m)).
Proof.
  induction m as [|[k ps] m IH]; [done|]. cbn [edges_left]. rewrite IH.
  rewrite decide_False by apply not_elem_of_nil. symmetry. apply length_app.
Qed.

(** The invariant of the walk. *)
Definition walked (pending visited : list N) (c : OrderedCandidateIds) : Prop :=
  (start ∈ pending ∨ start ∈ visited) ∧
  (∀ n, n ∈ pending ∨ n ∈ visited → rtc inherits start n) ∧
  (∀ n p, n ∈ visited → inherits n p → p ∈ pending ∨ p ∈ visited) ∧
  oc_ok c ∧
  (∀ x, x ∈ ordered c ↔ ∃ n, n ∈ visited ∧ n ≠ start ∧ x ∈ methods n).
Lemma walk_done visited c :
  walked [] visited c →
  NoDup (ordered c) ∧ ∀ x, x ∈ ordered c ↔ ∃ n, rtc inherits start n ∧ n ≠ start ∧ x ∈ methods n.
Proof.
  intros (Hs & Hr & Hclosed & [Hnd _] & Hc). split; [done|].
  assert (Hall : ∀ n, rtc inherits start n → n ∈ visited).
  { intros n Hn. apply (rtc_ind_r (R := inherits) (λ n, n ∈ visited) start); [|clear n Hn; intros n p _ Hp IH|exact Hn].
    - destruct Hs as [Hs|]; [by apply elem_of_nil in Hs|done].
    - destruct (Hclosed n p IH Hp) as [Hp'|]; [by apply elem_of_nil in Hp'|done]. }
  intros x. rewrite Hc. split; intros (n & Hn & Hne & Hx); exists n; (split; [|done]); auto.
Qed.
Lemma walk_collects fuel pending visited c :
  walked pending visited c →
  (length pending + edges_left visited parents <= fuel)%nat →
  ∃ c', walk parents methods start fuel pending visited c = Some c' ∧ NoDup (ordered c') ∧
    ∀ x, x ∈ ordered c' ↔ ∃ n, rtc inherits start n ∧ n ≠ start ∧ x ∈ methods n.
Proof.
  revert pending visited c. induction fuel as [|fuel IH]; intros [|current pending] visited c Hinv Hfuel;
    try (exists c; split; [done|]; by apply (walk_done visited)).
  - cbn in Hfuel. lia.
  - cbn [walk]. cbn in Hfuel. destruct (decide (current ∈ visited)) as [Hv|Hv].
    + apply IH; [|lia]. destruct Hinv as (Hs & Hr & Hclosed & Hok & Hc).
      split; [destruct Hs as [[->|]%elem_of_cons|]; auto|].
      split; [intros n [Hn|Hn]; apply Hr; [left; by right|by right]|].
      split; [|done]. intros n p Hn Hp. destruct (Hclosed n p Hn Hp) as [[->|]%elem_of_cons|]; auto.
    + pose proof (edges_left_visit current visited parents Hv) as Hleft.
      apply IH; [|rewrite length_app; unfold parents_of in *; lia].
      destruct Hinv as (Hs & Hr & Hclosed & Hok & Hc). fold (parents_of current).
      split; [|split; [|split; [|split]]].
      * destruct Hs as [[->|Hs]%elem_of_cons|Hs]; [right; by left|left; apply elem_of_app; by left|right; by right].
      * intros n [[Hn|Hn]%elem_of_app|[->|Hn]%elem_of_cons].
        { apply Hr. left. by right. }
        { eapply rtc_r; [|exact Hn]. apply Hr. left. by left. }
        { apply Hr. left. by left. }
        { apply Hr. by right. }
      * intros n p [->|Hn]%elem_of_cons Hp; [left; apply elem_of_app; by right|].
        destruct (Hclosed n p Hn Hp) as [[->|]%elem_of_cons|];
          [right; by left|left; apply elem_of_app; by left|right; by right].
      * destruct (decide (current = start)); [done|]. by apply oc_pushes_ok.
      * intros x. destruct (decide (current = start)) as [->|Hne].
        { rewrite Hc. split; intros (n & Hn & Hns & Hx); exists n; (split; [|done]); [by right|].
          by apply elem_of_cons in Hn as [->|]. }
        cbn [oc_extend_stage]. rewrite (oc_pushes_elem _ _ _ Hok), Hc. split.
        { intros [Hx|(n & Hn & Hns & Hx)]; [exists current; split; [by left|done]|].
          exists n. split; [by right|done]. }
        { intros (n & [->|Hn]%elem_of_cons & Hns & Hx); [by left|]. right. by exists n. }
Qed.

(** Overrides look at all strict ancestors: however the types inherit from each other,
    in cycles too, the walk from a type ends within its fuel (the number of inheritance
    entries plus one), and the candidates it returns are, without duplicates, exactly the
    methods of the types that are reached over one or more inheritance edges and are not
    the type itself. *)
Theorem override_walk_complete :
  is_Some (walk parents methods start (walk_fuel parents) [start] [] no_candidates) ∧
  NoDup (ancestors_candidates parents methods start) ∧
  ∀ x, x ∈ ancestors_candidates parents methods start ↔
    ∃ n, rtc inherits start n ∧ n ≠ start ∧ x ∈ methods n.
Proof.
  destruct (walk_collects (walk_fuel parents) [start] [] no_candidates) as (c & Hw & Hnd & Hc).
  - split; [left; by left|]. split.
    { intros n [->%list_elem_of_singleton|Hn]; [done|]. by apply elem_of_nil in Hn. }
    split; [intros n p Hn; by apply elem_of_nil in Hn|]. split; [eauto with resolver|].
    intros x. split; [intros Hx; by apply elem_of_nil in Hx|]. intros (n & Hn & _). by apply elem_of_nil in Hn.
  - rewrite edges_left_all. done.
  - unfold ancestors_candidates. rewrite Hw. split; [by eexists|done].
Qed.
End WalkProofs.
