(* ===== verification/ResolveSnapshot.v ===== *)
(** * The support of the resolver and its stored snapshot

    codestory-indexer/src/resolution/mod.rs: [PreparedResolutionState] as the tables give it,
    its snapshot and the state a snapshot gives back, the bounded writer of the JSON text;
    codestory-store/src/storage_impl/mod.rs: the row that holds the text.  A snapshot lists hash
    maps in the order their iterators happen to have; serde_json is an interface.

    The second part: a state that is read back is the state that was written, up to that order. *)
From S2P Require Import Prelude RustStr Graph Sorting StrOps Collections LanguageSupport ResolveText.
From S2P Require Import ResolveIndex ResolveSelect SemanticIndex ResolveStore ResolveOverrides.

(** ** The prepared state *)
Record PreparedResolutionState : Type := mkPreparedResolutionState {
  call_candidate_index : CandidateIndex;
  import_candidate_index : CandidateIndex;
  call_semantic_index : SemanticCandidateIndex;
  import_semantic_index : SemanticCandidateIndex;
  override_support : OverrideSupport;
}.
(** What the statements of [load] read when there is no snapshot to use. *)
Definition prepare_from_tables (flags : ResolutionFlags) (d : Db) : PreparedResolutionState :=
  {| call_candidate_index := load_with_import_bindings d call_candidate_kinds;
     import_candidate_index :=
       load_with_relative_import_kinds d import_candidate_kinds (semantic_candidate_kinds EdgeKind.IMPORT);
     call_semantic_index :=
       if enable_semantic flags then load_semantic d (semantic_candidate_kinds EdgeKind.CALL)
       else empty_semantic_index;
     import_semantic_index :=
       if enable_semantic flags then load_semantic d (semantic_candidate_kinds EdgeKind.IMPORT)
       else empty_semantic_index;
     override_support := load_override_support d |}.

(** ** Snapshots *)
Record ResolutionSupportSnapshot : Type := mkSupportSnapshot {
  sp_enable_semantic : bool;
  sp_call_candidates : list CandidateNodeSnapshot;
  sp_call_import_binding_node_ids : list Z;
  sp_import_candidates : list CandidateNodeSnapshot;
  sp_relative_import_candidates : list CandidateNodeSnapshot;
  sp_call_semantic_nodes : list SemanticCandidateNodeSnapshot;
  sp_import_semantic_nodes : list SemanticCandidateNodeSnapshot;
  sp_override_members : list OverrideMemberSnapshot;
  sp_override_inheritance : list (Z * Z);
  sp_override_inheritance_by_name : list (str * str);
  sp_node_names : list (Z * str);
}.
Definition override_member_rows `{HashOrder} (s : OverrideSupport) : list OverrideMemberSnapshot :=
  mjoin ((λ entry,
      let '(owner_id, method_name, method_ids) := entry in
      let owner_name := default [] (hm_get (owner_name_by_id s) owner_id) in
      (λ method_id, {| om_owner_id := owner_id; om_owner_name := owner_name;
                       om_method_id := method_id; om_method_name := method_name |}) <$> method_ids)
    <$> hash_order (methods_by_owner_and_name s)).
(** The rows of a map to vectors. *)
Definition grouped_rows `{HashOrder} {K V} (m : list (K * list V)) : list (K * V) :=
  mjoin ((λ entry, pair entry.1 <$> entry.2) <$> hash_order m).
Definition override_inheritance_rows `{HashOrder} (s : OverrideSupport) : list (Z * Z) :=
  grouped_rows (inheritance_by_type s).
Definition override_inheritance_by_name_rows `{HashOrder} (s : OverrideSupport) : list (str * str) :=
  grouped_rows (inheritance_by_owner_name s).
Definition node_name_rows `{HashOrder} (s : OverrideSupport) : list (Z * str) :=
  hash_order (owner_name_by_id s).
Definition snapshot `{HashOrder} (flags : ResolutionFlags) (prepared : PreparedResolutionState)
  : ResolutionSupportSnapshot :=
  {| sp_enable_semantic := enable_semantic flags;
     sp_call_candidates := snapshot_nodes (call_candidate_index prepared);
     sp_call_import_binding_node_ids := import_binding_node_id_list (call_candidate_index prepared);
     sp_import_candidates := snapshot_nodes (import_candidate_index prepared);
     sp_relative_import_candidates := snapshot_relative_import_nodes (import_candidate_index prepared);
     sp_call_semantic_nodes := semantic_snapshot_nodes (call_semantic_index prepared);
     sp_import_semantic_nodes := semantic_snapshot_nodes (import_semantic_index prepared);
     sp_override_members := override_member_rows (override_support prepared);
     sp_override_inheritance := override_inheritance_rows (override_support prepared);
     sp_override_inheritance_by_name := override_inheritance_by_name_rows (override_support prepared);
     sp_node_names := node_name_rows (override_support prepared) |}.
Definition prepared_from_snapshot (s : ResolutionSupportSnapshot) (flags : ResolutionFlags)
  : PreparedResolutionState :=
  {| call_candidate_index :=
       from_snapshot_nodes_with_import_bindings (sp_call_candidates s) (sp_call_import_binding_node_ids s);
     import_candidate_index :=
       from_snapshot_nodes_with_relative (sp_import_candidates s) (sp_relative_import_candidates s);
     call_semantic_index :=
       if enable_semantic flags then semantic_from_snapshot_nodes (sp_call_semantic_nodes s)
       else empty_semantic_index;
     import_semantic_index :=
       if enable_semantic flags then semantic_from_snapshot_nodes (sp_import_semantic_nodes s)
       else empty_semantic_index;
     override_support :=
       from_snapshot (sp_override_members s) (sp_override_inheritance s)
         (sp_override_inheritance_by_name s) (sp_node_names s) |}.

(** ** The text of a snapshot

    [to_writer] hands the text to a writer in pieces. *)
Class SupportJson : Type := {
  snapshot_pieces : ResolutionSupportSnapshot → list str;
  snapshot_from_json : str → result str ResolutionSupportSnapshot;
}.
Record SnapshotCapacityExceeded : Type := mkCapacityExceeded {
  limit_bytes : Z;
  attempted_bytes : Z;
}.
Record BoundedWriter : Type := mkBoundedWriter {
  inner : str;
  bw_limit_bytes : Z;
  written_bytes : Z;
  capacity_exceeded : option SnapshotCapacityExceeded;
}.
Definition new_bounded_writer (limit : Z) : BoundedWriter := mkBoundedWriter [] limit 0 None.
(** One write: whether it is accepted. *)
Definition bounded_write (w : BoundedWriter) (bytes : str) : bool * BoundedWriter :=
  let attempted := saturating_add usize_max (written_bytes w) (len bytes) in
  if bw_limit_bytes w <? attempted then
    (false, mkBoundedWriter (inner w) (bw_limit_bytes w) (written_bytes w)
              (Some (mkCapacityExceeded (bw_limit_bytes w) attempted)))
  else (true, mkBoundedWriter (inner w ++ bytes) (bw_limit_bytes w) attempted (capacity_exceeded w)).
Fixpoint to_writer (w : BoundedWriter) (pieces : list str) : bool * BoundedWriter :=
  match pieces with
  | [] => (true, w)
  | bytes :: pieces =>
      let '(accepted, w) := bounded_write w bytes in
      if accepted then to_writer w pieces else (false, w)
  end.
Inductive SnapshotSerialization : Type :=
| Complete (snapshot_blob : str)
| Oversized (exceeded : SnapshotCapacityExceeded).
(** The first pass only counts. *)
Definition measure (pieces : list str) (limit : Z) : result str (option SnapshotCapacityExceeded) :=
  let '(accepted, counter) := to_writer (new_bounded_writer limit) pieces in
  if accepted then Ok None
  else match capacity_exceeded counter with
       | Some exceeded => Ok (Some exceeded)
       | None => Err (lit "serialize")
       end.
Definition write_measured (pieces : list str) (limit : Z) : result str SnapshotSerialization :=
  let '(accepted, writer) := to_writer (new_bounded_writer limit) pieces in
  if accepted then Ok (Complete (inner writer))
  else Err (lit "resolution support snapshot changed size between bounded measurement and serialization").

(** ** The stored row *)
Inductive SnapshotState : Type := Dirty | Building | Ready.
#[export] Instance SnapshotState_eq_dec : EqDecision SnapshotState.
Proof. solve_decision. Defined.
Record SupportRow : Type := mkSupportRow {
  sr_snapshot_version : Z;
  sr_state : SnapshotState;
  sr_snapshot_blob : option str;
}.
Definition RESOLUTION_SUPPORT_SNAPSHOT_VERSION : Z := 4.
(** The table has one row or none. *)
Definition stored_blob (snapshot_version : Z) (table : option SupportRow) : option str :=
  row ← table;
  if (sr_snapshot_version row =? snapshot_version) && bool_decide (sr_state row = Ready)
  then sr_snapshot_blob row else None.
Definition ready_row (snapshot_version : Z) (blob : str) : option SupportRow :=
  Some (mkSupportRow snapshot_version Ready (Some blob)).
Definition invalidate_row (table : option SupportRow) : option SupportRow :=
  Some (mkSupportRow (match table with Some row => sr_snapshot_version row | None => 0 end) Dirty None).

(** * A state read back

    Two supports are alike when their maps hold the same entries; the walk over the ancestors
    and the choice for an override edge cannot tell them apart, except that recorded candidates
    may come in another order. *)
Record support_like (s s' : OverrideSupport) : Prop := {
  like_owners : ∀ method owner,
    owner ∈ default [] (hm_get (owner_by_method s) method) ↔ owner ∈ default [] (hm_get (owner_by_method s') method);
  like_methods : ∀ key method,
    method ∈ default [] (hm_get (methods_by_owner_and_name s) key) ↔
    method ∈ default [] (hm_get (methods_by_owner_and_name s') key);
  like_names : ∀ id, hm_get (owner_name_by_id s) id = hm_get (owner_name_by_id s') id;
  like_named_methods : ∀ key method,
    method ∈ default [] (hm_get (methods_by_owner_name_and_name s) key) ↔
    method ∈ default [] (hm_get (methods_by_owner_name_and_name s') key);
  like_inheritance : ∀ n p, inherits (inheritance_by_type s) n p ↔ inherits (inheritance_by_type s') n p;
  like_named_inheritance : ∀ n p,
    inherits (inheritance_by_owner_name s) n p ↔ inherits (inheritance_by_owner_name s') n p;
}.
#[export] Instance support_like_equivalence : Equivalence support_like.
Proof.
  split.
  - by split.
  - intros s s' []. by split; intros; symmetry.
  - intros s s' s'' [] []. split; intros; etrans; eauto.
Qed.
Record prepared_like (p p' : PreparedResolutionState) : Prop := {
  like_calls : call_candidate_index p = call_candidate_index p';
  like_imports : import_candidate_index p = import_candidate_index p';
  like_call_semantic : call_semantic_index p = call_semantic_index p';
  like_import_semantic : import_semantic_index p = import_semantic_index p';
  like_support : support_like (override_support p) (override_support p');
}.
#[export] Instance prepared_like_equivalence : Equivalence prepared_like.
Proof.
  split.
  - by split.
  - intros p p' []. by split.
  - intros p p' p'' [] []. split; etrans; eauto.
Qed.

(** ** Reading a snapshot *)
Lemma or_inserts_get {K V} `{EqDecision K} (l : list (K * V)) : ∀ m k,
  hm_get (foldl (λ m n, hm_or_insert m n.1 n.2) m l) k =
  match hm_get m k with Some v => Some v | None => hm_get l k end.
Proof.
  induction l as [|[a v] l IH]; intros m k; cbn [foldl hm_get fst snd]; [by destruct (hm_get m k)|].
  rewrite IH, hm_get_or_insert. destruct (hm_get m k); [done|]. by destruct (decide (a = k)).
Qed.
Lemma or_inserts_keys {K V} `{EqDecision K} (l : list (K * V)) : ∀ m,
  NoDup m.*1 → NoDup (foldl (λ m n, hm_or_insert m n.1 n.2) m l).*1.
Proof.
  induction l as [|[a v] l IH]; intros m Hm; [done|]. apply IH. cbn. unfold hm_or_insert.
  destruct (hm_get m a); [done|]. rewrite hm_insert_keys. case_decide; [done|]. apply NoDup_app.
  split_and!; [done| |apply NoDup_singleton]. intros k Hk. by intros ->%list_elem_of_singleton.
Qed.
Definition member_names (members : list OverrideMemberSnapshot) : list (Z * str) :=
  (λ m, (om_owner_id m, om_owner_name m)) <$> members.
Lemma names_of_support members inheritance named names :
  owner_name_by_id (from_snapshot members inheritance named names) =
  foldl (λ m n, hm_or_insert m n.1 n.2) (foldl (λ m n, hm_or_insert m n.1 n.2) [] (member_names members)) names.
Proof. unfold member_names. by rewrite foldl_fmap. Qed.
Lemma hm_get_some_elem {K V} `{EqDecision K} (l : list (K * V)) k v : hm_get l k = Some v → (k, v) ∈ l.
Proof.
  induction l as [|[a w] l IH]; cbn; [done|]. destruct (decide (a = k)) as [->|]; [intros [= ->]; by left|].
  intros H. right. by apply IH.
Qed.
Lemma hm_get_hash_order `{HashOrder} {K V} `{EqDecision K} (m : list (K * V)) k :
  NoDup m.*1 → hm_get (hash_order m) k = hm_get m k.
Proof.
  intros Hm. assert (NoDup (hash_order m).*1) as Hm' by by rewrite hash_order_perm.
  apply option_eq. intros v. by rewrite <-!hm_get_elem, elem_of_hash_order by done.
Qed.
Lemma grouped_rows_elem `{HashOrder} {K V} `{EqDecision K} (pairs : list (K * V)) k v :
  (k, v) ∈ grouped_rows (hm_group pairs) ↔ (k, v) ∈ pairs.
Proof.
  rewrite <-(hm_group_entry pairs). unfold grouped_rows. rewrite list_elem_of_join. split.
  - intros (l & Hv & ([k' vs] & -> & Hin)%list_elem_of_fmap).
    rewrite elem_of_hash_order in Hin. apply list_elem_of_fmap in Hv as (? & [= -> ->] & Hv). cbn in *. exists vs. split; [exact Hin|exact Hv].
  - intros (vs & Hin & Hv). exists (pair k <$> vs). split; [by apply list_elem_of_fmap; eexists|].
    apply list_elem_of_fmap. exists (k, vs). by rewrite elem_of_hash_order.
Qed.

Section ReadBack.
Context `{HashOrder} (members : list OverrideMemberSnapshot) (inheritance : list (Z * Z)).
Context (named : list (str * str)) (names : list (Z * str)).
Let s0 : OverrideSupport := from_snapshot members inheritance named names.
(** A member carries the name its owner has in the map. *)
Hypothesis members_named : ∀ m, m ∈ members → hm_get (owner_name_by_id s0) (om_owner_id m) = Some (om_owner_name m).

Lemma member_rows_elem m : m ∈ override_member_rows s0 ↔ m ∈ members.
Proof.
  unfold override_member_rows. rewrite list_elem_of_join.
  set (pairs := (λ m, (om_owner_id m, om_method_name m, om_method_id m)) <$> members).
  assert (Hrow : ∀ o n i, (∃ vs, (o, n, vs) ∈ hash_order (methods_by_owner_and_name s0) ∧ i ∈ vs) ↔
      ∃ m, m ∈ members ∧ om_owner_id m = o ∧ om_method_name m = n ∧ om_method_id m = i).
  { intros o n i. setoid_rewrite elem_of_hash_order. change (methods_by_owner_and_name s0) with (hm_group pairs).
    rewrite (hm_group_entry pairs (o, n) i).
    unfold pairs. rewrite list_elem_of_fmap. split.
    - intros (m' & [= -> -> ->] & Hm). by exists m'.
    - intros (m' & Hm & <- & <- & <-). by exists m'. }
  split.
  - intros (l & Hin & ([[o n] vs] & -> & Hent)%list_elem_of_fmap).
    apply list_elem_of_fmap in Hin as (i & -> & Hi).
    destruct (proj1 (Hrow o n i)) as (m' & Hm & <- & <- & <-); [by exists vs|].
    rewrite (members_named m' Hm). by destruct m'.
  - intros Hm. destruct (proj2 (Hrow (om_owner_id m) (om_method_name m) (om_method_id m))) as (vs & Hent & Hi);
      [by exists m|].
    eexists. split; [|apply list_elem_of_fmap; eexists; split; [reflexivity|exact Hent]].
    apply list_elem_of_fmap. exists (om_method_id m). split; [|done]. rewrite (members_named m Hm). by destruct m.
Qed.
Lemma names_keys : NoDup (owner_name_by_id s0).*1.
Proof.
  unfold s0. rewrite names_of_support. apply or_inserts_keys, or_inserts_keys. constructor.
Qed.
Lemma read_back_like :
  support_like (from_snapshot (override_member_rows s0) (override_inheritance_rows s0)
    (override_inheritance_by_name_rows s0) (node_name_rows s0)) s0.
Proof.
  assert (Hmap : ∀ {B} (f : OverrideMemberSnapshot → B) x, x ∈ f <$> override_member_rows s0 ↔ x ∈ f <$> members).
  { intros B f x. rewrite !list_elem_of_fmap. by setoid_rewrite member_rows_elem. }
  split; cbn.
  - intros method owner. by rewrite !hm_get_group_elem, Hmap.
  - intros key method. by rewrite !hm_get_group_elem, Hmap.
  - intros id. change (hm_get (owner_name_by_id (from_snapshot (override_member_rows s0) (override_inheritance_rows s0)
      (override_inheritance_by_name_rows s0) (node_name_rows s0))) id = hm_get (owner_name_by_id s0) id).
    rewrite names_of_support, or_inserts_get, or_inserts_get. cbn [hm_get].
    destruct (hm_get (member_names (override_member_rows s0)) id) as [name|] eqn:Hn.
    + apply hm_get_some_elem, list_elem_of_fmap in Hn as (m & [= -> ->] & Hm%member_rows_elem).
      symmetry. by apply members_named.
    + unfold node_name_rows. rewrite hm_get_hash_order by apply names_keys. done.
  - intros key method. by rewrite !hm_get_group_elem, Hmap.
  - intros n p. unfold inherits, parents_of, override_inheritance_rows.
    change (inheritance_by_type s0) with (hm_group inheritance). by rewrite !hm_get_group_elem, grouped_rows_elem.
  - intros n p. unfold inherits, parents_of, override_inheritance_by_name_rows.
    change (inheritance_by_owner_name s0) with (hm_group named). by rewrite !hm_get_group_elem, grouped_rows_elem.
Qed.
End ReadBack.

Lemma loaded_members_named d m :
  m ∈ load_override_member_rows d →
  hm_get (owner_name_by_id (load_override_support d)) (om_owner_id m) = Some (om_owner_name m).
Proof.
  assert (Hnode : ∀ m, m ∈ load_override_member_rows d →
    n_serialized_name <$> node_by_id d (om_owner_id m) = Some (om_owner_name m)).
  { intros m' (e & _ & He)%list_elem_of_omap.
    destruct (node_by_id d (e_source_node_id e)) as [owner|] eqn:Ho; [|done]. cbn in He.
    destruct (node_by_id d (e_target_node_id e)) as [method|]; [|done]. cbn in He.
    destruct (_ && _); [|done]. injection He as <-. cbn. by rewrite Ho. }
  intros Hm. unfold load_override_support. rewrite names_of_support, or_inserts_get, or_inserts_get. cbn [hm_get].
  destruct (hm_get (member_names (load_override_member_rows d)) (om_owner_id m)) as [name|] eqn:Hn.
  - apply hm_get_some_elem, list_elem_of_fmap in Hn as (m' & [= Hid ->] & Hm').
    apply Hnode in Hm, Hm'. rewrite <-Hid in Hm'. congruence.
  - exfalso. clear Hnode. induction (load_override_member_rows d) as [|m' ms IH]; [by apply elem_of_nil in Hm|].
    cbn in Hn. destruct (decide (om_owner_id m' = om_owner_id m)) as [|Hne]; [done|].
    apply elem_of_cons in Hm as [->|Hm]; auto.
Qed.

Lemma binding_list_set (X : gset Z) : list_to_set (sort_z (elements X)) = X.
Proof. apply set_eq. intros x. by rewrite elem_of_list_to_set, sort_z_perm, elem_of_elements. Qed.
Lemma loaded_nodes_back d kinds : candidate_nodes_from_snapshots (snapshot_node <$> load_nodes d kinds) = load_nodes d kinds.
Proof. unfold candidate_nodes_from_snapshots, load_nodes. rewrite <-!list_fmap_compose. done. Qed.
Lemma loaded_semantic_back d kinds :
  semantic_from_snapshot_nodes (semantic_snapshot_nodes (load_semantic d kinds)) = load_semantic d kinds.
Proof.
  unfold semantic_from_snapshot_nodes, semantic_snapshot_nodes, load_semantic. cbn [se_nodes from_nodes].
  f_equal. rewrite <-!list_fmap_compose. done.
Qed.
(** The snapshot of what the tables give, written in any order, gives it back. *)
Lemma snapshot_like `{HashOrder} flags flags' d :
  enable_semantic flags = enable_semantic flags' →
  prepared_like (prepared_from_snapshot (snapshot flags (prepare_from_tables flags d)) flags')
    (prepare_from_tables flags' d).
Proof.
  intros Hs. split.
  - cbn. unfold from_snapshot_nodes_with_import_bindings, load_with_import_bindings, snapshot_nodes,
      import_binding_node_id_list. cbn. by rewrite loaded_nodes_back, binding_list_set.
  - cbn [import_candidate_index prepared_from_snapshot prepare_from_tables sp_import_candidates
      sp_relative_import_candidates snapshot].
    unfold from_snapshot_nodes_with_relative, load_with_relative_import_kinds, snapshot_nodes,
      snapshot_relative_import_nodes, from_primary_and_relative_nodes, from_primary_relative_and_import_bindings.
    cbn [nodes relative_import_nodes]. rewrite loaded_nodes_back.
    destruct (semantic_candidate_kinds EdgeKind.IMPORT) as [|k ks]; cbv beta iota.
    + rewrite loaded_nodes_back. by destruct (load_nodes d import_candidate_kinds).
    + destruct (load_nodes d (k :: ks)) as [|n ns] eqn:Hn.
      * rewrite loaded_nodes_back. by destruct (load_nodes d import_candidate_kinds).
      * rewrite <-Hn, loaded_nodes_back. by rewrite Hn.
  - cbn. rewrite <-Hs. destruct (enable_semantic flags); [apply loaded_semantic_back|done].
  - cbn. rewrite <-Hs. destruct (enable_semantic flags); [apply loaded_semantic_back|done].
  - apply read_back_like, loaded_members_named.
Qed.

(** ** Alike supports choose alike *)
Lemma strictly_sorted_nodup (l : list Z) : StronglySorted Z.lt l → NoDup l.
Proof.
  induction 1 as [|a l _ IH Ha]; constructor; [|done]. rewrite Forall_forall in Ha.
  intros Hin%Ha. lia.
Qed.
Lemma sorted_set_eq (l l' : list Z) : (∀ x, x ∈ l ↔ x ∈ l') → dedup (sort_z l) = dedup (sort_z l').
Proof.
  intros Hl. pose proof (dedup_sorted _ (sort_z_sorted l)) as H1. pose proof (dedup_sorted _ (sort_z_sorted l')) as H2.
  apply (StronglySorted_unique_strong Z.lt); [intros x y _ _; lia|exact H1|exact H2|].
  apply NoDup_Permutation; [by apply strictly_sorted_nodup..|].
  intros x. by rewrite !dedup_elem, !sort_z_perm.
Qed.
Lemma sort_z_perm_eq (l l' : list Z) : l ≡ₚ l' → sort_z l = sort_z l'.
Proof.
  intros Hl. apply (StronglySorted_unique Z.le); [apply sort_z_sorted..|]. by rewrite !sort_z_perm.
Qed.
Lemma ancestors_like {N} `{EqDecision N} (parents parents' : list (N * list N)) methods methods' start :
  (∀ n p, inherits parents n p ↔ inherits parents' n p) → (∀ n m, m ∈ methods n ↔ m ∈ methods' n) →
  ancestors_candidates parents methods start ≡ₚ ancestors_candidates parents' methods' start.
Proof.
  intros Hp Hm. destruct (override_walk_complete parents methods start) as (_ & Hnd & Hin).
  destruct (override_walk_complete parents' methods' start) as (_ & Hnd' & Hin').
  apply NoDup_Permutation; [done..|]. intros x. rewrite Hin, Hin'.
  assert (Hr : ∀ n, rtc (inherits parents) start n ↔ rtc (inherits parents') start n).
  { intros n. split; apply rtc_subrel; intros a b; apply Hp. }
  by setoid_rewrite Hr; setoid_rewrite Hm.
Qed.
Lemma same_name_spec s ids :
  same_name s ids = true ↔
  ∃ name, (∃ id, id ∈ ids ∧ hm_get (owner_name_by_id s) id = Some name) ∧
    ∀ id n, id ∈ ids → hm_get (owner_name_by_id s) id = Some n → n = name.
Proof.
  unfold same_name. set (get := hm_get (owner_name_by_id s)).
  assert (Hin : ∀ n, n ∈ omap get ids ↔ ∃ id, id ∈ ids ∧ get id = Some n) by (intros n; apply list_elem_of_omap).
  destruct (omap get ids) as [|name names].
  - split; [done|]. intros (name & Hname & _). apply Hin in Hname. by apply elem_of_nil in Hname.
  - rewrite forallb_forall. split.
    + intros Hall. exists name. split; [apply Hin; by left|]. intros id n Hid Hn.
      assert (n ∈ name :: names) as [->|Hn']%elem_of_cons by (apply Hin; by exists id); [done|].
      symmetry. by apply str_eqb_eq, Hall, list_elem_of_In.
    + intros (name' & _ & Hall) n Hn%list_elem_of_In.
      assert (Hname : ∀ n, n ∈ name :: names → n = name').
      { intros n' (id & Hid & Hget)%Hin. by eapply Hall. }
      apply str_eqb_eq. rewrite (Hname name), (Hname n); [done|by right|by left].
Qed.
Lemma same_name_like s s' ids ids' :
  support_like s s' → ids ≡ₚ ids' → same_name s ids = same_name s' ids'.
Proof.
  intros Hs Hi. apply eq_true_iff_eq. rewrite !same_name_spec. setoid_rewrite Hi.
  by setoid_rewrite (like_names _ _ Hs).
Qed.
Lemma one_per_name_like s s' ids ids' :
  support_like s s' → ids ≡ₚ ids' → one_per_name s ids (sort_z ids) ≡ₚ one_per_name s' ids' (sort_z ids').
Proof.
  intros Hs Hi. rewrite (sort_z_perm_eq _ _ Hi). pose proof (same_name_like _ _ _ _ Hs Hi) as Hn.
  pose proof (Permutation_length Hi) as Hl.
  destruct ids as [|a [|b ids]], ids' as [|a' [|b' ids']]; cbn in Hl; try done; unfold one_per_name.
  rewrite Hn. by destruct (same_name s' _).
Qed.
Lemma owner_of_method_like s s' id : support_like s s' → owner_of_method s id = owner_of_method s' id.
Proof.
  intros Hs.
  assert (Hform : ∀ s, owner_of_method s id =
    match dedup (sort_z (default [] (hm_get (owner_by_method s) id))) with
    | [owner] => Some owner
    | owner :: _ as ids => if same_name s ids then Some owner else None
    | [] => None
    end).
  { intros s0. unfold owner_of_method. by destruct (hm_get (owner_by_method s0) id). }
  rewrite !Hform, (sorted_set_eq _ _ (like_owners _ _ Hs id)).
  destruct (dedup _) as [|o [|o' os]]; [done..|]. by rewrite (same_name_like _ _ _ _ Hs (Permutation_refl _)).
Qed.

(** Updates that differ at most in the order of the recorded candidates. *)
Definition update_like (u u' : ResolvedEdgeUpdate) : Prop :=
  up_edge_id u = up_edge_id u' ∧ up_resolved_target u = up_resolved_target u' ∧
  up_confidence u = up_confidence u' ∧ up_certainty u = up_certainty u' ∧
  up_touch_metadata u = up_touch_metadata u' ∧
  ∃ ids ids', ids ≡ₚ ids' ∧ up_candidate_payload u = candidate_json ids ∧ up_candidate_payload u' = candidate_json ids'.
Lemma override_update_like flags id ids ids' :
  ids ≡ₚ ids' → update_like (override_update flags id ids).1 (override_update flags id ids').1.
Proof.
  intros Hi. unfold override_update. pose proof (Permutation_length Hi) as Hl.
  destruct ids as [|a [|b ids]], ids' as [|a' [|b' ids']]; cbn in Hl; try done.
  - split_and!; try done. exists [], []. by destruct (store_candidates flags).
  - apply Permutation_singleton_inj in Hi as ->. split_and!; try done.
    exists (if store_candidates flags then [a'] else []), (if store_candidates flags then [a'] else []).
    by destruct (store_candidates flags).
  - split_and!; try done.
    exists (if store_candidates flags then a :: b :: ids else []), (if store_candidates flags then a' :: b' :: ids' else []).
    by destruct (store_candidates flags).
Qed.
Lemma resolve_override_like flags s s' edge_id source_id source_name :
  support_like s s' →
  update_like (resolve_override flags s edge_id source_id source_name).1
    (resolve_override flags s' edge_id source_id source_name).1.
Proof.
  intros Hs. unfold resolve_override. cbv zeta. destruct (owner_name_from_member_name source_name) as [owner|].
  - apply override_update_like. unfold collect_override_candidates_by_owner_name.
    set (l := ancestors_candidates _ _ _). set (l' := ancestors_candidates _ _ _).
    assert (dedup (sort_z l) = dedup (sort_z l')) as ->.
    { apply sorted_set_eq. intros x. unfold l, l'. rewrite (ancestors_like _ (inheritance_by_owner_name s') _
        (λ owner, default [] (hm_get (methods_by_owner_name_and_name s') (owner, short_member_name source_name))));
        [done|apply Hs|]. intros n m. apply Hs. }
    set (ids := dedup (sort_z l')). unfold one_per_name.
    destruct ids as [|a [|b ids']]; [done..|]. by rewrite (same_name_like _ _ _ _ Hs (Permutation_refl _)).
  - rewrite (owner_of_method_like _ _ _ Hs). destruct (owner_of_method s' source_id) as [owner|].
    2:{ split_and!; try done. by exists [], []. }
    destruct (owner =? 0); [split_and!; try done; by exists [], []|].
    apply override_update_like, one_per_name_like; [done|]. apply ancestors_like; [apply Hs|].
    intros n m. unfold methods_of_owner. rewrite !elem_of_app, (like_methods _ _ Hs), (like_names _ _ Hs).
    destruct (hm_get (owner_name_by_id s') n); [|done]. by rewrite (like_named_methods _ _ Hs).
Qed.
Lemma override_payload_none flags s edge_id source_id source_name :
  store_candidates flags = false →
  up_candidate_payload (resolve_override flags s edge_id source_id source_name).1 = None.
Proof.
  intros Hs. assert (Hu : ∀ ids, up_candidate_payload (override_update flags edge_id ids).1 = None).
  { intros ids. unfold override_update. rewrite Hs. by destruct ids as [|? []]. }
  unfold resolve_override. cbv zeta. destruct (owner_name_from_member_name _); [apply Hu|].
  destruct (owner_of_method _ _) as [owner|]; [|done]. destruct (owner =? 0); [done|apply Hu].
Qed.

(** ** The text that is written *)
Lemma to_writer_spec pieces : ∀ w,
  match to_writer w pieces with
  | (true, w') => inner w' = inner w ++ mjoin pieces
  | (false, w') => is_Some (capacity_exceeded w')
  end.
Proof.
  induction pieces as [|bytes pieces IH]; intros w; cbn [to_writer mjoin list_join]; [by rewrite app_nil_r|].
  unfold bounded_write. destruct (_ <? _); [by eexists|]. specialize (IH (mkBoundedWriter (inner w ++ bytes)
    (bw_limit_bytes w) (saturating_add usize_max (written_bytes w) (len bytes)) (capacity_exceeded w))).
  destruct (to_writer _ pieces) as [[] w']; [|done]. rewrite IH. cbn [inner]. by rewrite <-app_assoc.
Qed.
(** A measured text is written whole; a text that is not is over the limit. *)
Lemma measured_written pieces limit :
  (measure pieces limit = Ok None ∧ write_measured pieces limit = Ok (Complete (mjoin pieces))) ∨
  ∃ exceeded, measure pieces limit = Ok (Some exceeded).
Proof.
  unfold measure, write_measured. pose proof (to_writer_spec pieces (new_bounded_writer limit)) as H.
  destruct (to_writer _ pieces) as [[] w]; [left|right].
  - by rewrite H.
  - destruct H as [exceeded ->]. by eexists.
Qed.
Lemma to_writer_fits pieces : ∀ w,
  0 ≤ written_bytes w ≤ bw_limit_bytes w → bw_limit_bytes w < usize_max →
  (to_writer w pieces).1 = (written_bytes w + len (mjoin pieces) <=? bw_limit_bytes w).
Proof.
  induction pieces as [|bytes pieces IH]; intros w Hw Hl; cbn [to_writer].
  - symmetry. apply Z.leb_le. unfold len. cbn. lia.
  - change (mjoin (bytes :: pieces)) with (bytes ++ mjoin pieces). pose proof (len_nonneg bytes). pose proof (len_nonneg (mjoin pieces)) as Hp. rewrite len_app.
    unfold bounded_write, saturating_add. destruct (Z.ltb_spec (bw_limit_bytes w) (Z.min usize_max (written_bytes w + len bytes))).
    + symmetry. apply Z.leb_gt. lia.
    + rewrite IH; cbn [written_bytes bw_limit_bytes]; [|lia..].
      rewrite Z.min_r by lia. f_equal. lia.
Qed.
(** Below the largest [usize] the limit decides by the length of the whole text. *)
Lemma measure_fits pieces limit :
  0 ≤ limit < usize_max → measure pieces limit = Ok None ↔ len (mjoin pieces) ≤ limit.
Proof.
  intros Hl. unfold measure. pose proof (to_writer_fits pieces (new_bounded_writer limit)) as Hf.
  pose proof (to_writer_spec pieces (new_bounded_writer limit)) as Hs. cbn [written_bytes bw_limit_bytes new_bounded_writer] in Hf.
  rewrite Z.add_0_l in Hf. destruct (to_writer _ pieces) as [accepted w]. cbn [fst] in Hf. rewrite Hf by lia.
  rewrite Hf in Hs by lia. destruct (Z.leb_spec (len (mjoin pieces)) limit); [done|]. destruct Hs as [exceeded ->]. split; [done|lia].
Qed.
