(* ===== verification/ResolveCache.v ===== *)
(** * The memoised lookups

    codestory-indexer/src/resolution/mod.rs, [cached_lookup]: seven maps behind read-write
    locks, read first, computed outside the lock, inserted if still absent.  A computation
    runs with the caches of one thread or among the threads of a pool. *)
From S2P Require Import Prelude RustStr Sorting StrOps Collections ResolveText ResolveIndex.

Record LookupCaches : Type := mkLookupCaches {
  same_file_cache : list (Z * str * str * option Z);
  same_module_cache : list (str * str * str * option Z);
  global_unique_cache : list (str * str * option Z);
  global_unique_exact_cache : list (str * str * option Z);
  global_owner_alias_cache : list (str * str * option Z);
  fuzzy_cache : list (str * str * option Z);
  relative_import_cache : list (str * str * str * str * option Z);
}.
Definition empty_caches : LookupCaches := mkLookupCaches [] [] [] [] [] [] [].

(** The entry of a key in its map, and the map with an entry added. *)
Definition cache_get (caches : LookupCaches) (key : CacheKey) : option (option Z) :=
  match key with
  | SameFileKey f n l => hm_get (same_file_cache caches) (f, n, l)
  | SameModuleKey p n l => hm_get (same_module_cache caches) (p, n, l)
  | GlobalUniqueKey n l => hm_get (global_unique_cache caches) (n, l)
  | GlobalUniqueExactKey n l => hm_get (global_unique_exact_cache caches) (n, l)
  | GlobalOwnerAliasKey n l => hm_get (global_owner_alias_cache caches) (n, l)
  | FuzzyKey n l => hm_get (fuzzy_cache caches) (n, l)
  | RelativeImportKey c m n l => hm_get (relative_import_cache caches) (c, m, n, l)
  end.
Definition cache_or_insert (caches : LookupCaches) (key : CacheKey) (v : option Z) : LookupCaches :=
  let '(mkLookupCaches same_file same_module global exact alias fuzzy relative) := caches in
  match key with
  | SameFileKey f n l =>
      mkLookupCaches (hm_or_insert same_file (f, n, l) v) same_module global exact alias fuzzy relative
  | SameModuleKey p n l =>
      mkLookupCaches same_file (hm_or_insert same_module (p, n, l) v) global exact alias fuzzy relative
  | GlobalUniqueKey n l =>
      mkLookupCaches same_file same_module (hm_or_insert global (n, l) v) exact alias fuzzy relative
  | GlobalUniqueExactKey n l =>
      mkLookupCaches same_file same_module global (hm_or_insert exact (n, l) v) alias fuzzy relative
  | GlobalOwnerAliasKey n l =>
      mkLookupCaches same_file same_module global exact (hm_or_insert alias (n, l) v) fuzzy relative
  | FuzzyKey n l =>
      mkLookupCaches same_file same_module global exact alias (hm_or_insert fuzzy (n, l) v) relative
  | RelativeImportKey c m n l =>
      mkLookupCaches same_file same_module global exact alias fuzzy (hm_or_insert relative (c, m, n, l) v)
  end.

(** One thread: [cached_lookup] at each lookup. *)
Definition cached (index : CandidateIndex) (key : CacheKey) (caches : LookupCaches)
  : option Z * LookupCaches :=
  match cache_get caches key with
  | Some v => (v, caches)
  | None =>
      let resolved := lookup_answer index key in (resolved, cache_or_insert caches key resolved)
  end.
Fixpoint run_cached {A} (index : CandidateIndex) (m : Lookups A) (caches : LookupCaches)
  : A * LookupCaches :=
  match m with
  | Done a => (a, caches)
  | Lookup key k => let '(v, caches) := cached index key caches in run_cached index (k v) caches
  end.

(** A pool of threads: a thread computes, or has missed and holds the value it computed. *)
Inductive Thread (A : Type) : Type :=
| Running (m : Lookups A)
| Missed (key : CacheKey) (resolved : option Z) (k : option Z → Lookups A).
Arguments Running {A} m.
Arguments Missed {A} key resolved k.
Inductive thread_step {A} (index : CandidateIndex)
  : Thread A → LookupCaches → Thread A → LookupCaches → Prop :=
| step_hit key k v caches :
    cache_get caches key = Some v →
    thread_step index (Running (Lookup key k)) caches (Running (k v)) caches
| step_miss key k caches :
    cache_get caches key = None →
    thread_step index (Running (Lookup key k)) caches (Missed key (lookup_answer index key) k) caches
| step_insert key resolved k caches :
    thread_step index (Missed key resolved k) caches (Running (k resolved))
      (cache_or_insert caches key resolved).
Inductive pool_step {A} (index : CandidateIndex)
  : list (Thread A) * LookupCaches → list (Thread A) * LookupCaches → Prop :=
| pool_thread before t after caches t' caches' :
    thread_step index t caches t' caches' →
    pool_step index (before ++ t :: after, caches) (before ++ t' :: after, caches').
Definition finished {A} (t : Thread A) : option A :=
  match t with Running (Done a) => Some a | _ => None end.

(** ** Caches hold answers *)
Definition caches_ok (index : CandidateIndex) (caches : LookupCaches) : Prop :=
  ∀ key v, cache_get caches key = Some v → v = lookup_answer index key.

Lemma empty_caches_ok index : caches_ok index empty_caches.
Proof. intros [] v; done. Qed.
Lemma cache_get_or_insert caches key v key' :
  cache_get (cache_or_insert caches key v) key' =
  match cache_get caches key' with
  | Some v' => Some v'
  | None => if decide (key = key') then Some v else None
  end.
Proof.
  destruct caches, key, key'; cbn; rewrite ?hm_get_or_insert;
    repeat match goal with
    | |- context [decide ?P] => destruct (decide P); simplify_eq
    | |- context [match ?o with Some _ => _ | None => _ end] => destruct o
    end; done.
Qed.
Lemma cache_insert_ok index caches key :
  caches_ok index caches → caches_ok index (cache_or_insert caches key (lookup_answer index key)).
Proof.
  intros Hok key' v. rewrite cache_get_or_insert. destruct (cache_get caches key') eqn:Hget.
  - intros [= <-]. by apply Hok.
  - destruct (decide (key = key')) as [->|]; [by intros [= <-]|done].
Qed.

(** One lookup. *)
Lemma cached_answer index key caches :
  caches_ok index caches →
  (cached index key caches).1 = lookup_answer index key ∧
  caches_ok index (cached index key caches).2.
Proof.
  intros Hok. unfold cached. destruct (cache_get caches key) as [v|] eqn:Hget; cbn.
  - split; [by apply Hok|done].
  - split; [done|by apply cache_insert_ok].
Qed.
Lemma run_cached_direct {A} index (m : Lookups A) caches :
  caches_ok index caches →
  (run_cached index m caches).1 = run_direct index m ∧ caches_ok index (run_cached index m caches).2.
Proof.
  revert caches. induction m as [a|key k IH]; intros caches Hok; cbn; [done|].
  pose proof (cached_answer index key caches Hok) as [Hv Hok'].
  destruct (cached index key caches) as [v caches']. cbn in Hv, Hok'. subst v. by apply IH.
Qed.
Lemma run_direct_bind {A B} index (m : Lookups A) (f : A → Lookups B) :
  run_direct index (m ≫= f) = run_direct index (f (run_direct index m)).
Proof. induction m as [a|key k IH]; cbn; [done|]. apply IH. Qed.

(** What a thread will return, and that the value it holds is the answer. *)
Definition outcome {A} (index : CandidateIndex) (t : Thread A) : A :=
  match t with Running m => run_direct index m | Missed _ v k => run_direct index (k v) end.
Definition thread_ok {A} (index : CandidateIndex) (t : Thread A) : Prop :=
  match t with Running _ => True | Missed key v _ => v = lookup_answer index key end.
Lemma thread_step_ok {A} index (t t' : Thread A) caches caches' :
  thread_step index t caches t' caches' → thread_ok index t → caches_ok index caches →
  thread_ok index t' ∧ caches_ok index caches' ∧ outcome index t' = outcome index t.
Proof.
  intros [key k v c Hget|key k c Hget|key v k c] Ht Hok; cbn in *.
  - apply Hok in Hget as ->. done.
  - done.
  - subst v. split_and!; [done|by apply cache_insert_ok|done].
Qed.
Lemma pool_step_ok {A} index (ts ts' : list (Thread A)) caches caches' :
  pool_step index (ts, caches) (ts', caches') → Forall (thread_ok index) ts →
  caches_ok index caches →
  Forall (thread_ok index) ts' ∧ caches_ok index caches' ∧
  outcome index <$> ts' = outcome index <$> ts.
Proof.
  intros Hstep Hts Hok. inversion Hstep as [before t after ? t' ? Ht]; subst.
  apply Forall_app in Hts as [Hb [H Ha]%Forall_cons].
  destruct (thread_step_ok _ _ _ _ _ Ht H Hok) as (H1 & H2 & H3).
  rewrite !fmap_app, !fmap_cons, H3, Forall_app, Forall_cons. done.
Qed.

(** Memoised lookups are invisible: whatever the caches of an index hold after earlier
    computations, a computation returns what it returns directly on the index; and when
    the rows are computed by threads that share the caches, reading, missing and inserting
    in any order, every thread that finishes has the result of the direct computation. *)
Theorem memoised_lookups {A} index (ms : list (Lookups A)) caches ts caches' :
  caches_ok index caches →
  rtc (pool_step index) (Running <$> ms, caches) (ts, caches') →
  (∀ m : Lookups A, (run_cached index m caches).1 = run_direct index m) ∧
  caches_ok index caches' ∧ length ts = length ms ∧
  ∀ i t a, ts !! i = Some t → finished t = Some a → (run_direct index <$> ms) !! i = Some a.
Proof.
  intros Hok Hsteps.
  assert (H : ∀ p q : list (Thread A) * LookupCaches, rtc (pool_step index) p q →
    Forall (thread_ok index) p.1 → caches_ok index p.2 →
    caches_ok index q.2 ∧ outcome index <$> q.1 = outcome index <$> p.1).
  { induction 1 as [|[? ?] [? ?] [? ?] Hstep _ IH]; [done|]. intros Ht Hc. cbn in *.
    destruct (pool_step_ok _ _ _ _ _ Hstep Ht Hc) as (H1 & H2 & H3).
    destruct (IH H1 H2) as [? IH2]. split; [done|]. by rewrite IH2. }
  destruct (H _ _ Hsteps) as [Hok' Hout]; cbn in *; [by apply Forall_fmap, Forall_true|done|].
  rewrite <-list_fmap_compose in Hout.
  split; [intros m; by apply run_cached_direct|]. split; [done|]. split.
  { apply (f_equal length) in Hout. by rewrite !length_fmap in Hout. }
  intros i t a Hi Hf. assert (Ho : (outcome index <$> ts) !! i = Some a).
  { rewrite list_lookup_fmap, Hi. cbn. destruct t as [[]|]; naive_solver. }
  by rewrite Hout in Ho.
Qed.

(** Two threads miss the same key, both compute it and both insert it. *)
Definition raced_index : CandidateIndex :=
  from_primary_and_relative_nodes [candidate_node 4 (Some 1) None (lit "helper") None] [].
Definition raced_lookup : Lookups (option Z) :=
  find_same_file_readonly (Some 1) (lit "helper") (lit "helper").
Definition raced_caches : LookupCaches :=
  (run_cached raced_index raced_lookup empty_caches).2.
Lemma raced_steps :
  rtc (pool_step raced_index) (Running <$> [raced_lookup; raced_lookup], empty_caches)
    ([Running (Done (Some 4)); Running (Done (Some 4))], raced_caches).
Proof.
  set (key := SameFileKey 1 (lit "helper") (lit "helper")).
  eapply rtc_l; [apply (pool_thread _ [] _ [Running raced_lookup]); by apply (step_miss _ key)|].
  eapply rtc_l; [apply (pool_thread _ [_] _ []); by apply (step_miss _ key)|].
  eapply rtc_l; [apply (pool_thread _ [] _ [_]); apply step_insert|].
  eapply rtc_l; [apply (pool_thread _ [_] _ []); apply step_insert|].
  replace (cache_or_insert _ _ _) with raced_caches by (by vm_compute). apply rtc_refl.
Qed.
Lemma memoised_lookups_witness :
  (∀ m : Lookups (option Z), (run_cached raced_index m empty_caches).1 = run_direct raced_index m) ∧
  caches_ok raced_index raced_caches ∧
  length [Running (Done (Some 4)); Running (Done (Some 4))] = length [raced_lookup; raced_lookup] ∧
  ∀ i t a, [Running (Done (Some 4)); Running (Done (Some 4))] !! i = Some t → finished t = Some a →
    (run_direct raced_index <$> [raced_lookup; raced_lookup]) !! i = Some a.
Proof. apply (memoised_lookups raced_index [raced_lookup; raced_lookup] empty_caches);
  [apply empty_caches_ok|apply raced_steps]. Defined.

(** * What the candidate index answers

    Every lookup of an index built from nodes is a scan of the nodes in their order; the
    offsets in its maps are in range; an index is rebuilt from its snapshot. *)

(** ** Offsets *)
Lemma keyed_snoc key l x :
  keyed key (l ++ [x]) =
  keyed key l ++ match key x with Some k => [(k, length l)] | None => [] end.
Proof.
  unfold keyed, offsets. rewrite imap_app, omap_app. cbn. rewrite Nat.add_0_r.
  by destruct (key x).
Qed.
Lemma values_of_app {K V} `{EqDecision K} (p q : list (K * V)) k :
  values_of (p ++ q) k = values_of p k ++ values_of q k.
Proof. unfold values_of. by rewrite List.filter_app, fmap_app. Qed.
Lemma omap_ext_in {A B} (f g : A → option B) l :
  Forall (λ x, f x = g x) l → omap f l = omap g l.
Proof. induction 1 as [|x l Hx _ IH]; [done|]. cbn. by rewrite Hx, IH. Qed.

Definition with_key (key : CandidateNode → option str) (k : str) (l : list CandidateNode)
  : list CandidateNode :=
  List.filter (λ n, bool_decide (key n = Some k)) l.
Lemma offsets_in_range key l k : Forall (λ i, (i < length l)%nat) (values_of (keyed key l) k).
Proof.
  induction l as [|x l IH] using rev_ind; [constructor|].
  rewrite keyed_snoc, values_of_app, length_app. cbn. apply Forall_app. split.
  - eapply Forall_impl; [exact IH|]. cbn. lia.
  - destruct (key x); cbn; [|constructor]. destruct (bool_decide _); cbn; [|constructor].
    repeat constructor. lia.
Qed.
(** The nodes at the offsets of a key are the nodes with that key, in order. *)
Lemma nodes_of_key key l k :
  omap (λ i, l !! i) (values_of (keyed key l) k) = with_key key k l.
Proof.
  induction l as [|x l IH] using rev_ind; [done|].
  unfold with_key in *. rewrite keyed_snoc, values_of_app, omap_app, List.filter_app, <-IH.
  f_equal.
  - apply omap_ext_in. eapply Forall_impl; [apply offsets_in_range|]. intros i Hi. cbn in Hi.
    by rewrite lookup_app_l.
  - destruct (key x) as [k'|] eqn:Hk; cbn; rewrite Hk.
    + destruct (decide (k' = k)) as [->|Hne].
      * rewrite !bool_decide_true by done. cbn.
        rewrite lookup_app_r, Nat.sub_diag by lia. done.
      * rewrite !bool_decide_false by congruence. done.
    + by rewrite bool_decide_false.
Qed.
Lemma find_map_omap {A B C} (f : A → option B) (g : B → option C) l :
  find_map (λ i, x ← f i; g x) l = find_map g (omap f l).
Proof. induction l as [|i l IH]; [done|]. cbn. destruct (f i); cbn; by rewrite IH. Qed.
(** A scan of the bucket of a key. *)
Lemma bucket_find_map {B} key l k (g : CandidateNode → option B) :
  (offs ← hm_get (hm_group (keyed key l)) k; find_map (λ i, node ← l !! i; g node) offs)
  = find_map g (with_key key k l).
Proof.
  rewrite hm_get_group, <-nodes_of_key, <-(find_map_omap (λ i, l !! i) g).
  by destruct (values_of _ _).
Qed.
Lemma bucket_length key l k :
  length (default [] (hm_get (hm_group (keyed key l)) k)) = length (with_key key k l).
Proof.
  rewrite hm_get_group, <-nodes_of_key. pose proof (offsets_in_range key l k) as H.
  transitivity (length (values_of (keyed key l) k)); [by destruct (values_of _ _)|].
  induction H as [|i offs Hi _ IH]; [done|]. cbn. apply lookup_lt_is_Some_2 in Hi as [x ->].
  cbn. by f_equal.
Qed.

Section Built.
Context (ns relative : list CandidateNode) (bindings : gset Z).
Let index := from_primary_relative_and_import_bindings ns relative bindings.
Definition relative_nodes : list CandidateNode := match relative with [] => ns | _ => relative end.

Definition exactly (name : str) : list CandidateNode := with_key (λ n, Some (cn_serialized_name n)) name ns.
Definition with_tail (lower : str) : list CandidateNode := with_key tail_key lower ns.
Definition in_file (file_id : Z) (n : CandidateNode) : option Z :=
  if decide (cn_file_node_id n = Some file_id) then Some (cn_id n) else None.
Definition in_module (prefix : str) (n : CandidateNode) : option Z :=
  qualified ← cn_qualified_name n; if starts_with qualified prefix then Some (cn_id n) else None.
Definition only (l : list CandidateNode) : option Z :=
  match l with [n] => Some (cn_id n) | _ => None end.

Lemma in_file_bucket key k file_id :
  first_in_file index (hm_get (hm_group (keyed key ns)) k) file_id
  = find_map (in_file file_id) (with_key key k ns).
Proof. unfold first_in_file. exact (bucket_find_map key ns k (in_file file_id)). Qed.
Lemma in_module_bucket key k prefix :
  first_in_module index (hm_get (hm_group (keyed key ns)) k) prefix
  = find_map (in_module prefix) (with_key key k ns).
Proof. unfold first_in_module. exact (bucket_find_map key ns k (in_module prefix)). Qed.
(** The bucket of a key, as the ids of the nodes in it. *)
Lemma bucket_ids key k :
  match hm_get (hm_group (keyed key ns)) k with
  | Some offs => node_id_at index <$> offs = (λ n, Some (cn_id n)) <$> with_key key k ns ∧ offs ≠ []
  | None => with_key key k ns = []
  end.
Proof.
  rewrite hm_get_group. pose proof (nodes_of_key key ns k) as Hn.
  pose proof (offsets_in_range key ns k) as Hr.
  assert (Hids : node_id_at index <$> values_of (keyed key ns) k
                 = (λ n, Some (cn_id n)) <$> with_key key k ns).
  { rewrite <-Hn. clear Hn. induction Hr as [|i offs Hi _ IH]; [done|]. cbn [fmap list_fmap].
    apply lookup_lt_is_Some_2 in Hi as [x Hx].
    change (omap (λ i, ns !! i) (i :: offs)) with
      (match ns !! i with Some y => y :: omap (λ i, ns !! i) offs | None => omap (λ i, ns !! i) offs end).
    rewrite Hx. cbn [fmap list_fmap]. rewrite <-IH. f_equal.
    unfold node_id_at, index. cbn. by rewrite Hx. }
  destruct (values_of (keyed key ns) k) as [|i offs]; [by rewrite <-Hn|done].
Qed.
Lemma only_bucket key k :
  match hm_get (hm_group (keyed key ns)) k with Some [i] => node_id_at index i | _ => None end
  = only (with_key key k ns).
Proof.
  pose proof (bucket_ids key k) as H. destruct (hm_get _ k) as [[|i [|j offs]]|].
  - by destruct H.
  - destruct H as [H _]. destruct (with_key key k ns) as [|n [|m l]]; cbn in *; [done| |done].
    by injection H.
  - destruct H as [H _]. destruct (with_key key k ns) as [|n [|m l]]; done.
  - by rewrite H.
Qed.
Lemma first_bucket key k (other : option Z) :
  match hm_get (hm_group (keyed key ns)) k with Some (i :: _) => node_id_at index i | _ => other end
  = match with_key key k ns with n :: _ => Some (cn_id n) | [] => other end.
Proof.
  pose proof (bucket_ids key k) as H. destruct (hm_get _ k) as [[|i offs]|].
  - by destruct H.
  - destruct H as [H _]. destruct (with_key key k ns) as [|n l]; cbn in *; [done|by injection H].
  - by rewrite H.
Qed.

(** *** Aliases of an owner *)
Definition alias_of (owner member : str) (n : CandidateNode) : option Z :=
  '(candidate_owner, candidate_member) ← split_owner_member_name (cn_serialized_name n);
  if str_eqb candidate_member member && owner_alias_compatible owner candidate_owner
  then Some (cn_id n) else None.
Definition may_alias (owner member : str) (n : CandidateNode) : bool :=
  let names := [member; owner ++ lit "." ++ member; owner ++ lit "::" ++ member] in
  bool_decide (cn_serialized_name n ∈ names ∨ tail_key n ∈ Some <$> (to_ascii_lowercase <$> names)).
Lemma only_value_ext l l' : (∀ x, x ∈ l ↔ x ∈ l') → only_value l = only_value l'.
Proof.
  intros H. destruct (only_value l) as [x|] eqn:Hx.
  - symmetry. apply only_value_spec in Hx as [Hx Hall]. apply only_value_spec.
    split; [by apply H|]. intros y Hy. by apply Hall, H.
  - destruct (only_value l') as [x|] eqn:Hx'; [|done].
    apply only_value_spec in Hx' as [Hin Hall]. rewrite <-Hx. apply only_value_spec.
    split; [by apply H|]. intros y Hy. by apply Hall, H.
Qed.
Lemma owner_alias_loop_spec owner member l sel :
  mjoin (owner_alias_loop index owner member l sel)
  = only_value (option_list sel ++ omap (λ i, ns !! i ≫= alias_of owner member) l).
Proof.
  revert sel. induction l as [|i l IH]; intros sel; [by destruct sel|].
  cbn [owner_alias_loop]. change (nodes index) with ns.
  change (omap (λ i, ns !! i ≫= alias_of owner member) (i :: l)) with
    (match ns !! i ≫= alias_of owner member with
     | Some y => y :: omap (λ i, ns !! i ≫= alias_of owner member) l
     | None => omap (λ i, ns !! i ≫= alias_of owner member) l end).
  unfold alias_of at 1. destruct (ns !! i) as [n|]; cbn [mbind option_bind]; [|apply IH].
  destruct (split_owner_member_name _) as [[o m]|]; cbn [mbind option_bind]; [|apply IH].
  destruct (str_eqb m member); cbn [negb andb]; [|apply IH].
  destruct (owner_alias_compatible owner o); cbn [negb]; [|apply IH].
  destruct sel as [id|]; [|apply IH]. destruct (decide (id = cn_id n)) as [->|Hne].
  - rewrite IH. apply only_value_ext. intros x. cbn. rewrite !elem_of_cons. tauto.
  - cbn. destruct (only_value _) as [x|] eqn:Hx; [|done].
    apply only_value_spec in Hx as [_ H]. destruct Hne.
    transitivity x; [|symmetry]; apply H; cbn; [left|right; left].
Qed.
Lemma bucket_elem key k n :
  n ∈ omap (λ i, ns !! i) (default [] (hm_get (hm_group (keyed key ns)) k)) ↔ n ∈ ns ∧ key n = Some k.
Proof.
  rewrite hm_get_group.
  replace (default [] _) with (values_of (keyed key ns) k) by (by destruct (values_of _ _)).
  rewrite nodes_of_key. unfold with_key. rewrite list_elem_of_In, List.filter_In, <-list_elem_of_In.
  by rewrite bool_decide_eq_true.
Qed.
Lemma owner_offsets_elem owner member n :
  n ∈ omap (λ i, ns !! i) (owner_member_candidate_offsets index owner member)
  ↔ n ∈ ns ∧ may_alias owner member n = true.
Proof.
  unfold owner_member_candidate_offsets. rewrite list_elem_of_omap.
  setoid_rewrite dedup_elem. unfold sort_nat. setoid_rewrite sort_by_perm.
  rewrite <-list_elem_of_omap, !omap_app, !elem_of_app.
  unfold index. cbn [exact_map suffix_map_ascii_lower from_primary_relative_and_import_bindings].
  rewrite !bucket_elem. unfold may_alias. rewrite bool_decide_eq_true.
  cbn [fmap list_fmap]. rewrite !elem_of_cons, !elem_of_nil.
  rewrite !(inj_iff Some). tauto.
Qed.
Lemma alias_scan owner member :
  (selected ← owner_alias_loop index owner member (owner_member_candidate_offsets index owner member)
                None; selected)
  = only_value (omap (alias_of owner member) (List.filter (may_alias owner member) ns)).
Proof.
  etransitivity; [exact (owner_alias_loop_spec owner member _ None)|]. apply only_value_ext.
  intros x. change (option_list None ++ ?l) with l. rewrite !list_elem_of_omap. split.
  - intros (i & Hi & Hx). destruct (ns !! i) as [n|] eqn:Hn; [|done]. exists n. split; [|done].
    rewrite list_elem_of_In, List.filter_In, <-list_elem_of_In. apply owner_offsets_elem.
    apply list_elem_of_omap. by exists i.
  - intros (n & Hn & Hx). rewrite list_elem_of_In, List.filter_In, <-list_elem_of_In in Hn.
    rewrite <-owner_offsets_elem, list_elem_of_omap in Hn. destruct Hn as (i & Hi & Hn).
    exists i. split; [done|]. by rewrite Hn.
Qed.

(** The index answers by scanning: a lookup in the maps of an index built from nodes
    finds what a scan of the nodes in their order finds.  In a file or a module: the
    first node with the exact name, else with that tail; globally: the only node with the
    exact name, or with that tail when no name is exact; the fuzzy search: the first exact,
    else the first tail, else the first that contains the name; for an alias of an owner:
    the only id among the nodes with the member and a compatible owner; a relative import:
    the first of the candidate paths that has a node with a matching name. *)
Theorem index_lookups_scan key :
  lookup_answer index key =
  match key with
  | SameFileKey f name lower =>
      option_or (find_map (in_file f) (exactly name)) (find_map (in_file f) (with_tail lower))
  | SameModuleKey prefix name lower =>
      option_or (find_map (in_module prefix) (exactly name))
        (find_map (in_module prefix) (with_tail lower))
  | GlobalUniqueKey name lower =>
      match exactly name with [] => only (with_tail lower) | l => only l end
  | GlobalUniqueExactKey name _ => only (exactly name)
  | GlobalOwnerAliasKey name _ =>
      '(owner, member) ← split_owner_member_name name;
      only_value (omap (alias_of owner member) (List.filter (may_alias owner member) ns))
  | FuzzyKey name lower =>
      cn_id <$> head (exactly name ++ with_tail lower
                      ++ List.filter (λ n, contains (cn_serialized_name_ascii_lower n) lower) ns)
  | RelativeImportKey caller module name lower =>
      find_map (λ path, find_map (λ n, if name_matches n name lower then Some (cn_id n) else None)
                          (with_key cn_normalized_file_path path relative_nodes))
        (relative_candidates caller module)
  end.
Proof.
  destruct key as [f name lower|prefix name lower|name lower|name lower|name lower|name lower|
                   caller module name lower]; cbn [lookup_answer].
  - unfold exactly, with_tail. by rewrite <-!in_file_bucket.
  - unfold exactly, with_tail. by rewrite <-!in_module_bucket.
  - unfold exactly, with_tail. rewrite <-(only_bucket tail_key lower).
    pose proof (bucket_ids (λ n, Some (cn_serialized_name n)) name) as H.
    pose proof (only_bucket (λ n, Some (cn_serialized_name n)) name) as Ho.
    unfold index at 1 3. cbn [exact_map from_primary_relative_and_import_bindings].
    destruct (hm_get _ name) as [l|].
    + rewrite Ho. destruct H as [H Hne]. by destruct (with_key _ name ns); [destruct l|].
    + by rewrite H.
  - unfold exactly. rewrite <-only_bucket. done.
  - destruct (split_owner_member_name name) as [[owner member]|]; cbn; [|done].
    apply alias_scan.
  - unfold exactly, with_tail. etransitivity; [exact (first_bucket _ name _)|].
    destruct (with_key _ name ns) as [|n l]; [|done].
    etransitivity; [exact (first_bucket tail_key lower _)|].
    destruct (with_key tail_key lower ns) as [|n l]; [|done]. cbn [app head].
    unfold index. cbn [nodes from_primary_relative_and_import_bindings].
    induction ns as [|n l IH]; [done|]. cbn. by destruct (contains _ lower).
  - apply find_map_ext. intros path _. unfold first_matching_name_in_offsets, index.
    cbn [relative_file_path_map relative_import_nodes from_primary_relative_and_import_bindings].
    apply (bucket_find_map cn_normalized_file_path relative_nodes path
      (λ n, if name_matches n name lower then Some (cn_id n) else None)).
Qed.
End Built.

(** ** Snapshots *)
Lemma snapshot_of_nodes l : snapshot_node <$> candidate_nodes_from_snapshots l = l.
Proof.
  unfold candidate_nodes_from_snapshots. rewrite <-list_fmap_compose.
  rewrite <-(list_fmap_id l) at 2. apply list_fmap_ext. by intros _ [] _.
Qed.
(** An index is the one rebuilt from the nodes and the binding ids it is saved as. *)
Lemma index_snapshot_roundtrip l bindings :
  let index := from_snapshot_nodes_with_import_bindings l bindings in
  from_snapshot_nodes_with_import_bindings (snapshot_nodes index)
    (import_binding_node_id_list index) = index.
Proof.
  cbn. unfold from_snapshot_nodes_with_import_bindings at 1. unfold snapshot_nodes.
  rewrite snapshot_of_nodes.
  assert (list_to_set (import_binding_node_id_list
            (from_snapshot_nodes_with_import_bindings l bindings))
          = (list_to_set bindings : gset Z)) as ->; [|done].
  unfold import_binding_node_id_list, sort_z. apply leibniz_equiv. rewrite sort_by_perm.
  cbn. by rewrite list_to_set_elements.
Qed.
