(* ===== verification/ResolvePass.v ===== *)
(** * The resolution pass

    codestory-indexer/src/resolution/pipeline.rs and the pass of resolution/mod.rs: the
    phases of a run inside one immediate transaction, with its cancellation polls, the
    deduplicated semantic requests, the memoised computation of each row, the counters, and the
    stored support snapshot that a run reads or writes.  Every SQL statement takes an outcome
    of a script: it succeeds, finds a value too big, or fails; so do BEGIN, COMMIT and ROLLBACK.
    Clocks (telemetry) are not part of the model. *)
From S2P Require Import Prelude RustStr Graph Sorting StrOps Collections LanguageSupport ResolveText.
From S2P Require Import ResolveIndex ResolveSelect SemanticIndex ResolveStore ResolveOverrides.
From S2P Require Import ResolveSnapshot ResolveCache.

(** ** Counters *)
Record ResolutionStrategyCounters : Type := mkResolutionStrategyCounters {
  c_call_same_file : Z;
  c_call_same_module : Z;
  c_call_global_unique : Z;
  c_call_semantic_fallback : Z;
  c_import_same_file : Z;
  c_import_same_module : Z;
  c_import_global_unique : Z;
  c_import_fuzzy : Z;
  c_import_semantic_fallback : Z;
}.
Definition no_counters : ResolutionStrategyCounters :=
  mkResolutionStrategyCounters 0 0 0 0 0 0 0 0 0.
Definition record_strategy (c : ResolutionStrategyCounters) (s : option ResolutionStrategy)
  : ResolutionStrategyCounters :=
  let bump (t : ResolutionStrategy) (n : Z) : Z := if decide (s = Some t) then n + 1 else n in
  {| c_call_same_file := bump CallSameFile (c_call_same_file c);
     c_call_same_module := bump CallSameModule (c_call_same_module c);
     c_call_global_unique := bump CallGlobalUnique (c_call_global_unique c);
     c_call_semantic_fallback := bump CallSemanticFallback (c_call_semantic_fallback c);
     c_import_same_file := bump ImportSameFile (c_import_same_file c);
     c_import_same_module := bump ImportSameModule (c_import_same_module c);
     c_import_global_unique := bump ImportGlobalUnique (c_import_global_unique c);
     c_import_fuzzy := bump ImportFuzzy (c_import_fuzzy c);
     c_import_semantic_fallback := bump ImportSemanticFallback (c_import_semantic_fallback c) |}.

(** ** The transaction

    The state is the tables, the row of the support snapshot, what the cancellation token
    answers to the polls to come and how the statements to come end; after the listed answers
    the token stays clear and statements succeed. *)
Inductive Outcome : Type :=
| Fine
| TooBig
| Fails (error : str).
Record Txn : Type := mkTxn {
  db : Db;
  support : option SupportRow;
  polls : list bool;
  outcomes : list Outcome;
}.
Definition T (A : Type) : Type := Txn → result str A * Txn.
#[export] Instance T_ret : MRet T := λ A a t, (Ok a, t).
#[export] Instance T_bind : MBind T := λ A B f m t,
  match m t with (Ok a, t) => f a t | (Err e, t) => (Err e, t) end.
Definition fail {A} (error : str) : T A := λ t, (Err error, t).
Definition lift {A} (r : result str A) : T A := λ t, (r, t).
Definition check_cancelled : T unit := λ t,
  match polls t with
  | [] => (Ok tt, t)
  | true :: rest => (Err (lit "resolution cancelled"), mkTxn (db t) (support t) rest (outcomes t))
  | false :: rest => (Ok tt, mkTxn (db t) (support t) rest (outcomes t))
  end.
Definition get_db : T Db := λ t, (Ok (db t), t).
Definition put_db (d : Db) : T unit := λ t, (Ok tt, mkTxn d (support t) (polls t) (outcomes t)).
Definition get_support : T (option SupportRow) := λ t, (Ok (support t), t).
Definition put_support (row : option SupportRow) : T unit := λ t,
  (Ok tt, mkTxn (db t) row (polls t) (outcomes t)).
Definition next_outcome : T Outcome := λ t,
  match outcomes t with
  | [] => (Ok Fine, t)
  | o :: rest => (Ok o, mkTxn (db t) (support t) (polls t) rest)
  end.
Definition too_big : str := lit "string or blob too big".
(** A statement whose failure is returned with [?]; a failed statement has no effect. *)
Definition statement : T unit :=
  o ← next_outcome;
  match o with Fine => mret tt | TooBig => fail too_big | Fails e => fail e end.
Fixpoint statements (n : nat) : T unit :=
  match n with O => mret tt | S n => _ ← statement; statements n end.

(** A connection: what is committed and, inside a transaction, what it sees. *)
Record Connection : Type := mkConnection {
  committed : Db * option SupportRow;
  open_transaction : option (Db * option SupportRow);
}.
Definition idle (state : Db * option SupportRow) : Connection := mkConnection state None.
(** A failed COMMIT leaves the transaction open, or SQLite has ended it; [io_rollback] is whether
    no transaction is left after ROLLBACK. *)
Inductive CommitOutcome : Type :=
| Commits
| CommitFails (error : str) (ended : bool).
Record RunIo : Type := mkRunIo {
  io_polls : list bool;
  io_outcomes : list Outcome;
  io_commit : CommitOutcome;
  io_rollback : bool;
}.
Definition run_in_immediate_transaction {A} (work : T A) (io : RunIo) (answers : list bool) (c : Connection)
  : result str A * Connection :=
  let left_open (t : Txn) : Connection := mkConnection (committed c) (Some (db t, support t)) in
  match open_transaction c with
  | Some _ => (Err (lit "cannot start a transaction within a transaction"), c)
  | None =>
      match statement (mkTxn (committed c).1 (committed c).2 answers (io_outcomes io)) with
      | (Err e, _) => (Err e, c)
      | (Ok _, t) =>
          match work t with
          | (Ok value, t) =>
              match io_commit io with
              | Commits => (Ok value, idle (db t, support t))
              | CommitFails e ended => (Err e, if ended then c else left_open t)
              end
          | (Err e, t) => (Err e, if io_rollback io then c else left_open t)
          end
      end
  end.

(** ** Semantic requests *)
Record SemanticResolutionRequestKey : Type := mkSemanticResolutionRequestKey {
  k_edge_kind : EdgeKind;
  k_file_id : option Z;
  k_file_path : option str;
  k_target_name : str;
}.
#[export] Instance SemanticResolutionRequestKey_eq_dec : EqDecision SemanticResolutionRequestKey.
Proof. solve_decision. Defined.
Record SemanticRequestStats : Type := mkSemanticRequestStats {
  total_requests : Z;
  unique_requests : Z;
  skipped_requests : Z;
}.
Definition should_skip_semantic_candidates (edge_kind : EdgeKind) (row : UnresolvedEdgeRow) : bool :=
  bool_decide (edge_kind = EdgeKind.CALL)
  && negb (should_keep_common_call_resolution (row_target_name row) CERTAIN_MIN
             (row_callsite_identity row)).
Definition semantic_request_target_name (edge_kind : EdgeKind) (row : UnresolvedEdgeRow) : str :=
  if bool_decide (edge_kind = EdgeKind.IMPORT)
     && import_alias_mismatch (row_source_name row) (row_target_name row)
  then row_target_name row ++ lit " as " ++ row_source_name row
  else row_target_name row.
Definition semantic_request_key (edge_kind : EdgeKind) (row : UnresolvedEdgeRow)
  : option SemanticResolutionRequestKey :=
  if is_none (semantic_language_bucket (row_caller_file_path row))
     || member_call_placeholder edge_kind (row_callsite_identity row)
     || is_imported_receiver_call_placeholder edge_kind (row_callsite_identity row)
     || should_skip_semantic_candidates edge_kind row
  then None
  else Some {| k_edge_kind := edge_kind; k_file_id := row_file_id row;
               k_file_path := row_caller_file_path row;
               k_target_name := semantic_request_target_name edge_kind row |}.
Definition semantic_candidates_for_edge (pass : ResolutionPass) (index : SemanticCandidateIndex)
    (key : SemanticResolutionRequestKey) : list SemanticResolutionCandidate :=
  registry_resolve (enable_semantic (flags pass)) index
    {| rq_edge_kind := k_edge_kind key; rq_file_id := k_file_id key;
       rq_file_path := k_file_path key; rq_caller_qualified := None;
       rq_target_name := k_target_name key |}.
(** The loop over the rows: the request of each row, the distinct keys in order, and the
    position of each key. *)
Record Requests : Type := mkRequests {
  request_indexes : list (option nat);
  unique_keys : list SemanticResolutionRequestKey;
  unique_key_indexes : list (SemanticResolutionRequestKey * nat);
  skipped : Z;
}.
Definition add_request (edge_kind : EdgeKind) (r : Requests) (row : UnresolvedEdgeRow) : Requests :=
  match semantic_request_key edge_kind row with
  | None =>
      {| request_indexes := request_indexes r ++ [None]; unique_keys := unique_keys r;
         unique_key_indexes := unique_key_indexes r; skipped := skipped r + 1 |}
  | Some key =>
      match hm_get (unique_key_indexes r) key with
      | Some existing =>
          {| request_indexes := request_indexes r ++ [Some existing]; unique_keys := unique_keys r;
             unique_key_indexes := unique_key_indexes r; skipped := skipped r |}
      | None =>
          let next_index := length (unique_keys r) in
          {| request_indexes := request_indexes r ++ [Some next_index];
             unique_keys := unique_keys r ++ [key];
             unique_key_indexes := hm_insert (unique_key_indexes r) key next_index;
             skipped := skipped r |}
      end
  end.
Definition no_requests : Requests :=
  {| request_indexes := []; unique_keys := []; unique_key_indexes := []; skipped := 0 |}.
Definition semantic_candidates_for_rows (pass : ResolutionPass) (index : SemanticCandidateIndex)
    (rows : list UnresolvedEdgeRow) (edge_kind : EdgeKind)
  : list (list SemanticResolutionCandidate) * SemanticRequestStats :=
  if negb (enable_semantic (flags pass)) then
    (replicate (length rows) [], {| total_requests := 0; unique_requests := 0; skipped_requests := 0 |})
  else
    let r := foldl (add_request edge_kind) no_requests rows in
    let unique_results := semantic_candidates_for_edge pass index <$> unique_keys r in
    ((λ request_index,
        match request_index with
        | Some i => default [] (unique_results !! i)
        | None => []
        end) <$> request_indexes r,
     {| total_requests := len rows; unique_requests := len (unique_keys r);
        skipped_requests := skipped r |}).

(** ** Computing the rows *)
Definition Compute : Type :=
  ResolutionPass → CandidateIndex → UnresolvedEdgeRow → list SemanticResolutionCandidate →
  Lookups ComputedResolution.
(** One after the other, with the caches of the index. *)
Fixpoint compute_rows (pass : ResolutionPass) (index : CandidateIndex) (compute : Compute)
    (work : list (UnresolvedEdgeRow * list SemanticResolutionCandidate)) (caches : LookupCaches)
  : list ComputedResolution * LookupCaches :=
  match work with
  | [] => ([], caches)
  | (row, candidates) :: work =>
      let '(c, caches) := run_cached index (compute pass index row candidates) caches in
      let '(cs, caches) := compute_rows pass index compute work caches in
      (c :: cs, caches)
  end.
(** The temporary table is made and emptied, the updates are staged one by one, and one
    statement joins them with the edges. *)
Definition apply_updates (updates : list ResolvedEdgeUpdate) : T unit :=
  match updates with
  | [] => mret tt
  | _ =>
      _ ← statements (2 + length updates);
      d ← get_db;
      put_db (apply_resolution_updates updates d)
  end.
Definition select_unresolved_edges (kind : Z) (scope : ScopeCallerContext) : T (list UnresolvedEdgeRow) :=
  if is_empty_scope scope then mret []
  else
    _ ← statement;
    d ← get_db;
    mret (unresolved_edges d kind scope).
Definition resolve_edges_after_prepare (pass : ResolutionPass) (scope : ScopeCallerContext)
    (index : CandidateIndex) (semantic_index : SemanticCandidateIndex) (edge_kind : EdgeKind)
    (compute : Compute) (counters : ResolutionStrategyCounters)
  : T (Z * ResolutionStrategyCounters) :=
  _ ← check_cancelled;
  rows ← select_unresolved_edges (edge_kind_as_i32 edge_kind) scope;
  if decide (rows = []) then mret (0, counters)
  else
    _ ← check_cancelled;
    let '(semantic_candidates, _) := semantic_candidates_for_rows pass semantic_index rows edge_kind in
    _ ← check_cancelled;
    let '(computed, _) :=
      compute_rows pass index compute (zip rows semantic_candidates) empty_caches in
    _ ← check_cancelled;
    let resolved := len (List.filter (λ c, negb (is_none (strategy c))) computed) in
    let counters := foldl (λ counters c, record_strategy counters (strategy c)) counters computed in
    _ ← check_cancelled;
    _ ← apply_updates (update <$> computed);
    mret (resolved, counters).

(** ** The support *)
Section Support.
Context `{HashOrder} `{SupportJson} (snapshot_limit_bytes : Z).

Inductive StorageError : Type :=
| ResolutionSupportSnapshotTooBig
| OtherStorageError (error : str).
Definition get_resolution_support_snapshot (snapshot_version : Z)
  : T (result StorageError (option str)) :=
  o ← next_outcome;
  match o with
  | Fine => row ← get_support; mret (Ok (stored_blob snapshot_version row))
  | TooBig => mret (Err ResolutionSupportSnapshotTooBig)
  | Fails e => mret (Err (OtherStorageError e))
  end.
Definition put_resolution_support_snapshot (snapshot_version : Z) (blob : str)
  : T (result StorageError unit) :=
  o ← next_outcome;
  match o with
  | Fine => _ ← put_support (ready_row snapshot_version blob); mret (Ok tt)
  | TooBig => mret (Err ResolutionSupportSnapshotTooBig)
  | Fails e => mret (Err (OtherStorageError e))
  end.
Definition invalidate_resolution_support_snapshot : T unit :=
  _ ← statement;
  row ← get_support;
  put_support (invalidate_row row).
(** Reserving the memory for the text can fail, too. *)
Definition serialize_json_with_limit (value : ResolutionSupportSnapshot) : T SnapshotSerialization :=
  measured ← lift (measure (snapshot_pieces value) snapshot_limit_bytes);
  match measured with
  | Some exceeded => mret (Oversized exceeded)
  | None => _ ← statement; lift (write_measured (snapshot_pieces value) snapshot_limit_bytes)
  end.
Definition loaded_blob : T (option str) :=
  found ← get_resolution_support_snapshot RESOLUTION_SUPPORT_SNAPSHOT_VERSION;
  match found with
  | Ok blob => mret blob
  | Err ResolutionSupportSnapshotTooBig => _ ← invalidate_resolution_support_snapshot; mret None
  | Err (OtherStorageError e) => fail e
  end.
(** The snapshot that is stored for the flags; anything else that is stored is invalidated. *)
Definition stored_snapshot (flags : ResolutionFlags) : T (option ResolutionSupportSnapshot) :=
  blob ← loaded_blob;
  match blob with
  | None => mret None
  | Some blob =>
      match snapshot_from_json blob with
      | Ok s =>
          if Bool.eqb (sp_enable_semantic s) (enable_semantic flags) then mret (Some s)
          else _ ← invalidate_resolution_support_snapshot; mret None
      | Err _ => _ ← invalidate_resolution_support_snapshot; mret None
      end
  end.
(** Two statements load each candidate index, one each semantic index, four the overrides. *)
Definition load_from_tables (flags : ResolutionFlags) : T PreparedResolutionState :=
  _ ← statements (4 + (if enable_semantic flags then 2 else 0) + 4);
  d ← get_db;
  mret (prepare_from_tables flags d).
Definition store_snapshot (flags : ResolutionFlags) (prepared : PreparedResolutionState) : T unit :=
  serialized ← serialize_json_with_limit (snapshot flags prepared);
  match serialized with
  | Complete blob =>
      stored ← put_resolution_support_snapshot RESOLUTION_SUPPORT_SNAPSHOT_VERSION blob;
      match stored with
      | Ok _ => mret tt
      | Err ResolutionSupportSnapshotTooBig => invalidate_resolution_support_snapshot
      | Err (OtherStorageError e) => fail e
      end
  | Oversized _ => invalidate_resolution_support_snapshot
  end.
(** The first statement asks the connection for its limit. *)
Definition load_prepared (flags : ResolutionFlags) : T PreparedResolutionState :=
  _ ← statement;
  found ← stored_snapshot flags;
  match found with
  | Some s => mret (prepared_from_snapshot s flags)
  | None =>
      prepared ← load_from_tables flags;
      _ ← store_snapshot flags prepared;
      mret prepared
  end.
End Support.

(** ** The phases *)
Definition update_edges (f : EdgeRow → EdgeRow) : T unit :=
  _ ← statement; d ← get_db; put_db (with_edges (f <$> edge_table d) d).
Definition resolve_calls_on_conn (pass : ResolutionPass) (scope : ScopeCallerContext)
    (prepared : PreparedResolutionState) (counters : ResolutionStrategyCounters)
  : T (Z * ResolutionStrategyCounters) :=
  _ ← check_cancelled;
  if is_empty_scope scope then mret (0, counters)
  else
    _ ← check_cancelled;
    _ ← update_edges (prepare_row CALL scope);
    _ ← check_cancelled;
    _ ← statements 2;
    d ← get_db;
    _ ← put_db (cleanup_stale_call_resolutions d (flags pass) (policy pass) scope);
    resolve_edges_after_prepare pass scope (call_candidate_index prepared)
      (call_semantic_index prepared) EdgeKind.CALL compute_call_resolution counters.
Definition resolve_imports_on_conn (pass : ResolutionPass) (scope : ScopeCallerContext)
    (prepared : PreparedResolutionState) (counters : ResolutionStrategyCounters)
  : T (Z * ResolutionStrategyCounters) :=
  _ ← check_cancelled;
  if is_empty_scope scope then mret (0, counters)
  else
    _ ← check_cancelled;
    _ ← update_edges (prepare_row IMPORT scope);
    _ ← check_cancelled;
    resolve_edges_after_prepare pass scope (import_candidate_index prepared)
      (import_semantic_index prepared) EdgeKind.IMPORT compute_import_resolution counters.
(** The loop over the override rows, with a poll for each. *)
Fixpoint override_loop (flags : ResolutionFlags) (s : OverrideSupport) (rows : list (Z * Z * str))
  : T (list (ResolvedEdgeUpdate * bool)) :=
  match rows with
  | [] => mret []
  | (edge_id, source_id, source_name) :: rows =>
      _ ← check_cancelled;
      us ← override_loop flags s rows;
      mret (resolve_override flags s edge_id source_id source_name :: us)
  end.
Definition resolve_overrides_on_conn (pass : ResolutionPass) (scope : ScopeCallerContext)
    (prepared : PreparedResolutionState) : T Z :=
  _ ← check_cancelled;
  if is_empty_scope scope then mret 0
  else
    _ ← check_cancelled;
    _ ← update_edges (reset_override scope);
    _ ← check_cancelled;
    _ ← statement;
    d ← get_db;
    let rows := unresolved_override_edges d scope in
    if decide (rows = []) then mret 0
    else
      us ← override_loop (flags pass) (override_support prepared) rows;
      _ ← check_cancelled;
      _ ← apply_updates (fst <$> us);
      mret (len (List.filter snd us)).

Record ResolutionStats : Type := mkResolutionStats {
  unresolved_calls_before : Z;
  resolved_calls : Z;
  unresolved_calls : Z;
  unresolved_imports_before : Z;
  resolved_imports : Z;
  unresolved_imports : Z;
  strategy_counters : ResolutionStrategyCounters;
}.
(** The scoped callers are collected in a temporary table. *)
Definition prepare_scope_on_conn (scope_file_ids : option (gset Z)) : T ScopeCallerContext :=
  _ ← match sorted_scope_file_ids scope_file_ids with
      | None | Some [] => mret tt
      | Some _ => statements 2
      end;
  d ← get_db;
  mret (prepare_scope d scope_file_ids).
Definition count_unresolved (kind : Z) (scope : ScopeCallerContext) : T Z :=
  if is_empty_scope scope then mret 0
  else _ ← statement; d ← get_db; mret (count_unresolved_on_conn d kind scope).

Section Pass.
Context `{HashOrder} `{SupportJson} (snapshot_limit_bytes : Z).
Definition pass_body (pass : ResolutionPass) (scope_file_ids : option (gset Z)) : T ResolutionStats :=
  _ ← check_cancelled;
  scope ← prepare_scope_on_conn scope_file_ids;
  _ ← check_cancelled;
  calls_before ← count_unresolved CALL scope;
  _ ← check_cancelled;
  imports_before ← count_unresolved IMPORT scope;
  _ ← check_cancelled;
  _ ← count_unresolved OVERRIDE scope;
  _ ← check_cancelled;
  prepared ← load_prepared snapshot_limit_bytes (flags pass);
  _ ← check_cancelled;
  _ ← check_cancelled;
  '(calls, counters) ← resolve_calls_on_conn pass scope prepared no_counters;
  _ ← check_cancelled;
  '(imports, counters) ← resolve_imports_on_conn pass scope prepared counters;
  _ ← check_cancelled;
  _ ← resolve_overrides_on_conn pass scope prepared;
  _ ← check_cancelled;
  calls_after ← count_unresolved CALL scope;
  _ ← check_cancelled;
  imports_after ← count_unresolved IMPORT scope;
  mret {| unresolved_calls_before := calls_before; resolved_calls := calls;
          unresolved_calls := calls_after; unresolved_imports_before := imports_before;
          resolved_imports := imports; unresolved_imports := imports_after;
          strategy_counters := counters |}.
(** The poll before the transaction is the first. *)
Definition run_with_scope_with_cancel (pass : ResolutionPass) (scope_file_ids : option (gset Z))
    (io : RunIo) (c : Connection) : result str ResolutionStats * Connection :=
  match check_cancelled (mkTxn (committed c).1 (committed c).2 (io_polls io) (io_outcomes io)) with
  | (Err e, _) => (Err e, c)
  | (Ok _, t) => run_in_immediate_transaction (pass_body pass scope_file_ids) io (polls t) c
  end.
Definition run_with_scope (pass : ResolutionPass) (scope_file_ids : option (gset Z)) (io : RunIo)
    (c : Connection) : result str ResolutionStats * Connection :=
  run_with_scope_with_cancel pass scope_file_ids (mkRunIo [] (io_outcomes io) (io_commit io) (io_rollback io)) c.
Definition run (pass : ResolutionPass) (io : RunIo) (c : Connection)
  : result str ResolutionStats * Connection :=
  run_with_scope pass None io c.
End Pass.
