(* ===== verification/ResolveSelectProofs.v ===== *)
(** * What a call or an import resolves to

    The best candidate of a list when only one is best; the call stages as a list of
    answers of which the first wins, whatever is recorded; what the recorded candidates
    are.

    The second part: what an import resolves to. *)
From S2P Require Import Prelude RustStr Graph Sorting StrOps Collections ResolveText ResolveIndex ResolveSelect.
From S2P Require Import ResolveCache.

(** ** The only best candidate *)
Definition consider_all (l : list (Z * f32)) : UnambiguousBestCandidate :=
  foldl (λ u ic, consider u ic.1 ic.2) no_best l.
Definition below (best other : Z * f32) : Prop := f32_cmp other.2 best.2 ≠ Gt.
Definition ties (best other : Z * f32) : Prop :=
  f32_cmp other.2 best.2 = Eq ∧ other.1 ≠ best.1.
Definition number_confidence (ic : Z * f32) : Prop := f32_number ic.2.

Lemma f32_gt_cmp a b : f32_number a → f32_number b → f32_gt a b = match f32_cmp a b with Gt => true | _ => false end.
Proof.
  intros Ha Hb. unfold f32_gt, SFltb, f32_cmp, f32_partial_cmp.
  pose proof (cmp_opp (cmp := f32_cmp) a b Ha Hb) as Ho. unfold f32_cmp, f32_partial_cmp in Ho.
  destruct (SFcompare a b) as [[]|] eqn:Hab, (SFcompare b a) as [[]|] eqn:Hba; try done;
    pose proof (f32_partial_cmp_key a b Ha Hb); pose proof (f32_partial_cmp_key b a Hb Ha);
    unfold f32_partial_cmp in *; congruence.
Qed.
Lemma f32_eq_cmp a b : f32_number a → f32_number b → f32_eq a b = match f32_cmp a b with Eq => true | _ => false end.
Proof.
  intros Ha Hb. unfold f32_eq, SFeqb, f32_cmp.
  pose proof (f32_partial_cmp_key a b Ha Hb). unfold f32_partial_cmp in *.
  by destruct (SFcompare a b) as [[]|].
Qed.
Lemma f32_cmp_same a : f32_number a → f32_cmp a a = Eq.
Proof.
  intros Ha. pose proof (cmp_opp (cmp := f32_cmp) a a Ha Ha). by destruct (f32_cmp a a).
Qed.

Definition best_of (l : list (Z * f32)) (u : UnambiguousBestCandidate) : Prop :=
  match best u with
  | None => l = [] ∧ tied_best u = false
  | Some b => b ∈ l ∧ Forall (below b) l ∧ (tied_best u = true ↔ Exists (ties b) l)
  end.
Lemma consider_best l u ic :
  Forall number_confidence l → number_confidence ic →
  best_of l u → best_of (l ++ [ic]) (consider u ic.1 ic.2).
Proof.
  intros Hl Hic Hu. destruct ic as [i c]. unfold consider, best_of in *. cbn [fst snd] in *.
  destruct (best u) as [[j d]|] eqn:Hb.
  2:{ destruct Hu as [-> Ht]. cbn. split; [by left|]. split.
      - constructor; [|constructor]. unfold below. cbn. by rewrite (f32_cmp_same c).
      - split; [done|]. rewrite Exists_cons, Exists_nil. unfold ties. naive_solver. }
  destruct Hu as (Hin & Hbelow & Htied). rewrite Forall_forall in Hl.
  assert (Hd : f32_number d) by exact (Hl _ Hin). unfold number_confidence in Hic. cbn in Hic.
  rewrite f32_gt_cmp, f32_eq_cmp by done.
  destruct (f32_cmp c d) eqn:Hcd; cbn.
  - assert (Hstays : Forall (below (j, d)) (l ++ [(i, c)])).
    { apply Forall_app. split; [done|]. constructor; [|constructor]. unfold below. cbn. congruence. }
    destruct (i =? j) eqn:Hij; cbn; rewrite ?Hb; cbn beta iota.
    + split; [apply elem_of_app; by left|]. split; [done|].
      rewrite Exists_app, Exists_cons, Exists_nil, Htied.
      assert (¬ ties (j, d) (i, c)) by (unfold ties; cbn; lia). tauto.
    + split; [apply elem_of_app; by left|]. split; [done|].
      split; [|done]. intros _. apply Exists_app. right. constructor. by split; [|cbn; lia].
  - rewrite Hb. cbn beta iota. split; [apply elem_of_app; by left|]. split.
    + apply Forall_app. split; [done|]. constructor; [|constructor]. unfold below. cbn. congruence.
    + rewrite Exists_app, Exists_cons, Exists_nil, Htied.
      assert (¬ ties (j, d) (i, c)) by (unfold ties; cbn; rewrite Hcd; naive_solver). tauto.
  - split; [apply elem_of_app; right; by left|].
    assert (Hlt : ∀ x, x ∈ l → f32_cmp x.2 c = Lt).
    { intros x Hx. pose proof (Hl _ Hx) as Hxn. rewrite Forall_forall in Hbelow.
      pose proof (Hbelow _ Hx) as Hxd. unfold below in Hxd. cbn in Hxd.
      assert (Hdc : f32_cmp d c = Lt).
      { rewrite (cmp_opp (cmp := f32_cmp) c d), Hcd by done. done. }
      destruct (f32_cmp x.2 d) eqn:Hc; [|by apply (cmp_trans (cmp := f32_cmp) x.2 d c)|done].
      by rewrite (cmp_eq_l (cmp := f32_cmp) x.2 d c). }
    split.
    + apply Forall_app. split.
      * apply Forall_forall. intros x Hx. unfold below. cbn. by rewrite Hlt.
      * constructor; [|constructor]. unfold below. cbn. by rewrite f32_cmp_same.
    + split; [done|]. rewrite Exists_app, Exists_cons, Exists_nil. unfold ties. cbn.
      intros [Hex|[[_ ?]|[]]]; [|done]. apply Exists_exists in Hex as (x & Hx & Heq & _).
      by rewrite Hlt in Heq.
Qed.
Lemma consider_all_best l : Forall number_confidence l → best_of l (consider_all l).
Proof.
  unfold consider_all. induction l as [|ic l IH] using rev_ind; [done|].
  intros [Hl [Hic _]%Forall_cons]%Forall_app. rewrite foldl_app. cbn. by apply consider_best, IH.
Qed.

(** ** The stages of a call *)
Definition answer_as (confidence : f32) (s : ResolutionStrategy) (found : option Z)
  : option (Z * f32 * ResolutionStrategy) :=
  (λ candidate, (candidate, confidence, s)) <$> found.
Definition guard_with {A} (test : bool) (o : option A) : option A := if test then o else None.
Definition first_some {A} : list (option A) → option A := find_map id.
Definition id_and_confidence (c : SemanticResolutionCandidate) : Z * f32 :=
  (target_node_id c, confidence c).
(** The semantic candidates that may be chosen: all, or for a common name the certain ones
    of a known call site. *)
Definition kept_semantic (row : UnresolvedEdgeRow) (l : list SemanticResolutionCandidate)
  : list (Z * f32) :=
  id_and_confidence <$>
    List.filter (λ c, should_keep_common_call_resolution (call_name row).1 (confidence c)
                        (row_callsite_identity row)) l.

(** The reference: the answers of the stages in order, and the first of them. *)
Definition local_answers (pass : ResolutionPass) (index : CandidateIndex) (row : UnresolvedEdgeRow)
  : list (option (Z * f32 * ResolutionStrategy)) :=
  let name := call_name row in
  let common := is_common_unqualified_call_name name.1 in
  [guard_with (negb common && is_import_binding_node index (row_target_node_id row))
     (answer_as (call_same_file (policy pass)) CallSameFile (Some (row_target_node_id row)));
   guard_with (negb common)
     (answer_as (call_same_file (policy pass)) CallSameFile
        (run_direct index (find_same_file_readonly (row_file_id row) name.1 name.2)));
   guard_with (negb common)
     (answer_as (call_same_module (policy pass)) CallSameModule
        ((row_caller_qualified row ≫= module_prefix) ≫=
           λ prefix, run_direct index (find_same_module_readonly prefix.1 prefix.2 name.1 name.2)))].
Definition semantic_answer (best : UnambiguousBestCandidate) : option (Z * f32 * ResolutionStrategy) :=
  (λ ic, (ic.1, ic.2, CallSemanticFallback)) <$> selected_best best.
Definition global_answers (pass : ResolutionPass) (index : CandidateIndex) (row : UnresolvedEdgeRow)
    (best : UnambiguousBestCandidate) : list (option (Z * f32 * ResolutionStrategy)) :=
  let name := call_name row in
  let common := is_common_unqualified_call_name name.1 in
  let qualified := is_owner_qualified_call_name name.1 in
  [guard_with (negb common)
     (answer_as (if qualified then call_same_file (policy pass) else call_global_unique (policy pass))
        CallGlobalUnique (run_direct index (find_global_unique_exact_readonly name.1 name.2)));
   guard_with qualified
     (answer_as (call_same_file (policy pass)) CallGlobalUnique
        (run_direct index (find_global_unique_owner_alias_readonly name.1 name.2)));
   guard_with (negb qualified) (semantic_answer best)].
Definition call_reference (pass : ResolutionPass) (index : CandidateIndex)
    (row : UnresolvedEdgeRow) (semantic_candidates : list SemanticResolutionCandidate)
  : option (Z * f32 * ResolutionStrategy) :=
  let best := consider_all (kept_semantic row semantic_candidates) in
  match receiver_owner_from_callsite (row_callsite_identity row),
        receiver_module_from_callsite (row_callsite_identity row) with
  | Some owner, Some module =>
      answer_as (call_same_file (policy pass)) CallGlobalUnique
        (find_imported_owner_member_readonly index (row_caller_file_path row) module owner
           (row_target_name row))
  | Some _, None => first_some (local_answers pass index row)
  | None, _ =>
      if member_call_placeholder EdgeKind.CALL (row_callsite_identity row) then None
      else first_some (local_answers pass index row ++ global_answers pass index row best)
  end.

Lemma option_or_assoc {A} (a b c : option A) :
  option_or a (option_or b c) = option_or (option_or a b) c.
Proof. by destruct a. Qed.
Lemma first_some_cons {A} (o : option A) l : first_some (o :: l) = option_or o (first_some l).
Proof. by destruct o. Qed.
Lemma keep_uncommon name conf site :
  is_common_unqualified_call_name name = false →
  should_keep_common_call_resolution name conf site = true.
Proof. intros H. unfold should_keep_common_call_resolution. by rewrite H. Qed.
Lemma common_not_qualified name :
  is_common_unqualified_call_name name = true → is_owner_qualified_call_name name = false.
Proof.
  unfold is_common_unqualified_call_name, is_owner_qualified_call_name. by destruct (_ || _).
Qed.

(** Whatever is recorded, the choice is only filled once. *)
Lemma stage_choice pass index test lookup conf s c :
  selected (run_direct index (lookup_stage pass test lookup conf s c)) =
  option_or (selected c) (guard_with test (answer_as conf s (run_direct index lookup))).
Proof.
  unfold lookup_stage, is_open. destruct (selected c) as [x|] eqn:Hc; [done|].
  destruct test; [|done]. cbn. rewrite run_direct_bind. by destruct (run_direct index lookup).
Qed.
Lemma same_module_choice pass index row name common c :
  selected (run_direct index (same_module_stage pass row name common c)) =
  option_or (selected c)
    (guard_with (negb common)
       (answer_as (call_same_module (policy pass)) CallSameModule
          ((row_caller_qualified row ≫= module_prefix) ≫=
             λ prefix, run_direct index (find_same_module_readonly prefix.1 prefix.2 name.1 name.2)))).
Proof.
  unfold same_module_stage, is_open. destruct (selected c) as [x|] eqn:Hc; cbn [negb].
  { destruct (row_caller_qualified row ≫= module_prefix); cbn; by rewrite Hc. }
  destruct (row_caller_qualified row ≫= module_prefix) as [prefix|]; cbn [mbind option_bind].
  2:{ cbn. rewrite Hc. by destruct common. }
  destruct (negb common || store_candidates (flags pass)) eqn:Ht; cbn [andb].
  - rewrite run_direct_bind. destruct (run_direct index (find_same_module_readonly _ _ _ _)); cbn.
    + by destruct common.
    + rewrite Hc. by destruct common.
  - apply orb_false_iff in Ht as [Ht _]. apply negb_false_iff in Ht as ->. cbn. by rewrite Hc.
Qed.
Lemma semantic_calls_best pass row l :
  (semantic_calls pass row l).2 = consider_all (kept_semantic row l).
Proof.
  unfold semantic_calls, kept_semantic, consider_all. cbv zeta.
  induction l as [|c l IH] using rev_ind; [done|].
  rewrite foldl_app, List.filter_app, fmap_app, foldl_app, <-IH.
  destruct (foldl _ (no_candidates, no_best) l) as [ids best]. cbn [foldl snd List.filter].
  destruct (is_common_unqualified_call_name (call_name row).1) eqn:Hc; cbn [negb orb].
  - by destruct (should_keep_common_call_resolution _ _ _).
  - by rewrite keep_uncommon.
Qed.
(** The best candidate of a list is one of it. *)
Lemma consider_all_elem l ic : best (consider_all l) = Some ic → ic ∈ l.
Proof.
  unfold consider_all. revert ic. induction l as [|x l IH] using rev_ind; [done|].
  intros ic. rewrite foldl_app, elem_of_app. cbn [foldl].
  generalize dependent (foldl (λ u ic : _, consider u ic.1 ic.2) no_best l). intros u IH.
  unfold consider. destruct (best u) as [[j d]|] eqn:Hb; cbn.
  - destruct (f32_gt x.2 d); cbn; [intros [= <-]; right; destruct x; by left|].
    destruct (_ && _); cbn; [intros [= <-]|rewrite Hb; intros [= <-]]; left; by apply IH.
  - intros [= <-]. right. destruct x. by left.
Qed.
Lemma selected_best_elem l ic : selected_best (consider_all l) = Some ic → ic ∈ l.
Proof. unfold selected_best. destruct (tied_best _); [done|]. apply consider_all_elem. Qed.

(** ** What is recorded

    The recorded ids are distinct; with [store_candidates] they hold the semantic
    candidates and the choice, without it there are none. *)
Definition recorded (pass : ResolutionPass) (base : list Z) (c : Choice) : Prop :=
  oc_ok (candidate_ids c) ∧
  if store_candidates (flags pass) then
    (∀ x, x ∈ base → x ∈ ordered (candidate_ids c)) ∧
    (∀ target conf s, selected c = Some (target, conf, s) → target ∈ ordered (candidate_ids c))
  else candidate_ids c = no_candidates.

Lemma record_candidate_ok pass ids x : oc_ok ids → oc_ok (record_candidate pass ids x).
Proof. unfold record_candidate. destruct (store_candidates _); [apply oc_push_ok|done]. Qed.
#[local] Hint Resolve record_candidate_ok : resolver.
(** Recording a candidate, chosen or not. *)
Lemma record_recorded pass base c x sel :
  recorded pass base c → (sel = selected c ∨ ∃ conf s, sel = Some (x, conf, s)) →
  recorded pass base {| selected := sel; candidate_ids := record_candidate pass (candidate_ids c) x |}.
Proof.
  intros [Hok Hrec] Hsel. split; cbn; [eauto with resolver|]. unfold record_candidate.
  destruct (store_candidates (flags pass)); [|done]. destruct Hrec as [Hb Hs].
  setoid_rewrite (oc_push_elem _ _ _ Hok). split; [eauto|]. intros t conf s Ht.
  destruct Hsel as [->|(?&?&->)]; [eauto|]. left. by simplify_eq.
Qed.
Lemma choose_recorded pass base c x conf s : recorded pass base c → recorded pass base (choose pass c x conf s).
Proof. intros H. apply record_recorded; eauto. Qed.
Lemma close_recorded pass base c : recorded pass base c →
  recorded pass base {| selected := None; candidate_ids := candidate_ids c |}.
Proof.
  intros [Hok Hrec]. split; cbn; [done|]. destruct (store_candidates _); naive_solver.
Qed.
Lemma stage_recorded pass base index test lookup conf s c :
  recorded pass base c → recorded pass base (run_direct index (lookup_stage pass test lookup conf s c)).
Proof.
  intros H. unfold lookup_stage. destruct (_ && _); [|done]. rewrite run_direct_bind.
  destruct (run_direct index lookup); [by apply choose_recorded|done].
Qed.
Lemma same_module_recorded pass base index row name common c :
  recorded pass base c →
  recorded pass base (run_direct index (same_module_stage pass row name common c)).
Proof.
  intros H. unfold same_module_stage. destruct (_ ≫= _); [|done]. destruct (_ && _); [|done].
  rewrite run_direct_bind. destruct (run_direct index (find_same_module_readonly _ _ _ _)); [|done]. cbn.
  destruct common; apply record_recorded; eauto.
Qed.
Definition oc_grows (c c' : OrderedCandidateIds) : Prop :=
  oc_ok c' ∧ ∀ x, x ∈ ordered c → x ∈ ordered c'.
Lemma oc_push_grows c x : oc_ok c → oc_grows c (oc_push c x).
Proof. intros Hc. split; [eauto with resolver|]. intros y Hy. apply (oc_push_elem _ _ _ Hc). by right. Qed.
Lemma oc_grows_refl c : oc_ok c → oc_grows c c.
Proof. by split. Qed.
#[local] Hint Resolve oc_grows_refl : resolver.
Lemma oc_grows_trans c1 c2 c3 : oc_grows c1 c2 → oc_grows c2 c3 → oc_grows c1 c3.
Proof. intros [_ H1] [? H2]. split; auto. Qed.
Lemma pool_ids_grows ids out limit : oc_ok out → oc_grows out (pool_ids ids out limit).1.
Proof.
  revert out. induction ids as [|id ids IH]; intros out Hok; cbn; [eauto with resolver|].
  pose proof (oc_push_grows out id Hok) as Hg. destruct (_ <=? _)%nat; [done|].
  eapply oc_grows_trans; [exact Hg|]. apply IH, Hg.
Qed.
Lemma pool_names_grows index names out limit : oc_ok out → oc_grows out (pool_names index names out limit).
Proof.
  revert out. induction names as [|n names IH]; intros out Hok; cbn [pool_names]; [eauto with resolver|].
  pose proof (pool_ids_grows (top_matches_readonly index n.1 n.2 3) out limit Hok) as Hg.
  destruct (pool_ids _ out limit) as [out' stop]. cbn in Hg. destruct stop; [done|].
  eapply oc_grows_trans; [exact Hg|]. apply IH, Hg.
Qed.
Lemma pool_grows index names out limit :
  oc_ok out → oc_grows out (collect_candidate_pool_from_index index names out limit).
Proof.
  intros Hok. unfold collect_candidate_pool_from_index. destruct (_ <=? _)%nat; [eauto with resolver|].
  by apply pool_names_grows.
Qed.
Lemma grow_recorded pass base c ids :
  recorded pass base c → store_candidates (flags pass) = true → oc_grows (candidate_ids c) ids →
  recorded pass base {| selected := selected c; candidate_ids := ids |}.
Proof.
  intros [Hok Hrec] Hs [Hok' Hg]. split; cbn; [done|]. rewrite Hs in *. naive_solver.
Qed.
Lemma semantic_calls_recorded pass row l :
  recorded pass (target_node_id <$> l)
    {| selected := None; candidate_ids := (semantic_calls pass row l).1 |}.
Proof.
  unfold semantic_calls. cbv zeta. induction l as [|c l IH] using rev_ind.
  { split; cbn; [eauto with resolver|]. destruct (store_candidates _); [|done].
    split; [by intros x ?%elem_of_nil|done]. }
  rewrite foldl_app. destruct (foldl _ (no_candidates, no_best) l) as [ids best].
  destruct IH as [Hok Hrec]. cbn in Hok, Hrec |- *. split; cbn; [eauto with resolver|].
  unfold record_candidate. destruct (store_candidates (flags pass)); [|done].
  split; [|done]. intros x. rewrite fmap_app, elem_of_app, (oc_push_elem _ _ _ Hok).
  cbn. rewrite list_elem_of_singleton. naive_solver.
Qed.

(** A computation that ends with a choice and what it recorded. *)
Definition settles (pass : ResolutionPass) (base : list Z) (edge_id : Z)
    (choice : option (Z * f32 * ResolutionStrategy)) (r : ComputedResolution) : Prop :=
  ∃ c, r = finish edge_id c ∧ selected c = choice ∧ recorded pass base c.
Lemma settles_eq pass base edge_id choice choice' r :
  settles pass base edge_id choice r → choice = choice' → settles pass base edge_id choice' r.
Proof. by intros H <-. Qed.

(** A name that is common leaves the choice to the semantic candidates. *)
Definition left_open (row : UnresolvedEdgeRow) (c : Choice) : Prop :=
  is_common_unqualified_call_name (call_name row).1 = true → selected c = None.
Definition keeps (base : list Z) (row : UnresolvedEdgeRow) (best : UnambiguousBestCandidate) : Prop :=
  ∀ ic, selected_best best = Some ic → ic.1 ∈ base ∧
    should_keep_common_call_resolution (call_name row).1 ic.2 (row_callsite_identity row) = true.
Lemma global_settles pass base index row best c :
  recorded pass base c → left_open row c → keeps base row best →
  settles pass base (row_edge_id row)
    (option_or (selected c) (first_some (global_answers pass index row best)))
    (run_direct index (global_stages pass index row best c)).
Proof.
  intros Hrec Hcommon Hbest. unfold global_stages, global_answers. cbv zeta.
  set (name := call_name row). set (common := is_common_unqualified_call_name name.1).
  set (qualified := is_owner_qualified_call_name name.1). rewrite run_direct_bind.
  set (c1 := run_direct index (lookup_stage pass (negb common) _ _ CallGlobalUnique c)).
  assert (Hs1 : selected c1 = _) by apply stage_choice.
  assert (Hr1 : recorded pass base c1) by (by apply stage_recorded).
  rewrite run_direct_bind.
  set (c2 := run_direct index (lookup_stage pass qualified _ _ CallGlobalUnique c1)).
  assert (Hs2 : selected c2 = _) by apply stage_choice.
  assert (Hr2 : recorded pass base c2) by (by apply stage_recorded).
  clearbody c1 c2. rewrite Hs1, <-option_or_assoc in Hs2. cbn [run_direct mret lookups_ret].
  set (c3 := if store_candidates (flags pass) && is_open c2 then _ else c2).
  assert (recorded pass base c3 ∧ selected c3 = selected c2) as [Hr3 Hs3].
  { unfold c3. destruct (store_candidates (flags pass)) eqn:Hst, (is_open c2); try done.
    split; [|done]. apply grow_recorded; [done..|]. apply pool_grows, Hr2. }
  clearbody c3. rewrite Hs2 in Hs3.
  assert (Hsem : ∀ ic, selected_best best = Some ic → recorded pass base
    {| selected := Some (ic.1, ic.2, CallSemanticFallback); candidate_ids := candidate_ids c3 |}).
  { intros ic Hic. destruct (Hbest ic Hic) as [Hin _]. destruct Hr3 as [Hok H]. split; cbn; [done|].
    destruct (store_candidates _); [|done]. destruct H as [Hb _]. split; [done|].
    intros t conf s [= <- _ _]. by apply Hb. }
  set (c4 := if is_open c3 && negb qualified then _ else c3).
  assert (recorded pass base c4 ∧ selected c4 = option_or (selected c3)
                  (guard_with (negb qualified) (semantic_answer best))) as [Hr4 Hs4].
  { unfold c4, is_open, semantic_answer. destruct (selected c3) eqn:Hsel; cbn; [done|].
    destruct qualified; cbn; [done|]. destruct (selected_best best) as [[i conf]|] eqn:Hb; cbn; [|done].
    split; [exact (Hsem (i, conf) eq_refl)|done]. }
  clearbody c4. rewrite Hs3, <-!option_or_assoc in Hs4.
  exists c4. split; [|split; [|done]].
  - f_equal. destruct (selected c4) as [[[t conf] s]|] eqn:Hsel; [|done].
    assert (should_keep_common_call_resolution name.1 conf (row_callsite_identity row) = true) as ->; [|done].
    destruct common eqn:Hc; [|by apply keep_uncommon].
    assert (qualified = false) as Hq by (by apply common_not_qualified). rewrite Hq in *.
    rewrite Hcommon in Hs4 by done. cbn in Hs4. unfold semantic_answer in Hs4.
    destruct (selected_best best) as [ic|] eqn:Hb; cbn in Hs4; [|done].
    injection Hs4 as -> -> _. by apply Hbest.
  - rewrite Hs4. rewrite !first_some_cons. by destruct (guard_with (negb qualified) _).
Qed.

Lemma kept_semantic_spec row l ic :
  ic ∈ kept_semantic row l →
  ic.1 ∈ target_node_id <$> l ∧
  should_keep_common_call_resolution (call_name row).1 ic.2 (row_callsite_identity row) = true.
Proof.
  unfold kept_semantic. intros (c & -> & Hc)%list_elem_of_fmap.
  rewrite list_elem_of_In, List.filter_In, <-list_elem_of_In in Hc. destruct Hc as [Hc Hk].
  split; [|done]. apply list_elem_of_fmap. by exists c.
Qed.
Lemma call_name_qualified row owner :
  receiver_owner_from_callsite (row_callsite_identity row) = Some owner →
  is_common_unqualified_call_name (call_name row).1 = false.
Proof.
  intros Ho. unfold call_name. rewrite Ho. cbn.
  destruct (is_common_unqualified_call_name _) eqn:Hc; [|done].
  apply common_not_qualified in Hc. unfold is_owner_qualified_call_name in Hc.
  apply orb_false_iff in Hc as [_ Hc]. exfalso. clear Ho. revert Hc.
  induction owner as [|a owner IH]; intros Hc; [by destruct (row_target_name row)|].
  apply IH. cbn in Hc. by apply orb_false_iff in Hc as [_ Hc].
Qed.
Lemma unresolved_settles pass base edge_id ids :
  recorded pass base {| selected := None; candidate_ids := ids |} →
  settles pass base edge_id None (unresolved edge_id ids).
Proof. intros H. by eexists. Qed.

(** The stages from the binding on; a receiver without a module stops after the local ones. *)
Lemma local_settles pass base index row best c (owned free : bool) :
  let name := call_name row in
  let common := is_common_unqualified_call_name name.1 in
  recorded pass base c → left_open row c → keeps base row best →
  settles pass base (row_edge_id row)
    (option_or (selected c)
       (first_some (local_answers pass index row
                    ++ if owned && free then [] else global_answers pass index row best)))
    (run_direct index
       (c ← lookup_stage pass (negb common)
              (find_same_file_readonly (row_file_id row) name.1 name.2)
              (call_same_file (policy pass)) CallSameFile
              (if is_open c && negb common && is_import_binding_node index (row_target_node_id row)
               then choose pass c (row_target_node_id row) (call_same_file (policy pass)) CallSameFile
               else c);
        c ← same_module_stage pass row name common c;
        if is_open c && owned && free then mret (unresolved (row_edge_id row) (candidate_ids c))
        else global_stages pass index row best c)).
Proof.
  intros name common Hrec Hopen Hkeeps. unfold local_answers. cbv zeta. fold name. fold common.
  set (c1 := if is_open c && negb common && _ then _ else c).
  assert (recorded pass base c1 ∧ selected c1 = option_or (selected c)
    (guard_with (negb common && is_import_binding_node index (row_target_node_id row))
     (answer_as (call_same_file (policy pass)) CallSameFile (Some (row_target_node_id row)))))
    as [Hr1 Hs1].
  { unfold c1, is_open. destruct (selected c) eqn:Hsel; cbn; [done|].
    destruct (negb common && _); cbn; [|done]. split; [by apply choose_recorded|done]. }
  clearbody c1. rewrite run_direct_bind.
  set (c2 := run_direct index (lookup_stage pass (negb common) _ _ CallSameFile c1)).
  assert (Hs2 : selected c2 = _) by apply stage_choice.
  assert (Hr2 : recorded pass base c2) by (by apply stage_recorded).
  clearbody c2. rewrite Hs1 in Hs2. rewrite run_direct_bind.
  set (c3 := run_direct index (same_module_stage pass row name common c2)).
  assert (Hs3 : selected c3 = _) by apply same_module_choice.
  assert (Hr3 : recorded pass base c3) by (by apply same_module_recorded).
  clearbody c3. rewrite Hs2 in Hs3.
  assert (Hopen3 : left_open row c3).
  { intros Hc. fold name in Hc. fold common in Hc. by rewrite Hs3, Hopen, Hc. }
  cbn [app]. rewrite !first_some_cons, !option_or_assoc, <-Hs3.
  rewrite <-andb_assoc. destruct (owned && free); rewrite ?andb_true_r, ?andb_false_r; [|by apply global_settles].
  unfold is_open. destruct (selected c3) eqn:Hsel.
  - eapply settles_eq; [by apply global_settles|]. by rewrite Hsel.
  - apply unresolved_settles. by apply close_recorded.
Qed.
Lemma call_settles pass index row semantic_candidates :
  member_call_placeholder EdgeKind.CALL (row_callsite_identity row)
    && bool_decide (receiver_owner_from_callsite (row_callsite_identity row) = None) = false →
  settles pass (target_node_id <$> semantic_candidates) (row_edge_id row)
    (call_reference pass index row semantic_candidates)
    (run_direct index (compute_call_resolution pass index row semantic_candidates)).
Proof.
  intros Hp. unfold compute_call_resolution, call_reference. cbv zeta. rewrite Hp.
  pose proof (semantic_calls_recorded pass row semantic_candidates) as Hrec.
  pose proof (semantic_calls_best pass row semantic_candidates) as Hbest.
  destruct (semantic_calls pass row semantic_candidates) as [ids best]. cbn in Hrec, Hbest.
  assert (Hkeeps : keeps (target_node_id <$> semantic_candidates) row best).
  { intros ic. rewrite Hbest. intros H%selected_best_elem. by apply kept_semantic_spec. }
  rewrite <-Hbest. unfold imported_owner_stage.
  destruct (receiver_owner_from_callsite (row_callsite_identity row)) as [owner|] eqn:Ho;
    [destruct (receiver_module_from_callsite (row_callsite_identity row)) as [module|] eqn:Hm|].
  - pose proof (call_name_qualified row owner Ho) as Hc.
    destruct (find_imported_owner_member_readonly _ _ _ _ _) as [candidate|]; cbn [mbind option_bind].
    2:{ by apply unresolved_settles. }
    eapply settles_eq; [apply (local_settles _ _ _ _ _ _ true false)|]; [by apply choose_recorded| |done..].
    intros ?. congruence.
  - pose proof (call_name_qualified row owner Ho) as Hc.
    eapply settles_eq; [apply (local_settles _ _ _ _ _ _ true true)|]; [done..|]. by rewrite app_nil_r.
  - rewrite andb_true_r in Hp. rewrite Hp.
    eapply settles_eq; [apply (local_settles _ _ _ _ _ _ false (bool_decide _))|]; done.
Qed.

(** * What an import resolves to

    The loop over the names of an import as a search for the first name with an answer,
    whatever is recorded on the way. *)
(** ** The names of an import *)
Section ImportNames.
Context (pass : ResolutionPass) (index : CandidateIndex) (row : UnresolvedEdgeRow).
Let legacy : bool := legacy_mode (flags pass).

Definition module_answer (name : PreparedName) : option Z :=
  (row_caller_qualified row ≫= module_prefix) ≫=
    λ prefix, run_direct index (find_same_module_readonly prefix.1 prefix.2 name.1 name.2).
(** What one name gives: in legacy mode a node of the file, else the first of the module,
    the global and the fuzzy answer that is in another file. *)
Definition name_answer (name : PreparedName) : option (Z * f32 * ResolutionStrategy) :=
  first_some
    [guard_with legacy
       (answer_as (import_same_file (policy pass)) ImportSameFile
          (run_direct index (find_same_file_readonly (row_file_id row) name.1 name.2)));
     answer_as (import_same_module (policy pass)) ImportSameModule
       (module_answer name ≫= other_file index row);
     answer_as (import_global_unique (policy pass)) ImportGlobalUnique
       (run_direct index (find_global_unique_readonly name.1 name.2) ≫= other_file index row);
     guard_with (negb legacy)
       (answer_as (import_fuzzy (policy pass)) ImportFuzzy
          (run_direct index (find_fuzzy_readonly name.1 name.2) ≫= other_file index row))].

Definition met_ok (chosen : option Z) (met : OrderedCandidateIds) : Prop :=
  oc_ok met ∧ ∀ x, chosen = Some x → x ∈ ordered met.
Definition stages_ok (s : ImportStages) : Prop :=
  met_ok (same_file_selected s) (same_file_met s) ∧
  met_ok (same_module_selected s) (same_module_met s) ∧
  met_ok (global_selected s) (global_met s) ∧ met_ok (fuzzy_selected s) (fuzzy_met s) ∧
  if legacy then fuzzy_selected s = None else same_file_selected s = None.
Definition none_selected (s : ImportStages) : Prop :=
  same_file_selected s = None ∧ same_module_selected s = None ∧ global_selected s = None ∧
  fuzzy_selected s = None.

Lemma meet_ok found met : oc_ok met →
  let m := meet index row found None met in
  m.1 = found ≫= other_file index row ∧ met_ok m.1 m.2.
Proof.
  intros Hok. destruct found as [x|]; cbn; [|done]. split; [done|]. split; [eauto with resolver|].
  intros y. unfold other_file. destruct (is_same_file_candidate _ _ _); [done|]. intros [= <-].
  apply (oc_push_elem _ _ _ Hok). by left.
Qed.
Lemma run_lookup_if (cond : bool) (lookup : Lookups (option Z)) :
  run_direct index (lookup_if cond lookup) = guard_with cond (run_direct index lookup).
Proof. by destruct cond. Qed.
Lemma guard_with_Some {A} (b : bool) (o : option A) x : guard_with b o = Some x → b = true ∧ o = Some x.
Proof. by destruct b. Qed.
Lemma guard_answer (b : bool) conf s o :
  guard_with b (answer_as conf s o) = answer_as conf s (guard_with b o).
Proof. by destruct b. Qed.
Lemma run_module_lookup name :
  run_direct index
    (match row_caller_qualified row ≫= module_prefix with
     | Some prefix => lookup_if true (find_same_module_readonly prefix.1 prefix.2 name.1 name.2)
     | None => mret None
     end) = module_answer name.
Proof. unfold module_answer. by destruct (row_caller_qualified row ≫= module_prefix). Qed.

Lemma import_loop_spec names s :
  none_selected s → stages_ok s →
  let s' := run_direct index (import_loop pass index row names s) in
  select_import pass None s' = find_map name_answer names ∧ stages_ok s'.
Proof.
  revert s. induction names as [|name names IH]; intros s (Hsf & Hsm & Hg & Hf) Hok.
  { cbn. unfold select_import. by rewrite Hsf, Hsm, Hg, Hf. }
  destruct Hok as ([Hok1 _] & [Hok2 _] & [Hok3 _] & [Hok4 _] & _).
  cbn [import_loop find_map]. rewrite run_direct_bind, run_lookup_if, Hsf. cbn [is_none].
  rewrite andb_true_r. fold legacy. unfold name_answer at 1. rewrite !first_some_cons.
  destruct (guard_with legacy _) as [x|] eqn:Hin.
  { apply guard_with_Some in Hin as [Hl Hx]. cbn. rewrite Hl, Hx. cbn. split; [done|].
    split; [split; [eauto with resolver|]|].
    { intros y [= <-]. apply (oc_push_elem _ _ _ Hok1). by left. }
    unfold met_ok in *. cbn. rewrite Hl, Hsm, Hg, Hf. by split_and!. }
  rewrite guard_answer, Hin. rewrite run_direct_bind, Hsm, Hg, Hf. cbn [is_none]. rewrite run_module_lookup.
  destruct (meet_ok (module_answer name) _ Hok2) as [Hm1 Hm2].
  destruct (meet index row (module_answer name) None (same_module_met s)) as [in_module module_met].
  cbn [fst snd] in Hm1, Hm2. rewrite run_direct_bind, run_lookup_if. cbn [guard_with].
  destruct (meet_ok (run_direct index (find_global_unique_readonly name.1 name.2)) _ Hok3) as [Hg1 Hg2].
  destruct (meet index row (run_direct index (find_global_unique_readonly name.1 name.2)) None
              (global_met s)) as [global global_met'].
  cbn [fst snd] in Hg1, Hg2. rewrite run_direct_bind, run_lookup_if, andb_true_r. fold legacy.
  set (fz := guard_with (negb legacy) (run_direct index (find_fuzzy_readonly name.1 name.2))).
  destruct (meet_ok fz _ Hok4) as [Hf1 Hf2].
  destruct (meet index row fz None (fuzzy_met s)) as [fuzzy fuzzy_met'].
  cbn [fst snd] in Hf1, Hf2. rewrite <-Hm1, <-Hg1.
  assert (guard_with (negb legacy) (answer_as (import_fuzzy (policy pass)) ImportFuzzy
    (run_direct index (find_fuzzy_readonly name.1 name.2) ≫= other_file index row))
    = answer_as (import_fuzzy (policy pass)) ImportFuzzy fuzzy) as ->.
  { rewrite guard_answer, Hf1. unfold fz. by destruct (negb legacy). }
  assert (Hleg : legacy = true → fuzzy = None).
  { intros Hl. rewrite Hf1. unfold fz. by rewrite Hl. }
  set (s' := {| same_file_selected := _ |}).
  assert (Hs' : stages_ok s').
  { split_and!; cbn; [by split|done..|]. destruct legacy; [by apply Hleg|done]. }
  cbn [option_or]. destruct in_module as [m|]; [by split|]. destruct global as [g|]; [by split|].
  destruct fuzzy as [f|]; [by split|]. cbn [is_none andb]. by apply IH.
Qed.

(** The stages recorded after the loop hold what was selected. *)
Lemma extend_grows ids stage : oc_ok ids → oc_grows ids (oc_extend_stage ids stage None).
Proof.
  intros Hok. split; [by apply oc_pushes_ok|]. intros x Hx. apply (oc_pushes_elem _ _ _ Hok). by right.
Qed.
Lemma extend_elem ids stage x : oc_ok ids → x ∈ stage → x ∈ ordered (oc_extend_stage ids stage None).
Proof. intros Hok Hx. apply (oc_pushes_elem _ _ _ Hok). by left. Qed.
Lemma record_stages_ok s ids choice conf st :
  oc_ok ids → stages_ok s → store_candidates (flags pass) = true →
  oc_grows ids (record_stages pass s ids) ∧
  (select_import pass None s = Some (choice, conf, st) → choice ∈ ordered (record_stages pass s ids)).
Proof.
  intros Hok ([_ H1] & [_ H2] & [_ H3] & [_ H4] & Hleg) Hst. unfold record_stages, select_import.
  rewrite Hst. fold legacy. pose proof (extend_grows ids (ordered (same_module_met s)) Hok) as Hg1.
  pose proof (extend_grows _ (ordered (global_met s)) (proj1 Hg1)) as Hg2.
  pose proof (extend_grows _ (ordered (fuzzy_met s)) (proj1 Hg2)) as Hg3.
  pose proof (oc_grows_trans _ _ _ Hg1 Hg2) as Hg12.
  destruct (same_file_selected s) as [x|] eqn:Hx; cbn [is_none negb].
  { destruct legacy; [|done]. cbn [andb]. split; [by apply extend_grows|].
    intros [= <- _ _]. by apply extend_elem, H1. }
  rewrite andb_false_r. destruct (same_module_selected s) as [x|] eqn:Hm; cbn [is_none].
  { split; [done|]. intros [= <- _ _]. by apply extend_elem, H2. }
  destruct (global_selected s) as [x|] eqn:Hgl; cbn [is_none andb].
  { split; [done|]. intros [= <- _ _]. apply extend_elem; [apply Hg1|by apply H3]. }
  destruct legacy; cbn [negb].
  - rewrite Hleg. by split.
  - split; [by eapply oc_grows_trans|]. destruct (fuzzy_selected s) as [x|]; [|done]. cbn.
    intros [= <- _ _]. apply extend_elem; [apply Hg2|by apply H4].
Qed.
End ImportNames.

(** ** The whole import *)
Definition best_first (l : list (Z * f32)) : option (Z * f32) :=
  foldl (λ best ic, consider_selected best ic.1 ic.2) None l.
Definition import_alias (row : UnresolvedEdgeRow) : bool :=
  import_alias_mismatch (row_source_name row) (row_target_name row).
Definition relative_binding (row : UnresolvedEdgeRow) : bool :=
  is_import_binding_name (row_source_name row) && is_relative_import_module_name (row_target_name row).
(** The reference: a binding of a relative module asks for the file; a plain import asks for
    each name in turn, then takes the first best semantic candidate; an alias or a relative
    binding takes nothing else than a node of the file in legacy mode. *)
Definition import_reference (pass : ResolutionPass) (index : CandidateIndex)
    (row : UnresolvedEdgeRow) (semantic_candidates : list SemanticResolutionCandidate)
  : option (Z * f32 * ResolutionStrategy) :=
  let constrained := import_alias row || relative_binding row in
  let alias_name := prepare_name (row_source_name row) in
  let by_name :=
    find_map (name_answer pass index row)
      (prepare_name <$> import_name_candidates (row_target_name row) (legacy_mode (flags pass))) in
  first_some
    [guard_with (relative_binding row)
       (answer_as CERTAIN_MIN ImportSameModule
          (run_direct index (find_relative_import_readonly (row_caller_file_path row)
                               (row_target_name row) alias_name.1 alias_name.2)));
     guard_with (negb constrained || is_import_same_file by_name) by_name;
     guard_with (negb constrained)
       ((λ ic, (ic, ImportSemanticFallback)) <$> best_first (id_and_confidence <$> semantic_candidates))].

Lemma import_semantic pass l :
  let r := foldl (λ '(ids, fallback) candidate,
        (record_candidate pass ids (target_node_id candidate),
         consider_selected fallback (target_node_id candidate) (confidence candidate)))
      (no_candidates, None) l in
  r.2 = best_first (id_and_confidence <$> l) ∧
  recorded pass (target_node_id <$> l)
    {| selected := (λ ic, (ic, ImportSemanticFallback)) <$> r.2; candidate_ids := r.1 |}.
Proof.
  cbv zeta. unfold best_first. induction l as [|c l IH] using rev_ind.
  { split; [done|]. split; cbn; [eauto with resolver|]. destruct (store_candidates _); [|done].
    split; [by intros x ?%elem_of_nil|done]. }
  rewrite !fmap_app, !foldl_app. destruct IH as [Hb Hrec]. cbn [fmap list_fmap foldl].
  rewrite <-Hb. clear Hb. destruct (foldl _ (no_candidates, None) l) as [ids best]. cbn [fst snd] in *.
  split; [done|]. destruct Hrec as [Hok Hrec]. cbn in Hok, Hrec. split; cbn.
  { unfold record_candidate. destruct (store_candidates _); eauto with resolver. }
  unfold record_candidate. destruct (store_candidates (flags pass)); [|done].
  destruct Hrec as [Hbase Hsel]. split.
  - intros x. rewrite elem_of_app, list_elem_of_singleton, (oc_push_elem _ _ _ Hok). naive_solver.
  - intros t conf s Ht. apply (oc_push_elem _ _ _ Hok). unfold consider_selected in Ht.
    destruct best as [[i d]|]; [destruct (f32_gt _ _)|]; cbn in *; simplify_eq; eauto.
Qed.
Lemma import_settles pass index row semantic_candidates :
  settles pass (target_node_id <$> semantic_candidates) (row_edge_id row)
    (import_reference pass index row semantic_candidates)
    (run_direct index (compute_import_resolution pass index row semantic_candidates)).
Proof.
  unfold compute_import_resolution, import_reference. cbv zeta.
  fold (import_alias row). fold (relative_binding row).
  set (constrained := import_alias row || relative_binding row).
  destruct (import_semantic pass semantic_candidates) as [Hbest Hrec].
  destruct (foldl _ (no_candidates, None) semantic_candidates) as [ids fallback].
  cbn [fst snd] in Hbest, Hrec. rewrite <-Hbest, run_direct_bind, run_lookup_if, guard_answer.
  set (relative := guard_with (relative_binding row) (run_direct index _)).
  set (names := prepare_name <$> _). rewrite run_direct_bind.
  destruct (import_loop_spec pass index row names no_stages) as [Hsel Hst]; [done| |].
  { unfold stages_ok, met_ok. cbn. split_and!; eauto with resolver; try done. by destruct (legacy_mode _). }
  set (s := run_direct index (import_loop pass index row names no_stages)) in *.
  cbn [run_direct mret lookups_ret]. rewrite <-Hsel.
  set (choice := select_import pass relative s).
  set (kept := if (constrained && is_none relative && negb (is_import_same_file choice)) then None else choice).
  set (final := if is_none kept && negb constrained then _ else kept).
  set (ids1 := match relative with Some c => record_candidate pass ids c | None => ids end).
  set (ids2 := record_stages pass s ids1). set (ids3 := if store_candidates (flags pass) then _ else ids2).
  exists {| selected := final; candidate_ids := ids3 |}. split; [done|]. cbn [selected]. split.
  - unfold final, kept, choice. rewrite !first_some_cons. destruct relative as [r|]; [|cbn [answer_as fmap option_fmap option_map option_or]].
    { cbn. by rewrite andb_false_r. }
    generalize (select_import pass None s). intros by_name. cbn [is_none]. rewrite andb_true_r.
    destruct constrained; cbn [andb negb orb guard_with].
    + destruct (is_import_same_file by_name) eqn:Hs; cbn; [|done].
      rewrite andb_false_r. by destruct by_name.
    + destruct by_name; cbn; [done|]. by destruct fallback.
  - destruct Hrec as [Hok Hrec]. cbn [candidate_ids selected] in Hok, Hrec. unfold recorded.
    cbn [candidate_ids selected]. destruct (store_candidates (flags pass)) eqn:Hstore.
    2:{ assert (ids3 = ids) as ->; [|done]. unfold ids3, ids2, ids1, record_stages, record_candidate.
        rewrite Hstore. cbn [andb]. by destruct (legacy_mode _ && _), relative. }
    assert (Hg1 : oc_grows ids ids1).
    { unfold ids1, record_candidate. rewrite Hstore.
      destruct relative; [by apply oc_push_grows|by apply oc_grows_refl]. }
    assert (Hg2 : oc_grows ids1 ids2) by apply (record_stages_ok _ _ _ 0 CERTAIN_MIN ImportFuzzy (proj1 Hg1) Hst Hstore).
    assert (Hg3 : oc_grows ids2 ids3) by apply pool_grows, Hg2.
    pose proof (oc_grows_trans _ _ _ Hg2 Hg3) as Hg23.
    pose proof (oc_grows_trans _ _ _ Hg1 Hg23) as Hg. split; [apply Hg|].
    destruct Hrec as [Hbase Hfall]. split; [intros x Hx; apply Hg; auto|].
    intros t conf st Ht. unfold final in Ht. destruct (is_none kept && _).
    { apply Hg. by apply (Hfall t conf st). }
    unfold kept in Ht. destruct (constrained && _ && _); [done|]. unfold choice in Ht.
    destruct relative as [r|] eqn:Hr.
    + injection Ht as <- _ _. apply Hg23. unfold ids1, record_candidate. rewrite Hstore.
      apply (oc_push_elem _ _ _ Hok). by left.
    + apply Hg3. by apply (record_stages_ok _ _ _ t conf st (proj1 Hg1) Hst Hstore).
Qed.
