(* ===== verification/ResolveClaims.v ===== *)
(** * Claims about calls and imports

    What a call and an import resolve to, that the recorded candidates are sound, that
    common names are resolved only when certain and that imports lead to other files.

    The second part: the pass, edge by edge. *)
From S2P Require Import Prelude RustStr Graph Sorting StrOps Collections ResolveText ResolveIndex ResolveSelect.
From S2P Require Import ResolveSelectProofs ResolveCache LanguageSupport SemanticIndex ResolveStore.
From S2P Require Import ResolveOverrides ResolveSnapshot ResolvePass.

(** What a computed resolution says about the choice it was built from. *)
Definition says (row : UnresolvedEdgeRow) (choice : option (Z * f32 * ResolutionStrategy))
    (r : ComputedResolution) : Prop :=
  up_edge_id (update r) = row_edge_id row ∧
  up_resolved_target (update r) = (λ c, c.1.1) <$> choice ∧
  up_confidence (update r) = (λ c, c.1.2) <$> choice ∧
  up_certainty (update r) = (c ← choice; certainty_as_str <$> from_confidence (Some c.1.2)) ∧
  strategy r = (λ c, c.2) <$> choice ∧
  up_touch_metadata (update r) = bool_decide (is_Some choice).
Lemma settles_says pass base row choice r :
  settles pass base (row_edge_id row) choice r → says row choice r.
Proof.
  intros (c & -> & <- & _). unfold finish, says. cbn.
  destruct (selected c) as [[[t conf] s]|]; by split_and!.
Qed.
Definition payload_sound (pass : ResolutionPass) (r : ComputedResolution) : Prop :=
  ∃ ids, NoDup ids ∧ up_candidate_payload (update r) = candidate_json ids ∧
    if store_candidates (flags pass)
    then ∀ t, up_resolved_target (update r) = Some t → t ∈ ids
    else ids = [].
Lemma settles_payload pass base edge_id choice r :
  settles pass base edge_id choice r → payload_sound pass r.
Proof.
  intros (c & -> & _ & [[Hnd _] Hrec]). exists (ordered (candidate_ids c)). split; [done|].
  unfold finish. cbn [update]. split; [by destruct (fst <$> selected c) as [[]|]|].
  destruct (store_candidates (flags pass)); [|by rewrite Hrec]. destruct Hrec as [_ Hs].
  destruct (selected c) as [[[t conf] s]|]; cbn; [|done]. intros t' [= <-]. by apply (Hs t conf s).
Qed.
Lemma call_says pass index row semantic_candidates :
  says row (call_reference pass index row semantic_candidates)
    (run_direct index (compute_call_resolution pass index row semantic_candidates)).
Proof.
  destruct (member_call_placeholder EdgeKind.CALL (row_callsite_identity row)
    && bool_decide (receiver_owner_from_callsite (row_callsite_identity row) = None)) eqn:Hp.
  - unfold compute_call_resolution, call_reference. cbv zeta. rewrite Hp.
    apply andb_true_iff in Hp as [Hp Ho]. apply bool_decide_eq_true in Ho. rewrite Ho, Hp.
    by split_and!.
  - eapply settles_says. by apply call_settles.
Qed.

(** The only best: considering candidates one by one, in any order and however often
    the best changes, selects exactly the candidate that no other matches: every other
    candidate has a lower confidence, or is the same node; and nothing is selected only
    when there are no candidates or two different nodes share the highest confidence. *)
Theorem unambiguous_best_spec l :
  Forall number_confidence l →
  match selected_best (consider_all l) with
  | Some b => b ∈ l ∧ ∀ other, other ∈ l →
      f32_cmp other.2 b.2 = Lt ∨ (f32_cmp other.2 b.2 = Eq ∧ other.1 = b.1)
  | None => l = [] ∨ ∃ b other, b ∈ l ∧ other ∈ l ∧ ties b other ∧ Forall (below b) l
  end.
Proof.
  intros Hl. pose proof (consider_all_best l Hl) as H. unfold best_of, selected_best in *.
  destruct (best (consider_all l)) as [b|] eqn:Hb.
  - destruct H as (Hin & Hbelow & Htied). destruct (tied_best (consider_all l)).
    + right. pose proof (proj1 Htied eq_refl) as (o & Ho & Ht)%Exists_exists. by exists b, o.
    + split; [done|]. intros o Ho. rewrite Forall_forall in Hbelow.
      pose proof (Hbelow o Ho) as Hob. unfold below in Hob.
      destruct (f32_cmp o.2 b.2) eqn:Hc; [|by left|done]. right. split; [done|].
      destruct (decide (o.1 = b.1)) as [|Hne]; [done|]. exfalso.
      enough (false = true) by done. apply Htied, Exists_exists. exists o. by split.
  - destruct H as [-> ->]. by left.
Qed.
Lemma unambiguous_best_spec_witness :
  let l := [(1, f32_ratio 60 100); (2, f32_ratio 80 100); (2, f32_ratio 80 100); (3, f32_ratio 70 100)] in
  match selected_best (consider_all l) with
  | Some b => b ∈ l ∧ ∀ other, other ∈ l →
      f32_cmp other.2 b.2 = Lt ∨ (f32_cmp other.2 b.2 = Eq ∧ other.1 = b.1)
  | None => l = [] ∨ ∃ b other, b ∈ l ∧ other ∈ l ∧ ties b other ∧ Forall (below b) l
  end.
Proof.
  cbv zeta. apply unambiguous_best_spec.
  repeat (apply Forall_cons; split; [by vm_compute|]). apply Forall_nil; exact I.
Defined.

(** [C27] A call resolves to the first answer: a call without a receiver takes, in order, the
    import binding it targets, the node of the file, the node of the caller's module, the
    only exact node of the index, the only alias of its owner, and the only best semantic
    candidate; a receiver of an imported module takes the member of that module or nothing,
    a receiver without a module stops after the module, a placeholder takes nothing, and a
    common name only certain semantic candidates.  Recording candidates changes none of it;
    the update carries the answer's confidence and the certainty that this confidence has. *)
Theorem call_resolution_first_answer pass index row semantic_candidates :
  says row (call_reference pass index row semantic_candidates)
    (run_direct index (compute_call_resolution pass index row semantic_candidates)).
Proof. apply call_says. Qed.

(** An import resolves to the first name with an answer: a binding of a relative
    module is looked up in the files of that module; else the names are tried in turn,
    each in the caller's module, globally and fuzzily, and a node of the importing file
    does not count; an alias takes nothing more, any other import falls back on the first
    best semantic candidate. *)
Theorem import_resolution_first_name pass index row semantic_candidates :
  says row (import_reference pass index row semantic_candidates)
    (run_direct index (compute_import_resolution pass index row semantic_candidates)).
Proof. eapply settles_says, import_settles. Qed.

(** Recorded candidates: the payload of an update lists distinct node ids; when
    candidates are stored the chosen target of a call or import is among them, and when
    they are not stored there is no payload. *)
Theorem recorded_candidates_sound pass index row semantic_candidates compute :
  compute = compute_call_resolution ∨ compute = compute_import_resolution →
  payload_sound pass (run_direct index (compute pass index row semantic_candidates)).
Proof.
  intros [-> | ->]; [|eapply settles_payload, import_settles].
  destruct (member_call_placeholder EdgeKind.CALL (row_callsite_identity row)
    && bool_decide (receiver_owner_from_callsite (row_callsite_identity row) = None)) eqn:Hp.
  - unfold compute_call_resolution. cbv zeta. rewrite Hp. exists []. split; [constructor|].
    split; [done|]. by destruct (store_candidates _).
  - eapply settles_payload. by apply call_settles.
Qed.
Definition sample_row : UnresolvedEdgeRow :=
  {| row_edge_id := 7; row_file_id := Some 1; row_caller_qualified := Some (lit "app::main");
     row_source_name := lit "main"; row_target_name := lit "helper"; row_target_node_id := 9;
     row_caller_file_path := Some (lit "src/main.rs"); row_callsite_identity := None |}.
Definition sample_pass : ResolutionPass :=
  new_pass {| legacy_mode := false; enable_semantic := true; store_candidates := true;
              parallel_compute := false |}.
Definition sample_index : CandidateIndex :=
  from_primary_and_relative_nodes
    [candidate_node 4 (Some 1) None (lit "helper") None;
     candidate_node 5 (Some 2) None (lit "helper") None;
     candidate_node 6 (Some 2) None (lit "new") None] [].
Lemma recorded_candidates_sound_witness :
  (compute_call_resolution = compute_call_resolution ∨ compute_call_resolution = compute_import_resolution)
  ∧ payload_sound sample_pass
      (run_direct sample_index (compute_call_resolution sample_pass sample_index sample_row
         [{| target_node_id := 5; confidence := f32_ratio 9 10 |}])).
Proof. split; [by left|]. apply recorded_candidates_sound. by left. Defined.

(** Common names need certainty: a call of a common name (such as "push" or "len") that
    resolves at all has a call site, goes to one of the semantic candidates, and is marked
    as a certain semantic fallback. *)
Theorem common_calls_certain pass index row semantic_candidates t :
  is_common_unqualified_call_name (call_name row).1 = true →
  let r := run_direct index (compute_call_resolution pass index row semantic_candidates) in
  up_resolved_target (update r) = Some t →
  t ∈ target_node_id <$> semantic_candidates ∧ strategy r = Some CallSemanticFallback ∧
  up_certainty (update r) = Some (certainty_as_str Certain) ∧ is_Some (row_callsite_identity row).
Proof.
  intros Hc r Ht. destruct (call_says pass index row semantic_candidates) as (_&Ht'&_&Hcert&Hstrat&_).
  fold r in Ht', Hcert, Hstrat. rewrite Ht' in Ht. rewrite Hcert, Hstrat. clear Hcert Hstrat Ht'.
  pose proof (common_not_qualified _ Hc) as Hq.
  assert (Hsem : ∀ c, call_reference pass index row semantic_candidates = Some c →
    semantic_answer (consider_all (kept_semantic row semantic_candidates)) = Some c).
  { intros c. unfold call_reference, local_answers, global_answers. cbv zeta. rewrite Hc, Hq.
    generalize (member_call_placeholder EdgeKind.CALL (row_callsite_identity row)). intros placeholder.
    destruct (receiver_owner_from_callsite _) as [owner|] eqn:Ho.
    - by rewrite (call_name_qualified row owner Ho) in Hc.
    - destruct placeholder; [done|]. cbn [guard_with negb andb app]. rewrite !first_some_cons.
      by destruct (semantic_answer _). }
  destruct (call_reference _ _ _ _) as [c|]; [|done]. specialize (Hsem c eq_refl).
  unfold semantic_answer in Hsem. destruct (selected_best _) as [ic|] eqn:Hb; [|done].
  apply selected_best_elem, kept_semantic_spec in Hb as [Hin Hk].
  unfold should_keep_common_call_resolution in Hk. rewrite Hc in Hk. cbn [negb] in Hk.
  apply andb_true_iff in Hk as [Hk1%bool_decide_eq_true Hk2%bool_decide_eq_true].
  injection Hsem as <-. cbn in *. injection Ht as <-. by rewrite Hk1.
Qed.
Lemma common_calls_certain_witness :
  let row := {| row_edge_id := 7; row_file_id := Some 1; row_caller_qualified := None;
     row_source_name := lit "main"; row_target_name := lit "push"; row_target_node_id := 9;
     row_caller_file_path := None; row_callsite_identity := Some (lit "12:3") |} in
  let semantic := [{| target_node_id := 5; confidence := f32_ratio 9 10 |}] in
  let r := run_direct sample_index (compute_call_resolution sample_pass sample_index row semantic) in
  5 ∈ target_node_id <$> semantic ∧ strategy r = Some CallSemanticFallback ∧
  up_certainty (update r) = Some (certainty_as_str Certain) ∧ is_Some (row_callsite_identity row).
Proof. cbv zeta. apply common_calls_certain; by vm_compute. Defined.

Lemma option_or_Some {A} (o o' : option A) x : option_or o o' = Some x → o = Some x ∨ o' = Some x.
Proof. destruct o; cbn; eauto. Qed.
Lemma answer_as_Some conf s o c : answer_as conf s o = Some c → o = Some c.1.1 ∧ c.2 = s.
Proof. destruct o; cbn; [|done]. by intros [= <-]. Qed.

(** Imports lead elsewhere: outside the legacy mode, an import that is not a binding of
    a relative module never resolves to a node of its own file by name, and an alias does
    not resolve at all; only a semantic candidate can be in the file. *)
Theorem import_leaves_file pass index row semantic_candidates t :
  legacy_mode (flags pass) = false → relative_binding row = false →
  let r := run_direct index (compute_import_resolution pass index row semantic_candidates) in
  up_resolved_target (update r) = Some t →
  import_alias row = false ∧
  (strategy r = Some ImportSemanticFallback ∨ is_same_file_candidate index t (row_file_id row) = false).
Proof.
  intros Hleg Hrel r Ht.
  destruct (settles_says _ _ _ _ _ (import_settles pass index row semantic_candidates))
    as (_ & Ht' & _ & _ & Hstrat & _).
  fold r in Ht', Hstrat. rewrite Ht' in Ht. rewrite Hstrat. clear Hstrat Ht'.
  unfold import_reference in Ht |- *. cbv zeta in Ht |- *. rewrite Hrel, orb_false_r in *.
  cbn [guard_with] in Ht |- *.
  set (names := prepare_name <$> _) in *.
  assert (Hname : ∀ c, find_map (name_answer pass index row) names = Some c →
    is_import_same_file (Some c) = false ∧ is_same_file_candidate index c.1.1 (row_file_id row) = false).
  { intros c Hc. apply find_map_Some in Hc as (name & _ & Hname).
    unfold name_answer in Hname. rewrite Hleg in Hname. rewrite !first_some_cons in Hname.
    cbn [guard_with option_or negb] in Hname.
    assert (Hother : ∀ (o : option Z) x, o ≫= other_file index row = Some x →
      is_same_file_candidate index x (row_file_id row) = false).
    { intros [y|] x Hx; [|done]. cbn in Hx. unfold other_file in Hx.
      destruct (is_same_file_candidate index y _) eqn:Hy; [done|]. by injection Hx as <-. }
    apply option_or_Some in Hname as [Hname|Hname];
      [|apply option_or_Some in Hname as [Hname|Hname];
        [|apply option_or_Some in Hname as [Hname|Hname]; [|done]]];
      apply answer_as_Some in Hname as [Hname Hst]; (split; [|by eapply Hother]);
      unfold is_import_same_file; destruct c as [[? ?] ?]; cbn in Hst; by subst. }
  rewrite !first_some_cons in Ht |- *. cbn [option_or answer_as fmap option_fmap option_map] in Ht |- *.
  destruct (find_map _ names) as [c|] eqn:Hf.
  - destruct (Hname c eq_refl) as [Hs Hfile]. rewrite Hs, orb_false_r in *.
    destruct (import_alias row); cbn in Ht |- *; [done|]. injection Ht as <-. by split; [|right].
  - destruct (import_alias row); cbn in Ht |- *; [done|].
    destruct (best_first _); cbn in Ht |- *; [|done]. by split; [|left].
Qed.
Lemma import_leaves_file_witness :
  let r := run_direct sample_index (compute_import_resolution sample_pass sample_index sample_row
             [{| target_node_id := 5; confidence := f32_ratio 9 10 |}]) in
  import_alias sample_row = false ∧
  (strategy r = Some ImportSemanticFallback ∨ is_same_file_candidate sample_index 5 (row_file_id sample_row) = false).
Proof. cbv zeta. apply import_leaves_file; by vm_compute. Defined.

(** * The pass, edge by edge

    A transaction step either meets a cancellation or has one outcome; the batches of the
    pass (deduplicated requests, memoised rows, staged updates) act on every edge alone, so
    a run maps one function over the edge table. *)
(** ** Steps with one outcome

    An error blames a poll that was answered with a cancellation or a statement that failed. *)
Definition cancelled : str := lit "resolution cancelled".
Definition blames (polls : list bool) (outcomes : list Outcome) (error : str) : Prop :=
  (true ∈ polls ∧ error = cancelled) ∨ (TooBig ∈ outcomes ∧ error = too_big) ∨ Fails error ∈ outcomes.
Definition within (t t' : Txn) : Prop := polls t' ⊆ polls t ∧ outcomes t' ⊆ outcomes t.
#[export] Instance within_preorder : PreOrder within.
Proof. split; [by intros t|]. intros t t' t'' [] []. split; by etrans. Qed.
Lemma blames_within t t' e : within t t' → blames (polls t') (outcomes t') e → blames (polls t) (outcomes t) e.
Proof. intros [Hp Ho] [[? ?]|[[? ?]|?]]; [left|right; left|right; right]; auto. Qed.
(** [m] in state [t] fails for a reason, or ends in a state and with a value as required. *)
Definition ends {A} (m : T A) (t : Txn) (Q : A → Txn → Prop) : Prop :=
  match m t with
  | (Err e, t') => blames (polls t) (outcomes t) e
  | (Ok a, t') => within t t' ∧ Q a t'
  end.
Lemma ends_ret {A} (a : A) t (Q : A → Txn → Prop) : Q a t → ends (mret a) t Q.
Proof. intros HQ. by split. Qed.
Lemma ends_bind {A B} (m : T A) (f : A → T B) t P Q :
  ends m t P → (∀ a t', P a t' → ends (f a) t' Q) → ends (m ≫= f) t Q.
Proof.
  unfold ends, mbind, T_bind. destruct (m t) as [[a|e] t']; [|done]. intros [Hw Hp] Hf. specialize (Hf a t' Hp).
  destruct (f a t') as [[b|e] t'']; [|by eapply blames_within].
  destruct Hf as [Hw' Hq]. split; [by etrans|done].
Qed.
Lemma ends_mono {A} (m : T A) t (P Q : A → Txn → Prop) : ends m t P → (∀ a t', P a t' → Q a t') → ends m t Q.
Proof. unfold ends. destruct (m t) as [[a|e] t']; [|done]. intros [Hw Hp] HQ. split; auto. Qed.
Lemma ends_next t : ends next_outcome t (λ o t', db t' = db t ∧ support t' = support t ∧ (o = Fine ∨ o ∈ outcomes t)).
Proof.
  destruct t as [d s ps [|o os]]; [split; [reflexivity|by split_and!; [..|left]]|].
  split; [split; cbn; set_solver|]. split_and!; [done..|]. right. by left.
Qed.

Definition yields {A} (m : T A) (d : Db) (a : A) (d' : Db) : Prop :=
  ∀ t, db t = d → ends m t (λ b t', b = a ∧ db t' = d' ∧ support t' = support t).
Lemma yields_ret {A} (a : A) d : yields (mret a) d a d.
Proof. intros t Ht. by apply ends_ret. Qed.
Lemma yields_then {A B} (m : T A) (f : A → T B) d a d' b d'' :
  yields m d a d' → yields (f a) d' b d'' → yields (m ≫= f) d b d''.
Proof.
  intros Hm Hf t Ht. eapply ends_bind; [by apply Hm|]. intros a' t' (-> & Hd & Hs). cbv beta.
  eapply ends_mono; [by apply Hf|]. intros b' t'' (-> & Hd' & Hs'). split_and!; [done..|by rewrite Hs'].
Qed.
Lemma yields_check d : yields check_cancelled d () d.
Proof.
  intros [d0 s [|[] ps] os] <-; unfold ends, check_cancelled; cbn.
  - by split; [reflexivity|].
  - left. split; [by left|done].
  - split; [split; cbn; set_solver|done].
Qed.
Lemma yields_statement d : yields statement d () d.
Proof.
  intros t Ht. unfold statement. unfold ends, mbind, T_bind, next_outcome.
  destruct t as [d0 s ps [|[| |e] os]]; cbn in *.
  - by split; [reflexivity|].
  - split; [split; cbn; set_solver|done].
  - right. left. split; [by left|done].
  - right. right. by left.
Qed.
Lemma yields_statements n d : yields (statements n) d () d.
Proof.
  induction n as [|n IH]; cbn; [apply yields_ret|]. eapply yields_then; [apply yields_statement|exact IH].
Qed.
Lemma yields_get d : yields get_db d d d.
Proof. intros t Ht. by split; [reflexivity|]. Qed.
Lemma yields_put d d' : yields (put_db d') d () d'.
Proof. intros t Ht. by split; [split|]. Qed.
Lemma yields_update f d : yields (update_edges f) d () (with_edges (f <$> edge_table d) d).
Proof.
  eapply yields_then; [apply yields_statement|]. eapply yields_then; [apply yields_get|apply yields_put].
Qed.
Lemma yields_apply us d : yields (apply_updates us) d () (apply_resolution_updates us d).
Proof.
  unfold apply_updates. destruct us as [|u us]; [apply yields_ret|]. eapply yields_then; [apply yields_statements|].
  eapply yields_then; [apply yields_get|apply yields_put].
Qed.
Lemma yields_select kind scope d :
  yields (select_unresolved_edges kind scope) d (unresolved_edges d kind scope) d.
Proof.
  unfold select_unresolved_edges, unresolved_edges. destruct (is_empty_scope scope); [apply yields_ret|].
  eapply yields_then; [apply yields_statement|]. eapply yields_then; [apply yields_get|apply yields_ret].
Qed.
Lemma yields_count kind scope d :
  yields (count_unresolved kind scope) d (count_unresolved_on_conn d kind scope) d.
Proof.
  unfold count_unresolved, count_unresolved_on_conn. destruct (is_empty_scope scope); [apply yields_ret|].
  eapply yields_then; [apply yields_statement|]. eapply yields_then; [apply yields_get|apply yields_ret].
Qed.
Lemma yields_scope ids d : yields (prepare_scope_on_conn ids) d (prepare_scope d ids) d.
Proof.
  unfold prepare_scope_on_conn. eapply (yields_then _ _ _ ()).
  - destruct (sorted_scope_file_ids ids) as [[|]|]; [apply yields_ret|apply yields_statements|apply yields_ret].
  - eapply yields_then; [apply yields_get|apply yields_ret].
Qed.
#[export] Hint Resolve yields_ret yields_check yields_statement yields_statements yields_get yields_put yields_update
  yields_apply yields_select yields_count yields_scope : resolver.
Ltac step := eapply yields_then; [solve [eauto with resolver]|cbv beta].

(** ** Semantic requests *)
Definition semantic_for_row (pass : ResolutionPass) (index : SemanticCandidateIndex)
    (edge_kind : EdgeKind) (row : UnresolvedEdgeRow) : list SemanticResolutionCandidate :=
  if enable_semantic (flags pass) then
    match semantic_request_key edge_kind row with
    | Some key => semantic_candidates_for_edge pass index key
    | None => []
    end
  else [].
(** The positions of the keys. *)
Definition requests_ok (r : Requests) (keys : list (option SemanticResolutionRequestKey)) : Prop :=
  Forall2 (λ i key, match i, key with
                    | Some i, Some k => unique_keys r !! i = Some k
                    | None, None => True
                    | _, _ => False
                    end) (request_indexes r) keys ∧
  (∀ k i, hm_get (unique_key_indexes r) k = Some i → unique_keys r !! i = Some k) ∧
  (∀ k, k ∈ unique_keys r → is_Some (hm_get (unique_key_indexes r) k)) ∧
  NoDup (unique_keys r) ∧ (∀ k, k ∈ unique_keys r ↔ Some k ∈ keys) ∧
  skipped r = len (List.filter is_none keys).
Lemma add_request_ok edge_kind r keys row :
  requests_ok r keys → requests_ok (add_request edge_kind r row) (keys ++ [semantic_request_key edge_kind row]).
Proof.
  intros (Hix & Hget & Hin & Hnd & Hkeys & Hsk). unfold add_request.
  assert (Hskip : ∀ key, len (List.filter is_none (keys ++ [Some key])) = skipped r).
  { intros key. by rewrite List.filter_app, app_nil_r. }
  destruct (semantic_request_key edge_kind row) as [key|].
  - destruct (hm_get (unique_key_indexes r) key) as [i|] eqn:Hk; split_and!; cbn; try done.
    + apply Forall2_app; [done|]. constructor; [by apply Hget|constructor].
    + intros k. rewrite Hkeys, elem_of_app, list_elem_of_singleton. split; [by left|].
      intros [?|[= ->]]; [done|]. apply Hkeys. apply list_elem_of_lookup. eauto.
    + apply Forall2_app.
      * eapply Forall2_impl; [exact Hix|]. intros [a|] [b|]; cbn; try done. apply lookup_app_l_Some.
      * constructor; [|constructor]. by rewrite lookup_app_r, Nat.sub_diag by lia.
    + intros k i. rewrite hm_get_insert. destruct (decide (key = k)) as [->|].
      * intros [= <-]. by rewrite lookup_app_r, Nat.sub_diag by lia.
      * intros H. by apply lookup_app_l_Some, Hget.
    + intros k. rewrite hm_get_insert, elem_of_app, list_elem_of_singleton.
      destruct (decide (key = k)); [eauto|]. intros [?|]; [by apply Hin|congruence].
    + apply NoDup_app. split; [done|]. split; [|apply NoDup_singleton].
      intros k Hk' ->%list_elem_of_singleton. apply Hin in Hk' as [? ?]. congruence.
    + intros k. rewrite !elem_of_app, !list_elem_of_singleton, Hkeys. naive_solver.
  - split_and!; cbn; try done.
    + apply Forall2_app; [done|]. by repeat constructor.
    + intros k. rewrite Hkeys, elem_of_app, list_elem_of_singleton. naive_solver.
    + rewrite List.filter_app. unfold len in *. rewrite length_app. cbn. lia.
Qed.
Lemma requests_of_rows edge_kind rows :
  requests_ok (foldl (add_request edge_kind) no_requests rows) (semantic_request_key edge_kind <$> rows).
Proof.
  induction rows as [|row rows IH] using rev_ind.
  - split_and!; cbn; try done; [intros k Hk; by apply elem_of_nil in Hk|constructor|].
    intros k. by rewrite !elem_of_nil.
  - rewrite foldl_app, fmap_app. by apply add_request_ok.
Qed.
Lemma semantic_for_rows pass index rows edge_kind :
  (semantic_candidates_for_rows pass index rows edge_kind).1 = semantic_for_row pass index edge_kind <$> rows.
Proof.
  unfold semantic_candidates_for_rows, semantic_for_row.
  destruct (enable_semantic (flags pass)); cbn [negb fst].
  - destruct (requests_of_rows edge_kind rows) as [Hix _]. cbv zeta. cbn [fst].
    generalize dependent (foldl (add_request edge_kind) no_requests rows). intros r Hix.
    apply Forall2_fmap_r in Hix. induction Hix as [|i row ixs rows' Hik _ IH]; [done|]. cbn. f_equal; [|done].
    cbn in Hik. destruct i as [i|], (semantic_request_key edge_kind row) as [k|]; try done.
    by rewrite list_lookup_fmap, Hik.
  - clear. induction rows as [|row rows IH]; [done|]. cbn. by f_equal.
Qed.

(** Deduplicated requests: asking once per distinct request gives every row exactly the
    candidates it would get by asking for it alone; the counts are the rows, the distinct
    requests and the rows that need none. *)
Theorem semantic_requests_dedupe pass index rows edge_kind :
  enable_semantic (flags pass) = true →
  let '(candidates, stats) := semantic_candidates_for_rows pass index rows edge_kind in
  candidates = semantic_for_row pass index edge_kind <$> rows ∧
  total_requests stats = len rows ∧
  skipped_requests stats = len (List.filter (λ row, is_none (semantic_request_key edge_kind row)) rows) ∧
  ∃ keys, NoDup keys ∧ (∀ k, k ∈ keys ↔ ∃ row, row ∈ rows ∧ semantic_request_key edge_kind row = Some k) ∧
    unique_requests stats = len keys.
Proof.
  intros Hs. pose proof (semantic_for_rows pass index rows edge_kind) as Hc.
  unfold semantic_candidates_for_rows in *. rewrite Hs in *. cbn [negb fst] in *. cbv zeta in *.
  destruct (requests_of_rows edge_kind rows) as (_ & _ & _ & Hnd & Hkeys & Hsk).
  split; [exact Hc|]. split; [done|]. split.
  - cbn. rewrite Hsk. unfold len. f_equal. clear.
    induction rows as [|row rows IH]; [done|]. cbn.
    destruct (is_none (semantic_request_key edge_kind row)); cbn; by rewrite IH.
  - eexists. split; [exact Hnd|]. split; [|done]. intros k. rewrite Hkeys, list_elem_of_fmap. naive_solver.
Qed.

(** ** The rows of a phase *)
Definition resolve_row (pass : ResolutionPass) (index : CandidateIndex)
    (semantic_index : SemanticCandidateIndex) (edge_kind : EdgeKind) (compute : Compute)
    (row : UnresolvedEdgeRow) : ComputedResolution :=
  run_direct index (compute pass index row (semantic_for_row pass semantic_index edge_kind row)).
Lemma compute_rows_direct pass index compute work caches :
  caches_ok index caches →
  (compute_rows pass index compute work caches).1
  = (λ rc, run_direct index (compute pass index rc.1 rc.2)) <$> work.
Proof.
  revert caches. induction work as [|[row candidates] work IH]; intros caches Hok; [done|].
  cbn [compute_rows]. pose proof (run_cached_direct index (compute pass index row candidates) caches Hok)
    as [Hv Hok']. destruct (run_cached index _ caches) as [v caches']. cbn [fst snd] in Hv, Hok'.
  specialize (IH caches' Hok'). destruct (compute_rows pass index compute work caches') as [cs c].
  cbn in *. by rewrite Hv, IH.
Qed.
(** An update is for the edge of its row. *)
Definition keeps_edge (compute : Compute) : Prop :=
  ∀ pass index row candidates,
    up_edge_id (update (run_direct index (compute pass index row candidates))) = row_edge_id row.
Lemma call_keeps_edge : keeps_edge compute_call_resolution.
Proof. intros pass index row candidates. apply call_says. Qed.
Lemma import_keeps_edge : keeps_edge compute_import_resolution.
Proof. intros pass index row candidates. eapply settles_says, import_settles. Qed.

Lemma find_unique {A} (f : A → bool) l x :
  x ∈ l → f x = true → (∀ y, y ∈ l → f y = true → y = x) → List.find f l = Some x.
Proof.
  intros Hx Hf Hu. destruct (List.find f l) as [y|] eqn:Hy.
  - apply List.find_some in Hy as [Hin Hfy]. f_equal. apply Hu; [by apply list_elem_of_In|done].
  - eapply List.find_none in Hy; [|by apply list_elem_of_In]. congruence.
Qed.
Lemma find_nothing {A} (f : A → bool) l : (∀ y, y ∈ l → f y = false) → List.find f l = None.
Proof.
  intros H. destruct (List.find f l) as [y|] eqn:Hy; [|done].
  apply List.find_some in Hy as [Hin Hfy]. rewrite H in Hfy; [done|]. by apply list_elem_of_In.
Qed.
Definition unique_edge_ids (d : Db) : Prop := NoDup (e_id <$> edge_table d).
Lemma edge_of_id d e e' :
  unique_edge_ids d → e ∈ edge_table d → e' ∈ edge_table d → e_id e = e_id e' → e = e'.
Proof.
  intros Hu He He' Hid. apply list_elem_of_lookup in He as [i Hi]. apply list_elem_of_lookup in He' as [j Hj].
  assert (i = j) as ->.
  { eapply (NoDup_lookup _ i j (e_id e) Hu); rewrite list_lookup_fmap; [by rewrite Hi|rewrite Hj; cbn; by f_equal]. }
  congruence.
Qed.
Section Batch.
Context {R : Type} (row_of : EdgeRow → option R) (row_id : R → Z) (result : R → ResolvedEdgeUpdate).
Context (leb : R → R → bool).
Hypothesis row_id_of : ∀ e r, row_of e = Some r → row_id r = e_id e.
Hypothesis result_id : ∀ r, up_edge_id (result r) = row_id r.

(** Staging the results of the rows of the table, in any order, applies to every edge the
    result of its own row. *)
Definition apply_own (e : EdgeRow) : EdgeRow :=
  match row_of e with Some r => apply_staged (result r) e | None => e end.
Lemma batch_edgewise d :
  unique_edge_ids d →
  let rows := sort_by leb (omap row_of (edge_table d)) in
  apply_resolution_updates (result <$> rows) d = with_edges (apply_own <$> edge_table d) d.
Proof.
  intros Hu rows.
  assert (Hrows : ∀ r, r ∈ rows ↔ ∃ e, e ∈ edge_table d ∧ row_of e = Some r).
  { intros r. unfold rows. by rewrite sort_by_perm, list_elem_of_omap. }
  assert (Happly : apply_row (result <$> rows) <$> edge_table d = apply_own <$> edge_table d).
  { apply list_fmap_ext. intros i e He%list_elem_of_lookup_2. unfold apply_row, apply_own.
    destruct (row_of e) as [r|] eqn:Hr.
    - rewrite (find_unique _ _ (result r)); [done|..].
      + apply list_elem_of_fmap. exists r. split; [done|]. apply Hrows. by exists e.
      + rewrite result_id, (row_id_of e) by done. apply Z.eqb_refl.
      + intros u (r' & -> & (e' & He' & Hr')%Hrows)%list_elem_of_fmap Hid%Z.eqb_eq.
        rewrite result_id, (row_id_of e') in Hid by done.
        rewrite (edge_of_id d e' e Hu He' He Hid) in Hr'. congruence.
    - rewrite find_nothing; [done|].
      intros u (r' & -> & (e' & He' & Hr')%Hrows)%list_elem_of_fmap.
      rewrite result_id, (row_id_of e') by done. apply Z.eqb_neq. intros Hid.
      rewrite (edge_of_id d e' e Hu He' He Hid) in Hr'. congruence. }
  rewrite <-Happly. destruct rows as [|r rows']; [|done].
  cbn. unfold with_edges. destruct d as [ns es]. cbn in *. f_equal.
  rewrite <-(list_fmap_id es) at 1. by apply list_fmap_ext.
Qed.
End Batch.

(** ** The phases *)
Definition work_row (d : Db) (kind : Z) (scope : ScopeCallerContext) (e : EdgeRow)
  : option UnresolvedEdgeRow :=
  if in_worklist d kind scope e then edge_to_row d e else None.
Lemma work_row_id d kind scope e r : work_row d kind scope e = Some r → row_edge_id r = e_id e.
Proof.
  unfold work_row, edge_to_row. destruct (in_worklist _ _ _ _); [|done].
  destruct (node_by_id d (e_source_node_id e)); [|done]. destruct (node_by_id d (e_target_node_id e)); [|done].
  cbn. by intros [= <-].
Qed.
Lemma omap_filter {A B} (f : A → option B) (p : A → bool) l :
  omap f (List.filter p l) = omap (λ x, if p x then f x else None) l.
Proof. induction l as [|x l IH]; [done|]. cbn. destruct (p x); cbn; by rewrite <-IH. Qed.
Lemma worklist_rows d kind scope :
  is_empty_scope scope = false →
  unresolved_edges d kind scope = sort_by edge_id_leb (omap (work_row d kind scope) (edge_table d)).
Proof. intros He. unfold unresolved_edges. by rewrite He, omap_filter. Qed.
Lemma zip_map {A B C} (f : A → B) (g : A * B → C) l :
  g <$> zip l (f <$> l) = (λ x, g (x, f x)) <$> l.
Proof. induction l as [|x l IH]; [done|]. cbn. by f_equal. Qed.

Section Phase.
Context (pass : ResolutionPass) (scope : ScopeCallerContext).
Context (index : CandidateIndex) (semantic_index : SemanticCandidateIndex) (edge_kind : EdgeKind).
Context (compute : Compute).
Let result : UnresolvedEdgeRow → ComputedResolution :=
  resolve_row pass index semantic_index edge_kind compute.

(** What the phase makes of an edge. *)
Definition resolve_edge (d : Db) (e : EdgeRow) : EdgeRow :=
  apply_own (work_row d (edge_kind_as_i32 edge_kind) scope) (λ r, update (result r)) e.
Definition phase_results (d : Db) : list ComputedResolution :=
  result <$> unresolved_edges d (edge_kind_as_i32 edge_kind) scope.
Definition count_resolved (l : list ComputedResolution) : Z :=
  len (List.filter (λ c, negb (is_none (strategy c))) l).
Definition count_strategies (counters : ResolutionStrategyCounters) (l : list ComputedResolution)
  : ResolutionStrategyCounters :=
  foldl (λ counters c, record_strategy counters (strategy c)) counters l.
Lemma phase_yields counters d :
  is_empty_scope scope = false → keeps_edge compute → unique_edge_ids d →
  yields (resolve_edges_after_prepare pass scope index semantic_index edge_kind compute counters) d
    (count_resolved (phase_results d), count_strategies counters (phase_results d))
    (with_edges (resolve_edge d <$> edge_table d) d).
Proof.
  intros He Hk Hu. unfold resolve_edges_after_prepare, phase_results. step. step.
  assert (Hbatch : apply_resolution_updates
      ((λ r, update (result r)) <$> unresolved_edges d (edge_kind_as_i32 edge_kind) scope) d
    = with_edges (resolve_edge d <$> edge_table d) d).
  { rewrite worklist_rows by done.
    apply (batch_edgewise _ row_edge_id); [apply work_row_id|intros r; apply Hk|done]. }
  rewrite <-Hbatch.
  destruct (decide (unresolved_edges d _ scope = [])) as [->|Hne]; [apply yields_ret|]. step.
  pose proof (semantic_for_rows pass semantic_index
    (unresolved_edges d (edge_kind_as_i32 edge_kind) scope) edge_kind) as Hs.
  destruct (semantic_candidates_for_rows _ _ _ _) as [sem stats]. cbn [fst] in Hs. subst sem. step.
  pose proof (compute_rows_direct pass index compute
    (zip (unresolved_edges d (edge_kind_as_i32 edge_kind) scope)
       (semantic_for_row pass semantic_index edge_kind <$> unresolved_edges d (edge_kind_as_i32 edge_kind) scope))
    empty_caches (empty_caches_ok index)) as Hc.
  rewrite zip_map in Hc. cbn [fst snd] in Hc. change (λ x, run_direct _ _) with result in Hc.
  destruct (compute_rows _ _ _ _ _) as [computed caches]. cbn [fst] in Hc. subst computed.
  step. step. step. rewrite <-list_fmap_compose. apply yields_ret.
Qed.
End Phase.

(** ** Three rows, two of them with the same request *)
Definition python_row (edge_id : Z) (name : str) : UnresolvedEdgeRow :=
  {| row_edge_id := edge_id; row_file_id := Some 1; row_caller_qualified := None;
     row_source_name := lit "main"; row_target_name := name; row_target_node_id := 9;
     row_caller_file_path := Some (lit "src/main.py"); row_callsite_identity := None |}.
Definition python_index : SemanticCandidateIndex :=
  from_nodes [semantic_node 4 (node_kind_as_i32 NodeKind.FUNCTION) (lit "helper") None (Some 1)
                (Some (lit "python"))].
Lemma semantic_requests_dedupe_witness :
  let rows := [python_row 1 (lit "helper"); python_row 2 (lit "push"); python_row 3 (lit "helper")] in
  let '(candidates, stats) := semantic_candidates_for_rows sample_pass python_index rows EdgeKind.CALL in
  candidates = semantic_for_row sample_pass python_index EdgeKind.CALL <$> rows ∧
  total_requests stats = len rows ∧
  skipped_requests stats = len (List.filter (λ row, is_none (semantic_request_key EdgeKind.CALL row)) rows) ∧
  ∃ keys, NoDup keys ∧ (∀ k, k ∈ keys ↔ ∃ row, row ∈ rows ∧ semantic_request_key EdgeKind.CALL row = Some k) ∧
    unique_requests stats = len keys.
Proof. cbv zeta. apply semantic_requests_dedupe. by vm_compute. Defined.
