(* ===== verification/ResolveRun.v ===== *)
(** * A run of the pass

    The three phases as maps over the edge table; that the support a run works with is what
    the tables give, read from a snapshot or not; that a run commits its whole result or, when it
    is cancelled or anything fails, leaves the tables as they were.

    The second part: running the pass again. *)
From S2P Require Import Prelude RustStr Graph Sorting StrOps Collections Encoding LanguageSupport ResolveText ResolveIndex.
From S2P Require Import ResolveSelect SemanticIndex ResolveStore ResolveOverrides ResolveCache ResolveSelectProofs.
From S2P Require Import ResolveClaims ResolveSnapshot ResolvePass.

(** ** What no phase changes *)
Definition identity (e : EdgeRow) : Z * Z * Z * Z * option Z * option str :=
  (e_id e, e_kind e, e_source_node_id e, e_target_node_id e, e_file_node_id e, e_callsite_identity e).
Definition keeps_identity (f : EdgeRow → EdgeRow) : Prop := ∀ e, identity (f e) = identity e.
Definition only_kind (kind : Z) (scope : ScopeCallerContext) (f : EdgeRow → EdgeRow) : Prop :=
  ∀ e, is_kind kind e && in_scope scope (e_source_node_id e) = false → f e = e.

Lemma keeps_identity_compose f g : keeps_identity f → keeps_identity g → keeps_identity (λ e, f (g e)).
Proof. intros Hf Hg e. by rewrite Hf. Qed.
Lemma only_kind_compose kind scope f g :
  only_kind kind scope f → only_kind kind scope g → only_kind kind scope (λ e, f (g e)).
Proof. intros Hf Hg e He. rewrite (Hg e He). by apply Hf. Qed.
Lemma apply_staged_identity u e : identity (apply_staged u e) = identity e.
Proof. unfold apply_staged. by destruct (up_touch_metadata u). Qed.
Lemma prepare_identity kind scope : keeps_identity (prepare_row kind scope).
Proof. intros e. unfold prepare_row. by destruct (_ && _ && _). Qed.
Lemma prepare_only kind scope : only_kind kind scope (prepare_row kind scope).
Proof.
  intros e He. unfold prepare_row. rewrite (andb_comm (is_kind kind e)), <-andb_assoc, He.
  by rewrite andb_false_r.
Qed.
Lemma low_confidence_identity d policy scope : keeps_identity (clean_low_confidence d policy scope).
Proof. intros e. unfold clean_low_confidence. by destruct (_ && _ && _ && _). Qed.
Lemma low_confidence_only d policy scope : only_kind CALL scope (clean_low_confidence d policy scope).
Proof.
  intros e [He|He]%andb_false_iff; unfold clean_low_confidence; rewrite He;
    [done|by rewrite andb_false_r].
Qed.
Lemma common_name_identity d flags scope : keeps_identity (clean_common_name d flags scope).
Proof. intros e. unfold clean_common_name. by destruct (_ && _ && _ && _ && _). Qed.
Lemma common_name_only d flags scope : only_kind CALL scope (clean_common_name d flags scope).
Proof.
  intros e [He|He]%andb_false_iff; unfold clean_common_name; rewrite He;
    [done|by rewrite andb_false_r].
Qed.
Lemma apply_own_identity {R} (row_of : EdgeRow → option R) result :
  keeps_identity (apply_own row_of result).
Proof. intros e. unfold apply_own. destruct (row_of e); [apply apply_staged_identity|done]. Qed.
Lemma resolve_edge_identity pass scope index sindex kind compute d :
  keeps_identity (resolve_edge pass scope index sindex kind compute d).
Proof. apply apply_own_identity. Qed.
Lemma resolve_edge_only pass scope index sindex kind compute d :
  only_kind (edge_kind_as_i32 kind) scope (resolve_edge pass scope index sindex kind compute d).
Proof.
  intros e [He|He]%andb_false_iff; unfold resolve_edge, apply_own, work_row, in_worklist;
    rewrite He; [done|by rewrite andb_false_r].
Qed.
Lemma reset_identity scope : keeps_identity (reset_override scope).
Proof. intros e. unfold reset_override. by destruct (_ && _). Qed.
Lemma reset_only scope : only_kind OVERRIDE scope (reset_override scope).
Proof. intros e He. unfold reset_override. by rewrite He. Qed.
#[local] Hint Resolve keeps_identity_compose only_kind_compose prepare_identity prepare_only
  low_confidence_identity low_confidence_only common_name_identity common_name_only
  resolve_edge_identity resolve_edge_only reset_identity reset_only apply_own_identity : resolver.

Lemma unique_ids_map f d :
  keeps_identity f → unique_edge_ids d → unique_edge_ids (with_edges (f <$> edge_table d) d).
Proof.
  unfold unique_edge_ids. intros Hf Hu. cbn. rewrite <-list_fmap_compose.
  rewrite (list_fmap_ext _ e_id); [done|]. intros i e _. specialize (Hf e). unfold identity in Hf. cbn. congruence.
Qed.
Lemma with_edges_compose f g d :
  with_edges (f <$> edge_table (with_edges (g <$> edge_table d) d)) (with_edges (g <$> edge_table d) d)
  = with_edges ((λ e, f (g e)) <$> edge_table d) d.
Proof. unfold with_edges. cbn. by rewrite <-list_fmap_compose. Qed.

(** ** The phases as maps *)
Section Run.
Context (pass : ResolutionPass) (scope : ScopeCallerContext) (prepared : PreparedResolutionState).

Definition prepare_call (d : Db) (e : EdgeRow) : EdgeRow :=
  clean_common_name d (flags pass) scope (clean_low_confidence d (policy pass) scope (prepare_row CALL scope e)).
Definition call_edge (d : Db) (e : EdgeRow) : EdgeRow :=
  resolve_edge pass scope (call_candidate_index prepared) (call_semantic_index prepared) EdgeKind.CALL
    compute_call_resolution d (prepare_call d e).
Definition import_edge (d : Db) (e : EdgeRow) : EdgeRow :=
  resolve_edge pass scope (import_candidate_index prepared) (import_semantic_index prepared)
    EdgeKind.IMPORT compute_import_resolution d (prepare_row IMPORT scope e).
Definition override_edge (d : Db) (e : EdgeRow) : EdgeRow :=
  apply_own (override_row d scope)
    (λ r, (resolve_override (flags pass) (override_support prepared) r.1.1 r.1.2 r.2).1)
    (reset_override scope e).
Definition run_edge (d : Db) (e : EdgeRow) : EdgeRow := override_edge d (import_edge d (call_edge d e)).

Lemma prepare_call_identity d : keeps_identity (prepare_call d).
Proof. unfold prepare_call. eauto 6 with resolver. Qed.
Lemma call_edge_identity d : keeps_identity (call_edge d).
Proof. apply (keeps_identity_compose (resolve_edge _ _ _ _ _ _ _)); [eauto with resolver|apply prepare_call_identity]. Qed.
Lemma import_edge_identity d : keeps_identity (import_edge d).
Proof. apply (keeps_identity_compose (resolve_edge _ _ _ _ _ _ _)); eauto with resolver. Qed.
Lemma override_edge_identity d : keeps_identity (override_edge d).
Proof. apply (keeps_identity_compose (apply_own _ _)); eauto with resolver. Qed.
Lemma call_edge_only d : only_kind CALL scope (call_edge d).
Proof.
  apply (only_kind_compose _ _ (resolve_edge _ _ _ _ _ _ _)); [apply (resolve_edge_only _ _ _ _ EdgeKind.CALL)|].
  unfold prepare_call. apply (only_kind_compose _ _ (clean_common_name _ _ _)); eauto with resolver.
Qed.
Lemma import_edge_only d : only_kind IMPORT scope (import_edge d).
Proof.
  apply (only_kind_compose _ _ (resolve_edge _ _ _ _ _ _ _)); [apply (resolve_edge_only _ _ _ _ EdgeKind.IMPORT)|].
  eauto with resolver.
Qed.
Lemma override_edge_only d : only_kind OVERRIDE scope (override_edge d).
Proof.
  apply (only_kind_compose _ _ (apply_own _ _)); [|eauto with resolver].
  intros e [He|He]%andb_false_iff; unfold apply_own, override_row; destruct (node_by_id _ _); try done;
    cbn [mbind option_bind]; rewrite He; [done|by rewrite andb_false_r].
Qed.

(** *** The phases yield the maps *)
Lemma calls_yield counters d :
  is_empty_scope scope = false → unique_edge_ids d →
  ∃ r, yields (resolve_calls_on_conn pass scope prepared counters) d r
         (with_edges (call_edge d <$> edge_table d) d).
Proof.
  intros He Hu. eexists. unfold resolve_calls_on_conn. step. rewrite He. do 5 step.
  unfold cleanup_stale_call_resolutions. rewrite He.
  eapply yields_then; [apply yields_put|cbv beta].
  set (d1 := with_edges _ (with_edges _ d)).
  assert (Hd1 : d1 = with_edges (prepare_call d <$> edge_table d) d).
  { unfold d1, with_edges, prepare_call. cbn. by rewrite <-!list_fmap_compose. }
  rewrite Hd1. clear d1 Hd1.
  pose proof (unique_ids_map _ _ (prepare_call_identity d) Hu) as Hu1.
  unshelve epose proof (phase_yields pass scope (call_candidate_index prepared)
    (call_semantic_index prepared) EdgeKind.CALL compute_call_resolution counters _ He call_keeps_edge Hu1) as Hp.
  rewrite with_edges_compose in Hp. exact Hp.
Qed.
Lemma imports_yield counters d :
  is_empty_scope scope = false → unique_edge_ids d →
  ∃ counters', yields (resolve_imports_on_conn pass scope prepared counters) d
    (count_resolved (phase_results pass scope (import_candidate_index prepared)
       (import_semantic_index prepared) EdgeKind.IMPORT compute_import_resolution
       (with_edges (prepare_row IMPORT scope <$> edge_table d) d)), counters')
    (with_edges (import_edge d <$> edge_table d) d).
Proof.
  intros He Hu. eexists. unfold resolve_imports_on_conn. step. rewrite He. step. step. step.
  pose proof (unique_ids_map _ _ (prepare_identity IMPORT scope) Hu) as Hu1.
  unshelve epose proof (phase_yields pass scope (import_candidate_index prepared)
    (import_semantic_index prepared) EdgeKind.IMPORT compute_import_resolution counters _ He
    import_keeps_edge Hu1) as Hp.
  rewrite with_edges_compose in Hp. exact Hp.
Qed.
Lemma override_loop_yields s rows d :
  yields (override_loop (flags pass) s rows) d
    ((λ r, resolve_override (flags pass) s r.1.1 r.1.2 r.2) <$> rows) d.
Proof.
  induction rows as [|[[id source] name] rows IH]; cbn [override_loop]; [apply yields_ret|].
  step. eapply yields_then; [exact IH|]. apply yields_ret.
Qed.
Lemma override_update_id fl id ids : up_edge_id (override_update fl id ids).1 = id.
Proof. unfold override_update. by destruct ids as [|? []]. Qed.
Lemma resolve_override_id fl s r :
  up_edge_id (resolve_override fl s r.1.1 r.1.2 r.2).1 = r.1.1.
Proof.
  unfold resolve_override. cbv zeta. destruct (owner_name_from_member_name _); [apply override_update_id|].
  destruct (owner_of_method _ _) as [owner|]; [|done]. destruct (owner =? 0); [done|]. apply override_update_id.
Qed.
Lemma override_row_id d e r : override_row d scope e = Some r → r.1.1 = e_id e.
Proof.
  unfold override_row. destruct (node_by_id _ _); [|done]. cbn. destruct (_ && _ && _); [|done]. by intros [= <-].
Qed.
Lemma overrides_yield d :
  is_empty_scope scope = false → unique_edge_ids d →
  ∃ n, yields (resolve_overrides_on_conn pass scope prepared) d n
         (with_edges (override_edge d <$> edge_table d) d).
Proof.
  intros He Hu. exists (len (List.filter snd
    ((λ r, resolve_override (flags pass) (override_support prepared) r.1.1 r.1.2 r.2)
       <$> unresolved_override_edges (with_edges (reset_override scope <$> edge_table d) d) scope))).
  unfold resolve_overrides_on_conn. step. rewrite He. do 5 step.
  pose proof (unique_ids_map _ _ (reset_identity scope) Hu) as Hu1.
  set (d1 := with_edges (reset_override scope <$> edge_table d) d) in *.
  assert (Hbatch : apply_resolution_updates
      ((λ r, (resolve_override (flags pass) (override_support prepared) r.1.1 r.1.2 r.2).1)
         <$> unresolved_override_edges d1 scope) d1
    = with_edges (override_edge d <$> edge_table d) d).
  { unfold unresolved_override_edges.
    pose proof (batch_edgewise (override_row d1 scope) (λ r, r.1.1)
      (λ r, (resolve_override (flags pass) (override_support prepared) r.1.1 r.1.2 r.2).1) row_id_leb
      (override_row_id d1) (resolve_override_id _ _) d1 Hu1) as Hb.
    cbv zeta in Hb. rewrite Hb. unfold d1. by rewrite with_edges_compose. }
  rewrite <-Hbatch.
  destruct (decide (unresolved_override_edges d1 scope = [])) as [->|Hne]; [apply yields_ret|].
  eapply yields_then; [apply override_loop_yields|cbv beta]. step. rewrite <-list_fmap_compose.
  eapply yields_then; [apply yields_apply|apply yields_ret].
Qed.
End Run.

(** ** The run *)
Section Whole.
Context (pass : ResolutionPass) (ids : option (gset Z)) (prepared : PreparedResolutionState) (d : Db).
Let scope : ScopeCallerContext := prepare_scope d ids.
Definition run_result : Db :=
  if is_empty_scope scope then d
  else with_edges (run_edge pass scope prepared d <$> edge_table d) d.
(** The results of the import rows. *)
Definition import_results : list ComputedResolution :=
  if is_empty_scope scope then []
  else phase_results pass scope (import_candidate_index prepared) (import_semantic_index prepared)
         EdgeKind.IMPORT compute_import_resolution
         (with_edges (prepare_row IMPORT scope <$> (call_edge pass scope prepared d <$> edge_table d)) d).
Definition import_counts (stats : ResolutionStats) : Prop :=
  unresolved_imports_before stats = count_unresolved_on_conn d IMPORT scope ∧
  resolved_imports stats = count_resolved import_results ∧
  unresolved_imports stats = count_unresolved_on_conn run_result IMPORT scope.

Let phase (f : EdgeRow → EdgeRow) (d' : Db) : Db :=
  if is_empty_scope scope then d' else with_edges (f <$> edge_table d') d'.
Let d1 : Db := phase (call_edge pass scope prepared d) d.
Let d2 : Db := phase (import_edge pass scope prepared d) d1.
Lemma phase_unique f d' : keeps_identity f → unique_edge_ids d' → unique_edge_ids (phase f d').
Proof. unfold phase. intros. destruct (is_empty_scope scope); [done|by apply unique_ids_map]. Qed.
Lemma phases_result : phase (override_edge pass scope prepared d) d2 = run_result.
Proof.
  unfold d2, d1, run_result, phase. destruct (is_empty_scope scope); [done|]. by rewrite !with_edges_compose.
Qed.
Lemma calls_phase counters :
  unique_edge_ids d → ∃ r, yields (resolve_calls_on_conn pass scope prepared counters) d r d1.
Proof.
  intros Hu. unfold d1, phase. destruct (is_empty_scope scope) eqn:He; [|by apply calls_yield].
  eexists. unfold resolve_calls_on_conn. step. rewrite He. apply yields_ret.
Qed.
Lemma imports_phase counters :
  unique_edge_ids d1 →
  ∃ counters', yields (resolve_imports_on_conn pass scope prepared counters) d1
                 (count_resolved import_results, counters') d2.
Proof.
  intros Hu. unfold d2, phase, import_results. destruct (is_empty_scope scope) eqn:He.
  - eexists. unfold resolve_imports_on_conn. step. rewrite He. apply yields_ret.
  - destruct (imports_yield pass scope prepared counters d1 He Hu) as [counters' H]. exists counters'.
    unfold d1, phase in *. rewrite ?He in H. rewrite ?He. exact H.
Qed.
Lemma overrides_phase :
  unique_edge_ids d2 → ∃ n, yields (resolve_overrides_on_conn pass scope prepared) d2 n run_result.
Proof.
  intros Hu. rewrite <-phases_result. unfold phase. destruct (is_empty_scope scope) eqn:He.
  - eexists. unfold resolve_overrides_on_conn. step. rewrite He. apply yields_ret.
  - destruct (overrides_yield pass scope prepared d2 He Hu) as [n H]. exists n.
    unfold d2, d1, phase in *. rewrite ?He in H. rewrite ?He. exact H.
Qed.
End Whole.

(** ** Steps of a run *)
Lemma ends_step {A B} (m : T A) (f : A → T B) t a d' (Q : B → Txn → Prop) :
  yields m (db t) a d' → (∀ t', db t' = d' → support t' = support t → ends (f a) t' Q) → ends (m ≫= f) t Q.
Proof. intros Hm Hf. eapply ends_bind; [by apply Hm|]. intros b t' (-> & Hd & Hs). by apply Hf. Qed.
Lemma ends_assoc {A B C} (m : T A) (f : A → T B) (g : B → T C) t Q :
  ends (m ≫= λ a, f a ≫= g) t Q → ends ((m ≫= f) ≫= g) t Q.
Proof. unfold ends, mbind, T_bind. by destruct (m t) as [[a|e] t']. Qed.
Lemma ends_bind_ret {A B} (a : A) (f : A → T B) t Q : ends (f a) t Q → ends (mret a ≫= f) t Q.
Proof. done. Qed.
Definition outcome_ok {A} (r : result str A * Txn) (t : Txn) (Q : A → Txn → Prop) : Prop :=
  match r with
  | (Err e, t') => blames (polls t) (outcomes t) e
  | (Ok a, t') => within t t' ∧ Q a t'
  end.
Lemma outcome_later {A} (r : result str A * Txn) t t1 Q : within t t1 → outcome_ok r t1 Q → outcome_ok r t Q.
Proof.
  intros Hw. destruct r as [[a|e] t']; cbn; [|by apply blames_within]. intros [Hw' HQ]. split; [by etrans|done].
Qed.
(** The three outcomes of a statement whose caller looks at them. *)
Lemma ends_outcome {A} (k : Outcome → T A) t Q :
  (∀ t', db t' = db t → support t' = support t → ends (k Fine) t' Q) →
  (∀ t', db t' = db t → support t' = support t → ends (k TooBig) t' Q) →
  (∀ e t', k (Fails e) t' = (Err e, t')) →
  ends (next_outcome ≫= k) t Q.
Proof.
  intros Hfine Hbig Hfail. destruct t as [d s ps [|o os]]; [exact (Hfine _ eq_refl eq_refl)|].
  assert (Hw : within (mkTxn d s ps (o :: os)) (mkTxn d s ps os)) by (split; cbn; set_solver).
  change (outcome_ok (k o (mkTxn d s ps os)) (mkTxn d s ps (o :: os)) Q). destruct o as [| |e].
  - apply (outcome_later _ _ _ _ Hw). exact (Hfine (mkTxn d s ps os) eq_refl eq_refl).
  - apply (outcome_later _ _ _ _ Hw). exact (Hbig (mkTxn d s ps os) eq_refl eq_refl).
  - rewrite Hfail. right. right. by left.
Qed.
Lemma ends_step_at {A B} (m : T A) (f : A → T B) t d s a d' (Q : B → Txn → Prop) :
  db t = d → support t = s → yields m d a d' → (∀ t', db t' = d' → support t' = s → ends (f a) t' Q) → ends (m ≫= f) t Q.
Proof. intros <- <-. apply ends_step. Qed.
Ltac fstep :=
  match goal with Hd : db ?t = _, Hs : support ?t = _ |- ends _ ?t _ =>
    eapply (ends_step_at _ _ _ _ _ _ _ _ Hd Hs); [solve [eauto with resolver]|]; clear Hd Hs; cbv beta; intros ? Hd Hs
  end.
Ltac tstep := eapply ends_step; [solve [eauto with resolver]|cbv beta; let t := fresh "t" in let Hd := fresh "Hd" in
  let Hs := fresh "Hs" in intros t Hd Hs].

(** ** The support of a run *)

(** A snapshot that would be used was taken of these tables, in some order. *)
Definition support_current `{SupportJson} (d : Db) (row : option SupportRow) : Prop :=
  ∀ blob s, stored_blob RESOLUTION_SUPPORT_SNAPSHOT_VERSION row = Some blob → snapshot_from_json blob = Ok s →
    ∃ (order : HashOrder) flags, s = snapshot flags (prepare_from_tables flags d).
Lemma invalidated_current `{SupportJson} d row : support_current d (invalidate_row row).
Proof.
  intros blob s. unfold stored_blob, invalidate_row. cbn. destruct (_ && _); done.
Qed.
Section Load.
Context `{HashOrder} `{SupportJson} (limit : Z).
Hypothesis json_reads : ∀ s, snapshot_from_json (mjoin (snapshot_pieces s)) = Ok s.

Lemma put_current flags d :
  support_current d (ready_row RESOLUTION_SUPPORT_SNAPSHOT_VERSION
    (mjoin (snapshot_pieces (snapshot flags (prepare_from_tables flags d))))).
Proof. intros blob s [= <-]. rewrite json_reads. intros [= <-]. by eexists _, flags. Qed.
Lemma invalidate_ends t :
  ends invalidate_resolution_support_snapshot t
    (λ _ t', db t' = db t ∧ support t' = invalidate_row (support t)).
Proof.
  unfold invalidate_resolution_support_snapshot. tstep. split; [split; reflexivity|]. cbn. by rewrite Hs.
Qed.
Lemma loaded_blob_ends t :
  ends loaded_blob t (λ blob t', db t' = db t ∧
    (blob = stored_blob RESOLUTION_SUPPORT_SNAPSHOT_VERSION (support t) ∧ support t' = support t ∨
     blob = None ∧ support t' = invalidate_row (support t))).
Proof.
  unfold loaded_blob, get_resolution_support_snapshot. apply ends_assoc, ends_outcome; [| |done].
  - intros t' Hd Hs. split; [reflexivity|]. rewrite Hs. by split; [|left].
  - intros t' Hd Hs. apply ends_bind_ret. cbv beta iota. eapply ends_bind; [apply invalidate_ends|]. intros _ t2 [Hd2 Hs2]. apply ends_ret.
    rewrite Hd2, Hs2, Hd, Hs. by split; [|right].
Qed.
(** What is found is stored, for the flags; otherwise the row is as it was or invalidated. *)
Lemma stored_snapshot_ends flags t :
  ends (stored_snapshot flags) t (λ found t', db t' = db t ∧
    match found with
    | Some s => support t' = support t ∧ sp_enable_semantic s = enable_semantic flags ∧
        ∃ blob, stored_blob RESOLUTION_SUPPORT_SNAPSHOT_VERSION (support t) = Some blob ∧ snapshot_from_json blob = Ok s
    | None => True
    end).
Proof.
  unfold stored_snapshot. eapply ends_bind; [apply loaded_blob_ends|].
  intros blob t1 (Hd & [[-> Hs]|[-> _]]); cbv beta; [|by apply ends_ret].
  assert (Hdrop : ends (_ ← invalidate_resolution_support_snapshot; mret (M := T) (@None ResolutionSupportSnapshot)) t1
      (λ found t', found = None ∧ db t' = db t)).
  { eapply ends_bind; [apply invalidate_ends|]. intros _ t2 [Hd2 _]. apply ends_ret. by rewrite Hd2. }
  destruct (stored_blob _ (support t)) as [blob|]; [|by apply ends_ret].
  destruct (snapshot_from_json blob) as [s|e] eqn:Hj; [|eapply ends_mono; [exact Hdrop|by intros ? ? [-> ?]]].
  destruct (Bool.eqb _ _) eqn:He; [|eapply ends_mono; [exact Hdrop|by intros ? ? [-> ?]]].
  apply ends_ret. apply Bool.eqb_prop in He. split_and!; [done..|]. by exists blob.
Qed.
Lemma serialize_ends value t :
  ends (serialize_json_with_limit limit value) t (λ serialized t', db t' = db t ∧ support t' = support t ∧
    (serialized = Complete (mjoin (snapshot_pieces value)) ∨ ∃ exceeded, serialized = Oversized exceeded)).
Proof.
  unfold serialize_json_with_limit, lift.
  destruct (measured_written (snapshot_pieces value) limit) as [[-> ->]|[exceeded ->]].
  - apply (ends_bind_ret (@None SnapshotCapacityExceeded)). cbv beta iota. tstep.
    split; [reflexivity|]. by split_and!; [..|left].
  - apply (ends_bind_ret (Some exceeded)). cbv beta iota. apply ends_ret. split_and!; [done..|]. right. by exists exceeded.
Qed.
Lemma store_snapshot_ends flags d t :
  db t = d → ends (store_snapshot limit flags (prepare_from_tables flags d)) t (λ _ t', db t' = d ∧ support_current d (support t')).
Proof.
  intros Hd. unfold store_snapshot.
  assert (Hdrop : ∀ t1, db t1 = d → ends invalidate_resolution_support_snapshot t1
      (λ _ t', db t' = d ∧ support_current d (support t'))).
  { intros t1 Hd1. eapply ends_mono; [apply invalidate_ends|]. intros _ t2 [-> ->]. split; [done|apply invalidated_current]. }
  eapply ends_bind; [apply serialize_ends|]. intros serialized t1 (Hd1 & _ & [->|[exceeded ->]]); cbv beta iota.
  - unfold put_resolution_support_snapshot. apply ends_assoc, ends_outcome; [| |done].
    + intros t2 Hd2 _. split; [split; reflexivity|]. cbn. split; [congruence|apply put_current].
    + intros t2 Hd2 _. apply ends_bind_ret. cbv beta iota. apply Hdrop. congruence.
  - apply Hdrop. congruence.
Qed.
(** Whatever a run works with is what the tables give, and what it leaves in the row can be used. *)
Lemma load_ends flags t :
  support_current (db t) (support t) →
  ends (load_prepared limit flags) t (λ p t', db t' = db t ∧ prepared_like p (prepare_from_tables flags (db t)) ∧
    support_current (db t) (support t') ∧
    (stored_blob RESOLUTION_SUPPORT_SNAPSHOT_VERSION (support t) = None → p = prepare_from_tables flags (db t))).
Proof.
  intros Hc. unfold load_prepared. tstep. eapply ends_bind; [apply stored_snapshot_ends|].
  intros [s|] t1; cbv beta iota.
  - intros (Hd1 & Hs1 & He & blob & Hb & Hj). rewrite Hs in *. destruct (Hc blob s Hb Hj) as (order & flags' & ->).
    apply ends_ret. rewrite Hd1, Hd. split; [done|]. split; [by apply snapshot_like|]. rewrite Hs1. split; [done|].
    intros Hn. congruence.
  - intros [Hd1 _]. unfold load_from_tables. apply ends_assoc. tstep. apply ends_assoc. tstep.
    change (mret (prepare_from_tables flags (db t2)) ≫= _) with
      (_ ← store_snapshot limit flags (prepare_from_tables flags (db t2)); mret (M := T) (prepare_from_tables flags (db t2))).
    eapply ends_bind; [by apply store_snapshot_ends|]. intros _ t4 [Hd4 Hs4]. apply ends_ret.
    assert (db t2 = db t) as E by congruence. rewrite E in *. by split_and!.
Qed.
End Load.

(** ** The body *)
Section Body.
Context `{HashOrder} `{SupportJson} (limit : Z).
Hypothesis json_reads : ∀ s, snapshot_from_json (mjoin (snapshot_pieces s)) = Ok s.
Lemma after_load_yields pass ids prepared d :
  unique_edge_ids d →
  ∃ stats, import_counts pass ids prepared d stats ∧
  yields (
    _ ← check_cancelled;
    _ ← check_cancelled;
    '(calls, counters) ← resolve_calls_on_conn pass (prepare_scope d ids) prepared no_counters;
    _ ← check_cancelled;
    '(imports, counters) ← resolve_imports_on_conn pass (prepare_scope d ids) prepared counters;
    _ ← check_cancelled;
    _ ← resolve_overrides_on_conn pass (prepare_scope d ids) prepared;
    _ ← check_cancelled;
    calls_after ← count_unresolved CALL (prepare_scope d ids);
    _ ← check_cancelled;
    imports_after ← count_unresolved IMPORT (prepare_scope d ids);
    mret {| unresolved_calls_before := count_unresolved_on_conn d CALL (prepare_scope d ids); resolved_calls := calls;
            unresolved_calls := calls_after;
            unresolved_imports_before := count_unresolved_on_conn d IMPORT (prepare_scope d ids);
            resolved_imports := imports; unresolved_imports := imports_after;
            strategy_counters := counters |}) d stats (run_result pass ids prepared d).
Proof.
  intros Hu. destruct (calls_phase pass ids prepared d no_counters Hu) as [[calls counters] H1].
  destruct (imports_phase pass ids prepared d counters) as [counters' H2].
  { apply (phase_unique pass ids prepared d); [apply call_edge_identity|done]. }
  destruct (overrides_phase pass ids prepared d) as [n H3].
  { apply (phase_unique pass ids prepared d); [apply import_edge_identity|].
    apply (phase_unique pass ids prepared d); [apply call_edge_identity|done]. }
  eexists. split; cycle 1.
  - do 2 step. eapply yields_then; [exact H1|cbv beta iota]. step.
    eapply yields_then; [exact H2|cbv beta iota]. step.
    eapply yields_then; [exact H3|cbv beta iota]. do 4 step. apply yields_ret.
  - by split_and!.
Qed.
Lemma body_ends pass ids t :
  unique_edge_ids (db t) → support_current (db t) (support t) →
  ends (pass_body limit pass ids) t (λ stats t', ∃ prepared,
    prepared_like prepared (prepare_from_tables (flags pass) (db t)) ∧
    (stored_blob RESOLUTION_SUPPORT_SNAPSHOT_VERSION (support t) = None →
     prepared = prepare_from_tables (flags pass) (db t)) ∧
    db t' = run_result pass ids prepared (db t) ∧ support_current (db t) (support t') ∧
    import_counts pass ids prepared (db t) stats).
Proof.
  intros Hu Hc. unfold pass_body. pose proof (eq_refl (db t)) as Hd. pose proof (eq_refl (support t)) as Hs.
  remember (db t) as d eqn:Ed in Hd at 2 |- *. remember (support t) as s eqn:Es in Hs at 2 |- *.
  rewrite <-Ed in Hu, Hc. rewrite <-Es in Hc. clear Ed Es. do 9 fstep.
  eapply ends_bind; [apply load_ends; [exact json_reads|by rewrite Hd, Hs]|].
  intros prepared t2 (Hd2 & Hlike & Hc2 & Hexact). rewrite Hd, Hs in *. cbv beta.
  destruct (after_load_yields pass ids prepared d Hu) as (stats & Hstats & Hy).
  eapply ends_mono; [exact (Hy t2 Hd2)|]. intros stats' t3 (-> & Hd3 & Hs3). exists prepared.
  rewrite Hs3. by split_and!.
Qed.
End Body.
(** * Running the pass again

    What a run leaves alone, that a second run changes nothing, and the accounting of
    imports. *)
(** ** One phase per edge *)
Definition active (kind : Z) (scope : ScopeCallerContext) (e : EdgeRow) : bool :=
  is_kind kind e && in_scope scope (e_source_node_id e).
Lemma active_identity kind scope e e' : identity e = identity e' → active kind scope e = active kind scope e'.
Proof. unfold identity, active, is_kind. intros [= Hid Hk Hs _ _ _]. by rewrite Hk, Hs. Qed.
Lemma active_other kind kind' scope e : kind ≠ kind' → active kind scope e = true → active kind' scope e = false.
Proof.
  unfold active, is_kind. intros Hne [->%Z.eqb_eq _]%andb_true_iff. apply Z.eqb_neq in Hne. by rewrite Hne.
Qed.
Lemma kinds_differ : CALL ≠ IMPORT ∧ CALL ≠ OVERRIDE ∧ IMPORT ≠ OVERRIDE.
Proof. by split_and!. Qed.

Section Edge.
Context (pass : ResolutionPass) (scope : ScopeCallerContext) (prepared : PreparedResolutionState) (d : Db).
Let calls := call_edge pass scope prepared d.
Let imports := import_edge pass scope prepared d.
Let overrides := override_edge pass scope prepared d.

Lemma run_edge_cases e :
  run_edge pass scope prepared d e =
  if active CALL scope e then calls e else if active IMPORT scope e then imports e
  else if active OVERRIDE scope e then overrides e else e.
Proof.
  destruct kinds_differ as (H1 & H2 & H3).
  change (run_edge pass scope prepared d e) with (overrides (imports (calls e))).
  assert (Hcf : active CALL scope e = false → calls e = e) by apply call_edge_only.
  assert (Hif : ∀ e, active IMPORT scope e = false → imports e = e) by apply import_edge_only.
  assert (Hof : ∀ e, active OVERRIDE scope e = false → overrides e = e) by apply override_edge_only.
  assert (Hci : ∀ kind, active kind scope (calls e) = active kind scope e).
  { intros kind. apply active_identity, call_edge_identity. }
  assert (Hii : ∀ kind, active kind scope (imports e) = active kind scope e).
  { intros kind. apply active_identity, import_edge_identity. }
  destruct (active CALL scope e) eqn:Hc.
  { rewrite Hif by (rewrite Hci; exact (active_other _ _ _ _ H1 Hc)).
    by rewrite Hof by (rewrite Hci; exact (active_other _ _ _ _ H2 Hc)). }
  rewrite Hcf by done. destruct (active IMPORT scope e) eqn:Hi.
  { by rewrite Hof by (rewrite Hii; exact (active_other _ _ _ _ H3 Hi)). }
  rewrite Hif by done. destruct (active OVERRIDE scope e) eqn:Ho; [done|]. by apply Hof.
Qed.
Lemma run_edge_identity e : identity (run_edge pass scope prepared d e) = identity e.
Proof.
  unfold run_edge. by rewrite override_edge_identity, import_edge_identity, call_edge_identity.
Qed.

(** ** Idempotence, phase by phase *)
Definition decisive (u : ResolvedEdgeUpdate) : Prop :=
  up_touch_metadata u = true → is_Some (up_resolved_target u).
Lemma says_decisive row choice r : says row choice r → decisive (update r).
Proof.
  intros (_ & Ht & _ & _ & _ & Htouch) H. rewrite Htouch in H. apply bool_decide_eq_true in H as [c ->].
  rewrite Ht. by eexists.
Qed.
Lemma candidates_again u e :
  option_or (up_candidate_payload u) (option_or (up_candidate_payload u) (e_candidate_target_node_ids e))
  = option_or (up_candidate_payload u) (e_candidate_target_node_ids e).
Proof. by destruct (up_candidate_payload u). Qed.
(** The same update on the edge it resolved, cleaned or not. *)
Lemma apply_staged_again u e : apply_staged u (apply_staged u e) = apply_staged u e.
Proof. unfold apply_staged. by destruct (up_touch_metadata u), (up_candidate_payload u). Qed.
Lemma apply_staged_cleaned u e :
  up_touch_metadata u = true →
  apply_staged u (set_resolution None None None (apply_staged u e)) = apply_staged u e.
Proof. unfold apply_staged. intros ->. by destruct (up_candidate_payload u). Qed.

(** The worklist looks at the identity, the target and the metadata. *)
Lemma work_row_same kind e e' :
  identity e = identity e' → e_resolved_target_node_id e = e_resolved_target_node_id e' →
  e_confidence e = e_confidence e' → e_certainty e = e_certainty e' →
  work_row d kind scope e = work_row d kind scope e'.
Proof.
  unfold identity. intros [= Hid Hk Hs Ht Hf Hc] Hr Hco Hce.
  unfold work_row, in_worklist, worklist_metadata_filter, edge_to_row, is_kind.
  by rewrite Hid, Hk, Hs, Ht, Hf, Hc, Hr, Hco, Hce.
Qed.
Lemma work_row_open kind e r :
  work_row d kind scope e = Some r →
  e_resolved_target_node_id e = None ∧ (kind = CALL → e_confidence e = None ∧ e_certainty e = None) ∧
  active kind scope e = true.
Proof.
  unfold work_row, in_worklist, active. destruct (_ && _) eqn:H; [|done]. intros _.
  apply andb_true_iff in H as [H ->]. apply andb_true_iff in H as [H Hm].
  apply andb_true_iff in H as [H _]. apply andb_true_iff in H as [Hk Ht].
  split; [by destruct (e_resolved_target_node_id e)|]. split; [|by rewrite Hk].
  intros ->. unfold worklist_metadata_filter in Hm. rewrite Z.eqb_refl in Hm. cbn in Hm.
  by destruct (e_confidence e), (e_certainty e).
Qed.
Lemma work_row_resolved kind e : is_Some (e_resolved_target_node_id e) → work_row d kind scope e = None.
Proof.
  intros [t Ht]. unfold work_row, in_worklist. rewrite Ht. cbn [is_none]. by rewrite andb_false_r.
Qed.

(** An edge as a phase leaves it: its own update is already applied, or there is none. *)
Lemma prepare_again kind e : prepare_row kind scope (prepare_row kind scope e) = prepare_row kind scope e.
Proof.
  unfold prepare_row at 2 3. destruct (is_kind kind e && _ && _) eqn:H.
  - unfold prepare_row. cbn. by rewrite andb_false_r.
  - unfold prepare_row. by rewrite H.
Qed.
Lemma prepare_fixed kind e e' :
  identity e = identity e' → e_resolved_source_node_id e = e_resolved_source_node_id e' →
  prepare_row kind scope e' = e' → prepare_row kind scope e = e.
Proof.
  unfold identity, prepare_row, is_kind. intros [= Hid Hk Hs Ht Hf Hc] Hr. rewrite Hk, Hs, Hr.
  destruct (_ && _ && _) eqn:H; [|done]. intros He'. apply (f_equal e_resolved_source_node_id) in He'.
  cbn in He'. apply andb_true_iff in H as [H _]. apply andb_true_iff in H as [_ H].
  by rewrite <-He' in H.
Qed.

(** A phase is idempotent when its preparation is, and when preparing an edge it resolved
    leaves it or only takes the resolution back. *)
Lemma phase_again kind (prep : EdgeRow → EdgeRow) (result : UnresolvedEdgeRow → ResolvedEdgeUpdate) e :
  prep (prep e) = prep e →
  (∀ r, decisive (result r)) →
  (∀ r, work_row d kind scope (prep e) = Some r →
     let e2 := apply_staged (result r) (prep e) in
     prep e2 = e2 ∨
     (kind = CALL ∧ up_touch_metadata (result r) = true ∧ prep e2 = set_resolution None None None e2)) →
  let phase x := apply_own (work_row d kind scope) result (prep x) in
  phase (phase e) = phase e.
Proof.
  intros Hprep Hdec Hres. cbv zeta. unfold apply_own at 2 3.
  destruct (work_row d kind scope (prep e)) as [r|] eqn:Hr; cycle 1.
  { rewrite Hprep. unfold apply_own. by rewrite Hr. }
  destruct (work_row_open _ _ _ Hr) as (Ht & Hm & _). unfold apply_own.
  destruct (Hres r eq_refl) as [->|(-> & Htouch & ->)].
  - destruct (up_touch_metadata (result r)) eqn:Htouch.
    + rewrite work_row_resolved; [done|]. unfold apply_staged. rewrite Htouch. by apply Hdec.
    + rewrite (work_row_same kind _ (prep e)), Hr by (unfold apply_staged; by rewrite Htouch).
      apply apply_staged_again.
  - destruct (Hm eq_refl) as [Hc1 Hc2].
    rewrite (work_row_same CALL _ (prep e)), Hr; [by apply apply_staged_cleaned|..].
    + unfold apply_staged. by rewrite Htouch.
    + unfold apply_staged. by rewrite Htouch.
    + unfold apply_staged. by rewrite Htouch.
    + unfold apply_staged. by rewrite Htouch.
Qed.
Lemma import_edge_again e : imports (imports e) = imports e.
Proof.
  apply (phase_again IMPORT (prepare_row IMPORT scope)); [apply prepare_again|..].
  - intros r. eapply says_decisive, settles_says, import_settles.
  - intros r Hr. left. cbv zeta. apply (prepare_fixed IMPORT _ (prepare_row IMPORT scope e));
      [apply apply_staged_identity| |apply prepare_again].
    unfold apply_staged. by destruct (up_touch_metadata _).
Qed.

(** *** Calls: the cleaning *)
Definition cleared (e : EdgeRow) : EdgeRow := set_resolution None None None e.
Definition low (e : EdgeRow) : bool :=
  is_kind CALL e
  && match e_confidence e with Some c => f32_lt c (min_call_confidence (policy pass)) | None => false end
  && negb (target_is_endpoint d e) && in_scope scope (e_source_node_id e).
Definition stale_name (e : EdgeRow) : bool :=
  is_kind CALL e && negb (is_none (e_resolved_target_node_id e)) && target_is_common d e
  && (legacy_mode (flags pass)
      || match e_certainty e with Some c => negb (str_eqb c (certainty_as_str Certain)) | None => true end)
  && in_scope scope (e_source_node_id e).
Definition clean_call (e : EdgeRow) : EdgeRow := if low e || stale_name e then cleared e else e.
Lemma cleared_clean e : low (cleared e) = false ∧ stale_name (cleared e) = false.
Proof.
  unfold low, stale_name, is_kind. cbn [cleared set_resolution e_kind]. by destruct (e_kind e =? CALL).
Qed.
Lemma prepare_call_clean e : prepare_call pass scope d e = clean_call (prepare_row CALL scope e).
Proof.
  unfold prepare_call. generalize (prepare_row CALL scope e). clear e. intros e.
  destruct (cleared_clean e) as [_ Hs]. unfold clean_call.
  change (clean_low_confidence d (policy pass) scope e) with (if low e then cleared e else e).
  destruct (low e); cbn [orb]; [|done].
  change (clean_common_name d (flags pass) scope (cleared e)) with
    (if stale_name (cleared e) then cleared (cleared e) else cleared e). by rewrite Hs.
Qed.
Lemma clean_call_again e : clean_call (clean_call e) = clean_call e.
Proof.
  unfold clean_call at 2 3. destruct (low e || stale_name e) eqn:H.
  - destruct (cleared_clean e) as [H1 H2]. unfold clean_call. by rewrite H1, H2.
  - unfold clean_call. by rewrite H.
Qed.
Lemma clean_call_source e :
  identity (clean_call e) = identity e ∧ e_resolved_source_node_id (clean_call e) = e_resolved_source_node_id e.
Proof. unfold clean_call. by destruct (_ || _). Qed.
Lemma prepared_call_fixed e e' :
  identity e' = identity e →
  e_resolved_source_node_id e' = e_resolved_source_node_id (prepare_row CALL scope e) →
  prepare_row CALL scope e' = e'.
Proof.
  intros Hi Hs. apply (prepare_fixed CALL _ (prepare_row CALL scope e)); [|done|apply prepare_again].
  by rewrite Hi, prepare_identity.
Qed.
Lemma call_edge_again e : calls (calls e) = calls e.
Proof.
  apply (phase_again CALL (prepare_call pass scope d)).
  - rewrite !prepare_call_clean. destruct (clean_call_source (prepare_row CALL scope e)) as [Hi Hs].
    rewrite (prepared_call_fixed e); [apply clean_call_again|by rewrite Hi, prepare_identity|done].
  - intros r. eapply says_decisive, call_says.
  - intros r Hr. cbv zeta. set (u := update _).
    destruct (clean_call_source (prepare_row CALL scope e)) as [Hi Hs].
    rewrite (prepare_call_clean (apply_staged u _)), (prepared_call_fixed e).
    2:{ by rewrite apply_staged_identity, prepare_call_clean, Hi, prepare_identity. }
    2:{ rewrite prepare_call_clean, <-Hs. unfold apply_staged. by destruct (up_touch_metadata u). }
    unfold clean_call. destruct (_ || _) eqn:Hc; [|by left]. right. split; [done|]. split; [|done].
    destruct (up_touch_metadata u) eqn:Htouch; [done|]. exfalso.
    destruct (work_row_open _ _ _ Hr) as (Ht & Hm & _). destruct (Hm eq_refl) as [Hm1 Hm2].
    unfold low, stale_name, apply_staged in Hc. rewrite Htouch in Hc. cbn in Hc.
    rewrite Ht, Hm1 in Hc. cbn in Hc. by rewrite !andb_false_r in Hc.
Qed.
Lemma reset_same e e' :
  identity e = identity e' → active OVERRIDE scope e' = true → reset_override scope e = reset_override scope e'.
Proof.
  intros Hi Ha. pose proof (active_identity OVERRIDE scope _ _ Hi) as Ha'. rewrite Ha in Ha'.
  unfold active in Ha, Ha'. unfold reset_override. rewrite Ha, Ha'. destruct e, e'. unfold identity in Hi.
  cbn in *. by injection Hi as -> -> -> -> -> ->.
Qed.
Lemma override_edge_again e : overrides (overrides e) = overrides e.
Proof.
  destruct (active OVERRIDE scope e) eqn:Ha.
  - unfold overrides at 1 3. unfold override_edge.
    rewrite (reset_same (overrides e) e); [done|apply override_edge_identity|done].
  - assert (overrides e = e) as ->; [by apply override_edge_only|]. by apply override_edge_only.
Qed.
Lemma run_edge_again e :
  run_edge pass scope prepared d (run_edge pass scope prepared d e) = run_edge pass scope prepared d e.
Proof.
  rewrite (run_edge_cases (run_edge pass scope prepared d e)).
  rewrite !(active_identity _ _ _ _ (run_edge_identity e)), run_edge_cases.
  destruct (active CALL scope e); [apply call_edge_again|].
  destruct (active IMPORT scope e); [apply import_edge_again|].
  destruct (active OVERRIDE scope e); [apply override_edge_again|done].
Qed.
End Edge.

(** ** What the run reads is what it leaves *)
Section Support.
Context (f : EdgeRow → EdgeRow) (d : Db).
Hypothesis f_identity : keeps_identity f.
Hypothesis f_inheritance : ∀ e, is_kind INHERITANCE e = true → f e = e.
Let d' : Db := with_edges (f <$> edge_table d) d.

Lemma is_kind_same kind e : is_kind kind (f e) = is_kind kind e.
Proof. pose proof (f_identity e) as Hi. unfold identity in Hi. injection Hi as Hid Hk Hs Ht Hf Hc. unfold is_kind. by rewrite Hk. Qed.
Lemma filter_map_same {A} (g : A → A) (p : A → bool) l :
  (∀ x, p (g x) = p x) → List.filter p (g <$> l) = g <$> List.filter p l.
Proof. intros Hp. induction l as [|x l IH]; [done|]. cbn. rewrite Hp. destruct (p x); cbn; by rewrite <-IH. Qed.
Lemma omap_map_same {A B} (g : A → A) (h : A → option B) (l : list A) :
  (∀ x, h (g x) = h x) → omap h (g <$> l) = omap h l.
Proof. intros Hh. induction l as [|x l IH]; [done|]. cbn. rewrite Hh. destruct (h x); by rewrite <-IH. Qed.
Lemma inheritance_edges : List.filter (is_kind INHERITANCE) (edge_table d') = List.filter (is_kind INHERITANCE) (edge_table d).
Proof.
  cbn. rewrite filter_map_same by apply is_kind_same.
  rewrite <-(list_fmap_id (List.filter _ _)) at 2. apply list_fmap_ext.
  intros i e He%list_elem_of_lookup_2. apply list_elem_of_In, List.filter_In in He as [_ He]. by apply f_inheritance.
Qed.
Lemma binding_ids : load_import_binding_node_ids d' = load_import_binding_node_ids d.
Proof.
  unfold load_import_binding_node_ids. cbn. rewrite filter_map_same by apply is_kind_same.
  rewrite <-list_fmap_compose. f_equal. apply list_fmap_ext. intros i e _.
  pose proof (f_identity e) as Hi. unfold identity in Hi. by injection Hi as Hid Hk Hs Ht Hf Hc.
Qed.
Lemma member_rows : load_override_member_rows d' = load_override_member_rows d.
Proof.
  unfold load_override_member_rows. cbn [edge_table d' with_edges]. apply omap_map_same. intros e.
  pose proof (f_identity e) as Hi. unfold identity in Hi. injection Hi as Hid Hk Hs Ht Hf Hc.
  by rewrite is_kind_same, Hs, Ht.
Qed.
Lemma support_same : load_override_support d' = load_override_support d.
Proof.
  unfold load_override_support, load_override_inheritance_rows, load_override_inheritance_by_name_rows.
  by rewrite member_rows, inheritance_edges.
Qed.
Lemma prepared_same flags : prepare_from_tables flags d' = prepare_from_tables flags d.
Proof.
  unfold prepare_from_tables, load_with_import_bindings. by rewrite binding_ids, support_same.
Qed.
End Support.

(** ** Counting imports *)
Lemma filter_split {A} (g : A → A) (p r : A → bool) (l : list A) :
  (∀ x, p (g x) = p x && negb (r x)) → (∀ x, r x = true → p x = true) →
  (length (List.filter p (g <$> l)) + length (List.filter r l) = length (List.filter p l))%nat.
Proof.
  intros Hp Hr. induction l as [|x l IH]; [done|]. cbn. rewrite Hp. specialize (Hr x).
  destruct (p x), (r x); cbn in *; lia.
Qed.
Lemma filter_omap_length {A B} (f : A → option B) (p : B → bool) (l : list A) :
  length (List.filter p (omap f l)) = length (List.filter (λ x, match f x with Some y => p y | None => false end) l).
Proof. induction l as [|x l IH]; [done|]. cbn. destruct (f x) as [y|]; cbn; [destruct (p y); cbn|]; by rewrite IH. Qed.
Lemma filter_fmap_length {A B} (f : A → B) (p : B → bool) (l : list A) :
  length (List.filter p (f <$> l)) = length (List.filter (λ x, p (f x)) l).
Proof. induction l as [|x l IH]; [done|]. cbn. destruct (p (f x)); cbn; by rewrite IH. Qed.
Lemma filter_perm_length {A} (p : A → bool) (l l' : list A) :
  l ≡ₚ l' → length (List.filter p l) = length (List.filter p l').
Proof. induction 1; cbn; repeat match goal with |- context [if ?b then _ else _] => destruct b end; cbn; congruence. Qed.

Section Counting.
Context (pass : ResolutionPass) (ids : option (gset Z)) (prepared : PreparedResolutionState) (d : Db).
Let scope : ScopeCallerContext := prepare_scope d ids.
Let result : UnresolvedEdgeRow → ComputedResolution :=
  resolve_row pass (import_candidate_index prepared) (import_semantic_index prepared)
    EdgeKind.IMPORT compute_import_resolution.
Hypothesis scoped : is_empty_scope scope = false.

Definition open_import (e : EdgeRow) : bool :=
  is_kind IMPORT e && in_scope scope (e_source_node_id e) && is_none (e_resolved_target_node_id e)
  && worklist_metadata_filter IMPORT e.
Definition resolves (c : ComputedResolution) : bool := negb (is_none (strategy c)).
Definition import_resolved (e : EdgeRow) : bool :=
  match work_row d IMPORT scope (prepare_row IMPORT scope e) with
  | Some r => resolves (result r)
  | None => false
  end.
Lemma open_import_active e : open_import e = active IMPORT scope e && is_none (e_resolved_target_node_id e).
Proof. unfold open_import, active. by rewrite andb_true_r. Qed.
Lemma work_row_inactive e : active IMPORT scope e = false → work_row d IMPORT scope e = None.
Proof.
  intros Ha. destruct (work_row d IMPORT scope e) as [r|] eqn:Hr; [|done].
  apply work_row_open in Hr as (_ & _ & Hr). congruence.
Qed.
Lemma prepare_open kind e :
  active IMPORT scope (prepare_row kind scope e) = active IMPORT scope e ∧
  e_resolved_target_node_id (prepare_row kind scope e) = e_resolved_target_node_id e.
Proof. split; [apply active_identity, prepare_identity|]. unfold prepare_row. by destruct (_ && _ && _). Qed.
Lemma import_resolved_open e : import_resolved e = true → open_import e = true.
Proof.
  unfold import_resolved. destruct (work_row _ _ _ _) as [r|] eqn:Hr; [|done]. intros _.
  apply work_row_open in Hr as (Ht & _ & Ha). destruct (prepare_open IMPORT e) as [H1 H2].
  by rewrite open_import_active, <-H1, Ha, <-H2, Ht.
Qed.
Lemma run_open e :
  open_import (run_edge pass scope prepared d e) = open_import e && negb (import_resolved e).
Proof.
  rewrite !open_import_active, (active_identity _ _ _ _ (run_edge_identity pass scope prepared d e)), run_edge_cases.
  destruct (active IMPORT scope e) eqn:Ha; cbn [andb]; [|done].
  assert (active CALL scope e = false) as ->.
  { apply (active_other IMPORT); [|done]. by destruct kinds_differ as [? _]. }
  destruct (prepare_open IMPORT e) as [H1 H2].
  unfold import_edge, resolve_edge, apply_own, import_resolved. fold result.
  change (edge_kind_as_i32 EdgeKind.IMPORT) with IMPORT.
  destruct (work_row d IMPORT scope (prepare_row IMPORT scope e)) as [r|] eqn:Hr.
  2:{ rewrite H2. by rewrite andb_true_r. }
  destruct (work_row_open _ _ _ _ _ Hr) as (Ht & _ & _). rewrite H2 in Ht. rewrite Ht. cbn [is_none andb].
  destruct (settles_says _ _ _ _ _ (import_settles pass (import_candidate_index prepared) r
    (semantic_for_row pass (import_semantic_index prepared) EdgeKind.IMPORT r)))
    as (_ & Htarget & _ & _ & Hstrat & Htouch).
  fold (resolve_row pass (import_candidate_index prepared) (import_semantic_index prepared)
    EdgeKind.IMPORT compute_import_resolution r) in Htarget, Hstrat, Htouch. fold result in Htarget, Hstrat, Htouch.
  unfold resolves, apply_staged. rewrite Htouch, Hstrat.
  destruct (import_reference _ _ _ _) as [c|]; cbn in Htarget |- *; [by rewrite Htarget|].
  change (is_none (e_resolved_target_node_id (prepare_row IMPORT scope e)) = true). by rewrite H2, Ht.
Qed.
Lemma import_results_count :
  count_resolved (import_results pass ids prepared d) = len (List.filter import_resolved (edge_table d)).
Proof.
  unfold count_resolved, import_results, len. fold scope. rewrite scoped. unfold phase_results.
  rewrite filter_fmap_length, worklist_rows by done.
  rewrite (filter_perm_length _ _ _ (sort_by_perm _ _)), filter_omap_length. cbn [edge_table with_edges].
  rewrite !filter_fmap_length. f_equal. f_equal. apply List.filter_ext. intros e.
  change (edge_kind_as_i32 EdgeKind.IMPORT) with IMPORT. unfold import_resolved.
  destruct (active IMPORT scope e) eqn:Ha.
  - rewrite (call_edge_only pass scope prepared d e); [done|].
    apply (active_other IMPORT); [|done]. by destruct kinds_differ as [? _].
  - change (work_row (with_edges _ d)) with (work_row d).
    rewrite !work_row_inactive; [done|..].
    + by rewrite (proj1 (prepare_open _ _)).
    + rewrite (proj1 (prepare_open _ _)), (active_identity _ _ _ _ (call_edge_identity _ _ _ _ e)). done.
Qed.
Lemma imports_balance :
  count_unresolved_on_conn (run_result pass ids prepared d) IMPORT scope
  = count_unresolved_on_conn d IMPORT scope - count_resolved (import_results pass ids prepared d).
Proof.
  rewrite import_results_count. unfold count_unresolved_on_conn, run_result. fold scope. rewrite scoped.
  cbn [edge_table with_edges].
  pose proof (filter_split (run_edge pass scope prepared d) open_import import_resolved (edge_table d)
    run_open import_resolved_open) as H. unfold len. unfold open_import in H. lia.
Qed.
End Counting.

(** ** Claims *)
Lemma run_edge_nodes pass scope prepared d edges e :
  run_edge pass scope prepared (with_edges edges d) e = run_edge pass scope prepared d e.
Proof.
  assert (Hc : ∀ e, call_edge pass scope prepared (with_edges edges d) e = call_edge pass scope prepared d e).
  { reflexivity. }
  assert (Hi : ∀ e, import_edge pass scope prepared (with_edges edges d) e = import_edge pass scope prepared d e).
  { reflexivity. }
  assert (Ho : ∀ e, override_edge pass scope prepared (with_edges edges d) e = override_edge pass scope prepared d e).
  { reflexivity. }
  unfold run_edge. by rewrite Ho, Hi, Hc.
Qed.
Lemma run_result_edges pass ids prepared d :
  ∃ f, run_result pass ids prepared d = with_edges (f <$> edge_table d) d ∧ keeps_identity f ∧
    (∀ e, is_kind INHERITANCE e = true → f e = e) ∧
    ∀ e, active CALL (prepare_scope d ids) e = false → active IMPORT (prepare_scope d ids) e = false →
      active OVERRIDE (prepare_scope d ids) e = false → f e = e.
Proof.
  unfold run_result. destruct (is_empty_scope _).
  - exists (λ e, e). split; [|done]. destruct d as [ns es]. unfold with_edges. cbn. f_equal.
    symmetry. apply list_fmap_id.
  - exists (run_edge pass (prepare_scope d ids) prepared d). split; [done|].
    split; [intros e; apply run_edge_identity|]. split.
    + intros e Hk. rewrite run_edge_cases. unfold active, is_kind in *. apply Z.eqb_eq in Hk. by rewrite Hk.
    + intros e H1 H2 H3. by rewrite run_edge_cases, H1, H2, H3.
Qed.
Lemma tables_of_result flags pass ids prepared d :
  prepare_from_tables flags (run_result pass ids prepared d) = prepare_from_tables flags d.
Proof.
  destruct (run_result_edges pass ids prepared d) as (f & -> & Hid & Hinh & _). by apply prepared_same.
Qed.
Lemma current_after `{SupportJson} pass ids prepared d row :
  support_current d row → support_current (run_result pass ids prepared d) row.
Proof.
  intros Hc blob s Hb Hj. destruct (Hc blob s Hb Hj) as (order & flags & ->). exists order, flags.
  by rewrite tables_of_result.
Qed.

(** *** Edges up to the order of recorded candidates *)
Definition edge_like (e e' : EdgeRow) : Prop :=
  set_candidates None e = set_candidates None e' ∧
  (e = e' ∨ is_kind OVERRIDE e = true ∧ ∃ ids ids', ids ≡ₚ ids' ∧
     e_candidate_target_node_ids e = candidate_json ids ∧ e_candidate_target_node_ids e' = candidate_json ids').
Definition tables_like (d d' : Db) : Prop :=
  node_table d = node_table d' ∧ Forall2 edge_like (edge_table d) (edge_table d').
Lemma edge_like_refl e : edge_like e e.
Proof. split; [done|by left]. Qed.
Lemma apply_staged_like u u' e :
  update_like u u' → e_candidate_target_node_ids e = None → is_kind OVERRIDE e = true →
  edge_like (apply_staged u e) (apply_staged u' e).
Proof.
  intros (Hid & Ht & Hc & Hce & Htouch & ids & ids' & Hp & Hu & Hu') He Hk. unfold apply_staged.
  rewrite Ht, Hc, Hce, Htouch, Hu, Hu'. split; [by destruct (up_touch_metadata u')|]. right.
  split; [by destruct (up_touch_metadata u')|]. exists ids, ids'. split; [done|].
  destruct (up_touch_metadata u'); cbn [set_candidates set_resolution e_candidate_target_node_ids]; rewrite He;
    by destruct (candidate_json ids), (candidate_json ids').
Qed.
Lemma override_edge_cases pass scope prepared d e :
  override_edge pass scope prepared d e =
  match override_row d scope (reset_override scope e) with
  | Some r => apply_staged (resolve_override (flags pass) (override_support prepared) r.1.1 r.1.2 r.2).1
                (reset_override scope e)
  | None => reset_override scope e
  end.
Proof. done. Qed.
Lemma override_edge_like pass scope prepared prepared' d e :
  prepared_like prepared prepared' →
  edge_like (override_edge pass scope prepared d e) (override_edge pass scope prepared' d e) ∧
  (store_candidates (flags pass) = false →
   override_edge pass scope prepared d e = override_edge pass scope prepared' d e).
Proof.
  intros Hp. rewrite !override_edge_cases.
  destruct (override_row d scope (reset_override scope e)) as [r|] eqn:Hr; [|split; [apply edge_like_refl|done]].
  assert (Hreset : e_candidate_target_node_ids (reset_override scope e) = None ∧ is_kind OVERRIDE (reset_override scope e) = true).
  { unfold override_row in Hr. destruct (node_by_id _ _); [|done]. cbn in Hr.
    destruct (_ && _ && _) eqn:Ha in Hr; [|done]. apply andb_true_iff in Ha as [[Hk _]%andb_true_iff Hsc].
    split; [|done]. pose proof (reset_identity scope e) as Hi. unfold identity in Hi. injection Hi as _ Hkind Hsrc _ _ _.
    unfold is_kind in Hk. rewrite Hkind in Hk. rewrite Hsrc in Hsc.
    change (e_kind e =? OVERRIDE = true) in Hk. unfold reset_override, is_kind. by rewrite Hk, Hsc. }
  destruct Hreset as [Hc Hk].
  pose proof (resolve_override_like (flags pass) _ _ r.1.1 r.1.2 r.2 (like_support _ _ Hp)) as Hu.
  split; [by apply apply_staged_like|]. intros Hstore. f_equal.
  destruct Hu as (Hid & Ht & Hco & Hce & Htouch & _).
  pose proof (override_payload_none (flags pass) (override_support prepared) r.1.1 r.1.2 r.2 Hstore) as H1.
  pose proof (override_payload_none (flags pass) (override_support prepared') r.1.1 r.1.2 r.2 Hstore) as H2.
  destruct (resolve_override _ (override_support prepared) _ _ _) as [[] ?],
    (resolve_override _ (override_support prepared') _ _ _) as [[] ?]. cbn in *. congruence.
Qed.
Lemma run_edge_like pass scope prepared prepared' d e :
  prepared_like prepared prepared' →
  edge_like (run_edge pass scope prepared d e) (run_edge pass scope prepared' d e) ∧
  (store_candidates (flags pass) = false → run_edge pass scope prepared d e = run_edge pass scope prepared' d e).
Proof.
  intros Hp. assert (Hc : call_edge pass scope prepared d = call_edge pass scope prepared' d).
  { unfold call_edge. by rewrite (like_calls _ _ Hp), (like_call_semantic _ _ Hp). }
  assert (Hi : import_edge pass scope prepared d = import_edge pass scope prepared' d).
  { unfold import_edge. by rewrite (like_imports _ _ Hp), (like_import_semantic _ _ Hp). }
  unfold run_edge. rewrite Hc, Hi. by apply override_edge_like.
Qed.
Lemma run_result_like pass ids prepared prepared' d :
  prepared_like prepared prepared' →
  tables_like (run_result pass ids prepared d) (run_result pass ids prepared' d).
Proof.
  intros Hp. unfold run_result. destruct (is_empty_scope _).
  - split; [done|]. apply Forall_Forall2_diag, Forall_forall. intros e _. apply edge_like_refl.
  - split; [done|]. cbn [edge_table with_edges]. apply Forall2_fmap, Forall_Forall2_diag, Forall_forall.
    intros e _. by apply run_edge_like.
Qed.

(** *** What a run ends with *)
Definition unfinished (io : RunIo) : Prop := io_rollback io = false ∨ ∃ e, io_commit io = CommitFails e false.
Section Outcomes.
Context `{HashOrder} `{SupportJson} (limit : Z).
Hypothesis json_reads : ∀ s, snapshot_from_json (mjoin (snapshot_pieces s)) = Ok s.
Lemma run_outcomes pass ids io c r c' :
  unique_edge_ids (committed c).1 → support_current (committed c).1 (committed c).2 → open_transaction c = None →
  run_with_scope_with_cancel limit pass ids io c = (r, c') →
  match r with
  | Ok stats => ∃ prepared row, c' = idle (run_result pass ids prepared (committed c).1, row) ∧
      prepared_like prepared (prepare_from_tables (flags pass) (committed c).1) ∧
      (stored_blob RESOLUTION_SUPPORT_SNAPSHOT_VERSION (committed c).2 = None →
       prepared = prepare_from_tables (flags pass) (committed c).1) ∧
      support_current (committed c).1 row ∧ import_counts pass ids prepared (committed c).1 stats
  | Err e => committed c' = committed c ∧
      (blames (io_polls io) (io_outcomes io) e ∨ ∃ ended, io_commit io = CommitFails e ended) ∧
      (open_transaction c' = None ∨ unfinished io)
  end.
Proof.
  destruct c as [[d s] o]. cbn [committed open_transaction fst snd]. intros Hu Hc -> Hrun.
  unfold run_with_scope_with_cancel in Hrun. cbn [committed fst snd] in Hrun.
  set (t0 := mkTxn d s (io_polls io) (io_outcomes io)) in *.
  pose proof (yields_check d t0 eq_refl) as Hpoll. unfold ends in Hpoll.
  destruct (check_cancelled t0) as [[[]|e] t1]; [|injection Hrun as <- <-; by split_and!; [|left|left]].
  destruct Hpoll as [Hw1 _]. unfold run_in_immediate_transaction in Hrun. cbn [open_transaction committed fst snd] in Hrun.
  set (t2 := mkTxn d s (polls t1) (io_outcomes io)) in *.
  assert (Hw2 : within t0 t2) by (split; [apply Hw1|done]).
  pose proof (yields_statement d t2 eq_refl) as Hbegin. unfold ends in Hbegin.
  destruct (statement t2) as [[[]|e] t3].
  2:{ injection Hrun as <- <-. split; [done|]. split; [left; exact (blames_within _ _ _ Hw2 Hbegin)|by left]. }
  destruct Hbegin as (Hw3 & _ & Hd3 & Hs3).
  assert (Hbody := body_ends limit json_reads pass ids t3). rewrite Hd3, Hs3 in Hbody. specialize (Hbody Hu Hc).
  unfold ends in Hbody. destruct (pass_body limit pass ids t3) as [[stats|e] t4].
  - destruct Hbody as (_ & prepared & Hlike & Hexact & Hd4 & Hc4 & Hstats).
    destruct (io_commit io) as [|e ended] eqn:Hcommit; injection Hrun as <- <-.
    + exists prepared, (support t4). rewrite Hd4. by split_and!.
    + split; [by destruct ended|]. split; [right; by exists ended|].
      destruct ended; [by left|right; right; by exists e].
  - injection Hrun as <- <-. split; [by destruct (io_rollback io)|].
    split; [left; apply (blames_within t0 t3); [by etrans|exact Hbody]|].
    destruct (io_rollback io) eqn:Hroll; [by left|right; by left].
Qed.

(** [C24] All or nothing, whatever fails: a run on a connection that has no transaction open and
    whose stored support snapshot, if it could be used, was taken of these tables either
    succeeds and commits the tables of mapping one function over the edges (deduplicated
    semantic requests, shared caches, staged updates and sorting leave no trace), up to the order
    in which an override edge lists its candidates and exactly when no snapshot was stored,
    together with a snapshot that the next run can use; or it fails with the error of a poll that
    was cancelled, of a statement or of the commit, and what is committed stays as it was.  So
    when nothing fails it succeeds; and only a commit or a rollback that does not end the
    transaction leaves it open. *)
Theorem run_all_or_nothing pass ids io c r c' :
  unique_edge_ids (committed c).1 → support_current (committed c).1 (committed c).2 → open_transaction c = None →
  run_with_scope_with_cancel limit pass ids io c = (r, c') →
  let whole := run_result pass ids (prepare_from_tables (flags pass) (committed c).1) (committed c).1 in
  match r with
  | Ok _ => open_transaction c' = None ∧ tables_like (committed c').1 whole ∧
      (stored_blob RESOLUTION_SUPPORT_SNAPSHOT_VERSION (committed c).2 = None → (committed c').1 = whole) ∧
      support_current (committed c').1 (committed c').2
  | Err e => committed c' = committed c ∧
      (blames (io_polls io) (io_outcomes io) e ∨ ∃ ended, io_commit io = CommitFails e ended) ∧
      (open_transaction c' = None ∨ unfinished io)
  end.
Proof.
  intros Hu Hc Ho Hrun whole. pose proof (run_outcomes pass ids io c r c' Hu Hc Ho Hrun) as H1.
  destruct r as [stats|e]; [|exact H1]. destruct H1 as (prepared & row & -> & Hlike & Hexact & Hrow & _).
  split; [done|]. split; [by apply run_result_like|]. split; [|by apply current_after].
  intros Hn. unfold whole. by rewrite <-(Hexact Hn).
Qed.

(** What a run may touch: whether it succeeds or fails, the nodes stay, every edge stays at its
    place with its id, kind, ends, file and call site, and an edge that is not a call, an import
    or an override of a caller in scope is not changed at all. *)
Theorem run_touches_scope pass ids io c r c' :
  unique_edge_ids (committed c).1 → support_current (committed c).1 (committed c).2 → open_transaction c = None →
  run_with_scope_with_cancel limit pass ids io c = (r, c') →
  node_table (committed c').1 = node_table (committed c).1 ∧
  Forall2 (λ e e', identity e' = identity e ∧
    (existsb (λ kind, active kind (prepare_scope (committed c).1 ids) e) [CALL; IMPORT; OVERRIDE] = false → e' = e))
    (edge_table (committed c).1) (edge_table (committed c').1).
Proof.
  intros Hu Hc Ho Hrun. pose proof (run_outcomes pass ids io c r c' Hu Hc Ho Hrun) as H1. destruct r as [stats|e].
  2:{ destruct H1 as [-> _]. split; [done|]. apply Forall_Forall2_diag. apply Forall_forall. by intros. }
  destruct H1 as (prepared & row & -> & _). cbn [committed idle fst].
  destruct (run_result_edges pass ids prepared (committed c).1) as (f & -> & Hid & _ & Hf). split; [done|].
  cbn [edge_table with_edges]. apply Forall2_fmap_r, Forall_Forall2_diag, Forall_forall. intros e _. split; [apply Hid|].
  cbn [existsb]. intros [H1 [H2 [H3 _]%orb_false_iff]%orb_false_iff]%orb_false_iff. by apply Hf.
Qed.

(** The books of the imports balance: the unresolved imports a run reports at its end
    are those it reports at its start less those it reports as resolved. *)
Theorem import_books pass ids io c stats c' :
  unique_edge_ids (committed c).1 → support_current (committed c).1 (committed c).2 → open_transaction c = None →
  run_with_scope_with_cancel limit pass ids io c = (Ok stats, c') →
  unresolved_imports stats = unresolved_imports_before stats - resolved_imports stats ∧
  0 <= resolved_imports stats <= unresolved_imports_before stats.
Proof.
  intros Hu Hc Ho Hrun.
  destruct (run_outcomes pass ids io c _ c' Hu Hc Ho Hrun) as (prepared & row & _ & _ & _ & _ & Hb & Hr & Ha).
  set (d := (committed c).1) in *.
  assert (Hbal : unresolved_imports stats = unresolved_imports_before stats - resolved_imports stats).
  { rewrite Hb, Hr, Ha. destruct (is_empty_scope (prepare_scope d ids)) eqn:He; [|by apply imports_balance].
    unfold count_unresolved_on_conn, import_results. by rewrite He. }
  split; [done|]. assert (0 <= unresolved_imports stats ∧ 0 <= resolved_imports stats); [|lia].
  rewrite Ha, Hr. unfold count_unresolved_on_conn, count_resolved, len. destruct (is_empty_scope _); lia.
Qed.

(** A commit that fails and leaves its transaction open is not rolled back: every later run on
    the connection is refused, whatever it is asked for. *)
Theorem unfinished_commit_blocks pass ids c c' e :
  unique_edge_ids (committed c).1 → support_current (committed c).1 (committed c).2 → open_transaction c = None →
  run_with_scope_with_cancel limit pass ids (mkRunIo [] [] (CommitFails e false) true) c = (Err e, c') →
  committed c' = committed c ∧
  ∀ pass' ids' io', ∃ e', run_with_scope_with_cancel limit pass' ids' io' c' = (Err e', c').
Proof.
  intros Hu Hc Ho Hrun.
  pose proof (run_outcomes pass ids _ c _ c' Hu Hc Ho Hrun) as (Hcom & _ & _). split; [done|].
  assert (is_Some (open_transaction c')) as [st Hopen].
  { unfold run_with_scope_with_cancel, run_in_immediate_transaction in Hrun. cbn in Hrun. rewrite Ho in Hrun.
    change (statement ?t) with (@Ok str unit tt, t) in Hrun. cbv beta iota in Hrun. cbn [polls io_polls io_commit] in Hrun.
    pose proof (body_ends limit json_reads pass ids (mkTxn (committed c).1 (committed c).2 [] []) Hu Hc) as Hb.
    unfold ends in Hb. destruct (pass_body _ _ _ _) as [[stats|e'] t]; [by injection Hrun as <-|].
    destruct Hb as [[Hb _]|[[Hb _]|Hb]]; by apply elem_of_nil in Hb. }
  intros pass' ids' io'. unfold run_with_scope_with_cancel, run_in_immediate_transaction. rewrite Hopen.
  destruct (check_cancelled _) as [[]]; by eexists.
Qed.
End Outcomes.

(** [C19] Running again changes nothing: two runs for the same scope that succeed one after the
    other, each with its own order of hash maps, the second most often with the snapshot the
    first one stored.  The indexes, the semantic candidates and the override support that the
    second works with are those of the first whether they come from the tables or from a
    snapshot; a resolution that its cleaning takes back is computed again with the same target,
    confidence, certainty and candidates; everything else is left.  So the tables after the
    second run are those after the first, up to the order in which an override edge lists several
    candidates, and exactly when candidates are not stored. *)
Theorem run_again (order1 order2 : HashOrder) `{SupportJson} limit pass ids io1 io2 c c1 c2 stats1 stats2 :
  (∀ s, snapshot_from_json (mjoin (snapshot_pieces s)) = Ok s) →
  unique_edge_ids (committed c).1 → support_current (committed c).1 (committed c).2 → open_transaction c = None →
  @run_with_scope_with_cancel order1 _ limit pass ids io1 c = (Ok stats1, c1) →
  @run_with_scope_with_cancel order2 _ limit pass ids io2 c1 = (Ok stats2, c2) →
  tables_like (committed c1).1 (committed c2).1 ∧
  (store_candidates (flags pass) = false → (committed c2).1 = (committed c1).1).
Proof.
  intros Hj Hu Hc Ho Hrun1 Hrun2.
  destruct (@run_outcomes order1 _ limit Hj pass ids io1 c _ c1 Hu Hc Ho Hrun1) as (p1 & row1 & -> & Hlike1 & _ & Hrow1 & _).
  set (d := (committed c).1) in *. set (d1 := run_result pass ids p1 d) in *.
  assert (Hu1 : unique_edge_ids d1).
  { unfold d1. destruct (run_result_edges pass ids p1 d) as (f & -> & Hid & _). by apply unique_ids_map. }
  destruct (@run_outcomes order2 _ limit Hj pass ids io2 (idle (d1, row1)) _ c2 Hu1 (current_after _ _ _ _ _ Hrow1) eq_refl Hrun2)
    as (p2 & row2 & -> & Hlike2 & _).
  cbn [committed idle fst] in *. assert (Hp : prepared_like p1 p2).
  { etrans; [exact Hlike1|]. symmetry. unfold d1 in Hlike2. by rewrite tables_of_result in Hlike2. }
  unfold run_result. assert (prepare_scope d1 ids = prepare_scope d ids) as ->.
  { unfold d1. destruct (run_result_edges pass ids p1 d) as (f & -> & _). done. }
  destruct (is_empty_scope (prepare_scope d ids)) eqn:He.
  { split; [|done]. split; [done|]. apply Forall_Forall2_diag, Forall_forall. intros e _. apply edge_like_refl. }
  assert (Hedges : edge_table d1 = run_edge pass (prepare_scope d ids) p1 d <$> edge_table d).
  { unfold d1, run_result. by rewrite He. }
  assert (Hagain : ∀ e, e ∈ edge_table d1 →
    edge_like e (run_edge pass (prepare_scope d ids) p2 d1 e) ∧
    (store_candidates (flags pass) = false → run_edge pass (prepare_scope d ids) p2 d1 e = e)).
  { intros e (e0 & -> & _)%(eq_ind _ (λ l, e ∈ l → _) (proj1 (list_elem_of_fmap _ _ _)) _ (eq_sym Hedges)).
    assert (run_edge pass (prepare_scope d ids) p2 d1 (run_edge pass (prepare_scope d ids) p1 d e0) =
      run_edge pass (prepare_scope d ids) p2 d (run_edge pass (prepare_scope d ids) p1 d e0)) as ->.
    { unfold d1, run_result. rewrite He. apply run_edge_nodes. }
    destruct (run_edge_like pass (prepare_scope d ids) p1 p2 d (run_edge pass (prepare_scope d ids) p1 d e0) Hp) as [Hl Hx].
    rewrite run_edge_again in Hl, Hx. split; [exact Hl|]. intros Hs. symmetry. by apply Hx. }
  split.
  - split; [done|]. cbn [edge_table with_edges]. apply Forall2_fmap_r, Forall_Forall2_diag, Forall_forall.
    intros e Hin. by apply Hagain.
  - intros Hs. transitivity (with_edges (edge_table d1) d1); [|by destruct d1]. f_equal.
    rewrite <-(list_fmap_id (edge_table d1)) at 2. apply list_fmap_ext. intros i e Hin%list_elem_of_lookup_2.
    by apply Hagain.
Qed.

(** ** A small repository

    Two files; [main] calls [helper] of its own file and [push], and imports a module that is in
    the other file; the method [area] of a type overrides that of the type it inherits from.  A
    snapshot is written as the digits of its number. *)
Definition node_tuple (n : CandidateNodeSnapshot) : Z * option Z * (option str * (str * option str)) :=
  ((sn_id n, sn_file_node_id n), (sn_file_path n, (sn_serialized_name n, sn_qualified_name n))).
Definition node_of_tuple (t : Z * option Z * (option str * (str * option str))) : CandidateNodeSnapshot :=
  let '((i, f), (p, (s, q))) := t in mkCandidateNodeSnapshot i f p s q.
Definition semantic_tuple (n : SemanticCandidateNodeSnapshot) : Z * Z * str * (option str * option Z * option str) :=
  ((ss_id n, ss_kind n, ss_serialized_name n), (ss_qualified_name n, ss_file_node_id n, ss_language_family n)).
Definition semantic_of_tuple (t : Z * Z * str * (option str * option Z * option str)) : SemanticCandidateNodeSnapshot :=
  let '((i, k, s), (q, f, l)) := t in mkSemanticCandidateNodeSnapshot i k s q f l.
Definition member_tuple (m : OverrideMemberSnapshot) : Z * str * (Z * str) :=
  ((om_owner_id m, om_owner_name m), (om_method_id m, om_method_name m)).
Definition member_of_tuple (t : Z * str * (Z * str)) : OverrideMemberSnapshot :=
  let '((o, n), (i, m)) := t in mkOverrideMemberSnapshot o n i m.
Definition support_number (s : ResolutionSupportSnapshot) : positive :=
  encode
    (((sp_enable_semantic s, node_tuple <$> sp_call_candidates s),
      (sp_call_import_binding_node_ids s, node_tuple <$> sp_import_candidates s,
       node_tuple <$> sp_relative_import_candidates s)),
     ((semantic_tuple <$> sp_call_semantic_nodes s, semantic_tuple <$> sp_import_semantic_nodes s,
       member_tuple <$> sp_override_members s),
      (sp_override_inheritance s, sp_override_inheritance_by_name s, sp_node_names s))).
Definition support_of_number (p : positive) : option ResolutionSupportSnapshot :=
  '(((e, c), (b, i, r)), ((cs, si, m), (oi, on, nn))) ← decode p;
  Some (mkSupportSnapshot e (node_of_tuple <$> c) b (node_of_tuple <$> i) (node_of_tuple <$> r)
    (semantic_of_tuple <$> cs) (semantic_of_tuple <$> si) (member_of_tuple <$> m) oi on nn).
Lemma map_back {A B} (f : A → B) (g : B → A) (l : list A) : (∀ x, g (f x) = x) → g <$> (f <$> l) = l.
Proof. intros Hfg. rewrite <-list_fmap_compose. induction l as [|x l IH]; cbn; [done|]. by rewrite Hfg, IH. Qed.
#[local] Instance digits_json : SupportJson := {|
  snapshot_pieces s := [digits (support_number s)];
  snapshot_from_json s :=
    match support_of_number (undigits s) with Some s => Ok s | None => Err (lit "expected digits") end |}.
Lemma digits_json_reads s : snapshot_from_json (mjoin (snapshot_pieces s)) = Ok s.
Proof.
  cbn [snapshot_from_json snapshot_pieces digits_json mjoin list_join].
  rewrite app_nil_r, undigits_digits. unfold support_of_number, support_number. rewrite decode_encode.
  cbn [mbind option_bind]. by rewrite !map_back by (by intros []); destruct s.
Qed.
Definition first_to_last : HashOrder := {| hash_order A l := l; hash_order_perm A l := Permutation_refl l |}.
Lemma reverse_permuted {A} (l : list A) : reverse l ≡ₚ l.
Proof. apply reverse_Permutation. Qed.
Definition last_to_first : HashOrder := {| hash_order A l := reverse l; hash_order_perm A := reverse_permuted |}.

Definition sample_node (id kind : Z) (name : str) (file : option Z) : NodeRow :=
  {| n_id := id; n_kind := kind; n_serialized_name := name; n_qualified_name := None;
     n_canonical_id := None; n_file_node_id := file; n_start_line := Some id |}.
Definition sample_edge (id kind source target : Z) : EdgeRow :=
  {| e_id := id; e_kind := kind; e_source_node_id := source; e_target_node_id := target;
     e_file_node_id := Some 1; e_resolved_source_node_id := None; e_resolved_target_node_id := None;
     e_confidence := None; e_certainty := None; e_candidate_target_node_ids := None;
     e_callsite_identity := None |}.
Definition sample_db : Db :=
  {| node_table :=
       [sample_node 1 (node_kind_as_i32 NodeKind.FILE) (lit "src/main.py") None;
        sample_node 2 (node_kind_as_i32 NodeKind.FILE) (lit "src/util.py") None;
        sample_node 3 (node_kind_as_i32 NodeKind.FUNCTION) (lit "main") (Some 1);
        sample_node 4 (node_kind_as_i32 NodeKind.FUNCTION) (lit "helper") (Some 1);
        sample_node 5 (node_kind_as_i32 NodeKind.MODULE) (lit "util") (Some 2);
        sample_node 6 (node_kind_as_i32 NodeKind.UNKNOWN) (lit "helper") (Some 1);
        sample_node 7 (node_kind_as_i32 NodeKind.UNKNOWN) (lit "push") (Some 1);
        sample_node 8 (node_kind_as_i32 NodeKind.UNKNOWN) (lit "util") (Some 1);
        sample_node 9 (node_kind_as_i32 NodeKind.MODULE) (lit "util") (Some 1);
        sample_node 20 (node_kind_as_i32 NodeKind.CLASS) (lit "Circle") (Some 1);
        sample_node 21 (node_kind_as_i32 NodeKind.METHOD) (lit "area") (Some 1);
        sample_node 30 (node_kind_as_i32 NodeKind.CLASS) (lit "Shape") (Some 2);
        sample_node 31 (node_kind_as_i32 NodeKind.METHOD) (lit "area") (Some 2)];
     edge_table := [sample_edge 10 CALL 3 6; sample_edge 11 CALL 3 7; sample_edge 12 IMPORT 8 8;
                    sample_edge 13 MEMBER 20 21; sample_edge 14 MEMBER 30 31;
                    sample_edge 15 INHERITANCE 20 30; sample_edge 16 OVERRIDE 21 21] |}.
Lemma sample_unique : unique_edge_ids sample_db.
Proof. apply (bool_decide_unpack _). by vm_compute. Qed.
Lemma sample_current : support_current sample_db None.
Proof. by intros blob s. Qed.
Definition sample_limit : Z := 10000000.
Definition sample_io (commit : CommitOutcome) : RunIo := mkRunIo [] [] commit true.
Definition sample_first : result str ResolutionStats * Connection :=
  @run_with_scope_with_cancel first_to_last _ sample_limit sample_pass None (sample_io Commits) (idle (sample_db, None)).
Definition sample_second : result str ResolutionStats * Connection :=
  @run_with_scope_with_cancel last_to_first _ sample_limit sample_pass None (sample_io Commits) sample_first.2.
(** The calls of [helper], the import and the override are resolved, the call of [push] is not. *)
Definition sample_stats : ResolutionStats :=
  {| unresolved_calls_before := 2; resolved_calls := 1; unresolved_calls := 1;
     unresolved_imports_before := 1; resolved_imports := 1; unresolved_imports := 0;
     strategy_counters := mkResolutionStrategyCounters 1 0 0 0 0 0 0 1 0 |}.
Lemma first_known {A B} (p : A * B) (a : A) : p.1 = a → p = (a, p.2).
Proof. by intros <-; destruct p. Qed.
Lemma sample_first_run :
  @run_with_scope_with_cancel first_to_last _ sample_limit sample_pass None (sample_io Commits) (idle (sample_db, None)) =
  (Ok sample_stats, sample_first.2).
Proof. unfold sample_first. apply first_known. by vm_compute. Qed.
Definition sample_stats_again : ResolutionStats :=
  {| unresolved_calls_before := 1; resolved_calls := 0; unresolved_calls := 1;
     unresolved_imports_before := 0; resolved_imports := 0; unresolved_imports := 0;
     strategy_counters := no_counters |}.
Lemma sample_second_run :
  @run_with_scope_with_cancel last_to_first _ sample_limit sample_pass None (sample_io Commits) sample_first.2 =
  (Ok sample_stats_again, sample_second.2).
Proof. unfold sample_second. apply first_known. by vm_compute. Qed.
Definition sample_refused : result str ResolutionStats * Connection :=
  @run_with_scope_with_cancel first_to_last _ sample_limit sample_pass None
    (mkRunIo [] [] (CommitFails (lit "disk I/O error") false) true) (idle (sample_db, None)).
Lemma sample_refused_run :
  @run_with_scope_with_cancel first_to_last _ sample_limit sample_pass None
    (mkRunIo [] [] (CommitFails (lit "disk I/O error") false) true) (idle (sample_db, None)) =
  (Err (lit "disk I/O error"), sample_refused.2).
Proof. unfold sample_refused. apply first_known. by vm_compute. Qed.
Lemma run_all_or_nothing_witness :
  e_resolved_target_node_id <$> edge_table (committed sample_first.2).1 =
    [Some 4; None; Some 5; None; None; None; Some 31] ∧
  support_current (committed sample_first.2).1 (committed sample_first.2).2.
Proof.
  split; [by vm_compute|].
  apply (@run_all_or_nothing first_to_last _ sample_limit digits_json_reads sample_pass None (sample_io Commits)
    (idle (sample_db, None)) (Ok sample_stats) sample_first.2);
    [apply sample_unique|apply sample_current|reflexivity|apply sample_first_run].
Defined.
Lemma run_touches_scope_witness :
  node_table (committed sample_first.2).1 = node_table sample_db ∧
  Forall2 (λ e e', identity e' = identity e ∧
    (existsb (λ kind, active kind (prepare_scope sample_db None) e) [CALL; IMPORT; OVERRIDE] = false → e' = e))
    (edge_table sample_db) (edge_table (committed sample_first.2).1).
Proof.
  apply (@run_touches_scope first_to_last _ sample_limit digits_json_reads sample_pass None (sample_io Commits)
    (idle (sample_db, None)) (Ok sample_stats) sample_first.2);
    [apply sample_unique|apply sample_current|reflexivity|apply sample_first_run].
Defined.
(** The second run reads the snapshot of the first, and writes none. *)
Lemma run_again_witness :
  stored_blob RESOLUTION_SUPPORT_SNAPSHOT_VERSION (committed sample_first.2).2 ≠ None ∧
  tables_like (committed sample_first.2).1 (committed sample_second.2).1.
Proof.
  split; [intros E; apply (f_equal is_none) in E; vm_compute in E; discriminate|].
  apply (run_again first_to_last last_to_first sample_limit sample_pass None (sample_io Commits) (sample_io Commits)
    (idle (sample_db, None)) sample_first.2 sample_second.2 sample_stats sample_stats_again);
    [apply digits_json_reads|apply sample_unique|apply sample_current|reflexivity|apply sample_first_run|
     apply sample_second_run].
Defined.
Lemma import_books_witness :
  unresolved_imports sample_stats = unresolved_imports_before sample_stats - resolved_imports sample_stats ∧
  0 <= resolved_imports sample_stats <= unresolved_imports_before sample_stats.
Proof.
  apply (@import_books first_to_last _ sample_limit digits_json_reads sample_pass None (sample_io Commits)
    (idle (sample_db, None)) sample_stats sample_first.2);
    [apply sample_unique|apply sample_current|reflexivity|apply sample_first_run].
Defined.
Lemma unfinished_commit_blocks_witness :
  committed sample_refused.2 = (sample_db, None) ∧
  ∀ pass' ids' io', ∃ e', @run_with_scope_with_cancel first_to_last _ sample_limit pass' ids' io' sample_refused.2 =
    (Err e', sample_refused.2).
Proof.
  apply (@unfinished_commit_blocks first_to_last _ sample_limit digits_json_reads sample_pass None
    (idle (sample_db, None)) sample_refused.2 (lit "disk I/O error"));
    [apply sample_unique|apply sample_current|reflexivity|apply sample_refused_run].
Defined.
