(* ===== verification/AffectedWalk.v ===== *)
(** * Affected analysis: the walk over the dependents

    codestory-runtime/src/affected.rs: the evidence a changed file gives to the nodes that
    depend on it, the seeds of the walk, and the breadth-first walk over the reversed edges
    that keeps the best evidence of every node.  [BTreeMap]s keyed by node ids are finite
    maps whose iteration is in the order of the keys. *)
From S2P Require Import Prelude RustStr Graph Sorting StrOps Collections RetrievalData.

(** ** Ordered maps and strings *)
(** The keys of a [BTreeMap] with integer keys, in order. *)
Definition btree_keys {V} (m : gmap Z V) : list Z := sort_z ((map_to_list m).*1).
(** [entry(k).and_modify(replace if better).or_insert(v)]. *)
Definition insert_better {V} (better : V → V → bool) (m : gmap Z V) (k : Z) (candidate : V)
  : gmap Z V :=
  match m !! k with
  | Some current => if better candidate current then <[k := candidate]> m else m
  | None => <[k := candidate]> m
  end.
Definition bool_cmp (a b : bool) : comparison :=
  match a, b with false, true => Lt | true, false => Gt | _, _ => Eq end.

(** ** Confidence *)
Record AffectedConfidenceFloor : Type := mkFloor { strength : Z; floor_label : str }.

Definition known_floor_labels : list str :=
  [lit "direct"; lit "certain"; lit "schema"; lit "probable"; lit "graph"; lit "heuristic";
   lit "file_convention"; lit "decorator"; lit "annotation"; lit "attribute"; lit "uncertain";
   lit "bounded"].
Definition label_strength (label : str) : Z :=
  if one_of label [lit "direct"] then 7
  else if one_of label [lit "certain"; lit "schema"] then 6
  else if one_of label [lit "probable"; lit "file_convention"; lit "decorator";
                        lit "annotation"; lit "attribute"] then 5
  else if one_of label [lit "graph"] then 4
  else if one_of label [lit "heuristic"] then 3
  else if one_of label [lit "uncertain"] then 2
  else 1.
Definition floor_from_label (label : str) : AffectedConfidenceFloor :=
  {| strength := label_strength label;
     floor_label := if one_of label known_floor_labels then label else lit "bounded" |}.
Definition bounded_floor : AffectedConfidenceFloor := floor_from_label (lit "bounded").

(** The weaker of two floors; of equally strong ones the one with the smaller label. *)
Definition weakest (a b : AffectedConfidenceFloor) : AffectedConfidenceFloor :=
  match strength a ?= strength b with
  | Lt => a
  | Gt => b
  | Eq => match str_cmp (floor_label a) (floor_label b) with Gt => b | _ => a end
  end.

(** ** Evidence *)
Record AffectedPathTieStep : Type := mkTieStep {
  step_edge_id : Z;
  step_source_node_id : Z;
  step_target_node_id : Z;
}.
Definition tie_step_cmp : AffectedPathTieStep → AffectedPathTieStep → comparison :=
  then_with (cmp_on step_edge_id Z.compare)
    (then_with (cmp_on step_source_node_id Z.compare) (cmp_on step_target_node_id Z.compare)).

Record AffectedGraphEvidence : Type := mkEvidence {
  ev_distance : Z;
  ev_reason : str;
  ev_confidence_floor : AffectedConfidenceFloor;
  ev_previous_identity_proxy : bool;
  ev_path_tie_key : list AffectedPathTieStep;
}.

Definition evidence_seed (node_id : Z) (reason : str) (confidence_floor : AffectedConfidenceFloor)
    (previous_identity_proxy : bool) : AffectedGraphEvidence :=
  {| ev_distance := 0; ev_reason := reason;
     ev_confidence_floor := if previous_identity_proxy then bounded_floor else confidence_floor;
     ev_previous_identity_proxy := previous_identity_proxy;
     ev_path_tie_key := [mkTieStep i64_min node_id node_id] |}.

Definition compare_affected_evidence : AffectedGraphEvidence → AffectedGraphEvidence → comparison :=
  then_with (cmp_on ev_distance Z.compare)
  (then_with (cmp_on ev_previous_identity_proxy bool_cmp)
  (then_with (cmp_flip (cmp_on (λ e, strength (ev_confidence_floor e)) Z.compare))
  (then_with (cmp_on (λ e, floor_label (ev_confidence_floor e)) str_cmp)
  (then_with (cmp_on ev_path_tie_key (list_cmp tie_step_cmp)) (cmp_on ev_reason str_cmp))))).
Definition affected_evidence_is_better (candidate current : AffectedGraphEvidence) : bool :=
  match compare_affected_evidence candidate current with Lt => true | _ => false end.

(** ** The seeds of the walk *)
Definition changed_file_reason : str := lit "changed file matched current input path".
Definition declared_symbol_reason : str :=
  lit "symbol declared in file matched by current input path".

(** The evidence a changed file gives to itself and to each node declared in it. *)
Definition file_candidate (previous : gmap Z AffectedGraphEvidence) (file_id : Z)
  : AffectedGraphEvidence :=
  default (evidence_seed file_id changed_file_reason (floor_from_label (lit "direct")) false)
    (previous !! file_id).
Definition node_candidate (previous : gmap Z AffectedGraphEvidence) (file_id node_id : Z)
  : AffectedGraphEvidence :=
  match previous !! file_id with
  | Some e => evidence_seed node_id (ev_reason e) (ev_confidence_floor e)
                (ev_previous_identity_proxy e)
  | None => evidence_seed node_id declared_symbol_reason (floor_from_label (lit "direct")) false
  end.
Definition keep_better : gmap Z AffectedGraphEvidence → Z → AffectedGraphEvidence
    → gmap Z AffectedGraphEvidence := insert_better affected_evidence_is_better.

Definition affected_graph_seeds (graph_seed_file_ids : gset Z)
    (previous_identity_seed_evidence : gmap Z AffectedGraphEvidence)
    (node_ids_by_file : list (Z * list Z)) : gmap Z AffectedGraphEvidence :=
  foldl (λ seeds file_id,
    let seeds := keep_better seeds file_id
                   (file_candidate previous_identity_seed_evidence file_id) in
    foldl (λ seeds node_id, keep_better seeds node_id
             (node_candidate previous_identity_seed_evidence file_id node_id))
      seeds (default [] (hm_get node_ids_by_file file_id)))
    ∅ (sort_z (elements graph_seed_file_ids)).

(** ** Edges *)
Definition affected_edge_kind_label (kind : EdgeKind) : str :=
  match kind with
  | EdgeKind.MEMBER => lit "member" | EdgeKind.TYPE_USAGE => lit "type_usage"
  | EdgeKind.USAGE => lit "usage" | EdgeKind.CALL => lit "call"
  | EdgeKind.INHERITANCE => lit "inheritance" | EdgeKind.OVERRIDE => lit "override"
  | EdgeKind.TYPE_ARGUMENT => lit "type_argument"
  | EdgeKind.TEMPLATE_SPECIALIZATION => lit "template_specialization"
  | EdgeKind.INCLUDE => lit "include" | EdgeKind.IMPORT => lit "import"
  | EdgeKind.MACRO_USAGE => lit "macro_usage"
  | EdgeKind.ANNOTATION_USAGE => lit "annotation_usage" | EdgeKind.UNKNOWN => lit "unknown"
  end.

Definition structural_edge_default_certainty (kind : EdgeKind) : option ResolutionCertainty :=
  match kind with
  | EdgeKind.MEMBER | EdgeKind.INHERITANCE | EdgeKind.OVERRIDE | EdgeKind.TYPE_ARGUMENT
  | EdgeKind.TEMPLATE_SPECIALIZATION | EdgeKind.INCLUDE | EdgeKind.IMPORT => Some Certain
  | EdgeKind.CALL | EdgeKind.USAGE | EdgeKind.TYPE_USAGE | EdgeKind.MACRO_USAGE
  | EdgeKind.ANNOTATION_USAGE | EdgeKind.UNKNOWN => None
  end.
Definition edge_certainty_label (kind : EdgeKind) (certainty : option ResolutionCertainty)
    (confidence : option f32) : option str :=
  certainty_as_str <$> option_or (option_or certainty (from_confidence confidence))
                         (structural_edge_default_certainty kind).
Definition affected_edge_confidence (edge : Edge) : AffectedConfidenceFloor :=
  floor_from_label (default (lit "graph")
    (edge_certainty_label (edge_kind edge) (edge_certainty edge) (edge_confidence edge))).

Definition affected_dependent_evidence (distance : Z) (edge : Edge) (target_label : str)
    (parent : AffectedGraphEvidence) : AffectedGraphEvidence :=
  let reason := lit "dependent reaches changed code via "
                ++ affected_edge_kind_label (edge_kind edge) ++ lit " edge to " ++ target_label in
  let proxy := ev_previous_identity_proxy parent in
  {| ev_distance := distance;
     ev_reason := if proxy then lit "bounded previous-identity proxy; " ++ reason else reason;
     ev_confidence_floor := if proxy then bounded_floor
                            else weakest (ev_confidence_floor parent) (affected_edge_confidence edge);
     ev_previous_identity_proxy := proxy;
     ev_path_tie_key := ev_path_tie_key parent
       ++ [mkTieStep (edge_id edge) (effective_source edge) (effective_target edge)] |}.

Definition compare_affected_reverse_edges : Edge → Edge → comparison :=
  then_with (cmp_on effective_source Z.compare)
  (then_with (cmp_on edge_id Z.compare)
  (then_with (cmp_on effective_target Z.compare)
  (then_with (cmp_on (λ e, edge_kind_as_i32 (edge_kind e)) Z.compare)
  (then_with (cmp_on edge_line (option_cmp Z.compare))
  (then_with (cmp_on edge_source Z.compare)
  (then_with (cmp_on edge_target Z.compare)
  (then_with (cmp_on edge_resolved_source (option_cmp Z.compare))
  (then_with (cmp_on edge_resolved_target (option_cmp Z.compare))
             (cmp_on edge_callsite_identity (option_cmp str_cmp)))))))))).

(** ** The walk *)
Record AffectedReverseWalk : Type := mkWalk {
  walk_distances : gmap Z Z;
  walk_evidence : gmap Z AffectedGraphEvidence;
  visited_edge_count : Z;
}.

Section Walk.
Context (edges : list Edge) (labels : gmap Z str).

(** The edges into each node, by their offsets, in the order of the comparison. *)
Definition edge_index_leb (left right : nat) : bool :=
  match edges !! left, edges !! right with
  | Some l, Some r => cmp_leb compare_affected_reverse_edges l r
  | _, _ => true
  end.
Definition reverse_dependents : list (Z * list nat) :=
  prod_map id (sort_by edge_index_leb) <$>
    hm_group (imap (λ edge_index edge, (effective_target edge, edge_index)) edges).

Definition target_label (node_id : Z) : str := default (show_int node_id) (labels !! node_id).

(** One edge of the frontier: the candidates of the next layer and the visited edges. *)
Definition visit_edge (next_distance : Z) (distances : gmap Z Z) (node_id : Z)
    (parent : AffectedGraphEvidence) (acc : gmap Z AffectedGraphEvidence * Z) (edge_index : nat)
  : gmap Z AffectedGraphEvidence * Z :=
  let visited := saturating_add usize_max acc.2 1 in
  match edges !! edge_index with
  | None => (acc.1, visited)
  | Some edge =>
      let dependent := effective_source edge in
      match distances !! dependent with
      | Some _ => (acc.1, visited)
      | None => (keep_better acc.1 dependent
                   (affected_dependent_evidence next_distance edge (target_label node_id) parent),
                 visited)
      end
  end.
Definition visit_node (next_distance : Z) (distances : gmap Z Z)
    (evidence : gmap Z AffectedGraphEvidence) (acc : gmap Z AffectedGraphEvidence * Z)
    (node_id : Z) : gmap Z AffectedGraphEvidence * Z :=
  match evidence !! node_id with
  | None => acc
  | Some parent => foldl (visit_edge next_distance distances node_id parent) acc
                     (default [] (hm_get reverse_dependents node_id))
  end.

(** The rounds of the walk, one per layer; a round without new nodes ends it. *)
Fixpoint walk_layers (rounds : nat) (distance : Z) (w : AffectedReverseWalk) (frontier : list Z)
  : AffectedReverseWalk :=
  match rounds with
  | O => w
  | S rounds =>
      let next_distance := distance + 1 in
      let '(next_candidates, visited) :=
        foldl (visit_node next_distance (walk_distances w) (walk_evidence w))
          (∅, visited_edge_count w) frontier in
      let w' := {| walk_distances := ((λ _, next_distance) <$> next_candidates) ∪ walk_distances w;
                   walk_evidence := next_candidates ∪ walk_evidence w;
                   visited_edge_count := visited |} in
      match btree_keys next_candidates with
      | [] => w'
      | frontier => walk_layers rounds next_distance w' frontier
      end
  end.

Definition affected_reverse_walk (depth : Z) (seed_evidence : gmap Z AffectedGraphEvidence)
  : AffectedReverseWalk :=
  walk_layers (Z.to_nat depth) 0
    {| walk_distances := (λ _, 0) <$> seed_evidence; walk_evidence := seed_evidence;
       visited_edge_count := 0 |} (btree_keys seed_evidence).
End Walk.
