(* ===== verification/AffectedImpacts.v ===== *)
(** * Affected analysis: paths, roles and what a walk reaches

    codestory-runtime/src/affected.rs: the impacted symbols, tests and routes of a walk,
    with the path helpers of codestory-runtime/src/index_coverage.rs and the file roles of
    codestory-runtime/src/symbol_query.rs.  Paths are Unix paths in UTF-8.  The metadata of
    a route endpoint is an interface: the store and the JSON of a canonical id give it. *)
From S2P Require Import Prelude RustStr RetrievalData Graph Sorting StrOps UnixPath Collections AffectedWalk.

(** ** Paths of the report *)
Definition runtime_relative_path (root path : str) : str :=
  unix_path (default path (path_strip_prefix path root)).
Definition normalize_path_key (path : str) : str :=
  to_ascii_lowercase (trim_start_str (unix_path (trim path)) (lit "./")).

(** ** Roles of indexed files *)
Module RetrievalFileRole.
Inductive RetrievalFileRole : Set := Source | Test | Docs | Generated | Vendor | Benchmark.
End RetrievalFileRole.
Abbreviation RetrievalFileRole := RetrievalFileRole.RetrievalFileRole.
Module IndexedFileRoleDto.
Inductive IndexedFileRoleDto : Set := Source | Test | Generated | Vendor | Unknown.
End IndexedFileRoleDto.
Abbreviation IndexedFileRoleDto := IndexedFileRoleDto.IndexedFileRoleDto.
#[export] Instance IndexedFileRoleDto_eq_dec : EqDecision IndexedFileRoleDto.
Proof. solve_decision. Defined.

Definition normalize_retrieval_path (path : str) : str :=
  to_ascii_lowercase (trim_start_matches is_slash
    (trim_start_str (unix_path (trim_start_str path (lit "\\?\"))) (lit "./"))).

(** The part of a path in a materialised checkout after its repository's name. *)
Definition strip_materialized_repo_cache_prefix (path : str) : str :=
  default path (snd <$> foldl (λ best marker,
    match rfind path marker with
    | None => best
    | Some index =>
        match split_once_slash (drop (index + length marker) path) with
        | None | Some (_, []) => best
        | Some (_, repo_relative) =>
            match best with
            | Some (best_index, _) =>
                if (best_index <? index)%nat then Some (index, repo_relative) else best
            | None => Some (index, repo_relative)
            end
        end
    end) None repo_markers).

Definition retrieval_file_role_from_path (path : str) : RetrievalFileRole :=
  let normalized := strip_materialized_repo_cache_prefix (normalize_retrieval_path path) in
  let marked := lit "/" ++ normalized in
  let file_name := after_last_slash normalized in
  if any_in marked [lit "/node_modules/"; lit "/src/external/"; lit "/external/"; lit "/deps/";
                    lit "/vendor/"; lit "/vendors/"; lit "/third_party/"; lit "/third-party/"]
  then RetrievalFileRole.Vendor
  else if any_in marked [lit "/target/"; lit "/dist/"; lit "/build/"; lit "/generated/"]
          || contains marked (lit "/schema/typescript/") || contains marked (lit ".generated.")
          || contains file_name (lit "generated") || contains file_name (lit "payload-types")
          || ends_with file_name (lit ".g.cs")
  then RetrievalFileRole.Generated
  else if any_in marked [lit "/benches/"; lit "/bench/"; lit "/benchmarks/"; lit "/benchmark/"]
          || (contains marked (lit "/scripts/")
              && (contains marked (lit "bench") || contains marked (lit "benchmark")))
  then RetrievalFileRole.Benchmark
  else if any_in marked [lit "/bin/test/"; lit "/test/data/"; lit "/tests/"; lit "/test/";
                         lit "/spec/"; lit "/fixtures/"; lit "/fixture/"; lit "/examples/";
                         lit "/example/"; lit "/__tests__/"; lit "/__test__/";
                         lit "-test-client/"; lit "_test_client/"]
          || any_in file_name [lit ".test."; lit ".spec."]
          || any_suffix file_name [lit "_test.rs"; lit "_tests.rs"; lit "_test.py";
               lit "_tests.py"; lit "_test.ts"; lit "_tests.ts"; lit "_test.tsx";
               lit "_tests.tsx"; lit "test.java"; lit "tests.java"]
  then RetrievalFileRole.Test
  else if any_in marked [lit "/docs/"; lit "/doc/"]
          || one_of file_name [lit "readme.md"; lit "changelog.md"]
  then RetrievalFileRole.Docs
  else RetrievalFileRole.Source.

Definition path_role_from_key (path : str) : IndexedFileRoleDto :=
  match retrieval_file_role_from_path path with
  | RetrievalFileRole.Test => IndexedFileRoleDto.Test
  | RetrievalFileRole.Generated => IndexedFileRoleDto.Generated
  | RetrievalFileRole.Vendor => IndexedFileRoleDto.Vendor
  | RetrievalFileRole.Source | RetrievalFileRole.Docs | RetrievalFileRole.Benchmark =>
      IndexedFileRoleDto.Source
  end.
Definition indexed_file_role (path : str) : IndexedFileRoleDto :=
  path_role_from_key (normalize_path_key path).

(** ** The graph of an analysis *)
Record FileInfo : Type := mkFileInfo {
  fi_id : Z;
  fi_path : str;
  fi_language : str;
  fi_modification_time : Z;
  fi_indexed : bool;
  fi_complete : bool;
  fi_line_count : Z;
  fi_file_role : FileRole;
}.

Record AffectedGraphIndex : Type := mkGraphIndex {
  gi_labels : gmap Z str;
  gi_file_path_by_id : gmap Z str;
  gi_nodes_by_id : gmap Z Node;
  gi_node_ids_by_file : list (Z * list Z);
}.

(** A [HashMap] collected from pairs: a later pair replaces an earlier one. *)
Definition collect_map {V} (pairs : list (Z * V)) : gmap Z V :=
  foldl (λ m kv, <[kv.1 := kv.2]> m) ∅ pairs.
(** The labels the controller has cached ([node_names] of its state). *)
Definition cached_labels (node_names : gmap Z str) (ids : list Z) : gmap Z str :=
  collect_map (omap (λ id, pair id <$> node_names !! id) ids).

Definition affected_graph_index (node_names : gmap Z str) (root : str) (files : list FileInfo)
    (nodes : list Node) : AffectedGraphIndex :=
  {| gi_labels :=
       foldl (λ labels node,
         match labels !! node_id node with
         | Some _ => labels
         | None => <[node_id node := default (node_serialized_name node)
                                       (node_qualified_name node)]> labels
         end) (cached_labels node_names (node_id <$> nodes)) nodes;
     gi_file_path_by_id :=
       collect_map ((λ file, (fi_id file, runtime_relative_path root (fi_path file))) <$> files);
     gi_nodes_by_id := collect_map ((λ node, (node_id node, node)) <$> nodes);
     gi_node_ids_by_file :=
       prod_map id sort_z <$>
         hm_group (omap (λ node, (λ file_id, (file_id, node_id node)) <$> node_file_node_id node)
                        nodes) |}.

(** ** Impacted symbols *)
Record AffectedSymbolDto : Type := mkSymbol {
  sym_node_id : str;
  sym_display_name : str;
  sym_kind : NodeKind;
  sym_file_path : option str;
  sym_line : option Z;
  sym_distance : Z;
  sym_graph_depth : Z;
  sym_reason : str;
  sym_confidence : str;
}.
Record AffectedSymbolImpacts : Type := mkSymbolImpacts {
  si_symbols : list AffectedSymbolDto;
  si_total : Z;
  si_truncated : bool;
  si_direct_count : Z;
  si_propagated_count : Z;
}.

Section Impacts.
Context (distances : gmap Z Z) (evidence : gmap Z AffectedGraphEvidence)
  (graph : AffectedGraphIndex) (filter : option str).

Definition node_file_path (node : Node) : option str :=
  file_id ← node_file_node_id node; gi_file_path_by_id graph !! file_id.
(** The filter looks for a normalised needle in the label and in the path of a node. *)
Definition filtered_out (node_id : Z) (file_path : option str) : bool :=
  match filter with
  | None => false
  | Some needle =>
      let found o := match o with
                     | Some s => contains (normalize_path_key s) needle
                     | None => false
                     end in
      negb (found (gi_labels graph !! node_id)) && negb (found file_path)
  end.
Definition display_name_of (node_id : Z) (node : Node) : str :=
  default (node_serialized_name node) (gi_labels graph !! node_id).
(** The evidence of a node, or a fallback of strength graph. *)
Definition evidence_or (reason : str) (node_id distance : Z) : AffectedGraphEvidence :=
  match evidence !! node_id with
  | Some e => e
  | None =>
      let seed := evidence_seed node_id reason (floor_from_label (lit "graph")) false in
      {| ev_distance := distance; ev_reason := ev_reason seed;
         ev_confidence_floor := ev_confidence_floor seed;
         ev_previous_identity_proxy := ev_previous_identity_proxy seed;
         ev_path_tie_key := ev_path_tie_key seed |}
  end.

Definition impacted_symbol (node_id distance : Z) : option AffectedSymbolDto :=
  node ← gi_nodes_by_id graph !! node_id;
  if bool_decide (node_kind node = NodeKind.FILE) then None
  else
    let file_path := node_file_path node in
    if filtered_out node_id file_path then None
    else
      let e := evidence_or (lit "reached by dependent graph walk") node_id distance in
      Some {| sym_node_id := show_int node_id;
              sym_display_name := display_name_of node_id node;
              sym_kind := node_kind node; sym_file_path := file_path;
              sym_line := node_start_line node; sym_distance := distance;
              sym_graph_depth := ev_distance e; sym_reason := ev_reason e;
              sym_confidence := floor_label (ev_confidence_floor e) |}.

Definition symbol_cmp : AffectedSymbolDto → AffectedSymbolDto → comparison :=
  then_with (cmp_on sym_distance Z.compare)
    (then_with (cmp_on sym_file_path (option_cmp str_cmp))
      (then_with (cmp_on sym_display_name str_cmp) (cmp_on sym_node_id str_cmp))).

(** The entries of the distances in the order of their keys. *)
Definition btree_items {V} (m : gmap Z V) : list (Z * V) :=
  omap (λ k, pair k <$> m !! k) (btree_keys m).

Definition affected_symbol_impacts : AffectedSymbolImpacts :=
  let symbols := omap (λ kd, impacted_symbol kd.1 kd.2) (btree_items distances) in
  let sorted := sort_by (cmp_leb symbol_cmp) symbols in
  {| si_symbols := take 200 sorted; si_total := len sorted; si_truncated := 200 <? len sorted;
     si_direct_count := len (List.filter (λ s, sym_distance s =? 0) symbols);
     si_propagated_count := len (List.filter (λ s, 0 <? sym_distance s) symbols) |}.
End Impacts.

(** ** Impacted tests *)
Record AffectedTestFileDto : Type := mkTestFile {
  test_path : str;
  test_reason : str;
  test_confidence : str;
  test_distance : Z;
  test_graph_depth : Z;
  test_impacted_symbol_count : Z;
}.
(** The count, the least depth and its confidence, of one test file. *)
Definition test_entry (entry : option (Z * Z * str)) (symbol : AffectedSymbolDto) : Z * Z * str :=
  let '(count, depth, confidence) :=
    default (0, sym_graph_depth symbol, sym_confidence symbol) entry in
  if sym_graph_depth symbol <? depth
  then (count + 1, sym_graph_depth symbol, sym_confidence symbol)
  else (count + 1, depth, confidence).
Definition is_test_path (path : str) : bool :=
  bool_decide (path_role_from_key (normalize_path_key path) = IndexedFileRoleDto.Test).
Definition add_test (by_file : list (str * (Z * Z * str))) (symbol : AffectedSymbolDto)
  : list (str * (Z * Z * str)) :=
  match sym_file_path symbol with
  | Some path =>
      if is_test_path path
      then hm_insert by_file path (test_entry (hm_get by_file path) symbol)
      else by_file
  | None => by_file
  end.
Definition test_hint_reason : str :=
  lit "focused test hint: test-like path reached by affected graph walk".
(** A [BTreeMap] by path, read in the order of its keys. *)
Definition affected_test_impacts (symbols : list AffectedSymbolDto) : list AffectedTestFileDto :=
  (λ entry, let '(path, (count, depth, confidence)) := entry in
     {| test_path := path; test_reason := test_hint_reason; test_confidence := confidence;
        test_distance := depth; test_graph_depth := depth;
        test_impacted_symbol_count := count |})
    <$> sort_by (cmp_leb (cmp_on fst str_cmp)) (foldl add_test [] symbols).

(** ** Impacted routes *)
(** What the store and the canonical id of a node say about its route, when it is one. *)
Class RouteEndpoints (RouteEndpointMetadataDto : Type) : Type := {
  route_endpoint_metadata : Node → option str → str → option RouteEndpointMetadataDto;
  route_confidence : RouteEndpointMetadataDto → option str;
}.

Section Routes.
Context {RouteEndpointMetadataDto : Type} `{!RouteEndpoints RouteEndpointMetadataDto}.
Context (distances : gmap Z Z) (evidence : gmap Z AffectedGraphEvidence)
  (graph : AffectedGraphIndex) (filter : option str).

Record AffectedRouteDto : Type := mkRoute {
  route_node_id : str;
  route_display_name : str;
  route_file_path : option str;
  route_line : option Z;
  route_distance : Z;
  route_graph_depth : Z;
  route_reason : str;
  route_confidence_label : str;
  route_endpoint : RouteEndpointMetadataDto;
}.
Record AffectedRouteImpacts : Type := mkRouteImpacts {
  ri_routes : list AffectedRouteDto;
  ri_total : Z;
  ri_truncated : bool;
}.

Definition affected_route_confidence (graph_evidence : AffectedGraphEvidence)
    (confidence : option str) : str :=
  floor_label (weakest (ev_confidence_floor graph_evidence)
                       (floor_from_label (default (lit "graph") confidence))).

Definition impacted_route (node_id distance : Z) : option AffectedRouteDto :=
  node ← gi_nodes_by_id graph !! node_id;
  let file_path := node_file_path graph node in
  if filtered_out graph filter node_id file_path then None
  else
    let display_name := display_name_of graph node_id node in
    route ← route_endpoint_metadata node file_path display_name;
    let e := evidence_or evidence (lit "route endpoint reached by dependent graph walk")
               node_id distance in
    Some {| route_node_id := show_int node_id; route_display_name := display_name;
            route_file_path := file_path; route_line := node_start_line node;
            route_distance := distance; route_graph_depth := ev_distance e;
            route_reason := ev_reason e;
            route_confidence_label := affected_route_confidence e (route_confidence route);
            route_endpoint := route |}.

Definition route_cmp : AffectedRouteDto → AffectedRouteDto → comparison :=
  then_with (cmp_on route_distance Z.compare)
    (then_with (cmp_on route_file_path (option_cmp str_cmp))
      (then_with (cmp_on route_display_name str_cmp) (cmp_on route_node_id str_cmp))).

Definition affected_route_impacts : AffectedRouteImpacts :=
  let sorted := sort_by (cmp_leb route_cmp)
    (omap (λ kd, impacted_route kd.1 kd.2) (btree_items distances)) in
  {| ri_routes := take 100 sorted; ri_total := len sorted; ri_truncated := 100 <? len sorted |}.
End Routes.
Arguments AffectedRouteDto : clear implicits.
Arguments AffectedRouteImpacts : clear implicits.
