(* ===== verification/AffectedMatching.v ===== *)
(** * Affected analysis: requests and the identities of their paths

    codestory-runtime/src/affected.rs: the normalisation of a request, the join of the
    changed paths with the indexed files by native path identity; the resolver of
    path_identity.rs, which observes a spelling once per operation.  What the file system
    answers to the n-th observation is a parameter; of an I/O error the model has the kind,
    as it is printed, and the message.

    The second part: affected analysis: matching changed paths with indexed files. *)
From S2P Require Import Prelude RustStr RetrievalData Graph Sorting StrOps UnixPath WorkspacePaths Collections.
From S2P Require Import AffectedWalk AffectedImpacts.

(** ** Requests *)
Record ApiError : Type := mkApiError { api_code : str; api_message : str }.
Definition invalid_argument (message : str) : ApiError := mkApiError (lit "invalid_argument") message.
Definition internal (message : str) : ApiError := mkApiError (lit "internal") message.

Module ChangeKind.
Inductive AffectedChangeKindDto : Set :=
| Added | Modified | Deleted | Renamed | Copied | Untracked | Unknown.
End ChangeKind.
Abbreviation AffectedChangeKindDto := ChangeKind.AffectedChangeKindDto.
#[export] Instance AffectedChangeKindDto_eq_dec : EqDecision AffectedChangeKindDto.
Proof. solve_decision. Defined.
Definition is_rename_or_copy (kind : AffectedChangeKindDto) : bool :=
  match kind with ChangeKind.Renamed | ChangeKind.Copied => true | _ => false end.

Record AffectedChangeRecordDto : Type := mkChangeRecord {
  cr_path : str;
  cr_kind : AffectedChangeKindDto;
  cr_status : str;
  cr_previous_path : option str;
}.
Inductive AffectedAnalysisInput : Type :=
| Paths (paths : list str)
| ChangeRecords (records : list AffectedChangeRecordDto).

Definition normalized_path (path : str) : result ApiError str :=
  match trim path with
  | [] => Err (invalid_argument (lit "affected paths must be non-empty strings"))
  | path => Ok path
  end.
Definition normalized_previous_path (kind : AffectedChangeKindDto) (previous_path : option str)
  : result ApiError (option str) :=
  match trim <$> previous_path with
  | None => Ok None
  | Some [] => Err (invalid_argument (lit "affected previous paths must be non-empty strings"))
  | Some previous_path =>
      if is_rename_or_copy kind then Ok (Some previous_path)
      else Err (invalid_argument
             (lit "affected previous_path is valid only for renamed or copied records"))
  end.
Definition normalized_record (record : AffectedChangeRecordDto)
  : result ApiError AffectedChangeRecordDto :=
  match trim (cr_path record) with
  | [] => Err (invalid_argument (lit "affected change record paths must be non-empty strings"))
  | path =>
      previous_path ← normalized_previous_path (cr_kind record) (cr_previous_path record);
      Ok (mkChangeRecord path (cr_kind record) (cr_status record) previous_path)
  end.
Definition path_record (path : str) : AffectedChangeRecordDto :=
  mkChangeRecord path ChangeKind.Unknown (lit "path") None.

Definition normalized_affected_input (input : AffectedAnalysisInput)
  : result ApiError (list str * list AffectedChangeRecordDto) :=
  let count := match input with Paths paths => len paths | ChangeRecords records => len records end in
  if negb ((1 <=? count) && (count <=? 200))
  then Err (invalid_argument (lit "affected analysis requires between 1 and 200 path records"))
  else
    match input with
    | Paths paths =>
        changed_paths ← mapM normalized_path paths;
        Ok (changed_paths, path_record <$> changed_paths)
    | ChangeRecords records =>
        normalized_records ← mapM normalized_record records;
        Ok (cr_path <$> normalized_records, normalized_records)
    end.

Definition affected_change_path (root raw : str) : str :=
  if is_absolute raw then raw else path_join root raw.

(** ** Path identities *)
Inductive CachedPathIdentity : Type :=
| Available (identity : WorkspacePathIdentity)
| Unavailable (kind message : str).
Record PathIdentityUnavailable : Type := mkUnavailable {
  un_path : str;
  un_kind : str;
  un_message : str;
}.
(** [Display] *)
Definition unavailable_to_string (e : PathIdentityUnavailable) : str :=
  un_path e ++ lit " (" ++ un_kind e ++ lit "): " ++ un_message e.

Record OperationPathIdentityResolver : Type := mkResolver {
  observations : list (list Component * CachedPathIdentity);
  native_calls : nat;
}.
Definition new_resolver : OperationPathIdentityResolver := mkResolver [] 0.

Definition cached_result (path : str) (observation : CachedPathIdentity)
  : result PathIdentityUnavailable WorkspacePathIdentity :=
  match observation with
  | Available identity => Ok identity
  | Unavailable kind message => Err (mkUnavailable path kind message)
  end.

Record AffectedOperationIdentityIndex : Type := mkIdentityIndex {
  resolver : OperationPathIdentityResolver;
  admitted_identities : list WorkspacePathIdentity;
  stale_identities : list WorkspacePathIdentity;
  freshness_identity_gaps : list (list Component * str);
}.
Definition new_identity_index : AffectedOperationIdentityIndex := mkIdentityIndex new_resolver [] [] [].
Definition set_resolver (index : AffectedOperationIdentityIndex) (r : OperationPathIdentityResolver)
  : AffectedOperationIdentityIndex :=
  mkIdentityIndex r (admitted_identities index) (stale_identities index)
    (freshness_identity_gaps index).

(** [HashSet::insert] *)
Definition set_insert {A} `{EqDecision A} (l : list A) (x : A) : list A :=
  if bool_decide (x ∈ l) then l else l ++ [x].

Section Identities.
(** The answer of the file system to the n-th observation. *)
Context (native : nat → str → result IoError WorkspacePathIdentity).

Definition observe (n : nat) (path : str) : CachedPathIdentity :=
  match native n path with
  | Ok identity => Available identity
  | Err error => Unavailable (io_kind error) (io_message error)
  end.
Definition resolver_resolve (r : OperationPathIdentityResolver) (path : str)
  : result PathIdentityUnavailable WorkspacePathIdentity * OperationPathIdentityResolver :=
  match hm_get (observations r) (components path) with
  | Some observation => (cached_result path observation, r)
  | None =>
      let observation := observe (native_calls r) path in
      (cached_result path observation,
       {| observations := hm_insert (observations r) (components path) observation;
          native_calls := S (native_calls r) |})
  end.

Definition index_resolve (index : AffectedOperationIdentityIndex) (path : str)
  : result PathIdentityUnavailable WorkspacePathIdentity * AffectedOperationIdentityIndex :=
  let '(result, r) := resolver_resolve (resolver index) path in (result, set_resolver index r).

Definition record_freshness_gap (index : AffectedOperationIdentityIndex)
    (error : PathIdentityUnavailable) : AffectedOperationIdentityIndex :=
  mkIdentityIndex (resolver index) (admitted_identities index) (stale_identities index)
    (hm_or_insert (freshness_identity_gaps index) (components (un_path error))
       (unavailable_to_string error)).
Definition record_admitted (index : AffectedOperationIdentityIndex) (path : str)
  : AffectedOperationIdentityIndex :=
  let '(result, index) := index_resolve index path in
  match result with
  | Ok identity =>
      mkIdentityIndex (resolver index) (set_insert (admitted_identities index) identity)
        (stale_identities index) (freshness_identity_gaps index)
  | Err error => record_freshness_gap index error
  end.
Definition record_stale (index : AffectedOperationIdentityIndex) (path : str)
  : AffectedOperationIdentityIndex :=
  let '(result, index) := index_resolve index path in
  match result with
  | Ok identity =>
      mkIdentityIndex (resolver index) (admitted_identities index)
        (set_insert (stale_identities index) identity) (freshness_identity_gaps index)
  | Err error => record_freshness_gap index error
  end.
Definition freshness_identity_gap_count (index : AffectedOperationIdentityIndex) : Z :=
  len (freshness_identity_gaps index).
Definition freshness_identity_gap_sample (index : AffectedOperationIdentityIndex) : option str :=
  snd <$> head (sort_by (cmp_leb (cmp_on fst (list_cmp component_cmp)))
                  (freshness_identity_gaps index)).
End Identities.

(** * Affected analysis: matching changed paths with indexed files

    codestory-runtime/src/affected.rs, [match_affected_file_identities]: records and files
    are bucketed by identity and joined, current paths first; a record whose current path
    matched gives no previous identity. *)
Record AffectedIdentityMatchWork : Type := mkWork {
  record_visits : Z;
  indexed_file_visits : Z;
  current_identity_bucket_visits : Z;
  previous_identity_bucket_visits : Z;
  bucket_record_visits : Z;
  indexed_bucket_file_visits : Z;
}.

Record AffectedIdentityMatches : Type := mkMatches {
  matched_file_ids : gset Z;
  matched_record_flags : list bool;
  matched_record_index_by_file_id : gmap Z nat;
  graph_seeded_record_flags : list bool;
  previous_record_index_by_file_id : gmap Z nat;
  current_identity_by_record : list (option WorkspacePathIdentity);
  current_identity_error_by_record : list (option str);
  previous_identity_error_by_record : list (option str);
  indexed_identity_by_file_id : gmap Z WorkspacePathIdentity;
  unavailable_indexed_identity_count : Z;
  unavailable_indexed_identity_sample : option str;
  work : AffectedIdentityMatchWork;
}.

(** ** Buckets in the order of their first record *)
Record AffectedOrderedIdentityBuckets : Type := mkBuckets {
  positions : list (WorkspacePathIdentity * nat);
  buckets : list (WorkspacePathIdentity * list nat);
}.
Definition no_buckets : AffectedOrderedIdentityBuckets := mkBuckets [] [].
Definition bucket_push (b : AffectedOrderedIdentityBuckets) (identity : WorkspacePathIdentity)
    (record_index : nat) : AffectedOrderedIdentityBuckets :=
  match hm_get (positions b) identity with
  | Some position =>
      mkBuckets (positions b) (alter (λ bucket, (bucket.1, bucket.2 ++ [record_index])) position (buckets b))
  | None =>
      mkBuckets (hm_insert (positions b) identity (length (buckets b)))
        (buckets b ++ [(identity, [record_index])])
  end.

(** ** The records *)
Record RecordScan : Type := mkRecordScan {
  rs_index : AffectedOperationIdentityIndex;
  rs_current_buckets : AffectedOrderedIdentityBuckets;
  rs_previous_buckets : AffectedOrderedIdentityBuckets;
  rs_current_identity : list (option WorkspacePathIdentity);
  rs_current_error : list (option str);
  rs_previous_error : list (option str);
  rs_visits : Z;
}.
Definition previous_path_of (record : AffectedChangeRecordDto) : option str :=
  if is_rename_or_copy (cr_kind record) then cr_previous_path record else None.
Definition result_error (r : result PathIdentityUnavailable WorkspacePathIdentity) : option str :=
  match r with Ok _ => None | Err e => Some (unavailable_to_string e) end.
Definition push_result (b : AffectedOrderedIdentityBuckets)
    (r : result PathIdentityUnavailable WorkspacePathIdentity) (record_index : nat)
  : AffectedOrderedIdentityBuckets :=
  match r with Ok identity => bucket_push b identity record_index | Err _ => b end.

(** ** The indexed files *)
Record FileScan : Type := mkFileScan {
  fs_index : AffectedOperationIdentityIndex;
  fs_unavailable_count : Z;
  fs_unavailable_sample : option (str * str);
  fs_identity_by_file : gmap Z WorkspacePathIdentity;
  fs_files_by_identity : list (WorkspacePathIdentity * list Z);
  fs_visits : Z;
}.
Definition sample_cmp : str * str → str * str → comparison :=
  then_with (cmp_on fst str_cmp) (cmp_on snd str_cmp).
Definition least_sample (current : option (str * str)) (candidate : str * str)
  : option (str * str) :=
  match current with
  | Some c => match sample_cmp candidate c with Lt => Some candidate | _ => current end
  | None => Some candidate
  end.

(** ** The join *)
Record JoinState : Type := mkJoin {
  jn_matched_files : gset Z;
  jn_matched : list bool;
  jn_record_index : gmap Z nat;
  jn_seeded : list bool;
  jn_previous_index : gmap Z nat;
  jn_bucket_visits : Z;
  jn_record_visits : Z;
  jn_file_visits : Z;
}.
(** [map_or(i, |current| current.min(i))] and [and_modify(min).or_insert]. *)
Definition min_index (current : option nat) (i : nat) : option nat :=
  Some (match current with Some c => Nat.min c i | None => i end).
Definition min_insert (m : gmap Z nat) (file_id : Z) (i : nat) : gmap Z nat :=
  <[file_id := match m !! file_id with Some c => Nat.min c i | None => i end]> m.
Definition count_up (n : Z) : Z := saturating_add usize_max n 1.

(** One record of a bucket of current identities. *)
Definition join_current_record (acc : JoinState * option nat) (i : nat) : JoinState * option nat :=
  let j := acc.1 in
  (mkJoin (jn_matched_files j) (<[i := true]> (jn_matched j)) (jn_record_index j)
     (<[i := true]> (jn_seeded j)) (jn_previous_index j) (jn_bucket_visits j)
     (count_up (jn_record_visits j)) (jn_file_visits j),
   min_index acc.2 i).
Definition join_current_file (first : nat) (j : JoinState) (file_id : Z) : JoinState :=
  mkJoin ({[file_id]} ∪ jn_matched_files j) (jn_matched j)
    (min_insert (jn_record_index j) file_id first) (jn_seeded j) (jn_previous_index j)
    (jn_bucket_visits j) (jn_record_visits j) (count_up (jn_file_visits j)).
Definition visit_bucket (j : JoinState) : JoinState :=
  mkJoin (jn_matched_files j) (jn_matched j) (jn_record_index j) (jn_seeded j)
    (jn_previous_index j) (count_up (jn_bucket_visits j)) (jn_record_visits j) (jn_file_visits j).
Definition join_current_bucket (files_by_identity : list (WorkspacePathIdentity * list Z))
    (j : JoinState) (bucket : WorkspacePathIdentity * list nat) : JoinState :=
  let j := visit_bucket j in
  match hm_get files_by_identity bucket.1 with
  | None => j
  | Some file_ids =>
      let '(j, first) := foldl join_current_record (j, None) bucket.2 in
      match first with
      | None => j
      | Some first => foldl (join_current_file first) j file_ids
      end
  end.

(** One record of a bucket of previous identities. *)
Definition join_previous_record (acc : JoinState * option nat) (i : nat) : JoinState * option nat :=
  let j := acc.1 in
  let visited seeded := mkJoin (jn_matched_files j) (jn_matched j) (jn_record_index j) seeded
    (jn_previous_index j) (jn_bucket_visits j) (count_up (jn_record_visits j)) (jn_file_visits j) in
  if default false (jn_matched j !! i) then (visited (jn_seeded j), acc.2)
  else (visited (<[i := true]> (jn_seeded j)), min_index acc.2 i).
Definition join_previous_file (first : nat) (j : JoinState) (file_id : Z) : JoinState :=
  mkJoin (jn_matched_files j) (jn_matched j) (jn_record_index j) (jn_seeded j)
    (if bool_decide (file_id ∈ jn_matched_files j) then jn_previous_index j
     else min_insert (jn_previous_index j) file_id first)
    (jn_bucket_visits j) (jn_record_visits j) (count_up (jn_file_visits j)).
Definition join_previous_bucket (files_by_identity : list (WorkspacePathIdentity * list Z))
    (j : JoinState) (bucket : WorkspacePathIdentity * list nat) : JoinState :=
  let j := visit_bucket j in
  match hm_get files_by_identity bucket.1 with
  | None => j
  | Some file_ids =>
      let '(j, first) := foldl join_previous_record (j, None) bucket.2 in
      match first with
      | None => j
      | Some first => foldl (join_previous_file first) j file_ids
      end
  end.

Section Matching.
Context (native : nat → str → result IoError WorkspacePathIdentity).

Definition scan_record (root : str) (s : RecordScan) (entry : nat * AffectedChangeRecordDto)
  : RecordScan :=
  let '(record_index, record) := entry in
  let '(current, index) :=
    index_resolve native (rs_index s) (affected_change_path root (cr_path record)) in
  let '(previous, index) :=
    match previous_path_of record with
    | Some path =>
        let '(r, index) := index_resolve native index (affected_change_path root path) in
        (Some r, index)
    | None => (None, index)
    end in
  {| rs_index := index;
     rs_current_buckets := push_result (rs_current_buckets s) current record_index;
     rs_previous_buckets :=
       match previous with
       | Some r => push_result (rs_previous_buckets s) r record_index
       | None => rs_previous_buckets s
       end;
     rs_current_identity := rs_current_identity s ++ [result_ok current];
     rs_current_error := rs_current_error s ++ [result_error current];
     rs_previous_error := rs_previous_error s ++ [r ← previous; result_error r];
     rs_visits := count_up (rs_visits s) |}.

Definition indexed_path_of (root path : str) : str :=
  if is_absolute path then path else path_join root path.
Definition scan_file (root : str) (s : FileScan) (file : Z * str) : FileScan :=
  let '(file_id, path) := file in
  let indexed_path := indexed_path_of root path in
  let '(r, index) := index_resolve native (fs_index s) indexed_path in
  match r with
  | Err error =>
      {| fs_index := index; fs_unavailable_count := fs_unavailable_count s + 1;
         fs_unavailable_sample :=
           least_sample (fs_unavailable_sample s) (indexed_path, unavailable_to_string error);
         fs_identity_by_file := fs_identity_by_file s;
         fs_files_by_identity := fs_files_by_identity s; fs_visits := count_up (fs_visits s) |}
  | Ok identity =>
      {| fs_index := index; fs_unavailable_count := fs_unavailable_count s;
         fs_unavailable_sample := fs_unavailable_sample s;
         fs_identity_by_file := <[file_id := identity]> (fs_identity_by_file s);
         fs_files_by_identity := hm_push (fs_files_by_identity s) identity file_id;
         fs_visits := count_up (fs_visits s) |}
  end.

Definition match_affected_file_identities (root : str)
    (change_records : list AffectedChangeRecordDto) (indexed_files : list (Z * str))
    (path_identities : AffectedOperationIdentityIndex)
  : AffectedIdentityMatches * AffectedOperationIdentityIndex :=
  let scan := foldl (scan_record root)
    (mkRecordScan path_identities no_buckets no_buckets [] [] [] 0) (imap pair change_records) in
  let files := foldl (scan_file root) (mkFileScan (rs_index scan) 0 None ∅ [] 0) indexed_files in
  let unset := replicate (length change_records) false in
  let current := foldl (join_current_bucket (fs_files_by_identity files))
    (mkJoin ∅ unset ∅ unset ∅ 0 0 0) (buckets (rs_current_buckets scan)) in
  let joined := foldl (join_previous_bucket (fs_files_by_identity files))
    (mkJoin (jn_matched_files current) (jn_matched current) (jn_record_index current)
       (jn_seeded current) ∅ 0 (jn_record_visits current) (jn_file_visits current))
    (buckets (rs_previous_buckets scan)) in
  ({| matched_file_ids := jn_matched_files joined;
      matched_record_flags := jn_matched joined;
      matched_record_index_by_file_id := jn_record_index joined;
      graph_seeded_record_flags := jn_seeded joined;
      previous_record_index_by_file_id := jn_previous_index joined;
      current_identity_by_record := rs_current_identity scan;
      current_identity_error_by_record := rs_current_error scan;
      previous_identity_error_by_record := rs_previous_error scan;
      indexed_identity_by_file_id := fs_identity_by_file files;
      unavailable_indexed_identity_count := fs_unavailable_count files;
      unavailable_indexed_identity_sample := snd <$> fs_unavailable_sample files;
      work := {| record_visits := rs_visits scan; indexed_file_visits := fs_visits files;
                 current_identity_bucket_visits := jn_bucket_visits current;
                 previous_identity_bucket_visits := jn_bucket_visits joined;
                 bucket_record_visits := jn_record_visits joined;
                 indexed_bucket_file_visits := jn_file_visits joined |} |},
   fs_index files).
End Matching.
