(* ===== verification/AffectedAnalysis.v ===== *)
(** * Affected analysis: classification of the inputs

    codestory-runtime/src/affected.rs: why a changed path is not covered by the graph, for
    paths that match an indexed file and for those that do not.  The metadata of a path and
    the containment of a path in the workspace are observations of the file system, an
    interface; one analysis sees one state of them. *)
From S2P Require Import Prelude RustStr RetrievalData Graph Sorting StrOps UnixPath WorkspacePaths Collections.
From S2P Require Import AffectedWalk AffectedImpacts AffectedMatching.

(** ** Observations *)
Module IndexFreshnessStatusDto.
Inductive IndexFreshnessStatusDto : Set := Fresh | Stale | NotChecked.
End IndexFreshnessStatusDto.
Abbreviation IndexFreshnessStatusDto := IndexFreshnessStatusDto.IndexFreshnessStatusDto.
#[export] Instance IndexFreshnessStatusDto_eq_dec : EqDecision IndexFreshnessStatusDto.
Proof. solve_decision. Defined.

(** Of the freshness report only the status and the reason are read. *)
Record IndexFreshnessDto : Type := mkFreshness {
  freshness_status : IndexFreshnessStatusDto;
  freshness_reason : option str;
}.
Record IndexFreshnessObservation : Type := mkObservation {
  freshness : IndexFreshnessDto;
  inventory_complete : bool;
  ob_admitted : list WorkspacePathIdentity;
  ob_stale : list WorkspacePathIdentity;
  identity_gap_count : Z;
  identity_gap_sample : option str;
}.
Definition observation_incomplete (freshness : IndexFreshnessDto) : IndexFreshnessObservation :=
  mkObservation freshness false [] [] 0 None.
Definition identity_is_admitted (o : IndexFreshnessObservation) (i : WorkspacePathIdentity) : bool :=
  bool_decide (i ∈ ob_admitted o).
Definition identity_is_stale (o : IndexFreshnessObservation) (i : WorkspacePathIdentity) : bool :=
  bool_decide (i ∈ ob_stale o).

(** [affected_path_metadata]: [symlink_metadata] of a path. *)
Module Metadata.
Inductive AffectedPathMetadataObservation : Type :=
| RegularFile | NonRegular | Missing | Unavailable (kind message : str).
End Metadata.
Abbreviation AffectedPathMetadataObservation := Metadata.AffectedPathMetadataObservation.
Definition is_regular_file (m : AffectedPathMetadataObservation) : bool :=
  match m with Metadata.RegularFile => true | _ => false end.

Class Workspace : Type := {
  affected_path_metadata : str → AffectedPathMetadataObservation;
  workspace_relative_path : str → str → option str;
  indexable_source_path : str → bool;
}.

Module Classification.
Inductive AffectedInputClassificationDto : Set :=
| ValidUncovered | Missing | ExpectedDeleted | RenameUnresolved | StaleIndex | Malformed
| UnavailableEvidence.
End Classification.
Abbreviation AffectedInputClassificationDto := Classification.AffectedInputClassificationDto.
#[export] Instance AffectedInputClassificationDto_eq_dec : EqDecision AffectedInputClassificationDto.
Proof. solve_decision. Defined.
(** Classification, reason and evidence. *)
Abbreviation Classified := (AffectedInputClassificationDto * str * list str)%type.

Record AffectedResolvedInput : Type := mkResolved { current : str; previous : option str }.

Section Classify.
Context `{!Workspace}.

Definition indexable_source_path_in_workspace (root path : str) : bool :=
  match workspace_relative_path root path with
  | Some relative => indexable_source_path relative
  | None => false
  end.
Definition indexable_source_path_with_root (root : option str) (path : str) : bool :=
  match root with
  | Some root => indexable_source_path_in_workspace root path
  | None => indexable_source_path path
  end.

(** A regular file without an indexed row. *)
Definition classify_regular_file (path : str) (freshness : IndexFreshnessObservation)
    (current_identity : option WorkspacePathIdentity) (current_identity_error : option str)
    (workspace_root : option str) (evidence : list str) : Classified :=
  if negb (indexable_source_path_with_root workspace_root path)
  then (Classification.ValidUncovered,
        lit "regular file exists inside the project but is outside current graph/index coverage",
        evidence)
  else
    match current_identity_error, current_identity with
    | Some error, _ =>
        (Classification.UnavailableEvidence,
         lit "path exists and is indexable, but native identity evidence was unavailable",
         evidence ++ [lit "native current-path identity was unavailable: " ++ error])
    | None, None =>
        (Classification.UnavailableEvidence,
         lit "path exists and is indexable, but native identity evidence was unavailable",
         evidence ++ [lit "native current-path identity was not observed"])
    | None, Some identity =>
        if identity_is_stale freshness identity
        then (Classification.StaleIndex,
              lit "path is indexable and complete freshness evidence shows the publication is stale for it",
              evidence ++ [lit "complete freshness evidence identifies this path as changed or new"])
        else if inventory_complete freshness && negb (identity_is_admitted freshness identity)
        then (Classification.ValidUncovered,
              lit "regular file exists inside the project but is excluded from current graph/index coverage",
              evidence ++ [lit "complete workspace inventory excludes this path from the admitted index set"])
        else if negb (inventory_complete freshness)
        then (Classification.UnavailableEvidence,
              lit "path exists and is indexable, but bounded freshness evidence cannot explain its graph absence",
              evidence ++ [lit "bounded freshness or refresh-plan identity evidence was unavailable for this indexable path"])
        else (Classification.UnavailableEvidence,
              lit "path exists and is indexable, but current evidence cannot explain its absence from the graph",
              evidence ++ [lit "path is indexable, but no indexed row or exact stale/error evidence was available"])
    end.

(** The previous path of a rename or copy whose current path is missing. *)
Definition classify_missing_rename (resolved : AffectedResolvedInput)
    (previous_identity_error : option str) (evidence : list str) : Classified :=
  match previous_identity_error with
  | Some error =>
      (Classification.UnavailableEvidence,
       lit "previous rename/copy identity was unavailable, so bounded proxy coverage could not be established",
       evidence ++ [lit "native previous-path identity was unavailable: " ++ error])
  | None =>
      let unresolved evidence :=
        (Classification.RenameUnresolved,
         lit "neither the current nor previous rename/copy path matched indexed file identity",
         evidence) in
      match previous resolved with
      | None => unresolved evidence
      | Some previous =>
          match affected_path_metadata previous with
          | Metadata.RegularFile =>
              unresolved (evidence ++ [lit "previous path exists as a regular file"])
          | Metadata.NonRegular =>
              unresolved (evidence ++ [lit "previous path exists but is not a regular file"])
          | Metadata.Missing => unresolved (evidence ++ [lit "previous path is missing"])
          | Metadata.Unavailable kind message =>
              (Classification.UnavailableEvidence,
               lit "previous rename/copy path metadata was unavailable, so its file state could not be established",
               evidence ++ [lit "metadata read failed for resolved previous project path " ++ previous
                            ++ lit ": kind=" ++ kind ++ lit " error=" ++ message])
          end
      end
  end.

(** A path that does not exist. *)
Definition classify_missing_path (record : AffectedChangeRecordDto)
    (resolved : AffectedResolvedInput) (current_identity_error previous_identity_error : option str)
    (evidence : list str) : Classified :=
  match current_identity_error with
  | Some error =>
      (Classification.UnavailableEvidence,
       lit "missing-path identity was unavailable, so indexed membership could not be established",
       evidence ++ [lit "native current-path identity was unavailable: " ++ error])
  | None =>
      match cr_kind record with
      | ChangeKind.Deleted =>
          (Classification.ExpectedDeleted,
           lit "deleted path is absent from both the workspace and indexed file inventory", evidence)
      | ChangeKind.Renamed | ChangeKind.Copied =>
          classify_missing_rename resolved previous_identity_error evidence
      | _ =>
          (Classification.Missing,
           lit "path does not exist inside the project and did not match indexed file identity",
           evidence)
      end
  end.

Definition classify_unmatched_affected_input_with_metadata (record : AffectedChangeRecordDto)
    (resolved : AffectedResolvedInput) (freshness : IndexFreshnessObservation)
    (current_identity : option WorkspacePathIdentity)
    (current_identity_error previous_identity_error : option str)
    (workspace_root : option str) (metadata : AffectedPathMetadataObservation) : Classified :=
  let path := current resolved in
  match metadata with
  | Metadata.RegularFile =>
      classify_regular_file path freshness current_identity current_identity_error workspace_root
        [lit "resolved existing regular project file: " ++ path]
  | Metadata.NonRegular =>
      (Classification.Malformed, lit "resolved project path is not a regular file",
       [lit "resolved existing non-regular project path: " ++ path])
  | Metadata.Missing =>
      classify_missing_path record resolved current_identity_error previous_identity_error
        [lit "resolved missing project path: " ++ path]
  | Metadata.Unavailable kind message =>
      (Classification.UnavailableEvidence,
       lit "resolved project path metadata was unavailable, so existence and regular-file status could not be established",
       [lit "metadata read failed for resolved project path " ++ path ++ lit ": kind=" ++ kind
        ++ lit " error=" ++ message])
  end.

Definition classify_unmatched_affected_input (workspace_root : option str)
    (record : AffectedChangeRecordDto) (resolved : AffectedResolvedInput)
    (freshness : IndexFreshnessObservation) (current_identity : option WorkspacePathIdentity)
    (current_identity_error previous_identity_error : option str) : Classified :=
  classify_unmatched_affected_input_with_metadata record resolved freshness current_identity
    current_identity_error previous_identity_error workspace_root
    (affected_path_metadata (current resolved)).

(** ** Matched files *)
Record AffectedMatchedFileDto : Type := mkMatchedFile {
  mf_path : str;
  mf_role : IndexedFileRoleDto;
  mf_indexed : bool;
  mf_complete : bool;
  mf_change_kind : option AffectedChangeKindDto;
  mf_change_status : option str;
  mf_previous_path : option str;
  mf_error_count : Z;
}.
Definition show_bool (b : bool) : str := if b then lit "true" else lit "false".

Definition classify_matched_affected_input (file : AffectedMatchedFileDto)
    (stale freshness_available : bool) : option Classified :=
  if 0 <? mf_error_count file
  then Some (Classification.Malformed, lit "indexed path has exact recorded parse/index errors",
             [lit "indexed file error_count=" ++ show_uint (mf_error_count file)])
  else if stale
  then Some (Classification.StaleIndex,
             lit "matched path has exact complete-inventory evidence of stale publication",
             [lit "complete freshness evidence identifies this path as stale"])
  else if negb freshness_available
  then Some (Classification.UnavailableEvidence,
             lit "matched file identity is known, but bounded freshness evidence was unavailable",
             [lit "bounded freshness or refresh-plan identity evidence was unavailable for this matched path"])
  else if mf_indexed file && mf_complete file then None
  else Some (Classification.UnavailableEvidence,
             lit "matched file is incomplete or not indexed without an exact recorded error",
             [lit "indexed=" ++ show_bool (mf_indexed file) ++ lit " complete="
              ++ show_bool (mf_complete file) ++ lit " error_count="
              ++ show_uint (mf_error_count file)]).

Record AffectedUncoveredInputDto : Type := mkUncovered {
  ui_path : str;
  ui_classification : AffectedInputClassificationDto;
  ui_reason : str;
  ui_evidence : list str;
}.
Record AffectedUnmatchedPathDto : Type := mkUnmatched {
  up_path : str;
  up_classification : AffectedInputClassificationDto;
  up_reason : str;
  up_evidence : list str;
  up_change_kind : option AffectedChangeKindDto;
  up_change_status : option str;
  up_previous_path : option str;
}.
Record AffectedMatchedClassification : Type := mkMatchedClassification {
  mc_files : list AffectedMatchedFileDto;
  mc_uncovered : list AffectedUncoveredInputDto;
  mc_freshness_unavailable : bool;
}.
Record AffectedInputClassificationContext : Type := mkContext {
  cx_root : str;
  cx_records : list AffectedChangeRecordDto;
  cx_freshness : IndexFreshnessObservation;
}.

Definition matched_file_dto (context : AffectedInputClassificationContext)
    (errors_by_file : gmap Z Z) (record_index_by_file : gmap Z nat) (file : FileInfo)
  : AffectedMatchedFileDto :=
  let record := i ← record_index_by_file !! fi_id file; cx_records context !! i in
  {| mf_path := runtime_relative_path (cx_root context) (fi_path file);
     mf_role := indexed_file_role (fi_path file);
     mf_indexed := fi_indexed file; mf_complete := fi_complete file;
     mf_change_kind := cr_kind <$> record; mf_change_status := cr_status <$> record;
     mf_previous_path := r ← record; cr_previous_path r;
     mf_error_count := default 0 (errors_by_file !! fi_id file) |}.
Definition matched_cmp : Z * AffectedMatchedFileDto → Z * AffectedMatchedFileDto → comparison :=
  then_with (cmp_on (λ m, mf_path m.2) str_cmp) (cmp_on fst Z.compare).

Definition file_is_stale (context : AffectedInputClassificationContext)
    (identities : gmap Z WorkspacePathIdentity) (file_id : Z) : bool :=
  match identities !! file_id with
  | Some identity => identity_is_stale (cx_freshness context) identity
  | None => false
  end.
Definition freshness_available (o : IndexFreshnessObservation) : bool :=
  inventory_complete o
  && negb (bool_decide (freshness_status (freshness o) = IndexFreshnessStatusDto.NotChecked)).
Definition uncovered_match (context : AffectedInputClassificationContext)
    (identities : gmap Z WorkspacePathIdentity) (m : Z * AffectedMatchedFileDto)
  : option AffectedUncoveredInputDto :=
  '(classification, reason, evidence) ←
    classify_matched_affected_input m.2 (file_is_stale context identities m.1)
      (freshness_available (cx_freshness context));
  Some (mkUncovered (mf_path m.2) classification reason evidence).

Definition classify_matched_affected_files (context : AffectedInputClassificationContext)
    (files : list FileInfo) (errors_by_file : gmap Z Z) (matched_file_ids : gset Z)
    (record_index_by_file : gmap Z nat) (identities : gmap Z WorkspacePathIdentity)
  : AffectedMatchedClassification :=
  let matched := sort_by (cmp_leb matched_cmp)
    ((λ file, (fi_id file, matched_file_dto context errors_by_file record_index_by_file file))
       <$> List.filter (λ file, bool_decide (fi_id file ∈ matched_file_ids)) files) in
  {| mc_files := matched.*2;
     mc_uncovered := omap (uncovered_match context identities) matched;
     mc_freshness_unavailable :=
       existsb (λ m, negb (file_is_stale context identities m.1) && (mf_error_count m.2 =? 0)
                     && negb (inventory_complete (cx_freshness context))) matched |}.

(** ** Unmatched paths *)
Definition unmatched_freshness_gap (context : AffectedInputClassificationContext)
    (path : str) (identity : option WorkspacePathIdentity) (error : option str) : bool :=
  is_regular_file (affected_path_metadata path)
  && indexable_source_path_in_workspace (cx_root context) path
  && match error with None => true | Some _ => false end
  && match identity with
     | Some identity => negb (identity_is_stale (cx_freshness context) identity)
     | None => false
     end
  && negb (inventory_complete (cx_freshness context)).

Definition unmatched_path (context : AffectedInputClassificationContext) (seeded : bool)
    (record : AffectedChangeRecordDto) (resolved : AffectedResolvedInput)
    (identity : option WorkspacePathIdentity) (error previous_error : option str)
  : AffectedUnmatchedPathDto * bool :=
  let '(classification, reason, evidence) :=
    classify_unmatched_affected_input (Some (cx_root context)) record resolved
      (cx_freshness context) identity error previous_error in
  ({| up_path := cr_path record; up_classification := classification;
      up_reason :=
        if seeded && bool_decide (classification = Classification.RenameUnresolved)
        then lit "current rename/copy path remains unresolved; the previous indexed identity supplies bounded graph evidence but does not establish current-path coverage"
        else reason;
      up_evidence :=
        if seeded
        then evidence ++ [lit "previous indexed identity " ++ default [] (cr_previous_path record)
                          ++ lit " supplied bounded proxy graph evidence"]
        else evidence;
      up_change_kind := Some (cr_kind record); up_change_status := Some (cr_status record);
      up_previous_path := cr_previous_path record |},
   unmatched_freshness_gap context (current resolved) identity error).

Definition classify_unmatched_affected_paths (context : AffectedInputClassificationContext)
    (resolved_inputs : list AffectedResolvedInput) (matches : AffectedIdentityMatches)
  : list AffectedUnmatchedPathDto * bool :=
  let results := omap (λ entry : nat * AffectedChangeRecordDto,
    let '(i, record) := entry in
    if default false (matched_record_flags matches !! i) then None
    else
      resolved ← resolved_inputs !! i;
      Some (unmatched_path context (default false (graph_seeded_record_flags matches !! i)) record
              resolved (mjoin (current_identity_by_record matches !! i))
              (mjoin (current_identity_error_by_record matches !! i))
              (mjoin (previous_identity_error_by_record matches !! i))))
    (imap pair (cx_records context)) in
  (results.*1, existsb snd results).
End Classify.

(** * Affected analysis: gaps, completeness and follow-ups

    codestory-runtime/src/affected.rs: the classified inputs together, the gaps in the
    evidence, the claim of completeness, the follow-ups, notes and blind spots of an
    analysis.

    The second part: affected analysis: the whole operation. *)
(** ** The inputs together *)
(** Previous identities come from renamed and copied records only. *)
Definition previous_seed_reason (record : AffectedChangeRecordDto) : str :=
  lit "previous indexed identity " ++ default [] (cr_previous_path record)
  ++ lit " proxy-seeded graph evidence for current "
  ++ (match cr_kind record with ChangeKind.Copied => lit "copied" | _ => lit "renamed" end)
  ++ lit " path " ++ cr_path record.
Definition previous_identity_seed_evidence (records : list AffectedChangeRecordDto)
    (previous_record_index : gmap Z nat) : gmap Z AffectedGraphEvidence :=
  map_imap (λ file_id i,
    (λ record, evidence_seed file_id (previous_seed_reason record) bounded_floor true)
      <$> records !! i) previous_record_index.

Record AffectedClassifiedInputs : Type := mkClassified {
  ci_matched_files : list AffectedMatchedFileDto;
  ci_unmatched_paths : list AffectedUnmatchedPathDto;
  ci_uncovered_inputs : list AffectedUncoveredInputDto;
  ci_matches : AffectedIdentityMatches;
  ci_freshness_affects_claim : bool;
  ci_previous_seed_evidence : gmap Z AffectedGraphEvidence;
  ci_graph_seed_file_ids : gset Z;
}.
Definition uncovered_of_unmatched (input : AffectedUnmatchedPathDto) : AffectedUncoveredInputDto :=
  mkUncovered (up_path input) (up_classification input) (up_reason input) (up_evidence input).

(** ** Gaps in the evidence *)
Record AffectedEvidenceGapCategory : Type := mkGap { gap_count : Z; gap_sample : option str }.
Definition no_gap : AffectedEvidenceGapCategory := mkGap 0 None.
Record AffectedRelevantEvidenceGaps : Type := mkGaps {
  gaps_current : AffectedEvidenceGapCategory;
  gaps_previous : AffectedEvidenceGapCategory;
  gaps_indexed : AffectedEvidenceGapCategory;
  gaps_freshness : AffectedEvidenceGapCategory;
}.
Record AffectedEvidenceGapComposition : Type := mkComposition {
  gap_free : bool;
  unavailable_evidence_count : Z;
  gap_blind_spots : list str;
}.
Definition gap_of_errors (errors : list str) : AffectedEvidenceGapCategory :=
  mkGap (len errors) (head errors).

Definition gap_blind_spot (gap : AffectedEvidenceGapCategory) (before after : str) : list str :=
  if 0 <? gap_count gap
  then [before ++ show_uint (gap_count gap) ++ after
        ++ default (lit "no identity error sample available") (gap_sample gap) ++ lit ")"]
  else [].
Definition compose_affected_evidence_gaps (base : Z) (gaps : AffectedRelevantEvidenceGaps)
  : AffectedEvidenceGapComposition :=
  let counts := [gap_count (gaps_current gaps); gap_count (gaps_previous gaps);
                 gap_count (gaps_indexed gaps); gap_count (gaps_freshness gaps)] in
  {| gap_free := forallb (Z.eqb 0) counts;
     unavailable_evidence_count := foldl (saturating_add usize_max) 0 (base :: counts);
     gap_blind_spots :=
       gap_blind_spot (gaps_current gaps)
         (lit "native current-path identity was unavailable for ")
         (lit " relevant changed records; completeness was downgraded (")
       ++ gap_blind_spot (gaps_previous gaps)
         (lit "native previous-path identity was unavailable for ")
         (lit " unmatched rename/copy records; completeness was downgraded (")
       ++ gap_blind_spot (gaps_indexed gaps)
         (lit "native path identity was unavailable for ")
         (lit " relevant indexed files; completeness was downgraded (")
       ++ gap_blind_spot (gaps_freshness gaps)
         (lit "native path identity was unavailable for ")
         (lit " refresh-plan paths needed by the requested claim (") |}.
Definition composition_confidence (c : AffectedEvidenceGapComposition) : str :=
  if gap_free c then lit "complete" else lit "bounded".

(** ** Completeness *)
Definition clamp_usize_to_u32 (v : Z) : Z := Z.min v u32_max.
Record AffectedCompletenessInput : Type := mkCompletenessInput {
  in_uncovered_input_count : Z;
  in_direct_impact_count : Z;
  in_propagated_impact_count : Z;
  in_candidate_test_count : Z;
  in_freshness_affects_claim : bool;
  in_gap_composition : AffectedEvidenceGapComposition;
  in_truncation_reasons : list str;
}.
Record AffectedAnalysisCompletenessDto : Type := mkCompleteness {
  complete : bool;
  confidence : str;
  direct_impact_count : Z;
  propagated_impact_count : Z;
  candidate_test_count : Z;
  uncovered_input_count : Z;
  ac_unavailable_evidence_count : Z;
  ac_truncated : bool;
  truncation_reasons : list str;
}.
Definition compose_affected_completeness (input : AffectedCompletenessInput)
  : AffectedAnalysisCompletenessDto :=
  let truncated := match in_truncation_reasons input with [] => false | _ => true end in
  let complete := (in_uncovered_input_count input =? 0) && negb truncated
                  && gap_free (in_gap_composition input)
                  && negb (in_freshness_affects_claim input) in
  {| complete := complete;
     confidence := if complete then lit "complete"
                   else if negb (gap_free (in_gap_composition input))
                   then composition_confidence (in_gap_composition input)
                   else lit "bounded";
     direct_impact_count := clamp_usize_to_u32 (in_direct_impact_count input);
     propagated_impact_count := clamp_usize_to_u32 (in_propagated_impact_count input);
     candidate_test_count := clamp_usize_to_u32 (in_candidate_test_count input);
     uncovered_input_count := clamp_usize_to_u32 (in_uncovered_input_count input);
     ac_unavailable_evidence_count :=
       clamp_usize_to_u32 (unavailable_evidence_count (in_gap_composition input));
     ac_truncated := truncated; truncation_reasons := in_truncation_reasons input |}.

(** ** Follow-ups *)
Record AffectedFollowUpInvocationDto : Type := mkInvocation { program : str; args : list str }.
Record AffectedFollowUpDto : Type := mkFollowUp {
  fu_action : str;
  fu_reason : str;
  fu_confidence : str;
  fu_invocation : option AffectedFollowUpInvocationDto;
}.
Definition affected_classification_rank (classification : AffectedInputClassificationDto) : Z :=
  match classification with
  | Classification.StaleIndex => 0
  | Classification.Missing | Classification.ExpectedDeleted | Classification.RenameUnresolved => 1
  | Classification.Malformed => 2
  | Classification.UnavailableEvidence => 3
  | Classification.ValidUncovered => 4
  end.
Definition uncovered_cmp : AffectedUncoveredInputDto → AffectedUncoveredInputDto → comparison :=
  then_with (cmp_on (λ i, affected_classification_rank (ui_classification i)) Z.compare)
    (then_with (cmp_on ui_path str_cmp) (cmp_on ui_reason str_cmp)).

Definition affected_files_follow_up_invocation (project path : str) : AffectedFollowUpInvocationDto :=
  mkInvocation (lit "codestory-cli")
    [lit "files"; lit "--project"; project; lit "--path"; path; lit "--format"; lit "markdown"].

(** Priority, deduplication path and follow-up of one input. *)
Definition follow_up_of (project : str) (input : AffectedUncoveredInputDto)
  : Z * str * AffectedFollowUpDto :=
  let path := ui_path input in
  let files := Some (affected_files_follow_up_invocation project path) in
  match ui_classification input with
  | Classification.ValidUncovered =>
      (5, path, mkFollowUp (lit "inspect_graph_boundary")
         (path ++ lit " is a valid project file outside current graph coverage; source inspection is the relevant next step")
         (lit "direct") None)
  | Classification.StaleIndex =>
      (0, [], mkFollowUp (lit "refresh_stale_index")
         (lit "complete requested-path freshness evidence shows the publication is stale")
         (lit "direct")
         (Some (mkInvocation (lit "codestory-cli")
            [lit "index"; lit "--project"; project; lit "--refresh"; lit "incremental"])))
  | Classification.Missing | Classification.RenameUnresolved | Classification.ExpectedDeleted =>
      (1, path, mkFollowUp (lit "locate_input_path")
         (lit "confirm the exact project-relative spelling and file state for " ++ path)
         (lit "direct") files)
  | Classification.Malformed =>
      let recorded_error :=
        existsb (λ e, starts_with e (lit "indexed file error_count=")) (ui_evidence input) in
      (2, path, mkFollowUp
         (if recorded_error then lit "inspect_recorded_index_error" else lit "inspect_malformed_input")
         (if recorded_error
          then lit "inspect the exact recorded parse/index error for " ++ path
               ++ lit " before retrying impact analysis"
          else lit "confirm " ++ path
               ++ lit " is a regular project file before retrying impact analysis")
         (lit "direct") files)
  | Classification.UnavailableEvidence =>
      (3, path, mkFollowUp (lit "inspect_input_evidence")
         (lit "inspect the focused inventory row for " ++ path
          ++ lit "; current evidence cannot classify its graph absence more strongly")
         (lit "bounded") files)
  end.
Definition follow_up_key_cmp : Z * str * str → Z * str * str → comparison :=
  then_with (cmp_on (λ k, k.1.1) Z.compare)
    (then_with (cmp_on (λ k, k.1.2) str_cmp) (cmp_on snd str_cmp)).

Definition add_follow_up (project : str) (m : list (Z * str * str * AffectedFollowUpDto))
    (input : AffectedUncoveredInputDto) : list (Z * str * str * AffectedFollowUpDto) :=
  let '(priority, dedupe_path, follow_up) := follow_up_of project input in
  hm_or_insert m (priority, fu_action follow_up, dedupe_path) follow_up.
Definition freshness_follow_up (project reason : str) : AffectedFollowUpDto :=
  mkFollowUp (lit "establish_freshness_evidence") reason (lit "bounded")
    (Some (mkInvocation (lit "codestory-cli")
       [lit "doctor"; lit "--project"; project; lit "--format"; lit "markdown"])).
Definition affected_follow_ups (project : str) (uncovered_inputs : list AffectedUncoveredInputDto)
    (freshness_diagnostic : option str) : list AffectedFollowUpDto :=
  let inputs := sort_by (cmp_leb uncovered_cmp) uncovered_inputs in
  let follow_ups := foldl (add_follow_up project) [] inputs in
  let follow_ups :=
    match freshness_diagnostic with
    | Some reason =>
        let follow_up := freshness_follow_up project reason in
        hm_insert follow_ups (4, fu_action follow_up, []) follow_up
    | None => follow_ups
    end in
  (sort_by (cmp_leb (cmp_on fst follow_up_key_cmp)) follow_ups).*2.

Definition affected_freshness_diagnostic (o : IndexFreshnessObservation) (affects_claim : bool)
  : option str :=
  if affects_claim
  then Some (match freshness_reason (freshness o) with
             | Some reason =>
                 lit "inspect observational freshness because requested-path evidence was unavailable: "
                 ++ reason
             | None =>
                 lit "inspect observational freshness because requested-path refresh-plan identity evidence was unavailable"
             end)
  else None.

(** * Affected analysis: the whole operation

    codestory-runtime/src/affected.rs: [affected_analysis] from the request to the report.
    The controller (its state, the resolution of project paths), the store and the
    freshness observation are interfaces. *)
Record AffectedAnalysisRequest : Type := mkRequest {
  req_input : AffectedAnalysisInput;
  req_depth : option Z;
  req_filter : option str;
}.
Record PreparedAffectedRequest : Type := mkPrepared {
  pr_root : str;
  pr_depth : Z;
  pr_filter : option str;
  pr_changed_paths : list str;
  pr_change_records : list AffectedChangeRecordDto;
  pr_resolved_inputs : list AffectedResolvedInput;
}.
(** What the store answers; an error is its message. *)
Record ReadStorage : Type := mkStorage {
  get_files : result str (list FileInfo);
  get_nodes : result str (list Node);
  get_edges : result str (list Edge);
  get_errors : result str (list (option Z));
}.
Class Controller : Type := {
  is_indexing : bool;
  require_project_root : result ApiError str;
  resolve_project_file_path : str → result ApiError str;
  node_names : gmap Z str;
  open_storage_read_only : result ApiError ReadStorage;
  open_workspace : str → result ApiError ();
  index_freshness_observation :
    AffectedOperationIdentityIndex → IndexFreshnessObservation * AffectedOperationIdentityIndex;
  native_identity : nat → str → result IoError WorkspacePathIdentity;
}.

Record AffectedAnalysisBoundsDto : Type := mkBounds {
  requested_depth : Z;
  maximum_depth : Z;
  visited_node_count : Z;
  bounds_visited_edge_count : Z;
  impacted_symbol_limit : Z;
  impacted_route_limit : Z;
}.

Section Analysis.
Context `{!Workspace} `{!Controller}.
Context {RouteEndpointMetadataDto : Type} `{!RouteEndpoints RouteEndpointMetadataDto}.

(** ** The request *)
Definition ensure_consistent_read_state (operation : str) : result ApiError () :=
  if is_indexing
  then Err (invalid_argument (operation ++ lit " is unavailable while indexing is in progress. Retry after indexing completes."))
  else Ok ().
Definition clamp (low high v : Z) : Z := if v <? low then low else if high <? v then high else v.
Definition resolve_input (record : AffectedChangeRecordDto) : result ApiError AffectedResolvedInput :=
  current ← resolve_project_file_path (cr_path record);
  previous ← match cr_previous_path record with
             | Some path => Some <$> resolve_project_file_path path
             | None => Ok None
             end;
  Ok (mkResolved current previous).
Definition prepare_affected_request (req : AffectedAnalysisRequest)
  : result ApiError PreparedAffectedRequest :=
  _ ← ensure_consistent_read_state (lit "Affected analysis");
  root ← require_project_root;
  '(changed_paths, change_records) ← normalized_affected_input (req_input req);
  resolved_inputs ← mapM resolve_input change_records;
  Ok {| pr_root := root; pr_depth := clamp 1 8 (default 2 (req_depth req));
        pr_filter := normalize_path_key <$> req_filter req; pr_changed_paths := changed_paths;
        pr_change_records := change_records; pr_resolved_inputs := resolved_inputs |}.

(** ** The stored state *)
Record AffectedStoredState : Type := mkStored {
  st_files : list FileInfo;
  st_nodes : list Node;
  st_edges : list Edge;
  st_errors_by_file : gmap Z Z;
  st_freshness : IndexFreshnessObservation;
  st_identity_matches : AffectedIdentityMatches;
}.
Definition map_err {A} (context : str) (r : result str A) : result ApiError A :=
  match r with Ok a => Ok a | Err e => Err (internal (context ++ e)) end.
Definition count_errors (errors : list (option Z)) : gmap Z Z :=
  foldl (λ m file_id, match file_id with
                      | Some f => <[f := wrapping_add u32_max (default 0 (m !! f)) 1]> m
                      | None => m
                      end) ∅ errors.
Definition load_affected_state (root : str) (change_records : list AffectedChangeRecordDto)
  : result ApiError AffectedStoredState :=
  storage ← open_storage_read_only;
  files ← map_err (lit "Failed to load indexed files: ") (get_files storage);
  nodes ← map_err (lit "Failed to load graph nodes: ") (get_nodes storage);
  edges ← map_err (lit "Failed to load graph edges: ") (get_edges storage);
  errors ← map_err (lit "Failed to load index errors: ") (get_errors storage);
  _ ← open_workspace root;
  let '(freshness, path_identities) := index_freshness_observation new_identity_index in
  let '(identity_matches, _) :=
    match_affected_file_identities native_identity root change_records
      ((λ file, (fi_id file, fi_path file)) <$> files) path_identities in
  Ok {| st_files := files; st_nodes := nodes; st_edges := edges;
        st_errors_by_file := count_errors errors; st_freshness := freshness;
        st_identity_matches := identity_matches |}.

(** ** The inputs *)
Definition classify_affected_inputs (root : str) (records : list AffectedChangeRecordDto)
    (resolved_inputs : list AffectedResolvedInput) (files : list FileInfo)
    (errors_by_file : gmap Z Z) (o : IndexFreshnessObservation) (matches : AffectedIdentityMatches)
  : AffectedClassifiedInputs :=
  let previous_seeds :=
    previous_identity_seed_evidence records (previous_record_index_by_file_id matches) in
  let context := mkContext root records o in
  let matched := classify_matched_affected_files context files errors_by_file
    (matched_file_ids matches) (matched_record_index_by_file_id matches)
    (indexed_identity_by_file_id matches) in
  let '(unmatched_paths, unmatched_freshness_unavailable) :=
    classify_unmatched_affected_paths context resolved_inputs matches in
  {| ci_matched_files := mc_files matched; ci_unmatched_paths := unmatched_paths;
     ci_uncovered_inputs := (uncovered_of_unmatched <$> unmatched_paths) ++ mc_uncovered matched;
     ci_matches := matches;
     ci_freshness_affects_claim := unmatched_freshness_unavailable || mc_freshness_unavailable matched;
     ci_previous_seed_evidence := previous_seeds;
     ci_graph_seed_file_ids := matched_file_ids matches ∪ dom previous_seeds |}.

(** ** Relevant gaps *)
Definition input_matched (matches : AffectedIdentityMatches) (i : nat) : bool :=
  default false (matched_record_flags matches !! i).
Definition current_gap_error (root : str) (resolved_inputs : list AffectedResolvedInput)
    (matches : AffectedIdentityMatches) (entry : nat * option str) : option str :=
  let '(i, error) := entry in
  error ← error; resolved ← resolved_inputs !! i;
  if input_matched matches i || indexable_source_path_with_root (Some root) (current resolved)
  then Some error else None.
Definition previous_indexable (root : str) (resolved : AffectedResolvedInput) : bool :=
  match previous resolved with
  | Some path => indexable_source_path_with_root (Some root) path
  | None => false
  end.
Definition previous_gap_error (root : str) (resolved_inputs : list AffectedResolvedInput)
    (matches : AffectedIdentityMatches) (entry : nat * option str) : option str :=
  let '(i, error) := entry in
  error ← error; resolved ← resolved_inputs !! i;
  if negb (input_matched matches i) && previous_indexable root resolved
  then Some error else None.
Definition indexed_identity_is_relevant (root : str) (resolved_inputs : list AffectedResolvedInput)
    (matches : AffectedIdentityMatches) : bool :=
  existsb (λ entry : nat * AffectedResolvedInput,
    let '(i, resolved) := entry in
    input_matched matches i || indexable_source_path_with_root (Some root) (current resolved)
    || previous_indexable root resolved) (imap pair resolved_inputs).

Definition affected_relevant_evidence_gaps (root : str)
    (resolved_inputs : list AffectedResolvedInput) (matches : AffectedIdentityMatches)
    (freshness_affects_claim : bool) (o : IndexFreshnessObservation) : AffectedRelevantEvidenceGaps :=
  {| gaps_current := gap_of_errors (omap (current_gap_error root resolved_inputs matches)
       (imap pair (current_identity_error_by_record matches)));
     gaps_previous := gap_of_errors (omap (previous_gap_error root resolved_inputs matches)
       (imap pair (previous_identity_error_by_record matches)));
     gaps_indexed :=
       if indexed_identity_is_relevant root resolved_inputs matches
       then mkGap (unavailable_indexed_identity_count matches)
                  (unavailable_indexed_identity_sample matches)
       else no_gap;
     gaps_freshness :=
       if freshness_affects_claim then mkGap (identity_gap_count o) (identity_gap_sample o)
       else no_gap |}.

(** ** The report *)
Record AffectedCompletion : Type := mkCompletion {
  co_project : str;
  co_bounds : AffectedAnalysisBoundsDto;
  co_completeness : AffectedAnalysisCompletenessDto;
  co_blind_spots : list str;
  co_follow_ups : list AffectedFollowUpDto;
  co_notes : list str;
}.
Definition when (b : bool) (message : str) : list str := if b then [message] else [].
Definition count_true (l : list bool) : Z := len (List.filter id l).
Definition has_classification (c : AffectedInputClassificationDto)
    (inputs : list AffectedUncoveredInputDto) : bool :=
  existsb (λ i, bool_decide (ui_classification i = c)) inputs.

Definition no_match_note : str :=
  lit "no current input paths matched indexed file identity; inspect the typed uncovered-input evidence".
Definition match_note (matched : Z) : str :=
  if matched =? 0 then no_match_note
  else lit "matched " ++ show_uint matched
       ++ lit " indexed files by current path; dependency walk expanded files into contained symbols".

Definition symbol_truncation (impacts : AffectedSymbolImpacts) : list str :=
  when (si_truncated impacts)
    (lit "impacted_symbols retained 200 of " ++ show_uint (si_total impacts) ++ lit " results").
Definition route_truncation (impacts : AffectedRouteImpacts RouteEndpointMetadataDto) : list str :=
  when (ri_truncated impacts)
    (lit "impacted_routes retained 100 of " ++ show_uint (ri_total impacts) ++ lit " results").

Definition complete_affected_analysis (prepared : PreparedAffectedRequest)
    (o : IndexFreshnessObservation) (inputs : AffectedClassifiedInputs)
    (walk : AffectedReverseWalk) (symbols : AffectedSymbolImpacts) (routes : AffectedRouteImpacts RouteEndpointMetadataDto)
    (tests : list AffectedTestFileDto) : AffectedCompletion :=
  let root := pr_root prepared in
  let matches := ci_matches inputs in
  let uncovered := ci_uncovered_inputs inputs in
  let affects_claim := ci_freshness_affects_claim inputs in
  let gap_composition := compose_affected_evidence_gaps
    (len (List.filter
       (λ i, bool_decide (ui_classification i = Classification.UnavailableEvidence)) uncovered))
    (affected_relevant_evidence_gaps root (pr_resolved_inputs prepared) matches affects_claim o) in
  let matched_file_count := Z.of_nat (size (matched_file_ids matches)) in
  let graph_unseeded := saturating_sub (len (pr_change_records prepared))
                          (count_true (graph_seeded_record_flags matches)) in
  let previous_only :=
    count_true (zip_with (λ seeded matched, seeded && negb matched)
                  (graph_seeded_record_flags matches) (matched_record_flags matches)) in
  let truncation_reasons := symbol_truncation symbols ++ route_truncation routes in
  let freshness_diagnostic := affected_freshness_diagnostic o affects_claim in
  {| co_project := root;
     co_bounds :=
       {| requested_depth := pr_depth prepared; maximum_depth := 8;
          visited_node_count := clamp_usize_to_u32 (Z.of_nat (size (walk_distances walk)));
          bounds_visited_edge_count := clamp_usize_to_u32 (visited_edge_count walk);
          impacted_symbol_limit := 200; impacted_route_limit := 100 |};
     co_completeness := compose_affected_completeness
       {| in_uncovered_input_count := len uncovered;
          in_direct_impact_count := si_direct_count symbols;
          in_propagated_impact_count := si_propagated_count symbols;
          in_candidate_test_count := len tests;
          in_freshness_affects_claim := affects_claim;
          in_gap_composition := gap_composition;
          in_truncation_reasons := truncation_reasons |};
     co_blind_spots :=
       when ((matched_file_count =? 0)
             && bool_decide (size (ci_graph_seed_file_ids inputs) = 0%nat)) no_match_note
       ++ when (0 <? graph_unseeded)
            (show_uint graph_unseeded ++ lit " inputs had no indexed current or previous identity and were excluded from graph traversal")
       ++ gap_blind_spots gap_composition
       ++ when (existsb (λ f, negb (mf_complete f) || (0 <? mf_error_count f))
                  (ci_matched_files inputs))
            (lit "one or more matched files are incomplete or have recorded index errors")
       ++ when (match ri_routes routes with [] => true | _ => false end)
            (lit "no route/endpoint evidence found for matched files or dependents")
       ++ truncation_reasons
       ++ when (bool_decide (freshness_status (freshness o) = IndexFreshnessStatusDto.Stale)
                && negb (has_classification Classification.StaleIndex uncovered))
            (lit "the workspace has unrelated stale index state, but no requested input was classified stale")
       ++ when affects_claim
            (lit "bounded index freshness evidence was unavailable for a requested indexable path; no complete no-impact claim is possible");
     co_follow_ups := affected_follow_ups root uncovered freshness_diagnostic;
     co_notes :=
       [match_note matched_file_count]
       ++ when (0 <? previous_only)
            (show_uint previous_only ++ lit " current input paths were classified separately while their previous indexed identities seeded graph traversal")
       ++ when (match tests with [] => true | _ => false end)
            (lit "no impacted test-like files found in the indexed graph") |}.

(** ** The operation *)
Record AffectedAnalysisDto : Type := mkAnalysis {
  da_project_root : str;
  da_changed_paths : list str;
  da_change_records : list AffectedChangeRecordDto;
  da_matched_files : list AffectedMatchedFileDto;
  da_unmatched_paths : list AffectedUnmatchedPathDto;
  da_uncovered_inputs : list AffectedUncoveredInputDto;
  da_matched_file_count : Z;
  da_depth : Z;
  da_impacted_symbols : list AffectedSymbolDto;
  da_impacted_routes : list (AffectedRouteDto RouteEndpointMetadataDto);
  da_impacted_tests : list AffectedTestFileDto;
  da_bounds : AffectedAnalysisBoundsDto;
  da_completeness : AffectedAnalysisCompletenessDto;
  da_blind_spots : list str;
  da_follow_ups : list AffectedFollowUpDto;
  da_notes : list str;
}.

Definition affected_analysis (req : AffectedAnalysisRequest) : result ApiError AffectedAnalysisDto :=
  prepared ← prepare_affected_request req;
  let root := pr_root prepared in
  state ← load_affected_state root (pr_change_records prepared);
  let inputs := classify_affected_inputs root (pr_change_records prepared)
    (pr_resolved_inputs prepared) (st_files state) (st_errors_by_file state) (st_freshness state)
    (st_identity_matches state) in
  let graph := affected_graph_index node_names root (st_files state) (st_nodes state) in
  let seed_evidence := affected_graph_seeds (ci_graph_seed_file_ids inputs)
    (ci_previous_seed_evidence inputs) (gi_node_ids_by_file graph) in
  let walk := affected_reverse_walk (st_edges state) (gi_labels graph) (pr_depth prepared)
    seed_evidence in
  let symbols := affected_symbol_impacts (walk_distances walk) (walk_evidence walk) graph
    (pr_filter prepared) in
  let routes := affected_route_impacts (walk_distances walk) (walk_evidence walk) graph
    (pr_filter prepared) in
  let tests := affected_test_impacts (si_symbols symbols) in
  let completion := complete_affected_analysis prepared (st_freshness state) inputs walk symbols
    routes tests in
  Ok {| da_project_root := co_project completion;
        da_changed_paths := pr_changed_paths prepared;
        da_change_records := pr_change_records prepared;
        da_matched_files := ci_matched_files inputs;
        da_unmatched_paths := ci_unmatched_paths inputs;
        da_uncovered_inputs := ci_uncovered_inputs inputs;
        da_matched_file_count := Z.min (Z.of_nat (size (matched_file_ids (ci_matches inputs)))) u32_max;
        da_depth := pr_depth prepared;
        da_impacted_symbols := si_symbols symbols; da_impacted_routes := ri_routes routes;
        da_impacted_tests := tests; da_bounds := co_bounds completion;
        da_completeness := co_completeness completion; da_blind_spots := co_blind_spots completion;
        da_follow_ups := co_follow_ups completion; da_notes := co_notes completion |}.
End Analysis.
Arguments AffectedAnalysisDto : clear implicits.
