(* ===== verification/AffectedWalkProofs.v ===== *)
(** * The walk over the dependents finds the best evidence

    The walk reaches exactly the nodes within its depth, each at its shortest distance, with
    the evidence of a shortest path that no other shortest path beats in proxy and strength;
    the order of the edge table does not matter.

    The second part: what the walk over the dependents returns. *)
From S2P Require Import Prelude RustStr RetrievalData Graph Sorting StrOps Collections AffectedWalk.

(** ** The comparison of evidence is a linear order *)
#[export] Instance bool_cmp_laws : CmpLaws (λ _, True) bool_cmp.
Proof. split; [intros [] []|intros [] [] [] []|intros [] [] []]; done. Qed.
Lemma tie_step_cmp_eq a b : tie_step_cmp a b = Eq → a = b.
Proof.
  intros [H1 [H2 H3]%then_with_eq]%then_with_eq. destruct a, b. unfold cmp_on in *. cbn in *.
  by apply Z.compare_eq in H1 as ->, H2 as ->, H3 as ->.
Qed.
Lemma evidence_cmp_eq a b : compare_affected_evidence a b = Eq → a = b.
Proof.
  unfold compare_affected_evidence.
  intros [H1 [H2 [H3 [H4 [H5 H6]%then_with_eq]%then_with_eq]%then_with_eq]%then_with_eq]%then_with_eq.
  destruct a as [d r [s l] p k], b as [d' r' [s' l'] p' k']. unfold cmp_on, cmp_flip in *. cbn in *.
  apply Z.compare_eq in H1 as ->, H3 as ->. apply str_cmp_eq in H4 as ->, H6 as ->.
  apply (list_cmp_eq _ tie_step_cmp_eq) in H5 as ->. by destruct p, p'.
Qed.

#[export] Instance tie_step_cmp_laws : CmpLaws (λ _, True) tie_step_cmp.
Proof. repeat apply then_with_laws; apply on_laws, _. Qed.
#[export] Instance evidence_cmp_laws : CmpLaws (λ _, True) compare_affected_evidence.
Proof.
  unfold compare_affected_evidence. repeat apply then_with_laws; try (apply on_laws, _).
  - apply cmp_flip_laws, on_laws, _.
  - apply on_laws, list_cmp_laws, _.
Qed.

(** ** Keeping the better one keeps the least *)
Section Least.
Context {V : Type} (cmp : V → V → comparison) `{!CmpLaws (λ _, True) cmp}.
Context (cmp_eq : ∀ a b, cmp a b = Eq → a = b).
Let better (a b : V) : bool := match cmp a b with Lt => true | _ => false end.

Definition pick (o : option V) (c : V) : option V :=
  match o with
  | Some current => if match cmp c current with Lt => true | _ => false end then Some c else o
  | None => Some c
  end.
Definition least_of (l : list V) : option V := foldl pick None l.
Definition not_above (a b : V) : Prop := cmp a b ≠ Gt.

Lemma not_above_refl a : not_above a a.
Proof.
  unfold not_above. intros H. pose proof (cmp_opp (cmp := cmp) a a I I) as Ho. rewrite H in Ho. done.
Qed.
Lemma not_above_trans a b c : not_above a b → not_above b c → not_above a c.
Proof.
  unfold not_above. intros Hab Hbc. destruct (cmp a b) eqn:E1; [..|done].
  - by apply cmp_eq in E1 as ->.
  - destruct (cmp b c) eqn:E2; [..|done].
    + apply cmp_eq in E2 as <-. congruence.
    + by rewrite (cmp_trans (cmp := cmp) a b c Lt I I I E1 E2).
Qed.
Lemma not_above_antisym a b : not_above a b → not_above b a → a = b.
Proof.
  unfold not_above. intros Hab Hba. rewrite (cmp_opp (cmp := cmp) a b I I) in Hba.
  apply cmp_eq. by destruct (cmp a b).
Qed.

Lemma pick_spec o c v :
  pick o c = Some v → (v = c ∨ o = Some v) ∧ not_above v c ∧ (∀ x, o = Some x → not_above v x).
Proof.
  destruct o as [x|]; cbn.
  - destruct (cmp c x) eqn:E; intros [= <-]; (split; [by auto|split]);
      try (intros ? [= <-]); try apply not_above_refl; unfold not_above; try congruence.
    + apply cmp_eq in E as ->. apply not_above_refl.
    + rewrite (cmp_opp (cmp := cmp) c x I I), E. done.
  - intros [= <-]. split; [by left|]. split; [apply not_above_refl|done].
Qed.
Lemma pick_some o c : is_Some (pick o c).
Proof. destruct o; cbn; [destruct (match cmp c v with Lt => true | _ => false end)|]; eauto. Qed.

Lemma foldl_pick_spec l : ∀ o v,
  foldl pick o l = Some v →
  (v ∈ l ∨ o = Some v) ∧ (∀ c, c ∈ l → not_above v c) ∧ (∀ x, o = Some x → not_above v x).
Proof.
  induction l as [|c l IH]; cbn; intros o v H.
  - split; [by right|]. split; [by intros c ?%elem_of_nil|]. intros x Hx. rewrite Hx in H.
    injection H as ->. apply not_above_refl.
  - destruct (IH _ _ H) as ([Hin|Hp] & Hl & Ho).
    + destruct (pick_some o c) as [p Hp]. destruct (pick_spec _ _ _ Hp) as (_ & Hc & Hx).
      specialize (Ho _ Hp). split; [left; by apply list_elem_of_further|]. split.
      * intros c' [->|]%elem_of_cons; [by eapply not_above_trans|by apply Hl].
      * intros x Hx'. eapply not_above_trans; [apply Ho|by apply Hx].
    + destruct (pick_spec _ _ _ Hp) as ([-> | ->] & Hc & Hx).
      * split; [left; apply list_elem_of_here|]. split; [|done].
        intros c' [->|]%elem_of_cons; [done|by apply Hl].
      * split; [by right|]. split; [|done]. intros c' [->|]%elem_of_cons; [done|by apply Hl].
Qed.
Lemma least_of_some l c : c ∈ l → ∃ v, least_of l = Some v.
Proof.
  unfold least_of. assert (∀ l o, is_Some o ∨ l ≠ [] → is_Some (foldl pick o l)) as H.
  { intros l'. induction l' as [|x l' IH]; intros o Ho; cbn; [by destruct Ho|].
    apply IH. left. apply pick_some. }
  intros Hc. apply H. right. intros ->. by apply elem_of_nil in Hc.
Qed.
Lemma least_of_spec l v :
  least_of l = Some v ↔ v ∈ l ∧ ∀ c, c ∈ l → not_above v c.
Proof.
  split.
  - intros (Hin & Hl & _)%foldl_pick_spec. split; [by destruct Hin|done].
  - intros [Hin Hl]. destruct (least_of_some l v Hin) as [w Hw]. rewrite Hw. f_equal.
    destruct (foldl_pick_spec _ _ _ Hw) as ([Hw'|Hw'] & Hwl & _); [|done].
    apply not_above_antisym; auto.
Qed.
Lemma least_of_perm l l' : l ≡ₚ l' → least_of l = least_of l'.
Proof.
  intros Hp. destruct (least_of l) as [v|] eqn:Hv.
  - symmetry. apply least_of_spec. apply least_of_spec in Hv as [Hin Hl]. split.
    + by rewrite <-Hp.
    + intros c Hc. apply Hl. by rewrite Hp.
  - destruct (least_of l') as [w|] eqn:Hw; [|done]. apply least_of_spec in Hw as [Hin _].
    rewrite <-Hp in Hin. apply least_of_some in Hin as [x Hx]. congruence.
Qed.

Lemma insert_better_lookup (l : list (Z * V)) : ∀ m k,
  foldl (λ m kv, insert_better better m kv.1 kv.2) m l !! k = foldl pick (m !! k) (values_of l k).
Proof.
  induction l as [|[k' c] l IH]; intros m k; [done|]. cbn [foldl]. rewrite IH.
  assert (insert_better better m k' c !! k = if decide (k' = k) then pick (m !! k) c else m !! k)
    as Heq.
  { unfold insert_better, better, pick. destruct (decide (k' = k)) as [->|Hne].
    - destruct (m !! k) as [x|] eqn:Hk; [destruct (cmp c x)|]; rewrite ?Hk;
        rewrite ?lookup_insert_eq; done.
    - destruct (m !! k') as [x|]; [destruct (cmp c x)|]; rewrite ?lookup_insert_ne by done; done. }
  cbn [fst snd]. rewrite Heq. unfold values_of. cbn [List.filter fst snd].
  destruct (decide (k' = k)) as [->|Hne].
  - by rewrite bool_decide_true by done.
  - by rewrite bool_decide_false by done.
Qed.
End Least.

Lemma values_of_perm {V} (l l' : list (Z * V)) k : l ≡ₚ l' → values_of l k ≡ₚ values_of l' k.
Proof.
  intros Hp. unfold values_of. apply fmap_Permutation.
  induction Hp; cbn; try done.
  - by destruct (bool_decide _); rewrite IHHp.
  - destruct (bool_decide (x.1 = k)), (bool_decide (y.1 = k)); try done. by constructor.
  - by etrans.
Qed.

(** ** The edges into a node *)
Definition into (edges : list Edge) (n : Z) : list Edge :=
  List.filter (λ e, bool_decide (effective_target e = n)) edges.
(** The edges the index gives for a node, in its order. *)
Definition indexed_into (edges : list Edge) (n : Z) : list Edge :=
  omap (λ i, edges !! i) (default [] (hm_get (reverse_dependents edges) n)).

Lemma hm_get_values {K V W} `{EqDecision K} (f : V → W) (m : list (K * V)) k :
  hm_get (prod_map id f <$> m) k = f <$> hm_get m k.
Proof. induction m as [|[k' v] m IH]; cbn; [done|]. by destruct (decide (k' = k)). Qed.
Lemma into_offsets (edges before : list Edge) n :
  omap (λ i, (before ++ edges) !! i)
    (values_of (imap (λ i e, (effective_target e, (length before + i)%nat)) edges) n) = into edges n.
Proof.
  revert before. induction edges as [|e edges IH]; intros before; [done|].
  cbn [imap into List.filter]. unfold values_of. cbn [List.filter fst].
  specialize (IH (before ++ [e])). rewrite <-app_assoc in IH. cbn [app] in IH.
  assert (imap (λ i e0, (effective_target e0, (length (before ++ [e]) + i)%nat)) edges =
          imap ((λ i e0, (effective_target e0, (length before + i)%nat)) ∘ S) edges) as Heq.
  { apply imap_ext. intros i e0 _. cbn. by rewrite length_app, <-Nat.add_assoc. }
  rewrite Heq in IH. destruct (bool_decide (effective_target e = n)); [|exact IH].
  cbn [fmap list_fmap omap list_omap snd]. rewrite Nat.add_0_r, list_lookup_middle by done.
  f_equal. exact IH.
Qed.
Lemma indexed_into_perm edges n : indexed_into edges n ≡ₚ into edges n.
Proof.
  unfold indexed_into, reverse_dependents. rewrite hm_get_values, hm_get_group.
  pose proof (into_offsets edges [] n) as H. cbn [length app Nat.add] in H.
  destruct (values_of _ n) as [|i js] eqn:Hv; cbn [fmap option_fmap option_map default].
  - rewrite <-H. done.
  - rewrite <-H. apply omap_Permutation, sort_by_perm.
Qed.
Lemma into_elem edges n e : e ∈ into edges n ↔ e ∈ edges ∧ effective_target e = n.
Proof.
  unfold into. by rewrite list_elem_of_In, List.filter_In, bool_decide_eq_true, <-list_elem_of_In.
Qed.
Lemma into_perm edges edges' n : edges ≡ₚ edges' → into edges n ≡ₚ into edges' n.
Proof.
  intros Hp. unfold into. induction Hp; cbn; try done.
  - by destruct (bool_decide _); rewrite IHHp.
  - destruct (bool_decide (effective_target x = n)), (bool_decide (effective_target y = n));
      try done. by constructor.
  - by etrans.
Qed.

(** ** One round *)
Section Round.
Context (edges : list Edge) (labels : gmap Z str) (next_distance : Z)
  (distances : gmap Z Z) (evidence : gmap Z AffectedGraphEvidence).

(** The candidates an expanded node offers along a list of edges into it. *)
Definition offers (parent : AffectedGraphEvidence) (n : Z) (es : list Edge)
  : list (Z * AffectedGraphEvidence) :=
  omap (λ e, match distances !! effective_source e with
             | Some _ => None
             | None => Some (effective_source e,
                 affected_dependent_evidence next_distance e (target_label labels n) parent)
             end) es.
Definition node_offers (into_of : Z → list Edge) (n : Z) : list (Z * AffectedGraphEvidence) :=
  match evidence !! n with Some parent => offers parent n (into_of n) | None => [] end.
Definition node_visits (into_of : Z → list Edge) (n : Z) : nat :=
  match evidence !! n with Some _ => length (into_of n) | None => 0%nat end.

Definition put (m : gmap Z AffectedGraphEvidence) (kv : Z * AffectedGraphEvidence)
  : gmap Z AffectedGraphEvidence := keep_better m kv.1 kv.2.
Definition visits (n : nat) (v : Z) : Z := Nat.iter n (λ v, saturating_add usize_max v 1) v.

Lemma visits_add a b v : visits (a + b) v = visits a (visits b v).
Proof. unfold visits. by rewrite Nat.iter_add. Qed.
Lemma visit_edges parent n js : ∀ acc,
  Forall (λ i, is_Some (edges !! i)) js →
  foldl (visit_edge edges labels next_distance distances n parent) acc js =
  (foldl put acc.1 (offers parent n (omap (λ i, edges !! i) js)), visits (length js) acc.2).
Proof.
  induction js as [|i js IH]; intros [m v] Hall; [done|].
  apply Forall_cons in Hall as [[e He] Hall]. cbn [foldl omap list_omap length]. rewrite He.
  unfold visit_edge at 2. rewrite He. cbn [fst snd].
  replace (visits (S (length js)) v) with (visits (length js) (saturating_add usize_max v 1)).
  2: { rewrite <-Nat.add_1_r. by rewrite visits_add. }
  unfold offers. cbn [omap list_omap]. fold (offers parent n (omap (λ i, edges !! i) js)).
  destruct (distances !! effective_source e); rewrite IH by done; done.
Qed.
Lemma reverse_dependents_in_range n js :
  hm_get (reverse_dependents edges) n = Some js → Forall (λ i, is_Some (edges !! i)) js.
Proof.
  unfold reverse_dependents. rewrite hm_get_values, hm_get_group. intros Hjs.
  destruct (values_of _ n) as [|j js'] eqn:Hv; [done|].
  apply (inj Some) in Hjs as <-.
  apply Forall_forall. intros i Hi. rewrite sort_by_perm, <-Hv in Hi.
  apply values_of_elem, elem_of_lookup_imap_1 in Hi as (k & e & [= _ ->] & He). by exists e.
Qed.
Lemma visit_node_offers acc n :
  visit_node edges labels next_distance distances evidence acc n =
  (foldl put acc.1 (node_offers (indexed_into edges) n),
   visits (node_visits (indexed_into edges) n) acc.2).
Proof.
  unfold visit_node, node_offers, node_visits. destruct (evidence !! n) as [parent|]; [|by destruct acc].
  unfold indexed_into. destruct (hm_get (reverse_dependents edges) n) as [js|] eqn:Hjs.
  2: by destruct acc.
  cbn [default]. pose proof (reverse_dependents_in_range n js Hjs) as Hall.
  rewrite visit_edges by done. f_equal. f_equal.
  clear Hjs. induction Hall as [|i js [e He] _ IH]; [done|]. cbn. rewrite He. cbn. by f_equal.
Qed.
Lemma visit_frontier frontier : ∀ acc,
  foldl (visit_node edges labels next_distance distances evidence) acc frontier =
  (foldl put acc.1 (frontier ≫= node_offers (indexed_into edges)),
   visits (sum_list (node_visits (indexed_into edges) <$> frontier)) acc.2).
Proof.
  induction frontier as [|n frontier IH]; intros acc; [by destruct acc|].
  cbn [foldl]. rewrite visit_node_offers, IH. cbn [fst snd fmap list_fmap sum_list sum_list_with mbind list_bind].
  rewrite foldl_app. f_equal. rewrite <-visits_add. f_equal. cbn. unfold id. lia.
Qed.

(** The candidates of the next layer are the least offers. *)
Lemma put_lookup l k :
  foldl put ∅ l !! k = least_of compare_affected_evidence (values_of l k).
Proof.
  unfold least_of. rewrite <-(lookup_empty (M := gmap Z) (A := AffectedGraphEvidence) k) at 1.
  exact (insert_better_lookup compare_affected_evidence l ∅ k).
Qed.
Lemma candidates_lookup frontier k c :
  foldl put ∅ (frontier ≫= node_offers (indexed_into edges)) !! k = Some c ↔
  (k, c) ∈ frontier ≫= node_offers (indexed_into edges) ∧
  ∀ c', (k, c') ∈ frontier ≫= node_offers (indexed_into edges) →
        not_above compare_affected_evidence c c'.
Proof.
  rewrite put_lookup, (least_of_spec _ evidence_cmp_eq), values_of_elem.
  by setoid_rewrite values_of_elem.
Qed.
Lemma offers_elem frontier k c :
  (k, c) ∈ frontier ≫= node_offers (indexed_into edges) ↔
  ∃ e parent, effective_target e ∈ frontier ∧ e ∈ edges ∧ k = effective_source e ∧
    evidence !! effective_target e = Some parent ∧ distances !! k = None ∧
    c = affected_dependent_evidence next_distance e (target_label labels (effective_target e)) parent.
Proof.
  rewrite list_elem_of_bind. split.
  - intros (n & Hin & Hn). unfold node_offers in Hin. destruct (evidence !! n) as [parent|] eqn:Hev.
    2: by apply elem_of_nil in Hin.
    apply list_elem_of_omap in Hin as (e & He & Hoff).
    rewrite indexed_into_perm, into_elem in He. destruct He as [He <-].
    destruct (distances !! effective_source e) eqn:Hd; [done|]. injection Hoff as <- <-.
    exists e, parent. done.
  - intros (e & parent & Hf & He & -> & Hev & Hd & ->). exists (effective_target e). split; [|done].
    unfold node_offers. rewrite Hev. apply list_elem_of_omap. exists e. split.
    + by rewrite indexed_into_perm, into_elem.
    + by rewrite Hd.
Qed.
End Round.

(** * What the walk over the dependents returns

    Derivations of evidence along paths of reversed edges; the walk keeps, for each node at
    its shortest distance, a derivation no other one of that length beats; permuting the
    edge table changes nothing. *)
(** ** Derivations *)
Section Derivations.
Context (edges : list Edge) (labels : gmap Z str) (seeds : gmap Z AffectedGraphEvidence).

(** Evidence of a node along a path of [d] edges that ends at a seed. *)
Inductive derives : nat → Z → AffectedGraphEvidence → Prop :=
| derives_seed n e : seeds !! n = Some e → derives 0 n e
| derives_step d edge e :
    edge ∈ edges → derives d (effective_target edge) e →
    derives (S d) (effective_source edge)
      (affected_dependent_evidence (Z.of_nat (S d)) edge
         (target_label labels (effective_target edge)) e).

(** The shortest path from the node to a seed has [d] edges. *)
Definition at_distance (d : nat) (n : Z) : Prop :=
  (∃ e, derives d n e) ∧ ∀ d' e, (d' < d)%nat → ¬ derives d' n e.

(** Evidence that is not a proxy beats evidence that is; then the stronger floor. *)
Definition as_good (a b : AffectedGraphEvidence) : Prop :=
  (ev_previous_identity_proxy a = false ∧ ev_previous_identity_proxy b = true) ∨
  (ev_previous_identity_proxy a = ev_previous_identity_proxy b ∧
   strength (ev_confidence_floor b) <= strength (ev_confidence_floor a)).
(** The evidence of a path that no path of its length beats. *)
Definition best_at (d : nat) (n : Z) (e : AffectedGraphEvidence) : Prop :=
  derives d n e ∧ ∀ e', derives d n e' → as_good e e'.

Lemma at_distance_unique d d' n : at_distance d n → at_distance d' n → d = d'.
Proof.
  intros [[e He] Hd] [[e' He'] Hd']. destruct (lt_eq_lt_dec d d') as [[Hlt|Heq]|Hlt]; [|done|].
  - by destruct (Hd' _ _ Hlt He).
  - by destruct (Hd _ _ Hlt He').
Qed.

Lemma not_above_as_good a b :
  ev_distance a = ev_distance b → not_above compare_affected_evidence a b → as_good a b.
Proof.
  unfold not_above, compare_affected_evidence, as_good. intros Hd H.
  unfold then_with at 1, cmp_on at 1 in H. rewrite Hd, Z.compare_refl in H.
  unfold then_with at 1, cmp_on at 1 in H.
  destruct (ev_previous_identity_proxy a), (ev_previous_identity_proxy b); cbn in H; try done;
    try (by left); right; (split; [done|]);
    unfold then_with at 1, cmp_flip, cmp_on at 1 in H;
    destruct (Z.compare_spec (strength (ev_confidence_floor b)) (strength (ev_confidence_floor a)));
    try lia; done.
Qed.
Lemma as_good_trans a b c : as_good a b → as_good b c → as_good a c.
Proof.
  unfold as_good. intros [[H1 H2]|[H1 H2]] [[H3 H4]|[H3 H4]]; try congruence.
  - left. split; congruence.
  - left. split; congruence.
  - right. split; [congruence|lia].
Qed.
Lemma weakest_strength a b : strength (weakest a b) = Z.min (strength a) (strength b).
Proof.
  unfold weakest. destruct (Z.compare_spec (strength a) (strength b)) as [H|H|H];
    [|lia..]. destruct (str_cmp _ _); lia.
Qed.
(** Following an edge keeps the order of two pieces of evidence. *)
Lemma dependent_as_good d edge l a b :
  as_good a b →
  as_good (affected_dependent_evidence d edge l a) (affected_dependent_evidence d edge l b).
Proof.
  unfold as_good, affected_dependent_evidence. cbn. intros [[-> ->]|[-> Hs]]; [by left|right].
  split; [done|]. destruct (ev_previous_identity_proxy b); [lia|]. rewrite !weakest_strength. lia.
Qed.

(** ** The invariant of the rounds *)
Record walk_inv (d : nat) (w : AffectedReverseWalk) : Prop := {
  wi_distance n z : walk_distances w !! n = Some z →
    ∃ k, (k <= d)%nat ∧ z = Z.of_nat k ∧ at_distance k n;
  wi_complete k n e : (k <= d)%nat → derives k n e → is_Some (walk_distances w !! n);
  wi_evidence n k : walk_distances w !! n = Some (Z.of_nat k) →
    ∃ e, walk_evidence w !! n = Some e ∧ best_at k n e;
  wi_domain n : walk_distances w !! n = None → walk_evidence w !! n = None;
}.
Definition frontier_inv (d : nat) (frontier : list Z) : Prop := ∀ n, n ∈ frontier ↔ at_distance d n.

Lemma wi_at d w n k : walk_inv d w → (k <= d)%nat → at_distance k n →
  walk_distances w !! n = Some (Z.of_nat k).
Proof.
  intros Hw Hk Hat. pose proof Hat as [[e He] Hmin].
  destruct (wi_complete _ _ Hw k n e Hk He) as [z Hz].
  destruct (wi_distance _ _ Hw n z Hz) as (j & _ & -> & Hj).
  rewrite (at_distance_unique k j n); done.
Qed.
Lemma at_distance_step d n : at_distance (S d) n →
  ∀ edge e, edge ∈ edges → effective_source edge = n → derives d (effective_target edge) e →
  at_distance d (effective_target edge).
Proof.
  intros [_ Hmin] edge e Hin <- He. split; [by exists e|]. intros d' e' Hlt He'.
  eapply (Hmin (S d')); [lia|]. by apply derives_step.
Qed.

Section Step.
Context (d : nat) (w : AffectedReverseWalk) (frontier : list Z).
Context (Hw : walk_inv d w) (Hf : frontier_inv d frontier).
Let next : Z := Z.of_nat d + 1.
Let found := frontier ≫= node_offers labels next (walk_distances w) (walk_evidence w) (indexed_into edges).
Let candidates := foldl put ∅ found.

Lemma frontier_evidence n : n ∈ frontier →
  ∃ e, walk_evidence w !! n = Some e ∧ best_at d n e.
Proof. intros Hn%Hf. apply (wi_evidence _ _ Hw). by apply (wi_at d). Qed.
Lemma offer_derives n c : (n, c) ∈ found → derives (S d) n c ∧ walk_distances w !! n = None.
Proof.
  intros (e & parent & Ht & He & -> & Hp & Hd & ->)%offers_elem. split; [|done].
  destruct (frontier_evidence _ Ht) as (e' & He' & [Hder _]). rewrite Hp in He'. injection He' as <-.
  replace next with (Z.of_nat (S d)) by (unfold next; lia). by apply derives_step.
Qed.
Lemma fresh_at n c : derives (S d) n c → walk_distances w !! n = None → at_distance (S d) n.
Proof.
  intros Hc Hn. split; [by exists c|]. intros k e Hk He.
  destruct (wi_complete _ _ Hw k n e) as [z Hz]; [lia|done|congruence].
Qed.
Lemma candidate_some n : is_Some (candidates !! n) ↔ at_distance (S d) n.
Proof.
  unfold candidates. split.
  - intros [c [Hc _]%candidates_lookup]. apply offer_derives in Hc as [Hc Hn]. by apply (fresh_at n c).
  - intros Hat. pose proof Hat as [[e He] Hmin]. inversion He as [|d' edge e0 Hin H0]; subst.
    pose proof (at_distance_step d _ Hat edge e0 Hin eq_refl H0) as Hm.
    destruct (frontier_evidence (effective_target edge)) as (p & Hp & _); [by apply Hf|].
    assert (walk_distances w !! effective_source edge = None) as Hn.
    { destruct (walk_distances w !! effective_source edge) as [z|] eqn:Hz; [|done].
      destruct (wi_distance _ _ Hw _ _ Hz) as (j & Hj & _ & Hatj).
      pose proof (at_distance_unique _ _ _ Hat Hatj). lia. }
    rewrite put_lookup. eapply (least_of_some compare_affected_evidence _
      (affected_dependent_evidence next edge (target_label labels (effective_target edge)) p)).
    apply values_of_elem, offers_elem. exists edge, p. split; [by apply Hf|]. done.
Qed.
Lemma candidate_best n c : candidates !! n = Some c → best_at (S d) n c.
Proof.
  intros [Hc Hleast]%candidates_lookup. destruct (offer_derives n c Hc) as [Hder Hn].
  split; [done|]. intros e' He'. pose proof (fresh_at n c Hder Hn) as Hat.
  inversion He' as [|d' edge e0 Hin H0]; subst.
  pose proof (at_distance_step d _ Hat edge e0 Hin eq_refl H0) as Hm.
  destruct (frontier_evidence (effective_target edge)) as (p & Hp & [_ Hbest]); [by apply Hf|].
  replace next with (Z.of_nat (S d)) in * by (unfold next; lia).
  eapply as_good_trans; [|apply dependent_as_good, (Hbest _ H0)].
  apply not_above_as_good.
  - inversion Hder; subst; done.
  - apply Hleast, offers_elem. exists edge, p. split; [by apply Hf|]. done.
Qed.
Lemma walk_inv_step v :
  walk_inv (S d) {| walk_distances := ((λ _, next) <$> candidates) ∪ walk_distances w;
                    walk_evidence := candidates ∪ walk_evidence w; visited_edge_count := v |}.
Proof.
  assert (next = Z.of_nat (S d)) as Hnext by (unfold next; lia).
  split; cbn [walk_distances walk_evidence].
  - intros n z [Hz|[_ Hz]]%lookup_union_Some_raw.
    + rewrite lookup_fmap in Hz. destruct (candidates !! n) eqn:Hc; [|done]. injection Hz as <-.
      exists (S d). split; [done|]. split; [done|]. apply candidate_some. by eexists.
    + destruct (wi_distance _ _ Hw n z Hz) as (k & Hk & Hrest). exists k. split; [lia|done].
  - intros k n e Hk He. rewrite lookup_union. destruct (walk_distances w !! n) as [z|] eqn:Hz.
    { destruct (((λ _ : AffectedGraphEvidence, next) <$> candidates) !! n); cbn; eauto. }
    assert (k = S d) as ->.
    { destruct (decide (k = S d)); [done|]. destruct (wi_complete _ _ Hw k n e); [lia|done|congruence]. }
    destruct (proj2 (candidate_some n)) as [c Hc]; [by apply (fresh_at n e)|].
    rewrite lookup_fmap, Hc. cbn. eauto.
  - intros n k [Hz|[Hno Hz]]%lookup_union_Some_raw.
    + rewrite lookup_fmap in Hz. destruct (candidates !! n) as [c|] eqn:Hc; [|done].
      cbn in Hz. assert (k = S d) as -> by (injection Hz; lia). exists c. split.
      * by apply lookup_union_Some_l.
      * by apply candidate_best.
    + rewrite lookup_fmap in Hno. destruct (candidates !! n) as [c|] eqn:Hc; [done|].
      rewrite lookup_union_r by done. by apply (wi_evidence _ _ Hw).
  - intros n [Hc Hz]%lookup_union_None. rewrite lookup_fmap in Hc.
    apply lookup_union_None. split; [by destruct (candidates !! n)|by apply (wi_domain _ _ Hw)].
Qed.
End Step.

Lemma walk_inv_more d D w :
  walk_inv d w → (∀ n, ¬ at_distance d n) → (d <= D)%nat → walk_inv D w.
Proof.
  intros Hw Hnone HdD. split.
  - intros n z Hz. destruct (wi_distance _ _ Hw n z Hz) as (k & Hk & Hrest). exists k. split; [lia|done].
  - intros k n e _ He. induction He as [n e Hs|k edge e Hin He IH].
    + apply (wi_complete _ _ Hw 0 n e); [lia|by constructor].
    + destruct IH as [z Hz]. destruct (wi_distance _ _ Hw _ z Hz) as (j & Hj & _ & Hat).
      pose proof (proj1 Hat) as [e' He'].
      destruct (decide (j = d)) as [->|Hne]; [by destruct (Hnone (effective_target edge))|].
      eapply (wi_complete _ _ Hw (S j)); [lia|by apply derives_step].
  - apply (wi_evidence _ _ Hw).
  - apply (wi_domain _ _ Hw).
Qed.
Lemma btree_keys_elem {V} (m : gmap Z V) n : n ∈ btree_keys m ↔ is_Some (m !! n).
Proof.
  unfold btree_keys. rewrite sort_z_perm, list_elem_of_fmap. split.
  - intros ([k v] & -> & Hin%elem_of_map_to_list). by exists v.
  - intros [v Hv]. exists (n, v). split; [done|]. by apply elem_of_map_to_list.
Qed.
Lemma walk_layers_inv rounds : ∀ d w frontier,
  walk_inv d w → frontier_inv d frontier →
  walk_inv (d + rounds) (walk_layers edges labels rounds (Z.of_nat d) w frontier).
Proof.
  induction rounds as [|rounds IH]; intros d w frontier Hw Hf; cbn [walk_layers].
  { by rewrite Nat.add_0_r. }
  rewrite visit_frontier. cbn [fst snd].
  pose proof (walk_inv_step d w frontier Hw Hf) as Hstep.
  pose proof (candidate_some d w frontier Hw Hf) as Hsome.
  set (candidates := foldl put ∅ _) in *.
  destruct (btree_keys candidates) as [|n ns] eqn:Hkeys.
  - apply (walk_inv_more (S d)); [apply Hstep| |lia]. intros n [c Hc]%Hsome.
    eapply elem_of_nil. rewrite <-Hkeys. apply btree_keys_elem. by exists c.
  - rewrite <-Hkeys, <-Nat.add_succ_comm. replace (Z.of_nat d + 1) with (Z.of_nat (S d)) by lia.
    apply IH.
    + replace (Z.of_nat (S d)) with (Z.of_nat d + 1) by lia. apply Hstep.
    + intros m. by rewrite btree_keys_elem.
Qed.
Lemma walk_start v :
  walk_inv 0 {| walk_distances := (λ _, 0) <$> seeds; walk_evidence := seeds; visited_edge_count := v |}
  ∧ frontier_inv 0 (btree_keys seeds).
Proof.
  assert (∀ n e, derives 0 n e ↔ seeds !! n = Some e) as H0.
  { intros n e. split; [by inversion 1|by constructor]. }
  assert (∀ n, at_distance 0 n ↔ is_Some (seeds !! n)) as Hat.
  { intros n. unfold at_distance. setoid_rewrite H0. split; [by intros [? _]|].
    intros He. split; [done|lia]. }
  split; [split; cbn|].
  - intros n z. rewrite lookup_fmap. destruct (seeds !! n) eqn:Hn; [|done]. intros [= <-].
    exists 0%nat. rewrite Hat, Hn. eauto.
  - intros k n e Hk He. assert (k = 0%nat) as -> by lia. apply H0 in He.
    rewrite lookup_fmap, He. cbn. eauto.
  - intros n k. rewrite lookup_fmap. destruct (seeds !! n) as [e|] eqn:Hn; [|done]. cbn. intros [= Hk].
    assert (k = 0%nat) as -> by lia. exists e. split; [done|]. split; [by apply H0|].
    intros e' He'%H0. right. assert (e = e') as -> by congruence. split; [done|lia].
  - intros n. rewrite lookup_fmap. by destruct (seeds !! n).
  - intros n. by rewrite btree_keys_elem, Hat.
Qed.
Lemma reverse_walk_inv depth :
  walk_inv (Z.to_nat depth) (affected_reverse_walk edges labels depth seeds).
Proof. destruct (walk_start 0) as [Hw Hf]. apply (walk_layers_inv _ 0 _ _ Hw Hf). Qed.
End Derivations.

(** [C13] The walk over the dependents of changed code reaches exactly the nodes whose shortest
    path to a seed has at most [depth] edges, at that distance; the evidence it keeps for a
    node is that of such a shortest path, and no other shortest path gives better evidence:
    a path from a changed file beats one from a renamed file's previous identity, and then
    the path with the stronger weakest edge wins. *)
Theorem reverse_walk_exact edges labels depth seeds n :
  0 <= depth →
  let w := affected_reverse_walk edges labels depth seeds in
  (∀ z, walk_distances w !! n = Some z ↔
        ∃ k, z = Z.of_nat k ∧ z <= depth ∧ at_distance edges labels seeds k n) ∧
  (∀ k, walk_distances w !! n = Some (Z.of_nat k) →
        ∃ e, walk_evidence w !! n = Some e ∧ best_at edges labels seeds k n e) ∧
  (walk_distances w !! n = None → walk_evidence w !! n = None).
Proof.
  intros Hd w. pose proof (reverse_walk_inv edges labels seeds depth) as Hw. split; [|split].
  - intros z. split.
    + intros (k & Hk & -> & Hat)%(wi_distance _ _ _ _ _ Hw). exists k. split; [done|]. split; [lia|done].
    + intros (k & -> & Hk & Hat). apply (wi_at _ _ _ _ _ _ _ Hw); [lia|done].
  - apply (wi_evidence _ _ _ _ _ Hw).
  - apply (wi_domain _ _ _ _ _ Hw).
Qed.

(** ** The order of the edge table *)
Lemma indexed_into_edges_perm edges edges' n :
  edges ≡ₚ edges' → indexed_into edges n ≡ₚ indexed_into edges' n.
Proof. intros H. rewrite !indexed_into_perm. by apply into_perm. Qed.
Lemma round_perm edges edges' labels next distances evidence frontier acc :
  edges ≡ₚ edges' → acc.1 = ∅ →
  foldl (visit_node edges labels next distances evidence) acc frontier =
  foldl (visit_node edges' labels next distances evidence) acc frontier.
Proof.
  intros Hp Hacc. rewrite !visit_frontier, Hacc. f_equal.
  - apply map_eq. intros k. rewrite !put_lookup.
    apply (least_of_perm _ evidence_cmp_eq), values_of_perm.
    induction frontier as [|n frontier IH]; [done|]. cbn. rewrite IH. apply Permutation_app; [|done].
    unfold node_offers. destruct (evidence !! n); [|done]. unfold offers.
    by apply omap_Permutation, indexed_into_edges_perm.
  - f_equal. induction frontier as [|n frontier IH]; [done|]. cbn. rewrite IH. f_equal.
    unfold node_visits. destruct (evidence !! n); [|done].
    by apply Permutation_length, indexed_into_edges_perm.
Qed.

(** The order of the stored edges has no influence on the walk: any permutation of them
    gives the same distances, the same evidence and the same count of visited edges. *)
Theorem reverse_walk_order edges edges' labels depth seeds :
  edges ≡ₚ edges' →
  affected_reverse_walk edges labels depth seeds = affected_reverse_walk edges' labels depth seeds.
Proof.
  intros Hp. unfold affected_reverse_walk. generalize (btree_keys seeds) as frontier.
  generalize 0 at 1 4 as d.
  generalize {| walk_distances := (λ _, 0) <$> seeds; walk_evidence := seeds;
                visited_edge_count := 0 |} as w.
  induction (Z.to_nat depth) as [|rounds IH]; intros w d frontier; [done|]. cbn [walk_layers].
  rewrite (round_perm edges edges') by done. destruct (foldl _ _ frontier) as [m v].
  destruct (btree_keys m); [done|]. apply IH.
Qed.

(** ** A sample: two callers of a changed function, and a caller of both *)
Module WalkSample.
Definition edge (id source target : Z) (certainty : option ResolutionCertainty) : Edge :=
  {| edge_id := id; edge_source := source; edge_target := target; edge_kind := EdgeKind.CALL;
     edge_file_node_id := None; edge_line := None; edge_resolved_source := None;
     edge_resolved_target := None; edge_confidence := None; edge_certainty := certainty;
     edge_callsite_identity := None; edge_candidate_targets := [] |}.
Definition edges : list Edge :=
  [edge 1 2 1 (Some Uncertain); edge 2 3 1 (Some Certain); edge 3 4 2 (Some Certain);
   edge 4 4 3 (Some Certain)].
Definition seeds : gmap Z AffectedGraphEvidence :=
  {[1 := evidence_seed 1 changed_file_reason (floor_from_label (lit "direct")) false]}.
(** The caller of both is reached through the certain call. *)
Example best_path :
  (walk_distances (affected_reverse_walk edges ∅ 2 seeds) !! 4,
   (λ e, floor_label (ev_confidence_floor e)) <$>
     walk_evidence (affected_reverse_walk edges ∅ 2 seeds) !! 4) = (Some 2, Some (lit "certain")).
Proof. vm_compute. reflexivity. Qed.
End WalkSample.

Lemma reverse_walk_exact_witness :
  0 <= 2 ∧ ∃ e, walk_evidence (affected_reverse_walk WalkSample.edges ∅ 2 WalkSample.seeds) !! 4 = Some e
                ∧ best_at WalkSample.edges ∅ WalkSample.seeds 2 4 e.
Proof.
  split; [lia|].
  destruct (reverse_walk_exact WalkSample.edges ∅ 2 WalkSample.seeds 4 ltac:(lia)) as (_ & H & _).
  apply H. vm_compute. reflexivity.
Defined.
Lemma reverse_walk_order_witness :
  WalkSample.edges ≡ₚ reverse WalkSample.edges ∧
  affected_reverse_walk WalkSample.edges ∅ 2 WalkSample.seeds =
  affected_reverse_walk (reverse WalkSample.edges) ∅ 2 WalkSample.seeds.
Proof.
  split; [symmetry; apply reverse_Permutation|].
  apply (reverse_walk_order WalkSample.edges (reverse WalkSample.edges)).
  symmetry. apply reverse_Permutation.
Defined.
