(* ===== verification/AffectedReportProofs.v ===== *)
(** * What the impact lists contain

    The list of impacted symbols: every dependent within the depth unless the list was
    truncated, in order, with the evidence of the walk; the test files they are in.

    The second part: what an affected analysis claims. *)
From S2P Require Import Prelude RustStr RetrievalData Graph Sorting StrOps UnixPath Collections AffectedWalk.
From S2P Require Import AffectedWalkProofs AffectedImpacts WorkspacePaths AffectedMatching AffectedAnalysis.
From S2P Require Import AffectedAnalysis.

Lemma btree_items_elem {V} (m : gmap Z V) k v : (k, v) ∈ btree_items m ↔ m !! k = Some v.
Proof.
  unfold btree_items. rewrite list_elem_of_omap. split.
  - intros (k' & _ & Hk). destruct (m !! k') eqn:Hm; [|done]. by injection Hk as <- <-.
  - intros Hm. exists k. split; [apply btree_keys_elem; by exists v|by rewrite Hm].
Qed.

#[export] Instance symbol_cmp_laws : CmpLaws (λ _, True) symbol_cmp.
Proof.
  unfold symbol_cmp. repeat apply then_with_laws; apply on_laws; try apply _.
  apply option_cmp_laws, _.
Qed.

Section Symbols.
Context (distances : gmap Z Z) (evidence : gmap Z AffectedGraphEvidence)
  (graph : AffectedGraphIndex) (filter : option str).
Let impacts := affected_symbol_impacts distances evidence graph filter.
Definition reached_symbol (s : AffectedSymbolDto) : Prop :=
  ∃ n d, distances !! n = Some d ∧ impacted_symbol evidence graph filter n d = Some s.
Definition all_symbols : list AffectedSymbolDto :=
  omap (λ kd, impacted_symbol evidence graph filter kd.1 kd.2) (btree_items distances).

Lemma all_symbols_elem s : s ∈ all_symbols ↔ reached_symbol s.
Proof.
  unfold all_symbols, reached_symbol. rewrite list_elem_of_omap. split.
  - intros ([n d] & Hin%btree_items_elem & Hs). eauto.
  - intros (n & d & Hd & Hs). exists (n, d). split; [by apply btree_items_elem|done].
Qed.
Lemma sorted_symbols_elem s : s ∈ sort_by (cmp_leb symbol_cmp) all_symbols ↔ reached_symbol s.
Proof. by rewrite sort_by_perm, all_symbols_elem. Qed.
Lemma take_then_drop {A} (R : A → A → Prop) n (l : list A) a b :
  StronglySorted R l → a ∈ take n l → b ∈ drop n l → R a b.
Proof.
  rewrite <-(take_drop n l) at 1. generalize (take n l) as l1, (drop n l) as l2.
  intros l1 l2. induction l1 as [|x l1 IH]; cbn; intros Hs Ha Hb; [by apply elem_of_nil in Ha|].
  apply StronglySorted_inv in Hs as [Hs Hx]. apply elem_of_cons in Ha as [->|Ha]; [|by apply IH].
  rewrite Forall_forall in Hx. apply Hx, elem_of_app. by right.
Qed.
Lemma sign_counts (l : list AffectedSymbolDto) :
  Forall (λ s, 0 <= sym_distance s) l →
  len (List.filter (λ s, sym_distance s =? 0) l) + len (List.filter (λ s, 0 <? sym_distance s) l)
  = len l.
Proof.
  unfold len. induction 1 as [|s l Hs _ IH]; [done|]. cbn [List.filter].
  destruct (Z.eqb_spec (sym_distance s) 0), (Z.ltb_spec 0 (sym_distance s)); cbn [length]; lia.
Qed.
End Symbols.

Lemma symbol_impacts_complete distances evidence graph filter s :
  si_truncated (affected_symbol_impacts distances evidence graph filter) = false →
  reached_symbol distances evidence graph filter s →
  s ∈ si_symbols (affected_symbol_impacts distances evidence graph filter).
Proof.
  cbn [affected_symbol_impacts si_truncated si_symbols].
  fold (all_symbols distances evidence graph filter).
  intros Hlen%Z.ltb_ge Hs%sorted_symbols_elem. rewrite take_ge; [done|]. unfold len in Hlen. lia.
Qed.

(** The impacted symbols are the reached symbols in order, at most two hundred: when
    the list says it was truncated the omitted ones come after all of those listed, otherwise
    it has all of them; directly and indirectly affected symbols add up to the total. *)
Theorem symbol_impacts_spec distances evidence graph filter :
  let r := affected_symbol_impacts distances evidence graph filter in
  let reached := reached_symbol distances evidence graph filter in
  (∀ s, s ∈ si_symbols r → reached s) ∧
  (si_truncated r = false → ∀ s, reached s → s ∈ si_symbols r) ∧
  (∀ s s', s ∈ si_symbols r → reached s' → s' ∉ si_symbols r → cmp_leb symbol_cmp s s' = true) ∧
  sorted_by (cmp_leb symbol_cmp) (si_symbols r) ∧
  len (si_symbols r) <= 200 ∧ (si_truncated r = true ↔ 200 < si_total r) ∧
  (map_Forall (λ _ d, 0 <= d) distances → si_direct_count r + si_propagated_count r = si_total r).
Proof.
  cbv zeta. cbn [affected_symbol_impacts si_symbols si_truncated si_total si_direct_count
    si_propagated_count].
  fold (all_symbols distances evidence graph filter).
  pose proof (sorted_symbols_elem distances evidence graph filter) as Helem.
  set (sorted := sort_by _ (all_symbols _ _ _ _)) in *.
  assert (sorted_by (cmp_leb symbol_cmp) sorted) as Hsorted.
  { apply (cmp_sorted (λ _, True) symbol_cmp). by apply Forall_forall. }
  pose proof (take_drop 200 sorted) as Hcut.
  split; [|split; [|split; [|split; [|split; [|split]]]]].
  - intros s Hs. apply Helem. rewrite <-Hcut. apply elem_of_app. by left.
  - intros Hlen s Hs. by apply symbol_impacts_complete.
  - intros s s' Hs Hs'%Helem Hno. rewrite <-Hcut in Hs'. apply elem_of_app in Hs' as [?|Hs']; [done|].
    by apply (take_then_drop (λ a b, cmp_leb symbol_cmp a b = true) 200 sorted).
  - unfold sorted_by in *. rewrite <-Hcut in Hsorted. by apply StronglySorted_app_1_l in Hsorted.
  - unfold len. rewrite length_take. lia.
  - apply Z.ltb_lt.
  - intros Hpos. rewrite sign_counts.
    + unfold sorted, len. by rewrite sort_by_perm.
    + apply Forall_forall. intros s (n & d & Hd & Hs)%all_symbols_elem.
      specialize (Hpos n d Hd). unfold impacted_symbol in Hs.
      destruct (gi_nodes_by_id graph !! n); [|done]. cbn in Hs.
      destruct (bool_decide _); [done|]. destruct (filtered_out _ _ _ _); [done|]. by injection Hs as <-.
Qed.

(** * What an affected analysis claims

    A request is accepted exactly when its records are well formed; an analysis that calls
    itself complete covers every changed path and lists every symbol the walk reached. *)
(** ** Requests *)
Definition valid_record (r : AffectedChangeRecordDto) : Prop :=
  trim (cr_path r) ≠ [] ∧
  ∀ p, cr_previous_path r = Some p → trim p ≠ [] ∧ is_rename_or_copy (cr_kind r) = true.
Definition trimmed_record (r : AffectedChangeRecordDto) : AffectedChangeRecordDto :=
  mkChangeRecord (trim (cr_path r)) (cr_kind r) (cr_status r) (trim <$> cr_previous_path r).

Lemma mapM_result {A B E} (f : A → result E B) (g : A → B) (P : A → Prop) (Q : E → Prop) :
  (∀ a, P a → f a = Ok (g a)) → (∀ a, ¬ P a → ∃ e, f a = Err e ∧ Q e) → (∀ a, Decision (P a)) →
  ∀ l, (Forall P l ∧ mapM f l = Ok (g <$> l)) ∨ (¬ Forall P l ∧ ∃ e, mapM f l = Err e ∧ Q e).
Proof.
  intros Hok Herr Hdec l. induction l as [|a l IH]; [by left|]. cbn [mapM]. destruct (Hdec a) as [Ha|Ha].
  - rewrite (Hok a Ha). cbn. destruct IH as [[Hl ->]|[Hl (e & -> & He)]].
    + left. by split; [constructor|].
    + right. split; [by intros [_ ?]%Forall_cons|by exists e].
  - destruct (Herr a Ha) as (e & -> & He). right. split; [by intros [? _]%Forall_cons|by exists e].
Qed.
#[export] Instance valid_record_dec r : Decision (valid_record r).
Proof.
  unfold valid_record. apply and_dec; [apply _|].
  destruct (cr_previous_path r) as [p|].
  - destruct (decide (trim p ≠ [] ∧ is_rename_or_copy (cr_kind r) = true)) as [H|H].
    + left. by intros ? [= <-].
    + right. intros Hn. by apply H, Hn.
  - by left.
Defined.
Lemma normalized_record_valid r : valid_record r → normalized_record r = Ok (trimmed_record r).
Proof.
  intros [Hp Hprev]. unfold normalized_record, trimmed_record, normalized_previous_path.
  destruct (trim (cr_path r)); [done|]. destruct (cr_previous_path r) as [p|]; [|done].
  destruct (Hprev p eq_refl) as [Hne Hk]. cbn. destruct (trim p); [done|]. by rewrite Hk.
Qed.
Lemma normalized_record_invalid r : ¬ valid_record r →
  ∃ e, normalized_record r = Err e ∧ api_code e = lit "invalid_argument".
Proof.
  intros Hno. unfold normalized_record, normalized_previous_path. destruct (trim (cr_path r)) eqn:Hp; [eauto|].
  destruct (cr_previous_path r) as [p|] eqn:Hprev; cbn.
  - destruct (trim p) eqn:Ht; cbn; [eauto|]. destruct (is_rename_or_copy (cr_kind r)) eqn:Hk; cbn; [|eauto].
    destruct Hno. split; [by rewrite Hp|]. rewrite Hprev. intros ? [= <-]. by rewrite Ht.
  - destruct Hno. split; [by rewrite Hp|by rewrite Hprev].
Qed.

Lemma normalized_path_valid p : trim p ≠ [] → normalized_path p = Ok (trim p).
Proof. unfold normalized_path. by destruct (trim p). Qed.
Lemma normalized_path_invalid p : ¬ trim p ≠ [] →
  ∃ e, normalized_path p = Err e ∧ api_code e = lit "invalid_argument".
Proof. intros Hp. unfold normalized_path. destruct (trim p); [eauto|by destruct Hp]. Qed.

(** A request is accepted exactly when it has between one and two hundred entries, every
    path is non-empty after trimming, and a previous path is non-empty and belongs to a rename
    or a copy; then paths and records are those given, trimmed, in their order. *)
Theorem normalized_input_spec input :
  let records := match input with Paths ps => path_record <$> ps | ChangeRecords rs => rs end in
  if decide (1 <= len records <= 200 ∧ Forall valid_record records)
  then normalized_affected_input input =
       Ok ((λ r, trim (cr_path r)) <$> records, trimmed_record <$> records)
  else ∃ e, normalized_affected_input input = Err e ∧ api_code e = lit "invalid_argument".
Proof.
  unfold normalized_affected_input. destruct input as [ps|rs].
  - unfold len. rewrite length_fmap. fold (len ps).
    destruct (mapM_result normalized_path trim (λ p, trim p ≠ []) (λ e, api_code e = lit "invalid_argument")
      normalized_path_valid normalized_path_invalid _ ps) as [[Hall Hm]|[Hall (e & Hm & He)]].
    + assert (Forall valid_record (path_record <$> ps)) as Hv.
      { apply Forall_fmap. eapply Forall_impl; [exact Hall|]. by intros p Hp. }
      rewrite Hm. destruct (decide _) as [[Hlen _]|Hno].
      * rewrite (proj2 (Z.leb_le 1 _)), (proj2 (Z.leb_le _ 200)) by lia. cbn.
        by rewrite <-!list_fmap_compose.
      * destruct (Z.leb_spec 1 (len ps)), (Z.leb_spec (len ps) 200); cbn; eauto. destruct Hno.
        split; [lia|done].
    + rewrite decide_False; [|intros [_ Hv]; apply Hall].
      * destruct (_ && _); cbn; [|eauto]. rewrite Hm. cbn. eauto.
      * rewrite Forall_fmap in Hv. eapply Forall_impl; [exact Hv|]. by intros p [Hp _].
  - destruct (mapM_result normalized_record trimmed_record valid_record
      (λ e, api_code e = lit "invalid_argument")
      normalized_record_valid normalized_record_invalid _ rs) as [[Hall Hm]|[Hall (e & Hm & He)]].
    + rewrite Hm. destruct (decide _) as [[Hlen _]|Hno].
      * rewrite (proj2 (Z.leb_le 1 _)), (proj2 (Z.leb_le _ 200)) by lia. cbn.
        by rewrite <-list_fmap_compose.
      * destruct (Z.leb_spec 1 (len rs)), (Z.leb_spec (len rs) 200); cbn; eauto. destruct Hno.
        split; [lia|done].
    + rewrite decide_False by tauto. destruct (_ && _); cbn; [|eauto]. rewrite Hm. cbn. eauto.
Qed.

(** ** Completeness *)
Section Complete.
Context `{!Workspace} `{!Controller}.
Context {RouteEndpointMetadataDto : Type} `{!RouteEndpoints RouteEndpointMetadataDto}.

Lemma mapM_length {A B E} (f : A → result E B) l k : mapM f l = Ok k → length k = length l.
Proof.
  revert k. induction l as [|a l IH]; intros k; cbn [mapM].
  - by intros [= <-].
  - intros (b & Hb & (k' & Hk & [= <-])%bind_Ok)%bind_Ok. cbn. by rewrite (IH k').
Qed.
Lemma prepared_lengths req prepared :
  prepare_affected_request req = Ok prepared →
  length (pr_resolved_inputs prepared) = length (pr_change_records prepared) ∧
  1 <= pr_depth prepared <= 8.
Proof.
  intros (? & _ & (root & _ & ([paths records] & _ & (resolved & Hm & [= <-])%bind_Ok)%bind_Ok)%bind_Ok)%bind_Ok.
  cbn. split; [by apply mapM_length in Hm|]. unfold clamp.
  destruct (Z.ltb_spec (default 2 (req_depth req)) 1); [lia|].
  destruct (Z.ltb_spec 8 (default 2 (req_depth req))); lia.
Qed.

(** The walk and the graph an analysis uses. *)
Definition analysis_inputs (prepared : PreparedAffectedRequest) (state : AffectedStoredState)
  : AffectedClassifiedInputs :=
  classify_affected_inputs (pr_root prepared) (pr_change_records prepared)
    (pr_resolved_inputs prepared) (st_files state) (st_errors_by_file state) (st_freshness state)
    (st_identity_matches state).
Definition analysis_graph (prepared : PreparedAffectedRequest) (state : AffectedStoredState)
  : AffectedGraphIndex :=
  affected_graph_index node_names (pr_root prepared) (st_files state) (st_nodes state).
Definition analysis_seeds (prepared : PreparedAffectedRequest) (state : AffectedStoredState)
  : gmap Z AffectedGraphEvidence :=
  affected_graph_seeds (ci_graph_seed_file_ids (analysis_inputs prepared state))
    (ci_previous_seed_evidence (analysis_inputs prepared state))
    (gi_node_ids_by_file (analysis_graph prepared state)).
Definition analysis_walk (prepared : PreparedAffectedRequest) (state : AffectedStoredState)
  : AffectedReverseWalk :=
  affected_reverse_walk (st_edges state) (gi_labels (analysis_graph prepared state))
    (pr_depth prepared) (analysis_seeds prepared state).
(** A matched file is indexed without errors, and its index is known to be current. *)
Definition covered_file (state : AffectedStoredState) (file : FileInfo) : Prop :=
  fi_indexed file = true ∧ fi_complete file = true ∧
  default 0 (st_errors_by_file state !! fi_id file) <= 0 ∧
  (∀ identity, indexed_identity_by_file_id (st_identity_matches state) !! fi_id file = Some identity →
     identity_is_stale (st_freshness state) identity = false) ∧
  freshness_available (st_freshness state) = true.

Lemma uncovered_none context errors records identities file :
  uncovered_match context identities (fi_id file, matched_file_dto context errors records file) = None →
  fi_indexed file = true ∧ fi_complete file = true ∧ default 0 (errors !! fi_id file) <= 0 ∧
  file_is_stale context identities (fi_id file) = false ∧
  freshness_available (cx_freshness context) = true.
Proof.
  unfold uncovered_match, classify_matched_affected_input. cbn [fst snd matched_file_dto
    mf_error_count mf_indexed mf_complete].
  destruct (Z.ltb_spec 0 (default 0 (errors !! fi_id file))); [done|].
  destruct (file_is_stale _ _ _); [done|]. destruct (freshness_available _); [|done].
  destruct (fi_indexed file), (fi_complete file); done.
Qed.
Lemma omap_nil_all {A B} (f : A → option B) l x : omap f l = [] → x ∈ l → f x = None.
Proof.
  intros Hnil Hx. destruct (f x) as [y|] eqn:Hy; [|done].
  assert (y ∈ omap f l) as Hin by (apply list_elem_of_omap; by exists x).
  rewrite Hnil in Hin. by apply elem_of_nil in Hin.
Qed.
Lemma matched_all_covered prepared state :
  mc_uncovered (classify_matched_affected_files
    (mkContext (pr_root prepared) (pr_change_records prepared) (st_freshness state))
    (st_files state) (st_errors_by_file state) (matched_file_ids (st_identity_matches state))
    (matched_record_index_by_file_id (st_identity_matches state))
    (indexed_identity_by_file_id (st_identity_matches state))) = [] →
  ∀ file, file ∈ st_files state → fi_id file ∈ matched_file_ids (st_identity_matches state) →
  covered_file state file.
Proof.
  cbn [classify_matched_affected_files mc_uncovered]. intros Hnil file Hin Hm.
  destruct (uncovered_none (mkContext (pr_root prepared) (pr_change_records prepared) (st_freshness state))
    (st_errors_by_file state) (matched_record_index_by_file_id (st_identity_matches state))
    (indexed_identity_by_file_id (st_identity_matches state)) file) as (H1 & H2 & H3 & H4 & H5).
  { apply (omap_nil_all _ _ _ Hnil). rewrite sort_by_perm. apply list_elem_of_fmap.
    exists file. split; [done|]. rewrite list_elem_of_In, List.filter_In, <-list_elem_of_In.
    by rewrite bool_decide_eq_true. }
  split; [done|]. split; [done|]. split; [done|]. split; [|done].
  intros identity Hid. unfold file_is_stale in H4. by rewrite Hid in H4.
Qed.
Lemma unmatched_none context resolved matches :
  length resolved = length (cx_records context) →
  (classify_unmatched_affected_paths context resolved matches).1 = [] →
  ∀ i, (i < length (cx_records context))%nat → matched_record_flags matches !! i = Some true.
Proof.
  intros Hlen Hnil i Hi. cbn in Hnil. apply fmap_nil_inv in Hnil.
  destruct (lookup_lt_is_Some_2 _ _ Hi) as [record Hr].
  destruct (lookup_lt_is_Some_2 resolved i) as [input Hin]; [lia|].
  pose proof (omap_nil_all _ _ (i, record) Hnil) as Hcase. cbn in Hcase.
  destruct (matched_record_flags matches !! i) as [[]|] eqn:Hflag; [done|..];
    cbn in Hcase; rewrite Hin in Hcase; by specialize (Hcase (proj2 (imap_pair_elem _ _ _) Hr)).
Qed.

(** [C3] When an analysis calls itself complete, every changed path is an indexed file; every
    matched file was indexed completely, without errors, and is known to be up to date;
    nothing is left uncovered and the list of impacted symbols has every symbol the walk over
    the dependents reached.  Its confidence is complete in this case only. *)
Theorem complete_analysis_covers req dto :
  affected_analysis req = Ok dto →
  (confidence (da_completeness dto) = lit "complete" ↔ complete (da_completeness dto) = true) ∧
  (complete (da_completeness dto) = true →
   da_uncovered_inputs dto = [] ∧ da_unmatched_paths dto = [] ∧
   ∃ prepared state,
     prepare_affected_request req = Ok prepared ∧
     load_affected_state (pr_root prepared) (pr_change_records prepared) = Ok state ∧
     (∀ i, (i < length (da_change_records dto))%nat →
           matched_record_flags (st_identity_matches state) !! i = Some true) ∧
     (∀ file, file ∈ st_files state → fi_id file ∈ matched_file_ids (st_identity_matches state) →
              covered_file state file) ∧
     (∀ s, reached_symbol (walk_distances (analysis_walk prepared state))
             (walk_evidence (analysis_walk prepared state)) (analysis_graph prepared state)
             (pr_filter prepared) s → s ∈ da_impacted_symbols dto)).
Proof.
  intros (prepared & Hprep & (state & Hload & [= <-])%bind_Ok)%bind_Ok.
  cbn [da_completeness da_uncovered_inputs da_unmatched_paths da_change_records da_impacted_symbols].
  fold (analysis_graph prepared state). fold (analysis_inputs prepared state).
  fold (analysis_seeds prepared state). fold (analysis_walk prepared state).
  cbn [complete_affected_analysis co_completeness compose_affected_completeness complete confidence
    in_uncovered_input_count in_truncation_reasons in_gap_composition in_freshness_affects_claim].
  set (composition := compose_affected_evidence_gaps _ _).
  set (symbols := affected_symbol_impacts _ _ _ _). set (routes := affected_route_impacts _ _ _ _).
  split.
  { destruct (_ && _ && gap_free composition && _) eqn:Hc; [done|]. split; [|done].
    unfold composition_confidence. by destruct (gap_free composition). }
  intros [[[Hun%Z.eqb_eq Htr]%andb_prop _]%andb_prop _]%andb_prop.
  assert (ci_uncovered_inputs (analysis_inputs prepared state) = []) as Hnil.
  { change (len (ci_uncovered_inputs (analysis_inputs prepared state)) = 0) in Hun.
    apply length_zero_iff_nil. unfold len in Hun. lia. }
  pose proof Hnil as Hsplit. unfold analysis_inputs, classify_affected_inputs in Hsplit.
  destruct (classify_unmatched_affected_paths _ _ _) as [unmatched gap] eqn:Hunm.
  cbn [ci_uncovered_inputs] in Hsplit. apply app_nil in Hsplit as [Hu%fmap_nil_inv Hm].
  split; [done|]. split.
  { change (ci_unmatched_paths (analysis_inputs prepared state) = []).
    unfold analysis_inputs, classify_affected_inputs. by rewrite Hunm. }
  exists prepared, state. split; [done|]. split; [done|]. split; [|split].
  - apply (unmatched_none (mkContext (pr_root prepared) (pr_change_records prepared) (st_freshness state))
      (pr_resolved_inputs prepared)); [by apply prepared_lengths in Hprep as [? _]|].
    by rewrite Hunm.
  - by apply (matched_all_covered prepared).
  - intros s Hs. apply symbol_impacts_complete; [|done].
    unfold symbols, symbol_truncation in Htr. fold symbols in Htr |- *.
    destruct (si_truncated symbols); [|done]. by destruct (route_truncation routes).
Qed.
End Complete.

(** ** A sample: a changed file with one function, called from another file *)
Module AnalysisSample.
Definition node (id : Z) (kind : NodeKind) (name : str) (file : option Z) : Node :=
  {| node_id := id; node_kind := kind; node_serialized_name := name; node_qualified_name := None;
     node_canonical_id := None; node_file_node_id := file; node_start_line := None;
     node_start_col := None; node_end_line := None; node_end_col := None |}.
Definition file (id : Z) (path : str) : FileInfo :=
  mkFileInfo id path (lit "rust") 0 true true 1 FileRole.Source.
Definition storage : ReadStorage :=
  {| get_files := Ok [file 10 (lit "/r/a.rs"); file 20 (lit "/r/tests/b.rs")];
     get_nodes := Ok [node 10 NodeKind.FILE (lit "a.rs") None; node 20 NodeKind.FILE (lit "b.rs") None;
                      node 11 NodeKind.FUNCTION (lit "f") (Some 10);
                      node 21 NodeKind.FUNCTION (lit "g") (Some 20)];
     get_edges := Ok [WalkSample.edge 1 21 11 (Some Certain)];
     get_errors := Ok [] |}.
#[export] Instance workspace : Workspace :=
  {| affected_path_metadata _ := Metadata.RegularFile;
     workspace_relative_path root path := path_strip_prefix path root;
     indexable_source_path path := ends_with path (lit ".rs") |}.
#[export] Instance controller : Controller :=
  {| is_indexing := false; require_project_root := Ok (lit "/r");
     resolve_project_file_path path := Ok (path_join (lit "/r") path); node_names := ∅;
     open_storage_read_only := Ok storage; open_workspace _ := Ok ();
     index_freshness_observation index :=
       (mkObservation (mkFreshness IndexFreshnessStatusDto.Fresh None) true [] [] 0 None, index);
     native_identity _ path := Ok (MissingUnix (components path)) |}.
#[export] Instance routes : RouteEndpoints () :=
  {| route_endpoint_metadata _ _ _ := None; route_confidence _ := None |}.
Definition request : AffectedAnalysisRequest := mkRequest (Paths [lit " a.rs "]) None None.
Definition summary : option (bool * list (str * Z * str) * list (str * Z)) :=
  (λ dto, (complete (da_completeness dto),
           (λ s, (sym_display_name s, sym_distance s, sym_confidence s)) <$> da_impacted_symbols dto,
           (λ t, (test_path t, test_distance t)) <$> da_impacted_tests dto))
    <$> result_ok (affected_analysis request).
Example analysis_summary :
  summary = Some (true, [(lit "f", 0, lit "direct"); (lit "g", 1, lit "certain")],
                  [(lit "tests/b.rs", 1)]).
Proof. vm_compute. reflexivity. Qed.
End AnalysisSample.
#[local] Existing Instances AnalysisSample.workspace AnalysisSample.controller AnalysisSample.routes.

Lemma complete_analysis_covers_witness :
  ∃ dto, affected_analysis (RouteEndpointMetadataDto := ()) AnalysisSample.request = Ok dto ∧
         complete (da_completeness dto) = true ∧ da_unmatched_paths dto = [].
Proof.
  destruct (affected_analysis (RouteEndpointMetadataDto := ()) AnalysisSample.request) as [dto|e] eqn:H;
    [|by vm_compute in H].
  exists dto. split; [done|].
  assert (complete (da_completeness dto) = true) as Hc.
  { pose proof AnalysisSample.analysis_summary as Hs. unfold AnalysisSample.summary in Hs.
    rewrite H in Hs. cbn in Hs. by injection Hs. }
  split; [done|]. by apply (complete_analysis_covers AnalysisSample.request dto H).
Defined.
