(* ===== verification/AffectedMatchProofs.v ===== *)
(** * The join of changed paths and indexed files

    The scans observe every spelling once and remember it; the buckets group the records by
    identity; the two passes over the buckets compute the join of records and files, with the
    least record of every file, in a number of visits linear in the two lists.

    The second part: what the matching of identities returns. *)
From S2P Require Import Prelude RustStr RetrievalData Graph Sorting StrOps UnixPath WorkspacePaths Collections.
From S2P Require Import AffectedWalk AffectedImpacts AffectedMatching.

(** ** Least indices *)
Definition least_rep (o : option nat) (P : nat → Prop) : Prop :=
  match o with
  | Some i => P i ∧ ∀ j, P j → (i <= j)%nat
  | None => ∀ j, ¬ P j
  end.
Definition min_option (a b : option nat) : option nat :=
  match a, b with
  | Some a, Some b => Some (Nat.min a b)
  | Some a, None => Some a
  | None, b => b
  end.
Lemma least_rep_or o o' (P Q : nat → Prop) :
  least_rep o P → least_rep o' Q → least_rep (min_option o o') (λ j, P j ∨ Q j).
Proof.
  destruct o as [i|], o' as [i'|]; cbn.
  - intros [Hi HP] [Hi' HQ]. split.
    + destruct (Nat.min_spec i i') as [[_ ->]|[_ ->]]; auto.
    + intros j [Hj|Hj]; [specialize (HP j Hj)|specialize (HQ j Hj)]; lia.
  - intros [Hi HP] HQ. split; [by left|]. intros j [Hj|Hj]; [by apply HP|by destruct (HQ j)].
  - intros HP [Hi' HQ]. split; [by right|]. intros j [Hj|Hj]; [by destruct (HP j)|by apply HQ].
  - intros HP HQ j [Hj|Hj]; [by apply (HP j)|by apply (HQ j)].
Qed.
Lemma least_rep_iff o (P Q : nat → Prop) : (∀ j, P j ↔ Q j) → least_rep o P → least_rep o Q.
Proof.
  intros HPQ. destruct o as [i|]; cbn; setoid_rewrite HPQ; done.
Qed.
Lemma least_rep_none (P : nat → Prop) : (∀ j, ¬ P j) → least_rep None P.
Proof. done. Qed.

Lemma min_insert_lookup m f i g :
  min_insert m f i !! g = if decide (g = f) then min_option (m !! g) (Some i) else m !! g.
Proof.
  unfold min_insert. destruct (decide (g = f)) as [->|Hne].
  - rewrite lookup_insert_eq. by destruct (m !! f).
  - by rewrite lookup_insert_ne by done.
Qed.

(** ** Buckets are groups *)
Definition position_of {V} (l : list (WorkspacePathIdentity * V)) (identity : WorkspacePathIdentity)
  : option nat := fst <$> list_find (λ kv, kv.1 = identity) l.
Lemma hm_push_position (l : list (WorkspacePathIdentity * list nat)) identity i :
  hm_push l identity i =
  match position_of l identity with
  | Some p => alter (λ b, (b.1, b.2 ++ [i])) p l
  | None => l ++ [(identity, [i])]
  end.
Proof.
  unfold hm_push, position_of. induction l as [|[id is_] l IH]; [done|].
  cbn [hm_get hm_insert list_find fst]. destruct (decide (id = identity)) as [->|Hne]; [done|].
  cbn [fmap option_fmap option_map]. destruct (list_find _ l) as [[p kv]|]; cbn in *; by rewrite IH.
Qed.
Definition positions_ok (b : AffectedOrderedIdentityBuckets) : Prop :=
  ∀ identity, hm_get (positions b) identity = position_of (buckets b) identity.
Lemma position_of_alter (l : list (WorkspacePathIdentity * list nat)) p f identity :
  (∀ b, (f b).1 = b.1) → position_of (alter f p l) identity = position_of l identity.
Proof.
  intros Hf. unfold position_of. revert p. induction l as [|kv l IH]; intros [|p]; cbn; try done.
  - rewrite Hf. by destruct (decide (kv.1 = identity)).
  - destruct (decide (kv.1 = identity)); [done|]. cbn. specialize (IH p).
    destruct (list_find _ (alter f p l)) as [[]|], (list_find _ l) as [[]|]; cbn in *; congruence.
Qed.
Lemma position_of_app {V} (l : list (WorkspacePathIdentity * V)) id v identity :
  position_of (l ++ [(id, v)]) identity =
  match position_of l identity with
  | Some p => Some p
  | None => if decide (id = identity) then Some (length l) else None
  end.
Proof.
  unfold position_of. induction l as [|kv l IH]; cbn.
  - by destruct (decide (id = identity)).
  - destruct (decide (kv.1 = identity)); [done|]. cbn.
    destruct (list_find _ (l ++ _)) as [[]|], (list_find _ l) as [[]|]; cbn in *;
      destruct (decide (id = identity)); congruence.
Qed.
Lemma bucket_push_group b identity i :
  positions_ok b →
  buckets (bucket_push b identity i) = hm_push (buckets b) identity i ∧
  positions_ok (bucket_push b identity i).
Proof.
  intros Hb. unfold bucket_push. rewrite hm_push_position, (Hb identity).
  destruct (position_of (buckets b) identity) as [p|] eqn:Hp; (split; [done|]); intros id; cbn [positions buckets].
  - rewrite position_of_alter by done. apply Hb.
  - rewrite hm_get_insert, position_of_app, (Hb id).
    destruct (decide (identity = id)) as [<-|]; [by rewrite Hp|].
    by destruct (position_of (buckets b) id).
Qed.

(** ** One bucket, in closed form *)
Definition mark (l : list bool) (js : list nat) : list bool := foldl (λ l i, <[i := true]> l) l js.
Definition counted (n : nat) (v : Z) : Z := Nat.iter n count_up v.
Definition insert_all (first : nat) (m : gmap Z nat) (fs : list Z) : gmap Z nat :=
  foldl (λ m f, min_insert m f first) m fs.
(** The records of a bucket whose current path did not match. *)
Definition eligible (matched : list bool) (js : list nat) : list nat :=
  List.filter (λ i, negb (default false (matched !! i))) js.

Lemma counted_S n v : counted (S n) v = counted n (count_up v).
Proof. unfold counted. induction n as [|n IH]; [done|]. cbn in *. by rewrite IH. Qed.
Lemma counted_app a b v : counted (a + b) v = counted a (counted b v).
Proof. apply Nat.iter_add. Qed.
Lemma counted_bound n v : 0 <= v → 0 <= counted n v <= v + Z.of_nat n.
Proof.
  intros Hv. assert (0 <= usize_max) as Hmax by done. unfold counted.
  induction n as [|n IH]; [change (Nat.iter 0 count_up v) with v; lia|].
  change (Nat.iter (S n) count_up v) with (count_up (Nat.iter n count_up v)).
  unfold count_up, saturating_add in *. lia.
Qed.
Lemma mark_length js : ∀ l, length (mark l js) = length l.
Proof.
  induction js as [|i js IH]; intros l; [done|]. cbn. fold (mark (<[i:=true]> l) js).
  rewrite IH. apply length_insert.
Qed.
Lemma mark_lookup js : ∀ l i,
  mark l js !! i = Some true ↔ (i ∈ js ∧ (i < length l)%nat) ∨ l !! i = Some true.
Proof.
  induction js as [|j js IH]; intros l i; cbn.
  - split; [by right|]. intros [[?%elem_of_nil _]|?]; done.
  - fold (mark (<[j:=true]> l) js). rewrite IH, length_insert, elem_of_cons.
    destruct (decide (i = j)) as [->|Hne].
    + destruct (decide (j < length l)%nat) as [Hlt|Hge].
      * rewrite list_lookup_insert_eq by done. tauto.
      * rewrite list_insert_ge by lia. tauto.
    + rewrite list_lookup_insert_ne by done. tauto.
Qed.
Lemma min_index_least js : ∀ o P,
  least_rep o P → least_rep (foldl min_index o js) (λ j, P j ∨ j ∈ js).
Proof.
  induction js as [|i js IH]; intros o P Ho; cbn.
  - apply (least_rep_iff _ P); [|done]. intros j. rewrite elem_of_nil. tauto.
  - eapply least_rep_iff; [|apply (IH _ (λ j, P j ∨ j = i))].
    + intros j. cbn. rewrite elem_of_cons. tauto.
    + change (min_index o i) with (Some (match o with Some c => Nat.min c i | None => i end)).
      replace (Some _) with (min_option o (Some i)) by (by destruct o).
      apply least_rep_or; [done|]. cbn. split; [done|]. intros j ->. done.
Qed.
Lemma first_least js : least_rep (foldl min_index None js) (λ j, j ∈ js).
Proof.
  eapply least_rep_iff; [|apply (min_index_least js None (λ _, False))]; [tauto|by intros j []].
Qed.
Lemma insert_all_lookup first fs : ∀ m g,
  insert_all first m fs !! g =
  if decide (g ∈ fs) then min_option (m !! g) (Some first) else m !! g.
Proof.
  induction fs as [|f fs IH]; intros m g; cbn.
  - by rewrite decide_False by apply not_elem_of_nil.
  - fold (insert_all first (min_insert m f first) fs). rewrite IH, min_insert_lookup.
    destruct (decide (g = f)) as [->|Hne].
    + rewrite (decide_True (P := f ∈ f :: fs)) by apply list_elem_of_here.
      destruct (decide (f ∈ fs)); [|done]. destruct (m !! f); cbn; f_equal; lia.
    + destruct (decide (g ∈ fs)) as [Hin|Hno].
      * by rewrite decide_True by by apply list_elem_of_further.
      * rewrite decide_False; [done|]. rewrite elem_of_cons. tauto.
Qed.

Lemma current_records js : ∀ j o,
  foldl join_current_record (j, o) js =
  (mkJoin (jn_matched_files j) (mark (jn_matched j) js) (jn_record_index j)
     (mark (jn_seeded j) js) (jn_previous_index j) (jn_bucket_visits j)
     (counted (length js) (jn_record_visits j)) (jn_file_visits j), foldl min_index o js).
Proof.
  induction js as [|i js IH]; intros j o; [by destruct j|]. cbn [foldl length].
  unfold join_current_record at 2. rewrite IH. cbn [fst snd jn_matched_files jn_matched
    jn_record_index jn_seeded jn_previous_index jn_bucket_visits jn_record_visits jn_file_visits].
  by rewrite counted_S.
Qed.
Lemma current_files first fs : ∀ j,
  foldl (join_current_file first) j fs =
  mkJoin (list_to_set fs ∪ jn_matched_files j) (jn_matched j)
    (insert_all first (jn_record_index j) fs) (jn_seeded j) (jn_previous_index j)
    (jn_bucket_visits j) (jn_record_visits j) (counted (length fs) (jn_file_visits j)).
Proof.
  induction fs as [|f fs IH]; intros j; cbn [foldl length list_to_set].
  { rewrite (left_id_L ∅ (∪)). by destruct j. }
  rewrite IH. unfold join_current_file. cbn [jn_matched_files jn_matched
    jn_record_index jn_seeded jn_previous_index jn_bucket_visits jn_record_visits jn_file_visits].
  rewrite counted_S. f_equal. set_solver.
Qed.
Lemma previous_records js : ∀ j o,
  foldl join_previous_record (j, o) js =
  (mkJoin (jn_matched_files j) (jn_matched j) (jn_record_index j)
     (mark (jn_seeded j) (eligible (jn_matched j) js)) (jn_previous_index j) (jn_bucket_visits j)
     (counted (length js) (jn_record_visits j)) (jn_file_visits j),
   foldl min_index o (eligible (jn_matched j) js)).
Proof.
  induction js as [|i js IH]; intros j o; [by destruct j|]. cbn [foldl length].
  unfold join_previous_record at 2. cbn [fst snd].
  unfold eligible. cbn [List.filter]. fold (eligible (jn_matched j) js).
  destruct (default false (jn_matched j !! i)); rewrite IH; cbn [fst snd jn_matched_files jn_matched
    jn_record_index jn_seeded jn_previous_index jn_bucket_visits jn_record_visits jn_file_visits];
    by rewrite counted_S.
Qed.
Lemma previous_files first fs : ∀ j,
  foldl (join_previous_file first) j fs =
  mkJoin (jn_matched_files j) (jn_matched j) (jn_record_index j) (jn_seeded j)
    (insert_all first (jn_previous_index j)
       (List.filter (λ f, negb (bool_decide (f ∈ jn_matched_files j))) fs))
    (jn_bucket_visits j) (jn_record_visits j) (counted (length fs) (jn_file_visits j)).
Proof.
  induction fs as [|f fs IH]; intros j; [by destruct j|]. cbn [foldl length List.filter].
  rewrite IH. unfold join_previous_file. cbn [jn_matched_files jn_matched
    jn_record_index jn_seeded jn_previous_index jn_bucket_visits jn_record_visits jn_file_visits].
  rewrite counted_S. f_equal. by destruct (bool_decide (f ∈ jn_matched_files j)).
Qed.

(** ** The two passes over the buckets *)
Section Join.
Context (files_by_identity : list (WorkspacePathIdentity * list Z)) (records : nat).
Abbreviation Buckets := (list (WorkspacePathIdentity * list nat)).

(** A record and a file have the identity of one bucket. *)
Definition linked (bs : Buckets) (i : nat) (f : Z) : Prop :=
  ∃ id js fs, (id, js) ∈ bs ∧ i ∈ js ∧ hm_get files_by_identity id = Some fs ∧ f ∈ fs.
(** The identity of a record's bucket is that of some file. *)
Definition hit (bs : Buckets) (i : nat) : Prop :=
  ∃ id js fs, (id, js) ∈ bs ∧ i ∈ js ∧ hm_get files_by_identity id = Some fs.

Lemma linked_snoc bs id js i f :
  linked (bs ++ [(id, js)]) i f ↔
  linked bs i f ∨ i ∈ js ∧ ∃ fs, hm_get files_by_identity id = Some fs ∧ f ∈ fs.
Proof.
  unfold linked. setoid_rewrite elem_of_app. setoid_rewrite list_elem_of_singleton. split.
  - intros (id' & js' & fs & [Hin|[= -> ->]] & Hi & Hfs & Hf); [left|right]; eauto 8.
  - intros [(id' & js' & fs & Hin & Hi & Hfs & Hf)|(Hi & fs & Hfs & Hf)].
    + exists id', js', fs. auto.
    + exists id, js, fs. auto.
Qed.
Lemma hit_snoc bs id js i :
  hit (bs ++ [(id, js)]) i ↔ hit bs i ∨ i ∈ js ∧ is_Some (hm_get files_by_identity id).
Proof.
  unfold hit. setoid_rewrite elem_of_app. setoid_rewrite list_elem_of_singleton. split.
  - intros (id' & js' & fs & [Hin|[= -> ->]] & Hi & Hfs); [left|right]; eauto 8.
  - intros [(id' & js' & fs & Hin & Hi & Hfs)|(Hi & fs & Hfs)].
    + exists id', js', fs. auto.
    + exists id, js, fs. auto.
Qed.

Record current_inv (bs : Buckets) (j : JoinState) : Prop := {
  cu_length : length (jn_matched j) = records ∧ length (jn_seeded j) = records;
  cu_matched i : jn_matched j !! i = Some true ↔ (i < records)%nat ∧ hit bs i;
  cu_seeded i : jn_seeded j !! i = Some true ↔ (i < records)%nat ∧ hit bs i;
  cu_files f : f ∈ jn_matched_files j ↔ ∃ i, linked bs i f;
  cu_index f : least_rep (jn_record_index j !! f) (λ i, linked bs i f);
}.
(** A pass that visits a bucket without files, or without eligible records, keeps everything
    but the counters. *)
Definition same_join (j j' : JoinState) : Prop :=
  jn_matched_files j' = jn_matched_files j ∧ jn_matched j' = jn_matched j ∧
  jn_record_index j' = jn_record_index j ∧ jn_seeded j' = jn_seeded j ∧
  jn_previous_index j' = jn_previous_index j.

Lemma mark_hit l js id i (P : Prop) :
  length l = records → (l !! i = Some true ↔ (i < records)%nat ∧ P) →
  is_Some (hm_get files_by_identity id) →
  (mark l js !! i = Some true ↔
   (i < records)%nat ∧ (P ∨ i ∈ js ∧ is_Some (hm_get files_by_identity id))).
Proof. intros Hl Hi Hs. rewrite mark_lookup, Hi, Hl. tauto. Qed.

Lemma current_bucket_inv bs j id js :
  current_inv bs j →
  current_inv (bs ++ [(id, js)]) (join_current_bucket files_by_identity j (id, js)).
Proof.
  intros Hj. unfold join_current_bucket. cbn [fst snd].
  destruct (hm_get files_by_identity id) as [fs|] eqn:Hfs.
  2: { split; cbn.
    - apply (cu_length _ _ Hj).
    - intros i. rewrite (cu_matched _ _ Hj), hit_snoc, Hfs, is_Some_alt. tauto.
    - intros i. rewrite (cu_seeded _ _ Hj), hit_snoc, Hfs, is_Some_alt. tauto.
    - intros f. rewrite (cu_files _ _ Hj). setoid_rewrite linked_snoc. rewrite Hfs. naive_solver.
    - intros f. eapply least_rep_iff; [|apply (cu_index _ _ Hj)]. intros i.
      rewrite linked_snoc, Hfs. naive_solver. }
  rewrite current_records. cbn [visit_bucket jn_matched_files jn_matched jn_record_index jn_seeded
    jn_previous_index jn_bucket_visits jn_record_visits jn_file_visits].
  pose proof (first_least js) as Hfirst. destruct (foldl min_index None js) as [first|].
  2: { assert (js = []) as ->. { destruct js as [|i js]; [done|]. destruct (Hfirst i). apply list_elem_of_here. }
    split; cbn [visit_bucket jn_matched_files jn_matched jn_record_index jn_seeded mark foldl].
    - apply (cu_length _ _ Hj).
    - intros i. rewrite (cu_matched _ _ Hj), hit_snoc, elem_of_nil. tauto.
    - intros i. rewrite (cu_seeded _ _ Hj), hit_snoc, elem_of_nil. tauto.
    - intros f. rewrite (cu_files _ _ Hj). setoid_rewrite linked_snoc. setoid_rewrite elem_of_nil.
      naive_solver.
    - intros f. eapply least_rep_iff; [|apply (cu_index _ _ Hj)]. intros i.
      rewrite linked_snoc, elem_of_nil. tauto. }
  destruct Hfirst as [Hin Hmin]. destruct (cu_length _ _ Hj) as [Hl1 Hl2].
  rewrite current_files. split; cbn [jn_matched_files jn_matched jn_record_index jn_seeded].
  - by rewrite !mark_length.
  - intros i. rewrite hit_snoc. apply mark_hit; [done|apply (cu_matched _ _ Hj)|].
    by exists fs.
  - intros i. rewrite hit_snoc. apply mark_hit; [done|apply (cu_seeded _ _ Hj)|].
    by exists fs.
  - intros f. rewrite elem_of_union, elem_of_list_to_set, (cu_files _ _ Hj).
    setoid_rewrite linked_snoc. rewrite Hfs. naive_solver.
  - intros f. rewrite insert_all_lookup. destruct (decide (f ∈ fs)) as [Hf|Hf].
    + eapply least_rep_iff; [|apply least_rep_or; [apply (cu_index _ _ Hj)|]].
      2: { cbn. instantiate (1 := λ i, i ∈ js). by split. }
      intros i. cbn. rewrite linked_snoc, Hfs. naive_solver.
    + eapply least_rep_iff; [|apply (cu_index _ _ Hj)]. intros i.
      rewrite linked_snoc, Hfs. naive_solver.
Qed.
Lemma current_pass_inv bs : ∀ fb fr ff,
  current_inv bs (foldl (join_current_bucket files_by_identity)
    (mkJoin ∅ (replicate records false) ∅ (replicate records false) ∅ fb fr ff) bs).
Proof.
  intros fb fr ff. induction bs as [|[id js] bs IH] using rev_ind.
  - assert (∀ i, ¬ hit [] i) as Hhit by (intros i (? & ? & ? & ?%elem_of_nil & _); done).
    assert (∀ i f, ¬ linked [] i f) as Hlink by (intros i f (? & ? & ? & ?%elem_of_nil & _); done).
    split; cbn.
    + by rewrite length_replicate.
    + intros i. rewrite lookup_replicate. split; [intros [? _]; done|intros [_ ?%Hhit]; done].
    + intros i. rewrite lookup_replicate. split; [intros [? _]; done|intros [_ ?%Hhit]; done].
    + intros f. split; [set_solver|intros [i ?%Hlink]; done].
    + intros f. rewrite lookup_empty. intros i. apply Hlink.
  - rewrite foldl_app. cbn [foldl]. by apply current_bucket_inv.
Qed.

(** The pass over the previous identities, with the matched records and files fixed. *)
Definition first_hit (matched : list bool) (bs : Buckets) (i : nat) : Prop :=
  matched !! i ≠ Some true ∧ hit bs i.
Record previous_inv (matched : list bool) (files : gset Z) (Seeded : nat → Prop) (bs : Buckets)
    (j : JoinState) : Prop := {
  pv_fixed : jn_matched j = matched ∧ jn_matched_files j = files;
  pv_length : length (jn_seeded j) = records;
  pv_seeded i : jn_seeded j !! i = Some true ↔
                (i < records)%nat ∧ (Seeded i ∨ first_hit matched bs i);
  pv_index f : if bool_decide (f ∈ files) then jn_previous_index j !! f = None
               else least_rep (jn_previous_index j !! f)
                      (λ i, matched !! i ≠ Some true ∧ linked bs i f);
}.
Lemma eligible_elem matched js i : i ∈ eligible matched js ↔ i ∈ js ∧ matched !! i ≠ Some true.
Proof.
  unfold eligible. rewrite list_elem_of_In, List.filter_In, <-list_elem_of_In.
  destruct (matched !! i) as [[]|]; cbn; naive_solver.
Qed.
Lemma previous_bucket_inv matched files Seeded bs j id js :
  previous_inv matched files Seeded bs j →
  previous_inv matched files Seeded (bs ++ [(id, js)]) (join_previous_bucket files_by_identity j (id, js)).
Proof.
  intros Hj. destruct (pv_fixed _ _ _ _ _ Hj) as [Hm Hfl]. unfold join_previous_bucket. cbn [fst snd].
  assert (∀ i, first_hit matched (bs ++ [(id, js)]) i ↔
    first_hit matched bs i ∨ i ∈ eligible matched js ∧ is_Some (hm_get files_by_identity id)) as Hfirst.
  { intros i. unfold first_hit. rewrite hit_snoc, eligible_elem. tauto. }
  destruct (hm_get files_by_identity id) as [fs|] eqn:Hfs.
  2: { split; cbn.
    - done.
    - apply (pv_length _ _ _ _ _ Hj).
    - intros i. rewrite (pv_seeded _ _ _ _ _ Hj), Hfirst, is_Some_alt. tauto.
    - intros f. pose proof (pv_index _ _ _ _ _ Hj f) as Hi. case_bool_decide; [done|].
      eapply least_rep_iff; [|apply Hi]. intros i. rewrite linked_snoc, Hfs. naive_solver. }
  rewrite previous_records. cbn [visit_bucket jn_matched_files jn_matched jn_record_index jn_seeded
    jn_previous_index jn_bucket_visits jn_record_visits jn_file_visits]. rewrite Hm.
  pose proof (first_least (eligible matched js)) as Hleast.
  destruct (foldl min_index None (eligible matched js)) as [first|].
  2: { assert (eligible matched js = []) as He.
    { destruct (eligible matched js) as [|i l]; [done|]. destruct (Hleast i). apply list_elem_of_here. }
    assert (∀ i, i ∈ js → matched !! i = Some true) as Hall.
    { intros i Hi. destruct (decide (matched !! i = Some true)) as [|Hno]; [done|].
      assert (i ∈ eligible matched js) as Hel by by apply eligible_elem.
      rewrite He in Hel. by apply elem_of_nil in Hel. }
    rewrite He. split; cbn [jn_matched_files jn_matched jn_seeded jn_previous_index mark foldl].
    - done.
    - apply (pv_length _ _ _ _ _ Hj).
    - intros i. rewrite (pv_seeded _ _ _ _ _ Hj), Hfirst, He, elem_of_nil. tauto.
    - intros f. pose proof (pv_index _ _ _ _ _ Hj f) as Hi. case_bool_decide; [done|].
      eapply least_rep_iff; [|apply Hi]. intros i. rewrite linked_snoc. naive_solver. }
  destruct Hleast as [Hin Hmin]. rewrite previous_files.
  split; cbn [jn_matched_files jn_matched jn_seeded jn_previous_index].
  - done.
  - rewrite mark_length. apply (pv_length _ _ _ _ _ Hj).
  - intros i. rewrite Hfirst, mark_lookup, (pv_seeded _ _ _ _ _ Hj), (pv_length _ _ _ _ _ Hj).
    assert (is_Some (Some fs)) by by exists fs. tauto.
  - intros f. pose proof (pv_index _ _ _ _ _ Hj f) as Hi. rewrite insert_all_lookup, Hfl.
    assert (f ∈ List.filter (λ f, negb (bool_decide (f ∈ files))) fs ↔ f ∈ fs ∧ f ∉ files) as Hel.
    { rewrite list_elem_of_In, List.filter_In, <-list_elem_of_In. case_bool_decide; naive_solver. }
    destruct (decide (f ∈ List.filter _ fs)) as [Hf|Hf]; rewrite Hel in Hf; case_bool_decide; try tauto.
    + eapply least_rep_iff; [|apply least_rep_or; [apply Hi|]].
      2: { cbn. instantiate (1 := λ i, i ∈ eligible matched js). by split. }
      intros i. cbn. rewrite linked_snoc, eligible_elem, Hfs. naive_solver.
    + eapply least_rep_iff; [|apply Hi]. intros i. rewrite linked_snoc, Hfs. naive_solver.
Qed.
Lemma previous_pass_inv matched files Seeded bs j :
  previous_inv matched files Seeded [] j →
  previous_inv matched files Seeded bs (foldl (join_previous_bucket files_by_identity) j bs).
Proof.
  intros Hj. induction bs as [|[id js] bs IH] using rev_ind; [done|].
  rewrite foldl_app. cbn [foldl]. by apply previous_bucket_inv.
Qed.
End Join.

(** * What the matching of identities returns

    Each spelling is observed once, and the result is the relational join of the changed
    records and the indexed files on the observed identities, in visits linear in both. *)
(** ** What is remembered *)
Definition index_observations (index : AffectedOperationIdentityIndex)
  : list (list Component * CachedPathIdentity) := observations (resolver index).
(** The identity an operation knows for a path. *)
Definition remembered (index : AffectedOperationIdentityIndex) (path : str)
  : option WorkspacePathIdentity :=
  match hm_get (index_observations index) (components path) with
  | Some (Available identity) => Some identity
  | _ => None
  end.
Definition extends (index index' : AffectedOperationIdentityIndex) : Prop :=
  ∀ k o, hm_get (index_observations index) k = Some o →
         hm_get (index_observations index') k = Some o.
#[export] Instance extends_preorder : PreOrder extends.
Proof. split; [by intros ????|intros a b c Hab Hbc k o H; by apply Hbc, Hab]. Qed.

Section Resolve.
Context (native : nat → str → result IoError WorkspacePathIdentity).

Lemma index_resolve_spec index path r index' :
  index_resolve native index path = (r, index') →
  extends index index' ∧
  ∃ o, hm_get (index_observations index') (components path) = Some o ∧ r = cached_result path o.
Proof.
  unfold index_resolve, resolver_resolve. intros H.
  destruct (hm_get (observations (resolver index)) (components path)) as [o|] eqn:Ho;
    injection H as <- <-; unfold extends, index_observations; cbn [resolver set_resolver observations].
  - split; [done|]. by exists o.
  - split; [|eexists; split; [|done]].
    + intros k o Hk. rewrite hm_get_insert. destruct (decide (components path = k)) as [<-|]; [|done].
      congruence.
    + by rewrite hm_get_insert, decide_True by done.
Qed.
Lemma resolve_remembered index path r index' later :
  index_resolve native index path = (r, index') → extends index' later →
  result_ok r = remembered later path.
Proof.
  intros (_ & o & Ho & ->)%index_resolve_spec Hlater. unfold remembered. rewrite (Hlater _ _ Ho).
  by destruct o.
Qed.

(** ** The scans *)
Definition path_of_record (root : str) (record : AffectedChangeRecordDto) : str :=
  affected_change_path root (cr_path record).
Definition current_pairs later root (entries : list (nat * AffectedChangeRecordDto))
  : list (WorkspacePathIdentity * nat) :=
  omap (λ e, (λ id, (id, e.1)) <$> remembered later (path_of_record root e.2)) entries.
Definition previous_pairs later root (entries : list (nat * AffectedChangeRecordDto))
  : list (WorkspacePathIdentity * nat) :=
  omap (λ e, path ← previous_path_of e.2;
             (λ id, (id, e.1)) <$> remembered later (affected_change_path root path)) entries.
Definition file_pairs later root (files : list (Z * str)) : list (WorkspacePathIdentity * Z) :=
  omap (λ f, (λ id, (id, f.1)) <$> remembered later (indexed_path_of root f.2)) files.
Definition push_pairs {V} (m : list (WorkspacePathIdentity * list V))
    (pairs : list (WorkspacePathIdentity * V)) : list (WorkspacePathIdentity * list V) :=
  foldl (λ m kv, hm_push m kv.1 kv.2) m pairs.

Definition buckets_grown (b b' : AffectedOrderedIdentityBuckets) (pairs : list (WorkspacePathIdentity * nat))
  : Prop := positions_ok b → buckets b' = push_pairs (buckets b) pairs ∧ positions_ok b'.
Lemma buckets_grown_push b id i : buckets_grown b (bucket_push b id i) [(id, i)].
Proof. intros Hb. by apply bucket_push_group. Qed.
Lemma buckets_grown_trans b b' b'' ps qs : buckets_grown b b' ps → buckets_grown b' b'' qs → buckets_grown b b'' (ps ++ qs).
Proof.
  intros H1 H2 Hb. destruct (H1 Hb) as [E1 H1']. destruct (H2 H1') as [E2 H2']. split; [|done].
  unfold push_pairs in *. by rewrite foldl_app, <-E1.
Qed.
Lemma buckets_grown_result b r i : buckets_grown b (push_result b r i) (option_list ((λ id, (id, i)) <$> result_ok r)).
Proof. destruct r; cbn; [apply buckets_grown_push|by intros Hb]. Qed.

Lemma scan_record_spec root s entry :
  let s' := scan_record native root s entry in
  extends (rs_index s) (rs_index s') ∧
  ∀ later, extends (rs_index s') later →
    buckets_grown (rs_current_buckets s) (rs_current_buckets s') (current_pairs later root [entry]) ∧
    buckets_grown (rs_previous_buckets s) (rs_previous_buckets s') (previous_pairs later root [entry]).
Proof.
  destruct entry as [i record]. cbn. unfold scan_record.
  destruct (index_resolve native (rs_index s) _) as [r1 i1] eqn:H1.
  pose proof (proj1 (index_resolve_spec _ _ _ _ H1)) as Hx1.
  destruct (previous_path_of record) as [path|].
  - destruct (index_resolve native i1 _) as [r2 i2] eqn:H2. cbn.
    pose proof (proj1 (index_resolve_spec _ _ _ _ H2)) as Hx2.
    split; [by etrans|]. intros later Hl. split.
    + unfold path_of_record. rewrite <-(resolve_remembered _ _ _ _ later H1) by by etrans.
      pose proof (buckets_grown_result (rs_current_buckets s) r1 i) as Hg. by destruct r1.
    + rewrite <-(resolve_remembered _ _ _ _ later H2) by done.
      pose proof (buckets_grown_result (rs_previous_buckets s) r2 i) as Hg. by destruct r2.
  - cbn. split; [done|]. intros later Hl. split.
    + unfold path_of_record. rewrite <-(resolve_remembered _ _ _ _ later H1) by done.
      pose proof (buckets_grown_result (rs_current_buckets s) r1 i) as Hg. by destruct r1.
    + by intros Hb.
Qed.
Lemma scan_records_spec root entries : ∀ s,
  let s' := foldl (scan_record native root) s entries in
  extends (rs_index s) (rs_index s') ∧
  ∀ later, extends (rs_index s') later →
    buckets_grown (rs_current_buckets s) (rs_current_buckets s') (current_pairs later root entries) ∧
    buckets_grown (rs_previous_buckets s) (rs_previous_buckets s') (previous_pairs later root entries).
Proof.
  induction entries as [|entry entries IH]; intros s; cbn [foldl].
  - split; [done|]. intros later _. by split; intros Hb.
  - destruct (scan_record_spec root s entry) as [Hx Hstep].
    destruct (IH (scan_record native root s entry)) as [Hxs Hrest]. split; [by etrans|].
    intros later Hl. destruct (Hrest later Hl) as [Hc Hp].
    destruct (Hstep later) as [Hc1 Hp1]; [by etrans|].
    change (entry :: entries) with ([entry] ++ entries). unfold current_pairs, previous_pairs in *.
    rewrite !omap_app. split; by eapply buckets_grown_trans.
Qed.
Lemma scan_files_spec root files : ∀ s,
  let s' := foldl (scan_file native root) s files in
  extends (fs_index s) (fs_index s') ∧
  ∀ later, extends (fs_index s') later →
    fs_files_by_identity s' = push_pairs (fs_files_by_identity s) (file_pairs later root files).
Proof.
  induction files as [|[f path] files IH]; intros s; cbn [foldl].
  { split; [done|]. intros later _. done. }
  destruct (index_resolve native (fs_index s) (indexed_path_of root path)) as [r i1] eqn:Hr.
  pose proof (proj1 (index_resolve_spec _ _ _ _ Hr)) as Hx.
  set (s1 := scan_file native root s (f, path)). destruct (IH s1) as [Hxs Hrest].
  assert (fs_index s1 = i1) as Hi1 by (unfold s1, scan_file; rewrite Hr; by destruct r).
  rewrite Hi1 in Hxs. split; [by etrans|]. intros later Hl. rewrite (Hrest later Hl).
  assert (result_ok r = remembered later (indexed_path_of root path)) as Hok.
  { apply (resolve_remembered _ _ _ _ later Hr). by etrans. }
  unfold file_pairs. cbn [omap list_omap fst snd]. rewrite <-Hok. unfold s1, scan_file. rewrite Hr.
  by destruct r.
Qed.
End Resolve.

(** ** Groups *)
Lemma hm_group_elem {K V} `{EqDecision K} (pairs : list (K * V)) k vs :
  (k, vs) ∈ hm_group pairs ↔ vs = values_of pairs k ∧ vs ≠ [].
Proof.
  rewrite hm_get_elem by apply hm_group_keys. rewrite hm_get_group.
  destruct (values_of pairs k); naive_solver.
Qed.

Section Grouped.
Context (record_pairs : list (WorkspacePathIdentity * nat)) (files : list (WorkspacePathIdentity * Z)).
Lemma linked_grouped i f :
  linked (hm_group files) (hm_group record_pairs) i f ↔
  ∃ id, (id, i) ∈ record_pairs ∧ (id, f) ∈ files.
Proof.
  unfold linked. split.
  - intros (id & js & fs & [-> _]%hm_group_elem & Hi & Hfs & Hf).
    apply hm_get_elem, hm_group_elem in Hfs as [-> _]; [|apply hm_group_keys].
    exists id. by rewrite <-!values_of_elem.
  - intros (id & Hi & Hf). rewrite <-values_of_elem in Hi. rewrite <-values_of_elem in Hf.
    exists id, (values_of record_pairs id), (values_of files id).
    rewrite hm_group_elem, hm_get_group. repeat split; try done.
    + intros Hnil. rewrite Hnil in Hi. by apply elem_of_nil in Hi.
    + destruct (values_of files id); [by apply elem_of_nil in Hf|done].
Qed.
Lemma hit_grouped i :
  hit (hm_group files) (hm_group record_pairs) i ↔
  ∃ f, linked (hm_group files) (hm_group record_pairs) i f.
Proof.
  unfold hit, linked. split; [|naive_solver].
  intros (id & js & fs & Hin & Hi & Hfs). pose proof Hfs as Hget.
  apply hm_get_elem, hm_group_elem in Hfs as [-> Hne]; [|apply hm_group_keys].
  destruct (values_of files id) as [|f fs] eqn:Hv; [done|]. exists f, id, js, (f :: fs).
  repeat split; try done. apply list_elem_of_here.
Qed.
End Grouped.

(** ** The join *)
Section Claims.
Context (later : AffectedOperationIdentityIndex) (root : str)
  (records : list AffectedChangeRecordDto) (files : list (Z * str)).

(** The current path of a record and the path of a file have the same identity. *)
Definition same_file (i : nat) (f : Z) : Prop :=
  ∃ record path id, records !! i = Some record ∧ (f, path) ∈ files ∧
    remembered later (path_of_record root record) = Some id ∧
    remembered later (indexed_path_of root path) = Some id.
(** So have the previous path of a rename or copy and the path of a file. *)
Definition same_previous_file (i : nat) (f : Z) : Prop :=
  ∃ record previous path id, records !! i = Some record ∧ (f, path) ∈ files ∧
    previous_path_of record = Some previous ∧
    remembered later (affected_change_path root previous) = Some id ∧
    remembered later (indexed_path_of root path) = Some id.

Lemma file_pairs_elem id f :
  (id, f) ∈ file_pairs later root files ↔
  ∃ path, (f, path) ∈ files ∧ remembered later (indexed_path_of root path) = Some id.
Proof.
  unfold file_pairs. rewrite list_elem_of_omap. split.
  - intros ([f' path] & Hin & Hp). cbn in Hp. destruct (remembered _ _) eqn:Hr; [|done].
    injection Hp as -> ->. by exists path.
  - intros (path & Hin & Hr). exists (f, path). cbn. by rewrite Hr.
Qed.
Lemma same_file_linked i f :
  same_file i f ↔ ∃ id, (id, i) ∈ current_pairs later root (imap pair records)
                        ∧ (id, f) ∈ file_pairs later root files.
Proof.
  unfold same_file. setoid_rewrite file_pairs_elem. unfold current_pairs.
  setoid_rewrite list_elem_of_omap. split.
  - intros (r & path & id & Hr & Hf & Hid & Hfid). exists id. split; [|by exists path].
    exists (i, r). rewrite imap_pair_elem. cbn. by rewrite Hid.
  - intros (id & ([i' r] & Hin%imap_pair_elem & Hp) & path & Hf & Hfid). cbn in Hp.
    destruct (remembered later (path_of_record root r)) eqn:Hr; [|done]. injection Hp as -> ->.
    by exists r, path, id.
Qed.
Lemma same_previous_file_linked i f :
  same_previous_file i f ↔ ∃ id, (id, i) ∈ previous_pairs later root (imap pair records)
                                 ∧ (id, f) ∈ file_pairs later root files.
Proof.
  unfold same_previous_file. setoid_rewrite file_pairs_elem. unfold previous_pairs.
  setoid_rewrite list_elem_of_omap. split.
  - intros (r & previous & path & id & Hr & Hf & Hprev & Hid & Hfid). exists id.
    split; [|by exists path]. exists (i, r). rewrite imap_pair_elem. cbn. rewrite Hprev. cbn.
    by rewrite Hid.
  - intros (id & ([i' r] & Hin%imap_pair_elem & Hp) & path & Hf & Hfid). cbn in Hp.
    destruct (previous_path_of r) as [previous|] eqn:Hprev; [|done]. cbn in Hp.
    destruct (remembered later _) eqn:Hr; [|done]. injection Hp as -> ->.
    by exists r, previous, path, id.
Qed.
Lemma previous_pairs_range id i :
  (id, i) ∈ previous_pairs later root (imap pair records) → (i < length records)%nat.
Proof.
  unfold previous_pairs. intros ([i' r] & Hr%imap_pair_elem & Hp)%list_elem_of_omap. cbn in Hp.
  apply bind_Some in Hp as (path & _ & Hp). destruct (remembered _ _); [|done].
  injection Hp as _ ->. by apply lookup_lt_Some in Hr.
Qed.
End Claims.

Lemma least_rep_ext o (P Q : nat → Prop) : (∀ j, P j ↔ Q j) → least_rep o P ↔ least_rep o Q.
Proof. intros H. split; apply least_rep_iff; [done|]. intros j. by rewrite H. Qed.

(** The two passes together, on pairs of identities with records and files. *)
Definition join_passes (records : nat) (current previous : list (WorkspacePathIdentity * nat))
    (files : list (WorkspacePathIdentity * Z)) : JoinState * JoinState :=
  let unset := replicate records false in
  let first := foldl (join_current_bucket (hm_group files)) (mkJoin ∅ unset ∅ unset ∅ 0 0 0)
                 (hm_group current) in
  (first, foldl (join_previous_bucket (hm_group files))
    (mkJoin (jn_matched_files first) (jn_matched first) (jn_record_index first)
       (jn_seeded first) ∅ 0 (jn_record_visits first) (jn_file_visits first)) (hm_group previous)).

Section Passes.
Context (records : nat) (current previous : list (WorkspacePathIdentity * nat))
  (files : list (WorkspacePathIdentity * Z)).
Let first : JoinState := (join_passes records current previous files).1.
Let joined : JoinState := (join_passes records current previous files).2.
Definition paired (pairs : list (WorkspacePathIdentity * nat)) (i : nat) (f : Z) : Prop :=
  ∃ id, (id, i) ∈ pairs ∧ (id, f) ∈ files.

Lemma hit_paired pairs i : hit (hm_group files) (hm_group pairs) i ↔ ∃ f, paired pairs i f.
Proof. rewrite hit_grouped. by setoid_rewrite linked_grouped. Qed.
Lemma first_inv : current_inv (hm_group files) records (hm_group current) first.
Proof. apply current_pass_inv. Qed.
Lemma joined_inv : previous_inv (hm_group files) records (jn_matched first) (jn_matched_files first)
  (hit (hm_group files) (hm_group current)) (hm_group previous) joined.
Proof.
  apply previous_pass_inv. pose proof first_inv as Hf. unfold join_passes. fold first.
  split; cbn [snd jn_matched jn_matched_files jn_seeded jn_previous_index].
  - done.
  - apply (cu_length _ _ _ _ Hf).
  - intros i. change ((jn_seeded first) !! i = Some true ↔ (i < records)%nat ∧ (hit (hm_group files) (hm_group current) i ∨ first_hit (hm_group files) (jn_matched first) [] i)).
    rewrite (cu_seeded _ _ _ _ Hf). unfold first_hit.
    assert (¬ hit (hm_group files) [] i) by (intros (? & ? & ? & ?%elem_of_nil & _); done). tauto.
  - intros f. case_bool_decide; [by rewrite lookup_empty|]. rewrite lookup_empty.
    intros i [_ (? & ? & ? & ?%elem_of_nil & _)]. done.
Qed.
Lemma joined_index : jn_record_index joined = jn_record_index first.
Proof.
  unfold joined, join_passes. fold first. cbn [snd].
  set (j := mkJoin _ _ _ _ _ _ _ _). change (jn_record_index first) with (jn_record_index j).
  generalize j. clear. induction (hm_group previous) as [|[id js] bs IH]; intros j; [done|].
  cbn [foldl]. rewrite IH. unfold join_previous_bucket. cbn [fst snd].
  destruct (hm_get _ id) as [fs|]; [|done]. rewrite previous_records.
  destruct (foldl min_index None _); [|done]. by rewrite previous_files.
Qed.
Lemma joined_spec :
  (∀ f, f ∈ jn_matched_files joined ↔ ∃ i, paired current i f) ∧
  (∀ f, least_rep (jn_record_index joined !! f) (λ i, paired current i f)) ∧
  (∀ i, jn_matched joined !! i = Some true ↔ (i < records)%nat ∧ ∃ f, paired current i f) ∧
  (∀ i, jn_seeded joined !! i = Some true ↔
        (i < records)%nat ∧ ((∃ f, paired current i f) ∨
                             (∃ f, paired previous i f) ∧ jn_matched joined !! i ≠ Some true)) ∧
  (∀ f, if bool_decide (f ∈ jn_matched_files joined) then jn_previous_index joined !! f = None
        else least_rep (jn_previous_index joined !! f)
               (λ i, jn_matched joined !! i ≠ Some true ∧ paired previous i f)).
Proof.
  pose proof first_inv as Hf. pose proof joined_inv as Hj.
  destruct (pv_fixed _ _ _ _ _ _ _ Hj) as [-> ->]. rewrite joined_index.
  split; [|split; [|split; [|split]]].
  - intros f. rewrite (cu_files _ _ _ _ Hf). by setoid_rewrite linked_grouped.
  - intros f. eapply least_rep_iff; [|apply (cu_index _ _ _ _ Hf)]. intros i. apply linked_grouped.
  - intros i. by rewrite (cu_matched _ _ _ _ Hf), hit_paired.
  - intros i. rewrite (pv_seeded _ _ _ _ _ _ _ Hj). unfold first_hit. rewrite !hit_paired. tauto.
  - intros f. pose proof (pv_index _ _ _ _ _ _ _ Hj f) as Hi. case_bool_decide; [done|].
    eapply least_rep_iff; [|apply Hi]. intros i. cbn. by rewrite linked_grouped.
Qed.
End Passes.

(** The matches of a request are the passes over the pairs of its scans. *)
Lemma matches_passes native root records files index :
  let '(m, later) := match_affected_file_identities native root records files index in
  let j := (join_passes (length records) (current_pairs later root (imap pair records))
              (previous_pairs later root (imap pair records)) (file_pairs later root files)).2 in
  extends index later ∧
  matched_file_ids m = jn_matched_files j ∧ matched_record_flags m = jn_matched j ∧
  matched_record_index_by_file_id m = jn_record_index j ∧
  graph_seeded_record_flags m = jn_seeded j ∧
  previous_record_index_by_file_id m = jn_previous_index j ∧
  bucket_record_visits (work m) = jn_record_visits j ∧
  indexed_bucket_file_visits (work m) = jn_file_visits j.
Proof.
  unfold match_affected_file_identities.
  set (s0 := mkRecordScan index no_buckets no_buckets [] [] [] 0).
  destruct (scan_records_spec native root (imap pair records) s0) as [Hx1 Hs].
  set (s := foldl (scan_record native root) s0 (imap pair records)) in *.
  set (f0 := mkFileScan (rs_index s) 0 None ∅ [] 0).
  destruct (scan_files_spec native root files f0) as [Hx2 Hf].
  set (fs := foldl (scan_file native root) f0 files) in *.
  set (later := fs_index fs) in *. destruct (Hs later Hx2) as [Hcur Hprev].
  assert (positions_ok no_buckets) as Hok by done.
  destruct (Hcur Hok) as [-> _], (Hprev Hok) as [-> _]. rewrite (Hf later) by done.
  split; [by etrans|]. done.
Qed.

(** [C29] Matching changed paths with indexed files is the join of the two on native identity,
    each spelling having the one identity that the operation remembers for it: a file is
    matched when the current path of some record is that file, and then carries the least
    such record; a record that matched no file seeds the files its previous path is, if they
    are not matched, each with the least such record. *)
Theorem identity_join_exact native root records files index :
  let '(m, later) := match_affected_file_identities native root records files index in
  let same := same_file later root records files in
  let same_previous := same_previous_file later root records files in
  extends index later ∧
  (∀ f, f ∈ matched_file_ids m ↔ ∃ i, same i f) ∧
  (∀ f, least_rep (matched_record_index_by_file_id m !! f) (λ i, same i f)) ∧
  (∀ i, matched_record_flags m !! i = Some true ↔ (i < length records)%nat ∧ ∃ f, same i f) ∧
  (∀ i, graph_seeded_record_flags m !! i = Some true ↔
        (i < length records)%nat ∧ ((∃ f, same i f) ∨ ∃ f, same_previous i f)) ∧
  (∀ f, if bool_decide (f ∈ matched_file_ids m) then previous_record_index_by_file_id m !! f = None
        else least_rep (previous_record_index_by_file_id m !! f)
               (λ i, (¬ ∃ f', same i f') ∧ same_previous i f)).
Proof.
  pose proof (matches_passes native root records files index) as H.
  destruct (match_affected_file_identities _ _ _ _ _) as [m later].
  destruct H as (Hx & -> & -> & -> & -> & -> & _ & _).
  destruct (joined_spec (length records) (current_pairs later root (imap pair records))
    (previous_pairs later root (imap pair records)) (file_pairs later root files))
    as (H1 & H2 & H3 & H4 & H5).
  set (j := (join_passes _ _ _ _).2) in *. cbv zeta.
  assert (∀ i f, same_file later root records files i f ↔
    paired (file_pairs later root files) (current_pairs later root (imap pair records)) i f) as Hsame
    by apply same_file_linked.
  assert (∀ i f, same_previous_file later root records files i f ↔
    paired (file_pairs later root files) (previous_pairs later root (imap pair records)) i f) as Hprev
    by apply same_previous_file_linked.
  split; [done|]. split; [|split; [|split; [|split]]].
  - intros f. rewrite H1. by setoid_rewrite Hsame.
  - intros f. refine (least_rep_iff _ _ _ _ (H2 f)). intros i. symmetry. apply Hsame.
  - intros i. rewrite H3. by setoid_rewrite Hsame.
  - intros i. rewrite H4, H3. setoid_rewrite Hsame. setoid_rewrite Hprev. unfold paired.
    destruct (decide (jn_matched j !! i = Some true)) as [Hm%H3|Hm]; [unfold paired in Hm; tauto|].
    rewrite H3 in Hm. unfold paired in Hm. tauto.
  - intros f. pose proof (H5 f) as Hf. case_bool_decide; [done|].
    refine (least_rep_iff _ _ _ _ Hf). intros i. cbv beta. rewrite H3.
    setoid_rewrite Hsame. rewrite Hprev. unfold paired. split.
    + intros [Hno (id & Hi & Hfid)]. split; [|by exists id]. intros Hex. apply Hno.
      split; [by eapply previous_pairs_range|done].
    + intros [Hno Hex]. split; [|done]. intros [_ Hm]. by apply Hno.
Qed.

(** ** The number of visits *)
(** Distinct keys share out the pairs. *)
Lemma distinct_values_total {K V} `{EqDecision K} (pairs : list (K * V)) keys :
  NoDup keys → (sum_list ((λ k, length (values_of pairs k)) <$> keys) <= length pairs)%nat.
Proof.
  intros Hnd. induction pairs as [|[k v] pairs IH].
  - unfold values_of. cbn. clear Hnd. by induction keys.
  - assert (∀ keys, NoDup keys →
      (sum_list ((λ k', length (values_of ((k, v) :: pairs) k')) <$> keys) <=
       sum_list ((λ k', length (values_of pairs k')) <$> keys) + if decide (k ∈ keys) then 1 else 0)%nat)
      as Hadd.
    { clear. intros keys. induction 1 as [|k' keys Hno Hnd IH]; [done|]. cbn [fmap list_fmap sum_list sum_list_with].
      unfold sum_list in *. cbn [sum_list_with] in *. unfold id in *.
      assert (length (values_of ((k, v) :: pairs) k') =
        length (values_of pairs k') + if decide (k = k') then 1 else 0)%nat as ->.
      { unfold values_of. cbn [List.filter fst]. destruct (decide (k = k')) as [->|Hne].
        - rewrite bool_decide_true by done. cbn. lia.
        - rewrite bool_decide_false by done. lia. }
      destruct (decide (k = k')) as [->|Hne].
      - rewrite decide_False in IH by done. rewrite decide_True by apply list_elem_of_here. lia.
      - destruct (decide (k ∈ keys)); [rewrite decide_True by (by apply list_elem_of_further); lia|].
        rewrite decide_False; [lia|]. intros [->|?]%elem_of_cons; done. }
    specialize (Hadd keys Hnd). destruct (decide (k ∈ keys)); cbn [length]; lia.
Qed.

Definition bucket_sum {V} (size_of : WorkspacePathIdentity * V → nat)
    (bs : list (WorkspacePathIdentity * V)) : Z := Z.of_nat (sum_list (size_of <$> bs)).
Definition file_size (files : list (WorkspacePathIdentity * list Z))
    (b : WorkspacePathIdentity * list nat) : nat := length (default [] (hm_get files b.1)).
Definition record_size (b : WorkspacePathIdentity * list nat) : nat := length b.2.
Definition visits_within (files : list (WorkspacePathIdentity * list Z))
    (step : JoinState → WorkspacePathIdentity * list nat → JoinState) : Prop :=
  ∀ j b, 0 <= jn_record_visits j → 0 <= jn_file_visits j →
    0 <= jn_record_visits (step j b) <= jn_record_visits j + Z.of_nat (record_size b) ∧
    0 <= jn_file_visits (step j b) <= jn_file_visits j + Z.of_nat (file_size files b).

Lemma current_visits files : visits_within files (join_current_bucket files).
Proof.
  intros j [id js] Hr Hf. unfold join_current_bucket, record_size, file_size. cbn [fst snd].
  destruct (hm_get files id) as [fs|]; cbn [default length]; [|cbn; lia].
  rewrite current_records. pose proof (counted_bound (length js) _ Hr).
  pose proof (counted_bound (length fs) _ Hf).
  destruct (foldl min_index None js); [rewrite current_files|]; cbn; lia.
Qed.
Lemma previous_visits files : visits_within files (join_previous_bucket files).
Proof.
  intros j [id js] Hr Hf. unfold join_previous_bucket, record_size, file_size. cbn [fst snd].
  destruct (hm_get files id) as [fs|]; cbn [default length]; [|cbn; lia].
  rewrite previous_records. pose proof (counted_bound (length js) _ Hr).
  pose proof (counted_bound (length fs) _ Hf).
  destruct (foldl min_index None _); [rewrite previous_files|]; cbn; lia.
Qed.
Lemma pass_visits files step bs : visits_within files step → ∀ j,
  0 <= jn_record_visits j → 0 <= jn_file_visits j →
  0 <= jn_record_visits (foldl step j bs) <= jn_record_visits j + bucket_sum record_size bs ∧
  0 <= jn_file_visits (foldl step j bs) <= jn_file_visits j + bucket_sum (file_size files) bs.
Proof.
  intros Hstep. unfold bucket_sum. induction bs as [|b bs IH]; intros j Hr Hf; cbn; [lia|].
  destruct (Hstep j b Hr Hf) as [H1 H2]. destruct (IH (step j b)); [lia..|]. unfold sum_list, id in *. lia.
Qed.
Lemma group_visits (pairs : list (WorkspacePathIdentity * nat)) (files : list (WorkspacePathIdentity * Z)) :
  bucket_sum record_size (hm_group pairs) <= len pairs ∧
  bucket_sum (file_size (hm_group files)) (hm_group pairs) <= len files.
Proof.
  unfold bucket_sum, len. pose proof (hm_group_keys pairs) as Hnd.
  assert (∀ b, b ∈ hm_group pairs → record_size b = length (values_of pairs b.1)) as Hsize.
  { intros [id js] [-> _]%hm_group_elem. done. }
  split.
  - pose proof (distinct_values_total pairs _ Hnd) as H. rewrite <-list_fmap_compose in H.
    rewrite (list_fmap_ext record_size ((λ k, length (values_of pairs k)) ∘ fst)); [lia|].
    intros i b Hb%list_elem_of_lookup_2. by apply Hsize.
  - pose proof (distinct_values_total files _ Hnd) as H. rewrite <-list_fmap_compose in H.
    rewrite (list_fmap_ext (file_size _) ((λ k, length (values_of files k)) ∘ fst)); [lia|].
    intros i [id js] _. unfold file_size. cbn. rewrite hm_get_group. by destruct (values_of files id).
Qed.
Lemma omap_len {A B} (f : A → option B) l : len (omap f l) <= len l.
Proof. unfold len. induction l as [|x l IH]; cbn; [done|]. destruct (f x); cbn [length]; lia. Qed.

(** Matching does no pairwise comparison: the records visited in buckets are at most twice
    the records and the files visited at most twice the indexed files, whatever the identities. *)
Theorem identity_join_linear native root records files index :
  let m := (match_affected_file_identities native root records files index).1 in
  0 <= bucket_record_visits (work m) <= 2 * len records ∧
  0 <= indexed_bucket_file_visits (work m) <= 2 * len files.
Proof.
  pose proof (matches_passes native root records files index) as H.
  destruct (match_affected_file_identities _ _ _ _ _) as [m later]. cbn [fst].
  destruct H as (_ & _ & _ & _ & _ & _ & -> & ->). unfold join_passes. cbn [snd].
  set (cp := current_pairs _ _ _). set (pp := previous_pairs _ _ _). set (fp := file_pairs _ _ _).
  assert (len cp <= len records) as Hcp.
  { etrans; [apply omap_len|]. unfold len. by rewrite length_imap. }
  assert (len pp <= len records) as Hpp.
  { etrans; [apply omap_len|]. unfold len. by rewrite length_imap. }
  assert (len fp <= len files) as Hfp by apply omap_len.
  destruct (group_visits cp fp) as [Hc1 Hc2], (group_visits pp fp) as [Hp1 Hp2].
  match goal with |- context [foldl (join_current_bucket _) ?j _] =>
    destruct (pass_visits (hm_group fp) _ (hm_group cp) (current_visits _) j) as [Ha Hb]; [done..|] end.
  set (first := foldl (join_current_bucket _) _ _) in *.
  match goal with |- context [foldl (join_previous_bucket _) ?j _] =>
    destruct (pass_visits (hm_group fp) _ (hm_group pp) (previous_visits _) j) as [Hd He];
      [apply Ha|apply Hb|] end.
  cbn [jn_record_visits jn_file_visits] in *. lia.
Qed.
