(* ===== verification/WorkspaceDiscovery.v ===== *)
(** * Discovery of the source files of a workspace

    codestory-workspace/src/lib.rs: caller-owned exclusions, the filter of a directory walk,
    and the inventory with the proof of its completeness.  The crates that walk directories
    and match glob patterns are interfaces. *)
From S2P Require Import Prelude RustStr RetrievalData Sorting StrOps UnixPath WorkspacePaths.
From S2P Require Import WorkspacePaths LanguageSupport.

(** ** What other crates answer *)
(** [glob::Pattern]. *)
Class GlobSyntax (Pattern : Type) : Type := {
  pattern_new : str → result str Pattern;
  pattern_matches_path : Pattern → str → bool;
}.
(** [ignore::DirEntry]: the file type, where it is known, and an error that comes with it. *)
Record WalkEntry : Type := mkWalkEntry {
  we_path : str;
  we_is_dir : bool;
  we_is_file : bool;
  we_error : option str;
}.
(** [ignore::WalkBuilder] following links, with an entry filter. *)
Class DirectoryWalk : Type := {
  walk_tree : str → (WalkEntry → bool) → list (result str WalkEntry);
}.

(** ** Inventories *)
Module InventoryOutcome.
Inductive WorkspaceInventoryOutcome : Set := Complete | Partial | Unreadable | Bounded.
End InventoryOutcome.
Abbreviation WorkspaceInventoryOutcome := InventoryOutcome.WorkspaceInventoryOutcome.
#[export] Instance WorkspaceInventoryOutcome_eq_dec : EqDecision WorkspaceInventoryOutcome.
Proof. solve_decision. Defined.
Definition is_complete (o : WorkspaceInventoryOutcome) : bool :=
  bool_decide (o = InventoryOutcome.Complete).

Record WorkspaceInventoryIssue : Type := mkIssue { issue_path : str; issue_message : str }.
Record WorkspaceFileInventory : Type := mkInventory {
  inv_files : list str;
  inv_outcome : WorkspaceInventoryOutcome;
  inv_issues : list WorkspaceInventoryIssue;
}.
(** The name [Debug] prints. *)
Definition outcome_name (o : WorkspaceInventoryOutcome) : str :=
  match o with
  | InventoryOutcome.Complete => lit "Complete" | InventoryOutcome.Partial => lit "Partial"
  | InventoryOutcome.Unreadable => lit "Unreadable" | InventoryOutcome.Bounded => lit "Bounded"
  end.
Definition inventory_failure_message (i : WorkspaceFileInventory) : str :=
  let detail := match inv_issues i with
                | issue :: _ => issue_path issue ++ lit ": " ++ issue_message issue
                | [] => lit "candidate limit exceeded"
                end in
  lit "workspace inventory is " ++ outcome_name (inv_outcome i)
  ++ lit "; deletion safety cannot be proven (" ++ detail ++ lit ")".

(** ** Languages of source groups *)
Definition registry_languages (language : Language) : list str :=
  match language with
  | Language.Rust => [lit "rust"] | Language.Python => [lit "python"]
  | Language.Java => [lit "java"] | Language.JavaScript => [lit "javascript"]
  | Language.TypeScript => [lit "typescript"] | Language.Cxx => [lit "cpp"; lit "c"]
  | Language.Go => [lit "go"] | Language.Ruby => [lit "ruby"] | Language.Php => [lit "php"]
  | Language.CSharp => [lit "csharp"] | Language.Kotlin => [lit "kotlin"]
  | Language.Swift => [lit "swift"] | Language.Dart => [lit "dart"]
  | Language.Sql => [lit "sql"] | Language.Html => [lit "html"] | Language.Css => [lit "css"]
  | Language.Bash => [lit "bash"] | Language.Shell => [lit "shell"]
  | Language.PowerShell => [lit "powershell"] | Language.Markdown => [lit "markdown"]
  | Language.Yaml => [lit "yaml"] | Language.Toml => [lit "toml"] | Language.Json => [lit "json"]
  | Language.Lua | Language.Svelte | Language.Vue | Language.Astro => []
  end.
Definition source_group_accepts_registry_language (language : Language) (registry_language : str)
  : bool := one_of registry_language (registry_languages language).
Definition registry_extension_matches_source_group (extension : str) (language : Language) : bool :=
  match language_support_profile_for_ext extension with
  | Some profile => source_group_accepts_registry_language language (language_name profile)
  | None => false
  end.
Definition compatibility_extension_matches_source_group (extension : str) (language : Language)
  : bool :=
  one_of extension
    match language with
    | Language.JavaScript | Language.TypeScript => [lit "svelte"; lit "vue"; lit "astro"]
    | Language.CSharp => [lit "cshtml"] | Language.Lua => [lit "lua"]
    | Language.Css => [lit "scss"; lit "sass"; lit "less"]
    | Language.Svelte => [lit "svelte"] | Language.Vue => [lit "vue"]
    | Language.Astro => [lit "astro"]
    | _ => []
    end.
(** Unix names are case sensitive. *)
Definition is_cargo_manifest_file_path (path : str) : bool :=
  is_cargo_manifest_file_path_with_case path Sensitive.
Definition matches_source_group_language (path : str) (language : Language) : bool :=
  if bool_decide (language = Language.Rust) && is_cargo_manifest_file_path path then true
  else
    match normalize_extension <$> file_extension path with
    | None => false
    | Some extension =>
        registry_extension_matches_source_group extension language
        || compatibility_extension_matches_source_group extension language
    end.

(** ** Exclusions *)
Record ObservedDiscoveryExclusions : Type := mkExclusions {
  file_identities : list WorkspacePathIdentity;
  file_lexical_paths : list WorkspacePathLexicalIdentity;
  directory_roots : list (list WorkspacePathLexicalIdentity);
}.

Section Discovery.
Context `{FileSystem} {Pattern : Type} `{GlobSyntax Pattern} `{DirectoryWalk}.

(** The error names the path that could not be observed. *)
Definition at_path {A} (path : str) (r : result IoError A) : result (str * IoError) A :=
  match r with Ok a => Ok a | Err error => Err (path, error) end.
Definition observe_excluded_file (observed : ObservedDiscoveryExclusions) (path : str)
  : result (str * IoError) ObservedDiscoveryExclusions :=
  identity ← at_path path (workspace_path_identity path);
  lexical ← at_path path (workspace_path_lexical_identity path);
  Ok (mkExclusions (file_identities observed ++ [identity])
        (file_lexical_paths observed ++ [lexical]) (directory_roots observed)).
Definition canonical_containment (root : str) (paths : list WorkspacePathLexicalIdentity)
  : result (str * IoError) (list WorkspacePathLexicalIdentity) :=
  match fs_canonicalize root with
  | Ok canonical =>
      canonical ← at_path root (workspace_path_lexical_identity canonical);
      Ok (if bool_decide (canonical ∈ paths) then paths else paths ++ [canonical])
  | Err error => if is_not_found error then Ok paths else Err (root, error)
  end.
Definition observe_excluded_root (observed : ObservedDiscoveryExclusions) (root : str)
  : result (str * IoError) ObservedDiscoveryExclusions :=
  _ ← at_path root (workspace_path_identity root);
  lexical ← at_path root (workspace_path_lexical_identity root);
  containment_paths ← canonical_containment root [lexical];
  Ok (mkExclusions (file_identities observed) (file_lexical_paths observed)
        (directory_roots observed ++ [containment_paths])).
Definition observe_discovery_exclusions (m : WorkspaceManifest)
  : result (str * IoError) ObservedDiscoveryExclusions :=
  observed ← try_fold observe_excluded_file (mkExclusions [] [] []) (discovery_excluded_files m);
  try_fold observe_excluded_root observed (discovery_excluded_directory_roots m).

Definition file_is_excluded (o : ObservedDiscoveryExclusions) (path : str) : result IoError bool :=
  match file_identities o with
  | [] => Ok false
  | _ =>
      lexical ← workspace_path_lexical_identity path;
      if bool_decide (lexical ∈ file_lexical_paths o) then Ok true
      else (λ identity, bool_decide (identity ∈ file_identities o)) <$> workspace_path_identity path
  end.
Definition directory_contains_observed (o : ObservedDiscoveryExclusions)
    (lexical : WorkspacePathLexicalIdentity) (canonical : option WorkspacePathLexicalIdentity) : bool :=
  existsb (λ root, is_within lexical root
                   || match canonical with Some path => is_within path root | None => false end)
    (mjoin (directory_roots o)).
(** The lexical identity of a canonical path, where there is one. *)
Definition canonical_lexical (canonical : option str) : option WorkspacePathLexicalIdentity :=
  path ← canonical; result_ok (workspace_path_lexical_identity path).
Definition directory_contains (o : ObservedDiscoveryExclusions) (path : str) : bool :=
  match directory_roots o with
  | [] => false
  | _ =>
      match workspace_path_lexical_identity path with
      | Err _ => true
      | Ok lexical =>
          directory_contains_observed o lexical (canonical_lexical (result_ok (fs_canonicalize path)))
      end
  end.

Definition workspace_structural_source_exclusion (workspace_root path : str) : option str :=
  relative ← workspace_relative_path workspace_root path;
  let relative := unix_path relative in
  if negb (is_structural_source_path Sensitive relative) then None
  else structural_source_path_exclusion relative.

(** ** Exclude patterns *)
Record CompiledExcludePattern : Type := mkPattern {
  pattern_raw : str;
  patterns : list Pattern;
  match_absolute : bool;
}.
Definition compile_exclude_pattern (pattern : str) : result str CompiledExcludePattern :=
  exact ← pattern_new pattern;
  rooted ← match strip_prefix pattern (lit "**/") with
           | Some root_relative => compiled ← pattern_new root_relative; Ok [compiled]
           | None => Ok []
           end;
  Ok (mkPattern pattern (exact :: rooted) (is_absolute pattern)).
Definition compile_exclude_patterns (patterns : list str) : result str (list CompiledExcludePattern) :=
  mapM compile_exclude_pattern patterns.

Definition matches_root_or_nested_directory (p : CompiledExcludePattern) (path : str) : bool :=
  match rest ← strip_prefix (unix_path (pattern_raw p)) (lit "**/"); strip_suffix rest (lit "/**") with
  | None => false
  | Some directory =>
      let path := unix_path path in
      str_eqb path directory || starts_with path (directory ++ lit "/")
      || contains path (lit "/" ++ directory ++ lit "/")
  end.
Definition pattern_matches (p : CompiledExcludePattern) (path : str) : bool :=
  existsb (λ pattern, pattern_matches_path pattern path) (patterns p)
  || matches_root_or_nested_directory p path.
Definition is_excluded_path (path workspace_root source_root : str)
    (exclude_patterns : list CompiledExcludePattern) : bool :=
  let matches_below root pattern :=
    match relative_path_for_matching path root with
    | Some relative => pattern_matches pattern relative
    | None => false
    end in
  existsb (λ pattern, (match_absolute pattern && pattern_matches pattern path)
                      || matches_below workspace_root pattern
                      || matches_below source_root pattern) exclude_patterns.

(** ** The filter of a walk *)
Record DiscoveryPathFilter : Type := mkFilter {
  df_workspace_root : str;
  df_source_root : str;
  df_filter_by_language : bool;
  df_language : Language;
  df_exclude_patterns : list CompiledExcludePattern;
  df_discovery_exclusions : ObservedDiscoveryExclusions;
}.
Definition should_include_discovered_path (path : str) (is_dir : bool) (filter : DiscoveryPathFilter)
  : bool :=
  let normalized := normalize_lexical_path path in
  let canonical := result_ok (fs_canonicalize normalized) in
  match workspace_path_lexical_identity normalized with
  | Err _ => false
  | Ok exclusion_lexical =>
      if directory_contains_observed (df_discovery_exclusions filter) exclusion_lexical
           (canonical_lexical canonical)
      then false
      else if negb is_dir
              && bool_decide (is_Some (workspace_structural_source_exclusion
                                         (df_workspace_root filter) normalized))
      then false
      else if match canonical with
              | Some canonical => negb (path_starts_with canonical (df_source_root filter))
              | None => false
              end
      then false
      else if is_excluded_path normalized (df_workspace_root filter) (df_source_root filter)
                (df_exclude_patterns filter)
      then false
      else if is_dir then true
      else negb (df_filter_by_language filter)
           || matches_source_group_language normalized (df_language filter)
  end.

(** ** The inventory *)
Record InventoryScan : Type := mkScan {
  all_files : list str;
  seen : list str;
  issues : list WorkspaceInventoryIssue;
  inspected_source_roots : Z;
}.
(** Why a scan ends before the last source path: an error of the manifest, or the limit. *)
Inductive ScanExit : Type := Failed (message : str) | LimitReached (scan : InventoryScan).
Definition or_fail {A} (r : result str A) : result ScanExit A :=
  match r with Ok a => Ok a | Err message => Err (Failed message) end.

Definition push_discovered_file (root : str) (scan : InventoryScan) (path : str) : InventoryScan :=
  let normalized := normalize_lexical_path path in
  let key := normalized_compare_key root normalized in
  if bool_decide (key ∈ seen scan) then scan
  else mkScan (all_files scan ++ [normalized]) (seen scan ++ [key]) (issues scan)
         (inspected_source_roots scan).
Definition source_file_limit_exceeded (files : list str) (max_files : option Z) : bool :=
  match max_files with Some max_files => max_files <? len files | None => false end.
Definition push_discovered_file_within_limit (max_files : option Z) (root : str)
    (scan : InventoryScan) (path : str) : result ScanExit InventoryScan :=
  let scan := push_discovered_file root scan path in
  if source_file_limit_exceeded (all_files scan) max_files then Err (LimitReached scan) else Ok scan.

Definition record_issue (path message : str) (scan : InventoryScan) : InventoryScan :=
  mkScan (all_files scan) (seen scan) (issues scan ++ [mkIssue path message])
    (inspected_source_roots scan).
Definition inspect_root (scan : InventoryScan) : InventoryScan :=
  mkScan (all_files scan) (seen scan) (issues scan) (inspected_source_roots scan + 1).
Definition identity_issue (error : IoError) : str :=
  lit "failed to observe source identity against caller-owned exclusions: " ++ io_message error.

(** One answer of the walk of a source directory. *)
Definition visit_entry (max_files : option Z) (root full_path : str)
    (exclusions : ObservedDiscoveryExclusions) (scan : InventoryScan) (entry : result str WalkEntry)
  : result ScanExit InventoryScan :=
  match entry with
  | Err error => Ok (record_issue full_path error scan)
  | Ok entry =>
      let scan := match we_error entry with
                  | Some error => record_issue (we_path entry) error scan
                  | None => scan
                  end in
      if negb (we_is_file entry) then Ok scan
      else
        match file_is_excluded exclusions (we_path entry) with
        | Ok true => Ok scan
        | Ok false => push_discovered_file_within_limit max_files root scan (we_path entry)
        | Err error => Ok (record_issue (we_path entry) (identity_issue error) scan)
        end
  end.
Definition walk_filter (filter : DiscoveryPathFilter) (entry : WalkEntry) : bool :=
  should_include_discovered_path (we_path entry) (we_is_dir entry) filter.

(** One source path of a group. *)
Definition visit_source_path (max_files : option Z) (m : WorkspaceManifest)
    (exclusions : ObservedDiscoveryExclusions) (group : SourceGroupSettings)
    (exclude_patterns : list CompiledExcludePattern) (scan : InventoryScan) (source_path : str)
  : result ScanExit InventoryScan :=
  let root := workspace_root m in
  full_path ← or_fail (resolve_manifest_source_path m source_path);
  if directory_contains exclusions full_path then Ok scan
  else
    match file_is_excluded exclusions full_path with
    | Ok true => Ok scan
    | Err error => Ok (record_issue full_path (identity_issue error) scan)
    | Ok false =>
        if bool_decide (is_Some (workspace_structural_source_exclusion root full_path)) then Ok scan
        else
          let filter := mkFilter root (discovery_root full_path)
            (should_filter_source_group_language m) (group_language group) exclude_patterns exclusions in
          match fs_metadata full_path with
          | Err error => Ok (record_issue full_path (io_message error) scan)
          | Ok metadata =>
              if negb (md_is_file metadata) && negb (md_is_dir metadata)
              then Ok (record_issue full_path (lit "unsupported source root file type") scan)
              else
                let scan := inspect_root scan in
                if md_is_file metadata then
                  if should_include_discovered_path full_path false filter
                  then push_discovered_file_within_limit max_files root scan full_path
                  else Ok scan
                else if md_is_dir metadata then
                  try_fold (visit_entry max_files root full_path exclusions) scan
                    (walk_tree full_path (walk_filter filter))
                else Ok scan
          end
    end.
Definition visit_group (max_files : option Z) (m : WorkspaceManifest)
    (exclusions : ObservedDiscoveryExclusions) (scan : InventoryScan) (group : SourceGroupSettings)
  : result ScanExit InventoryScan :=
  exclude_patterns ← or_fail (compile_exclude_patterns (exclude_patterns group));
  try_fold (visit_source_path max_files m exclusions group exclude_patterns) scan (source_paths group).

Definition sort_paths : list str → list str := sort_by (cmp_leb path_cmp).
Definition empty_scan : InventoryScan := mkScan [] [] [] 0.
Definition inventory_outcome (scan : InventoryScan) : WorkspaceInventoryOutcome :=
  match issues scan with
  | [] => InventoryOutcome.Complete
  | _ => if inspected_source_roots scan =? 0 then InventoryOutcome.Unreadable
         else InventoryOutcome.Partial
  end.
Definition source_inventory_inner (m : WorkspaceManifest) (max_files : option Z)
  : result str WorkspaceFileInventory :=
  match observe_discovery_exclusions m with
  | Err (path, error) =>
      Ok (mkInventory [] InventoryOutcome.Unreadable
            [mkIssue path (lit "failed to observe caller-owned discovery exclusion: "
                           ++ io_message error)])
  | Ok exclusions =>
      match try_fold (visit_group max_files m exclusions) empty_scan (source_groups (settings m)) with
      | Err (Failed message) => Err message
      | Err (LimitReached scan) =>
          Ok (mkInventory (sort_paths (all_files scan)) InventoryOutcome.Bounded (issues scan))
      | Ok scan => Ok (mkInventory (sort_paths (all_files scan)) (inventory_outcome scan) (issues scan))
      end
  end.

Definition source_inventory (m : WorkspaceManifest) : result str WorkspaceFileInventory :=
  source_inventory_inner m None.
Definition source_files (m : WorkspaceManifest) : result str (list str) :=
  inventory ← source_inventory m;
  if is_complete (inv_outcome inventory) then Ok (inv_files inventory)
  else Err (inventory_failure_message inventory).
Definition source_files_bounded (m : WorkspaceManifest) (max_files : Z)
  : result str (option (list str)) :=
  inventory ← source_inventory_inner m (Some max_files);
  match inv_outcome inventory with
  | InventoryOutcome.Complete => Ok (Some (inv_files inventory))
  | InventoryOutcome.Bounded => Ok None
  | InventoryOutcome.Partial | InventoryOutcome.Unreadable => Err (inventory_failure_message inventory)
  end.
End Discovery.
