(* ===== verification/WorkspaceRefresh.v ===== *)
(** * Refresh planning

    codestory-contracts/src/workspace.rs and codestory-workspace/src/lib.rs: the inventory
    under the source-index policy, the revalidation of exclusions, and the plan that
    compares an inventory with the stored files.  The order in which a hash map hands out
    its entries is an interface.

    The second part: the source-index policy. *)
From S2P Require Import Prelude RustStr RetrievalData Sorting StrOps UnixPath Collections WorkspacePaths.
From S2P Require Import WorkspacePaths WorkspaceDiscovery.

(** ** Contracts *)
Definition OVERSIZED_SOURCE_POLICY_VERSION : str := lit "bounded-source-exclusion-v2".
Definition DEFAULT_SOURCE_FILE_BYTE_CAP : Z := 1000000.
Definition DEFAULT_STRUCTURAL_UNIT_CAP : Z := 2048.
Record SourceIndexPolicy : Type := mkPolicy {
  policy_version : str;
  byte_cap : Z;
  structural_unit_cap : Z;
}.
Definition oversized (byte_cap : Z) : SourceIndexPolicy :=
  mkPolicy OVERSIZED_SOURCE_POLICY_VERSION (Z.max byte_cap 1) DEFAULT_STRUCTURAL_UNIT_CAP.
Definition default_policy : SourceIndexPolicy := oversized DEFAULT_SOURCE_FILE_BYTE_CAP.

Record OversizedSourceExclusionCandidate : Type := mkCandidate {
  ex_normalized_path : str;
  ex_content_hash : str;
  ex_observed_size : Z;
  ex_observed_unit_count : Z;
  ex_policy_version : str;
  ex_byte_cap : Z;
  ex_structural_unit_cap : Z;
}.
Module RefreshMode.
Inductive RefreshMode : Set := Incremental | FullRefresh.
End RefreshMode.
Abbreviation RefreshMode := RefreshMode.RefreshMode.
Record StoredFileState : Type := mkStoredFile {
  sf_id : Z;
  sf_path : str;
  sf_modification_time : Z;
  sf_content_hash : option str;
  sf_indexed : bool;
  sf_complete : bool;
  sf_retry_required : bool;
}.
Record IndexedFileRecord : Type := mkIndexedFile {
  if_file_id : Z;
  if_modification_time : Z;
  if_content_hash : option str;
  if_indexed : bool;
  if_complete : bool;
  if_retry_required : bool;
}.
(** A path buffer as a key is its components; the map keeps the buffer beside it. *)
Record RefreshInputs : Type := mkInputs {
  stored_files : list StoredFileState;
  input_policy_exclusions : list OversizedSourceExclusionCandidate;
  inventory : list (list Component * (str * IndexedFileRecord));
}.
Record RefreshPlan : Type := mkPlan {
  mode : RefreshMode;
  files_to_index : list str;
  files_to_remove : list Z;
  existing_file_ids : list (list Component * Z);
}.
Definition from_records (records : list (str * IndexedFileRecord))
  : list (list Component * (str * IndexedFileRecord)) :=
  foldl (λ m r, hm_insert m (components r.1) r) [] records.
Definition stored_of_record (path : str) (record : IndexedFileRecord) : StoredFileState :=
  mkStoredFile (if_file_id record) path (if_modification_time record) (if_content_hash record)
    (if_indexed record) (if_complete record) (if_retry_required record).
Definition inventory_map (inputs : RefreshInputs) : list (list Component * StoredFileState) :=
  match stored_files inputs with
  | [] => (λ e, (e.1, stored_of_record e.2.1 e.2.2)) <$> inventory inputs
  | files => foldl (λ m file, hm_insert m (components (sf_path file)) file) [] files
  end.

(** ** Outcomes *)
Record WorkspacePolicyFileInventory : Type := mkPolicyInventory {
  pi_files : list str;
  pi_policy_exclusions : list OversizedSourceExclusionCandidate;
  pi_outcome : WorkspaceInventoryOutcome;
  pi_issues : list WorkspaceInventoryIssue;
}.
Record WorkspaceRefreshOutcome : Type := mkRefreshOutcome {
  plan : RefreshPlan;
  ro_inventory_outcome : WorkspaceInventoryOutcome;
  ro_inventory_issues : list WorkspaceInventoryIssue;
}.
Record WorkspacePolicyRefreshOutcome : Type := mkPolicyRefreshOutcome {
  refresh : WorkspaceRefreshOutcome;
  pr_policy_exclusions : list OversizedSourceExclusionCandidate;
}.

Section Refresh.
Context `{FileSystem} {Pattern : Type} `{GlobSyntax Pattern} `{DirectoryWalk} `{HashOrder}.

(** ** The content of a file *)
Definition i64_max : Z := 2 ^ 63 - 1.
Definition modification_time_millis (path : str) : result str Z :=
  match fs_metadata path with
  | Err error => Err (io_message error)
  | Ok metadata =>
      match md_modified metadata with
      | Err error => Err (io_message error)
      | Ok nanos =>
          if nanos <? 0 then Err (lit "second time provided was later than self")
          else Ok (Z.min (nanos / 1000000) i64_max)
      end
  end.
Definition current_content_identity (path : str) : result str (str * Z) :=
  match fs_observe_file path with
  | Err error => Err (io_message error)
  | Ok o =>
      let changed := Err (lit "source metadata changed while hashing " ++ path) in
      if negb (md_len (fo_before o) =? md_len (fo_after o)) then changed
      else
        match md_modified (fo_before o), md_modified (fo_after o) with
        | Ok before, Ok after =>
            if negb (before =? after) then changed
            else Ok (sha256_hex (fo_bytes o), md_len (fo_before o))
        | Err error, _ | Ok _, Err error => Err (io_message error)
        end
  end.
Definition current_content_hash (path : str) : result str str := fst <$> current_content_identity path.

Definition stored_file_needs_index (path : str) (file : StoredFileState) : bool :=
  if negb (sf_indexed file) || sf_retry_required file then true
  else
    match modification_time_millis path with
    | Err _ => true
    | Ok mtime =>
        if negb (mtime =? sf_modification_time file) then true
        else
          match sf_content_hash file with
          | None => false
          | Some expected_hash =>
              match current_content_hash path with
              | Ok actual_hash => negb (str_eqb actual_hash expected_hash)
              | Err _ => true
              end
          end
    end.

(** ** The plan *)
Definition normalized_stored_map (root : str) (inputs : RefreshInputs)
  : list (str * StoredFileState) :=
  foldl (λ m file, hm_insert m (normalized_compare_key root (sf_path file)) file) []
    (hash_order (snd <$> inventory_map inputs)).

Record PlanScan : Type := mkPlanScan {
  to_index : list str;
  existing_ids : list (list Component * Z);
  current_file_keys : list str;
}.
Definition plan_file (root : str) (stored : list (str * StoredFileState)) (s : PlanScan) (path : str)
  : PlanScan :=
  let normalized_key := normalized_compare_key root path in
  let '(needs_index, existing_ids) :=
    match hm_get stored normalized_key with
    | Some file => (stored_file_needs_index path file,
                    hm_insert (existing_ids s) (components path) (sf_id file))
    | None => (true, existing_ids s)
    end in
  mkPlanScan (if needs_index then to_index s ++ [path] else to_index s) existing_ids
    (current_file_keys s ++ [normalized_key]).
Definition removed_ids (stored : list (str * StoredFileState)) (current_keys : list str) : list Z :=
  dedup (sort_z ((λ e : str * StoredFileState, sf_id e.2)
    <$> List.filter (λ e, negb (bool_decide (e.1 ∈ current_keys))) (hash_order stored))).
Definition build_refresh_outcome_from_inventory (m : WorkspaceManifest) (inputs : RefreshInputs)
    (current_files : list str) (inventory_outcome : WorkspaceInventoryOutcome)
    (inventory_issues : list WorkspaceInventoryIssue) : WorkspaceRefreshOutcome :=
  let workspace_root := root_dir m in
  let stored := normalized_stored_map workspace_root inputs in
  let scan := foldl (plan_file workspace_root stored) (mkPlanScan [] [] []) current_files in
  let files_to_remove := if is_complete inventory_outcome
                         then removed_ids stored (current_file_keys scan) else [] in
  mkRefreshOutcome
    (mkPlan RefreshMode.Incremental (to_index scan) files_to_remove (existing_ids scan))
    inventory_outcome inventory_issues.

Definition build_refresh_outcome_inner (m : WorkspaceManifest) (inputs : RefreshInputs)
    (max_current_files : option Z) : result str WorkspaceRefreshOutcome :=
  inventory ← source_inventory_inner m max_current_files;
  Ok (build_refresh_outcome_from_inventory m inputs (inv_files inventory) (inv_outcome inventory)
        (inv_issues inventory)).
Definition build_refresh_outcome (m : WorkspaceManifest) (inputs : RefreshInputs)
  : result str WorkspaceRefreshOutcome := build_refresh_outcome_inner m inputs None.
Definition build_refresh_plan (m : WorkspaceManifest) (inputs : RefreshInputs)
  : result str RefreshPlan := plan <$> build_refresh_outcome m inputs.
Definition build_refresh_plan_bounded (m : WorkspaceManifest) (inputs : RefreshInputs)
    (max_current_files : Z) : result str (option RefreshPlan) :=
  outcome ← build_refresh_outcome_inner m inputs (Some max_current_files);
  Ok (if bool_decide (ro_inventory_outcome outcome = InventoryOutcome.Bounded) then None
      else Some (plan outcome)).
Definition full_refresh_plan (m : WorkspaceManifest) : result str RefreshPlan :=
  files_to_index ← source_files m;
  Ok (mkPlan RefreshMode.FullRefresh files_to_index [] []).
End Refresh.

(** * The source-index policy

    codestory-workspace/src/lib.rs: sources over the byte cap are set aside with a verified
    content identity, exclusions of an earlier run are carried forward while they still name
    the same bytes, and every exclusion is read again before it is published. *)
(** [slice::swap_remove] *)
Definition swap_remove {A} (l : list A) (position : nat) : list A :=
  match last l with
  | None => l
  | Some x => if decide (S position = length l) then removelast l
              else <[position := x]> (removelast l)
  end.
Fixpoint find_position {A} (f : A → bool) (l : list A) : option nat :=
  match l with
  | [] => None
  | x :: l => if f x then Some 0%nat else S <$> find_position f l
  end.

Section Policy.
Context `{FileSystem} {Pattern : Type} `{GlobSyntax Pattern} `{DirectoryWalk} `{HashOrder}.

Definition normalized_policy_path (workspace_root path : str) : result str str :=
  match workspace_relative_path workspace_root path with
  | None => Err (lit "oversized policy candidate escapes the workspace root")
  | Some relative =>
      let relative := unix_path relative in
      if str_eqb relative [] || starts_with relative (lit "/") || one_of (lit "..") (split_on slash relative)
      then Err (lit "oversized policy candidate has an invalid normalized path")
      else Ok relative
  end.

Definition policy_is_valid (policy : SourceIndexPolicy) : bool :=
  negb ((byte_cap policy =? 0) || (structural_unit_cap policy =? 0)
        || str_eqb (trim (policy_version policy)) []).

(** ** The inventory under a policy *)
Record PolicyScan : Type := mkPolicyScan {
  ps_files : list str;
  ps_exclusions : list OversizedSourceExclusionCandidate;
  ps_issues : list WorkspaceInventoryIssue;
}.
Definition keep_file (s : PolicyScan) (path : str) : PolicyScan :=
  mkPolicyScan (ps_files s ++ [path]) (ps_exclusions s) (ps_issues s).
Definition keep_file_with_issue (s : PolicyScan) (path message : str) : PolicyScan :=
  mkPolicyScan (ps_files s ++ [path]) (ps_exclusions s) (ps_issues s ++ [mkIssue path message]).
Definition exclude_file (s : PolicyScan) (candidate : OversizedSourceExclusionCandidate) : PolicyScan :=
  mkPolicyScan (ps_files s) (ps_exclusions s ++ [candidate]) (ps_issues s).
Definition classify_policy_file (root : str) (policy : SourceIndexPolicy) (s : PolicyScan) (path : str)
  : PolicyScan :=
  match fs_metadata path with
  | Err error =>
      keep_file_with_issue s path (lit "failed to inspect policy candidate: " ++ io_message error)
  | Ok metadata =>
      if md_len metadata <=? byte_cap policy then keep_file s path
      else
        match normalized_policy_path root path with
        | Err error => keep_file_with_issue s path error
        | Ok normalized_path =>
            match current_content_identity path with
            | Err error =>
                keep_file_with_issue s path (lit "failed to verify oversized policy candidate: " ++ error)
            | Ok (content_hash, observed_size) =>
                if observed_size <=? byte_cap policy then keep_file s path
                else exclude_file s
                       (mkCandidate normalized_path content_hash observed_size 0
                          (policy_version policy) (byte_cap policy) (structural_unit_cap policy))
            end
        end
  end.
Definition sort_exclusions : list OversizedSourceExclusionCandidate → list OversizedSourceExclusionCandidate :=
  sort_by (cmp_leb (cmp_on ex_normalized_path str_cmp)).
Definition source_inventory_with_policy_inner (m : WorkspaceManifest) (policy : SourceIndexPolicy)
    (max_files : option Z) : result str WorkspacePolicyFileInventory :=
  if negb (policy_is_valid policy)
  then Err (lit "bounded source policy requires non-zero caps and a non-empty version")
  else
    inventory ← source_inventory_inner m max_files;
    if negb (is_complete (inv_outcome inventory))
    then Ok (mkPolicyInventory (inv_files inventory) [] (inv_outcome inventory) (inv_issues inventory))
    else
      let root := workspace_root m in
      let scan := foldl (classify_policy_file root policy)
                    (mkPolicyScan [] [] (inv_issues inventory)) (inv_files inventory) in
      let outcome := match ps_issues scan with
                     | [] => InventoryOutcome.Complete
                     | _ => InventoryOutcome.Partial
                     end in
      Ok (mkPolicyInventory (ps_files scan) (sort_exclusions (ps_exclusions scan)) outcome
            (ps_issues scan)).

(** ** Revalidation *)
Definition exclusion_changed (normalized_path : str) : str :=
  lit "source policy exclusion `" ++ normalized_path ++ lit "` changed before publication".
Definition revalidate_candidate (root : str) (policy : SourceIndexPolicy) (previous_path : option str)
    (candidate : OversizedSourceExclusionCandidate) : result str (option str) :=
  if negb (str_eqb (ex_policy_version candidate) (policy_version policy))
     || negb (ex_byte_cap candidate =? byte_cap policy)
     || negb (ex_structural_unit_cap candidate =? structural_unit_cap policy)
     || bool_decide (previous_path = Some (ex_normalized_path candidate))
  then Err (lit "source policy exclusion `" ++ ex_normalized_path candidate
            ++ lit "` does not match the active policy")
  else
    let path := path_join root (ex_normalized_path candidate) in
    normalized_path ← normalized_policy_path root path;
    if negb (str_eqb normalized_path (ex_normalized_path candidate))
    then Err (lit "source policy exclusion path changed from `" ++ ex_normalized_path candidate
              ++ lit "` to `" ++ normalized_path ++ lit "`")
    else
      identity ← current_content_identity path;
      let '(content_hash, observed_size) := identity : str * Z in
      let byte_bound := (byte_cap policy <? observed_size) && (ex_observed_unit_count candidate =? 0) in
      let unit_bound := (structural_unit_cap policy <? ex_observed_unit_count candidate)
                        && (observed_size <=? byte_cap policy) in
      if negb (str_eqb content_hash (ex_content_hash candidate))
         || negb (observed_size =? ex_observed_size candidate) || negb (byte_bound || unit_bound)
      then Err (exclusion_changed (ex_normalized_path candidate))
      else Ok (Some (ex_normalized_path candidate)).
Definition revalidate_source_policy_exclusions (m : WorkspaceManifest)
    (candidates : list OversizedSourceExclusionCandidate) (policy : SourceIndexPolicy)
  : result str (list OversizedSourceExclusionCandidate) :=
  if negb (policy_is_valid policy)
  then Err (lit "source index policy requires non-zero caps and a non-empty version")
  else
    let verified := sort_exclusions candidates in
    _ ← try_fold (revalidate_candidate (workspace_root m) policy) None verified;
    Ok verified.

(** ** Carrying exclusions forward *)
Record CarryState : Type := mkCarry {
  cy_files : list str;
  cy_exclusions : list OversizedSourceExclusionCandidate;
  cy_policy_paths : list str;
}.
Definition carry_candidate (m : WorkspaceManifest) (policy : SourceIndexPolicy) (s : CarryState)
    (candidate : OversizedSourceExclusionCandidate) : CarryState :=
  if bool_decide (ex_normalized_path candidate ∈ cy_policy_paths s)
     || (ex_observed_unit_count candidate =? 0)
     || negb (is_ok (revalidate_source_policy_exclusions m [candidate] policy))
  then s
  else
    let root := workspace_root m in
    let candidate_key := normalized_compare_key root (path_join root (ex_normalized_path candidate)) in
    match find_position (λ path, str_eqb (normalized_compare_key root path) candidate_key) (cy_files s) with
    | None => s
    | Some position =>
        mkCarry (swap_remove (cy_files s) position) (cy_exclusions s ++ [candidate])
          (cy_policy_paths s ++ [ex_normalized_path candidate])
    end.
Definition carry_forward_verified_policy_exclusions (m : WorkspaceManifest) (inputs : RefreshInputs)
    (policy : SourceIndexPolicy) (inventory : WorkspacePolicyFileInventory)
  : WorkspacePolicyFileInventory :=
  if negb (is_complete (pi_outcome inventory))
     || match input_policy_exclusions inputs with [] => true | _ => false end
  then inventory
  else
    let s := foldl (carry_candidate m policy)
               (mkCarry (pi_files inventory) (pi_policy_exclusions inventory)
                  (ex_normalized_path <$> pi_policy_exclusions inventory))
               (input_policy_exclusions inputs) in
    mkPolicyInventory (sort_paths (cy_files s)) (sort_exclusions (cy_exclusions s))
      (pi_outcome inventory) (pi_issues inventory).

(** ** Plans under a policy *)
Definition plan_of_policy_inventory (m : WorkspaceManifest) (inputs : RefreshInputs)
    (inventory : WorkspacePolicyFileInventory) : WorkspacePolicyRefreshOutcome :=
  mkPolicyRefreshOutcome
    (build_refresh_outcome_from_inventory m inputs (pi_files inventory) (pi_outcome inventory)
       (pi_issues inventory))
    (pi_policy_exclusions inventory).
Definition build_refresh_outcome_with_policy (m : WorkspaceManifest) (inputs : RefreshInputs)
    (byte_cap : Z) (policy_version : str) : result str WorkspacePolicyRefreshOutcome :=
  inventory ← source_inventory_with_policy_inner m
                (mkPolicy policy_version byte_cap DEFAULT_STRUCTURAL_UNIT_CAP) None;
  Ok (plan_of_policy_inventory m inputs inventory).
Definition build_refresh_outcome_bounded_with_policy (m : WorkspaceManifest) (inputs : RefreshInputs)
    (max_current_files : Z) (byte_cap : Z) (policy_version : str)
  : result str WorkspacePolicyRefreshOutcome :=
  inventory ← source_inventory_with_policy_inner m
                (mkPolicy policy_version byte_cap DEFAULT_STRUCTURAL_UNIT_CAP) (Some max_current_files);
  Ok (plan_of_policy_inventory m inputs inventory).
Definition build_refresh_outcome_with_index_policy (m : WorkspaceManifest) (inputs : RefreshInputs)
    (policy : SourceIndexPolicy) : result str WorkspacePolicyRefreshOutcome :=
  inventory ← source_inventory_with_policy_inner m policy None;
  Ok (plan_of_policy_inventory m inputs
        (carry_forward_verified_policy_exclusions m inputs policy inventory)).
Definition build_refresh_outcome_bounded_with_index_policy (m : WorkspaceManifest)
    (inputs : RefreshInputs) (max_current_files : Z) (policy : SourceIndexPolicy)
  : result str WorkspacePolicyRefreshOutcome :=
  inventory ← source_inventory_with_policy_inner m policy (Some max_current_files);
  Ok (plan_of_policy_inventory m inputs
        (carry_forward_verified_policy_exclusions m inputs policy inventory)).
End Policy.

(** ** A small workspace

    A concrete file system for the witnesses of the workspace theorems: one directory with a
    short and a long Rust source, a walk over it, patterns that match literally. *)
Module WorkspaceSample.
(** Path, content and modification time in milliseconds. *)
Definition source_a : str * str * Z := (lit "/w/a.rs", lit "fn a() {}", 5).
Definition source_big : str * str * Z := (lit "/w/big.rs", lit "fn big() { 0123456789 }", 6).
Definition sources : list (str * str * Z) := [source_a; source_big].
Definition source_at (path : str) : option (str * str * Z) := List.find (λ s, str_eqb s.1.1 path) sources.
Definition missing : IoError := mkIoError (lit "NotFound") (lit "no such file").
Definition source_metadata (s : str * str * Z) : FsMetadata :=
  mkMetadata true false (len s.1.2) (Ok (s.2 * 1000000)) 1 (10 + s.2).
Definition directory : FsMetadata := mkMetadata false true 0 (Ok 0) 1 2.
Definition metadata_at (path : str) : result IoError FsMetadata :=
  if str_eqb path (lit "/w") then Ok directory
  else match source_at path with Some s => Ok (source_metadata s) | None => Err missing end.
Definition entry_of (s : str * str * Z) : WalkEntry := mkWalkEntry s.1.1 false true None.

Definition file_system : FileSystem := {|
  fs_metadata := metadata_at;
  fs_canonicalize path := (λ _, path) <$> metadata_at path;
  fs_observe_file path := match source_at path with
                          | Some s => Ok (mkFileObservation (source_metadata s) s.1.2 (source_metadata s))
                          | None => Err missing
                          end;
  fs_read_to_string path := match source_at path with Some s => Ok s.1.2 | None => Err missing end;
  sha256_hex content := content |}.
Definition directory_walk : DirectoryWalk := {|
  walk_tree dir filter := if str_eqb dir (lit "/w")
                          then Ok <$> List.filter filter (entry_of <$> sources) else [] |}.
Definition literal_globs : GlobSyntax str := {| pattern_new := Ok; pattern_matches_path := str_eqb |}.
Definition insertion_order : HashOrder := {| hash_order A l := l; hash_order_perm A l := Permutation_refl l |}.

Definition group : SourceGroupSettings :=
  mkSourceGroup (lit "g") Language.Rust LanguageStandard.Default [lit "."] [lit "**/target/**"] [] []
    LanguageSpecific.Other.
Definition manifest : WorkspaceManifest :=
  from_parts (mkSettings (lit "w") 1 [group]) (lit "/w/codestory_project.json").
Definition stored_a : StoredFileState :=
  mkStoredFile 1 (lit "/w/a.rs") 5 (Some (lit "fn a() {}")) true true false.
Definition stored_big : StoredFileState :=
  mkStoredFile 2 (lit "/w/big.rs") 6 (Some (lit "fn big() { 0123456789 }")) true true false.
Definition stored_gone : StoredFileState :=
  mkStoredFile 7 (lit "/w/gone.rs") 4 None true true false.
(** One row is of a file that is gone; a published exclusion stands for the short source. *)
Definition inputs_gone : RefreshInputs := mkInputs [stored_gone; stored_a] [] [].
Definition inputs_recorded : RefreshInputs := mkInputs [stored_a; stored_big] [] [].
Definition policy : SourceIndexPolicy := mkPolicy (lit "v1") 20 3.
Definition published : OversizedSourceExclusionCandidate :=
  mkCandidate (lit "a.rs") (lit "fn a() {}") 9 4 (lit "v1") 20 3.
Definition inputs_published : RefreshInputs := mkInputs [stored_a] [published] [].

#[export] Existing Instances file_system directory_walk literal_globs insertion_order.
Definition outcome_of (inputs : RefreshInputs) : WorkspaceRefreshOutcome :=
  default (mkRefreshOutcome (mkPlan RefreshMode.Incremental [] [] []) InventoryOutcome.Bounded [])
    (result_ok (build_refresh_outcome_inner manifest inputs None)).
End WorkspaceSample.
