(* ===== verification/WorkspacePathsProofs.v ===== *)
(** * Normal forms of paths and containment

    The two lexical normalisers of the workspace crate as stacks of components, where they
    agree and where they do not, and what containment in a root means.

    The second part: containment of paths in a project. *)
From S2P Require Import Prelude RustStr RetrievalData Sorting StrOps UnixPath WorkspacePaths.

(** ** The normalisers on components *)
Abbreviation stack := (bool * list Component)%type.
Definition stack_path (s : stack) : str := render s.1 s.2.
Definition stack_ok (s : stack) : Prop := Forall plain s.2.

(** [..] takes the top of the stack, whatever it is. *)
Definition lexical_stack (s : stack) (c : Component) : stack :=
  match c with
  | Component.CurDir => s
  | Component.RootDir => (true, [])
  | Component.ParentDir => match s.2 with [] => (s.1, [c]) | body => (s.1, removelast body) end
  | Component.Normal _ => (s.1, s.2 ++ [c])
  end.
(** [..] takes a name; behind a root it takes nothing. *)
Definition missing_stack (s : stack) (c : Component) : stack :=
  match c with
  | Component.CurDir => s
  | Component.RootDir => (true, [])
  | Component.ParentDir =>
      match last s.2 with
      | Some (Component.Normal _) => (s.1, removelast s.2)
      | _ => if s.1 then s else (s.1, s.2 ++ [c])
      end
  | Component.Normal _ => (s.1, s.2 ++ [c])
  end.

Definition in_path (c : Component) : Prop :=
  match c with Component.Normal name => proper_name name | _ => True end.
Lemma components_in_path path : Forall in_path (components path).
Proof.
  destruct (components_body path) as (body & -> & H). apply Forall_app. split.
  - destruct (is_absolute path), (starts_with_cur_dir path); repeat constructor.
  - eapply Forall_impl; [exact H|]. by intros [].
Qed.

Lemma file_name_render rooted body : Forall plain body →
  file_name (render rooted body) =
  match last body with Some (Component.Normal name) => Some name | _ => None end.
Proof.
  intros H. unfold file_name. rewrite split_render by done.
  destruct body as [|c body _] using rev_ind; [by destruct rooted|].
  apply Forall_app in H as [_ [Hc _]%Forall_cons].
  rewrite last_snoc. replace (match body ++ [c] with [] => [[]] | _ => component_text <$> body ++ [c] end)
    with (component_text <$> body ++ [c]) by by destruct body.
  rewrite fmap_app, app_assoc. cbn [fmap list_fmap]. rewrite reverse_snoc. cbn [last_component].
  destruct (plain_text c Hc) as (Hne & _ & Hdot). unfold str_eqb.
  rewrite !bool_decide_eq_false_2 by done. cbn [orb]. destruct c; try done. cbn [component_text].
  destruct Hc as (_ & _ & Hc & _). by rewrite bool_decide_eq_false_2.
Qed.

Lemma lexical_step_stack s c : stack_ok s → in_path c →
  lexical_step (stack_path s) c = stack_path (lexical_stack s c) ∧ stack_ok (lexical_stack s c).
Proof.
  destruct s as [r b]. unfold stack_ok, stack_path. cbn [fst snd]. intros Hb Hc.
  destruct c; cbn [lexical_step lexical_stack fst snd]; [done|done| |].
  - rewrite parent_render by done. destruct b as [|d b].
    + cbn [fst snd]. split; [by rewrite push_render|]. by repeat constructor.
    + split; [done|]. destruct b as [|e b _] using rev_ind; [by constructor|].
      change (d :: b ++ [e]) with ((d :: b) ++ [e]) in *. cbn [snd]. rewrite removelast_last.
      by apply Forall_app in Hb as [? _].
  - split; [by apply push_render|]. apply Forall_app. split; [done|]. by apply Forall_singleton.
Qed.
Lemma missing_step_stack s c : stack_ok s → in_path c →
  missing_step (stack_path s) c = stack_path (missing_stack s c) ∧ stack_ok (missing_stack s c).
Proof.
  destruct s as [r b]. unfold stack_ok, stack_path. cbn [fst snd]. intros Hb Hc.
  destruct c; cbn [missing_step missing_stack fst snd]; [done|done| |].
  - rewrite file_name_render, render_absolute, parent_render by done.
    destruct b as [|d b _] using rev_ind.
    + cbn [last]. destruct r; cbn [negb fst snd]; [done|]. split; [done|]. by repeat constructor.
    + pose proof Hb as [Hb' [Hd _]%Forall_cons]%Forall_app. rewrite last_snoc.
      destruct d as [| | |name]; try done.
      * destruct r; cbn [negb fst snd]; [done|]. split; [by rewrite push_render|].
        apply Forall_app. split; [done|]. by apply Forall_singleton.
      * destruct Hd as (_ & _ & Hd & _). unfold str_eqb. rewrite bool_decide_eq_false_2 by done.
        cbn [negb fst snd]. rewrite removelast_last.
        split; [|done]. by destruct b.
  - split; [by apply push_render|]. apply Forall_app. split; [done|]. by apply Forall_singleton.
Qed.

Lemma fold_stack (step : str → Component → str) (on_stack : stack → Component → stack) :
  (∀ s c, stack_ok s → in_path c →
     step (stack_path s) c = stack_path (on_stack s c) ∧ stack_ok (on_stack s c)) →
  ∀ cs s, Forall in_path cs → stack_ok s →
  foldl step (stack_path s) cs = stack_path (foldl on_stack s cs) ∧ stack_ok (foldl on_stack s cs).
Proof.
  intros Hstep. induction cs as [|c cs IH]; [done|]. intros s [Hc Hcs]%Forall_cons Hs. cbn.
  destruct (Hstep s c Hs Hc) as [-> ?]. by apply IH.
Qed.
Definition lexical_form (path : str) : stack := foldl lexical_stack (false, []) (components path).
Definition missing_form (path : str) : stack := foldl missing_stack (false, []) (components path).
Lemma normalize_lexical_path_stack path :
  normalize_lexical_path path = stack_path (lexical_form path) ∧ stack_ok (lexical_form path).
Proof.
  apply (fold_stack lexical_step lexical_stack lexical_step_stack (components path) (false, []));
    [apply components_in_path|constructor].
Qed.
Lemma normalize_missing_path_stack path :
  normalize_missing_unix_path path = stack_path (missing_form path) ∧ stack_ok (missing_form path).
Proof.
  apply (fold_stack missing_step missing_stack missing_step_stack (components path) (false, []));
    [apply components_in_path|constructor].
Qed.

(** ** The place a path names, where no component is a link *)
Definition enter (place : list str) (c : Component) : list str :=
  match c with
  | Component.RootDir => [] | Component.CurDir => place
  | Component.ParentDir => removelast place | Component.Normal name => place ++ [name]
  end.
Definition location (cwd : list str) (path : str) : list str := foldl enter cwd (components path).
Definition stack_location (cwd : list str) (s : stack) : list str :=
  foldl enter (if s.1 then [] else cwd) s.2.
Lemma location_stack_path cwd s : stack_ok s → location cwd (stack_path s) = stack_location cwd s.
Proof.
  intros H. destruct s as [[] b]; unfold location, stack_path, stack_location; by rewrite components_render.
Qed.
Definition is_name (c : Component) : Prop :=
  match c with Component.Normal _ => True | _ => False end.
Lemma stack_location_snoc cwd r b c : stack_location cwd (r, b ++ [c]) = enter (stack_location cwd (r, b)) c.
Proof. unfold stack_location. cbn [fst snd]. by rewrite foldl_app. Qed.
Lemma removelast_Forall {A} (P : A → Prop) (l : list A) : Forall P l → Forall P (removelast l).
Proof.
  destruct l as [|x l _] using rev_ind; [done|]. rewrite removelast_last. by intros [? _]%Forall_app.
Qed.

Definition missing_ok (s : stack) : Prop := s.1 = true → Forall is_name s.2.
Lemma missing_stack_location cwd s c : missing_ok s →
  stack_location cwd (missing_stack s c) = enter (stack_location cwd s) c ∧ missing_ok (missing_stack s c).
Proof.
  destruct s as [r b]. unfold missing_ok. cbn [fst snd]. intros Hok.
  destruct c; cbn [missing_stack fst snd]; [done|done| |].
  - destruct b as [|d b _] using rev_ind.
    + cbn [last]. destruct r; [done|]. split; [by rewrite stack_location_snoc|done].
    + rewrite last_snoc. destruct r.
      * specialize (Hok eq_refl). apply Forall_app in Hok as [Hb [Hd _]%Forall_cons].
        destruct d; try done. rewrite removelast_last, stack_location_snoc. cbn [enter].
        by rewrite removelast_last.
      * destruct d; cbn [fst snd]; try (split; [by rewrite stack_location_snoc|done]).
        rewrite removelast_last, stack_location_snoc. cbn [enter]. by rewrite removelast_last.
  - split; [by rewrite stack_location_snoc|]. intros Hr. apply Forall_app.
    split; [auto|by apply Forall_singleton].
Qed.

(** A path that never climbs over its start; a root starts anew. *)
Fixpoint stays (depth : nat) (cs : list Component) : bool :=
  match cs with
  | [] => true
  | Component.RootDir :: cs => stays 0 cs
  | Component.CurDir :: cs => stays depth cs
  | Component.ParentDir :: cs => match depth with O => false | S depth => stays depth cs end
  | Component.Normal _ :: cs => stays (S depth) cs
  end.
Definition climbs (path : str) : bool := negb (stays 0 (components path)).

(** Behind a root the first component may be [..], which leads nowhere. *)
Definition lexical_ok (s : stack) : Prop := Forall is_name (tail s.2).
Lemma rooted_location_removelast cwd b : Forall is_name (tail b) →
  stack_location cwd (true, removelast b) = removelast (stack_location cwd (true, b)).
Proof.
  destruct b as [|d b _] using rev_ind; [done|]. rewrite removelast_last, stack_location_snoc.
  intros H. destruct b as [|e b].
  - by destruct d.
  - cbn [app tail] in H. apply Forall_app in H as [_ [Hd _]%Forall_cons].
    destruct d; try done. cbn [enter]. by rewrite removelast_last.
Qed.
Lemma lexical_stack_ok s c : lexical_ok s → lexical_ok (lexical_stack s c).
Proof.
  destruct s as [r b]. unfold lexical_ok. cbn [fst snd]. intros Hok.
  destruct c; cbn [lexical_stack fst snd]; [constructor|done| |].
  - destruct b as [|d b]; [constructor|]. cbn [tail snd] in *. destruct b as [|e b]; [constructor|].
    change (removelast (d :: e :: b)) with (d :: removelast (e :: b)). cbn [tail].
    by apply removelast_Forall.
  - destruct b; [constructor|]. cbn [app tail] in *. apply Forall_app. split; [done|].
    by apply Forall_singleton.
Qed.
Lemma lexical_stack_rooted cwd b c : lexical_ok (true, b) →
  stack_location cwd (lexical_stack (true, b) c) = enter (stack_location cwd (true, b)) c
  ∧ (lexical_stack (true, b) c).1 = true.
Proof.
  intros Hok. destruct c; cbn [lexical_stack fst snd]; [done|done| |].
  - destruct b as [|d b]; [done|]. split; [|done]. by apply rooted_location_removelast.
  - by rewrite stack_location_snoc.
Qed.
Lemma lexical_rooted_fold cwd cs : ∀ b, lexical_ok (true, b) →
  stack_location cwd (foldl lexical_stack (true, b) cs) = foldl enter (stack_location cwd (true, b)) cs.
Proof.
  induction cs as [|c cs IH]; intros b Hb; [done|]. cbn [foldl].
  destruct (lexical_stack_rooted cwd b c Hb) as [<- Hr].
  pose proof (lexical_stack_ok (true, b) c Hb) as Hok.
  destruct (lexical_stack (true, b) c) as [r b']. cbn [fst] in Hr. subst r. by apply IH.
Qed.
Lemma missing_fold cwd cs : ∀ s, missing_ok s →
  stack_location cwd (foldl missing_stack s cs) = foldl enter (stack_location cwd s) cs.
Proof.
  induction cs as [|c cs IH]; intros s Hs; [done|]. cbn [foldl].
  destruct (missing_stack_location cwd s c Hs) as [<- ?]. by apply IH.
Qed.
Lemma lexical_stack_pop r b d : lexical_stack (r, b ++ [d]) Component.ParentDir = (r, b).
Proof.
  cbn [lexical_stack fst snd]. destruct b as [|e b]; [done|].
  change ((r, removelast ((e :: b) ++ [d])) = (r, e :: b)). by rewrite removelast_last.
Qed.
(** On a path that stays below its start the two normalisers take the same steps. *)
Lemma stacks_agree cs : ∀ s, Forall is_name s.2 → stays (length s.2) cs = true →
  foldl lexical_stack s cs = foldl missing_stack s cs.
Proof.
  induction cs as [|c cs IH]; intros [r b] Hs Hc; [done|]. cbn [foldl fst snd] in *.
  destruct c; cbn [stays lexical_stack missing_stack fst snd] in *.
  - apply IH; [constructor|done].
  - by apply IH.
  - destruct b as [|d b _] using rev_ind; [done|].
    change (foldl lexical_stack (lexical_stack (r, b ++ [d]) Component.ParentDir) cs
            = foldl missing_stack (missing_stack (r, b ++ [d]) Component.ParentDir) cs).
    rewrite lexical_stack_pop. cbn [missing_stack fst snd]. rewrite last_snoc, length_app in *.
    apply Forall_app in Hs as [Hb [Hd _]%Forall_cons]. destruct d; try done.
    rewrite removelast_last. apply IH; [done|]. cbn [length snd] in *. by rewrite Nat.add_1_r in Hc.
  - apply IH; cbn [snd].
    + apply Forall_app. split; [done|]. by apply Forall_singleton.
    + by rewrite length_app, Nat.add_1_r.
Qed.

(** A stack that building it up again gives back. *)
Definition rebuilt (on_stack : stack → Component → stack) (s : stack) : Prop :=
  foldl on_stack (s.1, []) s.2 = s.
Lemma missing_rebuilt s c : rebuilt missing_stack s → rebuilt missing_stack (missing_stack s c).
Proof.
  destruct s as [r b]. unfold rebuilt. cbn [fst snd]. intros H.
  assert (∀ d, missing_stack (r, b) d = (r, b ++ [d]) → foldl missing_stack (r, []) (b ++ [d]) = (r, b ++ [d])) as Hpush.
  { intros d Hd. by rewrite foldl_app, H. }
  destruct c as [| | |name]; [done|done| |by apply Hpush].
  cbn [missing_stack fst snd]. destruct b as [|d b _] using rev_ind.
  - cbn [last]. by destruct r.
  - rewrite last_snoc. destruct d as [| | |name].
    1-3: destruct r; [exact H|]; apply Hpush; cbn [missing_stack fst snd]; by rewrite last_snoc.
    rewrite removelast_last. cbn [fst snd]. rewrite foldl_app in H. cbn [foldl missing_stack] in H.
    destruct (foldl missing_stack (r, []) b) as [r' b']. cbn [fst snd] in H.
    injection H as -> H. by apply app_inj_tail in H as [-> _].
Qed.
Lemma lexical_rebuilt s c : lexical_ok s → rebuilt lexical_stack s → rebuilt lexical_stack (lexical_stack s c).
Proof.
  destruct s as [r b]. unfold rebuilt. cbn [fst snd]. intros Hok H.
  destruct c as [| | |name]; [done|done| |].
  - destruct b as [|d b _] using rev_ind; [done|]. rewrite lexical_stack_pop. cbn [fst snd].
    destruct b as [|e b]; [done|]. unfold lexical_ok in Hok. cbn [app tail snd] in Hok.
    apply Forall_app in Hok as [_ [Hd _]%Forall_cons]. destruct d as [| | |name]; try done.
    rewrite foldl_app in H. destruct (foldl lexical_stack (r, []) (e :: b)) as [r' b'].
    cbn [foldl lexical_stack fst snd] in H. injection H as -> H.
    change (e :: b ++ [Component.Normal name]) with ((e :: b) ++ [Component.Normal name]) in H.
    by apply app_inj_tail in H as [-> _].
  - cbn [lexical_stack fst snd]. by rewrite foldl_app, H.
Qed.
Lemma rebuilt_idempotent on_stack s : stack_ok s → rebuilt on_stack s →
  (∀ t, on_stack t Component.RootDir = (true, [])) →
  foldl on_stack (false, []) (components (stack_path s)) = s.
Proof.
  intros Hs Hr Hroot. destruct s as [[] b]; unfold stack_path; cbn [fst snd];
    rewrite components_render by done; cbn [app foldl]; [|exact Hr]. rewrite Hroot. exact Hr.
Qed.
Lemma missing_form_rebuilt path : rebuilt missing_stack (missing_form path).
Proof.
  unfold missing_form. generalize (components path). intros cs.
  assert (rebuilt missing_stack (false, [])) as H by done. revert H.
  generalize (false, @nil Component). induction cs as [|c cs IH]; intros s Hs; [done|].
  cbn. by apply IH, missing_rebuilt.
Qed.
Lemma lexical_form_rebuilt path : rebuilt lexical_stack (lexical_form path).
Proof.
  unfold lexical_form. generalize (components path). intros cs.
  assert (rebuilt lexical_stack (false, []) ∧ lexical_ok (false, [])) as H by (split; constructor). revert H.
  generalize (false, @nil Component). induction cs as [|c cs IH]; intros s [Hs Hok]; [done|].
  cbn. apply IH. split; [by apply lexical_rebuilt|by apply lexical_stack_ok].
Qed.
Lemma normalize_lexical_idempotent path :
  normalize_lexical_path (normalize_lexical_path path) = normalize_lexical_path path.
Proof.
  destruct (normalize_lexical_path_stack path) as [-> Hok].
  rewrite (proj1 (normalize_lexical_path_stack _)). unfold lexical_form at 1.
  by rewrite rebuilt_idempotent by (done || apply lexical_form_rebuilt).
Qed.
Lemma normalize_missing_idempotent path :
  normalize_missing_unix_path (normalize_missing_unix_path path) = normalize_missing_unix_path path.
Proof.
  destruct (normalize_missing_path_stack path) as [-> Hok].
  rewrite (proj1 (normalize_missing_path_stack _)). unfold missing_form at 1.
  by rewrite rebuilt_idempotent by (done || apply missing_form_rebuilt).
Qed.

(** ** The two normal forms *)
Lemma normalize_missing_place cwd path : location cwd (normalize_missing_unix_path path) = location cwd path.
Proof.
  destruct (normalize_missing_path_stack path) as [-> Hok]. rewrite location_stack_path by done.
  by apply (missing_fold cwd (components path) (false, [])).
Qed.
Lemma normalizers_same path : climbs path = false →
  normalize_lexical_path path = normalize_missing_unix_path path.
Proof.
  intros H%negb_false_iff. rewrite (proj1 (normalize_lexical_path_stack path)),
    (proj1 (normalize_missing_path_stack path)). unfold lexical_form, missing_form.
  by rewrite stacks_agree by (constructor || done).
Qed.
Lemma normalize_lexical_place cwd path : is_absolute path = true →
  location cwd (normalize_lexical_path path) = location cwd path.
Proof.
  intros Ha. destruct (normalize_lexical_path_stack path) as [-> Hok]. rewrite location_stack_path by done.
  unfold location, lexical_form. destruct (components_body path) as (body & -> & Hb). rewrite Ha.
  cbn [app foldl]. apply (lexical_rooted_fold cwd body []). constructor.
Qed.

(** Both normalisers are idempotent; the one of missing paths always names the same
    place, the one of the workspace names the same place for absolute paths and for paths
    that do not climb over their start, and there the two normal forms are equal. *)
Theorem normal_forms_keep_place path cwd :
  normalize_lexical_path (normalize_lexical_path path) = normalize_lexical_path path ∧
  normalize_missing_unix_path (normalize_missing_unix_path path) = normalize_missing_unix_path path ∧
  location cwd (normalize_missing_unix_path path) = location cwd path ∧
  (is_absolute path = true ∨ climbs path = false →
     location cwd (normalize_lexical_path path) = location cwd path) ∧
  (climbs path = false → normalize_lexical_path path = normalize_missing_unix_path path).
Proof.
  split_and!.
  - apply normalize_lexical_idempotent.
  - apply normalize_missing_idempotent.
  - apply normalize_missing_place.
  - intros [Ha|Hc]; [by apply normalize_lexical_place|].
    rewrite normalizers_same by done. apply normalize_missing_place.
  - apply normalizers_same.
Qed.

(** A relative path that climbs twice loses both steps. *)
Lemma lexical_path_loses_steps :
  normalize_lexical_path (lit "../../a") = lit "a" ∧
  normalize_missing_unix_path (lit "../../a") = lit "../../a".
Proof. by vm_compute. Qed.
Lemma normal_forms_keep_place_witness :
  climbs (lit "a/./b/../c") = false ∧ normalize_lexical_path (lit "a/./b/../c") = lit "a/c" ∧
  normalize_lexical_path (lit "a/./b/../c") = normalize_missing_unix_path (lit "a/./b/../c") ∧
  location [lit "r"] (normalize_lexical_path (lit "a/./b/../c")) = location [lit "r"] (lit "a/./b/../c").
Proof.
  destruct (normal_forms_keep_place (lit "a/./b/../c") [lit "r"]) as (_ & _ & _ & Hplace & Hsame).
  split_and!; [reflexivity|reflexivity|by apply Hsame|apply Hplace; by right].
Defined.

(** ** Roots *)
Lemma lexical_fold_rooted cs : ∀ s, s.1 = true → (foldl lexical_stack s cs).1 = true.
Proof.
  induction cs as [|c cs IH]; intros [r b] Hs; [done|]. cbn [foldl fst] in *. apply IH.
  destruct c; cbn; [done|done| |done]. by destruct b.
Qed.
Lemma normalize_absolute path : is_absolute path = true → is_absolute (normalize_lexical_path path) = true.
Proof.
  intros Ha. destruct (normalize_lexical_path_stack path) as [-> Hok].
  assert ((lexical_form path).1 = true) as Hr.
  { unfold lexical_form. destruct (components_body path) as (body & -> & _). rewrite Ha.
    by apply (lexical_fold_rooted body (true, [])). }
  destruct (lexical_form path) as [r b]. cbn in Hr. subst r. by apply render_absolute.
Qed.
Lemma join_absolute root path : is_absolute root = true → is_absolute (path_join root path) = true.
Proof.
  intros Ha. unfold path_join. destruct (is_absolute path) eqn:Hp; [done|].
  assert (∀ s t, is_absolute s = true → is_absolute (s ++ t) = true) as Happ.
  { intros [|x s] t; [done|]. unfold is_absolute. cbn [app].
    change (Ascii.eqb slash x && starts_with s [] = true → Ascii.eqb slash x && starts_with (s ++ t) [] = true).
    by rewrite !starts_with_nil. }
  destruct (last root) as [c|] eqn:Hl; [|by apply last_None in Hl as ->].
  destruct (is_slash c); by apply Happ.
Qed.
Section Keys.
Context `{FileSystem}.
(** The key of an absolute path does not depend on the root, nor on the spelling. *)
Lemma key_absolute root root' path : is_absolute path = true →
  normalized_compare_key root path = normalized_compare_key root' path.
Proof. intros Ha. unfold normalized_compare_key. by rewrite Ha. Qed.
Lemma key_normalized root path : is_absolute path = true →
  normalized_compare_key root (normalize_lexical_path path) = normalized_compare_key root path.
Proof.
  intros Ha. unfold normalized_compare_key. by rewrite normalize_absolute, Ha, normalize_lexical_idempotent.
Qed.
End Keys.

(** * Containment of paths in a project

    What a relative path of the workspace says about the path, and the resolution of exact
    project paths: a path that exists is in the project after links are followed, a missing
    path is in the project as far as its nearest existing ancestor is. *)
(** ** Prefixes of rendered paths *)
Lemma skip_plain body : Forall plain body → skip_segments (component_text <$> body) = component_text <$> body.
Proof.
  intros [|c b Hc Hb]; [done|]. cbn [fmap list_fmap skip_segments]. by rewrite is_skipped_plain.
Qed.
Lemma drop_names_plain a b : Forall plain (a ++ b) →
  drop_names (length a) (component_text <$> a ++ b) = component_text <$> b.
Proof.
  induction a as [|c a IH]; [done|]. intros H. rewrite <- app_comm_cons in *.
  cbn [length drop_names]. rewrite skip_plain by done. apply Forall_cons in H as [_ H].
  cbn [fmap list_fmap tail]. by apply IH.
Qed.
Lemma drop_names_root n segments : drop_names (S n) ([] :: segments) = drop_names (S n) segments.
Proof. done. Qed.
Lemma path_strip_prefix_prefix path root relative :
  path_strip_prefix path root = Some relative → components root `prefix_of` components path.
Proof. unfold path_strip_prefix. by case_bool_decide. Qed.

Definition body_names (c : Component) : bool :=
  match c with Component.ParentDir | Component.Normal _ => true | _ => false end.
Lemma filter_plain body : Forall plain body → List.filter body_names body = body.
Proof. induction 1 as [|c b Hc _ IH]; [done|]. cbn. rewrite IH. by destruct c. Qed.
(** The rest of a path behind a root that is not empty. *)
Lemma strip_render r a b : Forall plain (a ++ b) → (r = true ∨ a ≠ []) →
  path_strip_prefix (render r (a ++ b)) (render r a) = Some (render false b).
Proof.
  intros H Hr. pose proof H as [Ha Hb]%Forall_app. unfold path_strip_prefix.
  rewrite !components_render, bool_decide_eq_true_2 by (done || apply prefix_app, prefix_app_r; done).
  destruct ((if r then [Component.RootDir] else []) ++ a) as [|c cs] eqn:Hc.
  { destruct r; [done|]. by destruct Hr. }
  rewrite <- Hc. fold body_names. rewrite List.filter_app, (filter_plain a) by done.
  replace (List.filter body_names (if r then [Component.RootDir] else [])) with (@nil Component) by by destruct r.
  cbn [app]. rewrite split_render by done.
  match goal with |- Some (join _ (trim_segments_end (skip_segments ?l))) = _ =>
    assert (skip_segments l = component_text <$> b) as -> end; [|by rewrite trim_segments_plain].
  rewrite <- (skip_plain b) by done. destruct a as [|d a].
  - destruct Hr as [->|]; [|done]. cbn [app length drop_names]. by destruct b.
  - destruct r; cbn [app]; [cbn [length]; rewrite drop_names_root|]; f_equal;
      by apply (drop_names_plain (d :: a)).
Qed.
Lemma strip_empty r b : Forall plain b → path_strip_prefix (render r b) [] = Some (render r b).
Proof.
  intros H. unfold path_strip_prefix. change (components []) with (@nil Component).
  rewrite bool_decide_eq_true_2 by apply prefix_nil. rewrite render_absolute, split_render by done.
  destruct r; cbn [app tail].
  - destruct b as [|c b]; [done|]. by rewrite trim_segments_plain.
  - rewrite render_cur_dir by done. destruct b as [|c b]; [done|]. by rewrite trim_segments_plain.
Qed.
(** Stripping a normal form from a normal form leaves the rest of its components. *)
Lemma strip_stacks s t relative : stack_ok s → stack_ok t →
  path_strip_prefix (stack_path s) (stack_path t) = Some relative →
  components (stack_path s) = components (stack_path t) ++ components relative.
Proof.
  destruct s as [r b], t as [r' a]. unfold stack_ok, stack_path. cbn [fst snd]. intros Hb Ha H.
  pose proof (path_strip_prefix_prefix _ _ _ H) as Hp. rewrite !components_render in * by done.
  destruct (decide (r' = false ∧ a = [])) as [[-> ->]|Hne].
  - rewrite strip_empty in H by done. injection H as <-. cbn [app]. by rewrite components_render.
  - assert (r = r' ∧ a `prefix_of` b) as [-> [d ->]].
    { destruct r, r'; cbn [app] in Hp.
      - by apply prefix_cons_inv_2 in Hp.
      - destruct a as [|c a]; [by destruct Hne|]. apply prefix_cons_inv_1 in Hp as ->.
        by apply Forall_cons in Ha as [? _].
      - destruct b as [|c b]; [by apply prefix_nil_inv in Hp|]. apply prefix_cons_inv_1 in Hp as <-.
        by apply Forall_cons in Hb as [? _].
      - done. }
    rewrite strip_render in H; [|done|by destruct r'; [left|right; intros ->; apply Hne]].
    injection H as <-. apply Forall_app in Hb as [_ Hd]. rewrite components_render by done.
    by rewrite app_assoc.
Qed.
Lemma strip_stack_ancestor r a d : Forall plain (a ++ d) → (r = true ∨ a ≠ []) →
  is_Some (path_strip_prefix (stack_path (r, a ++ d)) (stack_path (r, a))).
Proof. intros. unfold stack_path. cbn [fst snd]. rewrite strip_render by done. by eexists. Qed.

(** ** Ancestors *)
Lemma render_length_snoc r b c : Forall plain (b ++ [c]) → (length (render r b) < length (render r (b ++ [c])))%nat.
Proof.
  intros [_ [(Hne & _)%plain_text _]%Forall_cons]%Forall_app. rewrite render_snoc.
  assert (0 < length (component_text c))%nat by (destruct (component_text c); [done|cbn; lia]).
  destruct b; [destruct r|]; rewrite ?length_app; cbn; lia.
Qed.
Lemma ancestors_loop_render r b : ∀ fuel, Forall plain b → (length (render r b) ≤ fuel)%nat →
  ancestors_loop fuel (render r b) = (λ k, render r (take k b)) <$> reverse (seq 0 (S (length b))).
Proof.
  induction b as [|c b IH] using rev_ind; intros fuel Hb Hf.
  - destruct fuel; cbn [ancestors_loop]; [done|]. by rewrite parent_render.
  - pose proof (render_length_snoc r b c Hb). destruct fuel as [|fuel]; [lia|]. cbn [ancestors_loop].
    rewrite parent_render, removelast_last by done.
    assert (match b ++ [c] with [] => None | _ => Some (render r b) end = Some (render r b)) as ->
      by by destruct b.
    rewrite length_app, Nat.add_1_r, seq_S, reverse_snoc. cbn [fmap list_fmap Nat.add].
    rewrite take_ge by (rewrite length_app; cbn; lia). f_equal.
    apply Forall_app in Hb as [Hb _]. rewrite IH by (done || lia).
    apply list_fmap_ext. intros i k Hk. apply list_elem_of_lookup_2, elem_of_reverse, elem_of_seq in Hk.
    by rewrite take_app_le by lia.
Qed.
Lemma path_ancestors_render r b : Forall plain b →
  path_ancestors (render r b) = (λ k, render r (take k b)) <$> reverse (seq 0 (S (length b))).
Proof. intros H. by apply ancestors_loop_render. Qed.
Lemma path_ancestors_elem r b q : Forall plain b →
  q ∈ path_ancestors (render r b) ↔ ∃ a d, b = a ++ d ∧ q = render r a.
Proof.
  intros Hb. rewrite path_ancestors_render, list_elem_of_fmap by done. split.
  - intros (k & -> & Hk). exists (take k b), (drop k b). by rewrite take_drop.
  - intros (a & d & -> & ->). exists (length a). split; [by rewrite take_app_length|].
    apply elem_of_reverse, elem_of_seq. rewrite length_app. lia.
Qed.

Section Containment.
Context `{FileSystem}.

(** A relative path of the workspace is the rest of the normal form behind the root, or
    behind an ancestor with the identity of the root, or it is the normal form of a path
    that was relative; there is none only for an absolute path no ancestor of which is the
    root. *)
Theorem workspace_relative_path_spec root path :
  match workspace_relative_path root path with
  | Some relative =>
      (∃ anchor, components (normalize_lexical_path path) = components anchor ++ components relative
         ∧ (anchor = normalize_lexical_path root
            ∨ same_workspace_path (normalize_lexical_path root) anchor = true))
      ∨ (is_absolute (normalize_lexical_path path) = false ∧ relative = normalize_lexical_path path)
  | None =>
      is_absolute (normalize_lexical_path path) = true
      ∧ ¬ components (normalize_lexical_path root) `prefix_of` components (normalize_lexical_path path)
      ∧ ∀ anchor, anchor ∈ path_ancestors (normalize_lexical_path path) →
          same_workspace_path (normalize_lexical_path root) anchor = false
  end.
Proof.
  unfold workspace_relative_path.
  destruct (normalize_lexical_path_stack root) as [-> Ht], (normalize_lexical_path_stack path) as [-> Hs].
  set (t := lexical_form root) in *. set (s := lexical_form path) in *.
  destruct (path_strip_prefix (stack_path s) (stack_path t)) as [relative|] eqn:Hstrip.
  { left. exists (stack_path t). split; [by apply strip_stacks|by left]. }
  destruct (is_absolute (stack_path s)) eqn:Habs; cbn [negb]; [|by right].
  destruct s as [r b]. unfold stack_path in Habs. cbn [fst snd] in Habs.
  rewrite render_absolute in Habs by exact Hs. subst r.
  destruct (List.find _ _) as [anchor|] eqn:Hfind.
  - apply find_some in Hfind as [Hin Hsame]. apply list_elem_of_In in Hin.
    change (stack_path (true, b)) with (render true b) in Hin.
    apply path_ancestors_elem in Hin as (a & d & -> & ->); [|exact Hs].
    change (render true a) with (stack_path (true, a)) in *.
    pose proof Hs as Hs'. unfold stack_ok in Hs'. cbn [snd] in Hs'.
    destruct (strip_stack_ancestor true a d) as [relative Hrel]; [done|by left|].
    cbn [mbind option_bind]. rewrite Hrel. left. eexists. split; [|by right].
    apply strip_stacks; [done| |done]. by apply Forall_app in Hs' as [? _].
  - cbn [mbind option_bind]. split_and!; [done| |].
    + intros Hp. unfold path_strip_prefix in Hstrip. rewrite bool_decide_eq_true_2 in Hstrip by done.
      by destruct (components (stack_path t)), (is_absolute (stack_path (true, b))), (starts_with_cur_dir (stack_path (true, b))).
    + intros anchor Hin. apply (find_none _ _ Hfind). by apply list_elem_of_In.
Qed.

(** ** Exact project paths *)
(** What the file system says of the nearest proper ancestor it does not miss. *)
Definition nearest_answer (path : str) : option (result IoError str) :=
  match fs_canonicalize path with
  | Ok resolved => Some (Ok resolved)
  | Err error => if is_not_found error then None else Some (Err error)
  end.
Definition nearest_existing (candidate : str) : option (result IoError str) :=
  find_map nearest_answer (tail (path_ancestors candidate)).
Definition in_project (root resolved : str) : Prop :=
  is_Some (workspace_relative_path (resolved_project_root root) resolved).
Definition project_candidate (workspace_root requested : str) : str :=
  normalize_lexical_path (if is_absolute requested then requested
                          else path_join (normalize_lexical_path workspace_root) requested).
Lemma missing_ancestor_loop_answers root fuel : ∀ path,
  missing_ancestor_loop (S fuel) root (Some path) =
  match find_map nearest_answer (ancestors_loop fuel path) with
  | None => Ok true
  | Some (Ok resolved) => Ok (bool_decide (is_Some (workspace_relative_path root resolved)))
  | Some (Err error) => Err error
  end.
Proof.
  induction fuel as [|fuel IH]; intros path.
  - cbn. unfold nearest_answer. destruct (fs_canonicalize path) as [resolved|error]; [done|].
    destruct (is_not_found error); [|done]. by destruct (path_parent path).
  - change (missing_ancestor_loop (S (S fuel)) root (Some path)) with
      (match fs_canonicalize path with
       | Ok resolved => Ok (bool_decide (is_Some (workspace_relative_path root resolved)))
       | Err error => if is_not_found error
                      then missing_ancestor_loop (S fuel) root (path_parent path) else Err error
       end).
    cbn [ancestors_loop find_map]. unfold nearest_answer at 1.
    destruct (fs_canonicalize path) as [resolved|error]; [done|].
    destruct (is_not_found error); [|done]. by destruct (path_parent path).
Qed.
(** The fuel of the walk over the ancestors of a normal form is enough. *)
Lemma missing_ancestors_of_candidate root s : stack_ok s →
  missing_ancestor_loop (S (length (stack_path s))) root (path_parent (stack_path s)) =
  match nearest_existing (stack_path s) with
  | None => Ok true
  | Some (Ok resolved) => Ok (bool_decide (is_Some (workspace_relative_path root resolved)))
  | Some (Err error) => Err error
  end.
Proof.
  destruct s as [r b]. unfold stack_ok, stack_path, nearest_existing. cbn [fst snd]. intros Hb.
  rewrite parent_render by done. unfold path_ancestors.
  destruct b as [|c b _] using rev_ind.
  - destruct (length (render r [])); [done|]. cbn [ancestors_loop]. by rewrite parent_render.
  - pose proof (render_length_snoc r b c Hb) as Hlen. pose proof Hb as [Hb' _]%Forall_app.
    rewrite removelast_last. replace (match b ++ [c] with [] => None | _ => Some (render r b) end)
      with (Some (render r b)) by by destruct b.
    rewrite missing_ancestor_loop_answers. rewrite ancestors_loop_render by (done || lia).
    destruct (length (render r (b ++ [c]))) as [|n] eqn:Hn; [lia|]. cbn [ancestors_loop tail].
    rewrite parent_render, removelast_last by done.
    replace (match b ++ [c] with [] => None | _ => Some (render r b) end)
      with (Some (render r b)) by by destruct b.
    by rewrite ancestors_loop_render by (done || lia).
Qed.

(** [C40] An exact project path is in the project when its spelling is, when what exists there
    still is after links are followed, and when, for a missing path, the nearest existing
    ancestor is; every other answer of the file system is an error. *)
Theorem resolve_project_path_spec workspace_root requested :
  let root := normalize_lexical_path workspace_root in
  let candidate := project_candidate workspace_root requested in
  match resolve_project_relative_path workspace_root requested with
  | Ok (Resolution.Existing absolute relative) =>
      absolute = candidate ∧ workspace_relative_path root candidate = Some relative ∧ relative ≠ []
      ∧ ∃ metadata resolved, fs_metadata candidate = Ok metadata ∧ md_is_file metadata = true
          ∧ fs_canonicalize candidate = Ok resolved ∧ in_project root resolved
  | Ok (Resolution.NotFile absolute relative) =>
      absolute = candidate ∧ workspace_relative_path root candidate = Some relative
      ∧ (relative = [] ∨ ∃ metadata resolved, fs_metadata candidate = Ok metadata
           ∧ md_is_file metadata = false ∧ fs_canonicalize candidate = Ok resolved
           ∧ in_project root resolved)
  | Ok (Resolution.Missing absolute relative) =>
      absolute = candidate ∧ workspace_relative_path root candidate = Some relative ∧ relative ≠ []
      ∧ (∃ error, fs_metadata candidate = Err error ∧ is_not_found error = true)
      ∧ match nearest_existing candidate with
        | None => True
        | Some (Ok resolved) => in_project root resolved
        | Some (Err _) => False
        end
  | Ok Resolution.OutOfProject =>
      requested = [] ∨ workspace_relative_path root candidate = None
      ∨ ∃ resolved, (fs_canonicalize candidate = Ok resolved
                     ∨ nearest_existing candidate = Some (Ok resolved)) ∧ ¬ in_project root resolved
  | Err error =>
      (fs_metadata candidate = Err error ∧ is_not_found error = false)
      ∨ fs_canonicalize candidate = Err error ∨ nearest_existing candidate = Some (Err error)
  end.
Proof.
  cbv zeta. unfold resolve_project_relative_path. destruct requested as [|x requested]; [by left|].
  fold (project_candidate workspace_root (x :: requested)).
  assert (∃ s, project_candidate workspace_root (x :: requested) = stack_path s ∧ stack_ok s) as (s & Hs & Hok).
  { eexists. apply normalize_lexical_path_stack. }
  set (candidate := project_candidate _ _) in *. set (root := normalize_lexical_path workspace_root).
  destruct (workspace_relative_path root candidate) as [[|y relative]|] eqn:Hrel; [by eauto| |by eauto].
  destruct (fs_metadata candidate) as [metadata|error] eqn:Hmd.
  - destruct (fs_canonicalize candidate) as [resolved|error] eqn:Hcan;
      cbn [mbind result_bind]; [|by eauto].
    destruct (workspace_relative_path (resolved_project_root root) resolved) eqn:Hin.
    + assert (in_project root resolved) by (unfold in_project; by rewrite Hin).
      destruct (md_is_file metadata) eqn:Hfile; eauto 12.
    + right; right. exists resolved. split; [by left|]. unfold in_project. rewrite Hin. by intros [].
  - destruct (is_not_found error) eqn:Hnf; [|by eauto].
    rewrite Hs, missing_ancestors_of_candidate by done. rewrite <- Hs.
    destruct (nearest_existing candidate) as [[resolved|e]|] eqn:Hnear; cbn [mbind result_bind];
      [case_bool_decide as Hin|by eauto|by eauto 12].
    + by eauto 12.
    + right; right. exists resolved. split; [by right|done].
Qed.
End Containment.
