(* ===== verification/WorkspaceInventoryProofs.v ===== *)
(** * What an inventory of a workspace is

    The scan of source groups, with its early exits, against a declarative reading: every
    source path offers a list of observations, found files and issues, and the inventory is
    the distinct files and all the issues of them.

    The second part: inventories: refinement, exactness, completeness. *)
From S2P Require Import Prelude RustStr RetrievalData Sorting StrOps UnixPath Collections WorkspacePaths.
From S2P Require Import WorkspacePaths WorkspaceDiscovery WorkspaceRefresh.

(** ** Observations *)
Inductive Observation : Type := Found (path : str) | Unclear (path message : str).
Definition found_path (o : Observation) : option str :=
  match o with Found path => Some path | Unclear _ _ => None end.
Definition found_paths (os : list Observation) : list str := omap found_path os.
Definition unclear_issue (o : Observation) : option WorkspaceInventoryIssue :=
  match o with Found _ => None | Unclear path message => Some (mkIssue path message) end.
Definition unclear_issues (os : list Observation) : list WorkspaceInventoryIssue := omap unclear_issue os.

Lemma found_paths_elem os path : path ∈ found_paths os ↔ Found path ∈ os.
Proof.
  unfold found_paths. rewrite list_elem_of_omap. split.
  - intros ([] & Ho & H); [by injection H as ->|done].
  - intros H. by exists (Found path).
Qed.

Section Inventory.
Context `{FileSystem} {Pattern : Type} `{GlobSyntax Pattern} `{DirectoryWalk}.

(** What one answer of a walk, and one source path, offer. *)
Definition entry_observations (full_path : str) (exclusions : ObservedDiscoveryExclusions)
    (entry : result str WalkEntry) : list Observation :=
  match entry with
  | Err error => [Unclear full_path error]
  | Ok entry =>
      match we_error entry with Some error => [Unclear (we_path entry) error] | None => [] end
      ++ (if we_is_file entry then
            match file_is_excluded exclusions (we_path entry) with
            | Ok true => []
            | Ok false => [Found (we_path entry)]
            | Err error => [Unclear (we_path entry) (identity_issue error)]
            end
          else [])
  end.
Record SourceObservations : Type := mkSource { so_inspected : bool; so_observed : list Observation }.
Definition source_filter (m : WorkspaceManifest) (exclusions : ObservedDiscoveryExclusions)
    (group : SourceGroupSettings) (compiled : list (CompiledExcludePattern (Pattern := Pattern))) (full_path : str)
  : DiscoveryPathFilter (Pattern := Pattern) :=
  mkFilter (workspace_root m) (discovery_root full_path) (should_filter_source_group_language m)
    (group_language group) compiled exclusions.
Definition source_observations (m : WorkspaceManifest) (exclusions : ObservedDiscoveryExclusions)
    (group : SourceGroupSettings) (compiled : list (CompiledExcludePattern (Pattern := Pattern))) (source_path : str)
  : result str SourceObservations :=
  full_path ← resolve_manifest_source_path m source_path;
  Ok (if directory_contains exclusions full_path then mkSource false []
      else match file_is_excluded exclusions full_path with
      | Ok true => mkSource false []
      | Err error => mkSource false [Unclear full_path (identity_issue error)]
      | Ok false =>
          if bool_decide (is_Some (workspace_structural_source_exclusion (workspace_root m) full_path))
          then mkSource false []
          else match fs_metadata full_path with
          | Err error => mkSource false [Unclear full_path (io_message error)]
          | Ok metadata =>
              let filter := source_filter m exclusions group compiled full_path in
              if md_is_file metadata then
                mkSource true (if should_include_discovered_path full_path false filter
                               then [Found full_path] else [])
              else if md_is_dir metadata then
                mkSource true (walk_tree full_path (walk_filter filter)
                                 ≫= entry_observations full_path exclusions)
              else mkSource false [Unclear full_path (lit "unsupported source root file type")]
          end
      end).
Definition group_observations (m : WorkspaceManifest) (exclusions : ObservedDiscoveryExclusions)
    (group : SourceGroupSettings) : result str (list SourceObservations) :=
  compiled ← compile_exclude_patterns (exclude_patterns group);
  mapM (source_observations m exclusions group compiled) (source_paths group).
Definition inventory_observations (m : WorkspaceManifest) (exclusions : ObservedDiscoveryExclusions)
  : result str (list SourceObservations) :=
  mjoin <$> mapM (group_observations m exclusions) (source_groups (settings m)).
Definition all_observed (sources : list SourceObservations) : list Observation := sources ≫= so_observed.

(** ** The scan absorbs observations *)
Definition absorb (max_files : option Z) (root : str) (scan : InventoryScan) (o : Observation)
  : result ScanExit InventoryScan :=
  match o with
  | Found path => push_discovered_file_within_limit max_files root scan path
  | Unclear path message => Ok (record_issue path message scan)
  end.
Definition absorb_source (max_files : option Z) (root : str) (scan : InventoryScan)
    (source : SourceObservations) : result ScanExit InventoryScan :=
  try_fold (absorb max_files root) (if so_inspected source then inspect_root scan else scan)
    (so_observed source).

Lemma try_fold_bind {E S A B} (f : S → B → result E S) (g : A → list B) l : ∀ s,
  try_fold (λ s a, try_fold f s (g a)) s l = try_fold f s (l ≫= g).
Proof.
  induction l as [|a l IH]; intros s; [done|]. cbn [mbind list_bind try_fold].
  rewrite try_fold_app. unfold mbind at 1 3, result_bind. destruct (try_fold f s (g a)); [|done]. apply IH.
Qed.
Lemma try_fold_ext {E S A} (f g : S → A → result E S) l :
  (∀ s a, f s a = g s a) → ∀ s, try_fold f s l = try_fold g s l.
Proof.
  intros Hfg. induction l as [|a l IH]; intros s; [done|]. cbn. rewrite Hfg. destruct (g s a); [|done]. apply IH.
Qed.

Lemma visit_entry_absorbs max_files root full_path exclusions scan entry :
  visit_entry max_files root full_path exclusions scan entry =
  try_fold (absorb max_files root) scan (entry_observations full_path exclusions entry).
Proof.
  destruct entry as [entry|error]; [|done]. cbn [visit_entry entry_observations]. rewrite try_fold_app.
  destruct (we_error entry) as [error|]; cbn [try_fold mbind result_bind absorb];
    (destruct (we_is_file entry); [|done]); cbn [negb];
    (destruct (file_is_excluded exclusions (we_path entry)) as [[]|]; [done| |done]);
    cbn [try_fold absorb]; unfold mbind, result_bind; by destruct (push_discovered_file_within_limit _ _ _ _).
Qed.
Lemma visit_source_absorbs max_files m exclusions group compiled scan source_path :
  visit_source_path max_files m exclusions group compiled scan source_path =
  (source ← or_fail (source_observations m exclusions group compiled source_path);
   absorb_source max_files (workspace_root m) scan source).
Proof.
  unfold visit_source_path, source_observations.
  destruct (resolve_manifest_source_path m source_path) as [full_path|error]; [|done].
  cbn [or_fail mbind result_bind]. unfold absorb_source.
  destruct (directory_contains exclusions full_path); [done|].
  destruct (file_is_excluded exclusions full_path) as [[]|error]; [done| |done].
  case_bool_decide; [done|]. destruct (fs_metadata full_path) as [metadata|error]; [|done].
  fold (source_filter m exclusions group compiled full_path).
  destruct (md_is_file metadata); cbn [negb andb].
  - cbn [so_inspected so_observed].
    destruct (should_include_discovered_path _ _ _); [|done]. cbn [try_fold absorb].
    unfold mbind, result_bind. by destruct (push_discovered_file_within_limit _ _ _ _).
  - destruct (md_is_dir metadata); cbn [negb andb so_inspected so_observed]; [|done].
    rewrite <- try_fold_bind. apply try_fold_ext. intros. apply visit_entry_absorbs.
Qed.

(** ** The pure scan *)
Definition key_of (root path : str) : str := normalized_compare_key root path.
(** The first spelling of each key, in normal form. *)
Definition distinct_step (root : str) (files : list str) (path : str) : list str :=
  let normalized := normalize_lexical_path path in
  if bool_decide (key_of root normalized ∈ key_of root <$> files) then files else files ++ [normalized].
Definition distinct_files (root : str) (paths : list str) : list str := foldl (distinct_step root) [] paths.
Definition absorbed (root : str) (scan : InventoryScan) (o : Observation) : InventoryScan :=
  match o with
  | Found path => push_discovered_file root scan path
  | Unclear path message => record_issue path message scan
  end.
Definition absorbed_source (root : str) (scan : InventoryScan) (source : SourceObservations) : InventoryScan :=
  foldl (absorbed root) (if so_inspected source then inspect_root scan else scan) (so_observed source).
Definition inspected_count (sources : list SourceObservations) : Z :=
  len (List.filter so_inspected sources).

Definition seen_ok (root : str) (scan : InventoryScan) : Prop := seen scan = key_of root <$> all_files scan.
Lemma absorbed_fold root os : ∀ scan, seen_ok root scan →
  foldl (absorbed root) scan os =
  mkScan (foldl (distinct_step root) (all_files scan) (found_paths os))
    (key_of root <$> foldl (distinct_step root) (all_files scan) (found_paths os))
    (issues scan ++ unclear_issues os) (inspected_source_roots scan).
Proof.
  induction os as [|[path|path message] os IH]; intros [files seen iss n]; unfold seen_ok; cbn; intros ->.
  - by rewrite app_nil_r.
  - unfold push_discovered_file, distinct_step at 2 4. cbn [all_files seen issues inspected_source_roots].
    fold (key_of root (normalize_lexical_path path)). case_bool_decide.
    + by rewrite IH.
    + rewrite IH by (unfold seen_ok; cbn; by rewrite fmap_app). done.
  - rewrite IH by done. cbn. by rewrite <- app_assoc.
Qed.
Lemma absorbed_sources root sources : ∀ scan, seen_ok root scan →
  foldl (absorbed_source root) scan sources =
  mkScan (foldl (distinct_step root) (all_files scan) (found_paths (all_observed sources)))
    (key_of root <$> foldl (distinct_step root) (all_files scan) (found_paths (all_observed sources)))
    (issues scan ++ unclear_issues (all_observed sources))
    (inspected_source_roots scan + inspected_count sources).
Proof.
  induction sources as [|[inspected os] sources IH]; intros scan Hs.
  - destruct scan as [files seen iss n]. unfold seen_ok in Hs. cbn in *. subst. by rewrite app_nil_r, Z.add_0_r.
  - cbn [foldl]. unfold absorbed_source at 2. cbn [so_inspected so_observed].
    rewrite absorbed_fold by by destruct inspected. rewrite IH by done.
    unfold all_observed, inspected_count. cbn [all_files seen issues inspected_source_roots].
    cbn [mbind list_bind so_observed List.filter so_inspected].
    unfold found_paths, unclear_issues. rewrite !omap_app, foldl_app, app_assoc.
    destruct inspected; cbn [inspect_root all_files issues inspected_source_roots];
      f_equal; rewrite ?len_cons; lia.
Qed.
Lemma empty_scan_seen root : seen_ok root empty_scan.
Proof. done. Qed.

(** ** Without a limit *)
Lemma absorb_unlimited root os : ∀ scan,
  try_fold (absorb None root) scan os = Ok (foldl (absorbed root) scan os).
Proof. induction os as [|[] os IH]; intros scan; [done|apply IH|apply IH]. Qed.
Lemma absorb_sources_cons max_files root scan source sources :
  try_fold (absorb_source max_files root) scan (source :: sources) =
  (scan' ← try_fold (absorb max_files root) (if so_inspected source then inspect_root scan else scan)
             (so_observed source);
   try_fold (absorb_source max_files root) scan' sources).
Proof. done. Qed.
Lemma absorb_sources_unlimited root sources : ∀ scan,
  try_fold (absorb_source None root) scan sources = Ok (foldl (absorbed_source root) scan sources).
Proof.
  induction sources as [|source sources IH]; intros scan; [done|].
  rewrite absorb_sources_cons, absorb_unlimited. apply IH.
Qed.

(** ** With a limit *)
Lemma distinct_step_len root files path :
  len files ≤ len (distinct_step root files path) ≤ len files + 1.
Proof. unfold distinct_step. case_bool_decide; rewrite ?len_app; unfold len; cbn; lia. Qed.
Lemma distinct_fold_len root paths : ∀ files, len files ≤ len (foldl (distinct_step root) files paths).
Proof.
  induction paths as [|path paths IH]; intros files; cbn; [lia|].
  pose proof (distinct_step_len root files path). specialize (IH (distinct_step root files path)). lia.
Qed.
(** A scan that stops has just passed the limit; one that does not is the pure one. *)
Definition limited (n : Z) (pure : InventoryScan) (r : result ScanExit InventoryScan) : Prop :=
  match r with
  | Ok scan => scan = pure ∧ len (all_files pure) ≤ n
  | Err (LimitReached scan) => len (all_files scan) = n + 1 ∧ n < len (all_files pure)
  | Err (Failed _) => False
  end.
Lemma absorbed_grows root os scan : seen_ok root scan →
  len (all_files scan) ≤ len (all_files (foldl (absorbed root) scan os)) ∧ seen_ok root (foldl (absorbed root) scan os).
Proof. intros Hs. rewrite absorbed_fold by done. split; [apply distinct_fold_len|done]. Qed.
Lemma absorbed_sources_grow root sources scan : seen_ok root scan →
  len (all_files scan) ≤ len (all_files (foldl (absorbed_source root) scan sources)).
Proof. intros Hs. rewrite absorbed_sources by done. apply distinct_fold_len. Qed.
Lemma absorb_limited root n os : ∀ scan, seen_ok root scan → len (all_files scan) ≤ n →
  limited n (foldl (absorbed root) scan os) (try_fold (absorb (Some n) root) scan os).
Proof.
  induction os as [|o os IH]; intros scan Hs Hn; [done|]. cbn [foldl try_fold].
  pose proof (absorbed_grows root [o] scan Hs) as [Hlen Hseen]. cbn [foldl] in Hlen, Hseen.
  destruct o as [path|path message]; cbn [absorb absorbed] in *.
  - unfold push_discovered_file_within_limit. cbn [source_file_limit_exceeded].
    destruct (Z.ltb_spec n (len (all_files (push_discovered_file root scan path)))) as [Hlt|Hge].
    + split; [|pose proof (absorbed_grows root os _ Hseen); lia].
      change (push_discovered_file root scan path) with (foldl (absorbed root) scan [Found path]) in *.
      rewrite absorbed_fold in * by done. cbn [all_files found_paths omap list_omap found_path foldl] in *.
      pose proof (distinct_step_len root (all_files scan) path). lia.
    + by apply IH.
  - by apply IH.
Qed.
Lemma absorb_sources_limited root n sources : ∀ scan, seen_ok root scan → len (all_files scan) ≤ n →
  limited n (foldl (absorbed_source root) scan sources) (try_fold (absorb_source (Some n) root) scan sources).
Proof.
  induction sources as [|source sources IH]; intros scan Hs Hn; [done|].
  rewrite absorb_sources_cons. cbn [foldl].
  set (start := if so_inspected source then inspect_root scan else scan).
  assert (seen_ok root start ∧ len (all_files start) ≤ n) as [Hs' Hn'] by (unfold start; by destruct (so_inspected source)).
  pose proof (absorb_limited root n (so_observed source) start Hs' Hn') as Hl.
  pose proof (absorbed_grows root (so_observed source) start Hs') as [_ Hseen].
  unfold absorbed_source at 2. fold start.
  destruct (try_fold (absorb (Some n) root) start (so_observed source)) as [scan'|[message|scan']];
    cbn [limited mbind result_bind] in *; [|done|].
  - destruct Hl as [-> Hl]. by apply IH.
  - destruct Hl as [? Hl]. split; [done|].
    pose proof (absorbed_sources_grow root sources _ Hseen). unfold absorbed_source in *. lia.
Qed.
End Inventory.

(** * Inventories: refinement, exactness, completeness

    The inventory a scan returns, with and without a limit, is the one its observations
    describe; a complete inventory holds exactly the keys of the files that were found, and
    nothing was unclear. *)
Lemma mapM_Ok_elem {E A B} (f : A → result E B) l ys y :
  mapM f l = Ok ys → y ∈ ys → ∃ x, x ∈ l ∧ f x = Ok y.
Proof.
  revert ys. induction l as [|x l IH]; cbn [mapM]; intros ys Hys Hy.
  - injection Hys as <-. by apply elem_of_nil in Hy.
  - invert_ok. subst. apply elem_of_cons in Hy as [->|Hy]; [by exists x; split; [left|]|].
    destruct (IH _ Ha0 Hy) as (z & ? & ?). exists z. by split; [right|].
Qed.

Section InventoryClaims.
Context `{FileSystem} {Pattern : Type} `{GlobSyntax Pattern} `{DirectoryWalk}.

(** The inventory that observations describe. *)
Definition inventory_of (root : str) (sources : list SourceObservations) : WorkspaceFileInventory :=
  let issues := unclear_issues (all_observed sources) in
  mkInventory (sort_paths (distinct_files root (found_paths (all_observed sources))))
    match issues with
    | [] => InventoryOutcome.Complete
    | _ => if inspected_count sources =? 0 then InventoryOutcome.Unreadable else InventoryOutcome.Partial
    end issues.

(** ** Errors of the manifest *)
Section Sources.
Context (max_files : option Z) (root : str).
(** A step absorbs what its input offers; an input that offers an error may stop earlier. *)
Definition absorbs (r : result ScanExit InventoryScan) (scan : InventoryScan)
    (offer : result str (list SourceObservations)) : Prop :=
  match offer with
  | Ok sources => r = try_fold (absorb_source max_files root) scan sources
  | Err e => ∃ sources, r = (_ ← try_fold (absorb_source max_files root) scan sources; Err (Failed e))
  end.
Lemma absorbs_fold {A} (offer : A → result str (list SourceObservations))
    (step : InventoryScan → A → result ScanExit InventoryScan) :
  (∀ scan a, absorbs (step scan a) scan (offer a)) →
  ∀ l scan, absorbs (try_fold step scan l) scan (mjoin <$> mapM offer l).
Proof.
  intros Hstep. induction l as [|a l IH]; intros scan; [done|].
  cbn [try_fold mapM]. pose proof (Hstep scan a) as Ha.
  destruct (offer a) as [sources|e]; cbn [absorbs mbind result_bind] in *.
  - rewrite Ha. destruct (mapM offer l) as [rest|e]; cbn [mret result_ret mbind result_bind fmap result_fmap absorbs] in *.
    + cbn [mjoin]. unfold mjoin. cbn [list_join]. rewrite try_fold_app. unfold mbind, result_bind.
      destruct (try_fold (absorb_source max_files root) scan sources) as [scan'|]; [|done]. apply (IH scan').
    + destruct (try_fold (absorb_source max_files root) scan sources) as [scan'|exit] eqn:Hs.
      * destruct (IH scan') as [rest Hrest]. exists (sources ++ rest). rewrite try_fold_app, Hs. exact Hrest.
      * exists sources. by rewrite Hs.
  - destruct Ha as [sources Ha]. exists sources. rewrite Ha. unfold mbind, result_bind.
    by destruct (try_fold (absorb_source max_files root) scan sources).
Qed.
Lemma mapM_singletons {A B} (f : A → result str B) l :
  mjoin <$> mapM (λ a, (λ b, [b]) <$> f a) l = mapM f l.
Proof.
  induction l as [|a l IH]; [done|]. cbn [mapM]. destruct (f a) as [b|e]; [|done].
  cbn [fmap result_fmap mbind result_bind]. rewrite <- IH.
  by destruct (mapM (λ a, (λ b, [b]) <$> f a) l).
Qed.
End Sources.

Lemma visit_group_absorbs max_files m exclusions scan group :
  absorbs max_files (workspace_root m) (visit_group max_files m exclusions scan group) scan
    (group_observations m exclusions group).
Proof.
  unfold visit_group, group_observations.
  destruct (compile_exclude_patterns (exclude_patterns group)) as [compiled|e]; cbn [or_fail mbind result_bind];
    [|by exists []].
  rewrite <- mapM_singletons. apply absorbs_fold. intros scan' source_path.
  rewrite visit_source_absorbs.
  destruct (source_observations m exclusions group compiled source_path) as [source|e];
    cbn [or_fail mbind result_bind fmap result_fmap absorbs try_fold]; [|by exists []].
  by destruct (absorb_source max_files (workspace_root m) scan' source).
Qed.
Lemma scan_absorbs max_files m exclusions :
  absorbs max_files (workspace_root m)
    (try_fold (visit_group max_files m exclusions) empty_scan (source_groups (settings m))) empty_scan
    (inventory_observations m exclusions).
Proof. apply absorbs_fold. intros. apply visit_group_absorbs. Qed.

(** ** The inventory of the pure scan *)
Definition pure_scan (root : str) (sources : list SourceObservations) : InventoryScan :=
  foldl (absorbed_source root) empty_scan sources.
Lemma pure_scan_spec root sources :
  pure_scan root sources =
  mkScan (distinct_files root (found_paths (all_observed sources)))
    (key_of root <$> distinct_files root (found_paths (all_observed sources)))
    (unclear_issues (all_observed sources)) (inspected_count sources).
Proof. unfold pure_scan. by rewrite absorbed_sources by apply empty_scan_seen. Qed.
Lemma pure_inventory root sources :
  mkInventory (sort_paths (all_files (pure_scan root sources))) (inventory_outcome (pure_scan root sources))
    (issues (pure_scan root sources)) = inventory_of root sources.
Proof. by rewrite pure_scan_spec. Qed.

Definition excluded_inventory (path : str) (error : IoError) : WorkspaceFileInventory :=
  mkInventory [] InventoryOutcome.Unreadable
    [mkIssue path (lit "failed to observe caller-owned discovery exclusion: " ++ io_message error)].

Section Inventory.
Context (m : WorkspaceManifest) (exclusions : ObservedDiscoveryExclusions)
  (Hobserved : observe_discovery_exclusions m = Ok exclusions).
Lemma unlimited_inventory : source_inventory_inner m None =
  (inventory_of (workspace_root m) <$> inventory_observations m exclusions).
Proof.
  unfold source_inventory_inner. rewrite Hobserved. pose proof (scan_absorbs None m exclusions) as Hs.
  destruct (inventory_observations m exclusions) as [sources|e]; cbn [absorbs fmap result_fmap] in *.
  - rewrite Hs, absorb_sources_unlimited. f_equal. apply pure_inventory.
  - destruct Hs as [sources ->]. by rewrite absorb_sources_unlimited.
Qed.
Lemma limited_inventory (n : nat) :
  match source_inventory_inner m (Some (Z.of_nat n)), inventory_observations m exclusions with
  | Ok limited, Ok sources =>
      let full := inventory_of (workspace_root m) sources in
      if len (inv_files full) <=? Z.of_nat n then limited = full
      else inv_outcome limited = InventoryOutcome.Bounded ∧ length (inv_files limited) = S n
  | Ok limited, Err _ => inv_outcome limited = InventoryOutcome.Bounded ∧ length (inv_files limited) = S n
  | Err e, observed => observed = Err e
  end.
Proof.
  unfold source_inventory_inner. rewrite Hobserved. set (root := workspace_root m).
  pose proof (scan_absorbs (Some (Z.of_nat n)) m exclusions) as Hs. fold root in Hs.
  assert (∀ sources, limited (Z.of_nat n) (pure_scan root sources)
            (try_fold (absorb_source (Some (Z.of_nat n)) root) empty_scan sources)) as Hlim.
  { intros sources. apply absorb_sources_limited; [apply empty_scan_seen|change (0 ≤ Z.of_nat n); lia]. }
  assert (∀ files, len files = Z.of_nat n + 1 → length (sort_paths files) = S n) as Hlen.
  { intros files Hf. unfold sort_paths. rewrite (Permutation_length (sort_by_perm _ files)). unfold len in Hf. apply Nat2Z.inj. rewrite Nat2Z.inj_succ. exact Hf. }
  destruct (inventory_observations m exclusions) as [sources|e]; cbn [absorbs] in Hs.
  + rewrite Hs. specialize (Hlim sources).
    assert (len (inv_files (inventory_of root sources)) = len (all_files (pure_scan root sources))) as Hfull.
    { rewrite <- pure_inventory. cbn [inv_files]. unfold len, sort_paths.
      by rewrite (Permutation_length (sort_by_perm _ (all_files (pure_scan root sources)))). }
    cbv zeta. rewrite Hfull.
    destruct (try_fold _ empty_scan sources) as [scan|[message|scan]]; cbn [limited] in Hlim; [|done|].
    * destruct Hlim as [-> Hl]. rewrite (proj2 (Z.leb_le _ _) Hl). apply pure_inventory.
    * destruct Hlim as [Hl Hgt]. rewrite (proj2 (Z.leb_gt _ _) Hgt). split; [done|]. by apply Hlen.
  + destruct Hs as [sources ->]. specialize (Hlim sources).
    destruct (try_fold _ empty_scan sources) as [scan|[message|scan]]; cbn [limited mbind result_bind] in *;
      [done|done|]. destruct Hlim as [Hl _]. split; [done|]. by apply Hlen.
Qed.
End Inventory.

(** [C26] Without a limit the inventory is the one its observations describe, and an error of
    the manifest is the first one.  With a limit it is the same while it fits; a scan that
    passes the limit stops with one file more than the limit and says so. *)
Theorem inventory_refines_observations m (n : nat) :
  match observe_discovery_exclusions m with
  | Err (path, error) => ∀ limit, source_inventory_inner m limit = Ok (excluded_inventory path error)
  | Ok exclusions =>
      source_inventory_inner m None = (inventory_of (workspace_root m) <$> inventory_observations m exclusions)
      ∧ match source_inventory_inner m (Some (Z.of_nat n)), inventory_observations m exclusions with
        | Ok limited, Ok sources =>
            let full := inventory_of (workspace_root m) sources in
            if len (inv_files full) <=? Z.of_nat n then limited = full
            else inv_outcome limited = InventoryOutcome.Bounded ∧ length (inv_files limited) = S n
        | Ok limited, Err _ => inv_outcome limited = InventoryOutcome.Bounded ∧ length (inv_files limited) = S n
        | Err e, observed => observed = Err e
        end
  end.
Proof.
  destruct (observe_discovery_exclusions m) as [exclusions|[path error]] eqn:E.
  - split; [by apply unlimited_inventory|by apply limited_inventory].
  - intros limit. unfold source_inventory_inner. by rewrite E.
Qed.

(** ** Distinct files *)
Lemma distinct_fold root paths : ∀ files, NoDup (key_of root <$> files) →
  let out := foldl (distinct_step root) files paths in
  NoDup (key_of root <$> out)
  ∧ (∀ k, k ∈ key_of root <$> out ↔ k ∈ key_of root <$> files
          ∨ ∃ p, p ∈ paths ∧ key_of root (normalize_lexical_path p) = k)
  ∧ (∀ f, f ∈ out → f ∈ files ∨ ∃ p, p ∈ paths ∧ f = normalize_lexical_path p).
Proof.
  induction paths as [|p paths IH]; intros files Hnd; cbn.
  - split_and!; [done| |by left]. intros k. split; [by left|]. intros [?|(p & Hp & _)]; [done|by apply elem_of_nil in Hp].
  - assert (NoDup (key_of root <$> distinct_step root files p)) as Hnd'.
    { unfold distinct_step. case_bool_decide as Hin; [done|]. rewrite fmap_app. apply NoDup_app.
      split_and!; [done| |apply NoDup_singleton]. intros k Hk. cbn [fmap list_fmap]. by intros ->%list_elem_of_singleton. }
    destruct (IH _ Hnd') as (? & Hkeys & Hfrom). split_and!; [done| |].
    + intros k. rewrite Hkeys. unfold distinct_step. setoid_rewrite elem_of_cons.
      case_bool_decide as Hin;
        [|rewrite fmap_app, elem_of_app; cbn [fmap list_fmap]; rewrite list_elem_of_singleton; naive_solver].
      split; [naive_solver|].
      intros [?|(q & [-> | ?] & <-)]; [by left|by left|by right; eauto].
    + intros f [Hf|(q & ? & ->)]%Hfrom; [|right; exists q; by split; [right|]].
      unfold distinct_step in Hf. case_bool_decide; [by left|].
      apply elem_of_app in Hf as [? | ->%list_elem_of_singleton]; [by left|]. right. exists p. by split; [left|].
Qed.

(** ** Complete inventories *)
(** A complete inventory: nothing was unclear, and the files are the found ones, each key once. *)
Definition exact_inventory (root : str) (observed : list Observation) (files : list str) : Prop :=
  unclear_issues observed = [] ∧ NoDup (key_of root <$> files)
  ∧ (∀ k, k ∈ key_of root <$> files ↔ ∃ p, Found p ∈ observed ∧ key_of root (normalize_lexical_path p) = k)
  ∧ (∀ f, f ∈ files → ∃ p, Found p ∈ observed ∧ f = normalize_lexical_path p).
Lemma exact_inventory_perm root observed files files' : files ≡ₚ files' →
  exact_inventory root observed files → exact_inventory root observed files'.
Proof. unfold exact_inventory. intros Hp. by setoid_rewrite Hp. Qed.
Lemma complete_inventory m (limit : option nat) inv :
  source_inventory_inner m (Z.of_nat <$> limit) = Ok inv → is_complete (inv_outcome inv) = true →
  ∃ exclusions sources, observe_discovery_exclusions m = Ok exclusions
    ∧ inventory_observations m exclusions = Ok sources ∧ inv_issues inv = []
    ∧ exact_inventory (workspace_root m) (all_observed sources) (inv_files inv)
    ∧ sorted_by (cmp_leb path_cmp) (inv_files inv).
Proof.
  intros Hinv Hc. destruct (observe_discovery_exclusions m) as [exclusions|[path error]] eqn:Ex;
    [|unfold source_inventory_inner in Hinv; rewrite Ex in Hinv; by injection Hinv as <-].
  assert (∃ sources, inventory_observations m exclusions = Ok sources
                     ∧ inv = inventory_of (workspace_root m) sources) as (sources & Hobs & ->).
  { destruct limit as [n|]; cbn [fmap option_fmap option_map] in *.
    - pose proof (limited_inventory m exclusions Ex n) as Hsome.
      rewrite Hinv in Hsome. destruct (inventory_observations m exclusions) as [sources|e].
      + cbv zeta in Hsome. case_match; [by eauto|]. destruct Hsome as [Hb _]. by rewrite Hb in Hc.
      + destruct Hsome as [Hb _]. by rewrite Hb in Hc.
    - rewrite (unlimited_inventory m exclusions Ex) in Hinv.
      destruct (inventory_observations m exclusions) as [sources|e]; [|done]. injection Hinv as <-. by eauto. }
  exists exclusions, sources. unfold inventory_of in *. cbn [inv_outcome inv_issues inv_files] in *.
  assert (unclear_issues (all_observed sources) = []) as Hno.
  { destruct (unclear_issues (all_observed sources)); [done|]. by destruct (_ =? 0). }
  split_and!; [done|done|done| |].
  - eapply exact_inventory_perm; [symmetry; apply sort_by_perm|].
    destruct (distinct_fold (workspace_root m) (found_paths (all_observed sources)) []) as (Hnd & Hkeys & Hfrom);
      [constructor|].
    unfold exact_inventory. split_and!; [done|exact Hnd| |].
    + intros k. unfold distinct_files. rewrite Hkeys. setoid_rewrite found_paths_elem.
      split; [|by right]. intros [Hk|?]; [by apply elem_of_nil in Hk|done].
    + intros f [Hf|Hf]%Hfrom; [by apply elem_of_nil in Hf|]. by setoid_rewrite <- found_paths_elem.
  - by apply (cmp_sorted (λ _, True) path_cmp), Forall_true.
Qed.
(** ** Where found files are *)
Lemma entry_found full_path exclusions entry path :
  Found path ∈ entry_observations full_path exclusions entry →
  ∃ e, entry = Ok e ∧ we_path e = path ∧ we_is_file e = true ∧ file_is_excluded exclusions path = Ok false.
Proof.
  destruct entry as [e|error]; cbn [entry_observations]; [|by intros ?%list_elem_of_singleton].
  intros [Hin|Hin]%elem_of_app.
  - destruct (we_error e); [by apply list_elem_of_singleton in Hin|by apply elem_of_nil in Hin].
  - destruct (we_is_file e) eqn:Hfile; [|by apply elem_of_nil in Hin].
    destruct (file_is_excluded exclusions (we_path e)) as [[]|] eqn:Hex; [by apply elem_of_nil in Hin| |by apply list_elem_of_singleton in Hin].
    apply list_elem_of_singleton in Hin as [= ->]. by exists e.
Qed.
Lemma source_found_cases m exclusions group compiled source_path source path :
  source_observations m exclusions group compiled source_path = Ok source → Found path ∈ so_observed source →
  ∃ full_path, resolve_manifest_source_path m source_path = Ok full_path
    ∧ directory_contains exclusions full_path = false ∧ file_is_excluded exclusions path = Ok false
    ∧ let filter := source_filter m exclusions group compiled full_path in
      (path = full_path ∧ should_include_discovered_path path false filter = true)
      ∨ ∃ entry, Ok entry ∈ walk_tree full_path (walk_filter filter) ∧ we_path entry = path
                 ∧ we_is_file entry = true.
Proof.
  intros Hsource Hin. unfold source_observations in Hsource. invert_ok. rename a into full_path. subst source.
  exists full_path. split; [done|].
  destruct (directory_contains exclusions full_path); [by apply elem_of_nil in Hin|]. split; [done|].
  destruct (file_is_excluded exclusions full_path) as [[]|] eqn:Hex; cbn [so_observed] in Hin;
    [by apply elem_of_nil in Hin| |by apply list_elem_of_singleton in Hin].
  case_bool_decide; [by apply elem_of_nil in Hin|].
  destruct (fs_metadata full_path) as [metadata|]; cbn [so_observed] in Hin; [|by apply list_elem_of_singleton in Hin].
  destruct (md_is_file metadata); cbn [so_observed] in Hin.
  - destruct (should_include_discovered_path _ _ _) eqn:Hinc; [|by apply elem_of_nil in Hin].
    apply list_elem_of_singleton in Hin as [= ->]. split; [done|]. by left.
  - destruct (md_is_dir metadata); cbn [so_observed] in Hin; [|by apply list_elem_of_singleton in Hin].
    apply list_elem_of_bind in Hin as (entry & (e & -> & <- & Hf & He)%entry_found & Hin).
    split; [done|]. right. by exists e.
Qed.
Lemma found_source m exclusions sources path :
  inventory_observations m exclusions = Ok sources → Found path ∈ all_observed sources →
  ∃ group compiled source_path source, group ∈ source_groups (settings m) ∧ source_path ∈ source_paths group
    ∧ compile_exclude_patterns (exclude_patterns group) = Ok compiled
    ∧ source_observations m exclusions group compiled source_path = Ok source ∧ Found path ∈ so_observed source.
Proof.
  intros Hsources Hin. unfold inventory_observations in Hsources.
  destruct (mapM (group_observations m exclusions) (source_groups (settings m))) as [groups|] eqn:Hg; [|done].
  injection Hsources as <-. apply list_elem_of_bind in Hin as (source & Hin & Hsource).
  apply list_elem_of_join in Hsource as (group_sources & Hsource & Hgroup).
  destruct (mapM_Ok_elem _ _ _ _ Hg Hgroup) as (group & Hgin & Hgo). unfold group_observations in Hgo. invert_ok.
  destruct (mapM_Ok_elem _ _ _ _ Hgo Hsource) as (source_path & Hsin & Hso).
  by exists group, a, source_path, source.
Qed.
(** A walk yields files only where the filter lets it. *)
Definition walks_filtered : Prop := ∀ dir filter entry,
  Ok entry ∈ walk_tree dir filter → we_is_file entry = true → filter entry = true ∧ we_is_dir entry = false.
(** A path the filter lets through: canonically below the source, in no excluded directory,
    matching no exclude pattern, of the language of the group where that is asked. *)
Definition admitted (filter : DiscoveryPathFilter (Pattern := Pattern)) (path : str) : Prop :=
  let normalized := normalize_lexical_path path in
  (∀ canonical, fs_canonicalize normalized = Ok canonical →
     path_starts_with canonical (df_source_root filter) = true)
  ∧ directory_contains_observed (df_discovery_exclusions filter)
      (UnixLexical (components (normalize_missing_unix_path normalized)))
      (canonical_lexical (result_ok (fs_canonicalize normalized))) = false
  ∧ workspace_structural_source_exclusion (df_workspace_root filter) normalized = None
  ∧ is_excluded_path normalized (df_workspace_root filter) (df_source_root filter) (df_exclude_patterns filter) = false
  ∧ (df_filter_by_language filter = true → matches_source_group_language normalized (df_language filter) = true).
Lemma included_admitted filter path :
  should_include_discovered_path path false filter = true → admitted filter path.
Proof.
  unfold should_include_discovered_path, admitted, workspace_path_lexical_identity. cbv zeta.
  destruct (directory_contains_observed _ _ _); [done|]. cbn [negb andb].
  case_bool_decide as Hs; [done|].
  destruct (workspace_structural_source_exclusion _ _); [by destruct Hs; eexists|].
  destruct (fs_canonicalize (normalize_lexical_path path)) as [canonical|error]; cbn [result_ok];
    [destruct (path_starts_with canonical (df_source_root filter)) eqn:Hstart; [|done]|]; cbn [negb];
    (destruct (is_excluded_path _ _ _ _); [done|]); intros Hl; split_and!; try done;
    try (by intros c [= <-]); intros Hf; by rewrite Hf in Hl.
Qed.
(** Every found file was reached through a source path of a group, is no file the caller
    excluded, and was admitted by the filter of that source path: it does not lead out of
    the source root through a link, into an excluded directory or under an exclude pattern. *)
Theorem found_files_admitted m exclusions sources path : walks_filtered →
  inventory_observations m exclusions = Ok sources → Found path ∈ all_observed sources →
  ∃ group source_path compiled full_path, group ∈ source_groups (settings m) ∧ source_path ∈ source_paths group
    ∧ compile_exclude_patterns (exclude_patterns group) = Ok compiled
    ∧ resolve_manifest_source_path m source_path = Ok full_path
    ∧ directory_contains exclusions full_path = false ∧ file_is_excluded exclusions path = Ok false
    ∧ admitted (source_filter m exclusions group compiled full_path) path.
Proof.
  intros Hwalk Hsources Hin.
  destruct (found_source m exclusions sources path Hsources Hin)
    as (group & compiled & source_path & source & Hgin & Hsin & Hcomp & Hso & Hfound).
  destruct (source_found_cases m exclusions group compiled source_path source path Hso Hfound)
    as (full_path & Hfull & Hdir & Hex & Hcase).
  exists group, source_path, compiled, full_path. split_and!; [done..|]. apply included_admitted.
  destruct Hcase as [[_ Hinc]|(entry & Hentry & <- & Hfile)]; [done|].
  destruct (Hwalk _ _ _ Hentry Hfile) as [Hf Hd]. unfold walk_filter in Hf. by rewrite Hd in Hf.
Qed.
End InventoryClaims.

(** ** The small workspace *)
Import WorkspaceSample.
Lemma sample_walks_filtered : walks_filtered.
Proof.
  intros dir filter entry Hin _. cbn [walk_tree directory_walk] in Hin.
  destruct (str_eqb dir (lit "/w")); [|by apply elem_of_nil in Hin].
  apply list_elem_of_fmap in Hin as (e & [= ->] & He). apply list_elem_of_In, filter_In in He as [He Hf].
  split; [done|]. apply list_elem_of_In in He. cbn in He.
  by apply elem_of_cons in He as [-> | ->%list_elem_of_singleton].
Qed.
Definition no_exclusions : ObservedDiscoveryExclusions := mkExclusions [] [] [].
Definition sample_sources : list SourceObservations :=
  default [] (result_ok (inventory_observations manifest no_exclusions)).
Lemma found_files_admitted_witness :
  found_paths (all_observed sample_sources) = [lit "/w/a.rs"; lit "/w/big.rs"] ∧
  ∃ group source_path compiled full_path, group ∈ source_groups (settings manifest)
    ∧ source_path ∈ source_paths group ∧ compile_exclude_patterns (exclude_patterns group) = Ok compiled
    ∧ resolve_manifest_source_path manifest source_path = Ok full_path
    ∧ admitted (source_filter manifest no_exclusions group compiled full_path) (lit "/w/a.rs").
Proof.
  split; [vm_compute; reflexivity|].
  destruct (found_files_admitted manifest no_exclusions sample_sources (lit "/w/a.rs") sample_walks_filtered)
    as (group & source_path & compiled & full_path & ? & ? & ? & ? & _ & _ & ?).
  - vm_compute. reflexivity.
  - apply found_paths_elem. vm_compute. left.
  - exists group, source_path, compiled, full_path. split_and!; assumption.
Defined.
