(* ===== verification/WorkspaceRefreshProofs.v ===== *)
(** * Refresh plans

    The plan against the stored files and the inventory: what is indexed, what is removed,
    and that a removal needs a complete inventory without the file.

    The second part: refresh plans and the file system. *)
From S2P Require Import Prelude RustStr RetrievalData Sorting StrOps UnixPath Collections WorkspacePaths.
From S2P Require Import WorkspacePaths WorkspaceDiscovery WorkspaceRefresh WorkspacePathsProofs.
From S2P Require Import WorkspaceInventoryProofs.

Section RefreshProofs.
Context `{FileSystem} {Pattern : Type} `{GlobSyntax Pattern} `{DirectoryWalk} `{HashOrder}.

(** ** The scan of the current files *)
Definition stored_row (m : WorkspaceManifest) (inputs : RefreshInputs) (path : str) : option StoredFileState :=
  hm_get (normalized_stored_map (root_dir m) inputs) (key_of (root_dir m) path).
Definition needs_index (m : WorkspaceManifest) (inputs : RefreshInputs) (path : str) : bool :=
  match stored_row m inputs path with
  | Some file => stored_file_needs_index path file
  | None => true
  end.
Lemma plan_fold m inputs files : ∀ s,
  let out := foldl (plan_file (root_dir m) (normalized_stored_map (root_dir m) inputs)) s files in
  to_index out = to_index s ++ List.filter (needs_index m inputs) files
  ∧ current_file_keys out = current_file_keys s ++ (key_of (root_dir m) <$> files)
  ∧ (∀ c id, hm_get (existing_ids out) c = Some id → hm_get (existing_ids s) c = Some id
       ∨ ∃ path file, path ∈ files ∧ components path = c ∧ stored_row m inputs path = Some file ∧ sf_id file = id).
Proof.
  induction files as [|path files IH]; intros s; cbn [foldl].
  - rewrite !app_nil_r. split_and!; [done|done|by left].
  - specialize (IH (plan_file (root_dir m) (normalized_stored_map (root_dir m) inputs) s path)).
    cbv zeta in *. destruct IH as (-> & -> & Hids). unfold plan_file in *.
    fold (key_of (root_dir m) path) in *. fold (stored_row m inputs path) in *.
    cbn [List.filter fmap list_fmap]. unfold needs_index at 2.
    destruct (stored_row m inputs path) as [file|] eqn:Hrow; cbn [to_index current_file_keys existing_ids] in *.
    + rewrite <- app_assoc. split_and!; [destruct (stored_file_needs_index path file)|done|];
        rewrite <- ?app_assoc; try done.
      intros c id Hc. apply Hids in Hc as [Hc|(p & f & Hp & Hrest)]; [|right; exists p, f; split; [by right|done]].
      rewrite hm_get_insert in Hc. destruct (decide (components path = c)); [|by left].
      injection Hc as <-. right. exists path, file. by split; [left|].
    + rewrite <- !app_assoc. split_and!; [done|done|].
      intros c id Hc. apply Hids in Hc as [Hc|(p & f & Hp & Hrest)]; [by left|].
      right. exists p, f. by split; [right|].
Qed.

(** ** The stored files by key *)
Definition stored_values (inputs : RefreshInputs) : list StoredFileState := (inventory_map inputs).*2.
Definition stored_key (m : WorkspaceManifest) (file : StoredFileState) : str := key_of (root_dir m) (sf_path file).
Definition distinct_keys (m : WorkspaceManifest) (inputs : RefreshInputs) : Prop :=
  NoDup (stored_key m <$> stored_values inputs).
Lemma stored_map_collected m inputs :
  normalized_stored_map (root_dir m) inputs = collected (stored_key m) (hash_order (stored_values inputs)).
Proof. done. Qed.
Lemma stored_row_some m inputs path file : stored_row m inputs path = Some file →
  file ∈ stored_values inputs ∧ stored_key m file = key_of (root_dir m) path.
Proof.
  unfold stored_row. rewrite stored_map_collected. intros [Hin Hk]%collected_some.
  by rewrite hash_order_perm in Hin.
Qed.
(** With distinct keys the order of the hash map does not matter. *)
Lemma stored_row_unique m inputs path file : distinct_keys m inputs →
  stored_row m inputs path = Some file ↔ file ∈ stored_values inputs ∧ stored_key m file = key_of (root_dir m) path.
Proof.
  intros Hd. split; [apply stored_row_some|]. intros [Hin Hk]. unfold stored_row.
  rewrite stored_map_collected, <- Hk. apply collected_unique; [|by rewrite hash_order_perm].
  unfold distinct_keys in Hd. by rewrite hash_order_perm.
Qed.
Lemma removed_ids_spec m inputs keys :
  let removed := removed_ids (normalized_stored_map (root_dir m) inputs) keys in
  StronglySorted Z.lt removed
  ∧ ∀ id, id ∈ removed ↔ ∃ file, hm_get (normalized_stored_map (root_dir m) inputs) (stored_key m file) = Some file
                           ∧ sf_id file = id ∧ stored_key m file ∉ keys.
Proof.
  cbv zeta. unfold removed_ids. split; [apply dedup_sorted, sort_z_sorted|]. intros id.
  rewrite dedup_elem, (sort_z_perm _), list_elem_of_fmap.
  assert (∀ k file, (k, file) ∈ hash_order (normalized_stored_map (root_dir m) inputs) ↔
                    hm_get (normalized_stored_map (root_dir m) inputs) k = Some file) as Hget.
  { intros k file. rewrite hash_order_perm. apply hm_get_elem. rewrite stored_map_collected. apply collected_nodup. }
  split.
  - intros ([k file] & -> & Hin). apply list_elem_of_In, filter_In in Hin as [Hin Hk].
    apply list_elem_of_In, Hget in Hin. exists file.
    assert (stored_key m file = k) as Hkey.
    { rewrite stored_map_collected in Hin. by apply collected_some in Hin as [_ ?]. }
    rewrite Hkey. split_and!; [done|done|]. cbn [fst] in Hk. by apply negb_true_iff, bool_decide_eq_false in Hk.
  - intros (file & Hf & <- & Hk). exists (stored_key m file, file). split; [done|].
    apply list_elem_of_In, filter_In. split; [by apply list_elem_of_In, Hget|]. cbn [fst].
    by rewrite bool_decide_eq_false_2.
Qed.

(** ** The plan *)
(** The plan schedules, in order, exactly the current files that are new or need an
    index; it removes, in increasing order and only when the inventory is complete, the
    identifiers of the stored rows whose key no current file has; the identifiers it keeps
    are those of rows of current files. *)
Theorem refresh_plan_exact m inputs files outcome issues :
  let out := build_refresh_outcome_from_inventory m inputs files outcome issues in
  mode (plan out) = RefreshMode.Incremental ∧ ro_inventory_outcome out = outcome
  ∧ ro_inventory_issues out = issues
  ∧ files_to_index (plan out) = List.filter (needs_index m inputs) files
  ∧ StronglySorted Z.lt (files_to_remove (plan out))
  ∧ (∀ id, id ∈ files_to_remove (plan out) ↔
       is_complete outcome = true
       ∧ ∃ file, stored_row m inputs (sf_path file) = Some file ∧ sf_id file = id
           ∧ stored_key m file ∉ key_of (root_dir m) <$> files)
  ∧ (∀ c id, hm_get (existing_file_ids (plan out)) c = Some id →
       ∃ path file, path ∈ files ∧ components path = c ∧ stored_row m inputs path = Some file ∧ sf_id file = id).
Proof.
  cbv zeta. unfold build_refresh_outcome_from_inventory.
  pose proof (plan_fold m inputs files (mkPlanScan [] [] [])) as (Hindex & Hkeys & Hids).
  cbn [plan mode ro_inventory_outcome ro_inventory_issues files_to_index files_to_remove existing_file_ids].
  rewrite Hindex, Hkeys. cbn [to_index current_file_keys app].
  pose proof (removed_ids_spec m inputs (key_of (root_dir m) <$> files)) as [Hsorted Helem].
  split_and!; [done|done|done|done| | |].
  - destruct (is_complete outcome); [done|constructor].
  - intros id. destruct (is_complete outcome); [rewrite Helem; naive_solver|].
    split; [by intros ?%elem_of_nil|by intros [? _]].
  - intros c id Hc. apply Hids in Hc as [Hc|Hc]; [done|exact Hc].
Qed.
End RefreshProofs.

(** * Refresh plans and the file system

    From discovery to deletion: a stored file is removed exactly when a complete inventory
    did not find its key, no found file is left without an up-to-date row or a place in the
    plan, and a recorded workspace needs no further plan. *)
Section RefreshClaims.
Context `{FileSystem} {Pattern : Type} `{GlobSyntax Pattern} `{DirectoryWalk} `{HashOrder}.

(** ** Absolute paths *)
(** A walk yields paths below its start. *)
Definition walks_below : Prop := ∀ dir filter entry,
  Ok entry ∈ walk_tree dir filter → is_absolute dir = true → is_absolute (we_path entry) = true.
Lemma source_absolute m source_path full_path : is_absolute (root_dir m) = true →
  resolve_manifest_source_path m source_path = Ok full_path → is_absolute full_path = true.
Proof.
  intros Hroot. unfold resolve_manifest_source_path.
  destruct (trusted_source_paths m).
  - intros [= <-]. apply normalize_absolute. destruct (is_absolute source_path) eqn:Ha; [done|].
    by apply join_absolute.
  - destruct (is_absolute source_path); [done|]. destruct (relative_path_for_matching _ _); [|done].
    intros [= <-]. by apply normalize_absolute, join_absolute.
Qed.
Lemma found_absolute m exclusions sources path : walks_below → is_absolute (root_dir m) = true →
  inventory_observations m exclusions = Ok sources → Found path ∈ all_observed sources →
  is_absolute path = true.
Proof.
  intros Hwalk Hroot Hsources Hin.
  destruct (found_source m exclusions sources path Hsources Hin)
    as (group & compiled & source_path & source & _ & _ & _ & Hso & Hfound).
  destruct (source_found_cases m exclusions group compiled source_path source path Hso Hfound)
    as (full_path & Hfull & _ & _ & Hcase).
  pose proof (source_absolute m _ _ Hroot Hfull) as Habs.
  destruct Hcase as [[-> _]|(entry & Hentry & <- & _)]; [done|]. by apply (Hwalk _ _ _ Hentry).
Qed.

(** ** Removal *)
(** [C6] A stored file is removed exactly when the inventory was complete and did not find
    its key: nothing was unclear, no file with that key was found.  (The other direction
    asks that no two stored files share a key.) *)
Theorem refresh_removes_absent m inputs (limit : option nat) out :
  walks_below → is_absolute (root_dir m) = true →
  build_refresh_outcome_inner m inputs (Z.of_nat <$> limit) = Ok out →
  (∀ id, id ∈ files_to_remove (plan out) →
     ∃ exclusions sources file,
       observe_discovery_exclusions m = Ok exclusions ∧ inventory_observations m exclusions = Ok sources
       ∧ unclear_issues (all_observed sources) = [] ∧ file ∈ stored_values inputs ∧ sf_id file = id
       ∧ ∀ path, Found path ∈ all_observed sources → key_of (root_dir m) path ≠ stored_key m file)
  ∧ (ro_inventory_outcome out = InventoryOutcome.Complete → distinct_keys m inputs →
     ∀ exclusions sources file, observe_discovery_exclusions m = Ok exclusions →
       inventory_observations m exclusions = Ok sources → file ∈ stored_values inputs →
       (∀ path, Found path ∈ all_observed sources → key_of (root_dir m) path ≠ stored_key m file) →
       sf_id file ∈ files_to_remove (plan out)).
Proof.
  intros Hwalk Hroot Hout. unfold build_refresh_outcome_inner in Hout. invert_ok. rename a into inv. subst out.
  pose proof (refresh_plan_exact m inputs (inv_files inv) (inv_outcome inv) (inv_issues inv))
    as (_ & Houtcome & _ & _ & _ & Hremove & _).
  assert (∀ exclusions sources, inventory_observations m exclusions = Ok sources →
    exact_inventory (workspace_root m) (all_observed sources) (inv_files inv) →
    ∀ k, k ∈ key_of (root_dir m) <$> inv_files inv ↔
         ∃ path, Found path ∈ all_observed sources ∧ key_of (root_dir m) path = k) as Hkeys.
  { intros exclusions sources Hobs (_ & _ & Hk & Hfrom) k.
    assert (∀ path, Found path ∈ all_observed sources → is_absolute path = true) as Habs
      by (intros; by eapply found_absolute).
    assert (key_of (root_dir m) <$> inv_files inv = key_of (workspace_root m) <$> inv_files inv) as ->.
    { apply list_fmap_ext. intros i f Hf. apply key_absolute.
      apply list_elem_of_lookup_2, Hfrom in Hf as (p & Hp & ->). by apply normalize_absolute, Habs. }
    rewrite Hk. split; intros (p & Hp & <-); exists p; (split; [done|]); unfold key_of;
      rewrite key_normalized by auto; [symmetry|]; by apply key_absolute, Habs. }
  split.
  - intros id (Hc & file & Hrow & Hid & Hnot)%Hremove.
    destruct (complete_inventory m limit inv Ha Hc) as (exclusions & sources & Hex & Hobs & _ & Hexact & _).
    apply stored_row_some in Hrow as [Hin _]. exists exclusions, sources, file.
    split_and!; [done|done|by destruct Hexact as [? _]|done|done|].
    intros path Hp Heq. apply Hnot. rewrite (Hkeys exclusions sources) by done. by exists path.
  - rewrite Houtcome. intros Hc Hd exclusions sources file Hex Hobs Hin Hnot. apply Hremove.
    assert (is_complete (inv_outcome inv) = true) as Hc' by (rewrite Hc; done). split; [done|].
    exists file. split_and!; [by apply stored_row_unique|done|].
    destruct (complete_inventory m limit inv Ha Hc') as (exclusions' & sources' & Hex' & Hobs' & _ & Hexact & _).
    assert (exclusions' = exclusions) as -> by congruence. assert (sources' = sources) as -> by congruence.
    rewrite (Hkeys exclusions sources) by done. intros (path & Hp & Heq). by apply (Hnot path).
Qed.

(** ** Scheduling *)
(** A stored row that describes its file as it is now. *)
Definition recorded_now (file : StoredFileState) : Prop :=
  sf_indexed file = true ∧ sf_retry_required file = false
  ∧ modification_time_millis (sf_path file) = Ok (sf_modification_time file)
  ∧ match sf_content_hash file with
    | Some content_hash => current_content_hash (sf_path file) = Ok content_hash
    | None => True
    end.
Lemma recorded_needs_nothing file :
  stored_file_needs_index (sf_path file) file = false ↔ recorded_now file.
Proof.
  unfold stored_file_needs_index, recorded_now.
  destruct (sf_indexed file), (sf_retry_required file); cbn [negb orb]; try naive_solver.
  destruct (modification_time_millis (sf_path file)) as [mtime|]; [|naive_solver].
  destruct (Z.eqb_spec mtime (sf_modification_time file)) as [->|]; cbn [negb]; [|naive_solver].
  destruct (sf_content_hash file) as [expected|]; [|naive_solver].
  destruct (current_content_hash (sf_path file)) as [actual|]; [|naive_solver].
  unfold str_eqb. case_bool_decide; naive_solver.
Qed.

(** [C16] A found file is never lost: it, or the file that stands for its key, is scheduled,
    or a stored row of the same key needs no index.  When the stored rows record the files
    of the inventory as they are, the plan is empty. *)
Theorem refresh_schedules_found m inputs (limit : option nat) out :
  build_refresh_outcome_inner m inputs (Z.of_nat <$> limit) = Ok out →
  (ro_inventory_outcome out = InventoryOutcome.Complete →
   ∀ exclusions sources path, observe_discovery_exclusions m = Ok exclusions →
     inventory_observations m exclusions = Ok sources → Found path ∈ all_observed sources →
     ∃ current, key_of (workspace_root m) current = key_of (workspace_root m) (normalize_lexical_path path)
       ∧ (current ∈ files_to_index (plan out)
          ∨ ∃ file, file ∈ stored_values inputs ∧ stored_key m file = key_of (root_dir m) current
              ∧ stored_file_needs_index current file = false))
  ∧ (∀ inventory, source_inventory_inner m (Z.of_nat <$> limit) = Ok inventory →
     distinct_keys m inputs → Forall recorded_now (stored_values inputs) →
     (∀ path, path ∈ inv_files inventory ↔ path ∈ sf_path <$> stored_values inputs) →
     files_to_index (plan out) = [] ∧ files_to_remove (plan out) = []).
Proof.
  intros Hout. unfold build_refresh_outcome_inner in Hout. invert_ok. rename a into inv. subst out.
  pose proof (refresh_plan_exact m inputs (inv_files inv) (inv_outcome inv) (inv_issues inv))
    as (_ & Houtcome & _ & Hindex & _ & Hremove & _).
  split.
  - rewrite Houtcome. intros Hc exclusions sources path Hex Hobs Hp.
    assert (is_complete (inv_outcome inv) = true) as Hc' by (rewrite Hc; done).
    destruct (complete_inventory m limit inv Ha Hc') as (exclusions' & sources' & Hex' & Hobs' & _ & Hexact & _).
    assert (exclusions' = exclusions) as -> by congruence. assert (sources' = sources) as -> by congruence.
    destruct Hexact as (_ & _ & Hkeys & _).
    pose proof (proj2 (Hkeys _) (ex_intro _ path (conj Hp eq_refl))) as Hk.
    apply list_elem_of_fmap in Hk as (current & Hk & Hcurrent). exists current. split; [done|].
    destruct (needs_index m inputs current) eqn:Hneeds.
    + left. rewrite Hindex. apply list_elem_of_In, filter_In. by rewrite <- list_elem_of_In.
    + right. unfold needs_index in Hneeds. destruct (stored_row m inputs current) as [file|] eqn:Hrow; [|done].
      apply stored_row_some in Hrow as [Hin Hkey]. by exists file.
  - intros inventory Hinv Hd Hrec Hpaths. assert (inventory = inv) as -> by congruence. split.
    + rewrite Hindex. apply elem_of_nil_inv. intros path Hin.
      apply list_elem_of_In, filter_In in Hin as [Hin Hneeds]. apply list_elem_of_In, Hpaths in Hin.
      apply list_elem_of_fmap in Hin as (file & -> & Hin). unfold needs_index in Hneeds.
      assert (stored_row m inputs (sf_path file) = Some file) as Hrow by by apply stored_row_unique.
      rewrite Hrow in Hneeds. rewrite Forall_forall in Hrec.
      rewrite (proj2 (recorded_needs_nothing file) (Hrec file Hin)) in Hneeds. done.
    + apply elem_of_nil_inv. intros id (_ & file & Hrow & _ & Hnot)%Hremove.
      apply Hnot, list_elem_of_fmap. exists (sf_path file). split; [done|]. apply Hpaths, list_elem_of_fmap.
      exists file. split; [done|]. by apply stored_row_some in Hrow as [? _].
Qed.
End RefreshClaims.

(** ** A workspace with a file that is gone *)
Import WorkspaceSample.
Lemma sample_walks_below : walks_below.
Proof.
  intros dir filter entry Hin Ha. cbn [walk_tree directory_walk] in Hin.
  destruct (str_eqb dir (lit "/w")); [|by apply elem_of_nil in Hin].
  apply list_elem_of_fmap in Hin as (e & [= ->] & He). apply list_elem_of_In, filter_In in He as [He _].
  apply list_elem_of_In in He. cbn in He. apply elem_of_cons in He as [-> | ->%list_elem_of_singleton]; reflexivity.
Qed.
Lemma refresh_removes_absent_witness :
  files_to_remove (plan (outcome_of inputs_gone)) = [7] ∧
  ∃ exclusions sources file,
    observe_discovery_exclusions manifest = Ok exclusions ∧ inventory_observations manifest exclusions = Ok sources
    ∧ unclear_issues (all_observed sources) = [] ∧ file ∈ stored_values inputs_gone ∧ sf_id file = 7
    ∧ ∀ path, Found path ∈ all_observed sources → key_of (root_dir manifest) path ≠ stored_key manifest file.
Proof.
  assert (files_to_remove (plan (outcome_of inputs_gone)) = [7]) as Hr by (vm_compute; reflexivity).
  split; [exact Hr|].
  apply (proj1 (refresh_removes_absent manifest inputs_gone None (outcome_of inputs_gone) sample_walks_below
    ltac:(vm_compute; reflexivity) ltac:(vm_compute; reflexivity))).
  rewrite Hr. left.
Defined.
Definition sample_inventory : WorkspaceFileInventory :=
  default (mkInventory [] InventoryOutcome.Bounded []) (result_ok (source_inventory_inner manifest None)).
Lemma refresh_schedules_found_witness :
  ro_inventory_outcome (outcome_of inputs_recorded) = InventoryOutcome.Complete ∧
  files_to_index (plan (outcome_of inputs_recorded)) = [] ∧ files_to_remove (plan (outcome_of inputs_recorded)) = [].
Proof.
  split; [vm_compute; reflexivity|].
  assert (build_refresh_outcome_inner manifest inputs_recorded None = Ok (outcome_of inputs_recorded)) as Hout
    by (vm_compute; reflexivity).
  assert (source_inventory_inner manifest None = Ok sample_inventory) as Hinv by (vm_compute; reflexivity).
  assert (inv_files sample_inventory = sf_path <$> stored_values inputs_recorded) as Hfiles
    by (vm_compute; reflexivity).
  apply (proj2 (refresh_schedules_found manifest inputs_recorded None (outcome_of inputs_recorded) Hout)
    sample_inventory Hinv).
  - unfold distinct_keys. refine (bool_decide_eq_true_1 (NoDup _) _). vm_compute. reflexivity.
  - repeat constructor.
  - intros path. rewrite Hfiles. reflexivity.
Defined.
