(* ===== verification/WorkspacePolicyProofs.v ===== *)
(** * The source-index policy keeps every file in one place

    Under a policy each file of the inventory is kept or stands excluded with a verified
    identity, never both and never neither; an exclusion is accepted exactly when it names
    the same bytes under the same policy.

    The second part: plans under the source-index policy. *)
From S2P Require Import Prelude RustStr RetrievalData Sorting StrOps UnixPath Collections WorkspacePaths.
From S2P Require Import WorkspacePaths WorkspaceDiscovery WorkspaceRefresh.
From S2P Require Import WorkspaceInventoryProofs.

Section PolicyProofs.
Context `{FileSystem} {Pattern : Type} `{GlobSyntax Pattern} `{DirectoryWalk} `{HashOrder}.

(** ** Verdicts *)
Inductive PolicyVerdict : Type :=
| Keep
| KeepUnclear (message : str)
| Exclude (candidate : OversizedSourceExclusionCandidate).
Definition verdict (root : str) (policy : SourceIndexPolicy) (path : str) : PolicyVerdict :=
  match fs_metadata path with
  | Err error => KeepUnclear (lit "failed to inspect policy candidate: " ++ io_message error)
  | Ok metadata =>
      if md_len metadata <=? byte_cap policy then Keep
      else
        match normalized_policy_path root path with
        | Err error => KeepUnclear error
        | Ok normalized_path =>
            match current_content_identity path with
            | Err error => KeepUnclear (lit "failed to verify oversized policy candidate: " ++ error)
            | Ok (content_hash, observed_size) =>
                if observed_size <=? byte_cap policy then Keep
                else Exclude (mkCandidate normalized_path content_hash observed_size 0
                                (policy_version policy) (byte_cap policy) (structural_unit_cap policy))
            end
        end
  end.
Definition excluded_candidate (root : str) (policy : SourceIndexPolicy) (path : str)
  : option OversizedSourceExclusionCandidate :=
  match verdict root policy path with Exclude candidate => Some candidate | _ => None end.
Definition unclear_verdict (root : str) (policy : SourceIndexPolicy) (path : str)
  : option WorkspaceInventoryIssue :=
  match verdict root policy path with KeepUnclear message => Some (mkIssue path message) | _ => None end.
Definition is_kept (root : str) (policy : SourceIndexPolicy) (path : str) : bool :=
  match excluded_candidate root policy path with Some _ => false | None => true end.

Lemma classify_policy_fold root policy files : ∀ s,
  foldl (classify_policy_file root policy) s files =
  mkPolicyScan (ps_files s ++ List.filter (is_kept root policy) files)
    (ps_exclusions s ++ omap (excluded_candidate root policy) files)
    (ps_issues s ++ omap (unclear_verdict root policy) files).
Proof.
  induction files as [|path files IH]; intros [fs ex iss]; cbn [foldl List.filter].
  - cbn. by rewrite !app_nil_r.
  - rewrite IH. unfold is_kept at 2. cbn [omap list_omap].
    unfold excluded_candidate at 2 3, unclear_verdict at 2, classify_policy_file, verdict.
    destruct (fs_metadata path) as [metadata|error]; [|cbn; by rewrite <- !app_assoc].
    destruct (md_len metadata <=? byte_cap policy); [cbn; by rewrite <- !app_assoc|].
    destruct (normalized_policy_path root path) as [normalized_path|error]; [|cbn; by rewrite <- !app_assoc].
    destruct (current_content_identity path) as [[content_hash observed_size]|error];
      [|cbn; by rewrite <- !app_assoc].
    destruct (observed_size <=? byte_cap policy); cbn; by rewrite <- !app_assoc.
Qed.
Lemma policy_partition root policy files :
  files ≡ₚ List.filter (is_kept root policy) files
           ++ List.filter (λ path, negb (is_kept root policy path)) files.
Proof.
  induction files as [|path files IH]; [done|]. cbn [List.filter].
  destruct (is_kept root policy path); cbn [negb]; [by rewrite IH at 1|].
  rewrite IH at 1. by apply Permutation_middle.
Qed.
(** An excluded file is over the cap, under the name and with the bytes of its candidate. *)
Definition verified_exclusion (root : str) (policy : SourceIndexPolicy) (path : str)
    (c : OversizedSourceExclusionCandidate) : Prop :=
  normalized_policy_path root path = Ok (ex_normalized_path c)
  ∧ current_content_identity path = Ok (ex_content_hash c, ex_observed_size c)
  ∧ byte_cap policy < ex_observed_size c ∧ ex_observed_unit_count c = 0
  ∧ ex_policy_version c = policy_version policy ∧ ex_byte_cap c = byte_cap policy
  ∧ ex_structural_unit_cap c = structural_unit_cap policy.
Lemma excluded_candidate_verified root policy path c :
  excluded_candidate root policy path = Some c → verified_exclusion root policy path c.
Proof.
  unfold excluded_candidate, verdict, verified_exclusion.
  destruct (fs_metadata path) as [metadata|error]; [|done].
  destruct (md_len metadata <=? byte_cap policy); [done|].
  destruct (normalized_policy_path root path) as [normalized_path|error]; [|done].
  destruct (current_content_identity path) as [[content_hash observed_size]|error]; [|done].
  destruct (Z.leb_spec observed_size (byte_cap policy)); [done|]. by intros [= <-].
Qed.
(** A file that is kept without a doubt fits the cap by one of its two sizes. *)
Definition fits_cap (policy : SourceIndexPolicy) (path : str) : Prop :=
  (∃ metadata, fs_metadata path = Ok metadata ∧ md_len metadata ≤ byte_cap policy)
  ∨ ∃ content_hash size, current_content_identity path = Ok (content_hash, size) ∧ size ≤ byte_cap policy.
Lemma kept_fits root policy path :
  is_kept root policy path = true → unclear_verdict root policy path = None → fits_cap policy path.
Proof.
  unfold is_kept, excluded_candidate, unclear_verdict, verdict, fits_cap.
  destruct (fs_metadata path) as [metadata|error]; [|done].
  destruct (Z.leb_spec (md_len metadata) (byte_cap policy)); [by eauto|].
  destruct (normalized_policy_path root path) as [normalized_path|error]; [|done].
  destruct (current_content_identity path) as [[content_hash size]|error]; [|done].
  destruct (Z.leb_spec size (byte_cap policy)); [by eauto 8|done].
Qed.

Lemma policy_inventory_classified m policy limit inventory :
  source_inventory_with_policy_inner m policy limit = Ok inventory →
  is_complete (pi_outcome inventory) = true →
  ∃ base, source_inventory_inner m limit = Ok base ∧ is_complete (inv_outcome base) = true
    ∧ pi_files inventory = List.filter (is_kept (workspace_root m) policy) (inv_files base)
    ∧ pi_policy_exclusions inventory
      = sort_exclusions (omap (excluded_candidate (workspace_root m) policy) (inv_files base))
    ∧ omap (unclear_verdict (workspace_root m) policy) (inv_files base) = []
    ∧ pi_issues inventory = [].
Proof.
  unfold source_inventory_with_policy_inner. destruct (policy_is_valid policy); [|done]. cbn [negb].
  intros Hinv Hc. invert_ok. rename a into base. exists base.
  destruct (is_complete (inv_outcome base)) eqn:Hbase; cbn [negb] in Hinv.
  - injection Hinv as <-. rewrite classify_policy_fold in *.
    cbn [ps_files ps_exclusions ps_issues app pi_files pi_policy_exclusions pi_issues pi_outcome] in *.
    destruct (inv_issues base ++ omap (unclear_verdict (workspace_root m) policy) (inv_files base)) eqn:Hi; [|done].
    by apply app_eq_nil in Hi as [_ ?].
  - injection Hinv as <-. cbn [pi_outcome] in Hc. by rewrite Hc in Hbase.
Qed.

(** ** Revalidation *)
(** A candidate that still names the same bytes, over a cap, under the active policy. *)
Definition still_valid (root : str) (policy : SourceIndexPolicy) (c : OversizedSourceExclusionCandidate) : Prop :=
  ex_policy_version c = policy_version policy ∧ ex_byte_cap c = byte_cap policy
  ∧ ex_structural_unit_cap c = structural_unit_cap policy
  ∧ normalized_policy_path root (path_join root (ex_normalized_path c)) = Ok (ex_normalized_path c)
  ∧ current_content_identity (path_join root (ex_normalized_path c))
    = Ok (ex_content_hash c, ex_observed_size c)
  ∧ (byte_cap policy < ex_observed_size c ∧ ex_observed_unit_count c = 0
     ∨ structural_unit_cap policy < ex_observed_unit_count c ∧ ex_observed_size c ≤ byte_cap policy).
Lemma revalidate_candidate_spec root policy previous c :
  (revalidate_candidate root policy previous c = Ok (Some (ex_normalized_path c))
     ∧ still_valid root policy c ∧ previous ≠ Some (ex_normalized_path c))
  ∨ (is_ok (revalidate_candidate root policy previous c) = false
     ∧ (still_valid root policy c → previous = Some (ex_normalized_path c))).
Proof.
  unfold revalidate_candidate, still_valid, str_eqb.
  case_bool_decide as Hv; cbn [negb orb]; [|right; split; [done|by intros (? & _)]].
  destruct (Z.eqb_spec (ex_byte_cap c) (byte_cap policy)) as [Hb|Hb]; cbn [negb orb];
    [|right; split; [done|by intros (_ & ? & _)]].
  destruct (Z.eqb_spec (ex_structural_unit_cap c) (structural_unit_cap policy)) as [Hu|Hu]; cbn [negb orb];
    [|right; split; [done|by intros (_ & _ & ? & _)]].
  case_bool_decide as Hp; [by right|].
  destruct (normalized_policy_path root (path_join root (ex_normalized_path c))) as [normalized_path|error];
    cbn [mbind result_bind]; [|right; split; [done|by intros (_ & _ & _ & ? & _)]].
  case_bool_decide as Hn; cbn [negb]; [subst normalized_path|right; split; [done|intros (_ & _ & _ & [= ?] & _); done]].
  destruct (current_content_identity (path_join root (ex_normalized_path c))) as [[hash size]|error];
    cbn [mbind result_bind]; [|right; split; [done|by intros (_ & _ & _ & _ & ? & _)]].
  case_bool_decide as Hh; cbn [negb orb]; [|right; split; [done|intros (_ & _ & _ & _ & [= ? ?] & _); done]].
  destruct (Z.eqb_spec size (ex_observed_size c)) as [->|Hs]; cbn [negb orb];
    [|right; split; [done|intros (_ & _ & _ & _ & [= ? ?] & _); done]].
  subst hash.
  destruct (Z.ltb_spec (byte_cap policy) (ex_observed_size c)), (Z.eqb_spec (ex_observed_unit_count c) 0),
    (Z.ltb_spec (structural_unit_cap policy) (ex_observed_unit_count c)),
    (Z.leb_spec (ex_observed_size c) (byte_cap policy)); cbn [andb orb negb]; try lia;
    solve [left; split_and!; auto; lia|right; split; [done|intros (_ & _ & _ & _ & _ & ?); lia]].
Qed.

(** Neighbours of a sorted list differ exactly when all names do. *)
Definition by_path (c : OversizedSourceExclusionCandidate) : str := ex_normalized_path c.
Definition exclusion_leb := cmp_leb (cmp_on ex_normalized_path str_cmp).
#[export] Instance exclusion_cmp_laws : CmpLaws (λ _, True) (cmp_on ex_normalized_path str_cmp).
Proof. apply on_laws, _. Qed.
Lemma exclusion_leb_antisym a b : exclusion_leb a b = true → exclusion_leb b a = true →
  ex_normalized_path a = ex_normalized_path b.
Proof.
  unfold exclusion_leb, cmp_leb.
  rewrite (cmp_opp (P := λ _, True) (cmp := cmp_on ex_normalized_path str_cmp) a b) by done.
  destruct (cmp_on ex_normalized_path str_cmp a b) eqn:Hab; cbn; try done. intros _ _. by apply str_cmp_eq.
Qed.
Lemma sort_exclusions_sorted l : sorted_by exclusion_leb (sort_exclusions l).
Proof. by apply (cmp_sorted (λ _, True) (cmp_on ex_normalized_path str_cmp)), Forall_true. Qed.
Lemma revalidate_fold root policy l : ∀ previous, sorted_by exclusion_leb l →
  (∀ p c, previous = Some p → c ∈ l → ex_normalized_path c = p → ∃ c', head l = Some c' ∧ ex_normalized_path c' = p) →
  is_ok (try_fold (revalidate_candidate root policy) previous l) = true ↔
  Forall (still_valid root policy) l ∧ NoDup (ex_normalized_path <$> l)
  ∧ ∀ p, previous = Some p → p ∉ ex_normalized_path <$> l.
Proof.
  induction l as [|c l IH]; intros previous Hsorted Hprev.
  { cbn. split; [|done]. intros _. split_and!; [constructor|constructor|]. intros p _. by apply not_elem_of_nil. }
  apply StronglySorted_inv in Hsorted as [Hsorted Hhead]. cbn [try_fold fmap list_fmap].
  rewrite Forall_cons, NoDup_cons.
  destruct (revalidate_candidate_spec root policy previous c) as [(-> & Hvalid & Hne)|(Hbad & Hwhy)].
  - cbn [mbind result_bind]. rewrite IH; [|done|].
    + split.
      * intros (Hl & Hnd & Hnot). split_and!; [done|done|by apply Hnot|done|].
        intros p -> [->|Hin]%elem_of_cons; [done|]. apply list_elem_of_fmap in Hin as (d & -> & Hd).
        destruct (Hprev _ d eq_refl) as (c' & [= <-] & Hc'); [by right|done|]. by rewrite Hc' in Hne.
      * intros ([_ Hl] & [Hc Hnd] & _). split_and!; [done|done|]. by intros p [= <-].
    + intros p d [= <-] Hd Heq. destruct l as [|e l]; [by apply elem_of_nil in Hd|]. exists e. split; [done|].
      apply elem_of_cons in Hd as [->|Hd]; [done|].
      apply StronglySorted_inv in Hsorted as [_ Hel]. rewrite Forall_forall in Hel, Hhead.
      apply exclusion_leb_antisym; [|apply Hhead; by left].
      unfold exclusion_leb, cmp_leb, cmp_on. rewrite <- Heq. by apply Hel.
  - split.
    + destruct (revalidate_candidate root policy previous c); [done|]. done.
    + intros ([Hv _] & _ & Hnot). specialize (Hwhy Hv). destruct (Hnot _ Hwhy). by left.
Qed.

Lemma revalidation_accepts m candidates policy :
  is_ok (revalidate_source_policy_exclusions m candidates policy) = true ↔
  policy_is_valid policy = true ∧ Forall (still_valid (workspace_root m) policy) candidates
  ∧ NoDup (ex_normalized_path <$> candidates).
Proof.
  unfold revalidate_source_policy_exclusions.
  destruct (policy_is_valid policy); cbn [negb]; [|naive_solver].
  pose proof (sort_by_perm (cmp_leb (cmp_on ex_normalized_path str_cmp)) candidates) as Hperm.
  fold (sort_exclusions candidates) in Hperm. pose proof (sort_exclusions_sorted candidates) as Hsorted.
  transitivity (is_ok (try_fold (revalidate_candidate (workspace_root m) policy) None (sort_exclusions candidates)) = true).
  { unfold mbind, result_bind. by destruct (try_fold _ _ _). }
  rewrite (revalidate_fold (workspace_root m) policy _ None Hsorted) by done. rewrite Hperm. naive_solver.
Qed.
(** Exclusions are accepted exactly when the policy has caps and a version, every
    candidate still names the same bytes over a cap under that policy, and no two share a
    path; what is returned is the candidates in the order of their paths. *)
Theorem revalidation_exact m candidates policy :
  (is_ok (revalidate_source_policy_exclusions m candidates policy) = true ↔
     policy_is_valid policy = true ∧ Forall (still_valid (workspace_root m) policy) candidates
     ∧ NoDup (ex_normalized_path <$> candidates))
  ∧ match revalidate_source_policy_exclusions m candidates policy with
    | Ok verified => verified ≡ₚ candidates ∧ sorted_by exclusion_leb verified
    | Err _ => True
    end.
Proof.
  split; [apply revalidation_accepts|]. unfold revalidate_source_policy_exclusions.
  destruct (policy_is_valid policy); cbn [negb]; [|done]. unfold mbind, result_bind.
  destruct (try_fold _ _ _); [|done]. split; [apply sort_by_perm|apply sort_exclusions_sorted].
Qed.
End PolicyProofs.

(** * Plans under the source-index policy

    A complete plan under a policy sees a partition: files that fit the cap and are planned
    for, oversized files with a verified exclusion, and files an exclusion of the published
    index still stands for. *)
(** ** Taking one element out *)
Lemma find_position_some {A} (f : A → bool) l i :
  find_position f l = Some i → ∃ x, l !! i = Some x ∧ f x = true.
Proof.
  revert i. induction l as [|x l IH]; cbn; [done|]. intros i. destruct (f x) eqn:Hx.
  - intros [= <-]. by exists x.
  - destruct (find_position f l) as [j|]; [|done]. intros [= <-]. by apply IH.
Qed.
Lemma swap_remove_perm {A} (l : list A) i x : l !! i = Some x → l ≡ₚ x :: swap_remove l i.
Proof.
  intros Hi. unfold swap_remove. destruct l as [|y l _] using rev_ind; [done|].
  rewrite last_snoc, removelast_last, length_app, Nat.add_1_r.
  destruct (decide (S i = S (length l))) as [[= ->]|Hne].
  - rewrite lookup_app_r, Nat.sub_diag in Hi by lia. injection Hi as <-. by rewrite Permutation_app_comm.
  - assert (i < length l)%nat as Hlt.
    { apply lookup_lt_Some in Hi. rewrite length_app in Hi. cbn in Hi. lia. }
    rewrite lookup_app_l in Hi by done. rewrite insert_take_drop by done.
    rewrite <- (take_drop_middle l i x Hi) at 1. rewrite Permutation_app_comm. cbn.
    rewrite <- !Permutation_middle. by rewrite perm_swap.
Qed.

Section PolicyClaims.
Context `{FileSystem} {Pattern : Type} `{GlobSyntax Pattern} `{DirectoryWalk} `{HashOrder}.

(** ** Carrying forward *)
(** An exclusion of the published index that still stands for a file of the inventory. *)
Definition stands_for (m : WorkspaceManifest) (inputs : RefreshInputs) (policy : SourceIndexPolicy)
    (carried : str * OversizedSourceExclusionCandidate) : Prop :=
  let root := workspace_root m in
  carried.2 ∈ input_policy_exclusions inputs ∧ still_valid root policy carried.2
  ∧ structural_unit_cap policy < ex_observed_unit_count carried.2
  ∧ key_of root carried.1 = key_of root (path_join root (ex_normalized_path carried.2)).
Record carry_inv (m : WorkspaceManifest) (inputs : RefreshInputs) (policy : SourceIndexPolicy)
    (start s : CarryState) (carried : list (str * OversizedSourceExclusionCandidate)) : Prop := {
  carry_files : cy_files start ≡ₚ cy_files s ++ carried.*1;
  carry_exclusions : cy_exclusions s = cy_exclusions start ++ carried.*2;
  carry_paths : cy_policy_paths s = cy_policy_paths start ++ (ex_normalized_path <$> carried.*2);
  carry_nodup : NoDup (cy_policy_paths start) → NoDup (cy_policy_paths s);
  carry_valid : Forall (stands_for m inputs policy) carried;
}.
Lemma carry_step m inputs policy start s carried candidate :
  0 ≤ structural_unit_cap policy → candidate ∈ input_policy_exclusions inputs →
  carry_inv m inputs policy start s carried →
  ∃ carried', carry_inv m inputs policy start (carry_candidate m policy s candidate) carried'.
Proof.
  intros Hcap Hin [Hfiles Hex Hpaths Hnd Hvalid]. unfold carry_candidate.
  case_bool_decide as Hnew; cbn [orb]; [by exists carried|].
  destruct (Z.eqb_spec (ex_observed_unit_count candidate) 0) as [|Hcount]; cbn [orb]; [by exists carried|].
  pose proof (revalidation_accepts m [candidate] policy) as Hrev.
  destruct (is_ok (revalidate_source_policy_exclusions m [candidate] policy)); cbn [negb]; [|by exists carried].
  destruct (proj1 Hrev eq_refl) as (_ & [Hok _]%Forall_cons & _).
  destruct (find_position _ (cy_files s)) as [position|] eqn:Hpos; [|by exists carried].
  apply find_position_some in Hpos as (file & Hfile & Hkey%str_eqb_eq).
  exists (carried ++ [(file, candidate)]).
  split; cbn [cy_files cy_exclusions cy_policy_paths].
  - rewrite Hfiles, fmap_app, app_assoc. cbn [fmap list_fmap app]. rewrite <- Permutation_cons_append.
    apply (Permutation_app_tail carried.*1 (swap_remove_perm _ _ _ Hfile)).
  - by rewrite Hex, fmap_app, app_assoc.
  - by rewrite Hpaths, !fmap_app, app_assoc.
  - intros Hs. apply NoDup_app. split_and!; [by apply Hnd| |apply NoDup_singleton].
    intros p Hp. by intros ->%list_elem_of_singleton.
  - apply Forall_app. split; [done|]. apply Forall_singleton. unfold stands_for. cbn [fst snd].
    split_and!; [done|done| |done]. destruct Hok as (_ & _ & _ & _ & _ & [[_ ?]|[? _]]); [done|done].
Qed.
Lemma carry_fold m inputs policy start candidates : 0 ≤ structural_unit_cap policy →
  (∀ c, c ∈ candidates → c ∈ input_policy_exclusions inputs) →
  ∃ carried, carry_inv m inputs policy start (foldl (carry_candidate m policy) start candidates) carried.
Proof.
  intros Hcap Hin. assert (∃ carried, carry_inv m inputs policy start start carried) as Hstart.
  { exists []. split; cbn; rewrite ?app_nil_r; try done. }
  revert Hstart. generalize start at 2 4. induction candidates as [|c candidates IH]; intros s [carried Hs]; [by exists carried|].
  cbn [foldl]. apply IH; [intros d Hd; apply Hin; by right|]. eapply carry_step; [done| |done]. apply Hin. by left.
Qed.

Lemma carried_inventory m inputs policy inventory : 0 ≤ structural_unit_cap policy →
  pi_outcome inventory = InventoryOutcome.Complete → sorted_by exclusion_leb (pi_policy_exclusions inventory) →
  ∃ current carried exclusions,
    carry_forward_verified_policy_exclusions m inputs policy inventory
    = mkPolicyInventory current exclusions InventoryOutcome.Complete (pi_issues inventory)
    ∧ pi_files inventory ≡ₚ current ++ carried.*1
    ∧ exclusions ≡ₚ pi_policy_exclusions inventory ++ carried.*2
    ∧ sorted_by exclusion_leb exclusions ∧ Forall (stands_for m inputs policy) carried.
Proof.
  intros Hcap Hc Hsorted. unfold carry_forward_verified_policy_exclusions. rewrite Hc. cbn [is_complete negb orb].
  destruct (carry_fold m inputs policy
    (mkCarry (pi_files inventory) (pi_policy_exclusions inventory) (ex_normalized_path <$> pi_policy_exclusions inventory))
    (input_policy_exclusions inputs) Hcap (λ _ Hd, Hd)) as [carried [Hcf Hce _ _ Hcv]].
  set (s := foldl _ _ _) in *. cbn [cy_files cy_exclusions] in *.
  destruct (input_policy_exclusions inputs) as [|e es] eqn:Hes.
  - exists (pi_files inventory), [], (pi_policy_exclusions inventory). rewrite !app_nil_r.
    split_and!; [|done|done|done|constructor]. destruct inventory; cbn in *. by subst.
  - exists (sort_paths (cy_files s)), carried, (sort_exclusions (cy_exclusions s)).
    split_and!; [done| | |apply sort_exclusions_sorted|done].
    + rewrite Hcf. f_equiv. symmetry. apply sort_by_perm.
    + rewrite <- Hce. apply sort_by_perm.
Qed.

(** ** The plan *)
(** A complete plan under a policy comes from a complete inventory, split three ways:
    the files of the plan all fit the byte cap; each oversized file has an exclusion with
    its verified bytes; each other missing file has an exclusion of the published index,
    over the unit cap, that still names the same bytes.  The exclusions are these and no
    others, in the order of their paths. *)
Theorem policy_plan_partition m inputs policy out :
  0 ≤ structural_unit_cap policy →
  (build_refresh_outcome_with_index_policy m inputs policy = Ok out
   ∨ ∃ n, build_refresh_outcome_bounded_with_index_policy m inputs n policy = Ok out) →
  ro_inventory_outcome (refresh out) = InventoryOutcome.Complete →
  ∃ limit base current oversized carried,
    source_inventory_inner m limit = Ok base ∧ inv_outcome base = InventoryOutcome.Complete
    ∧ inv_files base ≡ₚ current ++ oversized ++ carried.*1
    ∧ refresh out = build_refresh_outcome_from_inventory m inputs current InventoryOutcome.Complete []
    ∧ Forall (fits_cap policy) (current ++ carried.*1)
    ∧ Forall (λ path, ∃ c, excluded_candidate (workspace_root m) policy path = Some c
                           ∧ verified_exclusion (workspace_root m) policy path c) oversized
    ∧ Forall (stands_for m inputs policy) carried
    ∧ pr_policy_exclusions out ≡ₚ omap (excluded_candidate (workspace_root m) policy) oversized ++ carried.*2
    ∧ sorted_by exclusion_leb (pr_policy_exclusions out).
Proof.
  intros Hcap Hout Hc.
  assert (∃ limit inventory, source_inventory_with_policy_inner m policy limit = Ok inventory
     ∧ out = plan_of_policy_inventory m inputs
               (carry_forward_verified_policy_exclusions m inputs policy inventory)) as (limit & inventory & Hinv & ->).
  { destruct Hout as [Hout|[n Hout]];
      [unfold build_refresh_outcome_with_index_policy in Hout
      |unfold build_refresh_outcome_bounded_with_index_policy in Hout]; invert_ok; by eauto. }
  assert (pi_outcome inventory = InventoryOutcome.Complete) as Hcomplete.
  { revert Hc. cbn. unfold carry_forward_verified_policy_exclusions.
    by destruct (negb (is_complete (pi_outcome inventory)) || _). }
  assert (is_complete (pi_outcome inventory) = true) as Hc' by (by rewrite Hcomplete).
  destruct (policy_inventory_classified m policy limit inventory Hinv Hc')
    as (base & Hbase & Hbc & Hfiles & Hex & Hunclear & Hissues).
  exists limit, base. set (root := workspace_root m) in *.
  set (oversized := List.filter (λ path, negb (is_kept root policy path)) (inv_files base)).
  assert (Forall (fits_cap policy) (pi_files inventory)) as Hfit.
  { rewrite Hfiles. apply Forall_forall. intros path Hp. apply list_elem_of_In, filter_In in Hp as [Hp Hk].
    apply (kept_fits root); [done|]. destruct (unclear_verdict root policy path) as [issue|] eqn:Hu; [|done].
    assert (issue ∈ omap (unclear_verdict root policy) (inv_files base)) as Hi
      by (apply list_elem_of_omap; exists path; split; [by apply list_elem_of_In|done]).
    rewrite Hunclear in Hi. by apply elem_of_nil in Hi. }
  assert (omap (excluded_candidate root policy) (inv_files base) = omap (excluded_candidate root policy) oversized) as Homap.
  { unfold oversized. clear. induction (inv_files base) as [|path files IH]; [done|]. cbn [omap list_omap List.filter].
    unfold is_kept at 1. destruct (excluded_candidate root policy path) eqn:He; cbn [negb]; [|exact IH].
    cbn [omap list_omap]. by rewrite He, IH. }
  pose proof (policy_partition root policy (inv_files base)) as Hpart. rewrite <- Hfiles in Hpart. fold oversized in Hpart.
  destruct (carried_inventory m inputs policy inventory Hcap Hcomplete)
    as (current & carried & exclusions & -> & Hcurrent & Hexcl & Hsorted & Hcarried).
  { rewrite Hex. apply sort_exclusions_sorted. }
  rewrite Hissues. exists current, oversized, carried. split_and!; [done| | |done| | |done| |done].
  - unfold is_complete in Hbc. by apply bool_decide_eq_true in Hbc.
  - rewrite Hpart, Hcurrent, <- !app_assoc. f_equiv. apply Permutation_app_comm.
  - by rewrite <- Hcurrent.
  - apply Forall_forall. intros path Hp. apply list_elem_of_In, filter_In in Hp as [_ Hk].
    unfold is_kept in Hk. destruct (excluded_candidate root policy path) as [c|] eqn:He; [|done].
    exists c. split; [done|]. by apply excluded_candidate_verified.
  - cbn [pr_policy_exclusions plan_of_policy_inventory pi_policy_exclusions]. rewrite Hexcl, Hex, Homap. f_equiv. apply sort_by_perm.
Qed.
End PolicyClaims.

(** ** A workspace with one oversized source and one carried exclusion *)
Import WorkspaceSample.
Definition sample_policy_outcome : WorkspacePolicyRefreshOutcome :=
  default (mkPolicyRefreshOutcome (outcome_of inputs_published) [])
    (result_ok (build_refresh_outcome_with_index_policy manifest inputs_published policy)).
Lemma policy_plan_partition_witness :
  length (pr_policy_exclusions sample_policy_outcome) = 2%nat ∧
  ∃ limit base current oversized carried,
    source_inventory_inner manifest limit = Ok base ∧ inv_outcome base = InventoryOutcome.Complete
    ∧ inv_files base ≡ₚ current ++ oversized ++ carried.*1
    ∧ refresh sample_policy_outcome
      = build_refresh_outcome_from_inventory manifest inputs_published current InventoryOutcome.Complete []
    ∧ pr_policy_exclusions sample_policy_outcome
      ≡ₚ omap (excluded_candidate (workspace_root manifest) policy) oversized ++ carried.*2.
Proof.
  split; [vm_compute; reflexivity|].
  destruct (policy_plan_partition manifest inputs_published policy sample_policy_outcome)
    as (limit & base & current & oversized & carried & ? & ? & ? & ? & _ & _ & _ & ? & _).
  - vm_compute. discriminate.
  - left. vm_compute. reflexivity.
  - vm_compute. reflexivity.
  - exists limit, base, current, oversized, carried. split_and!; assumption.
Defined.
