(* ===== verification/RepositoryIdentity.v ===== *)
(** * Identities of repositories and projects

    codestory-workspace/src/repository_identity.rs: remotes in normal form (schema 1 and the
    lossless schema 2), the hashes behind the identifiers, and the project identity that
    decides whether artefacts may be shared.  The output of git is an interface; the cached
    observations are a map with the time of each entry. *)
From S2P Require Import Prelude RustStr RetrievalData Sorting StrOps UnixPath Collections WorkspacePaths.

Definition REPOSITORY_IDENTITY_SCHEMA_VERSION : Z := 1.
Definition REPOSITORY_IDENTITY_V2_SCHEMA_VERSION : Z := 2.
Definition PROJECT_IDENTITY_SCHEMA_VERSION : Z := 2.
Definition PROJECT_IDENTITY_V3_SCHEMA_VERSION : Z := 3.
(** One second, in nanoseconds. *)
Definition PROJECT_IDENTITY_OBSERVATION_CACHE_TTL : Z := 1000000000.

(** ** FNV-1a *)
Definition FNV_OFFSET : Z := 0xcbf29ce484222325.
Definition FNV_PRIME : Z := 0x100000001b3.
Definition byte_value (c : ascii) : Z := Z.of_N (N_of_ascii c).
Definition mix_byte (state byte : Z) : Z := (Z.lxor state byte * FNV_PRIME) mod 2 ^ 64.
Definition mix_str (state : Z) (value : str) : Z := foldl (λ s c, mix_byte s (byte_value c)) state value.
(** The little-endian bytes of a 32-bit value. *)
Definition le_bytes_u32 (value : Z) : list Z :=
  (λ i, Z.land (Z.shiftr value (8 * Z.of_nat i)) 255) <$> seq 0 4.
Definition mix_u32 (state value : Z) : Z := foldl mix_byte state (le_bytes_u32 value).
(** [{:016x}]: sixteen lowercase hexadecimal digits. *)
Definition hex_char (d : Z) : ascii := ascii_of_N (Z.to_N (if d <? 10 then 48 + d else 87 + d)).
Definition hex16 (value : Z) : str :=
  (λ i, hex_char (Z.land (Z.shiftr value (4 * Z.of_nat (15 - i))) 15)) <$> seq 0 16.
Definition fnv1a_hex (bytes : str) : str := hex16 (mix_str FNV_OFFSET bytes).
Definition fnv1a_path_hex (path : str) : str := fnv1a_hex path.

Definition versioned_repository_id (schema_version : Z) (normalized_repository_identity : str) : str :=
  let state := mix_str FNV_OFFSET (lit "codestory-repository-identity") in
  let state := mix_u32 state schema_version in
  let state := mix_str state normalized_repository_identity in
  lit "repo-v" ++ show_uint schema_version ++ lit "-" ++ hex16 state.
Definition canonical_repository_id_v2 : str → str :=
  versioned_repository_id REPOSITORY_IDENTITY_V2_SCHEMA_VERSION.
Definition legacy_canonical_repository_id : str → str := versioned_repository_id 1.

(** ** Remotes, schema 1 *)
Definition colon : ascii := ":"%char.
Definition strip_userinfo (value : str) : str :=
  match split_once value (lit "@") with Some (_, rest) => rest | None => value end.
Definition non_empty (s : str) : option str := match s with [] => None | _ => Some s end.
Definition normalize_repository_path_v1 (value : str) : option str :=
  let lower := to_ascii_lowercase value in
  non_empty (trim_end_matches is_slash (trim_end_str
    (trim_end_matches is_slash (trim_start_matches is_slash lower)) (lit ".git"))).
Definition normalize_url_repository_identity_v1 (rest : str) : option str :=
  let rest := strip_userinfo rest in
  parts ← split_once rest (lit "/");
  let '(authority, path) := parts : str * str in
  let host := match split_once authority (lit ":") with Some (host, _) => host | None => authority end in
  normalize_repository_path_v1 (host ++ lit "/" ++ path).
(** The text with its first colon turned into a slash, for [host:path/...] only. *)
Definition scp_to_path (without_user : str) : str :=
  match split_once without_user (lit ":") with
  | Some (before, after) =>
      if negb (contains before (lit "/")) && contains after (lit "/")
      then before ++ lit "/" ++ after else without_user
  | None => without_user
  end.
Definition normalize_repository_identity_v1 (remote : str) : option str :=
  let value := unix_path (trim remote) in
  match value with
  | [] => None
  | _ =>
      match split_once value (lit "://") with
      | Some (_, rest) => normalize_url_repository_identity_v1 rest
      | None => normalize_repository_path_v1 (scp_to_path (strip_userinfo value))
      end
  end.

(** ** Remotes, schema 2 *)
Record RemoteParts : Type := mkRemote {
  rp_scheme : str;
  rp_host : str;
  rp_port : option str;
  rp_path : str;
}.
Definition valid_port (port : str) : option str :=
  port ← parse_uint 65535 port; if port =? 0 then None else Some (show_uint port).
Definition split_scp_host_path (value : str) : option (str * str) :=
  if starts_with value (lit "[") then
    end_ ← find_byte "]"%char value;
    path ← strip_prefix (drop (S end_) value) (lit ":");
    match path with [] => None | _ => Some (take (S end_) value, path) end
  else
    parts ← split_once value (lit ":");
    let '(host, path) := parts : str * str in
    if negb (contains host (lit "/")) && negb (str_eqb path []) then Some (host, path) else None.
Definition normalize_scp_repository_identity (value : str) : option RemoteParts :=
  parts ← split_scp_host_path (strip_userinfo value);
  let '(host, path) := parts : str * str in
  let path := if starts_with path (lit "/") || starts_with path (lit "~") then path
              else lit "~/" ++ path in
  Some (mkRemote (lit "ssh") host (Some (lit "22")) path).
Definition split_host_port (authority : str) : option (str * option str) :=
  if starts_with authority (lit "[") then
    end_ ← find_byte "]"%char authority;
    let host := take (S end_) authority in
    match drop (S end_) authority with
    | [] => Some (host, None)
    | suffix => port ← strip_prefix suffix (lit ":"); port ← valid_port port; Some (host, Some port)
    end
  else
    match rsplit_once authority (lit ":") with
    | Some (host, port) => port ← valid_port port; Some (host, Some port)
    | None => Some (authority, None)
    end.
Definition default_port (scheme : str) : option str :=
  if str_eqb scheme (lit "http") then Some (lit "80")
  else if str_eqb scheme (lit "https") then Some (lit "443")
  else if str_eqb scheme (lit "ssh") then Some (lit "22")
  else if str_eqb scheme (lit "git") then Some (lit "9418") else None.
Definition normalize_url_repository_identity (scheme rest : str) : option RemoteParts :=
  let scheme := to_ascii_lowercase scheme in
  if str_eqb scheme (lit "file") then None
  else
    parts ← split_once (strip_userinfo rest) (lit "/");
    let '(authority, path) := parts : str * str in
    host_port ← split_host_port authority;
    let '(host, explicit_port) := host_port : str * option str in
    Some (mkRemote scheme host (option_or explicit_port (default_port scheme)) path).
Definition normalize_repository_path (value : str) : option str :=
  let normalized := trim_end_matches is_slash value in
  non_empty (if ends_with normalized (lit ".git")
             then trim_end_matches is_slash (take (length normalized - 4) normalized) else normalized).
Definition is_alphabetic (c : ascii) : bool :=
  let n := byte_value c in ((65 <=? n) && (n <=? 90)) || ((97 <=? n) && (n <=? 122)).
(** Local paths: absolute, dotted, or with a drive letter. *)
Definition is_local_remote (value : str) : bool :=
  str_eqb value [] || starts_with value (lit "/") || starts_with value (lit "./")
  || starts_with value (lit "../")
  || (match head value with Some c => is_alphabetic c | None => false end
      && bool_decide (value !! 1%nat = Some colon)).
(** The parts of a remote in normal form, and the text they are written as. *)
Definition remote_parts (value : str) : option RemoteParts :=
  if is_local_remote value then None
  else
    raw ← match split_once value (lit "://") with
          | Some (scheme, rest) => (λ p, (p, true)) <$> normalize_url_repository_identity scheme rest
          | None => (λ p, (p, false)) <$> normalize_scp_repository_identity value
          end;
    let '(p, is_url) := raw : RemoteParts * bool in
    let host := to_ascii_lowercase (rp_host p) in
    match host with
    | [] => None
    | _ =>
        path ← normalize_repository_path
                 (if is_url : bool then rp_path p
                  else default (rp_path p) (strip_prefix (rp_path p) (lit "/")));
        Some (mkRemote (to_ascii_lowercase (rp_scheme p)) host (rp_port p) path)
    end.
Definition canonical_text (p : RemoteParts) : str :=
  match rp_port p with
  | Some port => rp_scheme p ++ lit "://" ++ rp_host p ++ lit ":" ++ port ++ lit "/" ++ rp_path p
  | None => rp_scheme p ++ lit "://" ++ rp_host p ++ lit "/" ++ rp_path p
  end.
Definition parse_repository_identity_v2 (remote : str) : option str :=
  canonical_text <$> remote_parts (unix_path (trim remote)).

(** ** Roots *)
Record WorkspaceRootIdentity : Type := mkRootIdentity {
  root_workspace_id : str;
  root_legacy_raw : option str;
  root_normalized_alias : option str;
}.
Definition fnv_alias (root workspace_id : str) : option str :=
  let legacy_id := fnv1a_hex root in
  if str_eqb legacy_id workspace_id then None else Some legacy_id.
Definition is_windows_drive_root (path : str) : bool :=
  match path with
  | [drive; c; s] => is_alphabetic drive && Ascii.eqb c colon && is_slash s
  | _ => false
  end.
Fixpoint collapse_separators (previous_was_separator : bool) (s : str) : str :=
  match s with
  | [] => []
  | ch :: s =>
      if is_slash ch then
        if previous_was_separator then collapse_separators true s else ch :: collapse_separators true s
      else ch :: collapse_separators false s
  end.
Fixpoint pop_separators (fuel : nat) (s : str) : str :=
  match fuel with
  | O => s
  | S fuel =>
      if (1 <? len s) && ends_with s (lit "/") && negb (is_windows_drive_root s)
      then pop_separators fuel (removelast s) else s
  end.
Definition without_verbatim_prefix (normalized : str) : str :=
  if eq_ignore_ascii_case (take 8 normalized) (lit "//?/unc/") then lit "//" ++ drop 8 normalized
  else if starts_with normalized (lit "//?/") then drop 4 normalized else normalized.
Definition normalize_root_identity_text (root : str) : str :=
  let trimmed := trim root in
  let windows_style := contains trimmed (lit "\") || starts_with trimmed (lit "//")
                       || bool_decide (trimmed !! 1%nat = Some colon) in
  let normalized := without_verbatim_prefix (unix_path trimmed) in
  let preserve_unc := starts_with normalized (lit "//") in
  let collapsed := collapse_separators false normalized in
  let collapsed := if preserve_unc && negb (starts_with collapsed (lit "//"))
                   then slash :: collapsed else collapsed in
  let collapsed := pop_separators (length collapsed) collapsed in
  if windows_style then to_ascii_lowercase collapsed else collapsed.
Definition workspace_root_identity_from_text (raw_root canonical_root : str) : WorkspaceRootIdentity :=
  let workspace_id := fnv1a_hex canonical_root in
  mkRootIdentity workspace_id (fnv_alias raw_root workspace_id)
    (fnv_alias (normalize_root_identity_text canonical_root) workspace_id).

(** ** Git observations *)
Definition portable_reuse_status (normalized tree : option str) (dirty : bool) : bool * str :=
  match normalized, tree, dirty with
  | None, _, _ => (false, lit "git_remote_missing")
  | Some _, None, _ => (false, lit "git_tree_unavailable")
  | Some _, Some _, true => (false, lit "git_worktree_dirty")
  | Some _, Some _, false => (true, lit "eligible")
  end.
Record RepositoryIdentity : Type := mkRepositoryIdentity {
  ri_canonical_repository_id : option str;
  ri_legacy_canonical_repository_id : option str;
  ri_schema_version : Z;
  ri_normalized_repository_identity : option str;
  ri_git_remote : option str;
  ri_git_tree : option str;
  ri_portable_reuse_eligible : bool;
  ri_portable_reuse_reason : str;
}.
Record ProjectIdentity : Type := mkProjectIdentity {
  pi_schema_version : Z;
  project_id : str;
  workspace_id : str;
  artifact_scope_id : str;
  pi_canonical_repository_id : option str;
  pi_legacy_canonical_repository_id : option str;
  pi_legacy_raw_root_project_id : option str;
  pi_normalized_root_project_id_alias : option str;
  pi_portable_reuse_eligible : bool;
  pi_portable_reuse_reason : str;
}.
Record SidecarProjectIdentity : Type := mkSidecarIdentity {
  si_project_id : str;
  si_canonical_repository_id : option str;
  si_root_derived_project_id : str;
  si_portable_reuse_eligible : bool;
  si_portable_reuse_reason : str;
}.
(** The trimmed output of a git command, when it succeeds. *)
Class Git : Type := { git_output : str → list str → option str }.

Section Identities.
Context `{FileSystem} `{Git}.

Definition git_remote (root : str) : option str :=
  git_output root [lit "config"; lit "--get"; lit "remote.origin.url"].
Definition git_tree (root : str) : option str := git_output root [lit "rev-parse"; lit "HEAD^{tree}"].
Definition git_dirty (root : str) : bool :=
  match git_output root [lit "status"; lit "--porcelain"] with
  | Some status => negb (str_eqb (trim status) [])
  | None => true
  end.
Definition inspect_repository_identity (root : str) : RepositoryIdentity :=
  let remote := git_remote root in
  let normalized := remote ≫= normalize_repository_identity_v1 in
  let '(eligible, reason) := portable_reuse_status normalized (git_tree root) (git_dirty root) in
  mkRepositoryIdentity (legacy_canonical_repository_id <$> normalized) None
    REPOSITORY_IDENTITY_SCHEMA_VERSION normalized remote (git_tree root) eligible reason.
Definition inspect_repository_identity_v2 (root : str) : RepositoryIdentity :=
  let remote := git_remote root in
  let normalized := remote ≫= parse_repository_identity_v2 in
  let '(eligible, reason) := portable_reuse_status normalized (git_tree root) (git_dirty root) in
  mkRepositoryIdentity (canonical_repository_id_v2 <$> normalized) None
    REPOSITORY_IDENTITY_V2_SCHEMA_VERSION normalized remote (git_tree root) eligible reason.

Definition canonical_project_root (root : str) : str := default root (result_ok (fs_canonicalize root)).
Definition workspace_root_identity (root : str) : WorkspaceRootIdentity :=
  workspace_root_identity_from_text root (canonical_project_root root).
Definition workspace_root_identity_v3 (root : str) : WorkspaceRootIdentity :=
  let canonical_root := canonical_project_root root in
  let workspace_id := fnv1a_path_hex canonical_root in
  mkRootIdentity workspace_id (fnv_alias root workspace_id)
    (fnv_alias (normalize_root_identity_text canonical_root) workspace_id).
Definition workspace_id_for_root (root : str) : str := root_workspace_id (workspace_root_identity root).
Definition workspace_id_v3_for_root (root : str) : str := root_workspace_id (workspace_root_identity_v3 root).

Definition project_identity_from (schema_version : Z) (repository : RepositoryIdentity)
    (root : WorkspaceRootIdentity) : ProjectIdentity :=
  let project_id := default (root_workspace_id root) (ri_canonical_repository_id repository) in
  mkProjectIdentity schema_version project_id (root_workspace_id root)
    (if ri_portable_reuse_eligible repository then project_id else root_workspace_id root)
    (ri_canonical_repository_id repository) (ri_legacy_canonical_repository_id repository)
    (root_legacy_raw root) (root_normalized_alias root) (ri_portable_reuse_eligible repository)
    (ri_portable_reuse_reason repository).
Definition project_identity_v2 (root : str) : ProjectIdentity :=
  project_identity_from PROJECT_IDENTITY_SCHEMA_VERSION (inspect_repository_identity root)
    (workspace_root_identity root).
Definition project_identity_v3_from_repository (root : str) (repository : RepositoryIdentity)
  : ProjectIdentity :=
  project_identity_from PROJECT_IDENTITY_V3_SCHEMA_VERSION repository (workspace_root_identity_v3 root).
Definition project_identity_v3 (root : str) : ProjectIdentity :=
  project_identity_v3_from_repository root (inspect_repository_identity_v2 root).
Definition sidecar_project_identity (root root_derived_project_id : str) : SidecarProjectIdentity :=
  let identity := project_identity_v2 root in
  mkSidecarIdentity
    (if pi_portable_reuse_eligible identity then project_id identity else root_derived_project_id)
    (pi_canonical_repository_id identity) root_derived_project_id
    (pi_portable_reuse_eligible identity) (pi_portable_reuse_reason identity).
End Identities.

(** ** Cached observations *)
(** The cache holds, by canonical root, an identity and the time it was stored at. *)
Definition IdentityCache : Type := list (list Component * (Z * ProjectIdentity)).
(** One call: [now] is the time of the lookup, [stored] the time after the observation. *)
Definition cached_project_identity `{FileSystem} (observe : str → ProjectIdentity) (root : str)
    (now stored : Z) (cache : IdentityCache) : ProjectIdentity * IdentityCache :=
  let key := components (canonical_project_root root) in
  let fresh := match hm_get cache key with
               | Some (cached_at, identity) =>
                   if Z.max 0 (now - cached_at) <? PROJECT_IDENTITY_OBSERVATION_CACHE_TTL
                   then Some identity else None
               | None => None
               end in
  match fresh with
  | Some identity => (identity, cache)
  | None =>
      let identity := observe root in
      (identity, hm_insert cache key (stored, identity))
  end.
