(* ===== verification/RepositoryIdentityProofs.v ===== *)
(** * Repository and project identities: properties

    Schema-2 identities are lossless, portable and workspace scopes never meet, and a cached
    identity is at most a second old. *)
From S2P Require Import Prelude RustStr RetrievalData Sorting StrOps UnixPath Collections WorkspacePaths WorkspaceRefresh RepositoryIdentity.

(** ** Texts cut at separators *)
Lemma cut_first {A} (c : A) a b a' b' : c ∉ a → c ∉ a' → a ++ c :: b = a' ++ c :: b' → a = a' ∧ b = b'.
Proof.
  revert a'. induction a as [|x a IH]; intros [|x' a']; rewrite ?elem_of_cons; intros Ha Ha' E;
    simplify_eq/=; [done|tauto|tauto|].
  destruct (IH a') as [-> ->]; [tauto..|done|done].
Qed.
Lemma cut_last {A} (c : A) a b a' b' : c ∉ b → c ∉ b' → a ++ c :: b = a' ++ c :: b' → a = a' ∧ b = b'.
Proof.
  intros Hb Hb' E. apply (f_equal reverse) in E. rewrite !reverse_app, !reverse_cons, <- !app_assoc in E.
  destruct (cut_first c (reverse b) (reverse a) (reverse b') (reverse a')) as [E1 E2];
    [by rewrite elem_of_reverse..|done|].
  by split; apply (inj reverse).
Qed.
Lemma find_byte_cut c s i : find_byte c s = Some i → take (S i) s = take i s ++ [c] ∧ c ∉ take i s.
Proof.
  revert i. induction s as [|x s IH]; intros i; [done|]. cbn [find_byte].
  destruct (Ascii.eqb_spec x c) as [-> | Hx]; [intros [= <-]; cbn; split; [done|apply not_elem_of_nil]|].
  destruct (find_byte c s) as [j|]; [|done]. intros [= <-]. destruct (IH j eq_refl) as [E N].
  split; [cbn [take app]; f_equal; exact E|]. cbn [take]. rewrite elem_of_cons. intros [-> | ?]; [done|done].
Qed.
Lemma starts_with_take s pat i : starts_with (take i s) pat = true → starts_with s pat = true.
Proof.
  revert s i. induction pat as [|p pat IH]; intros [|c s] [|i]; cbn; try done.
  intros [-> H]%andb_prop. apply IH in H. by rewrite H.
Qed.
Lemma find_str_take s pat i : pat ≠ [] → find_str s pat = Some i → find_str (take i s) pat = None.
Proof.
  intros Hp. revert i. induction s as [|c s IH]; intros i; cbn [find_str].
  - destruct (starts_with [] pat) eqn:E; [|done]. by destruct pat.
  - destruct (starts_with (c :: s) pat) eqn:E.
    + intros [= <-]. cbn. by destruct pat.
    + destruct (find_str s pat) as [j|]; [|done]. intros [= <-]. cbn [take find_str].
      destruct (starts_with (c :: take j s) pat) eqn:E'; [|by rewrite IH].
      pose proof (starts_with_take (c :: s) pat (S j) E') as H. by rewrite E in H.
Qed.
Lemma starts_with_one c s : starts_with s [c] = true ↔ head s = Some c.
Proof.
  destruct s as [|x s]; cbn; [done|]. destruct (Ascii.eqb_spec c x) as [-> | H]; cbn; [|by split; [|intros [= ->]]].
  destruct s; done.
Qed.
Lemma contains_one c s : contains s [c] = true ↔ c ∈ s.
Proof.
  induction s as [|x s IH]; [cbn; split; [done|by intros ?%elem_of_nil]|].
  cbn [contains]. rewrite orb_true_iff, starts_with_one, IH, elem_of_cons. cbn. naive_solver.
Qed.
Lemma find_one c s : match find_str s [c] with
  | Some i => s = take i s ++ c :: drop (i + 1) s ∧ c ∉ take i s | None => c ∉ s end.
Proof.
  induction s as [|x s IH]; [cbn; apply not_elem_of_nil|]. cbn [find_str].
  destruct (starts_with (x :: s) [c]) eqn:E.
  - apply starts_with_one in E as [= ->]. cbn. split; [by rewrite drop_0|apply not_elem_of_nil].
  - assert (x ≠ c) by (intros ->; by rewrite (proj2 (starts_with_one _ _)) in E).
    destruct (find_str s [c]) as [i|]; cbn.
    + destruct IH as [E' N]. split; [by f_equal|]. rewrite elem_of_cons. naive_solver.
    + rewrite elem_of_cons. naive_solver.
Qed.
Lemma rfind_one c s : match rfind s [c] with
  | Some i => s = take i s ++ c :: drop (i + 1) s | None => c ∉ s end.
Proof.
  induction s as [|x s IH]; [cbn; apply not_elem_of_nil|]. cbn [rfind].
  destruct (rfind s [c]) as [i|]; [cbn; by f_equal|].
  destruct (starts_with (x :: s) [c]) eqn:E.
  - apply starts_with_one in E as [= ->]. cbn. by rewrite drop_0.
  - rewrite elem_of_cons. intros [-> | ?]; [|done]. by rewrite (proj2 (starts_with_one _ _)) in E.
Qed.
Lemma split_once_one s c a b : split_once s [c] = Some (a, b) → s = a ++ c :: b ∧ c ∉ a.
Proof. unfold split_once. pose proof (find_one c s). destruct (find_str s [c]); [|done]. by intros [= <- <-]. Qed.
Lemma rsplit_once_one s c a b : rsplit_once s [c] = Some (a, b) → s = a ++ c :: b.
Proof. unfold rsplit_once. pose proof (rfind_one c s). destruct (rfind s [c]); [|done]. by intros [= <- <-]. Qed.

(** ** Lower case *)
Lemma ascii_lower_fixed d : ascii_upper d = d → ∀ c, ascii_lower c = d → c = d.
Proof. intros Hd c <-. destruct c as [[] [] [] [] [] [] [] []]; first [reflexivity | discriminate Hd]. Qed.
Lemma lower_elem d s : ascii_upper d = d → d ∈ to_ascii_lowercase s → d ∈ s.
Proof.
  intros Hd (c & E & Hc)%list_elem_of_fmap. by rewrite (ascii_lower_fixed d Hd c) in Hc.
Qed.
Lemma lower_scheme s : find_str s (lit "://") = None → find_str (to_ascii_lowercase s) (lit "://") = None.
Proof.
  assert (∀ s pat, Forall (λ d, ascii_upper d = d) pat →
    starts_with (to_ascii_lowercase s) pat = true → starts_with s pat = true) as Hs.
  { clear. intros s pat Hp. revert s. induction Hp as [|p pat Hp _ IH]; intros [|c s]; cbn; try done.
    intros [E H]%andb_prop. apply Ascii.eqb_eq in E. symmetry in E. apply ascii_lower_fixed in E as ->; [|done].
    rewrite IH; [|done]. by rewrite Ascii.eqb_refl. }
  induction s as [|c s IH]; [done|]. change (to_ascii_lowercase (c :: s)) with (ascii_lower c :: to_ascii_lowercase s).
  cbn [find_str]. destruct (starts_with (c :: s) _) eqn:E; [done|].
  destruct (find_str s _) eqn:E'; [done|]. intros _. rewrite IH by done.
  destruct (starts_with (ascii_lower c :: _) _) eqn:E2; [|done].
  change (ascii_lower c :: to_ascii_lowercase s) with (to_ascii_lowercase (c :: s)) in E2.
  apply Hs in E2; [by rewrite E in E2|]. by repeat constructor.
Qed.

(** ** Well-formed remotes *)
Definition bracketed (host : str) : Prop := ∃ b, host = "["%char :: b ++ ["]"%char] ∧ "]"%char ∉ b.
Definition plain_host (host : str) : Prop := host ≠ [] ∧ head host ≠ Some "["%char ∧ slash ∉ host.
Definition well_formed_remote (p : RemoteParts) : Prop :=
  find_str (rp_scheme p) (lit "://") = None ∧
  (bracketed (rp_host p) ∨ plain_host (rp_host p) ∧ (rp_port p = None → colon ∉ rp_host p)) ∧
  match rp_port p with Some port => Forall is_digit port | None => True end.

Lemma cut_scheme s r s' r' :
  find_str s (lit "://") = None → find_str s' (lit "://") = None →
  s ++ lit "://" ++ r = s' ++ lit "://" ++ r' → s = s' ∧ r = r'.
Proof.
  assert (∀ z x y, find_str z (lit "://") = None → lit "://" ++ x = z ++ lit "://" ++ y → z = []) as Hz.
  { intros [|a [|b [|c z]]] x y Hf E; [done|..]; cbn in E; simplify_eq/=. by rewrite starts_with_nil in Hf. }
  revert s'. induction s as [|c s IH]; intros s' H H' E.
  - pose proof (Hz s' r r' H' E) as ->. by simplify_eq/=.
  - destruct s' as [|c' s'].
    + by pose proof (Hz (c :: s) r' r H (eq_sym E)).
    + cbn [app] in E. injection E as -> E. cbn [find_str] in H, H'.
      destruct (starts_with (c' :: s) _); [done|]. destruct (starts_with (c' :: s') _); [done|].
      destruct (IH s') as [-> ->]; [by destruct (find_str s _)|by destruct (find_str s' _)|done|done].
Qed.
Lemma digits_plain port : Forall is_digit port → slash ∉ port ∧ colon ∉ port.
Proof.
  intros H. rewrite Forall_forall in H.
  assert (∀ c, negb (Ascii.eqb c slash) && negb (Ascii.eqb c colon) = false → c ∉ port) as Hc.
  { intros c E Hin. apply H, (is_digit_test (λ c, negb (Ascii.eqb c slash) && negb (Ascii.eqb c colon))) in Hin;
      [by rewrite E in Hin|reflexivity]. }
  split; by apply Hc.
Qed.

(** The part of the canonical text between the scheme and the path. *)
Definition authority_text (p : RemoteParts) : str :=
  rp_host p ++ match rp_port p with Some port => colon :: port | None => [] end.
Lemma canonical_text_cut p :
  canonical_text p = rp_scheme p ++ lit "://" ++ authority_text p ++ slash :: rp_path p.
Proof. unfold canonical_text, authority_text. by destruct (rp_port p); rewrite <- ?app_assoc; cbn; rewrite ?app_nil_r. Qed.

Lemma authority_inj p q r r' : well_formed_remote p → well_formed_remote q →
  authority_text p ++ slash :: r = authority_text q ++ slash :: r' →
  rp_host p = rp_host q ∧ rp_port p = rp_port q ∧ r = r'.
Proof.
  intros (_ & Hp & Dp) (_ & Hq & Dq). unfold authority_text.
  assert (∀ o : option str, match o with Some port => Forall is_digit port | None => True end →
    slash ∉ match o with Some port => colon :: port | None => [] end) as Hslash.
  { intros [port|] H; [|apply not_elem_of_nil]. rewrite elem_of_cons. intros [? | ?]; [done|].
    by destruct (digits_plain port H). }
  assert (∀ o o' : option str, match o with Some port => Forall is_digit port | None => True end →
    match o' with Some port => Forall is_digit port | None => True end →
    match o with Some port => colon :: port | None => [] end ++ slash :: r =
    match o' with Some port => colon :: port | None => [] end ++ slash :: r' → o = o' ∧ r = r') as Hports.
  { intros o o' Ho Ho' E. destruct (cut_first slash _ _ _ _ (Hslash o Ho) (Hslash o' Ho') E) as [E1 ->].
    split; [|done]. destruct o, o'; by simplify_eq/=. }
  destruct Hp as [(b & Eb & Nb) | [(Np & Bp & Sp) Cp]], Hq as [(b' & Eb' & Nb') | [(Nq & Bq & Sq) Cq]].
  - rewrite Eb, Eb', <- !app_assoc. cbn [app]. rewrite <- !app_assoc. intros [= E].
    destruct (cut_first "]"%char b _ b' _ Nb Nb' E) as [-> E']. split; [done|]. by apply Hports.
  - rewrite Eb. destruct (rp_host q); [done|]. intros [= <- _]. by destruct Bq.
  - rewrite Eb'. destruct (rp_host p); [done|]. intros [= -> _]. by destruct Bp.
  - intros E. apply cut_first in E as [E ->];
      [|rewrite elem_of_app; intros [? | ?]; [done|first [by apply (Hslash _ Dp)|by apply (Hslash _ Dq)]]..].
    destruct (rp_port p) as [port|], (rp_port q) as [port'|].
    + apply cut_last in E as [-> ->]; [done|by apply digits_plain..].
    + rewrite app_nil_r in E. destruct Cq; [done|]. rewrite <- E, elem_of_app, elem_of_cons. tauto.
    + rewrite app_nil_r in E. destruct Cp; [done|]. rewrite E, elem_of_app, elem_of_cons. tauto.
    + by rewrite !app_nil_r in E.
Qed.
Lemma canonical_text_inj p q : well_formed_remote p → well_formed_remote q →
  canonical_text p = canonical_text q → p = q.
Proof.
  intros Hp Hq. rewrite !canonical_text_cut. intros E.
  apply cut_scheme in E as [E1 E]; [|apply Hp|apply Hq].
  apply authority_inj in E as (E2 & E3 & E4); [|done..]. destruct p, q; by simplify_eq/=.
Qed.

(** ** Parsed remotes are well formed *)
Lemma parse_uint_bounds max s n : 0 ≤ max → parse_uint max s = Some n → 0 ≤ n ≤ max.
Proof.
  intros Hmax. assert (∀ s acc, 0 ≤ acc ≤ max → parse_digits max acc s = Some n → 0 ≤ n ≤ max) as H.
  { clear s. induction s as [|c s IH]; intros acc Hacc; cbn [parse_digits]; [by intros [= <-]|].
    unfold char_digit. destruct ((48 <=? Z.of_N (N_of_ascii c)) && _) eqn:E; [|done]. cbn [mbind option_bind].
    destruct (_ <=? max) eqn:E'; [|done]. apply IH. apply andb_prop in E as [E _]. lia. }
  destruct s as [|c s]; [done|]. cbn [parse_uint]. destruct (Ascii.eqb c _); [|apply H; lia].
  destruct s; [done|apply H; lia].
Qed.
Definition port_ok (port : option str) : Prop :=
  match port with Some port => Forall is_digit port | None => True end.
Definition host_ok (host : str) (port : option str) : Prop :=
  (bracketed host ∨ head host ≠ Some "["%char ∧ slash ∉ host ∧ (port = None → colon ∉ host)) ∧ port_ok port.

Lemma port_number n : 0 ≤ n ≤ 65535 → port_ok (Some (show_uint n)).
Proof. intros H. apply show_uint_digits. unfold u64_max. lia. Qed.
Lemma valid_port_digits s port : valid_port s = Some port → port_ok (Some port).
Proof.
  unfold valid_port. destruct (parse_uint 65535 s) as [n|] eqn:E; [|done]. cbn [mbind option_bind].
  apply parse_uint_bounds in E; [|done]. destruct (n =? 0); [done|]. intros [= <-]. by apply port_number.
Qed.
Lemma default_port_digits scheme : port_ok (default_port scheme).
Proof.
  unfold default_port. destruct (str_eqb scheme _); [exact (port_number 80 ltac:(lia))|].
  destruct (str_eqb scheme _); [exact (port_number 443 ltac:(lia))|].
  destruct (str_eqb scheme _); [exact (port_number 22 ltac:(lia))|].
  destruct (str_eqb scheme _); [exact (port_number 9418 ltac:(lia))|done].
Qed.

Lemma no_bracket s : starts_with s (lit "[") = false → head s ≠ Some "["%char.
Proof. intros Hb E%starts_with_one. unfold lit in Hb. cbn [String.list_ascii_of_string] in Hb. by rewrite E in Hb. Qed.
Lemma bracketed_cut value i : starts_with value (lit "[") = true → find_byte "]"%char value = Some i →
  bracketed (take (S i) value).
Proof.
  intros H%starts_with_one Hi. apply find_byte_cut in Hi as [E N].
  destruct value as [|c value]; [done|]. cbn in H. injection H as ->.
  destruct i as [|i]; [cbn in E; discriminate E|]. exists (take i value). split; [by rewrite E|].
  cbn [take] in N. rewrite elem_of_cons in N. tauto.
Qed.
Lemma head_app_no (s t : str) c : head (s ++ t) ≠ Some c → head s ≠ Some c.
Proof. by destruct s. Qed.
Lemma split_host_port_ok authority host port : slash ∉ authority →
  split_host_port authority = Some (host, port) → host_ok host port.
Proof.
  intros Hs. unfold split_host_port. destruct (starts_with authority (lit "[")) eqn:Hb.
  - destruct (find_byte "]"%char authority) as [i|] eqn:Hi; [|done]. cbn [mbind option_bind].
    pose proof (bracketed_cut _ _ Hb Hi) as Hbr. destruct (drop (S i) authority) as [|c suffix].
    + intros [= <- <-]. by split; [left|].
    + destruct (strip_prefix _ _) as [port'|]; [|done]. cbn [mbind option_bind].
      destruct (valid_port port') as [q|] eqn:Hq; [|done]. intros [= <- <-].
      split; [by left|]. by apply valid_port_digits in Hq.
  - apply no_bracket in Hb as Hh. destruct (rsplit_once authority (lit ":")) as [[host' port']|] eqn:E.
    + apply rsplit_once_one in E as ->. destruct (valid_port port') as [q|] eqn:Hq; [|done]. intros [= <- <-].
      apply head_app_no in Hh. rewrite elem_of_app in Hs. split; [right|by apply valid_port_digits in Hq].
      split; [done|]. split; [tauto|done].
    + intros [= <- <-]. split; [right|done]. split; [done|]. split; [done|]. intros _.
      unfold rsplit_once in E. pose proof (rfind_one colon authority) as H.
      change [colon] with (lit ":") in H. by destruct (rfind authority (lit ":")).
Qed.
Lemma split_scp_host_path_ok value host path : split_scp_host_path value = Some (host, path) →
  host_ok host (Some (lit "22")).
Proof.
  intros H. split; [|exact (port_number 22 ltac:(lia))]. revert H.
  unfold split_scp_host_path. destruct (starts_with value (lit "[")) eqn:Hb.
  - destruct (find_byte "]"%char value) as [i|] eqn:Hi; [|done]. cbn [mbind option_bind].
    destruct (strip_prefix _ _) as [p|]; [|done]. cbn [mbind option_bind]. destruct p; [done|].
    intros [= <- <-]. left. by apply bracketed_cut.
  - destruct (split_once value (lit ":")) as [[h p]|] eqn:E; [|done]. cbn [mbind option_bind].
    apply split_once_one in E as [-> Hc]. destruct (contains h (lit "/")) eqn:Hs; [done|].
    destruct (str_eqb p []); [done|]. intros [= <- <-]. right.
    split; [|split; [|done]].
    + apply no_bracket in Hb. by destruct h.
    + intros Hin%contains_one. change [slash] with (lit "/") in Hin. by rewrite Hin in Hs.
Qed.
Lemma host_ok_lower host port : host_ok host port → host_ok (to_ascii_lowercase host) port.
Proof.
  intros [H Hp]. split; [|done]. destruct H as [(b & -> & N) | (Hh & Hs & Hc)].
  - left. exists (to_ascii_lowercase b). split; [by unfold to_ascii_lowercase; rewrite fmap_cons, fmap_app|].
    by intros ?%lower_elem.
  - right. split; [|split; [by intros ?%lower_elem|by intros E ?%lower_elem; [apply Hc|]]].
    destruct host as [|c host]; [done|]. cbn in Hh |- *. intros [= E].
    apply ascii_lower_fixed in E as ->; done.
Qed.

(** The invariant of parsed remotes. *)
Lemma remote_parts_well_formed value p : remote_parts value = Some p → well_formed_remote p.
Proof.
  unfold remote_parts. destruct (is_local_remote value); [done|].
  assert (∀ raw is_url, find_str (rp_scheme raw) (lit "://") = None → host_ok (rp_host raw) (rp_port raw) →
    match to_ascii_lowercase (rp_host raw) with [] => None | _ =>
      path ← normalize_repository_path (if is_url : bool then rp_path raw
               else default (rp_path raw) (strip_prefix (rp_path raw) (lit "/")));
      Some (mkRemote (to_ascii_lowercase (rp_scheme raw)) (to_ascii_lowercase (rp_host raw)) (rp_port raw) path)
    end = Some p → well_formed_remote p) as Hfin.
  { intros raw u Hs Hh%host_ok_lower E. destruct (to_ascii_lowercase (rp_host raw)) as [|c host]; [done|].
    destruct (normalize_repository_path _) as [path|]; [|done]. injection E as <-.
    destruct Hh as [Hh Hp]. split; [by apply lower_scheme|]. split; [|done].
    destruct Hh as [Hh | (H1 & H2 & H3)]; [by left|right]. by repeat split. }
  destruct (split_once value (lit "://")) as [[scheme rest]|] eqn:E.
  - unfold normalize_url_repository_identity. destruct (str_eqb _ _); [done|].
    destruct (split_once (strip_userinfo rest) (lit "/")) as [[authority path]|] eqn:E2; [|done].
    cbn [mbind option_bind]. destruct (split_host_port authority) as [[host port]|] eqn:E3; [|done]. cbn [mbind option_bind fmap option_fmap option_map].
    apply (Hfin (mkRemote _ host _ path) true); cbn [rp_scheme rp_host rp_port].
    + apply lower_scheme. unfold split_once in E. destruct (find_str value _) as [i|] eqn:Ei; [|done].
      injection E as <- <-. by apply find_str_take.
    + apply split_once_one in E2 as [_ Hs]. apply split_host_port_ok in E3 as [H Hp]; [|done].
      destruct port as [port|]; [done|]. cbn [option_or]. split; [|apply default_port_digits].
      destruct H as [H | (H1 & H2 & H3)]; [by left|right]. by auto.
  - unfold normalize_scp_repository_identity.
    destruct (split_scp_host_path _) as [[host path]|] eqn:E2; [|done]. cbn [mbind option_bind fmap option_fmap option_map].
    apply (Hfin (mkRemote _ host _ _) false); cbn [rp_scheme rp_host rp_port]; [done|]. by apply split_scp_host_path_ok in E2.
Qed.

(** Schema-2 identities are lossless: two remotes with the same normal form agree on
    scheme, lower-case host, port and path, so no two repositories are merged by the way
    the normal form is written. *)
Theorem remote_identity_lossless a b identity :
  parse_repository_identity_v2 a = Some identity → parse_repository_identity_v2 b = Some identity →
  ∃ p, remote_parts (unix_path (trim a)) = Some p ∧ remote_parts (unix_path (trim b)) = Some p ∧
    well_formed_remote p ∧ identity = canonical_text p.
Proof.
  unfold parse_repository_identity_v2. intros (p & Hp & ->)%fmap_Some (q & Hq & E)%fmap_Some.
  pose proof (remote_parts_well_formed _ _ Hp). pose proof (remote_parts_well_formed _ _ Hq).
  apply canonical_text_inj in E as <-; [|done..]. by exists p.
Qed.
Lemma remote_identity_lossless_witness :
  ∃ p, remote_parts (lit "git@Example.com:x/y.git") = Some p ∧
    remote_parts (lit "ssh://example.com/~/x/y/") = Some p ∧ rp_port p = Some (lit "22").
Proof.
  destruct (remote_identity_lossless (lit " git@Example.com:x/y.git") (lit "ssh://example.com/~/x/y/")
    (lit "ssh://example.com:22/~/x/y")) as (p & Ha & Hb & _ & E); [by vm_compute..|].
  exists p. split; [exact Ha|]. split; [exact Hb|]. vm_compute in Hb. injection Hb as <-. reflexivity.
Defined.

(** The user part ends at the first at-sign of the whole rest, so an at-sign in the path
    takes the host with it: two hosts get one identity. *)
Lemma at_sign_in_path_loses_host :
  parse_repository_identity_v2 (lit "https://one.example/@scope/repo") =
  parse_repository_identity_v2 (lit "https://two.example/@scope/repo").
Proof. by vm_compute. Qed.

(** ** Scopes *)
Lemma hex16_length v : length (hex16 v) = 16%nat.
Proof. unfold hex16. by rewrite length_fmap, length_seq. Qed.
Lemma versioned_repository_id_length v s : v = 1 ∨ v = 2 → length (versioned_repository_id v s) = 24%nat.
Proof.
  intros Hv. unfold versioned_repository_id. rewrite !length_app, hex16_length. by destruct Hv as [-> | ->].
Qed.

Section Scopes.
Context `{FileSystem} `{Git}.

(** A checkout whose artefacts may leave the workspace: its remote has a normal form, its
    tree is known and git reports no change. *)
Definition portable_checkout (normal : str → option str) (root : str) : Prop :=
  (∃ url id, git_remote root = Some url ∧ normal url = Some id) ∧ is_Some (git_tree root) ∧
  git_output root [lit "status"; lit "--porcelain"] <> None ∧ git_dirty root = false.

Lemma portable_reuse_status_spec normal root : portable_checkout normal root ↔
  (portable_reuse_status (git_remote root ≫= normal) (git_tree root) (git_dirty root)).1 = true.
Proof.
  unfold portable_checkout, git_dirty. destruct (git_remote root) as [url|]; cbn; [|naive_solver].
  destruct (normal url) as [id|] eqn:E; cbn; [|naive_solver].
  destruct (git_tree root) as [tree|]; cbn; [|split; [intros (_ & [? ?] & _); done|done]].
  destruct (git_output root _) as [s|]; cbn; [|naive_solver].
  destruct (negb _); cbn; naive_solver.
Qed.

Definition repository_for (v3 : bool) (root : str) : RepositoryIdentity :=
  if v3 then inspect_repository_identity_v2 root else inspect_repository_identity root.
Definition normal_for (v3 : bool) : str → option str :=
  if v3 then parse_repository_identity_v2 else normalize_repository_identity_v1.
Definition project_identity (v3 : bool) (root : str) : ProjectIdentity :=
  if v3 then project_identity_v3 root else project_identity_v2 root.

Lemma repository_eligible v3 root :
  ri_portable_reuse_eligible (repository_for v3 root) = true ↔ portable_checkout (normal_for v3) root.
Proof.
  rewrite portable_reuse_status_spec. destruct v3; cbn [repository_for normal_for].
  - unfold inspect_repository_identity_v2. by destruct (portable_reuse_status _ _ _).
  - unfold inspect_repository_identity. by destruct (portable_reuse_status _ _ _).
Qed.
Lemma repository_id_length v3 root id :
  ri_canonical_repository_id (repository_for v3 root) = Some id → length id = 24%nat.
Proof.
  assert (∀ o (f : str → str), (∀ s, length (f s) = 24%nat) → f <$> o = Some id → length id = 24%nat) as Hf
    by (intros o f Hlen (s & _ & ->)%fmap_Some; apply Hlen).
  destruct v3; cbn [repository_for].
  - unfold inspect_repository_identity_v2. destruct (portable_reuse_status _ _ _). cbn [ri_canonical_repository_id].
    apply Hf. intros s. apply versioned_repository_id_length. by right.
  - unfold inspect_repository_identity. destruct (portable_reuse_status _ _ _). cbn [ri_canonical_repository_id].
    apply Hf. intros s. apply versioned_repository_id_length. by left.
Qed.
Lemma repository_id_some v3 root :
  is_Some (ri_canonical_repository_id (repository_for v3 root)) ↔ is_Some (git_remote root ≫= normal_for v3).
Proof.
  destruct v3; cbn [repository_for normal_for].
  - unfold inspect_repository_identity_v2. destruct (portable_reuse_status _ _ _). apply fmap_is_Some.
  - unfold inspect_repository_identity. destruct (portable_reuse_status _ _ _). apply fmap_is_Some.
Qed.
Lemma project_identity_shape v3 root : ∃ version w,
  project_identity v3 root = project_identity_from version (repository_for v3 root) w ∧
  length (root_workspace_id w) = 16%nat.
Proof. destruct v3; eexists _, _; (split; [reflexivity|apply hex16_length]). Qed.

(** What the scope is, and how long, on both kinds of checkout. *)
Lemma scope_cases v3 root :
  (portable_checkout (normal_for v3) root ∧ ∃ id, length id = 24%nat ∧
     pi_canonical_repository_id (project_identity v3 root) = Some id ∧
     artifact_scope_id (project_identity v3 root) = id) ∨
  (¬ portable_checkout (normal_for v3) root ∧ length (workspace_id (project_identity v3 root)) = 16%nat ∧
     artifact_scope_id (project_identity v3 root) = workspace_id (project_identity v3 root)).
Proof.
  destruct (project_identity_shape v3 root) as (version & w & -> & Hw).
  pose proof (repository_eligible v3 root) as He. cbn -[repository_for].
  destruct (ri_portable_reuse_eligible _); [left|right].
  - assert (portable_checkout (normal_for v3) root) as Hp by by apply He. split; [done|].
    destruct (proj2 (repository_id_some v3 root)) as [id Hid].
    { destruct Hp as ((url & nid & Hu & Hn) & _). rewrite Hu. cbn. by exists nid. }
    rewrite Hid. exists id. by apply repository_id_length in Hid.
  - split; [by intros ?%He|done].
Qed.
End Scopes.

(** Scopes fail closed and never meet: two roots share an artefact scope only when both
    are portable checkouts with one repository identity, or when neither is portable and
    both have the same workspace identity.  A portable scope is never a workspace scope. *)
Theorem artifact_scopes_apart `{FileSystem} `{Git} v3 a b :
  artifact_scope_id (project_identity v3 a) = artifact_scope_id (project_identity v3 b) →
  (portable_checkout (normal_for v3) a ∧ portable_checkout (normal_for v3) b ∧
   ∃ id, pi_canonical_repository_id (project_identity v3 a) = Some id ∧
         pi_canonical_repository_id (project_identity v3 b) = Some id) ∨
  (¬ portable_checkout (normal_for v3) a ∧ ¬ portable_checkout (normal_for v3) b ∧
   workspace_id (project_identity v3 a) = workspace_id (project_identity v3 b)).
Proof.
  intros E. destruct (scope_cases v3 a) as [(Ha & ida & La & Ia & Sa) | (Ha & La & Sa)],
    (scope_cases v3 b) as [(Hb & idb & Lb & Ib & Sb) | (Hb & Lb & Sb)];
    rewrite Sa, Sb in E; [left; split_and!; [done..|exists ida; by rewrite Ia, Ib, E]| | |by right].
  - rewrite E, Lb in La. done.
  - rewrite <- E, La in Lb. done.
Qed.

(** Two clean checkouts of one repository under different spellings of its remote. *)
Module IdentitySample.
Definition git : Git := {|
  git_output root args := match args with
    | [_; _; _] => Some (if str_eqb root (lit "/w") then lit "git@example.com:x/y.git"
                         else lit "ssh://example.com/~/x/y")
    | [a; _] => if str_eqb a (lit "rev-parse") then Some (lit "4b825dc6") else Some []
    | _ => None
    end |}.
#[export] Existing Instances git.
End IdentitySample.
Import WorkspaceSample IdentitySample.
Lemma artifact_scopes_apart_witness :
  portable_checkout (normal_for true) (lit "/w") ∧ portable_checkout (normal_for true) (lit "/v").
Proof.
  destruct (artifact_scopes_apart true (lit "/w") (lit "/v")) as [(Ha & Hb & _) | (Ha & _)];
    [by vm_compute|by split|]. exfalso. apply Ha, portable_reuse_status_spec. by vm_compute.
Defined.

(** ** Cached identities *)
(** One call of a cached observation: what the file system and git hold, the root, the time
    of the lookup and the time after the observation. *)
Record IdentityCall : Type := mkIdentityCall {
  call_fs : FileSystem;
  call_git : Git;
  call_root : str;
  call_now : Z;
  call_stored : Z;
}.
Definition call_key (c : IdentityCall) : list Component :=
  components (@canonical_project_root (call_fs c) (call_root c)).
Definition call_observes (v3 : bool) (c : IdentityCall) : ProjectIdentity :=
  @project_identity (call_fs c) (call_git c) v3 (call_root c).
Definition cached_call (v3 : bool) (c : IdentityCall) (cache : IdentityCache)
  : ProjectIdentity * IdentityCache :=
  @cached_project_identity (call_fs c) (@project_identity (call_fs c) (call_git c) v3) (call_root c)
    (call_now c) (call_stored c) cache.
Fixpoint cached_answers (v3 : bool) (cache : IdentityCache) (calls : list IdentityCall)
  : list ProjectIdentity :=
  match calls with
  | [] => []
  | c :: calls => let '(answer, cache) := cached_call v3 c cache in answer :: cached_answers v3 cache calls
  end.

(** Every entry was stored by a call of the past. *)
Definition cache_of (v3 : bool) (past : list IdentityCall) (cache : IdentityCache) : Prop :=
  ∀ k t identity, hm_get cache k = Some (t, identity) →
    ∃ d, d ∈ past ∧ call_key d = k ∧ t = call_stored d ∧ identity = call_observes v3 d.
Definition recent_answer (v3 : bool) (past : list IdentityCall) (c : IdentityCall) (answer : ProjectIdentity) : Prop :=
  ∃ d, d ∈ past ++ [c] ∧ call_key d = call_key c ∧ answer = call_observes v3 d ∧
    (d = c ∨ call_now c - call_stored d < PROJECT_IDENTITY_OBSERVATION_CACHE_TTL).

Lemma cached_call_step v3 past c cache : cache_of v3 past cache →
  recent_answer v3 past c (cached_call v3 c cache).1 ∧ cache_of v3 (past ++ [c]) (cached_call v3 c cache).2.
Proof.
  intros Hc. unfold cached_call, cached_project_identity. cbv zeta. fold (call_key c).
  assert (cache_of v3 (past ++ [c]) cache) as Hkeep.
  { intros k t identity (d & Hd & H)%Hc. exists d. rewrite elem_of_app. by split; [left|]. }
  assert (cache_of v3 (past ++ [c]) (hm_insert cache (call_key c) (call_stored c, call_observes v3 c))) as Hnew.
  { intros k t identity. rewrite hm_get_insert. case_decide as E; [|by apply Hkeep].
    intros [= <- <-]. exists c. rewrite elem_of_app, list_elem_of_singleton. by split_and!; [right|..]. }
  assert (recent_answer v3 past c (call_observes v3 c)) as Hobs.
  { exists c. rewrite elem_of_app, list_elem_of_singleton. by split_and!; [right| | |left]. }
  destruct (hm_get cache (call_key c)) as [[t identity]|] eqn:E; [|by split].
  destruct (Z.max 0 _ <? _) eqn:Et; [|by split]. split; [|done].
  apply Hc in E as (d & Hd & Hk & -> & ->). exists d. rewrite elem_of_app.
  split; [by left|]. split; [done|]. split; [done|]. right. lia.
Qed.

(** A cached identity is what some call observed for the same root: this very call, or
    one whose observation was stored less than a second before. *)
Theorem cached_identity_recent v3 calls i c answer :
  calls !! i = Some c → cached_answers v3 [] calls !! i = Some answer →
  recent_answer v3 (take i calls) c answer.
Proof.
  assert (∀ past cache, cache_of v3 past cache → calls !! i = Some c →
    cached_answers v3 cache calls !! i = Some answer → recent_answer v3 (past ++ take i calls) c answer) as H.
  { revert i. induction calls as [|d calls IH]; intros i past cache Hc Hi Ha; [done|].
    destruct (cached_call_step v3 past d cache Hc) as [Hr Hn]. cbn [cached_answers] in Ha.
    destruct (cached_call v3 d cache) as [identity cache'] eqn:E.
    destruct i as [|i]; cbn in Hi, Ha |- *; [by rewrite app_nil_r; simplify_eq|].
    replace (past ++ d :: take i calls) with ((past ++ [d]) ++ take i calls) by by rewrite <- app_assoc.
    by eapply IH. }
  intros Hi Ha. by apply (H [] []).
Qed.
Lemma cached_identity_recent_witness :
  let calls := [mkIdentityCall file_system git (lit "/w") 5 7;
                mkIdentityCall file_system (Build_Git (λ _ _, None)) (lit "/w") 900000000 900000009] in
  ∃ answer, cached_answers true [] calls !! 1%nat = Some answer ∧ pi_portable_reuse_eligible answer = true ∧
    ∃ c, recent_answer true (take 1 calls) c answer.
Proof.
  eexists. split; [vm_compute; reflexivity|]. split; [reflexivity|]. eexists.
  apply (cached_identity_recent true _ 1); [reflexivity|vm_compute; reflexivity].
Defined.
