(* ===== verification/Retention.v ===== *)
(** * Retention of retrieval generations

    codestory-retrieval/src/retention.rs: the names of generations, the retention marker, the
    scan for protected generations, the plan over the directories of a project and its
    application.  A directory is a finite tree with the errors the system gives where it is
    read; one operation sees one state of it.  An [anyhow] error is its chain as the
    alternate format prints it. *)
From S2P Require Import Prelude RustStr RetrievalData Sorting StrOps UnixPath Collections WorkspacePaths.

Definition RETENTION_SCHEMA_VERSION : Z := 1.
Definition RETENTION_DIR : str := lit "retention".
Definition context {A} (text : str) (r : result str A) : result str A :=
  match r with Ok a => Ok a | Err e => Err (text ++ lit ": " ++ e) end.

(** ** Names *)
Record RetrievalIndexRollbackRecord : Type := mkRollback {
  rb_manifest : RetrievalIndexManifest;
  rb_verified_at_epoch_ms : Z;
}.
Definition is_alnum (c : ascii) : bool :=
  let n := N_of_ascii c in
  ((48 <=? n)%N && (n <=? 57)%N) || ((65 <=? n)%N && (n <=? 90)%N) || ((97 <=? n)%N && (n <=? 122)%N).
Definition validate_retention_component (component : str) : result str unit :=
  if bool_decide (component = [])
     || negb (forallb (λ c, is_alnum c || Ascii.eqb c "-"%char || Ascii.eqb c "_"%char) component)
  then Err (lit "value is not a safe retention path component") else Ok tt.
Definition is_hex_digit (c : ascii) : bool :=
  let n := N_of_ascii c in ((48 <=? n)%N && (n <=? 57)%N) || ((97 <=? n)%N && (n <=? 102)%N).
Definition canonical_suffix (suffix : str) : option str :=
  if (length suffix =? 16)%nat && forallb is_hex_digit suffix then Some suffix else None.
Definition canonical_generation_suffix (project_id generation : str) : option str :=
  strip_prefix generation (project_id ++ lit "-") ≫= canonical_suffix.
Definition canonical_collection_suffix (project_id collection : str) : option str :=
  strip_prefix collection (lit "codestory_" ++ project_id ++ lit "_") ≫= canonical_suffix.
Definition collection_name (project_id suffix : str) : str :=
  lit "codestory_" ++ project_id ++ lit "_" ++ suffix.
Definition canonical_manifest_generation (m : RetrievalIndexManifest) : result str str :=
  generation ← ok_or (sidecar_generation m) (lit "retrieval manifest is missing sidecar generation");
  suffix ← ok_or (canonical_generation_suffix (project_id m) generation)
                 (lit "retrieval manifest has a noncanonical sidecar generation");
  if negb (str_eqb (semantic_generation m) (collection_name (project_id m) suffix))
  then Err (lit "retrieval manifest generation and semantic vector generation do not match")
  else Ok generation.

(** ** The retention marker *)
Record GenerationRetentionMarker : Type := mkMarker {
  mk_schema_version : Z;
  mk_workspace_id : str;
  mk_project_id : str;
  mk_active : RetrievalIndexManifest;
  mk_rollback : option RetrievalIndexRollbackRecord;
  mk_updated_at_epoch_ms : Z;
}.
Definition validate_marker (marker : GenerationRetentionMarker) : result str unit :=
  if negb (mk_schema_version marker =? RETENTION_SCHEMA_VERSION)
  then Err (lit "unsupported generation retention marker schema")
  else
    _ ← validate_retention_component (mk_workspace_id marker);
    if negb (str_eqb (mk_project_id marker) (project_id (mk_active marker)))
    then Err (lit "generation retention marker active project does not match marker project")
    else
      active_generation ← canonical_manifest_generation (mk_active marker);
      match mk_rollback marker with
      | None => Ok tt
      | Some rollback =>
          if negb (str_eqb (project_id (rb_manifest rollback)) (mk_project_id marker))
          then Err (lit "generation retention rollback project does not match marker project")
          else
            rollback_generation ← canonical_manifest_generation (rb_manifest rollback);
            if str_eqb rollback_generation active_generation
            then Err (lit "generation retention rollback duplicates the active generation")
            else Ok tt
      end.
(** [GenerationRetentionMarker::next]. *)
Definition marker_next (workspace_id : str) (active : RetrievalIndexManifest)
    (verified_previous : option RetrievalIndexRollbackRecord) (updated_at_epoch_ms : Z)
  : result str GenerationRetentionMarker :=
  _ ← validate_retention_component workspace_id;
  active_generation ← canonical_manifest_generation active;
  let rollback :=
    verified_previous ≫= λ r,
      if str_eqb (project_id (rb_manifest r)) (project_id active)
         && match canonical_manifest_generation (rb_manifest r) with
            | Ok generation => negb (str_eqb generation active_generation) | Err _ => false
            end
      then Some r else None in
  let marker := mkMarker RETENTION_SCHEMA_VERSION workspace_id (project_id active) active rollback
                  updated_at_epoch_ms in
  _ ← validate_marker marker;
  Ok marker.

(** ** Directories *)
Inductive FileKind : Type := KLink | KDir | KFile | KOther.
#[export] Instance FileKind_eq_dec : EqDecision FileKind.
Proof. solve_decision. Defined.
(** What [symlink_metadata] and [read_dir] show of a path; an item of a listing has the type
    its entry reports and what its path leads to. *)
Inductive FsNode : Type :=
| NLink
| NOther
| NFile (bytes : N)
| NDir (listing : result IoError (list FsItem))
with FsItem : Type :=
| ItemError (error : IoError)
| Item (name : str) (file_type : result IoError FileKind) (target : result IoError FsNode).

Definition is_direct_dir (node : FsNode) : bool := match node with NDir _ => true | _ => false end.
Definition is_direct_file (node : FsNode) : bool := match node with NFile _ => true | _ => false end.

Fixpoint directory_size (path : str) (node : FsNode) : result str Z :=
  match node with
  | NDir (Err error) => Err (lit "read directory " ++ path ++ lit ": " ++ io_message error)
  | NDir (Ok items) =>
      (fix sum (total : Z) (items : list FsItem) : result str Z :=
         match items with
         | [] => Ok total
         | ItemError error :: _ =>
             Err (lit "read entry under " ++ path ++ lit ": " ++ io_message error)
         | Item name _ target :: items =>
             let entry_path := path_join path name in
             match target with
             | Err error => Err (lit "inspect " ++ entry_path ++ lit ": " ++ io_message error)
             | Ok NLink => Err (lit "directory contains a link: " ++ entry_path)
             | Ok (NFile bytes) => sum (saturating_add u64_max total (Z.of_N bytes)) items
             | Ok NOther => Err (lit "directory contains an unsupported entry: " ++ entry_path)
             | Ok (NDir _ as directory) =>
                 match directory_size entry_path directory with
                 | Ok bytes => sum (saturating_add u64_max total bytes) items
                 | Err error => Err error
                 end
             end
         end) 0 items
  | _ => Err (lit "path is not a direct directory")
  end.
Definition directory_size_at (path : str) (node : result IoError FsNode) : result str Z :=
  match node with
  | Err error => Err (lit "inspect directory " ++ path ++ lit ": " ++ io_message error)
  | Ok node => directory_size path node
  end.

(** The file system under the cache and the sidecar roots, the markers and the stores. *)
Class RetentionIo : Type := {
  dir_lookup : str → result IoError FsNode;
  path_exists : str → bool;
  read_dir : str → result IoError (list FsItem);
  read_marker_json : str → result str GenerationRetentionMarker;
  list_retrieval_index_publications :
    str → result str (list (RetrievalIndexManifest * option RetrievalIndexRollbackRecord));
}.

(** ** The scan for protected generations *)
Record RetentionProtectionScan : Type := mkProtection {
  ps_authoritative_active : list RetrievalIndexManifest;
  ps_authoritative_rollback : list RetrievalIndexManifest;
  ps_active : list RetrievalIndexManifest;
  ps_rollback : list RetrievalIndexManifest;
  ps_storage_paths_scanned : list str;
  ps_marker_paths_scanned : list str;
  ps_errors : list str;
}.
Definition scan_error (error : str) (s : RetentionProtectionScan) : RetentionProtectionScan :=
  mkProtection (ps_authoritative_active s) (ps_authoritative_rollback s) (ps_active s) (ps_rollback s)
    (ps_storage_paths_scanned s) (ps_marker_paths_scanned s) (ps_errors s ++ [error]).
Definition retention_dir (state_file : str) : str :=
  path_join (default (lit ".") (path_parent state_file)) RETENTION_DIR.
Definition retention_marker_path (state_file workspace_id : str) : result str str :=
  _ ← validate_retention_component workspace_id;
  Ok (path_join (retention_dir state_file) (workspace_id ++ lit ".json")).
Definition retention_lock_path (state_file scope_id : str) : result str str :=
  _ ← validate_retention_component scope_id;
  Ok (path_join (retention_dir state_file) (scope_id ++ lit ".lock")).

Section Scan.
Context `{RetentionIo}.

Definition insert_direct_storage_path (path label : str) (s : list str * list str) : list str * list str :=
  let '(paths, errors) := s in
  match dir_lookup path with
  | Ok node =>
      if is_direct_file node then (bs_insert path_cmp paths path, errors)
      else (paths, errors ++ [label ++ lit " is not a direct regular file: " ++ path])
  | Err error =>
      if is_not_found error then (paths, errors)
      else (paths, errors ++ [lit "inspect " ++ label ++ lit " " ++ path ++ lit ": " ++ io_message error])
  end.
(** One entry of the cache root. *)
Definition visit_cache_entry (cache_root : str) (s : list str * list str) (item : FsItem)
  : list str * list str :=
  match item with
  | ItemError error =>
      (s.1, s.2 ++ [lit "read cache entry under " ++ cache_root ++ lit ": " ++ io_message error])
  | Item name file_type _ =>
      let entry_path := path_join cache_root name in
      match file_type with
      | Err error =>
          (s.1, s.2 ++ [lit "read cache entry type " ++ entry_path ++ lit ": " ++ io_message error])
      | Ok KLink => (s.1, s.2 ++ [lit "cache scan refuses linked entry " ++ entry_path])
      | Ok KDir =>
          insert_direct_storage_path (path_join entry_path (lit "codestory.db"))
            (lit "project cache storage") s
      | Ok _ => s
      end
  end.
Definition storage_paths_for_scan (cache_root : str) (active_storage_path : option str)
    (errors : list str) : list str * list str :=
  let s := ([], errors) in
  let s := match active_storage_path with
           | Some path => insert_direct_storage_path path (lit "active storage") s | None => s
           end in
  let s := insert_direct_storage_path (path_join cache_root (lit "codestory.db"))
             (lit "flat cache storage") s in
  if negb (path_exists cache_root) then s
  else
    match read_dir cache_root with
    | Ok items => foldl (visit_cache_entry cache_root) s items
    | Err error => (s.1, s.2 ++ [lit "read cache root " ++ cache_root
                               ++ lit " for retention manifests: " ++ io_message error])
    end.
(** One store of the scan. *)
Definition scan_storage (active_storage_path : option str) (s : RetentionProtectionScan)
    (storage_path : str) : RetentionProtectionScan :=
  match list_retrieval_index_publications storage_path with
  | Err error => scan_error (lit "scan retrieval manifests in " ++ storage_path ++ lit ": " ++ error) s
  | Ok publications =>
      let manifests := fst <$> publications in
      let rollbacks := rb_manifest <$> omap snd publications in
      let authoritative := match active_storage_path with
                           | Some active => bool_decide (components active = components storage_path)
                           | None => false
                           end in
      mkProtection
        (if authoritative then ps_authoritative_active s ++ manifests else ps_authoritative_active s)
        (if authoritative then ps_authoritative_rollback s ++ rollbacks else ps_authoritative_rollback s)
        (ps_active s ++ manifests) (ps_rollback s ++ rollbacks)
        (ps_storage_paths_scanned s ++ [storage_path]) (ps_marker_paths_scanned s) (ps_errors s)
  end.
Definition read_marker_path (path : str) : result str (option GenerationRetentionMarker) :=
  if negb (path_exists path) then Ok None
  else
    marker ← read_marker_json path;
    _ ← validate_marker marker;
    Ok (Some marker).
(** One entry of the marker directory. *)
Definition scan_marker_entry (marker_dir : str) (s : RetentionProtectionScan) (item : FsItem)
  : RetentionProtectionScan :=
  match item with
  | ItemError error =>
      scan_error (lit "read retention marker entry in " ++ marker_dir ++ lit ": " ++ io_message error) s
  | Item name file_type _ =>
      let path := path_join marker_dir name in
      if negb (bool_decide (file_extension path = Some (lit "json"))) then s
      else
        match file_type with
        | Err error => scan_error (lit "read retention marker type " ++ path ++ lit ": " ++ io_message error) s
        | Ok KFile =>
            match read_marker_path path with
            | Ok (Some marker) =>
                mkProtection (ps_authoritative_active s) (ps_authoritative_rollback s)
                  (ps_active s ++ [mk_active marker])
                  (match mk_rollback marker with
                   | Some rollback => ps_rollback s ++ [rb_manifest rollback] | None => ps_rollback s
                   end)
                  (ps_storage_paths_scanned s) (ps_marker_paths_scanned s ++ [path]) (ps_errors s)
            | Ok None => s
            | Err error => scan_error (lit "scan retention marker " ++ path ++ lit ": " ++ error) s
            end
        | Ok _ => scan_error (lit "retention marker is not a direct regular file: " ++ path) s
        end
  end.
(** Manifests sorted by identity, one for each. *)
Definition manifest_key (m : RetrievalIndexManifest) : str * option str * str :=
  (project_id m, sidecar_generation m, semantic_generation m).
Definition manifest_cmp : RetrievalIndexManifest → RetrievalIndexManifest → comparison :=
  then_with (cmp_on project_id str_cmp)
    (then_with (cmp_on sidecar_generation (option_cmp str_cmp)) (cmp_on semantic_generation str_cmp)).
(** [Vec::dedup_by]: a later element equal to the last kept one is dropped. *)
Fixpoint dedup_by {A} (same : A → A → bool) (last : option A) (l : list A) : list A :=
  match l with
  | [] => []
  | x :: l =>
      if match last with Some y => same x y | None => false end
      then dedup_by same last l else x :: dedup_by same (Some x) l
  end.
Definition deduplicate_manifests (manifests : list RetrievalIndexManifest) : list RetrievalIndexManifest :=
  dedup_by (λ a b, bool_decide (manifest_key a = manifest_key b)) None
    (sort_by (cmp_leb manifest_cmp) manifests).
Definition empty_protection (errors : list str) : RetentionProtectionScan :=
  mkProtection [] [] [] [] [] [] errors.
Definition scan_retention_protection (cache_root : str) (active_storage_path : option str)
    (state_file : str) : RetentionProtectionScan :=
  let '(storage_paths, errors) := storage_paths_for_scan cache_root active_storage_path [] in
  let s := foldl (scan_storage active_storage_path) (empty_protection errors) storage_paths in
  let marker_dir := retention_dir state_file in
  let s :=
    match dir_lookup marker_dir with
    | Ok (NDir (Ok items)) => foldl (scan_marker_entry marker_dir) s items
    | Ok (NDir (Err error)) =>
        scan_error (lit "read retention marker directory " ++ marker_dir ++ lit ": " ++ io_message error) s
    | Ok _ => scan_error (lit "retention marker path is not a direct directory: " ++ marker_dir) s
    | Err error =>
        if is_not_found error then s
        else scan_error (lit "inspect retention marker directory " ++ marker_dir ++ lit ": "
                         ++ io_message error) s
    end in
  mkProtection (deduplicate_manifests (ps_authoritative_active s))
    (deduplicate_manifests (ps_authoritative_rollback s)) (deduplicate_manifests (ps_active s))
    (deduplicate_manifests (ps_rollback s)) (ps_storage_paths_scanned s) (ps_marker_paths_scanned s)
    (ps_errors s).
End Scan.

(** ** The plan *)
Variant GenerationRetentionState : Type := Active | Rollback | Building | Reclaimable.
#[export] Instance GenerationRetentionState_eq_dec : EqDecision GenerationRetentionState.
Proof. solve_decision. Defined.
Record GenerationArtifact : Type := mkArtifact { ga_path : str; ga_bytes : Z }.
Record GenerationBundle : Type := mkBundle {
  gb_generation : str;
  gb_semantic_generation : str;
  gb_state : GenerationRetentionState;
  gb_lexical : option GenerationArtifact;
  gb_scip : option GenerationArtifact;
  gb_semantic : option GenerationArtifact;
  gb_bytes : Z;
}.
Record BlockedGenerationEntry : Type := mkBlocked { be_path : str; be_reason : str }.
Record GenerationRetentionPlan : Type := mkRetentionPlan {
  rp_dry_run : bool;
  rp_project_id : str;
  rp_pruning_suppressed : bool;
  rp_active_bytes : Z;
  rp_rollback_bytes : Z;
  rp_building_bytes : Z;
  rp_retained_bytes : Z;
  rp_reclaimable_bytes : Z;
  rp_bundles : list GenerationBundle;
  rp_blocked : list BlockedGenerationEntry;
  rp_errors : list str;
}.
Record SidecarLayout : Type := mkLayout {
  lexical_data_dir : str;
  semantic_data_dir : str;
  scip_artifacts_root : str;
  state_file : str;
}.
Variant ArtifactKind : Type := Lexical | Scip | Semantic.
Record BundleBuilder : Type := mkBuilder {
  bb_lexical : option GenerationArtifact;
  bb_scip : option GenerationArtifact;
  bb_semantic : option GenerationArtifact;
}.
Definition empty_builder : BundleBuilder := mkBuilder None None None.
Definition builder_set (kind : ArtifactKind) (artifact : GenerationArtifact) (b : BundleBuilder)
  : BundleBuilder :=
  match kind with
  | Lexical => mkBuilder (Some artifact) (bb_scip b) (bb_semantic b)
  | Scip => mkBuilder (bb_lexical b) (Some artifact) (bb_semantic b)
  | Semantic => mkBuilder (bb_lexical b) (bb_scip b) (Some artifact)
  end.
Definition artifacts_of (lexical scip semantic : option GenerationArtifact) : list GenerationArtifact :=
  omap id [lexical; scip; semantic].
Definition sum_bytes (l : list Z) : Z := foldl (saturating_add u64_max) 0 l.
(** [finish]: the name is canonical, or the code panics. *)
Definition builder_finish (project_id generation : str) (state : GenerationRetentionState)
    (b : BundleBuilder) : option GenerationBundle :=
  suffix ← strip_prefix generation (project_id ++ lit "-");
  Some (mkBundle generation (collection_name project_id suffix) state (bb_lexical b) (bb_scip b)
          (bb_semantic b)
          (sum_bytes (ga_bytes <$> artifacts_of (bb_lexical b) (bb_scip b) (bb_semantic b)))).

(** What a discovery has collected. *)
Record Discovery : Type := mkDiscovery {
  dc_builders : list (str * BundleBuilder);
  dc_blocked : list BlockedGenerationEntry;
  dc_errors : list str;
}.
Definition discovery_error (error : str) (d : Discovery) : Discovery :=
  mkDiscovery (dc_builders d) (dc_blocked d) (dc_errors d ++ [error]).
Definition block_scoped_entry (path reason : str) (d : Discovery) : Discovery :=
  mkDiscovery (dc_builders d) (dc_blocked d ++ [mkBlocked path reason])
    (dc_errors d ++ [lit "scoped retention entry " ++ path ++ lit " is unsafe: " ++ reason]).
Definition discovered (generation : str) (kind : ArtifactKind) (artifact : GenerationArtifact)
    (d : Discovery) : Discovery :=
  mkDiscovery (bt_entry str_cmp empty_builder (builder_set kind artifact) (dc_builders d) generation)
    (dc_blocked d) (dc_errors d).

Section Plan.
Context `{RetentionIo}.

Definition read_direct_directory (root label : str) (d : Discovery)
  : option (list FsItem) * Discovery :=
  match dir_lookup root with
  | Ok (NDir (Ok items)) => (Some items, d)
  | Ok (NDir (Err error)) =>
      (None, discovery_error (lit "read " ++ label ++ lit " " ++ root ++ lit ": " ++ io_message error) d)
  | Ok _ => (None, discovery_error (label ++ lit " is not a direct directory: " ++ root) d)
  | Err error =>
      if is_not_found error then (None, d)
      else (None, discovery_error (lit "inspect " ++ label ++ lit " " ++ root ++ lit ": "
                                   ++ io_message error) d)
  end.
Definition direct_directory_exists_or_missing (root label : str) (d : Discovery) : bool * Discovery :=
  match dir_lookup root with
  | Ok node =>
      if is_direct_dir node then (true, d)
      else (false, discovery_error (label ++ lit " is not a direct directory: " ++ root) d)
  | Err error =>
      if is_not_found error then (false, d)
      else (false, discovery_error (lit "inspect " ++ label ++ lit " " ++ root ++ lit ": "
                                    ++ io_message error) d)
  end.
(** One entry of a generation root. *)
Definition visit_generation_entry (root project_id : str) (kind : ArtifactKind) (d : Discovery)
    (item : FsItem) : Discovery :=
  match item with
  | ItemError error =>
      discovery_error (lit "read generation entry in " ++ root ++ lit ": " ++ io_message error) d
  | Item name file_type target =>
      let path := path_join root name in
      if negb (starts_with name (project_id ++ lit "-")) then d
      else
        match canonical_generation_suffix project_id name with
        | None => block_scoped_entry path (lit "malformed generation name") d
        | Some _ =>
            match file_type with
            | Err error =>
                discovery_error (lit "read generation type " ++ path ++ lit ": " ++ io_message error) d
            | Ok KDir =>
                match directory_size_at path target with
                | Ok bytes => discovered name kind (mkArtifact path bytes) d
                | Err error => discovery_error (lit "measure generation " ++ path ++ lit ": " ++ error) d
                end
            | Ok _ => block_scoped_entry path (lit "generation entry is not a direct directory") d
            end
        end
  end.
Definition discover_generation_dirs (root project_id : str) (kind : ArtifactKind) (d : Discovery)
  : Discovery :=
  match read_direct_directory root (lit "generation root") d with
  | (Some items, d) => foldl (visit_generation_entry root project_id kind) d items
  | (None, d) => d
  end.
Definition visit_vector_entry (root project_id : str) (d : Discovery) (item : FsItem) : Discovery :=
  match item with
  | ItemError error =>
      discovery_error (lit "read semantic vector generation in " ++ root ++ lit ": "
                       ++ io_message error) d
  | Item name file_type target =>
      let path := path_join root name in
      if negb (starts_with name (lit "codestory_" ++ project_id ++ lit "_")) then d
      else
        match canonical_collection_suffix project_id name with
        | None => block_scoped_entry path (lit "malformed semantic vector generation name") d
        | Some suffix =>
            match file_type with
            | Err error =>
                discovery_error (lit "read semantic vector generation type " ++ path ++ lit ": "
                                 ++ io_message error) d
            | Ok KDir =>
                match directory_size_at path target with
                | Ok bytes =>
                    discovered (project_id ++ lit "-" ++ suffix) Semantic (mkArtifact path bytes) d
                | Err error =>
                    discovery_error (lit "measure semantic vector generation " ++ path ++ lit ": "
                                     ++ error) d
                end
            | Ok _ =>
                block_scoped_entry path
                  (lit "semantic vector generation entry is not a direct directory") d
            end
        end
  end.
Definition discover_vector_generations (root project_id : str) (d : Discovery) : Discovery :=
  match read_direct_directory root (lit "semantic vector generation root") d with
  | (Some items, d) => foldl (visit_vector_entry root project_id) d items
  | (None, d) => d
  end.
Definition shards_dir (layout : SidecarLayout) : str := path_join (lexical_data_dir layout) (lit "shards").
Definition collections_dir (layout : SidecarLayout) : str :=
  path_join (semantic_data_dir layout) (lit "collections").
(** The three discoveries, in order. *)
Definition discover_layout (layout : SidecarLayout) (project_id : str) (errors : list str) : Discovery :=
  let d := mkDiscovery [] [] errors in
  let '(ok, d) := direct_directory_exists_or_missing (lexical_data_dir layout)
                    (lit "Lexical data root") d in
  let d := if ok : bool then discover_generation_dirs (shards_dir layout) project_id Lexical d else d in
  let d := discover_generation_dirs (scip_artifacts_root layout) project_id Scip d in
  let '(ok, d) := direct_directory_exists_or_missing (semantic_data_dir layout)
                    (lit "semantic vector root") d in
  if ok : bool then discover_vector_generations (collections_dir layout) project_id d else d.

Definition collect_protected_generations (project : str) (role : str)
    (s : list str * list str) (manifests : list RetrievalIndexManifest) : list str * list str :=
  foldl (λ s m,
    match canonical_manifest_generation m with
    | Ok generation => (bs_insert str_cmp s.1 generation, s.2)
    | Err error => (s.1, s.2 ++ [role ++ lit " manifest for " ++ project
                                 ++ lit " is not safe retention evidence: " ++ error])
    end) s (List.filter (λ m, str_eqb (project_id m) project) manifests).

Definition bytes_for (bundles : list GenerationBundle) (state : GenerationRetentionState) : Z :=
  sum_bytes (gb_bytes <$> List.filter (λ b, bool_decide (gb_state b = state)) bundles).
(** The state of one generation. *)
Definition generation_state (active rollback : list str) (unrooted : GenerationRetentionState)
    (generation : str) : GenerationRetentionState :=
  if bool_decide (generation ∈ active) then Active
  else if bool_decide (generation ∈ rollback) then Rollback else unrooted.
Definition plan_generation_retention_with_unrooted_state (layout : SidecarLayout) (project : str)
    (protection : RetentionProtectionScan) (unrooted_state : GenerationRetentionState)
  : option GenerationRetentionPlan :=
  let d := discover_layout layout project (ps_errors protection) in
  let '(active, errors) :=
    collect_protected_generations project (lit "active") ([], dc_errors d)
      (ps_authoritative_active protection) in
  let '(active, errors) :=
    collect_protected_generations project (lit "shared active") (active, errors) (ps_active protection) in
  let '(rollback, errors) :=
    collect_protected_generations project (lit "shared rollback") ([], errors) (ps_rollback protection) in
  let '(rollback, errors) :=
    collect_protected_generations project (lit "authoritative rollback") (rollback, errors)
      (ps_authoritative_rollback protection) in
  let errors := match active with
                | [] => errors ++ [lit "no active generation is protected for project " ++ project
                                   ++ lit "; pruning suppressed"]
                | _ => errors
                end in
  let builders := foldl (bt_entry str_cmp empty_builder id) (dc_builders d) (active ++ rollback) in
  let effective := match errors with [] => unrooted_state | _ => Building end in
  bundles ← mapM (λ e : str * BundleBuilder,
              builder_finish project e.1 (generation_state active rollback effective e.1) e.2) builders;
  let bundles := sort_by (cmp_leb (cmp_on gb_generation str_cmp)) bundles in
  let bytes := bytes_for bundles in
  let retained := saturating_add u64_max (saturating_add u64_max (bytes Active) (bytes Rollback))
                    (bytes Building) in
  Some (mkRetentionPlan true project (bool_decide (effective = Building)) (bytes Active)
          (bytes Rollback) (bytes Building) retained (bytes Reclaimable) bundles (dc_blocked d) errors).
Definition plan_generation_retention (layout : SidecarLayout) (project : str)
    (protection : RetentionProtectionScan) : option GenerationRetentionPlan :=
  plan_generation_retention_with_unrooted_state layout project protection Reclaimable.
End Plan.

(** ** Applying a plan *)
(** The trait: what a remover answers, over its own state. *)
Class GenerationRemover (S : Type) : Type := {
  remove_generation_dir : str → S → result str unit * S;
  remove_vector_generation : str → S → result str bool * S;
}.
Record GenerationRemovalResult : Type := mkRemoval {
  gr_generation : str;
  gr_semantic_generation : str;
  gr_removed_paths : list str;
  gr_semantic_generation_removed : bool;
  gr_removed_bytes : Z;
  gr_remaining_reclaimable_bytes : Z;
  gr_errors : list str;
}.
Record GenerationRetentionApplyReport : Type := mkApplyReport {
  ar_dry_run : bool;
  ar_project_id : str;
  ar_pruning_suppressed : bool;
  ar_active_bytes : Z;
  ar_rollback_bytes : Z;
  ar_building_bytes : Z;
  ar_retained_bytes : Z;
  ar_reclaimable_bytes : Z;
  ar_removed_bytes : Z;
  ar_remaining_reclaimable_bytes : Z;
  ar_removals : list GenerationRemovalResult;
  ar_errors : list str;
}.
Section Apply.
Context {S : Type} `{GenerationRemover S}.

Definition remove_artifact (s : GenerationRemovalResult * S) (artifact : GenerationArtifact)
  : GenerationRemovalResult * S :=
  let '(r, state) := s in
  let '(answer, state) := remove_generation_dir (ga_path artifact) state in
  match answer with
  | Ok _ =>
      (mkRemoval (gr_generation r) (gr_semantic_generation r) (gr_removed_paths r ++ [ga_path artifact])
         (gr_semantic_generation_removed r) (saturating_add u64_max (gr_removed_bytes r) (ga_bytes artifact))
         (gr_remaining_reclaimable_bytes r) (gr_errors r), state)
  | Err error =>
      (mkRemoval (gr_generation r) (gr_semantic_generation r) (gr_removed_paths r)
         (gr_semantic_generation_removed r) (gr_removed_bytes r) (gr_remaining_reclaimable_bytes r)
         (gr_errors r ++ [lit "remove generation path " ++ ga_path artifact ++ lit ": " ++ error]), state)
  end.
Definition remove_bundle (bundle : GenerationBundle) (state : S) : GenerationRemovalResult * S :=
  let start removed bytes errors :=
    mkRemoval (gb_generation bundle) (gb_semantic_generation bundle) [] removed bytes (gb_bytes bundle)
      errors in
  let '(answer, state) := remove_vector_generation (gb_semantic_generation bundle) state in
  let r :=
    match answer with
    | Ok true => start true (saturating_add u64_max 0
                   match gb_semantic bundle with Some item => ga_bytes item | None => 0 end) []
    | Ok false => start false 0 [lit "delete vector generation " ++ gb_semantic_generation bundle
                    ++ lit " was acknowledged but its local data remains"]
    | Err error => start false 0 [lit "delete vector generation " ++ gb_semantic_generation bundle
                    ++ lit ": " ++ error]
    end in
  let '(r, state) := foldl remove_artifact (r, state) (omap id [gb_lexical bundle; gb_scip bundle]) in
  (mkRemoval (gr_generation r) (gr_semantic_generation r) (gr_removed_paths r)
     (gr_semantic_generation_removed r) (gr_removed_bytes r)
     (saturating_sub (gb_bytes bundle) (gr_removed_bytes r)) (gr_errors r), state).
Definition reclaimable_bundles (plan : GenerationRetentionPlan) : list GenerationBundle :=
  List.filter (λ b, bool_decide (gb_state b = Reclaimable)) (rp_bundles plan).
Definition remove_next (s : Z * list GenerationRemovalResult * S) (bundle : GenerationBundle)
  : Z * list GenerationRemovalResult * S :=
  let '(removed_bytes, removals, state) := s in
  let '(r, state) := remove_bundle bundle state in
  (saturating_add u64_max removed_bytes (gr_removed_bytes r), removals ++ [r], state).
Definition apply_generation_retention (plan : GenerationRetentionPlan) (state : S)
  : GenerationRetentionApplyReport * S :=
  let report suppressed removed remaining removals errors :=
    mkApplyReport false (rp_project_id plan) suppressed (rp_active_bytes plan) (rp_rollback_bytes plan)
      (rp_building_bytes plan) (rp_retained_bytes plan) (rp_reclaimable_bytes plan) removed remaining
      removals errors in
  if rp_pruning_suppressed plan then (report true 0 (rp_reclaimable_bytes plan) [] (rp_errors plan), state)
  else
    let '(removed_bytes, removals, state) := foldl remove_next (0, [], state) (reclaimable_bundles plan) in
    (report false removed_bytes (saturating_sub (rp_reclaimable_bytes plan) removed_bytes) removals
       (concat (gr_errors <$> removals)), state).
End Apply.

(** ** The remover of the file system *)
(** [OwnedDeletionRoot]: deletion below an opened root, true when something was there. *)
Class OwnedDeletion (S : Type) : Type := {
  owned_open : str → result str unit;
  owned_remove : str → str → S → result str bool * S;
}.
Record FsGenerationRemover : Type := mkFsRemover { fr_root : str; fr_collections_dir : str }.
Section FsRemover.
Context {S : Type} `{OwnedDeletion S}.

Definition same_path (a b : option str) : bool := bool_decide (components <$> a = components <$> b).
Definition fs_remover_new (layout : SidecarLayout) : result str FsGenerationRemover :=
  root ← ok_or (path_parent (lexical_data_dir layout))
               (lit "lexical data directory has no sidecar root");
  if negb (same_path (path_parent (semantic_data_dir layout)) (Some root))
     || negb (same_path (path_parent (scip_artifacts_root layout)) (Some root))
  then Err (lit "retrieval generation roots do not share one owned sidecar root")
  else
    _ ← context (lit "open owned sidecar root " ++ root) (owned_open root);
    Ok (mkFsRemover root (collections_dir layout)).
Definition remove_owned_path (r : FsGenerationRemover) (path : str) (state : S) : result str bool * S :=
  match path_strip_prefix path (fr_root r) with
  | None => (Err (lit "generation path " ++ path ++ lit " is outside owned sidecar root " ++ fr_root r
                  ++ lit ": prefix not found"), state)
  | Some relative =>
      let '(answer, state) := owned_remove (fr_root r) relative state in
      (context (lit "remove owned generation path " ++ path) answer, state)
  end.
Definition fs_generation_remover (r : FsGenerationRemover) : GenerationRemover S := {|
  remove_generation_dir path state :=
    let '(answer, state) := remove_owned_path r path state in
    (match answer with
     | Ok true => Ok tt
     | Ok false => Err (lit "generation directory disappeared before removal: " ++ path)
     | Err error => Err error
     end, state);
  remove_vector_generation generation state :=
    remove_owned_path r (path_join (fr_collections_dir r) generation) state |}.
End FsRemover.
