(* ===== verification/RetentionProofs.v ===== *)
(** * Retention removes nothing that is protected

    The names of generations, what a discovery collects, what a plan assigns, and the
    requests an application makes. *)
From S2P Require Import Prelude RustStr RetrievalData Sorting StrOps UnixPath Collections WorkspacePaths Retention.

Lemma foldl_inv {S A} (P : S → Prop) (f : S → A → S) l s :
  P s → (∀ s a, a ∈ l → P s → P (f s a)) → P (foldl f s l).
Proof.
  revert s. induction l as [|a l IH]; intros s Hs Hf; cbn; [done|].
  apply IH; [apply Hf; [left|done]|]. intros s' b Hb. apply Hf. by right.
Qed.

(** ** Names *)
Lemma strip_prefix_app p s : strip_prefix (p ++ s) p = Some s.
Proof.
  unfold strip_prefix. assert (starts_with (p ++ s) p = true) as ->.
  { induction p as [|c p IH]; cbn; [by destruct s|]. by rewrite Ascii.eqb_refl, IH. }
  by rewrite drop_app_length.
Qed.
Lemma strip_prefix_Some s p r : strip_prefix s p = Some r → s = p ++ r.
Proof.
  unfold strip_prefix. destruct (starts_with s p) eqn:E; [|done]. intros [= <-].
  revert s E. induction p as [|c p IH]; intros s; cbn; [by rewrite drop_0|].
  destruct s as [|x s]; cbn; [done|]. intros [->%Ascii.eqb_eq Hs]%andb_prop. f_equal. by apply IH.
Qed.
Lemma canonical_suffix_Some s t : canonical_suffix s = Some t → t = s ∧ length s = 16%nat.
Proof.
  unfold canonical_suffix. destruct ((length s =? 16)%nat) eqn:E; [|done]. cbn.
  destruct (forallb _ s); [|done]. intros [= <-]. by apply Nat.eqb_eq in E.
Qed.
Lemma canonical_generation_Some p g s : canonical_generation_suffix p g = Some s →
  g = p ++ lit "-" ++ s ∧ length s = 16%nat ∧ canonical_suffix s = Some s.
Proof.
  unfold canonical_generation_suffix. destruct (strip_prefix g _) as [r|] eqn:E; [|done]. cbn. intros Hs.
  apply strip_prefix_Some in E as ->. destruct (canonical_suffix_Some _ _ Hs) as [-> Hl].
  split; [by rewrite <- app_assoc|done].
Qed.
Lemma canonical_collection_Some p c s : canonical_collection_suffix p c = Some s →
  c = collection_name p s ∧ length s = 16%nat ∧ canonical_suffix s = Some s.
Proof.
  unfold canonical_collection_suffix. destruct (strip_prefix c _) as [r|] eqn:E; [|done]. cbn. intros Hs.
  apply strip_prefix_Some in E as ->. destruct (canonical_suffix_Some _ _ Hs) as [-> Hl].
  split; [unfold collection_name; by rewrite <- !app_assoc|done].
Qed.
Lemma canonical_generation_name p s : canonical_suffix s = Some s →
  canonical_generation_suffix p (p ++ lit "-" ++ s) = Some s.
Proof. intros H. unfold canonical_generation_suffix. by rewrite app_assoc, strip_prefix_app. Qed.

(** The suffix has a fixed length, so a name belongs to one project. *)
Lemma generation_project_unique p q g :
  is_Some (canonical_generation_suffix p g) → is_Some (canonical_generation_suffix q g) → p = q.
Proof.
  intros [s Hs] [t Ht]. apply canonical_generation_Some in Hs as (-> & Ls & _).
  apply canonical_generation_Some in Ht as (E & Lt & _).
  rewrite !app_assoc in E. apply app_inj_2 in E as [E _]; [|lia]. by apply app_inj_2 in E as [-> _].
Qed.
Lemma collection_project_unique p q s t : length s = 16%nat → length t = 16%nat →
  collection_name p s = collection_name q t → p = q ∧ s = t.
Proof.
  intros Ls Lt E. unfold collection_name in E. apply app_inv_head in E. rewrite !app_assoc in E.
  apply app_inj_2 in E as [E ->]; [|lia]. by apply app_inj_2 in E as [-> _].
Qed.
Lemma manifest_generation_spec m g : canonical_manifest_generation m = Ok g ↔
  ∃ s, sidecar_generation m = Some g ∧ canonical_generation_suffix (project_id m) g = Some s ∧
    semantic_generation m = collection_name (project_id m) s.
Proof.
  unfold canonical_manifest_generation. destruct (sidecar_generation m) as [g'|]; cbn; [|split; [done|naive_solver]].
  destruct (canonical_generation_suffix (project_id m) g') as [s|] eqn:Es; cbn; [|split; [done|naive_solver]].
  destruct (str_eqb (semantic_generation m) _) eqn:E; cbn.
  - apply str_eqb_eq in E. split; [intros [= <-]; by exists s|by intros (? & [= ->] & _)].
  - split; [done|]. intros (t & [= ->] & Ht & Em). simplify_eq. rewrite Em, str_eqb_refl in E. done.
Qed.

(** ** Sizes *)
Lemma u64_max_pos : 0 ≤ u64_max.
Proof. by unfold u64_max. Qed.
Lemma sat_in_range a b : 0 ≤ a → 0 ≤ b → 0 ≤ saturating_add u64_max a b ≤ u64_max.
Proof. pose proof u64_max_pos. unfold saturating_add. lia. Qed.
(** The items of a directory summed. *)
Fixpoint sum_items (path : str) (total : Z) (items : list FsItem) : result str Z :=
  match items with
  | [] => Ok total
  | ItemError error :: _ => Err (lit "read entry under " ++ path ++ lit ": " ++ io_message error)
  | Item name _ target :: items =>
      let entry_path := path_join path name in
      match target with
      | Err error => Err (lit "inspect " ++ entry_path ++ lit ": " ++ io_message error)
      | Ok NLink => Err (lit "directory contains a link: " ++ entry_path)
      | Ok (NFile bytes) => sum_items path (saturating_add u64_max total (Z.of_N bytes)) items
      | Ok NOther => Err (lit "directory contains an unsupported entry: " ++ entry_path)
      | Ok (NDir _ as directory) =>
          match directory_size entry_path directory with
          | Ok bytes => sum_items path (saturating_add u64_max total bytes) items
          | Err error => Err error
          end
      end
  end.
Lemma directory_size_items path items : directory_size path (NDir (Ok items)) = sum_items path 0 items.
Proof.
  cbn [directory_size]. generalize 0. induction items as [|[e|name ft target] items IH]; intros total; [done..|].
  cbn [sum_items]. destruct target as [[| |bytes|listing]|e]; [done|done|apply IH| |done].
  destruct (directory_size (path_join path name) (NDir listing)); [apply IH|done].
Qed.
Lemma directory_size_range : ∀ node path n, directory_size path node = Ok n → 0 ≤ n ≤ u64_max.
Proof.
  fix IH 1. intros [| | |[items|e]] path n; [done|done|done| |done]. rewrite directory_size_items.
  assert (∀ total, 0 ≤ total ≤ u64_max → sum_items path total items = Ok n → 0 ≤ n ≤ u64_max) as H;
    [|apply H; pose proof u64_max_pos; lia].
  revert items. fix IHi 1. intros [|[e|name ft [nd|e]] items] total Ht; cbn [sum_items]; try done.
  - intros E. injection E as E. lia.
  - pose proof (IH nd (path_join path name)) as Hnd. destruct nd as [| |bytes|listing]; try done.
    + apply IHi, sat_in_range; lia.
    + destruct (directory_size _ _) as [b|]; [|done].
      apply IHi, sat_in_range; [lia|]. by apply (Hnd b).
Qed.
Lemma directory_size_at_range path node n : directory_size_at path node = Ok n → 0 ≤ n ≤ u64_max.
Proof. destruct node; [|done]. apply directory_size_range. Qed.

(** ** What a discovery collects *)
(** Where an artefact of a generation lies. *)
Definition artifact_path (layout : SidecarLayout) (project : str) (kind : ArtifactKind) (g : str) : str :=
  match kind with
  | Lexical => path_join (shards_dir layout) g
  | Scip => path_join (scip_artifacts_root layout) g
  | Semantic => path_join (collections_dir layout)
                  (collection_name project (default [] (canonical_generation_suffix project g)))
  end.
Definition builder_artifact (b : BundleBuilder) (kind : ArtifactKind) : option GenerationArtifact :=
  match kind with Lexical => bb_lexical b | Scip => bb_scip b | Semantic => bb_semantic b end.
Definition artifact_ok (layout : SidecarLayout) (project g : str) (kind : ArtifactKind)
    (o : option GenerationArtifact) : Prop :=
  ∀ a, o = Some a → ga_path a = artifact_path layout project kind g ∧ 0 ≤ ga_bytes a ≤ u64_max.
Definition builder_ok (layout : SidecarLayout) (project g : str) (b : BundleBuilder) : Prop :=
  is_Some (canonical_generation_suffix project g) ∧
  ∀ kind, artifact_ok layout project g kind (builder_artifact b kind).
Definition builders_ok (layout : SidecarLayout) (project : str) (m : list (str * BundleBuilder)) : Prop :=
  increasing str_cmp m.*1 ∧ ∀ g b, hm_get m g = Some b → builder_ok layout project g b.

Lemma builders_entry_ok layout project m f g :
  is_Some (canonical_generation_suffix project g) →
  (∀ b, builder_ok layout project g b → builder_ok layout project g (f b)) →
  builders_ok layout project m → builders_ok layout project (bt_entry str_cmp empty_builder f m g).
Proof.
  intros Hg Hf [Hm Hb]. split.
  - rewrite bt_entry_keys. by apply (bs_insert_increasing str_cmp str_cmp_eq).
  - intros g' b. rewrite (bt_entry_get str_cmp str_cmp_eq) by done.
    case_decide as E; [|apply Hb]. subst g'. intros [= <-]. apply Hf.
    destruct (hm_get m g) as [b'|] eqn:Eb; [by apply Hb|]. split; [done|]. by intros [] a.
Qed.
Lemma builder_set_ok layout project g kind a b :
  artifact_ok layout project g kind (Some a) → builder_ok layout project g b →
  builder_ok layout project g (builder_set kind a b).
Proof. intros Ha [Hg Hb]. split; [done|]. intros k. destruct kind, k; solve [exact Ha | exact (Hb Lexical) | exact (Hb Scip) | exact (Hb Semantic)]. Qed.

(** A discovery whose builders are well formed and that has only added errors. *)
Definition discovery_ok (layout : SidecarLayout) (project : str) (errors : list str) (d : Discovery) : Prop :=
  builders_ok layout project (dc_builders d) ∧ errors `prefix_of` dc_errors d.
Lemma discovery_error_ok layout project errors e d :
  discovery_ok layout project errors d → discovery_ok layout project errors (discovery_error e d).
Proof. intros [H1 H2]. split; [done|]. by apply prefix_app_r. Qed.
Lemma block_ok layout project errors path reason d :
  discovery_ok layout project errors d → discovery_ok layout project errors (block_scoped_entry path reason d).
Proof. intros [H1 H2]. split; [done|]. by apply prefix_app_r. Qed.
Lemma discovered_ok layout project errors g kind a d :
  is_Some (canonical_generation_suffix project g) → artifact_ok layout project g kind (Some a) →
  discovery_ok layout project errors d → discovery_ok layout project errors (discovered g kind a d).
Proof.
  intros Hg Ha [H1 H2]. split; [|done]. apply builders_entry_ok; [done| |done].
  intros b. by apply builder_set_ok.
Qed.
#[local] Hint Resolve discovery_error_ok block_ok : core.

Section Discovery.
Context `{RetentionIo} (layout : SidecarLayout) (project : str) (errors : list str).
Notation ok := (discovery_ok layout project errors).

Lemma read_direct_ok root label d : ok d → ok (read_direct_directory root label d).2.
Proof.
  intros Hd. unfold read_direct_directory. destruct (dir_lookup root) as [[| | |[items|e]]|e]; cbn; auto.
  destruct (is_not_found e); cbn; auto.
Qed.
Lemma direct_exists_ok root label d : ok d → ok (direct_directory_exists_or_missing root label d).2.
Proof.
  intros Hd. unfold direct_directory_exists_or_missing. destruct (dir_lookup root) as [node|e]; cbn.
  - destruct (is_direct_dir node); cbn; auto.
  - destruct (is_not_found e); cbn; auto.
Qed.
Lemma visit_generation_ok root kind d item :
  kind = Lexical ∧ root = shards_dir layout ∨ kind = Scip ∧ root = scip_artifacts_root layout →
  ok d → ok (visit_generation_entry root project kind d item).
Proof.
  intros Hroot Hd. destruct item as [e|name ft target]; cbn; [auto|].
  destruct (negb _); [done|]. destruct (canonical_generation_suffix project name) as [s|] eqn:Es; [|auto].
  destruct ft as [[]|e]; auto. destruct (directory_size_at _ _) as [bytes|e] eqn:Eb; [|auto].
  apply discovered_ok; [by eexists| |done]. intros a [= <-]. cbn.
  split; [by destruct Hroot as [[-> ->] | [-> ->]]|]. by apply directory_size_at_range in Eb.
Qed.
Lemma visit_vector_ok d item : ok d → ok (visit_vector_entry (collections_dir layout) project d item).
Proof.
  intros Hd. destruct item as [e|name ft target]; cbn -[lit]; [auto|].
  destruct (negb _); [done|]. destruct (canonical_collection_suffix project name) as [s|] eqn:Es; [|auto].
  destruct ft as [[]|e]; auto. destruct (directory_size_at _ _) as [bytes|e] eqn:Eb; [|auto].
  apply canonical_collection_Some in Es as (-> & Hl & Hs).
  pose proof (canonical_generation_name project s Hs) as Hg.
  apply discovered_ok; [by eexists| |done]. intros a [= <-]. cbn [ga_path ga_bytes artifact_path].
  rewrite Hg. split; [done|]. by apply directory_size_at_range in Eb.
Qed.
Lemma discover_dirs_ok root kind d :
  kind = Lexical ∧ root = shards_dir layout ∨ kind = Scip ∧ root = scip_artifacts_root layout →
  ok d → ok (discover_generation_dirs root project kind d).
Proof.
  intros Hroot Hd. unfold discover_generation_dirs.
  pose proof (read_direct_ok root (lit "generation root") d Hd) as Hr.
  destruct (read_direct_directory _ _ d) as [[items|] d']; cbn in Hr; [|done].
  apply foldl_inv; [done|]. intros s a _. by apply visit_generation_ok.
Qed.
Lemma discover_vectors_ok d : ok d → ok (discover_vector_generations (collections_dir layout) project d).
Proof.
  intros Hd. unfold discover_vector_generations.
  pose proof (read_direct_ok (collections_dir layout) (lit "semantic vector generation root") d Hd) as Hr.
  destruct (read_direct_directory _ _ d) as [[items|] d']; cbn in Hr; [|done].
  apply foldl_inv; [done|]. intros s a _. by apply visit_vector_ok.
Qed.
Lemma discover_layout_ok : ok (discover_layout layout project errors).
Proof.
  unfold discover_layout.
  assert (ok (mkDiscovery [] [] errors)) as H0 by (split; [split; [constructor|done]|done]).
  pose proof (direct_exists_ok (lexical_data_dir layout) (lit "Lexical data root") _ H0) as H1.
  destruct (direct_directory_exists_or_missing _ _ _) as [u1 d1]. cbn [snd] in H1.
  match goal with |- context [discover_generation_dirs (scip_artifacts_root layout) _ _ ?d] => assert (ok d) as H2 end.
  { destruct u1; [apply discover_dirs_ok; [by left|done]|done]. }
  apply (discover_dirs_ok (scip_artifacts_root layout) Scip) in H2; [|by right].
  pose proof (direct_exists_ok (semantic_data_dir layout) (lit "semantic vector root") _ H2) as H3.
  destruct (direct_directory_exists_or_missing _ _ _) as [u2 d2]. cbn [snd] in H3.
  destruct u2; [by apply discover_vectors_ok|done].
Qed.
End Discovery.

(** ** What protects a generation *)
Definition protecting (project : str) (ms : list RetrievalIndexManifest) (g : str) : Prop :=
  ∃ m, m ∈ ms ∧ project_id m = project ∧ canonical_manifest_generation m = Ok g.
Definition evidence_ok (project : str) (ms : list RetrievalIndexManifest) : Prop :=
  ∀ m, m ∈ ms → project_id m = project → is_ok (canonical_manifest_generation m) = true.
Lemma protecting_app project ms ms' g :
  protecting project (ms ++ ms') g ↔ protecting project ms g ∨ protecting project ms' g.
Proof.
  unfold protecting. setoid_rewrite elem_of_app. split; [intros (m & [Hm | Hm] & H); [left|right]; by exists m|].
  intros [(m & Hm & H) | (m & Hm & H)]; exists m; auto.
Qed.
Lemma protecting_cons project m ms g : protecting project (m :: ms) g ↔
  (project_id m = project ∧ canonical_manifest_generation m = Ok g) ∨ protecting project ms g.
Proof.
  change (m :: ms) with ([m] ++ ms). rewrite protecting_app. unfold protecting at 1.
  setoid_rewrite list_elem_of_singleton. split; (intros [H | H]; [left|by right]).
  - by destruct H as (? & -> & H).
  - by exists m.
Qed.
Lemma protecting_canonical project ms g :
  protecting project ms g → is_Some (canonical_generation_suffix project g).
Proof. intros (m & _ & <- & (s & _ & Hs & _)%manifest_generation_spec). by exists s. Qed.

Record collected_ok (project : str) (ms : list RetrievalIndexManifest) (s r : list str * list str) : Prop := {
  co_increasing : increasing str_cmp s.1 → increasing str_cmp r.1;
  co_errors : s.2 `prefix_of` r.2;
  co_elem g : g ∈ r.1 ↔ g ∈ s.1 ∨ protecting project ms g;
  co_evidence : r.2 = [] → evidence_ok project ms;
}.
Lemma collect_protected_ok project role s ms :
  collected_ok project ms s (collect_protected_generations project role s ms).
Proof.
  unfold collect_protected_generations. revert s. induction ms as [|m ms IH]; intros s; cbn [List.filter].
  - split; [done..| |intros _ ?; by intros ?%elem_of_nil].
    intros g. split; [by left|]. intros [? | (m & Hm%elem_of_nil & _)]; done.
  - destruct (str_eqb (project_id m) project) eqn:Ep.
    + apply str_eqb_eq in Ep. cbn [foldl]. destruct (canonical_manifest_generation m) as [g|e] eqn:Eg.
      * destruct (IH (bs_insert str_cmp s.1 g, s.2)) as [H1 H2 H3 H4]. split.
        -- intros Hs. apply H1. by apply (bs_insert_increasing str_cmp str_cmp_eq).
        -- done.
        -- intros g'. rewrite H3, protecting_cons, Eg. cbn [fst]. rewrite (bs_insert_elem str_cmp str_cmp_eq).
           assert (Ok (E := str) g = Ok g' ↔ g' = g) as -> by (split; congruence). tauto.
        -- intros Hr m' [-> | Hm]%elem_of_cons Hp; [by rewrite Eg|by apply (H4 Hr)].
      * destruct (IH (s.1, s.2 ++ [role ++ lit " manifest for " ++ project
          ++ lit " is not safe retention evidence: " ++ e])) as [H1 H2 H3 H4]. split.
        -- done.
        -- etrans; [by apply prefix_app_r|exact H2].
        -- intros g'. rewrite H3, protecting_cons, Eg. cbn [fst].
           assert (Err (A := str) e = Ok g' ↔ False) as -> by (split; [discriminate|done]). tauto.
        -- intros Hr. exfalso. rewrite Hr in H2. apply prefix_nil_inv in H2. by destruct s.2.
    + destruct (IH s) as [H1 H2 H3 H4]. split; [done..| |].
      * intros g. rewrite H3, protecting_cons.
        assert (project_id m ≠ project) by (intros <-; by rewrite str_eqb_refl in Ep). tauto.
      * intros Hr m' [-> | Hm]%elem_of_cons Hp; [by rewrite Hp, str_eqb_refl in Ep|by apply (H4 Hr)].
Qed.

(** ** The plan *)
Definition effective_state (unrooted : GenerationRetentionState) (errors : list str) : GenerationRetentionState :=
  match errors with [] => unrooted | _ => Building end.
Definition bundle_ok (layout : SidecarLayout) (project : str) (active rollback : list str)
    (effective : GenerationRetentionState) (b : GenerationBundle) : Prop :=
  gb_state b = generation_state active rollback effective (gb_generation b) ∧
  (∃ s, canonical_generation_suffix project (gb_generation b) = Some s ∧
        gb_semantic_generation b = collection_name project s) ∧
  artifact_ok layout project (gb_generation b) Lexical (gb_lexical b) ∧
  artifact_ok layout project (gb_generation b) Scip (gb_scip b) ∧
  artifact_ok layout project (gb_generation b) Semantic (gb_semantic b) ∧
  gb_bytes b = sum_bytes (ga_bytes <$> artifacts_of (gb_lexical b) (gb_scip b) (gb_semantic b)).

Lemma builder_finish_ok layout project active rollback effective g builder :
  builder_ok layout project g builder → ∃ b,
    builder_finish project g (generation_state active rollback effective g) builder = Some b ∧
    gb_generation b = g ∧ bundle_ok layout project active rollback effective b.
Proof.
  intros [[s Hs] Ha]. destruct (canonical_generation_Some _ _ _ Hs) as (E & _ & _).
  assert (strip_prefix g (project ++ lit "-") = Some s) as Hg by by rewrite E, app_assoc, strip_prefix_app.
  unfold builder_finish. rewrite Hg. cbn [mbind option_bind].
  eexists. split; [reflexivity|]. split; [done|]. split; [done|]. split; [by exists s|].
  split_and!; [apply (Ha Lexical)|apply (Ha Scip)|apply (Ha Semantic)|done].
Qed.
Lemma finish_bundles layout project active rollback effective builders :
  builders_ok layout project builders → ∃ bundles,
    mapM (λ e : str * BundleBuilder,
      builder_finish project e.1 (generation_state active rollback effective e.1) e.2) builders = Some bundles ∧
    gb_generation <$> bundles = builders.*1 ∧ Forall (bundle_ok layout project active rollback effective) bundles.
Proof.
  intros [Hs Hb]. apply (increasing_nodup str_cmp) in Hs.
  assert (Forall (λ e : str * BundleBuilder, builder_ok layout project e.1 e.2) builders) as Hall.
  { apply Forall_forall. intros [g b] Hin. apply Hb. by apply hm_get_elem. }
  clear Hs Hb. induction Hall as [|[g builder] builders Hok _ (bundles & IH & Hg & Hf)]; [by exists []|].
  destruct (builder_finish_ok layout project active rollback effective g builder Hok) as (b & Hb & Eg & Hbk).
  exists (b :: bundles). cbn [mapM fst snd]. rewrite Hb. cbn [mbind option_bind]. rewrite IH. cbn [mbind option_bind].
  split; [done|]. split; [cbn; by rewrite Eg; f_equal|by constructor].
Qed.
Lemma sort_bundles bundles : increasing str_cmp (gb_generation <$> bundles) →
  sort_by (cmp_leb (cmp_on gb_generation str_cmp)) bundles = bundles.
Proof.
  intros Hs. apply sort_by_id. induction bundles as [|b bundles IH]; [constructor|].
  apply StronglySorted_inv in Hs as [Hs Hb]. constructor; [by apply IH|].
  apply Forall_fmap in Hb. eapply Forall_impl; [exact Hb|]. intros b'. cbn. unfold cmp_leb, cmp_on. by intros ->.
Qed.

(** What a plan is, from the scan and the directories. *)
Record plan_facts `{RetentionIo} (layout : SidecarLayout) (project : str) (protection : RetentionProtectionScan)
    (unrooted : GenerationRetentionState) (active rollback : list str) (plan : GenerationRetentionPlan) : Prop := {
  pf_active g : g ∈ active ↔ protecting project (ps_authoritative_active protection ++ ps_active protection) g;
  pf_rollback g :
    g ∈ rollback ↔ protecting project (ps_rollback protection ++ ps_authoritative_rollback protection) g;
  pf_clean : rp_errors plan = [] → ps_errors protection = [] ∧ active ≠ [] ∧
    evidence_ok project (ps_authoritative_active protection ++ ps_active protection
                         ++ ps_rollback protection ++ ps_authoritative_rollback protection);
  pf_suppressed : rp_pruning_suppressed plan = bool_decide (effective_state unrooted (rp_errors plan) = Building);
  pf_increasing : increasing str_cmp (gb_generation <$> rp_bundles plan);
  pf_protected g : g ∈ active ∨ g ∈ rollback → g ∈ gb_generation <$> rp_bundles plan;
  pf_discovered g : is_Some (hm_get (dc_builders (discover_layout layout project (ps_errors protection))) g) →
    g ∈ gb_generation <$> rp_bundles plan;
  pf_bundles : Forall (bundle_ok layout project active rollback (effective_state unrooted (rp_errors plan)))
                 (rp_bundles plan);
  pf_project : rp_project_id plan = project;
  pf_bytes : rp_active_bytes plan = bytes_for (rp_bundles plan) Active ∧
    rp_rollback_bytes plan = bytes_for (rp_bundles plan) Rollback ∧
    rp_building_bytes plan = bytes_for (rp_bundles plan) Building ∧
    rp_reclaimable_bytes plan = bytes_for (rp_bundles plan) Reclaimable;
}.

Lemma entries_ok layout project gs : ∀ m,
  Forall (λ g, is_Some (canonical_generation_suffix project g)) gs → builders_ok layout project m →
  let m' := foldl (bt_entry str_cmp empty_builder id) m gs in
  builders_ok layout project m' ∧ ∀ g, g ∈ m'.*1 ↔ g ∈ gs ∨ g ∈ m.*1.
Proof.
  induction gs as [|g gs IH]; intros m Hgs Hm; cbn [foldl].
  - split; [done|]. intros g. split; [by right|]. by intros [?%elem_of_nil | ?].
  - apply Forall_cons in Hgs as [Hg Hgs].
    destruct (IH (bt_entry str_cmp empty_builder id m g) Hgs) as [H1 H2]; [by apply builders_entry_ok|].
    split; [done|]. intros g'. rewrite H2, bt_entry_keys, (bs_insert_elem str_cmp str_cmp_eq), elem_of_cons. tauto.
Qed.
Lemma prefix_of_nil (l k : list str) : l `prefix_of` k → k = [] → l = [].
Proof. intros Hp ->. by apply prefix_nil_inv in Hp. Qed.

Lemma plan_total `{RetentionIo} layout project protection unrooted : ∃ active rollback plan,
  plan_generation_retention_with_unrooted_state layout project protection unrooted = Some plan ∧
  plan_facts layout project protection unrooted active rollback plan.
Proof.
  unfold plan_generation_retention_with_unrooted_state.
  destruct (discover_layout_ok layout project (ps_errors protection)) as [Hd Hde].
  set (d := discover_layout _ _ _) in *.
  pose proof (collect_protected_ok project (lit "active") ([], dc_errors d) (ps_authoritative_active protection)) as C1.
  destruct (collect_protected_generations _ _ _ _) as [a1 e1].
  pose proof (collect_protected_ok project (lit "shared active") (a1, e1) (ps_active protection)) as C2.
  destruct (collect_protected_generations _ _ _ _) as [active e2].
  pose proof (collect_protected_ok project (lit "shared rollback") ([], e2) (ps_rollback protection)) as C3.
  destruct (collect_protected_generations _ _ _ _) as [r1 e3].
  pose proof (collect_protected_ok project (lit "authoritative rollback") (r1, e3)
                (ps_authoritative_rollback protection)) as C4.
  destruct (collect_protected_generations _ _ _ _) as [rollback e4]. cbv zeta.
  assert (∀ g, g ∈ active ↔ protecting project (ps_authoritative_active protection ++ ps_active protection) g) as Ha.
  { intros g. rewrite (co_elem _ _ _ _ C2), (co_elem _ _ _ _ C1), protecting_app. cbn. rewrite elem_of_nil. tauto. }
  assert (∀ g, g ∈ rollback ↔
    protecting project (ps_rollback protection ++ ps_authoritative_rollback protection) g) as Hr.
  { intros g. rewrite (co_elem _ _ _ _ C4), (co_elem _ _ _ _ C3), protecting_app. cbn. rewrite elem_of_nil. tauto. }
  set (errors := match active with [] => _ | _ => e4 end).
  assert (errors = [] → ps_errors protection = [] ∧ active ≠ [] ∧
    evidence_ok project (ps_authoritative_active protection ++ ps_active protection
                         ++ ps_rollback protection ++ ps_authoritative_rollback protection)) as Hclean.
  { intros He. assert (e4 = [] ∧ active ≠ []) as [E4 Hne].
    { subst errors. destruct active; [by destruct e4|done]. }
    pose proof (prefix_of_nil _ _ (co_errors _ _ _ _ C4) E4) as E3.
    pose proof (prefix_of_nil _ _ (co_errors _ _ _ _ C3) E3) as E2.
    pose proof (prefix_of_nil _ _ (co_errors _ _ _ _ C2) E2) as E1.
    pose proof (prefix_of_nil _ _ (co_errors _ _ _ _ C1) E1) as Ed.
    split; [by apply (prefix_of_nil _ _ Hde)|]. split; [done|]. intros m. rewrite !elem_of_app.
    intros [Hm | [Hm | [Hm | Hm]]]; [by apply (co_evidence _ _ _ _ C1)|by apply (co_evidence _ _ _ _ C2)
      |by apply (co_evidence _ _ _ _ C3)|by apply (co_evidence _ _ _ _ C4)]. }
  assert (Forall (λ g, is_Some (canonical_generation_suffix project g)) (active ++ rollback)) as Hcan.
  { apply Forall_forall. intros g [Hg%Ha | Hg%Hr]%elem_of_app; by eapply protecting_canonical. }
  destruct (entries_ok layout project (active ++ rollback) (dc_builders d) Hcan Hd) as [Hb Hk]. cbv zeta in Hb, Hk.
  set (builders := foldl _ _ _) in *. fold (effective_state unrooted errors).
  destruct (finish_bundles layout project active rollback (effective_state unrooted errors) builders Hb)
    as (bundles & -> & Hgen & Hok). cbn [mbind option_bind].
  assert (increasing str_cmp (gb_generation <$> bundles)) as Hinc by (rewrite Hgen; apply Hb).
  rewrite (sort_bundles bundles Hinc). exists active, rollback. eexists. split; [reflexivity|].
  split; cbn; try done.
  - intros g Hg. rewrite Hgen, Hk, elem_of_app. tauto.
  - intros g [b Hg]. rewrite Hgen, Hk. right.
    apply hm_get_elem in Hg; [|apply (increasing_nodup str_cmp), Hd]. apply list_elem_of_fmap. by exists (g, b).
Qed.

(** ** What an application asks for *)
Variant RemovalRequest : Type := RequestVector (collection : str) | RequestDir (path : str).
(** A remover that also writes down what it was asked. *)
Definition logged {S} (R : GenerationRemover S) : GenerationRemover (S * list RemovalRequest) := {|
  remove_generation_dir path s :=
    let '(answer, state) := remove_generation_dir path s.1 in (answer, (state, s.2 ++ [RequestDir path]));
  remove_vector_generation collection s :=
    let '(answer, state) := remove_vector_generation collection s.1 in
    (answer, (state, s.2 ++ [RequestVector collection])) |}.
Definition bundle_requests (b : GenerationBundle) : list RemovalRequest :=
  RequestVector (gb_semantic_generation b) ::
    ((λ a, RequestDir (ga_path a)) <$> omap id [gb_lexical b; gb_scip b]).
Definition plan_requests (plan : GenerationRetentionPlan) : list RemovalRequest :=
  if rp_pruning_suppressed plan then [] else concat (bundle_requests <$> reclaimable_bundles plan).

Section Requests.
Context {S : Type} (R : GenerationRemover S).

Lemma remove_artifact_logged r s l a :
  remove_artifact (H := logged R) (r, (s, l)) a =
  ((remove_artifact (H := R) (r, s) a).1, ((remove_artifact (H := R) (r, s) a).2, l ++ [RequestDir (ga_path a)])).
Proof.
  unfold remove_artifact. cbn [remove_generation_dir logged fst snd].
  destruct (remove_generation_dir (GenerationRemover := R) (ga_path a) s) as [[u|e] s']; done.
Qed.
Lemma remove_artifacts_logged artifacts : ∀ r s l,
  foldl (remove_artifact (H := logged R)) (r, (s, l)) artifacts =
  ((foldl (remove_artifact (H := R)) (r, s) artifacts).1,
   ((foldl (remove_artifact (H := R)) (r, s) artifacts).2, l ++ ((λ a, RequestDir (ga_path a)) <$> artifacts))).
Proof.
  induction artifacts as [|a artifacts IH]; intros r s l; cbn [foldl fmap list_fmap]; [by rewrite app_nil_r|].
  rewrite remove_artifact_logged. destruct (remove_artifact (r, s) a) as [r' s']. cbn [fst snd].
  by rewrite IH, <- app_assoc.
Qed.
Lemma remove_bundle_logged b s l :
  remove_bundle (H := logged R) b (s, l) =
  ((remove_bundle (H := R) b s).1, ((remove_bundle (H := R) b s).2, l ++ bundle_requests b)).
Proof.
  unfold remove_bundle. cbn [remove_vector_generation logged fst snd].
  destruct (remove_vector_generation (GenerationRemover := R) (gb_semantic_generation b) s) as [answer s'].
  rewrite remove_artifacts_logged.
  destruct (foldl remove_artifact _ _) as [r s'']. cbn [fst snd]. by rewrite <- app_assoc.
Qed.
Lemma remove_all_logged bundles : ∀ n rs s l,
  foldl (remove_next (H := logged R)) (n, rs, (s, l)) bundles =
  ((foldl (remove_next (H := R)) (n, rs, s) bundles).1,
   ((foldl (remove_next (H := R)) (n, rs, s) bundles).2, l ++ concat (bundle_requests <$> bundles))).
Proof.
  induction bundles as [|b bundles IH]; intros n rs s l; cbn [foldl fmap list_fmap concat]; [by rewrite app_nil_r|].
  unfold remove_next at 2 4 6. rewrite remove_bundle_logged. destruct (remove_bundle b s) as [r s']. cbn [fst snd].
  by rewrite IH, <- app_assoc.
Qed.
(** Whatever the remover answers, it is asked for exactly the requests of the plan, in order,
    and writing them down changes nothing else. *)
Lemma apply_requests plan s l :
  apply_generation_retention (H := logged R) plan (s, l) =
  ((apply_generation_retention (H := R) plan s).1,
   ((apply_generation_retention (H := R) plan s).2, l ++ plan_requests plan)).
Proof.
  unfold apply_generation_retention, plan_requests. destruct (rp_pruning_suppressed plan); cbn [fst snd];
    [by rewrite app_nil_r|].
  rewrite remove_all_logged. by destruct (foldl remove_next _ _) as [[n rs] s'].
Qed.
End Requests.

(** ** The scan *)
Lemma dedup_by_key {A B} (same : A → A → bool) (f : A → B) (Hsame : ∀ a b, same a b = true → f a = f b) l :
  ∀ last x, x ∈ l → ∃ y, (last = Some y ∨ y ∈ dedup_by same last l) ∧ f y = f x.
Proof.
  induction l as [|a l IH]; intros last x; [by intros ?%elem_of_nil|]. cbn [dedup_by].
  intros [-> | Hx]%elem_of_cons.
  - destruct last as [y|]; [|exists a; split; [right; left|done]].
    destruct (same a y) eqn:E; [exists y; split; [by left|by symmetry; apply Hsame]|].
    exists a. split; [right; left|done].
  - destruct last as [y|].
    + destruct (same a y); [by apply IH|].
      destruct (IH (Some a) x Hx) as (z & [[= <-] | Hz] & E); exists z || exists a; (split; [|done]); right; [left|by right].
    + destruct (IH (Some a) x Hx) as (z & [[= <-] | Hz] & E); exists z || exists a; (split; [|done]); right; [left|by right].
Qed.
Lemma dedup_by_sub {A} (same : A → A → bool) l : ∀ last x, x ∈ dedup_by same last l → x ∈ l.
Proof.
  induction l as [|a l IH]; intros last x; cbn [dedup_by]; [done|].
  destruct (match last with Some y => same a y | None => false end); rewrite !elem_of_cons; [by right; eapply IH|].
  intros [-> | H]; [by left|right; by eapply IH].
Qed.
Lemma deduplicate_manifests_key ms m : m ∈ ms →
  ∃ m', m' ∈ deduplicate_manifests ms ∧ manifest_key m' = manifest_key m.
Proof.
  intros Hm. destruct (dedup_by_key (λ a b, bool_decide (manifest_key a = manifest_key b)) manifest_key
    (λ a b H, bool_decide_eq_true_1 _ H) (sort_by (cmp_leb manifest_cmp) ms) None m) as (y & [? | Hy] & E).
  - by rewrite sort_by_perm.
  - done.
  - by exists y.
Qed.
Lemma manifest_key_generation m m' : manifest_key m = manifest_key m' →
  project_id m = project_id m' ∧ canonical_manifest_generation m = canonical_manifest_generation m'.
Proof.
  unfold manifest_key, canonical_manifest_generation. intros [= -> -> ->]. done.
Qed.

(** A scan that has only collected more. *)
Record grows (s s' : RetentionProtectionScan) : Prop := {
  gw_errors : ps_errors s `prefix_of` ps_errors s';
  gw_active : ps_active s ⊆ ps_active s';
  gw_rollback : ps_rollback s ⊆ ps_rollback s';
}.
#[export] Instance grows_preorder : PreOrder grows.
Proof.
  split; [by intros s; split|]. intros a b c [H1 H2 H3] [H4 H5 H6]. split; by etrans.
Qed.
Lemma grows_error e s : grows s (scan_error e s).
Proof. split; [by apply prefix_app_r|done..]. Qed.
Lemma error_not_clean e s s' : grows (scan_error e s) s' → ps_errors s' ≠ [].
Proof. intros [H _ _] E. rewrite E in H. apply prefix_nil_inv in H. cbn in H. by destruct (ps_errors s). Qed.
Lemma fold_grows {A} (f : RetentionProtectionScan → A → RetentionProtectionScan) l s :
  (∀ s a, grows s (f s a)) → grows s (foldl f s l).
Proof. intros Hf. apply foldl_inv; [done|]. intros s' a _ Hs. by etrans; [exact Hs|apply Hf]. Qed.
(** What a step has collected is in the scan that a clean fold ends with. *)
Lemma fold_collects {A} (P : A → RetentionProtectionScan → Prop) f l s :
  (∀ s a, grows s (f s a)) →
  (∀ s a s', grows (f s a) s' → ps_errors s' = [] → P a s') →
  let s' := foldl f s l in ∀ s'', grows s' s'' → ps_errors s'' = [] → ∀ a, a ∈ l → P a s''.
Proof.
  intros Hf HP. revert s. induction l as [|b l IH]; intros s s' s'' Hg Hc a; [by intros ?%elem_of_nil|].
  intros [-> | Ha]%elem_of_cons; [|by apply (IH (f s b))].
  apply (HP s b); [|done]. etrans; [|exact Hg]. by apply (fold_grows f l (f s b)).
Qed.

Section Scans.
Context `{RetentionIo}.

Definition store_collected (path : str) (s : RetentionProtectionScan) : Prop :=
  ∃ publications, list_retrieval_index_publications path = Ok publications ∧
    ∀ m r, (m, r) ∈ publications → m ∈ ps_active s ∧ ∀ rb, r = Some rb → rb_manifest rb ∈ ps_rollback s.
Definition marker_collected (dir : str) (item : FsItem) (s : RetentionProtectionScan) : Prop :=
  match item with
  | ItemError _ => False
  | Item name file_type _ =>
      file_extension (path_join dir name) = Some (lit "json") →
      file_type = Ok KFile ∧ ∃ o, read_marker_path (path_join dir name) = Ok o ∧
        ∀ marker, o = Some marker → mk_active marker ∈ ps_active s ∧
          ∀ rb, mk_rollback marker = Some rb → rb_manifest rb ∈ ps_rollback s
  end.
Lemma scan_storage_grows active s path : grows s (scan_storage active s path).
Proof.
  unfold scan_storage. destruct (list_retrieval_index_publications path) as [pubs|e]; [|apply grows_error].
  split; cbn; [done|set_solver..].
Qed.
Lemma scan_storage_collects active s path s' :
  grows (scan_storage active s path) s' → ps_errors s' = [] → store_collected path s'.
Proof.
  unfold scan_storage, store_collected. intros Hg Hc.
  destruct (list_retrieval_index_publications path) as [pubs|e]; [|by apply error_not_clean in Hg].
  exists pubs. split; [done|]. destruct Hg as [_ Ha Hr]. cbn in Ha, Hr. intros m r Hin. split.
  - apply Ha, elem_of_app. right. apply list_elem_of_fmap. by exists (m, r).
  - intros rb ->. apply Hr, elem_of_app. right. apply list_elem_of_fmap. exists rb. split; [done|].
    apply list_elem_of_omap. by exists (m, Some rb).
Qed.
Lemma scan_marker_grows dir s item : grows s (scan_marker_entry dir s item).
Proof.
  destruct item as [e|name ft target]; cbn [scan_marker_entry]; [apply grows_error|].
  destruct (negb _); [done|]. destruct ft as [[]|e]; try apply grows_error.
  destruct (read_marker_path _) as [[marker|]|e]; [|done|apply grows_error].
  split; cbn; [done|set_solver|]. destruct (mk_rollback marker); set_solver.
Qed.
Lemma scan_marker_collects dir s item s' :
  grows (scan_marker_entry dir s item) s' → ps_errors s' = [] → marker_collected dir item s'.
Proof.
  destruct item as [e|name ft target]; cbn [scan_marker_entry marker_collected]; intros Hg Hc;
    [by apply error_not_clean in Hg|]. intros Hext. rewrite bool_decide_eq_true_2 in Hg by done. cbn [negb] in Hg.
  destruct ft as [[]|e]; try by apply error_not_clean in Hg. split; [done|].
  destruct (read_marker_path _) as [[marker|]|e]; [| |by apply error_not_clean in Hg].
  - exists (Some marker). split; [done|]. intros mk [= <-]. destruct Hg as [_ Ha Hr]. cbn in Ha, Hr.
    split; [set_solver|]. intros rb Hrb. rewrite Hrb in Hr. set_solver.
  - by exists None.
Qed.
End Scans.

(** The publications and markers under a cache that speak of a generation of a project. *)
Definition speaks_of (project g : str) (m : RetrievalIndexManifest) : Prop :=
  project_id m = project ∧ sidecar_generation m = Some g.
Definition published `{RetentionIo} (paths : list str) (m : RetrievalIndexManifest) : Prop :=
  ∃ path publications r, path ∈ paths ∧ list_retrieval_index_publications path = Ok publications ∧
    ((m, r) ∈ publications ∨ ∃ m' rb, (m', Some rb) ∈ publications ∧ rb_manifest rb = m).
Definition marked `{RetentionIo} (dir : str) (m : RetrievalIndexManifest) : Prop :=
  ∃ items name file_type target marker, dir_lookup dir = Ok (NDir (Ok items)) ∧
    Item name file_type target ∈ items ∧ file_extension (path_join dir name) = Some (lit "json") ∧
    read_marker_path (path_join dir name) = Ok (Some marker) ∧
    (m = mk_active marker ∨ ∃ rb, mk_rollback marker = Some rb ∧ m = rb_manifest rb).

(** A clean scan has read every store. *)
Lemma scan_reads_stores `{RetentionIo} cache_root storage state_file :
  ps_errors (scan_retention_protection cache_root storage state_file) = [] →
  ∀ path, path ∈ (storage_paths_for_scan cache_root storage []).1 →
    is_ok (list_retrieval_index_publications path) = true.
Proof.
  unfold scan_retention_protection. destruct (storage_paths_for_scan _ _ _) as [paths errors]. cbv zeta. cbn [fst].
  match goal with |- context [deduplicate_manifests (ps_active ?s)] => set (s2 := s) end. cbn [ps_errors].
  intros Hc path Hp.
  assert (grows (foldl (scan_storage storage) (empty_protection errors) paths) s2) as H12.
  { subst s2. destruct (dir_lookup _) as [[| | |[items|e]]|e]; try apply grows_error.
    - apply fold_grows. intros s a. apply scan_marker_grows.
    - destruct (is_not_found e); [done|apply grows_error]. }
  destruct (fold_collects store_collected (scan_storage storage) paths (empty_protection errors)
    (scan_storage_grows storage) (scan_storage_collects storage) s2 H12 Hc path Hp) as (pubs & -> & _). done.
Qed.
(** A clean scan has every manifest of the stores and of the markers. *)
Lemma scan_complete `{RetentionIo} cache_root storage state_file :
  let s := scan_retention_protection cache_root storage state_file in
  ps_errors s = [] → ∀ m,
    published (storage_paths_for_scan cache_root storage []).1 m ∨ marked (retention_dir state_file) m →
    ∃ m', m' ∈ ps_active s ++ ps_rollback s ∧ manifest_key m' = manifest_key m.
Proof.
  unfold scan_retention_protection. destruct (storage_paths_for_scan _ _ _) as [paths errors]. cbv zeta. cbn [fst].
  set (s1 := foldl _ _ paths). set (dir := retention_dir state_file).
  match goal with |- context [deduplicate_manifests (ps_active ?s)] => set (s2 := s) end. cbn [ps_errors ps_active ps_rollback].
  intros Hc m Hm.
  assert (grows s1 s2) as H12.
  { subst s2. destruct (dir_lookup dir) as [[| | |[items|e]]|e]; try apply grows_error.
    - apply fold_grows. intros s a. apply scan_marker_grows.
    - destruct (is_not_found e); [done|apply grows_error]. }
  assert (m ∈ ps_active s2 ∨ m ∈ ps_rollback s2) as Hin.
  { destruct Hm as [(path & pubs & r & Hp & Hl & Hm) | (items & name & ft & target & marker & Hd & Hi & Hext & Hr & Hm)].
    - destruct (fold_collects store_collected (scan_storage storage) paths (empty_protection errors)
        (scan_storage_grows storage) (scan_storage_collects storage) s2 H12 Hc path Hp) as (pubs' & Hl' & H').
      rewrite Hl in Hl'. injection Hl' as <-. destruct Hm as [Hm | (m' & rb & Hm & <-)].
      + left. by apply (H' m r).
      + right. by apply (H' m' (Some rb)).
    - assert (s2 = foldl (scan_marker_entry dir) s1 items) as E2 by (subst s2; by rewrite Hd).
      assert (grows (foldl (scan_marker_entry dir) s1 items) s2) as Hg by by rewrite E2.
      destruct (fold_collects (marker_collected dir) (scan_marker_entry dir) items s1
        (scan_marker_grows dir) (scan_marker_collects dir) s2 Hg Hc _ Hi Hext) as (_ & o & Ho & Hmk).
      rewrite Hr in Ho. injection Ho as <-. destruct (Hmk marker eq_refl) as [Ha Hb].
      destruct Hm as [-> | (rb & Hrb & ->)]; [by left|right; by apply Hb]. }
  destruct Hin as [Hin | Hin]; apply deduplicate_manifests_key in Hin as (m' & Hm' & E); exists m';
    rewrite elem_of_app; auto.
Qed.

(** ** What retention promises *)
Lemma reclaimable_facts `{RetentionIo} layout project protection active rollback plan b :
  plan_facts layout project protection Reclaimable active rollback plan → b ∈ reclaimable_bundles plan →
  rp_errors plan = [] ∧ gb_generation b ∉ active ∧ gb_generation b ∉ rollback ∧
  bundle_ok layout project active rollback Reclaimable b.
Proof.
  intros Hf Hb. unfold reclaimable_bundles in Hb. apply list_elem_of_In, filter_In in Hb as [Hb Hs%bool_decide_eq_true].
  apply list_elem_of_In in Hb. pose proof (pf_bundles _ _ _ _ _ _ _ Hf) as Hok. rewrite Forall_forall in Hok.
  specialize (Hok b Hb). pose proof Hok as (Hst & Hrest). unfold generation_state in Hst. rewrite Hs in Hst.
  destruct (bool_decide (gb_generation b ∈ active)) eqn:Ea; [done|]. apply bool_decide_eq_false in Ea.
  destruct (bool_decide (gb_generation b ∈ rollback)) eqn:Er; [done|]. apply bool_decide_eq_false in Er.
  destruct (rp_errors plan); [done|done].
Qed.
Definition request_of (layout : SidecarLayout) (project g : str) (request : RemovalRequest) : Prop :=
  ∃ suffix, canonical_generation_suffix project g = Some suffix ∧
    (request = RequestVector (collection_name project suffix) ∨
     request = RequestDir (path_join (shards_dir layout) g) ∨
     request = RequestDir (path_join (scip_artifacts_root layout) g)).
Lemma bundle_requests_of layout project active rollback effective b request :
  bundle_ok layout project active rollback effective b → request ∈ bundle_requests b →
  request_of layout project (gb_generation b) request.
Proof.
  intros (_ & (s & Hs & Hsem) & Hl & Hsc & _) Hr. exists s. split; [done|]. unfold bundle_requests in Hr.
  apply elem_of_cons in Hr as [-> | (a & -> & Ha)%list_elem_of_fmap]; [left; by rewrite Hsem|right].
  apply list_elem_of_omap in Ha as (o & Ho & E). cbn in E. subst o.
  rewrite !elem_of_cons, elem_of_nil in Ho. destruct Ho as [E | [E | []]]; symmetry in E.
  - left. f_equal. by apply Hl in E as [-> _].
  - right. f_equal. by apply Hsc in E as [-> _].
Qed.

(** Nothing reclaimable is published or marked. *)
Lemma reclaimable_unprotected `{RetentionIo} cache_root storage layout project active rollback plan b m :
  plan_facts layout project (scan_retention_protection cache_root storage (state_file layout)) Reclaimable
    active rollback plan → b ∈ reclaimable_bundles plan →
  published (storage_paths_for_scan cache_root storage []).1 m ∨ marked (retention_dir (state_file layout)) m →
  ¬ speaks_of project (gb_generation b) m.
Proof.
  intros Hf Hb Hm [Hmp Hmg]. destruct (reclaimable_facts _ _ _ _ _ _ _ Hf Hb) as (He & Hna & Hnr & _).
  set (protection := scan_retention_protection _ _ _) in *.
  destruct (pf_clean _ _ _ _ _ _ _ Hf He) as (Hpe & _ & Hev).
  destruct (scan_complete cache_root storage (state_file layout) Hpe m Hm) as (m' & Hin & Hkey).
  destruct (manifest_key_generation _ _ Hkey) as [Ep Eg]. fold protection in Hin.
  assert (m' ∈ ps_active protection ∨ m' ∈ ps_rollback protection) as Hin' by by apply elem_of_app.
  destruct (canonical_manifest_generation m') as [g|e] eqn:Ec.
  2:{ assert (is_ok (canonical_manifest_generation m') = true) as Hx; [|by rewrite Ec in Hx].
      apply Hev; [rewrite !elem_of_app; tauto|by rewrite Ep]. }
  assert (g = gb_generation b) as ->.
  { symmetry in Eg. apply manifest_generation_spec in Eg as (s & Hsg & _). congruence. }
  destruct Hin' as [Hin' | Hin'].
  + apply Hna, (pf_active _ _ _ _ _ _ _ Hf). exists m'. rewrite elem_of_app. by rewrite Ep; auto.
  + apply Hnr, (pf_rollback _ _ _ _ _ _ _ Hf). exists m'. rewrite elem_of_app. by rewrite Ep; auto.
Qed.

(** [C18] Retention removes nothing that is protected.  Whatever the remover answers, every
    request of an application is for a generation of the project, under its own roots and
    of no other project, that no store under the cache publishes, active or as rollback,
    and that no marker names; and there is a request only if the whole scan and the whole
    discovery met no error and some generation of the project is active. *)
Theorem retention_keeps_protected `{RetentionIo} {S} (R : GenerationRemover S) cache_root storage layout project
    plan state :
  plan_generation_retention layout project
    (scan_retention_protection cache_root storage (state_file layout)) = Some plan →
  let requests := (apply_generation_retention (H := logged R) plan (state, [])).2.2 in
  (requests ≠ [] → rp_errors plan = [] ∧ rp_active_bytes plan = bytes_for (rp_bundles plan) Active ∧
    ∃ b, b ∈ rp_bundles plan ∧ gb_state b = Active) ∧
  ∀ request, request ∈ requests → ∃ g, request_of layout project g request ∧
    (∀ other, is_Some (canonical_generation_suffix other g) → other = project) ∧
    ∀ m, published (storage_paths_for_scan cache_root storage []).1 m ∨ marked (retention_dir (state_file layout)) m →
      ¬ speaks_of project g m.
Proof.
  intros Hplan. rewrite apply_requests. cbn [snd]. rewrite app_nil_l. set (protection := scan_retention_protection _ _ _) in *.
  destruct (plan_total layout project protection Reclaimable) as (active & rollback & plan' & Hp & Hf).
  unfold plan_generation_retention in Hplan. rewrite Hplan in Hp. injection Hp as <-.
  assert (∀ request, request ∈ plan_requests plan → ∃ b, b ∈ reclaimable_bundles plan ∧ request ∈ bundle_requests b) as Hreq.
  { intros request. unfold plan_requests. destruct (rp_pruning_suppressed plan); [by intros ?%elem_of_nil|].
    intros (l & (b & -> & Hb)%list_elem_of_In%list_elem_of_fmap & Hr)%list_elem_of_In%in_concat. exists b.
    by apply list_elem_of_In in Hr. }
  split.
  - intros Hne. destruct (plan_requests plan) as [|request requests] eqn:E; [done|].
    destruct (Hreq request) as (b & Hb & _); [left|].
    destruct (reclaimable_facts _ _ _ _ _ _ _ Hf Hb) as (He & _). split; [done|].
    split; [apply (pf_bytes _ _ _ _ _ _ _ Hf)|]. destruct (pf_clean _ _ _ _ _ _ _ Hf He) as (_ & Hact & _).
    destruct (hd_error active) as [g|] eqn:Eg; [|by destruct active].
    assert (g ∈ active) as Hg by (destruct active; [done|injection Eg as ->; left]).
    pose proof (pf_protected _ _ _ _ _ _ _ Hf g (or_introl Hg)) as Hgb.
    apply list_elem_of_fmap in Hgb as (b' & -> & Hb'). exists b'. split; [done|].
    pose proof (pf_bundles _ _ _ _ _ _ _ Hf) as Hok. rewrite Forall_forall in Hok.
    destruct (Hok b' Hb') as (-> & _). unfold generation_state. by rewrite bool_decide_eq_true_2.
  - intros request (b & Hb & Hr)%Hreq. exists (gb_generation b).
    destruct (reclaimable_facts _ _ _ _ _ _ _ Hf Hb) as (He & Hna & Hnr & Hok).
    pose proof (bundle_requests_of _ _ _ _ _ _ _ Hok Hr) as Hro. split; [done|].
    destruct Hro as (suffix & Hsuf & _). split.
    { intros other Ho. by apply (generation_project_unique other project (gb_generation b)). }
    intros m Hm. by apply (reclaimable_unprotected cache_root storage layout project active rollback plan).
Qed.

(** ** Accounting *)
Definition zsum : list Z → Z := foldr Z.add 0.
Lemma zsum_nonneg l : Forall (λ n, 0 ≤ n) l → 0 ≤ zsum l.
Proof. induction 1; cbn; lia. Qed.
Lemma sum_from l : ∀ a, 0 ≤ a ≤ u64_max → Forall (λ n, 0 ≤ n) l →
  foldl (saturating_add u64_max) a l = Z.min u64_max (a + zsum l).
Proof.
  induction l as [|n l IH]; intros a Ha Hl; cbn [foldl]; [cbn; lia|].
  apply Forall_cons in Hl as [Hn Hl]. pose proof (zsum_nonneg l Hl). change (zsum (n :: l)) with (n + zsum l).
  rewrite IH; [|apply sat_in_range; lia|done]. unfold saturating_add. lia.
Qed.
Lemma sum_bytes_min l : Forall (λ n, 0 ≤ n) l → sum_bytes l = Z.min u64_max (zsum l).
Proof. intros Hl. unfold sum_bytes. pose proof u64_max_pos. rewrite sum_from by (done || lia). f_equal. Qed.
Lemma forall_sublist {A} (P : A → Prop) l k : sublist l k → Forall P k → Forall P l.
Proof. induction 1 as [|x l k _ IH|x l k _ IH]; [done|..]; intros [? Hk]%Forall_cons; [constructor|]; auto. Qed.
Lemma zsum_sublist l k : sublist l k → Forall (λ n, 0 ≤ n) k → zsum l ≤ zsum k.
Proof.
  induction 1 as [|x l k _ IH|x l k _ IH]; cbn; [done|..]; intros [? Hk]%Forall_cons; specialize (IH Hk); lia.
Qed.
Lemma zsum_le l k : Forall2 (λ a b, 0 ≤ a ≤ b) l k → 0 ≤ zsum l ≤ zsum k.
Proof. induction 1; cbn; lia. Qed.

Definition bundle_sizes (b : GenerationBundle) : list Z :=
  match gb_semantic b with Some a => ga_bytes a | None => 0 end ::
    (ga_bytes <$> omap id [gb_lexical b; gb_scip b]).
Definition sizes_ok (b : GenerationBundle) : Prop :=
  Forall (λ n, 0 ≤ n) (bundle_sizes b) ∧ gb_bytes b = sum_bytes (bundle_sizes b).
Definition size_of (o : option GenerationArtifact) : Z := match o with Some a => ga_bytes a | None => 0 end.
Lemma artifact_size layout project g kind o : artifact_ok layout project g kind o → 0 ≤ size_of o.
Proof. intros H. destruct o as [a|]; [by apply (H a)|done]. Qed.
Lemma bundle_sizes_ok layout project active rollback effective b :
  bundle_ok layout project active rollback effective b → sizes_ok b.
Proof.
  intros (_ & _ & Hl%artifact_size & Hs%artifact_size & Hv%artifact_size & Hb). unfold sizes_ok, bundle_sizes.
  rewrite Hb. unfold size_of, artifacts_of in *.
  destruct (gb_lexical b), (gb_scip b), (gb_semantic b); cbn [omap list_omap id fmap list_fmap];
    (split; [by repeat constructor|]); rewrite !sum_bytes_min by (by repeat constructor); cbn; f_equal; lia.
Qed.

Section Accounting.
Context {S : Type} (R : GenerationRemover S).

Lemma remove_artifact_cases r s a :
  let r' := (remove_artifact (H := R) (r, s) a).1 in
  gr_generation r' = gr_generation r ∧
  (gr_removed_bytes r' = saturating_add u64_max (gr_removed_bytes r) (ga_bytes a) ∧ gr_errors r' = gr_errors r ∨
   gr_removed_bytes r' = gr_removed_bytes r ∧ gr_errors r `prefix_of` gr_errors r' ∧ gr_errors r' ≠ []).
Proof.
  unfold remove_artifact. destruct (remove_generation_dir (ga_path a) s) as [[u|e] s']; cbn.
  - split; [done|]. by left.
  - split; [done|]. right. split; [done|]. split; [by apply prefix_app_r|]. by destruct (gr_errors r).
Qed.
(** The artefacts whose removal succeeded are some of those asked for, all if no error. *)
Lemma remove_artifacts_sizes artifacts : ∀ r s,
  let r' := (foldl (remove_artifact (H := R)) (r, s) artifacts).1 in
  gr_generation r' = gr_generation r ∧ gr_errors r `prefix_of` gr_errors r' ∧
  ∃ removed, sublist removed (ga_bytes <$> artifacts) ∧
    gr_removed_bytes r' = foldl (saturating_add u64_max) (gr_removed_bytes r) removed ∧
    (gr_errors r' = [] → removed = ga_bytes <$> artifacts).
Proof.
  induction artifacts as [|a artifacts IH]; intros r s; cbn [foldl]; [by split_and!; [..|exists []]|].
  destruct (remove_artifact_cases r s a) as [Hg Hr]. destruct (remove_artifact (r, s) a) as [r1 s1]. cbn [fst] in *.
  destruct (IH r1 s1) as (G & P & removed & H1 & H2 & H3). rewrite G, Hg. split; [done|].
  destruct Hr as [[Hr He] | (Hr & Hp & He)]; (split; [etrans; [|exact P]; by rewrite ?He|]).
  - exists (ga_bytes a :: removed). split; [by apply sublist_skip|]. cbn [foldl]. rewrite <- Hr. split; [done|].
    intros Hn. cbn. f_equal. by apply H3.
  - exists removed. split; [by apply sublist_cons|]. rewrite <- Hr. split; [done|].
    intros Hn. by apply (prefix_of_nil _ _ P) in Hn.
Qed.
Lemma remove_bundle_sizes b s : sizes_ok b →
  let r := (remove_bundle (H := R) b s).1 in
  gr_generation r = gb_generation b ∧ 0 ≤ gr_removed_bytes r ≤ gb_bytes b ∧
  gr_remaining_reclaimable_bytes r = gb_bytes b - gr_removed_bytes r ∧
  (gr_errors r = [] → gr_removed_bytes r = gb_bytes b).
Proof.
  intros [Hs Hb]. unfold remove_bundle.
  destruct (remove_vector_generation (gb_semantic_generation b) s) as [answer s'].
  match goal with |- context [foldl remove_artifact (?r, s') ?l] => set (r0 := r); set (artifacts := l) end.
  assert (gr_generation r0 = gb_generation b ∧ ∃ first, sublist first [size_of (gb_semantic b)] ∧
    gr_removed_bytes r0 = foldl (saturating_add u64_max) 0 first ∧
    (gr_errors r0 = [] → first = [size_of (gb_semantic b)])) as (G0 & first & F1 & F2 & F3).
  { subst r0. destruct answer as [[]|e]; cbn; (split; [done|]).
    - by exists [size_of (gb_semantic b)].
    - exists []. split_and!; [apply sublist_nil_l|done|done].
    - exists []. split_and!; [apply sublist_nil_l|done|done]. }
  destruct (remove_artifacts_sizes artifacts r0 s') as (G & P & removed & H1 & H2 & H3).
  destruct (foldl remove_artifact (r0, s') artifacts) as [r s'']. cbn [fst] in *. cbn.
  rewrite G, G0. split; [done|]. rewrite F2, <- foldl_app in H2.
  assert (sublist (first ++ removed) (bundle_sizes b)) as Hsub by by apply (sublist_app _ [_]).
  assert (Forall (λ n, 0 ≤ n) (first ++ removed)) as Hf by by eapply forall_sublist.
  change (foldl (saturating_add u64_max) 0 (first ++ removed)) with (sum_bytes (first ++ removed)) in H2.
  pose proof (zsum_sublist _ _ Hsub Hs). pose proof (zsum_nonneg _ Hf). pose proof u64_max_pos.
  rewrite sum_bytes_min in H2, Hb by done. split; [lia|]. split; [unfold saturating_sub; lia|].
  intros He. rewrite (H3 He), F3 in H2; [|by apply (prefix_of_nil _ _ P)]. rewrite H2, Hb. done.
Qed.
End Accounting.

Lemma remove_all_sizes {S} (R : GenerationRemover S) bundles : Forall sizes_ok bundles → ∀ n rs s, 0 ≤ n ≤ u64_max →
  let '(n', rs', _) := foldl (remove_next (H := R)) (n, rs, s) bundles in
  ∃ rs1, rs' = rs ++ rs1 ∧ n' = foldl (saturating_add u64_max) n (gr_removed_bytes <$> rs1) ∧
    Forall2 (λ r b, gr_generation r = gb_generation b ∧ 0 ≤ gr_removed_bytes r ≤ gb_bytes b ∧
      gr_remaining_reclaimable_bytes r = gb_bytes b - gr_removed_bytes r ∧
      (gr_errors r = [] → gr_removed_bytes r = gb_bytes b)) rs1 bundles.
Proof.
  induction 1 as [|b bundles Hb _ IH]; intros n rs s Hn; cbn [foldl]; [by exists []; rewrite app_nil_r|].
  unfold remove_next at 2. pose proof (remove_bundle_sizes R b s Hb) as Hr.
  destruct (remove_bundle b s) as [r s']. cbn [fst] in Hr. cbv zeta.
  specialize (IH (saturating_add u64_max n (gr_removed_bytes r)) (rs ++ [r]) s'
    ltac:(apply sat_in_range; lia)).
  destruct (foldl remove_next _ bundles) as [[n' rs'] s'']. destruct IH as (rs1 & -> & -> & H2).
  exists (r :: rs1). split; [by rewrite <- app_assoc|]. split; [done|]. by constructor.
Qed.

(** [C35] The accounting of an application.  There is one result for each reclaimable bundle,
    in order, each removing at most the bytes of its bundle and reporting the rest; what is
    removed and what remains add up to what the plan called reclaimable, and with no error
    nothing remains. *)
Theorem retention_accounting `{RetentionIo} {S} (R : GenerationRemover S) layout project protection unrooted plan state :
  plan_generation_retention_with_unrooted_state layout project protection unrooted = Some plan →
  let report := (apply_generation_retention (H := R) plan state).1 in
  ar_removed_bytes report + ar_remaining_reclaimable_bytes report = rp_reclaimable_bytes plan ∧
  0 ≤ ar_removed_bytes report ≤ u64_max ∧
  (rp_pruning_suppressed plan = true → ar_removed_bytes report = 0) ∧
  (rp_pruning_suppressed plan = false →
    Forall2 (λ r b, gr_generation r = gb_generation b ∧ 0 ≤ gr_removed_bytes r ≤ gb_bytes b ∧
      gr_remaining_reclaimable_bytes r = gb_bytes b - gr_removed_bytes r)
      (ar_removals report) (reclaimable_bundles plan) ∧
    (ar_errors report = [] → ar_remaining_reclaimable_bytes report = 0)).
Proof.
  intros Hplan. destruct (plan_total layout project protection unrooted) as (active & rollback & plan' & Hp & Hf).
  rewrite Hplan in Hp. injection Hp as <-.
  assert (Forall sizes_ok (reclaimable_bundles plan)) as Hs.
  { apply Forall_forall. intros b Hb. unfold reclaimable_bundles in Hb.
    apply list_elem_of_In, filter_In in Hb as [Hb%list_elem_of_In _].
    pose proof (pf_bundles _ _ _ _ _ _ _ Hf) as Hok. rewrite Forall_forall in Hok. by eapply bundle_sizes_ok, Hok. }
  assert (rp_reclaimable_bytes plan = sum_bytes (gb_bytes <$> reclaimable_bundles plan)) as Hrec
    by apply (pf_bytes _ _ _ _ _ _ _ Hf).
  assert (Forall (λ n, 0 ≤ n) (gb_bytes <$> reclaimable_bundles plan)) as Hnn.
  { apply Forall_fmap. eapply Forall_impl; [exact Hs|]. intros b [Hz Hb]. cbn. pose proof u64_max_pos.
    rewrite Hb, sum_bytes_min by done. pose proof (zsum_nonneg _ Hz). lia. }
  pose proof (zsum_nonneg _ Hnn). pose proof u64_max_pos. rewrite sum_bytes_min in Hrec by done.
  unfold apply_generation_retention. destruct (rp_pruning_suppressed plan); cbn; [split_and!; try done; lia|].
  pose proof (remove_all_sizes R _ Hs 0 [] state ltac:(lia)) as Hall.
  destruct (foldl remove_next _ _) as [[n rs] s']. destruct Hall as (rs1 & -> & -> & H2). cbn [app fst] in *.
  cbn [ar_removed_bytes ar_remaining_reclaimable_bytes ar_removals ar_errors].
  change (foldl _ 0 ?l) with (sum_bytes l).
  assert (Forall2 (λ a b, 0 ≤ a ≤ b) (gr_removed_bytes <$> rs1) (gb_bytes <$> reclaimable_bundles plan)) as Hle.
  { apply Forall2_fmap. eapply Forall2_impl; [exact H2|]. cbn. tauto. }
  assert (Forall (λ n, 0 ≤ n) (gr_removed_bytes <$> rs1)) as Hrn.
  { eapply Forall2_Forall_l; [exact Hle|]. eapply Forall_impl; [exact Hnn|]. cbn. intros a _ b. lia. }
  apply zsum_le in Hle. rewrite (sum_bytes_min (gr_removed_bytes <$> rs1)) by done. unfold saturating_sub.
  split; [lia|]. split; [lia|]. split; [done|]. intros _. split; [eapply Forall2_impl; [exact H2|]; tauto|].
  intros He. assert (gr_removed_bytes <$> rs1 = gb_bytes <$> reclaimable_bundles plan) as Eq; [|rewrite Eq; lia].
  clear -H2 He. induction H2 as [|r b rs bs (_ & _ & _ & Hr) _ IH]; [done|]. cbn in He |- *.
  apply app_eq_nil in He as [He1 He2]. by rewrite Hr, IH.
Qed.

(** The next marker of a publication.  There is one exactly when the workspace is a safe
    path component and the active generation is canonical; it is valid, names the active
    generation, and keeps the previous publication as rollback exactly when that one is a
    canonical other generation of the same project. *)
Theorem marker_next_spec workspace_id active previous now :
  match marker_next workspace_id active previous now with
  | Ok marker =>
      validate_marker marker = Ok tt ∧ mk_active marker = active ∧ mk_workspace_id marker = workspace_id ∧
      mk_updated_at_epoch_ms marker = now ∧
      ∀ r, mk_rollback marker = Some r ↔ previous = Some r ∧ project_id (rb_manifest r) = project_id active ∧
        ∃ g g', canonical_manifest_generation active = Ok g ∧
          canonical_manifest_generation (rb_manifest r) = Ok g' ∧ g ≠ g'
  | Err error =>
      validate_retention_component workspace_id = Err error ∨
      is_ok (validate_retention_component workspace_id) = true ∧ canonical_manifest_generation active = Err error
  end.
Proof.
  unfold marker_next. destruct (validate_retention_component workspace_id) as [[]|e] eqn:Ew; cbn [mbind result_bind]; [|by left].
  destruct (canonical_manifest_generation active) as [g|e] eqn:Eg; cbn [mbind result_bind]; [|by right].
  set (rollback := previous ≫= _).
  assert (∀ r, rollback = Some r ↔ previous = Some r ∧ project_id (rb_manifest r) = project_id active ∧
    ∃ g', canonical_manifest_generation (rb_manifest r) = Ok g' ∧ g' ≠ g) as Hr.
  { intros r. subst rollback. destruct previous as [r'|]; cbn; [|naive_solver].
    destruct (str_eqb (project_id (rb_manifest r')) (project_id active)) eqn:Ep; cbn.
    - apply str_eqb_eq in Ep. destruct (canonical_manifest_generation (rb_manifest r')) as [g'|e] eqn:Eg'.
      + destruct (str_eqb g' g) eqn:E; cbn.
        * apply str_eqb_eq in E as ->. split; [done|]. intros ([= <-] & _ & g2 & E2 & Hne). congruence.
        * assert (g' ≠ g) by (intros ->; by rewrite str_eqb_refl in E).
          split; [intros [= <-]; split_and!; [done..|by exists g']|by intros ([= <-] & _)].
      + split; [done|]. intros ([= <-] & _ & g2 & E2 & _). congruence.
    - split; [done|]. intros ([= <-] & Hp & _). by rewrite Hp, str_eqb_refl in Ep. }
  set (marker := mkMarker _ _ _ _ _ _).
  assert (validate_marker marker = Ok tt) as Hv.
  { unfold validate_marker, marker. cbn. rewrite Ew. cbn. rewrite str_eqb_refl. cbn. rewrite Eg. cbn.
    destruct rollback as [r|]; [|done]. destruct (proj1 (Hr r) eq_refl) as (_ & Hp & g' & Hg' & Hne).
    rewrite Hp, str_eqb_refl. cbn. rewrite Hg'. cbn. destruct (str_eqb g' g) eqn:E; [|done].
    by apply str_eqb_eq in E. }
  rewrite Hv. cbn. split; [done|]. split_and!; [done..|]. intros r. rewrite Hr. naive_solver.
Qed.

(** A project with an active generation and an old one. *)
Module RetentionSample.
Definition project : str := lit "p".
Definition current : str := lit "p-0123456789abcdef".
Definition old : str := lit "p-fedcba9876543210".
Definition manifest : RetrievalIndexManifest :=
  mkRetrievalIndexManifest project (lit "v") (lit "codestory_p_0123456789abcdef") None 0 None [] None None None None
    (Some current) None None None None None None None None None None.
Definition missing : IoError := mkIoError (lit "NotFound") (lit "no such file").
Definition with_bytes (name : str) (bytes : N) : FsItem :=
  Item name (Ok KDir) (Ok (NDir (Ok [Item (lit "data") (Ok KFile) (Ok (NFile bytes))]))).
Definition layout : SidecarLayout :=
  mkLayout (lit "/side/lexical") (lit "/side/semantic") (lit "/side/scip") (lit "/side/state.json").
Definition lookups : list (str * FsNode) :=
  [(lit "/cache/p/codestory.db", NFile 1); (lit "/side/lexical", NDir (Ok []));
   (lit "/side/lexical/shards", NDir (Ok [with_bytes current 10; with_bytes old 20]));
   (lit "/side/semantic", NDir (Ok []));
   (lit "/side/semantic/collections", NDir (Ok [with_bytes (lit "codestory_p_fedcba9876543210") 5]))].
Definition io : RetentionIo := {|
  dir_lookup path := ok_or (hm_get lookups path) missing;
  path_exists path := str_eqb path (lit "/cache");
  read_dir path := Ok [Item (lit "p") (Ok KDir) (Ok (NDir (Ok [])))];
  read_marker_json path := Err (lit "no marker");
  list_retrieval_index_publications path :=
    if str_eqb path (lit "/cache/p/codestory.db") then Ok [(manifest, None)] else Err (lit "no store") |}.
Definition remover : GenerationRemover nat := {|
  remove_generation_dir path s := (Ok tt, Datatypes.S s);
  remove_vector_generation collection s := (Ok true, Datatypes.S s) |}.
#[export] Existing Instances io.
Definition protection : RetentionProtectionScan :=
  scan_retention_protection (lit "/cache") (Some (lit "/cache/p/codestory.db")) (state_file layout).
Definition requests : list RemovalRequest :=
  [RequestVector (lit "codestory_p_fedcba9876543210"); RequestDir (lit "/side/lexical/shards/p-fedcba9876543210")].
End RetentionSample.
Import RetentionSample.

Lemma retention_keeps_protected_witness : ∃ plan,
  plan_generation_retention layout project protection = Some plan ∧ rp_reclaimable_bytes plan = 25 ∧
  (apply_generation_retention (H := logged remover) plan (0%nat, [])).2.2 = requests ∧ rp_errors plan = [].
Proof.
  eexists. split; [vm_compute; reflexivity|]. split; [reflexivity|]. split; [reflexivity|].
  refine (proj1 (proj1 (retention_keeps_protected remover (lit "/cache") (Some (lit "/cache/p/codestory.db"))
    layout project _ 0%nat _) _)); [vm_compute; reflexivity|discriminate].
Defined.
Lemma retention_accounting_witness : ∃ plan,
  plan_generation_retention_with_unrooted_state layout project protection Reclaimable = Some plan ∧
  let report := (apply_generation_retention (H := remover) plan 0%nat).1 in
  ar_removed_bytes report + ar_remaining_reclaimable_bytes report = 25 ∧
  ar_remaining_reclaimable_bytes report = 0.
Proof.
  eexists. split; [vm_compute; reflexivity|]. cbv zeta.
  match goal with |- context [apply_generation_retention ?p] =>
    destruct (retention_accounting remover layout project protection Reclaimable p 0%nat) as (H1 & _ & _ & H2);
      [vm_compute; reflexivity|] end.
  split; [exact H1|]. apply (proj2 (H2 eq_refl)). reflexivity.
Defined.
