(* ===== verification/Promotion.v ===== *)
(** * Promotion of a staged core database and its recovery

    codestory-store/src/storage_impl/mod.rs: a refresh builds the new core database in a
    staged file; [promote_staged_snapshot] copies it over the live one between a prepared and
    a committed journal, and [recover_interrupted_promotion] runs before every open.  What a
    database file holds is read through the class [PromotionDatabase].  Every operation on the
    disk takes one outcome of a script: it succeeds, fails before or after its effect, or the
    process dies there.  SQLite's backup into a database is one transaction; into a file that
    did not exist it can leave the empty database. *)
From S2P Require Import Prelude RustStr StrOps WorkspacePaths.

(** ** Identities *)
Module Mode.
Inductive IndexPublicationMode : Set := Full | Incremental | SemanticProjection.
End Mode.
Abbreviation IndexPublicationMode := Mode.IndexPublicationMode.
#[export] Instance IndexPublicationMode_eq_dec : EqDecision IndexPublicationMode.
Proof. solve_decision. Defined.
Definition mode_db_value (m : IndexPublicationMode) : str :=
  match m with
  | Mode.Full => lit "full"
  | Mode.Incremental => lit "incremental"
  | Mode.SemanticProjection => lit "semantic_projection"
  end.
Definition mode_from_db (value : str) : result str IndexPublicationMode :=
  if str_eqb value (lit "full") then Ok Mode.Full
  else if str_eqb value (lit "incremental") then Ok Mode.Incremental
  else if str_eqb value (lit "semantic_projection") then Ok Mode.SemanticProjection
  else Err (lit "Unsupported index publication mode: " ++ value).

Record IndexPublicationRecord : Type := mkPublication {
  ip_generation : Z;
  ip_generation_id : str;
  ip_run_id : str;
  ip_mode : IndexPublicationMode;
  ip_published_at_epoch_ms : Z;
}.
#[export] Instance IndexPublicationRecord_eq_dec : EqDecision IndexPublicationRecord.
Proof. solve_decision. Defined.
(** The row of table [index_publication]. *)
Record IndexPublicationRow : Type := mkPublicationRow {
  row_generation : Z;
  row_generation_id : str;
  row_run_id : str;
  row_mode : str;
  row_published_at_epoch_ms : Z;
}.
Definition is_blank (s : str) : bool := bool_decide (trim s = []).
Definition index_publication_record_from_values (r : IndexPublicationRow)
  : result str IndexPublicationRecord :=
  if row_generation r <? 0
  then Err (lit "Invalid index publication generation: " ++ show_int (row_generation r))
  else if (row_generation r =? 0) || is_blank (row_generation_id r) || is_blank (row_run_id r)
          || (row_published_at_epoch_ms r <? 0)
  then Err (lit "Index publication identity contains an empty or zero field")
  else
    mode ← mode_from_db (row_mode r);
    Ok (mkPublication (row_generation r) (row_generation_id r) (row_run_id r) mode
          (row_published_at_epoch_ms r)).

Record SourcePolicyExclusionRollbackIdentity : Type := mkPolicyIdentity {
  sp_project_id : str;
  sp_workspace_id : str;
  sp_core_generation_id : str;
  sp_core_run_id : str;
  sp_core_published_at_epoch_ms : Z;
  sp_exclusion_count : Z;
  sp_exclusion_digest : str;
  sp_policy_version : str;
  sp_byte_cap : Z;
  sp_structural_unit_cap : Z;
}.
#[export] Instance SourcePolicyIdentity_eq_dec : EqDecision SourcePolicyExclusionRollbackIdentity.
Proof. solve_decision. Defined.
Record StructuralTextUnitRollbackIdentity : Type := mkStructuralIdentity {
  su_core_generation_id : str;
  su_core_run_id : str;
  su_core_published_at_epoch_ms : Z;
  su_unit_count : Z;
  su_unit_digest : str;
  su_projection_count : Z;
  su_projection_digest : str;
  su_descriptor_version : Z;
  su_migration_state : str;
}.
#[export] Instance StructuralTextIdentity_eq_dec : EqDecision StructuralTextUnitRollbackIdentity.
Proof. solve_decision. Defined.

Record PromotionJournal : Type := mkJournal {
  pj_version : Z;
  pj_previous : option IndexPublicationRecord;
  pj_candidate : IndexPublicationRecord;
  pj_previous_source_policy : option SourcePolicyExclusionRollbackIdentity;
  pj_candidate_source_policy : option SourcePolicyExclusionRollbackIdentity;
  pj_previous_structural_text : option StructuralTextUnitRollbackIdentity;
  pj_candidate_structural_text : option StructuralTextUnitRollbackIdentity;
}.

(** ** Versions *)
Definition SCHEMA_VERSION : Z := 30.
Definition INCOMPLETE_INCREMENTAL_SCHEMA_VERSION : Z := 0x43530001.
Definition LEGACY_PROMOTION_JOURNAL_VERSION : Z := 1.
Definition SOURCE_POLICY_PROMOTION_JOURNAL_VERSION : Z := 2.
Definition STRUCTURAL_TEXT_PROMOTION_JOURNAL_VERSION : Z := 3.
Definition STRUCTURAL_POLICY_PROMOTION_JOURNAL_VERSION : Z := 4.
Definition PROMOTION_JOURNAL_VERSION : Z := 5.
Definition LEGACY_PROMOTION_MIN_SCHEMA_VERSION : Z := 21.
Definition SOURCE_POLICY_PROMOTION_MIN_SCHEMA_VERSION : Z := 27.
Definition STRUCTURAL_TEXT_PROMOTION_MIN_SCHEMA_VERSION : Z := 28.
Definition STRUCTURAL_POLICY_PROMOTION_MIN_SCHEMA_VERSION : Z := 29.
Definition SEMANTIC_PROJECTION_PROMOTION_MIN_SCHEMA_VERSION : Z := 30.

Inductive RecoveryDatabaseContract : Type := CurrentPromotion | Journal (version : Z) | LegacyBackup.
Definition between (low high n : Z) : bool := (low <=? n) && (n <=? high).
Definition supports_complete_schema (c : RecoveryDatabaseContract) (schema_version : Z) : bool :=
  match c with
  | CurrentPromotion => between STRUCTURAL_POLICY_PROMOTION_MIN_SCHEMA_VERSION SCHEMA_VERSION schema_version
  | Journal v =>
      if v =? LEGACY_PROMOTION_JOURNAL_VERSION
      then between LEGACY_PROMOTION_MIN_SCHEMA_VERSION SOURCE_POLICY_PROMOTION_MIN_SCHEMA_VERSION schema_version
      else if v =? SOURCE_POLICY_PROMOTION_JOURNAL_VERSION
      then schema_version =? SOURCE_POLICY_PROMOTION_MIN_SCHEMA_VERSION
      else if v =? STRUCTURAL_TEXT_PROMOTION_JOURNAL_VERSION
      then schema_version =? STRUCTURAL_TEXT_PROMOTION_MIN_SCHEMA_VERSION
      else if v =? STRUCTURAL_POLICY_PROMOTION_JOURNAL_VERSION
      then schema_version =? STRUCTURAL_POLICY_PROMOTION_MIN_SCHEMA_VERSION
      else if v =? PROMOTION_JOURNAL_VERSION
      then between STRUCTURAL_POLICY_PROMOTION_MIN_SCHEMA_VERSION
             SEMANTIC_PROJECTION_PROMOTION_MIN_SCHEMA_VERSION schema_version
      else false
  | LegacyBackup => between LEGACY_PROMOTION_MIN_SCHEMA_VERSION SCHEMA_VERSION schema_version
  end.

(** ** Database files

    What SQL reads in a database file: the answer of [quick_check], the schema version, the
    row of the publication and the mark of an unfinished run ([None] without the table), and
    the identities of the two auxiliary publications for a core publication. *)
Class PromotionDatabase (D : Type) : Type := {
  db_quick_check : D → result str str;
  db_user_version : D → Z;
  db_publication_row : D → option (option IndexPublicationRow);
  db_marker : D → option bool;
  db_source_policy : D → IndexPublicationRecord →
    result str (option SourcePolicyExclusionRollbackIdentity);
  db_structural_text : D → IndexPublicationRecord →
    result str (option StructuralTextUnitRollbackIdentity);
  db_logical_bytes : D → result str Z;
  db_empty : D;
  db_empty_sound : db_quick_check db_empty = Ok (lit "ok");
  db_empty_version : db_user_version db_empty = 0;
}.

Section Database.
Context {D : Type} `{PromotionDatabase D}.

Definition read_index_publication (x : D) : result str (option IndexPublicationRecord) :=
  match db_publication_row x with
  | None | Some None => Ok None
  | Some (Some row) => Some <$> index_publication_record_from_values row
  end.
Definition read_complete_index_publication (x : D) : result str (option IndexPublicationRecord) :=
  match db_publication_row x, db_marker x with
  | None, _ => Err (lit "no such table: index_publication")
  | _, None => Err (lit "no such table: incomplete_index_run")
  | Some None, Some _ | _, Some true => Ok None
  | Some (Some row), Some false => Some <$> index_publication_record_from_values row
  end.
Definition has_incomplete_incremental_marker (x : D) : bool := default false (db_marker x).

Definition inspect_promotion_database (path : str) (file : option D) : result str (option (D * Z)) :=
  match file with
  | None => Ok None
  | Some x =>
      check ← db_quick_check x;
      if negb (str_eqb check (lit "ok"))
      then Err (lit "SQLite promotion artifact " ++ path ++ lit " failed quick_check: " ++ check)
      else Ok (Some (x, Z.max (db_user_version x) 0))
  end.
Definition read_complete_promotion_database_identity (path : str) (file : option D)
  : result str (option IndexPublicationRecord) :=
  inspected ← inspect_promotion_database path file;
  match inspected with
  | None => Ok None
  | Some (x, schema_version) =>
      if schema_version =? 0 then Ok None
      else if negb (schema_version =? SCHEMA_VERSION)
      then Err (lit "SQLite promotion artifact " ++ path ++ lit " has schema version "
                ++ show_uint schema_version ++ lit ", expected " ++ show_uint SCHEMA_VERSION)
      else read_complete_index_publication x
  end.
Definition read_recovery_database_identity (path : str) (file : option D) (contract : RecoveryDatabaseContract)
  : result str (option IndexPublicationRecord) :=
  inspected ← inspect_promotion_database path file;
  match inspected with
  | None => Ok None
  | Some (x, schema_version) =>
      if schema_version =? 0 then Ok None
      else if schema_version =? INCOMPLETE_INCREMENTAL_SCHEMA_VERSION
      then
        if has_incomplete_incremental_marker x then read_index_publication x
        else Err (lit "SQLite recovery artifact " ++ path
                  ++ lit " uses the incomplete schema sentinel without its marker")
      else if supports_complete_schema contract schema_version then read_complete_index_publication x
      else Err (lit "SQLite recovery artifact " ++ path ++ lit " has unsupported schema version "
                ++ show_uint schema_version)
  end.
Definition require_identity (path role : str) (r : result str (option IndexPublicationRecord))
  : result str IndexPublicationRecord :=
  identity ← r;
  ok_or identity (role ++ lit " " ++ path ++ lit " has no complete publication identity").

(** The auxiliary identities at a path; a missing file has none. *)
Definition read_source_policy_exclusion_rollback_identity (file : option D) (p : IndexPublicationRecord) :=
  match file with None => Ok None | Some x => db_source_policy x p end.
Definition read_structural_text_unit_rollback_identity (file : option D) (p : IndexPublicationRecord) :=
  match file with None => Ok None | Some x => db_structural_text x p end.

Definition require_recorded_source_policy_identity (path : str) (file : option D) (p : IndexPublicationRecord)
    (expected : option SourcePolicyExclusionRollbackIdentity) (role : str) : result str unit :=
  match expected with
  | None => Ok tt
  | Some _ =>
      found ← read_source_policy_exclusion_rollback_identity file p;
      if bool_decide (found = expected) then Ok tt
      else Err (role ++ lit " source policy exclusion identity does not match " ++ path)
  end.
Definition require_candidate_source_policy_identity (path : str) (file : option D) (p : IndexPublicationRecord)
    (expected : option SourcePolicyExclusionRollbackIdentity) (role : str) : result str unit :=
  match expected with
  | None => Err (role ++ lit " source policy exclusion manifest is missing for " ++ path)
  | Some _ => require_recorded_source_policy_identity path file p expected role
  end.
Definition require_recorded_structural_text_identity (path : str) (file : option D) (p : IndexPublicationRecord)
    (expected : option StructuralTextUnitRollbackIdentity) (role : str) : result str unit :=
  match expected with
  | None => Ok tt
  | Some _ =>
      found ← read_structural_text_unit_rollback_identity file p;
      if bool_decide (found = expected) then Ok tt
      else Err (role ++ lit " structural text unit identity does not match " ++ path)
  end.
Definition require_candidate_structural_text_identity (path : str) (file : option D) (p : IndexPublicationRecord)
    (expected : option StructuralTextUnitRollbackIdentity) (role : str) : result str unit :=
  match expected with
  | None => Err (role ++ lit " structural text unit manifest is missing for " ++ path)
  | Some _ => require_recorded_structural_text_identity path file p expected role
  end.
Definition read_journal_less_recovery_auxiliary_identities (path : str) (file : option D)
    (p : IndexPublicationRecord) (schema_version : Z) (role : str)
  : result str (option SourcePolicyExclusionRollbackIdentity * option StructuralTextUnitRollbackIdentity) :=
  source_policy ← (if SOURCE_POLICY_PROMOTION_MIN_SCHEMA_VERSION <=? schema_version
                   then read_source_policy_exclusion_rollback_identity file p else Ok None);
  if (schema_version =? SCHEMA_VERSION) && negb (bool_decide (is_Some source_policy))
  then Err (lit "Current-schema " ++ role ++ lit " " ++ path
            ++ lit " has no complete source policy exclusion manifest")
  else if schema_version =? SCHEMA_VERSION then
    structural_text ← read_structural_text_unit_rollback_identity file p;
    if bool_decide (is_Some structural_text) then Ok (source_policy, structural_text)
    else Err (lit "Current-schema " ++ role ++ lit " " ++ path
              ++ lit " has no complete structural text unit manifest")
  else Ok (source_policy, None).
End Database.

(** ** The disk and its operations *)
(** A journal file is whole or, when its writer died, cut short. *)
Inductive JournalFile : Type := Torn | Whole (journal : PromotionJournal).
Record Disk (D : Type) : Type := mkDisk {
  live : option D;
  backup : option D;
  staged : option D;
  prepared : option JournalFile;
  committed : option JournalFile;
}.
Arguments mkDisk {D}.
Arguments live {D}.
Arguments backup {D}.
Arguments staged {D}.
Arguments prepared {D}.
Arguments committed {D}.
Definition set_live {D} (x : option D) (d : Disk D) : Disk D :=
  mkDisk x (backup d) (staged d) (prepared d) (committed d).
Definition set_backup {D} (x : option D) (d : Disk D) : Disk D :=
  mkDisk (live d) x (staged d) (prepared d) (committed d).
Definition set_staged {D} (x : option D) (d : Disk D) : Disk D :=
  mkDisk (live d) (backup d) x (prepared d) (committed d).
Definition set_prepared {D} (x : option JournalFile) (d : Disk D) : Disk D :=
  mkDisk (live d) (backup d) (staged d) x (committed d).
Definition set_committed {D} (x : option JournalFile) (d : Disk D) : Disk D :=
  mkDisk (live d) (backup d) (staged d) (prepared d) x.

(** What happens to one operation: it succeeds; it fails without effect, after its effect or
    half-way; the process dies before, after or in the middle of it. *)
Inductive Outcome : Type :=
| Done | Fail (e : str) | FailDone (e : str) | FailTorn (e : str)
| Crash | CrashDone | CrashTorn.
Inductive Answer (A : Type) : Type := Returned (a : A) | Failed (e : str) | Crashed.
Arguments Returned {A} a.
Arguments Failed {A} e.
Arguments Crashed {A}.
(** A program on the disk; an empty script lets every further operation succeed. *)
Definition Program (D A : Type) : Type := Disk D → list Outcome → Answer A * Disk D * list Outcome.
Definition next_outcome (script : list Outcome) : Outcome * list Outcome :=
  match script with [] => (Done, []) | o :: script => (o, script) end.

Section Operations.
Context {D : Type}.
Definition give {A} (a : A) : Program D A := λ d s, (Returned a, d, s).
Definition raise {A} (e : str) : Program D A := λ d s, (Failed e, d, s).
Definition andThen {A B} (m : Program D A) (f : A → Program D B) : Program D B := λ d s,
  match m d s with
  | (Returned a, d, s) => f a d s
  | (Failed e, d, s) => (Failed e, d, s)
  | (Crashed, d, s) => (Crashed, d, s)
  end.
(** The result as a value; a dead process is not caught. *)
Definition attempt {A} (m : Program D A) : Program D (result str A) := λ d s,
  match m d s with
  | (Returned a, d, s) => (Returned (Ok a), d, s)
  | (Failed e, d, s) => (Returned (Err e), d, s)
  | (Crashed, d, s) => (Crashed, d, s)
  end.
Definition lift {A} (r : result str A) : Program D A :=
  match r with Ok a => give a | Err e => raise e end.
Definition read_op {A} (f : Disk D → result str A) : Program D A := λ d s,
  let '(o, s) := next_outcome s in
  match o with
  | Done => lift (f d) d s
  | Fail e | FailDone e | FailTorn e => (Failed e, d, s)
  | Crash | CrashDone | CrashTorn => (Crashed, d, s)
  end.
Definition write_op (torn effect : Disk D → Disk D) : Program D unit := λ d s,
  let '(o, s) := next_outcome s in
  match o with
  | Done => (Returned tt, effect d, s)
  | Fail e => (Failed e, d, s)
  | FailDone e => (Failed e, effect d, s)
  | FailTorn e => (Failed e, torn d, s)
  | Crash => (Crashed, d, s)
  | CrashDone => (Crashed, effect d, s)
  | CrashTorn => (Crashed, torn d, s)
  end.
(** Syncing a file or its directory, setting a pragma; taking the promotion lock. *)
Definition sync : Program D unit := write_op id id.
Definition acquire_lock : Program D unit := write_op id id.
End Operations.
Notation "x <- m ;; k" := (andThen m (λ x, k)) (at level 100, m at next level, right associativity) : rust_scope.
Notation "m ;; k" := (andThen m (λ _, k)) (at level 100, right associativity) : rust_scope.

Section Recovery.
Context {D : Type} `{PromotionDatabase D} (live_path staged_path : str).
Local Open Scope rust_scope.

Definition backup_path : str := with_extension live_path (lit "sqlite.backup").
Definition prepared_path : str := live_path ++ lit ".promotion.prepared.json".
Definition committed_path : str := live_path ++ lit ".promotion.committed.json".

Definition exists_at {A} (file : Disk D → option A) : Program D bool :=
  λ d s, (Returned (bool_decide (is_Some (file d))), d, s).
Definition promotion_artifacts_exist (d : Disk D) : bool :=
  bool_decide (is_Some (backup d)) || bool_decide (is_Some (prepared d)) || bool_decide (is_Some (committed d)).

(** [restore_promotion_database]: opening creates the file; the copy is one transaction. *)
Definition open_live : Program D unit :=
  write_op id (λ d, set_live (Some (default db_empty (live d))) d).
Definition restore_from (source : Disk D → option D) : Program D unit :=
  write_op id (λ d, set_live (Some (default db_empty (source d))) d).
Definition restore_promotion_database (source : Disk D → option D) : Program D unit :=
  open_live;; restore_from source.

Definition remove_prepared : Program D unit := write_op id (set_prepared None);; sync.
Definition remove_committed : Program D unit := write_op id (set_committed None);; sync.
Definition cleanup_backup : Program D unit := write_op id (set_backup None).
Definition cleanup_live : Program D unit := write_op id (set_live None).
Definition cleanup_staged : Program D unit := write_op id (set_staged None).

Definition read_promotion_journal (path : str) (file : Disk D → option JournalFile) : Program D PromotionJournal :=
  read_op (λ d,
    match file d with
    | None => Err (lit "Failed to read " ++ path)
    | Some Torn => Err (lit "Failed to parse " ++ path)
    | Some (Whole journal) =>
        if between LEGACY_PROMOTION_JOURNAL_VERSION PROMOTION_JOURNAL_VERSION (pj_version journal) then Ok journal
        else Err (lit "Unsupported promotion journal " ++ path ++ lit ": version=" ++ show_uint (pj_version journal))
    end).

(** [write_promotion_journal] of the prepared journal. *)
Definition give_up_journal (error : str) : Program D unit :=
  _ <- attempt (write_op id (set_prepared None));; _ <- attempt sync;; raise error.
Definition or_give_up (m : Program D unit) : Program D unit :=
  r <- attempt m;; match r with Ok _ => give tt | Err error => give_up_journal error end.
Definition write_promotion_journal (journal : PromotionJournal) : Program D unit :=
  found <- exists_at prepared;;
  if found then raise (lit "Failed to create " ++ prepared_path)
  else
    write_op id (set_prepared (Some Torn));;
    or_give_up (write_op id (set_prepared (Some (Whole journal))));;
    or_give_up sync;;
    or_give_up sync.
Definition commit_promotion_journal : Program D unit :=
  found <- exists_at committed;;
  if found then raise (lit "Cannot commit promotion while prior journal " ++ committed_path ++ lit " remains")
  else write_op id (λ d, set_prepared None (set_committed (prepared d) d));; sync.

Definition cleanup_committed_promotion_artifacts : Program D unit := cleanup_backup;; remove_committed.

(** [RecoveryDatabaseContract] reads of the live and the backup file. *)
Definition live_identity (contract : RecoveryDatabaseContract) : Program D (option IndexPublicationRecord) :=
  read_op (λ d, read_recovery_database_identity live_path (live d) contract).
Definition require_at (path : str) (file : Disk D → option D) (role : str) (contract : RecoveryDatabaseContract)
  : Program D IndexPublicationRecord :=
  read_op (λ d, require_identity path role (read_recovery_database_identity path (file d) contract)).
(** The recorded auxiliary identities of a file. *)
Definition require_recorded (path : str) (file : Disk D → option D) (p : IndexPublicationRecord)
    (policy : option SourcePolicyExclusionRollbackIdentity)
    (structural : option StructuralTextUnitRollbackIdentity) (role : str) : Program D unit :=
  read_op (λ d, require_recorded_source_policy_identity path (file d) p policy role);;
  read_op (λ d, require_recorded_structural_text_identity path (file d) p structural role).

Definition check_prepared_live (j : PromotionJournal) (identity : option IndexPublicationRecord) : Program D unit :=
  match identity with
  | None => give tt
  | Some found =>
      if bool_decide (found = pj_candidate j) then
        (if bool_decide (is_Some (pj_candidate_source_policy j))
         then read_op (λ d, require_candidate_source_policy_identity live_path (live d) found
                              (pj_candidate_source_policy j) (lit "Prepared candidate"))
         else give tt);;
        (if bool_decide (is_Some (pj_candidate_structural_text j))
         then read_op (λ d, require_candidate_structural_text_identity live_path (live d) found
                              (pj_candidate_structural_text j) (lit "Prepared candidate"))
         else give tt)
      else if bool_decide (pj_previous j = Some found) then
        require_recorded live_path live found (pj_previous_source_policy j) (pj_previous_structural_text j)
          (lit "Prepared previous live database")
      else give tt
  end.
Definition rollback_prepared_promotion (j : PromotionJournal) : Program D unit :=
  if (SOURCE_POLICY_PROMOTION_JOURNAL_VERSION <=? pj_version j)
     && negb (bool_decide (is_Some (pj_candidate_source_policy j)))
  then raise (lit "Prepared promotion candidate source policy identity is missing for " ++ live_path)
  else if (STRUCTURAL_TEXT_PROMOTION_JOURNAL_VERSION <=? pj_version j)
          && negb (bool_decide (is_Some (pj_candidate_structural_text j)))
  then raise (lit "Prepared promotion candidate structural text identity is missing for " ++ live_path)
  else
    let contract := Journal (pj_version j) in
    found <- live_identity contract;;
    if match found with
       | Some identity => negb (bool_decide (identity = pj_candidate j))
                          && negb (bool_decide (Some identity = pj_previous j))
       | None => false
       end
    then raise (lit "Prepared promotion for " ++ live_path ++ lit " found an unrelated live publication")
    else
      check_prepared_live j found;;
      match pj_previous j with
      | Some previous =>
          kept <- require_at backup_path backup (lit "Prepared recovery backup") contract;;
          if negb (bool_decide (kept = previous))
          then raise (lit "Prepared promotion backup identity does not match " ++ live_path)
          else
            require_recorded backup_path backup kept (pj_previous_source_policy j) (pj_previous_structural_text j)
              (lit "Prepared recovery backup");;
            (if bool_decide (found = Some previous) then give tt else restore_promotion_database backup);;
            restored <- require_at live_path live (lit "Restored live database") contract;;
            if negb (bool_decide (restored = previous))
            then raise (lit "Prepared promotion rollback did not restore the recorded identity for " ++ live_path)
            else
              require_recorded live_path live restored (pj_previous_source_policy j) (pj_previous_structural_text j)
                (lit "Restored live database");;
              remove_prepared;;
              cleanup_backup
      | None =>
          has_backup <- exists_at backup;;
          if has_backup
          then raise (lit "Prepared first publication for " ++ live_path ++ lit " unexpectedly has a backup")
          else
            has_live <- exists_at live;;
            (if bool_decide (is_Some found) || has_live then cleanup_live else give tt);;
            remove_prepared
      end.

(** [inspect_promotion_database(..)?.ok_or_else(..)]: the schema version of an existing file. *)
Definition schema_version_at (path missing : str) (file : Disk D → option D) : Program D Z :=
  read_op (λ d,
    inspected ← inspect_promotion_database path (file d);
    match inspected with Some (_, version) => Ok version | None => Err missing end).
Definition auxiliary_at (path : str) (file : Disk D → option D) (p : IndexPublicationRecord) (version : Z) (role : str) :=
  read_op (λ d, read_journal_less_recovery_auxiliary_identities path (file d) p version role).
Definition recover_legacy_promotion_backup : Program D unit :=
  backup_version <- schema_version_at backup_path
    (lit "Legacy promotion backup " ++ backup_path ++ lit " is missing") backup;;
  backup_identity <- require_at backup_path backup (lit "Legacy promotion backup") LegacyBackup;;
  recorded <- auxiliary_at backup_path backup backup_identity backup_version (lit "legacy promotion backup");;
  found <- attempt (live_identity LegacyBackup);;
  restore_backup <-
    match found with
    | Ok None => give true
    | Err error => raise (lit "Cannot validate live database " ++ live_path
                          ++ lit " while a legacy promotion backup exists: " ++ error)
    | Ok (Some identity) =>
        if bool_decide (identity = backup_identity) then
          version <- schema_version_at live_path (lit "Live database " ++ live_path ++ lit " is missing") live;;
          aux <- attempt (auxiliary_at live_path live identity version (lit "live database"));;
          give (negb (bool_decide (aux = Ok recorded)))
        else if ip_generation backup_identity <? ip_generation identity then
          version <- schema_version_at live_path (lit "Live database " ++ live_path ++ lit " is missing") live;;
          aux <- attempt (auxiliary_at live_path live identity version (lit "newer live database"));;
          match aux with
          | Ok _ => give false
          | Err error => raise (lit "Cannot validate newer live database " ++ live_path
                                ++ lit " while a legacy promotion backup exists: " ++ error)
          end
        else raise (lit "Ambiguous legacy promotion backup for " ++ live_path
                    ++ lit "; refusing to overwrite the live database")
    end;;
  (if restore_backup : bool then
     restore_promotion_database backup;;
     restored <- require_at live_path live (lit "Recovered live database") LegacyBackup;;
     if negb (bool_decide (restored = backup_identity))
     then raise (lit "Legacy promotion recovery produced an unexpected identity for " ++ live_path)
     else require_recorded live_path live restored recorded.1 recorded.2 (lit "Recovered live database")
   else give tt);;
  cleanup_backup.

Definition check_committed (j : PromotionJournal) : Program D unit :=
  found <- require_at live_path live (lit "Committed live database") (Journal (pj_version j));;
  if negb (bool_decide (found = pj_candidate j))
  then raise (lit "Committed promotion identity does not match live database " ++ live_path)
  else
    (if SOURCE_POLICY_PROMOTION_JOURNAL_VERSION <=? pj_version j
     then read_op (λ d, require_candidate_source_policy_identity live_path (live d) found
                          (pj_candidate_source_policy j) (lit "Committed live database"))
     else read_op (λ d, require_recorded_source_policy_identity live_path (live d) found
                          (pj_candidate_source_policy j) (lit "Legacy committed live database")));;
    (if STRUCTURAL_TEXT_PROMOTION_JOURNAL_VERSION <=? pj_version j
     then read_op (λ d, require_candidate_structural_text_identity live_path (live d) found
                          (pj_candidate_structural_text j) (lit "Committed live database"))
     else read_op (λ d, require_recorded_structural_text_identity live_path (live d) found
                          (pj_candidate_structural_text j) (lit "Legacy committed live database"))).
Definition recover_interrupted_promotion_locked : Program D unit :=
  has_committed <- exists_at committed;;
  has_prepared <- exists_at prepared;;
  if has_committed && has_prepared
  then raise (lit "Promotion has both prepared and committed journals for " ++ live_path)
  else if has_committed then
    j <- read_promotion_journal committed_path committed;;
    check_committed j;;
    _ <- attempt cleanup_committed_promotion_artifacts;;
    give tt
  else if has_prepared then
    j <- read_promotion_journal prepared_path prepared;;
    rollback_prepared_promotion j
  else
    has_backup <- exists_at backup;;
    if has_backup then recover_legacy_promotion_backup else give tt.
(** [lock_free]: whether [try_acquire] gets the promotion lock. *)
Definition recover_interrupted_promotion (lock_free : bool) : Program D unit := λ d,
  if promotion_artifacts_exist d then
    (acquire_lock;; if lock_free then recover_interrupted_promotion_locked else give tt) d
  else give tt d.

(** ** Promotion *)
Definition complete_identity_at (path role : str) (file : Disk D → option D) : Program D IndexPublicationRecord :=
  read_op (λ d, require_identity path role (read_complete_promotion_database_identity path (file d))).
Definition logical_bytes_at (file : Disk D → option D) : Program D Z :=
  read_op (λ d, match file d with Some x => db_logical_bytes x | None => Err (lit "unable to open database file") end).
(** [let _ = rollback_prepared_promotion(..); return Err(error)] *)
Definition undo {A} (j : PromotionJournal) (error : str) : Program D A :=
  _ <- attempt (rollback_prepared_promotion j);; raise error.
Definition or_undo (j : PromotionJournal) (m : Program D unit) : Program D unit :=
  r <- attempt m;; match r with Ok _ => give tt | Err error => undo j error end.

Record CorePromotionStats : Type := mkPromotionStats {
  staged_logical_bytes : Z;
  previous_live_logical_bytes : option Z;
  rollback_backup_logical_bytes : option Z;
}.
Definition back_up_live (identity : IndexPublicationRecord)
    (policy : option SourcePolicyExclusionRollbackIdentity)
    (structural : option StructuralTextUnitRollbackIdentity) : Program D Z :=
  open_live;;
  write_op (set_backup (Some db_empty)) (λ d, set_backup (live d) d);;
  kept <- require_at backup_path backup (lit "Promotion backup") CurrentPromotion;;
  if negb (bool_decide (kept = identity))
  then raise (lit "Promotion backup identity does not match live database " ++ live_path)
  else
    require_recorded backup_path backup kept policy structural (lit "Promotion backup");;
    logical_bytes_at backup.
Definition install_candidate (j : PromotionJournal) : Program D unit :=
  open_live;;
  sync;;
  copied <- attempt (restore_from staged);;
  match copied with
  | Err error => undo j (lit "Failed to promote staged snapshot " ++ staged_path ++ lit " -> "
                         ++ live_path ++ lit ": " ++ error)
  | Ok _ =>
      published <- complete_identity_at live_path (lit "Promoted live database") live;;
      if negb (bool_decide (published = pj_candidate j))
      then undo j (lit "Promoted live database identity does not match staged candidate " ++ staged_path)
      else
        or_undo j (read_op (λ d, require_candidate_source_policy_identity live_path (live d) published
                                   (pj_candidate_source_policy j) (lit "Promoted live database")));;
        or_undo j (read_op (λ d, require_candidate_structural_text_identity live_path (live d) published
                                   (pj_candidate_structural_text j) (lit "Promoted live database")));;
        r <- attempt commit_promotion_journal;;
        match r with
        | Ok _ => give tt
        | Err error =>
            durable <- exists_at committed;;
            if durable then raise error else undo j error
        end
  end.
Definition refuse_artifacts : Program D unit := λ d,
  (if promotion_artifacts_exist d
   then raise (lit "Cannot start a new promotion while prior artifacts remain for " ++ live_path)
   else give tt) d.
Definition promote_staged_snapshot : Program D CorePromotionStats :=
  acquire_lock;;
  recover_interrupted_promotion_locked;;
  refuse_artifacts;;
  candidate <- complete_identity_at staged_path (lit "Staged promotion candidate") staged;;
  policy <- read_op (λ d, read_source_policy_exclusion_rollback_identity (staged d) candidate);;
  (if bool_decide (is_Some policy) then give tt
   else raise (lit "Staged promotion candidate " ++ staged_path
               ++ lit " has no complete source policy exclusion manifest"));;
  structural <- read_op (λ d, read_structural_text_unit_rollback_identity (staged d) candidate);;
  (if bool_decide (is_Some structural) then give tt
   else raise (lit "Staged promotion candidate " ++ staged_path
               ++ lit " has no complete structural text unit manifest"));;
  candidate_bytes <- logical_bytes_at staged;;
  previous <- live_identity CurrentPromotion;;
  previous_policy <- match previous with
                     | Some p => read_op (λ d, read_source_policy_exclusion_rollback_identity (live d) p)
                     | None => give None
                     end;;
  previous_structural <- match previous with
                         | Some p => read_op (λ d, read_structural_text_unit_rollback_identity (live d) p)
                         | None => give None
                         end;;
  cleanup_backup;;
  previous_bytes <- match previous with
                    | Some _ => n <- logical_bytes_at live;; give (Some n)
                    | None => give None
                    end;;
  backup_bytes <- match previous with
                  | Some p => n <- back_up_live p previous_policy previous_structural;; give (Some n)
                  | None => give None
                  end;;
  let journal := mkJournal PROMOTION_JOURNAL_VERSION previous candidate previous_policy policy
                   previous_structural structural in
  written <- attempt (write_promotion_journal journal);;
  match written with
  | Err error =>
      found <- exists_at prepared;;
      (if found : bool then give tt else _ <- attempt cleanup_backup;; give tt);;
      raise error
  | Ok _ =>
      install_candidate journal;;
      _ <- attempt cleanup_staged;;
      _ <- attempt cleanup_committed_promotion_artifacts;;
      give (mkPromotionStats candidate_bytes previous_bytes backup_bytes)
  end.
End Recovery.
