(* ===== verification/SidecarStore.v ===== *)
(** * Inputs of the sidecars in the core database

    codestory-store/src/storage_impl/mod.rs and schema.rs: the tables that a core publication
    hands to the retrieval sidecars.  Dense anchors and symbol documents are tables keyed by a
    node; anchors and policy exclusions are published by a manifest with a count and a digest,
    and a reader validates the manifest against the rows.  A table is the list of its rows, a
    transaction returns the new database only when every statement of it succeeds, and SHA-256
    is the function [sha256]. *)
From S2P Require Import Prelude RustStr Graph RetrievalData Sorting StrOps WorkspaceRefresh Encoding Promotion.

Module StoreError.
Inductive StoreError : Type :=
| Other (message : str)
| Enum (e : EnumConversionError)
| OutOfRange (column value : Z)
| Policies (found : list str) (expected : str)
| CheckFailed | ForeignKeyFailed | PrimaryKeyFailed | AlreadyAttached
| Sqlite (message : str).
End StoreError.
Abbreviation StoreError := StoreError.StoreError.
Import StoreError (CheckFailed, ForeignKeyFailed, PrimaryKeyFailed, AlreadyAttached, Sqlite).

(** ** Columns *)
(** [length(x) > 0] counts the characters before the first zero byte. *)
Definition sql_nonempty (s : str) : bool :=
  match s with [] => false | c :: _ => negb (Ascii.eqb c nul) end.
Definition require (b : bool) : result StoreError unit := if b then Ok tt else Err CheckFailed.
Definition get_int (low high column value : Z) : result StoreError Z :=
  if (low <=? value) && (value <=? high) then Ok value else Err (StoreError.OutOfRange column value).
Definition get_u32 : Z → Z → result StoreError Z := get_int 0 u32_max.
Definition get_i32 : Z → Z → result StoreError Z := get_int (- 2 ^ 31) (2 ^ 31 - 1).
Definition get_option {A B} (f : A → result StoreError B) (value : option A) : result StoreError (option B) :=
  match value with None => Ok None | Some value => Some <$> f value end.
Definition get_kind (value : Z) : result StoreError NodeKind :=
  match node_kind_try_from value with Ok kind => Ok kind | Err e => Err (StoreError.Enum e) end.
Definition as_i64 (n : Z) : Z := if n <=? i64_max then n else n - 2 ^ 64.
Definition clamp_i64_to_u32 (value : Z) : Z :=
  if value <=? 0 then 0 else if u32_max <? value then u32_max else value.

(** ** Tables keyed by a node *)
Section Table.
Context {R : Type} (key : R → Z).
(** INSERT .. ON CONFLICT DO UPDATE of all columns, or INSERT OR REPLACE. *)
Fixpoint put_row (row : R) (table : list R) : list R :=
  match table with
  | [] => [row]
  | x :: rest =>
      if key row <? key x then row :: table
      else if key row =? key x then row :: rest
      else x :: put_row row rest
  end.
Definition batch_after (table : list R) (after : option Z) (limit : nat) : list R :=
  take limit (List.filter (after_key key after) table).
Definition delete_where (f : R → bool) (table : list R) : list R := List.filter (λ row, negb (f row)) table.
Definition count_where (f : R → bool) (table : list R) : Z := len (List.filter f table).
End Table.
Definition member (ids : list Z) (id : Z) : bool := bool_decide (id ∈ ids).
(** The foreign keys of a row: its node and its file. *)
Definition references (nodes : list Z) (node_id : Z) (file_node_id : option Z) : bool :=
  member nodes node_id && match file_node_id with None => true | Some file => member nodes file end.

(** ** Rows *)
Record DenseAnchorInput : Type := mkAnchorInput {
  da_node_id : Z;
  da_file_node_id : option Z;
  da_kind : NodeKind;
  da_display_name : str;
  da_qualified_name : option str;
  da_file_path : option str;
  da_start_line : option Z;
  da_end_line : option Z;
  da_file_role : FileRole;
  da_source_provenance : str;
  da_text : str;
  da_document_hash : str;
  da_selection_reason : str;
  da_policy_version : str;
  da_source_identity : str;
  da_updated_at_epoch_ms : Z;
}.
Record DenseAnchorRow : Type := mkAnchorRow {
  ar_node_id : Z;
  ar_file_node_id : option Z;
  ar_kind : Z;
  ar_display_name : str;
  ar_qualified_name : option str;
  ar_file_path : option str;
  ar_start_line : option Z;
  ar_end_line : option Z;
  ar_file_role : str;
  ar_source_provenance : str;
  ar_document_text : str;
  ar_document_hash : str;
  ar_selection_reason : str;
  ar_policy_version : str;
  ar_source_identity : str;
  ar_updated_at_epoch_ms : Z;
}.
Definition anchor_row (input : DenseAnchorInput) : DenseAnchorRow :=
  mkAnchorRow (da_node_id input) (da_file_node_id input) (node_kind_as_i32 (da_kind input))
    (da_display_name input) (da_qualified_name input) (da_file_path input) (da_start_line input)
    (da_end_line input) (file_role_as_str (da_file_role input)) (da_source_provenance input)
    (da_text input) (da_document_hash input) (da_selection_reason input) (da_policy_version input)
    (da_source_identity input) (da_updated_at_epoch_ms input).
Definition anchor_from_row (r : DenseAnchorRow) : result StoreError DenseAnchorInput :=
  kind ← get_i32 2 (ar_kind r);
  kind ← get_kind kind;
  start_line ← get_option (get_u32 6) (ar_start_line r);
  end_line ← get_option (get_u32 7) (ar_end_line r);
  Ok (mkAnchorInput (ar_node_id r) (ar_file_node_id r) kind (ar_display_name r) (ar_qualified_name r)
        (ar_file_path r) start_line end_line (from_db_value (ar_file_role r)) (ar_source_provenance r)
        (ar_document_text r) (ar_document_hash r) (ar_selection_reason r) (ar_policy_version r)
        (ar_source_identity r) (ar_updated_at_epoch_ms r)).
Definition rebind_source (source : str) (r : DenseAnchorRow) : DenseAnchorRow :=
  mkAnchorRow (ar_node_id r) (ar_file_node_id r) (ar_kind r) (ar_display_name r) (ar_qualified_name r)
    (ar_file_path r) (ar_start_line r) (ar_end_line r) (ar_file_role r) (ar_source_provenance r)
    (ar_document_text r) (ar_document_hash r) (ar_selection_reason r) (ar_policy_version r) source
    (ar_updated_at_epoch_ms r).
Record DenseAnchorInputReuseMetadata : Type := mkReuseMetadata {
  rm_node_id : Z;
  rm_document_hash : str;
  rm_selection_reason : str;
  rm_policy_version : str;
  rm_source_identity : str;
}.

Record SymbolSearchDoc : Type := mkSymbolDoc {
  sd_node_id : Z;
  sd_file_node_id : option Z;
  sd_kind : NodeKind;
  sd_display_name : str;
  sd_qualified_name : option str;
  sd_file_path : option str;
  sd_start_line : option Z;
  sd_doc_text : str;
  sd_doc_version : Z;
  sd_doc_hash : str;
  sd_policy_version : str;
  sd_source_provenance : str;
  sd_updated_at_epoch_ms : Z;
}.
(** A row of [symbol_search_doc]: the kind and the version are integers of any width. *)
Record SymbolDocRow : Type := mkDocRow {
  dr_node_id : Z;
  dr_file_node_id : option Z;
  dr_kind : Z;
  dr_display_name : str;
  dr_qualified_name : option str;
  dr_file_path : option str;
  dr_start_line : option Z;
  dr_doc_text : str;
  dr_doc_version : Z;
  dr_doc_hash : str;
  dr_policy_version : str;
  dr_source_provenance : str;
  dr_updated_at_epoch_ms : Z;
}.
Definition doc_row (doc : SymbolSearchDoc) : SymbolDocRow :=
  mkDocRow (sd_node_id doc) (sd_file_node_id doc) (node_kind_as_i32 (sd_kind doc)) (sd_display_name doc)
    (sd_qualified_name doc) (sd_file_path doc) (sd_start_line doc) (sd_doc_text doc) (sd_doc_version doc)
    (sd_doc_hash doc) (sd_policy_version doc) (sd_source_provenance doc) (sd_updated_at_epoch_ms doc).
Definition doc_from_row (r : SymbolDocRow) : result StoreError SymbolSearchDoc :=
  kind ← get_i32 2 (dr_kind r);
  kind ← get_kind kind;
  start_line ← get_option (get_u32 6) (dr_start_line r);
  Ok (mkSymbolDoc (dr_node_id r) (dr_file_node_id r) kind (dr_display_name r) (dr_qualified_name r)
        (dr_file_path r) start_line (dr_doc_text r) (Z.min (Z.max (dr_doc_version r) 0) u32_max)
        (dr_doc_hash r) (dr_policy_version r) (dr_source_provenance r) (dr_updated_at_epoch_ms r)).

Record SourcePolicyExclusionRecord : Type := mkExclusion {
  xr_normalized_path : str;
  xr_project_id : str;
  xr_workspace_id : str;
  xr_content_hash : str;
  xr_observed_size : Z;
  xr_observed_unit_count : Z;
  xr_policy_version : str;
  xr_byte_cap : Z;
  xr_structural_unit_cap : Z;
  xr_core_generation_id : str;
  xr_core_run_id : str;
}.

(** ** Manifests *)
Record DenseAnchorPublicationManifest : Type := mkAnchorManifest {
  am_schema_version : Z;
  am_complete : bool;
  am_core_generation_id : str;
  am_core_run_id : str;
  am_anchor_count : Z;
  am_anchor_digest : str;
  am_policy_version : str;
  am_migration_state : str;
  am_published_at_epoch_ms : Z;
}.
(** The row [id = 1] of [dense_anchor_publication]; the table checks [complete = 1]. *)
Record AnchorPublicationRow : Type := mkAnchorPublication {
  ap_schema_version : Z;
  ap_complete : Z;
  ap_core_generation_id : str;
  ap_core_run_id : str;
  ap_anchor_count : Z;
  ap_anchor_digest : str;
  ap_policy_version : str;
  ap_migration_state : str;
  ap_published_at_epoch_ms : Z;
}.
Record SourcePolicyExclusionPolicyIdentity : Type := mkPolicyId {
  pi_policy_version : str;
  pi_byte_cap : Z;
  pi_structural_unit_cap : Z;
}.
Record SourcePolicyExclusionManifest : Type := mkExclusionManifest {
  xm_schema_version : Z;
  xm_complete : bool;
  xm_project_id : str;
  xm_workspace_id : str;
  xm_core_generation_id : str;
  xm_core_run_id : str;
  xm_exclusion_count : Z;
  xm_exclusion_digest : str;
  xm_policy_version : str;
  xm_byte_cap : Z;
  xm_structural_unit_cap : Z;
  xm_published_at_epoch_ms : Z;
}.
Record ExclusionPublicationRow : Type := mkExclusionPublication {
  xp_schema_version : Z;
  xp_complete : Z;
  xp_project_id : str;
  xp_workspace_id : str;
  xp_core_generation_id : str;
  xp_core_run_id : str;
  xp_exclusion_count : Z;
  xp_exclusion_digest : str;
  xp_policy_version : str;
  xp_byte_cap : Z;
  xp_structural_unit_cap : Z;
  xp_published_at_epoch_ms : Z;
}.

(** ** The database behind a connection *)
Record Core : Type := mkCore {
  co_nodes : list Z;
  co_anchors : list DenseAnchorRow;
  co_anchor_publication : option AnchorPublicationRow;
  co_docs : list SymbolDocRow;
  co_exclusions : list SourcePolicyExclusionRecord;
  co_exclusion_publication : option ExclusionPublicationRow;
  co_anchor_source_attached : bool;
  co_snapshot_attached : bool;
}.
Definition with_anchors (anchors : list DenseAnchorRow) (s : Core) : Core :=
  mkCore (co_nodes s) anchors (co_anchor_publication s) (co_docs s) (co_exclusions s)
    (co_exclusion_publication s) (co_anchor_source_attached s) (co_snapshot_attached s).
Definition with_anchor_publication (row : option AnchorPublicationRow) (s : Core) : Core :=
  mkCore (co_nodes s) (co_anchors s) row (co_docs s) (co_exclusions s) (co_exclusion_publication s)
    (co_anchor_source_attached s) (co_snapshot_attached s).
Definition with_docs (docs : list SymbolDocRow) (s : Core) : Core :=
  mkCore (co_nodes s) (co_anchors s) (co_anchor_publication s) docs (co_exclusions s)
    (co_exclusion_publication s) (co_anchor_source_attached s) (co_snapshot_attached s).
Definition with_exclusions (rows : list SourcePolicyExclusionRecord) (row : option ExclusionPublicationRow)
    (s : Core) : Core :=
  mkCore (co_nodes s) (co_anchors s) (co_anchor_publication s) (co_docs s) rows row
    (co_anchor_source_attached s) (co_snapshot_attached s).
Definition with_attached (attached : bool) (s : Core) : Core :=
  mkCore (co_nodes s) (co_anchors s) (co_anchor_publication s) (co_docs s) (co_exclusions s)
    (co_exclusion_publication s) attached (co_snapshot_attached s).
Definition with_snapshot_attached (attached : bool) (s : Core) : Core :=
  mkCore (co_nodes s) (co_anchors s) (co_anchor_publication s) (co_docs s) (co_exclusions s)
    (co_exclusion_publication s) (co_anchor_source_attached s) attached.
(** DELETE FROM dense_anchor_publication. *)
Definition drop_anchor_publication : Core → Core := with_anchor_publication None.

(** ** Dense anchors *)
Definition DENSE_ANCHOR_PUBLICATION_SCHEMA_VERSION : Z := 1.
Definition DENSE_ANCHOR_MIGRATION_STATE_NATIVE : str := lit "native_v1".
Definition DENSE_ANCHOR_DIGEST_DOMAIN : str := lit "codestory-dense-anchor-publication-v1" ++ [nul].
Definition anchor_source_identity (p : IndexPublicationRecord) : str :=
  lit "core:" ++ ip_generation_id p ++ lit ":" ++ ip_run_id p.

(** The constraints of a row: the checks of its columns, then its foreign keys. *)
Definition anchor_constraints (nodes : list Z) (r : DenseAnchorRow) : result StoreError unit :=
  _ ← require (sql_nonempty (ar_document_hash r) && sql_nonempty (ar_source_identity r));
  if references nodes (ar_node_id r) (ar_file_node_id r) then Ok tt else Err ForeignKeyFailed.
Definition put_anchor (nodes : list Z) (table : list DenseAnchorRow) (r : DenseAnchorRow)
  : result StoreError (list DenseAnchorRow) :=
  _ ← anchor_constraints nodes r; Ok (put_row ar_node_id r table).
Definition upsert_dense_anchor_inputs_batch (inputs : list DenseAnchorInput) (s : Core)
  : result StoreError Core :=
  match inputs with
  | [] => Ok s
  | _ =>
      anchors ← try_fold (put_anchor (co_nodes s)) (co_anchors s) (anchor_row <$> inputs);
      Ok (drop_anchor_publication (with_anchors anchors s))
  end.
Fixpoint collect_rows {R A} (f : R → result StoreError A) (rows : list R) : result StoreError (list A) :=
  match rows with
  | [] => Ok []
  | row :: rows => a ← f row; l ← collect_rows f rows; Ok (a :: l)
  end.
Definition get_dense_anchor_inputs_batch_after (s : Core) (after : option Z) (limit : nat)
  : result StoreError (list DenseAnchorInput) :=
  collect_rows anchor_from_row (batch_after ar_node_id (co_anchors s) after limit).
Definition get_dense_anchor_input_reuse_metadata (s : Core) : list DenseAnchorInputReuseMetadata :=
  (λ r, mkReuseMetadata (ar_node_id r) (ar_document_hash r) (ar_selection_reason r) (ar_policy_version r)
          (ar_source_identity r)) <$> co_anchors s.

Definition clear_dense_anchor_inputs (s : Core) : Z * Core :=
  (len (co_anchors s), drop_anchor_publication (with_anchors [] s)).
Definition delete_anchors (f : DenseAnchorRow → bool) (s : Core) : Z * Core :=
  let removed := count_where f (co_anchors s) in
  let s := with_anchors (delete_where f (co_anchors s)) s in
  (removed, if 0 <? removed then drop_anchor_publication s else s).
Definition prune_dense_anchor_inputs_to_node_ids (keep_node_ids : list Z) (s : Core) : Z * Core :=
  match keep_node_ids with
  | [] => clear_dense_anchor_inputs s
  | _ => delete_anchors (λ r, negb (member keep_node_ids (ar_node_id r))) s
  end.
Definition in_files (file_node_ids : list Z) (file_node_id : option Z) : bool :=
  match file_node_id with Some file => member file_node_ids file | None => false end.
Definition delete_dense_anchor_inputs_for_files_except_node_ids (file_node_ids keep_node_ids : list Z)
    (s : Core) : Z * Core :=
  match file_node_ids with
  | [] => (0, s)
  | _ => delete_anchors (λ r, in_files file_node_ids (ar_file_node_id r)
                              && negb (member keep_node_ids (ar_node_id r))) s
  end.

(** What the transactions that rewrite nodes and files do to the anchors: a project rebased to
    another root ([rebase_path_bound_text_columns]), a file removed with the nodes related to it
    ([delete_file_projection]), component reports that are no longer kept
    ([prune_retrieval_artifacts_to_node_ids]; [reports] are the nodes named so). *)
Definition sql_replace (text pattern by_ : str) : str :=
  match pattern with [] => text | _ => replace text pattern by_ end.
Definition rebase_anchor (source_root target_root : str) (r : DenseAnchorRow) : DenseAnchorRow :=
  let rebase (text : str) : str := sql_replace text source_root target_root in
  mkAnchorRow (ar_node_id r) (ar_file_node_id r) (ar_kind r) (rebase (ar_display_name r))
    (rebase <$> ar_qualified_name r) (rebase <$> ar_file_path r) (ar_start_line r) (ar_end_line r)
    (ar_file_role r) (rebase (ar_source_provenance r)) (rebase (ar_document_text r)) (ar_document_hash r)
    (ar_selection_reason r) (ar_policy_version r) (ar_source_identity r) (ar_updated_at_epoch_ms r).
Definition rebase_dense_anchors (source_root target_root : str) (s : Core) : Core :=
  drop_anchor_publication (with_anchors (rebase_anchor source_root target_root <$> co_anchors s) s).
Definition remove_file_anchors (related_node_ids : list Z) (file_node_id : Z) (s : Core) : Core :=
  drop_anchor_publication
    (with_anchors (delete_where (λ r, member related_node_ids (ar_node_id r)
                                      || bool_decide (ar_file_node_id r = Some file_node_id)) (co_anchors s)) s).
Definition prune_artifact_anchors (reports keep_dense_node_ids : list Z) (s : Core) : Z * Core :=
  delete_anchors (λ r, member reports (ar_node_id r) && negb (member keep_dense_node_ids (ar_node_id r))) s.

(** The four statements of a copy and how each of them ends. *)
Record CopyIo : Type := mkCopyIo {
  io_attach : result StoreError unit;
  io_insert : result StoreError unit;
  io_delete : result StoreError unit;
  io_detach : result StoreError unit;
}.
Definition copied_rows (nodes : list Z) (source : list DenseAnchorRow) : list DenseAnchorRow :=
  List.filter (λ r, references nodes (ar_node_id r) (ar_file_node_id r)) source.
Definition insert_copied (source : list DenseAnchorRow) (s : Core) : Core :=
  with_anchors (foldl (λ table r, put_row ar_node_id r table) (co_anchors s) (copied_rows (co_nodes s) source)) s.
(** [source]: nothing at the path, or what opening it gives. *)
Definition copy_dense_anchor_inputs_from (source : option (result StoreError (list DenseAnchorRow)))
    (io : CopyIo) (s : Core) : result StoreError Z * Core :=
  match source with
  | None => (Ok 0, s)
  | Some (Err e) => (Err e, s)
  | Some (Ok source) =>
      if co_anchor_source_attached s then (Err AlreadyAttached, s)
      else
        match io_attach io with
        | Err e => (Err e, s)
        | Ok _ =>
            let detach (copy_result : result StoreError Z) (s : Core) :=
              let s := with_attached (negb (is_ok (io_detach io))) s in
              (copied ← copy_result; _ ← io_detach io; Ok copied, s) in
            match io_insert io with
            | Err e => detach (Err e) s
            | Ok _ =>
                let copied := len (copied_rows (co_nodes s) source) in
                let s := insert_copied source s in
                match io_delete io with
                | Err e => (Err e, with_attached true s)
                | Ok _ => detach (Ok copied) (drop_anchor_publication s)
                end
            end
        end
  end.

Section Digests.
Context (sha256 : str → str).

Definition show_option {A} (show : A → str) (value : option A) : str := default [] (show <$> value).
(** What the digest reads of a row: neither its source identity nor its time. *)
Definition anchor_parts (r : DenseAnchorRow) : list str :=
  [show_int (ar_node_id r); show_option show_int (ar_file_node_id r); show_int (ar_kind r);
   ar_display_name r; default [] (ar_qualified_name r); default [] (ar_file_path r);
   show_option show_int (ar_start_line r); show_option show_int (ar_end_line r); ar_file_role r;
   ar_source_provenance r; ar_document_text r; ar_document_hash r; ar_selection_reason r;
   ar_policy_version r].
Definition hash_anchor (hasher : str) (r : DenseAnchorRow) : str := update_frames hasher (anchor_parts r).
Definition anchor_message (rows : list DenseAnchorRow) : str :=
  foldl hash_anchor DENSE_ANCHOR_DIGEST_DOMAIN rows.
(** The count, the digest and the distinct policies of the anchors. *)
Definition dense_anchor_content_summary (rows : list DenseAnchorRow) : Z * str * list str :=
  (foldl (λ n _, saturating_add u64_max n 1) 0 rows, sha256 (anchor_message rows),
   remove_dups (ar_policy_version <$> rows)).
Definition other_policies (policy_version : str) (count : Z) (policies : list str) : bool :=
  existsb (λ policy, negb (str_eqb policy policy_version)) policies
  || ((0 <? count) && negb (length policies =? 1)%nat).

Definition anchor_publication_row (m : DenseAnchorPublicationManifest) : AnchorPublicationRow :=
  mkAnchorPublication (am_schema_version m) 1 (am_core_generation_id m) (am_core_run_id m)
    (Z.min (am_anchor_count m) i64_max) (am_anchor_digest m) (am_policy_version m) (am_migration_state m)
    (am_published_at_epoch_ms m).
Definition anchor_publication_checks (r : AnchorPublicationRow) : bool :=
  (ap_complete r =? 1) && sql_nonempty (ap_core_generation_id r) && sql_nonempty (ap_core_run_id r)
  && (0 <=? ap_anchor_count r) && (length (ap_anchor_digest r) =? 64)%nat
  && sql_nonempty (ap_policy_version r) && sql_nonempty (ap_migration_state r)
  && (0 <=? ap_published_at_epoch_ms r).
Definition get_dense_anchor_publication_manifest (s : Core) : option DenseAnchorPublicationManifest :=
  (λ r, mkAnchorManifest (Z.min (Z.max (ap_schema_version r) 0) u32_max) (ap_complete r =? 1)
          (ap_core_generation_id r) (ap_core_run_id r) (Z.max (ap_anchor_count r) 0) (ap_anchor_digest r)
          (ap_policy_version r) (ap_migration_state r) (ap_published_at_epoch_ms r))
  <$> co_anchor_publication s.
Definition publish_dense_anchor_generation (p : IndexPublicationRecord) (policy_version : str) (s : Core)
  : result StoreError (DenseAnchorPublicationManifest * Core) :=
  if is_blank (ip_generation_id p) || is_blank (ip_run_id p) || is_blank policy_version
  then Err (StoreError.Other (lit "dense anchor publication identity and policy must be non-empty"))
  else
    let s := with_anchors (rebind_source (anchor_source_identity p) <$> co_anchors s) s in
    let '(count, digest, policies) := dense_anchor_content_summary (co_anchors s) in
    if other_policies policy_version count policies
    then Err (StoreError.Policies policies policy_version)
    else
      let manifest := mkAnchorManifest DENSE_ANCHOR_PUBLICATION_SCHEMA_VERSION true (ip_generation_id p)
        (ip_run_id p) count digest policy_version DENSE_ANCHOR_MIGRATION_STATE_NATIVE
        (ip_published_at_epoch_ms p) in
      let row := anchor_publication_row manifest in
      _ ← require (anchor_publication_checks row);
      Ok (manifest, with_anchor_publication (Some row) s).
Definition validate_dense_anchor_publication (p : IndexPublicationRecord) (s : Core)
  : result StoreError DenseAnchorPublicationManifest :=
  manifest ← ok_or (get_dense_anchor_publication_manifest s)
               (StoreError.Other (lit "dense anchor publication is missing"));
  if negb (am_schema_version manifest =? DENSE_ANCHOR_PUBLICATION_SCHEMA_VERSION)
     || negb (am_complete manifest)
     || negb (str_eqb (am_core_generation_id manifest) (ip_generation_id p))
     || negb (str_eqb (am_core_run_id manifest) (ip_run_id p))
     || negb (str_eqb (am_migration_state manifest) DENSE_ANCHOR_MIGRATION_STATE_NATIVE)
     || is_blank (am_policy_version manifest)
  then Err (StoreError.Other (lit "dense anchor publication does not match the complete core publication"))
  else
    let '(count, digest, policies) := dense_anchor_content_summary (co_anchors s) in
    if negb (am_anchor_count manifest =? count) || negb (str_eqb (am_anchor_digest manifest) digest)
       || other_policies (am_policy_version manifest) count policies
    then Err (StoreError.Other (lit "dense anchor publication rows do not match their manifest"))
    else if negb (count_where (λ r, negb (str_eqb (ar_source_identity r) (anchor_source_identity p)))
                    (co_anchors s) =? 0)
    then Err (StoreError.Other (lit "dense anchor publication contains stale source identities"))
    else Ok manifest.
End Digests.

(** ** Symbol documents *)
Definition NODE_LOOKUP_BATCH_SIZE : nat := 200.
Definition put_doc (nodes : list Z) (table : list SymbolDocRow) (r : SymbolDocRow)
  : result StoreError (list SymbolDocRow) :=
  if references nodes (dr_node_id r) (dr_file_node_id r) then Ok (put_row dr_node_id r table)
  else Err ForeignKeyFailed.
Definition upsert_symbol_search_docs_batch (docs : list SymbolSearchDoc) (s : Core) : result StoreError Core :=
  match docs with
  | [] => Ok s
  | _ =>
      table ← try_fold (put_doc (co_nodes s)) (co_docs s) (doc_row <$> docs);
      Ok (with_docs table s)
  end.
Definition get_symbol_search_docs_batch_after (s : Core) (after : option Z) (limit : nat)
  : result StoreError (list SymbolSearchDoc) :=
  collect_rows doc_from_row (batch_after dr_node_id (co_docs s) after limit).
(** [slice::chunks]. *)
Fixpoint chunks {A} (fuel size : nat) (l : list A) : list (list A) :=
  match fuel, l with
  | Datatypes.S fuel, _ :: _ => take size l :: chunks fuel size (drop size l)
  | _, _ => []
  end.
Definition docs_of_batch (s : Core) (batch : list Z) : result StoreError (list SymbolSearchDoc) :=
  collect_rows doc_from_row (List.filter (λ r, member batch (dr_node_id r)) (co_docs s)).
(** An unstable sort by the node: the model keeps the order of equal documents. *)
Definition get_symbol_search_docs_for_node_ids (s : Core) (node_ids : list Z)
  : result StoreError (list SymbolSearchDoc) :=
  docs ← try_fold (λ docs batch, found ← docs_of_batch s batch; Ok (docs ++ found)) []
           (chunks (length node_ids) NODE_LOOKUP_BATCH_SIZE node_ids);
  Ok (sort_by (λ a b, sd_node_id a <=? sd_node_id b) docs).
Definition get_symbol_search_doc_count (s : Core) : Z := clamp_i64_to_u32 (len (co_docs s)).
Definition has_symbol_search_doc_contract_mismatch (s : Core) (expected_version : Z)
    (expected_policy_version : str) : bool :=
  existsb (λ r, negb (dr_doc_version r =? expected_version)
                || negb (str_eqb (dr_policy_version r) expected_policy_version)) (co_docs s).
Definition clear_symbol_search_docs (s : Core) : Z * Core := (len (co_docs s), with_docs [] s).
Definition delete_docs (f : SymbolDocRow → bool) (s : Core) : Z * Core :=
  (count_where f (co_docs s), with_docs (delete_where f (co_docs s)) s).
Definition prune_symbol_search_docs_to_node_ids (keep_node_ids : list Z) (s : Core) : Z * Core :=
  match keep_node_ids with
  | [] => clear_symbol_search_docs s
  | _ => delete_docs (λ r, negb (member keep_node_ids (dr_node_id r))) s
  end.
Definition delete_symbol_search_docs_for_files_except_node_ids (file_node_ids keep_node_ids : list Z)
    (s : Core) : Z * Core :=
  match file_node_ids with
  | [] => (0, s)
  | _ => delete_docs (λ r, in_files file_node_ids (dr_file_node_id r)
                           && negb (member keep_node_ids (dr_node_id r))) s
  end.
Definition delete_symbol_search_docs_for_file (file_node_id : Z) (s : Core) : Z * Core :=
  delete_docs (λ r, in_files [file_node_id] (dr_file_node_id r)) s.

(** The copy of the documents, under another name and without a publication to drop. *)
Definition copied_docs (nodes : list Z) (source : list SymbolDocRow) : list SymbolDocRow :=
  List.filter (λ r, references nodes (dr_node_id r) (dr_file_node_id r)) source.
Definition copy_symbol_search_docs_from (source : option (result StoreError (list SymbolDocRow)))
    (io : CopyIo) (s : Core) : result StoreError Z * Core :=
  match source with
  | None => (Ok 0, s)
  | Some (Err e) => (Err e, s)
  | Some (Ok source) =>
      if co_snapshot_attached s then (Err AlreadyAttached, s)
      else
        match io_attach io with
        | Err e => (Err e, s)
        | Ok _ =>
            let rows := copied_docs (co_nodes s) source in
            let '(copy_result, s) :=
              match io_insert io with
              | Err e => (Err e, s)
              | Ok _ => (Ok (len rows), with_docs (foldl (λ table r, put_row dr_node_id r table) (co_docs s) rows) s)
              end : result StoreError Z * Core in
            (copied ← copy_result; _ ← io_detach io; Ok copied,
             with_snapshot_attached (negb (is_ok (io_detach io))) s)
        end
  end.

(** ** Policy exclusions *)
Definition SOURCE_POLICY_EXCLUSION_PUBLICATION_SCHEMA_VERSION : Z := 2.
Definition LEGACY_SOURCE_POLICY_EXCLUSION_PUBLICATION_SCHEMA_VERSION : Z := 1.
Definition SOURCE_POLICY_EXCLUSION_DIGEST_DOMAIN : str :=
  lit "codestory-source-policy-exclusion-publication-v2" ++ [nul].
Definition LEGACY_SOURCE_POLICY_EXCLUSION_DIGEST_DOMAIN : str :=
  lit "codestory-source-policy-exclusion-publication-v1" ++ [nul].
Module ExclusionFormat.
Inductive SourcePolicyExclusionPublicationFormat : Set := Current | LegacyV1.
End ExclusionFormat.
Abbreviation SourcePolicyExclusionPublicationFormat := ExclusionFormat.SourcePolicyExclusionPublicationFormat.
Definition exclusion_texts (r : SourcePolicyExclusionRecord) : list str :=
  [xr_normalized_path r; xr_project_id r; xr_workspace_id r; xr_content_hash r; xr_policy_version r;
   xr_core_generation_id r; xr_core_run_id r].
Definition exclusion_parts (r : SourcePolicyExclusionRecord) : list str :=
  exclusion_texts r ++ [le_bytes 8 (xr_observed_size r); le_bytes 8 (xr_observed_unit_count r);
                        le_bytes 8 (xr_byte_cap r); le_bytes 8 (xr_structural_unit_cap r)].
Definition legacy_exclusion_parts (r : SourcePolicyExclusionRecord) : list str :=
  exclusion_texts r ++ [le_bytes 8 (xr_observed_size r); le_bytes 8 (xr_byte_cap r)].
Definition exclusion_message (rows : list SourcePolicyExclusionRecord) : str :=
  foldl (λ h r, update_frames h (exclusion_parts r)) SOURCE_POLICY_EXCLUSION_DIGEST_DOMAIN rows.
Definition legacy_exclusion_message (rows : list SourcePolicyExclusionRecord) : str :=
  foldl (λ h r, update_frames h (legacy_exclusion_parts r)) LEGACY_SOURCE_POLICY_EXCLUSION_DIGEST_DOMAIN rows.
Definition schema_version_of (f : SourcePolicyExclusionPublicationFormat) : Z :=
  match f with
  | ExclusionFormat.Current => SOURCE_POLICY_EXCLUSION_PUBLICATION_SCHEMA_VERSION
  | ExclusionFormat.LegacyV1 => LEGACY_SOURCE_POLICY_EXCLUSION_PUBLICATION_SCHEMA_VERSION
  end.
Definition byte_bound (size units cap : Z) : bool := (cap <? size) && (units =? 0).
Definition unit_bound (size units cap unit_cap : Z) : bool := (size <=? cap) && (unit_cap <? units).
Definition qualifies (f : SourcePolicyExclusionPublicationFormat) (r : SourcePolicyExclusionRecord) : bool :=
  match f with
  | ExclusionFormat.Current =>
      byte_bound (xr_observed_size r) (xr_observed_unit_count r) (xr_byte_cap r)
      || unit_bound (xr_observed_size r) (xr_observed_unit_count r) (xr_byte_cap r) (xr_structural_unit_cap r)
  | ExclusionFormat.LegacyV1 => byte_bound (xr_observed_size r) (xr_observed_unit_count r) (xr_byte_cap r)
  end.

Definition get_u64 (message : String.string) (value : Z) : result StoreError Z :=
  if value <? 0 then Err (StoreError.Other (lit message)) else Ok value.
Definition by_path : list SourcePolicyExclusionRecord → list SourcePolicyExclusionRecord :=
  sort_by (cmp_leb (cmp_on xr_normalized_path str_cmp)).
Definition exclusion_from_row (r : SourcePolicyExclusionRecord) : result StoreError SourcePolicyExclusionRecord :=
  size ← get_u64 "source policy exclusion has invalid observed size" (xr_observed_size r);
  units ← get_u64 "source policy exclusion has invalid observed unit count" (xr_observed_unit_count r);
  cap ← get_u64 "source policy exclusion has invalid byte cap" (xr_byte_cap r);
  unit_cap ← get_u64 "source policy exclusion has invalid structural unit cap" (xr_structural_unit_cap r);
  Ok (mkExclusion (xr_normalized_path r) (xr_project_id r) (xr_workspace_id r) (xr_content_hash r) size units
        (xr_policy_version r) cap unit_cap (xr_core_generation_id r) (xr_core_run_id r)).
(** A row of a schema without unit counts. *)
Definition legacy_exclusion_from_row (r : SourcePolicyExclusionRecord)
  : result StoreError SourcePolicyExclusionRecord :=
  size ← get_u64 "source policy exclusion has invalid observed size" (xr_observed_size r);
  cap ← get_u64 "source policy exclusion has invalid byte cap" (xr_byte_cap r);
  Ok (mkExclusion (xr_normalized_path r) (xr_project_id r) (xr_workspace_id r) (xr_content_hash r) size 0
        (xr_policy_version r) cap DEFAULT_STRUCTURAL_UNIT_CAP (xr_core_generation_id r) (xr_core_run_id r)).
Definition read_source_policy_exclusions (rows : list SourcePolicyExclusionRecord) :=
  collect_rows exclusion_from_row (by_path rows).
Definition read_legacy_source_policy_exclusions (rows : list SourcePolicyExclusionRecord) :=
  collect_rows legacy_exclusion_from_row (by_path rows).
Definition get_source_policy_exclusion_manifest (s : Core)
  : result StoreError (option SourcePolicyExclusionManifest) :=
  match co_exclusion_publication s with
  | None => Ok None
  | Some r =>
      schema ← (if (0 <=? xp_schema_version r) && (xp_schema_version r <=? u32_max)
                then Ok (xp_schema_version r)
                else Err (StoreError.Other (lit "source policy exclusion manifest has invalid schema")));
      count ← get_u64 "source policy exclusion manifest has invalid count" (xp_exclusion_count r);
      cap ← get_u64 "source policy exclusion manifest has invalid byte cap" (xp_byte_cap r);
      unit_cap ← get_u64 "source policy exclusion manifest has invalid structural unit cap"
                   (xp_structural_unit_cap r);
      Ok (Some (mkExclusionManifest schema (xp_complete r =? 1) (xp_project_id r) (xp_workspace_id r)
            (xp_core_generation_id r) (xp_core_run_id r) count (xp_exclusion_digest r) (xp_policy_version r)
            cap unit_cap (xp_published_at_epoch_ms r)))
  end.
Definition is_ascii_hexdigit (c : ascii) : bool :=
  let n := N_of_ascii c in
  ((48 <=? n) && (n <=? 57) || (65 <=? n) && (n <=? 70) || (97 <=? n) && (n <=? 102))%N.
Definition bad_component (component : str) : bool := str_eqb component [] || str_eqb component (lit "..").
Definition publication_identity_invalid (p : IndexPublicationRecord) (project_id workspace_id : str)
    (policy : SourcePolicyExclusionPolicyIdentity) : bool :=
  is_blank (ip_generation_id p) || is_blank (ip_run_id p) || is_blank project_id || is_blank workspace_id
  || is_blank (pi_policy_version policy)
  || (pi_byte_cap policy =? 0) || (i64_max <? pi_byte_cap policy)
  || (pi_structural_unit_cap policy =? 0) || (i64_max <? pi_structural_unit_cap policy).
Definition candidate_invalid (policy : SourcePolicyExclusionPolicyIdentity) (previous_path : option str)
    (c : OversizedSourceExclusionCandidate) : bool :=
  let path := ex_normalized_path c in
  is_blank path || starts_with path (lit "/") || contains path (lit "\")
  || existsb bad_component (split_on slash path)
  || bool_decide (previous_path = Some path)
  || negb (length (ex_content_hash c) =? 64)%nat || negb (forallb is_ascii_hexdigit (ex_content_hash c))
  || (i64_max <? ex_observed_size c) || (i64_max <? ex_observed_unit_count c)
  || negb (byte_bound (ex_observed_size c) (ex_observed_unit_count c) (pi_byte_cap policy)
           || unit_bound (ex_observed_size c) (ex_observed_unit_count c) (pi_byte_cap policy)
                (pi_structural_unit_cap policy))
  || negb (str_eqb (ex_policy_version c) (pi_policy_version policy))
  || negb (ex_byte_cap c =? pi_byte_cap policy)
  || negb (ex_structural_unit_cap c =? pi_structural_unit_cap policy).
Definition exclusion_record (p : IndexPublicationRecord) (project_id workspace_id : str)
    (c : OversizedSourceExclusionCandidate) : SourcePolicyExclusionRecord :=
  mkExclusion (ex_normalized_path c) project_id workspace_id (ex_content_hash c) (ex_observed_size c)
    (ex_observed_unit_count c) (ex_policy_version c) (ex_byte_cap c) (ex_structural_unit_cap c)
    (ip_generation_id p) (ip_run_id p).
(** The loop over the sorted candidates: the previous path and the records so far. *)
Definition visit_exclusion (p : IndexPublicationRecord) (project_id workspace_id : str)
    (policy : SourcePolicyExclusionPolicyIdentity) (st : option str * list SourcePolicyExclusionRecord)
    (c : OversizedSourceExclusionCandidate)
  : result StoreError (option str * list SourcePolicyExclusionRecord) :=
  if candidate_invalid policy st.1 c
  then Err (StoreError.Other (lit "invalid source policy exclusion candidate: " ++ ex_normalized_path c))
  else Ok (Some (ex_normalized_path c), st.2 ++ [exclusion_record p project_id workspace_id c]).

(** The row of a record and the checks of its table. *)
Definition exclusion_row (r : SourcePolicyExclusionRecord) : SourcePolicyExclusionRecord :=
  mkExclusion (xr_normalized_path r) (xr_project_id r) (xr_workspace_id r) (xr_content_hash r)
    (as_i64 (xr_observed_size r)) (as_i64 (xr_observed_unit_count r)) (xr_policy_version r)
    (as_i64 (xr_byte_cap r)) (as_i64 (xr_structural_unit_cap r)) (xr_core_generation_id r) (xr_core_run_id r).
Definition exclusion_row_checks (r : SourcePolicyExclusionRecord) : bool :=
  sql_nonempty (xr_normalized_path r) && sql_nonempty (xr_project_id r) && sql_nonempty (xr_workspace_id r)
  && (length (xr_content_hash r) =? 64)%nat && (0 <? xr_observed_size r) && (0 <=? xr_observed_unit_count r)
  && sql_nonempty (xr_policy_version r) && (0 <? xr_byte_cap r) && (0 <? xr_structural_unit_cap r)
  && sql_nonempty (xr_core_generation_id r) && sql_nonempty (xr_core_run_id r).
Definition insert_exclusion (rows : list SourcePolicyExclusionRecord) (r : SourcePolicyExclusionRecord)
  : result StoreError (list SourcePolicyExclusionRecord) :=
  _ ← require (exclusion_row_checks r);
  if existsb (λ x, str_eqb (xr_normalized_path x) (xr_normalized_path r)) rows then Err PrimaryKeyFailed
  else Ok (rows ++ [r]).
Definition exclusion_publication_row (m : SourcePolicyExclusionManifest) : ExclusionPublicationRow :=
  mkExclusionPublication (xm_schema_version m) 1 (xm_project_id m) (xm_workspace_id m)
    (xm_core_generation_id m) (xm_core_run_id m) (as_i64 (xm_exclusion_count m)) (xm_exclusion_digest m)
    (xm_policy_version m) (as_i64 (xm_byte_cap m)) (as_i64 (xm_structural_unit_cap m))
    (xm_published_at_epoch_ms m).
Definition exclusion_publication_checks (r : ExclusionPublicationRow) : bool :=
  (xp_complete r =? 1) && sql_nonempty (xp_project_id r) && sql_nonempty (xp_workspace_id r)
  && sql_nonempty (xp_core_generation_id r) && sql_nonempty (xp_core_run_id r)
  && (0 <=? xp_exclusion_count r) && (length (xp_exclusion_digest r) =? 64)%nat
  && sql_nonempty (xp_policy_version r) && (0 <? xp_byte_cap r) && (0 <? xp_structural_unit_cap r)
  && (0 <=? xp_published_at_epoch_ms r).

Section Exclusions.
Context (sha256 : str → str).

Definition format_digest (f : SourcePolicyExclusionPublicationFormat) (rows : list SourcePolicyExclusionRecord)
  : str :=
  match f with
  | ExclusionFormat.Current => sha256 (exclusion_message rows)
  | ExclusionFormat.LegacyV1 => sha256 (legacy_exclusion_message rows)
  end.
Definition publish_source_policy_exclusion_generation (p : IndexPublicationRecord)
    (project_id workspace_id : str) (policy : SourcePolicyExclusionPolicyIdentity)
    (candidates : list OversizedSourceExclusionCandidate) (s : Core)
  : result StoreError (SourcePolicyExclusionManifest * Core) :=
  if publication_identity_invalid p project_id workspace_id policy
  then Err (StoreError.Other (lit "source policy exclusion publication identity is invalid"))
  else
    visited ← try_fold (visit_exclusion p project_id workspace_id policy) (None, [])
                (sort_exclusions candidates);
    let records := visited.2 in
    let manifest := mkExclusionManifest SOURCE_POLICY_EXCLUSION_PUBLICATION_SCHEMA_VERSION true project_id
      workspace_id (ip_generation_id p) (ip_run_id p) (len records)
      (format_digest ExclusionFormat.Current records) (pi_policy_version policy) (pi_byte_cap policy)
      (pi_structural_unit_cap policy) (ip_published_at_epoch_ms p) in
    rows ← try_fold insert_exclusion [] (exclusion_row <$> records);
    let row := exclusion_publication_row manifest in
    _ ← require (exclusion_publication_checks row);
    Ok (manifest, with_exclusions rows (Some row) s).

(** Whether rows do not all carry the identity of a manifest. *)
Definition foreign_exclusion (f : SourcePolicyExclusionPublicationFormat)
    (project_id workspace_id generation_id run_id policy_version : str) (cap unit_cap : Z)
    (r : SourcePolicyExclusionRecord) : bool :=
  negb (str_eqb (xr_project_id r) project_id) || negb (str_eqb (xr_workspace_id r) workspace_id)
  || negb (str_eqb (xr_core_generation_id r) generation_id) || negb (str_eqb (xr_core_run_id r) run_id)
  || negb (str_eqb (xr_policy_version r) policy_version) || negb (xr_byte_cap r =? cap)
  || negb (xr_structural_unit_cap r =? unit_cap) || negb (qualifies f r).
Definition manifest_differs (f : SourcePolicyExclusionPublicationFormat) (p : IndexPublicationRecord)
    (project_id workspace_id : str) (policy : SourcePolicyExclusionPolicyIdentity)
    (m : SourcePolicyExclusionManifest) : bool :=
  negb (xm_schema_version m =? schema_version_of f) || negb (xm_complete m)
  || negb (str_eqb (xm_project_id m) project_id) || negb (str_eqb (xm_workspace_id m) workspace_id)
  || negb (str_eqb (xm_core_generation_id m) (ip_generation_id p))
  || negb (str_eqb (xm_core_run_id m) (ip_run_id p))
  || negb (str_eqb (xm_policy_version m) (pi_policy_version policy))
  || negb (xm_byte_cap m =? pi_byte_cap policy)
  || negb (xm_structural_unit_cap m =? pi_structural_unit_cap policy)
  || negb (xm_published_at_epoch_ms m =? ip_published_at_epoch_ms p).
Definition validate_source_policy_exclusion_publication_format (f : SourcePolicyExclusionPublicationFormat)
    (p : IndexPublicationRecord) (project_id workspace_id : str) (policy : SourcePolicyExclusionPolicyIdentity)
    (s : Core) : result StoreError SourcePolicyExclusionManifest :=
  found ← get_source_policy_exclusion_manifest s;
  m ← ok_or found (StoreError.Other (lit "source policy exclusion manifest is missing"));
  if manifest_differs f p project_id workspace_id policy m
  then Err (StoreError.Other (lit "source policy exclusion manifest does not match the complete core publication"))
  else
    records ← read_source_policy_exclusions (co_exclusions s);
    if negb (xm_exclusion_count m =? len records) || negb (str_eqb (xm_exclusion_digest m) (format_digest f records))
       || existsb (foreign_exclusion f (xm_project_id m) (xm_workspace_id m) (xm_core_generation_id m)
                     (xm_core_run_id m) (xm_policy_version m) (xm_byte_cap m) (xm_structural_unit_cap m)) records
    then Err (StoreError.Other (lit "source policy exclusion rows do not match their complete manifest"))
    else Ok m.
Definition validate_source_policy_exclusion_publication :=
  validate_source_policy_exclusion_publication_format ExclusionFormat.Current.
Definition validate_legacy_v1_source_policy_exclusion_publication :=
  validate_source_policy_exclusion_publication_format ExclusionFormat.LegacyV1.

(** [read_source_policy_exclusion_rollback_identity] of an existing file: whether the schema
    has the publication table and the columns of structural units. *)
Record PolicySchema : Type := mkPolicySchema {
  ps_publication_table : bool;
  ps_structural_columns : bool;
}.
Definition source_policy_rollback_identity (path : str) (schema : PolicySchema) (s : Core) (p : IndexPublicationRecord)
  : result StoreError (option SourcePolicyExclusionRollbackIdentity) :=
  if negb (ps_publication_table schema) then Ok None
  else
    match co_exclusion_publication s with
    | None => Ok None
    | Some row =>
        if negb (xp_complete row =? 1) then Ok None
        else
          format ←
            (if (xp_schema_version row <? 0) || (u32_max <? xp_schema_version row)
             then Err (StoreError.Other (lit "Source policy exclusion rollback schema is invalid"))
             else if xp_schema_version row =? LEGACY_SOURCE_POLICY_EXCLUSION_PUBLICATION_SCHEMA_VERSION
             then Ok ExclusionFormat.LegacyV1
             else if xp_schema_version row =? SOURCE_POLICY_EXCLUSION_PUBLICATION_SCHEMA_VERSION
             then if ps_structural_columns schema then Ok ExclusionFormat.Current
                  else Err (StoreError.Other (lit "Current source policy exclusion rollback schema is missing structural identity"))
             else Err (StoreError.Other (lit "Source policy exclusion rollback schema is unsupported")));
          count ← get_u64 "Source policy exclusion rollback count is invalid" (xp_exclusion_count row);
          cap ← get_u64 "Source policy exclusion rollback cap is invalid" (xp_byte_cap row);
          unit_cap ← get_u64 "Source policy exclusion rollback structural unit cap is invalid"
                       (if ps_structural_columns schema then xp_structural_unit_cap row
                        else DEFAULT_STRUCTURAL_UNIT_CAP);
          records ← (if ps_structural_columns schema then read_source_policy_exclusions (co_exclusions s)
                     else read_legacy_source_policy_exclusions (co_exclusions s));
          if negb (str_eqb (xp_core_generation_id row) (ip_generation_id p))
             || negb (str_eqb (xp_core_run_id row) (ip_run_id p))
             || negb (xp_published_at_epoch_ms row =? ip_published_at_epoch_ms p)
             || negb (count =? len records)
             || negb (str_eqb (xp_exclusion_digest row) (format_digest format records))
             || existsb (foreign_exclusion format (xp_project_id row) (xp_workspace_id row)
                  (xp_core_generation_id row) (xp_core_run_id row) (xp_policy_version row) cap unit_cap) records
          then Err (StoreError.Other (lit "Source policy exclusion rollback identity does not match " ++ path))
          else Ok (Some (mkPolicyIdentity (xp_project_id row) (xp_workspace_id row) (xp_core_generation_id row)
                 (xp_core_run_id row) (xp_published_at_epoch_ms row) count (xp_exclusion_digest row)
                 (xp_policy_version row) cap unit_cap))
    end.
End Exclusions.
