(* ===== verification/RetentionInventory.v ===== *)
(** * Freshness of a generation and cleanup on request

    codestory-retrieval/src/generation.rs (why a published manifest is stale) and inventory.rs
    (the retention plan of a cleanup, which suppresses pruning unless the active generation
    is verified).  The store answers through an interface whose law is the meaning of its one
    paged query; the health probe and the JSON text of the counts are parameters. *)
From S2P Require Import Prelude RustStr Graph RetrievalData Sorting StrOps UnixPath Collections WorkspacePaths.
From S2P Require Import Retention RetentionProofs Encoding SidecarStore.

Definition RETRIEVAL_EMBEDDING_DIM : Z := 768.
Definition STALENESS_DOC_BATCH_SIZE : nat := 1024.
Definition SIDECAR_SEMANTIC_DOC_CONTRACT_CHANGED : str :=
  lit "sidecar_semantic_doc_embedding_contract_changed".

(** ** The store *)
(** The answers of an open store; [st_anchor_batch after limit] is
    [get_dense_anchor_inputs_batch_after]. *)
Record StoreView : Type := mkStoreView {
  st_manifest : str → result str (option RetrievalIndexManifest);
  st_symbol_doc_count : result str Z;
  st_anchor_batch : option Z → nat → result str (list DenseAnchorInput);
  st_max_mtime : result str (option Z);
}.

Record DenseAnchorStats : Type := mkStats {
  ds_doc_count : Z;
  ds_policy_version : option str;
  ds_dense_reason_counts : list (str * Z);
  ds_mixed_policy_versions : bool;
  ds_first_policy : option (option str);
}.
Definition empty_stats : DenseAnchorStats := mkStats 0 None [] false None.
Definition observe_optional_string (s : DenseAnchorStats) (current : option str) : DenseAnchorStats :=
  match ds_first_policy s with
  | Some first =>
      mkStats (ds_doc_count s) (ds_policy_version s) (ds_dense_reason_counts s)
        (ds_mixed_policy_versions s || negb (bool_decide (first = current))) (ds_first_policy s)
  | None => mkStats (ds_doc_count s) current (ds_dense_reason_counts s) (ds_mixed_policy_versions s) (Some current)
  end.
Definition observe_anchor (s : DenseAnchorStats) (a : DenseAnchorInput) : DenseAnchorStats :=
  let s := mkStats (saturating_add u32_max (ds_doc_count s) 1) (ds_policy_version s)
             (ds_dense_reason_counts s) (ds_mixed_policy_versions s) (ds_first_policy s) in
  let s := observe_optional_string s (Some (da_policy_version a)) in
  mkStats (ds_doc_count s) (ds_policy_version s)
    (bt_entry str_cmp 0 (λ n, wrapping_add u32_max n 1) (ds_dense_reason_counts s) (da_selection_reason a))
    (ds_mixed_policy_versions s) (ds_first_policy s).
(** The loop over the batches; [None] when the fuel is out. *)
Definition collect_dense_anchor_stats (fuel : nat) (store : StoreView) (after : option Z) (s : DenseAnchorStats)
  : option (result str DenseAnchorStats) :=
  read_pages da_node_id fuel (st_anchor_batch store) STALENESS_DOC_BATCH_SIZE
    (λ s anchors, Ok (foldl observe_anchor s anchors)) after s.

(** ** Staleness *)
Definition show_missing (o : option str) : str := default (lit "<missing>") o.
Section Staleness.
Context (embedding_runtime_id : str) (json_counts : list (str * Z) → str) (fuel : nat).

Definition embedding_reason (m : RetrievalIndexManifest) : option str :=
  if negb (bool_decide (embedding_backend m = Some embedding_runtime_id))
  then Some (lit "sidecar_embedding_backend_changed: manifest=" ++ show_missing (embedding_backend m)
             ++ lit " current=" ++ embedding_runtime_id)
  else if negb (bool_decide (embedding_dim m = Some RETRIEVAL_EMBEDDING_DIM))
  then Some (lit "sidecar_embedding_dim_changed: manifest=" ++ show_missing (show_int <$> embedding_dim m)
             ++ lit " current=" ++ show_int RETRIEVAL_EMBEDDING_DIM)
  else if negb (bool_decide (semantic_policy_version m = Some SEMANTIC_POLICY_VERSION))
  then Some (lit "sidecar_semantic_policy_changed: manifest=" ++ show_missing (semantic_policy_version m)
             ++ lit " current=" ++ SEMANTIC_POLICY_VERSION)
  else None.
Definition symbol_count_reason (store : StoreView) (m : RetrievalIndexManifest) : option str :=
  match symbol_doc_count m with
  | None => None
  | Some expected =>
      match st_symbol_doc_count store with
      | Ok actual =>
          if actual =? expected then None
          else Some (lit "sidecar_symbol_doc_count_changed: manifest=" ++ show_int expected
                     ++ lit " current=" ++ show_uint actual)
      | Err error => Some (lit "sidecar_symbol_doc_count_unavailable: " ++ error)
      end
  end.
Definition reason_counts_reason (m : RetrievalIndexManifest) (stats : DenseAnchorStats) : option str :=
  match dense_reason_counts_json m with
  | None => None
  | Some expected_reasons =>
      let actual_reasons := json_counts (ds_dense_reason_counts stats) in
      if str_eqb actual_reasons expected_reasons then None
      else Some (lit "sidecar_dense_reason_counts_changed: manifest=" ++ expected_reasons
                 ++ lit " current=" ++ actual_reasons)
  end.
Definition stats_reason (m : RetrievalIndexManifest) (expected : Z) (stats : DenseAnchorStats) : option str :=
  if (0 <? expected) && (ds_doc_count stats =? 0)
  then Some (lit "sidecar_dense_anchor_count_unavailable: no published dense anchors")
  else if (0 <? expected) && (ds_mixed_policy_versions stats
            || negb (bool_decide (ds_policy_version stats = Some SEMANTIC_POLICY_VERSION)))
  then Some SIDECAR_SEMANTIC_DOC_CONTRACT_CHANGED
  else if negb (ds_doc_count stats =? expected)
  then Some (lit "sidecar_dense_anchor_count_changed: manifest=" ++ show_int expected
             ++ lit " current=" ++ show_uint (ds_doc_count stats))
  else reason_counts_reason m stats.
Definition mtime_reason (store : StoreView) (m : RetrievalIndexManifest) : option str :=
  match st_max_mtime store with
  | Ok (Some max_mtime) =>
      if built_at_epoch_ms m <? max_mtime
      then Some (lit "indexed_file_newer_than_retrieval_manifest: file_mtime=" ++ show_int max_mtime
                 ++ lit " manifest_built_at=" ++ show_int (built_at_epoch_ms m))
      else None
  | Ok None => None
  | Err error => Some (lit "indexed_file_mtime_unavailable: " ++ error)
  end.
Definition manifest_staleness_reason_for_runtime (store : StoreView) (m : RetrievalIndexManifest)
  : option (option str) :=
  match embedding_reason m with
  | Some reason => Some (Some reason)
  | None =>
      match symbol_count_reason store m with
      | Some reason => Some (Some reason)
      | None =>
          match option_or (dense_projection_count m) (projection_count m) with
          | None => Some (mtime_reason store m)
          | Some expected =>
              match collect_dense_anchor_stats fuel store None empty_stats with
              | None => None
              | Some (Err error) => Some (Some (lit "sidecar_dense_anchor_count_unavailable: " ++ error))
              | Some (Ok stats) =>
                  match stats_reason m expected stats with
                  | Some reason => Some (Some reason)
                  | None => Some (mtime_reason store m)
                  end
              end
          end
      end
  end.
Definition manifest_unavailable_reason_for_runtime (project : str) (store : StoreView)
    (m : RetrievalIndexManifest) : option (option str) :=
  if negb (manifest_has_current_sidecar_contract project m)
  then Some (Some (lit "retrieval_manifest_generation_contract_missing"))
  else
    match manifest_staleness_reason_for_runtime store m with
    | Some reason => Some ((λ r, lit "retrieval_manifest_stale: " ++ r) <$> reason)
    | None => None
    end.

(** ** Cleanup *)
(** What a cleanup sees: the stores it opens and the health of the active generation. *)
Class InventoryIo : Type := {
  storage_is_file : str → bool;
  open_store : str → result str StoreView;
  probe_health : RetrievalIndexManifest → str * option str;
}.
Context `{RetentionIo} `{InventoryIo}.

Definition protection_error (error : str) (s : RetentionProtectionScan) : RetentionProtectionScan :=
  scan_error error s.
Definition record_manifest_freshness (project : str) (store : StoreView) (m : RetrievalIndexManifest)
    (s : RetentionProtectionScan) : option RetentionProtectionScan :=
  match manifest_unavailable_reason_for_runtime project store m with
  | Some (Some reason) =>
      Some (protection_error (lit "active retrieval manifest is stale; pruning suppressed: " ++ reason) s)
  | Some None => Some s
  | None => None
  end.
Definition load_active_manifest (project storage_path : str) (s : RetentionProtectionScan)
  : option (option RetrievalIndexManifest * RetentionProtectionScan) :=
  if storage_is_file storage_path then
    match open_store storage_path with
    | Err error => Some (None, protection_error (lit "open active storage for retention: " ++ error) s)
    | Ok store =>
        match st_manifest store project with
        | Err error => Some (None, protection_error (lit "load active manifest for retention: " ++ error) s)
        | Ok None => Some (None, s)
        | Ok (Some m) => s ← record_manifest_freshness project store m s; Some (Some m, s)
        end
    end
  else Some (None, s).
Definition verify_active (project : str) (manifest : option RetrievalIndexManifest)
    (s : RetentionProtectionScan) : RetentionProtectionScan :=
  match manifest with
  | None => protection_error (lit "active retrieval manifest is unavailable; pruning suppressed") s
  | Some m =>
      if manifest_has_current_sidecar_contract project m then
        let '(mode, degraded) := probe_health m in
        if negb (str_eqb mode (lit "full"))
        then protection_error (lit "active generation is not verified full; pruning suppressed: mode="
               ++ mode ++ lit " reason=" ++ default (lit "unknown") degraded) s
        else s
      else protection_error (lit "active retrieval manifest does not satisfy the current generation contract; pruning suppressed") s
  end.
Definition build_generation_retention_plan (storage_path cache_root : str) (layout : SidecarLayout)
    (project : str) (unrooted_state : GenerationRetentionState) : option GenerationRetentionPlan :=
  let s := scan_retention_protection cache_root (Some storage_path) (state_file layout) in
  loaded ← load_active_manifest project storage_path s;
  let '(manifest, s) := loaded : option RetrievalIndexManifest * RetentionProtectionScan in
  plan_generation_retention_with_unrooted_state layout project (verify_active project manifest s) unrooted_state.
(** [inventory_retention_view]: what the lock it tries decides. *)
Definition inventory_retention_view (lock_acquired : bool) : GenerationRetentionState :=
  if lock_acquired then Reclaimable else Building.
End Staleness.

(** ** Properties *)
Lemma collect_all store table fuel : pages_of da_node_id (st_anchor_batch store) table →
  (length table < fuel)%nat →
  collect_dense_anchor_stats fuel store None empty_stats = Some (Ok (foldl observe_anchor empty_stats table)).
Proof.
  intros Hp Hf. apply (read_all da_node_id (λ s anchors, Ok (foldl observe_anchor s anchors)) (λ _, True));
    [done|done| |exact Hp|unfold STALENESS_DOC_BATCH_SIZE; lia|done|done].
  intros. cbn. by rewrite foldl_app.
Qed.

(** What the statistics of a table are. *)
Definition occurrences (r : str) (table : list DenseAnchorInput) : Z :=
  len (List.filter (λ a, str_eqb (da_selection_reason a) r) table).
Definition counts_of (table : list DenseAnchorInput) (counts : list (str * Z)) : Prop :=
  increasing str_cmp counts.*1 ∧
  ∀ r, hm_get counts r = if occurrences r table =? 0 then None else Some (occurrences r table).
Record stats_of (table : list DenseAnchorInput) (s : DenseAnchorStats) : Prop := {
  so_count : ds_doc_count s = len table;
  so_first : ds_first_policy s = (λ a, Some (da_policy_version a)) <$> head table;
  so_policy : ds_policy_version s = da_policy_version <$> head table;
  so_mixed : ds_mixed_policy_versions s = true ↔
    ∃ a b, head table = Some a ∧ b ∈ table ∧ da_policy_version b ≠ da_policy_version a;
  so_counts : counts_of table (ds_dense_reason_counts s);
}.
Lemma occurrences_snoc r table a :
  occurrences r (table ++ [a]) = occurrences r table + (if str_eqb (da_selection_reason a) r then 1 else 0).
Proof.
  unfold occurrences. rewrite List.filter_app, len_app. cbn. by destruct (str_eqb _ r).
Qed.
Lemma occurrences_le r table : 0 ≤ occurrences r table ≤ len table.
Proof.
  unfold occurrences. induction table as [|a table IH]; [done|]. cbn [List.filter]. rewrite len_cons.
  destruct (str_eqb _ r); [rewrite len_cons|]; lia.
Qed.
Lemma observe_counts table counts a : len table < u32_max → counts_of table counts →
  counts_of (table ++ [a]) (bt_entry str_cmp 0 (λ n, wrapping_add u32_max n 1) counts (da_selection_reason a)).
Proof.
  intros Hlen [Hs Hc]. split.
  - rewrite bt_entry_keys. by apply (bs_insert_increasing str_cmp str_cmp_eq).
  - intros r. rewrite (bt_entry_get str_cmp str_cmp_eq) by done. rewrite occurrences_snoc.
    pose proof (occurrences_le r table) as Ho. case_decide as E.
    + subst r. rewrite str_eqb_refl, (proj2 (Z.eqb_neq _ _)) by lia. f_equal. rewrite Hc.
      destruct (occurrences (da_selection_reason a) table =? 0) eqn:E0; unfold default, id;
        rewrite wrapping_add_small; lia.
    + assert (str_eqb (da_selection_reason a) r = false) as -> by (apply bool_decide_eq_false; congruence).
      by rewrite Z.add_0_r, Hc.
Qed.
Lemma observe_anchor_stats table s a : len table < u32_max → stats_of table s →
  stats_of (table ++ [a]) (observe_anchor s a).
Proof.
  intros Hlen [H1 H2 H3 H4 H5]. pose proof (observe_counts table _ a Hlen H5) as Hc.
  pose proof (len_nonneg table) as Hn.
  assert (saturating_add u32_max (ds_doc_count s) 1 = len (table ++ [a])) as Hcount.
  { rewrite H1, len_app, len_cons, len_nil. unfold saturating_add. lia. }
  unfold observe_anchor, observe_optional_string. cbn [ds_first_policy]. rewrite H2.
  destruct table as [|x table]; cbn [head fmap option_fmap option_map app] in *; split;
    cbn [ds_first_policy ds_doc_count ds_policy_version ds_dense_reason_counts ds_mixed_policy_versions
      head fmap option_fmap option_map]; [done..| |exact Hc|done|done|done| |exact Hc].
  - rewrite H4. split; [by intros (? & ? & ? & _)|].
    intros (? & b & [= <-] & Hb%list_elem_of_singleton & Hne). by subst b.
  - rewrite orb_true_iff, negb_true_iff, bool_decide_eq_false, H4. split.
    + intros [(? & b & [= <-] & Hb & Hne) | Hne]; [exists x, b|exists x, a]; (split; [done|]).
      * by rewrite app_comm_cons, elem_of_app; auto.
      * split; [|congruence]. rewrite app_comm_cons, elem_of_app. right. by left.
    + intros (? & b & [= <-] & Hb & Hne). rewrite app_comm_cons, elem_of_app in Hb.
      destruct Hb as [Hb | ->%list_elem_of_singleton]; [left; by exists x, b|right; congruence].
Qed.
Lemma stats_of_table table : len table ≤ u32_max → stats_of table (foldl observe_anchor empty_stats table).
Proof.
  induction table as [|a table IH] using rev_ind; intros Hlen.
  - split; cbn; [done..| |split; [constructor|done]]. split; [done|]. by intros (? & ? & ? & _).
  - rewrite len_app, len_cons, len_nil in Hlen. rewrite foldl_app. apply observe_anchor_stats; [lia|].
    apply IH. lia.
Qed.

(** The counts of a table are one list. *)
Lemma increasing_ext {V} (m1 m2 : list (str * V)) : increasing str_cmp m1.*1 → increasing str_cmp m2.*1 →
  (∀ k, hm_get m1 k = hm_get m2 k) → m1 = m2.
Proof.
  assert (∀ (m : list (str * V)) k v, hm_get ((k, v) :: m) k = Some v) as Hhd
    by (intros; cbn; by rewrite decide_True).
  assert (∀ (m : list (str * V)) k, increasing str_cmp (k :: m.*1) → hm_get m k = None) as Hno.
  { intros m k Hs%(increasing_nodup str_cmp). apply hm_get_absent. by apply NoDup_cons in Hs as [? _]. }
  assert (∀ (m : list (str * V)) k k', increasing str_cmp (k :: m.*1) → is_Some (hm_get m k') → str_cmp k k' = Lt) as Hlt.
  { intros m k k' [Hs Hk]%StronglySorted_inv [v Hv]. apply hm_get_elem in Hv; [|by apply (increasing_nodup str_cmp)].
    rewrite Forall_forall in Hk. apply Hk, list_elem_of_fmap. by exists (k', v). }
  revert m2. induction m1 as [|[k v] m1 IH]; intros [|[k2 v2] m2] H1 H2 E; [done|..].
  - by specialize (E k2); rewrite Hhd in E.
  - by specialize (E k); rewrite Hhd in E.
  - assert (k = k2) as <-.
    { destruct (decide (k = k2)) as [|Hne]; [done|]. pose proof (E k) as E1. pose proof (E k2) as E2.
      rewrite Hhd in E1, E2. cbn [hm_get] in E1, E2. rewrite decide_False in E1 by congruence. rewrite decide_False in E2 by congruence.
      pose proof (Hlt m2 k2 k H2 ltac:(by eexists)) as L1. pose proof (Hlt m1 k k2 H1 ltac:(by eexists)) as L2.
      apply (cmp_trans (P := λ _, True) (cmp := str_cmp) k k2 k Lt I I I L2) in L1. by rewrite (cmp_refl_Eq str_cmp) in L1. }
    pose proof (E k) as E1. rewrite !Hhd in E1. injection E1 as <-. f_equal. apply IH.
    + by apply StronglySorted_inv in H1 as [? _].
    + by apply StronglySorted_inv in H2 as [? _].
    + intros k'. specialize (E k'). cbn in E. destruct (decide (k = k')) as [<-|]; [|done].
      by rewrite (Hno m1), (Hno m2).
Qed.
Lemma counts_unique table c1 c2 : counts_of table c1 → counts_of table c2 → c1 = c2.
Proof. intros [S1 H1] [S2 H2]. apply increasing_ext; [done..|]. intros k. by rewrite H1, H2. Qed.

Lemma stats_reason_spec json_counts m expected table stats : stats_of table stats →
  stats_reason json_counts m expected stats = None ↔
    expected = len table ∧ (∀ a, a ∈ table → da_policy_version a = SEMANTIC_POLICY_VERSION) ∧
    ∀ json, dense_reason_counts_json m = Some json → ∃ counts, counts_of table counts ∧ json = json_counts counts.
Proof.
  intros [Hc _ Hp Hm Hr]. unfold stats_reason. rewrite Hc, Hp. pose proof (len_nonneg table) as Hn.
  assert ((∀ json, dense_reason_counts_json m = Some json → ∃ counts, counts_of table counts ∧ json = json_counts counts)
    ↔ reason_counts_reason json_counts m stats = None) as Hj.
  { unfold reason_counts_reason. destruct (dense_reason_counts_json m) as [e|]; [|done]. destruct (str_eqb _ e) eqn:Ee.
    - apply str_eqb_eq in Ee. split; [done|]. intros _ json [= <-]. eexists. by split.
    - split; [|done]. intros H. destruct (H e eq_refl) as (counts & Hcounts & ->).
      by rewrite (counts_unique _ _ _ Hr Hcounts), str_eqb_refl in Ee. }
  destruct table as [|x table].
  - change (len (@nil DenseAnchorInput)) with 0. rewrite Z.eqb_refl, andb_true_r.
    destruct (0 <? expected) eqn:E0; [split; [done|lia]|]. cbn [andb].
    destruct (0 =? expected) eqn:E1; cbn [negb]; [|split; [done|lia]]. rewrite <- Hj.
    split; [intros H; split; [lia|]; split; [by intros a ?%elem_of_nil|done]|tauto].
  - pose proof (len_nonneg table) as Hn'. rewrite len_cons in *. rewrite (proj2 (Z.eqb_neq (1 + len table) 0)), andb_false_r by lia.
    destruct (negb (1 + len table =? expected)) eqn:E1.
    { destruct (_ && (ds_mixed_policy_versions stats || _)); (split; [done|lia]). }
    rewrite (proj2 (Z.ltb_lt 0 expected)) by lia. cbn [andb head fmap option_fmap option_map].
    destruct (ds_mixed_policy_versions stats || _) eqn:E2.
    + split; [done|]. intros (_ & Hall & _). exfalso. apply orb_true_iff in E2 as [E2 | E2].
      * apply Hm in E2 as (? & b & [= <-] & Hb & Hne). apply Hne. by rewrite !Hall by (done || left).
      * apply negb_true_iff, bool_decide_eq_false in E2. apply E2. rewrite Hall by left. done.
    + apply orb_false_iff in E2 as [E2 E3]. apply negb_false_iff, bool_decide_eq_true in E3. injection E3 as E3.
      rewrite <- Hj. split; [|tauto]. intros H. split; [lia|]. split; [|done]. intros a Ha.
      destruct (decide (da_policy_version a = da_policy_version x)) as [|Hne]; [congruence|].
      rewrite (proj2 Hm) in E2; [done|]. by exists x, a.
Qed.

Lemma embedding_reason_none backend m : embedding_reason backend m = None ↔
  embedding_backend m = Some backend ∧ embedding_dim m = Some RETRIEVAL_EMBEDDING_DIM ∧
  semantic_policy_version m = Some SEMANTIC_POLICY_VERSION.
Proof.
  unfold embedding_reason.
  repeat match goal with |- context [bool_decide ?P] => case_bool_decide end; cbn [negb]; intuition congruence.
Qed.
Lemma symbol_count_reason_none store m : symbol_count_reason store m = None ↔
  ∀ n, symbol_doc_count m = Some n → st_symbol_doc_count store = Ok n.
Proof.
  unfold symbol_count_reason. destruct (symbol_doc_count m) as [n|]; [|done].
  destruct (st_symbol_doc_count store) as [actual|error].
  - destruct (actual =? n) eqn:E.
    + split; [|done]. intros _ n' [= <-]. f_equal. lia.
    + split; [done|]. intros H. injection (H n eq_refl) as H1. lia.
  - split; [done|]. intros H. by specialize (H n eq_refl).
Qed.
Lemma mtime_reason_none store m : mtime_reason store m = None ↔
  ∃ newest, st_max_mtime store = Ok newest ∧ ∀ t, newest = Some t → t ≤ built_at_epoch_ms m.
Proof.
  unfold mtime_reason. destruct (st_max_mtime store) as [[t|]|error].
  - destruct (built_at_epoch_ms m <? t) eqn:E.
    + split; [done|]. intros (newest & [= <-] & H). specialize (H t eq_refl). lia.
    + split; [|done]. intros _. eexists. split; [done|]. intros t' [= <-]. lia.
  - split; [|done]. intros _. by eexists.
  - split; [done|]. by intros (newest & ? & _).
Qed.

(** [C38] When a manifest is fresh.  With the store's pages read from a table of anchors, the
    check ends within one step more than the anchors and finds nothing wrong exactly when
    the embedding engine, the dimension and the policy are the current ones, the store has
    the promised number of symbols, every anchor follows the policy, their number and their
    counts by reason are the promised ones, and no indexed file is newer. *)
Theorem staleness_exact backend json_counts fuel store table m :
  pages_of da_node_id (st_anchor_batch store) table → (length table < fuel)%nat → len table ≤ u32_max →
  ∃ reason, manifest_staleness_reason_for_runtime backend json_counts fuel store m = Some reason ∧
  (reason = None ↔
    embedding_backend m = Some backend ∧ embedding_dim m = Some RETRIEVAL_EMBEDDING_DIM ∧
    semantic_policy_version m = Some SEMANTIC_POLICY_VERSION ∧
    (∀ n, symbol_doc_count m = Some n → st_symbol_doc_count store = Ok n) ∧
    (∀ n, option_or (dense_projection_count m) (projection_count m) = Some n →
      n = len table ∧ (∀ a, a ∈ table → da_policy_version a = SEMANTIC_POLICY_VERSION) ∧
      ∀ json, dense_reason_counts_json m = Some json →
        ∃ counts, counts_of table counts ∧ json = json_counts counts) ∧
    ∃ newest, st_max_mtime store = Ok newest ∧ ∀ t, newest = Some t → t ≤ built_at_epoch_ms m).
Proof.
  intros Hp Hf Hlen. unfold manifest_staleness_reason_for_runtime.
  destruct (embedding_reason backend m) as [reason|] eqn:E1.
  { eexists. split; [done|]. split; [done|]. intros (H1 & H2 & H3 & _).
    by rewrite (proj2 (embedding_reason_none backend m)) in E1. }
  apply embedding_reason_none in E1 as (H1 & H2 & H3).
  destruct (symbol_count_reason store m) as [reason|] eqn:E2.
  { eexists. split; [done|]. split; [done|]. intros (_ & _ & _ & H & _).
    by rewrite (proj2 (symbol_count_reason_none store m) H) in E2. }
  rewrite symbol_count_reason_none in E2.
  destruct (option_or (dense_projection_count m) (projection_count m)) as [expected|].
  - rewrite (collect_all store table) by done.
    pose proof (stats_reason_spec json_counts m expected table _ (stats_of_table table Hlen)) as Hs.
    destruct (stats_reason json_counts m expected _) as [reason|].
    + eexists. split; [done|]. split; [done|]. intros (_ & _ & _ & _ & H & _).
      by discriminate (proj2 Hs (H expected eq_refl)).
    + eexists. split; [done|]. rewrite mtime_reason_none. split; [|by intros (_ & _ & _ & _ & _ & ?)].
      intros H. split_and!; [done..| |done]. intros n [= <-]. by apply Hs.
  - eexists. split; [done|]. rewrite mtime_reason_none. split; [|by intros (_ & _ & _ & _ & _ & ?)].
    intros H. by split_and!.
Qed.

Lemma error_errors error s : ps_errors (scan_error error s) ≠ [].
Proof. cbn. by destruct (ps_errors s). Qed.
(** An active manifest that is verified without an error. *)
Lemma verify_active_clean `{InventoryIo} project manifest s :
  ps_errors (verify_active project manifest s) = [] →
  ps_errors s = [] ∧ ∃ m, manifest = Some m ∧ manifest_has_current_sidecar_contract project m = true ∧
    (probe_health m).1 = lit "full".
Proof.
  unfold verify_active, protection_error. destruct manifest as [m|]; [|by intros Hc%error_errors].
  destruct (manifest_has_current_sidecar_contract project m) eqn:Em; [|by intros Hc%error_errors].
  destruct (probe_health m) as [mode degraded] eqn:Ep. destruct (str_eqb mode (lit "full")) eqn:E;
    cbn [negb]; [|by intros Hc%error_errors].
  apply str_eqb_eq in E as ->. intros Hs. split; [done|]. exists m. by rewrite Ep.
Qed.
Lemma load_active_clean `{InventoryIo} backend json_counts fuel project storage s m s' :
  load_active_manifest backend json_counts fuel project storage s = Some (Some m, s') → ps_errors s' = [] →
  s' = s ∧ storage_is_file storage = true ∧ ∃ store, open_store storage = Ok store ∧
    st_manifest store project = Ok (Some m) ∧
    manifest_unavailable_reason_for_runtime backend json_counts fuel project store m = Some None.
Proof.
  unfold load_active_manifest, record_manifest_freshness, protection_error.
  destruct (storage_is_file storage); [|done]. destruct (open_store storage) as [store|error]; [|done].
  destruct (st_manifest store project) as [[m'|]|error] eqn:Em; [|done..].
  destruct (manifest_unavailable_reason_for_runtime backend json_counts fuel project store m') as [[reason|]|] eqn:Er;
    [|intros [= -> ->] _|done].
  - intros [= -> <-] He. by apply error_errors in He.
  - split_and!; [done..|]. by exists store.
Qed.

(** A cleanup prunes only beside a verified active generation.  When the plan a cleanup
    builds does not suppress pruning, the project's lock was acquired, the scan met no
    error, and the active storage opens with a published manifest of the project that has
    the current contract, is not stale, and whose generation the probe finds in full
    health. *)
Theorem cleanup_needs_fresh_active `{RetentionIo} `{InventoryIo} backend json_counts fuel storage cache_root layout
    project lock plan :
  build_generation_retention_plan backend json_counts fuel storage cache_root layout project
    (inventory_retention_view lock) = Some plan →
  rp_pruning_suppressed plan = false →
  lock = true ∧ rp_errors plan = [] ∧
  ps_errors (scan_retention_protection cache_root (Some storage) (state_file layout)) = [] ∧
  storage_is_file storage = true ∧ ∃ store m,
    open_store storage = Ok store ∧ st_manifest store project = Ok (Some m) ∧
    manifest_has_current_sidecar_contract project m = true ∧
    manifest_staleness_reason_for_runtime backend json_counts fuel store m = Some None ∧
    (probe_health m).1 = lit "full".
Proof.
  unfold build_generation_retention_plan. set (scanned := scan_retention_protection _ _ _). intros Hplan Hopen.
  destruct (load_active_manifest _ _ _ _ _ _) as [[manifest s]|] eqn:El; [|done]. cbn in Hplan.
  destruct (plan_total layout project (verify_active project manifest s) (inventory_retention_view lock))
    as (active & rollback & plan' & Hp & Hf). rewrite Hplan in Hp. injection Hp as <-.
  pose proof (pf_suppressed _ _ _ _ _ _ _ Hf) as Hb. rewrite Hopen in Hb. symmetry in Hb.
  apply bool_decide_eq_false in Hb. unfold effective_state in Hb.
  destruct (rp_errors plan) eqn:He; [|done].
  destruct lock; [|done]. destruct (pf_clean _ _ _ _ _ _ _ Hf He) as (Hv & _).
  apply verify_active_clean in Hv as (Hs & m & -> & Hm & Hprobe).
  apply load_active_clean in El as (-> & Hfile & store & Hstore & Hman & Hr); [|done].
  split_and!; [done..|]. exists store, m. split_and!; [done..| |done].
  unfold manifest_unavailable_reason_for_runtime in Hr. rewrite Hm in Hr. cbn [negb] in Hr.
  destruct (manifest_staleness_reason_for_runtime _ _ _ _ _) as [[reason|]|]; done.
Qed.

Module InventorySample.
Import RetentionSample.
Definition hash : str := lit "0123456789abcdef0123456789abcdef".
Definition fresh : RetrievalIndexManifest :=
  mkRetrievalIndexManifest project LEXICAL_INDEX_VERSION (sidecar_vector_generation project hash) None 100 None []
    (Some (lit "engine")) (Some RETRIEVAL_EMBEDDING_DIM) (Some SIDECAR_SCHEMA_VERSION) (Some hash)
    (Some (sidecar_generation_id project hash)) (Some 2) (Some 5) (Some 2) (Some SEMANTIC_POLICY_VERSION)
    (Some (lit "graph")) (Some (lit "2")) None None None None.
Definition anchor (node_id : Z) (reason : str) : DenseAnchorInput :=
  mkAnchorInput node_id None NodeKind.FUNCTION (lit "f") None None None None FileRole.Source (lit "graph")
    (lit "text") hash reason SEMANTIC_POLICY_VERSION (lit "core:g:r") 0.
Definition anchors : list DenseAnchorInput := [anchor 1 (lit "hub"); anchor 4 (lit "entry")].
Definition store : StoreView := {|
  st_manifest _ := Ok (Some fresh);
  st_symbol_doc_count := Ok 5;
  st_anchor_batch after limit :=
    Ok (take limit (List.filter (λ a, match after with Some n => n <? da_node_id a | None => true end) anchors));
  st_max_mtime := Ok (Some 90) |}.
(** The text of the counts: their number. *)
Definition json_counts (counts : list (str * Z)) : str := show_uint (len counts).
Definition storage_path : str := lit "/cache/p/codestory.db".
Definition fresh_io : RetentionIo := {|
  dir_lookup := dir_lookup;
  path_exists := path_exists;
  read_dir := read_dir;
  read_marker_json := read_marker_json;
  list_retrieval_index_publications path :=
    if str_eqb path storage_path then Ok [(fresh, None)] else Err (lit "no store") |}.
Definition inventory : InventoryIo := {|
  storage_is_file path := str_eqb path storage_path;
  open_store path := Ok store;
  probe_health m := (lit "full", None) |}.
End InventorySample.
Import RetentionSample InventorySample.

Lemma staleness_exact_witness :
  manifest_staleness_reason_for_runtime (lit "engine") json_counts 3 store fresh = Some None ∧
  ∃ counts, counts_of anchors counts ∧ lit "2" = json_counts counts.
Proof.
  destruct (staleness_exact (lit "engine") json_counts 3 store anchors fresh) as (reason & Hr & Hiff).
  - split; [|reflexivity]. repeat constructor.
  - cbn. lia.
  - vm_compute. discriminate.
  - assert (reason = None) as -> by (injection Hr as <-; vm_compute; reflexivity).
    split; [exact Hr|]. destruct (proj1 Hiff eq_refl) as (_ & _ & _ & _ & H & _).
    destruct (H 2 eq_refl) as (_ & _ & Hj). exact (Hj (lit "2") eq_refl).
Defined.
Lemma cleanup_needs_fresh_active_witness : ∃ plan,
  build_generation_retention_plan (H := fresh_io) (H0 := inventory) (lit "engine") json_counts 3 storage_path
    (lit "/cache") layout project (inventory_retention_view true) = Some plan ∧
  rp_reclaimable_bytes plan = 25 ∧ rp_errors plan = [].
Proof.
  eexists. split; [vm_compute; reflexivity|]. split; [reflexivity|].
  refine (proj1 (proj2 (cleanup_needs_fresh_active (H := fresh_io) (H0 := inventory) (lit "engine") json_counts 3
    storage_path (lit "/cache") layout project true _ _ _))); [vm_compute; reflexivity|reflexivity].
Defined.
