(* ===== verification/SidecarStoreProofs.v ===== *)
(** * What a validated publication says about the rows

    Properties of SidecarStore: the anchors a reader validates are the anchors that were
    published, whatever happened in between; a publication that is present is current unless a
    copy of anchors stopped between its two statements; the
    policy exclusions that a workspace revalidates are published, read back and accepted by a
    promotion; the paged and the batched reads see the whole table. *)
From stdpp Require Import relations.
From S2P Require Import Prelude RustStr Graph RetrievalData Sorting StrOps UnixPath WorkspacePaths.
From S2P Require Import WorkspaceRefresh WorkspacePolicyProofs Encoding Promotion SidecarStore RetentionInventory.
Import StoreError (CheckFailed, ForeignKeyFailed, PrimaryKeyFailed, AlreadyAttached, Sqlite).

(** ** Tables *)
Section Table.
Context {R : Type} (key : R → Z).
Definition keyed (table : list R) : Prop := StronglySorted (λ a b, key a < key b) table.

Lemma put_row_elem r table x : keyed table →
  x ∈ put_row key r table ↔ x = r ∨ x ∈ table ∧ key x ≠ key r.
Proof.
  induction 1 as [|y l Hl IH Hy]; cbn; [set_solver|]. rewrite Forall_forall in Hy.
  destruct (Z.ltb_spec (key r) (key y)); [|destruct (Z.eqb_spec (key r) (key y))];
    rewrite !elem_of_cons, ?IH.
  - split; [|naive_solver]. intros [-> | [-> | Hx]]; [by left|right; split; [by left|lia]..|].
    right. split; [by right|]. specialize (Hy x Hx). lia.
  - split; [|naive_solver lia]. intros [-> | Hx]; [by left|]. right. split; [by right|].
    specialize (Hy x Hx). lia.
  - split; [|naive_solver]. intros [-> | [-> | [Hx Hk]]]; [right; split; [by left|lia]|by left|].
    right. split; [by right|done].
Qed.
Lemma put_row_keyed r table : keyed table → keyed (put_row key r table).
Proof.
  induction 1 as [|y l Hl IH Hy]; cbn; [by repeat constructor|]. rewrite Forall_forall in Hy.
  destruct (Z.ltb_spec (key r) (key y)); [|destruct (Z.eqb_spec (key r) (key y))].
  - constructor; [by constructor; [|apply Forall_forall]|]. constructor; [done|].
    apply Forall_forall. intros x Hx. specialize (Hy x Hx). cbn in Hy. lia.
  - constructor; [done|]. apply Forall_forall. intros x Hx. specialize (Hy x Hx). cbn in Hy. lia.
  - constructor; [done|]. apply Forall_forall. intros x [-> | [Hx _]]%put_row_elem; [lia|by apply Hy|done].
Qed.
Lemma filter_keyed (f : R → bool) table : keyed table → keyed (List.filter f table).
Proof.
  induction 1 as [|y l Hl IH Hy]; cbn; [constructor|]. destruct (f y); [|done]. constructor; [done|].
  rewrite Forall_forall in Hy |- *. intros x Hx. apply Hy. apply list_elem_of_In in Hx.
  apply filter_In in Hx as [Hx _]. by apply list_elem_of_In.
Qed.
End Table.

(** Reading rows commutes with a selection of them. *)
Lemma collect_rows_cons {R A} (f : R → result StoreError A) r rows l :
  collect_rows f (r :: rows) = Ok l ↔ ∃ a k, f r = Ok a ∧ collect_rows f rows = Ok k ∧ l = a :: k.
Proof.
  cbn. destruct (f r) as [a|e]; [|split; [done|naive_solver]].
  destruct (collect_rows f rows) as [k|e]; cbn; [|split; [done|naive_solver]].
  split; [intros [= <-]; eauto|]. by intros (? & ? & [= <-] & [= <-] & ->).
Qed.
Lemma collect_rows_filter {R A} (f : R → result StoreError A) (P : R → bool) (Q : A → bool) rows l :
  (∀ r a, f r = Ok a → P r = Q a) → collect_rows f rows = Ok l →
  collect_rows f (List.filter P rows) = Ok (List.filter Q l).
Proof.
  intros HPQ. revert l. induction rows as [|r rows IH]; intros l; [by intros [= <-]|].
  intros (a & k & Ha & Hk & ->)%collect_rows_cons. cbn [List.filter]. rewrite (HPQ _ _ Ha).
  destruct (Q a); [|by apply IH]. apply collect_rows_cons. exists a, (List.filter Q k). auto.
Qed.
Lemma collect_rows_take {R A} (f : R → result StoreError A) n rows l :
  collect_rows f rows = Ok l → collect_rows f (take n rows) = Ok (take n l).
Proof.
  revert n l. induction rows as [|r rows IH]; intros [|n] l; [by intros [= <-]..|done|].
  intros (a & k & Ha & Hk & ->)%collect_rows_cons. cbn [take]. apply collect_rows_cons. eauto 6.
Qed.
Lemma collect_rows_keyed {R A} (f : R → result StoreError A) (key : R → Z) (key' : A → Z) rows l :
  (∀ r a, f r = Ok a → key r = key' a) → keyed key rows → collect_rows f rows = Ok l → keyed key' l.
Proof.
  intros Hkey Hs. revert l. induction Hs as [|r rows Hs IH Hr]; intros l; [intros [= <-]; constructor|].
  intros (a & k & Ha & Hk & ->)%collect_rows_cons. constructor; [by apply IH|]. clear IH Hs.
  revert k Hk. induction Hr as [|r' rows Hr' Hr IH]; intros k; [intros [= <-]; constructor|].
  intros (a' & k' & Ha' & Hk' & ->)%collect_rows_cons. constructor; [|by apply IH].
  by rewrite <- (Hkey _ _ Ha), <- (Hkey _ _ Ha').
Qed.

(** ** Numbers in a message *)
Definition int64 (n : Z) : Prop := i64_min ≤ n ≤ i64_max.
Lemma show_uint_inj a b : 0 ≤ a ≤ u64_max → 0 ≤ b ≤ u64_max → show_uint a = show_uint b → a = b.
Proof.
  intros Ha Hb E. pose proof (parse_show_uint u64_max a Ha) as Pa. pose proof (parse_show_uint u64_max b Hb) as Pb.
  rewrite E in Pa. rewrite Pa in Pb by lia. specialize (Pb ltac:(lia)). congruence.
Qed.
Lemma show_int_inj a b : int64 a → int64 b → show_int a = show_int b → a = b.
Proof.
  unfold int64, i64_min, i64_max, show_int. intros Ha Hb.
  assert (∀ x y, 0 ≤ x ≤ u64_max → lit "-" ++ show_uint y ≠ show_uint x) as Hsign.
  { intros x y Hx E. apply show_uint_digits in Hx as [_ Hd]. rewrite <- E in Hd. apply Forall_cons in Hd as [Hd _].
    by apply (is_digit_test (λ c, negb (Ascii.eqb c "-"%char))) in Hd. }
  destruct (Z.ltb_spec a 0), (Z.ltb_spec b 0); intros E; unfold u64_max in *.
  - injection E as E. apply show_uint_inj in E; unfold u64_max; lia.
  - apply Hsign in E; [done|lia].
  - symmetry in E. apply Hsign in E; [done|lia].
  - apply show_uint_inj in E; unfold u64_max; lia.
Qed.
Lemma show_int_nonempty a : int64 a → show_int a ≠ [].
Proof.
  unfold int64, i64_min, i64_max, show_int. intros Ha. destruct (Z.ltb_spec a 0); [done|].
  apply show_uint_digits. unfold u64_max. lia.
Qed.
Lemma show_option_inj a b : (∀ n, a = Some n → int64 n) → (∀ n, b = Some n → int64 n) →
  show_option show_int a = show_option show_int b → a = b.
Proof.
  intros Ha Hb. destruct a as [a|], b as [b|]; cbn; [|intros E..|done].
  - intros E. f_equal. apply show_int_inj; auto.
  - by apply show_int_nonempty in E; [|auto].
  - symmetry in E. by apply show_int_nonempty in E; [|auto].
Qed.

(** ** The content of the anchors *)
Record typed_anchor (r : DenseAnchorRow) : Prop := {
  ta_node : int64 (ar_node_id r);
  ta_kind : int64 (ar_kind r);
  ta_file : ∀ n, ar_file_node_id r = Some n → int64 n;
  ta_start : ∀ n, ar_start_line r = Some n → int64 n;
  ta_end : ∀ n, ar_end_line r = Some n → int64 n;
  ta_fits : Forall fits (anchor_parts r);
}.
(** Rows that differ at most in their source identity, their time, and in an absent name or
    path being empty. *)
Record same_content (a b : DenseAnchorRow) : Prop := {
  sc_node : ar_node_id a = ar_node_id b;
  sc_file : ar_file_node_id a = ar_file_node_id b;
  sc_kind : ar_kind a = ar_kind b;
  sc_display_name : ar_display_name a = ar_display_name b;
  sc_qualified_name : default [] (ar_qualified_name a) = default [] (ar_qualified_name b);
  sc_file_path : default [] (ar_file_path a) = default [] (ar_file_path b);
  sc_start : ar_start_line a = ar_start_line b;
  sc_end : ar_end_line a = ar_end_line b;
  sc_role : ar_file_role a = ar_file_role b;
  sc_provenance : ar_source_provenance a = ar_source_provenance b;
  sc_text : ar_document_text a = ar_document_text b;
  sc_hash : ar_document_hash a = ar_document_hash b;
  sc_reason : ar_selection_reason a = ar_selection_reason b;
  sc_policy : ar_policy_version a = ar_policy_version b;
}.
Lemma anchor_parts_inj a b : typed_anchor a → typed_anchor b → anchor_parts a = anchor_parts b → same_content a b.
Proof.
  intros [] []. unfold anchor_parts. intros [= E1 E2 E3 ?????? ?????].
  apply show_int_inj in E1; [|done..]. apply show_int_inj in E3; [|done..].
  apply show_option_inj in E2; [|done..].
  match goal with H : show_option _ (ar_start_line _) = _ |- _ => apply show_option_inj in H; [|done..] end.
  match goal with H : show_option _ (ar_end_line _) = _ |- _ => apply show_option_inj in H; [|done..] end.
  by split.
Qed.
Lemma anchor_message_concat rows :
  anchor_message rows = DENSE_ANCHOR_DIGEST_DOMAIN ++ concat (frame <$> concat (anchor_parts <$> rows)).
Proof.
  unfold anchor_message. generalize DENSE_ANCHOR_DIGEST_DOMAIN as h.
  induction rows as [|r rows IH]; intros h; cbn [foldl]; [by rewrite app_nil_r|].
  rewrite IH. unfold hash_anchor. rewrite update_frames_concat, fmap_cons, concat_cons, fmap_app, concat_app.
  by rewrite app_assoc.
Qed.
(** The bytes under the digest determine the content of the rows. *)
Lemma anchor_message_inj l k : Forall typed_anchor l → Forall typed_anchor k →
  anchor_message l = anchor_message k → Forall2 same_content l k.
Proof.
  intros Hl Hk. rewrite !anchor_message_concat. intros E%app_inv_head.
  assert (∀ rows, Forall typed_anchor rows → Forall fits (concat (anchor_parts <$> rows))) as Hfits.
  { intros rows Hr. induction Hr as [|r rows Hr Hrows IH]; [constructor|].
    rewrite fmap_cons, concat_cons. apply Forall_app. split; [apply Hr|exact IH]. }
  apply frames_inj in E; [|by apply Hfits..]. apply (concat_width_inj anchor_parts 14) in E; [|lia|done].
  clear Hfits. revert k Hk E. induction Hl as [|a l Ha Hl IH]; intros [|b k] Hk E; [constructor|done..|].
  apply Forall_cons in Hk as [Hb Hk]. rewrite !fmap_cons in E.
  pose proof (f_equal head E) as E1. pose proof (f_equal tail E) as E2. cbn [head tail] in E1, E2.
  constructor; [|by apply IH]. apply anchor_parts_inj; [done..|]. by apply (inj Some) in E1.
Qed.
Lemma anchor_message_sources source rows : anchor_message (rebind_source source <$> rows) = anchor_message rows.
Proof.
  unfold anchor_message. generalize DENSE_ANCHOR_DIGEST_DOMAIN as h.
  induction rows as [|r rows IH]; intros h; [done|]. cbn [fmap list_fmap foldl]. by rewrite <- IH.
Qed.

(** ** Validation of the anchors *)
Lemma row_count rows : foldl (λ n (_ : DenseAnchorRow), saturating_add u64_max n 1) 0 rows = Z.min u64_max (len rows).
Proof.
  induction rows as [|r rows IH] using rev_ind; [done|].
  rewrite foldl_app, IH, len_app, len_cons, len_nil. cbn [foldl]. unfold saturating_add. lia.
Qed.
Lemma count_where_zero {R} (f : R → bool) table :
  count_where f table = 0 ↔ Forall (λ r, f r = false) table.
Proof.
  unfold count_where. induction table as [|r table IH]; cbn; [by split|]. rewrite Forall_cons, <- IH.
  destruct (f r); [rewrite len_cons; pose proof (len_nonneg (List.filter f table)); split; [lia|naive_solver]|].
  split; [auto|by intros [_ ?]].
Qed.
Lemma other_policies_false policy (rows : list DenseAnchorRow) count :
  other_policies policy count (remove_dups (ar_policy_version <$> rows)) = false →
  Forall (λ r, ar_policy_version r = policy) rows.
Proof.
  unfold other_policies. intros [Hp _]%orb_false_iff. apply Forall_forall. intros r Hr.
  destruct (decide (ar_policy_version r = policy)) as [|Hne]; [done|]. exfalso.
  rewrite <- not_true_iff_false in Hp. apply Hp, existsb_exists. exists (ar_policy_version r). split.
  - apply list_elem_of_In, elem_of_remove_dups. by apply list_elem_of_fmap_2.
  - by apply negb_true_iff, bool_decide_eq_false.
Qed.
(** What a manifest promises of a publication. *)
Definition anchors_match (sha256 : str → str) (p : IndexPublicationRecord) (m : DenseAnchorPublicationManifest)
    (rows : list DenseAnchorRow) : Prop :=
  (am_schema_version m = DENSE_ANCHOR_PUBLICATION_SCHEMA_VERSION ∧ am_complete m = true ∧
   am_core_generation_id m = ip_generation_id p ∧ am_core_run_id m = ip_run_id p ∧
   am_migration_state m = DENSE_ANCHOR_MIGRATION_STATE_NATIVE ∧ is_blank (am_policy_version m) = false) ∧
  am_anchor_count m = (dense_anchor_content_summary sha256 rows).1.1 ∧
  am_anchor_digest m = sha256 (anchor_message rows) ∧
  other_policies (am_policy_version m) (dense_anchor_content_summary sha256 rows).1.1
    (remove_dups (ar_policy_version <$> rows)) = false ∧
  Forall (λ r, ar_source_identity r = anchor_source_identity p) rows.
Lemma validate_anchors_ok sha256 p s m : validate_dense_anchor_publication sha256 p s = Ok m ↔
  get_dense_anchor_publication_manifest s = Some m ∧ anchors_match sha256 p m (co_anchors s).
Proof.
  unfold validate_dense_anchor_publication, anchors_match.
  destruct (get_dense_anchor_publication_manifest s) as [m'|]; cbn [ok_or]; [|split; [done|by intros [? _]]].
  unfold mbind, result_bind. rewrite (surjective_pairing (dense_anchor_content_summary sha256 (co_anchors s))).
  unfold dense_anchor_content_summary. cbn [fst snd].
  set (count := foldl _ 0 _). set (digest := sha256 _).
  assert (count_where (λ r, negb (str_eqb (ar_source_identity r) (anchor_source_identity p))) (co_anchors s) = 0 ↔
    Forall (λ r, ar_source_identity r = anchor_source_identity p) (co_anchors s)) as <-.
  { rewrite count_where_zero. apply Forall_iff. intros r. by rewrite negb_false_iff, str_eqb_eq. }
  destruct (_ || is_blank _) eqn:E1.
  { split; [done|]. intros ([= ->] & (H1 & H2 & H3 & H4 & H5 & H6) & _). rewrite H2, H6, orb_false_r in E1.
    by rewrite (proj2 (Z.eqb_eq _ _) H1), (proj2 (str_eqb_eq _ _) H3), (proj2 (str_eqb_eq _ _) H4),
      (proj2 (str_eqb_eq _ _) H5) in E1. }
  rewrite !orb_false_iff, !negb_false_iff, Z.eqb_eq, !str_eqb_eq in E1.
  destruct (_ || other_policies _ _ _) eqn:E2.
  { split; [done|]. intros ([= ->] & _ & H1 & H2 & H3 & _). rewrite H3, orb_false_r in E2.
    by rewrite (proj2 (Z.eqb_eq _ _) H1), (proj2 (str_eqb_eq _ _) H2) in E2. }
  rewrite !orb_false_iff, !negb_false_iff, Z.eqb_eq, !str_eqb_eq in E2.
  destruct (_ =? 0) eqn:E3; cbn [negb]; [apply Z.eqb_eq in E3|apply Z.eqb_neq in E3].
  - split; [intros [= <-]; naive_solver|]. by intros ([= <-] & _).
  - split; [done|]. by intros (_ & _ & _ & _ & _ & ?).
Qed.

(** ** Publication *)
Lemma require_ok b u : require b = Ok u ↔ b = true.
Proof. destruct b, u; cbn; by split. Qed.
Definition published_manifest (sha256 : str → str) (p : IndexPublicationRecord) (policy : str)
    (rows : list DenseAnchorRow) : DenseAnchorPublicationManifest :=
  mkAnchorManifest DENSE_ANCHOR_PUBLICATION_SCHEMA_VERSION true (ip_generation_id p) (ip_run_id p)
    (Z.min u64_max (len rows)) (sha256 (anchor_message rows)) policy DENSE_ANCHOR_MIGRATION_STATE_NATIVE
    (ip_published_at_epoch_ms p).
Lemma publish_anchors_ok sha256 p policy s m s' :
  publish_dense_anchor_generation sha256 p policy s = Ok (m, s') →
  is_blank policy = false ∧ m = published_manifest sha256 p policy (co_anchors s) ∧
  other_policies policy (Z.min u64_max (len (co_anchors s))) (remove_dups (ar_policy_version <$> co_anchors s)) = false ∧
  s' = with_anchor_publication (Some (anchor_publication_row m))
         (with_anchors (rebind_source (anchor_source_identity p) <$> co_anchors s) s).
Proof.
  unfold publish_dense_anchor_generation. destruct (_ || is_blank policy) eqn:E1; [done|].
  apply orb_false_iff in E1 as [_ Hblank].
  set (s1 := with_anchors _ s). unfold dense_anchor_content_summary.
  assert (co_anchors s1 = rebind_source (anchor_source_identity p) <$> co_anchors s) as E by done.
  rewrite E, row_count. unfold len. rewrite length_fmap, anchor_message_sources.
  assert (ar_policy_version <$> (rebind_source (anchor_source_identity p) <$> co_anchors s) =
    ar_policy_version <$> co_anchors s) as -> by (rewrite <- list_fmap_compose; by apply list_fmap_ext).
  destruct (other_policies _ _ _) eqn:E2; [done|]. unfold mbind, result_bind.
  destruct (require _); [|done]. intros [= <- <-]. by split_and!.
Qed.
Lemma publish_anchors_valid sha256 p policy s m s' : len (co_anchors s) ≤ i64_max →
  publish_dense_anchor_generation sha256 p policy s = Ok (m, s') →
  ∀ p', ip_generation_id p' = ip_generation_id p → ip_run_id p' = ip_run_id p →
  validate_dense_anchor_publication sha256 p' s' = Ok m.
Proof.
  intros Hlen (Hblank & -> & Hpol & ->)%publish_anchors_ok p' Hg Hr. pose proof (len_nonneg (co_anchors s)) as Hn.
  unfold i64_max, u64_max in *. apply validate_anchors_ok. split.
  - unfold get_dense_anchor_publication_manifest, published_manifest, u64_max.
    cbn -[Z.min Z.max i64_max u32_max DENSE_ANCHOR_PUBLICATION_SCHEMA_VERSION]. unfold i64_max.
    assert (((2 ^ 64 - 1) `min` len (co_anchors s)) `min` (2 ^ 63 - 1) `max` 0 = (2 ^ 64 - 1) `min` len (co_anchors s))
      as -> by lia. done.
  - unfold anchors_match, dense_anchor_content_summary. cbn [co_anchors with_anchor_publication with_anchors fst snd].
    rewrite row_count, anchor_message_sources. unfold len. rewrite length_fmap.
    rewrite <- list_fmap_compose. change (ar_policy_version ∘ rebind_source _) with ar_policy_version.
    split_and!; cbn; [done..|by unfold u64_max|done|exact Hpol|]. apply Forall_fmap, Forall_true. intros r.
    cbn. unfold anchor_source_identity. by rewrite Hg, Hr.
Qed.

(** ** The life of a publication *)
Definition anchors_keyed (s : Core) : Prop := keyed ar_node_id (co_anchors s).
(** A committed transaction that is not a publication of the anchors.  [change_docs] stands for
    the operations on the other tables, [change_dropping] for the transactions that rewrite
    nodes or files and drop the publication with them. *)
Inductive change (s : Core) : Core → Prop :=
| change_upsert inputs s' : upsert_dense_anchor_inputs_batch inputs s = Ok s' → change s s'
| change_clear : change s (clear_dense_anchor_inputs s).2
| change_prune keep : change s (prune_dense_anchor_inputs_to_node_ids keep s).2
| change_delete files keep :
    change s (delete_dense_anchor_inputs_for_files_except_node_ids files keep s).2
| change_copy source io : (∀ rows, source = Some (Ok rows) → keyed ar_node_id rows) →
    io_delete io = Ok tt → change s (copy_dense_anchor_inputs_from source io s).2
| change_docs s' : co_anchors s' = co_anchors s → co_anchor_publication s' = co_anchor_publication s → change s s'
| change_dropping s' : anchors_keyed s' → co_anchor_publication s' = None → change s s'.
(** A copy that ends between its insert and the drop of the publication. *)
Inductive torn (s : Core) : Core → Prop :=
| torn_failed rows io e : keyed ar_node_id rows → io_delete io = Err e →
    torn s (copy_dense_anchor_inputs_from (Some (Ok rows)) io s).2
| torn_died rows : keyed ar_node_id rows → torn s (with_attached false (insert_copied rows s)).
Inductive publication (sha256 : str → str) (s : Core) : Core → Prop :=
| publication_step p policy m s' : len (co_anchors s) ≤ i64_max →
    publish_dense_anchor_generation sha256 p policy s = Ok (m, s') → publication sha256 s s'.

(** After a change the publication is gone, or it and the anchors are what they were. *)
Definition dropped_or_kept (s s' : Core) : Prop :=
  co_anchor_publication s' = None ∨
  co_anchor_publication s' = co_anchor_publication s ∧ co_anchors s' = co_anchors s.
Lemma delete_where_none {R} (f : R → bool) table : count_where f table = 0 → delete_where f table = table.
Proof.
  rewrite count_where_zero. unfold delete_where. induction 1 as [|r table Hr Ht IH]; cbn; [done|].
  by rewrite Hr, IH.
Qed.
Lemma count_where_nonneg {R} (f : R → bool) table : 0 ≤ count_where f table.
Proof. apply len_nonneg. Qed.
Lemma delete_anchors_kept f s : dropped_or_kept s (delete_anchors f s).2.
Proof.
  unfold delete_anchors, dropped_or_kept. pose proof (count_where_nonneg f (co_anchors s)) as Hn.
  destruct (Z.ltb_spec 0 (count_where f (co_anchors s))); cbn [snd]; [by left|]. right. split; [done|].
  cbn. apply delete_where_none. lia.
Qed.
Lemma change_kept s s' : change s s' → dropped_or_kept s s'.
Proof.
  intros [inputs s1 Hu| |keep|files keep|source io _ Hio|s1 Ha Hp|s1 _ Hp].
  - destruct inputs as [|i inputs]; cbn [upsert_dense_anchor_inputs_batch] in Hu; [injection Hu as <-; by right|].
    unfold mbind, result_bind in Hu. destruct (try_fold _ _ _); [|done]. injection Hu as <-. by left.
  - by left.
  - destruct keep; [by left|]. apply delete_anchors_kept.
  - destruct files; [by right|]. apply delete_anchors_kept.
  - unfold copy_dense_anchor_inputs_from. destruct source as [[rows|e]|]; [|by right..].
    destruct (co_anchor_source_attached s); [by right|]. destruct (io_attach io); [|by right].
    destruct (io_insert io); [|by right]. rewrite Hio. by left.
  - by right.
  - by left.
Qed.
Lemma torn_row s s' : torn s s' → co_anchor_publication s' = co_anchor_publication s.
Proof.
  intros [rows io e _ Hio|rows _]; [|done]. unfold copy_dense_anchor_inputs_from.
  destruct (co_anchor_source_attached s); [done|]. destruct (io_attach io); [|done].
  destruct (io_insert io); [|done]. by rewrite Hio.
Qed.

(** [C7] The anchors a reader validates are the ones that were published.  A publication of
    the anchors is followed by any committed changes of the tables, by copies that stop half
    way and by failed transactions, but by no other publication.  If the publication then
    validates for some core publication, it is the manifest that was published, the core
    publication has its generation and its run, every anchor is bound to it, and the rows
    have the content they had when they were published; otherwise the two tables are a
    collision of the digest. *)
Theorem validated_anchors_published sha256 p policy s0 m s1 s2 p' m' :
  publish_dense_anchor_generation sha256 p policy s0 = Ok (m, s1) → len (co_anchors s0) ≤ i64_max →
  rtc (λ s s', change s s' ∨ torn s s') s1 s2 →
  Forall typed_anchor (co_anchors s0) → Forall typed_anchor (co_anchors s2) →
  validate_dense_anchor_publication sha256 p' s2 = Ok m' →
  m' = m ∧ ip_generation_id p' = ip_generation_id p ∧ ip_run_id p' = ip_run_id p ∧
  Forall (λ r, ar_source_identity r = anchor_source_identity p ∧ ar_policy_version r = policy) (co_anchors s2) ∧
  (Forall2 same_content (co_anchors s0) (co_anchors s2) ∨
   ∃ a b, a ≠ b ∧ sha256 a = sha256 b).
Proof.
  intros Hpub Hlen Hsteps Ht0 Ht2 Hv.
  assert (co_anchor_publication s2 = None ∨ co_anchor_publication s2 = co_anchor_publication s1) as Hrow.
  { clear -Hsteps. induction Hsteps as [|s s' s'' [Hs|Hs] _ IH]; [by right|..].
    - apply change_kept in Hs as [Hs | [Hs _]]; destruct IH as [IH|IH]; rewrite ?Hs in IH; auto.
    - apply torn_row in Hs. destruct IH as [IH|IH]; rewrite ?Hs in IH; auto. }
  pose proof (publish_anchors_valid _ _ _ _ _ _ Hlen Hpub p eq_refl eq_refl) as Hv1.
  apply validate_anchors_ok in Hv as [Hm' Hmatch], Hv1 as [Hm _].
  assert (m' = m) as ->.
  { unfold get_dense_anchor_publication_manifest in *. destruct Hrow as [Hrow|Hrow]; rewrite Hrow in Hm'; [done|].
    rewrite Hm in Hm'. by injection Hm'. }
  apply publish_anchors_ok in Hpub as (_ & -> & _ & _).
  destruct Hmatch as ((_ & _ & Hg & Hr & _) & _ & Hd & Hpol & Hsrc). cbn in Hg, Hr, Hd.
  split_and!; [done..| |].
  - apply other_policies_false in Hpol. apply Forall_and. split; [|exact Hpol]. clear -Hsrc Hg Hr.
    apply (Forall_impl _ _ _ Hsrc). intros r ->. unfold anchor_source_identity. by rewrite Hg, Hr.
  - destruct (decide (anchor_message (co_anchors s0) = anchor_message (co_anchors s2))) as [E|E].
    + left. by apply anchor_message_inj.
    + right. eauto.
Qed.

Lemma put_rows_keyed rows table : keyed ar_node_id table →
  keyed ar_node_id (foldl (λ t r, put_row ar_node_id r t) table rows).
Proof. revert table. induction rows as [|r rows IH]; intros table Ht; [done|]. by apply IH, put_row_keyed. Qed.
Lemma upsert_keyed inputs s s' : anchors_keyed s → upsert_dense_anchor_inputs_batch inputs s = Ok s' → anchors_keyed s'.
Proof.
  intros Hs. destruct inputs as [|i inputs]; cbn [upsert_dense_anchor_inputs_batch]; [by intros [= <-]|].
  unfold mbind, result_bind. destruct (try_fold _ _ _) as [table|] eqn:E; [|done]. intros [= <-].
  unfold anchors_keyed. cbn. revert E. generalize (anchor_row <$> i :: inputs) as rows.
  unfold anchors_keyed in Hs. revert Hs. generalize (co_anchors s) as t. intros t Ht rows. revert t Ht.
  induction rows as [|r rows IH]; intros t Ht; cbn [try_fold]; [by intros [= <-]|].
  unfold mbind, result_bind, put_anchor at 1. unfold mbind, result_bind.
  destruct (anchor_constraints _ r); [|done]. apply IH. by apply put_row_keyed.
Qed.
Lemma delete_anchors_keyed f s : anchors_keyed s → anchors_keyed (delete_anchors f s).2.
Proof.
  intros Hs. unfold delete_anchors. cbn [snd].
  assert (keyed ar_node_id (delete_where f (co_anchors s))) as Hk by by apply filter_keyed.
  by destruct (0 <? _).
Qed.
Lemma insert_copied_keyed rows s : anchors_keyed s → anchors_keyed (insert_copied rows s).
Proof. apply put_rows_keyed. Qed.
Lemma copy_keyed source io s : anchors_keyed s → anchors_keyed (copy_dense_anchor_inputs_from source io s).2.
Proof.
  intros Hs. unfold copy_dense_anchor_inputs_from. destruct source as [[rows|e]|]; [|done..].
  destruct (co_anchor_source_attached s); [done|]. destruct (io_attach io); [|done].
  pose proof (insert_copied_keyed rows s Hs) as Hk. destruct (io_insert io); [|done]. by destruct (io_delete io).
Qed.
Lemma rebind_sources_keyed source rows : keyed ar_node_id rows → keyed ar_node_id (rebind_source source <$> rows).
Proof.
  induction 1 as [|r rows Hs IH Hr]; cbn; [constructor|]. constructor; [done|]. by apply Forall_fmap.
Qed.
Lemma change_keyed s s' : change s s' → anchors_keyed s → anchors_keyed s'.
Proof.
  intros [inputs s1 Hu| |keep|files keep|source io _ _|s1 Ha _|s1 Hk _] Hs.
  - by eapply upsert_keyed.
  - constructor.
  - destruct keep; [constructor|]. by apply delete_anchors_keyed.
  - destruct files; [done|]. by apply delete_anchors_keyed.
  - by apply copy_keyed.
  - unfold anchors_keyed. by rewrite Ha.
  - done.
Qed.

(** The transactions of the store, by what they do to the anchors and their publication: each
    is one transaction, so it happens as a whole or not at all. *)
Inductive transaction (s : Core) : Core → Prop :=
| tx_upsert inputs s' : upsert_dense_anchor_inputs_batch inputs s = Ok s' → transaction s s'
| tx_clear : transaction s (clear_dense_anchor_inputs s).2
| tx_prune keep : transaction s (prune_dense_anchor_inputs_to_node_ids keep s).2
| tx_delete files keep : transaction s (delete_dense_anchor_inputs_for_files_except_node_ids files keep s).2
| tx_insert_nodes : transaction s (drop_anchor_publication s)
| tx_rebase source_root target_root : transaction s (rebase_dense_anchors source_root target_root s)
| tx_remove_file related file : transaction s (remove_file_anchors related file s)
| tx_prune_artifacts reports keep : transaction s (prune_artifact_anchors reports keep s).2
| tx_others s' : co_anchors s' = co_anchors s → co_anchor_publication s' = co_anchor_publication s → transaction s s'.
Lemma transaction_change s s' : anchors_keyed s → transaction s s' → change s s'.
Proof.
  intros Hk [inputs s1 Hu| |keep|files keep| |a b|related file|reports keep|s1 Ha Hp].
  - by eapply change_upsert.
  - apply change_clear.
  - apply change_prune.
  - apply change_delete.
  - by apply change_dropping.
  - apply change_dropping; [|done]. unfold anchors_keyed, rebase_dense_anchors. cbn. revert Hk. unfold anchors_keyed, keyed.
    induction (co_anchors s) as [|r rows IH]; cbn; [done|]. intros [Hs Hr]%StronglySorted_inv.
    constructor; [by apply IH|]. by apply Forall_fmap.
  - apply change_dropping; [|done]. apply filter_keyed. exact Hk.
  - destruct (delete_anchors_kept (λ r, member reports (ar_node_id r) && negb (member keep (ar_node_id r))) s) as [H|[H1 H2]].
    + apply change_dropping; [|exact H]. by apply delete_anchors_keyed.
    + by apply change_docs.
  - by apply change_docs.
Qed.
(** The copy is no transaction: its INSERT and its DELETE are statements of their own.  It is torn
    when the first took effect and the second did not. *)
Definition copy_torn (source : option (result StoreError (list DenseAnchorRow))) (io : CopyIo) (s : Core) : bool :=
  match source, io_attach io, io_insert io, io_delete io with
  | Some (Ok _), Ok _, Ok _, Err _ => negb (co_anchor_source_attached s)
  | _, _, _, _ => false
  end.
(** A database with whether a copy was torn since the last publication. *)
Inductive step (sha256 : str → str) : bool * Core → bool * Core → Prop :=
| step_transaction torn s s' : transaction s s' → step sha256 (torn, s) (torn, s')
| step_copy torn source io s : (∀ rows, source = Some (Ok rows) → keyed ar_node_id rows) →
    step sha256 (torn, s) (torn || copy_torn source io s, (copy_dense_anchor_inputs_from source io s).2)
| step_copy_died torn rows s : step sha256 (torn, s) (true, with_attached false (insert_copied rows s))
| step_publication torn s s' : publication sha256 s s' → step sha256 (torn, s) (false, s').
Lemma whole_copy_kept source io s : copy_torn source io s = false →
  dropped_or_kept s (copy_dense_anchor_inputs_from source io s).2.
Proof.
  unfold copy_torn, copy_dense_anchor_inputs_from. destruct source as [[rows|e]|]; [|by right..].
  destruct (co_anchor_source_attached s); [by right|]. destruct (io_attach io); [|by right].
  destruct (io_insert io); [|by right]. destruct (io_delete io); [by left|done].
Qed.
Definition current (sha256 : str → str) (s : Core) : Prop :=
  ∀ row, co_anchor_publication s = Some row → ∀ p,
    ip_generation_id p = ap_core_generation_id row → ip_run_id p = ap_core_run_id row →
    ∃ m, validate_dense_anchor_publication sha256 p s = Ok m.
Lemma kept_current sha256 s s' : dropped_or_kept s s' → current sha256 s → current sha256 s'.
Proof.
  intros [Hs|[Hs Ha]] Hv row Hrow p Hg Hr; rewrite Hs in Hrow; [done|].
  destruct (Hv row Hrow p Hg Hr) as [m Hm]. exists m. rewrite <- Hm.
  unfold validate_dense_anchor_publication, get_dense_anchor_publication_manifest. by rewrite Hs, Ha.
Qed.
Lemma step_current sha256 torn s torn' s' : step sha256 (torn, s) (torn', s') →
  anchors_keyed s → (torn = false → current sha256 s) →
  anchors_keyed s' ∧ (torn' = false → current sha256 s').
Proof.
  intros Hstep Hk Hv. inversion Hstep as [? ? ? Ht|? source io ? Hsource|? rows ?|? ? ? [p policy m ? Hlen Hpub]]; subst.
  - apply transaction_change in Ht; [|done]. split; [by eapply change_keyed|]. intros ->.
    eapply kept_current; [by apply change_kept|by apply Hv].
  - split; [by apply copy_keyed|]. intros [-> Hw]%orb_false_iff. eapply kept_current; [by apply whole_copy_kept|by apply Hv].
  - split; [by apply insert_copied_keyed|done].
  - pose proof (publish_anchors_valid _ _ _ _ _ _ Hlen Hpub) as Hvalid.
    apply publish_anchors_ok in Hpub as (_ & -> & _ & ->). split; [by apply rebind_sources_keyed|].
    intros _ row [= <-] p' Hg Hr. eexists. apply Hvalid; [exact Hg|exact Hr].
Qed.

(** [C20] When a publication of the anchors that is present is current.  From a database without
    one, however the transactions of the store, copies of anchors and publications follow each
    other, and however the statements of the copies end, the anchors stay a table with one row
    per node; a publication that is stored validates only for the core publications of its
    generation and run; and it validates for all of them, unless since it was stored a copy
    inserted its rows and then, failing or dying, did not drop the publication. *)
Theorem anchor_publication_current sha256 torn0 s0 torn s :
  anchors_keyed s0 → co_anchor_publication s0 = None →
  rtc (step sha256) (torn0, s0) (torn, s) →
  anchors_keyed s ∧
  ∀ row, co_anchor_publication s = Some row → ∀ p,
    ((∃ m, validate_dense_anchor_publication sha256 p s = Ok m) →
     ip_generation_id p = ap_core_generation_id row ∧ ip_run_id p = ap_core_run_id row) ∧
    (torn = false → ip_generation_id p = ap_core_generation_id row → ip_run_id p = ap_core_run_id row →
     ∃ m, validate_dense_anchor_publication sha256 p s = Ok m).
Proof.
  intros Hk0 H0 Hsteps.
  assert (∀ x y, rtc (step sha256) x y → anchors_keyed x.2 → (x.1 = false → current sha256 x.2) →
    anchors_keyed y.2 ∧ (y.1 = false → current sha256 y.2)) as Hall.
  { induction 1 as [x|[b1 x] [b2 y] z Hstep _ IH]; [done|]. cbn [fst snd] in *. intros Hk Hv.
    by destruct (step_current _ _ _ _ _ Hstep Hk Hv) as [Hk' Hv']; apply IH. }
  destruct (Hall _ _ Hsteps Hk0) as [Hk Hv]; [intros _ row; cbn; by rewrite H0|]. split; [exact Hk|].
  intros row Hrow p. split; [|intros Ht; exact (Hv Ht row Hrow p)].
  intros (m & [Hm Hmatch]%validate_anchors_ok). unfold get_dense_anchor_publication_manifest in Hm.
  rewrite Hrow in Hm. injection Hm as <-. destruct Hmatch as ((_ & _ & Hg & Hr & _) & _). by split.
Qed.

(** A copy whose last statement fails leaves its source attached: the publication is kept
    beside the copied rows, and no later copy on the connection succeeds. *)
Theorem failed_copy_stays_attached rows io e s :
  io_attach io = Ok tt → io_insert io = Ok tt → io_delete io = Err e → co_anchor_source_attached s = false →
  ∃ s', copy_dense_anchor_inputs_from (Some (Ok rows)) io s = (Err e, s') ∧
    co_anchors s' = co_anchors (insert_copied rows s) ∧ co_anchor_publication s' = co_anchor_publication s ∧
    ∀ rows' io', copy_dense_anchor_inputs_from (Some (Ok rows')) io' s' = (Err AlreadyAttached, s').
Proof.
  intros Ha Hi Hd Hs. unfold copy_dense_anchor_inputs_from. rewrite Ha, Hi, Hd, Hs.
  by exists (with_attached true (insert_copied rows s)).
Qed.

(** ** Policy exclusions *)
Section Exclusions.
Context (p : IndexPublicationRecord) (project_id workspace_id : str) (policy : SourcePolicyExclusionPolicyIdentity).
Local Notation record := (exclusion_record p project_id workspace_id).
Local Notation visit := (visit_exclusion p project_id workspace_id policy).

Lemma candidate_invalid_previous previous c :
  candidate_invalid policy previous c =
  candidate_invalid policy None c || bool_decide (previous = Some (ex_normalized_path c)).
Proof.
  unfold candidate_invalid. rewrite (bool_decide_eq_false_2 (None = _)) by done.
  destruct (bool_decide _); rewrite ?orb_true_r, ?orb_false_r; [|done]. cbn [orb]. done.
Qed.
Lemma visit_exclusions_ok l : ∀ previous acc out,
  try_fold visit (previous, acc) l = Ok out →
  out.2 = acc ++ (record <$> l) ∧ Forall (λ c, candidate_invalid policy None c = false) l.
Proof.
  induction l as [|c l IH]; intros previous acc out; cbn [try_fold].
  { intros [= <-]. split; [by rewrite app_nil_r|constructor]. }
  unfold mbind at 1, result_bind, visit_exclusion at 1. cbn [fst snd].
  destruct (candidate_invalid policy previous c) eqn:E; [discriminate|].
  intros [Hl0 Hl]%IH. rewrite candidate_invalid_previous in E.
  apply orb_false_iff in E as [E _]. split; [by rewrite Hl0, <- app_assoc|by constructor].
Qed.
Lemma visit_exclusions l : ∀ previous acc, sorted_by exclusion_leb l →
  Forall (λ c, candidate_invalid policy None c = false) l → NoDup (ex_normalized_path <$> l) →
  (∀ path, previous = Some path → path ∉ ex_normalized_path <$> l) →
  ∃ last, try_fold visit (previous, acc) l = Ok (last, acc ++ (record <$> l)).
Proof.
  induction l as [|c l IH]; intros previous acc Hs Hv Hnd Hp; cbn [try_fold fmap list_fmap].
  { exists previous. by rewrite app_nil_r. }
  apply Forall_cons in Hv as [Hc Hv]. apply NoDup_cons in Hnd as [Hnot Hnd].
  assert (visit (previous, acc) c = Ok (Some (ex_normalized_path c), acc ++ [record c])) as ->.
  { unfold visit_exclusion. cbn [fst snd]. rewrite candidate_invalid_previous, Hc. cbn [orb].
    rewrite bool_decide_eq_false_2; [done|]. intros E. apply (Hp _ E). by left. }
  apply StronglySorted_inv in Hs as [Hs _]. unfold mbind at 1, result_bind.
  destruct (IH (Some (ex_normalized_path c)) (acc ++ [record c]) Hs Hv Hnd) as [last Hl]; [by intros ? [= <-]|].
  exists last. rewrite Hl. by rewrite <- app_assoc.
Qed.
End Exclusions.

(** ** Rows of exclusions *)
Lemma insert_exclusions_ok rows : ∀ acc out, try_fold insert_exclusion acc rows = Ok out →
  out = acc ++ rows ∧ Forall (λ r, exclusion_row_checks r = true) rows.
Proof.
  induction rows as [|r rows IH]; intros acc out; cbn [try_fold]; [intros [= <-]; by rewrite app_nil_r|].
  unfold mbind at 1, result_bind. destruct (insert_exclusion acc r) as [acc'|] eqn:E; [|discriminate].
  unfold insert_exclusion, mbind, result_bind in E. destruct (require _) as [u|] eqn:Er; [|discriminate].
  destruct (existsb _ acc); [discriminate|]. injection E as <-. apply require_ok in Er.
  intros [-> Hrows]%IH. split; [by rewrite <- app_assoc|by constructor].
Qed.
Lemma insert_exclusions rows : ∀ acc, Forall (λ r, exclusion_row_checks r = true) rows →
  NoDup (xr_normalized_path <$> acc ++ rows) → try_fold insert_exclusion acc rows = Ok (acc ++ rows).
Proof.
  induction rows as [|r rows IH]; intros acc Hrows Hnd; cbn [try_fold]; [by rewrite app_nil_r|].
  apply Forall_cons in Hrows as [Hr Hrows].
  assert (insert_exclusion acc r = Ok (acc ++ [r])) as ->.
  { unfold insert_exclusion. rewrite (proj2 (require_ok _ tt) Hr). unfold mbind, result_bind.
    destruct (existsb _ acc) eqn:E; [|done]. apply existsb_exists in E as (x & Hx & E).
    apply str_eqb_eq in E. rewrite fmap_app in Hnd. apply NoDup_app in Hnd as (_ & Hnot & _).
    destruct (Hnot (xr_normalized_path x)); [apply list_elem_of_fmap_2; by apply list_elem_of_In|].
    rewrite E. cbn. by left. }
  unfold mbind at 1, result_bind. rewrite IH; [by rewrite <- app_assoc|done|by rewrite <- app_assoc].
Qed.
Lemma exclusion_row_id r : xr_observed_size r ≤ i64_max → xr_observed_unit_count r ≤ i64_max →
  xr_byte_cap r ≤ i64_max → xr_structural_unit_cap r ≤ i64_max → exclusion_row r = r.
Proof.
  intros H1 H2 H3 H4. unfold exclusion_row, as_i64. rewrite !(proj2 (Z.leb_le _ i64_max)) by done. by destruct r.
Qed.
Lemma read_exclusion r : exclusion_row_checks r = true → exclusion_from_row r = Ok r.
Proof.
  unfold exclusion_row_checks. rewrite !andb_true_iff, !Z.ltb_lt, Z.leb_le. intros H.
  unfold exclusion_from_row, get_u64. rewrite !(proj2 (Z.ltb_ge _ 0)) by lia. by destruct r.
Qed.
Lemma read_exclusions rows : Forall (λ r, exclusion_row_checks r = true) rows →
  collect_rows exclusion_from_row rows = Ok rows.
Proof.
  induction 1 as [|r rows Hr Hrows IH]; [done|]. apply collect_rows_cons. exists r, rows.
  by rewrite (read_exclusion r Hr).
Qed.
Lemma candidate_bounds policy c : candidate_invalid policy None c = false →
  ex_observed_size c ≤ i64_max ∧ ex_observed_unit_count c ≤ i64_max ∧
  ex_policy_version c = pi_policy_version policy ∧ ex_byte_cap c = pi_byte_cap policy ∧
  ex_structural_unit_cap c = pi_structural_unit_cap policy ∧
  byte_bound (ex_observed_size c) (ex_observed_unit_count c) (pi_byte_cap policy)
  || unit_bound (ex_observed_size c) (ex_observed_unit_count c) (pi_byte_cap policy)
       (pi_structural_unit_cap policy) = true.
Proof.
  unfold candidate_invalid. rewrite !orb_false_iff, !negb_false_iff, !Z.ltb_ge, !Z.eqb_eq, str_eqb_eq.
  generalize i64_max. naive_solver.
Qed.
(** The sorted records are the order in which they are read. *)
Lemma by_path_records p project_id workspace_id candidates :
  by_path (exclusion_record p project_id workspace_id <$> sort_exclusions candidates) =
  exclusion_record p project_id workspace_id <$> sort_exclusions candidates.
Proof.
  apply sort_by_id. pose proof (sort_exclusions_sorted candidates) as Hs. unfold sorted_by in *.
  induction Hs as [|c l Hs IH Hc]; cbn; [constructor|]. constructor; [done|]. apply Forall_fmap.
  exact Hc.
Qed.

(** ** Publishing and reading exclusions *)
Section PublishExclusions.
Context (p : IndexPublicationRecord) (project_id workspace_id : str)
  (policy : SourcePolicyExclusionPolicyIdentity) (candidates : list OversizedSourceExclusionCandidate).
Definition published_exclusions : list SourcePolicyExclusionRecord :=
  exclusion_record p project_id workspace_id <$> sort_exclusions candidates.
Lemma identity_caps : publication_identity_invalid p project_id workspace_id policy = false →
  pi_byte_cap policy ≤ i64_max ∧ pi_structural_unit_cap policy ≤ i64_max.
Proof.
  unfold publication_identity_invalid. rewrite !orb_false_iff, !Z.ltb_ge. generalize i64_max. naive_solver.
Qed.
Lemma exclusion_rows : publication_identity_invalid p project_id workspace_id policy = false →
  Forall (λ c, candidate_invalid policy None c = false) (sort_exclusions candidates) →
  exclusion_row <$> published_exclusions = published_exclusions.
Proof.
  intros [Hc Hu]%identity_caps Hv. unfold published_exclusions.
  induction Hv as [|c l Hb Hv IH]; cbn [fmap list_fmap]; [done|].
  apply candidate_bounds in Hb as (H1 & H2 & _ & H4 & H5 & _). f_equal; [|exact IH].
  apply exclusion_row_id; cbn; congruence || by rewrite ?H4, ?H5.
Qed.

Context (sha256 : str → str).
Definition exclusion_manifest : SourcePolicyExclusionManifest :=
  mkExclusionManifest SOURCE_POLICY_EXCLUSION_PUBLICATION_SCHEMA_VERSION true project_id workspace_id
    (ip_generation_id p) (ip_run_id p) (len published_exclusions) (sha256 (exclusion_message published_exclusions))
    (pi_policy_version policy) (pi_byte_cap policy) (pi_structural_unit_cap policy) (ip_published_at_epoch_ms p).
Definition exclusion_identity : SourcePolicyExclusionRollbackIdentity :=
  mkPolicyIdentity project_id workspace_id (ip_generation_id p) (ip_run_id p) (ip_published_at_epoch_ms p)
    (len published_exclusions) (sha256 (exclusion_message published_exclusions)) (pi_policy_version policy)
    (pi_byte_cap policy) (pi_structural_unit_cap policy).
Lemma publish_exclusions_ok s m s' : len candidates ≤ i64_max →
  publish_source_policy_exclusion_generation sha256 p project_id workspace_id policy candidates s = Ok (m, s') →
  m = exclusion_manifest ∧ s' = with_exclusions published_exclusions (Some (exclusion_publication_row m)) s ∧
  Forall (λ r, exclusion_row_checks r = true) published_exclusions ∧
  Forall (λ c, candidate_invalid policy None c = false) candidates ∧
  0 ≤ pi_byte_cap policy ≤ i64_max ∧ 0 ≤ pi_structural_unit_cap policy ≤ i64_max.
Proof.
  intros Hlen. unfold publish_source_policy_exclusion_generation.
  destruct (publication_identity_invalid p project_id workspace_id policy) eqn:Hid; [discriminate|].
  unfold mbind at 1, result_bind. destruct (try_fold _ _ (sort_exclusions candidates)) as [visited|] eqn:Ev; [|discriminate].
  apply visit_exclusions_ok in Ev as [Ev Hv]. cbn [app] in Ev. rewrite Ev. fold published_exclusions.
  rewrite exclusion_rows by done. unfold mbind at 1, result_bind.
  destruct (try_fold insert_exclusion [] published_exclusions) as [rows|] eqn:Ei; [|discriminate].
  apply insert_exclusions_ok in Ei as [-> Hrows]. cbn [app].
  unfold mbind at 1, result_bind. destruct (require _) as [u|] eqn:Er; [|discriminate].
  intros [= <- <-]. apply require_ok in Er. destruct (identity_caps Hid) as [Hc Hu].
  assert (0 < pi_byte_cap policy ∧ 0 < pi_structural_unit_cap policy) as [Hc0 Hu0].
  { unfold exclusion_publication_checks in Er. rewrite !andb_true_iff, !Z.ltb_lt in Er.
    cbn -[as_i64] in Er. unfold as_i64 in Er. rewrite !(proj2 (Z.leb_le _ i64_max)) in Er by
      (try done; unfold published_exclusions, len; rewrite length_fmap;
       unfold sort_exclusions; rewrite (Permutation_length (sort_by_perm _ candidates)); exact Hlen). lia. }
  split_and!; [done|done|done| |lia|done|lia|done].
  by rewrite <- (sort_by_perm (cmp_leb (cmp_on ex_normalized_path str_cmp)) candidates).
Qed.
End PublishExclusions.

Lemma manifest_differs_false p project_id workspace_id policy m :
  manifest_differs ExclusionFormat.Current p project_id workspace_id policy m = false ↔
  xm_schema_version m = 2 ∧ xm_complete m = true ∧ xm_project_id m = project_id ∧
  xm_workspace_id m = workspace_id ∧ xm_core_generation_id m = ip_generation_id p ∧
  xm_core_run_id m = ip_run_id p ∧ xm_policy_version m = pi_policy_version policy ∧
  xm_byte_cap m = pi_byte_cap policy ∧ xm_structural_unit_cap m = pi_structural_unit_cap policy ∧
  xm_published_at_epoch_ms m = ip_published_at_epoch_ms p.
Proof.
  unfold manifest_differs. rewrite !orb_false_iff, !negb_false_iff, !Z.eqb_eq, !str_eqb_eq. naive_solver.
Qed.
Lemma own_exclusions p project_id workspace_id policy candidates :
  Forall (λ c, candidate_invalid policy None c = false) candidates →
  existsb (foreign_exclusion ExclusionFormat.Current project_id workspace_id (ip_generation_id p) (ip_run_id p)
    (pi_policy_version policy) (pi_byte_cap policy) (pi_structural_unit_cap policy))
    (published_exclusions p project_id workspace_id candidates) = false.
Proof.
  intros Hv. apply not_true_iff_false. intros (r & Hr & Hbad)%existsb_exists. unfold published_exclusions in Hr.
  apply list_elem_of_In, list_elem_of_fmap in Hr as (c & -> & Hc).
  assert (c ∈ candidates) as Hc' by (revert Hc; unfold sort_exclusions; by rewrite sort_by_perm).
  rewrite Forall_forall in Hv. apply Hv, candidate_bounds in Hc' as (_ & _ & H3 & H4 & H5 & H6).
  unfold foreign_exclusion in Hbad. cbn in Hbad. rewrite H3, H4, H5, !str_eqb_refl, !Z.eqb_refl, H6 in Hbad. done.
Qed.

Lemma exclusions_readable sha256 p project_id workspace_id policy candidates s m s' :
  len candidates ≤ i64_max →
  publish_source_policy_exclusion_generation sha256 p project_id workspace_id policy candidates s = Ok (m, s') →
  read_source_policy_exclusions (co_exclusions s')
    = Ok (exclusion_record p project_id workspace_id <$> sort_exclusions candidates) ∧
  (∀ p' project_id' workspace_id' policy' m',
     validate_source_policy_exclusion_publication sha256 p' project_id' workspace_id' policy' s' = Ok m' ↔
     m' = m ∧ project_id' = project_id ∧ workspace_id' = workspace_id ∧ policy' = policy ∧
     ip_generation_id p' = ip_generation_id p ∧ ip_run_id p' = ip_run_id p ∧
     ip_published_at_epoch_ms p' = ip_published_at_epoch_ms p) ∧
  ∀ path, source_policy_rollback_identity sha256 path (mkPolicySchema true true) s' p
    = Ok (Some (exclusion_identity p project_id workspace_id policy candidates sha256)).
Proof.
  intros Hlen Hpub. apply publish_exclusions_ok in Hpub as (-> & -> & Hrows & Hv & Hc & Hu); [|done].
  assert (as_i64 (len (published_exclusions p project_id workspace_id candidates))
    = len (published_exclusions p project_id workspace_id candidates)) as Hcount.
  { unfold as_i64. rewrite (proj2 (Z.leb_le _ i64_max)); [done|]. unfold published_exclusions, len, sort_exclusions.
    rewrite length_fmap, (Permutation_length (sort_by_perm _ candidates)). exact Hlen. }
  assert (∀ n, 0 ≤ n ≤ i64_max → as_i64 n = n ∧ (n <? 0) = false) as Hn.
  { intros n Hn. unfold as_i64. by rewrite (proj2 (Z.leb_le n i64_max)), (proj2 (Z.ltb_ge n 0)) by lia. }
  destruct (Hn _ Hc) as [Hc1 Hc2], (Hn _ Hu) as [Hu1 Hu2].
  assert (len (published_exclusions p project_id workspace_id candidates) <? 0 = false) as Hl
    by (apply Z.ltb_ge, len_nonneg).
  assert (read_source_policy_exclusions (published_exclusions p project_id workspace_id candidates)
    = Ok (published_exclusions p project_id workspace_id candidates)) as Hread.
  { unfold read_source_policy_exclusions, published_exclusions. rewrite by_path_records. by apply read_exclusions. }
  set (m := exclusion_manifest p project_id workspace_id policy candidates sha256).
  assert (get_source_policy_exclusion_manifest
    (with_exclusions (published_exclusions p project_id workspace_id candidates)
      (Some (exclusion_publication_row m)) s) = Ok (Some m)) as Hget.
  { unfold get_source_policy_exclusion_manifest. cbn -[as_i64 published_exclusions].
    rewrite Hcount, Hc1, Hu1. unfold get_u64. by rewrite Hl, Hc2, Hu2. }
  pose proof (own_exclusions p project_id workspace_id policy candidates Hv) as Hown.
  split_and!; [exact Hread| |intros path].
  - intros p' project_id' workspace_id' policy' m'.
    unfold validate_source_policy_exclusion_publication, validate_source_policy_exclusion_publication_format.
    rewrite Hget. cbn [mbind result_bind ok_or co_exclusions with_exclusions].
    destruct (manifest_differs _ _ _ _ _ _) eqn:Ed.
    + split; [discriminate|]. intros (_ & -> & -> & -> & Hg & Hr & Ht). apply not_false_iff_true in Ed. destruct Ed.
      by apply manifest_differs_false.
    + apply manifest_differs_false in Ed as (_ & _ & H3 & H4 & H5 & H6 & H7 & H8 & H9 & H10).
      rewrite Hread. cbn [mbind result_bind]. cbn -[published_exclusions existsb]. rewrite Z.eqb_refl, str_eqb_refl, Hown.
      cbn [negb orb]. split; [|by intros (-> & _)]. intros [= <-]. cbn in *.
      split_and!; [done..| |done|done|done]. destruct policy', policy; cbn in *. congruence.
  - unfold source_policy_rollback_identity.
    cbn -[as_i64 published_exclusions existsb foreign_exclusion read_source_policy_exclusions].
    change (u32_max <? SOURCE_POLICY_EXCLUSION_PUBLICATION_SCHEMA_VERSION) with false.
    rewrite Hcount, Hc1, Hu1. unfold get_u64. rewrite Hl, Hc2, Hu2, Hread. cbn [mbind result_bind].
    by rewrite !str_eqb_refl, !Z.eqb_refl, Hown.
Qed.

(** [C28] Published exclusions are read back, and a promotion accepts them.  When the
    exclusions of a core publication are published, the table holds one row per candidate in
    the order of their paths, each with the identity of the publication; the publication
    validates for exactly this project, workspace, policy, generation, run and time, with the
    manifest that was returned; and the identity that a promotion records of the database is
    the one of that manifest.  Nothing else of the database changes. *)
Theorem exclusions_round_trip sha256 path p project_id workspace_id policy candidates s m s' :
  len candidates ≤ i64_max →
  publish_source_policy_exclusion_generation sha256 p project_id workspace_id policy candidates s = Ok (m, s') →
  read_source_policy_exclusions (co_exclusions s')
    = Ok (exclusion_record p project_id workspace_id <$> sort_exclusions candidates) ∧
  (∀ p' project_id' workspace_id' policy' m',
     validate_source_policy_exclusion_publication sha256 p' project_id' workspace_id' policy' s' = Ok m' ↔
     m' = m ∧ project_id' = project_id ∧ workspace_id' = workspace_id ∧ policy' = policy ∧
     ip_generation_id p' = ip_generation_id p ∧ ip_run_id p' = ip_run_id p ∧
     ip_published_at_epoch_ms p' = ip_published_at_epoch_ms p) ∧
  source_policy_rollback_identity sha256 path (mkPolicySchema true true) s' p
    = Ok (Some (exclusion_identity p project_id workspace_id policy candidates sha256)) ∧
  with_exclusions [] None s' = with_exclusions [] None s.
Proof.
  intros Hlen Hpub. destruct (exclusions_readable _ _ _ _ _ _ _ _ _ Hlen Hpub) as (Hread & Hval & Hid).
  split_and!; [done|done|done|]. by apply publish_exclusions_ok in Hpub as (_ & -> & _).
Qed.

(** ** From the workspace to the store *)
Definition hex_digest (s : str) : Prop := length s = 64%nat ∧ forallb is_ascii_hexdigit s = true.
(** An identity that the tables can hold. *)
Record publishable (p : IndexPublicationRecord) (project_id workspace_id : str)
    (policy : SourcePolicyExclusionPolicyIdentity) : Prop := {
  pu_identity : publication_identity_invalid p project_id workspace_id policy = false;
  pu_time : 0 ≤ ip_published_at_epoch_ms p;
  pu_caps : 0 < pi_byte_cap policy ∧ 0 < pi_structural_unit_cap policy;
  pu_texts : Forall (λ s, sql_nonempty s = true)
    [project_id; workspace_id; ip_generation_id p; ip_run_id p; pi_policy_version policy];
}.
(** Sizes of their types, and a path that is neither blank nor has an empty component. *)
Record storable (c : OversizedSourceExclusionCandidate) : Prop := {
  st_path : is_blank (ex_normalized_path c) = false ∧ sql_nonempty (ex_normalized_path c) = true;
  st_components : [] ∉ split_on slash (ex_normalized_path c);
  st_size : 0 < ex_observed_size c ≤ i64_max;
  st_units : 0 ≤ ex_observed_unit_count c ≤ i64_max;
}.
Lemma starts_with_char c s x : starts_with (c :: s) [x] = Ascii.eqb x c.
Proof. destruct s; apply andb_true_r. Qed.
Lemma unix_path_no_backslash path : contains (unix_path path) (lit "\") = false.
Proof.
  unfold unix_path, replace. change (lit "\") with ["\"%char]. change (lit "/") with [slash].
  induction path as [|c path IH]; [done|]. cbn [replace_skip length Nat.sub].
  assert (∀ x (s : str), contains (x :: s) ["\"%char] = Ascii.eqb "\"%char x || contains s ["\"%char]) as Hc
    by (intros x s; cbn [contains]; by rewrite starts_with_char).
  rewrite starts_with_char. destruct (Ascii.eqb "\"%char c) eqn:E; cbn [app]; rewrite Hc, IH; [done|by rewrite E].
Qed.
Section Composition.
Context `{FileSystem}.
Lemma normalized_path_plain root path normalized : normalized_policy_path root path = Ok normalized →
  starts_with normalized (lit "/") = false ∧ contains normalized (lit "\") = false ∧
  lit ".." ∉ split_on slash normalized.
Proof.
  unfold normalized_policy_path. destruct (workspace_relative_path root path) as [relative|]; [|discriminate].
  destruct (_ || _) eqn:E; [discriminate|]. intros [= <-]. apply orb_false_iff in E as [E1 E3].
  apply orb_false_iff in E1 as [_ E2]. split_and!; [done|apply unix_path_no_backslash|].
  intros Hin. apply not_true_iff_false in E3. apply E3. apply existsb_exists. exists (lit "..").
  split; [by apply list_elem_of_In|apply str_eqb_refl].
Qed.
Definition policy_identity (policy : SourceIndexPolicy) : SourcePolicyExclusionPolicyIdentity :=
  mkPolicyId (policy_version policy) (byte_cap policy) (structural_unit_cap policy).
Lemma valid_candidate root policy c : (∀ bytes, hex_digest (sha256_hex bytes)) →
  still_valid root policy c → storable c → candidate_invalid (policy_identity policy) None c = false.
Proof.
  intros Hhex (Hv & Hb & Hu & Hn & Hid & Hbound) [[Hblank _] Hcomp [_ Hsize] [_ Hunits]].
  apply normalized_path_plain in Hn as (Hslash & Hback & Hdots).
  assert (hex_digest (ex_content_hash c)) as [Hlen Hdig].
  { unfold current_content_identity in Hid. destruct (fs_observe_file _) as [o|]; [|discriminate].
    destruct (negb _); [discriminate|]. destruct (md_modified (fo_before o)) as [before|], (md_modified (fo_after o)) as [after|];
      try discriminate. destruct (negb _); [discriminate|]. injection Hid as <- _. apply Hhex. }
  assert (existsb bad_component (split_on slash (ex_normalized_path c)) = false) as Hbad.
  { apply not_true_iff_false. intros (x & Hx%list_elem_of_In & [->%str_eqb_eq| ->%str_eqb_eq]%orb_true_iff)%existsb_exists;
      [by destruct Hcomp|by destruct Hdots]. }
  unfold candidate_invalid, policy_identity. cbn [pi_policy_version pi_byte_cap pi_structural_unit_cap].
  rewrite Hblank, Hslash, Hback, Hbad, Hlen, Hdig, Hv, Hb, Hu, str_eqb_refl, !Z.eqb_refl, bool_decide_eq_false_2,
    !(proj2 (Z.ltb_ge i64_max _)) by done.
  cbn [negb orb]. rewrite orb_false_r. unfold byte_bound, unit_bound.
  destruct Hbound as [[H1 ->] | [H1 H2]].
  - by rewrite (proj2 (Z.ltb_lt _ _) H1).
  - by rewrite (proj2 (Z.leb_le _ _) H2), (proj2 (Z.ltb_lt _ _) H1), orb_true_r.
Qed.

(** Rows of valid candidates pass the checks of the table. *)
Lemma stored_rows p project_id workspace_id policy candidates :
  publishable p project_id workspace_id policy →
  Forall (λ c, candidate_invalid policy None c = false) candidates → Forall storable candidates →
  Forall (λ r, exclusion_row_checks r = true) (published_exclusions p project_id workspace_id candidates).
Proof.
  intros [_ _ [Hc Hu] Htexts] Hv Hs. unfold published_exclusions. apply Forall_fmap.
  unfold sort_exclusions. rewrite sort_by_perm.
  rewrite !Forall_cons in Htexts. destruct Htexts as (H1 & H2 & H3 & H4 & H5 & _).
  rewrite Forall_forall in Hv, Hs |- *. intros c Hin.
  destruct (candidate_bounds _ _ (Hv c Hin)) as (_ & _ & Hpv & Hbc & Huc & _).
  destruct (Hs c Hin) as [[_ Hpath] _ [Hsize _] [Hunits _]].
  pose proof (Hv c Hin) as Hvc. unfold candidate_invalid in Hvc. rewrite !orb_false_iff, !negb_false_iff in Hvc.
  destruct Hvc as ((((((((_ & Hlen) & _) & _) & _) & _) & _) & _) & _).
  unfold exclusion_row_checks. cbn. rewrite Hpv, Hbc, Huc, Hpath, H1, H2, H3, H4, H5, Hlen.
  by rewrite !(proj2 (Z.ltb_lt 0 _)), (proj2 (Z.leb_le 0 _)) by done.
Qed.

(** [C32] What a workspace revalidates, the store publishes.  The exclusions that a workspace
    revalidates right before a publication are accepted by the store for every identity the
    tables can hold, and the publication they make is the one that validates. *)
Theorem revalidated_exclusions_published m candidates policy verified sha256 p project_id workspace_id s :
  revalidate_source_policy_exclusions m candidates policy = Ok verified →
  (∀ bytes, hex_digest (sha256_hex bytes)) → (∀ message, length (sha256 message) = 64%nat) →
  Forall storable candidates → len candidates ≤ i64_max →
  publishable p project_id workspace_id (policy_identity policy) →
  ∃ manifest s',
    publish_source_policy_exclusion_generation sha256 p project_id workspace_id (policy_identity policy) verified s
      = Ok (manifest, s') ∧
    read_source_policy_exclusions (co_exclusions s')
      = Ok (exclusion_record p project_id workspace_id <$> verified) ∧
    validate_source_policy_exclusion_publication sha256 p project_id workspace_id (policy_identity policy) s'
      = Ok manifest.
Proof.
  intros Hrev Hhex Hsha Hstore Hlen Hpub.
  pose proof (revalidation_accepts m candidates policy) as [Hacc _]. rewrite Hrev in Hacc.
  destruct (Hacc eq_refl) as (_ & Hvalid & Hnd). clear Hacc.
  assert (verified = sort_exclusions candidates) as ->.
  { revert Hrev. unfold revalidate_source_policy_exclusions. destruct (negb _); [discriminate|].
    unfold mbind, result_bind. destruct (try_fold _ _ _); [|discriminate]. by intros [= <-]. }
  assert (sort_exclusions candidates ≡ₚ candidates) as Hperm by apply sort_by_perm.
  assert (sort_exclusions (sort_exclusions candidates) = sort_exclusions candidates) as Hsort
    by (apply sort_by_id, sort_exclusions_sorted).
  assert (Forall (λ c, candidate_invalid (policy_identity policy) None c = false) candidates) as Hok.
  { rewrite Forall_forall in Hvalid, Hstore |- *. intros c Hc. eapply valid_candidate; [done|by apply Hvalid|by apply Hstore]. }
  assert (∃ manifest s', publish_source_policy_exclusion_generation sha256 p project_id workspace_id
    (policy_identity policy) (sort_exclusions candidates) s = Ok (manifest, s')) as (manifest & s' & Hres).
  { pose proof Hpub as [Hid Htime [Hc Hu] Htexts].
    unfold publish_source_policy_exclusion_generation. rewrite Hid, Hsort.
    destruct (visit_exclusions p project_id workspace_id (policy_identity policy) (sort_exclusions candidates) None [])
      as [last Hvisit]; [apply sort_exclusions_sorted|by rewrite Hperm|by rewrite Hperm|done|].
    rewrite Hvisit. unfold mbind at 1, result_bind. cbn [snd app].
    fold (published_exclusions p project_id workspace_id candidates).
    rewrite (exclusion_rows _ _ _ (policy_identity policy)) by (done || by rewrite Hperm).
    rewrite insert_exclusions; [| |].
    - unfold mbind at 1, result_bind. cbn [app].
      match goal with |- context [require ?b] => assert (b = true) as -> end; [|by eexists _, _].
      unfold exclusion_publication_checks. cbn -[as_i64 published_exclusions].
      rewrite !Forall_cons in Htexts. destruct Htexts as (H1 & H2 & H3 & H4 & H5 & _). cbn in H5, Hc, Hu.
      rewrite H1, H2, H3, H4, H5, Hsha. unfold as_i64. pose proof (identity_caps _ _ _ _ Hid) as [Hc' Hu'].
      assert (len (published_exclusions p project_id workspace_id candidates) = len candidates) as ->
        by (unfold published_exclusions, len; by rewrite length_fmap, Hperm).
      cbn in Hc', Hu'. rewrite !(proj2 (Z.leb_le _ i64_max)), !(proj2 (Z.ltb_lt 0 _)), !(proj2 (Z.leb_le 0 _));
        try done. apply len_nonneg.
    - apply (stored_rows p project_id workspace_id (policy_identity policy)); [done|done|done].
    - cbn [app]. unfold published_exclusions. rewrite <- list_fmap_compose.
      change (xr_normalized_path ∘ _) with ex_normalized_path. by rewrite Hperm. }
  exists manifest, s'. split; [done|].
  destruct (exclusions_readable sha256 p project_id workspace_id (policy_identity policy) (sort_exclusions candidates)
    s manifest s') as (Hread & Hval & _); [unfold len; by rewrite Hperm|done|].
  split; [by rewrite Hsort in Hread|]. by apply Hval.
Qed.
End Composition.

(** ** Batched and paged reads *)
Lemma chunks_concat {A} size fuel (l : list A) : (0 < size)%nat → (length l ≤ fuel)%nat →
  concat (chunks fuel size l) = l.
Proof.
  intros Hsize. revert l. induction fuel as [|fuel IH]; intros [|x l] Hl; [done|cbn in Hl; lia|done|].
  cbn [chunks concat]. rewrite IH; [by rewrite take_drop|]. rewrite length_drop. cbn in Hl |- *. lia.
Qed.
Lemma keyed_perm {A} (key : A → Z) l k : keyed key l → StronglySorted (λ a b, key a <=? key b = true) k →
  l ≡ₚ k → l = k.
Proof.
  intros Hl. revert k. induction Hl as [|a l Hl IH Ha]; intros k Hk Hp.
  { by apply Permutation_nil_l in Hp. }
  destruct Hk as [|b k Hk Hb]; [by apply Permutation_nil_r in Hp|].
  rewrite Forall_forall in Ha, Hb.
  assert (a = b) as ->.
  { assert (b ∈ a :: l) as [->|Hin]%elem_of_cons by (rewrite Hp; by left); [done|].
    assert (a ∈ b :: k) as [->|Hin']%elem_of_cons by (rewrite <- Hp; by left); [done|].
    specialize (Ha b Hin). specialize (Hb a Hin'). lia. }
  f_equal. apply IH; [done|]. by apply Permutation_cons_inv in Hp.
Qed.
Lemma filter_member_app {A} (key : A → Z) (b ids : list Z) (l : list A) : (∀ i, i ∈ b → i ∉ ids) →
  List.filter (λ a, member (b ++ ids) (key a)) l ≡ₚ
  List.filter (λ a, member b (key a)) l ++ List.filter (λ a, member ids (key a)) l.
Proof.
  intros Hd. induction l as [|a l IH]; cbn; [done|]. unfold member in *.
  destruct (decide (key a ∈ b)) as [Hb|Hb].
  - rewrite !(bool_decide_eq_true_2 (key a ∈ b ++ ids)), (bool_decide_eq_true_2 (key a ∈ b)),
      (bool_decide_eq_false_2 (key a ∈ ids)) by (set_solver || auto). cbn. by constructor.
  - rewrite (bool_decide_eq_false_2 (key a ∈ b)) by done.
    rewrite (bool_decide_ext (key a ∈ b ++ ids) (key a ∈ ids)) by set_solver.
    case_bool_decide; [|done]. rewrite IH. apply Permutation_middle.
Qed.
Lemma doc_key r d : doc_from_row r = Ok d → dr_node_id r = sd_node_id d.
Proof.
  unfold doc_from_row, mbind, result_bind. destruct (get_i32 _ _); [|discriminate].
  destruct (get_kind _); [|discriminate]. destruct (get_option _ _); [|discriminate]. by intros [= <-].
Qed.
Lemma anchor_key r a : anchor_from_row r = Ok a → ar_node_id r = da_node_id a.
Proof.
  unfold anchor_from_row, mbind, result_bind. destruct (get_i32 _ _); [|discriminate].
  destruct (get_kind _); [|discriminate]. destruct (get_option _ (ar_start_line r)); [|discriminate].
  destruct (get_option _ _); [|discriminate]. by intros [= <-].
Qed.

(** The batches of a lookup cannot be told from one query: for distinct nodes of readable
    documents, the answer is the documents of exactly these nodes in order of the node. *)
Theorem docs_for_node_ids_exact s docs node_ids :
  keyed dr_node_id (co_docs s) → collect_rows doc_from_row (co_docs s) = Ok docs → NoDup node_ids →
  get_symbol_search_docs_for_node_ids s node_ids =
    Ok (List.filter (λ d, member node_ids (sd_node_id d)) docs).
Proof.
  intros Hs Hdocs Hnd. unfold get_symbol_search_docs_for_node_ids.
  assert (∀ batch, docs_of_batch s batch = Ok (List.filter (λ d, member batch (sd_node_id d)) docs)) as Hbatch.
  { intros batch. apply (collect_rows_filter _ _ (λ d, member batch (sd_node_id d))); [|done].
    intros r d Hr. by rewrite (doc_key r d Hr). }
  assert (∀ batches acc, NoDup (concat batches) →
    ∃ found, try_fold (λ docs batch, found ← docs_of_batch s batch; Ok (docs ++ found)) acc batches = Ok (acc ++ found)
      ∧ found ≡ₚ List.filter (λ d, member (concat batches) (sd_node_id d)) docs) as Hfold.
  { induction batches as [|b batches IH]; intros acc Hb; cbn [try_fold concat].
    - exists []. rewrite app_nil_r. split; [done|]. clear. induction docs as [|d docs IH]; [done|]. cbn.
      unfold member. rewrite bool_decide_eq_false_2 by apply not_elem_of_nil. exact IH.
    - rewrite Hbatch. cbn [mbind result_bind]. cbn [concat] in Hb. apply NoDup_app in Hb as (_ & Hdis & Hb).
      destruct (IH (acc ++ List.filter (λ d, member b (sd_node_id d)) docs) Hb) as (found & -> & Hfound).
      eexists. split; [by rewrite <- app_assoc|]. rewrite Hfound. symmetry. by apply filter_member_app. }
  assert (concat (chunks (length node_ids) NODE_LOOKUP_BATCH_SIZE node_ids) = node_ids) as Hchunks
    by (apply chunks_concat; [unfold NODE_LOOKUP_BATCH_SIZE; lia|done]).
  destruct (Hfold (chunks (length node_ids) NODE_LOOKUP_BATCH_SIZE node_ids) []) as (found & -> & Hfound);
    [by rewrite Hchunks|]. rewrite Hchunks in Hfound. cbn [mbind result_bind app]. f_equal. symmetry.
  apply (keyed_perm sd_node_id); [|apply (sort_by_sorted _ (λ _, True)); [lia..|by apply Forall_true]|].
  - by apply filter_keyed, (collect_rows_keyed doc_from_row dr_node_id sd_node_id _ _ doc_key Hs).
  - by rewrite <- Hfound, sort_by_perm.
Qed.

(** The paged loop of the staleness check reads every anchor of the table once, in order. *)
Theorem stored_anchors_collected s anchors view (describe : StoreError → str) fuel :
  anchors_keyed s → collect_rows anchor_from_row (co_anchors s) = Ok anchors → (length anchors < fuel)%nat →
  (∀ after limit, st_anchor_batch view after limit =
     match get_dense_anchor_inputs_batch_after s after limit with Ok l => Ok l | Err e => Err (describe e) end) →
  collect_dense_anchor_stats fuel view None empty_stats = Some (Ok (foldl observe_anchor empty_stats anchors)).
Proof.
  intros Hs Ha Hf Hview. apply collect_all; [|done]. split.
  - by apply (collect_rows_keyed anchor_from_row ar_node_id da_node_id _ _ anchor_key Hs).
  - intros after limit _. rewrite Hview. unfold get_dense_anchor_inputs_batch_after, batch_after.
    erewrite collect_rows_take; [done|]. apply collect_rows_filter; [|done].
    intros r a Hr. destruct after; [|done]. cbn. by rewrite (anchor_key r a Hr).
Qed.

Module StoreSample.
Definition sha (message : str) : str := take 64 (message ++ replicate 64 "0"%char).
Definition core_of (generation : str) : IndexPublicationRecord :=
  mkPublication 1 generation (lit "run") Mode.Full 5.
Definition anchor (node_id : Z) (text : str) : DenseAnchorInput :=
  mkAnchorInput node_id (Some 1) NodeKind.FUNCTION (lit "f") None (Some (lit "a.rs")) (Some 3) None FileRole.Source
    (lit "graph") text (lit "hash") (lit "hub") (lit "v1") (lit "staged") 0.
Definition start : Core := mkCore [1; 2; 3] [] None [] [] None false false.
Definition filled : Core :=
  default start (result_ok (upsert_dense_anchor_inputs_batch [anchor 3 (lit "h"); anchor 2 (lit "g")] start)).
Definition publish (generation : str) (s : Core) : Core :=
  default s (snd <$> result_ok (publish_dense_anchor_generation sha (core_of generation) (lit "v1") s)).
Definition first : Core := publish (lit "g1") filled.
Definition edited : Core :=
  default first (result_ok (upsert_dense_anchor_inputs_batch [anchor 2 (lit "new")] first)).
Definition second : Core := publish (lit "g2") edited.
Definition manifest_of (s : Core) : DenseAnchorPublicationManifest :=
  default (mkAnchorManifest 0 false [] [] 0 [] [] [] 0) (get_dense_anchor_publication_manifest s).

(** A short file over the unit cap and a long one over the byte cap. *)
Definition content_digest : str := replicate 64 "a"%char.
Definition hashed_files : FileSystem := {|
  fs_metadata := @fs_metadata WorkspaceSample.file_system;
  fs_canonicalize := @fs_canonicalize WorkspaceSample.file_system;
  fs_observe_file := @fs_observe_file WorkspaceSample.file_system;
  fs_read_to_string := @fs_read_to_string WorkspaceSample.file_system;
  sha256_hex _ := content_digest |}.
Definition short : OversizedSourceExclusionCandidate :=
  mkCandidate (lit "a.rs") content_digest 9 4 (lit "v1") 20 3.
Definition long : OversizedSourceExclusionCandidate :=
  mkCandidate (lit "big.rs") content_digest 23 0 (lit "v1") 20 3.
Definition identity : SourcePolicyExclusionPolicyIdentity := mkPolicyId (lit "v1") 20 3.
Definition excluded := publish_source_policy_exclusion_generation sha (core_of (lit "g1")) (lit "p") (lit "w")
  identity [long; short] start.
End StoreSample.
Import StoreSample.

Definition int64_check (n : Z) : bool := (i64_min <=? n) && (n <=? i64_max).
Definition typed_check (r : DenseAnchorRow) : bool :=
  int64_check (ar_node_id r) && int64_check (ar_kind r)
  && forallb (λ o, match o with Some n => int64_check n | None => true end)
       [ar_file_node_id r; ar_start_line r; ar_end_line r]
  && forallb (λ part, len part <=? usize_max) (anchor_parts r).
Lemma typed_checked rows : forallb typed_check rows = true → Forall typed_anchor rows.
Proof.
  intros Hc. apply Forall_forall. intros r Hr%list_elem_of_In. apply (proj1 (forallb_forall _ _) Hc) in Hr.
  unfold typed_check, int64_check in Hr. cbn [forallb] in Hr.
  assert (∀ n, ((i64_min <=? n) && (n <=? i64_max)) = true → int64 n) as Hn.
  { intros n [H1%Z.leb_le H2%Z.leb_le]%andb_true_iff. by split. }
  apply andb_true_iff in Hr as [[[H1 H2]%andb_true_iff H3]%andb_true_iff H4].
  rewrite !andb_true_iff in H3. destruct H3 as (H3 & H5 & H6 & _). split; [by apply Hn|by apply Hn|..].
  - intros n E. rewrite E in H3. by apply Hn.
  - intros n E. rewrite E in H5. by apply Hn.
  - intros n E. rewrite E in H6. by apply Hn.
  - apply Forall_forall. intros part Hpart%list_elem_of_In.
    by apply Z.leb_le, (proj1 (forallb_forall _ (anchor_parts r)) H4 part).
Qed.

(** A deletion that removes nothing keeps the publication, and it validates. *)
Lemma validated_anchors_published_witness :
  Forall (λ r, ar_source_identity r = lit "core:g1:run" ∧ ar_policy_version r = lit "v1") (co_anchors first).
Proof.
  destruct (validated_anchors_published sha (core_of (lit "g1")) (lit "v1") filled (manifest_of first) first
    (delete_dense_anchor_inputs_for_files_except_node_ids [2] [] first).2 (core_of (lit "g1")) (manifest_of first))
    as (_ & _ & _ & H & _).
  - vm_compute. reflexivity.
  - vm_compute. discriminate.
  - apply rtc_once. left. apply change_delete.
  - apply typed_checked. vm_compute. reflexivity.
  - apply typed_checked. vm_compute. reflexivity.
  - vm_compute. reflexivity.
  - exact H.
Defined.

(** Published, changed, published again: the second publication is current.  A copy whose last
    statement fails then leaves it beside rows it was not made for. *)
Definition torn_copy : option (result StoreError (list DenseAnchorRow)) := Some (Ok [anchor_row (anchor 1 (lit "f"))]).
Definition torn_io : CopyIo := mkCopyIo (Ok tt) (Ok tt) (Err (Sqlite (lit "disk I/O error"))) (Ok tt).
Lemma second_steps : rtc (step sha) (false, start) (false, second).
Proof.
  eapply rtc_l; [apply step_transaction, (tx_upsert start [anchor 3 (lit "h"); anchor 2 (lit "g")] filled); by vm_compute|].
  eapply rtc_l; [apply step_publication, (publication_step sha filled (core_of (lit "g1")) (lit "v1") (manifest_of first) first);
    [by vm_compute|by vm_compute]|].
  eapply rtc_l; [apply step_transaction, (tx_upsert first [anchor 2 (lit "new")] edited); by vm_compute|].
  apply rtc_once, step_publication, (publication_step sha edited (core_of (lit "g2")) (lit "v1") (manifest_of second) second);
    by vm_compute.
Qed.
Lemma anchor_publication_current_witness :
  (∃ m, validate_dense_anchor_publication sha (core_of (lit "g2")) second = Ok m)
  ∧ ¬ ∃ m, validate_dense_anchor_publication sha (core_of (lit "g1")) second = Ok m.
Proof.
  destruct (anchor_publication_current sha false start false second) as [_ H]; [constructor|reflexivity|exact second_steps|].
  specialize (H (default (anchor_publication_row (manifest_of second)) (co_anchor_publication second))
    ltac:(vm_compute; reflexivity)). split.
  - apply (H (core_of (lit "g2"))); vm_compute; reflexivity.
  - intros Hm. destruct (H (core_of (lit "g1"))) as [Hg _]. apply proj1 in Hg; [|exact Hm]. revert Hg. vm_compute. discriminate.
Defined.
Example torn_copy_stale :
  copy_torn torn_copy torn_io second = true ∧
  co_anchor_publication (copy_dense_anchor_inputs_from torn_copy torn_io second).2 = co_anchor_publication second ∧
  is_ok (validate_dense_anchor_publication sha (core_of (lit "g2"))
    (copy_dense_anchor_inputs_from torn_copy torn_io second).2) = false.
Proof. by vm_compute. Qed.

Lemma exclusions_round_trip_witness :
  ∃ m s', excluded = Ok (m, s') ∧ xm_exclusion_count m = 2 ∧
    (xr_normalized_path <$> co_exclusions s') = [lit "a.rs"; lit "big.rs"] ∧
    validate_source_policy_exclusion_publication sha (core_of (lit "g1")) (lit "p") (lit "w") identity s' = Ok m.
Proof.
  destruct excluded as [[m s']|e] eqn:E; [|vm_compute in E; discriminate].
  exists m, s'. split; [reflexivity|].
  destruct (exclusions_round_trip sha (lit "live") (core_of (lit "g1")) (lit "p") (lit "w") identity [long; short] start m s')
    as (_ & H & _); [vm_compute; discriminate|exact E|].
  split; [|split; [|apply H; auto 10]]; vm_compute in E; injection E as <- <-; reflexivity.
Defined.

Lemma revalidated_exclusions_published_witness :
  ∃ m s', publish_source_policy_exclusion_generation sha (core_of (lit "g1")) (lit "p") (lit "w") identity
    [short; long] start = Ok (m, s').
Proof.
  destruct (@revalidated_exclusions_published hashed_files WorkspaceSample.manifest [long; short] WorkspaceSample.policy
    [short; long] sha (core_of (lit "g1")) (lit "p") (lit "w") start) as (m & s' & H & _).
  - vm_compute. reflexivity.
  - intros bytes. split; vm_compute; reflexivity.
  - intros message. unfold sha. rewrite length_take, length_app, length_replicate. lia.
  - repeat constructor; try (vm_compute; done); intros Hin%list_elem_of_In; vm_compute in Hin; naive_solver.
  - vm_compute. discriminate.
  - split; [vm_compute; reflexivity|vm_compute; discriminate|split; vm_compute; reflexivity|].
    repeat constructor.
  - exists m, s'. exact H.
Defined.
