(* ===== verification/LexicalIndex.v ===== *)
(** * The lexical index

    codestory-retrieval/src/lexical_index.rs: the documents of a project, their fingerprint,
    the SQLite shard that is built from them, its validation, and the search.  The workspace,
    the file system and the core database are the modelled ones; the full-text engine, JSON,
    SHA-256, the logarithm and the Unicode tables beyond ASCII are interfaces. *)
From S2P Require Import Prelude RustStr Sorting StrOps UnixPath Collections WorkspacePaths.
From S2P Require Import WorkspaceDiscovery Encoding Promotion SidecarStore RetrievalPlan RetrievalData RetrievalExecutor RetrievalRanker.

(** ** Errors *)
Inductive LexicalError : Type :=
| Lexical (message : str)
| InputChanged (stage expected actual : str).
Definition fail {A} (message : String.string) : result LexicalError A := Err (Lexical (lit message)).
Definition in_context {E A} (message : String.string) (r : result E A) : result LexicalError A :=
  match r with Ok a => Ok a | Err _ => Err (Lexical (lit message)) end.

(** ** Text *)
(** The tables of the standard library beyond ASCII that [UnicodeTables] does not have. *)
Class CaseTables : Type := {
  unicode_numeric : str → bool;
  unicode_to_lowercase : str → str;
}.
Section Text.
Context `{UnicodeTables} `{CaseTables}.

Definition is_numeric : str → bool := char_test is_ascii_digit unicode_numeric.
Definition to_lowercase (ch : str) : str :=
  match ch with [c] => [ascii_lower c] | _ => unicode_to_lowercase ch end.
Definition holds (f : str → bool) (ch : option str) : bool := match ch with Some ch => f ch | None => false end.
Definition new_word (previous next : option str) (ch : str) : bool :=
  is_uppercase ch && holds (λ p, is_lowercase p || is_numeric p) previous
  || is_uppercase ch && holds is_uppercase previous && holds is_lowercase next.
Fixpoint normalize_chars (previous : option str) (cs : list str) : str :=
  match cs with
  | [] => []
  | ch :: rest =>
      (if new_word previous (head rest) ch then lit " " else [])
      ++ (if is_alphanumeric ch then to_lowercase ch else lit " ")
      ++ normalize_chars (Some ch) rest
  end.
Definition normalize_lexical_text (value : str) : str := normalize_chars None (chars value).

Definition LEXICAL_STOP_WORDS : list str :=
  [lit "about"; lit "after"; lit "and"; lit "are"; lit "cite"; lit "does"; lit "explain"; lit "file";
   lit "files"; lit "flow"; lit "flows"; lit "for"; lit "from"; lit "how"; lit "into"; lit "level";
   lit "path"; lit "source"; lit "sources"; lit "support"; lit "that"; lit "the"; lit "through";
   lit "top"; lit "what"; lit "where"; lit "which"; lit "with"].
Definition push_new (tokens : list str) (token : str) : list str :=
  if one_of token tokens then tokens else tokens ++ [token].
Definition keeps_token (token : str) : bool := (2 <=? len token) && negb (one_of token LEXICAL_STOP_WORDS).
Definition lexical_query_tokens (query : str) : list str :=
  foldl push_new [] (List.filter keeps_token (split_whitespace (normalize_lexical_text query))).
Record BacktickScan : Type := mkBacktick {
  bt_tokens : list str;
  in_backticks : bool;
  bt_current : str;
}.
Definition backtick_step (s : BacktickScan) (ch : str) : BacktickScan :=
  if str_eqb ch (lit "`") then
    if in_backticks s then
      mkBacktick
        (foldl push_new (bt_tokens s)
           (List.filter (λ token, negb (str_eqb token (lit "codex"))) (lexical_query_tokens (bt_current s))))
        false []
    else mkBacktick (bt_tokens s) true (bt_current s)
  else if in_backticks s then mkBacktick (bt_tokens s) true (bt_current s ++ ch)
  else s.
Definition command_query_tokens (query : str) : list str :=
  bt_tokens (foldl backtick_step (mkBacktick [] false []) (chars query)).
End Text.

(** ** Documents *)
Definition LEXICAL_INDEX_FILE : str := lit "lexical-index.sqlite3".
Definition LEGACY_INDEX_FILES : list str := [lit "lexical-index.jsonl"; lit "shard-meta.json"; lit ".zoekt-stub"].
Definition MAX_FILE_BYTES : Z := 1000000.
Definition MAX_CANDIDATES : Z := 4096.
Definition COVERAGE_PATH_SAMPLE : nat := 32.
Record LexicalCoverage : Type := mkCoverage {
  discovered_files : Z;
  indexed_files : Z;
  omitted_oversized : Z;
  unreadable_files : Z;
  omitted_path_sample : list str;
  unreadable_path_sample : list str;
}.
#[export] Instance LexicalCoverage_eq_dec : EqDecision LexicalCoverage.
Proof. solve_decision. Defined.
Definition coverage_complete (c : LexicalCoverage) : bool := (omitted_oversized c =? 0) && (unreadable_files c =? 0).
Definition join_comma : list str → str := join (lit ",").
Definition coverage_detail (c : LexicalCoverage) : str :=
  lit "sqlite fts5; discovered=" ++ show_uint (discovered_files c)
  ++ lit " indexed=" ++ show_uint (indexed_files c)
  ++ lit " omitted_oversized=" ++ show_uint (omitted_oversized c)
  ++ lit " unreadable=" ++ show_uint (unreadable_files c)
  ++ (match omitted_path_sample c with [] => [] | paths => lit "; omitted_path_sample=" ++ join_comma paths end)
  ++ (match unreadable_path_sample c with [] => [] | paths => lit "; unreadable_path_sample=" ++ join_comma paths end).
Record LexicalInputFingerprint : Type := mkFingerprint {
  lf_file_count : Z;
  lf_hash : str;
  lf_coverage : LexicalCoverage;
}.
#[export] Instance LexicalInputFingerprint_eq_dec : EqDecision LexicalInputFingerprint.
Proof. solve_decision. Defined.
Module DocumentSource.
Inductive LexicalDocumentSource : Set := LexicalSource | SymbolDoc | ComponentReport.
End DocumentSource.
Abbreviation LexicalDocumentSource := DocumentSource.LexicalDocumentSource.
#[export] Instance LexicalDocumentSource_eq_dec : EqDecision LexicalDocumentSource.
Proof. solve_decision. Defined.
Definition source_label (s : LexicalDocumentSource) : str :=
  match s with
  | DocumentSource.LexicalSource => lit "lexical_source"
  | DocumentSource.SymbolDoc => lit "symbol_doc"
  | DocumentSource.ComponentReport => lit "component_report"
  end.
Definition parse_source (value : str) : result LexicalError LexicalDocumentSource :=
  if str_eqb value (lit "lexical_source") then Ok DocumentSource.LexicalSource
  else if str_eqb value (lit "symbol_doc") then Ok DocumentSource.SymbolDoc
  else if str_eqb value (lit "component_report") then Ok DocumentSource.ComponentReport
  else Err (Lexical (lit "lexical shard contains unknown document source `" ++ value ++ lit "`")).
Record LexicalDocument : Type := mkDocument {
  ld_path : str;
  ld_content : str;
  ld_source : LexicalDocumentSource;
  ld_node_id : option str;
  ld_symbol_name : option str;
  ld_start_line : option Z;
}.

(** ** Paths of documents *)
Definition forward_slashes (path : str) : str := unix_path path.
Definition lexical_relative_path (project_root path : str) : str :=
  forward_slashes (default path (path_strip_prefix path project_root)).
Definition normalize_lexical_file_path (project_root path : str) : option str :=
  if is_absolute path then forward_slashes <$> path_strip_prefix path project_root
  else Some (forward_slashes path).
Definition symbol_path_char (c : ascii) : ascii :=
  if any_char [" "%char; "009"%char; "013"%char; "010"%char] c then "_"%char else c.
Definition symbol_document (project_root : str) (doc : SymbolSearchDoc) : LexicalDocument :=
  let source := if starts_with (sd_display_name doc) (lit "component_report:")
                then DocumentSource.ComponentReport else DocumentSource.SymbolDoc in
  let path := default (lit "codestory://" ++ (symbol_path_char <$> sd_display_name doc))
                (path ← sd_file_path doc; normalize_lexical_file_path project_root path) in
  mkDocument path (sd_doc_text doc) source (Some (show_int (sd_node_id doc))) (Some (sd_display_name doc))
    (sd_start_line doc).

(** ** Hashes *)
Class CoverageJson : Type := {
  coverage_to_json : LexicalCoverage → str;
  coverage_from_json : str → option LexicalCoverage;
}.
Definition u32_bytes : Z → str := le_bytes 4.
Definition lexical_documents_hasher : str := lit "codestory-sqlite-lexical-v1" ++ LEXICAL_INDEX_VERSION.
Definition document_parts (d : LexicalDocument) : list str :=
  [ld_path d; ld_content d; source_label (ld_source d); default [] (ld_node_id d); default [] (ld_symbol_name d)].
Definition hash_lexical_document (hasher : str) (d : LexicalDocument) : str :=
  update_terminated hasher (document_parts d) ++ u32_bytes (default 0 (ld_start_line d)).
Section Hashes.
Context `{CoverageJson} (sha256 : str → str).
Definition finish_lexical_documents_hash (hasher : str) (coverage : LexicalCoverage) : str :=
  sha256 (hasher ++ coverage_to_json coverage).
Definition metadata_binding (project_id sidecar_input_hash lexical_hash : str) (file_count : Z)
    (coverage_json : str) : str :=
  sha256 (update_terminated [] [LEXICAL_INDEX_VERSION; project_id; sidecar_input_hash; lexical_hash; coverage_json]
          ++ u32_bytes file_count).
End Hashes.

(** ** The scan *)
(** The core databases at paths. *)
Class CoreStores : Type := {
  store_is_file : str → bool;
  open_core : str → option Core;
}.
Definition saturating_inc (n : Z) : Z := saturating_add u32_max n 1.
Definition push_coverage_sample (sample : list str) (path : str) : list str :=
  if (length sample <? COVERAGE_PATH_SAMPLE)%nat then sample ++ [path] else sample.
Definition count_unreadable (path : str) (c : LexicalCoverage) : LexicalCoverage :=
  mkCoverage (discovered_files c) (indexed_files c) (omitted_oversized c) (saturating_inc (unreadable_files c))
    (omitted_path_sample c) (push_coverage_sample (unreadable_path_sample c) path).
Definition count_oversized (path : str) (c : LexicalCoverage) : LexicalCoverage :=
  mkCoverage (discovered_files c) (indexed_files c) (saturating_inc (omitted_oversized c)) (unreadable_files c)
    (push_coverage_sample (omitted_path_sample c) path) (unreadable_path_sample c).
Definition count_indexed (c : LexicalCoverage) : LexicalCoverage :=
  mkCoverage (discovered_files c) (saturating_inc (indexed_files c)) (omitted_oversized c) (unreadable_files c)
    (omitted_path_sample c) (unreadable_path_sample c).
(** A visitor of documents with its state. *)
Definition Visitor (S : Type) : Type := S → LexicalDocument → result LexicalError S.

Section Scan.
Context `{FileSystem} `{ManifestFormat} {Pattern : Type} `{GlobSyntax Pattern} `{DirectoryWalk} `{CoreStores}
  (fuel : nat).
Section Visit.
Context {S : Type} (visit : Visitor S).

Definition visit_file (project_root : str) (st : S * LexicalCoverage) (path : str)
  : result LexicalError (S * LexicalCoverage) :=
  let '(s, coverage) := st in
  let relative := lexical_relative_path project_root path in
  match fs_metadata path with
  | Err _ => Ok (s, count_unreadable relative coverage)
  | Ok metadata =>
      if MAX_FILE_BYTES <? md_len metadata then Ok (s, count_oversized relative coverage)
      else
        match fs_read_to_string path with
        | Err _ => Ok (s, count_unreadable relative coverage)
        | Ok content =>
            s ← visit s (mkDocument relative content DocumentSource.LexicalSource None None None);
            Ok (s, count_indexed coverage)
        end
  end.
Definition visit_docs (project_root : str) : S → list SymbolSearchDoc → result LexicalError S :=
  try_fold (λ s doc, visit s (symbol_document project_root doc)).
(** The loop over the pages of 4,096 documents; [None] when the fuel is out. *)
Definition symbol_batch (core : Core) (after : option Z) (limit : nat) : result LexicalError (list SymbolSearchDoc) :=
  in_context "load symbol search docs for lexical shard" (get_symbol_search_docs_batch_after core after limit).
Definition scan_symbol_documents_from_store (project_root : str) (core : Core) (s : S)
  : option (result LexicalError S) :=
  read_pages sd_node_id fuel (symbol_batch core) 4096 (visit_docs project_root) None s.
Definition scan_symbol_documents (project_root : str) (storage_path : option str) (s : S)
  : option (result LexicalError S) :=
  match storage_path with
  | None => Some (Ok s)
  | Some storage_path =>
      if store_is_file storage_path then
        match open_core storage_path with
        | None => Some (fail "open storage for lexical symbol docs")
        | Some core => scan_symbol_documents_from_store project_root core s
        end
      else Some (Ok s)
  end.
Definition scan_lexical_documents (project_root : str) (source_storage_path symbol_storage_path : option str) (s : S)
  : option (result LexicalError (S * LexicalCoverage)) :=
  let opened := match source_storage_path with
                | Some storage_path => open_with_storage_owned_exclusions project_root storage_path
                | None => open project_root
                end in
  let scanned :=
    workspace ← in_context "open workspace for lexical discovery" opened;
    discovered ← in_context "discover canonical workspace files for lexical index" (source_files workspace);
    try_fold (visit_file project_root)
      (s, mkCoverage (Z.min (len discovered) u32_max) 0 0 0 [] []) discovered in
  match scanned with
  | Err e => Some (Err e)
  | Ok (s, coverage) =>
      match scan_symbol_documents project_root symbol_storage_path s with
      | None => None
      | Some (Err e) => Some (Err e)
      | Some (Ok s) => Some (Ok (s, coverage))
      end
  end.
End Visit.

(** ** Fingerprints *)
Record LexicalSourceInput : Type := mkSourceInput {
  si_hasher : str;
  si_file_count : Z;
  si_coverage : LexicalCoverage;
}.
Definition fingerprint_document : Visitor (str * Z) :=
  λ s d, Ok (hash_lexical_document s.1 d, saturating_inc s.2).
Definition lexical_source_input (project_root storage_path : str) : option (result LexicalError LexicalSourceInput) :=
  scanned ← scan_lexical_documents fingerprint_document project_root (Some storage_path) None
              (lexical_documents_hasher, 0);
  Some (r ← scanned; Ok (mkSourceInput r.1.1 r.1.2 r.2)).
Context `{CoverageJson} (sha256 : str → str).
Definition finish_lexical_input_for_store (source : LexicalSourceInput) (project_root : str) (core : Core)
  : option (result LexicalError LexicalInputFingerprint) :=
  scanned ← scan_symbol_documents_from_store fingerprint_document project_root core
              (si_hasher source, si_file_count source);
  Some (s ← scanned;
        Ok (mkFingerprint s.2 (finish_lexical_documents_hash sha256 s.1 (si_coverage source)) (si_coverage source))).
End Scan.

(** ** The shard *)
Record ShardDocumentRow : Type := mkShardRow {
  sh_id : Z;
  sh_path : str;
  sh_content : str;
  sh_source : str;
  sh_node_id : option str;
  sh_symbol_name : option str;
  sh_start_line : option Z;
}.
Record ShardMetadataRow : Type := mkShardMetadata {
  sm_version : str;
  sm_project_id : str;
  sm_sidecar_input_hash : str;
  sm_lexical_hash : str;
  sm_file_count : Z;
  sm_coverage_json : str;
  sm_binding_sha256 : str;
  sm_indexed_at_epoch_ms : Z;
}.
(** A row of the full-text table: its id, the normalized path and content. *)
Abbreviation FtsRow := (Z * (str * str))%type.
Record LexicalDatabase : Type := mkShard {
  db_schema_version : Z;
  db_required_tables : Z;
  db_quick : result LexicalError str;
  db_metadata : option ShardMetadataRow;
  db_documents : list ShardDocumentRow;
  db_fts : list FtsRow;
}.
Record LexicalShardMetadata : Type := mkMetadataRecord {
  lm_project_id : str;
  lm_sidecar_input_hash : str;
  lm_lexical_hash : str;
  lm_file_count : Z;
  lm_coverage : LexicalCoverage;
  lm_binding_sha256 : str;
}.
Definition shard_dir_for (lexical_data_dir project_id : str) : str :=
  path_join (path_join lexical_data_dir (lit "shards")) project_id.

Section Shard.
Context `{UnicodeTables} `{CaseTables} `{CoverageJson} (sha256 : str → str).

(** ** Writing *)
Definition shard_row (id : Z) (d : LexicalDocument) : ShardDocumentRow :=
  mkShardRow id (ld_path d) (ld_content d) (source_label (ld_source d)) (ld_node_id d) (ld_symbol_name d)
    (ld_start_line d).
Definition fts_row (id : Z) (d : LexicalDocument) : FtsRow :=
  (id, (normalize_lexical_text (ld_path d), normalize_lexical_text (ld_content d))).
Record ShardWriter : Type := mkWriter {
  wr_file_count : Z;
  wr_hasher : str;
  wr_documents : list ShardDocumentRow;
  wr_fts : list FtsRow;
}.
Definition write_document : Visitor ShardWriter := λ w d,
  match checked_add u32_max (wr_file_count w) 1 with
  | None => fail "lexical document count overflow"
  | Some id =>
      Ok (mkWriter id (hash_lexical_document (wr_hasher w) d) (wr_documents w ++ [shard_row id d])
            (wr_fts w ++ [fts_row id d]))
  end.
Definition fingerprint_summary (f : LexicalInputFingerprint) : str :=
  show_uint (lf_file_count f) ++ lit " documents with hash " ++ lf_hash f.
(** [scan]: what the scan of the project gives for a visitor. *)
Definition write_lexical_database (project_id sidecar_input_hash : str) (expected : LexicalInputFingerprint)
    (now : Z)
    (scan : Visitor ShardWriter → ShardWriter → option (result LexicalError (ShardWriter * LexicalCoverage)))
  : option (result LexicalError (LexicalInputFingerprint * LexicalDatabase)) :=
  scanned ← scan write_document (mkWriter 0 lexical_documents_hasher [] []);
  Some (r ← scanned;
    let '(w, coverage) := r : ShardWriter * LexicalCoverage in
    let actual := mkFingerprint (wr_file_count w) (finish_lexical_documents_hash sha256 (wr_hasher w) coverage) coverage in
    if negb (bool_decide (actual = expected))
    then Err (InputChanged (lit "lexical shard build") (fingerprint_summary expected) (fingerprint_summary actual))
    else
      let coverage_json := coverage_to_json coverage in
      let metadata := mkShardMetadata LEXICAL_INDEX_VERSION project_id sidecar_input_hash (lf_hash actual)
        (lf_file_count actual) coverage_json
        (metadata_binding sha256 project_id sidecar_input_hash (lf_hash actual) (lf_file_count actual) coverage_json)
        now in
      Ok (actual, mkShard 1 3 (Ok (lit "ok")) (Some metadata) (wr_documents w) (wr_fts w))).

(** ** Validation *)
Definition shard_metadata (row : ShardMetadataRow) : result LexicalError LexicalShardMetadata :=
  match coverage_from_json (sm_coverage_json row) with
  | None => fail "lexical coverage"
  | Some coverage =>
      if (0 <=? sm_file_count row) && (sm_file_count row <=? u32_max)
      then Ok (mkMetadataRecord (sm_project_id row) (sm_sidecar_input_hash row) (sm_lexical_hash row)
                 (sm_file_count row) coverage (sm_binding_sha256 row))
      else fail "lexical file count"
  end.
(** Without the poll at its start, which its callers make. *)
Definition validate_open_database_metadata (db : LexicalDatabase) (expected_project_id expected_sidecar_input_hash : str)
    (expected_lexical : option (Z * str)) : result LexicalError LexicalShardMetadata :=
  if negb (db_schema_version db =? 1) then fail "lexical SQLite shard schema version is not current"
  else if negb (db_required_tables db =? 3) then fail "lexical SQLite shard schema is incomplete"
  else
    match db_metadata db with
    | None => fail "lexical SQLite shard metadata is missing"
    | Some row =>
        metadata ← shard_metadata row;
        if negb (str_eqb (sm_version row) LEXICAL_INDEX_VERSION)
        then fail "lexical SQLite shard version is not current"
        else if negb (str_eqb (lm_project_id metadata) expected_project_id)
        then fail "lexical SQLite shard project id does not match its generation directory"
        else if negb (str_eqb (lm_sidecar_input_hash metadata) expected_sidecar_input_hash)
        then fail "lexical SQLite shard does not match the sidecar input hash"
        else if negb (str_eqb (lm_binding_sha256 metadata)
                   (metadata_binding sha256 (lm_project_id metadata) (lm_sidecar_input_hash metadata)
                      (lm_lexical_hash metadata) (lm_file_count metadata) (sm_coverage_json row)))
        then fail "lexical SQLite shard metadata binding is invalid"
        else
          match expected_lexical with
          | Some (file_count, lexical_hash) =>
              if negb (lm_file_count metadata =? file_count) || negb (str_eqb (lm_lexical_hash metadata) lexical_hash)
              then fail "lexical SQLite shard does not match current lexical input"
              else Ok metadata
          | None => Ok metadata
          end
    end.
Definition fts_of (db : LexicalDatabase) (id : Z) : option (str * str) :=
  snd <$> List.find (λ r, r.1 =? id) (db_fts db).
Definition fts_row_matches (db : LexicalDatabase) (r : ShardDocumentRow) : bool :=
  bool_decide (fts_of db (sh_id r) = Some (normalize_lexical_text (sh_path r), normalize_lexical_text (sh_content r))).
(** With the poll of its callers, which is never true. *)
Definition validate_open_database (db : LexicalDatabase) (expected_project_id expected_sidecar_input_hash : str)
    (expected_lexical : option (Z * str)) (quick_check : bool) : result LexicalError LexicalShardMetadata :=
  metadata ← validate_open_database_metadata db expected_project_id expected_sidecar_input_hash expected_lexical;
  _ ← (if quick_check then
         answer ← db_quick db;
         if str_eqb answer (lit "ok") then Ok tt
         else Err (Lexical (lit "lexical SQLite shard failed quick_check: " ++ answer))
       else Ok tt);
  let actual_count := len (db_documents db) in
  if negb (actual_count =? lm_file_count metadata)
  then Err (Lexical (lit "lexical SQLite shard row count mismatch: metadata=" ++ show_uint (lm_file_count metadata)
                     ++ lit ", actual=" ++ show_uint actual_count))
  else if negb (len (db_fts db) =? actual_count)
  then Err (Lexical (lit "lexical SQLite shard FTS row count mismatch: documents=" ++ show_uint actual_count
                     ++ lit ", fts=" ++ show_uint (len (db_fts db))))
  else if negb (forallb (fts_row_matches db) (db_documents db))
  then fail "lexical SQLite shard FTS rows do not match immutable documents"
  else Ok metadata.
(** [file]: what opening the path read-only gives; nothing when it is no file. *)
Definition validate_lexical_database (file : option (result LexicalError LexicalDatabase))
    (expected_project_id expected_sidecar_input_hash : str) (expected_lexical : option (Z * str)) (quick_check : bool)
  : result LexicalError LexicalShardMetadata :=
  match file with
  | None => fail "lexical SQLite shard is missing"
  | Some opened =>
      db ← opened;
      validate_open_database db expected_project_id expected_sidecar_input_hash expected_lexical quick_check
  end.
Definition shard_has_lexical_index (shard_dir expected_sidecar_input_hash : str)
    (file : option (result LexicalError LexicalDatabase)) : bool :=
  match file_name shard_dir with
  | None => false
  | Some project_id =>
      is_ok (validate_lexical_database file project_id expected_sidecar_input_hash None false)
  end.
Definition shard_matches_lexical_input (sidecar_generation : str) (expected_file_count : Z)
    (expected_hash expected_sidecar_input_hash : str) (file : option (result LexicalError LexicalDatabase)) : bool :=
  is_ok (validate_lexical_database file sidecar_generation expected_sidecar_input_hash
           (Some (expected_file_count, expected_hash)) true).
Definition lexical_shard_coverage (sidecar_generation expected_sidecar_input_hash : str)
    (file : option (result LexicalError LexicalDatabase)) : result LexicalError LexicalCoverage :=
  lm_coverage <$> validate_lexical_database file sidecar_generation expected_sidecar_input_hash None false.

(** ** Building *)
(** The shard directory: the index with its read-only flag, whether a temporary file is left,
    and the files of the old format. *)
Record ShardDirectory : Type := mkDirectory {
  sd_index : option (LexicalDatabase * bool);
  sd_temp : bool;
  sd_legacy : list str;
}.
(** How the operations on files end. *)
Record BuildIo : Type := mkBuildIo {
  io_create_dir : result LexicalError unit;
  io_temp : result LexicalError unit;
  io_write : result LexicalError unit;
  io_metadata : result LexicalError unit;
  io_make_writable : result LexicalError unit;
  io_rename : result LexicalError unit;
  io_sync : result LexicalError unit;
  io_protect : result LexicalError unit;
  io_restore : bool;
  io_remove_temp : bool;
  io_removable : str → bool;
}.
(** [publish_existing_file_atomic]: the rename, then the sync of the directory. *)
Definition publish_existing_file_atomic (io : BuildIo) (db : LexicalDatabase) (d : ShardDirectory)
  : result LexicalError unit * ShardDirectory :=
  match io_rename io with
  | Err e => (Err e, d)
  | Ok _ => (io_sync io, mkDirectory (Some (db, false)) false (sd_legacy d))
  end.
Definition set_readonly (readonly : bool) (d : ShardDirectory) : ShardDirectory :=
  mkDirectory ((λ file, (file.1, readonly)) <$> sd_index d) (sd_temp d) (sd_legacy d).
Definition publish_immutable_lexical_database (io : BuildIo) (db : LexicalDatabase) (d : ShardDirectory)
  : result LexicalError unit * ShardDirectory :=
  let prepared :=
    match sd_index d with
    | None => Ok (None, d)
    | Some (_, readonly) =>
        _ ← io_metadata io;
        _ ← (if readonly : bool then io_make_writable io else Ok tt);
        Ok (Some readonly, set_readonly false d)
    end in
  match prepared with
  | Err e => (Err e, d)
  | Ok (previous_permissions, d) =>
      match publish_existing_file_atomic io db d with
      | (Ok _, d) =>
          match io_protect io with Err e => (Err e, d) | Ok _ => (Ok tt, set_readonly true d) end
      | (Err e, d) =>
          match previous_permissions with
          | Some readonly => (Err e, if io_restore io then set_readonly readonly d else d)
          | None => (Err e, d)
          end
      end
  end.
Definition remove_temp (io : BuildIo) (d : ShardDirectory) : ShardDirectory :=
  mkDirectory (sd_index d) (sd_temp d && negb (io_remove_temp io)) (sd_legacy d).
Definition remove_legacy (io : BuildIo) (d : ShardDirectory) : ShardDirectory :=
  mkDirectory (sd_index d) (sd_temp d)
    (List.filter (λ name, negb (one_of name LEGACY_INDEX_FILES && io_removable io name)) (sd_legacy d)).
Definition build_lexical_shard (io : BuildIo) (project_id : str) (expected : LexicalInputFingerprint)
    (sidecar_input_hash : str) (now : Z)
    (scan : Visitor ShardWriter → ShardWriter → option (result LexicalError (ShardWriter * LexicalCoverage)))
    (d : ShardDirectory) : option (result LexicalError LexicalInputFingerprint * ShardDirectory) :=
  match io_create_dir io, io_temp io with
  | Err e, _ | Ok _, Err e => Some (Err e, d)
  | Ok _, Ok _ =>
      let d := mkDirectory (sd_index d) true (sd_legacy d) in
      written ← write_lexical_database project_id sidecar_input_hash expected now scan;
      let checked :=
        _ ← io_write io;
        r ← written;
        let '(rebuilt, db) := r : LexicalInputFingerprint * LexicalDatabase in
        _ ← validate_lexical_database (Some (Ok db)) project_id sidecar_input_hash
              (Some (lf_file_count expected, lf_hash expected)) true;
        Ok (rebuilt, db) in
      Some match checked with
           | Err e => (Err e, remove_temp io d)
           | Ok (rebuilt, db) =>
               match publish_immutable_lexical_database io db d with
               | (Err e, d) => (Err e, remove_temp io d)
               | (Ok _, d) => (Ok rebuilt, remove_legacy io d)
               end
           end
  end.
End Shard.

(** ** Search *)
(** Where a search asks whether it was cancelled.  The progress handler of SQLite asks as well:
    a statement it interrupts is one that fails. *)
Inductive PollAt : Type := AtStart | AtMetadata | AtToken (i : nat) | AtRow (i : nat) | AtEnd | AtError.
(** FTS5 over the rows of the full-text table: how many rows match a query, and the ids of the
    matching rows in the order of bm25 as they are stepped through; the natural logarithm. *)
Class FtsEngine : Type := {
  fts_count : list FtsRow → str → result LexicalError Z;
  fts_ranked : list FtsRow → str → result LexicalError (list (result LexicalError Z));
  f32_ln : f32 → f32;
}.
Record LexicalHit : Type := mkLexicalHit {
  lh_path : str;
  lh_source : LexicalDocumentSource;
  lh_node_id : option str;
  lh_symbol_name : option str;
  lh_start_line : option Z;
  lh_score : f32;
}.
Record LexicalTokenMatch : Type := mkTokenMatch {
  matched_weight : f32;
  path_weight : f32;
  content_weight : f32;
  total_weight : f32;
  meaningful_path_weight : f32;
}.
Definition f32_clamp (low high a : f32) : f32 := if f32_lt a low then low else if f32_gt a high then high else a.
Definition f32_sum : list f32 → f32 := foldl f32_add f32_zero.
(** [format!] of a token with its quotes doubled, as a prefix query. *)
Definition fts_token (token : str) : str :=
  [quote_char] ++ replace token [quote_char] [quote_char; quote_char] ++ [quote_char] ++ lit "*".
Definition fts_query (tokens : list str) : str := join (lit " OR ") (fts_token <$> tokens).
Definition candidate_limit (limit : Z) : Z :=
  Z.min (Z.max (saturating_mul usize_max limit 64) 256) MAX_CANDIDATES.
Definition required_lexical_match_weight (token_count : Z) (total : f32) : f32 :=
  if token_count <=? 3 then total else f32_max (f32_mul total (f32_ratio 28 100)) (f32_ratio 5 2).
Definition path_match_factor (normalized_path token : str) : f32 :=
  if one_of token (split_whitespace normalized_path) then f32_one
  else if contains normalized_path token then f32_ratio 35 100
  else f32_zero.
Definition match_token (path_lower content_lower : str) (m : LexicalTokenMatch) (tw : str * f32) : LexicalTokenMatch :=
  let '(token, weight) := tw in
  let path_factor := path_match_factor path_lower token in
  let content_match := contains content_lower token in
  let in_path := f32_gt path_factor f32_zero in
  mkTokenMatch
    (if in_path || content_match then f32_add (matched_weight m) weight else matched_weight m)
    (if in_path then f32_add (path_weight m) (f32_mul weight path_factor) else path_weight m)
    (if content_match then f32_add (content_weight m) weight else content_weight m)
    (f32_add (total_weight m) weight)
    (if in_path && f32_ge path_factor f32_one && f32_ge weight (f32_ratio 3 2)
     then f32_add (meaningful_path_weight m) weight else meaningful_path_weight m).
Definition lexical_token_match (tokens : list str) (token_weights : list f32) (path_lower content_lower : str)
  : LexicalTokenMatch :=
  foldl (match_token path_lower content_lower) (mkTokenMatch f32_zero f32_zero f32_zero f32_zero f32_zero)
    (combine tokens token_weights).
Definition broad_query_path_gate (token_count : Z) (m : LexicalTokenMatch) : bool :=
  (token_count <? 8) || f32_gt (meaningful_path_weight m) f32_zero.
Definition role_factor (r : FileRole) : f32 :=
  match r with
  | FileRole.Entrypoint => f32_ratio 108 100 | FileRole.Source => f32_one
  | FileRole.Test => f32_ratio 68 100 | FileRole.Docs => f32_ratio 72 100
  | FileRole.Benchmark => f32_ratio 64 100 | FileRole.Generated => f32_ratio 55 100
  | FileRole.Vendor => f32_ratio 45 100
  end.
Definition score_lexical_match (path : str) (source : LexicalDocumentSource) (m : LexicalTokenMatch) : f32 :=
  let coverage := if f32_le (total_weight m) f32_zero then f32_zero
                  else f32_div (matched_weight m) (total_weight m) in
  let score :=
    f32_add (f32_add (f32_add (f32_ratio 20 100) (f32_mul coverage (f32_ratio 25 100)))
               (f32_mul (path_weight m) (f32_ratio 9 100)))
      (f32_mul (content_weight m) (f32_ratio 35 1000)) in
  let path_lower := to_ascii_lowercase (unix_path path) in
  let score := if contains path_lower (lit "/src/") || starts_with path_lower (lit "src/")
               then f32_add score (f32_ratio 4 100) else score in
  let score := if bool_decide (source = DocumentSource.ComponentReport) then f32_add score (f32_ratio 8 100)
               else f32_mul score (role_factor (classify_path path)) in
  f32_min score (f32_ratio 99 100).
(** The order of the hits: the score from the top, then the path. *)
Definition hit_cmp : LexicalHit → LexicalHit → comparison :=
  then_with (cmp_flip (cmp_on lh_score f32_cmp)) (cmp_on lh_path str_cmp).
Definition cancelled_search {A} : result LexicalError A := fail "lexical search cancelled".

Section Search.
Context `{FtsEngine} `{UnicodeTables} `{CaseTables} `{CoverageJson} (sha256 : str → str) (cancelled : PollAt → bool).

Definition poll_cancelled (place : PollAt) : result LexicalError unit := if cancelled place then cancelled_search else Ok tt.
Definition lexical_token_weight (document_frequency document_count : Z) : f32 :=
  let rarity := f32_ln (f32_div (f32_add (f32_of_Z document_count) f32_one)
                          (f32_add (f32_of_Z document_frequency) f32_one)) in
  f32_clamp (f32_ratio 1 4) (f32_of_Z 5) (f32_add f32_one rarity).
Definition fts_document_frequency (db : LexicalDatabase) (token : str) : result LexicalError Z :=
  count ← fts_count (db_fts db) (fts_token token);
  if (0 <=? count) && (count <=? u32_max) then Ok count else fail "integral value out of range".
Fixpoint token_frequencies (db : LexicalDatabase) (i : nat) (tokens : list str) : result LexicalError (list Z) :=
  match tokens with
  | [] => Ok []
  | token :: rest =>
      _ ← poll_cancelled (AtToken i);
      frequency ← fts_document_frequency db token;
      frequencies ← token_frequencies db (S i) rest;
      Ok (frequency :: frequencies)
  end.
Definition token_weight (command_tokens : list str) (document_count : Z) (ft : Z * str) : f32 :=
  let weight := lexical_token_weight ft.1 document_count in
  if one_of ft.2 command_tokens then f32_mul weight (f32_of_Z 2) else weight.
(** A row of the join of the full-text table and the documents. *)
Abbreviation CandidateRow := (LexicalDocument * (str * str))%type.
Definition document_at (db : LexicalDatabase) (id : Z) : option ShardDocumentRow :=
  List.find (λ r, sh_id r =? id) (db_documents db).
Definition read_document (r : ShardDocumentRow) : result LexicalError LexicalDocument :=
  source ← parse_source (sh_source r);
  match sh_start_line r with
  | Some line =>
      if (0 <=? line) && (line <=? u32_max)
      then Ok (mkDocument (sh_path r) (sh_content r) source (sh_node_id r) (sh_symbol_name r) (Some line))
      else fail "integral value out of range"
  | None => Ok (mkDocument (sh_path r) (sh_content r) source (sh_node_id r) (sh_symbol_name r) None)
  end.
Definition joined_row (db : LexicalDatabase) (step : result LexicalError Z) : option (result LexicalError CandidateRow) :=
  match step with
  | Err e => Some (Err e)
  | Ok id =>
      match document_at db id, fts_of db id with
      | Some r, Some normalized => Some (d ← read_document r; Ok (d, normalized))
      | _, _ => None
      end
  end.
Definition candidate_rows (db : LexicalDatabase) (tokens : list str) (limit : Z)
  : result LexicalError (list (result LexicalError CandidateRow)) :=
  steps ← fts_ranked (db_fts db) (fts_query tokens);
  Ok (take (Z.to_nat (candidate_limit limit)) (omap (joined_row db) steps)).
(** What a row becomes: a hit when enough of the query is in it. *)
Definition row_hit (tokens : list str) (token_weights : list f32) (required_weight : f32) (row : CandidateRow)
  : option LexicalHit :=
  let '(document, (normalized_path, normalized_content)) := row in
  let m := lexical_token_match tokens token_weights normalized_path normalized_content in
  if f32_ge (matched_weight m) required_weight && broad_query_path_gate (len tokens) m
  then Some (mkLexicalHit (ld_path document) (ld_source document) (ld_node_id document) (ld_symbol_name document)
               (ld_start_line document) (score_lexical_match (ld_path document) (ld_source document) m))
  else None.
Definition visit_row (hit : CandidateRow → option LexicalHit) (st : nat * list LexicalHit)
    (row : result LexicalError CandidateRow) : result LexicalError (nat * list LexicalHit) :=
  _ ← (if (st.1 mod 64 =? 0)%nat then poll_cancelled (AtRow st.1) else Ok tt);
  row ← row;
  Ok (S st.1, st.2 ++ option_list (hit row)).
Definition search_database (db : LexicalDatabase) (metadata : LexicalShardMetadata) (query : str) (limit : Z)
  : result LexicalError (list LexicalHit) :=
  let tokens := lexical_query_tokens query in
  match tokens with
  | [] => Ok []
  | _ =>
      let command_tokens := command_query_tokens query in
      frequencies ← token_frequencies db 0 tokens;
      let token_weights := token_weight command_tokens (lm_file_count metadata) <$> combine frequencies tokens in
      let required_weight := required_lexical_match_weight (len tokens) (f32_sum token_weights) in
      rows ← candidate_rows db tokens limit;
      found ← try_fold (visit_row (row_hit tokens token_weights required_weight)) (0%nat, []) rows;
      _ ← poll_cancelled AtEnd;
      Ok (take (Z.to_nat limit) (sort_by (cmp_leb hit_cmp) found.2))
  end.
(** [file]: what opening the shard read-only gives. *)
Definition search_lexical_index_with_cancel_inner (shard_dir expected_sidecar_input_hash query : str) (limit : Z)
    (file : result LexicalError LexicalDatabase) : result LexicalError (list LexicalHit) :=
  _ ← poll_cancelled AtStart;
  if limit =? 0 then Ok []
  else
    match file_name shard_dir with
    | None => fail "lexical shard path has no generation directory"
    | Some project_id =>
        db ← file;
        _ ← poll_cancelled AtMetadata;
        metadata ← validate_open_database_metadata sha256 db project_id expected_sidecar_input_hash None;
        search_database db metadata query limit
    end.
Definition search_lexical_index_with_cancel (shard_dir expected_sidecar_input_hash query : str) (limit : Z)
    (file : result LexicalError LexicalDatabase) : result LexicalError (list LexicalHit) :=
  match search_lexical_index_with_cancel_inner shard_dir expected_sidecar_input_hash query limit file with
  | Err e => if cancelled AtError then cancelled_search else Err e
  | Ok hits => Ok hits
  end.
End Search.
