(* ===== verification/LexicalIndexProofs.v ===== *)
(** * The lexical index: what its operations promise

    The scan visits every readable file and every stored symbol document and accounts for the
    rest; a build either leaves the shard as it was or installs a complete one that validates,
    and the shard holds the documents whose fingerprint was expected; a search ranks the
    candidates of the full-text engine and returns the best of those that match. *)
From stdpp Require Import relations.
From S2P Require Import Prelude RustStr Sorting StrOps UnixPath Collections WorkspacePaths.
From S2P Require Import WorkspaceDiscovery WorkspaceRefresh Encoding Promotion SidecarStore SidecarStoreProofs.
From S2P Require Import Graph RetrievalPlan RetrievalData RetrievalExecutor RetrievalRanker LexicalIndex.

(** ** The scan *)
(** What reading a file gives. *)
Inductive FileReading : Type := Unread | TooLarge | Content (content : str).

Section ScanProofs.
Context `{FileSystem}.

Definition file_reading (path : str) : FileReading :=
  match fs_metadata path with
  | Err _ => Unread
  | Ok metadata =>
      if MAX_FILE_BYTES <? md_len metadata then TooLarge
      else match fs_read_to_string path with Err _ => Unread | Ok content => Content content end
  end.
Definition file_document (project_root path : str) : option LexicalDocument :=
  match file_reading path with
  | Content content =>
      Some (mkDocument (lexical_relative_path project_root path) content DocumentSource.LexicalSource None None None)
  | _ => None
  end.
Definition count_file (project_root : str) (c : LexicalCoverage) (path : str) : LexicalCoverage :=
  match file_reading path with
  | Unread => count_unreadable (lexical_relative_path project_root path) c
  | TooLarge => count_oversized (lexical_relative_path project_root path) c
  | Content _ => count_indexed c
  end.
Definition coverage_of (project_root : str) (files : list str) : LexicalCoverage :=
  foldl (count_file project_root) (mkCoverage (Z.min (len files) u32_max) 0 0 0 [] []) files.

Lemma scan_files {S} (visit : Visitor S) project_root files : ∀ s c,
  try_fold (visit_file visit project_root) (s, c) files =
  (s' ← try_fold visit s (omap (file_document project_root) files);
   Ok (s', foldl (count_file project_root) c files)).
Proof.
  induction files as [|path files IH]; intros s c; [done|].
  cbn [try_fold visit_file omap list_omap foldl]. unfold file_document, count_file at 2, file_reading.
  destruct (fs_metadata path) as [metadata|e]; [|by apply IH].
  destruct (MAX_FILE_BYTES <? md_len metadata); [by apply IH|].
  destruct (fs_read_to_string path) as [content|e]; [|by apply IH].
  cbn [try_fold]. destruct (visit s _) as [s'|e]; [|done]. by apply IH.
Qed.

(** The paths a count samples. *)
Definition paths_with (project_root : str) (f : FileReading → bool) (files : list str) : list str :=
  lexical_relative_path project_root <$> List.filter (λ path, f (file_reading path)) files.
Definition unread (r : FileReading) : bool := match r with Unread => true | _ => false end.
Definition too_large (r : FileReading) : bool := match r with TooLarge => true | _ => false end.
(** A coverage that accounts for the files seen so far, of [n] discovered ones. *)
Record accounts (project_root : str) (n : Z) (files : list str) (c : LexicalCoverage) : Prop := {
  ac_discovered : discovered_files c = n;
  ac_indexed : indexed_files c = len (omap (file_document project_root) files);
  ac_omitted : omitted_oversized c = len (paths_with project_root too_large files);
  ac_unreadable : unreadable_files c = len (paths_with project_root unread files);
  ac_total : indexed_files c + omitted_oversized c + unreadable_files c = len files;
  ac_omitted_sample : omitted_path_sample c = take COVERAGE_PATH_SAMPLE (paths_with project_root too_large files);
  ac_unreadable_sample : unreadable_path_sample c = take COVERAGE_PATH_SAMPLE (paths_with project_root unread files);
}.
Lemma push_sample_snoc l path :
  push_coverage_sample (take COVERAGE_PATH_SAMPLE l) path = take COVERAGE_PATH_SAMPLE (l ++ [path]).
Proof.
  unfold push_coverage_sample. rewrite length_take, take_app.
  destruct (Nat.ltb_spec (COVERAGE_PATH_SAMPLE `min` length l) COVERAGE_PATH_SAMPLE) as [Hl|Hl].
  - rewrite (take_ge [path]); [done|]. cbn [length]. lia.
  - assert (COVERAGE_PATH_SAMPLE - length l = 0)%nat as -> by lia. by rewrite app_nil_r.
Qed.
Lemma len_snoc {A} (l : list A) x : len (l ++ [x]) = len l + 1.
Proof. by rewrite len_app. Qed.
Lemma saturating_inc_exact n : n < u32_max → saturating_inc n = n + 1.
Proof. unfold saturating_inc, saturating_add. lia. Qed.
Lemma file_document_reading project_root path :
  file_document project_root path =
  match file_reading path with
  | Content content =>
      Some (mkDocument (lexical_relative_path project_root path) content DocumentSource.LexicalSource None None None)
  | _ => None
  end.
Proof. done. Qed.
Lemma count_file_accounts project_root n seen path c : len (seen ++ [path]) ≤ u32_max →
  accounts project_root n seen c → accounts project_root n (seen ++ [path]) (count_file project_root c path).
Proof.
  intros Hn [Hd Hi Ho Hu Ht Hos Hus]. rewrite len_snoc in Hn.
  pose proof (len_nonneg (omap (file_document project_root) seen)).
  pose proof (len_nonneg (paths_with project_root too_large seen)).
  pose proof (len_nonneg (paths_with project_root unread seen)).
  unfold count_file. destruct (file_reading path) eqn:Er;
    pose proof (file_document_reading project_root path) as Hf; rewrite Er in Hf; split; cbn [count_unreadable count_oversized count_indexed discovered_files indexed_files omitted_oversized
      unreadable_files omitted_path_sample unreadable_path_sample]; rewrite ?saturating_inc_exact by lia;
    rewrite ?omap_app, ?len_snoc; unfold paths_with in *; rewrite ?List.filter_app, ?fmap_app;
    cbn [omap list_omap List.filter]; rewrite ?Hf, ?Er; cbn [unread too_large fmap list_fmap];
    rewrite ?app_nil_r, ?len_snoc, ?Hos, ?Hus, ?push_sample_snoc; try done; lia.
Qed.
Lemma coverage_accounts project_root files : len files ≤ u32_max →
  accounts project_root (len files) files (coverage_of project_root files).
Proof.
  intros Hn. unfold coverage_of. rewrite Z.min_l by done.
  assert (∀ rest seen c, len (seen ++ rest) ≤ u32_max → accounts project_root (len files) seen c →
    accounts project_root (len files) (seen ++ rest) (foldl (count_file project_root) c rest)) as Hfold.
  { induction rest as [|path rest IH]; intros seen c Hl Hc; [by rewrite app_nil_r|].
    cbn [foldl]. rewrite cons_middle, app_assoc in Hl |- *. apply IH; [done|].
    apply count_file_accounts; [|done]. rewrite len_app in Hl. pose proof (len_nonneg rest). lia. }
  apply (Hfold files []); [done|]. by split.
Qed.
End ScanProofs.

(** ** The stored documents *)
(** The symbol documents that a scan reads from a store. *)
Definition stored_docs (core : Core) : result StoreError (list SymbolSearchDoc) :=
  collect_rows doc_from_row (co_docs core).
Lemma symbol_pages core docs : keyed dr_node_id (co_docs core) → stored_docs core = Ok docs →
  pages_of sd_node_id (symbol_batch core) docs.
Proof.
  intros Hk Hd. split.
  - by apply (collect_rows_keyed doc_from_row dr_node_id sd_node_id _ _ doc_key Hk).
  - intros after limit _. unfold symbol_batch, get_symbol_search_docs_batch_after, batch_after.
    erewrite collect_rows_take; [done|]. apply collect_rows_filter; [|done].
    intros r d Hr. destruct after; [|done]. cbn. by rewrite (doc_key r d Hr).
Qed.
Lemma visit_docs_fold {S} (visit : Visitor S) project_root docs : ∀ s,
  visit_docs visit project_root s docs = try_fold visit s (symbol_document project_root <$> docs).
Proof. induction docs as [|d docs IH]; intros s; [done|]. cbn. destruct (visit s _); [|done]. apply IH. Qed.
Lemma scan_store_documents {S} (visit : Visitor S) project_root core docs fuel s :
  keyed dr_node_id (co_docs core) → stored_docs core = Ok docs → (length docs < fuel)%nat →
  scan_symbol_documents_from_store fuel visit project_root core s =
  Some (try_fold visit s (symbol_document project_root <$> docs)).
Proof.
  intros Hk Hd Hf. rewrite <- visit_docs_fold. apply (read_all sd_node_id _ (λ _, True));
    [done|done| |by apply symbol_pages|lia|done|done].
  intros s' l k. apply try_fold_app.
Qed.

Section ScanTheorem.
Context `{FileSystem} `{ManifestFormat} {Pattern : Type} `{GlobSyntax Pattern} `{DirectoryWalk} `{CoreStores}.

(** The files that a scan discovers. *)
Definition lexical_files (project_root : str) (source_storage_path : option str) : result str (list str) :=
  workspace ← match source_storage_path with
              | Some storage_path => open_with_storage_owned_exclusions project_root storage_path
              | None => open project_root
              end;
  source_files workspace.
(** The symbol documents behind a path: none without a store there. *)
Definition lexical_docs (symbol_storage_path : option str) : option (list SymbolSearchDoc) :=
  match symbol_storage_path with
  | None => Some []
  | Some path =>
      if store_is_file path then core ← open_core path; result_ok (stored_docs core) else Some []
  end.
Definition lexical_documents (project_root : str) (files : list str) (docs : list SymbolSearchDoc)
  : list LexicalDocument :=
  omap (file_document project_root) files ++ (symbol_document project_root <$> docs).
Lemma scan_documents {S} (visit : Visitor S) project_root source_path symbol_path files docs fuel s :
  (∀ path core, open_core path = Some core → keyed dr_node_id (co_docs core)) →
  lexical_files project_root source_path = Ok files → lexical_docs symbol_path = Some docs → (length docs < fuel)%nat →
  scan_lexical_documents fuel visit project_root source_path symbol_path s =
    Some (s' ← try_fold visit s (lexical_documents project_root files docs); Ok (s', coverage_of project_root files)).
Proof.
  intros Hkeyed Hfiles Hdocs Hf. unfold scan_lexical_documents. unfold lexical_files in Hfiles.
  apply bind_Ok in Hfiles as (workspace & -> & Hfiles). cbn [in_context mbind result_bind]. rewrite Hfiles.
  cbn [in_context mbind result_bind]. rewrite scan_files. unfold lexical_documents. rewrite try_fold_app.
  unfold mbind at 1 2 3, result_bind. fold (coverage_of project_root files).
  destruct (try_fold visit s (omap _ files)) as [s'|e]; [|done].
  unfold scan_symbol_documents, lexical_docs in *. destruct symbol_path as [path|]; [|by injection Hdocs as <-].
  destruct (store_is_file path); [|by injection Hdocs as <-].
  destruct (open_core path) as [core|] eqn:Ho; [|done]. cbn in Hdocs.
  rewrite (scan_store_documents visit project_root core docs fuel); [|by eapply Hkeyed| |done].
  - by destruct (try_fold visit s' _).
  - by destruct (stored_docs core) as [l|]; [injection Hdocs as <-|].
Qed.

(** [C21] The scan of a project visits, in this order and with any visitor, every discovered file
    that can be read and is at most 1,000,000 bytes long, then every symbol document of the store
    in the order of node ids, whatever the pages; it needs no more pages than there are documents
    and one, and stops only at an error of the visitor.  The coverage it returns accounts for
    every discovered file: indexed, omitted as too large or unreadable add up to the discovered
    ones, and the samples are the first 32 paths of their kind. *)
Theorem scan_visits_documents {S} (visit : Visitor S) project_root source_path symbol_path files docs fuel s :
  (∀ path core, open_core path = Some core → keyed dr_node_id (co_docs core)) →
  lexical_files project_root source_path = Ok files → lexical_docs symbol_path = Some docs →
  (length docs < fuel)%nat → len files ≤ u32_max →
  scan_lexical_documents fuel visit project_root source_path symbol_path s =
    Some (s' ← try_fold visit s (lexical_documents project_root files docs); Ok (s', coverage_of project_root files)) ∧
  accounts project_root (len files) files (coverage_of project_root files).
Proof. intros Hkeyed Hfiles Hdocs Hf Hn. split; [by apply scan_documents|by apply coverage_accounts]. Qed.
End ScanTheorem.

(** ** The fingerprint *)
Definition document_bytes (d : LexicalDocument) : str :=
  concat ((λ p, p ++ [nul]) <$> document_parts d) ++ u32_bytes (default 0 (ld_start_line d)).
Definition documents_bytes (docs : list LexicalDocument) : str := concat (document_bytes <$> docs).
(** A document without zero bytes. *)
Definition plain (d : LexicalDocument) : Prop :=
  Forall (λ p, nul ∉ p) (document_parts d) ∧ in_range u32_max (default 0 (ld_start_line d)).
(** Documents that differ at most in an absent id, name or line against an empty one. *)
Record same_document (a b : LexicalDocument) : Prop := {
  same_path : ld_path a = ld_path b;
  same_content : ld_content a = ld_content b;
  same_source : ld_source a = ld_source b;
  same_node_id : default [] (ld_node_id a) = default [] (ld_node_id b);
  same_symbol_name : default [] (ld_symbol_name a) = default [] (ld_symbol_name b);
  same_start_line : default 0 (ld_start_line a) = default 0 (ld_start_line b);
}.
Lemma hash_document hasher d : hash_lexical_document hasher d = hasher ++ document_bytes d.
Proof. unfold hash_lexical_document, document_bytes. by rewrite update_terminated_concat, <- app_assoc. Qed.
Lemma source_label_inj a b : source_label a = source_label b → a = b.
Proof. by destruct a, b. Qed.
Lemma document_bytes_inj a b s t : plain a → plain b → document_bytes a ++ s = document_bytes b ++ t →
  same_document a b ∧ s = t.
Proof.
  intros [Ha La] [Hb Lb]. unfold document_bytes. rewrite <- !app_assoc. intros E.
  apply terminated_prefix_inj in E as [Ep E]; [|done..].
  apply app_split in E as [El Es]; [|by unfold u32_bytes; rewrite !le_bytes_length].
  unfold in_range, u32_max in *. apply le_bytes_inj in El; [|change (256 ^ Z.of_nat 4) with (2 ^ 32); lia..].
  split; [|done]. unfold document_parts in Ep. injection Ep as Ep Ec Eo En Ey.
  split; try done. by apply source_label_inj.
Qed.
Lemma documents_bytes_inj l k s t : Forall plain l → Forall plain k → length l = length k →
  documents_bytes l ++ s = documents_bytes k ++ t → Forall2 same_document l k ∧ s = t.
Proof.
  intros Hl. revert k. induction Hl as [|a l Ha Hl IH]; intros [|b k] Hk E; [done|done|done|].
  apply Forall_cons in Hk as [Hb Hk]. injection E as E. unfold documents_bytes. cbn [fmap list_fmap concat].
  rewrite <- !app_assoc.
  intros [Hab Er]%document_bytes_inj; [|done..]. apply IH in Er as [Hr ->]; [|done..]. by split; [constructor|].
Qed.

Lemma documents_bytes_app l k : documents_bytes (l ++ k) = documents_bytes l ++ documents_bytes k.
Proof. unfold documents_bytes. by rewrite fmap_app, concat_app. Qed.

(** What a fold over numbered documents adds. *)
Fixpoint numbered {A} (f : Z → LexicalDocument → A) (n : Z) (docs : list LexicalDocument) : list A :=
  match docs with [] => [] | d :: docs => f (n + 1) d :: numbered f (n + 1) docs end.
Lemma numbered_len {A} (f : Z → LexicalDocument → A) docs : ∀ n, len (numbered f n docs) = len docs.
Proof. induction docs as [|d docs IH]; intros n; [done|]. cbn [numbered]. by rewrite !len_cons, IH. Qed.
Lemma numbered_elem {A} (f : Z → LexicalDocument → A) x docs : ∀ n, x ∈ numbered f n docs →
  ∃ i d, n < i ∧ d ∈ docs ∧ x = f i d.
Proof.
  induction docs as [|d docs IH]; intros n; [by intros ?%not_elem_of_nil|]. cbn [numbered].
  intros [-> | (i & d' & Hi & Hd & ->)%IH]%elem_of_cons; [exists (n + 1), d|exists i, d']; repeat split; try set_solver; lia.
Qed.

Section Fingerprints.
Context `{CoverageJson} (sha256 : str → str).
Definition fingerprint_of (docs : list LexicalDocument) (coverage : LexicalCoverage) : LexicalInputFingerprint :=
  mkFingerprint (Z.min u32_max (len docs))
    (finish_lexical_documents_hash sha256 (lexical_documents_hasher ++ documents_bytes docs) coverage) coverage.
Lemma fingerprint_fold docs : ∀ hasher n, in_range u32_max n →
  try_fold fingerprint_document (hasher, n) docs = Ok (hasher ++ documents_bytes docs, Z.min u32_max (n + len docs)).
Proof.
  unfold in_range. induction docs as [|d docs IH]; intros hasher n Hn.
  - cbn. rewrite app_nil_r, len_nil. do 2 f_equal. lia.
  - cbn [try_fold]. change (fingerprint_document (hasher, n) d) with
      (Ok (E := LexicalError) (hash_lexical_document hasher d, saturating_inc n)). cbn [mbind result_bind].
    pose proof (len_nonneg docs). rewrite hash_document, IH by (unfold saturating_inc, saturating_add; lia).
    unfold documents_bytes. cbn [fmap list_fmap concat]. rewrite <- app_assoc, len_cons. do 2 f_equal.
    unfold saturating_inc, saturating_add. lia.
Qed.
Lemma fingerprint_collision l k coverage coverage' : len l ≤ u32_max → len k ≤ u32_max →
  Forall plain l → Forall plain k → fingerprint_of l coverage = fingerprint_of k coverage' →
  Forall2 same_document l k ∨ ∃ m m', m ≠ m' ∧ sha256 m = sha256 m'.
Proof.
  intros Hl Hk Pl Pk [= Hn Hh ->]. unfold finish_lexical_documents_hash in Hh.
  destruct (decide ((lexical_documents_hasher ++ documents_bytes l) ++ coverage_to_json coverage' =
                    (lexical_documents_hasher ++ documents_bytes k) ++ coverage_to_json coverage')) as [E|E];
    [|right; eauto].
  left. apply app_inv_tail in E. apply app_inv_head in E.
  apply (documents_bytes_inj l k [] []); [done|done| |by rewrite !app_nil_r].
  unfold len in *. lia.
Qed.
End Fingerprints.

Section Inputs.
Context `{FileSystem} `{ManifestFormat} {Pattern : Type} `{GlobSyntax Pattern} `{DirectoryWalk} `{CoreStores}
  `{CoverageJson} (sha256 : str → str).
(** The fingerprint of the input of a store. *)
Lemma input_fingerprint fuel project_root storage_path files core docs source expected :
  (∀ path core, open_core path = Some core → keyed dr_node_id (co_docs core)) →
  lexical_files project_root (Some storage_path) = Ok files →
  keyed dr_node_id (co_docs core) → stored_docs core = Ok docs → (length docs < fuel)%nat →
  lexical_source_input fuel project_root storage_path = Some (Ok source) →
  finish_lexical_input_for_store fuel sha256 source project_root core = Some (Ok expected) →
  expected = fingerprint_of sha256 (lexical_documents project_root files docs) (coverage_of project_root files).
Proof.
  intros Hkeyed Hfiles Hk Hdocs Hf Hs He. unfold lexical_source_input in Hs.
  rewrite (scan_documents fingerprint_document project_root (Some storage_path) None files [] fuel) in Hs
    by (done || cbn; lia).
  unfold lexical_documents in Hs. cbn [fmap list_fmap] in Hs. rewrite app_nil_r in Hs.
  rewrite fingerprint_fold in Hs by by split. cbn [mbind option_bind result_bind fst snd] in Hs.
  injection Hs as <-. unfold finish_lexical_input_for_store in He. cbn [si_hasher si_file_count si_coverage] in He.
  rewrite (scan_store_documents _ _ _ docs) in He by done.
  pose proof (len_nonneg (omap (file_document project_root) files)).
  rewrite fingerprint_fold in He by (unfold in_range, u32_max in *; lia). cbn [mbind option_bind result_bind fst snd] in He.
  injection He as <-. unfold fingerprint_of, lexical_documents.
  rewrite documents_bytes_app, len_app, app_assoc. f_equal.
  pose proof (len_nonneg (symbol_document project_root <$> docs)). lia.
Qed.
End Inputs.

(** ** Building a shard *)
Section BuildProofs.
Context `{UnicodeTables} `{CaseTables} `{CoverageJson} (sha256 : str → str).

(** A scan that visits the documents [written], whatever the visitor. *)
Definition scans (scan : Visitor ShardWriter → ShardWriter → option (result LexicalError (ShardWriter * LexicalCoverage)))
    (written : list LexicalDocument) (coverage : LexicalCoverage) : Prop :=
  ∀ visit s, scan visit s = Some (s' ← try_fold visit s written; Ok (s', coverage)).
Lemma write_step w d : write_document w d =
  match checked_add u32_max (wr_file_count w) 1 with
  | None => fail "lexical document count overflow"
  | Some id =>
      Ok (mkWriter id (hash_lexical_document (wr_hasher w) d) (wr_documents w ++ [shard_row id d])
            (wr_fts w ++ [fts_row id d]))
  end.
Proof. done. Qed.
Lemma write_fold docs : ∀ w w', try_fold write_document w docs = Ok w' ↔
  (docs = [] ∨ wr_file_count w + len docs ≤ u32_max) ∧
  w' = mkWriter (wr_file_count w + len docs) (wr_hasher w ++ documents_bytes docs)
         (wr_documents w ++ numbered shard_row (wr_file_count w) docs)
         (wr_fts w ++ numbered fts_row (wr_file_count w) docs).
Proof.
  induction docs as [|d docs IH]; intros [n hasher rows fts] w'.
  - cbn. rewrite !app_nil_r, len_nil, Z.add_0_r. naive_solver.
  - cbn [try_fold]. rewrite write_step. unfold mbind, result_bind, checked_add.
    cbn [wr_file_count wr_hasher wr_documents wr_fts]. pose proof (len_nonneg docs). rewrite len_cons.
    destruct (decide (n + 1 ≤ u32_max)) as [Hn|Hn]; [|split; [discriminate|]; intros [[?|?] _]; [discriminate|lia]].
    rewrite IH. cbn [wr_file_count wr_hasher wr_documents wr_fts numbered].
    rewrite hash_document. unfold documents_bytes. cbn [fmap list_fmap concat]. rewrite <- !app_assoc.
    cbn [app]. rewrite Z.add_assoc. split.
    + intros [Hd ->]. split; [|done]. right. destruct Hd as [-> | Hd]; [rewrite len_nil; lia|lia].
    + intros [Hd ->]. split; [|done]. right. destruct Hd as [Hd|Hd]; [done|lia].
Qed.

(** The database that a build writes. *)
Definition shard_of (project_id sidecar_input_hash : str) (f : LexicalInputFingerprint) (now : Z)
    (docs : list LexicalDocument) : LexicalDatabase :=
  let coverage_json := coverage_to_json (lf_coverage f) in
  mkShard 1 3 (Ok (lit "ok"))
    (Some (mkShardMetadata LEXICAL_INDEX_VERSION project_id sidecar_input_hash (lf_hash f) (lf_file_count f)
             coverage_json
             (metadata_binding sha256 project_id sidecar_input_hash (lf_hash f) (lf_file_count f) coverage_json) now))
    (numbered shard_row 0 docs) (numbered fts_row 0 docs).
Lemma write_database_ok project_id hash expected now scan written coverage rebuilt db :
  scans scan written coverage →
  write_lexical_database sha256 project_id hash expected now scan = Some (Ok (rebuilt, db)) ↔
  len written ≤ u32_max ∧ rebuilt = expected ∧ expected = fingerprint_of sha256 written coverage ∧
  db = shard_of project_id hash expected now written.
Proof.
  intros Hscan. unfold write_lexical_database. rewrite Hscan. cbn [mbind option_bind].
  destruct (try_fold write_document _ written) as [w|e] eqn:Hw; cbn [mbind result_bind].
  - apply write_fold in Hw as [Hd ->]. cbn [wr_file_count wr_hasher wr_documents wr_fts app] in *.
    rewrite Z.add_0_l in *. assert (len written ≤ u32_max) as Hn
      by (destruct Hd as [-> | Hd]; [unfold len, u32_max; cbn; lia|done]).
    fold (fingerprint_of sha256 written coverage) in *. unfold fingerprint_of. rewrite Z.min_r by done.
    destruct (bool_decide_reflect (mkFingerprint (len written)
      (finish_lexical_documents_hash sha256 (lexical_documents_hasher ++ documents_bytes written) coverage) coverage
      = expected)) as [<-|Hne]; cbn [negb].
    + unfold shard_of. cbn [lf_hash lf_file_count lf_coverage]. naive_solver.
    + split; [done|]. intros (_ & _ & -> & _). done.
  - split; [done|]. intros (Hn & _). exfalso.
    assert (try_fold write_document (mkWriter 0 lexical_documents_hasher [] []) written = Err e → False); [|done].
    intros Hf. pose proof (proj2 (write_fold written (mkWriter 0 lexical_documents_hasher [] []) _)
      (conj (or_intror Hn) eq_refl)) as Hg. congruence.
Qed.

(** The rows of the full-text table are the documents' ones. *)
Lemma find_numbered docs : ∀ n i d, shard_row i d ∈ numbered shard_row n docs →
  ∃ d', sh_path (shard_row i d) = ld_path d' ∧ sh_content (shard_row i d) = ld_content d' ∧
  List.find (λ r : FtsRow, r.1 =? i) (numbered fts_row n docs) = Some (fts_row i d').
Proof.
  induction docs as [|x docs IH]; intros n i d; [by intros ?%not_elem_of_nil|]. cbn [numbered].
  intros [E|Hr]%elem_of_cons.
  - injection E as -> Hp Hc _ _ _ _. exists x. cbn. rewrite Z.eqb_refl. done.
  - pose proof Hr as (j & d' & Hj & _ & [= -> _ _ _ _ _ _])%numbered_elem.
    destruct (IH _ _ _ Hr) as (d'' & Hp & Hc & Hf). exists d''. cbn [List.find fts_row fst].
    rewrite (proj2 (Z.eqb_neq _ _)) by lia. done.
Qed.
Lemma shard_fts_matches project_id hash f now docs :
  forallb (fts_row_matches (shard_of project_id hash f now docs)) (numbered shard_row 0 docs) = true.
Proof.
  apply forallb_forall. intros r Hr%list_elem_of_In. pose proof Hr as (i & d & _ & _ & ->)%numbered_elem.
  apply find_numbered in Hr as (d' & Hp & Hc & Hf). apply bool_decide_eq_true. unfold fts_of.
  cbn [shard_of db_fts sh_id shard_row]. rewrite Hf, Hp, Hc. done.
Qed.

Hypothesis json_round_trip : ∀ c, coverage_from_json (coverage_to_json c) = Some c.
(** What is read from the metadata of a written shard. *)
Definition metadata_of (project_id sidecar_input_hash : str) (f : LexicalInputFingerprint) : LexicalShardMetadata :=
  mkMetadataRecord project_id sidecar_input_hash (lf_hash f) (lf_file_count f) (lf_coverage f)
    (metadata_binding sha256 project_id sidecar_input_hash (lf_hash f) (lf_file_count f)
       (coverage_to_json (lf_coverage f))).
Lemma shard_metadata_valid project_id hash f now docs expected : in_range u32_max (lf_file_count f) →
  expected = None ∨ expected = Some (lf_file_count f, lf_hash f) →
  validate_open_database_metadata sha256 (shard_of project_id hash f now docs) project_id hash expected =
  Ok (metadata_of project_id hash f).
Proof.
  intros [Hl Hh] He. unfold validate_open_database_metadata, shard_of. cbn [db_schema_version db_required_tables db_metadata].
  rewrite !Z.eqb_refl. cbn [negb]. unfold shard_metadata. cbn [sm_coverage_json sm_file_count sm_version sm_project_id
    sm_sidecar_input_hash sm_lexical_hash sm_binding_sha256].
  rewrite json_round_trip, (proj2 (Z.leb_le _ _) Hl), (proj2 (Z.leb_le _ _) Hh).
  cbn [andb mbind result_bind lm_project_id lm_sidecar_input_hash lm_lexical_hash lm_file_count lm_binding_sha256].
  rewrite !str_eqb_refl. change (3 =? 3) with true. cbn [negb].
  destruct He as [-> | ->]; [done|]. by rewrite Z.eqb_refl, str_eqb_refl.
Qed.
Lemma shard_valid project_id hash f now docs expected : lf_file_count f = len docs → len docs ≤ u32_max →
  expected = None ∨ expected = Some (lf_file_count f, lf_hash f) →
  validate_open_database sha256 (shard_of project_id hash f now docs) project_id hash expected true =
  Ok (metadata_of project_id hash f).
Proof.
  intros Hn Hl He. unfold validate_open_database. rewrite shard_metadata_valid; [|rewrite Hn; split; [apply len_nonneg|done]|done].
  cbn [mbind result_bind]. change (db_quick _) with (Ok (E := LexicalError) (lit "ok")). cbn [mbind result_bind].
  rewrite str_eqb_refl. cbn [db_documents db_fts shard_of metadata_of lm_file_count].
  rewrite !numbered_len, Hn, Z.eqb_refl. cbn [negb].
  change (mkShard 1 3 _ _ _ _) with (shard_of project_id hash f now docs). by rewrite shard_fts_matches.
Qed.
End BuildProofs.

Section BuildTheorems.
Context `{UnicodeTables} `{CaseTables} `{CoverageJson} (sha256 : str → str).

Lemma publish_outcome io db d r d' : publish_immutable_lexical_database io db d = (r, d') →
  (r = Ok tt ∧ d' = mkDirectory (Some (db, true)) false (sd_legacy d)) ∨
  (is_ok r = false ∧ sd_temp d' = sd_temp d ∧ fst <$> sd_index d' = fst <$> sd_index d) ∨
  (is_ok r = false ∧ sd_temp d' = false ∧ fst <$> sd_index d' = Some db).
Proof.
  unfold publish_immutable_lexical_database, publish_existing_file_atomic.
  assert (∀ (x y : result LexicalError unit * ShardDirectory), x = y → x.1 = y.1 ∧ x.2 = y.2) as Hpair by by intros ? ? ->.
  destruct d as [[[old readonly]|] temp legacy]; cbn;
    [destruct (io_metadata io) as [u|e]; cbn; [destruct readonly; cbn;
      [destruct (io_make_writable io) as [v|e]; cbn|]|]|];
    try (destruct (io_rename io) as [v'|e]; cbn; [destruct (io_sync io) as [v''|e]; cbn;
      [destruct (io_protect io) as [v'''|e]; cbn|destruct (io_restore io); cbn]|destruct (io_restore io); cbn]);
    intros E%Hpair; cbn in E; destruct E as [<- <-]; cbn; (by left) || (by right; left) || (by right; right).
Qed.

(** [C8] A build of the lexical shard, however its file operations and the scan end, leaves under
    the index's name either the shard that was there or a complete one: one that was written
    from the whole scan and validates, with its quick check, against the generation, the input
    hash and the expected fingerprint.  It reports success only with the new shard in place and
    protected, and it leaves a temporary file only when that file cannot be removed. *)
Theorem build_all_or_nothing io project_id expected hash now scan d r d' :
  build_lexical_shard sha256 io project_id expected hash now scan d = Some (r, d') →
  ((is_ok r = false ∧ fst <$> sd_index d' = fst <$> sd_index d) ∨
   ∃ rebuilt db, write_lexical_database sha256 project_id hash expected now scan = Some (Ok (rebuilt, db)) ∧
     fst <$> sd_index d' = Some db ∧
     shard_matches_lexical_input sha256 project_id (lf_file_count expected) (lf_hash expected) hash (Some (Ok db)) = true ∧
     (is_ok r = true → r = Ok rebuilt ∧ sd_index d' = Some (db, true))) ∧
  (sd_temp d = false → io_remove_temp io = true → sd_temp d' = false).
Proof.
  unfold build_lexical_shard. destruct (io_create_dir io) as [[]|e]; [|intros [= <- <-]; auto].
  destruct (io_temp io) as [[]|e]; [|intros [= <- <-]; auto].
  destruct (write_lexical_database _ _ _ _ _ scan) as [[[rebuilt db]|e]|] eqn:Hw; cbn [mbind option_bind]; [| |done].
  2: { destruct (io_write io); intros [= <- <-]; cbn; (split; [by left|]); by intros _ ->. }
  destruct (io_write io) as [[]|e]; cbn [mbind result_bind];
    [|intros [= <- <-]; cbn; (split; [by left|]); by intros _ ->].
  destruct (validate_lexical_database sha256 (Some (Ok db)) project_id hash _ true) as [metadata|e] eqn:Hv;
    cbn [mbind result_bind]; [|intros [= <- <-]; cbn; (split; [by left|]); by intros _ ->].
  assert (shard_matches_lexical_input sha256 project_id (lf_file_count expected) (lf_hash expected) hash (Some (Ok db))
    = true) as Hm by (unfold shard_matches_lexical_input; by rewrite Hv).
  destruct (publish_immutable_lexical_database io db _) as [r1 d1] eqn:Hp.
  apply publish_outcome in Hp as [[-> ->] | [(Hr & Ht & Hi) | (Hr & Ht & Hi)]].
  - intros [= <- <-]. cbn. split; [|done]. right. exists rebuilt, db. naive_solver.
  - destruct r1; [done|]. intros [= <- <-]. cbn. rewrite Ht, Hi. split; [by left|]. by intros _ ->.
  - destruct r1; [done|]. intros [= <- <-]. cbn. rewrite Ht. split; [|done]. right. exists rebuilt, db. naive_solver.
Qed.

Context `{FileSystem} `{ManifestFormat} {Pattern : Type} `{GlobSyntax Pattern} `{DirectoryWalk} `{CoreStores}.

(** [C15] A build that succeeds against the fingerprint of a store's input has written the documents
    of that input: its shard holds the scanned documents, one row each in both tables, numbered
    from one; and when no document has a zero byte in it, they are the documents of the
    fingerprinted input, in its order, unless two different messages have one SHA-256. *)
Theorem built_shard_holds_input fuel project_root storage_path files core docs source expected
    io project_id hash now scan written coverage d rebuilt d' :
  (∀ path core, open_core path = Some core → keyed dr_node_id (co_docs core)) →
  lexical_files project_root (Some storage_path) = Ok files →
  keyed dr_node_id (co_docs core) → stored_docs core = Ok docs → (length docs < fuel)%nat →
  len (lexical_documents project_root files docs) ≤ u32_max →
  lexical_source_input fuel project_root storage_path = Some (Ok source) →
  finish_lexical_input_for_store fuel sha256 source project_root core = Some (Ok expected) →
  scans scan written coverage →
  build_lexical_shard sha256 io project_id expected hash now scan d = Some (Ok rebuilt, d') →
  rebuilt = expected ∧ coverage = coverage_of project_root files ∧
  (∃ db, sd_index d' = Some (db, true) ∧ db_documents db = numbered shard_row 0 written ∧
     db_fts db = numbered fts_row 0 written) ∧
  (Forall plain (lexical_documents project_root files docs) → Forall plain written →
   Forall2 same_document (lexical_documents project_root files docs) written ∨
   ∃ m m', m ≠ m' ∧ sha256 m = sha256 m').
Proof.
  intros Hkeyed Hfiles Hk Hdocs Hf Hn Hs He Hscan. eapply input_fingerprint in He; [|done..].
  unfold build_lexical_shard. destruct (io_create_dir io) as [[]|]; [|done]. destruct (io_temp io) as [[]|]; [|done].
  destruct (write_lexical_database _ _ _ _ _ scan) as [[[built db]|e]|] eqn:Hw; cbn [mbind option_bind]; [| |done].
  2: { by destruct (io_write io). }
  apply (write_database_ok _ _ _ _ _ _ _ _ _ _ Hscan) in Hw as (Hl & -> & Hfp & ->).
  destruct (io_write io) as [[]|]; cbn [mbind result_bind]; [|done].
  destruct (validate_lexical_database _ _ _ _ _ true) as [metadata|e]; cbn [mbind result_bind]; [|done].
  destruct (publish_immutable_lexical_database io _ _) as [r1 d1] eqn:Hp.
  apply publish_outcome in Hp as [[-> ->] | [(Hr & _) | (Hr & _)]]; [|by destruct r1..]. intros [= <- <-].
  rewrite He in Hfp. split; [done|]. split; [by injection Hfp|]. split.
  - eexists. by split; [|split].
  - intros Pd Pw. by eapply fingerprint_collision.
Qed.
End BuildTheorems.

(** ** Search *)
Lemma f32_min_number a b : f32_number b → f32_number (f32_min a b).
Proof.
  unfold f32_min, f32_number. intros Hb. destruct (f32_is_nan a) eqn:Ha; [done|].
  destruct (f32_is_nan b); [by intros ->|]. destruct (f32_lt b a); [done|]. by intros ->.
Qed.
Definition number_hit (h : LexicalHit) : Prop := f32_number (lh_score h).
#[export] Instance hit_cmp_laws : CmpLaws number_hit hit_cmp.
Proof.
  apply then_with_laws.
  - apply cmp_flip_laws, (cmp_on_laws f32_number lh_score), _.
  - apply (cmp_laws_weaken (λ _, True)); [done|]. apply (cmp_on_laws (λ _, True)), _.
Qed.

(** The first elements of a sorted list are not above the others. *)
Lemma sorted_take {A} (le : A → A → bool) n l : sorted_by le l →
  sorted_by le (take n l) ∧ ∀ a b, a ∈ take n l → b ∈ drop n l → le a b = true.
Proof.
  unfold sorted_by. rewrite <- (take_drop n l) at 1. intros Hs. split; [by apply StronglySorted_app_1_l in Hs|].
  intros a b Ha Hb. by apply (StronglySorted_app_1_elem_of _ _ _ a b Hs).
Qed.

(** The first elements of a sorted permutation are the best ones. *)
Lemma sorted_prefix {A} (P : A → Prop) (cmp : A → A → comparison) `{!CmpLaws P cmp} limit l : Forall P l → 0 ≤ limit →
  let best := take (Z.to_nat limit) (sort_by (cmp_leb cmp) l) in
  ∃ rest, l ≡ₚ best ++ rest ∧ (len best ≤ limit ∧ (rest ≠ [] → len best = limit)) ∧
    sorted_by (cmp_leb cmp) best ∧ ∀ a left_out, a ∈ best → left_out ∈ rest → cmp_leb cmp a left_out = true.
Proof.
  intros Hl Hlimit best. pose proof (cmp_sorted P cmp l Hl) as Hs. set (sorted := sort_by (cmp_leb cmp) l) in *.
  exists (drop (Z.to_nat limit) sorted). split_and!.
  - unfold best. rewrite take_drop. unfold sorted. by rewrite sort_by_perm.
  - unfold best, len. rewrite length_take. lia.
  - unfold best, len. rewrite length_take. intros Hr.
    assert (length (drop (Z.to_nat limit) sorted) ≠ 0%nat) as Hd by (by intros ?%nil_length_inv).
    rewrite length_drop in Hd. lia.
  - by apply sorted_take.
  - intros a left_out. by apply sorted_take.
Qed.

Section SearchProofs.
Context `{FtsEngine} `{UnicodeTables} `{CaseTables} `{CoverageJson} (sha256 : str → str).

Lemma row_hit_number tokens weights required row h : row_hit tokens weights required row = Some h → number_hit h.
Proof.
  destruct row as [d [path content]]. unfold row_hit. destruct (_ && _); [|done]. intros [= <-].
  unfold number_hit. cbn [lh_score]. unfold score_lexical_match. apply f32_min_number. by vm_compute.
Qed.
Lemma visit_rows_ok cancelled hit rows : ∀ i found out,
  try_fold (visit_row cancelled hit) (i, found) rows = Ok out →
  ∃ cands, rows = Ok <$> cands ∧ out = ((i + length cands)%nat, found ++ omap hit cands).
Proof.
  induction rows as [|row rows IH]; intros i found out.
  - intros [= <-]. exists []. by rewrite Nat.add_0_r, app_nil_r.
  - cbn [try_fold]. intros (st & Hst & Hout)%bind_Ok. unfold visit_row in Hst.
    apply bind_Ok in Hst as (u & _ & (d & -> & [= <-])%bind_Ok). apply IH in Hout as (cands & -> & ->).
    exists (d :: cands). split; [done|]. f_equal; [cbn; lia|]. cbn [omap list_omap snd].
    rewrite <- app_assoc. by destruct (hit d).
Qed.
Lemma visit_rows hit cands : ∀ i found,
  try_fold (visit_row (λ _, false) hit) (i, found) (Ok <$> cands) = Ok ((i + length cands)%nat, found ++ omap hit cands).
Proof.
  induction cands as [|d cands IH]; intros i found; [by rewrite Nat.add_0_r, app_nil_r|].
  cbn [fmap list_fmap try_fold].
  assert (visit_row (λ _, false) hit (i, found) (Ok d) = Ok (S i, found ++ option_list (hit d))) as ->.
  { unfold visit_row. cbn [fst snd]. by destruct (i mod 64 =? 0)%nat. }
  cbn [mbind result_bind]. unfold fmap in IH. rewrite IH. do 2 f_equal; [cbn; lia|]. cbn [omap list_omap].
  rewrite <- app_assoc. by destruct (hit d).
Qed.
Lemma token_frequencies_ok cancelled db tokens : ∀ i frequencies,
  token_frequencies cancelled db i tokens = Ok frequencies →
  Forall2 (λ token n, fts_count (db_fts db) (fts_token token) = Ok n) tokens frequencies.
Proof.
  induction tokens as [|token tokens IH]; intros i frequencies; cbn [token_frequencies]; [by intros [= <-]|].
  intros (u & _ & (n & Hn & (l & Hl & [= <-])%bind_Ok)%bind_Ok)%bind_Ok. constructor; [|by eapply IH].
  unfold fts_document_frequency in Hn. apply bind_Ok in Hn as (m & Hm & Hn). rewrite Hm.
  by destruct ((0 <=? m) && (m <=? u32_max)); [injection Hn as ->|].
Qed.
Lemma joined_rows_stored db steps rows n d normalized :
  take n (omap (joined_row db) steps) = Ok <$> rows → (d, normalized) ∈ rows →
  ∃ r, r ∈ db_documents db ∧ read_document r = Ok d ∧ fts_of db (sh_id r) = Some normalized.
Proof.
  intros Hrows Hd. assert (Ok (d, normalized) ∈ take n (omap (joined_row db) steps)) as Hin
    by (rewrite Hrows; by apply list_elem_of_fmap_2).
  apply elem_of_take in Hin as (i & Hi%list_elem_of_lookup_2 & _).
  apply list_elem_of_omap in Hi as (step & _ & Hj). unfold joined_row in Hj.
  destruct step as [id|]; [|done]. destruct (document_at db id) as [r|] eqn:Hr; [|done].
  destruct (fts_of db id) as [normalized'|] eqn:Hn; [|done]. injection Hj as (d' & Hd' & [= -> ->])%bind_Ok.
  unfold document_at in Hr. apply find_some in Hr as [Hr Hid%Z.eqb_eq]. subst id. exists r.
  split; [by apply list_elem_of_In|]. by rewrite Hd'.
Qed.

Lemma search_answer cancelled shard_dir hash query limit file hits :
  search_lexical_index_with_cancel sha256 cancelled shard_dir hash query limit file = Ok hits → 0 ≤ limit →
  let tokens := lexical_query_tokens query in
  cancelled AtStart = false ∧
  (hits = [] ∧ (limit = 0 ∨ tokens = []) ∨
   ∃ project_id db metadata frequencies rows rest,
     file_name shard_dir = Some project_id ∧ file = Ok db ∧
     validate_open_database_metadata sha256 db project_id hash None = Ok metadata ∧
     Forall2 (λ token n, fts_count (db_fts db) (fts_token token) = Ok n) tokens frequencies ∧
     candidate_rows db tokens limit = Ok (Ok <$> rows) ∧ len rows ≤ MAX_CANDIDATES ∧
     (∀ d normalized, (d, normalized) ∈ rows →
        ∃ r, r ∈ db_documents db ∧ read_document r = Ok d ∧ fts_of db (sh_id r) = Some normalized) ∧
     let weights := token_weight (command_query_tokens query) (lm_file_count metadata) <$> combine frequencies tokens in
     let required := required_lexical_match_weight (len tokens) (f32_sum weights) in
     omap (row_hit tokens weights required) rows ≡ₚ hits ++ rest ∧
     (len hits ≤ limit ∧ (rest ≠ [] → len hits = limit)) ∧
     sorted_by (cmp_leb hit_cmp) hits ∧ ∀ h left_out, h ∈ hits → left_out ∈ rest → cmp_leb hit_cmp h left_out = true).
Proof.
  intros Hsearch Hlimit tokens. unfold search_lexical_index_with_cancel in Hsearch.
  destruct (search_lexical_index_with_cancel_inner _ _ _ _ _ _ _) as [found|e] eqn:Hs;
    [injection Hsearch as ->|by destruct (cancelled AtError)].
  unfold search_lexical_index_with_cancel_inner in Hs. apply bind_Ok in Hs as (u & Hu & Hs). unfold poll_cancelled in Hu.
  destruct (cancelled AtStart); [done|]. split; [done|].
  destruct (Z.eqb_spec limit 0) as [->|Hl]; [injection Hs as <-; auto|].
  destruct (file_name shard_dir) as [project_id|]; [|done]. apply bind_Ok in Hs as (db & -> & Hs).
  apply bind_Ok in Hs as (v & _ & (metadata & Hm & Hs)%bind_Ok). unfold search_database in Hs. fold tokens in Hs.
  destruct tokens as [|token tokens'] eqn:Et; [injection Hs as <-; auto|]. rewrite <- Et in *. right.
  apply bind_Ok in Hs as (frequencies & Hf & (steps & Hc & (out & Ho & (w & _ & [= <-])%bind_Ok)%bind_Ok)%bind_Ok).
  apply visit_rows_ok in Ho as (rows & -> & ->). cbn [snd app] in *.
  set (matches := omap _ rows) in *.
  destruct (sorted_prefix number_hit hit_cmp limit matches) as (rest & Hbest); [|done|].
  { apply Forall_forall. intros h (row & _ & Hh)%list_elem_of_omap. by eapply row_hit_number. }
  exists project_id, db, metadata, frequencies, rows, rest. split; [done|]. split; [done|]. split; [done|].
  split; [by eapply token_frequencies_ok|]. split; [done|]. unfold candidate_rows in Hc.
  apply bind_Ok in Hc as (ids & _ & [= Hc]). split.
  - apply (f_equal length) in Hc. rewrite length_take, length_fmap in Hc.
    unfold len, candidate_limit, MAX_CANDIDATES in *. lia.
  - split; [|exact Hbest]. intros d normalized. by eapply joined_rows_stored.
Qed.
(** Every hit is of a document of the shard. *)
Lemma search_hits_stored cancelled shard_dir hash query limit file hits :
  search_lexical_index_with_cancel sha256 cancelled shard_dir hash query limit file = Ok hits → 0 ≤ limit →
  len hits ≤ limit ∧ ∀ h, h ∈ hits → ∃ db r d, file = Ok db ∧ r ∈ db_documents db ∧ read_document r = Ok d ∧
    lh_path h = ld_path d ∧ lh_source h = ld_source d ∧ lh_node_id h = ld_node_id d ∧
    lh_symbol_name h = ld_symbol_name d ∧ lh_start_line h = ld_start_line d.
Proof.
  intros Hs Hlimit. destruct (search_answer _ _ _ _ _ _ _ Hs Hlimit)
    as (_ & [[-> _] | (project_id & db & metadata & frequencies & rows & rest & _ & Hf & _ & _ & _ & _ & Hrows & Hp & [Hl _] & _)]).
  - split; [by unfold len|]. by intros h ?%not_elem_of_nil.
  - split; [done|]. intros h Hh. assert (h ∈ hits ++ rest) as Hin by (apply elem_of_app; by left).
    rewrite <- Hp in Hin. apply list_elem_of_omap in Hin as ([d [path content]] & Hrow & Hhit).
    destruct (Hrows _ _ Hrow) as (r & Hr & Hd & _). exists db, r, d. unfold row_hit in Hhit.
    destruct (_ && _); [|done]. injection Hhit as <-. done.
Qed.

(** [C11] A search that answers has not been cancelled when it began, and its answer is right: for
    the limit zero and for a query without tokens it is empty; otherwise the shard is the one of
    the generation and the input hash, and the hits are the best of the matches, in order, at
    most as many as asked.  A match is a candidate of the full-text engine, one of the first of
    its ranking up to 4,096 and a document of the shard, that holds enough of the weight of the
    query's tokens, weighted by how many rows have them; none that is left out ranks before one
    that is returned. *)
Theorem search_ranks_matches cancelled shard_dir hash query limit file hits :
  search_lexical_index_with_cancel sha256 cancelled shard_dir hash query limit file = Ok hits → 0 ≤ limit →
  let tokens := lexical_query_tokens query in
  cancelled AtStart = false ∧
  (hits = [] ∧ (limit = 0 ∨ tokens = []) ∨
   ∃ project_id db metadata frequencies rows rest,
     file_name shard_dir = Some project_id ∧ file = Ok db ∧
     validate_open_database_metadata sha256 db project_id hash None = Ok metadata ∧
     Forall2 (λ token n, fts_count (db_fts db) (fts_token token) = Ok n) tokens frequencies ∧
     candidate_rows db tokens limit = Ok (Ok <$> rows) ∧ len rows ≤ MAX_CANDIDATES ∧
     (∀ d normalized, (d, normalized) ∈ rows →
        ∃ r, r ∈ db_documents db ∧ read_document r = Ok d ∧ fts_of db (sh_id r) = Some normalized) ∧
     let weights := token_weight (command_query_tokens query) (lm_file_count metadata) <$> combine frequencies tokens in
     let required := required_lexical_match_weight (len tokens) (f32_sum weights) in
     omap (row_hit tokens weights required) rows ≡ₚ hits ++ rest ∧
     (len hits ≤ limit ∧ (rest ≠ [] → len hits = limit)) ∧
     sorted_by (cmp_leb hit_cmp) hits ∧ ∀ h left_out, h ∈ hits → left_out ∈ rest → cmp_leb hit_cmp h left_out = true).
Proof. apply search_answer. Qed.
End SearchProofs.

(** ** A built shard can be searched *)
Definition u32_line (d : LexicalDocument) : Prop := ∀ line, ld_start_line d = Some line → in_range u32_max line.
(** File operations that succeed, on a directory that may hold an old shard. *)
Record io_succeeds (io : BuildIo) : Prop := {
  ok_create_dir : io_create_dir io = Ok tt;
  ok_temp : io_temp io = Ok tt;
  ok_write : io_write io = Ok tt;
  ok_metadata : io_metadata io = Ok tt;
  ok_make_writable : io_make_writable io = Ok tt;
  ok_rename : io_rename io = Ok tt;
  ok_sync : io_sync io = Ok tt;
  ok_protect : io_protect io = Ok tt;
}.
(** An engine that answers every query, with a count that the table bounds. *)
Record engine_answers `{FtsEngine} : Prop := {
  answers_count rows query : ∃ n, fts_count rows query = Ok n ∧ in_range (len rows) n;
  answers_ranked rows query : ∃ ids, fts_ranked rows query = Ok (Ok <$> ids);
}.
Lemma publish_succeeds io db d : io_succeeds io →
  publish_immutable_lexical_database io db d = (Ok tt, mkDirectory (Some (db, true)) false (sd_legacy d)).
Proof.
  intros []. unfold publish_immutable_lexical_database, publish_existing_file_atomic.
  rewrite ok_metadata0, ok_make_writable0, ok_rename0, ok_sync0, ok_protect0.
  by destruct d as [[[old []]|] temp legacy].
Qed.
Lemma read_shard_row i d : u32_line d → read_document (shard_row i d) = Ok d.
Proof.
  intros Hd. unfold read_document. cbn [shard_row sh_source sh_start_line sh_path sh_content sh_node_id sh_symbol_name].
  assert (parse_source (source_label (ld_source d)) = Ok (ld_source d)) as -> by by destruct (ld_source d).
  destruct d as [path content source node_id name [line|]]; [|done]. cbn in *.
  destruct (Hd line eq_refl) as [Hl Hh]. by rewrite (proj2 (Z.leb_le _ _) Hl), (proj2 (Z.leb_le _ _) Hh).
Qed.

Section Searchable.
Context `{FtsEngine} `{UnicodeTables} `{CaseTables} `{CoverageJson} (sha256 : str → str).
Hypothesis json_round_trip : ∀ c, coverage_from_json (coverage_to_json c) = Some c.
Hypothesis answers : engine_answers.

Lemma frequencies_answered db tokens : len (db_fts db) ≤ u32_max → ∀ i,
  ∃ frequencies, token_frequencies (λ _, false) db i tokens = Ok frequencies.
Proof.
  intros Hl. induction tokens as [|token tokens IH]; intros i; [by eexists|].
  destruct (IH (S i)) as [frequencies Hf]. destruct (answers_count answers (db_fts db) (fts_token token)) as (n & Hn & Hlo & Hhi).
  exists (n :: frequencies). cbn [token_frequencies]. unfold poll_cancelled. cbn [mbind result_bind].
  unfold fts_document_frequency. rewrite Hn. cbn [mbind result_bind].
  by rewrite (proj2 (Z.leb_le _ _) Hlo), (proj2 (Z.leb_le n u32_max)), Hf by lia.
Qed.
Lemma shard_rows_read project_id hash f now written ids n : Forall u32_line written →
  ∃ rows, take n (omap (joined_row (shard_of sha256 project_id hash f now written)) (Ok <$> ids)) = Ok <$> rows.
Proof.
  intros Hw. set (db := shard_of _ _ _ _ _ _).
  assert (∃ rows, omap (joined_row db) (Ok <$> ids) = Ok <$> rows) as [rows ->];
    [|exists (take n rows); by rewrite fmap_take].
  induction ids as [|id ids [rows IH]]; [by exists []|].
  assert (omap (joined_row db) (Ok <$> id :: ids) =
    match joined_row db (Ok id) with Some row => row :: (Ok <$> rows) | None => Ok <$> rows end) as ->
    by by rewrite <- IH. destruct (joined_row db (Ok id)) as [row|] eqn:Hr; [|by exists rows].
  unfold joined_row in Hr. destruct (document_at db id) as [r|] eqn:Hd; [|done].
  destruct (fts_of db id) as [normalized|]; [|done]. injection Hr as <-.
  apply find_some in Hd as [Hd%list_elem_of_In _]. cbn [db shard_of db_documents] in Hd.
  apply numbered_elem in Hd as (i & d & _ & Hd & ->). rewrite read_shard_row by by eapply Forall_forall in Hw.
  cbn [mbind result_bind]. by exists ((d, normalized) :: rows).
Qed.

(** [C22] When the scanned documents are the fingerprinted ones and the file operations succeed, a
    build of the shard succeeds, whether or not there was a shard before; and the shard it
    installs can be searched: with an engine that answers and a caller that does not cancel,
    every query with every limit gets its hits. *)
Theorem built_shard_searchable io project_id hash now scan written coverage d shard_dir query limit :
  io_succeeds io → scans scan written coverage → len written ≤ u32_max → Forall u32_line written →
  file_name shard_dir = Some project_id →
  ∃ d' db hits,
    build_lexical_shard sha256 io project_id (fingerprint_of sha256 written coverage) hash now scan d =
      Some (Ok (fingerprint_of sha256 written coverage), d') ∧
    sd_index d' = Some (db, true) ∧ sd_temp d' = false ∧
    shard_has_lexical_index sha256 shard_dir hash (Some (Ok db)) = true ∧
    lexical_shard_coverage sha256 project_id hash (Some (Ok db)) = Ok coverage ∧
    search_lexical_index_with_cancel sha256 (λ _, false) shard_dir hash query limit (Ok db) = Ok hits.
Proof.
  intros Hio Hscan Hl Hlines Hname. set (f := fingerprint_of sha256 written coverage).
  set (db := shard_of sha256 project_id hash f now written).
  assert (lf_file_count f = len written) as Hf by (cbn; lia).
  pose proof (shard_metadata_valid sha256 json_round_trip project_id hash f now written None) as Hmeta.
  pose proof (λ e, shard_valid sha256 json_round_trip project_id hash f now written e Hf Hl) as Hvalid. fold db in Hmeta, Hvalid.
  assert (∀ e q, e = None ∨ e = Some (lf_file_count f, lf_hash f) →
    validate_lexical_database sha256 (Some (Ok db)) project_id hash e q = Ok (metadata_of sha256 project_id hash f)) as Hdb.
  { intros e q He. cbn [validate_lexical_database mbind result_bind]. destruct q; [by apply Hvalid|].
    specialize (Hvalid e He). unfold validate_open_database in *.
    destruct (validate_open_database_metadata _ _ _ _ e); [|done]. exact Hvalid. }
  assert (∃ hits, search_lexical_index_with_cancel sha256 (λ _, false) shard_dir hash query limit (Ok db) = Ok hits) as [hits Hhits].
  { unfold search_lexical_index_with_cancel, search_lexical_index_with_cancel_inner, poll_cancelled. cbn [mbind result_bind].
    destruct (limit =? 0); [by eexists|]. rewrite Hname, Hmeta by (done || by left || (rewrite Hf; split; [apply len_nonneg|done])).
    unfold search_database. destruct (lexical_query_tokens query) as [|token tokens]; [by eexists|].
    destruct (frequencies_answered db (token :: tokens)) with (i := 0%nat) as [frequencies Hq];
      [cbn [db shard_of db_fts]; by rewrite numbered_len|]. rewrite Hq. cbn [mbind result_bind].
    unfold candidate_rows. destruct (answers_ranked answers (db_fts db) (fts_query (token :: tokens))) as [ids ->].
    cbn [mbind result_bind]. destruct (shard_rows_read project_id hash f now written ids
      (Z.to_nat (candidate_limit limit)) Hlines) as [rows Hrows]. fold db in Hrows. rewrite Hrows, visit_rows. by eexists. }
  exists (remove_legacy io (mkDirectory (Some (db, true)) false (sd_legacy d))), db, hits. split_and!; [|done|done| | |done].
  - unfold build_lexical_shard. rewrite (ok_create_dir _ Hio), (ok_temp _ Hio), (ok_write _ Hio).
    rewrite (proj2 (write_database_ok sha256 project_id hash f now scan written coverage f db Hscan)) by by split_and!.
    cbn [mbind option_bind result_bind]. rewrite Hdb by by right. cbn [mbind result_bind].
    by rewrite publish_succeeds.
  - unfold shard_has_lexical_index. by rewrite Hname, Hdb by by left.
  - unfold lexical_shard_coverage. by rewrite Hdb by by left.
Qed.
End Searchable.

(** ** Witnesses *)
Module LexicalSample.
(** Coverage as the digits of its number. *)
Definition coverage_tuple (c : LexicalCoverage) : Z * Z * Z * Z * list str * list str :=
  (discovered_files c, indexed_files c, omitted_oversized c, unreadable_files c, omitted_path_sample c,
   unreadable_path_sample c).
Definition coverage_of_tuple (t : Z * Z * Z * Z * list str * list str) : LexicalCoverage :=
  let '(d, i, o, u, os, us) := t in mkCoverage d i o u os us.
#[export] Instance json : CoverageJson := {|
  coverage_to_json c := digits (encode (coverage_tuple c));
  coverage_from_json s := coverage_of_tuple <$> decode (undigits s) |}.
Lemma json_read c : coverage_from_json (coverage_to_json c) = Some c.
Proof. cbn. rewrite undigits_digits, decode_encode. by destruct c. Qed.

#[export] Instance tables : UnicodeTables :=
  {| unicode_alphanumeric := λ _, false; unicode_uppercase := λ _, false; unicode_lowercase := λ _, false |}.
#[export] Instance cases : CaseTables := {| unicode_numeric := λ _, false; unicode_to_lowercase ch := ch |}.
(** An engine that takes every row for a match. *)
#[export] Instance engine : FtsEngine := {|
  fts_count rows query := Ok (len rows);
  fts_ranked rows query := Ok (Ok <$> rows.*1);
  f32_ln x := f32_zero |}.
Lemma engine_ok : engine_answers.
Proof.
  split; intros rows query; [exists (len rows)|by eexists]. split; [done|]. split; [apply len_nonneg|lia].
Qed.
#[export] Instance format : ManifestFormat :=
  {| parse_settings _ := Err (lit "no settings"); parse_members _ := Err (lit "no members"); new_v4 _ := lit "id" |}.
Definition core : Core :=
  mkCore [2] [] None [doc_row (mkSymbolDoc 2 None NodeKind.FUNCTION (lit "a") None (Some (lit "a.rs")) (Some 1)
    (lit "fn a in a.rs") 1 (lit "hash") (lit "v1") (lit "graph") 0)] [] None false false.
#[export] Instance stores : CoreStores := {| store_is_file _ := true; open_core _ := Some core |}.
#[export] Existing Instances WorkspaceSample.file_system WorkspaceSample.directory_walk WorkspaceSample.literal_globs.
Definition sha (message : str) : str := message.
Definition root : str := lit "/w".
Definition store_path : str := lit "/w/core.db".
Definition files : list str := [lit "/w/a.rs"; lit "/w/big.rs"].
Definition docs : list SymbolSearchDoc := default [] (result_ok (stored_docs core)).
Definition written : list LexicalDocument := lexical_documents root files docs.
Definition coverage : LexicalCoverage := coverage_of root files.
Definition scan (visit : Visitor ShardWriter) (s : ShardWriter) : option (result LexicalError (ShardWriter * LexicalCoverage)) :=
  scan_lexical_documents 3 visit root (Some store_path) (Some store_path) s.
Definition io : BuildIo :=
  mkBuildIo (Ok tt) (Ok tt) (Ok tt) (Ok tt) (Ok tt) (Ok tt) (Ok tt) (Ok tt) true true (λ _, true).
Definition expected : LexicalInputFingerprint := fingerprint_of sha written coverage.
Definition empty_dir : ShardDirectory := mkDirectory None false [].
Definition built : option (result LexicalError LexicalInputFingerprint * ShardDirectory) :=
  build_lexical_shard sha io (lit "g") expected (lit "input") 0 scan empty_dir.
Definition shard_dir : str := lit "/l/shards/g".
Lemma keyed_core path c : open_core path = Some c → keyed dr_node_id (co_docs c).
Proof. intros [= <-]. repeat constructor. Qed.
Lemma files_found : lexical_files root (Some store_path) = Ok files.
Proof. vm_compute. reflexivity. Qed.
Lemma sample_scans : scans scan written coverage.
Proof.
  intros visit s. apply scan_documents; [exact keyed_core|exact files_found|vm_compute; reflexivity|].
  apply Nat.ltb_lt. vm_compute. reflexivity.
Qed.
End LexicalSample.
Import LexicalSample.

Definition line_check (d : LexicalDocument) : bool :=
  match ld_start_line d with None => true | Some line => (0 <=? line) && (line <=? u32_max) end.
Lemma lines_checked l : forallb line_check l = true → Forall u32_line l.
Proof.
  rewrite forallb_forall, Forall_forall. intros Hl d Hd line E. apply list_elem_of_In, Hl in Hd.
  unfold line_check in Hd. rewrite E in Hd. apply andb_true_iff in Hd as [?%Z.leb_le ?%Z.leb_le]. by split.
Qed.
Definition plain_check (d : LexicalDocument) : bool :=
  forallb (λ p, bool_decide (nul ∉ p)) (document_parts d)
  && (0 <=? default 0 (ld_start_line d)) && (default 0 (ld_start_line d) <=? u32_max).
Lemma plain_checked l : forallb plain_check l = true → Forall plain l.
Proof.
  rewrite forallb_forall, Forall_forall. intros Hl d Hd. apply list_elem_of_In, Hl in Hd. unfold plain_check in Hd.
  apply andb_true_iff in Hd as [[Hd ?%Z.leb_le]%andb_true_iff ?%Z.leb_le]. split; [|by split].
  rewrite forallb_forall in Hd. apply Forall_forall. intros p Hp%list_elem_of_In%Hd.
  by apply bool_decide_eq_true in Hp.
Qed.

Lemma scan_visits_documents_witness :
  ∃ r, scan_lexical_documents 3 fingerprint_document root (Some store_path) (Some store_path) ([], 0) = Some (Ok r) ∧
    indexed_files r.2 = 2 ∧ r.1.2 = 3.
Proof.
  destruct (scan_visits_documents fingerprint_document root (Some store_path) (Some store_path) files docs 3 ([], 0))
    as [H _]; [exact keyed_core|exact files_found|vm_compute; reflexivity|apply Nat.ltb_lt; vm_compute; reflexivity|
      vm_compute; discriminate|].
  rewrite H. eexists. split; [vm_compute; reflexivity|]. split; vm_compute; reflexivity.
Defined.

Lemma build_all_or_nothing_witness :
  ∃ r d', built = Some (r, d') ∧ is_ok r = true ∧ sd_temp d' = false.
Proof.
  destruct built as [[r d']|] eqn:E; [|vm_compute in E; discriminate]. exists r, d'. split; [reflexivity|].
  unfold built in E. destruct (build_all_or_nothing sha io (lit "g") expected (lit "input") 0 scan empty_dir r d' E) as [_ Ht].
  split; [|apply Ht; reflexivity]. vm_compute in E. injection E as <- _. reflexivity.
Defined.

Lemma built_shard_searchable_witness :
  ∃ d' db hits, built = Some (Ok expected, d') ∧ sd_index d' = Some (db, true) ∧
    search_lexical_index_with_cancel sha (λ _, false) shard_dir (lit "input") (lit "fn a") 5 (Ok db) = Ok hits.
Proof.
  destruct (built_shard_searchable sha json_read engine_ok io (lit "g") (lit "input") 0 scan written coverage empty_dir
    shard_dir (lit "fn a") 5) as (d' & db & hits & Hb & Hi & _ & _ & _ & Hh).
  - split; reflexivity.
  - exact sample_scans.
  - vm_compute. discriminate.
  - apply lines_checked. vm_compute. reflexivity.
  - vm_compute. reflexivity.
  - exists d', db, hits. split; [exact Hb|]. split; [exact Hi|exact Hh].
Defined.

Lemma built_shard_holds_input_witness :
  ∃ source d' db, lexical_source_input 3 root store_path = Some (Ok source) ∧
    finish_lexical_input_for_store 3 sha source root core = Some (Ok expected) ∧
    built = Some (Ok expected, d') ∧ sd_index d' = Some (db, true) ∧
    (Forall2 same_document written written ∨ ∃ m m', m ≠ m' ∧ sha m = sha m').
Proof.
  destruct (lexical_source_input 3 root store_path) as [[source|e]|] eqn:Es; [|vm_compute in Es; discriminate..].
  assert (finish_lexical_input_for_store 3 sha source root core = Some (Ok expected)) as Ef
    by (vm_compute in Es; injection Es as <-; vm_compute; reflexivity).
  destruct built as [[[rebuilt|e] d']|] eqn:E; [|vm_compute in E; discriminate..]. unfold built in E.
  destruct (built_shard_holds_input sha 3 root store_path files core docs source expected io (lit "g") (lit "input") 0
    scan written coverage empty_dir rebuilt d') as (Hr & _ & (db & Hi & _) & Hd).
  - exact keyed_core.
  - exact files_found.
  - repeat constructor.
  - vm_compute. reflexivity.
  - apply Nat.ltb_lt. vm_compute. reflexivity.
  - vm_compute. discriminate.
  - exact Es.
  - exact Ef.
  - exact sample_scans.
  - exact E.
  - exists source, d', db. split; [reflexivity|]. split; [exact Ef|]. split; [by rewrite Hr|]. split; [exact Hi|].
    apply Hd; apply plain_checked; vm_compute; reflexivity.
Defined.

Lemma search_ranks_matches_witness :
  ∃ d' db hits, built = Some (Ok expected, d') ∧ sd_index d' = Some (db, true) ∧
    search_lexical_index_with_cancel sha (λ _, false) shard_dir (lit "input") (lit "a.rs") 2 (Ok db) = Ok hits ∧
    ∃ rest : list LexicalHit, sorted_by (cmp_leb hit_cmp) hits ∧ len hits = 2 ∧
      ∀ h left_out, h ∈ hits → left_out ∈ rest → cmp_leb hit_cmp h left_out = true.
Proof.
  destruct built as [[[rebuilt|e] d']|] eqn:E; [|vm_compute in E; discriminate..].
  assert (rebuilt = expected) as -> by (vm_compute in E; injection E as <- _; vm_compute; reflexivity).
  destruct (sd_index d') as [[db []]|] eqn:Ed; [|vm_compute in E; injection E as <-; discriminate..].
  destruct (search_lexical_index_with_cancel sha (λ _, false) shard_dir (lit "input") (lit "a.rs") 2 (Ok db))
    as [hits|e'] eqn:Es;
    [|vm_compute in E; injection E as <-; injection Ed as <-; vm_compute in Es; discriminate].
  assert (len hits = 2) as Hl
    by (vm_compute in E; injection E as <-; injection Ed as <-; vm_compute in Es; injection Es as <-; reflexivity).
  destruct (search_ranks_matches sha (λ _, false) shard_dir (lit "input") (lit "a.rs") 2 (Ok db) hits Es) as (_ & H);
    [discriminate|].
  exists d', db, hits. split; [reflexivity|]. split; [exact Ed|]. split; [exact Es|].
  destruct H as [[-> _]|(? & ? & ? & ? & ? & rest & _ & _ & _ & _ & _ & _ & _ & _ & _ & Hs & Hh)]; [discriminate|].
  exists rest. split; [exact Hs|]. split; [exact Hl|exact Hh].
Defined.

(** ** Zero bytes *)
(** Two files whose contents spell out parts of a document. *)
Definition embedded (path content : str) : str :=
  [nul] ++ lit "lexical_source" ++ replicate 7 nul ++ path ++ [nul] ++ content.
Definition source_file (path content : str) : LexicalDocument :=
  mkDocument path content DocumentSource.LexicalSource None None None.
Definition zero_left : list LexicalDocument :=
  [source_file (lit "a") (lit "x" ++ embedded (lit "b") (lit "y")); source_file (lit "c") (lit "z")].
Definition zero_right : list LexicalDocument :=
  [source_file (lit "a") (lit "x"); source_file (lit "b") (lit "y" ++ embedded (lit "c") (lit "z"))].
(** Contents with zero bytes in them can give different projects one fingerprint, whatever the
    hash function: the parts of a document end in a zero byte and carry no length. *)
Theorem zero_bytes_collide `{CoverageJson} sha256 coverage :
  fingerprint_of sha256 zero_left coverage = fingerprint_of sha256 zero_right coverage ∧
  ¬ Forall2 same_document zero_left zero_right.
Proof.
  split.
  - unfold fingerprint_of. assert (documents_bytes zero_left = documents_bytes zero_right) as -> by (vm_compute; reflexivity).
    done.
  - intros Hs%Forall2_cons. destruct Hs as [[_ Hc _ _ _ _] _]. vm_compute in Hc. discriminate.
Qed.
