(* ===== verification/EmbeddedVector.v ===== *)
(** * The embedded vector index

    codestory-retrieval/src/embedded_vector.rs: the SQLite database of the vectors of one
    generation, how it is written, validated against the anchors it was made for and published,
    and the search over it; with the query side of the embedding client (embeddings.rs).  A
    vector is a list of binary32 floats, stored as the little-endian bytes of their bits; sums
    and norms are binary64.  The server that embeds a text, SQLite's file and SHA-256 are
    arguments.  Evidence about the producer of a generation is not part of this file. *)
From S2P Require Import Retention.
From S2P Require Import Prelude RustStr Graph Sorting StrOps UnixPath Encoding ServerFrame Promotion SidecarStore.
From S2P Require Import RetrievalPlan RetrievalData RetrievalRanker.

(** ** Floats *)
Definition f64 : Type := spec_float.
Definition f64_prec : Z := 53.
Definition f64_emax : Z := 1024.
Definition f64_of_Z (z : Z) : f64 := binary_normalize f64_prec f64_emax z 0 false.
Definition f64_add : f64 → f64 → f64 := SFadd f64_prec f64_emax.
Definition f64_sub : f64 → f64 → f64 := SFsub f64_prec f64_emax.
Definition f64_mul : f64 → f64 → f64 := SFmul f64_prec f64_emax.
Definition f64_div : f64 → f64 → f64 := SFdiv f64_prec f64_emax.
Definition f64_sqrt : f64 → f64 := SFsqrt f64_prec f64_emax.
(** Rounding to another format, to nearest even. *)
Definition convert (prec emax : Z) (x : spec_float) : spec_float :=
  match x with
  | S754_finite s m e => binary_normalize prec emax (cond_Zopp s (Zpos m)) e s
  | _ => x
  end.
Definition f64_from (x : f32) : f64 := convert f64_prec f64_emax x.
Definition as_f32 (x : f64) : f32 := convert f32_prec f32_emax x.
Definition is_finite (x : spec_float) : bool :=
  match x with S754_zero _ | S754_finite _ _ _ => true | _ => false end.
(** [f64::EPSILON], 2^-52. *)
Definition EPSILON : f64 := binary_normalize f64_prec f64_emax 1 (-52) false.
Definition f64_clamp (x low high : f64) : f64 :=
  if SFltb x low then low else if SFltb high x then high else x.
(** [total_cmp] of floats that are numbers: the negative zero is below the positive one. *)
Definition total_key (x : f32) : Z * Z * Z :=
  match x with S754_zero true => (0, -1, 0) | _ => f32_key x end.
Definition total_cmp : f32 → f32 → comparison := cmp_on total_key key_cmp.

(** The bits of a float; those of a NaN are one of its patterns. *)
Definition sign_bit (s : bool) : Z := if s then 2 ^ 31 else 0.
Definition f32_to_bits (x : f32) : Z :=
  match x with
  | S754_zero s => sign_bit s
  | S754_infinity s => sign_bit s + 255 * 2 ^ 23
  | S754_nan => 255 * 2 ^ 23 + 2 ^ 22
  | S754_finite s m e =>
      sign_bit s + (if Zpos m <? 2 ^ 23 then Zpos m else (e + 150) * 2 ^ 23 + (Zpos m - 2 ^ 23))
  end.
Definition f32_from_bits (n : Z) : f32 :=
  let sign := 2 ^ 31 <=? n in
  let exponent := n / 2 ^ 23 mod 256 in
  let fraction := n mod 2 ^ 23 in
  let finite (m e : Z) : f32 :=
    match m with Zpos m => S754_finite sign m e | _ => S754_zero sign end in
  if exponent =? 255 then if fraction =? 0 then S754_infinity sign else S754_nan
  else if exponent =? 0 then finite fraction (-149)
  else finite (fraction + 2 ^ 23) (exponent - 150).
Definition vector_bytes (vector : list f32) : str := mjoin ((λ value, to_le_bytes (f32_to_bits value)) <$> vector).
(** [chunks_exact(4)]. *)
Fixpoint vector_values (bytes : str) : list f32 :=
  match bytes with
  | a :: b :: c :: d :: rest => f32_from_bits (from_le_bytes [a; b; c; d]) :: vector_values rest
  | _ => []
  end.

(** ** Points and identities *)
Definition VECTOR_INDEX_SCHEMA_VERSION : Z := 2.
Definition VECTOR_INDEX_FILE : str := lit "vectors.sqlite3".
Definition VECTOR_DIGEST_DOMAIN : str := lit "codestory-vector-digest-v1" ++ [nul].
(** 1.0e-3. *)
Definition VECTOR_NORM_TOLERANCE : f64 := f64_div (f64_of_Z 1) (f64_of_Z 1000).
Record SemanticPoint : Type := mkPoint {
  sp_display_name : str;
  sp_node_id : str;
  sp_file_path : option str;
  sp_file_role : option FileRole;
  sp_dense_reason : option str;
  sp_vector : list f32;
}.
Record AttestedSemanticPoint : Type := mkAttested {
  at_point : SemanticPoint;
  at_document_hash : str;
}.
Record ExpectedVectorAnchor : Type := mkExpected {
  xa_node_id : str;
  xa_document_hash : str;
}.
Record VectorEvidenceContract : Type := mkContract {
  vc_embedding_backend : str;
  vc_embedding_dim : Z;
  vc_producer_identity : str;
  vc_evidence_contract_identity : str;
}.
Record VectorDatabaseAttestation : Type := mkAttestation {
  va_schema_version : Z;
  va_generation : str;
  va_input_hash : str;
  va_embedding_backend : str;
  va_embedding_dim : Z;
  va_point_count : Z;
  va_producer_identity : str;
  va_evidence_contract_identity : str;
  va_vector_digest : str;
  va_database_sha256 : str;
}.
#[export] Instance VectorDatabaseAttestation_eq_dec : EqDecision VectorDatabaseAttestation.
Proof. solve_decision. Defined.
Record DatabaseMetadata : Type := mkMetadata {
  dm_schema_version : Z;
  dm_generation : str;
  dm_input_hash : str;
  dm_embedding_backend : str;
  dm_embedding_dim : Z;
  dm_point_count : Z;
  dm_producer_identity : str;
  dm_evidence_contract_identity : str;
  dm_vector_digest : str;
}.

Module VectorIndexError.
Inductive VectorIndexError : Type :=
| Io (message : str)
| EmptyEvidenceIdentities | ZeroDimension | EmptyPublicationIdentities | EmptyAnchorIdentities
| UnexpectedAnchor (node_id : str)
| DocumentHash (node_id expected found : str)
| DuplicateAnchor (node_id : str)
| Coverage (expected found : Z) (missing : list str)
| MetadataMismatch
| CountMismatch (expected found : Z)
| DigestMismatch | AttestationMismatch
| MetadataRows
| QuickCheck (answer : str)
| EmptyRowIdentities
| Dimension (node_id : str) (expected found : Z)
| WidthOverflow
| Width (node_id : str) (expected found : Z)
| NonFinite (node_id : str) | ZeroVector (node_id : str) | NotNormalized (node_id : str)
| IdentityChanged | QueryNonFinite | QueryZero | Cancelled
| BlobWidth | BlobNonFinite | BlobZero | ScoreOutside
| EmptyQuery.
End VectorIndexError.
Abbreviation VectorIndexError := VectorIndexError.VectorIndexError.

(** ** The database

    What the statements of a connection read.  Each column of a row is read on its own, so it
    can hold a value of another type.  The rows come in the order of their keys. *)
Record VectorRow : Type := mkVectorRow {
  vr_node_id : result VectorIndexError str;
  vr_document_hash : result VectorIndexError str;
  vr_display_name : result VectorIndexError str;
  vr_file_path : result VectorIndexError (option str);
  vr_file_role : result VectorIndexError (option str);
  vr_dense_reason : result VectorIndexError (option str);
  vr_vector : result VectorIndexError str;
}.
Record VectorDatabase : Type := mkVectorDatabase {
  vd_quick_check : result VectorIndexError str;
  vd_metadata : result VectorIndexError (list DatabaseMetadata);
  vd_count : result VectorIndexError Z;
  vd_rows : result VectorIndexError (list (result VectorIndexError VectorRow));
  vd_bytes : result VectorIndexError str;
}.

(** ** Validation *)
Definition contract_validate (c : VectorEvidenceContract) : result VectorIndexError unit :=
  if is_blank (vc_embedding_backend c) || is_blank (vc_producer_identity c)
     || is_blank (vc_evidence_contract_identity c)
  then Err VectorIndexError.EmptyEvidenceIdentities
  else if vc_embedding_dim c =? 0 then Err VectorIndexError.ZeroDimension
  else Ok tt.
Fixpoint norm_squared_loop (node_id : str) (values : list f32) (norm_squared : f64) : result VectorIndexError f64 :=
  match values with
  | [] => Ok norm_squared
  | value :: values =>
      if negb (is_finite value) then Err (VectorIndexError.NonFinite node_id)
      else norm_squared_loop node_id values (f64_add norm_squared (f64_mul (f64_from value) (f64_from value)))
  end.
Definition validate_vector_values (node_id : str) (values : list f32) : result VectorIndexError unit :=
  norm_squared ← norm_squared_loop node_id values (f64_of_Z 0);
  if negb (is_finite norm_squared) || SFleb norm_squared EPSILON then Err (VectorIndexError.ZeroVector node_id)
  else if SFltb VECTOR_NORM_TOLERANCE (SFabs (f64_sub (f64_sqrt norm_squared) (f64_of_Z 1)))
  then Err (VectorIndexError.NotNormalized node_id)
  else Ok tt.
Definition validate_vector (node_id : str) (vector : list f32) (embedding_dim : Z) : result VectorIndexError unit :=
  if negb (len vector =? embedding_dim) then Err (VectorIndexError.Dimension node_id embedding_dim (len vector))
  else validate_vector_values node_id vector.
Definition validate_vector_bytes (node_id bytes : str) (embedding_dim : Z) : result VectorIndexError unit :=
  if usize_max <? embedding_dim * 4 then Err VectorIndexError.WidthOverflow
  else if negb (len bytes =? embedding_dim * 4) then Err (VectorIndexError.Width node_id (embedding_dim * 4) (len bytes))
  else validate_vector_values node_id (vector_values bytes).

(** A [BTreeMap] of the document hash of each node. *)
Definition Anchors : Type := list (str * str).
Fixpoint map_get (key : str) (m : Anchors) : option str :=
  match m with
  | [] => None
  | (k, v) :: m => if str_eqb k key then Some v else map_get key m
  end.
Fixpoint map_insert (key value : str) (m : Anchors) : Anchors :=
  match m with
  | [] => [(key, value)]
  | (k, v) :: rest =>
      match str_cmp key k with
      | Lt => (key, value) :: m
      | Eq => (key, value) :: rest
      | Gt => (k, v) :: map_insert key value rest
      end
  end.
Fixpoint expected_anchor_loop (expected : list ExpectedVectorAnchor) (anchors : Anchors) : result VectorIndexError Anchors :=
  match expected with
  | [] => Ok anchors
  | a :: expected =>
      if is_blank (xa_node_id a) || is_blank (xa_document_hash a) then Err VectorIndexError.EmptyAnchorIdentities
      else match map_get (xa_node_id a) anchors with
           | Some _ => Err (VectorIndexError.DuplicateAnchor (xa_node_id a))
           | None => expected_anchor_loop expected (map_insert (xa_node_id a) (xa_document_hash a) anchors)
           end
  end.
Definition expected_anchor_map (expected : list ExpectedVectorAnchor) : result VectorIndexError Anchors :=
  expected_anchor_loop expected [].
(** The first five expected anchors that are not there. *)
Definition missing_anchors (expected : Anchors) (present : str → bool) : list str :=
  take 5 (List.filter (λ node_id, negb (present node_id)) expected.*1).
Definition expected_hash (expected : option Anchors) (node_id document_hash : str) : result VectorIndexError unit :=
  match expected with
  | None => Ok tt
  | Some expected =>
      match map_get node_id expected with
      | None => Err (VectorIndexError.UnexpectedAnchor node_id)
      | Some hash =>
          if str_eqb hash document_hash then Ok tt else Err (VectorIndexError.DocumentHash node_id hash document_hash)
      end
  end.
Definition read_metadata (db : VectorDatabase) : result VectorIndexError DatabaseMetadata :=
  rows ← vd_metadata db;
  match rows with [metadata] => Ok metadata | _ => Err VectorIndexError.MetadataRows end.

Section Digests.
Context (sha256 : str → str).

(** The digest reads the rows in the order of their node ids; the hasher is what it was given. *)
Fixpoint digest_rows (embedding_dim : Z) (expected : option Anchors) (rows : list (result VectorIndexError VectorRow))
    (hasher : str) (seen : list str) : result VectorIndexError (str * list str) :=
  match rows with
  | [] => Ok (hasher, seen)
  | row :: rows =>
      row ← row;
      node_id ← vr_node_id row;
      document_hash ← vr_document_hash row;
      vector ← vr_vector row;
      if one_of node_id seen then Err (VectorIndexError.DuplicateAnchor node_id)
      else if is_blank node_id || is_blank document_hash then Err VectorIndexError.EmptyRowIdentities
      else
        _ ← expected_hash expected node_id document_hash;
        _ ← validate_vector_bytes node_id vector embedding_dim;
        digest_rows embedding_dim expected rows (update_frames hasher [node_id; document_hash; vector])
          (node_id :: seen)
  end.
Definition digest_vector_rows (rows : result VectorIndexError (list (result VectorIndexError VectorRow)))
    (embedding_dim : Z) (expected : option Anchors) : result VectorIndexError (str * Z) :=
  rows ← rows;
  '(hasher, seen) ← digest_rows embedding_dim expected rows VECTOR_DIGEST_DOMAIN [];
  match expected with
  | Some expected =>
      if negb (len seen =? len expected)
      then Err (VectorIndexError.Coverage (len expected) (len seen) (missing_anchors expected (λ n, one_of n seen)))
      else Ok (sha256 hasher, len seen)
  | None => Ok (sha256 hasher, len seen)
  end.
Definition validate_database (open : result VectorIndexError VectorDatabase) (generation input_hash : str)
    (contract : VectorEvidenceContract) (expected_anchors : Anchors)
    (expected_attestation : option VectorDatabaseAttestation) : result VectorIndexError VectorDatabaseAttestation :=
  _ ← contract_validate contract;
  db ← open;
  answer ← vd_quick_check db;
  if negb (str_eqb answer (lit "ok")) then Err (VectorIndexError.QuickCheck answer)
  else
    metadata ← read_metadata db;
    if negb (dm_schema_version metadata =? VECTOR_INDEX_SCHEMA_VERSION)
       || negb (str_eqb (dm_generation metadata) generation)
       || negb (str_eqb (dm_input_hash metadata) input_hash)
       || negb (str_eqb (dm_embedding_backend metadata) (vc_embedding_backend contract))
       || negb (dm_embedding_dim metadata =? as_i64 (vc_embedding_dim contract))
       || (dm_point_count metadata <? 0)
       || negb (dm_point_count metadata =? len expected_anchors)
       || negb (str_eqb (dm_producer_identity metadata) (vc_producer_identity contract))
       || negb (str_eqb (dm_evidence_contract_identity metadata) (vc_evidence_contract_identity contract))
    then Err VectorIndexError.MetadataMismatch
    else
      actual_count ← vd_count db;
      if (actual_count <? 0) || negb (actual_count =? len expected_anchors)
      then Err (VectorIndexError.CountMismatch (len expected_anchors) (Z.max actual_count 0))
      else
        '(vector_digest, actual_anchors) ←
          digest_vector_rows (vd_rows db) (vc_embedding_dim contract) (Some expected_anchors);
        if negb (actual_anchors =? len expected_anchors)
           || negb (str_eqb vector_digest (dm_vector_digest metadata))
        then Err VectorIndexError.DigestMismatch
        else
          bytes ← vd_bytes db;
          let attestation :=
            mkAttestation (dm_schema_version metadata) (dm_generation metadata) (dm_input_hash metadata)
              (dm_embedding_backend metadata) (dm_embedding_dim metadata mod 2 ^ 64) (dm_point_count metadata)
              (dm_producer_identity metadata) (dm_evidence_contract_identity metadata) vector_digest
              (sha256 bytes) in
          match expected_attestation with
          | Some expected =>
              if bool_decide (expected = attestation) then Ok attestation else Err VectorIndexError.AttestationMismatch
          | None => Ok attestation
          end.
Definition validate_published_attestation (open : result VectorIndexError VectorDatabase) (generation input_hash : str)
    (contract : VectorEvidenceContract) (expected_anchors : list ExpectedVectorAnchor)
    (expected_attestation : VectorDatabaseAttestation) : result VectorIndexError VectorDatabaseAttestation :=
  expected_anchors ← expected_anchor_map expected_anchors;
  validate_database open generation input_hash contract expected_anchors (Some expected_attestation).
End Digests.
Definition validate_health_database (open : result VectorIndexError VectorDatabase) (generation input_hash : str)
    (expected_points : Z) (embedding_backend : str) (embedding_dim : Z) : result VectorIndexError Z :=
  db ← open;
  metadata ← read_metadata db;
  if negb (dm_schema_version metadata =? VECTOR_INDEX_SCHEMA_VERSION)
     || negb (str_eqb (dm_generation metadata) generation)
     || negb (str_eqb (dm_input_hash metadata) input_hash)
     || negb (str_eqb (dm_embedding_backend metadata) embedding_backend)
     || negb (dm_embedding_dim metadata =? as_i64 embedding_dim)
     || (dm_point_count metadata <? 0)
     || negb (dm_point_count metadata =? expected_points)
  then Err VectorIndexError.MetadataMismatch
  else
    actual ← vd_count db;
    if (actual <? 0) || negb (actual =? expected_points)
    then Err (VectorIndexError.CountMismatch expected_points (Z.max actual 0))
    else Ok actual.

(** ** Search *)
Record ScoredHit : Type := mkScored {
  sh_score : f32;
  sh_node_id : str;
  sh_display_name : str;
  sh_file_path : option str;
  sh_file_role : option str;
  sh_dense_reason : option str;
}.
Definition compare_scored_hits : ScoredHit → ScoredHit → comparison :=
  then_with (cmp_flip (cmp_on sh_score total_cmp)) (cmp_on sh_node_id str_cmp).
(** [1.0 + 1e-6]. *)
Definition score_bound : f64 := f64_add (f64_of_Z 1) (f64_div (f64_of_Z 1) (f64_of_Z 1000000)).
Definition in_score_range (score : f64) : bool := SFleb (SFopp score_bound) score && SFleb score score_bound.
Fixpoint dot_and_norm (query values : list f32) (dot vector_norm : f64) : result VectorIndexError (f64 * f64) :=
  match query, values with
  | query_value :: query, value :: values =>
      if negb (is_finite value) then Err VectorIndexError.BlobNonFinite
      else dot_and_norm query values
             (f64_add dot (f64_mul (f64_from query_value) (f64_from value)))
             (f64_add vector_norm (f64_mul (f64_from value) (f64_from value)))
  | _, _ => Ok (dot, vector_norm)
  end.
Definition cosine_similarity_bytes (query : list f32) (query_norm : f64) (bytes : str) : result VectorIndexError f32 :=
  if negb (len bytes =? 4 * len query) then Err VectorIndexError.BlobWidth
  else
    '(dot, vector_norm) ← dot_and_norm query (vector_values bytes) (f64_of_Z 0) (f64_of_Z 0);
    let denominator := f64_mul query_norm (f64_sqrt vector_norm) in
    if negb (is_finite denominator) || SFleb denominator EPSILON then Err VectorIndexError.BlobZero
    else
      let score := f64_div dot denominator in
      if negb (is_finite score) || negb (in_score_range score) then Err VectorIndexError.ScoreOutside
      else Ok (as_f32 (f64_clamp score (f64_of_Z (-1)) (f64_of_Z 1))).
Definition norm_of (query : list f32) : f64 :=
  f64_sqrt (foldl (λ sum value, f64_add sum (f64_mul (f64_from value) (f64_from value))) (f64_of_Z 0) query).
(** [enumerate().max_by(..)]: of several greatest elements the last. *)
Fixpoint max_by {A} (cmp : A → A → comparison) (best : nat * A) (i : nat) (l : list A) : nat * A :=
  match l with
  | [] => best
  | x :: l => max_by cmp (match cmp best.2 x with Gt => best | _ => (i, x) end) (S i) l
  end.
Definition keep_best (limit : Z) (scored : list ScoredHit) (candidate : ScoredHit) : list ScoredHit :=
  if len scored <? limit then scored ++ [candidate]
  else match scored with
       | [] => scored
       | first :: rest =>
           let '(worst_index, worst) := max_by compare_scored_hits (0%nat, first) 1 rest in
           match compare_scored_hits candidate worst with
           | Lt => <[worst_index := candidate]> scored
           | _ => scored
           end
       end.
Definition score_row (query : list f32) (query_norm : f64) (row : VectorRow) : result VectorIndexError ScoredHit :=
  bytes ← vr_vector row;
  score ← cosine_similarity_bytes query query_norm bytes;
  node_id ← vr_node_id row;
  display_name ← vr_display_name row;
  file_path ← vr_file_path row;
  file_role ← vr_file_role row;
  dense_reason ← vr_dense_reason row;
  Ok (mkScored score node_id display_name file_path file_role dense_reason).
(** [cancelled i] is the answer to the poll for the i-th row. *)
Fixpoint scan_rows (cancelled : nat → bool) (i : nat) (query : list f32) (query_norm : f64) (limit : Z)
    (rows : list (result VectorIndexError VectorRow)) (scored : list ScoredHit) : result VectorIndexError (list ScoredHit) :=
  match rows with
  | [] => Ok scored
  | row :: rows =>
      row ← row;
      if cancelled i then Err VectorIndexError.Cancelled
      else
        candidate ← score_row query query_norm row;
        scan_rows cancelled (S i) query query_norm limit rows (keep_best limit scored candidate)
  end.
Definition semantic_candidate (h : ScoredHit) : CandidateHit :=
  let hit := with_source (default (sh_display_name h) (sh_file_path h)) (Some (sh_display_name h)) (sh_score h)
               CandidateSource.Semantic in
  add_provenance
    (if bool_decide (sh_dense_reason h = Some (lit "component_report")) then lit "component_report" else lit "dense_anchor")
    {| node_id := Some (sh_node_id h); file_path := file_path hit; symbol_name := symbol_name hit;
       start_line := start_line hit; score := score hit; source := source hit; provenance := provenance hit;
       file_role := from_db_value <$> sh_file_role h; scip_hop_distance := scip_hop_distance hit;
       rank_features := rank_features hit |}.
(** The sort is unstable; hits that compare equal have the same node id, of which a database
    holds one row. *)
Definition search_database (open : result VectorIndexError VectorDatabase) (generation input_hash : str)
    (query : list f32) (limit : Z) (cancelled : nat → bool) : result VectorIndexError (list CandidateHit) :=
  if limit =? 0 then Ok []
  else
    db ← open;
    metadata ← vd_metadata db;
    match metadata with
    | [] => Err (VectorIndexError.Io (lit "Query returned no rows"))
    | metadata :: _ =>
        if negb (str_eqb (dm_generation metadata) generation)
           || negb (str_eqb (dm_input_hash metadata) input_hash)
           || negb (dm_embedding_dim metadata =? len query)
        then Err VectorIndexError.IdentityChanged
        else if bool_decide (query = []) || existsb (λ value, negb (is_finite value)) query
        then Err VectorIndexError.QueryNonFinite
        else
          let query_norm := norm_of query in
          if negb (is_finite query_norm) || SFleb query_norm EPSILON then Err VectorIndexError.QueryZero
          else
            rows ← vd_rows db;
            scored ← scan_rows cancelled 0 query query_norm limit rows [];
            Ok (semantic_candidate <$> sort_by (cmp_leb compare_scored_hits) scored)
    end.

(** The query side of [ProductEmbeddingClient]; the embedding server is another process. *)
Class EmbeddingServer : Type := {
  embed_prepared_query : str → result VectorIndexError (list f32);
}.
Definition CODERANK_QUERY_PREFIX_DEFAULT : str := lit "Represent this query for searching relevant code: ".
Definition embed_query `{EmbeddingServer} (text : str) : result VectorIndexError (list f32) :=
  if is_blank text then Err VectorIndexError.EmptyQuery
  else embed_prepared_query (CODERANK_QUERY_PREFIX_DEFAULT ++ text).
Record EmbeddedVectorIndex : Type := mkVectorIndex {
  vi_path : str;
  vi_generation : str;
  vi_input_hash : str;
}.
Definition vector_index_path (layout : SidecarLayout) (collection : str) : str :=
  path_join (path_join (path_join (semantic_data_dir layout) (lit "collections")) collection) VECTOR_INDEX_FILE.
Definition open_vector_index (layout : SidecarLayout) (collection generation input_hash : str) : EmbeddedVectorIndex :=
  mkVectorIndex (vector_index_path layout collection) generation input_hash.
(** [open_read_only]: what opening the file at a path gives. *)
Definition vector_search `{EmbeddingServer} (open_read_only : str → result VectorIndexError VectorDatabase)
    (index : EmbeddedVectorIndex) (query : str) (limit : Z) : result VectorIndexError (list CandidateHit) :=
  vector ← embed_query query;
  search_database (open_read_only (vi_path index)) (vi_generation index) (vi_input_hash index) vector limit
    (λ _, false).

(** ** Writing and publishing

    [produce] visits points one after the other and passes on the error of a visit, or ends with
    an error of its own. *)
Record WriteIo : Type := mkWriteIo {
  wi_create : result VectorIndexError unit;
  wi_insert : nat → result VectorIndexError unit;
  wi_metadata : result VectorIndexError unit;
  wi_commit : result VectorIndexError unit;
  wi_sync : result VectorIndexError unit;
}.
Record Produce : Type := mkProduce {
  pd_points : list AttestedSemanticPoint;
  pd_end : result VectorIndexError unit;
}.
Definition vector_row (a : AttestedSemanticPoint) : VectorRow :=
  let point := at_point a in
  mkVectorRow (Ok (sp_node_id point)) (Ok (at_document_hash a)) (Ok (sp_display_name point))
    (Ok (sp_file_path point)) (Ok (file_role_as_str <$> sp_file_role point)) (Ok (sp_dense_reason point))
    (Ok (vector_bytes (sp_vector point))).
Definition visit_point (io : WriteIo) (contract : VectorEvidenceContract) (expected : option Anchors) (i : nat)
    (a : AttestedSemanticPoint) (actual : Anchors) : result VectorIndexError Anchors :=
  let point := at_point a in
  if is_blank (sp_node_id point) || is_blank (at_document_hash a) then Err VectorIndexError.EmptyAnchorIdentities
  else
    _ ← validate_vector (sp_node_id point) (sp_vector point) (vc_embedding_dim contract);
    _ ← expected_hash expected (sp_node_id point) (at_document_hash a);
    match map_get (sp_node_id point) actual with
    | Some _ => Err (VectorIndexError.DuplicateAnchor (sp_node_id point))
    | None => _ ← wi_insert io i; Ok (map_insert (sp_node_id point) (at_document_hash a) actual)
    end.
Fixpoint visit_points (io : WriteIo) (contract : VectorEvidenceContract) (expected : option Anchors) (i : nat)
    (points : list AttestedSemanticPoint) (actual : Anchors) : result VectorIndexError Anchors :=
  match points with
  | [] => Ok actual
  | a :: points =>
      actual ← visit_point io contract expected i a actual;
      visit_points io contract expected (S i) points actual
  end.
Definition point_leb (a b : AttestedSemanticPoint) : bool :=
  cmp_leb (cmp_on (λ a, sp_node_id (at_point a)) str_cmp) a b.
(** The rows of the table, in the order of its primary key. *)
Definition table_rows (points : list AttestedSemanticPoint) : list (result VectorIndexError VectorRow) :=
  (λ a, Ok (vector_row a)) <$> sort_by point_leb points.
Definition written_database (metadata : DatabaseMetadata) (points : list AttestedSemanticPoint) (bytes : str)
  : VectorDatabase :=
  mkVectorDatabase (Ok (lit "ok")) (Ok [metadata]) (Ok (len points)) (Ok (table_rows points)) (Ok bytes).

Section Build.
Context (sha256 : str → str).
(** [bytes] is what SQLite makes of the database. *)
Definition write_database (io : WriteIo) (generation input_hash : str) (contract : VectorEvidenceContract)
    (expected_anchors : option Anchors) (produce : Produce) (bytes : str)
  : result VectorIndexError (Anchors * VectorDatabase) :=
  _ ← wi_create io;
  actual_anchors ← visit_points io contract expected_anchors 0 (pd_points produce) [];
  _ ← pd_end produce;
  if match expected_anchors with Some expected => negb (bool_decide (actual_anchors = expected)) | None => false end
  then
    let expected := default [] expected_anchors in
    Err (VectorIndexError.Coverage (len expected) (len actual_anchors)
           (missing_anchors expected (λ n, negb (bool_decide (map_get n actual_anchors = None)))))
  else
    '(vector_digest, _) ← digest_vector_rows sha256 (Ok (table_rows (pd_points produce)))
                            (vc_embedding_dim contract) None;
    _ ← wi_metadata io;
    _ ← wi_commit io;
    _ ← wi_sync io;
    let metadata :=
      mkMetadata VECTOR_INDEX_SCHEMA_VERSION generation input_hash (vc_embedding_backend contract)
        (as_i64 (vc_embedding_dim contract)) (as_i64 (len actual_anchors)) (vc_producer_identity contract)
        (vc_evidence_contract_identity contract) vector_digest in
    Ok (actual_anchors, written_database metadata (pd_points produce) bytes).

(** The directory of a collection: the published database and whether a temporary file is left. *)
Record Collection : Type := mkCollection {
  cl_database : option VectorDatabase;
  cl_temp : bool;
}.
Record PublishIo : Type := mkPublishIo {
  pi_create_dir : result VectorIndexError unit;
  pi_temp : result VectorIndexError unit;
  pi_before_publish : result VectorIndexError unit;
  pi_rename : result VectorIndexError unit;
  pi_sync : result VectorIndexError unit;
  pi_remove_temp : bool;
}.
Definition build_and_publish_database (io : WriteIo) (publish : PublishIo) (generation input_hash : str)
    (contract : VectorEvidenceContract) (expected_anchors : option Anchors) (produce : Produce) (bytes : str)
    (c : Collection) : result VectorIndexError VectorDatabaseAttestation * Collection :=
  let begin :=
    _ ← contract_validate contract;
    _ ← (if is_blank generation || is_blank input_hash then Err VectorIndexError.EmptyPublicationIdentities else Ok tt);
    _ ← pi_create_dir publish;
    pi_temp publish in
  match begin with
  | Err e => (Err e, c)
  | Ok _ =>
      let checked :=
        '(actual_anchors, db) ← write_database io generation input_hash contract expected_anchors produce bytes;
        attestation ← validate_database sha256 (Ok db) generation input_hash contract
                        (default actual_anchors expected_anchors) None;
        _ ← pi_before_publish publish;
        _ ← pi_rename publish;
        Ok (attestation, db) in
      let temp := negb (pi_remove_temp publish) in
      match checked with
      | Err e => (Err e, mkCollection (cl_database c) temp)
      | Ok (attestation, db) =>
          (** The rename took the temporary file away. *)
          (_ ← pi_sync publish; Ok attestation, mkCollection (Some db) false)
      end
  end.
Definition build_attested_with_points_with_cancel (io : WriteIo) (publish : PublishIo) (generation input_hash : str)
    (contract : VectorEvidenceContract) (expected_anchors : list ExpectedVectorAnchor) (produce : Produce)
    (bytes : str) (c : Collection) : result VectorIndexError VectorDatabaseAttestation * Collection :=
  match expected_anchor_map expected_anchors with
  | Err e => (Err e, c)
  | Ok expected_anchors =>
      build_and_publish_database io publish generation input_hash contract (Some expected_anchors) produce bytes c
  end.
End Build.
Definition vector_health (open : result VectorIndexError VectorDatabase) (generation input_hash : str)
    (expected_points : Z) (embedding_backend : str) (embedding_dim : Z) : bool * Z :=
  match validate_health_database open generation input_hash expected_points embedding_backend embedding_dim with
  | Ok count => (true, count)
  | Err _ => (false, 0)
  end.
