(* ===== verification/EmbeddedVectorProofs.v ===== *)
(** * What the vector index answers

    The bounded selection keeps the best rows: a search returns the best rows of the database of
    its own generation, in order.  A vector is read back from its bytes.  A database that was
    built holds the produced points, covers the expected anchors, and validates. *)
From S2P Require Import Retention.
From S2P Require Import Prelude RustStr Graph Sorting StrOps UnixPath Encoding ServerFrame Promotion SidecarStore.
From S2P Require Import RetrievalPlan RetrievalData RetrievalRanker EmbeddedVector.

(** ** The order of hits *)
#[export] Instance total_cmp_laws : CmpLaws (λ _, True) total_cmp.
Proof. apply (on_laws total_key), _. Qed.
#[export] Instance compare_scored_hits_laws : CmpLaws (λ _, True) compare_scored_hits.
Proof.
  unfold compare_scored_hits.
  apply then_with_laws; [apply cmp_flip_laws, (on_laws sh_score), _|apply (on_laws sh_node_id), _].
Qed.
Definition no_worse (a b : ScoredHit) : Prop := cmp_leb compare_scored_hits a b = true.
Lemma no_worse_trans a b c : no_worse a b → no_worse b c → no_worse a c.
Proof. by apply (cmp_leb_trans (λ _, True) compare_scored_hits). Qed.
Lemma no_worse_refl a : no_worse a a.
Proof.
  unfold no_worse, cmp_leb. pose proof (cmp_opp (cmp := compare_scored_hits) a a I I) as H.
  by destruct (compare_scored_hits a a).
Qed.
Lemma less_no_worse a b : compare_scored_hits a b = Lt → no_worse a b.
Proof. unfold no_worse, cmp_leb. by intros ->. Qed.
Lemma not_less_no_worse a b : compare_scored_hits a b ≠ Lt → no_worse b a.
Proof.
  intros H. unfold no_worse, cmp_leb. rewrite (cmp_opp (cmp := compare_scored_hits) a b) by done.
  by destruct (compare_scored_hits a b).
Qed.

(** ** The bounded selection *)
Lemma max_by_spec l : ∀ best i j w,
  max_by compare_scored_hits best i l = (j, w) →
  Forall (λ x, no_worse x w) (best.2 :: l) ∧
  ((j, w) = best ∨ (i ≤ j)%nat ∧ l !! (j - i)%nat = Some w).
Proof.
  induction l as [|x l IH]; intros [b best] i j w; cbn [max_by snd].
  { intros [= -> ->]. split; [|by left]. constructor; [apply no_worse_refl|constructor]. }
  destruct (compare_scored_hits best x) eqn:Hc; intros (Hall & Hj)%IH; apply Forall_cons in Hall as [Hw Hl];
    cbn [snd] in Hw.
  1,2: split; [|right; destruct Hj as [[= -> ->]|[Hi Hl']];
    [split; [lia|]; by rewrite Nat.sub_diag|split; [lia|]; replace (j - i)%nat with (S (j - S i)) by lia; done]];
    constructor; [|by constructor]; apply (no_worse_trans _ x); [|done]; unfold no_worse, cmp_leb; by rewrite Hc.
  split; [|destruct Hj as [->|[Hi Hl']]; [by left|right; split; [lia|];
    replace (j - i)%nat with (S (j - S i)) by lia; done]].
  constructor; [done|]. constructor; [|done]. apply (no_worse_trans _ best); [|done].
  apply not_less_no_worse. by rewrite Hc.
Qed.
(** Of the candidates seen, [scored] are the best, and at most [limit]. *)
Definition selection (limit : Z) (seen scored : list ScoredHit) : Prop :=
  ∃ rest, scored ++ rest ≡ₚ seen ∧ len scored = Z.min limit (len seen) ∧
    ∀ x y, x ∈ scored → y ∈ rest → no_worse x y.
Lemma replaced_perm (l rest : list ScoredHit) j w c : l !! j = Some w → <[j := c]> l ++ w :: rest ≡ₚ c :: l ++ rest.
Proof.
  revert j. induction l as [|a l IH]; intros [|j] Hj; cbn in *; [done|done| |].
  - injection Hj as ->. by rewrite <-Permutation_middle.
  - rewrite (IH j Hj). apply perm_swap.
Qed.
Lemma keep_best_selection limit seen scored candidate : 0 < limit →
  selection limit seen scored → selection limit (seen ++ [candidate]) (keep_best limit scored candidate).
Proof.
  intros Hl (rest & Hp & Hn & Hle). unfold selection, keep_best.
  assert (Hlen : len (seen ++ [candidate]) = len seen + 1) by (unfold len; rewrite length_app; cbn; lia).
  rewrite Hlen. destruct (Z.ltb_spec (len scored) limit) as [Hlt|Hge].
  { assert (rest = []) as ->.
    { apply Permutation_length in Hp. rewrite length_app in Hp. destruct rest; [done|]. unfold len in *. cbn in Hp. lia. }
    exists []. rewrite app_nil_r in *. split; [by rewrite Hp|]. split; [unfold len in *; rewrite length_app; cbn; lia|].
    by intros x y _ ?%not_elem_of_nil. }
  destruct scored as [|first others] eqn:Hs; [unfold len in Hge; cbn in Hge; lia|]. rewrite <-Hs in *.
  destruct (max_by compare_scored_hits (0%nat, first) 1 others) as [j worst] eqn:Hm.
  apply max_by_spec in Hm as (Hall & Hj). cbn [snd] in Hall. rewrite <-Hs in Hall.
  assert (scored !! j = Some worst) as Hjw.
  { rewrite Hs. destruct Hj as [[= -> ->]|[Hi Hj]]; [done|]. by destruct j as [|j]; [lia|]; cbn; replace j with (S j - 1)%nat by lia. }
  rewrite Forall_forall in Hall. assert (Hw : worst ∈ scored) by by eapply list_elem_of_lookup_2.
  destruct (compare_scored_hits candidate worst) eqn:Hc.
  2:{ exists (worst :: rest). split; [rewrite replaced_perm by done; rewrite Hp; apply Permutation_cons_append|].
      split; [unfold len in *; rewrite length_insert; lia|].
      assert (Hcw : no_worse candidate worst) by by apply less_no_worse.
      intros x y Hx [->|Hy]%elem_of_cons.
      - apply list_elem_of_lookup in Hx as (k & [(-> & <- & _)|[_ Hk]]%list_lookup_insert_Some); [done|].
        apply Hall. by eapply list_elem_of_lookup_2.
      - apply list_elem_of_lookup in Hx as (k & [(-> & <- & _)|[_ Hk]]%list_lookup_insert_Some).
        + apply (no_worse_trans _ worst); [done|by apply Hle].
        + apply Hle; [by eapply list_elem_of_lookup_2|done]. }
  all: exists (candidate :: rest); split;
    [rewrite <-Permutation_middle, Hp; apply Permutation_cons_append|]; split; [lia|];
    intros x y Hx [->|Hy]%elem_of_cons; [|by apply Hle]; apply (no_worse_trans _ worst); [by apply Hall|];
    apply not_less_no_worse; by rewrite Hc.
Qed.

(** ** The scan *)
(** What a row is scored to. *)
Definition scores (query : list f32) (row : result VectorIndexError VectorRow) (h : ScoredHit) : Prop :=
  ∃ r, row = Ok r ∧ score_row query (norm_of query) r = Ok h.
Lemma scan_selects cancelled query limit rows : 0 < limit → ∀ i seen scored out,
  selection limit seen scored →
  scan_rows cancelled i query (norm_of query) limit rows scored = Ok out →
  ∃ hits, Forall2 (scores query) rows hits ∧ selection limit (seen ++ hits) out.
Proof.
  intros Hl. induction rows as [|row rows IH]; intros i seen scored out Hs; cbn [scan_rows].
  { intros [= <-]. exists []. by rewrite app_nil_r. }
  intros (r & -> & H)%bind_Ok. destruct (cancelled i); [done|].
  apply bind_Ok in H as (candidate & Hc & H).
  destruct (IH _ (seen ++ [candidate]) _ _ (keep_best_selection _ _ _ _ Hl Hs) H) as (hits & Hf & Hsel).
  exists (candidate :: hits). split; [constructor; [by exists r|done]|]. by rewrite <-app_assoc in Hsel.
Qed.

(** The answer of a search: nothing for the limit 0; else the best rows of the database, when
    that is of the generation and the input of the index and its dimension is the query's. *)
Definition best_rows (db : VectorDatabase) (query : list f32) (limit : Z) (hits : list CandidateHit) : Prop :=
  ∃ rows scored best rest, vd_rows db = Ok rows ∧ Forall2 (scores query) rows scored ∧ best ++ rest ≡ₚ scored ∧
    hits = semantic_candidate <$> best ∧ sorted_by (cmp_leb compare_scored_hits) best ∧
    len best = Z.min limit (len scored) ∧ ∀ x y, x ∈ best → y ∈ rest → no_worse x y.
Lemma search_database_exact open generation input_hash query limit cancelled hits : 0 ≤ limit →
  search_database open generation input_hash query limit cancelled = Ok hits →
  limit = 0 ∧ hits = [] ∨
  ∃ db metadata others, open = Ok db ∧ vd_metadata db = Ok (metadata :: others) ∧
    dm_generation metadata = generation ∧ dm_input_hash metadata = input_hash ∧
    dm_embedding_dim metadata = len query ∧ best_rows db query limit hits.
Proof.
  intros Hl. unfold search_database. destruct (Z.eqb_spec limit 0) as [->|Hne]; [intros [= <-]; by left|].
  intros (db & -> & H)%bind_Ok. apply bind_Ok in H as ([|metadata others] & Hm & H); [done|].
  destruct (_ || _) eqn:E in H; [done|]. rewrite !orb_false_iff, !negb_false_iff, !str_eqb_eq, Z.eqb_eq in E.
  destruct E as [[Hg Hi] Hd]. destruct (_ || _) in H; [done|]. cbv zeta in H. destruct (_ || _) in H; [done|].
  apply bind_Ok in H as (rows & Hrows & H). apply bind_Ok in H as (scored & Hscan & [= <-]).
  right. exists db, metadata, others. split_and!; [done..|].
  destruct (scan_selects cancelled query limit rows ltac:(lia) 0%nat [] [] scored) as (all & Hall & rest & Hp & Hn & Hle);
    [|done|].
  { exists []. split; [done|]. split; [unfold len; cbn; lia|]. by intros x y ?%not_elem_of_nil. }
  exists rows, all, (sort_by (cmp_leb compare_scored_hits) scored), rest. split_and!; [done|done| |done| | |].
  - by rewrite sort_by_perm.
  - apply (cmp_sorted (λ _, True) compare_scored_hits). by apply Forall_true.
  - cbn [app] in Hn. rewrite <-Hn. unfold len. by rewrite sort_by_perm.
  - intros x y Hx. apply Hle. by rewrite sort_by_perm in Hx.
Qed.

(** A candidate that is a row of the database. *)
Definition of_vectors (db : VectorDatabase) (h : CandidateHit) : Prop :=
  ∃ rows r s, vd_rows db = Ok rows ∧ Ok r ∈ rows ∧ h = semantic_candidate s ∧
    vr_node_id r = Ok (sh_node_id s) ∧ vr_display_name r = Ok (sh_display_name s) ∧
    vr_file_path r = Ok (sh_file_path s) ∧ vr_file_role r = Ok (sh_file_role s) ∧
    vr_dense_reason r = Ok (sh_dense_reason s).
Lemma score_row_columns query norm r s : score_row query norm r = Ok s →
  vr_node_id r = Ok (sh_node_id s) ∧ vr_display_name r = Ok (sh_display_name s) ∧
  vr_file_path r = Ok (sh_file_path s) ∧ vr_file_role r = Ok (sh_file_role s) ∧
  vr_dense_reason r = Ok (sh_dense_reason s).
Proof.
  unfold score_row. intros (bytes & _ & H)%bind_Ok. apply bind_Ok in H as (score & _ & H).
  apply bind_Ok in H as (id & -> & H). apply bind_Ok in H as (name & -> & H). apply bind_Ok in H as (path & -> & H).
  apply bind_Ok in H as (role & -> & H). apply bind_Ok in H as (reason & -> & [= <-]). done.
Qed.
Lemma best_rows_stored db query limit hits h : best_rows db query limit hits → h ∈ hits → of_vectors db h.
Proof.
  intros (rows & scored & best & rest & Hrows & Hf & Hp & -> & _) (s & -> & Hs)%list_elem_of_fmap.
  assert (s ∈ scored) as Hin by (rewrite <-Hp; apply elem_of_app; by left).
  apply list_elem_of_lookup in Hin as (i & Hi). destruct (Forall2_lookup_r _ _ _ _ _ Hf Hi) as (row & Hrow & r & -> & Hr).
  exists rows, r, s. split_and!; [done|by eapply list_elem_of_lookup_2|done|..]; by apply score_row_columns in Hr as (? & ? & ? & ? & ?).
Qed.
Lemma best_rows_limit db query limit hits : best_rows db query limit hits → len hits ≤ limit.
Proof.
  intros (rows & scored & best & rest & _ & _ & _ & -> & _ & Hn & _). unfold len in *. rewrite length_fmap. lia.
Qed.

(** ** Scores are numbers *)
Lemma iter_pos_keeps {A} (P : A → Prop) f : (∀ x, P x → P (f x)) → ∀ n x, P x → P (iter_pos f n x).
Proof. intros Hf n. induction n as [n IH|n IH|]; intros x Hx; cbn; auto. Qed.
Lemma shr_fexp_nonneg prec emax m e l : 0 ≤ m → 0 ≤ shr_m (shr_fexp prec emax m e l).1.
Proof.
  intros Hm. assert (0 ≤ shr_m (shr_record_of_loc m l)) as Hr by by destruct l as [|[]].
  unfold shr_fexp, shr. destruct (_ - e) as [|n|n]; [done| |done]. cbn [fst].
  apply (iter_pos_keeps (λ r, 0 ≤ shr_m r)); [|done]. clear. intros [[|[m|m|]|[m|m|]] r s]; cbn; lia.
Qed.
Lemma round_aux_number prec emax s m e l : f32_number (binary_round_aux prec emax s (Zpos m) e l).
Proof.
  unfold binary_round_aux, f32_number. pose proof (shr_fexp_nonneg prec emax (Zpos m) e l ltac:(lia)) as H1.
  destruct (shr_fexp prec emax (Zpos m) e l) as [r e1]. cbn [fst] in H1.
  assert (0 ≤ round_nearest_even (shr_m r) (loc_of_shr_record r)) as H2.
  { destruct (loc_of_shr_record r) as [|[]]; cbn; try destruct (Z.even _); lia. }
  pose proof (shr_fexp_nonneg prec emax _ e1 loc_Exact H2) as H3.
  destruct (shr_fexp prec emax _ e1 loc_Exact) as [r' e2]. cbn [fst] in H3.
  destruct (shr_m r'); [done| |lia]. by destruct (_ <=? _).
Qed.
Lemma normalize_number prec emax m e s : f32_number (binary_normalize prec emax m e s).
Proof.
  unfold binary_normalize, binary_round. destruct m; [done| |];
    destruct (shl_align _ _ _); apply round_aux_number.
Qed.
Lemma convert_number prec emax x : f32_number x → f32_number (convert prec emax x).
Proof. destruct x; try done. intros _. apply normalize_number. Qed.
(** No row is scored to a NaN. *)
Lemma score_number query norm bytes score : cosine_similarity_bytes query norm bytes = Ok score → f32_number score.
Proof.
  unfold cosine_similarity_bytes. destruct (negb _); [done|]. intros ([dot vn] & _ & H)%bind_Ok. cbv zeta in H.
  destruct (_ || _) in H; [done|]. destruct (_ || _) eqn:E in H; [done|]. injection H as <-.
  apply orb_false_iff in E as [E _]. apply negb_false_iff in E. apply convert_number. unfold f64_clamp.
  destruct (SFltb _ _); [apply (normalize_number _ _ (-1) 0 false)|]. destruct (SFltb _ _); [apply (normalize_number _ _ 1 0 false)|].
  intros Hn. by rewrite Hn in E.
Qed.

(** ** Bytes *)
Lemma digits_bounds m : 2 ^ (Zpos (digits2_pos m) - 1) ≤ Zpos m < 2 ^ Zpos (digits2_pos m).
Proof.
  induction m as [m IH|m IH|]; cbn [digits2_pos]; [| |done];
    rewrite Pos2Z.inj_succ, Z.pow_succ_r by lia;
    replace (Z.succ (Zpos (digits2_pos m)) - 1) with (Z.succ (Zpos (digits2_pos m) - 1)) by lia;
    rewrite Z.pow_succ_r by lia; lia.
Qed.
(** The floats a vector holds: those of the format that are finite. *)
Definition element (x : f32) : Prop := is_finite x = true ∧ valid_binary f32_prec f32_emax x = true.
Lemma element_bounds s m e : element (S754_finite s m e) →
  Zpos m < 2 ^ 24 ∧ -149 ≤ e ≤ 104 ∧ (Zpos m < 2 ^ 23 → e = -149).
Proof.
  intros [_ [Hc%Z.eqb_eq He%Z.leb_le]%andb_true_iff]. unfold fexp, emin, f32_prec, f32_emax in *.
  pose proof (digits_bounds m) as [Hlo Hhi]. set (d := Zpos (digits2_pos m)) in *.
  assert (d ≤ 24) as Hd by lia. pose proof (Z.pow_le_mono_r 2 d 24 ltac:(lia) Hd). split; [lia|]. split; [lia|].
  intros Hm. assert (d - 1 < 23) as Hd' by (apply (Z.pow_lt_mono_r_iff 2); lia). lia.
Qed.
Lemma bits_range x : element x → in_range u32_max (f32_to_bits x).
Proof.
  intros Hx. unfold in_range, u32_max. destruct x as [s| | |s m e]; [by destruct s|by destruct Hx..|].
  apply element_bounds in Hx as (Hm & He & _). cbn [f32_to_bits]. unfold sign_bit.
  destruct (Z.ltb_spec (Zpos m) (2 ^ 23)), s; lia.
Qed.
Lemma bits_read x : element x → f32_from_bits (f32_to_bits x) = x.
Proof.
  intros Hx. destruct x as [s| | |s m e]; [by destruct s|by destruct Hx..|].
  apply element_bounds in Hx as (Hm & He & Hd). unfold f32_from_bits, f32_to_bits, sign_bit.
  set (f := if Zpos m <? 2 ^ 23 then Zpos m else Zpos m - 2 ^ 23).
  set (x := if Zpos m <? 2 ^ 23 then 0 else e + 150).
  assert (0 ≤ f < 2 ^ 23) by (subst f; destruct (Z.ltb_spec (Zpos m) (2 ^ 23)); lia).
  assert (0 ≤ x < 255) by (subst x; destruct (Z.ltb_spec (Zpos m) (2 ^ 23)); lia).
  replace (if Zpos m <? 2 ^ 23 then Zpos m else (e + 150) * 2 ^ 23 + (Zpos m - 2 ^ 23)) with (x * 2 ^ 23 + f)
    by (subst f x; destruct (Z.ltb_spec (Zpos m) (2 ^ 23)); lia).
  assert (((if s then 2 ^ 31 else 0) + (x * 2 ^ 23 + f)) / 2 ^ 23 = (if s then 256 else 0) + x) as ->.
  { replace ((if s then 2 ^ 31 else 0) + (x * 2 ^ 23 + f)) with (((if s then 256 else 0) + x) * 2 ^ 23 + f) by (destruct s; lia).
    rewrite Z.div_add_l, Z.div_small by lia. lia. }
  assert (((if s then 2 ^ 31 else 0) + (x * 2 ^ 23 + f)) mod 2 ^ 23 = f) as ->.
  { replace ((if s then 2 ^ 31 else 0) + (x * 2 ^ 23 + f)) with (f + ((if s then 256 else 0) + x) * 2 ^ 23) by (destruct s; lia).
    by rewrite Z.mod_add, Z.mod_small by lia. }
  assert (((if s then 256 else 0) + x) mod 256 = x) as ->.
  { destruct s; [replace (256 + x) with (x + 1 * 256) by lia; rewrite Z.mod_add by lia|]; apply Z.mod_small; lia. }
  assert ((2 ^ 31 <=? (if s then 2 ^ 31 else 0) + (x * 2 ^ 23 + f)) = s) as ->.
  { destruct s; [apply Z.leb_le|apply Z.leb_gt]; lia. }
  rewrite (proj2 (Z.eqb_neq x 255)) by lia. subst f x. destruct (Z.ltb_spec (Zpos m) (2 ^ 23)) as [Hlt|Hge].
  - cbn. by rewrite Hd.
  - rewrite (proj2 (Z.eqb_neq _ 0)) by lia. replace (Zpos m - 2 ^ 23 + 2 ^ 23) with (Zpos m) by lia.
    by replace (e + 150 - 150) with e by lia.
Qed.
(** A vector is read back from its bytes. *)
Lemma vector_read vector : Forall element vector → vector_values (vector_bytes vector) = vector.
Proof.
  induction 1 as [|x vector Hx Hv IH]; [done|]. pose proof (from_to_le_bytes _ (bits_range x Hx)) as Hb.
  change (vector_values (to_le_bytes (f32_to_bits x) ++ vector_bytes vector) = x :: vector).
  unfold to_le_bytes, to_be_bytes, reverse, rev_append in *. cbn [app vector_values] in *. by rewrite Hb, bits_read, IH.
Qed.
Lemma vector_bytes_len vector : len (vector_bytes vector) = 4 * len vector.
Proof.
  unfold len. induction vector as [|x vector IH]; [done|].
  change (vector_bytes (x :: vector)) with (to_le_bytes (f32_to_bits x) ++ vector_bytes vector).
  rewrite length_app. change (length (to_le_bytes (f32_to_bits x))) with 4%nat. cbn [length]. lia.
Qed.

(** ** What is built *)
Lemma map_get_insert id key value m :
  map_get id (map_insert key value m) = if decide (id = key) then Some value else map_get id m.
Proof.
  induction m as [|[k v] m IH]; cbn [map_insert map_get].
  { destruct (decide (id = key)) as [->|Hne]; [by rewrite str_eqb_refl|]. destruct (str_eqb key id) eqn:E; [|done].
    by apply str_eqb_eq in E. }
  destruct (str_cmp key k) eqn:Hc; cbn [map_get].
  - apply str_cmp_eq in Hc as ->. destruct (str_eqb k id) eqn:E.
    + apply str_eqb_eq in E. by rewrite decide_True by done.
    + rewrite decide_False; [done|]. intros ->. by rewrite str_eqb_refl in E.
  - destruct (str_eqb key id) eqn:E.
    + apply str_eqb_eq in E. by rewrite decide_True by done.
    + rewrite decide_False; [done|]. intros ->. by rewrite str_eqb_refl in E.
  - rewrite IH. destruct (str_eqb k id) eqn:E; [|done]. apply str_eqb_eq in E as ->. rewrite decide_False; [done|].
    intros ->. pose proof (cmp_opp (cmp := str_cmp) key key I I) as H. by rewrite Hc in H.
Qed.
Lemma expected_anchor_loop_map expected : ∀ m out, expected_anchor_loop expected m = Ok out →
  ∀ id hash, map_get id out = Some hash ↔
    map_get id m = Some hash ∨ ∃ a, a ∈ expected ∧ xa_node_id a = id ∧ xa_document_hash a = hash.
Proof.
  induction expected as [|x expected IH]; intros m out; cbn [expected_anchor_loop].
  { intros [= <-] id hash. split; [by left|]. intros [H|(a & Ha & _)]; [done|]. by apply not_elem_of_nil in Ha. }
  destruct (_ || _); [done|]. destruct (map_get (xa_node_id x) m) eqn:Hx; [done|]. intros H id hash.
  rewrite (IH _ _ H), map_get_insert. setoid_rewrite elem_of_cons. destruct (decide (id = xa_node_id x)) as [->|Hne].
  - rewrite Hx. naive_solver.
  - naive_solver.
Qed.
Lemma visit_points_map io contract expected points : ∀ i m out, visit_points io contract expected i points m = Ok out →
  ∀ id hash, map_get id out = Some hash ↔
    map_get id m = Some hash ∨ ∃ a, a ∈ points ∧ sp_node_id (at_point a) = id ∧ at_document_hash a = hash.
Proof.
  induction points as [|x points IH]; intros i m out; cbn [visit_points].
  { intros [= <-] id hash. split; [by left|]. intros [H|(a & Ha & _)]; [done|]. by apply not_elem_of_nil in Ha. }
  intros (m' & Hv & H)%bind_Ok id hash. unfold visit_point in Hv. destruct (_ || _) in Hv; [done|].
  apply bind_Ok in Hv as (_ & _ & Hv). apply bind_Ok in Hv as (_ & _ & Hv).
  destruct (map_get _ m) eqn:Hx in Hv; [done|]. apply bind_Ok in Hv as (_ & _ & [= <-]).
  rewrite (IH _ _ _ H), map_get_insert. setoid_rewrite elem_of_cons. destruct (decide (id = sp_node_id (at_point x))) as [->|Hne].
  - rewrite Hx. naive_solver.
  - naive_solver.
Qed.

Section Built.
Context (sha256 : str → str) (generation input_hash : str) (contract : VectorEvidenceContract).
Notation dimension := (vc_embedding_dim contract).

(** A validation repeated with what it attested, and the cheap one of the health probe. *)
Lemma validate_again open anchors a :
  validate_database sha256 open generation input_hash contract anchors None = Ok a →
  validate_database sha256 open generation input_hash contract anchors (Some a) = Ok a ∧
  validate_health_database open generation input_hash (len anchors) (vc_embedding_backend contract) dimension =
    Ok (len anchors).
Proof.
  unfold validate_database, validate_health_database. intros ([] & Hc & H)%bind_Ok. rewrite Hc.
  apply bind_Ok in H as (db & -> & H). apply bind_Ok in H as (answer & Hq & H). cbn [mbind result_bind]. rewrite Hq.
  cbn [mbind result_bind]. destruct (negb (str_eqb answer _)); [done|]. apply bind_Ok in H as (m & Hm & H).
  rewrite Hm. cbn [mbind result_bind]. destruct (_ || _) eqn:E in H; [done|]. rewrite E.
  rewrite !orb_false_iff in E. destruct E as [[[[[[[[E1 E2] E3] E4] E5] E6] E7] _] _].
  rewrite E1, E2, E3, E4, E5, E6, E7. cbn [orb]. apply bind_Ok in H as (n & Hn & H). rewrite Hn. cbn [mbind result_bind].
  destruct (_ || _) eqn:E8 in H; [done|]. rewrite E8. apply orb_false_iff in E8 as [_ ->%negb_false_iff%Z.eqb_eq].
  split; [|done]. apply bind_Ok in H as ([d k] & Hd & H). rewrite Hd. cbn [mbind result_bind].
  destruct (_ || _) in H |- *; [done|]. apply bind_Ok in H as (bytes & Hb & H). rewrite Hb. cbn [mbind result_bind].
  injection H as <-. by rewrite bool_decide_eq_true_2.
Qed.

(** A build that succeeds publishes the produced points, which are the expected anchors with
    their documents, and the database validates with the attestation that was returned; a build
    that fails leaves the database that was published, unless only the sync of the directory
    failed. *)
Theorem built_vectors_published io publish expected produce bytes c r c' :
  build_attested_with_points_with_cancel sha256 io publish generation input_hash contract expected produce bytes c = (r, c') →
  match r with
  | Ok attestation => ∃ db, cl_database c' = Some db ∧ vd_rows db = Ok (table_rows (pd_points produce)) ∧
      validate_published_attestation sha256 (Ok db) generation input_hash contract expected attestation = Ok attestation ∧
      (∃ n, validate_health_database (Ok db) generation input_hash n (vc_embedding_backend contract) dimension = Ok n) ∧
      ∀ id hash, (∃ a, a ∈ pd_points produce ∧ sp_node_id (at_point a) = id ∧ at_document_hash a = hash) ↔
        ∃ x, x ∈ expected ∧ xa_node_id x = id ∧ xa_document_hash x = hash
  | Err e => cl_database c' = cl_database c ∨ pi_sync publish = Err e
  end.
Proof.
  unfold build_attested_with_points_with_cancel, build_and_publish_database, validate_published_attestation.
  destruct (expected_anchor_map expected) as [anchors|e] eqn:Hx; [|intros [= <- <-]; by left].
  cbv zeta. destruct (_ ← contract_validate contract; _) as [[]|e]; [|intros [= <- <-]; by left].
  destruct (_ ← write_database _ _ _ _ _ _ _ _; _) as [[attestation db]|e] eqn:Hchecked; [|intros [= <- <-]; by left].
  apply bind_Ok in Hchecked as ([actual db'] & Hw & H). apply bind_Ok in H as (a & Hv & H).
  apply bind_Ok in H as ([] & _ & H). apply bind_Ok in H as ([] & _ & [= -> ->]). cbn [default] in Hv.
  destruct (pi_sync publish) as [[]|e] eqn:Hsync; intros [= <- <-]; [|by right].
  exists db. split; [done|]. unfold write_database in Hw. apply bind_Ok in Hw as ([] & _ & Hw).
  apply bind_Ok in Hw as (m & Hpoints & Hw). apply bind_Ok in Hw as ([] & _ & Hw).
  destruct (negb _) eqn:Hsame in Hw; [done|]. apply negb_false_iff, bool_decide_eq_true in Hsame as ->.
  apply bind_Ok in Hw as ([digest k] & _ & Hw). apply bind_Ok in Hw as ([] & _ & Hw). apply bind_Ok in Hw as ([] & _ & Hw).
  apply bind_Ok in Hw as ([] & _ & [= <- <-]). split; [done|]. cbn [mbind result_bind].
  apply validate_again in Hv as [Hv Hh]. split; [exact Hv|]. split; [by eexists|]. intros id hash.
  pose proof (visit_points_map _ _ _ _ _ _ _ Hpoints id hash) as H1.
  pose proof (expected_anchor_loop_map _ _ _ Hx id hash) as H2. cbn [map_get] in H1, H2. naive_solver.
Qed.
End Built.

(** ** A small index *)
Module VectorSample.
Definition contract : VectorEvidenceContract := mkContract (lit "backend") 2 (lit "producer") (lit "evidence").
Definition axis (a b : Z) : list f32 := [f32_of_Z a; f32_of_Z b].
Definition point (node_id name : str) (vector : list f32) : AttestedSemanticPoint :=
  mkAttested (mkPoint name node_id None None (Some (lit "component_report")) vector) (lit "hash").
Definition produce : Produce :=
  mkProduce [point (lit "3") (lit "c") (axis 0 (-1)); point (lit "1") (lit "a") (axis 1 0); point (lit "2") (lit "b") (axis 0 1)] (Ok tt).
Definition expected : list ExpectedVectorAnchor :=
  (λ node_id, mkExpected node_id (lit "hash")) <$> [lit "1"; lit "2"; lit "3"].
Definition write_io : WriteIo := mkWriteIo (Ok tt) (λ _, Ok tt) (Ok tt) (Ok tt) (Ok tt).
Definition publish_io : PublishIo := mkPublishIo (Ok tt) (Ok tt) (Ok tt) (Ok tt) (Ok tt) true.
Definition sha (text : str) : str := text.
Definition built : result VectorIndexError VectorDatabaseAttestation * Collection :=
  build_attested_with_points_with_cancel sha write_io publish_io (lit "g") (lit "input") contract expected produce
    (lit "bytes") (mkCollection None false).
Definition database : result VectorIndexError VectorDatabase :=
  match cl_database built.2 with Some db => Ok db | None => Err VectorIndexError.MetadataRows end.
#[export] Instance server : EmbeddingServer := {| embed_prepared_query _ := Ok (axis 0 1) |}.
End VectorSample.
#[local] Existing Instance VectorSample.server.
(** The best two of three rows. *)
Example sample_search :
  option_map (fmap (λ h, (node_id h, f32_to_bits (score h))))
    (result_ok (vector_search (λ _, VectorSample.database)
       (mkVectorIndex [] (lit "g") (lit "input")) (lit "query") 2)) =
  Some [(Some (lit "2"), 127 * 2 ^ 23); (Some (lit "1"), 0)].
Proof. vm_compute. reflexivity. Qed.
Lemma built_vectors_published_witness :
  ∃ attestation db, VectorSample.built = (Ok attestation, mkCollection (Some db) false) ∧
    va_point_count attestation = 3 ∧
    validate_published_attestation VectorSample.sha (Ok db) (lit "g") (lit "input") VectorSample.contract
      VectorSample.expected attestation = Ok attestation.
Proof.
  destruct VectorSample.built as [r c'] eqn:E.
  pose proof (built_vectors_published VectorSample.sha (lit "g") (lit "input") VectorSample.contract VectorSample.write_io
    VectorSample.publish_io VectorSample.expected VectorSample.produce (lit "bytes") (mkCollection None false) r c' E) as H.
  vm_compute in E. injection E as <- <-. destruct H as (db & Hdb & _ & Hv & _). injection Hdb as <-.
  eexists. eexists. split; [reflexivity|]. split; [reflexivity|exact Hv].
Defined.
