(* ===== verification/SidecarClients.v ===== *)
(** * The clients of the sidecars

    codestory-retrieval/src/scip_index.rs and scip_client.rs: the SCIP-shaped artifacts of the
    graph, how they are written from the store and read back, and the searches over them;
    lexical_client.rs; and LiveSidecarSearch of sidecar_search.rs, which gives the executor the
    two clients and the vector index of EmbeddedVector.  A project directory is a map from file names to texts. *)
From S2P Require Import Retention.
From S2P Require Import Prelude RustStr Graph Sorting StrOps UnixPath Collections Encoding Promotion SidecarStore.
From S2P Require Import RetrievalPlan RetrievalData RetrievalExecutor RetrievalRanker LexicalIndex EmbeddedVector.

(** ** The artifacts *)
Definition SCIP_SYMBOLS_FILE : str := lit "symbols.index.json".
Definition SCIP_INDEX_FILE : str := lit "index.scip".
Definition SCIP_REVISION_FILE : str := lit "revision.txt".
Definition SCIP_IMPORTED_PROOF_PROVENANCE : str := lit "imported_scip_proof".
Definition SCIP_PRECISE_SEMANTIC_IMPORT_PUBLIC_PROVENANCE : str := lit "precise_semantic_import".
Definition SCIP_GRAPH_PROJECTION_PROVENANCE : str := lit "scip_graph_projection".
Definition SCIP_POSITION_ENCODING : str := lit "line_one_based_utf16_column_zero_based".
Definition STUB_MARKER : str := lit "index.scip.stub".
Record ScipSymbolRecord : Type := mkSymbolRecord {
  sr_node_id : option str;
  sr_path : str;
  sr_symbol : str;
  sr_start_line : Z;
  sr_end_line : Z;
}.
Record ScipPackageIdentity : Type := mkPackage {
  pk_manager : str;
  pk_name : str;
  pk_version : option str;
}.
Record ScipProofAdapterContract : Type := mkContract {
  ct_evidence_source : str;
  ct_producer : str;
  ct_producer_version : str;
  ct_producer_args : list str;
  ct_producer_config : str;
  ct_revision : str;
  ct_package : ScipPackageIdentity;
  ct_position_encoding : str;
  ct_freshness : str;
}.
Definition graph_projection (revision : str) : ScipProofAdapterContract :=
  mkContract SCIP_GRAPH_PROJECTION_PROVENANCE (lit "codestory-retrieval") (lit "0.16.0")
    [lit "emit_scip_artifacts_from_store"] (lit "canonical_node_pages") revision
    (mkPackage (lit "codestory") (lit "local-workspace") None) SCIP_POSITION_ENCODING (lit "fresh").
Inductive ScipEvidenceSource : Set := ImportedProof | GraphProjection.
Definition evidence_source (c : ScipProofAdapterContract) : option ScipEvidenceSource :=
  if str_eqb (ct_evidence_source c) SCIP_IMPORTED_PROOF_PROVENANCE then Some ImportedProof
  else if str_eqb (ct_evidence_source c) SCIP_GRAPH_PROJECTION_PROVENANCE then Some GraphProjection
  else None.
Definition contract_provenance_label (c : ScipProofAdapterContract) : option str :=
  source ← evidence_source c;
  Some match source with
       | ImportedProof => SCIP_PRECISE_SEMANTIC_IMPORT_PUBLIC_PROVENANCE
       | GraphProjection => SCIP_GRAPH_PROJECTION_PROVENANCE
       end.
Definition contract_is_fresh_for (c : ScipProofAdapterContract) (revision : str) : bool :=
  str_eqb (ct_revision c) revision && str_eqb (ct_freshness c) (lit "fresh")
  && str_eqb (ct_position_encoding c) SCIP_POSITION_ENCODING
  && match evidence_source c with Some _ => true | None => false end.
Record ScipProofRecord : Type := mkProof {
  pf_role : str;
  pf_path : str;
  pf_symbol : str;
  pf_start_line : Z;
  pf_start_character_utf16 : Z;
  pf_end_line : Z;
  pf_end_character_utf16 : Z;
  pf_target_symbol : option str;
}.
Definition definition_proof (s : ScipSymbolRecord) : ScipProofRecord :=
  mkProof (lit "definition") (sr_path s) (sr_symbol s) (sr_start_line s) 0 (sr_end_line s) 0 None.
Record ScipSymbolsIndex : Type := mkScipIndex {
  si_revision : str;
  si_contract : ScipProofAdapterContract;
  si_symbols : list ScipSymbolRecord;
  si_proofs : list ScipProofRecord;
}.
Definition proof_is_valid (index : ScipSymbolsIndex) (p : ScipProofRecord) : bool :=
  if bool_decide (trim (pf_path p) = []) || bool_decide (trim (pf_symbol p) = [])
     || (pf_start_line p =? 0) || (pf_end_line p <? pf_start_line p)
     || ((pf_end_line p =? pf_start_line p) && (pf_end_character_utf16 p <? pf_start_character_utf16 p))
  then false
  else if str_eqb (pf_role p) (lit "definition") then
    existsb (λ s, str_eqb (sr_path s) (pf_path p) && str_eqb (sr_symbol s) (pf_symbol p)
                  && (sr_start_line s <=? pf_start_line p) && (pf_end_line p <=? sr_end_line s)) (si_symbols index)
  else if str_eqb (pf_role p) (lit "reference") then
    match pf_target_symbol p with
    | None => false
    | Some target => existsb (λ s, str_eqb (sr_symbol s) target) (si_symbols index)
    end
  else false.
Definition has_required_proof_records (index : ScipSymbolsIndex) : bool :=
  match evidence_source (si_contract index) with
  | Some GraphProjection => true
  | Some ImportedProof => existsb (proof_is_valid index) (si_proofs index)
  | None => false
  end.
Definition is_fresh_for (index : ScipSymbolsIndex) (revision : str) : bool :=
  str_eqb (si_revision index) revision && contract_is_fresh_for (si_contract index) revision
  && has_required_proof_records index.

(** ** Files *)
Class ScipJson : Type := {
  index_to_json : ScipSymbolsIndex → str;
  index_from_json : str → result str ScipSymbolsIndex;
}.
(** A directory: its files with their text, [None] when it cannot be read as text; and whether
    the directory can be listed. *)
Record ScipDirectory : Type := mkScipDirectory {
  sp_files : gmap str (option str);
  sp_listable : bool;
}.
Definition is_file (d : ScipDirectory) (name : str) : bool :=
  match sp_files d !! name with Some _ => true | None => false end.
Definition read_text_file (d : ScipDirectory) (name : str) : option str := mjoin (sp_files d !! name).
(** How a write ends: it is refused, or it stops after some bytes, or it completes. *)
Inductive WriteOutcome : Type := Wrote | Refused | Torn (bytes : nat).
Definition put_file (name : str) (text : option str) (d : ScipDirectory) : ScipDirectory :=
  mkScipDirectory (<[name := text]> (sp_files d)) (sp_listable d).
Definition write_file (outcome : WriteOutcome) (message : String.string) (name text : str) (d : ScipDirectory)
  : result str unit * ScipDirectory :=
  match outcome with
  | Wrote => (Ok tt, put_file name (Some text) d)
  | Refused => (Err (lit message), d)
  | Torn n => (Err (lit message), put_file name (Some (take n text)) d)
  end.
(** Writes one after another; the first that fails ends them. *)
Fixpoint write_files (writes : list (WriteOutcome * String.string * str * str)) (d : ScipDirectory)
  : result str unit * ScipDirectory :=
  match writes with
  | [] => (Ok tt, d)
  | (outcome, message, name, text) :: writes =>
      match write_file outcome message name text d with
      | (Err e, d) => (Err e, d)
      | (Ok _, d) => write_files writes d
      end
  end.

Section Files.
Context `{ScipJson}.
Definition load_scip_symbols (d : ScipDirectory) : result str (option ScipSymbolsIndex) :=
  if is_file d SCIP_SYMBOLS_FILE then
    match read_text_file d SCIP_SYMBOLS_FILE with
    | None => Err (lit "read scip symbols index")
    | Some body =>
        match index_from_json body with
        | Err _ => Err (lit "parse scip symbols index json")
        | Ok parsed => Ok (Some parsed)
        end
    end
  else Ok None.
Definition load_fresh_scip_symbols (d : ScipDirectory) (expected_revision : str)
  : result str (option ScipSymbolsIndex) :=
  index ← load_scip_symbols d;
  Ok (index ← index; if is_fresh_for index expected_revision then Some index else None).

(** ** The import of a proof artifact *)
Record PreciseSemanticImportStatus : Type := mkImportStatus {
  is_status : str;
  is_reason : option str;
  is_revision : option str;
  is_producer : option str;
}.
Definition import_missing (reason : str) : PreciseSemanticImportStatus :=
  mkImportStatus (lit "missing") (Some reason) None None.
Definition import_invalid (reason : str) : PreciseSemanticImportStatus :=
  mkImportStatus (lit "invalid") (Some reason) None None.
Definition line_end : str := ["010"%char].
Record ImportIo : Type := mkImportIo {
  im_create_dir : result str unit;
  im_symbols : WriteOutcome;
  im_revision : WriteOutcome;
  im_marker : WriteOutcome;
}.
(** [artifact]: the artifact's file, its text [None] when it cannot be read. *)
Definition import_precise_semantic_scip_artifact (io : ImportIo) (artifact : option (option str)) (d : ScipDirectory)
  : result str PreciseSemanticImportStatus * ScipDirectory :=
  match artifact with
  | None => (Ok (import_missing (lit "configured_artifact_missing")), d)
  | Some None => (Err (lit "read precise semantic import"), d)
  | Some (Some body) =>
      match index_from_json body with
      | Err error => (Ok (import_invalid (lit "invalid_artifact_json: " ++ error)), d)
      | Ok index =>
          if negb (is_fresh_for index (si_revision index))
          then (Ok (import_invalid (lit "imported_proof_contract_invalid")), d)
          else
            match im_create_dir io with
            | Err e => (Err e, d)
            | Ok _ =>
                let '(written, d) := write_files
                  [(im_symbols io, "write precise semantic import symbols"%string, SCIP_SYMBOLS_FILE, body);
                   (im_revision io, "write precise semantic import revision"%string, SCIP_REVISION_FILE,
                    si_revision index ++ line_end);
                   (im_marker io, "write precise semantic import marker"%string, SCIP_INDEX_FILE,
                    lit "codestory-precise-semantic-import-v1" ++ line_end ++ lit "revision=" ++ si_revision index
                    ++ line_end)] d in
                match written with
                | Err e => (Err e, d)
                | Ok _ =>
                    (Ok (mkImportStatus (lit "fresh") None (Some (si_revision index))
                           (Some (ct_producer (si_contract index)))), d)
                end
            end
      end
  end.
End Files.

(** ** The symbols of the store *)
(** A row of the node table. *)
Record NodeTableRow : Type := mkNodeTableRow {
  nr_id : Z;
  nr_kind : Z;
  nr_serialized_name : str;
  nr_qualified_name : option str;
  nr_file_node_id : option Z;
  nr_start_line : option Z;
  nr_end_line : option Z;
}.
Record SearchSymbolProjectionDetail : Type := mkDetail {
  pd_node_id : Z;
  pd_display_name : str;
  pd_node_kind : option Z;
  pd_file_path : option str;
  pd_start_line : option Z;
  pd_end_line : option Z;
}.
(** [TRIM(x) != ''] of SQL, which takes spaces away. *)
Definition sql_trim_nonempty (x : str) : bool := existsb (λ c, negb (Ascii.eqb c " "%char)) x.
Definition symbol_display_name (r : NodeTableRow) : str :=
  match nr_qualified_name r with
  | Some name => if sql_trim_nonempty name then name else nr_serialized_name r
  | None => nr_serialized_name r
  end.
Definition file_name_of (nodes : list NodeTableRow) (r : NodeTableRow) : option str :=
  file_id ← nr_file_node_id r;
  nr_serialized_name <$> List.find (λ file, nr_id file =? file_id) nodes.
Definition detail_from_row (nodes : list NodeTableRow) (r : NodeTableRow) : result StoreError SearchSymbolProjectionDetail :=
  start_line ← get_option (get_u32 4) (nr_start_line r);
  end_line ← get_option (get_u32 5) (nr_end_line r);
  Ok (mkDetail (nr_id r) (symbol_display_name r) (Some (nr_kind r)) (file_name_of nodes r) start_line end_line).
Definition get_canonical_search_symbol_detail_batch_after (nodes : list NodeTableRow) (after : option Z) (limit : nat)
  : result StoreError (list SearchSymbolProjectionDetail) :=
  if (limit =? 0)%nat then Err (StoreError.Other (lit "get_canonical_search_symbol_detail_batch_after"))
  else collect_rows (detail_from_row nodes) (batch_after nr_id nodes after limit).
Definition get_canonical_search_symbol_count (nodes : list NodeTableRow) : Z := clamp_i64_to_u32 (len nodes).

(** ** Writing the artifacts *)
Definition normalize_scip_path (path : str) : str := unix_path path.
Definition symbol_record (row : SearchSymbolProjectionDetail) : option ScipSymbolRecord :=
  if bool_decide (pd_node_kind row = Some (node_kind_as_i32 NodeKind.UNKNOWN)) then None
  else
    file_path ← normalize_scip_path <$> pd_file_path row;
    let start_line := default 1 (pd_start_line row) in
    let end_line := Z.max (default start_line (pd_end_line row)) start_line in
    Some (mkSymbolRecord (Some (show_int (pd_node_id row))) file_path (pd_display_name row) start_line end_line).
Definition symbol_bytes (s : ScipSymbolRecord) : str :=
  default [] (sr_node_id s) ++ [nul] ++ sr_path s ++ sr_symbol s ++ u32_bytes (sr_start_line s) ++ u32_bytes (sr_end_line s).
Definition scip_revision_for_symbols (sha256 : str → str) (symbols : list ScipSymbolRecord) : str :=
  take 16 (lit "graph-" ++ sha256 (concat (symbol_bytes <$> symbols))).
Definition visit_symbol_page (st : Z * list ScipSymbolRecord) (page : list SearchSymbolProjectionDetail)
  : result str (Z * list ScipSymbolRecord) :=
  match checked_add u64_max st.1 (len page) with
  | None => Err (lit "canonical SCIP symbol count overflow")
  | Some scanned => Ok (scanned, st.2 ++ omap symbol_record page)
  end.
(** How the operations of an emission end.  The pages may come from different states of the
    store: there is no transaction around them. *)
Record EmitIo : Type := mkEmitIo {
  em_create_dir : result str unit;
  em_open : result str unit;
  em_count : result str Z;
  em_batch : option Z → nat → result str (list SearchSymbolProjectionDetail);
  em_symbols : WriteOutcome;
  em_revision : WriteOutcome;
  em_marker : WriteOutcome;
  em_remove_stub : bool;
}.
Section Emit.
Context `{ScipJson} (sha256 : str → str).
Definition emitted_index (symbols : list ScipSymbolRecord) : ScipSymbolsIndex :=
  let revision := scip_revision_for_symbols sha256 symbols in
  mkScipIndex revision (graph_projection revision) symbols (definition_proof <$> symbols).
Definition emission_writes (io : EmitIo) (index : ScipSymbolsIndex) : list (WriteOutcome * String.string * str * str) :=
  [(em_symbols io, "write symbols.index.json"%string, SCIP_SYMBOLS_FILE, index_to_json index);
   (em_revision io, "write scip revision"%string, SCIP_REVISION_FILE, si_revision index ++ line_end);
   (em_marker io, "write index.scip marker"%string, SCIP_INDEX_FILE,
    lit "codestory-scip-v1" ++ line_end ++ lit "revision=" ++ si_revision index ++ line_end)].
Definition remove_stub (io : EmitIo) (d : ScipDirectory) : result str unit * ScipDirectory :=
  if is_file d STUB_MARKER then
    if em_remove_stub io then (Ok tt, mkScipDirectory (delete STUB_MARKER (sp_files d)) (sp_listable d))
    else (Err (lit "remove scip stub marker"), d)
  else (Ok tt, d).
Definition scan_canonical_symbols (fuel : nat) (io : EmitIo) : option (result str (list ScipSymbolRecord)) :=
  match em_count io with
  | Err e => Some (Err e)
  | Ok expected =>
      scanned ← read_pages pd_node_id fuel (em_batch io) 4096 visit_symbol_page None (0, []);
      Some (st ← scanned;
            if negb (st.1 =? expected) then Err (lit "canonical SCIP symbol count changed while streaming")
            else Ok st.2)
  end.
(** The directory is there once it is created; [None] when the fuel is out. *)
Definition emit_scip_artifacts_from_store (fuel : nat) (io : EmitIo) (d : option ScipDirectory)
  : option (result str (option str) * option ScipDirectory) :=
  match em_create_dir io with
  | Err e => Some (Err e, d)
  | Ok _ =>
      let d := default (mkScipDirectory ∅ true) d in
      match em_open io with
      | Err e => Some (Err e, Some d)
      | Ok _ =>
          scanned ← scan_canonical_symbols fuel io;
          Some match scanned with
               | Err e => (Err e, Some d)
               | Ok [] => (Ok None, Some d)
               | Ok symbols =>
                   let index := emitted_index symbols in
                   match write_files (emission_writes io index) d with
                   | (Err e, d) => (Err e, Some d)
                   | (Ok _, d) =>
                       match remove_stub io d with
                       | (Err e, d) => (Err e, Some d)
                       | (Ok _, d) => (Ok (Some (si_revision index)), Some d)
                       end
                   end
               end
      end
  end.
End Emit.

(** ** The client *)
Inductive ScipAvailability : Type := ScipReady (revision : str) | ScipUnavailable (reason : str).
Record ScipHealthProbe : Type := mkProbe {
  pr_availability : ScipAvailability;
  pr_artifact_count : Z;
  pr_detail : str;
}.
Definition count_scip_artifacts (d : ScipDirectory) : Z :=
  if sp_listable d then Z.of_nat (size (sp_files d)) mod (u32_max + 1) else 0.
Definition read_revision_file (d : ScipDirectory) : option str :=
  text ← trim <$> read_text_file d SCIP_REVISION_FILE;
  if bool_decide (text = []) then None else Some text.
Section Client.
Context `{ScipJson}.
Definition scip_artifact_status (d : ScipDirectory) (revision : str) : str :=
  if negb (is_file d SCIP_SYMBOLS_FILE) || negb (is_file d SCIP_INDEX_FILE) || negb (is_file d SCIP_REVISION_FILE)
     || is_file d STUB_MARKER
  then lit "scip_stub"
  else
    match load_scip_symbols d with
    | Ok (Some index) =>
        if bool_decide (si_symbols index = []) then lit "scip_stub"
        else if negb (is_fresh_for index revision) then lit "scip_stale"
        else if str_eqb (ct_evidence_source (si_contract index)) SCIP_GRAPH_PROJECTION_PROVENANCE then lit "ready"
        else lit "scip_imported_diagnostic_only"
    | _ => lit "scip_stub"
    end.
Definition availability_of (d : ScipDirectory) : ScipAvailability :=
  let revision := default (lit "stub-v1") (read_revision_file d) in
  let artifact_status := scip_artifact_status d revision in
  if str_eqb revision (lit "stub-v1") || str_eqb artifact_status (lit "scip_stub")
  then ScipUnavailable (lit "scip_stub")
  else if str_eqb artifact_status (lit "scip_stale") || str_eqb artifact_status (lit "scip_imported_diagnostic_only")
  then ScipUnavailable artifact_status
  else ScipReady revision.
Definition health_probe (project_dir : str) (d : option ScipDirectory) : ScipHealthProbe :=
  match d with
  | None => mkProbe (ScipUnavailable (lit "scip_unavailable")) 0 (lit "no artifacts at " ++ project_dir)
  | Some d =>
      let artifacts := count_scip_artifacts d in
      if artifacts =? 0
      then mkProbe (ScipUnavailable (lit "scip_unavailable")) 0
             (lit "scip project dir exists but empty (indexers not run)")
      else if is_file d STUB_MARKER
      then mkProbe (ScipUnavailable (lit "scip_stub")) artifacts
             (lit "stub SCIP artifacts only (index.scip.stub present)")
      else mkProbe (availability_of d) artifacts (show_uint artifacts ++ lit " artifact(s) under " ++ project_dir)
  end.
(** What a search reads: the fresh index and its label, nothing when there is none. *)
Definition searched_index (project_dir : str) (d : option ScipDirectory) : result str (option (ScipSymbolsIndex * str)) :=
  match pr_availability (health_probe project_dir d), d with
  | ScipReady revision, Some d =>
      index ← load_fresh_scip_symbols d revision;
      Ok (index ← index; provenance ← contract_provenance_label (si_contract index); Some (index, provenance))
  | _, _ => Ok None
  end.
End Client.

(** ** Matching *)
Record QualifiedSymbolQuery : Type := mkQualified {
  qq_prefix_lower : str;
  qq_terminal_lower : str;
}.
Record ScipQueryProfile : Type := mkProfile {
  qp_query_lower : str;
  qp_tokens : list str;
  qp_qualified : option QualifiedSymbolQuery;
}.
Definition is_terminal_char (c : ascii) : bool :=
  is_ascii_alphabetic c || is_ascii_digit c || Ascii.eqb c "_"%char || Ascii.eqb c "$"%char.
Definition qualified_symbol_query (query : str) : option QualifiedSymbolQuery :=
  parts ← rsplit_once (trim query) (lit "::");
  let prefix := trim parts.1 in
  let terminal := trim parts.2 in
  if bool_decide (prefix = []) || bool_decide (terminal = []) || negb (forallb is_terminal_char terminal) then None
  else Some (mkQualified (to_ascii_lowercase prefix) (to_ascii_lowercase terminal)).
Definition query_profile (query : str) : ScipQueryProfile :=
  let query_lower := to_ascii_lowercase query in
  mkProfile query_lower (split_whitespace query_lower) (qualified_symbol_query query).
(** [rsplit] and its first piece. *)
Definition last_piece (pat s : str) : str := match rsplit_once s pat with Some (_, rest) => rest | None => s end.
Definition symbol_terminal (symbol : str) : str :=
  to_ascii_lowercase (last_piece (lit ".") (last_piece (lit "::") symbol)).
Definition compact_alphanumeric (value : str) : str :=
  ascii_lower <$> List.filter (λ c, is_ascii_alphabetic c || is_ascii_digit c) value.
Definition qualified_prefix_path_score (prefix_lower path : str) : Z :=
  let normalized_path := to_ascii_lowercase (unix_path path) in
  let segments := List.filter (λ s, negb (bool_decide (s = []))) (split_on "/"%char normalized_path) in
  let hyphenated_prefix := replace prefix_lower (lit "_") (lit "-") in
  let trailing_prefix_segment := replace (last_piece (lit "_") prefix_lower) (lit "_") (lit "-") in
  let compact_prefix := compact_alphanumeric prefix_lower in
  if bool_decide (segments = []) then 0
  else if negb (bool_decide (hyphenated_prefix = [])) && one_of hyphenated_prefix segments then 3
  else if (3 <=? len trailing_prefix_segment) && one_of trailing_prefix_segment segments then 2
  else if (3 <=? len compact_prefix) && existsb (λ s, str_eqb (compact_alphanumeric s) compact_prefix) segments then 1
  else 0.
Definition is_separator (c : ascii) : bool := Ascii.eqb c "/"%char || Ascii.eqb c "\"%char.
Definition file_stem_lower (path : str) : option str :=
  file_name ← head (rsplit_when is_separator path);
  if bool_decide (file_name = []) then None
  else Some (to_ascii_lowercase match rsplit_once file_name (lit ".") with Some (stem, _) => stem | None => file_name end).
Definition symbol_matches_query (symbol : ScipSymbolRecord) (p : ScipQueryProfile) : bool :=
  let symbol_lower := to_ascii_lowercase (sr_symbol symbol) in
  let path_lower := to_ascii_lowercase (sr_path symbol) in
  if bool_decide (qp_tokens p = [])
  then contains symbol_lower (qp_query_lower p) || contains path_lower (qp_query_lower p)
  else if forallb (λ token, contains symbol_lower token || contains path_lower token) (qp_tokens p) then true
  else
    match qp_qualified p with
    | None => false
    | Some q =>
        str_eqb (symbol_terminal symbol_lower) (qq_terminal_lower q)
        && (0 <? qualified_prefix_path_score (qq_prefix_lower q) (sr_path symbol))
    end.

(** ** Scores *)
Definition f32_hundredths (n : Z) : f32 := f32_ratio n 100.
Definition prefix_bonus (prefix_path_score : Z) : f32 :=
  if prefix_path_score =? 3 then f32_hundredths 12
  else if prefix_path_score =? 2 then f32_hundredths 9
  else if prefix_path_score =? 1 then f32_hundredths 5
  else f32_zero.
Definition add_token (symbol_lower path_lower : str) (score : f32) (token : str) : f32 :=
  let score := if str_eqb symbol_lower token then f32_add score (f32_hundredths 5)
               else if contains symbol_lower token then f32_add score (f32_hundredths 3) else score in
  if contains path_lower token then f32_add score (f32_hundredths 1) else score.
Definition add_qualified (symbol : ScipSymbolRecord) (symbol_lower query_lower : str) (q : QualifiedSymbolQuery)
    (score : f32) : f32 :=
  let is_terminal := str_eqb (symbol_terminal symbol_lower) (qq_terminal_lower q) in
  let is_stem := bool_decide (file_stem_lower (sr_path symbol) = Some (qq_terminal_lower q)) in
  let score := if is_terminal then f32_add score (f32_hundredths 18) else score in
  let score := f32_add score (prefix_bonus (qualified_prefix_path_score (qq_prefix_lower q) (sr_path symbol))) in
  let score := if is_terminal && is_stem then f32_add score (f32_hundredths 16) else score in
  if str_eqb symbol_lower query_lower && negb is_stem then f32_sub score (f32_hundredths 12) else score.
Definition score_symbol_match (symbol : ScipSymbolRecord) (p : ScipQueryProfile) : f32 :=
  let symbol_lower := to_ascii_lowercase (sr_symbol symbol) in
  let path_lower := to_ascii_lowercase (sr_path symbol) in
  let query_lower := qp_query_lower p in
  let score := f32_hundredths 70 in
  let score := if str_eqb symbol_lower query_lower then f32_add score (f32_hundredths 22)
               else if contains symbol_lower query_lower then f32_add score (f32_hundredths 14) else score in
  let score := if str_eqb path_lower query_lower then f32_add score (f32_hundredths 8)
               else if contains path_lower query_lower then f32_add score (f32_hundredths 4) else score in
  let score := foldl (add_token symbol_lower path_lower) score (qp_tokens p) in
  let score := match qp_qualified p with
               | None => score
               | Some q => add_qualified symbol symbol_lower query_lower q score
               end in
  f32_min score (f32_hundredths 120).
Definition symbol_to_hit (provenance : str) (hop : Z) (score : f32) (symbol : ScipSymbolRecord) : CandidateHit :=
  {| node_id := if str_eqb provenance SCIP_GRAPH_PROJECTION_PROVENANCE then sr_node_id symbol else None;
     file_path := sr_path symbol; symbol_name := Some (sr_symbol symbol); start_line := Some (sr_start_line symbol);
     score := score; source := CandidateSource.Scip; provenance := [provenance]; file_role := None;
     scip_hop_distance := Some hop; rank_features := None |}.
(** The order of the anchors: the score from the top, then path, name and line. *)
Definition anchor_cmp : CandidateHit → CandidateHit → comparison :=
  then_with (then_with (then_with (cmp_flip (cmp_on score f32_cmp)) (cmp_on file_path str_cmp))
    (cmp_on symbol_name (option_cmp str_cmp))) (cmp_on start_line (option_cmp Z.compare)).

(** ** Searches *)
Inductive ScipPoll : Type := ScipStart | ScipSymbol (i : nat) | ScipAnchorSymbol (anchor i : nat) | ScipEnd.
Section Searches.
Context `{ScipJson} (cancelled : ScipPoll → bool).
Definition scip_poll (message : String.string) (place : ScipPoll) : result str unit :=
  if cancelled place then Err (lit message) else Ok tt.
Definition poll_every_64 (message : String.string) (i : nat) (place : ScipPoll) : result str unit :=
  if (i mod 64 =? 0)%nat then scip_poll message place else Ok tt.
Definition anchor_hit (p : ScipQueryProfile) (provenance : str) (symbol : ScipSymbolRecord) : option CandidateHit :=
  if symbol_matches_query symbol p
  then Some (symbol_to_hit provenance 0 (score_symbol_match symbol p) symbol)
  else None.
Definition visit_symbol (p : ScipQueryProfile) (provenance : str) (st : nat * list CandidateHit)
    (symbol : ScipSymbolRecord) : result str (nat * list CandidateHit) :=
  _ ← poll_every_64 "SCIP anchor search cancelled" st.1 (ScipSymbol st.1);
  Ok (S st.1, st.2 ++ option_list (anchor_hit p provenance symbol)).
Definition anchor_search_with_cancel (project_dir : str) (d : option ScipDirectory) (query : str) (limit : Z)
  : result str (list CandidateHit) :=
  _ ← scip_poll "SCIP anchor search cancelled" ScipStart;
  searched ← searched_index project_dir d;
  match searched with
  | None => Ok []
  | Some (index, provenance) =>
      found ← try_fold (visit_symbol (query_profile query) provenance) (0%nat, []) (si_symbols index);
      _ ← scip_poll "SCIP anchor search cancelled" ScipEnd;
      Ok (take (Z.to_nat limit) (sort_by (cmp_leb anchor_cmp) found.2))
  end.
(** [+] on a machine integer wraps in a release build. *)
Definition next_hop (anchor : CandidateHit) : Z := wrapping_add u32_max (default 0 (scip_hop_distance anchor)) 1.
Definition is_neighbor (anchor : CandidateHit) (symbol : ScipSymbolRecord) : bool :=
  let anchor_symbol := default [] (symbol_name anchor) in
  str_eqb (sr_path symbol) (file_path anchor)
  && negb (bool_decide (anchor_symbol = []) || str_eqb (sr_symbol symbol) anchor_symbol)
  && (contains (sr_symbol symbol) anchor_symbol || contains anchor_symbol (sr_symbol symbol)).
(** The symbols for one anchor; the loop is left when there are enough hits. *)
Fixpoint expand_anchor (provenance : str) (limit : Z) (a : nat) (anchor : CandidateHit) (i : nat)
    (symbols : list ScipSymbolRecord) (hits : list CandidateHit) : result str (list CandidateHit) :=
  match symbols with
  | [] => Ok hits
  | symbol :: symbols =>
      _ ← poll_every_64 "SCIP graph expansion cancelled" i (ScipAnchorSymbol a i);
      if limit <=? len hits then Ok hits
      else expand_anchor provenance limit a anchor (S i) symbols
             (if is_neighbor anchor symbol
              then hits ++ [symbol_to_hit provenance (next_hop anchor) (f32_hundredths 65) symbol] else hits)
  end.
Fixpoint expand_anchors (provenance : str) (limit : Z) (a : nat) (anchors : list CandidateHit)
    (symbols : list ScipSymbolRecord) (hits : list CandidateHit) : result str (list CandidateHit) :=
  match anchors with
  | [] => Ok hits
  | anchor :: anchors =>
      hits ← expand_anchor provenance limit a anchor 0 symbols hits;
      expand_anchors provenance limit (S a) anchors symbols hits
  end.
Definition expand_graph_with_cancel (project_dir : str) (d : option ScipDirectory) (anchors : list CandidateHit)
    (limit : Z) : result str (list CandidateHit) :=
  _ ← scip_poll "SCIP graph expansion cancelled" ScipStart;
  searched ← searched_index project_dir d;
  match searched with
  | None => Ok []
  | Some (index, provenance) =>
      hits ← expand_anchors provenance limit 0 (take 4 anchors) (si_symbols index) [];
      _ ← scip_poll "SCIP graph expansion cancelled" ScipEnd;
      Ok (take (Z.to_nat limit) hits)
  end.
End Searches.

(** ** The lexical client *)
Definition lexical_candidate (hit : LexicalHit) : CandidateHit :=
  let candidate := with_source (lh_path hit) (lh_symbol_name hit) (lh_score hit) CandidateSource.Lexical in
  add_provenance (source_label (lh_source hit))
    {| node_id := lh_node_id hit; file_path := file_path candidate; symbol_name := symbol_name candidate;
       start_line := lh_start_line hit; score := score candidate; source := source candidate;
       provenance := provenance candidate; file_role := file_role candidate;
       scip_hop_distance := scip_hop_distance candidate; rank_features := rank_features candidate |}.
Section LexicalClient.
Context `{FtsEngine} `{UnicodeTables} `{CaseTables} `{CoverageJson} (sha256 : str → str) (cancelled : PollAt → bool).
(** [shard]: what opening the shard of a directory gives. *)
Definition search_with_cancel (layout : SidecarLayout) (generation sidecar_input_hash query : str) (limit : Z)
    (shard : str → result LexicalError LexicalDatabase) : result LexicalError (list CandidateHit) :=
  let shard_dir := shard_dir_for (lexical_data_dir layout) generation in
  match search_lexical_index_with_cancel sha256 cancelled shard_dir sidecar_input_hash query limit (shard shard_dir) with
  | Err e => Err e
  | Ok hits => Ok (lexical_candidate <$> hits)
  end.
End LexicalClient.

(** ** The live sidecars *)
(** [LiveSidecarSearch]: the manifest's generation and input hash, and the vector index of its
    vector generation.  The probe of the health of the sidecars is an argument. *)
Record LiveSidecarSearch : Type := mkLive {
  ls_layout : SidecarLayout;
  ls_sidecar_generation : str;
  ls_sidecar_input_hash : str;
  ls_semantic : EmbeddedVectorIndex;
}.
Definition new_live (layout : SidecarLayout) (project_id : str) (manifest : option RetrievalIndexManifest)
  : LiveSidecarSearch :=
  let generation := default (project_id ++ lit "-missing-manifest") (manifest ← manifest; sidecar_generation manifest) in
  let input_hash := default (lit "missing-manifest") (manifest ← manifest; sidecar_input_hash manifest) in
  let vector_generation :=
    default (lit "codestory_" ++ project_id ++ lit "_missing_manifest") (semantic_generation <$> manifest) in
  mkLive layout generation input_hash (open_vector_index layout vector_generation generation input_hash).
Definition scip_project_dir (layout : SidecarLayout) (project_id : str) : str :=
  path_join (scip_artifacts_root layout) project_id.
Section Live.
Context `{ScipJson} `{FtsEngine} `{UnicodeTables} `{CaseTables} `{CoverageJson} (sha256 : str → str).
Context (lexical_message : LexicalError → str) (shard : str → result LexicalError LexicalDatabase)
  (scip_directory : str → option ScipDirectory).
Context `{EmbeddingServer} (vector_message : VectorIndexError → str) (vectors : str → result VectorIndexError VectorDatabase).
Context (probe : RetrievalIndexManifest → ComponentHealth * ComponentHealth * ComponentHealth).
Definition live_lexical_search (s : LiveSidecarSearch) (query : str) (limit : Z) : result str (list CandidateHit) :=
  match search_with_cancel sha256 (λ _, false) (ls_layout s) (ls_sidecar_generation s) (ls_sidecar_input_hash s)
          query limit shard with
  | Ok hits => Ok hits
  | Err e => Err (lexical_message e)
  end.
Definition live_semantic_search (s : LiveSidecarSearch) (query : str) (limit : Z) : result str (list CandidateHit) :=
  match vector_search vectors (ls_semantic s) query limit with
  | Ok hits => Ok hits
  | Err e => Err (vector_message e)
  end.
Definition live_scip_anchor (s : LiveSidecarSearch) (query : str) (limit : Z) : result str (list CandidateHit) :=
  let project_dir := scip_project_dir (ls_layout s) (ls_sidecar_generation s) in
  anchor_search_with_cancel (λ _, false) project_dir (scip_directory project_dir) query limit.
Definition live_scip_expand (s : LiveSidecarSearch) (anchors : list CandidateHit) (limit : Z)
  : result str (list CandidateHit) :=
  let project_dir := scip_project_dir (ls_layout s) (ls_sidecar_generation s) in
  expand_graph_with_cancel (λ _, false) project_dir (scip_directory project_dir) anchors limit.
Definition live_sidecars (s : LiveSidecarSearch) : SidecarSearch := {|
  has_layout := true;
  probe_sidecar_health := probe;
  lexical_search := live_lexical_search s;
  semantic_search := live_semantic_search s;
  scip_anchor := live_scip_anchor s;
  scip_expand := live_scip_expand s |}.
End Live.
