(* ===== verification/SidecarClientsProofs.v ===== *)
(** * The clients of the sidecars: what their answers are

    An emission of the graph's artifacts, however far it comes, leaves the old index, the new
    one or none to be searched, and a complete one is read back; a search over the symbols
    ranks the matching ones and an expansion finds the neighbours of its anchors, in order;
    every candidate of the live sidecars is a document of the shard, a row of the vector database
    of its generation or a symbol of the index. *)
From S2P Require Import Retention.
From S2P Require Import Prelude RustStr Graph Sorting StrOps UnixPath Collections Encoding Promotion SidecarStore.
From S2P Require Import SidecarStoreProofs RetrievalPlan RetrievalData RetrievalExecutor RetrievalRanker.
From S2P Require Import LexicalIndex LexicalIndexProofs EmbeddedVector EmbeddedVectorProofs SidecarClients.

(** ** A line of text *)
Lemma strip_one_newline_rev s : strip_one (reverse <$> utf8_whitespace) (byte 10 :: s) = Some s.
Proof. destruct s; vm_compute; reflexivity. Qed.
Lemma trim_line c s d t : plain_first c = true → plain_last d = true → c :: s = t ++ [d] →
  trim ((c :: s) ++ line_end) = c :: s.
Proof.
  intros Hc Hd%negb_true_iff E. unfold trim. rewrite <- app_comm_cons, trim_start_plain by done.
  rewrite app_comm_cons, E. unfold trim_end, line_end. rewrite reverse_snoc, reverse_snoc, !length_app. cbn [length].
  rewrite Nat.add_1_r. cbn [strip_all]. change "010"%char with (byte 10). rewrite strip_one_newline_rev.
  rewrite strip_all_id by done. by rewrite reverse_cons, reverse_involutive.
Qed.

(** ** Emission *)
Section EmitProofs.
Context `{ScipJson} (sha256 : str → str).

Lemma read_put name text d : read_text_file (put_file name (Some text) d) name = Some text.
Proof. unfold read_text_file, put_file. cbn. by rewrite lookup_insert_eq. Qed.
Lemma remove_stub_symbols io d r d' : remove_stub io d = (r, d') →
  sp_files d' !! SCIP_SYMBOLS_FILE = sp_files d !! SCIP_SYMBOLS_FILE.
Proof.
  unfold remove_stub. destruct (is_file d STUB_MARKER); [|by intros [= _ <-]].
  destruct (em_remove_stub io); intros [= _ <-]; [|done]. cbn. apply lookup_delete_ne. by vm_compute.
Qed.
Lemma write_files_other name writes : ∀ d r d', Forall (λ w, w.1.2 ≠ name) writes → write_files writes d = (r, d') →
  sp_files d' !! name = sp_files d !! name.
Proof.
  induction writes as [|[[[outcome message] file] text] writes IH]; intros d r d' Hn; cbn [write_files].
  - by intros [= _ <-].
  - apply Forall_cons in Hn as [Hf Hn]. cbn [fst snd] in Hf. destruct outcome; cbn [write_file].
    + intros Hw. rewrite (IH _ _ _ Hn Hw). unfold put_file. cbn [sp_files]. by apply lookup_insert_ne.
    + by intros [= _ <-].
    + intros [= _ <-]. unfold put_file. cbn [sp_files]. by apply lookup_insert_ne.
Qed.
(** What the writes of an emission leave of the symbols. *)
Lemma emission_symbols io index d r d' : write_files (emission_writes io index) d = (r, d') →
  (r = Ok tt ∧ sp_files d' !! SCIP_SYMBOLS_FILE = Some (Some (index_to_json index))) ∨
  (is_ok r = false ∧
   (sp_files d' !! SCIP_SYMBOLS_FILE = sp_files d !! SCIP_SYMBOLS_FILE ∨
    ∃ n, sp_files d' !! SCIP_SYMBOLS_FILE = Some (Some (take n (index_to_json index))))).
Proof.
  unfold emission_writes.
  match goal with |- write_files (_ :: ?l) _ = _ → _ => set (rest := l) end.
  assert (Forall (λ w, w.1.2 ≠ SCIP_SYMBOLS_FILE) rest) as Hrest
    by (apply Forall_cons; split; [by vm_compute|]; apply Forall_cons; split; [by vm_compute|]; by apply Forall_nil).
  cbn [write_files]. clearbody rest. destruct (em_symbols io) as [| |m]; cbn [write_file].
  - intros Hw. assert (sp_files d' !! SCIP_SYMBOLS_FILE = Some (Some (index_to_json index))) as Hs.
    { apply (write_files_other SCIP_SYMBOLS_FILE) in Hw; [|done].
      rewrite Hw. unfold put_file. cbn [sp_files]. by rewrite lookup_insert_eq. }
    destruct r as [[]|e]; [by left|]. right. split; [done|]. right. exists (length (index_to_json index)).
    by rewrite firstn_all.
  - intros [= <- <-]. right. split; [done|by left].
  - intros [= <- <-]. right. split; [done|]. right. exists m. unfold put_file. cbn [sp_files]. by rewrite lookup_insert_eq.
Qed.

Hypothesis json_read : ∀ i, index_from_json (index_to_json i) = Ok i.
Hypothesis json_cut : ∀ i n, (n < length (index_to_json i))%nat → is_ok (index_from_json (take n (index_to_json i))) = false.

Lemma load_files d d' : sp_files d = sp_files d' → load_scip_symbols d = load_scip_symbols d'.
Proof. intros E. unfold load_scip_symbols, is_file, read_text_file. by rewrite E. Qed.
Lemma load_lookup d : load_scip_symbols d =
  match sp_files d !! SCIP_SYMBOLS_FILE with
  | None => Ok None
  | Some None => Err (lit "read scip symbols index")
  | Some (Some body) =>
      match index_from_json body with Err _ => Err (lit "parse scip symbols index json") | Ok i => Ok (Some i) end
  end.
Proof.
  unfold load_scip_symbols, is_file, read_text_file. by destruct (sp_files d !! SCIP_SYMBOLS_FILE) as [[body|]|].
Qed.
Lemma load_cut d index n loaded : sp_files d !! SCIP_SYMBOLS_FILE = Some (Some (take n (index_to_json index))) →
  load_scip_symbols d = Ok (Some loaded) → loaded = index.
Proof.
  intros Hf. rewrite load_lookup, Hf. destruct (decide (n < length (index_to_json index))%nat) as [Hn|Hn].
  - specialize (json_cut index n Hn). by destruct (index_from_json _).
  - rewrite take_ge by lia. rewrite json_read. by intros [= <-].
Qed.

(** What a search reads. *)
Lemma searched_fresh project_dir d index label : searched_index project_dir d = Ok (Some (index, label)) →
  ∃ dir, d = Some dir ∧ load_scip_symbols dir = Ok (Some index) ∧ read_revision_file dir = Some (si_revision index) ∧
    is_fresh_for index (si_revision index) = true ∧ is_file dir STUB_MARKER = false ∧
    contract_provenance_label (si_contract index) = Some label.
Proof.
  unfold searched_index. destruct d as [dir|]; [|by destruct (pr_availability _)].
  destruct (pr_availability (health_probe project_dir (Some dir))) as [revision|reason] eqn:Hp; [|done].
  unfold health_probe in Hp. destruct (count_scip_artifacts dir =? 0); [done|].
  destruct (is_file dir STUB_MARKER) eqn:Hs; [done|]. cbn [pr_availability] in Hp.
  unfold availability_of in Hp. remember (default (lit "stub-v1") (read_revision_file dir)) as revision' eqn:Er.
  destruct (str_eqb revision' (lit "stub-v1")) eqn:Estub; [done|].
  destruct (_ || _) in Hp; [done|]. destruct (_ || _) in Hp; [done|]. injection Hp as <-.
  intros (loaded & Hl & [= Hi])%bind_Ok. unfold load_fresh_scip_symbols in Hl. apply bind_Ok in Hl as (found & Hf & [= <-]).
  destruct found as [i|]; [|done]. cbn [mbind option_bind] in Hi.
  destruct (is_fresh_for i revision') eqn:Hfresh; [|done]. cbn [mbind option_bind] in Hi.
  destruct (contract_provenance_label (si_contract i)) as [l|] eqn:Hprov; [|done]. injection Hi as -> ->.
  exists dir. pose proof Hfresh as Hrev. unfold is_fresh_for in Hrev.
  apply andb_true_iff in Hrev as [[Hrev _]%andb_true_iff _]. apply str_eqb_eq in Hrev. rewrite Hrev.
  destruct (read_revision_file dir); cbn [default] in Er; subst revision'; [done|by rewrite str_eqb_refl in Estub].
Qed.

(** [C9] An emission of the graph's artifacts replaces three files one after another and may stop
    anywhere, in the middle of a file as well.  Whatever it leaves, a search afterwards reads
    the index that was there before, or the index of exactly the symbols this emission scanned,
    whole, with the revision that the directory names and no stub beside it, or none; and after
    a reported success never the old one. *)
Theorem emission_serves_old_or_new fuel io d r d' project_dir index label :
  emit_scip_artifacts_from_store sha256 fuel io d = Some (r, d') →
  searched_index project_dir d' = Ok (Some (index, label)) →
  (∃ dir, d' = Some dir ∧ read_revision_file dir = Some (si_revision index) ∧ is_file dir STUB_MARKER = false ∧
     is_fresh_for index (si_revision index) = true) ∧
  ((∃ dir, d = Some dir ∧ load_scip_symbols dir = Ok (Some index)) ∧ (∀ revision, r ≠ Ok (Some revision)) ∨
   ∃ symbols, scan_canonical_symbols fuel io = Some (Ok symbols) ∧ symbols ≠ [] ∧ index = emitted_index sha256 symbols).
Proof.
  intros Hemit (dir & -> & Hl & Hrev & Hfresh & Hstub & _)%searched_fresh.
  split; [by exists dir|]. unfold emit_scip_artifacts_from_store in Hemit.
  destruct (em_create_dir io); [|injection Hemit as <- ->; left; split; [by exists dir|by intros ? [=]]].
  assert (load_scip_symbols (default (mkScipDirectory ∅ true) d) = Ok (Some index) →
    ∃ dir', d = Some dir' ∧ load_scip_symbols dir' = Ok (Some index)) as Hold.
  { destruct d as [dir'|]; [by exists dir'|]. rewrite load_lookup. cbn [default sp_files]. by rewrite lookup_empty. }
  destruct (em_open io); [|injection Hemit as <- <-; left; split; [by apply Hold|by intros ? [=]]].
  destruct (scan_canonical_symbols fuel io) as [[[|x symbols]|e]|] eqn:Hscan; [| | |done];
    cbn [mbind option_bind] in Hemit; [injection Hemit as <- <-; left; split; [by apply Hold|done]| |
      injection Hemit as <- <-; left; split; [by apply Hold|by intros ? [=]]].
  set (new := emitted_index sha256 (x :: symbols)) in *.
  destruct (write_files _ _) as [w dw] eqn:Hw. apply emission_symbols in Hw as [[-> Hs] | [Hr Hs]].
  - assert (load_scip_symbols dir = Ok (Some new)) as Hn.
    { destruct (remove_stub io dw) as [[u|e] dd] eqn:Hd; apply remove_stub_symbols in Hd; injection Hemit as _ ->;
        rewrite load_lookup, Hd, Hs, json_read; done. }
    right. exists (x :: symbols). split; [done|]. split; [done|]. fold new.
    rewrite Hn in Hl. by injection Hl as ->.
  - destruct w as [u|e]; [done|]. injection Hemit as <- ->. destruct Hs as [Hs | [n Hs]].
    + left. split; [|by intros ? [=]]. apply Hold. rewrite load_lookup in Hl |- *. by rewrite <- Hs.
    + right. exists (x :: symbols). split; [done|]. split; [done|]. by eapply load_cut.
Qed.

(** ** A whole emission *)
Lemma hexdigit_plain c : is_ascii_hexdigit c = true → plain_last c = true.
Proof. destruct c as [[] [] [] [] [] [] [] []]; vm_compute; done. Qed.
Lemma revision_line symbols : (∀ message, hex_digest (sha256 message)) →
  let revision := scip_revision_for_symbols sha256 symbols in
  trim (revision ++ line_end) = revision ∧ str_eqb revision (lit "stub-v1") = false ∧ revision ≠ [].
Proof.
  intros Hhex. unfold scip_revision_for_symbols. destruct (Hhex (concat (symbol_bytes <$> symbols))) as [Hl Hd].
  set (digest := sha256 _) in *. clearbody digest.
  assert (take 16 (lit "graph-" ++ digest) = lit "graph-" ++ take 10 digest) as -> by done.
  assert (length (take 10 digest) = 10%nat) as Ht by (rewrite length_take; lia).
  assert (forallb is_ascii_hexdigit (take 10 digest) = true) as Hdigits.
  { rewrite <- (take_drop 10 digest), forallb_app in Hd. by apply andb_true_iff in Hd as [-> _]. }
  destruct (take 10 digest) as [|x l _] using rev_ind; [done|]. rewrite forallb_app in Hdigits.
  apply andb_true_iff in Hdigits as [_ Hx]. cbn [forallb] in Hx. rewrite andb_true_r in Hx.
  cbv zeta. split; [|split; [reflexivity|discriminate]].
  apply (trim_line "g"%char (lit "raph-" ++ l ++ [x]) x (lit "graph-" ++ l)); [reflexivity|by apply hexdigit_plain|].
  by rewrite <- app_assoc.
Qed.

Section Rows.
Context (nodes : list NodeTableRow) (describe : StoreError → str).
(** The pages of an unchanged table. *)
Definition table_pages (after : option Z) (limit : nat) : result str (list SearchSymbolProjectionDetail) :=
  match get_canonical_search_symbol_detail_batch_after nodes after limit with Ok l => Ok l | Err e => Err (describe e) end.
Lemma detail_key r d : detail_from_row nodes r = Ok d → nr_id r = pd_node_id d.
Proof. unfold detail_from_row. by intros (? & _ & (? & _ & [= <-])%bind_Ok)%bind_Ok. Qed.
Lemma collect_rows_len {R A} (f : R → result StoreError A) rows : ∀ l, collect_rows f rows = Ok l → len l = len rows.
Proof.
  induction rows as [|r rows IH]; intros l; [by intros [= <-]|].
  intros (a & k & _ & Hk & ->)%collect_rows_cons. by rewrite !len_cons, (IH k Hk).
Qed.
Lemma table_pages_of rows : keyed nr_id nodes → collect_rows (detail_from_row nodes) nodes = Ok rows →
  pages_of pd_node_id table_pages rows.
Proof.
  intros Hk Hr. split.
  - by apply (collect_rows_keyed (detail_from_row nodes) nr_id pd_node_id _ _ detail_key Hk).
  - intros after limit Hl. unfold table_pages, get_canonical_search_symbol_detail_batch_after, batch_after.
    rewrite (proj2 (Nat.eqb_neq limit 0)) by lia. erewrite collect_rows_take; [done|]. apply collect_rows_filter; [|done].
    intros r d Hd. destruct after; [|done]. cbn. by rewrite (detail_key r d Hd).
Qed.
Lemma visit_page n l page : n + len page ≤ u64_max →
  visit_symbol_page (n, l) page = Ok (n + len page, l ++ omap symbol_record page).
Proof. intros Hn. unfold visit_symbol_page, checked_add. cbn [fst snd]. by rewrite decide_True. Qed.
Lemma scan_table rows io fuel : keyed nr_id nodes → collect_rows (detail_from_row nodes) nodes = Ok rows →
  (length rows < fuel)%nat → len nodes ≤ u32_max →
  em_count io = Ok (get_canonical_search_symbol_count nodes) → em_batch io = table_pages →
  scan_canonical_symbols fuel io = Some (Ok (omap symbol_record rows)).
Proof.
  intros Hk Hr Hf Hn Hc Hb. unfold scan_canonical_symbols. rewrite Hc, Hb.
  assert (len rows = len nodes) as Hl by by eapply collect_rows_len. pose proof (len_nonneg nodes) as Hpos.
  rewrite (read_all pd_node_id visit_symbol_page (λ st, st.1 ≤ u64_max) ) with (table := rows);
    [| | | |by apply table_pages_of|lia|done|cbn; unfold u64_max; lia].
  - rewrite visit_page by (unfold u32_max, u64_max in *; lia). cbn [mbind option_bind result_bind fst snd app].
    unfold get_canonical_search_symbol_count, clamp_i64_to_u32. rewrite Hl.
    destruct (Z.leb_spec (len nodes) 0); destruct (Z.ltb_spec u32_max (len nodes)); try lia.
    + assert (len nodes = 0) as -> by lia. done.
    + by rewrite Z.add_0_l, Z.eqb_refl.
  - intros [n l] Hv. rewrite visit_page; cbn in *; [|by rewrite len_nil, Z.add_0_r]. by rewrite len_nil, Z.add_0_r, app_nil_r.
  - intros [n l] page [n' l'] _. unfold visit_symbol_page, checked_add. cbn [fst snd].
    destruct (decide _); [|done]. by intros [= <- _].
  - intros [n l] p q. unfold visit_symbol_page, checked_add. cbn [fst snd]. rewrite len_app, omap_app, Z.add_assoc.
    pose proof (len_nonneg q). destruct (decide (n + len p ≤ u64_max)) as [Hp|Hp]; cbn [mbind result_bind fst snd].
    + destruct (decide (n + len p + len q ≤ u64_max)); [|done]. by rewrite app_assoc.
    + by rewrite decide_False by lia.
Qed.
End Rows.

(** File operations that succeed. *)
Record emit_succeeds (io : EmitIo) : Prop := {
  es_create_dir : em_create_dir io = Ok tt;
  es_open : em_open io = Ok tt;
  es_symbols : em_symbols io = Wrote;
  es_revision : em_revision io = Wrote;
  es_marker : em_marker io = Wrote;
  es_remove_stub : em_remove_stub io = true;
}.
(** A directory that a whole emission wrote. *)
Record emitted (index : ScipSymbolsIndex) (d : ScipDirectory) : Prop := {
  wd_symbols : sp_files d !! SCIP_SYMBOLS_FILE = Some (Some (index_to_json index));
  wd_revision : sp_files d !! SCIP_REVISION_FILE = Some (Some (si_revision index ++ line_end));
  wd_marker : is_file d SCIP_INDEX_FILE = true;
  wd_stub : is_file d STUB_MARKER = false;
}.
Lemma file_names : NoDup [SCIP_SYMBOLS_FILE; SCIP_REVISION_FILE; SCIP_INDEX_FILE; STUB_MARKER].
Proof. apply (bool_decide_eq_true_1 _). vm_compute. reflexivity. Qed.
Lemma insert_size (m : gmap str (option str)) name text : (size (<[name := text]> m) ≤ S (size m))%nat.
Proof. rewrite map_size_insert. destruct (m !! name); cbn; lia. Qed.
Lemma write_all io index d : emit_succeeds io → ∃ d', sp_listable d' = sp_listable d ∧ emitted index d' ∧
  (size (sp_files d') ≤ size (sp_files d) + 3)%nat ∧
  ∃ d1, write_files (emission_writes io index) d = (Ok tt, d1) ∧ remove_stub io d1 = (Ok tt, d').
Proof.
  intros [_ _ Hs Hr Hm Hst]. unfold emission_writes. rewrite Hs, Hr, Hm. cbn [write_files write_file].
  pose proof file_names as Hn. rewrite !NoDup_cons, !not_elem_of_cons in Hn.
  destruct Hn as ((Hsr & Hsi & Hss & _) & (Hri & Hrs & _) & (His & _) & _).
  set (marker := lit "codestory-scip-v1" ++ _). clearbody marker. unfold put_file. cbn [sp_files sp_listable].
  set (files := <[SCIP_INDEX_FILE := _]> _).
  assert (files !! SCIP_SYMBOLS_FILE = Some (Some (index_to_json index))) as E1
    by (unfold files; rewrite !lookup_insert_ne by congruence; apply lookup_insert_eq).
  assert (files !! SCIP_REVISION_FILE = Some (Some (si_revision index ++ line_end))) as E2
    by (unfold files; rewrite lookup_insert_ne by congruence; apply lookup_insert_eq).
  assert (files !! SCIP_INDEX_FILE = Some (Some marker)) as E3 by apply lookup_insert_eq.
  assert (size files ≤ size (sp_files d) + 3)%nat as Hsize.
  { unfold files. repeat (etrans; [apply insert_size|]; rewrite ?Nat.add_succ_r; try apply le_n_S). lia. }
  clearbody files. unfold remove_stub. unfold is_file at 1. cbn [sp_files sp_listable]. rewrite Hst.
  destruct (files !! STUB_MARKER) eqn:Es.
  - exists (mkScipDirectory (delete STUB_MARKER files) (sp_listable d)).
    split_and!; [done| | |eexists; split; [done|]; unfold is_file; cbn [sp_files]; by rewrite Es].
    + split; unfold is_file; cbn [sp_files]; rewrite ?lookup_delete_ne, ?lookup_delete_eq by congruence; by rewrite ?E3.
    + cbn [sp_files]. etrans; [|exact Hsize]. rewrite map_size_delete, Es. lia.
  - exists (mkScipDirectory files (sp_listable d)).
    split_and!; [done| |done|eexists; split; [done|]; unfold is_file; cbn [sp_files]; by rewrite Es].
    split; unfold is_file; cbn [sp_files]; by rewrite ?E3, ?Es.
Qed.
Lemma emitted_searched project_dir symbols d : (∀ message, hex_digest (sha256 message)) → symbols ≠ [] →
  emitted (emitted_index sha256 symbols) d → sp_listable d = true → (size (sp_files d) ≤ Z.to_nat u32_max)%nat →
  searched_index project_dir (Some d) = Ok (Some (emitted_index sha256 symbols, SCIP_GRAPH_PROJECTION_PROVENANCE)) ∧
  pr_availability (health_probe project_dir (Some d)) = ScipReady (scip_revision_for_symbols sha256 symbols).
Proof.
  intros Hhex Hne [Es Er Em Est] Hl Hsize. set (index := emitted_index sha256 symbols) in *.
  set (revision := scip_revision_for_symbols sha256 symbols).
  destruct (revision_line symbols Hhex) as (Htrim & Hstub & Hrev). fold revision in Htrim, Hstub, Hrev.
  change (si_revision index) with revision in Er.
  assert (is_fresh_for index revision = true) as Hfresh.
  { unfold is_fresh_for, contract_is_fresh_for. cbn [index emitted_index si_revision si_contract graph_projection
      ct_revision ct_freshness ct_position_encoding]. fold revision. rewrite !str_eqb_refl. reflexivity. }
  assert (load_scip_symbols d = Ok (Some index)) as Hload by by rewrite load_lookup, Es, json_read.
  assert (read_revision_file d = Some revision) as Hread.
  { unfold read_revision_file, read_text_file. rewrite Er. cbn [mjoin option_join fmap option_fmap option_map mbind option_bind].
    rewrite Htrim. by rewrite bool_decide_false. }
  assert (is_file d SCIP_SYMBOLS_FILE = true) as Fs by (unfold is_file; by rewrite Es).
  assert (is_file d SCIP_REVISION_FILE = true) as Fr by (unfold is_file; by rewrite Er).
  assert (count_scip_artifacts d =? 0 = false) as Hcount.
  { unfold count_scip_artifacts. rewrite Hl. apply Z.eqb_neq. assert (size (sp_files d) ≠ 0%nat) as Hz.
    { intros Hz%map_size_empty_iff. by rewrite Hz, lookup_empty in Es. }
    rewrite Z.mod_small; [lia|]. unfold u32_max in *. lia. }
  assert (pr_availability (health_probe project_dir (Some d)) = ScipReady revision) as Hready.
  { assert (scip_artifact_status d revision = lit "ready") as Hstatus.
    { unfold scip_artifact_status. by rewrite Fs, Em, Fr, Est, Hload, Hfresh, bool_decide_false by done. }
    unfold health_probe. rewrite Hcount, Est. change (availability_of d = ScipReady revision). unfold availability_of.
    rewrite Hread. change (default (lit "stub-v1") (Some revision)) with revision. by rewrite Hstub, Hstatus. }
  split; [|done]. unfold searched_index. rewrite Hready. unfold load_fresh_scip_symbols. rewrite Hload.
  cbn [mbind result_bind option_bind]. rewrite Hfresh. done.
Qed.

(** [C23] A whole emission is read back.  When the table of nodes does not change while its pages
    are read and the file operations succeed, an emission over any directory ends with the
    revision of the symbols: one for each node of a known kind whose file is known, in order of
    node ids.  The graph is then ready under that revision and a search reads exactly those
    symbols; without a symbol nothing is written. *)
Theorem emission_read_back nodes describe rows io fuel d project_dir :
  (∀ message, hex_digest (sha256 message)) → emit_succeeds io →
  keyed nr_id nodes → collect_rows (detail_from_row nodes) nodes = Ok rows → (length rows < fuel)%nat →
  len nodes ≤ u32_max → em_count io = Ok (get_canonical_search_symbol_count nodes) →
  em_batch io = table_pages nodes describe →
  sp_listable (default (mkScipDirectory ∅ true) d) = true →
  (size (sp_files (default (mkScipDirectory ∅ true) d)) + 3 ≤ Z.to_nat u32_max)%nat →
  let symbols := omap symbol_record rows in
  let revision := scip_revision_for_symbols sha256 symbols in
  ∃ d', emit_scip_artifacts_from_store sha256 fuel io d =
      Some (Ok (if bool_decide (symbols = []) then None else Some revision), Some d') ∧
    (symbols = [] → d' = default (mkScipDirectory ∅ true) d) ∧
    (symbols ≠ [] →
     pr_availability (health_probe project_dir (Some d')) = ScipReady revision ∧
     searched_index project_dir (Some d') = Ok (Some (emitted_index sha256 symbols, SCIP_GRAPH_PROJECTION_PROVENANCE))).
Proof.
  intros Hhex Hio Hk Hr Hf Hn Hc Hb Hlist Hsize symbols revision.
  unfold emit_scip_artifacts_from_store. rewrite (es_create_dir _ Hio), (es_open _ Hio).
  rewrite (scan_table nodes describe rows) by done. cbn [mbind option_bind]. fold symbols.
  subst revision. clearbody symbols. set (d0 := default _ d) in *. destruct symbols as [|x l].
  - exists d0. split; [done|]. split; [done|]. intros Hne. by destruct Hne.
  - set (symbols := x :: l). destruct (write_all io (emitted_index sha256 symbols) d0 Hio)
      as (d' & Hl' & Hw & Hs' & d1 & Hd1 & Hd').
    exists d'. rewrite Hd1, Hd'. split; [done|]. split; [done|]. intros Hne.
    destruct (emitted_searched project_dir symbols d' Hhex Hne Hw) as [Hsearch Hready]; [congruence|lia|by split].
Qed.
End EmitProofs.

(** ** Searches over the symbols *)
Definition number_candidate (h : CandidateHit) : Prop := f32_number (score h).
#[export] Instance anchor_cmp_laws : CmpLaws number_candidate anchor_cmp.
Proof.
  unfold number_candidate. repeat apply then_with_laws.
  - apply cmp_flip_laws, (cmp_on_laws f32_number score), _.
  - apply (cmp_laws_weaken (λ _, True)); [done|]. apply (cmp_on_laws (λ _, True)), _.
  - apply (cmp_laws_weaken (λ _, True)); [done|]. apply (cmp_on_laws (λ _, True)), option_cmp_laws, _.
  - apply (cmp_laws_weaken (λ _, True)); [done|]. apply (cmp_on_laws (λ _, True)), option_cmp_laws, _.
Qed.

Section SymbolSearch.
Context `{ScipJson}.

Lemma anchor_hit_number p label symbol h : anchor_hit p label symbol = Some h → number_candidate h.
Proof.
  unfold anchor_hit. destruct (symbol_matches_query symbol p); [|done]. intros [= <-].
  unfold number_candidate. cbn [symbol_to_hit score]. unfold score_symbol_match. apply f32_min_number. by vm_compute.
Qed.
Lemma visit_symbols_ok cancelled p label symbols : ∀ i found out,
  try_fold (visit_symbol cancelled p label) (i, found) symbols = Ok out →
  out = ((i + length symbols)%nat, found ++ omap (anchor_hit p label) symbols).
Proof.
  induction symbols as [|symbol symbols IH]; intros i found out.
  - intros [= <-]. by rewrite Nat.add_0_r, app_nil_r.
  - cbn [try_fold]. intros (st & (u & _ & [= <-])%bind_Ok & ->%IH)%bind_Ok. cbn [fst snd].
    f_equal; [cbn; lia|]. cbn [omap list_omap]. rewrite <- app_assoc. by destruct (anchor_hit p label symbol).
Qed.

(** An anchor search that answers has not been cancelled when it began or ended.  Without a
    fresh index its answer is empty; otherwise the hits are the best of the symbols that match
    the query, by score, path, name and line, at most as many as asked and in order; each is a
    symbol of the index with its label, and none that is left out ranks before one returned. *)
Theorem anchor_search_ranks cancelled project_dir d query limit hits :
  anchor_search_with_cancel cancelled project_dir d query limit = Ok hits → 0 ≤ limit →
  cancelled ScipStart = false ∧
  (searched_index project_dir d = Ok None ∧ hits = [] ∨
   ∃ index label rest, searched_index project_dir d = Ok (Some (index, label)) ∧ cancelled ScipEnd = false ∧
     omap (anchor_hit (query_profile query) label) (si_symbols index) ≡ₚ hits ++ rest ∧
     (len hits ≤ limit ∧ (rest ≠ [] → len hits = limit)) ∧
     sorted_by (cmp_leb anchor_cmp) hits ∧
     ∀ h left_out, h ∈ hits → left_out ∈ rest → cmp_leb anchor_cmp h left_out = true).
Proof.
  intros Hs Hlimit. unfold anchor_search_with_cancel in Hs. apply bind_Ok in Hs as (u & Hu & Hs). unfold scip_poll in Hu.
  destruct (cancelled ScipStart); [done|]. split; [done|]. apply bind_Ok in Hs as (searched & Hi & Hs). rewrite Hi.
  destruct searched as [[index label]|]; [|injection Hs as <-; by left]. right.
  apply bind_Ok in Hs as (out & Ho & (v & Hv & [= <-])%bind_Ok). apply visit_symbols_ok in Ho as ->. cbn [snd app].
  destruct (sorted_prefix number_candidate anchor_cmp limit (omap (anchor_hit (query_profile query) label) (si_symbols index)))
    as (rest & Hrest); [|done|].
  { apply Forall_forall. intros h (symbol & _ & Hh)%list_elem_of_omap. by eapply anchor_hit_number. }
  exists index, label, rest. split; [done|]. split; [|exact Hrest].
  unfold scip_poll in Hv. by destruct (cancelled ScipEnd).
Qed.

(** *** Expansion *)
Definition neighbors (label : str) (symbols : list ScipSymbolRecord) (anchor : CandidateHit) : list CandidateHit :=
  symbol_to_hit label (next_hop anchor) (f32_hundredths 65) <$> List.filter (is_neighbor anchor) symbols.
(** What an expansion is: the neighbours of the first four anchors, anchor by anchor. *)
Definition expansion (project_dir : str) (d : option ScipDirectory) (anchors : list CandidateHit) (limit : Z)
  : result str (list CandidateHit) :=
  searched ← searched_index project_dir d;
  Ok match searched with
     | None => []
     | Some (index, label) => take (Z.to_nat limit) (take 4 anchors ≫= neighbors label (si_symbols index))
     end.
Lemma take_take_app {A} n (l k : list A) : take n (take n l ++ k) = take n (l ++ k).
Proof.
  destruct (decide (n ≤ length l)%nat).
  - rewrite !take_app_le by (rewrite ?length_take; lia). by rewrite take_take, Nat.min_id.
  - by rewrite (take_ge l) by lia.
Qed.
Lemma expand_anchor_ok cancelled label limit a anchor symbols : 0 ≤ limit → ∀ i hits out, len hits ≤ limit →
  expand_anchor cancelled label limit a anchor i symbols hits = Ok out →
  out = take (Z.to_nat limit) (hits ++ neighbors label symbols anchor).
Proof.
  intros Hlimit. induction symbols as [|symbol symbols IH]; intros i hits out Hl; cbn [expand_anchor].
  - intros [= <-]. cbn. rewrite app_nil_r, take_ge; [done|]. unfold len in Hl. lia.
  - intros (u & _ & Hs)%bind_Ok. destruct (Z.leb_spec limit (len hits)) as [Hge|Hlt].
    + injection Hs as <-. unfold len in *. rewrite take_app_le, take_ge; [done|lia..].
    + apply IH in Hs; [|destruct (is_neighbor anchor symbol); [rewrite len_snoc|]; lia]. rewrite Hs.
      unfold neighbors. cbn [List.filter]. destruct (is_neighbor anchor symbol); [|done]. by rewrite <- app_assoc.
Qed.
Lemma expand_anchors_ok cancelled label limit anchors symbols : 0 ≤ limit → ∀ a hits out, len hits ≤ limit →
  expand_anchors cancelled label limit a anchors symbols hits = Ok out →
  out = take (Z.to_nat limit) (hits ++ (anchors ≫= neighbors label symbols)).
Proof.
  intros Hlimit. induction anchors as [|anchor anchors IH]; intros a hits out Hl; cbn [expand_anchors].
  - intros [= <-]. cbn. rewrite app_nil_r, take_ge; [done|]. unfold len in Hl. lia.
  - intros (mid & Hm & Ho)%bind_Ok. apply expand_anchor_ok in Hm as ->; [|done..].
    apply IH in Ho as ->; [|unfold len; rewrite length_take; lia]. cbn [mbind list_bind].
    by rewrite take_take_app, app_assoc.
Qed.
Lemma expand_runs label limit anchors symbols : ∀ a hits,
  is_ok (expand_anchors (λ _, false) label limit a anchors symbols hits) = true.
Proof.
  assert (∀ anchor a symbols i hits, ∃ out, expand_anchor (λ _, false) label limit a anchor i symbols hits = Ok out) as Hone.
  { intros anchor a l. induction l as [|symbol l IH]; intros i hits; cbn [expand_anchor]; [by eexists|].
    unfold poll_every_64, scip_poll. destruct (i mod 64 =? 0)%nat; cbn [mbind result_bind];
      (destruct (limit <=? len hits); [by eexists|apply IH]). }
  induction anchors as [|anchor anchors IH]; intros a hits; cbn [expand_anchors]; [done|].
  destruct (Hone anchor a symbols 0%nat hits) as [out ->]. apply IH.
Qed.

Lemma expansion_sound cancelled project_dir d anchors limit hits : 0 ≤ limit →
  expand_graph_with_cancel cancelled project_dir d anchors limit = Ok hits → expansion project_dir d anchors limit = Ok hits.
Proof.
  intros Hlimit Hs. unfold expand_graph_with_cancel in Hs. unfold expansion.
  apply bind_Ok in Hs as (u & _ & (searched & Hi & Hs)%bind_Ok). rewrite Hi. cbn [mbind result_bind].
  destruct searched as [[index label]|]; [|done]. apply bind_Ok in Hs as (out & Ho & (v & _ & Hs)%bind_Ok).
  apply expand_anchors_ok in Ho; [|done|by unfold len]. rewrite Ho in Hs. cbn [app] in Hs.
  by rewrite take_take, Nat.min_id in Hs.
Qed.

(** [C30] An expansion of the graph is exactly the neighbours of the first four anchors, anchor by
    anchor and in the order of the index, cut off at the limit: the other symbols of an anchor's
    file whose name contains the anchor's or is contained in it, one hop further.  Without
    cancellation it always answers so; a cancelled one answers so or fails. *)
Theorem expansion_exact cancelled project_dir d anchors limit : 0 ≤ limit →
  expand_graph_with_cancel (λ _, false) project_dir d anchors limit = expansion project_dir d anchors limit ∧
  ∀ hits, expand_graph_with_cancel cancelled project_dir d anchors limit = Ok hits →
    expansion project_dir d anchors limit = Ok hits.
Proof.
  intros Hlimit. split; [|intros hits; by apply expansion_sound].
  destruct (expand_graph_with_cancel (λ _, false) project_dir d anchors limit) as [hits|e] eqn:Hs;
    [symmetry; by eapply expansion_sound|].
  unfold expand_graph_with_cancel in Hs. unfold expansion. cbn [scip_poll mbind result_bind] in *.
  destruct (searched_index project_dir d) as [[[index label]|]|e'] eqn:Hi; [|done|by injection Hs as ->].
  cbn [mbind result_bind] in *. pose proof (expand_runs label limit (take 4 anchors) (si_symbols index) 0 []) as Hr.
  by destruct (expand_anchors (λ _, false) label limit 0 (take 4 anchors) (si_symbols index) []).
Qed.
End SymbolSearch.

(** ** The live sidecars *)
Section LiveProofs.
Context `{ScipJson} `{FtsEngine} `{UnicodeTables} `{CaseTables} `{CoverageJson} (sha256 : str → str).
Context (lexical_message : LexicalError → str) (shard : str → result LexicalError LexicalDatabase)
  (scip_directory : str → option ScipDirectory).
Context `{EmbeddingServer} (vector_message : VectorIndexError → str) (vectors : str → result VectorIndexError VectorDatabase).
Context (probe : RetrievalIndexManifest → ComponentHealth * ComponentHealth * ComponentHealth).

(** A candidate that is a document of a shard. *)
Definition of_shard (db : LexicalDatabase) (h : CandidateHit) : Prop :=
  ∃ r d, r ∈ db_documents db ∧ read_document r = Ok d ∧
    file_path h = ld_path d ∧ symbol_name h = ld_symbol_name d ∧ node_id h = ld_node_id d ∧
    start_line h = ld_start_line d ∧ source h = CandidateSource.Lexical ∧ provenance h = [source_label (ld_source d)].
(** A candidate that is a symbol of the index of a directory. *)
Definition of_index (project_dir : str) (h : CandidateHit) : Prop :=
  ∃ index label symbol hop, searched_index project_dir (scip_directory project_dir) = Ok (Some (index, label)) ∧
    symbol ∈ si_symbols index ∧ h = symbol_to_hit label hop (score h) symbol.

(** [C12] What the executor gets from the live sidecars is grounded in the generation of the
    manifest, and no search returns more candidates than it was asked for.  Every lexical
    candidate is a document of the shard of the generation with the label of its kind.  Semantic
    candidates, if any, are rows of the vector database at the path of the manifest's vector
    generation, which carries the generation and the input hash of the manifest and the
    dimension of the query's vector, and they are its best rows by cosine similarity to that
    vector, in order.  Every anchor and every neighbour is a symbol of the fresh index. *)
Theorem live_candidates_grounded layout project_id manifest query anchors limit : 0 ≤ limit →
  let live := new_live layout project_id manifest in
  let sidecars := live_sidecars sha256 lexical_message shard scip_directory vector_message vectors probe live in
  let generation := ls_sidecar_generation live in
  (∀ hits, lexical_search (SidecarSearch := sidecars) query limit = Ok hits → len hits ≤ limit ∧
     ∀ h, h ∈ hits → ∃ db, shard (shard_dir_for (lexical_data_dir layout) generation) = Ok db ∧ of_shard db h) ∧
  (∀ hits, semantic_search (SidecarSearch := sidecars) query limit = Ok hits → len hits ≤ limit ∧
     (hits = [] ∨ ∃ db metadata others vector, vectors (vi_path (ls_semantic live)) = Ok db ∧
        vd_metadata db = Ok (metadata :: others) ∧ dm_generation metadata = generation ∧
        dm_input_hash metadata = ls_sidecar_input_hash live ∧
        embed_query query = Ok vector ∧ dm_embedding_dim metadata = len vector ∧
        best_rows db vector limit hits ∧ ∀ h, h ∈ hits → of_vectors db h)) ∧
  (∀ hits, scip_anchor (SidecarSearch := sidecars) query limit = Ok hits → len hits ≤ limit ∧
     ∀ h, h ∈ hits → of_index (scip_project_dir layout generation) h) ∧
  (∀ hits, scip_expand (SidecarSearch := sidecars) anchors limit = Ok hits → len hits ≤ limit ∧
     ∀ h, h ∈ hits → of_index (scip_project_dir layout generation) h).
Proof.
  intros Hlimit live sidecars generation. split_and!.
  - intros hits Hs. cbn [sidecars live_sidecars lexical_search] in Hs. unfold live_lexical_search, search_with_cancel in Hs.
    destruct (search_lexical_index_with_cancel _ _ _ _ _ _ _) as [found|e] eqn:Hf in Hs; [|done]. injection Hs as <-.
    apply search_hits_stored in Hf as [Hl Hh]; [|done]. split; [unfold len in *; by rewrite length_fmap|].
    intros h (hit & -> & Hhit)%list_elem_of_fmap. destruct (Hh hit Hhit) as (db & r & d & Hdb & Hr & Hd & Hp & Ho & Hn & Hy & Hst).
    exists db. split; [exact Hdb|]. exists r, d. cbn. rewrite Hp, Ho, Hn, Hy, Hst. by split_and!.
  - intros hits Hs. cbn [sidecars live_sidecars semantic_search] in Hs. unfold live_semantic_search in Hs.
    destruct (vector_search _ _ _ _) as [found|e] eqn:Hf in Hs; [|done]. injection Hs as ->.
    apply bind_Ok in Hf as (vector & Hv & Hf).
    apply search_database_exact in Hf as [[-> ->]|(db & m & others & Hdb & Hm & Hg & Hi & Hd & Hbest)]; [..|done].
    + split; [done|by left].
    + split; [exact (best_rows_limit _ _ _ _ Hbest)|]. right. exists db, m, others, vector. split_and!; [done..|].
      intros h. exact (best_rows_stored _ _ _ _ h Hbest).
  - intros hits Hs. cbn [sidecars live_sidecars scip_anchor] in Hs. unfold live_scip_anchor in Hs.
    apply anchor_search_ranks in Hs as (_ & [[_ ->] | (index & label & rest & Hi & _ & Hp & [Hl _] & _)]); [| |done].
    + split; [by unfold len|]. by intros h ?%not_elem_of_nil.
    + split; [done|]. intros h Hh. assert (h ∈ hits ++ rest) as Hin by (apply elem_of_app; by left).
      rewrite <- Hp in Hin. apply list_elem_of_omap in Hin as (symbol & Hsymbol & Hhit). unfold anchor_hit in Hhit.
      destruct (symbol_matches_query _ _); [|done]. injection Hhit as <-. by exists index, label, symbol, 0.
  - intros hits Hs. cbn [sidecars live_sidecars scip_expand] in Hs. unfold live_scip_expand in Hs.
    apply expansion_sound in Hs; [|done]. unfold expansion in Hs. apply bind_Ok in Hs as (searched & Hi & [= <-]).
    destruct searched as [[index label]|]; [|split; [by unfold len|]; by intros h ?%not_elem_of_nil].
    split; [unfold len; rewrite length_take; lia|].
    intros h (i & Hin%list_elem_of_lookup_2 & _)%elem_of_take. apply list_elem_of_bind in Hin as (anchor & Hh & _).
    unfold neighbors in Hh. apply list_elem_of_fmap in Hh as (symbol & -> & Hsymbol%list_elem_of_In).
    apply filter_In in Hsymbol as [Hsymbol%list_elem_of_In _]. by exists index, label, symbol, (next_hop anchor).
Qed.
End LiveProofs.

(** ** Revisions *)
(** A symbol moved from lib.c to lib.cc under another name keeps the revision, whatever the hash
    function: the path and the name are hashed one behind the other with nothing between. *)
Theorem revision_ambiguous sha256 :
  scip_revision_for_symbols sha256 [mkSymbolRecord (Some (lit "7")) (lit "lib.c") (lit "cc_init") 1 4] =
  scip_revision_for_symbols sha256 [mkSymbolRecord (Some (lit "7")) (lit "lib.cc") (lit "c_init") 1 4].
Proof. reflexivity. Qed.

(** ** Witnesses *)
Module ClientSample.
Definition symbol_tuple (s : ScipSymbolRecord) := (sr_node_id s, sr_path s, sr_symbol s, sr_start_line s, sr_end_line s).
Definition symbol_of (t : option str * str * str * Z * Z) : ScipSymbolRecord :=
  let '(n, p, s, a, b) := t in mkSymbolRecord n p s a b.
Definition contract_tuple (c : ScipProofAdapterContract) :=
  (ct_evidence_source c, ct_producer c, ct_producer_version c, ct_producer_args c, ct_producer_config c, ct_revision c,
   (pk_manager (ct_package c), pk_name (ct_package c), pk_version (ct_package c)), ct_position_encoding c, ct_freshness c).
Definition contract_of (t : str * str * str * list str * str * str * (str * str * option str) * str * str)
  : ScipProofAdapterContract :=
  let '(e, p, v, a, c, r, (m, n, k), q, f) := t in mkContract e p v a c r (mkPackage m n k) q f.
Definition proof_tuple (p : ScipProofRecord) :=
  (pf_role p, pf_path p, pf_symbol p, pf_start_line p, pf_start_character_utf16 p, pf_end_line p,
   pf_end_character_utf16 p, pf_target_symbol p).
Definition proof_of (t : str * str * str * Z * Z * Z * Z * option str) : ScipProofRecord :=
  let '(r, p, s, a, b, c, d, t) := t in mkProof r p s a b c d t.
Definition index_tuple (i : ScipSymbolsIndex) :=
  (si_revision i, contract_tuple (si_contract i), symbol_tuple <$> si_symbols i, proof_tuple <$> si_proofs i).
Definition index_of (t : str * (str * str * str * list str * str * str * (str * str * option str) * str * str)
    * list (option str * str * str * Z * Z) * list (str * str * str * Z * Z * Z * Z * option str)) : ScipSymbolsIndex :=
  let '(r, c, s, p) := t in mkScipIndex r (contract_of c) (symbol_of <$> s) (proof_of <$> p).
Lemma index_of_tuple i : index_of (index_tuple i) = i.
Proof.
  destruct i as [r c s p]. cbn. rewrite <- !list_fmap_compose. f_equal.
  - by destruct c as [? ? ? ? ? ? [] ? ?].
  - rewrite <- (list_fmap_id s) at 2. apply list_fmap_ext. by intros ? [].
  - rewrite <- (list_fmap_id p) at 2. apply list_fmap_ext. by intros ? [].
Qed.
Definition stop : ascii := "."%char.
Definition read_digits (text : str) : result str ScipSymbolsIndex :=
  match reverse text with
  | c :: rest =>
      if Ascii.eqb c stop then
        match decode (undigits (reverse rest)) with Some t => Ok (index_of t) | None => Err (lit "digits") end
      else Err (lit "end")
  | [] => Err (lit "end")
  end.
#[export] Instance json : ScipJson := {|
  index_to_json i := digits (encode (index_tuple i)) ++ [stop];
  index_from_json := read_digits |}.
Lemma scip_json_read i : index_from_json (index_to_json i) = Ok i.
Proof.
  cbn. unfold read_digits. rewrite reverse_snoc. cbn. rewrite reverse_involutive, undigits_digits.
  rewrite decode_encode. by rewrite index_of_tuple.
Qed.
Lemma digits_no_stop p : stop ∉ digits p.
Proof. induction p as [p IH|p IH|]; cbn; rewrite ?not_elem_of_cons; [by split|by split|by intros ?%not_elem_of_nil]. Qed.
Lemma json_cut i n : (n < length (index_to_json i))%nat → is_ok (index_from_json (take n (index_to_json i))) = false.
Proof.
  cbn [index_to_json index_from_json json]. rewrite length_app. cbn [length]. intros Hn. rewrite take_app_le by lia.
  pose proof (digits_no_stop (encode (index_tuple i))) as Hs. unfold read_digits.
  destruct (reverse (take n (digits (encode (index_tuple i))))) as [|c rest] eqn:E; [done|].
  destruct (Ascii.eqb_spec c stop) as [->|]; [|done]. exfalso. apply Hs.
  assert (stop ∈ take n (digits (encode (index_tuple i)))) as Hin
    by (apply elem_of_reverse; rewrite E; by left).
  by apply elem_of_take in Hin as (k & Hk%list_elem_of_lookup_2 & _).
Qed.
Definition sha (message : str) : str := replicate 64 "a"%char.
Lemma sha_hex message : hex_digest (sha message).
Proof. split; vm_compute; reflexivity. Qed.
(** A file, a function and a method in it, and a node of no known kind. *)
Definition nodes : list NodeTableRow :=
  [mkNodeTableRow 1 (node_kind_as_i32 NodeKind.FILE) (lit "a.rs") None None None None;
   mkNodeTableRow 2 (node_kind_as_i32 NodeKind.FUNCTION) (lit "run") None (Some 1) (Some 3) (Some 5);
   mkNodeTableRow 3 (node_kind_as_i32 NodeKind.UNKNOWN) (lit "x") None (Some 1) None None;
   mkNodeTableRow 4 (node_kind_as_i32 NodeKind.METHOD) (lit "m") (Some (lit "run::m")) (Some 1) (Some 4) None].
Definition rows : list SearchSymbolProjectionDetail := default [] (result_ok (collect_rows (detail_from_row nodes) nodes)).
Definition describe (e : StoreError) : str := lit "store".
Definition io (revision : WriteOutcome) : EmitIo :=
  mkEmitIo (Ok tt) (Ok tt) (Ok (get_canonical_search_symbol_count nodes)) (table_pages nodes describe) Wrote revision Wrote true.
Lemma io_ok : emit_succeeds (io Wrote).
Proof. by split. Qed.
Definition symbols : list ScipSymbolRecord := omap symbol_record rows.
Definition index : ScipSymbolsIndex := emitted_index sha symbols.
Definition written : option (result str (option str) * option ScipDirectory) :=
  emit_scip_artifacts_from_store sha 5 (io Wrote) None.
Definition directory : option ScipDirectory := default None (snd <$> written).
Definition project_dir : str := lit "/s/g".
Definition anchor : CandidateHit := symbol_to_hit SCIP_GRAPH_PROJECTION_PROVENANCE 0 f32_one (default (mkSymbolRecord None [] [] 0 0) (head symbols)).
End ClientSample.
#[local] Existing Instance ClientSample.json.

Lemma emission_read_back_witness :
  ∃ d', ClientSample.written = Some (Ok (Some (si_revision ClientSample.index)), Some d') ∧
    searched_index ClientSample.project_dir (Some d') = Ok (Some (ClientSample.index, SCIP_GRAPH_PROJECTION_PROVENANCE)).
Proof.
  destruct (emission_read_back ClientSample.sha ClientSample.scip_json_read ClientSample.nodes ClientSample.describe ClientSample.rows
    (ClientSample.io Wrote) 5 None ClientSample.project_dir) as (d' & He & _ & Hs).
  - exact ClientSample.sha_hex.
  - exact ClientSample.io_ok.
  - repeat constructor.
  - vm_compute. reflexivity.
  - apply Nat.ltb_lt. vm_compute. reflexivity.
  - vm_compute. discriminate.
  - reflexivity.
  - reflexivity.
  - reflexivity.
  - apply Nat.leb_le. reflexivity.
  - exists d'. split; [exact He|]. apply Hs. vm_compute. discriminate.
Defined.

Lemma sample_written : ClientSample.written = Some (Ok (Some (si_revision ClientSample.index)), ClientSample.directory).
Proof.
  assert (fst <$> ClientSample.written = Some (Ok (Some (si_revision ClientSample.index)))) as H by (vm_compute; reflexivity).
  unfold ClientSample.directory. destruct ClientSample.written as [[r d]|]; [|discriminate]. injection H as ->. reflexivity.
Qed.
Lemma sample_searched : searched_index ClientSample.project_dir ClientSample.directory =
  Ok (Some (ClientSample.index, SCIP_GRAPH_PROJECTION_PROVENANCE)).
Proof. vm_compute. reflexivity. Qed.
Lemma emission_serves_old_or_new_witness :
  is_fresh_for ClientSample.index (si_revision ClientSample.index) = true ∧
  ∃ symbols, scan_canonical_symbols 5 (ClientSample.io Wrote) = Some (Ok symbols) ∧
    ClientSample.index = emitted_index ClientSample.sha symbols.
Proof.
  destruct (emission_serves_old_or_new ClientSample.sha ClientSample.scip_json_read ClientSample.json_cut 5 (ClientSample.io Wrote)
    None (Ok (Some (si_revision ClientSample.index))) ClientSample.directory ClientSample.project_dir ClientSample.index
    SCIP_GRAPH_PROJECTION_PROVENANCE sample_written sample_searched)
    as ((_ & _ & _ & _ & Hf) & [[_ Hold] | (symbols & Hs & _ & Hi)]).
  - exfalso. exact (Hold _ eq_refl).
  - split; [exact Hf|]. exists symbols. split; [exact Hs|exact Hi].
Defined.

Lemma expansion_exact_witness :
  ∃ hits, expand_graph_with_cancel (λ _, false) ClientSample.project_dir ClientSample.directory [ClientSample.anchor] 3 = Ok hits ∧
    (symbol_name <$> hits) = [Some (lit "run::m")].
Proof.
  destruct (expansion_exact (λ _, false) ClientSample.project_dir ClientSample.directory [ClientSample.anchor] 3) as [H _];
    [discriminate|].
  rewrite H. eexists. split; vm_compute; reflexivity.
Defined.

#[local] Existing Instances LexicalSample.json LexicalSample.tables LexicalSample.cases LexicalSample.engine.
Definition sample_shard : result LexicalError LexicalDatabase :=
  match LexicalSample.built with
  | Some (_, d) => match sd_index d with Some (db, _) => Ok db | None => Err (Lexical []) end
  | None => Err (Lexical [])
  end.
Definition sample_manifest : RetrievalIndexManifest :=
  mkRetrievalIndexManifest (lit "p") [] (lit "codestory_g") None 0 None [] None None None (Some (lit "input")) (Some (lit "g")) None None None
    None None None None None None None.
Definition sample_layout : SidecarLayout := mkLayout (lit "/l") (lit "/v") (lit "/s") (lit "/state").
Definition sample_health : ComponentHealth :=
  mkComponentHealth [] ComponentStatus.Healthy None [] None {| cap_lexical := true; cap_semantic := true; cap_graph := true |}.
#[local] Existing Instance VectorSample.server.
(** The vector databases by their paths. *)
Definition sample_vectors (path : str) : result VectorIndexError VectorDatabase :=
  if str_eqb path (lit "/v/collections/codestory_g/vectors.sqlite3") then VectorSample.database
  else Err (VectorIndexError.Io (lit "unable to open database file")).
Definition sample_live : SidecarSearch :=
  live_sidecars LexicalSample.sha (λ _, []) (λ _, sample_shard) (λ _, ClientSample.directory) (λ _, []) sample_vectors
    (λ _, (sample_health, sample_health, sample_health)) (new_live sample_layout (lit "p") (Some sample_manifest)).
Definition sample_lexical : result str (list CandidateHit) := lexical_search (SidecarSearch := sample_live) (lit "a.rs") 5.
Definition sample_semantic : result str (list CandidateHit) := semantic_search (SidecarSearch := sample_live) (lit "a.rs") 2.
Lemma sample_lexical_len : len <$> result_ok sample_lexical = Some 3.
Proof. vm_compute. reflexivity. Qed.
Lemma sample_semantic_ids : option_map (fmap node_id) (result_ok sample_semantic) = Some [Some (lit "2"); Some (lit "1")].
Proof. vm_compute. reflexivity. Qed.
Lemma live_candidates_grounded_witness :
  (∃ lexical, sample_lexical = Ok lexical ∧ len lexical = 3 ∧
    ∀ h, h ∈ lexical → ∃ db, sample_shard = Ok db ∧ of_shard db h) ∧
  (∃ semantic, sample_semantic = Ok semantic ∧ (node_id <$> semantic) = [Some (lit "2"); Some (lit "1")] ∧
    ∀ h, h ∈ semantic → ∃ db, VectorSample.database = Ok db ∧ of_vectors db h).
Proof.
  pose proof (λ limit H, live_candidates_grounded LexicalSample.sha (λ _, []) (λ _, sample_shard)
    (λ _, ClientSample.directory) (λ _, []) sample_vectors (λ _, (sample_health, sample_health, sample_health))
    sample_layout (lit "p") (Some sample_manifest) (lit "a.rs") [] limit H) as Hlive.
  split.
  - pose proof sample_lexical_len as Hl. destruct sample_lexical as [lexical|e] eqn:El; [|discriminate].
    exists lexical. split; [reflexivity|]. split; [injection Hl as Hl; exact Hl|].
    unfold sample_lexical, sample_live in El. destruct (Hlive 5) as [H _]; [discriminate|].
    intros h Hh. destruct (H lexical El) as [_ Hg]. exact (Hg h Hh).
  - pose proof sample_semantic_ids as Hs. destruct sample_semantic as [semantic|e] eqn:Es; [|discriminate].
    injection Hs as Hs. exists semantic. split; [reflexivity|]. split; [exact Hs|].
    unfold sample_semantic, sample_live in Es. destruct (Hlive 2) as (_ & H & _); [discriminate|].
    destruct (H semantic Es) as [_ [->|(db & m & others & vector & Hdb & _ & _ & _ & _ & _ & _ & Hg)]]; [discriminate Hs|].
    intros h Hh. exists db. split; [exact Hdb|exact (Hg h Hh)].
Defined.
