(* ===== verification/RetentionLocks.v ===== *)
(** * Retention locks

    The lock protocol between the query sessions (query.rs and the lease of retention.rs),
    publication (index.rs) and cleanup (inventory.rs).  A session is the sequence of its
    lock operations and of the steps that matter between them; the sessions of all
    processes run interleaved over one table of file locks, and a session that fails at any
    point drops the locks it holds.  The locks of one session are on distinct open files, so
    the system grants a lock when no other session holds it in a mode that conflicts. *)
From S2P Require Import Prelude RustStr RetrievalData Sorting StrOps UnixPath Collections WorkspacePaths.
From S2P Require Import Retention.

(** ** Lock files *)
Variant SidecarProfile : Type := Local | Agent.
Definition GLOBAL_GENERATION_GC_LOCK_SCOPE : str := lit "global_generation_gc".
Definition global_generation_gc_state_file (profile : SidecarProfile) (state_file : str) : str :=
  let base : option str := match profile with
              | Local => path_parent state_file
              | Agent => dir ← path_parent state_file; dir ← path_parent dir; path_parent dir
              end in
  path_join (default (lit ".") base) (lit "generation-retention-coordination.state").

(** Where a project's generations are: the profile, the state file of its layout and its
    identifier. *)
Record Place : Type := mkPlace {
  pl_profile : SidecarProfile;
  pl_state_file : str;
  pl_project : str;
}.
Definition global_lock (p : Place) : result str str :=
  retention_lock_path (global_generation_gc_state_file (pl_profile p) (pl_state_file p))
    GLOBAL_GENERATION_GC_LOCK_SCOPE.
Definition project_lock (p : Place) : result str str := retention_lock_path (pl_state_file p) (pl_project p).

(** ** Sessions *)
Variant LockMode : Type := Shared | Exclusive.
#[export] Instance LockMode_eq_dec : EqDecision LockMode.
Proof. solve_decision. Defined.
Definition compatible (m1 m2 : LockMode) : bool :=
  match m1, m2 with Shared, Shared => true | _, _ => false end.

(** What a session does to the generations behind a project lock. *)
Variant Action : Type :=
  | Pin                                        (* read the published manifest *)
  | Search                                     (* read the pinned generation *)
  | Build (generation : str)                   (* write its artifacts *)
  | Publish (generation : str) (rollback : option str)
  | Prune                                      (* plan and apply retention *)
  | Report.                                    (* plan only *)
Variant Instr : Type :=
  | Acquire (lock : str) (mode : LockMode)
  | TryAcquireShared (lock : str)
  | Do (lock : str) (action : Action)
  | Release (lock : str).

(** [acquire_for_query] and the drop of the lease: its fields in their order. *)
Definition query_session (p : Place) (searches : nat) : result str (list Instr) :=
  global ← global_lock p; project ← project_lock p;
  Ok ([Acquire global Shared; Acquire project Shared; Do project Pin]
      ++ replicate searches (Do project Search) ++ [Release global; Release project]).
(** [finalize_index_for_runtime_with_progress_and_cancel]: locals drop in reverse order. *)
Definition finalize_session (p : Place) (generation : str) (rollback : option str) : result str (list Instr) :=
  global ← global_lock p; project ← project_lock p;
  Ok [Acquire global Shared; Acquire project Exclusive; Do project (Build generation);
      Do project (Publish generation rollback); Do project Prune; Release project; Release global].
(** [sidecar_gc_apply_with_storage] *)
Definition cleanup_session (p : Place) : result str (list Instr) :=
  global ← global_lock p; project ← project_lock p;
  Ok [Acquire global Exclusive; Acquire project Exclusive; Do project Prune; Release project; Release global].
(** [sidecar_inventory_with_storage] *)
Definition inventory_session (p : Place) : result str (list Instr) :=
  project ← project_lock p;
  Ok [TryAcquireShared project; Do project Report; Release project].

Variant Job : Type :=
  | Query (p : Place) (searches : nat)
  | Finalize (p : Place) (generation : str) (rollback : option str)
  | Cleanup (p : Place)
  | Inventory (p : Place).
Definition job_place (j : Job) : Place :=
  match j with Query p _ | Finalize p _ _ | Cleanup p | Inventory p => p end.
Definition job_code (j : Job) : result str (list Instr) :=
  match j with
  | Query p searches => query_session p searches
  | Finalize p generation rollback => finalize_session p generation rollback
  | Cleanup p => cleanup_session p
  | Inventory p => inventory_session p
  end.

(** ** Running *)
Record Session : Type := mkSession {
  code : list Instr;
  held : list (str * LockMode);
  pinned : option (str * str);
}.
(** A session that cannot name its lock files does nothing. *)
Definition spawn (j : Job) : Session :=
  mkSession (match job_code j with Ok c => c | Err _ => [] end) [] None.
(** The generations behind each project lock: published, kept as rollback, and on disk. *)
Record Disk : Type := mkDisk {
  active : gmap str str;
  rollback : gmap str str;
  on_disk : gset (str * str);
}.
Record World : Type := mkWorld { disk : Disk; sessions : list Session }.

Definition free (others : list Session) (lock : str) (mode : LockMode) : bool :=
  forallb (λ s, forallb (λ h, negb (str_eqb h.1 lock) || compatible h.2 mode) (held s)) others.
Definition release (lock : str) (s : list (str * LockMode)) : list (str * LockMode) :=
  List.filter (λ h, negb (str_eqb h.1 lock)) s.
(** What [Prune] leaves: everything when nothing is published. *)
Definition prune (lock : str) (d : Disk) : Disk :=
  match active d !! lock with
  | None => d
  | Some generation =>
      mkDisk (active d) (rollback d)
        (filter (λ e, e.1 ≠ lock ∨ e.2 = generation ∨ rollback d !! lock = Some e.2) (on_disk d))
  end.
(** What a step between the lock operations does to the generations; [None] where it returns
    an error.  This is the abstract view the protocol needs, not the text of the steps:
    publication as a replacement of the two pointers is what [promote_retrieval_manifest_with_cancel]
    of [RetrievalPublication] does, and [prune] removes everything the retention plan of
    [Retention] could remove at most, since the plan protects the published generation and
    its rollback. *)
Definition perform (lock : str) (a : Action) (d : Disk) (pin : option (str * str))
  : option (Disk * option (str * str)) :=
  match a with
  | Pin => generation ← active d !! lock;
           if decide ((lock, generation) ∈ on_disk d) then Some (d, Some (lock, generation)) else None
  | Search => if decide (option_test (λ e, bool_decide (e ∈ on_disk d)) pin = true) then Some (d, pin) else None
  | Build generation => Some (mkDisk (active d) (rollback d) ({[(lock, generation)]} ∪ on_disk d), pin)
  | Publish generation back =>
      if decide ((lock, generation) ∈ on_disk d)
      then Some (mkDisk (<[lock := generation]> (active d))
                   (match back with Some g => <[lock := g]> (rollback d) | None => delete lock (rollback d) end)
                   (on_disk d), pin)
      else None
  | Prune => Some (prune lock d, pin)
  | Report => Some (d, pin)
  end.
(** The early return of a failing session: its guards drop. *)
Definition quit (s : Session) : Session :=
  mkSession (Release ∘ fst <$> held s) (held s) None.
Definition run_instr (others : list Session) (d : Disk) (s : Session) : option (Disk * Session) :=
  match code s with
  | [] => None
  | Acquire lock mode :: rest =>
      if free others lock mode then Some (d, mkSession rest ((lock, mode) :: held s) (pinned s)) else None
  | TryAcquireShared lock :: rest =>
      Some (d, mkSession rest (if free others lock Shared then (lock, Shared) :: held s else held s) (pinned s))
  | Do lock a :: rest =>
      Some match perform lock a d (pinned s) with
           | Some (d, pin) => (d, mkSession rest (held s) pin)
           | None => (d, quit s)
           end
  | Release lock :: rest =>
      Some (d, mkSession rest (release lock (held s))
                 (if decide (fst <$> pinned s = Some lock) then None else pinned s))
  end.
Definition others (i : nat) (l : list Session) : list Session := take i l ++ drop (Datatypes.S i) l.
Definition run_at (i : nat) (w : World) : option World :=
  s ← sessions w !! i;
  r ← run_instr (others i (sessions w)) (disk w) s;
  Some (mkWorld r.1 (<[i := r.2]> (sessions w))).
(** An operation of the session other than a release fails: the lock file does not open, a
    step returns an error or is cancelled. *)
Definition fail_at (i : nat) (w : World) : option World :=
  s ← sessions w !! i;
  match code s with
  | [] | Release _ :: _ => None
  | _ => Some (mkWorld (disk w) (<[i := quit s]> (sessions w)))
  end.
Definition runs (w w' : World) : Prop := ∃ i, run_at i w = Some w'.
Inductive lock_step (w w' : World) : Prop :=
  | StepRun : runs w w' → lock_step w w'
  | StepFail i : fail_at i w = Some w' → lock_step w w'.
Definition finished (w : World) : Prop := Forall (λ s, code s = []) (sessions w).

(** ** Lock paths *)
Lemma path_join_file dir name : is_absolute name = false → ∃ prefix, path_join dir name = prefix ++ name ∧
  (prefix = [] ∨ last prefix = Some slash).
Proof.
  intros Hn. unfold path_join. rewrite Hn. destruct (last dir) as [c|] eqn:El.
  - unfold is_slash. destruct (Ascii.eqb c slash) eqn:Ec.
    + apply Ascii.eqb_eq in Ec as ->. exists dir. by auto.
    + exists (dir ++ [slash]). rewrite <- app_assoc, last_snoc. by auto.
  - exists []. by auto.
Qed.
Lemma ends_in_slash (p k : str) : p ++ k = [] ∨ last (p ++ k) = Some slash → k = [] ∨ slash ∈ k.
Proof.
  intros [H | H]; [left; by apply app_eq_nil in H as [_ ->]|]. rewrite last_app in H.
  destruct (last k) as [c|] eqn:El; [|left; by apply last_None in El].
  right. injection H as ->. by apply last_Some_elem_of.
Qed.
Lemma tail_after_slash (p1 p2 n1 n2 : str) :
  (p1 = [] ∨ last p1 = Some slash) → (p2 = [] ∨ last p2 = Some slash) → slash ∉ n1 → slash ∉ n2 →
  p1 ++ n1 = p2 ++ n2 → n1 = n2.
Proof.
  intros H1 H2 N1 N2 E.  apply app_eq_inv in E as [(k & -> & ->) | (k & -> & ->)].
  - apply ends_in_slash in H1 as [-> | H1]; [done|]. destruct N2. apply elem_of_app. by left.
  - apply ends_in_slash in H2 as [-> | H2]; [done|]. destruct N1. apply elem_of_app. by left.
Qed.
Lemma component_no_slash c : validate_retention_component c = Ok tt → slash ∉ c ++ lit ".lock".
Proof.
  unfold validate_retention_component. case_bool_decide; [done|]. destruct (forallb _ c) eqn:E; [|done]. intros _ Hin.
  apply elem_of_app in Hin as [Hin | Hin]; [|by apply (bool_decide_eq_true_2 _) in Hin].
  rewrite forallb_forall in E. apply list_elem_of_In, E in Hin. done.
Qed.
(** The last component of a lock path is the name of its scope. *)
Lemma lock_path_scope f1 f2 c1 c2 path : retention_lock_path f1 c1 = Ok path → retention_lock_path f2 c2 = Ok path →
  c1 = c2.
Proof.
  unfold retention_lock_path. destruct (validate_retention_component c1) as [[]|] eqn:V1; [|done].
  destruct (validate_retention_component c2) as [[]|] eqn:V2; [|done]. cbn [mbind result_bind]. intros [= E1] [= E2].
  apply component_no_slash in V1, V2.
  assert (∀ s : str, slash ∉ s → is_absolute s = false) as Habs by (intros; by apply text_not_absolute).
  destruct (path_join_file (retention_dir f1) _ (Habs _ V1)) as (p1 & J1 & H1).
  destruct (path_join_file (retention_dir f2) _ (Habs _ V2)) as (p2 & J2 & H2).
  apply (app_inv_tail (lit ".lock")). apply (tail_after_slash p1 p2); [done..|].
  exact (eq_trans (eq_sym J1) (eq_trans (eq_trans E1 (eq_sym E2)) J2)).
Qed.
Lemma lock_roles p q path : global_lock p = Ok path → project_lock q = Ok path →
  pl_project q = GLOBAL_GENERATION_GC_LOCK_SCOPE.
Proof. intros H1 H2. symmetry. by eapply lock_path_scope. Qed.

(** ** Discipline *)
(** Locks are acquired in the order of their rank, generations change under an exclusive
    lock and are read under a shared one, and nothing is held at the end. *)
Definition allowed (held : list (str * LockMode)) (lock : str) (a : Action) : Prop :=
  match a with
  | Pin | Search => (lock, Shared) ∈ held
  | Build _ | Publish _ _ | Prune => (lock, Exclusive) ∈ held
  | Report => True
  end.
Section Discipline.
Context (rank : str → nat).

Fixpoint disciplined (held : list (str * LockMode)) (code : list Instr) : Prop :=
  match code with
  | [] => held = []
  | Acquire lock mode :: rest =>
      Forall (λ h, (rank h.1 < rank lock)%nat) held ∧ disciplined ((lock, mode) :: held) rest
  | TryAcquireShared lock :: rest =>
      lock ∉ held.*1 ∧ disciplined ((lock, Shared) :: held) rest ∧ disciplined held rest
  | Do lock a :: rest => allowed held lock a ∧ disciplined held rest
  | Release lock :: rest => disciplined (release lock held) rest
  end.
Record session_ok (s : Session) : Prop := {
  sk_code : disciplined (held s) (code s);
  sk_held : NoDup (held s).*1;
  sk_pinned : ∀ e, pinned s = Some e → (e.1, Shared) ∈ held s;
}.
Definition exclusion (l : list Session) : Prop := ∀ i j s s' lock m m', i ≠ j → l !! i = Some s → l !! j = Some s' →
  (lock, m) ∈ held s → (lock, m') ∈ held s' → compatible m m' = true.
Record world_ok (w : World) : Prop := {
  wk_sessions : ∀ i s, sessions w !! i = Some s → session_ok s;
  wk_exclusion : exclusion (sessions w);
  wk_active : ∀ lock g, active (disk w) !! lock = Some g → (lock, g) ∈ on_disk (disk w);
  wk_pinned : ∀ i s e, sessions w !! i = Some s → pinned s = Some e → active (disk w) !! e.1 = Some e.2;
}.

Lemma others_elem i (l : list Session) s : s ∈ others i l ↔ ∃ j, j ≠ i ∧ l !! j = Some s.
Proof.
  unfold others. rewrite elem_of_app, elem_of_take, list_elem_of_lookup. split.
  - intros [(j & H & Hj) | (j & H)]; [exists j; split; [lia|done]|].
    rewrite lookup_drop in H. exists (Datatypes.S i + j)%nat. split; [lia|done].
  - intros (j & Hne & H). destruct (decide (j < i)%nat); [left; by exists j|right].
    exists (j - Datatypes.S i)%nat. rewrite lookup_drop. by replace (Datatypes.S i + _)%nat with j by lia.
Qed.
Lemma free_true others lock m : free others lock m = true ↔
  ∀ s m', s ∈ others → (lock, m') ∈ held s → compatible m' m = true.
Proof.
  unfold free. rewrite forallb_forall. setoid_rewrite forallb_forall. split.
  - intros H s m' Hs%list_elem_of_In Hh%list_elem_of_In. specialize (H s Hs _ Hh). cbn in H.
    by rewrite str_eqb_refl in H.
  - intros H s Hs%list_elem_of_In [x m'] Hh%list_elem_of_In. cbn. destruct (str_eqb x lock) eqn:E; [|done].
    apply str_eqb_eq in E as ->. by apply (H s).
Qed.
Lemma free_false others lock m : free others lock m = false →
  ∃ s m', s ∈ others ∧ (lock, m') ∈ held s ∧ compatible m' m = false.
Proof.
  unfold free. induction others as [|s others IH]; [done|]. cbn [forallb]. intros [H | H]%andb_false_iff.
  - assert (∃ m', (lock, m') ∈ held s ∧ compatible m' m = false) as (m' & ? & ?); [|exists s, m'; split_and!; [left|done..]].
    induction (held s) as [|[x m'] h IHh]; [done|]. cbn [forallb fst snd] in H. apply andb_false_iff in H as [H | H].
    + destruct (str_eqb x lock) eqn:E; [|done]. apply str_eqb_eq in E as ->. exists m'. split; [left|done].
    + destruct (IHh H) as (m2 & ? & ?). exists m2. split; [by right|done].
  - destruct (IH H) as (s' & m' & ? & ? & ?). exists s', m'. split; [by right|done].
Qed.
Lemma compatible_sym m m' : compatible m m' = compatible m' m.
Proof. by destruct m, m'. Qed.

Lemma release_elem lock s h : h ∈ release lock s ↔ h ∈ s ∧ h.1 ≠ lock.
Proof.
  unfold release. rewrite list_elem_of_In, filter_In, <- list_elem_of_In, negb_true_iff.
  split; intros [? H]; (split; [done|]); [intros E; by rewrite E, str_eqb_refl in H|].
  destruct (str_eqb h.1 lock) eqn:E; [|done]. by apply str_eqb_eq in E.
Qed.
Lemma release_nodup lock s : NoDup s.*1 → NoDup (release lock s).*1.
Proof.
  intros H. induction s as [|h s IH]; [done|]. cbn in H. apply NoDup_cons in H as [Hn Hd]. unfold release in *.
  cbn [List.filter]. destruct (negb _); cbn; [|by apply IH]. apply NoDup_cons. split; [|by apply IH].
  intros (x & Ex & Hx)%list_elem_of_fmap. apply Hn. rewrite Ex. apply list_elem_of_fmap. exists x.
  split; [done|]. by apply (release_elem lock s) in Hx as [? _].
Qed.
Lemma release_head x m h : x ∉ h.*1 → release x ((x, m) :: h) = h.
Proof.
  intros Hx. unfold release. cbn [List.filter fst]. rewrite str_eqb_refl. cbn [negb].
  induction h as [|[y my] h IH]; [done|]. cbn in Hx |- *. rewrite not_elem_of_cons in Hx. destruct Hx as [Hy Hx].
  destruct (str_eqb y x) eqn:E; [by apply str_eqb_eq in E|]. cbn. by rewrite IH.
Qed.
(** A failing session only releases what it holds. *)
Lemma quit_disciplined h : NoDup h.*1 → disciplined h (Release ∘ fst <$> h).
Proof.
  induction h as [|[x m] h IH]; [done|]. cbn -[release]. intros [Hx Hd]%NoDup_cons. rewrite release_head by done.
  by apply IH.
Qed.
Lemma quit_ok s : NoDup (held s).*1 → session_ok (quit s).
Proof. intros Hd. split; cbn; [by apply quit_disciplined|done|done]. Qed.

(** What one operation changes. *)
Definition disk_ok (d : Disk) : Prop := ∀ lock g, active d !! lock = Some g → (lock, g) ∈ on_disk d.
Record effect (others : list Session) (d : Disk) (s : Session) (d' : Disk) (s' : Session) : Prop := {
  ef_session : session_ok s';
  ef_held : ∀ h, h ∈ held s' → h ∈ held s ∨ free others h.1 h.2 = true;
  ef_disk : disk_ok d → disk_ok d';
  ef_active : ∀ lock, active d' !! lock = active d !! lock ∨ (lock, Exclusive) ∈ held s;
  ef_pinned : ∀ e, pinned s' = Some e → pinned s = Some e ∨ active d' !! e.1 = Some e.2;
}.
Lemma one_mode h lock m m' : NoDup (h : list (str * LockMode)).*1 → (lock, m) ∈ h → (lock, m') ∈ h → m = m'.
Proof.
  induction h as [|[x mx] h IH]; [by intros _ ?%elem_of_nil|]. cbn. intros [Hx Hd]%NoDup_cons.
  assert (∀ m, (x, m) ∉ h) as Hno by (intros m0 H; apply Hx, list_elem_of_fmap; by exists (x, m0)).
  intros [[= -> ->] | H1]%elem_of_cons [E | H2]%elem_of_cons; [by injection E|by destruct (Hno m')| |by apply IH].
  injection E as -> ->. by destruct (Hno m).
Qed.
Lemma perform_effect h lock a d pin d' pin' : allowed h lock a → disk_ok d → perform lock a d pin = Some (d', pin') →
  disk_ok d' ∧
  (∀ x, active d' !! x = active d !! x ∨ x = lock ∧ (lock, Exclusive) ∈ h) ∧
  (pin' = pin ∨ ∃ g, pin' = Some (lock, g) ∧ active d' !! lock = Some g ∧ (lock, Shared) ∈ h).
Proof.
  intros Ha Hd. destruct a as [| |g|g back| |]; cbn -[decide].
  - destruct (active d !! lock) as [g|] eqn:E; [|done]. cbn -[decide]. case_decide; [|done]. intros [= <- <-].
    split; [done|]. split; [by left|]. right. by exists g.
  - case_decide; [|done]. intros [= <- <-]. split_and!; [done|by left|by left].
  - intros [= <- <-]. split; [|by split; [left|left]]. intros x g' Hx%Hd. cbn. set_solver.
  - case_decide as Hg; [|done]. intros [= <- <-]. split; [|split; [|by left]].
    + intros x g'. cbn. intros [[-> ->] | [_ Hx]]%lookup_insert_Some; [done|by apply Hd].
    + intros x. cbn. destruct (decide (x = lock)) as [-> | Hne]; [by right|left]. by rewrite lookup_insert_ne.
  - intros [= <- <-]. unfold prune. destruct (active d !! lock) as [g|] eqn:E; [|by split_and!; [|left|left]].
    split; [|by split; [left|left]]. intros x g' Hx. cbn in *. apply elem_of_filter. split; [|by apply Hd]. cbn.
    destruct (decide (x = lock)) as [-> | Hne]; [|by left]. right. left. congruence.
  - intros [= <- <-]. by split_and!; [|left|left].
Qed.
Lemma run_instr_effect others d s d' s' : session_ok s → disk_ok d → run_instr others d s = Some (d', s') →
  effect others d s d' s'.
Proof.
  intros [Hc Hn Hp] Hd. unfold run_instr. destruct (code s) as [|[lock m|lock|lock a|lock] rest] eqn:Ec; [done|..];
    cbn in Hc.
  - destruct (free others lock m) eqn:Ef; [|done]. intros [= <- <-]. destruct Hc as [Hr Hc]. rewrite Forall_forall in Hr.
    split; [split|..]; cbn; try done; try (by left).
    + apply NoDup_cons. split; [|done]. intros (h & -> & Hh%Hr)%list_elem_of_fmap. lia.
    + intros e He. right. by apply Hp.
    + by intros h [-> | ?]%elem_of_cons; [right|left].
  - intros [= <- <-]. destruct Hc as (Hx & Hc1 & Hc2). destruct (free others lock Shared) eqn:Ef;
      (split; [split|..]; cbn; try done; try (by left)).
    + by apply NoDup_cons.
    + intros e He. right. by apply Hp.
    + by intros h [-> | ?]%elem_of_cons; [right|left].
  - destruct Hc as [Ha Hc]. destruct (perform lock a d (pinned s)) as [[d1 pin]|] eqn:Ep; intros [= <- <-].
    + apply (perform_effect (held s)) in Ep as (Hd1 & Hact & Hpin); [|done..].
      split; [split|..]; cbn; try done; try (by left).
      * intros e He. destruct Hpin as [-> | (g & -> & _ & Hs)]; [by apply Hp|]. by injection He as <-.
      * intros x. destruct (Hact x) as [|[-> ?]]; [by left|by right].
      * intros e He. destruct Hpin as [-> | (g & -> & Hg & _)]; [by left|]. injection He as <-. by right.
    + split; [by apply quit_ok|..]; cbn; try done; by left.
  - intros [= <- <-]. split; [split|..]; cbn; try done; try (by left).
    + by apply release_nodup.
    + intros e. case_decide as E; [done|]. intros He. apply release_elem. split; [by apply Hp|]. cbn.
      intros <-. apply E. by rewrite He.
    + intros h [? _]%release_elem. by left.
    + intros e. case_decide; [done|]. by left.
Qed.
Lemma update_ok w i s d' s' : world_ok w → sessions w !! i = Some s → effect (others i (sessions w)) (disk w) s d' s' →
  world_ok (mkWorld d' (<[i := s']> (sessions w))).
Proof.
  intros [Hs He Ha Hp] Hi [Es Eh Ed Ea Ep]. pose proof (lookup_lt_Some _ _ _ Hi) as Hlt.
  assert (∀ j t lock m m', j ≠ i → sessions w !! j = Some t → (lock, m) ∈ held s' → (lock, m') ∈ held t →
    compatible m m' = true) as Hx.
  { intros j t lock m m' Hne Hj [H | H]%Eh Ht; [by apply (He i j s t lock m m')|].
    rewrite free_true in H. rewrite compatible_sym. apply (H t m'); [|done]. apply others_elem. by exists j. }
  assert (∀ j t, <[i := s']> (sessions w) !! j = Some t → j = i ∧ t = s' ∨ j ≠ i ∧ sessions w !! j = Some t) as Hl.
  { intros j t. destruct (decide (j = i)) as [-> | Hne].
    - rewrite list_lookup_insert_eq by done. intros [= <-]. by left.
    - rewrite list_lookup_insert_ne by done. by right. }
  split; cbn.
  - intros j t [[-> ->] | [_ Hj]]%Hl; [done|by eapply Hs].
  - intros j k t u lock m m' Hne [[-> ->] | [Hj Ht]]%Hl [[-> ->] | [Hk Hu]]%Hl Hm Hm'; [done| | |].
    + by eapply Hx.
    + rewrite compatible_sym. by eapply Hx.
    + by apply (He j k t u lock m m').
  - by apply Ed.
  - intros j t e Hj Ht. apply Hl in Hj as [[-> ->] | [Hne Hj]].
    + destruct (Ep e Ht) as [Hs' | ?]; [|done]. destruct (Ea e.1) as [-> | Hex]; [by apply (Hp i s)|].
      pose proof (one_mode _ _ _ _ (sk_held s (Hs i s Hi)) (sk_pinned s (Hs i s Hi) e Hs') Hex). done.
    + destruct (Ea e.1) as [-> | Hex]; [by apply (Hp j t)|].
      pose proof (sk_pinned t (Hs j t Hj) e Ht) as Hsh.
      by pose proof (He j i t s e.1 Shared Exclusive Hne Hj Hi Hsh Hex).
Qed.
Lemma step_ok w w' : world_ok w → lock_step w w' → world_ok w'.
Proof.
  intros Hw [[i H] | i H].
  - unfold run_at in H. destruct (sessions w !! i) as [s|] eqn:Hi; [|done]. cbn in H.
    destruct (run_instr _ _ _) as [[d' s']|] eqn:Er; [|done]. injection H as <-. apply (update_ok w i s); [done..|].
    apply run_instr_effect; [by apply (wk_sessions w Hw i)|exact (wk_active w Hw)|done].
  - unfold fail_at in H. destruct (sessions w !! i) as [s|] eqn:Hi; [|done]. cbn in H.
    assert (w' = mkWorld (disk w) (<[i := quit s]> (sessions w))) as ->.
    { destruct (code s) as [|[]]; [done| | | |done]; by injection H as <-. }
    apply (update_ok w i s); [done..|]. split; cbn; try done; try (by left).
    apply quit_ok. by apply (wk_sessions w Hw i).
Qed.
Lemma steps_ok w w' : world_ok w → rtc lock_step w w' → world_ok w'.
Proof. intros Hw. induction 1 as [|w1 w2 w3 H1 _ IH]; [done|]. by eapply IH, step_ok. Qed.

(** ** Progress *)
(** An operation is blocked only at a lock that another session holds. *)
Lemma blocked_at others d s : run_instr others d s = None →
  code s = [] ∨ ∃ lock m rest, code s = Acquire lock m :: rest ∧ free others lock m = false.
Proof.
  unfold run_instr. destruct (code s) as [|[lock m|lock|lock a|lock] rest]; [by left| |done..].
  destruct (free others lock m) eqn:E; [done|]. right. by exists lock, m, rest.
Qed.
(** A session that waits for a lock, or one that holds a lock of higher rank, can lead to a
    session that runs. *)
Lemma waiting_runs bound w : world_ok w → (∀ lock, (rank lock < bound)%nat) →
  ∀ n i s lock m rest, sessions w !! i = Some s → code s = Acquire lock m :: rest → (bound - rank lock ≤ n)%nat →
  ∃ w', runs w w'.
Proof.
  intros Hw Hb. induction n as [|n IH]; intros i s lock m rest Hi Hc Hn; [specialize (Hb lock); lia|].
  destruct (run_at i w) as [w'|] eqn:Er; [by exists w', i|].
  unfold run_at in Er. rewrite Hi in Er. cbn in Er.
  destruct (run_instr (others i (sessions w)) (disk w) s) as [|] eqn:E; [done|].
  apply blocked_at in E as [E | (lock' & m' & rest' & E & Hf)]; [by rewrite Hc in E|].
  rewrite Hc in E. injection E as <- <- <-. apply free_false in Hf as (t & mt & (j & Hne & Hj)%others_elem & Ht & _).
  pose proof (wk_sessions w Hw j t Hj) as [Hct _ _].
  destruct (run_at j w) as [w'|] eqn:Ej; [by exists w', j|].
  unfold run_at in Ej. rewrite Hj in Ej. cbn in Ej.
  destruct (run_instr (others j (sessions w)) (disk w) t) as [|] eqn:E; [done|].
  apply blocked_at in E as [E | (lock2 & m2 & rest2 & E & _)]; rewrite E in Hct; cbn in Hct.
  - rewrite Hct in Ht. by apply elem_of_nil in Ht.
  - destruct Hct as [Hr _]. rewrite Forall_forall in Hr. specialize (Hr _ Ht). cbn in Hr.
    apply (IH j t lock2 m2 rest2); [done..|]. specialize (Hb lock2). lia.
Qed.
Lemma pool_progress bound w : world_ok w → (∀ lock, (rank lock < bound)%nat) → finished w ∨ ∃ w', runs w w'.
Proof.
  intros Hw Hb. destruct (decide (Forall (λ s, code s = []) (sessions w))) as [|Hn]; [by left|right].
  apply not_Forall_Exists in Hn; [|apply _]. apply Exists_exists in Hn as (s & (i & Hi)%list_elem_of_lookup & Hs).
  destruct (run_at i w) as [w'|] eqn:Er; [by exists w', i|].
  unfold run_at in Er. rewrite Hi in Er. cbn in Er.
  destruct (run_instr (others i (sessions w)) (disk w) s) as [|] eqn:E; [done|].
  apply blocked_at in E as [E | (lock & m & rest & E & _)]; [done|].
  by apply (waiting_runs bound w Hw Hb (bound - rank lock) i s lock m rest).
Qed.

(** Every operation shortens what its session still has to do. *)
Definition todo (w : World) : nat := sum_list_with (λ s, length (code s)) (sessions w).
Lemma sum_insert (l : list Session) i s s' : l !! i = Some s → (length (code s') < length (code s))%nat →
  (sum_list_with (λ s, length (code s)) (<[i := s']> l) < sum_list_with (λ s, length (code s)) l)%nat.
Proof.
  revert i. induction l as [|t l IH]; intros [|i]; [done..| |]; intros Hi Hlt.
  - injection Hi as ->. cbn. lia.
  - exact (proj1 (Nat.add_lt_mono_l _ _ _) (IH i Hi Hlt)).
Qed.
Lemma release_length lock h : NoDup h.*1 → (length h ≤ Datatypes.S (length (release lock h)))%nat.
Proof.
  induction h as [|[x m] h IH]; cbn -[release]; [lia|]. intros [Hx Hd]%NoDup_cons.
  destruct (decide (x = lock)) as [-> | Hne]; [by rewrite release_head|].
  unfold release in *. cbn [List.filter fst]. destruct (str_eqb x lock) eqn:E; [by apply str_eqb_eq in E|].
  cbn. specialize (IH Hd). lia.
Qed.
Lemma held_in_code h c : NoDup h.*1 → disciplined h c → (length h ≤ length c)%nat.
Proof.
  revert h. induction c as [|[lock m|lock|lock a|lock] c IH]; intros h Hd; cbn -[release]; [by intros ->|..].
  - intros [Hr H]. rewrite Forall_forall in Hr. apply IH in H; [cbn in H; lia|]. cbn. apply NoDup_cons. split; [|done].
    intros (x & -> & Hx%Hr)%list_elem_of_fmap. lia.
  - intros (_ & _ & H%IH); [lia|done].
  - intros [_ H%IH]; [lia|done].
  - intros H%IH; [|by apply release_nodup]. pose proof (release_length lock h Hd). lia.
Qed.
Lemma quit_shorter s i rest : session_ok s → code s = i :: rest → (∀ lock, i ≠ Release lock) →
  (length (code (quit s)) < length (code s))%nat.
Proof.
  intros [Hc Hn _] E Hi. rewrite E in *. cbn. rewrite length_fmap.
  assert (∀ x m, Forall (λ h, (rank h.1 < rank x)%nat) (held s) → NoDup ((x, m) :: held s).*1) as Hx.
  { intros x m Hr. rewrite Forall_forall in Hr. cbn. apply NoDup_cons. split; [|done].
    intros (h & -> & Hh%Hr)%list_elem_of_fmap. lia. }
  destruct i as [lock m|lock|lock a|lock]; cbn in Hc; [..|by destruct (Hi lock)].
  - destruct Hc as [Hr Hc%held_in_code]; [cbn in Hc; lia|by apply Hx].
  - destruct Hc as (_ & _ & Hc%held_in_code); [lia|done].
  - destruct Hc as [_ Hc%held_in_code]; [lia|done].
Qed.
Lemma step_shorter w w' : world_ok w → lock_step w w' → (todo w' < todo w)%nat.
Proof.
  intros Hw [[i H] | i H]; [unfold run_at in H|unfold fail_at in H]; destruct (sessions w !! i) as [s|] eqn:Hi; [|done| |done];
    cbn in H; pose proof (wk_sessions w Hw i s Hi) as Hs.
  - destruct (run_instr _ _ _) as [[d' s']|] eqn:Er; [|done]. injection H as <-. apply sum_insert with s; [done|].
    unfold run_instr in Er. destruct (code s) as [|ins rest] eqn:Ec; [done|].
    destruct ins as [lock m|lock|lock a|lock].
    + destruct (free _ _ _); [|done]. injection Er as <- <-. cbn. lia.
    + injection Er as <- <-. cbn. lia.
    + destruct (perform _ _ _ _) as [[d1 pin]|]; injection Er as <- <-; [cbn; lia|].
      pose proof (quit_shorter s _ _ Hs Ec ltac:(done)) as Hq. by rewrite Ec in Hq.
    + injection Er as <- <-. cbn. lia.
  - destruct (code s) as [|ins rest] eqn:Ec; [done|].
    assert ((∀ lock, ins ≠ Release lock) ∧ w' = mkWorld (disk w) (<[i := quit s]> (sessions w))) as [Hne ->].
    { destruct ins; [..|done]; by injection H as <-. }
    by apply sum_insert with s, (quit_shorter s ins rest).
Qed.
Lemma completes bound : (∀ lock, (rank lock < bound)%nat) → ∀ n w, (todo w < n)%nat → world_ok w →
  ∃ w', rtc runs w w' ∧ finished w'.
Proof.
  intros Hb. induction n as [|n IH]; intros w Hn Hw; [lia|].
  destruct (pool_progress bound w Hw Hb) as [Hf | [w1 H1]]; [by exists w|].
  assert (lock_step w w1) as H1' by (by left). pose proof (step_shorter w w1 Hw H1').
  destruct (IH w1) as (w' & Hr & Hf); [lia|by eapply step_ok|]. exists w'. split; [|done]. by eapply rtc_l.
Qed.
Lemma steps_bounded n w w' : world_ok w → nsteps lock_step n w w' → (n + todo w' ≤ todo w)%nat.
Proof.
  intros Hw. induction 1 as [|n w w1 w2 H1 _ IH]; [lia|]. pose proof (step_shorter w w1 Hw H1).
  specialize (IH (step_ok w w1 Hw H1)). lia.
Qed.
End Discipline.

(** ** The sessions of the program *)
(** Global locks come before project locks. *)
Definition lock_rank (jobs : list Job) (lock : str) : nat :=
  if bool_decide (Exists (λ j, global_lock (job_place j) = Ok lock) jobs) then 0 else 1.
Lemma lock_rank_bound jobs lock : (lock_rank jobs lock < 2)%nat.
Proof. unfold lock_rank. case_bool_decide; lia. Qed.
Definition start (d : Disk) (jobs : list Job) : World := mkWorld d (spawn <$> jobs).
(** A project of its own name: no identifier of a project is the one of the global lock. *)
Definition jobs_ok (jobs : list Job) : Prop :=
  Forall (λ j, pl_project (job_place j) ≠ GLOBAL_GENERATION_GC_LOCK_SCOPE) jobs.
Lemma str_eqb_sym a b : str_eqb a b = str_eqb b a.
Proof. destruct (str_eqb a b) eqn:E; symmetry; [apply str_eqb_eq in E as ->; apply str_eqb_refl|].
  destruct (str_eqb b a) eqn:E2; [|done]. apply str_eqb_eq in E2 as ->. by rewrite str_eqb_refl in E. Qed.
Lemma disciplined_searches rank h lock n rest : (lock, Shared) ∈ h → disciplined rank h rest →
  disciplined rank h (replicate n (Do lock Search) ++ rest).
Proof. intros Hs Hr. induction n as [|n IH]; [done|]. by split. Qed.
Lemma job_disciplined jobs j c : jobs_ok jobs → j ∈ jobs → job_code j = Ok c → disciplined (lock_rank jobs) [] c.
Proof.
  intros Hj Hin Hc.
  assert (∀ g, global_lock (job_place j) = Ok g → lock_rank jobs g = 0%nat) as Hg.
  { intros g H. unfold lock_rank. rewrite bool_decide_eq_true_2; [done|]. apply Exists_exists. by exists j. }
  assert (∀ x, project_lock (job_place j) = Ok x → lock_rank jobs x = 1%nat) as Hp.
  { intros x H. unfold lock_rank. rewrite bool_decide_eq_false_2; [done|]. intros (k & Hk & E)%Exists_exists.
    unfold jobs_ok in Hj. rewrite Forall_forall in Hj. apply (Hj j Hin). by eapply lock_roles. }
  assert (∀ g x, global_lock (job_place j) = Ok g → project_lock (job_place j) = Ok x → str_eqb g x = false) as Hne.
  { intros g x H1 H2. destruct (str_eqb g x) eqn:E; [|done]. apply str_eqb_eq in E as ->.
    pose proof (Hg x H1). pose proof (Hp x H2). congruence. }
  destruct j as [p n|p g back|p|p]; cbn [job_code job_place] in *;
    unfold query_session, finalize_session, cleanup_session, inventory_session in Hc.
  1-3: destruct (global_lock p) as [gl|] eqn:Eg; [|done]; destruct (project_lock p) as [x|] eqn:Ex; [|done];
    cbn [mbind result_bind] in Hc; injection Hc as <-; specialize (Hg gl eq_refl); specialize (Hp x eq_refl);
    specialize (Hne gl x eq_refl eq_refl).
  4: destruct (project_lock p) as [x|] eqn:Ex; [|done]; cbn [mbind result_bind] in Hc; injection Hc as <-.
  - cbn [disciplined app allowed]. split; [done|]. split; [|split; [left|]].
    + apply Forall_singleton. cbn. lia.
    + apply disciplined_searches; [left|]. cbn. unfold release. cbn. rewrite str_eqb_refl, (str_eqb_sym x gl), Hne. cbn.
      by rewrite str_eqb_refl.
  - cbn. rewrite str_eqb_refl, Hne. cbn. rewrite str_eqb_refl. split_and!; try done; try by left.
    apply Forall_singleton. cbn. lia.
  - cbn. rewrite str_eqb_refl, Hne. cbn. rewrite str_eqb_refl. split_and!; try done; try by left.
    apply Forall_singleton. cbn. lia.
  - cbn. rewrite str_eqb_refl. split_and!; try done. intros ?%elem_of_nil. done.
Qed.
Lemma start_ok jobs d : jobs_ok jobs → disk_ok d → world_ok (lock_rank jobs) (start d jobs).
Proof.
  intros Hj Hd.
  assert (∀ i s, (spawn <$> jobs) !! i = Some s → session_ok (lock_rank jobs) s ∧ held s = [] ∧ pinned s = None) as Hs.
  { intros i s. rewrite list_lookup_fmap. destruct (jobs !! i) as [j|] eqn:Ei; [|done]. intros [= <-].
    split; [|done]. split; cbn; [|constructor|done]. destruct (job_code j) as [c|] eqn:Ec; [|done].
    apply (job_disciplined jobs j c Hj); [by eapply list_elem_of_lookup_2|done]. }
  split; cbn.
  - intros i s Hi. by apply (Hs i).
  - intros i k s t lock m m' _ (_ & Hh & _)%Hs _ Hm. rewrite Hh in Hm. by apply elem_of_nil in Hm.
  - done.
  - intros i s e (_ & _ & Hp)%Hs. by rewrite Hp.
Qed.

(** [C10] A pinned generation stays.  However the sessions of queries, publications, cleanups
    and inventories of any number of processes interleave and fail, two sessions hold one
    lock only if both share it, and the generation a query has pinned is the published one
    and on disk, files and all, until the query lets go of it: no publication replaces it
    and no pruning removes it. *)
Theorem pinned_generation_stays jobs d w : jobs_ok jobs → disk_ok d → rtc lock_step (start d jobs) w →
  (∀ i s lock generation, sessions w !! i = Some s → pinned s = Some (lock, generation) →
    active (disk w) !! lock = Some generation ∧ (lock, generation) ∈ on_disk (disk w)) ∧
  ∀ i j s t lock m m', i ≠ j → sessions w !! i = Some s → sessions w !! j = Some t →
    (lock, m) ∈ held s → (lock, m') ∈ held t → m = Shared ∧ m' = Shared.
Proof.
  intros Hj Hd Hr. apply (steps_ok (lock_rank jobs)) in Hr as [_ He Ha Hp]; [|by apply start_ok]. split.
  - intros i s lock g Hi Hs. pose proof (Hp i s _ Hi Hs) as Hg. split; [done|by apply Ha].
  - intros i j s t lock m m' Hne Hi Hk Hm Hm'. pose proof (He i j s t lock m m' Hne Hi Hk Hm Hm'). by destruct m, m'.
Qed.

(** [C36] The sessions never deadlock.  However they have interleaved and failed so far, the
    sessions of queries, publications, cleanups and inventories can all run to their end;
    and no run, however long its sessions are delayed, has more steps than the sessions had
    operations. *)
Theorem sessions_complete jobs d w : jobs_ok jobs → disk_ok d → rtc lock_step (start d jobs) w →
  (∃ w', rtc runs w w' ∧ finished w' ∧ ∀ s, s ∈ sessions w' → held s = []) ∧
  ∀ n w', nsteps lock_step n w w' → (n ≤ todo w)%nat.
Proof.
  intros Hj Hd Hr. apply (steps_ok (lock_rank jobs)) in Hr as Hw; [|by apply start_ok]. split.
  - destruct (completes (lock_rank jobs) 2 (lock_rank_bound jobs) _ w (Nat.lt_succ_diag_r _) Hw) as (w' & Hrun & Hf).
    exists w'. split_and!; [done..|]. intros s (i & Hi)%list_elem_of_lookup.
    assert (world_ok (lock_rank jobs) w') as Hw'.
    { apply (steps_ok _ w); [done|]. apply (rtc_subrel runs); [|done]. intros ? ? ?. by left. }
    pose proof (sk_code _ _ (wk_sessions _ _ Hw' i s Hi)) as Hc. unfold finished in Hf.
    rewrite Forall_lookup in Hf. by rewrite (Hf i s Hi) in Hc.
  - intros n w' Hn. pose proof (steps_bounded _ n w w' Hw Hn). lia.
Qed.

Module LockSample.
Definition place : Place := mkPlace Local (lit "/side/state.json") (lit "p").
Definition jobs : list Job :=
  [Query place 1; Finalize place (lit "p-new") (Some (lit "p-old")); Cleanup place; Inventory place].
Definition lock : str := lit "/side/retention/p.lock".
Definition disk : Disk :=
  mkDisk {[lock := lit "p-old"]} ∅ {[(lock, lit "p-old"); (lock, lit "p-stale")]}.
(** The query pins, publication waits for its project lock and the inventory shares it. *)
Definition waiting : World :=
  mkWorld disk
    [mkSession [Do lock Search; Release (lit "/side/retention/global_generation_gc.lock"); Release lock]
       [(lock, Shared); (lit "/side/retention/global_generation_gc.lock", Shared)] (Some (lock, lit "p-old"));
     mkSession [Acquire lock Exclusive; Do lock (Build (lit "p-new"));
                Do lock (Publish (lit "p-new") (Some (lit "p-old"))); Do lock Prune; Release lock;
                Release (lit "/side/retention/global_generation_gc.lock")]
       [(lit "/side/retention/global_generation_gc.lock", Shared)] None;
     spawn (Cleanup place);
     mkSession [Do lock Report; Release lock] [(lock, Shared)] None].
End LockSample.
Import LockSample.

Lemma sample_disk_ok : disk_ok disk.
Proof.
  intros x g. cbn [disk active on_disk]. intros [<- <-]%lookup_singleton_Some. apply elem_of_union. left.
  by apply elem_of_singleton.
Qed.
Ltac run i := eapply rtc_l; [left; exists i; vm_compute; reflexivity|].
Lemma waiting_reached : rtc lock_step (start disk jobs) waiting.
Proof. run 0%nat. run 0%nat. run 0%nat. run 1%nat. run 3%nat. apply rtc_refl. Qed.
Lemma pinned_generation_stays_witness : (lock, lit "p-old") ∈ on_disk (RetentionLocks.disk waiting).
Proof.
  refine (proj2 (proj1 (pinned_generation_stays jobs disk waiting _ _ waiting_reached) 0%nat _ lock (lit "p-old") eq_refl eq_refl)).
  - repeat constructor; discriminate.
  - apply sample_disk_ok.
Defined.
Lemma sessions_complete_witness : ∃ w', rtc runs waiting w' ∧ finished w'.
Proof.
  destruct (sessions_complete jobs disk waiting) as [(w' & Hr & Hf & _) _].
  - repeat constructor; discriminate.
  - apply sample_disk_ok.
  - apply waiting_reached.
  - exists w'. by split.
Defined.
