(* ===== verification/RetrievalPublication.v ===== *)
(** * Publication of a retrieval generation

    The publication table of the store (codestory-store, retrieval_manifest.rs) and the end
    of an index run (codestory-retrieval/src/index.rs): validation of the candidate, choice
    of the rollback, the publication fence, the marker and retention.  What is read from
    other tables, files and the embedding server comes through interfaces; a transaction
    that is dropped leaves the store as it was, and nothing else writes while it runs. *)
From S2P Require Import Prelude RustStr RetrievalData Sorting StrOps UnixPath Collections WorkspacePaths.
From S2P Require Import LexicalIndex Retention RetentionInventory.

(** ** The publication table *)
(** The JSON text of a rollback record, read back as it was written. *)
Class RollbackJson : Type := {
  rollback_to_json : RetrievalIndexRollbackRecord → str;
  rollback_from_json : str → result str RetrievalIndexRollbackRecord;
  rollback_json_law r : rollback_from_json (rollback_to_json r) = Ok r;
}.
Record PublicationRow : Type := mkRow {
  row_manifest : RetrievalIndexManifest;
  row_rollback_record_json : option str;
}.
(** The rows by their primary key, the project. *)
Abbreviation PublicationTable := (gmap str PublicationRow).

Definition non_blank (o : option str) : option str :=
  o ≫= λ s, if bool_decide (trim s = []) then None else Some s.
Definition validate_rollback_record (current : RetrievalIndexManifest)
    (rollback : option RetrievalIndexRollbackRecord) : result str unit :=
  match rollback with
  | None => Ok tt
  | Some r =>
      current_generation ← ok_or (non_blank (sidecar_generation current))
                                 (lit "Current retrieval generation is missing");
      rollback_generation ← ok_or (non_blank (sidecar_generation (rb_manifest r)))
                                  (lit "Rollback retrieval generation is missing");
      if negb (str_eqb (project_id (rb_manifest r)) (project_id current))
         || str_eqb rollback_generation current_generation
         || bool_decide (trim (semantic_generation (rb_manifest r)) = [])
         || bool_decide (non_blank (sidecar_input_hash (rb_manifest r)) = None)
         || (rb_verified_at_epoch_ms r <? 0)
      then Err (lit "Retrieval rollback does not describe a distinct verified generation")
      else Ok tt
  end.

Section Table.
Context `{RollbackJson}.

(** [execute]: what the database answers to the statement. *)
Definition publish_retrieval_index_publication (execute : result str unit) (m : RetrievalIndexManifest)
    (rollback : option RetrievalIndexRollbackRecord) (t : PublicationTable) : result str PublicationTable :=
  _ ← validate_rollback_record m rollback;
  _ ← execute;
  Ok (<[project_id m := mkRow m (rollback_to_json <$> rollback)]> t).
Definition upsert_retrieval_index_manifest (execute : result str unit) (m : RetrievalIndexManifest)
    (t : PublicationTable) : result str PublicationTable :=
  publish_retrieval_index_publication execute m None t.
Definition publication_from_row (r : PublicationRow)
  : result str (RetrievalIndexManifest * option RetrievalIndexRollbackRecord) :=
  rollback ← match row_rollback_record_json r with
             | None => Ok None
             | Some json => rollback ← rollback_from_json json; Ok (Some rollback)
             end;
  _ ← validate_rollback_record (row_manifest r) rollback;
  Ok (row_manifest r, rollback).
Definition get_retrieval_index_publication (t : PublicationTable) (project : str)
  : result str (option (RetrievalIndexManifest * option RetrievalIndexRollbackRecord)) :=
  match t !! project with
  | None => Ok None
  | Some row => publication ← publication_from_row row; Ok (Some publication)
  end.
Definition get_retrieval_index_manifest (t : PublicationTable) (project : str) : option RetrievalIndexManifest :=
  row_manifest <$> t !! project.
(** [publication_from_row] of each row, up to the first error. *)
Fixpoint publications_from_rows (rows : list PublicationRow)
  : result str (list (RetrievalIndexManifest * option RetrievalIndexRollbackRecord)) :=
  match rows with
  | [] => Ok []
  | row :: rows => publication ← publication_from_row row; rest ← publications_from_rows rows; Ok (publication :: rest)
  end.
Definition list_publications (t : PublicationTable)
  : result str (list (RetrievalIndexManifest * option RetrievalIndexRollbackRecord)) :=
  publications_from_rows (map_to_list t).*2.
Definition list_retrieval_index_manifests (t : PublicationTable) : list RetrievalIndexManifest :=
  row_manifest <$> (map_to_list t).*2.
Definition publication_collections (p : RetrievalIndexManifest * option RetrievalIndexRollbackRecord)
  : list (str * Z) :=
  (semantic_generation p.1, built_at_epoch_ms p.1) ::
  match p.2 with
  | Some r => [(semantic_generation (rb_manifest r), built_at_epoch_ms (rb_manifest r))] | None => []
  end.
Definition list_retrieval_semantic_generations (t : PublicationTable) : result str (list str) :=
  publications ← list_publications t;
  let collections := concat ((λ p, (publication_collections p).*1) <$> publications) in
  Ok (dedup_by str_eqb None (sort_by (cmp_leb str_cmp) collections)).
Definition recency_cmp : str * Z → str * Z → comparison :=
  then_with (cmp_on fst str_cmp) (λ l r, Z.compare r.2 l.2).
Definition list_retrieval_semantic_generations_with_recency (t : PublicationTable) : result str (list (str * Z)) :=
  publications ← list_publications t;
  Ok (dedup_by (λ l r, str_eqb l.1 r.1) None
        (sort_by (cmp_leb recency_cmp) (concat (publication_collections <$> publications)))).
Definition clear_retrieval_index_manifests (t : PublicationTable) : Z * PublicationTable := (len (map_to_list t), ∅).
End Table.

(** ** The candidate *)
Record SidecarInputFingerprint : Type := mkFingerprint {
  fp_hash : str;
  fp_symbol_doc_count : Z;
  fp_projection_count : Z;
  fp_dense_projection_count : Z;
  fp_semantic_policy_version : option str;
  fp_graph_artifact_hash : str;
  fp_dense_reason_counts_json : str;
  fp_lexical_file_count : Z;
  fp_lexical_hash : str;
  fp_lexical_coverage : LexicalCoverage;
}.
#[export] Instance SidecarInputFingerprint_eq_dec : EqDecision SidecarInputFingerprint.
Proof. solve_decision. Defined.

Definition manifest_matches_sidecar_input (m : RetrievalIndexManifest) (input : SidecarInputFingerprint)
    (backend : str) (dim : Z) : bool :=
  manifest_has_current_sidecar_contract (project_id m) m
  && bool_decide (sidecar_schema_version m = Some SIDECAR_SCHEMA_VERSION)
  && bool_decide (sidecar_input_hash m = Some (fp_hash input))
  && bool_decide (projection_count m = Some (fp_projection_count input))
  && bool_decide (symbol_doc_count m = Some (fp_symbol_doc_count input))
  && bool_decide (dense_projection_count m = Some (fp_dense_projection_count input))
  && bool_decide (semantic_policy_version m = fp_semantic_policy_version input)
  && bool_decide (graph_artifact_hash m = Some (fp_graph_artifact_hash input))
  && bool_decide (dense_reason_counts_json m = Some (fp_dense_reason_counts_json input))
  && bool_decide (embedding_backend m = Some backend)
  && bool_decide (embedding_dim m = Some dim).
Definition retrieval_manifest_for_sidecar (project generation collection backend : str) (dim : Z)
    (input : SidecarInputFingerprint) (now : Z) : RetrievalIndexManifest :=
  mkRetrievalIndexManifest project LEXICAL_INDEX_VERSION collection None now None (lit "[]") (Some backend) (Some dim)
    (Some SIDECAR_SCHEMA_VERSION) (Some (fp_hash input)) (Some generation) (Some (fp_projection_count input))
    (Some (fp_symbol_doc_count input)) (Some (fp_dense_projection_count input)) (fp_semantic_policy_version input)
    (Some (fp_graph_artifact_hash input)) (Some (fp_dense_reason_counts_json input)) None None None None.

(** The identity of the embedding server. *)
Record ProductEmbeddingIdentity : Type := mkIdentity {
  ei_instance_id : str;
  ei_load_generation : Z;
  ei_model_load_count : Z;
  ei_residency : str;
  ei_worker_alive : bool;
  ei_load_error : option str;
  ei_model_digest : str;
  ei_ggml_build_identity : str;
  ei_backend : str;
  ei_adapter_name : str;
  ei_adapter_description : str;
  ei_policy : str;
  ei_embedded_model : bool;
  ei_materialized_path : str;
  ei_materialized_reused : bool;
  ei_initialization_ms : Z;
  ei_smoke_ms : Z;
  ei_adapter_memory_total : Z;
  ei_adapter_memory_used_by_load : Z;
  ei_execution_device_names : list str;
  ei_execution_backend_names : list str;
  ei_execution_observation_source : str;
  ei_encode_count : Z;
  ei_execution_node_count : Z;
  ei_resident_accelerator_tensor_count : Z;
  ei_resident_accelerator_tensor_bytes : Z;
  ei_model_layer_count : Z;
  ei_offloaded_layer_count : Z;
  ei_accelerator_execution_verified : bool;
}.
Definition embedding_identity_matches (a b : ProductEmbeddingIdentity) : bool :=
  str_eqb (ei_instance_id a) (ei_instance_id b)
  && (ei_load_generation a =? ei_load_generation b)
  && (ei_model_load_count a =? ei_model_load_count b)
  && str_eqb (ei_residency a) (lit "resident") && str_eqb (ei_residency b) (lit "resident")
  && ei_worker_alive a && ei_worker_alive b
  && bool_decide (ei_load_error a = None) && bool_decide (ei_load_error b = None)
  && str_eqb (ei_model_digest a) (ei_model_digest b)
  && str_eqb (ei_ggml_build_identity a) (ei_ggml_build_identity b)
  && str_eqb (ei_backend a) (ei_backend b)
  && str_eqb (ei_adapter_name a) (ei_adapter_name b)
  && str_eqb (ei_policy a) (ei_policy b)
  && Bool.eqb (ei_accelerator_execution_verified a) (ei_accelerator_execution_verified b).
Definition embedding_identity_matches_lease (lease before after : ProductEmbeddingIdentity) : bool :=
  embedding_identity_matches lease before && embedding_identity_matches before after.
Record EmbeddingDeviceReadiness : Type := mkDevice {
  dr_requested_policy : str;
  dr_observed_state : str;
  dr_observation_source : str;
  dr_detected_provider : option str;
  dr_detected_gpu : option str;
  dr_accelerator_requested : bool;
  dr_accelerator_request_provider : option str;
  dr_accelerator_request_device : option str;
  dr_cpu_allowed : bool;
  dr_full_retrieval_allowed : bool;
  dr_degraded_reason : option str;
}.
Record CandidateGenerationEvidence : Type := mkEvidence {
  ce_lexical_matches : bool;
  ce_scip_revision : option str;
  ce_scip_graph : bool;
  ce_semantic_points : option Z;
  ce_semantic_ready : bool;
  ce_semantic_zero_dense_policy : bool;
  ce_embedding_device : EmbeddingDeviceReadiness;
  ce_embedding_accelerator_smoke_elapsed_ms : option Z;
  ce_embedding_identity_before : ProductEmbeddingIdentity;
  ce_embedding_identity_after : ProductEmbeddingIdentity;
  ce_retrieval_mode : str;
  ce_degraded_reason : option str;
}.
Definition zero_dense (input : SidecarInputFingerprint) : bool :=
  (fp_projection_count input =? 0) && (fp_dense_projection_count input =? 0).
Definition semantic_valid (input : SidecarInputFingerprint) (e : CandidateGenerationEvidence) : bool :=
  if zero_dense input && bool_decide (fp_semantic_policy_version input = Some SEMANTIC_POLICY_VERSION)
  then bool_decide (ce_semantic_points e = Some 0) && ce_semantic_ready e && ce_semantic_zero_dense_policy e
  else bool_decide (is_Some (ce_semantic_points e)) && ce_semantic_ready e && negb (ce_semantic_zero_dense_policy e).
Definition device_policy_valid (allow_cpu : bool) (e : CandidateGenerationEvidence) : bool :=
  let d := ce_embedding_device e in
  if dr_cpu_allowed d && allow_cpu
  then dr_full_retrieval_allowed d && str_eqb (dr_observed_state d) (lit "cpu_explicit")
       && str_eqb (dr_observation_source d) (lit "per_user_server")
       && bool_decide (ce_embedding_accelerator_smoke_elapsed_ms e = None)
  else if negb (dr_cpu_allowed d) && negb allow_cpu
  then bool_decide (is_Some (ce_embedding_accelerator_smoke_elapsed_ms e)) && dr_accelerator_requested d
       && str_eqb (dr_observed_state d) (lit "accelerated")
       && str_eqb (dr_observation_source d) (lit "per_user_server")
  else false.

(** What a candidate is checked with.  [debug_option] is the [Debug] text of an optional
    string in an error. *)
Section Candidate.
Context (embedding_runtime_id product_runtime_id : str) (allow_cpu : bool) (debug_option : option str → str).

Definition component_failed (component : str) : str :=
  lit "mandatory candidate generation component failed validation: " ++ component.
Definition validate_candidate_generation_evidence (project : str) (input : SidecarInputFingerprint)
    (m : RetrievalIndexManifest) (e : CandidateGenerationEvidence) : result str unit :=
  if negb (manifest_matches_sidecar_input m input embedding_runtime_id RETRIEVAL_EMBEDDING_DIM)
  then Err (lit "mandatory candidate manifest does not match its sidecar generation input")
  else if negb (ce_lexical_matches e) then Err (component_failed (lit "lexical"))
  else if bool_decide (scip_revision m = None) || negb (bool_decide (scip_revision m = ce_scip_revision e))
          || negb (ce_scip_graph e)
  then Err (component_failed (lit "scip"))
  else if negb (semantic_valid input e) then Err (component_failed (lit "semantic"))
  else if negb (bool_decide (embedding_backend m = Some product_runtime_id))
          || negb (embedding_identity_matches (ce_embedding_identity_before e) (ce_embedding_identity_after e))
  then Err (component_failed (lit "embedding_runtime"))
  else if negb (device_policy_valid allow_cpu e) then Err (component_failed (lit "accelerator_proof"))
  else if negb (str_eqb (ce_retrieval_mode e) (lit "full"))
  then Err (lit "mandatory candidate generation did not reach full mode for " ++ project ++ lit ": "
            ++ ce_retrieval_mode e ++ lit " " ++ debug_option (ce_degraded_reason e))
  else Ok tt.

(** What the health probe finds of a manifest. *)
Record SidecarHealth : Type := mkHealth {
  sh_retrieval_mode : str;
  sh_degraded_reason : option str;
  sh_lexical_capable : bool;
  sh_scip_graph : bool;
  sh_semantic_healthy : bool;
  sh_semantic_degraded_reason : option str;
  sh_semantic_capable : bool;
}.
(** The store with its publication rows and everything else in it. *)
Record PubStore (Core : Type) : Type := mkPubStore { ps_rows : PublicationTable; ps_core : Core }.
#[global] Arguments mkPubStore {Core}.
#[global] Arguments ps_rows {Core}.
#[global] Arguments ps_core {Core}.

(** The observations around a publication: the embedding server before and after the probes,
    the files of a generation, and the complete core publication of the store with the deep
    validation of a generation against it. *)
Class CandidateIo (Core Publication : Type) : Type := {
  server_identity_before : result str ProductEmbeddingIdentity;
  server_identity_after : result str ProductEmbeddingIdentity;
  lease_identity : option ProductEmbeddingIdentity;
  accelerator_smoke : result str (option (EmbeddingDeviceReadiness * Z));
  device_readiness : EmbeddingDeviceReadiness;
  probe_sidecar_health : RetrievalIndexManifest → EmbeddingDeviceReadiness → SidecarHealth;
  shard_matches_lexical_input : str → SidecarInputFingerprint → bool;
  revision_text : str → option str;
  vector_health : RetrievalIndexManifest → SidecarInputFingerprint → bool * Z;
  get_complete_index_publication : PubStore Core → result str (option Publication);
  validate_generation_evidence_for_publication : PubStore Core → RetrievalIndexManifest → Publication →
    EmbeddingDeviceReadiness → option ProductEmbeddingIdentity → result str unit;
}.
Context {Core Publication : Type} `{CandidateIo Core Publication}.

Definition read_scip_revision (generation : str) : option str := non_blank (trim <$> revision_text generation).
Definition semantic_ready_point_count (m : RetrievalIndexManifest) (input : SidecarInputFingerprint) : option Z :=
  if (fp_projection_count input <? 0) || (default 0 (embedding_dim m) <? 0) then None
  else let '(ready, points) := vector_health m input in if ready : bool then Some points else None.
Definition validate_candidate_generation (project : str) (input : SidecarInputFingerprint)
    (m : RetrievalIndexManifest) (store : PubStore Core) : result str unit :=
  generation ← ok_or (sidecar_generation m) (lit "mandatory sidecar manifest is missing its generation");
  before ← context (lit "validate managed per-user embedding server identity before final probes")
                   server_identity_before;
  let semantic_points := semantic_ready_point_count m input in
  smoke ← context (lit "validate candidate embedding accelerator with a fresh timed smoke") accelerator_smoke;
  let device := default device_readiness (fst <$> smoke) in
  let status := probe_sidecar_health m device in
  after ← context (lit "validate managed per-user embedding server identity after final probes")
                  server_identity_after;
  _ ← match lease_identity with
      | Some lease =>
          if embedding_identity_matches_lease lease before after then Ok tt
          else Err (lit "embedding engine load generation changed inside the publication fence")
      | None => Err (lit "embedding publication fence is missing its residency lease identity")
      end;
  let evidence :=
    mkEvidence (shard_matches_lexical_input generation input) (read_scip_revision generation) (sh_scip_graph status)
      semantic_points (sh_semantic_capable status)
      (zero_dense input && sh_semantic_healthy status
       && bool_decide (sh_semantic_degraded_reason status = None) && sh_semantic_capable status)
      device (snd <$> smoke) before after (sh_retrieval_mode status) (sh_degraded_reason status) in
  _ ← validate_candidate_generation_evidence project input m evidence;
  publication ← context (lit "load complete core publication at retrieval publication fence")
                        (get_complete_index_publication store);
  publication ← ok_or publication (lit "retrieval publication requires a complete core publication");
  context (lit "deep-validate vector generation at retrieval publication fence")
    (validate_generation_evidence_for_publication store m publication device (Some after)).

(** ** The rollback *)
Definition rollback_candidates (project : str) (active : RetrievalIndexManifest)
    (previous stored : option RetrievalIndexManifest) : list RetrievalIndexManifest :=
  dedup_by (λ l r, bool_decide (sidecar_generation l = sidecar_generation r)) None
    (sort_by (cmp_leb (cmp_on built_at_epoch_ms Z.compare))
       (List.filter (λ c, str_eqb (project_id c) project
                          && negb (bool_decide (sidecar_generation c = sidecar_generation active))
                          && manifest_has_current_sidecar_contract project c)
          (omap id [previous; stored]))).
Definition verified_candidate (store : PubStore Core) (publication : Publication)
    (device : EmbeddingDeviceReadiness) (c : RetrievalIndexManifest) : bool :=
  is_ok (validate_generation_evidence_for_publication store c publication device lease_identity)
  && str_eqb (sh_retrieval_mode (probe_sidecar_health c device)) (lit "full").
Definition prepare_generation_retention `{RollbackJson} (now : Z) (device : EmbeddingDeviceReadiness)
    (project : str) (previous : option RetrievalIndexManifest) (active : RetrievalIndexManifest)
    (store : PubStore Core) : result str (option RetrievalIndexRollbackRecord) :=
  let stored := match get_retrieval_index_publication (ps_rows store) project with
                | Ok (Some (_, Some rollback)) => Some (rb_manifest rollback)
                | Ok _ | Err _ => None
                end in
  publication ← context (lit "load complete core publication for rollback validation")
                        (get_complete_index_publication store);
  Ok (publication ← publication;
      candidate ← List.find (verified_candidate store publication device)
                    (reverse (rollback_candidates project active previous stored));
      Some (mkRollback candidate now)).
End Candidate.

(** ** The publication fence *)
(** What the database answers when the transaction begins, when the row is written and when
    it commits. *)
Record TransactionAnswers : Type := mkAnswers {
  ta_begin : result str unit;
  ta_execute : result str unit;
  ta_commit : result str unit;
}.
Section Fence.
Context {Core T : Type} `{RollbackJson} (answers : TransactionAnswers).

Definition input_changed (stage expected observed : str) : str :=
  lit "sidecar generation input changed while " ++ stage ++ lit ": expected " ++ expected
  ++ lit ", observed " ++ observed.
Definition ensure_sidecar_input_unchanged (expected current : SidecarInputFingerprint) : result str unit :=
  if bool_decide (current = expected) then Ok tt
  else Err (input_changed (lit "manifest publication") (fp_hash expected) (fp_hash current)).
(** Inside the transaction: the store it would commit. *)
Definition stage_publication (expected : SidecarInputFingerprint) (m : RetrievalIndexManifest)
    (current_input : PubStore Core → result str SidecarInputFingerprint)
    (publication_rollback : T → result str (option RetrievalIndexRollbackRecord))
    (ensure_not_cancelled : nat → result str unit) (prepared : T) (store : PubStore Core)
  : result str (PubStore Core) :=
  current ← current_input store;
  _ ← ensure_sidecar_input_unchanged expected current;
  rollback ← publication_rollback prepared;
  _ ← ensure_not_cancelled 1%nat;
  rows ← context (lit "persist atomic retrieval current and rollback pointers")
           (publish_retrieval_index_publication (ta_execute answers) m rollback (ps_rows store));
  _ ← ensure_not_cancelled 2%nat;
  Ok (mkPubStore rows (ps_core store)).
(** [seen n]: the store the validation, the preparation and the transaction find; other
    processes write between them.  The store afterwards comes with the answer. *)
Definition promote_retrieval_manifest_with_cancel (expected : SidecarInputFingerprint) (m : RetrievalIndexManifest)
    (current_input : PubStore Core → result str SidecarInputFingerprint)
    (validate_candidate : PubStore Core → result str unit) (prepare_publication : PubStore Core → result str T)
    (publication_rollback : T → result str (option RetrievalIndexRollbackRecord))
    (ensure_not_cancelled : nat → result str unit) (seen : nat → PubStore Core)
  : result str T * PubStore Core :=
  let store := seen 2%nat in
  match (_ ← ensure_not_cancelled 0%nat; _ ← validate_candidate (seen 0%nat); prepared ← prepare_publication (seen 1%nat);
         _ ← context (lit "lock sidecar input and manifest publication") (ta_begin answers); Ok prepared) with
  | Err error => (Err error, store)
  | Ok prepared =>
      match stage_publication expected m current_input publication_rollback ensure_not_cancelled prepared store with
      | Err error => (Err error, store)
      | Ok staged =>
          match context (lit "commit retrieval manifest publication") (ta_commit answers) with
          | Err error => (Err error, store)
          | Ok _ => (Ok prepared, staged)
          end
      end
  end.
End Fence.

(** ** The marker and retention *)
Record FinalizeIndexOutcome : Type := mkOutcome {
  fo_project_id : str;
  fo_manifest : RetrievalIndexManifest;
  fo_degraded_modes : list str;
  fo_scip_stubbed : bool;
  fo_generation_retention_plan : GenerationRetentionPlan;
  fo_generation_retention : GenerationRetentionApplyReport;
}.
Definition derived_marker `{RollbackJson} (t : PublicationTable) (workspace project : str) (now : Z)
  : result str GenerationRetentionMarker :=
  publication ← context (lit "read committed retrieval publication for retention marker")
                        (get_retrieval_index_publication t project);
  publication ← ok_or publication (lit "committed retrieval publication is missing");
  context (lit "derive generation retention marker from SQLite publication")
    (marker_next workspace publication.1 publication.2 now).
(** The marker that is written, and the error. [write]: what the file system answers. *)
Definition publish_derived_retention_marker `{RollbackJson} (write : GenerationRetentionMarker → result str unit)
    (t : PublicationTable) (workspace project : str) (now : Z) : result str GenerationRetentionMarker :=
  marker ← derived_marker t workspace project now;
  _ ← context (lit "write derived generation retention marker") (write marker);
  Ok marker.
(** The outer [None] is the panic of the plan. *)
Definition retain_published_generations `{RetentionIo} {S : Type} `{OwnedDeletion S} (cache_root storage_path : str)
    (layout : SidecarLayout) (project : str) (marker_error : option str) (state : S)
  : option (result str (GenerationRetentionPlan * GenerationRetentionApplyReport) * S) :=
  let protection := scan_retention_protection cache_root (Some storage_path) (state_file layout) in
  let protection := match marker_error with Some error => scan_error error protection | None => protection end in
  plan ← plan_generation_retention layout project protection;
  Some match fs_remover_new layout with
       | Err error => (Err error, state)
       | Ok remover =>
           let '(apply, state) := apply_generation_retention (H := fs_generation_remover remover) plan state in
           (Ok (plan, apply), state)
       end.

(** ** The end of an index run *)
(** [persist_finalized_manifest], without the qualification hook of test builds.  [cancelled]
    and [revalidate_lease] are what the three checks of the fence find. *)
Class FenceIo (Core : Type) : Type := {
  input_fingerprint : PubStore Core → result str SidecarInputFingerprint;
  store_view : PubStore Core → StoreView;
  cancelled : nat → bool;
  revalidate_lease : nat → result str ProductEmbeddingIdentity;
}.
Record PersistContext : Type := mkContext {
  pc_embedding_runtime_id : str;
  pc_product_runtime_id : str;
  pc_allow_cpu : bool;
  pc_layout : SidecarLayout;
  pc_cache_root : str;
  pc_storage_path : str;
  pc_workspace_id : str;
  pc_previous_manifest : option RetrievalIndexManifest;
  pc_embedding_device : EmbeddingDeviceReadiness;
  pc_scip_stubbed : bool;
}.
Section Persist.
Context {Core Publication S : Type} `{RollbackJson} `{CandidateIo Core Publication} `{FenceIo Core} `{OwnedDeletion S}.
Context (json_counts : list (str * Z) → str) (json_strings : list str → str) (debug_option : option str → str).
(** [fuel] bounds the batches of anchors the staleness check reads; a check that runs out of
    it counts as a failure. *)
Context (fuel : nat) (ctx : PersistContext).

Definition fence_input (project : str) (m : RetrievalIndexManifest) (store : PubStore Core)
  : result str SidecarInputFingerprint :=
  current ← input_fingerprint store;
  match manifest_unavailable_reason_for_runtime (pc_embedding_runtime_id ctx) json_counts fuel project
          (store_view store) m with
  | Some None => Ok current
  | Some (Some reason) =>
      Err (lit "mandatory retrieval sidecar manifest would be unavailable immediately for " ++ project
           ++ lit ": " ++ reason)
  | None => Err (lit "out of fuel")
  end.
Definition fence_check (n : nat) : result str unit :=
  if cancelled n then Err (lit "retrieval index cancelled before retrieval publication commit")
  else
    identity ← context (lit "revalidate embedding server lease before publication") (revalidate_lease n);
    lease ← ok_or lease_identity (lit "embedding publication fence is missing its identity");
    if embedding_identity_matches lease identity then Ok tt
    else Err (lit "embedding engine load generation changed before manifest publication").
Definition finalized (now : Z) (degraded_modes : list str) (m : RetrievalIndexManifest) : RetrievalIndexManifest :=
  mkRetrievalIndexManifest (project_id m) (lexical_version m) (semantic_generation m) (scip_revision m) now (disk_bytes m)
    (json_strings degraded_modes) (embedding_backend m) (embedding_dim m) (sidecar_schema_version m)
    (sidecar_input_hash m) (sidecar_generation m) (projection_count m) (symbol_doc_count m) (dense_projection_count m)
    (semantic_policy_version m) (graph_artifact_hash m) (dense_reason_counts_json m) (precise_semantic_import_status m)
    (precise_semantic_import_reason m) (precise_semantic_import_revision m) (precise_semantic_import_producer m).
(** The publication of a finalized manifest. [clock n]: the [n]-th reading of the clock. *)
Definition publish_finalized (answers : TransactionAnswers) (clock : nat → Z) (input : SidecarInputFingerprint)
    (project : str) (m : RetrievalIndexManifest) (seen : nat → PubStore Core)
  : result str (option RetrievalIndexRollbackRecord) * PubStore Core :=
  if bool_decide (lease_identity = None)
  then (Err (lit "embedding publication fence is missing its residency lease identity"), seen 2%nat)
  else
    promote_retrieval_manifest_with_cancel answers input m (fence_input project m)
      (validate_candidate_generation (pc_embedding_runtime_id ctx) (pc_product_runtime_id ctx) (pc_allow_cpu ctx)
         debug_option project input m)
      (prepare_generation_retention (clock 1%nat) (pc_embedding_device ctx) project (pc_previous_manifest ctx) m)
      Ok fence_check seen.
(** [io_after]: the files and stores as retention finds them after the publication.  The
    outer [None] is the panic of the plan. *)
Definition persist_finalized_manifest (open : result str unit) (answers : TransactionAnswers) (clock : nat → Z)
    (write_marker : GenerationRetentionMarker → result str unit)
    (io_after : PubStore Core → result str GenerationRetentionMarker → RetentionIo)
    (input : SidecarInputFingerprint) (project : str) (m : RetrievalIndexManifest) (degraded_modes : list str)
    (seen : nat → PubStore Core) (state : S)
  : option (result str FinalizeIndexOutcome * PubStore Core * S) :=
  let m := finalized (clock 0%nat) degraded_modes m in
  match context (lit "open storage for retrieval manifest") open with
  | Err error => Some (Err error, seen 2%nat, state)
  | Ok _ =>
      match publish_finalized answers clock input project m seen with
      | (Err error, store) => Some (Err error, store, state)
      | (Ok _, store) =>
          let marker := publish_derived_retention_marker write_marker (ps_rows store) (pc_workspace_id ctx) project
                          (clock 2%nat) in
          let marker_error := match marker with
                              | Ok _ => None
                              | Err error => Some (lit "publish derived generation retention marker: " ++ error)
                              end in
          retained ← retain_published_generations (H := io_after store marker) (pc_cache_root ctx)
                       (pc_storage_path ctx) (pc_layout ctx) project marker_error state;
          Some match retained with
               | (Err error, state) => (Err error, store, state)
               | (Ok (plan, apply), state) =>
                   (Ok (mkOutcome project m degraded_modes (pc_scip_stubbed ctx) plan apply), store, state)
               end
      end
  end.
End Persist.
