(* ===== verification/RetrievalPublicationProofs.v ===== *)
(** * Properties of publication

    Publication as one atomic change, the choice of the rollback, and retention after a
    publication. *)
From S2P Require Import Prelude RustStr RetrievalData Sorting StrOps UnixPath Collections WorkspacePaths.
From S2P Require Import LexicalIndex Retention RetentionProofs RetentionInventory RetrievalPublication.

(** ** The publication table *)
Lemma published_row `{RollbackJson} m rollback : validate_rollback_record m rollback = Ok tt →
  publication_from_row (mkRow m (rollback_to_json <$> rollback)) = Ok (m, rollback).
Proof.
  intros Hv. unfold publication_from_row. cbn [row_rollback_record_json row_manifest].
  destruct rollback as [r|]; cbn [fmap option_fmap option_map].
  - rewrite rollback_json_law. cbn [mbind result_bind]. by rewrite Hv.
  - cbn [mbind result_bind]. by rewrite Hv.
Qed.

(** A publication is read back.  Publishing a manifest and its rollback either fails and
    says why, or makes exactly this pair the answer for the project, in one row, and leaves
    the answers for every other project; publishing without a rollback clears an old one. *)
Theorem publication_read_back `{RollbackJson} execute m rollback t :
  match publish_retrieval_index_publication execute m rollback t with
  | Ok t' =>
      validate_rollback_record m rollback = Ok tt ∧ execute = Ok tt ∧
      get_retrieval_index_publication t' (project_id m) = Ok (Some (m, rollback)) ∧
      get_retrieval_index_manifest t' (project_id m) = Some m ∧
      ∀ other, other ≠ project_id m →
        get_retrieval_index_publication t' other = get_retrieval_index_publication t other ∧
        get_retrieval_index_manifest t' other = get_retrieval_index_manifest t other
  | Err error =>
      validate_rollback_record m rollback = Err error ∨
      validate_rollback_record m rollback = Ok tt ∧ execute = Err error
  end.
Proof.
  unfold publish_retrieval_index_publication.
  destruct (validate_rollback_record m rollback) as [[]|e] eqn:Ev; cbn [mbind result_bind]; [|by left].
  destruct execute as [[]|e]; cbn [mbind result_bind]; [|by right].
  unfold get_retrieval_index_publication, get_retrieval_index_manifest.
  split_and!; [done..| | |].
  - rewrite lookup_insert_eq, published_row by done. done.
  - by rewrite lookup_insert_eq.
  - intros other Hne. by rewrite lookup_insert_ne by done.
Qed.

(** ** The fence *)
(** The store with a pair of pointers replaced. *)
Definition committed `{RollbackJson} {Core} (store store' : PubStore Core) (m : RetrievalIndexManifest)
    (rollback : option RetrievalIndexRollbackRecord) : Prop :=
  ps_core store' = ps_core store ∧ validate_rollback_record m rollback = Ok tt ∧
  ps_rows store' = <[project_id m := mkRow m (rollback_to_json <$> rollback)]> (ps_rows store).
Lemma committed_pair `{RollbackJson} {Core} (store store' : PubStore Core) m rollback :
  committed store store' m rollback →
  get_retrieval_index_publication (ps_rows store') (project_id m) = Ok (Some (m, rollback)).
Proof.
  intros (_ & Hv & ->). unfold get_retrieval_index_publication. by rewrite lookup_insert_eq, published_row.
Qed.
Lemma context_ok {A} text (r : result str A) a : context text r = Ok a → r = Ok a.
Proof. by destruct r. Qed.
Lemma bind_ok {A B} (r : result str A) (f : A → result str B) b : (a ← r; f a) = Ok b → ∃ a, r = Ok a ∧ f a = Ok b.
Proof. destruct r as [a|]; [|done]. intros H. by exists a. Qed.
Ltac open_binds :=
  repeat match goal with
    | H : mbind _ _ = Ok _ |- _ => apply bind_ok in H as (? & ? & H)
    | H : Retention.context _ _ = Ok _ |- _ => apply context_ok in H
    | u : unit |- _ => destruct u
    end.

(** Everything the fence asks for. *)
Record promotable `{RollbackJson} {Core T} (answers : TransactionAnswers) (expected : SidecarInputFingerprint)
    (m : RetrievalIndexManifest) (current_input : PubStore Core → result str SidecarInputFingerprint)
    (validate_candidate : PubStore Core → result str unit) (prepare_publication : PubStore Core → result str T)
    (publication_rollback : T → result str (option RetrievalIndexRollbackRecord))
    (ensure_not_cancelled : nat → result str unit) (seen : nat → PubStore Core)
    (prepared : T) (rollback : option RetrievalIndexRollbackRecord) : Prop := {
  pm_not_cancelled n : (n < 3)%nat → ensure_not_cancelled n = Ok tt;
  pm_valid : validate_candidate (seen 0%nat) = Ok tt;
  pm_prepared : prepare_publication (seen 1%nat) = Ok prepared;
  pm_input : current_input (seen 2%nat) = Ok expected;
  pm_rollback : publication_rollback prepared = Ok rollback;
  pm_record : validate_rollback_record m rollback = Ok tt;
  pm_database : ta_begin answers = Ok tt ∧ ta_execute answers = Ok tt ∧ ta_commit answers = Ok tt;
}.

(** [C25] Publication is one atomic change.  Promotion answers with what it prepared exactly
    when no check finds a cancellation, the candidate is valid, the store inside the
    transaction has the expected input, the rollback is a distinct verified generation and
    the database does as it is told; the store afterwards is the one the transaction saw
    with the two pointers of the project replaced and nothing else changed.  With any error
    the store is as the transaction found it. *)
Theorem publication_atomic `{RollbackJson} {Core T} answers expected m current_input validate_candidate
    (prepare_publication : PubStore Core → result str T) publication_rollback ensure_not_cancelled seen :
  let fence := promotable answers expected m current_input validate_candidate prepare_publication
                 publication_rollback ensure_not_cancelled seen in
  match promote_retrieval_manifest_with_cancel answers expected m current_input validate_candidate
          prepare_publication publication_rollback ensure_not_cancelled seen with
  | (Ok prepared, store) => ∃ rollback, fence prepared rollback ∧ committed (seen 2%nat) store m rollback
  | (Err _, store) => store = seen 2%nat ∧ ∀ prepared rollback, ¬ fence prepared rollback
  end.
Proof.
  unfold promote_retrieval_manifest_with_cancel. cbv zeta.
  destruct (mbind _ _) as [prepared|] eqn:E1; cycle 1.
  { split; [done|]. intros prepared rollback [Hc Hv Hp _ _ _ (Hb & _)].
    by rewrite (Hc 0%nat), Hv, Hp, Hb in E1 by lia. }
  destruct (stage_publication _ _ _ _ _ _ _ _) as [staged|] eqn:E2; cycle 1.
  { split; [done|]. intros prepared' rollback [Hc Hv Hp Hi Hr Hm (Hb & He & _)].
    rewrite (Hc 0%nat), Hv, Hp, Hb in E1 by lia. injection E1 as <-.
    unfold stage_publication, publish_retrieval_index_publication, ensure_sidecar_input_unchanged in E2.
    rewrite Hi in E2. cbn [mbind result_bind] in E2. rewrite bool_decide_eq_true_2 in E2 by done. cbn [mbind result_bind] in E2.
    rewrite Hr in E2. cbn [mbind result_bind] in E2.
    by rewrite (Hc 1%nat), Hm, He, (Hc 2%nat) in E2 by lia. }
  destruct (context _ (ta_commit answers)) as [[]|] eqn:E3; cycle 1.
  { split; [done|]. intros prepared' rollback Hf. destruct (pm_database _ _ _ _ _ _ _ _ _ _ _ Hf) as (_ & _ & Hc).
    by rewrite Hc in E3. }
  unfold stage_publication, publish_retrieval_index_publication, ensure_sidecar_input_unchanged in E2.
  open_binds. injection E1 as ->. injection E2 as <-. open_binds. case_bool_decide; [subst|done].
  repeat match goal with H : Ok _ = Ok _ |- _ => injection H as <- end.
  eexists. split; [split; [|done..|by split_and!]|by split_and!]. by intros [|[|[|n]]] Hn; [..|lia].
Qed.

(** Trimming keeps a byte that no whitespace has. *)
Lemma strip_one_suffix ws s s' : strip_one ws s = Some s' → ∃ w, w ∈ ws ∧ s = w ++ s'.
Proof.
  induction ws as [|w ws IH]; [done|]. cbn [strip_one]. destruct (starts_with s w) eqn:E.
  - intros [= <-]. exists w. split; [left|]. clear -E. revert s E.
    induction w as [|x w IH]; intros [|y s]; [done..|]. cbn. intros [->%Ascii.eqb_eq H]%andb_true_iff. by rewrite <- IH.
  - intros (w' & Hw & ->)%IH. exists w'. split; [by right|done].
Qed.
Lemma strip_all_keeps ws c n s : (∀ w, w ∈ ws → c ∉ w) → c ∈ s → c ∈ strip_all ws n s.
Proof.
  intros Hws. revert s. induction n as [|n IH]; intros s Hc; [done|]. cbn [strip_all].
  destruct (strip_one ws s) as [s'|] eqn:E; [|done]. apply strip_one_suffix in E as (w & Hw & ->). apply IH.
  apply elem_of_app in Hc as [Hc | Hc]; [by apply Hws in Hw|done].
Qed.
Lemma byte_not_blank c s : Forall (λ w, c ∉ w) utf8_whitespace → c ∈ s → trim s ≠ [].
Proof.
  intros Hc Hs. rewrite Forall_forall in Hc.
  assert (c ∈ trim s) as Hin; [|by intros E; rewrite E in Hin; apply elem_of_nil in Hin].
  unfold trim, trim_end, trim_start. apply elem_of_reverse, strip_all_keeps.
  - intros w (w' & -> & Hw)%list_elem_of_fmap. rewrite elem_of_reverse. by apply Hc.
  - by apply elem_of_reverse, strip_all_keeps.
Qed.

(** ** The rollback *)
Lemma dedup_by_id {A B} (same : A → A → bool) (f : A → B) (Hsame : ∀ a b, same a b = true → f a = f b) l :
  NoDup (f <$> l) → ∀ last, (∀ y, last = Some y → f y ∉ f <$> l) → dedup_by same last l = l.
Proof.
  induction l as [|a l IH]; intros Hd last Hlast; [done|]. cbn [dedup_by]. cbn in Hd. apply NoDup_cons in Hd as [Ha Hd].
  assert (match last with Some y => same a y | None => false end = false) as ->.
  { destruct last as [y|]; [|done]. destruct (same a y) eqn:E; [|done]. apply Hsame in E.
    destruct (Hlast y eq_refl). cbn. rewrite <- E. left. }
  f_equal. apply IH; [done|]. by intros y [= <-].
Qed.
(** The last of a sorted list that passes a test. *)
Lemma find_last_sorted {A} (key : A → Z) (f : A → bool) l :
  sorted_by (cmp_leb (cmp_on key Z.compare)) l →
  match List.find f (reverse l) with
  | Some x => x ∈ l ∧ f x = true ∧ ∀ y, y ∈ l → f y = true → key y ≤ key x
  | None => ∀ y, y ∈ l → f y = false
  end.
Proof.
  induction l as [|a l IH] using rev_ind; [by intros _ y ?%elem_of_nil|]. intros Hs. rewrite reverse_snoc. cbn [List.find].
  assert (∀ y, y ∈ l → key y ≤ key a) as Hle.
  { intros y Hy. apply (StronglySorted_app_1_elem_of _ _ _ y a) in Hs; [|done|by left].
    unfold cmp_leb, cmp_on in Hs. destruct (Z.compare_spec (key y) (key a)); [lia..|done]. }
  apply StronglySorted_app_1_l in Hs. destruct (f a) eqn:Ea.
  - split; [apply elem_of_app; right; left|]. split; [done|].
    intros y [Hy | ->%list_elem_of_singleton]%elem_of_app _; [by apply Hle|lia].
  - specialize (IH Hs). destruct (List.find f (reverse l)) as [x|].
    + destruct IH as (Hx & Hf & Hmax). split; [apply elem_of_app; by left|]. split; [done|].
      intros y [Hy | ->%list_elem_of_singleton]%elem_of_app Hfy; [by apply Hmax|congruence].
    + intros y [Hy | ->%list_elem_of_singleton]%elem_of_app; [by apply IH|done].
Qed.
Lemma non_blank_some o s : non_blank o = Some s → o = Some s ∧ trim s ≠ [].
Proof. destruct o as [x|]; [|done]. unfold non_blank. cbn. case_bool_decide; [done|]. by intros [= <-]. Qed.
Lemma rollback_distinct m r : validate_rollback_record m (Some r) = Ok tt →
  sidecar_generation (rb_manifest r) ≠ sidecar_generation m.
Proof.
  unfold validate_rollback_record. destruct (non_blank (sidecar_generation m)) as [g|] eqn:E1; [|done].
  destruct (non_blank (sidecar_generation (rb_manifest r))) as [g'|] eqn:E2; [|done]. cbn [ok_or mbind result_bind].
  apply non_blank_some in E1 as [-> _], E2 as [-> _]. destruct (str_eqb g' g) eqn:E; [by rewrite orb_true_r|].
  intros _ [= ->]. by rewrite str_eqb_refl in E.
Qed.

Lemma rollback_project m r : validate_rollback_record m (Some r) = Ok tt → project_id (rb_manifest r) = project_id m.
Proof.
  unfold validate_rollback_record. destruct (non_blank (sidecar_generation m)) as [g|]; [|done].
  destruct (non_blank (sidecar_generation (rb_manifest r))) as [g'|]; [|done]. cbn [ok_or mbind result_bind].
  destruct (str_eqb _ (project_id m)) eqn:E; [|done]. by apply str_eqb_eq in E.
Qed.

Section Rollback.
Context `{RollbackJson} {Core Publication : Type} `{CandidateIo Core Publication}.

(** The manifests that may be kept: the one published before and its own rollback, of the
    project, under the current contract and of another generation. *)
Definition rollback_candidate (project : str) (active : RetrievalIndexManifest) (store : PubStore Core)
    (c : RetrievalIndexManifest) : Prop :=
  (get_retrieval_index_manifest (ps_rows store) project = Some c ∨
   ∃ m r, get_retrieval_index_publication (ps_rows store) project = Ok (Some (m, Some r)) ∧ rb_manifest r = c) ∧
  project_id c = project ∧ sidecar_generation c ≠ sidecar_generation active ∧
  manifest_has_current_sidecar_contract project c = true.
Definition stored_rollback (project : str) (store : PubStore Core) : option RetrievalIndexManifest :=
  match get_retrieval_index_publication (ps_rows store) project with
  | Ok (Some (_, Some rollback)) => Some (rb_manifest rollback)
  | Ok _ | Err _ => None
  end.
Lemma accepted_row project (store : PubStore Core) m r :
  get_retrieval_index_publication (ps_rows store) project = Ok (Some (m, r)) →
  get_retrieval_index_manifest (ps_rows store) project = Some m ∧ validate_rollback_record m r = Ok tt.
Proof.
  unfold get_retrieval_index_publication, get_retrieval_index_manifest. destruct (ps_rows store !! project) as [row|]; [|done].
  intros (p & Hp & [= ->])%bind_ok. unfold publication_from_row in Hp. apply bind_ok in Hp as (rb & _ & Hp).
  apply bind_ok in Hp as ([] & Hv & [= <- <-]). by split.
Qed.
Lemma rollback_candidates_sorted project active store :
  let l := rollback_candidates project active (get_retrieval_index_manifest (ps_rows store) project)
             (stored_rollback project store) in
  sorted_by (cmp_leb (cmp_on built_at_epoch_ms Z.compare)) l ∧
  ∀ c, c ∈ l ↔ rollback_candidate project active store c.
Proof.
  unfold rollback_candidates. cbv zeta. set (given := omap id _). set (kept := List.filter _ given).
  assert (∀ c, c ∈ kept ↔ c ∈ given ∧ project_id c = project ∧ sidecar_generation c ≠ sidecar_generation active ∧
    manifest_has_current_sidecar_contract project c = true) as Hk.
  { intros c. subst kept. rewrite list_elem_of_In, filter_In, <- list_elem_of_In, !andb_true_iff, negb_true_iff,
      bool_decide_eq_false. split; [intros (? & [Hp ?] & ?)|intros (? & -> & ? & ?)].
    - apply str_eqb_eq in Hp. by split_and!.
    - split_and!; [done| |done..]. by apply str_eqb_refl. }
  assert (NoDup (sidecar_generation <$> kept)) as Hd.
  { assert (NoDup (sidecar_generation <$> given)) as Hg.
    { subst given. unfold stored_rollback.
      destruct (get_retrieval_index_publication (ps_rows store) project) as [[[m [r|]]|]|] eqn:E.
      2-4: destruct (get_retrieval_index_manifest _ _); cbn; repeat constructor; by intros ?%elem_of_nil.
      apply accepted_row in E as [-> Hv]. apply rollback_distinct in Hv. cbn. apply NoDup_cons.
      split; [|repeat constructor; by intros ?%elem_of_nil]. intros E%list_elem_of_singleton. by rewrite E in Hv. }
    subst kept. clear -Hg. induction given as [|a l IH]; [done|]. cbn in Hg. apply NoDup_cons in Hg as [Ha Hd].
    cbn [List.filter]. destruct (_ && _); [|by apply IH]. cbn. apply NoDup_cons. split; [|by apply IH].
    intros (x & Ex & Hx)%list_elem_of_fmap. apply Ha. rewrite Ex. apply list_elem_of_fmap. exists x. split; [done|].
    apply list_elem_of_In, filter_In in Hx as [Hx _]. by apply list_elem_of_In. }
  rewrite (dedup_by_id _ sidecar_generation).
  - split; [apply (cmp_sorted (λ _, True) _ (CmpLaws0 := on_laws built_at_epoch_ms Z.compare _)); by apply Forall_true|].
    intros c. rewrite (sort_by_perm _ kept), Hk. unfold rollback_candidate.
    assert (c ∈ given ↔ get_retrieval_index_manifest (ps_rows store) project = Some c ∨
      ∃ m r, get_retrieval_index_publication (ps_rows store) project = Ok (Some (m, Some r)) ∧ rb_manifest r = c) as ->;
      [|tauto].
    subst given. unfold stored_rollback. rewrite list_elem_of_omap. unfold id. split.
    + intros (o & Ho & Eo). subst o. apply elem_of_cons in Ho as [Ho | Ho%list_elem_of_singleton]; [by left|right].
      destruct (get_retrieval_index_publication _ _) as [[[m [r|]]|]|]; [|done..]. injection Ho as ->. by exists m, r.
    + intros [Ho | (m & r & E & <-)]; (eexists; split; [|done]); [rewrite Ho; left|rewrite E; right; left].
  - intros a b E. by apply bool_decide_eq_true in E.
  - by rewrite (sort_by_perm _ kept).
  - done.
Qed.

Lemma contract_facts project m : manifest_has_current_sidecar_contract project m = true →
  ∃ hash, sidecar_input_hash m = Some hash ∧ trim hash ≠ [] ∧
    sidecar_generation m = Some (sidecar_generation_id project hash) ∧
    semantic_generation m = sidecar_vector_generation project hash.
Proof.
  unfold manifest_has_current_sidecar_contract. destruct (sidecar_input_hash m) as [hash|]; [|done].
  rewrite !andb_true_iff, negb_true_iff, bool_decide_eq_false, !bool_decide_eq_true.
  intros (((((((((((Hb & _) & _) & Hg) & Hs) & _) & _) & _) & _) & _) & _) & _). exists hash.
  apply str_eqb_eq in Hs. by split_and!.
Qed.
Lemma generation_not_blank project hash : trim (sidecar_generation_id project hash) ≠ [].
Proof.
  apply (byte_not_blank "-"%char); [by apply (bool_decide_eq_true_1 _); vm_compute|].
  unfold sidecar_generation_id. rewrite !elem_of_app. right. left. left.
Qed.
Lemma collection_not_blank project hash : trim (sidecar_vector_generation project hash) ≠ [].
Proof. apply (byte_not_blank "c"%char); [by apply (bool_decide_eq_true_1 _); vm_compute|]. left. Qed.
Lemma candidate_accepted now project active store c : 0 ≤ now → project_id active = project →
  manifest_has_current_sidecar_contract project active = true → rollback_candidate project active store c →
  validate_rollback_record active (Some (mkRollback c now)) = Ok tt.
Proof.
  intros Hnow Hp Hactive (_ & Hcp & Hne & Hcon). unfold validate_rollback_record. cbn [rb_manifest rb_verified_at_epoch_ms].
  apply contract_facts in Hactive as (h & _ & _ & Hg & _). apply contract_facts in Hcon as (h' & Hh' & Hb & Hg' & Hs).
  rewrite Hg, Hg', Hh', Hs. unfold non_blank. cbn [mbind option_bind].
  rewrite !(bool_decide_eq_false_2 _ (generation_not_blank _ _)), (bool_decide_eq_false_2 _ Hb).
  cbn [ok_or mbind result_bind]. rewrite (bool_decide_eq_false_2 _ (collection_not_blank _ _)).
  rewrite Hcp, Hp, str_eqb_refl, (bool_decide_eq_false_2 (Some h' = None)) by done.
  rewrite (proj2 (Z.ltb_ge now 0)) by done.
  destruct (str_eqb (sidecar_generation_id project h') (sidecar_generation_id project h)) eqn:E; [|done].
  apply str_eqb_eq in E. destruct Hne. by rewrite Hg, Hg', E.
Qed.

(** The rollback of a publication.  Preparation fails only when the core publication
    cannot be read.  Otherwise the rollback is the newest of the manifest published before
    and its own rollback that belongs to the project, is another generation under the
    current contract, and is verified now, vectors and health, and there is none only if
    neither is verified or no core publication is complete; the store accepts it beside the
    new manifest. *)
Theorem rollback_choice now device project active (store : PubStore Core) :
  match prepare_generation_retention now device project (get_retrieval_index_manifest (ps_rows store) project) active
          store with
  | Err error => ∃ e, get_complete_index_publication store = Err e
  | Ok None => get_complete_index_publication store = Ok None ∨
      ∃ publication, get_complete_index_publication store = Ok (Some publication) ∧
        ∀ c, rollback_candidate project active store c → verified_candidate store publication device c = false
  | Ok (Some r) => ∃ publication, get_complete_index_publication store = Ok (Some publication) ∧
      rollback_candidate project active store (rb_manifest r) ∧
      verified_candidate store publication device (rb_manifest r) = true ∧
      rb_verified_at_epoch_ms r = now ∧
      (∀ c, rollback_candidate project active store c → verified_candidate store publication device c = true →
        built_at_epoch_ms c ≤ built_at_epoch_ms (rb_manifest r)) ∧
      (0 ≤ now → project_id active = project → manifest_has_current_sidecar_contract project active = true →
        validate_rollback_record active (Some r) = Ok tt)
  end.
Proof.
  unfold prepare_generation_retention. fold (stored_rollback project store).
  destruct (rollback_candidates_sorted project active store) as [Hs Hc].
  set (l := rollback_candidates _ _ _ _) in *.
  destruct (get_complete_index_publication store) as [[publication|]|e] eqn:Ep;
    cbn [Retention.context mbind result_bind option_bind]; [|by left|by exists e].
  pose proof (find_last_sorted built_at_epoch_ms (verified_candidate store publication device) l Hs) as Hf.
  destruct (List.find _ (reverse l)) as [c|]; cbn [option_bind rb_manifest rb_verified_at_epoch_ms].
  - destruct Hf as (Hin & Hv & Hmax). apply Hc in Hin as Hcand. exists publication.
    split_and!; [done..| |].
    + intros c' Hc' Hv'. apply Hmax; [by apply Hc|done].
    + intros Hnow Hp Hcon. by apply candidate_accepted with project store.
  - right. exists publication. split; [done|]. intros c Hcand. by apply Hf, Hc.
Qed.
End Rollback.

(** ** Retention after a publication *)
Lemma bs_insert_keeps {K} (cmp : K → K → comparison) s k x : x ∈ s → x ∈ bs_insert cmp s k.
Proof.
  induction s as [|y s IH]; [by intros ?%elem_of_nil|]. cbn. intros Hx. destruct (cmp k y); [done|by right|].
  apply elem_of_cons in Hx as [-> | Hx]; [left|right; by apply IH].
Qed.
Lemma insert_direct_keeps `{RetentionIo} path label s x : x ∈ s.1 → x ∈ (insert_direct_storage_path path label s).1.
Proof.
  destruct s as [paths errors]. unfold insert_direct_storage_path. intros Hx.
  destruct (dir_lookup path) as [node|e]; [destruct (is_direct_file node)|destruct (is_not_found e)]; try done.
  by apply bs_insert_keeps.
Qed.
Lemma visit_cache_keeps `{RetentionIo} root item s x : x ∈ s.1 → x ∈ (visit_cache_entry root s item).1.
Proof.
  intros Hx. destruct item as [e|name ft target]; [done|]. cbn. destruct ft as [[]|e]; try done.
  by apply insert_direct_keeps.
Qed.
(** The store of the publication is scanned when it is a regular file. *)
Lemma active_storage_scanned `{RetentionIo} cache_root storage n : dir_lookup storage = Ok (NFile n) →
  storage ∈ (storage_paths_for_scan cache_root (Some storage) []).1.
Proof.
  intros Hf. unfold storage_paths_for_scan. cbn [insert_direct_storage_path]. rewrite Hf. cbn [is_direct_file].
  assert (storage ∈ (insert_direct_storage_path (path_join cache_root (lit "codestory.db")) (lit "flat cache storage")
    (bs_insert path_cmp [] storage, [])).1) as H1 by (apply insert_direct_keeps; left).
  destruct (negb (path_exists cache_root)); [done|]. destruct (read_dir cache_root) as [items|e]; [|done].
  revert H1. generalize (insert_direct_storage_path (path_join cache_root (lit "codestory.db")) (lit "flat cache storage")
    (bs_insert path_cmp [] storage, [])). induction items as [|item items IH]; intros s Hs; [done|].
  cbn [foldl]. by apply IH, visit_cache_keeps.
Qed.
(** The removals of a report are those of its reclaimable bundles. *)
Lemma remove_bundle_generation {S} (R : GenerationRemover S) b s :
  gr_generation (remove_bundle (H := R) b s).1 = gb_generation b.
Proof.
  unfold remove_bundle. destruct (remove_vector_generation _ s) as [answer s'].
  match goal with |- context [foldl remove_artifact (?r, s') ?l] =>
    pose proof (proj1 (remove_artifacts_sizes R l r s')) as Hg; destruct (foldl remove_artifact (r, s') l) as [r' s''] end.
  cbn in *. rewrite Hg. by destruct answer as [[]|e].
Qed.
Lemma removal_bundle {S} (R : GenerationRemover S) plan state r :
  r ∈ ar_removals (apply_generation_retention (H := R) plan state).1 →
  ∃ b, b ∈ reclaimable_bundles plan ∧ gr_generation r = gb_generation b.
Proof.
  unfold apply_generation_retention. destruct (rp_pruning_suppressed plan); [by intros ?%elem_of_nil|].
  assert (∀ bundles n rs s, (∀ r, r ∈ rs → ∃ b, b ∈ reclaimable_bundles plan ∧ gr_generation r = gb_generation b) →
    bundles ⊆ reclaimable_bundles plan → ∀ r, r ∈ (foldl (remove_next (H := R)) (n, rs, s) bundles).1.2 →
    ∃ b, b ∈ reclaimable_bundles plan ∧ gr_generation r = gb_generation b) as Hall.
  { induction bundles as [|b bundles IH]; intros n rs s Hrs Hsub r' Hr'; [by apply Hrs|]. cbn [foldl] in Hr'.
    unfold remove_next at 2 in Hr'. pose proof (remove_bundle_generation R b s) as Hg.
    destruct (remove_bundle b s) as [rb s']. cbn in Hg. revert Hr'. apply IH; [|set_solver].
    intros r2 [Hr2 | ->%list_elem_of_singleton]%elem_of_app; [by apply Hrs|]. exists b. split; [set_solver|done]. }
  specialize (Hall (reclaimable_bundles plan) 0 [] state ltac:(by intros ? ?%elem_of_nil) ltac:(done)).
  destruct (foldl remove_next _ _) as [[n rs] s]. cbn in *. apply Hall.
Qed.
Lemma publications_elem `{RollbackJson} rows l : publications_from_rows rows = Ok l →
  ∀ row, row ∈ rows → ∃ p, publication_from_row row = Ok p ∧ p ∈ l.
Proof.
  revert l. induction rows as [|row rows IH]; intros l; cbn [publications_from_rows]; [by intros _ ? ?%elem_of_nil|].
  intros (p & Hp & (rest & Hr & [= <-])%bind_ok)%bind_ok row' [-> | Hrow]%elem_of_cons.
  - exists p. split; [done|left].
  - destruct (IH rest Hr row' Hrow) as (p' & ? & ?). exists p'. split; [done|by right].
Qed.
(** What a store publishes is among its publications. *)
Lemma committed_listed `{RollbackJson} {Core} (store store' : PubStore Core) m rollback l :
  committed store store' m rollback → list_publications (ps_rows store') = Ok l → (m, rollback) ∈ l.
Proof.
  intros (_ & Hv & Hrows) Hl. unfold list_publications in Hl.
  destruct (publications_elem _ _ Hl (mkRow m (rollback_to_json <$> rollback))) as (p & Hp & Hin).
  - apply list_elem_of_fmap. exists (project_id m, mkRow m (rollback_to_json <$> rollback)). split; [done|].
    apply elem_of_map_to_list. by rewrite Hrows, lookup_insert_eq.
  - rewrite published_row in Hp by done. by injection Hp as <-.
Qed.

(** ** The end of an index run *)
Section Persist.
Context {Core Publication S : Type} `{RollbackJson} `{CandidateIo Core Publication} `{FenceIo Core} `{OwnedDeletion S}.
Context (json_counts : list (str * Z) → str) (json_strings : list str → str) (debug_option : option str → str).
Context (fuel : nat) (ctx : PersistContext).

Lemma publish_finalized_cases answers clock input project m seen :
  match publish_finalized json_counts debug_option fuel ctx answers clock input project m seen with
  | (Ok rollback, store) => input_fingerprint (seen 2%nat) = Ok input ∧ committed (seen 2%nat) store m rollback
  | (Err _, store) => store = seen 2%nat
  end.
Proof.
  unfold publish_finalized. case_bool_decide; [done|].
  match goal with |- context [promote_retrieval_manifest_with_cancel ?a ?e ?m ?ci ?vc ?pp ?pr ?nc ?s] =>
    pose proof (publication_atomic a e m ci vc pp pr nc s) as Ha end. cbv zeta in Ha.
  destruct (promote_retrieval_manifest_with_cancel _ _ _ _ _ _ _ _ _) as [[rollback|e] store].
  - destruct Ha as (rb & [_ _ _ Hi Hr _ _] & Hc). injection Hr as ->. split; [|done].
    unfold fence_input in Hi. apply bind_ok in Hi as (current & Hi & Hu).
    destruct (manifest_unavailable_reason_for_runtime _ _ _ _ _ _) as [[reason|]|]; [done| |done].
    by injection Hu as ->.
  - by destruct Ha.
Qed.
(** Retention after a commit, under a scan of the committed store. *)
Lemma retained_unpublished `{RetentionIo} storage cache_root layout project m rollback store store' marker_error
    (state : S) (n : N) :
  project_id m = project → committed store store' m rollback →
  list_retrieval_index_publications storage = list_publications (ps_rows (Core := Core) store') →
  dir_lookup storage = Ok (NFile n) →
  ∃ answer state', retain_published_generations cache_root storage layout project marker_error state
    = Some (answer, state') ∧
  match answer with
  | Err _ => ∃ e, fs_remover_new layout = Err e
  | Ok (plan, apply) => ∀ removal kept, removal ∈ ar_removals apply →
      kept = m ∨ (∃ r, rollback = Some r ∧ kept = rb_manifest r) → sidecar_generation kept ≠ Some (gr_generation removal)
  end.
Proof.
  intros Hp Hc Hl Hf. unfold retain_published_generations, plan_generation_retention.
  set (protection := match marker_error with Some e => _ | None => _ end).
  destruct (plan_total layout project protection Reclaimable) as (active & rb & plan & -> & Hfacts). cbn [mbind option_bind].
  destruct (fs_remover_new layout) as [remover|e]; [|by eexists _, _; split; [done|eexists]].
  pose proof (removal_bundle (fs_generation_remover remover) plan state) as Hrem.
  destruct (apply_generation_retention plan state) as [apply state']. cbn in Hrem.
  eexists _, _. split; [done|]. intros removal kept (b & Hb & ->)%Hrem Hk Hg.
  destruct (reclaimable_facts _ _ _ _ _ _ _ Hfacts Hb) as (He & _).
  destruct (pf_clean _ _ _ _ _ _ _ Hfacts He) as (Hpe & _).
  subst protection. destruct marker_error as [e|]; [by apply error_errors in Hpe|].
  pose proof (active_storage_scanned cache_root storage n Hf) as Hin.
  pose proof (scan_reads_stores cache_root (Some storage) _ Hpe storage Hin) as Hok.
  rewrite Hl in Hok. destruct (list_publications (ps_rows store')) as [l|] eqn:El; [|done].
  pose proof (committed_listed _ _ _ _ _ Hc El) as Hm.
  assert (published (storage_paths_for_scan cache_root (Some storage) []).1 kept ∧ project_id kept = project) as [Hpub Hkp].
  { destruct Hk as [-> | (r & -> & ->)].
    - split; [|done]. exists storage, l, rollback. split; [done|]. rewrite Hl. split; [done|by left].
    - split; [exists storage, l, None; split; [done|]; rewrite Hl; split; [done|right; by exists m, r]|].
      destruct Hc as (_ & Hv & _). by rewrite (rollback_project m r Hv). }
  by apply (reclaimable_unprotected cache_root (Some storage) layout project active rb plan b kept Hfacts Hb (or_introl Hpub)).
Qed.

(** [C5] An index run never removes what it publishes.  The end of a run always answers.
    With an outcome, the outcome's manifest is the current one of the project in the store,
    the input was the expected one when it was committed, and retention has removed neither
    its generation nor the one of its rollback.  With an error, the store is as it was, or
    the pair is committed and the remover of the sidecar root could not be opened. *)
Theorem run_keeps_publication open answers clock write_marker io_after input project m degraded_modes seen state :
  let published := finalized json_strings (clock 0%nat) degraded_modes m in
  project_id m = project →
  (∀ store marker, @list_retrieval_index_publications (io_after store marker) (pc_storage_path ctx)
    = list_publications (ps_rows store)) →
  (∀ store marker, ∃ n, @dir_lookup (io_after store marker) (pc_storage_path ctx) = Ok (NFile n)) →
  ∃ answer store state',
    persist_finalized_manifest json_counts json_strings debug_option fuel ctx open answers clock write_marker io_after
      input project m degraded_modes seen state = Some (answer, store, state') ∧
  match answer with
  | Ok outcome => fo_manifest outcome = published ∧ input_fingerprint (seen 2%nat) = Ok input ∧
      ∃ rollback, committed (seen 2%nat) store published rollback ∧
        ∀ removal kept, removal ∈ ar_removals (fo_generation_retention outcome) →
          kept = published ∨ (∃ r, rollback = Some r ∧ kept = rb_manifest r) →
          sidecar_generation kept ≠ Some (gr_generation removal)
  | Err _ => store = seen 2%nat ∨
      (∃ rollback, committed (seen 2%nat) store published rollback) ∧ ∃ e, fs_remover_new (pc_layout ctx) = Err e
  end.
Proof.
  cbv zeta. intros Hp Hl Hd. unfold persist_finalized_manifest. set (pub := finalized _ _ _ m).
  destruct (context _ open) as [u|e]; [|by eexists _, _, _; split; [done|left]].
  pose proof (publish_finalized_cases answers clock input project pub seen) as Hc.
  destruct (publish_finalized _ _ _ _ _ _ _ _ _ _) as [[rollback|e] store]; [|by eexists _, _, _; split; [done|left]].
  destruct Hc as [Hi Hc]. set (marker := publish_derived_retention_marker _ _ _ _ _). cbv zeta.
  set (error := match marker with Ok _ => None | Err _ => _ end). destruct (Hd store marker) as [n Hn].
  destruct (retained_unpublished (H3 := io_after store marker) (pc_storage_path ctx) (pc_cache_root ctx) (pc_layout ctx)
    project pub rollback (seen 2%nat) store error state n) as (answer & state' & -> & Ha); [done..|].
  cbn [mbind option_bind]. destruct answer as [[plan apply]|e]; eexists _, _, _; (split; [done|]); cbn.
  - split; [done|]. split; [done|]. by exists rollback.
  - right. split; [by exists rollback|done].
Qed.
End Persist.

Module PublicationSample.
Import RetentionSample InventorySample.
(** Rollback records as texts of bits. *)
Definition manifest_fields (m : RetrievalIndexManifest) :=
  ((project_id m, lexical_version m, semantic_generation m, scip_revision m, built_at_epoch_ms m, disk_bytes m,
    degraded_modes_json m, embedding_backend m, embedding_dim m, sidecar_schema_version m, sidecar_input_hash m),
   (sidecar_generation m, projection_count m, symbol_doc_count m, dense_projection_count m, semantic_policy_version m,
    graph_artifact_hash m, dense_reason_counts_json m, precise_semantic_import_status m,
    precise_semantic_import_reason m, precise_semantic_import_revision m, precise_semantic_import_producer m)).
Definition manifest_of fields : RetrievalIndexManifest :=
  let '((a, b, c, d, e, f, g, h, i, j, k), (l, m, n, o, p, q, r, s, t, u, v)) := fields in
  mkRetrievalIndexManifest a b c d e f g h i j k l m n o p q r s t u v.
Fixpoint bits (p : positive) : str :=
  match p with xH => [] | xO p => "0"%char :: bits p | xI p => "1"%char :: bits p end.
Fixpoint unbits (s : str) : positive :=
  match s with [] => xH | c :: s => if Ascii.eqb c "1" then xI (unbits s) else xO (unbits s) end.
Lemma unbits_bits p : unbits (bits p) = p.
Proof. induction p as [p IH|p IH|]; cbn; by rewrite ?IH. Qed.
#[export] Instance json : RollbackJson.
Proof.
  refine {| rollback_to_json r := bits (encode (manifest_fields (rb_manifest r), rb_verified_at_epoch_ms r));
            rollback_from_json s := match decode (unbits s) with
                                    | Some (fields, at_ms) => Ok (mkRollback (manifest_of fields) at_ms)
                                    | None => Err (lit "invalid") end |}.
  intros [[] at_ms]. by rewrite unbits_bits, decode_encode.
Defined.

Definition ready : RetrievalIndexManifest :=
  mkRetrievalIndexManifest project LEXICAL_INDEX_VERSION (sidecar_vector_generation project hash) (Some (lit "rev")) 100
    None [] (Some (lit "engine")) (Some RETRIEVAL_EMBEDDING_DIM) (Some SIDECAR_SCHEMA_VERSION) (Some hash)
    (Some (sidecar_generation_id project hash)) (Some 2) (Some 5) (Some 2) (Some SEMANTIC_POLICY_VERSION)
    (Some (lit "graph")) (Some (lit "2")) None None None None.
Definition input : SidecarInputFingerprint :=
  mkFingerprint hash 5 2 2 (Some SEMANTIC_POLICY_VERSION) (lit "graph") (lit "2") 1 (lit "lexical")
    (mkCoverage 1 1 0 0 [] []).
Definition identity : ProductEmbeddingIdentity :=
  mkIdentity (lit "one") 1 1 (lit "resident") true None (lit "model") (lit "ggml") (lit "Metal") (lit "gpu") (lit "GPU")
    (lit "accelerated") true (lit "/model") false 1 1 1 1 [lit "gpu"] [lit "Metal"] (lit "graph") 1 1 1 1 1 1 true.
Definition device : EmbeddingDeviceReadiness :=
  mkDevice (lit "accelerated") (lit "accelerated") (lit "per_user_server") None None true None None false true None.
#[export] Instance candidate : CandidateIo unit unit := {|
  server_identity_before := Ok identity;
  server_identity_after := Ok identity;
  lease_identity := Some identity;
  accelerator_smoke := Ok (Some (device, 10));
  device_readiness := device;
  probe_sidecar_health _ _ := mkHealth (lit "full") None true true true None true;
  shard_matches_lexical_input _ _ := true;
  revision_text _ := Some (lit "rev");
  vector_health _ _ := (true, 2);
  get_complete_index_publication _ := Ok (Some tt);
  validate_generation_evidence_for_publication _ _ _ _ _ := Ok tt |}.
#[export] Instance fence : FenceIo unit := {|
  input_fingerprint _ := Ok input;
  store_view _ := store;
  cancelled _ := false;
  revalidate_lease _ := Ok identity |}.
#[export] Instance deletion : OwnedDeletion nat := {|
  owned_open _ := Ok tt;
  owned_remove _ _ n := (Ok true, Datatypes.S n) |}.
Definition ctx : PersistContext :=
  mkContext (lit "engine") (lit "engine") false layout (lit "/cache") storage_path (lit "w") None device false.
Definition io_after (s : PubStore unit) (marker : result str GenerationRetentionMarker) : RetentionIo := {|
  dir_lookup := @dir_lookup io;
  path_exists := @path_exists io;
  read_dir := @read_dir io;
  read_marker_json := @read_marker_json io;
  list_retrieval_index_publications path :=
    if str_eqb path storage_path then list_publications (ps_rows s) else Err (lit "no store") |}.
Definition run : option (result str FinalizeIndexOutcome * PubStore unit * nat) :=
  persist_finalized_manifest json_counts (λ _, lit "[]") (λ _, lit "None") 3 ctx (Ok tt) (mkAnswers (Ok tt) (Ok tt) (Ok tt))
    (λ _, 100) (λ _, Ok tt) io_after input project ready [] (λ _, mkPubStore ∅ tt) 0%nat.
End PublicationSample.
Import PublicationSample.

Lemma run_keeps_publication_witness : ∃ outcome store state, run = Some (Ok outcome, store, state) ∧
  (gr_generation <$> ar_removals (fo_generation_retention outcome)) = [RetentionSample.old] ∧
  ∃ rollback, committed (mkPubStore ∅ tt) store (finalized (λ _, lit "[]") 100 [] ready) rollback.
Proof.
  destruct (run_keeps_publication InventorySample.json_counts (λ _, lit "[]") (λ _, lit "None") 3 ctx (Ok tt)
    (mkAnswers (Ok tt) (Ok tt) (Ok tt)) (λ _, 100) (λ _, Ok tt) io_after input RetentionSample.project ready []
    (λ _, mkPubStore ∅ tt) 0%nat) as (answer & store & state & Hr & Ha).
  - reflexivity.
  - intros s marker. reflexivity.
  - intros s marker. exists 1%N. reflexivity.
  - assert (match run with Some (Ok o, _, _) => bool_decide ((gr_generation <$> ar_removals (fo_generation_retention o))
      = [RetentionSample.old]) | _ => false end = true) as Hrun by (vm_compute; reflexivity).
    change (run = Some (answer, store, state)) in Hr. rewrite Hr in Hrun. destruct answer as [outcome|e]; [|discriminate Hrun].
    apply bool_decide_eq_true in Hrun. exists outcome, store, state. split; [exact Hr|]. split; [exact Hrun|].
    destruct Ha as (_ & _ & rollback & Hc & _). exists rollback. exact Hc.
Defined.
Lemma rollback_choice_witness :
  prepare_generation_retention 100 device RetentionSample.project
    (get_retrieval_index_manifest (ps_rows (mkPubStore {[RetentionSample.project := mkRow InventorySample.fresh None]} tt))
      RetentionSample.project)
    ready (mkPubStore {[RetentionSample.project := mkRow InventorySample.fresh None]} tt) = Ok None ∧
  ∃ publication, @get_complete_index_publication unit unit _
    (mkPubStore {[RetentionSample.project := mkRow InventorySample.fresh None]} tt) = Ok (Some publication).
Proof.
  set (store := mkPubStore {[RetentionSample.project := mkRow InventorySample.fresh None]} tt).
  pose proof (rollback_choice 100 device RetentionSample.project ready store) as H.
  assert (prepare_generation_retention 100 device RetentionSample.project
    (get_retrieval_index_manifest (ps_rows store) RetentionSample.project) ready store = Ok None) as E
    by (vm_compute; reflexivity).
  rewrite E in H. split; [exact E|]. destruct H as [H | (publication & H & _)]; [discriminate H|by exists publication].
Defined.
