(* ===== verification/PromotionProofs.v ===== *)
(** * Promotion survives every crash

    Over Promotion: a weakest precondition for programs on the disk that may fail or die at
    every operation, the states an interrupted promotion leaves, and what recovery makes of
    them. *)
From S2P Require Import Prelude RustStr StrOps WorkspacePaths Promotion.
Local Open Scope rust_scope.

(** ** Programs that may die *)
Section Wp.
Context {D : Type}.
(** [wp C E m Q d]: from [d], under every script, [m] dies in [C], fails in [E] or returns in [Q]. *)
Definition wp {A} (C : Disk D → Prop) (E : str → Disk D → Prop) (m : Program D A) (Q : A → Disk D → Prop)
    (d : Disk D) : Prop :=
  ∀ s, match m d s with
       | (Returned a, d', _) => Q a d'
       | (Failed e, d', _) => E e d'
       | (Crashed, d', _) => C d'
       end.
Lemma wp_give {A} C E (a : A) Q d : Q a d → wp C E (give a) Q d.
Proof. by intros H s. Qed.
Lemma wp_raise {A} C E e (Q : A → Disk D → Prop) d : E e d → wp C E (raise e) Q d.
Proof. by intros H s. Qed.
Lemma wp_bind {A B} C E (m : Program D A) (f : A → Program D B) Q d :
  wp C E m (λ a, wp C E (f a) Q) d → wp C E (andThen m f) Q d.
Proof.
  intros H s. specialize (H s). unfold andThen. destruct (m d s) as [[[a|e|] d'] s']; [|done..]. apply H.
Qed.
Lemma wp_attempt {A} C E (m : Program D A) Q d :
  wp C (λ e, Q (Err e)) m (λ a, Q (Ok a)) d → wp C E (attempt m) Q d.
Proof. intros H s. specialize (H s). unfold attempt. by destruct (m d s) as [[[a|e|] d'] s']. Qed.
Lemma wp_read_op {A} (C : Disk D → Prop) (E : str → Disk D → Prop) (f : Disk D → result str A) Q d :
  C d → (∀ e, E e d) → (∀ a, f d = Ok a → Q a d) → wp C E (read_op f) Q d.
Proof.
  intros HC HE HQ s. unfold read_op. destruct (next_outcome s) as [[] s']; try done.
  unfold lift. destruct (f d) as [a|e]; cbn; auto.
Qed.
Lemma wp_write (C : Disk D → Prop) (E : str → Disk D → Prop) torn effect Q d :
  (∀ d', d' = d ∨ d' = torn d ∨ d' = effect d → C d' ∧ ∀ e, E e d') →
  (C (effect d) → Q tt (effect d)) → wp C E (write_op torn effect) Q d.
Proof.
  intros H HQ s. destruct (H d) as [? ?]; [auto|]. destruct (H (torn d)) as [? ?]; [auto|].
  destruct (H (effect d)) as [? ?]; [auto|]. unfold write_op. by destruct (next_outcome s) as [[] s']; auto.
Qed.
Lemma wp_sync (C : Disk D → Prop) (E : str → Disk D → Prop) Q d : C d → (∀ e, E e d) → Q tt d → wp C E sync Q d.
Proof. intros. apply wp_write; [by intros ? [-> | [-> | ->]] | done]. Qed.
Lemma wp_exists {A} C E (file : Disk D → option A) Q d :
  Q (bool_decide (is_Some (file d))) d → wp C E (exists_at file) Q d.
Proof. by intros H s. Qed.
Lemma wp_mono {A} (C C' : Disk D → Prop) (E E' : str → Disk D → Prop) (m : Program D A) (Q Q' : A → Disk D → Prop) d :
  wp C E m Q d → (∀ d, C d → C' d) → (∀ e d, E e d → E' e d) → (∀ a d, Q a d → Q' a d) → wp C' E' m Q' d.
Proof. intros H HC HE HQ s. specialize (H s). destruct (m d s) as [[[a|e|] d'] s']; auto. Qed.
Lemma wp_if {A} C E (b : bool) (m k : Program D A) Q d :
  (b = true → wp C E m Q d) → (b = false → wp C E k Q d) → wp C E (if b then m else k) Q d.
Proof. destruct b; auto. Qed.
End Wp.

Lemma absent_file {A} : bool_decide (is_Some (None : option A)) = false.
Proof. reflexivity. Qed.
Lemma present_file {A} (x : A) : bool_decide (is_Some (Some x)) = true.
Proof. reflexivity. Qed.

(** Steps through a program: sequences, reads and conditions. *)
Ltac wp_step :=
  cbv beta iota; lazymatch goal with
  | |- wp _ _ (andThen _ _) _ _ => apply wp_bind
  | |- wp _ _ (give _) _ _ => apply wp_give
  | |- wp _ _ (raise _) _ _ => apply wp_raise
  | |- wp _ _ (attempt _) _ _ => apply wp_attempt
  | |- wp _ _ (exists_at _) _ _ => apply wp_exists
  | |- wp _ _ sync _ _ => apply wp_sync
  | |- wp _ _ acquire_lock _ _ => apply wp_sync
  | |- wp _ _ (if ?b then _ else _) _ _ => let Hb := fresh "Hb" in destruct b eqn:Hb
  end.
Tactic Notation "wp_read" "as" simple_intropattern_list(p) := apply wp_read_op; [try done | try done | intros p].

(** ** What an interrupted promotion leaves *)
Section Safety.
Context {D : Type} `{PromotionDatabase D} (live_path staged_path : str).
(** The live file before the promotion and the candidate. *)
Context (L0 : option D) (S0 : D).

(** No identity of the candidate is the one the live file had. *)
Hypothesis candidate_distinct : ∀ contract contract' p,
  read_recovery_database_identity live_path L0 contract = Ok (Some p) →
  read_recovery_database_identity live_path (Some S0) contract' ≠ Ok (Some p).

Definition previous_is (p : option IndexPublicationRecord) : Prop :=
  read_recovery_database_identity live_path L0 CurrentPromotion = Ok p.
(** A journal that records what the promotion read in the old live file and in the candidate. *)
Record journal_of (j : PromotionJournal) : Prop := {
  jo_version : pj_version j = PROMOTION_JOURNAL_VERSION;
  jo_previous : previous_is (pj_previous j);
  jo_candidate : read_complete_promotion_database_identity live_path (Some S0) = Ok (Some (pj_candidate j));
  jo_policy : db_source_policy S0 (pj_candidate j) = Ok (pj_candidate_source_policy j);
  jo_has_policy : is_Some (pj_candidate_source_policy j);
  jo_structural : db_structural_text S0 (pj_candidate j) = Ok (pj_candidate_structural_text j);
  jo_has_structural : is_Some (pj_candidate_structural_text j);
  jo_previous_policy : ∀ p, pj_previous j = Some p →
    read_source_policy_exclusion_rollback_identity L0 p = Ok (pj_previous_source_policy j);
  jo_previous_structural : ∀ p, pj_previous j = Some p →
    read_structural_text_unit_rollback_identity L0 p = Ok (pj_previous_structural_text j);
}.
Definition backup_for (p : option IndexPublicationRecord) : option D :=
  match p with Some _ => L0 | None => None end.
Definition quiet (d : Disk D) : Prop := backup d = None ∧ prepared d = None ∧ committed d = None.

(** The candidate is not published: the live file is the old one, or a prepared journal says
    how to bring it back; a live file without a publication may be gone. *)
Inductive Uncommitted (d : Disk D) : Prop :=
| Untouched : live d = L0 → quiet d → Uncommitted d
| BackedUp p : previous_is (Some p) → live d = L0 → backup d = L0 ∨ backup d = Some db_empty →
    prepared d = None → committed d = None → Uncommitted d
| JournalCut p : previous_is p → live d = L0 → backup d = backup_for p →
    prepared d = Some Torn → committed d = None → Uncommitted d
| Prepared j : journal_of j →
    live d = L0 ∨ live d = Some S0 ∨ pj_previous j = None ∧ (live d = None ∨ live d = Some db_empty) →
    backup d = backup_for (pj_previous j) →
    prepared d = Some (Whole j) → committed d = None → Uncommitted d
| Discarded : previous_is None → live d = None → quiet d → Uncommitted d.
(** The candidate is published. *)
Inductive Published (d : Disk D) : Prop :=
| Settled : live d = Some S0 → quiet d → Published d
| Cleaning j : journal_of j → live d = Some S0 → backup d = None ∨ backup d = L0 → prepared d = None →
    committed d = Some (Whole j) → Published d.

Lemma previous_some p : previous_is (Some p) → ∃ x, L0 = Some x.
Proof. unfold previous_is. destruct L0 as [x|]; [by eexists|done]. Qed.
Lemma empty_no_identity path contract : read_recovery_database_identity path (Some db_empty) contract = Ok None.
Proof.
  unfold read_recovery_database_identity, inspect_promotion_database. rewrite db_empty_sound. cbn.
  by rewrite db_empty_version.
Qed.
Lemma require_not_empty path role contract p :
  require_identity path role (read_recovery_database_identity path (Some db_empty) contract) ≠ Ok p.
Proof. by rewrite empty_no_identity. Qed.

Local Abbreviation holds := (wp Uncommitted (λ _, Uncommitted)).
Lemma wp_require_recorded (P : Disk D → Prop) path file p policy structural role Q d :
  P d → Q tt d → wp P (λ _, P) (require_recorded path file p policy structural role) Q d.
Proof. intros HP HQ. unfold require_recorded. wp_step. wp_read as _ _. wp_read as [] _. done. Qed.

(** Writing a value the file already has. *)
Lemma set_live_same (d : Disk D) x : live d = x → set_live x d = d.
Proof. intros <-. by destruct d. Qed.
Lemma set_backup_same (d : Disk D) x : backup d = x → set_backup x d = d.
Proof. intros <-. by destruct d. Qed.
Lemma wp_open_live (P : Disk D → Prop) x Q d : live d = Some x → P d → Q tt d → wp P (λ _, P) open_live Q d.
Proof.
  intros Hx HP HQ.
  assert (set_live (Some (default db_empty (live d))) d = d) as E by (apply set_live_same; by rewrite Hx).
  apply wp_write; rewrite E; [|done]. by intros ? [-> | [-> | ->]].
Qed.
Lemma wp_cleanup_backup (P : Disk D → Prop) Q d :
  P d → P (set_backup None d) → Q tt (set_backup None d) → wp P (λ _, P) cleanup_backup Q d.
Proof. intros HP HP' HQ. apply wp_write; [|done]. by intros ? [-> | [-> | ->]]. Qed.
Lemma wp_remove_prepared (P : Disk D → Prop) Q d :
  P d → P (set_prepared None d) → Q tt (set_prepared None d) → wp P (λ _, P) remove_prepared Q d.
Proof.
  intros HP HP' HQ. unfold remove_prepared. wp_step. apply wp_write; [by intros ? [-> | [-> | ->]]|]. intros _.
  by wp_step.
Qed.

(** Rolling a prepared promotion back. *)
Lemma restore_backup_keeps j d x : journal_of j → pj_previous j ≠ None → L0 = Some x →
  live d = L0 ∨ live d = Some S0 → backup d = L0 → prepared d = Some (Whole j) → committed d = None →
  holds (restore_promotion_database backup)
    (λ _ d', live d' = L0 ∧ backup d' = L0 ∧ prepared d' = Some (Whole j) ∧ committed d' = None) d.
Proof.
  intros Hp Hne Hx Hl Hb Hj Hc. unfold restore_promotion_database. wp_step.
  assert (∃ y, live d = Some y) as [y Hy] by (destruct Hl as [-> | ->]; eauto).
  assert (∀ d' : Disk D, (live d' = L0 ∨ live d' = Some S0) → backup d' = L0 → prepared d' = Some (Whole j) →
    committed d' = None → Uncommitted d') as Hstay.
  { intros d' H1 H2 H3 H4. apply (Prepared d' j); [done| |by destruct (pj_previous j)|done..]. tauto. }
  apply (wp_open_live _ y); [done|by apply Hstay|]. apply wp_write; cbn; rewrite Hb, Hx; cbn.
  - intros d' [-> | [-> | ->]]; (split; [|intros _]); apply Hstay; cbn; rewrite ?Hx; auto; by rewrite <- Hx.
  - intros _. by rewrite <- Hx.
Qed.
Lemma check_prepared_live_keeps j found Q d : Uncommitted d → Q tt d →
  holds (check_prepared_live live_path j found) Q d.
Proof.
  intros Hd HQ. unfold check_prepared_live. destruct found as [p|]; [|by wp_step].
  wp_step; [|wp_step; [by apply wp_require_recorded|by wp_step]].
  wp_step. assert (holds (if bool_decide (is_Some (pj_candidate_structural_text j))
     then read_op (λ d, require_candidate_structural_text_identity live_path (live d) p
                          (pj_candidate_structural_text j) (lit "Prepared candidate"))
     else give tt) Q d) as Hk by (wp_step; [by wp_read as [] _|by wp_step]).
  wp_step; [by wp_read as [] _|by wp_step].
Qed.
(** After the backup is back in place the journal and the backup go. *)
Lemma finish_rollback p j d : journal_of j → pj_previous j = Some p → live d = L0 → backup d = L0 →
  prepared d = Some (Whole j) → committed d = None →
  holds (remove_prepared;; cleanup_backup) (λ _ d', Uncommitted d' ∧ quiet d') d.
Proof.
  intros Hjo Hj Hl Hb Hpr Hc. wp_step. pose proof (jo_previous j Hjo) as Hp. rewrite Hj in Hp.
  assert (Uncommitted (set_prepared None d)) as H1 by (apply (BackedUp _ p); cbn; auto).
  apply wp_remove_prepared; [|done|].
  - apply (Prepared _ j); rewrite ?Hj; auto.
  - apply wp_cleanup_backup; [done|..]; [|split]; try split; cbn; try done; apply Untouched; cbn; done.
Qed.
Lemma rollback_keeps j d : Uncommitted d → journal_of j → prepared d = Some (Whole j) →
  holds (rollback_prepared_promotion live_path j) (λ _ d', Uncommitted d' ∧ quiet d') d.
Proof.
  intros Hd Hjo Hpr. pose proof (jo_previous j Hjo) as Hp. assert (backup d = backup_for (pj_previous j) ∧ committed d = None ∧
    (live d = L0 ∨ live d = Some S0 ∨ pj_previous j = None)) as (Hb & Hc & Hl).
  { destruct Hd as [? (?&?&?)|? ? ? ? ?|? ? ? ? ?|j' Hp' ? ? Hpr' ?|? ? (?&?&?)]; try congruence.
    rewrite Hpr in Hpr'. injection Hpr' as <-. tauto. }
  unfold rollback_prepared_promotion. do 2 (wp_step; [by wp_step|]). wp_step. wp_read as found Hfound.
  wp_step; [by wp_step|]. wp_step. apply check_prepared_live_keeps; [done|].
  destruct (pj_previous j) as [p|] eqn:Ej.
  - destruct (previous_some p Hp) as [x Hx]. wp_step. wp_read as kept _. wp_step; [by wp_step|]. wp_step.
    apply wp_require_recorded; [done|]. wp_step.
    apply (wp_mono Uncommitted Uncommitted (λ _, Uncommitted) (λ _, Uncommitted) _
      (λ _ d', live d' = L0 ∧ backup d' = L0 ∧ prepared d' = Some (Whole j) ∧ committed d' = None)); [|done..|].
    + destruct (bool_decide (found = Some p)) eqn:Ef; [|apply (restore_backup_keeps j d x); [done|by rewrite Ej|done|by intuition|done..]].
      apply bool_decide_eq_true in Ef as ->. wp_step. split; [|done]. destruct Hl as [? | [Hl | ?]]; [done| |done].
      rewrite Hl in Hfound. by apply (candidate_distinct _ _ _ Hp) in Hfound.
    + intros _ d' (Hl' & Hb' & Hpr' & Hc').
      assert (Uncommitted d') as Hd' by (apply (Prepared _ j); rewrite ?Ej; auto).
      wp_step. wp_read as restored _. wp_step; [by wp_step|]. wp_step. apply wp_require_recorded; [done|].
      by apply (finish_rollback p j).
  - wp_step. wp_step. wp_step; [by wp_step|]. wp_step. wp_step. wp_step.
    assert (∀ x : option D, x = None ∨ x = Some db_empty → Uncommitted (set_live x d)) as Hgone.
    { intros x Hx. apply (Prepared _ j); cbn; rewrite ?Ej; auto. }
    wp_step.
    + apply wp_write; [intros d' [-> | [-> | ->]]; auto|]. intros _.
      apply wp_remove_prepared; [by apply Hgone; left|..]; [|split]; try split; cbn; try done;
        by apply Discarded; [..|split].
    + wp_step. assert (live d = None) as Hgone'.
      { match goal with E : _ || _ = false |- _ => apply orb_false_iff in E as [_ E]; apply bool_decide_eq_false in E end.
        by apply eq_None_not_Some. }
      apply wp_remove_prepared; [done|..]; [|split]; try split; cbn; try done;
        by apply Discarded; [..|split].
Qed.

(** Recovering from a backup without a journal. *)
Lemma backed_up_stays p (d : Disk D) x : previous_is (Some p) → L0 = Some x → live d = L0 → backup d = L0 →
  prepared d = None → committed d = None → holds (restore_promotion_database backup) (λ _ d', d' = d) d.
Proof.
  intros Hp Hx Hl Hb Hpr Hc. unfold restore_promotion_database. wp_step.
  assert (Uncommitted d) as Hd by (apply (BackedUp _ p); auto).
  apply (wp_open_live _ x); [congruence|done|].
  assert (set_live (Some (default db_empty (backup d))) d = d) as E
    by (apply set_live_same; rewrite Hb, Hl, Hx; done).
  apply wp_write; cbn beta; rewrite E; [|done]. by intros ? [-> | [-> | ->]].
Qed.
Lemma legacy_keeps p d : previous_is (Some p) → live d = L0 → backup d = L0 ∨ backup d = Some db_empty →
  prepared d = None → committed d = None →
  holds (recover_legacy_promotion_backup live_path) (λ _ d', Uncommitted d' ∧ quiet d') d.
Proof.
  intros Hp Hl Hb Hpr Hc. destruct (previous_some p Hp) as [x Hx].
  assert (Uncommitted d) as Hd by (by apply (BackedUp _ p)).
  unfold recover_legacy_promotion_backup. wp_step. wp_read as version _. wp_step. wp_read as kept Hkept.
  assert (backup d = L0) as Hb' by (destruct Hb as [|Hb]; [done|rewrite Hb in Hkept; by apply require_not_empty in Hkept]).
  wp_step. wp_read as recorded _. wp_step. wp_step.
  apply wp_read_op; [done|intros e; by do 2 wp_step|]. intros found _. wp_step.
  assert (∀ restore : bool, holds
    ((if restore then
        restore_promotion_database backup;;
        restored <- require_at live_path live (lit "Recovered live database") LegacyBackup;;
        if negb (bool_decide (restored = kept))
        then raise (lit "Legacy promotion recovery produced an unexpected identity for " ++ live_path)
        else require_recorded live_path live restored recorded.1 recorded.2 (lit "Recovered live database")
      else give tt);; cleanup_backup) (λ _ d', Uncommitted d' ∧ quiet d') d) as Hend.
  { intros restore. wp_step.
    apply (wp_mono Uncommitted Uncommitted (λ _, Uncommitted) (λ _, Uncommitted) _ (λ _ d', d' = d)); [|done..|].
    - wp_step; [|by wp_step]. wp_step.
      apply (wp_mono Uncommitted Uncommitted (λ _, Uncommitted) (λ _, Uncommitted) _ (λ _ d', d' = d));
        [by apply (backed_up_stays p d x)|done..|].
      intros _ ? ->. wp_step. wp_read as restored _. wp_step; [by wp_step|]. by apply wp_require_recorded.
    - intros _ ? ->. apply wp_cleanup_backup; [done|..]; [|split]; try split; cbn; try done; by apply Untouched. }
  destruct found as [identity|]; [|wp_step; apply (Hend true)]. wp_step.
  - wp_step. wp_read as live_version _. wp_step. wp_step.
    apply wp_read_op; [done|intros e; wp_step; apply Hend|]. intros aux _. wp_step. apply Hend.
  - wp_step; [|by wp_step]. wp_step. wp_read as live_version _. wp_step. wp_step.
    apply wp_read_op; [done|intros e; by wp_step|]. intros aux _. wp_step. apply (Hend false).
Qed.

(** Recovery keeps the side of the commit it finds. *)
Lemma recovery_uncommitted d : Uncommitted d →
  holds (recover_interrupted_promotion_locked live_path) (λ _ d', Uncommitted d' ∧ quiet d') d.
Proof.
  intros Hd. unfold recover_interrupted_promotion_locked. do 2 wp_step.
  assert (committed d = None) as Hc by (by destruct Hd as [? (?&?&?)| | | |? ? (?&?&?)]).
  rewrite Hc, absent_file. cbn [andb]. do 2 wp_step.
  destruct Hd as [Hl (Hb & Hpr & _)|p Hp Hl Hb Hpr _|p Hp Hl Hb Hpr _|j Hp Hl Hb Hpr _|Hp Hl (Hb & Hpr & _)];
    rewrite Hpr, ?absent_file, ?present_file.
  - do 2 wp_step. rewrite Hb, absent_file. wp_step. split; [by apply Untouched|done].
  - do 2 wp_step. wp_step; [by apply (legacy_keeps p)|]. wp_step.
    assert (backup d = None) as Hn by (by apply eq_None_not_Some; eapply bool_decide_eq_false).
    split; [by apply Untouched|done].
  - wp_step. unfold read_promotion_journal. apply wp_read_op.
    + by apply (JournalCut _ p).
    + intros _. by apply (JournalCut _ p).
    + intros j. by rewrite Hpr.
  - assert (Uncommitted d) as Hd by (by apply (Prepared _ j)).
    wp_step. unfold read_promotion_journal. wp_read as j'. rewrite Hpr. intros Hj.
    destruct (between _ _ _); [|done]. injection Hj as <-. by apply rollback_keeps.
  - do 2 wp_step. rewrite Hb, absent_file. wp_step. split; [by apply Discarded|done].
Qed.
Lemma wp_cleanup_committed (d : Disk D) Q : Published d → prepared d = None →
  (∀ d', Published d' → Q tt d') → (∀ d', Published d' → Q tt d') →
  wp Published (λ _, Published) cleanup_committed_promotion_artifacts Q d.
Proof.
  intros Hd Hpr HQ _. unfold cleanup_committed_promotion_artifacts. wp_step.
  assert (live d = Some S0) as Hl by (by destruct Hd).
  assert (Published (set_backup None d)) as H1.
  { destruct Hd as [? (?&?&?)|j ? ? ? ? ?]; [by apply Settled; [..|split]|by apply (Cleaning _ j); auto]. }
  apply wp_cleanup_backup; [done..|]. unfold remove_committed. wp_step.
  assert (Published (set_committed None (set_backup None d))) as H2 by (apply Settled; [done|by split]).
  apply wp_write; [by intros ? [-> | [-> | ->]]|]. intros _. wp_step; [done..|by apply HQ].
Qed.
Lemma recovery_published d : Published d →
  wp Published (λ _, Published) (recover_interrupted_promotion_locked live_path) (λ _ d', Published d') d.
Proof.
  intros Hd. assert (prepared d = None) as Hpr by (by destruct Hd as [? (?&?&?)|]).
  unfold recover_interrupted_promotion_locked. do 4 wp_step. rewrite Hpr, absent_file, andb_false_r.
  wp_step.
  - wp_step. wp_read as j _. wp_step. unfold check_committed. wp_step. wp_read as found _.
    wp_step; [by wp_step|].
    assert (wp Published (λ _, Published) (_ <- attempt cleanup_committed_promotion_artifacts;; give tt)
      (λ _ d', Published d') d) as Hend.
    { wp_step. wp_step. eapply wp_mono; [by apply (wp_cleanup_committed d (λ _, Published))|done|..].
      - intros e d' Hd'. by wp_step.
      - intros a d' Hd'. by wp_step. }
    wp_step. wp_step; wp_read as _ _; (wp_step; wp_read as _ _; exact Hend).
  - do 2 wp_step. assert (backup d = None) as ->; [|rewrite absent_file; by wp_step].
    destruct Hd as [? (?&?&?)|j ? ? ? ? Hc]; [done|]. rewrite Hc in Hb. done.
Qed.

(** ** The promotion itself *)
Definition interrupted (d : Disk D) : Prop := Uncommitted d ∨ Published d.
Local Abbreviation safely := (wp interrupted (λ _, interrupted)).

Lemma wp_weaken {A} (m : Program D A) Q d : holds m Q d → safely m Q d.
Proof. intros Hm. eapply wp_mono; [exact Hm|by left|by left|done]. Qed.

(** The disk of a promotion whose journal is about to be written. *)
Record ready (p : option IndexPublicationRecord) (d : Disk D) : Prop := {
  rd_previous : previous_is p;
  rd_live : live d = L0;
  rd_staged : staged d = Some S0;
  rd_backup : backup d = backup_for p;
  rd_prepared : prepared d = None;
  rd_committed : committed d = None;
}.
Lemma ready_uncommitted p d : ready p d → Uncommitted d.
Proof. intros []. destruct p as [p|]; [apply (BackedUp _ p); auto|by apply Untouched; [|split]]. Qed.
Lemma ready_cut p d : ready p d → Uncommitted (set_prepared (Some Torn) d).
Proof. intros []. by apply (JournalCut _ p). Qed.
Lemma ready_prepared j d : journal_of j → ready (pj_previous j) d → Uncommitted (set_prepared (Some (Whole j)) d).
Proof. intros Hj []. apply (Prepared _ j); auto. Qed.

Lemma back_up_live_ready p policy structural d : live d = L0 → staged d = Some S0 → quiet d → previous_is (Some p) →
  safely (back_up_live live_path p policy structural) (λ _ d', ready (Some p) d') d.
Proof.
  intros Hl Hs Hq Hp. destruct (previous_some p Hp) as [x Hx].
  assert (Uncommitted d) as Hu by (by apply Untouched). destruct Hq as (Hb & Hpr & Hc). unfold back_up_live. wp_step.
  apply wp_weaken, (wp_open_live _ x); [congruence|done|]. wp_step.
  assert (ready (Some p) (set_backup (live d) d)) as Hr by (split; cbn; congruence).
  apply wp_write.
  { assert (Uncommitted (set_backup (Some db_empty) d)) by (apply (BackedUp _ p); auto).
    pose proof (ready_uncommitted _ _ Hr). intros d' [-> | [-> | ->]]; (split; [|intros _]); by left. }
  intros _. pose proof (or_introl (ready_uncommitted _ _ Hr) : interrupted _) as Hi.
  wp_step. wp_read as kept _. wp_step; [by wp_step|]. wp_step. apply wp_require_recorded; [done|].
  by wp_read as n _.
Qed.
(** Writing the prepared journal. *)
Lemma wp_give_up d e Q : (∀ x : option JournalFile, x = prepared d ∨ x = None → Uncommitted (set_prepared x d)) →
  holds (give_up_journal e) Q d.
Proof.
  intros Hd. assert (Uncommitted d) as Hd0 by (pose proof (Hd (prepared d)) as H1; destruct d; apply H1; by left).
  pose proof (Hd None (or_intror eq_refl)) as Hd1. unfold give_up_journal.
  assert (∀ d', Uncommitted d' → holds (_ <- attempt sync;; raise e) Q d') as Hend.
  { intros d' Hd'. wp_step. wp_step. wp_step; [done|intros ?; by wp_step|by wp_step]. }
  wp_step. wp_step. apply wp_write; [|intros _; by apply Hend].
  intros d' [-> | [-> | ->]]; (split; [|intros ?; by apply Hend]); done.
Qed.
Lemma wp_or_give_up (m : Program D unit) (P : Disk D → Prop) Q d :
  wp Uncommitted (λ _, P) m Q d → (∀ e d', P d' → holds (give_up_journal e) Q d') → holds (or_give_up m) Q d.
Proof.
  intros Hm Hg. unfold or_give_up. wp_step. wp_step. eapply wp_mono; [exact Hm|done|..].
  - intros e d' Hd'. by apply Hg.
  - intros [] d' HQ. by wp_step.
Qed.
Lemma write_journal_prepared j d : journal_of j → ready (pj_previous j) d →
  holds (write_promotion_journal live_path j) (λ _ d', d' = set_prepared (Some (Whole j)) d) d.
Proof.
  intros Hj Hd. pose proof (ready_uncommitted _ _ Hd) as H0. pose proof (ready_cut _ _ Hd) as H1.
  pose proof (ready_prepared _ _ Hj Hd) as H2. unfold write_promotion_journal. wp_step. wp_step.
  assert (prepared d = None) as Hn by apply Hd. rewrite Hn, absent_file. wp_step.
  assert (set_prepared None d = d) as Hsame by (rewrite <- Hn; by destruct d).
  apply wp_write; [by intros ? [-> | [-> | ->]]|]. intros _. wp_step.
  assert (∀ x, x = Some Torn ∨ x = Some (Whole j) → ∀ e (Q : unit → Disk D → Prop),
    holds (give_up_journal e) Q (set_prepared x d)) as Hg.
  { intros x Hx e Q. apply wp_give_up. intros y [-> | ->]; cbn; [by destruct Hx as [-> | ->]|].
    change (Uncommitted (set_prepared None d)). by rewrite Hsame. }
  apply (wp_or_give_up _ (λ d', ∃ x, (x = Some Torn ∨ x = Some (Whole j)) ∧ d' = set_prepared x d)).
  2: { intros e d' (x & Hx & ->). by apply Hg. }
  change (set_prepared (Some (Whole j)) (set_prepared (Some Torn) d)) with (set_prepared (Some (Whole j)) d).
  apply wp_write; cbn beta.
  { intros d' [-> | [-> | ->]]; (split; [done|intros _; eexists; split; [|done]]); auto. }
  intros _. change (set_prepared (Some (Whole j)) (set_prepared (Some Torn) d)) with (set_prepared (Some (Whole j)) d).
  assert (∀ Q : unit → Disk D → Prop, Q tt (set_prepared (Some (Whole j)) d) →
    holds (or_give_up sync) Q (set_prepared (Some (Whole j)) d)) as Hs.
  { intros Q HQ. apply (wp_or_give_up _ (λ d', d' = set_prepared (Some (Whole j)) d)).
    - apply wp_write; [by intros ? [-> | [-> | ->]]|done].
    - intros e d' ->. by apply Hg; right. }
  wp_step. apply Hs. by apply Hs.
Qed.

(** Installing the candidate. *)
Lemma wp_undo {A} j e Q d : Uncommitted d → journal_of j → prepared d = Some (Whole j) →
  safely (undo (A := A) live_path j e) Q d.
Proof.
  intros Hd Hp Hpr. unfold undo. wp_step. wp_step. eapply wp_mono; [by apply rollback_keeps|..].
  - by left.
  - intros e' d' Hd'. wp_step. by left.
  - intros [] d' [Hd' _]. wp_step. by left.
Qed.
Record installing (j : PromotionJournal) (d : Disk D) : Prop := {
  in_journal : journal_of j;
  in_backup : backup d = backup_for (pj_previous j);
  in_prepared : prepared d = Some (Whole j);
  in_committed : committed d = None;
  in_staged : staged d = Some S0;
}.
Lemma installing_uncommitted j d : installing j d →
  live d = L0 ∨ live d = Some S0 ∨ pj_previous j = None ∧ (live d = None ∨ live d = Some db_empty) →
  Uncommitted d.
Proof. intros [] Hl. by apply (Prepared _ j). Qed.
Lemma install_publishes j d : installing j d → live d = L0 →
  safely (install_candidate live_path staged_path j) (λ _ d', Published d' ∧ prepared d' = None) d.
Proof.
  intros Hd Hl. assert (journal_of j) as Hj by apply Hd. pose proof (jo_previous j Hj) as Hp.
  assert (∀ x, x = L0 ∨ x = Some S0 ∨ pj_previous j = None ∧ (x = None ∨ x = Some db_empty) →
    Uncommitted (set_live x d)) as Hany.
  { intros x Hx. apply (installing_uncommitted j); [by destruct Hd|done]. }
  set (opened := Some (default db_empty (live d))).
  assert (opened = L0 ∨ pj_previous j = None ∧ opened = Some db_empty) as Ho.
  { unfold opened. rewrite Hl. destruct (pj_previous j) as [p|] eqn:Ej.
    - left. destruct (previous_some p Hp) as [x Hx]. by rewrite Hx.
    - clear. destruct L0; auto. }
  assert (set_live L0 d = d) as Hsame by (by apply set_live_same).
  assert (Uncommitted d) as Hu by (rewrite <- Hsame; apply Hany; auto).
  assert (Uncommitted (set_live opened d)) as Huo by (apply Hany; tauto).
  assert (Uncommitted (set_live (Some S0) d)) as Hus by (apply Hany; auto).
  assert (prepared d = Some (Whole j)) as Hpr by apply Hd.
  unfold install_candidate. wp_step. apply wp_write; [intros ? [-> | [-> | ->]]; (split; [by left|intros _; by left])|].
  intros _. fold opened. wp_step. wp_step; [by left|by intros _; left|]. wp_step. wp_step.
  assert (set_live (Some (default db_empty (staged (set_live opened d)))) (set_live opened d) = set_live (Some S0) d) as Es
    by (cbn; destruct Hd as [_ _ _ _ ->]; done).
  apply wp_write; cbn beta; rewrite Es.
  { assert (∀ x, Uncommitted (set_live x d) → ∀ e, safely (undo (A := unit) live_path j e)
      (λ _ d', Published d' ∧ prepared d' = None) (set_live x d)) as Hundo
      by (intros x Hx e; by apply wp_undo).
    intros d' [-> | [-> | ->]]; (split; [by left|intros e; by apply Hundo]). }
  intros _. wp_step. wp_read as published _; try (by left); [].
  wp_step; [by apply wp_undo|].
  assert (∀ (f : Disk D → result str unit) Q, Q tt (set_live (Some S0) d) →
    safely (or_undo live_path j (read_op f)) Q (set_live (Some S0) d)) as Hchk.
  { intros f Q HQ. unfold or_undo. wp_step. wp_step. apply wp_read_op; [by left|intros e; by apply wp_undo|].
    intros [] _. by wp_step. }
  wp_step. apply Hchk. wp_step. apply Hchk. wp_step. wp_step. unfold commit_promotion_journal. wp_step. wp_step.
  assert (committed d = None) as Hc by apply Hd. cbn [committed set_live]. rewrite Hc, absent_file. wp_step.
  set (moved := set_prepared None (set_committed (prepared (set_live (Some S0) d)) (set_live (Some S0) d))).
  assert (Published moved) as Hm.
  { apply (Cleaning _ j); cbn; [done|done| |done|done]. destruct Hd as [_ -> _ _ _]. destruct (pj_previous j); auto. }
  apply wp_write; cbn beta; fold moved.
  - assert (∀ e, safely (durable <- exists_at committed;; if durable then raise e else undo (A := unit) live_path j e)
      (λ _ d', Published d' ∧ prepared d' = None) (set_live (Some S0) d)) as Hback.
    { intros e. wp_step. wp_step. cbn [committed set_live]. rewrite Hc, absent_file. by apply wp_undo. }
    intros d' [-> | [-> | ->]]; (split; [by (left + right)|intros e]); [apply Hback..|].
    wp_step. wp_step. cbn [committed moved set_prepared set_committed prepared set_live]. rewrite Hpr, present_file.
    wp_step. by right.
  - intros _. wp_step; [by right| |by wp_step]. intros e. wp_step. wp_step.
    cbn [committed moved set_prepared set_committed prepared set_live]. rewrite Hpr, present_file. wp_step. by right.
Qed.
(** The whole promotion, from a disk without traces of another. *)
Lemma recovery_quiet (C : Disk D → Prop) E Q d : quiet d → Q tt d →
  wp C E (recover_interrupted_promotion_locked live_path) Q d.
Proof.
  intros (Hb & Hp & Hc) HQ. unfold recover_interrupted_promotion_locked. do 2 wp_step. rewrite Hc, absent_file.
  cbn [andb]. do 2 wp_step. rewrite Hp, absent_file. do 2 wp_step. rewrite Hb, absent_file. by wp_step.
Qed.
Lemma quiet_artifacts d : quiet d → promotion_artifacts_exist d = false.
Proof. intros (Hb & Hp & Hc). unfold promotion_artifacts_exist. by rewrite Hb, Hp, Hc. Qed.
Lemma wp_tail d (stats : CorePromotionStats) Q : Published d → prepared d = None → (∀ d', Published d' → Q stats d') →
  safely (_ <- attempt cleanup_staged;; _ <- attempt cleanup_committed_promotion_artifacts;; give stats) Q d.
Proof.
  intros Hd Hpr HQ.
  assert (∀ d', Published d' → prepared d' = None →
    safely (_ <- attempt cleanup_committed_promotion_artifacts;; give stats) Q d') as Hend.
  { intros d' Hd' Hpr'. wp_step. wp_step. eapply wp_mono; [by apply (wp_cleanup_committed d' (λ _, Published))|..].
    - by right.
    - intros e d2 Hd2. wp_step. by apply HQ.
    - intros a d2 Hd2. wp_step. by apply HQ. }
  assert (Published (set_staged None d)) as H1.
  { destruct Hd as [? (?&?&?)|j ? ? ? ? ?]; [by apply Settled; [..|split]|by apply (Cleaning _ j)]. }
  wp_step. wp_step. apply wp_write; [|intros _; by apply Hend].
  intros d' [-> | [-> | ->]]; (split; [by right|intros e; by apply Hend]).
Qed.
Lemma write_and_install j d (stats : CorePromotionStats) : journal_of j → ready (pj_previous j) d →
  safely (written <- attempt (write_promotion_journal live_path j);;
    match written with
    | Err error =>
        found <- exists_at prepared;;
        (if found : bool then give tt else _ <- attempt cleanup_backup;; give tt);;
        raise error
    | Ok _ =>
        install_candidate live_path staged_path j;;
        _ <- attempt cleanup_staged;;
        _ <- attempt cleanup_committed_promotion_artifacts;;
        give stats
    end) (λ _ d', Published d') d.
Proof.
  intros Hj Hd. wp_step. wp_step. eapply wp_mono; [by apply write_journal_prepared|by left|..].
  - intros e d' Hd'. do 2 wp_step. wp_step. wp_step; [wp_step; wp_step; by left|].
    assert (prepared d' = None) as Hn by (by apply eq_None_not_Some; eapply bool_decide_eq_false).
    assert (Uncommitted (set_backup None d')) as H1.
    { destruct Hd' as [Hl (?&?&?)|p Hp Hl ? ? ?|? ? ? ? ?|? ? ? ? ?|? ? (?&?&?)]; try congruence.
      - by apply Untouched; [|split].
      - by apply Untouched; [|split].
      - by apply Discarded; [..|split]. }
    wp_step. wp_step. apply wp_write.
    + intros d2 [-> | [-> | ->]]; (split; [by left|intros ?; wp_step; wp_step; by left]).
    + intros _. wp_step. wp_step. by left.
  - intros [] d' ->. wp_step. eapply wp_mono; [apply (install_publishes j)|done|done|].
    + destruct Hd. by split.
    + by destruct Hd.
    + intros [] d' [Hd' Hpr']. by apply wp_tail.
Qed.
Lemma require_complete path path' role file c :
  require_identity path role (read_complete_promotion_database_identity path file) = Ok c →
  read_complete_promotion_database_identity path' file = Ok (Some c).
Proof.
  unfold require_identity, read_complete_promotion_database_identity, inspect_promotion_database.
  destruct file as [x|]; [|done]. destruct (db_quick_check x) as [check|e]; [|done]. cbn.
  destruct (negb _); [done|]. cbn. destruct (_ =? 0); [done|]. destruct (negb _); [done|].
  by destruct (read_complete_index_publication x) as [[c'|]|e]; cbn; [intros [= ->]|..].
Qed.
Lemma promotion_safe d : live d = L0 → staged d = Some S0 → quiet d →
  safely (promote_staged_snapshot live_path staged_path) (λ _ d', Published d') d.
Proof.
  intros Hl Hs Hq. assert (interrupted d) as Hi by (left; by apply Untouched).
  unfold promote_staged_snapshot. wp_step. wp_step; [done|by intros _|]. wp_step. apply recovery_quiet; [done|].
  wp_step. assert (∀ Q, Q tt d → safely (refuse_artifacts live_path) Q d) as Hr
    by (intros Q HQ s; unfold refuse_artifacts; by rewrite (quiet_artifacts d Hq)).
  apply Hr. wp_step. wp_read as candidate Hcandidate. rewrite Hs in Hcandidate. wp_step. wp_read as policy Hpolicy.
  rewrite Hs in Hpolicy. wp_step. wp_step; [|by wp_step].
  wp_step. wp_step. wp_read as structural Hstructural. rewrite Hs in Hstructural. wp_step. wp_step; [|by wp_step]. wp_step. wp_step.
  wp_read as candidate_bytes _. wp_step. wp_read as previous Hprevious. rewrite Hl in Hprevious. wp_step.
  assert (∀ (A : Type) (f : Disk D → option IndexPublicationRecord → result str A) (a0 : A) Q,
    (∀ a, (∀ p, previous = Some p → f d (Some p) = Ok a) → Q a d) →
    safely (match previous with Some p => read_op (λ d, f d (Some p)) | None => give a0 end) Q d) as Hread.
  { intros A f a0 Q HQ. destruct previous as [p|].
    - wp_read as a Ha. apply HQ. by intros ? [= <-].
    - wp_step. by apply HQ. }
  apply (Hread _ (λ d p, match p with Some p => read_source_policy_exclusion_rollback_identity (live d) p | None => Ok None end)).
  intros previous_policy Hpp. wp_step.
  apply (Hread _ (λ d p, match p with Some p => read_structural_text_unit_rollback_identity (live d) p | None => Ok None end)).
  intros previous_structural Hps. wp_step.
  apply wp_write; [assert (set_backup None d = d) as -> by (apply set_backup_same; apply Hq); by intros ? [-> | [-> | ->]]|].
  intros _. assert (set_backup None d = d) as -> by (apply set_backup_same; apply Hq). wp_step.
  eapply (wp_mono interrupted interrupted (λ _, interrupted) (λ _, interrupted) _ (λ _ d', d' = d)); [|done..|].
  { destruct previous; [wp_step; wp_read as n _; by wp_step|by wp_step]. }
  intros previous_bytes ? ->. wp_step.
  eapply (wp_mono interrupted interrupted (λ _, interrupted) (λ _, interrupted) _ (λ _ d', ready previous d')); [|done..|].
  { destruct previous as [p|]; [|wp_step; destruct Hq as (?&?&?); by split]. wp_step.
    eapply wp_mono; [by apply back_up_live_ready|done|done|]. intros n d' Hd'. by wp_step. }
  intros backup_bytes d' Hd'. cbv beta zeta. apply write_and_install; [|done].
  rewrite Hl in Hpp, Hps. split; [done|exact Hprevious|exact (require_complete _ _ _ _ _ Hcandidate)|exact Hpolicy|
    by eapply bool_decide_eq_true|exact Hstructural|by eapply bool_decide_eq_true|exact Hpp|exact Hps].
Qed.
End Safety.

(** ** Undisturbed runs *)
Section Undisturbed.
Context {D : Type}.
(** With every operation succeeding [m] returns. *)
Definition returns {A} (m : Program D A) (Q : A → Disk D → Prop) (d : Disk D) : Prop :=
  ∃ a d', m d [] = (Returned a, d', []) ∧ Q a d'.
Lemma returns_give {A} (a : A) (Q : A → Disk D → Prop) d : Q a d → returns (give a) Q d.
Proof. intros HQ. by exists a, d. Qed.
Lemma returns_bind {A B} (m : Program D A) (f : A → Program D B) Q d :
  returns m (λ a, returns (f a) Q) d → returns (andThen m f) Q d.
Proof. intros (a & d' & Hm & b & d2 & Hf & HQ). exists b, d2. unfold andThen. by rewrite Hm. Qed.
Lemma returns_attempt {A} (m : Program D A) (Q : result str A → Disk D → Prop) d :
  returns m (λ a, Q (Ok a)) d → returns (attempt m) Q d.
Proof. intros (a & d' & Hm & HQ). exists (Ok a), d'. unfold attempt. by rewrite Hm. Qed.
Lemma returns_read {A} (f : Disk D → result str A) (Q : A → Disk D → Prop) d a :
  f d = Ok a → Q a d → returns (read_op f) Q d.
Proof. intros Hf HQ. exists a, d. unfold read_op. cbn. by rewrite Hf. Qed.
Lemma returns_attempt_read {A} (f : Disk D → result str A) (Q : result str A → Disk D → Prop) d :
  Q (f d) d → returns (attempt (read_op f)) Q d.
Proof. intros HQ. exists (f d), d. unfold attempt, read_op. cbn. by destruct (f d). Qed.
Lemma returns_write torn effect (Q : unit → Disk D → Prop) d : Q tt (effect d) → returns (write_op torn effect) Q d.
Proof. intros HQ. by exists tt, (effect d). Qed.
Lemma returns_exists {A} (file : Disk D → option A) (Q : bool → Disk D → Prop) d :
  Q (bool_decide (is_Some (file d))) d → returns (exists_at file) Q d.
Proof. intros HQ. by eexists _, d. Qed.
End Undisturbed.
Ltac run_step :=
  cbv beta iota; lazymatch goal with
  | |- returns (andThen _ _) _ _ => apply returns_bind
  | |- returns (give _) _ _ => apply returns_give
  | |- returns (exists_at _) _ _ => apply returns_exists
  | |- returns (attempt (read_op _)) _ _ => apply returns_attempt_read
  | |- returns (attempt _) _ _ => apply returns_attempt
  | |- returns (write_op _ _) _ _ => apply returns_write
  | |- returns sync _ _ => apply returns_write
  | |- returns acquire_lock _ _ => apply returns_write
  | |- returns cleanup_staged _ _ => apply returns_write
  | |- returns cleanup_backup _ _ => apply returns_write
  | |- returns remove_committed _ _ => unfold remove_committed
  | |- returns cleanup_committed_promotion_artifacts _ _ => unfold cleanup_committed_promotion_artifacts
  end.

Ltac run_steps := repeat run_step.
(** Up to the writing of the journal. *)
Ltac run_to_journal :=
  repeat (cbv beta iota zeta; lazymatch goal with
          | |- returns (andThen (attempt (write_promotion_journal _ _)) _) _ _ => fail
          | |- _ => run_step
          end); cbv beta iota zeta.

Section Progress.
Context {D : Type} `{PromotionDatabase D} (live_path : str) (L0 : option D) (S0 : D).

(** What is read does not depend on the path, and on the contract only through its schemas. *)
Lemma recovery_identity_at path path' file contract contract' p :
  (∀ v, supports_complete_schema contract v = true → supports_complete_schema contract' v = true) →
  read_recovery_database_identity path file contract = Ok p →
  read_recovery_database_identity path' file contract' = Ok p.
Proof.
  intros Hc. unfold read_recovery_database_identity, inspect_promotion_database.
  destruct file as [x|]; [|done]. destruct (db_quick_check x) as [check|e]; [|done]. cbn.
  destruct (negb _); [done|]. cbn. destruct (_ =? 0); [done|]. destruct (_ =? _); [by destruct (has_incomplete_incremental_marker x)|].
  destruct (supports_complete_schema contract _) eqn:E; [|done]. by rewrite (Hc _ E).
Qed.
Lemma current_supports contract v : contract = Journal PROMOTION_JOURNAL_VERSION ∨ contract = LegacyBackup →
  supports_complete_schema CurrentPromotion v = true → supports_complete_schema contract v = true.
Proof.
  cbn. unfold between, STRUCTURAL_POLICY_PROMOTION_MIN_SCHEMA_VERSION, SCHEMA_VERSION.
  intros [-> | ->]; cbn; unfold between, STRUCTURAL_POLICY_PROMOTION_MIN_SCHEMA_VERSION, SCHEMA_VERSION,
    SEMANTIC_PROJECTION_PROMOTION_MIN_SCHEMA_VERSION, LEGACY_PROMOTION_MIN_SCHEMA_VERSION; lia.
Qed.
Lemma previous_identity_at contract path p : previous_is live_path L0 p →
  contract = Journal PROMOTION_JOURNAL_VERSION ∨ contract = LegacyBackup →
  read_recovery_database_identity path L0 contract = Ok p.
Proof. intros Hp Hc. eapply recovery_identity_at; [|exact Hp]. intros v. by apply current_supports. Qed.
Lemma candidate_identity_at path c :
  read_complete_promotion_database_identity live_path (Some S0) = Ok (Some c) →
  read_recovery_database_identity path (Some S0) (Journal PROMOTION_JOURNAL_VERSION) = Ok (Some c).
Proof.
  unfold read_recovery_database_identity, read_complete_promotion_database_identity, inspect_promotion_database.
  destruct (db_quick_check S0) as [check|e]; [|done]. cbn. destruct (negb _); [done|]. cbn.
  destruct (_ =? 0); [done|]. destruct (Z.max _ _ =? SCHEMA_VERSION) eqn:E; [|done]. apply Z.eqb_eq in E.
  rewrite E. done.
Qed.
Lemma inspect_previous path p : previous_is live_path L0 (Some p) → ∃ x v,
  L0 = Some x ∧ inspect_promotion_database path L0 = Ok (Some (x, v)) ∧ v = Z.max (db_user_version x) 0.
Proof.
  unfold previous_is, read_recovery_database_identity, inspect_promotion_database.
  destruct L0 as [x|]; [|done]. destruct (db_quick_check x) as [check|e]; [|done]. cbn.
  destruct (negb _); [done|]. eauto.
Qed.
Lemma returns_recorded path file p policy structural role Q (d : Disk D) :
  read_source_policy_exclusion_rollback_identity (file d) p = Ok policy →
  read_structural_text_unit_rollback_identity (file d) p = Ok structural → Q tt d →
  returns (require_recorded path file p policy structural role) Q d.
Proof.
  intros Hp Hs HQ. unfold require_recorded. run_step.
  assert (require_recorded_source_policy_identity path (file d) p policy role = Ok tt) as E.
  { unfold require_recorded_source_policy_identity. destruct policy; [|done]. rewrite Hp. cbn. by rewrite bool_decide_true. }
  apply (returns_read _ _ d tt E).
  assert (require_recorded_structural_text_identity path (file d) p structural role = Ok tt) as E'.
  { unfold require_recorded_structural_text_identity. destruct structural; [|done]. rewrite Hs. cbn. by rewrite bool_decide_true. }
  by apply (returns_read _ _ d tt E').
Qed.
Lemma returns_open_live Q (d : Disk D) x : live d = Some x → Q tt d → returns open_live Q d.
Proof. intros Hx HQ. apply returns_write. rewrite Hx. cbn. by rewrite (set_live_same d (Some x)). Qed.
Lemma returns_restore Q (d : Disk D) x y : live d = Some x → backup d = Some y → Q tt (set_live (Some y) d) →
  returns (restore_promotion_database backup) Q d.
Proof.
  intros Hx Hy HQ. unfold restore_promotion_database. run_step. apply (returns_open_live _ _ x Hx).
  apply returns_write. by rewrite Hy.
Qed.
Lemma returns_remove_prepared Q (d : Disk D) : Q tt (set_prepared None d) → returns remove_prepared Q d.
Proof. intros HQ. unfold remove_prepared. run_step. by do 2 run_step. Qed.

Hypothesis distinct : ∀ p, previous_is live_path L0 (Some p) →
  read_complete_promotion_database_identity live_path (Some S0) ≠ Ok (Some p).

(** The checks of the live file pass for either side. *)
Lemma returns_check_prepared j found (Q : unit → Disk D → Prop) d : journal_of live_path L0 S0 j →
  (live d = L0 ∧ found = pj_previous j) ∨ (live d = Some S0 ∧ found = Some (pj_candidate j)) ∨ found = None →
  Q tt d → returns (check_prepared_live live_path j found) Q d.
Proof.
  intros Hj Hf HQ. unfold check_prepared_live. destruct found as [p|]; [|by run_step].
  destruct Hf as [[Hl Hp] | [[Hl Hp] | ?]]; [| |done].
  - symmetry in Hp. pose proof (jo_previous _ _ _ _ Hj) as Hprev. rewrite Hp in Hprev.
    rewrite bool_decide_false.
    2: { intros ->. apply (distinct _ Hprev). apply Hj. }
    rewrite bool_decide_true by done.
    apply returns_recorded; [rewrite Hl; by apply Hj|rewrite Hl; by apply Hj|done].
  - injection Hp as ->. destruct (jo_has_policy _ _ _ _ Hj) as [policy Ep]. destruct (jo_has_structural _ _ _ _ Hj) as [st Es].
    rewrite bool_decide_true, Ep, Es, !present_file by done. run_step.
    assert (∀ role, require_candidate_source_policy_identity live_path (live d) (pj_candidate j) (Some policy) role = Ok tt) as E.
    { intros role. cbn. rewrite Hl. cbn. rewrite (jo_policy _ _ _ _ Hj), Ep. cbn. by rewrite bool_decide_true. }
    apply (returns_read _ _ d tt (E _)).
    assert (∀ role, require_candidate_structural_text_identity live_path (live d) (pj_candidate j) (Some st) role = Ok tt) as E'.
    { intros role. cbn. rewrite Hl. cbn. rewrite (jo_structural _ _ _ _ Hj), Es. cbn. by rewrite bool_decide_true. }
    by apply (returns_read _ _ d tt (E' _)).
Qed.
(** What the live file is found to be while a journal is prepared. *)
Lemma live_found j d : journal_of live_path L0 S0 j →
  live d = L0 ∨ live d = Some S0 ∨ pj_previous j = None ∧ (live d = None ∨ live d = Some db_empty) →
  ∃ found, read_recovery_database_identity live_path (live d) (Journal PROMOTION_JOURNAL_VERSION) = Ok found ∧
    ((live d = L0 ∧ found = pj_previous j) ∨ (live d = Some S0 ∧ found = Some (pj_candidate j)) ∨ found = None ∧ pj_previous j = None).
Proof.
  intros Hj [Hl | [Hl | [Hn [Hl | Hl]]]]; rewrite Hl.
  - exists (pj_previous j). split; [apply previous_identity_at; [apply Hj|by left]|by left].
  - exists (Some (pj_candidate j)). split; [apply candidate_identity_at; apply Hj|by right; left].
  - exists None. auto.
  - exists None. rewrite empty_no_identity. auto.
Qed.
Lemma returns_rollback j (Q : unit → Disk D → Prop) d : journal_of live_path L0 S0 j →
  live d = L0 ∨ live d = Some S0 ∨ pj_previous j = None ∧ (live d = None ∨ live d = Some db_empty) →
  backup d = backup_for L0 (pj_previous j) → (∀ d', Q tt d') →
  returns (rollback_prepared_promotion live_path j) Q d.
Proof.
  intros Hj Hl Hb HQ. destruct (live_found j d Hj Hl) as (found & Hfound & Hcases).
  destruct (jo_has_policy _ _ _ _ Hj) as [policy Ep]. destruct (jo_has_structural _ _ _ _ Hj) as [st Es].
  unfold rollback_prepared_promotion. rewrite (jo_version _ _ _ _ Hj), Ep, Es, !present_file, !andb_false_r. run_step.
  apply (returns_read _ _ d found Hfound).
  assert (match found with
          | Some identity => negb (bool_decide (identity = pj_candidate j)) && negb (bool_decide (Some identity = pj_previous j))
          | None => false end = false) as ->.
  { destruct Hcases as [[_ ->] | [[_ ->] | [-> _]]]; [|by rewrite bool_decide_true|done].
    destruct (pj_previous j) as [p|]; [|done]. by rewrite (bool_decide_true (Some p = Some p)), andb_false_r. }
  run_step. apply returns_check_prepared; [done|tauto|]. destruct (pj_previous j) as [p|] eqn:Eprev.
  - pose proof (jo_previous _ _ _ _ Hj) as Hp. rewrite Eprev in Hp.
    destruct (inspect_previous live_path p Hp) as (x & _ & Hx & _).
    assert (∀ path, read_recovery_database_identity path L0 (Journal PROMOTION_JOURNAL_VERSION) = Ok (Some p)) as Hid
      by (intros path; apply previous_identity_at; auto).
    assert (∀ path role, require_identity path role
      (read_recovery_database_identity path L0 (Journal PROMOTION_JOURNAL_VERSION)) = Ok p) as Hreq
      by (intros path role; unfold require_identity; by rewrite Hid).
    assert (∀ file : Disk D → option D, ∀ d', file d' = L0 → ∀ path role (Q' : unit → Disk D → Prop), Q' tt d' → returns (require_recorded path file p
      (pj_previous_source_policy j) (pj_previous_structural_text j) role) Q' d') as Hrec.
    { intros file d' Hf path role Q' HQ'. apply returns_recorded; [rewrite Hf; by apply Hj|rewrite Hf; by apply Hj|done]. }
    run_step. apply (returns_read _ _ d p); [rewrite Hb; apply Hreq|]. rewrite bool_decide_true by done. cbn [negb].
    run_step. apply Hrec; [done|]. run_step.
    assert (∀ d', live d' = L0 → backup d' = L0 → returns (restored <-
       require_at live_path live (lit "Restored live database") (Journal PROMOTION_JOURNAL_VERSION);;
       (if negb (bool_decide (restored = p))
        then raise (lit "Prepared promotion rollback did not restore the recorded identity for " ++ live_path)
        else
         require_recorded live_path live restored (pj_previous_source_policy j) (pj_previous_structural_text j)
           (lit "Restored live database");;
         remove_prepared;; cleanup_backup)) Q d') as Hend.
    { intros d' Hl' Hb'. run_step. apply (returns_read _ _ d' p); [rewrite Hl'; apply Hreq|].
      rewrite bool_decide_true by done. cbn [negb]. run_step. apply Hrec; [done|]. run_step.
      apply returns_remove_prepared. apply returns_write, HQ. }
    destruct (bool_decide (found = Some p)) eqn:Ef.
    + run_step. apply Hend; [|done]. apply bool_decide_eq_true in Ef as ->.
      destruct Hcases as [[? _] | [[_ [= ->]] | [? _]]]; [done| |done]. by destruct (distinct _ Hp); apply Hj.
    + assert (∃ y, live d = Some y) as [y Hy] by (destruct Hl as [-> | [-> | [? _]]]; [eauto..|done]).
      apply (returns_restore _ d y x Hy); [by rewrite Hb|]. apply Hend; [cbn; congruence|exact Hb].
  - run_step. run_step. rewrite Hb. cbn [backup_for]. rewrite absent_file. run_step. run_step. run_step.
    destruct (_ || _); [apply returns_write|run_step]; by apply returns_remove_prepared.
Qed.

(** The auxiliary publications of the old live file can be read, and at the current schema
    they are there: what the recovery from a backup alone asks for. *)
Definition auxiliary_sound : Prop := ∀ p, previous_is live_path L0 (Some p) → ∃ policy structural,
  read_source_policy_exclusion_rollback_identity L0 p = Ok policy ∧
  read_structural_text_unit_rollback_identity L0 p = Ok structural ∧
  ∀ x, L0 = Some x → db_user_version x = SCHEMA_VERSION → is_Some policy ∧ is_Some structural.

Lemma auxiliary_read p x : auxiliary_sound → previous_is live_path L0 (Some p) → L0 = Some x → ∃ aux, ∀ path role,
  read_journal_less_recovery_auxiliary_identities path L0 p (Z.max (db_user_version x) 0) role = Ok aux.
Proof.
  intros Haux Hp Hx. destruct (Haux p Hp) as (policy & structural & Hpol & Hst & Hsome).
  unfold read_journal_less_recovery_auxiliary_identities. destruct (Z.max _ _ =? SCHEMA_VERSION) eqn:E.
  - apply Z.eqb_eq in E. assert (db_user_version x = SCHEMA_VERSION) as Ev by (unfold SCHEMA_VERSION in *; lia).
    destruct (Hsome x Hx Ev) as [[policy' ->] [structural' ->]]. exists (Some policy', Some structural'). intros path role.
    rewrite E. change (SOURCE_POLICY_PROMOTION_MIN_SCHEMA_VERSION <=? SCHEMA_VERSION) with true. cbn [mbind result_bind].
    rewrite Hpol. cbn. by rewrite Hst.
  - destruct (SOURCE_POLICY_PROMOTION_MIN_SCHEMA_VERSION <=? _); eexists; intros path role; cbn [mbind result_bind andb];
      [rewrite Hpol|]; cbn; reflexivity.
Qed.
Lemma returns_legacy p (Q : unit → Disk D → Prop) d : auxiliary_sound → previous_is live_path L0 (Some p) →
  live d = L0 → backup d = L0 → (∀ d', Q tt d') → returns (recover_legacy_promotion_backup live_path) Q d.
Proof.
  intros Haux Hp Hl Hb HQ. destruct (inspect_previous (backup_path live_path) p Hp) as (x & v & Hx & Hi & Hv).
  destruct (inspect_previous live_path p Hp) as (x' & v' & Hx' & Hi' & Hv').
  assert (x' = x) as -> by congruence. subst v' v. destruct (auxiliary_read p x Haux Hp Hx) as (aux & Ha).
  assert (∀ path, read_recovery_database_identity path L0 LegacyBackup = Ok (Some p)) as Hid
    by (intros path; apply previous_identity_at; auto).
  unfold recover_legacy_promotion_backup. run_step. unfold schema_version_at.
  eapply returns_read; [rewrite Hb, Hi; reflexivity|]. run_step.
  eapply (returns_read _ _ d p); [rewrite Hb; unfold require_identity; by rewrite Hid|]. run_step.
  eapply (returns_read _ _ d aux); [rewrite Hb; apply Ha|]. run_step. unfold live_identity. run_step.
  rewrite Hl, Hid. rewrite bool_decide_true by done. run_step. run_step.
  eapply returns_read; [rewrite Hl, Hi'; reflexivity|]. run_step. unfold auxiliary_at. run_step.
  rewrite Hl, Ha, bool_decide_true by done. run_step. cbn [negb]. run_step. run_step. apply returns_write, HQ.
Qed.

(** A recovery that nothing disturbs succeeds, unless the journal or the backup was cut short. *)
Lemma recovery_returns d : auxiliary_sound →
  Uncommitted live_path L0 S0 d ∨ Published live_path L0 S0 d → prepared d ≠ Some Torn →
  (backup d = L0 ∨ backup d ≠ Some db_empty) → returns (recover_interrupted_promotion_locked live_path) (λ _ _, True) d.
Proof.
  intros Haux Hd Ht Hnb. unfold recover_interrupted_promotion_locked. run_step. run_step.
  destruct Hd as [[Hl (Hb & Hpr & Hc)|p Hp Hl Hb Hpr Hc|p Hp Hl Hb Hpr Hc|j Hj Hl Hb Hpr Hc|Hp Hl (Hb & Hpr & Hc)]
    |[Hl (Hb & Hpr & Hc)|j Hj Hl Hb Hpr Hc]]; rewrite Hc, ?absent_file, ?present_file; cbn [andb]; run_step; run_step;
    rewrite Hpr, ?absent_file, ?present_file; cbn [andb].
  - do 2 run_step. rewrite Hb, absent_file. by run_step.
  - do 2 run_step. destruct (bool_decide _); [|by run_step]. apply (returns_legacy p); [done..| |done].
    by destruct Hb as [|Hb], Hnb as [|Hnb].
  - done.
  - run_step. unfold read_promotion_journal. apply (returns_read _ _ d j); [by rewrite Hpr, (jo_version _ _ _ _ Hj)|].
    by apply returns_rollback.
  - do 2 run_step. rewrite Hb, absent_file. by run_step.
  - do 2 run_step. rewrite Hb, absent_file. by run_step.
  - run_step. unfold read_promotion_journal. apply (returns_read _ _ d j); [by rewrite Hc, (jo_version _ _ _ _ Hj)|].
    run_step. unfold check_committed. rewrite (jo_version _ _ _ _ Hj). run_step.
    apply (returns_read _ _ d (pj_candidate j)).
    { rewrite Hl. unfold require_identity. rewrite (candidate_identity_at _ (pj_candidate j)); [done|apply Hj]. }
    destruct (jo_has_policy _ _ _ _ Hj) as [policy Ep]. destruct (jo_has_structural _ _ _ _ Hj) as [st Es].
    rewrite bool_decide_true, Ep, Es by done. cbn [negb]. run_step.
    apply (returns_read _ _ d tt).
    { rewrite Hl. cbn. rewrite (jo_policy _ _ _ _ Hj), Ep. cbn. by rewrite bool_decide_true. }
    apply (returns_read _ _ d tt).
    { rewrite Hl. cbn. rewrite (jo_structural _ _ _ _ Hj), Es. cbn. by rewrite bool_decide_true. }
    run_step. run_step. unfold cleanup_committed_promotion_artifacts. run_step. apply returns_write.
    unfold remove_committed. run_step. run_step. run_step. by run_step.
Qed.
End Progress.

(** ** Theorems *)
Section Theorems.
Context {D : Type} `{PromotionDatabase D} (live_path staged_path : str).

(** Attempts to open the store, each with the answer of the lock and its own script. *)
Definition recover_all (attempts : list (bool * list Outcome)) (d : Disk D) : Disk D :=
  foldl (λ d a, (recover_interrupted_promotion live_path a.1 d a.2).1.2) d attempts.
Definition has_no_publication (file : option D) : Prop :=
  read_recovery_database_identity live_path file CurrentPromotion = Ok None.
Definition distinct_identities (file : option D) (candidate : D) : Prop :=
  ∀ contract contract' p, read_recovery_database_identity live_path file contract = Ok (Some p) →
    read_recovery_database_identity live_path (Some candidate) contract' ≠ Ok (Some p).

Lemma recovery_step (P : Disk D → Prop) (Q : unit → Disk D → Prop) lock_free d : P d →
  wp P (λ _, P) (recover_interrupted_promotion_locked live_path) Q d →
  wp P (λ _, P) (recover_interrupted_promotion live_path lock_free)
    (λ _ d', P d' ∧ (promotion_artifacts_exist d = false ∨ lock_free = false) ∧ d' = d ∨ Q tt d') d.
Proof.
  intros Hd Hm s. unfold recover_interrupted_promotion. destruct (promotion_artifacts_exist d); [|by left; auto].
  revert s. change (wp P (λ _, P) (acquire_lock;; if lock_free then recover_interrupted_promotion_locked live_path else give tt)
    (λ _ d', P d' ∧ (true = false ∨ lock_free = false) ∧ d' = d ∨ Q tt d') d).
  wp_step. wp_step; [done|done|]. wp_step; [|wp_step; left; auto].
  eapply wp_mono; [exact Hm|done|done|]. intros [] d' HQ. by right.
Qed.
Lemma recover_all_keeps (P : Disk D → Prop) attempts d :
  (∀ d, P d → wp P (λ _, P) (recover_interrupted_promotion_locked live_path) (λ _, P) d) → P d → P (recover_all attempts d).
Proof.
  intros Hstep. revert d. induction attempts as [|[lock s] attempts IH]; intros d Hd; [done|].
  apply IH. cbn. pose proof (recovery_step P (λ _, P) lock d Hd (Hstep d Hd) s) as Hs.
  destruct (recover_interrupted_promotion live_path lock d s) as [[[[]|e|] d'] s']; cbn; [|done..].
  by destruct Hs as [[? _]|?].
Qed.

Lemma quiet_no_artifacts (d : Disk D) : promotion_artifacts_exist d = false → quiet d.
Proof.
  unfold promotion_artifacts_exist. intros [[Hb Hp]%orb_false_iff Hc]%orb_false_iff.
  by split_and!; apply eq_None_not_Some; eapply bool_decide_eq_false.
Qed.
Lemma uncommitted_quiet L0 S0 d : Uncommitted live_path L0 S0 d → quiet d →
  live d = L0 ∨ has_no_publication L0 ∧ live d = None.
Proof.
  intros Hd (Hb & Hpr & Hc). destruct Hd as [? _|p Hp ? _ _ _|? ? ? ? ? ?|? ? ? ? ? ?|? ? _]; try congruence; auto.
Qed.

(** [C4] A promotion happens or does not.  From a disk without traces of another promotion,
    whatever operation fails and wherever the process dies, the run settles on one side: then
    after any number of openings, each again failing or dying anywhere, the live file is the
    old one or the candidate (or, where the old one had no publication, missing or empty);
    every opening that succeeds leaves the candidate if the promotion happened and the old
    file otherwise; and a promotion that returned has happened. *)
Theorem promotion_all_or_nothing d0 candidate script answer d1 rest :
  quiet d0 → staged d0 = Some candidate → distinct_identities (live d0) candidate →
  promote_staged_snapshot live_path staged_path d0 script = (answer, d1, rest) →
  ∃ published : bool, (∀ stats, answer = Returned stats → published = true) ∧
  ∀ attempts, let d := recover_all attempts d1 in
    (live d = live d0 ∨ live d = Some candidate ∨
     has_no_publication (live d0) ∧ (live d = None ∨ live d = Some db_empty)) ∧
    ∀ s d' s', recover_interrupted_promotion live_path true d s = (Returned tt, d', s') →
      if published then live d' = Some candidate
      else live d' = live d0 ∨ has_no_publication (live d0) ∧ live d' = None.
Proof.
  intros Hq Hs Hdist Hrun.
  pose proof (promotion_safe live_path staged_path (live d0) candidate Hdist d0 eq_refl Hs Hq script) as Hp.
  rewrite Hrun in Hp.
  assert (Published live_path (live d0) candidate d1 ∨
    Uncommitted live_path (live d0) candidate d1 ∧ ∀ stats, answer ≠ Returned stats) as Hside
    by (destruct answer as [stats|e|]; [by left|destruct Hp; auto..]).
  clear Hp. destruct Hside as [Hp | [Hu Hno]]; [exists true|exists false]; (split; [naive_solver|]); intros attempts d.
  - assert (Published live_path (live d0) candidate d) as Hd
      by (apply recover_all_keeps; [by apply recovery_published|done]).
    assert (∀ d', Published live_path (live d0) candidate d' → live d' = Some candidate) as Hl by (by intros d' []).
    split; [right; left; auto|]. intros s d' s' Hr. apply Hl.
    pose proof (recovery_step _ _ true d Hd (recovery_published live_path _ _ d Hd) s) as Hk. rewrite Hr in Hk.
    by destruct Hk as [[? _]|?].
  - assert (Uncommitted live_path (live d0) candidate d) as Hd.
    { apply recover_all_keeps; [|done]. intros d' Hd'. eapply wp_mono; [by apply recovery_uncommitted|done|done|by intros _ ? []]. }
    split.
    + destruct Hd as [? _|? ? ? _ _ _|? ? ? _ _ _|j Hj Hl _ _ _|? ? _]; auto.
      destruct Hl as [?|[?|[Hn ?]]]; auto. right. right. split; [|done].
      pose proof (jo_previous _ _ _ _ Hj) as Hprev. by rewrite Hn in Hprev.
    + intros s d' s' Hr. pose proof (recovery_step _ _ true d Hd (recovery_uncommitted live_path _ _ Hdist d Hd) s) as Hk.
      rewrite Hr in Hk. destruct Hk as [(_ & [Ha|?] & ->)|[Hd' Hq']]; [|done|by apply (uncommitted_quiet _ candidate)].
      apply (uncommitted_quiet _ candidate); [done|by apply quiet_no_artifacts].
Qed.

(** [C14] Recovery succeeds.  After a promotion that failed or died anywhere, and any number
    of openings that failed or died anywhere, an opening that nothing disturbs succeeds,
    provided that the prepared journal and the backup were not cut short and that the
    auxiliary publications of the old database can be read. *)
Theorem interrupted_promotion_recovers d0 candidate script answer d1 rest attempts :
  quiet d0 → staged d0 = Some candidate → distinct_identities (live d0) candidate →
  auxiliary_sound live_path (live d0) →
  promote_staged_snapshot live_path staged_path d0 script = (answer, d1, rest) →
  let d := recover_all attempts d1 in
  prepared d ≠ Some Torn → backup d ≠ Some db_empty →
  ∃ d', recover_interrupted_promotion live_path true d [] = (Returned tt, d', []).
Proof.
  intros Hq Hs Hdist Haux Hrun d Ht Hb.
  assert (Uncommitted live_path (live d0) candidate d ∨ Published live_path (live d0) candidate d) as Hd.
  { pose proof (promotion_safe live_path staged_path (live d0) candidate Hdist d0 eq_refl Hs Hq script) as Hp.
    rewrite Hrun in Hp. apply (recover_all_keeps (λ d, Uncommitted live_path (live d0) candidate d ∨ Published live_path (live d0) candidate d)).
    - intros d' [Hd'|Hd'].
      + eapply wp_mono; [by apply recovery_uncommitted|by left|by left|intros ? ? [? _]; by left].
      + eapply wp_mono; [by apply recovery_published|by right|by right|by right].
    - destruct answer; [by right|destruct Hp; auto..]. }
  unfold recover_interrupted_promotion. destruct (promotion_artifacts_exist d); [|by exists d].
  destruct (recovery_returns live_path (live d0) candidate) with d as (a & d' & Hr & _); [|done|done|done|by right|].
  - intros p Hp Hc. apply (Hdist _ (Journal PROMOTION_JOURNAL_VERSION) p Hp). by apply (candidate_identity_at live_path).
  - exists d'. unfold andThen. cbn. destruct a. exact Hr.
Qed.

(** A program that under no script returns or changes the disk. *)
Definition stuck {A} (m : Program D A) (d : Disk D) : Prop :=
  ∀ script, match m d script with (Returned _, _, _) => False | (_, d', _) => d' = d end.

(** What a cut leaves.  A backup file that the failed copy left empty, or a prepared
    journal whose writer died, is never repaired: every later opening and every later
    promotion fails, whatever its script, and leaves the disk as it is. *)
Theorem cut_artifacts_stay d :
  committed d = None → prepared d = Some Torn ∨ prepared d = None ∧ backup d = Some db_empty →
  stuck (recover_interrupted_promotion live_path true) d ∧
  stuck (promote_staged_snapshot live_path staged_path) d.
Proof.
  intros Hc Hcut.
  assert (∀ Q, wp (λ d', d' = d) (λ _ d', d' = d) (recover_interrupted_promotion_locked live_path) Q d) as Hrec.
  { intros Q. unfold recover_interrupted_promotion_locked. wp_step. wp_step. rewrite Hc, absent_file. wp_step. wp_step.
    cbn [andb]. destruct Hcut as [Hp | [Hp Hb]]; rewrite Hp, ?absent_file, ?present_file.
    - wp_step. unfold read_promotion_journal. apply wp_read_op; [done|done|]. intros j. by rewrite Hp.
    - do 2 wp_step. rewrite Hb, present_file. unfold recover_legacy_promotion_backup. wp_step. wp_read as version _.
      wp_step. unfold require_at. wp_read as kept Hk. rewrite Hb in Hk. by apply require_not_empty in Hk. }
  assert (∀ (A : Type) (m : Program D A), wp (λ d', d' = d) (λ _ d', d' = d) m (λ _ _, False) d → stuck m d) as Hstuck.
  { intros A m Hm script. specialize (Hm script). by destruct (m d script) as [[[] ?] ?]. }
  split; apply Hstuck.
  - unfold recover_interrupted_promotion. assert (promotion_artifacts_exist d = true) as E.
    { unfold promotion_artifacts_exist. destruct Hcut as [-> | [_ ->]]; rewrite present_file; [by rewrite orb_true_r|done]. }
    intros s. rewrite E. revert s. change (wp (λ d', d' = d) (λ _ d', d' = d)
      (acquire_lock;; recover_interrupted_promotion_locked live_path) (λ _ _, False) d).
    wp_step. wp_step; [done|done|]. apply Hrec.
  - unfold promote_staged_snapshot. wp_step. wp_step; [done|done|]. wp_step. apply Hrec.
Qed.

(** What a promotion asks of the candidate and of the old live file. *)
Record promotable (file : option D) (candidate : D) : Prop := {
  pm_identity : ∃ c, read_complete_promotion_database_identity live_path (Some candidate) = Ok (Some c) ∧
    (∃ policy, db_source_policy candidate c = Ok (Some policy)) ∧
    (∃ structural, db_structural_text candidate c = Ok (Some structural));
  pm_bytes : is_ok (db_logical_bytes candidate) = true;
  pm_previous : ∃ p, read_recovery_database_identity live_path file CurrentPromotion = Ok p;
  pm_auxiliary : auxiliary_sound live_path file;
  pm_previous_bytes : ∀ x, file = Some x → is_ok (db_logical_bytes x) = true;
}.

Lemma complete_at path path' role file c :
  read_complete_promotion_database_identity path file = Ok (Some c) →
  require_identity path' role (read_complete_promotion_database_identity path' file) = Ok c.
Proof.
  unfold require_identity, read_complete_promotion_database_identity, inspect_promotion_database.
  destruct file as [x|]; [|done]. destruct (db_quick_check x) as [check|e]; [|done]. cbn.
  destruct (negb _); [done|]. cbn. destruct (_ =? 0); [done|]. destruct (negb _); [done|].
  by intros ->.
Qed.
Lemma returns_recovery_quiet Q (d : Disk D) : quiet d → Q tt d →
  returns (recover_interrupted_promotion_locked live_path) Q d.
Proof.
  intros (Hb & Hp & Hc) HQ. unfold recover_interrupted_promotion_locked. run_steps. rewrite Hc, Hp, !(absent_file (A := JournalFile)).
  cbn [andb]. run_steps. rewrite Hb, (absent_file (A := D)). by run_steps.
Qed.
Lemma returns_write_journal j Q (d : Disk D) : prepared d = None → Q tt (set_prepared (Some (Whole j)) d) →
  returns (write_promotion_journal live_path j) Q d.
Proof.
  intros Hp HQ. unfold write_promotion_journal, or_give_up. run_steps. rewrite Hp, (absent_file (A := JournalFile)).
  run_steps; done.
Qed.
(** From the candidate's journal to the published candidate. *)
Lemma returns_install j Q (d : Disk D) c policy structural candidate :
  read_complete_promotion_database_identity live_path (Some candidate) = Ok (Some c) →
  db_source_policy candidate c = Ok (Some policy) → db_structural_text candidate c = Ok (Some structural) →
  pj_candidate j = c → pj_candidate_source_policy j = Some policy → pj_candidate_structural_text j = Some structural →
  staged d = Some candidate → committed d = None →
  Q tt (set_prepared None (set_committed (prepared d) (set_live (Some candidate) d))) →
  returns (install_candidate live_path staged_path j) Q d.
Proof.
  intros Hc Hpol Hst Ec Epol Est Hs Hcom HQ. unfold install_candidate, restore_from, open_live, or_undo.
  run_steps.
  lazymatch goal with |- returns _ _ ?x => replace x with (set_live (Some candidate) d) by (unfold id; cbn; by rewrite Hs) end.
  eapply returns_read; [by eapply complete_at|]. rewrite bool_decide_true by done. cbn [negb].
  rewrite Epol, Est. run_steps.
  cbn [require_candidate_source_policy_identity require_recorded_source_policy_identity live set_live
    read_source_policy_exclusion_rollback_identity]. rewrite Hpol. cbn [mbind result_bind]. rewrite bool_decide_true by done.
  run_steps.
  cbn [require_candidate_structural_text_identity require_recorded_structural_text_identity live set_live
    read_structural_text_unit_rollback_identity]. rewrite Hst. cbn [mbind result_bind]. rewrite bool_decide_true by done.
  unfold commit_promotion_journal. run_steps.
  cbn [committed set_live]. rewrite Hcom, (absent_file (A := JournalFile)). by run_steps.
Qed.
Lemma returns_back_up p policy structural Q (d : Disk D) x : live d = Some x →
  read_recovery_database_identity live_path (live d) CurrentPromotion = Ok (Some p) →
  read_source_policy_exclusion_rollback_identity (live d) p = Ok policy →
  read_structural_text_unit_rollback_identity (live d) p = Ok structural →
  is_ok (db_logical_bytes x) = true → (∀ n, Q n (set_backup (live d) d)) →
  returns (back_up_live live_path p policy structural) Q d.
Proof.
  intros Hx Hid Hpol Hst Hn HQ. unfold back_up_live. run_steps. apply (returns_open_live _ _ x Hx). run_steps. eapply (returns_read _ _ _ p).
  { cbn [backup set_backup]. unfold require_identity.
    by rewrite (recovery_identity_at live_path (backup_path live_path) _ _ CurrentPromotion (Some p) (λ v Hv, Hv) Hid). }
  rewrite bool_decide_true by done. cbn [negb]. run_steps.
  apply returns_recorded; [exact Hpol|exact Hst|]. unfold logical_bytes_at.
  destruct (db_logical_bytes x) as [n|e] eqn:En; [|done].
  apply (returns_read _ _ _ n); [cbn [backup set_backup]; by rewrite Hx|apply HQ].
Qed.

(** An undisturbed promotion.  From a disk without traces of another, with a complete
    candidate in the staged file and an old live file that can be read, the run returns: the
    candidate is live, the staged file is gone and no backup or journal remains. *)
Theorem promotion_installs d0 candidate :
  quiet d0 → staged d0 = Some candidate → promotable (live d0) candidate →
  ∃ stats, promote_staged_snapshot live_path staged_path d0 [] =
    (Returned stats, mkDisk (Some candidate) None None None None, []).
Proof.
  intros Hq Hs [(c & Hc & [policy Hpol] & [structural Hst]) Hbytes [p Hp] Haux Hpb].
  assert (returns (promote_staged_snapshot live_path staged_path) (λ _ d, d = mkDisk (Some candidate) None None None None) d0)
    as (stats & d & Hrun & ->); [|by exists stats].
  destruct (db_logical_bytes candidate) as [n|e] eqn:En; [|done].
  pose proof Hq as (Hb & Hpr & Hcm).
  unfold promote_staged_snapshot. run_steps. change (id d0) with d0. apply returns_recovery_quiet; [done|]. run_steps.
  exists tt, d0. split; [unfold refuse_artifacts; by rewrite (quiet_artifacts d0 Hq)|].
  run_steps. eapply returns_read; [rewrite Hs; by apply (complete_at live_path)|]. run_steps.
  eapply returns_read; [rewrite Hs; exact Hpol|]. rewrite present_file. run_steps.
  eapply returns_read; [rewrite Hs; exact Hst|]. rewrite present_file. run_steps.
  eapply returns_read; [rewrite Hs; exact En|]. run_steps. eapply returns_read; [exact Hp|].
  assert (∀ j (stats : CorePromotionStats) d, prepared d = None → committed d = None → staged d = Some candidate →
    pj_candidate j = c → pj_candidate_source_policy j = Some policy → pj_candidate_structural_text j = Some structural →
    returns (written <- attempt (write_promotion_journal live_path j);;
      match written with
      | Err error =>
          found <- exists_at prepared;;
          (if found : bool then give tt else _ <- attempt cleanup_backup;; give tt);; raise error
      | Ok _ =>
          install_candidate live_path staged_path j;;
          _ <- attempt cleanup_staged;;
          _ <- attempt cleanup_committed_promotion_artifacts;;
          give stats
      end) (λ _ d', d' = mkDisk (Some candidate) None None None None) d) as Hend.
  { intros j stats d H1 H2 H3 H4 H5 H6. run_steps. apply returns_write_journal; [done|]. run_steps.
    eapply returns_install; [exact Hc|exact Hpol|exact Hst|done..|]. run_steps.
    reflexivity. }
  destruct p as [p|].
  - destruct (Haux p Hp) as (policy' & structural' & Hpol' & Hst' & _).
    assert (∃ x, live d0 = Some x) as [x Hx] by (clear -Hp; destruct (live d0); [eauto|done]).
    run_steps. eapply returns_read; [exact Hpol'|]. run_steps. eapply returns_read; [exact Hst'|]. run_steps.
    rewrite (set_backup_same d0 None Hb). run_steps. unfold logical_bytes_at.
    pose proof (Hpb x Hx) as Hxb. destruct (db_logical_bytes x) as [nx|e] eqn:Enx; [|done].
    eapply returns_read; [rewrite Hx; exact Enx|]. run_steps.
    eapply returns_back_up; [exact Hx|exact Hp|exact Hpol'|exact Hst'|by rewrite Enx|]. intros nb. run_to_journal.
    by apply Hend.
  - do 6 run_step. rewrite (set_backup_same d0 None Hb). run_to_journal. by apply Hend.
Qed.
End Theorems.

(** A small store for the witnesses. *)
Module PromotionSample.
Record ToyDb : Type := mkToy { toy_version : Z; toy_row : option IndexPublicationRow }.
Definition policy_identity : SourcePolicyExclusionRollbackIdentity :=
  mkPolicyIdentity (lit "p") (lit "w") (lit "g") (lit "r") 5 0 (lit "d") (lit "v1") 10 3.
Definition structural_identity : StructuralTextUnitRollbackIdentity :=
  mkStructuralIdentity (lit "g") (lit "r") 5 0 (lit "d") 0 (lit "e") 1 (lit "native_v1").
#[export] Instance toy_database : PromotionDatabase ToyDb := {|
  db_quick_check _ := Ok (lit "ok");
  db_user_version := toy_version;
  db_publication_row x := Some (toy_row x);
  db_marker _ := Some false;
  db_source_policy _ _ := Ok (Some policy_identity);
  db_structural_text _ _ := Ok (Some structural_identity);
  db_logical_bytes _ := Ok 4096;
  db_empty := mkToy 0 None;
  db_empty_sound := eq_refl;
  db_empty_version := eq_refl |}.
Definition database (generation : Z) (id : str) : ToyDb :=
  mkToy SCHEMA_VERSION (Some (mkPublicationRow generation id (lit "run") (lit "full") 5)).
Definition publication (generation : Z) (id : str) : IndexPublicationRecord :=
  mkPublication generation id (lit "run") Mode.Full 5.
Definition old_db : ToyDb := database 1 (lit "g1").
Definition new_db : ToyDb := database 2 (lit "g2").
Definition start : Disk ToyDb := mkDisk (Some old_db) None (Some new_db) None None.
Definition live_path : str := lit "/c/core.db".
Definition staged_path : str := lit "/c/core.staged.db".
(** The process dies at the [n]-th operation; the copy of the backup fails. *)
Definition dies_at (n : nat) : list Outcome := repeat Done n ++ [Crash].
Definition copy_fails : list Outcome := repeat Done 11 ++ [FailTorn (lit "disk full")].
Definition promote : Program ToyDb CorePromotionStats := promote_staged_snapshot live_path staged_path.
(** The process dies with the candidate copied and the journal still prepared. *)
Definition died : Disk ToyDb := (promote start (dies_at 25)).1.2.
Definition out_of_space : Disk ToyDb := (promote start copy_fails).1.2.
Lemma old_new_distinct : distinct_identities live_path (Some old_db) new_db.
Proof.
  intros contract contract' p. unfold read_recovery_database_identity.
  assert (inspect_promotion_database live_path (Some old_db) = Ok (Some (old_db, SCHEMA_VERSION))) as -> by done.
  assert (inspect_promotion_database live_path (Some new_db) = Ok (Some (new_db, SCHEMA_VERSION))) as -> by done.
  cbn [mbind result_bind]. change (SCHEMA_VERSION =? 0) with false. change (SCHEMA_VERSION =? INCOMPLETE_INCREMENTAL_SCHEMA_VERSION) with false.
  cbv iota. assert (read_complete_index_publication old_db = Ok (Some (publication 1 (lit "g1")))) as Eo by (vm_compute; reflexivity).
  assert (read_complete_index_publication new_db = Ok (Some (publication 2 (lit "g2")))) as En by (vm_compute; reflexivity).
  destruct (supports_complete_schema contract _); [|done]. rewrite Eo. intros [= <-].
  destruct (supports_complete_schema contract' _); [rewrite En|done]. by intros [= ?].
Qed.
Lemma old_auxiliary : auxiliary_sound live_path (Some old_db).
Proof. intros p _. by exists (Some policy_identity), (Some structural_identity). Qed.
End PromotionSample.
Import PromotionSample.

Lemma promotion_all_or_nothing_witness :
  (promote start (dies_at 25)).1.1 = Crashed ∧ live died = Some new_db ∧
  live (recover_all live_path [(true, dies_at 6); (false, [])] died) = Some new_db ∧
  live (recover_interrupted_promotion live_path true died []).1.2 = Some old_db ∧
  ∃ published : bool, published = false ∧ ∀ attempts,
    let d := recover_all live_path attempts died in
    live d = Some old_db ∨ live d = Some new_db ∨
    has_no_publication live_path (Some old_db) ∧ (live d = None ∨ live d = Some db_empty).
Proof.
  split_and!; [vm_compute; reflexivity..|].
  destruct (promotion_all_or_nothing live_path staged_path start new_db (dies_at 25)
    (promote start (dies_at 25)).1.1 died (promote start (dies_at 25)).2) as (published & _ & Hall);
    [done|reflexivity|exact old_new_distinct|vm_compute; reflexivity|].
  exists published. split; [|intros attempts; exact (proj1 (Hall attempts))].
  destruct published; [|reflexivity]. destruct (Hall []) as [_ Hrec].
  cbv zeta in Hrec. set (before := recover_all live_path [] died) in Hrec.
  assert (∃ d', recover_interrupted_promotion live_path true before [] = (Returned tt, d', []) ∧ live d' = Some old_db)
    as (d' & Hr & Hold) by (eexists; split; [vm_compute; reflexivity|reflexivity]).
  apply Hrec in Hr. rewrite Hold in Hr. discriminate Hr.
Defined.
Lemma interrupted_promotion_recovers_witness :
  ∃ d', recover_interrupted_promotion live_path true died [] = (Returned tt, d', []).
Proof.
  refine (interrupted_promotion_recovers live_path staged_path start new_db (dies_at 25)
    (promote start (dies_at 25)).1.1 died (promote start (dies_at 25)).2 [] _ eq_refl old_new_distinct old_auxiliary _ _ _);
    [done|vm_compute; reflexivity|vm_compute; discriminate..].
Defined.
Lemma cut_artifacts_stay_witness :
  (promote start copy_fails).1.1 = Failed (lit "disk full") ∧ live out_of_space = Some old_db ∧
  stuck (recover_interrupted_promotion live_path true) out_of_space.
Proof.
  split_and!; [vm_compute; reflexivity..|].
  refine (proj1 (cut_artifacts_stay live_path staged_path out_of_space _ _)); [|right]; vm_compute; done.
Defined.
Lemma promotion_installs_witness : ∃ stats,
  promote start [] = (Returned stats, mkDisk (Some new_db) None None None None, []).
Proof.
  refine (promotion_installs live_path staged_path start new_db _ eq_refl _); [done|]. split.
  - exists (publication 2 (lit "g2")). split_and!; [vm_compute; reflexivity|by eexists..].
  - reflexivity.
  - exists (Some (publication 1 (lit "g1"))). vm_compute; reflexivity.
  - exact old_auxiliary.
  - reflexivity.
Defined.
